(* ===== verification/_CoqProject ===== *)
-Q . S2P
Prelude.v
Bytes.v
Strings.v
Layout.v
Entries.v
Hashes.v
PageFormat.v
Records.v
NodeCodec.v
NodeView.v
CowTree.v
TreeShape.v
TreeInvariant.v
TreeRep.v
TreeDelete.v
TreeScan.v
Tree.v
Flush.v
Bulk.v
FileStore.v
Recovery.v
Commit.v
Atomicity.v
TreeRead.v
Iterator.v
PageCache.v
Snapshots.v
Transactions.v
Created.v
Float64.v
Values.v
IndexKey.v
CompoundKey.v
Documents.v
IndexTree.v
IndexTreeShape.v
IndexTreeUpdates.v
IndexTreeMap.v
DocumentCodec.v
DocumentRoundtrip.v
FloatArith.v
Any.v
Update.v
Query.v
Orders.v
QueryResults.v
QueryCompile.v
IndexDefinitions.v
QueryPlan.v
PlanIntervals.v
PlanSoundness.v
MemoryIndexes.v
MemoryDatabase.v
MemoryMutations.v
MemoryEffects.v
MemoryQueries.v
QueryDelta.v
ReactiveTrees.v
ReactiveViews.v
StoredValues.v
CommitCodec.v
IndexRecords.v
IndexBuilds.v
SystemRecords.v
SystemStore.v
DocumentRecords.v
IndexWrite.v
CommitLog.v
DocumentWrite.v
Collections.v
DocumentSteps.v
DocumentPublish.v
CommitHistory.v
SnapshotReads.v
CommitStreams.v
Replication.v
DocumentTransactions.v
DocumentCommits.v
StreamDelivery.v
StorageExamples.v
