(* ===== verification/Prelude.v ===== *)
(** * Meldbase: a verification library

    Meldbase is an embedded document database in Go. This library models its
    storage engine ([src/internal/storage]), the data model, codecs, queries,
    updates and in-memory mode of the database ([src/internal/database]) and the
    in-memory index ([src/internal/index]), and proves them correct. Definitions
    keep the names of the Go functions; a type's fields carry a short prefix.

    ** The program and the files that model it

    Every file may use the ones before it in [_CoqProject].

    - Foundations. [Prelude]: errors, results, tactics, binary search. [Bytes],
      [Strings]: byte strings, fixed-width integers, slices, readers, sorting of
      strings. [Layout]: records written by [put] and read by slicing. [Entries]:
      sorted association lists, the abstract content of maps and trees.
      [Hashes]: SHA-256 and CRC-32C. [Orders]: [sort.SliceStable] and
      [container/heap], and the class [Lawful] of comparisons with its instances.
      [Float64], [FloatArith]: binary64 as bit patterns, and its addition.

    - Pages and trees of the file. [PageFormat] (format.go), [Records]
      (freespace_codec.go, collection_codec.go), [NodeCodec] and [NodeView]
      (btree_codec.go, btree_read.go), [CowTree] with [TreeShape], [TreeInvariant],
      [TreeRep], [TreeDelete], [TreeScan] and [Tree] (btree.go), [Flush], [Bulk]
      (btree_bulk.go), [Iterator] (btree_iterator.go), [TreeRead] (lookups by root
      page). The tree is written against the class [CowTree.PageStore], the pages
      of a transaction; [Flush.PageStoreLaws] is what it relies on, and
      [FileStore] provides the instance.

    - The file. [FileStore] (pages and write transactions of file.go), [Recovery]
      (choosing the newest intact version), [Commit] (publication and free space),
      [Atomicity] (crashes), [PageCache] (pagecache.go), [Snapshots],
      [Transactions] (trees across a transaction), [Created] (new files).

    - Logical storage. [StoredValues] (overflow pages), [CommitCodec] and
      [CommitLog] (commitlog.go), [IndexRecords], [IndexBuilds], [IndexWrite]
      (indexes), [SystemRecords] and [SystemStore] (system.go), [DocumentRecords],
      [DocumentWrite] (documents.go), [Replication], [CommitStreams] (cursor.go,
      live.go). [Collections] is their specification: a database as maps, and a
      document transaction as a function of it. [DocumentSteps],
      [DocumentPublish], [DocumentTransactions] and [DocumentCommits] are the
      simulation, step by step; [CommitHistory], [SnapshotReads] and
      [StreamDelivery] treat the log as a history of batches. [StorageExamples]
      holds runs on a new file.

    - Values and documents. [Values] (value.go, the comparisons of query.go),
      [Any] (ValueOf), [Documents] (document.go), [IndexKey], [CompoundKey]
      (index_key.go, compound_index_key.go), [DocumentCodec] and
      [DocumentRoundtrip] (document_codec.go, document_size.go).

    - Queries and updates. [Update] (update.go), [Query] (evaluation and budgets),
      [QueryCompile] (filter.go and query_validate.go), [QueryResults]
      (query_results.go), [IndexDefinitions] (index_definition.go), [QueryPlan],
      [PlanIntervals], [PlanSoundness] (query_plan.go).

    - The database in memory. [IndexTree], [IndexTreeShape], [IndexTreeUpdates],
      [IndexTreeMap] (index/btree.go), [MemoryIndexes], [MemoryDatabase],
      [MemoryMutations], [MemoryEffects] (database.go, indexes.go, update.go),
      [MemoryQueries] (query_memory_access.go, cursor.go).

    - Live results. [QueryDelta] (query_delta.go), [ReactiveTrees]
      (reactive_tree.go), [ReactiveViews] (reactive_shared.go).

    ** What the theorems show

    - Storage is safe under crashes. [Atomicity.update_atomic], [update_outcome]
      and [update_durable] are about any update, [Snapshots.commit_all_or_nothing]
      about the map a tree holds, [Created.create_opens] about new files.
    - Trees are sorted maps. [Tree.tree_is_sorted_map] and
      [tree_operations_refine] in memory, [Snapshots.copy_on_write] through a
      flush, [Iterator.TreeIterator_scans] and [TreeIterator_terminates] for scans
      interleaved with commits, [Bulk.SortedTreeBuilder_builds] for sorted builds,
      [PageCache.cache_transparent] for cached reads.
    - Encodings are exact: pages, nodes, documents, stored values, index keys and
      compound keys decode to what was encoded and nothing else is accepted, and
      the byte order of keys is the order of values.
    - Document transactions refine the specification
      ([DocumentCommits.document_transactions_commit]); the log returns what was
      appended and prunes only what nothing needs
      ([CommitHistory.commit_log_retention]); a live stream delivers every later
      batch once and in order ([StreamDelivery.live_streams_deliver]).
    - Filters, updates, results and plans compute what their reference definitions
      say ([QueryCompile.filters_type_checked], [Query.matchWithBudget_correct],
      [Update.update_correct], [QueryResults.query_results_correct],
      [PlanSoundness.plan_covers_matches]).
    - The database in memory keeps its invariant
      ([MemoryEffects.memory_database_invariant]), each mutation does exactly what
      it promises or is refused for a named reason, and a query gives the same
      page whatever plan it runs ([MemoryQueries.memory_query_correct]).
    - A delta leads a subscriber from one result to the next, and a reactive view
      kept up to date by changes is the view a rebuild would give
      ([ReactiveViews.reactive_views_follow_database]).

    ** Conventions and bounds

    A fallible function returns a [result]; [ErrPanic] and [ErrFuel] are not Go
    errors, and the theorems show where they do not arise. Machine integers are
    [Z] with their ranges written out, bytes [Init.Byte.byte]. Code that mutates
    returns the new state. A Go map is the list of its bindings in the order it is
    visited, or a [gmap]. A nil map reads as an empty one and panics on assignment;
    [VObject] says which objects hold one, and updates panic on them.

    Fuel: the recursion of a tree operation follows the height of the tree; the
    theorems ask for more fuel than the height, plus one level for each operation
    of a sequence, since each may grow the tree by one. A document or filter is
    cut off by the depth limits of the code (64 for values, [MaxDepth + 2] levels
    for a filter), so its fuel never runs out. The walk of node views may be
    endless in Go on a corrupt file; there the fuel is the number of pages
    visited, and the theorems ask for a well-formed tree.

    ** Assumptions

    Code outside the repository is a parameter: the identifiers drawn at random,
    the clock, and the priority hash of the treaps. Each call is one step under
    the lock that the code holds. [sort.Slice] and [sort.SliceStable] are a stable
    insertion sort, which is what they compute for the strict weak orders used.
    The theorems on document transactions take the index keys from a set in which
    no key is a prefix of another, and ask that the data fits the limits of the
    file ([fits]).

    ** What is not modelled

    I/O errors are what the oracle of [Commit] says and otherwise crashes only.
    Locks, waiting, cancellation, clocks, statistics and explain output, and the
    options with their defaults are left out. So are: reachability audits, restoring
    free space and retained bytes when a file opens, the transactions that
    build indexes and the background jobs around them, backup and archives, the
    durable mode of the database with its commit coordinator, subscriptions with
    their queues and replay, the JSON wire format (with the size check it gives
    [CompileQuery]), replication between processes, the server, the public
    wrappers, and the commands. They are I/O, concurrency around the functions
    modelled here, or glue. *)
From stdpp Require Export base tactics list sorting strings.
From Stdlib Require Export ZArith Lia Bool.
From Stdlib Require Import Permutation Sorted.

#[global] Open Scope Z_scope.

(** ** Results of fallible Go functions *)

(** The sentinel errors the modelled packages return. Go functions return a
    value and an [error]; a model returns one [result]. *)
Inductive gerror :=
| ErrCorrupt
| ErrInvalidDocument
| ErrNodeFull
| ErrKeyTooBig
| ErrUnsupportedFormat
| ErrUnsupportedFeature
| ErrStorageLimit
| ErrNotIndexable
| ErrMagnitudeOverflow
| ErrIO
| ErrClosed
| ErrInvalidUpdate
| ErrInvalidFilter
| ErrImmutableID
| ErrQueryBudget
| ErrBadTuple
| ErrBadDirection
| ErrKeyTooLarge
| ErrDocumentConflict
| ErrDocumentExists
| ErrCollectionExists
| ErrUniqueConflict
| ErrHistoryPinned
| ErrHistoryLost
| ErrConsumerExists
| ErrConsumerNotFound
| ErrCursorClosed
| ErrNoDeliveredCommit
| ErrIndexExists
| ErrIndexNotFound
| ErrIndexKeyTooLarge
| ErrCASMismatch
| ErrInvalidIndex
| ErrDuplicateKey
| ErrDuplicateID
| ErrMutationLimit
| ErrResourceLimit
| ErrInvalidDelta
| ErrInvalidCollection
(** Unnamed errors: a document changed twice in one transaction, an index entry
    that is already there. *)
| ErrDuplicateMutation
| ErrDuplicateEntry
(** Not Go errors: an index out of range, and a recursion deeper than the
    model's fuel. The theorems show where neither happens. *)
| ErrPanic
| ErrFuel.

#[export] Instance gerror_eq_dec : EqDecision gerror.
Proof. solve_decision. Defined.

Inductive result (A : Type) :=
| Ok (a : A)
| Err (e : gerror).
Arguments Ok {A} a.
Arguments Err {A} e.

#[export] Instance result_fmap : FMap result := fun A B f m =>
  match m with Ok a => Ok (f a) | Err e => Err e end.

(** Sequencing: the rest runs on success, an error is returned as it is. *)
Definition rbind {A B} (m : result A) (f : A -> result B) : result B :=
  match m with Ok a => f a | Err e => Err e end.
Definition obind {A B} (m : option A) (f : A -> option B) : option B :=
  match m with Some a => f a | None => None end.

Declare Scope meld_scope.
Notation "'let*' p ':=' e 'in' k" := (rbind e (fun p => k))
  (at level 10, p pattern, e at level 200, k at level 200) : meld_scope.
Notation "'let?' p ':=' e 'in' k" := (obind e (fun p => k))
  (at level 10, p pattern, e at level 200, k at level 200) : meld_scope.
#[global] Open Scope meld_scope.

(** [guard_err b e] is Go's [if !b { return e }]. *)
Definition guard_err (b : bool) (e : gerror) : result unit :=
  if b then Ok tt else Err e.

Definition is_ok {A} (r : result A) : bool :=
  match r with Ok _ => true | Err _ => false end.

(** [of_option e o]: a callee with one possible error, reported as [e]. *)
Definition of_option {A} (e : gerror) (o : option A) : result A :=
  match o with Some a => Ok a | None => Err e end.

(** Injectivity without the reductions of [injection]. *)
Lemma Ok_inj {A} (a b : A) : Ok a = Ok b -> a = b.
Proof. congruence. Qed.
Lemma Some_injective {A} (a b : A) : Some a = Some b -> a = b.
Proof. congruence. Qed.

Lemma obind_some {A B} (m : option A) (f : A -> option B) b :
  obind m f = Some b <-> exists a, m = Some a /\ f a = Some b.
Proof.
  destruct m as [a|]; cbn; split.
  - eauto.
  - intros (? & [= <-] & ?); done.
  - discriminate.
  - intros (? & ? & ?); discriminate.
Qed.

Lemma rbind_ok {A B} (m : result A) (f : A -> result B) b :
  rbind m f = Ok b <-> exists a, m = Ok a /\ f a = Ok b.
Proof.
  destruct m as [a|e]; cbn; split.
  - eauto.
  - intros (? & [= <-] & ?); done.
  - discriminate.
  - intros (? & ? & ?); discriminate.
Qed.

Lemma guard_err_ok b e u : guard_err b e = Ok u <-> b = true.
Proof. destruct b, u; cbn; split; congruence. Qed.

(** Runs a list of fallible steps in order and stops at the first error. *)
Fixpoint seqR {A} (l : list (result A)) : result (list A) :=
  match l with
  | [] => Ok []
  | r :: l => let* a := r in let* rest := seqR l in Ok (a :: rest)
  end.

Lemma seqR_ok {A} (l : list (result A)) (o : list A) :
  seqR l = Ok o <-> l = Ok <$> o.
Proof.
  revert o; induction l as [|r l IH]; intros o; simpl.
  - destruct o; simpl; split; congruence.
  - rewrite rbind_ok. setoid_rewrite rbind_ok. split.
    + intros (a & -> & rest & Hr & [= <-]). apply IH in Hr. by subst.
    + destruct o as [|a o]; simpl; [discriminate|]. intros [= -> ->].
      exists a. split; [done|]. exists o. split; [by apply IH|done].
Qed.

(** ** Tactics *)

(** Splits boolean conjunctions and reflects comparisons in the context. *)
Ltac breflect :=
  repeat match goal with
  | H : _ && _ = true |- _ => apply andb_true_iff in H as [? ?]
  | H : _ || _ = false |- _ => apply orb_false_iff in H as [? ?]
  | H : negb _ = true |- _ => apply negb_true_iff in H
  | H : negb _ = false |- _ => apply negb_false_iff in H
  | H : (_ <? _) = true |- _ => apply Z.ltb_lt in H
  | H : (_ <? _) = false |- _ => apply Z.ltb_ge in H
  | H : (_ <=? _) = true |- _ => apply Z.leb_le in H
  | H : (_ <=? _) = false |- _ => apply Z.leb_gt in H
  | H : (_ =? _) = true |- _ => apply Z.eqb_eq in H
  | H : (_ =? _) = false |- _ => apply Z.eqb_neq in H
  | H : (_ >? _) = _ |- _ => rewrite Z.gtb_ltb in H
  | H : (_ >=? _) = _ |- _ => rewrite Z.geb_leb in H
  end.

(** Turns a goal about boolean comparisons into arithmetic. *)
Ltac bgoal :=
  repeat match goal with
  | |- _ && _ = true => apply andb_true_iff; split
  | |- _ || _ = false => apply orb_false_iff; split
  | |- negb _ = true => apply negb_true_iff
  | |- negb _ = false => apply negb_false_iff
  | |- (_ <? _) = true => apply Z.ltb_lt
  | |- (_ <? _) = false => apply Z.ltb_ge
  | |- (_ <=? _) = true => apply Z.leb_le
  | |- (_ <=? _) = false => apply Z.leb_gt
  | |- (_ =? _) = true => apply Z.eqb_eq
  | |- (_ =? _) = false => apply Z.eqb_neq
  | |- context [_ >? _] => rewrite Z.gtb_ltb
  | |- context [_ >=? _] => rewrite Z.geb_leb
  end.

(** Inverts every successful bind of the context; the last step keeps the name
    of the inverted hypothesis. *)
Ltac inv_ok :=
  repeat match goal with
  | H : rbind _ _ = Ok _ |- _ =>
      let a := fresh "a" in let H1 := fresh "Hok" in let H2 := fresh "Hrest" in
      apply rbind_ok in H as (a & H1 & H2); cbn beta in H2; rename H2 into H
  | H : obind _ _ = Some _ |- _ =>
      let a := fresh "a" in let H1 := fresh "Hok" in let H2 := fresh "Hrest" in
      apply obind_some in H as (a & H1 & H2); cbn beta in H2; rename H2 into H
  | H : guard_err _ _ = Ok _ |- _ => apply guard_err_ok in H
  | H : Ok _ = Ok _ |- _ => apply Ok_inj in H
  | H : Err _ = Ok _ |- _ => discriminate H
  | H : Some _ = Some _ |- _ => apply Some_injective in H
  | H : None = Some _ |- _ => discriminate H
  end.

(** ** Binary search *)

(** Go's [sort.Search] on [i, j): the loop halves the interval. *)
Fixpoint search_loop (fuel : nat) (f : nat -> bool) (i j : nat) : nat :=
  match fuel with
  | O => i
  | S fuel =>
      if (i <? j)%nat then
        let h := ((i + j) / 2)%nat in
        if negb (f h) then search_loop fuel f (h + 1) j else search_loop fuel f i h
      else i
  end.

Definition sort_Search (n : nat) (f : nat -> bool) : nat := search_loop n f 0 n.

Lemma search_loop_spec fuel f n i j :
  (forall a b, a <= b < n -> f a = true -> f b = true)%nat ->
  (i <= j <= n)%nat -> (j - i <= fuel)%nat ->
  (forall a, a < i -> f a = false)%nat -> (forall b, j <= b < n -> f b = true)%nat ->
  let r := search_loop fuel f i j in
  (r <= n)%nat /\ (forall a, a < r -> f a = false)%nat /\ (forall b, r <= b < n -> f b = true)%nat.
Proof.
  intros Hm. revert i j. induction fuel as [|fuel IH]; intros i j Hij Hf Hlo Hhi; cbn [search_loop].
  - assert (i = j) by lia. subst. repeat split; auto. lia.
  - destruct (Nat.ltb_spec i j) as [Hlt|Hge].
    + assert (Hh : (i <= (i + j) / 2 < j)%nat).
      { split; [apply Nat.div_le_lower_bound; lia|apply Nat.Div0.div_lt_upper_bound; lia]. }
      set (h := ((i + j) / 2)%nat) in *. destruct (f h) eqn:E; cbn [negb].
      * apply IH; [lia|lia|done|]. intros b Hb. apply (Hm h b); [lia|done].
      * apply IH; [lia|lia| |done]. intros a Ha. destruct (f a) eqn:Ea; [|done].
        rewrite <- E. symmetry. apply (Hm a h); [lia|done].
    + assert (i = j) by lia. subst. repeat split; auto. lia.
Qed.

Lemma sort_Search_spec n f :
  (forall a b, a <= b < n -> f a = true -> f b = true)%nat ->
  (sort_Search n f <= n)%nat /\ (forall a, a < sort_Search n f -> f a = false)%nat /\
  (forall b, sort_Search n f <= b < n -> f b = true)%nat.
Proof. intros Hm. apply (search_loop_spec n f n 0 n Hm); lia. Qed.

Lemma search_loop_le fuel f i j : (i <= j)%nat -> (search_loop fuel f i j <= j)%nat.
Proof.
  revert i j; induction fuel as [|fuel IH]; intros i j Hij; cbn [search_loop]; [done|].
  destruct (Nat.ltb_spec i j) as [Hlt|]; [|done].
  assert (Hh : ((i + j) / 2 < j)%nat) by (apply Nat.Div0.div_lt_upper_bound; lia).
  assert (Hi : (i <= (i + j) / 2)%nat) by (apply Nat.div_le_lower_bound; lia).
  destruct (negb _); [apply IH; lia|]. etransitivity; [apply IH; lia|lia].
Qed.

Lemma sort_Search_le n f : (sort_Search n f <= n)%nat.
Proof. apply search_loop_le. lia. Qed.

(** The search only asks below [n]. *)
Lemma search_loop_ext fuel f g n i j :
  (j <= n)%nat -> (forall a, a < n -> f a = g a)%nat -> search_loop fuel f i j = search_loop fuel g i j.
Proof.
  intros Hj Hfg. revert i j Hj; induction fuel as [|fuel IH]; intros i j Hj; cbn [search_loop]; [done|].
  destruct (Nat.ltb_spec i j) as [Hlt|]; [|done].
  assert (Hh : ((i + j) / 2 < j)%nat) by (apply Nat.Div0.div_lt_upper_bound; lia).
  rewrite <- Hfg by lia. destruct (negb _); apply IH; lia.
Qed.

Lemma sort_Search_ext n f g : (forall a, a < n -> f a = g a)%nat -> sort_Search n f = sort_Search n g.
Proof. intros H. by apply (search_loop_ext n f g n). Qed.

(** ** Positional list updates *)

(** [insertBytes] and [insertRef]; [removeBytes] and [removeRef]. *)
Definition insert_at {A} (l : list A) (position : nat) (x : A) : list A :=
  take position l ++ x :: drop position l.
Definition remove_at {A} (l : list A) (position : nat) : list A :=
  take position l ++ drop (S position) l.

Lemma insert_at_app {A} (l1 l2 : list A) x : insert_at (l1 ++ l2) (length l1) x = l1 ++ x :: l2.
Proof. unfold insert_at. by rewrite take_app_length, drop_app_length. Qed.

Lemma remove_at_app {A} (l1 l2 : list A) x : remove_at (l1 ++ x :: l2) (length l1) = l1 ++ l2.
Proof.
  unfold remove_at. rewrite take_app_length. f_equal.
  replace (S (length l1)) with (length (l1 ++ [x])) by (rewrite length_app; cbn; lia).
  by rewrite (cons_middle x l1 l2), app_assoc, drop_app_length.
Qed.

Lemma insert_middle {A} (l1 l2 : list A) x y : <[length l1:=y]> (l1 ++ x :: l2) = l1 ++ y :: l2.
Proof. by rewrite insert_app_r_alt, Nat.sub_diag. Qed.

Lemma lookup_middle {A} (l1 l2 : list A) x : (l1 ++ x :: l2) !! length l1 = Some x.
Proof. by rewrite lookup_app_r, Nat.sub_diag. Qed.
