(* ===== verification/Bytes.v ===== *)
(** * Byte strings: order, fixed-width integers, slices and readers

    What the modelled packages use of Go's [bytes], [encoding/binary],
    [io] and slices: a byte is [Init.Byte.byte], a [[]byte] or a Go string is a
    list of bytes, an unsigned integer is a [Z] in the range of its width and
    slice bounds are [Z]. *)
From S2P Require Import Prelude.
From Stdlib Require Export Strings.Byte.

Abbreviation bytes := (list byte).

(** A Go string literal. *)
Definition bs (s : string) : bytes := String.list_byte_of_string s.

(** ** Bytes as integers *)

Definition b2z (b : byte) : Z := Z.of_N (Byte.to_N b).

(** Go's conversion [byte(z)]. *)
Definition z2b (z : Z) : byte :=
  match Byte.of_N (Z.to_N (z mod 256)) with Some b => b | None => x00 end.

Lemma b2z_range b : 0 <= b2z b < 256.
Proof. unfold b2z. pose proof (Byte.to_N_bounded b). lia. Qed.

Lemma b2z_z2b z : b2z (z2b z) = z mod 256.
Proof.
  pose proof (Z.mod_pos_bound z 256 eq_refl) as Hb. unfold z2b, b2z.
  destruct (Byte.of_N (Z.to_N (z mod 256))) as [b|] eqn:E.
  - apply Byte.to_of_N in E. rewrite E. lia.
  - apply Byte.of_N_None_iff in E. lia.
Qed.

Lemma b2z_inj a b : b2z a = b2z b -> a = b.
Proof.
  unfold b2z. intros H. apply N2Z.inj in H.
  pose proof (Byte.of_to_N a) as Ha. pose proof (Byte.of_to_N b) as Hb.
  rewrite H in Ha. congruence.
Qed.

Lemma z2b_b2z b : z2b (b2z b) = b.
Proof.
  apply b2z_inj. rewrite b2z_z2b. apply Z.mod_small, b2z_range.
Qed.

#[export] Instance byte_eq_dec : EqDecision byte.
Proof. intros a b. destruct (Byte.byte_eq_dec a b); [left|right]; done. Defined.

Lemma z2b_mod z : z2b (z mod 256) = z2b z.
Proof. unfold z2b. by rewrite Z.mod_mod by lia. Qed.

(** ** [bytes.Compare] and [bytes.Equal] *)

Fixpoint bcompare (a b : bytes) : comparison :=
  match a, b with
  | [], [] => Eq
  | [], _ :: _ => Lt
  | _ :: _, [] => Gt
  | x :: a, y :: b =>
      match b2z x ?= b2z y with Eq => bcompare a b | c => c end
  end.

Definition beqb (a b : bytes) : bool :=
  match bcompare a b with Eq => true | _ => false end.
Definition bltb (a b : bytes) : bool :=
  match bcompare a b with Lt => true | _ => false end.
Definition bleb (a b : bytes) : bool :=
  match bcompare a b with Gt => false | _ => true end.

Definition blt (a b : bytes) : Prop := bcompare a b = Lt.

Lemma bcompare_eq a b : bcompare a b = Eq <-> a = b.
Proof.
  revert b; induction a as [|x a IH]; intros [|y b]; simpl; try (split; congruence).
  destruct (Z.compare_spec (b2z x) (b2z y)) as [E|E|E].
  - apply b2z_inj in E as ->. rewrite IH. split; congruence.
  - split; [discriminate|]. intros [= -> ->]. lia.
  - split; [discriminate|]. intros [= -> ->]. lia.
Qed.

Lemma bcompare_refl a : bcompare a a = Eq.
Proof. by apply bcompare_eq. Qed.

Lemma bcompare_antisym a b : bcompare b a = CompOpp (bcompare a b).
Proof.
  revert b; induction a as [|x a IH]; intros [|y b]; simpl; try done.
  rewrite (Z.compare_antisym (b2z x)). destruct (b2z x ?= b2z y); simpl; auto.
Qed.

#[export] Instance blt_trans : Transitive blt.
Proof.
  unfold blt. intros a; induction a as [|x a IH]; intros [|y b] [|z c]; simpl; try done.
  destruct (Z.compare_spec (b2z x) (b2z y)); try done;
  destruct (Z.compare_spec (b2z y) (b2z z)); try done; intros H1 H2;
  destruct (Z.compare_spec (b2z x) (b2z z)); try lia; eauto.
Qed.

#[export] Instance blt_irrefl : Irreflexive blt.
Proof. intros a H. unfold blt in H. by rewrite bcompare_refl in H. Qed.

#[export] Instance blt_strict : StrictOrder blt := {}.

#[export] Instance blt_dec : RelDecision blt.
Proof. intros a b. unfold blt. destruct (bcompare a b); [right|left|right]; done. Defined.

Lemma blt_gt a b : bcompare a b = Gt <-> blt b a.
Proof. unfold blt. rewrite (bcompare_antisym a b). destruct (bcompare a b); simpl; split; done. Qed.

Lemma bltb_lt a b : bltb a b = true <-> blt a b.
Proof. unfold bltb, blt. destruct (bcompare a b); split; done. Qed.

Lemma bltb_ge a b : bltb a b = false <-> ~ blt a b.
Proof. rewrite <- bltb_lt. destruct (bltb a b); split; congruence. Qed.

Lemma beqb_eq a b : beqb a b = true <-> a = b.
Proof. rewrite <- bcompare_eq. unfold beqb. destruct (bcompare a b); split; done. Qed.

Lemma beqb_neq a b : beqb a b = false <-> a <> b.
Proof. rewrite <- beqb_eq. destruct (beqb a b); split; congruence. Qed.

Lemma beqb_refl a : beqb a a = true.
Proof. by apply beqb_eq. Qed.

Lemma bleb_le a b : bleb a b = true <-> blt a b \/ a = b.
Proof.
  rewrite <- bcompare_eq. unfold bleb, blt.
  destruct (bcompare a b); intuition congruence.
Qed.

Lemma bleb_gt a b : bleb a b = false <-> blt b a.
Proof. rewrite <- blt_gt. unfold bleb. destruct (bcompare a b); split; done. Qed.

Lemma blt_trichotomy a b : blt a b \/ a = b \/ blt b a.
Proof.
  rewrite <- bcompare_eq, <- (blt_gt a b). unfold blt. destruct (bcompare a b); tauto.
Qed.

Lemma blt_asym a b : blt a b -> ~ blt b a.
Proof. intros H1 H2. eapply blt_irrefl, transitivity; eauto. Qed.

Lemma blt_le_trans a b c : blt a b -> ~ blt c b -> blt a c.
Proof.
  intros H1 H2. destruct (blt_trichotomy b c) as [H|[->|H]]; [by trans b|done|done].
Qed.

Lemma ble_lt_trans a b c : ~ blt b a -> blt b c -> blt a c.
Proof.
  intros H1 H2. destruct (blt_trichotomy a b) as [H|[->|H]]; [by trans b|done|done].
Qed.

Lemma blt_nil b c : blt [] (b :: c).
Proof. done. Qed.

Lemma not_blt_nil a : ~ blt a [].
Proof. by destruct a. Qed.

(** Comparison of concatenations. *)
Lemma bcompare_app_same p a b : bcompare (p ++ a) (p ++ b) = bcompare a b.
Proof. induction p as [|x p IH]; simpl; [done|]. by rewrite Z.compare_refl. Qed.

Lemma bcompare_app_len a b c d :
  length a = length b ->
  bcompare (a ++ c) (b ++ d) = match bcompare a b with Eq => bcompare c d | o => o end.
Proof.
  revert b; induction a as [|x a IH]; intros [|y b] H; simplify_eq/=; [done|].
  destruct (b2z x ?= b2z y); auto.
Qed.

(** ** Lengths and slices *)

(** Go's [len]. *)
Definition zlen {A} (l : list A) : Z := Z.of_nat (length l).

(** Go's slice [l[lo:hi]], for bounds within [l]. *)
Definition sub {A} (l : list A) (lo hi : Z) : list A :=
  take (Z.to_nat (hi - lo)) (drop (Z.to_nat lo) l).

(** Go's [copy(l[lo:], v)] where [v] fits: the bytes of [l] from [lo] on are
    overwritten. *)
Definition put {A} (l : list A) (lo : Z) (v : list A) : list A :=
  take (Z.to_nat lo) l ++ v ++ drop (Z.to_nat lo + length v) l.

(** Go's [make([]byte, n)]. *)
Definition zeros (n : Z) : bytes := replicate (Z.to_nat n) x00.

Lemma zlen_nil {A} : zlen (@nil A) = 0. Proof. done. Qed.
Lemma zlen_cons {A} (x : A) l : zlen (x :: l) = 1 + zlen l.
Proof. unfold zlen; simpl; lia. Qed.
Lemma zlen_app {A} (a b : list A) : zlen (a ++ b) = zlen a + zlen b.
Proof. unfold zlen. rewrite length_app. lia. Qed.
Lemma zlen_nonneg {A} (l : list A) : 0 <= zlen l.
Proof. unfold zlen; lia. Qed.
Lemma zlen_zeros n : 0 <= n -> zlen (zeros n) = n.
Proof. intros. unfold zlen, zeros. rewrite length_replicate. lia. Qed.
Lemma zlen_sub {A} (l : list A) lo hi :
  0 <= lo -> lo <= hi -> hi <= zlen l -> zlen (sub l lo hi) = hi - lo.
Proof. unfold zlen, sub. intros. rewrite length_take, length_drop. lia. Qed.
Lemma zlen_put {A} (l : list A) lo v :
  0 <= lo -> lo + zlen v <= zlen l -> zlen (put l lo v) = zlen l.
Proof.
  unfold zlen, put. intros. rewrite !length_app, length_take, length_drop. lia.
Qed.
Lemma zlen_0 {A} (l : list A) : zlen l = 0 <-> l = [].
Proof. unfold zlen. destruct l; simpl; split; try done; lia. Qed.

Lemma sub_all {A} (l : list A) n : n = zlen l -> sub l 0 n = l.
Proof.
  intros ->. unfold sub, zlen. rewrite drop_0. apply take_ge. lia.
Qed.

Lemma sub_app_l {A} (a b : list A) lo hi :
  0 <= lo -> hi <= zlen a -> sub (a ++ b) lo hi = sub a lo hi.
Proof.
  unfold sub, zlen. intros H1 H2.
  destruct (decide (lo <= hi)) as [H|H].
  - rewrite drop_app_le by lia. rewrite take_app_le; [done|].
    rewrite length_drop. lia.
  - replace (Z.to_nat (hi - lo)) with O by lia. done.
Qed.

Lemma sub_app_r {A} (a b : list A) lo hi :
  zlen a <= lo -> sub (a ++ b) lo hi = sub b (lo - zlen a) (hi - zlen a).
Proof.
  unfold sub, zlen. intros H1.
  rewrite drop_app_ge by lia. f_equal; [lia|]. f_equal. lia.
Qed.

(** What a slice of an overwritten buffer holds. *)
Lemma sub_put_same {A} (l : list A) lo hi v :
  0 <= lo -> hi = lo + zlen v -> hi <= zlen l -> sub (put l lo v) lo hi = v.
Proof.
  intros H1 -> H2. unfold put, zlen in *.
  assert (Hl : zlen (take (Z.to_nat lo) l) = lo).
  { unfold zlen. rewrite length_take. lia. }
  rewrite sub_app_r by lia. rewrite Hl, sub_app_l by (unfold zlen; lia).
  rewrite Z.sub_diag. apply sub_all. unfold zlen; lia.
Qed.

Lemma sub_put_before {A} (l : list A) lo hi off v :
  0 <= lo -> lo <= hi -> hi <= off -> off + zlen v <= zlen l ->
  sub (put l off v) lo hi = sub l lo hi.
Proof.
  intros ? ? ? H. pose proof (zlen_nonneg v). unfold put.
  assert (Hl : zlen (take (Z.to_nat off) l) = off).
  { unfold zlen in *. rewrite length_take. lia. }
  rewrite sub_app_l by lia.
  rewrite <- (take_drop (Z.to_nat off) l) at 2. by rewrite sub_app_l by lia.
Qed.

Lemma sub_put_after {A} (l : list A) lo hi off v :
  0 <= off -> off + zlen v <= lo -> off + zlen v <= zlen l ->
  sub (put l off v) lo hi = sub l lo hi.
Proof.
  intros ? ? H. pose proof (zlen_nonneg v). unfold put.
  rewrite app_assoc.
  assert (Hl : zlen (take (Z.to_nat off) l ++ v) = off + zlen v).
  { rewrite zlen_app. unfold zlen in *. rewrite length_take. lia. }
  rewrite sub_app_r by lia. rewrite Hl.
  rewrite <- (take_drop (Z.to_nat off + length v) l) at 2.
  assert (Hl2 : zlen (take (Z.to_nat off + length v) l) = off + zlen v).
  { unfold zlen in *. rewrite length_take. lia. }
  rewrite sub_app_r by lia. by rewrite Hl2.
Qed.

Lemma sub_zeros n lo hi :
  0 <= lo -> lo <= hi -> hi <= n -> sub (zeros n) lo hi = zeros (hi - lo).
Proof.
  intros. unfold sub, zeros. rewrite drop_replicate, take_replicate.
  f_equal. lia.
Qed.

Lemma sub_sub {A} (l : list A) a b lo hi :
  0 <= a -> 0 <= lo -> hi <= b - a -> sub (sub l a b) lo hi = sub l (a + lo) (a + hi).
Proof.
  intros. unfold sub. rewrite skipn_firstn_comm, drop_drop, take_take.
  f_equal; [lia|]. f_equal. lia.
Qed.

Lemma sub_split {A} (l : list A) lo mid hi :
  0 <= lo -> lo <= mid -> mid <= hi -> sub l lo hi = sub l lo mid ++ sub l mid hi.
Proof.
  intros. unfold sub.
  replace (Z.to_nat (hi - lo)) with (Z.to_nat (mid - lo) + Z.to_nat (hi - mid))%nat by lia.
  rewrite <- (take_drop (Z.to_nat (mid - lo)) (drop (Z.to_nat lo) l)) at 1.
  rewrite take_app, take_take.
  replace (Z.to_nat (mid - lo) + Z.to_nat (hi - mid))%nat
    with (Z.to_nat (mid - lo) + Z.to_nat (hi - mid))%nat by lia.
  destruct (decide (Z.to_nat (mid - lo) <= length (drop (Z.to_nat lo) l))%nat).
  - f_equal; [f_equal; lia|]. rewrite length_take, Nat.min_l by lia. rewrite drop_drop.
    replace (Z.to_nat lo + Z.to_nat (mid - lo))%nat with (Z.to_nat mid) by lia.
    f_equal. lia.
  - rewrite (drop_ge (drop _ _)) by lia. rewrite (drop_ge l (Z.to_nat mid)).
    + rewrite !take_nil, !app_nil_r. f_equal. lia.
    + rewrite length_drop in *. lia.
Qed.

(** ** Fixed-width integers *)

(** [PutUintN] of [encoding/binary], [n] bytes wide; higher bits are dropped. *)
Fixpoint le_enc (n : nat) (z : Z) : bytes :=
  match n with
  | O => []
  | S n => z2b z :: le_enc n (z / 256)
  end.

(** [UintN] of [encoding/binary] over the given bytes, little endian. *)
Fixpoint le_dec (l : bytes) : Z :=
  match l with
  | [] => 0
  | b :: l => b2z b + 256 * le_dec l
  end.

Fixpoint be_enc (n : nat) (z : Z) : bytes :=
  match n with
  | O => []
  | S n => z2b (z / 256 ^ Z.of_nat n) :: be_enc n z
  end.

Fixpoint be_dec (l : bytes) : Z :=
  match l with
  | [] => 0
  | b :: l => b2z b * 256 ^ zlen l + be_dec l
  end.

Lemma length_le_enc n z : length (le_enc n z) = n.
Proof. revert z; induction n; intros; simpl; auto. Qed.
Lemma length_be_enc n z : length (be_enc n z) = n.
Proof. induction n; simpl; auto. Qed.
Lemma zlen_le_enc n z : zlen (le_enc n z) = Z.of_nat n.
Proof. unfold zlen. by rewrite length_le_enc. Qed.
Lemma zlen_be_enc n z : zlen (be_enc n z) = Z.of_nat n.
Proof. unfold zlen. by rewrite length_be_enc. Qed.

Lemma pow256_pos n : 0 <= n -> 0 < 256 ^ n.
Proof. intros. apply Z.pow_pos_nonneg; lia. Qed.

Lemma pow256_S n : 256 ^ Z.of_nat (S n) = 256 * 256 ^ Z.of_nat n.
Proof. rewrite Nat2Z.inj_succ, Z.pow_succ_r by lia. done. Qed.

Lemma le_dec_range l : 0 <= le_dec l < 256 ^ zlen l.
Proof.
  induction l as [|b l IH]; simpl; [done|].
  pose proof (b2z_range b). unfold zlen in *. simpl length. rewrite pow256_S. lia.
Qed.

Lemma le_dec_enc_mod n z : le_dec (le_enc n z) = z mod 256 ^ Z.of_nat n.
Proof.
  revert z; induction n as [|n IH]; intros z; cbn [le_enc le_dec].
  - by rewrite Z.mod_1_r.
  - rewrite IH, b2z_z2b, pow256_S.
    rewrite (Z.rem_mul_r z 256) by (pose proof (pow256_pos (Z.of_nat n)); lia). lia.
Qed.

Lemma le_dec_enc n z : 0 <= z < 256 ^ Z.of_nat n -> le_dec (le_enc n z) = z.
Proof. intros. rewrite le_dec_enc_mod. by apply Z.mod_small. Qed.

Lemma le_enc_dec n l : length l = n -> le_enc n (le_dec l) = l.
Proof.
  intros <-. induction l as [|b l IH]; simpl; [done|].
  pose proof (b2z_range b).
  replace ((b2z b + 256 * le_dec l) / 256) with (le_dec l)
    by (rewrite Z.mul_comm, Z.div_add, (Z.div_small (b2z b)) by lia; lia).
  f_equal; [|done]. rewrite <- z2b_mod.
  replace ((b2z b + 256 * le_dec l) mod 256) with (b2z b).
  - apply z2b_b2z.
  - rewrite Z.mul_comm, Z_mod_plus_full. symmetry. by apply Z.mod_small.
Qed.

Lemma le_enc_inj n x y :
  0 <= x < 256 ^ Z.of_nat n -> 0 <= y < 256 ^ Z.of_nat n ->
  le_enc n x = le_enc n y -> x = y.
Proof. intros Hx Hy H. rewrite <- (le_dec_enc n x), <- (le_dec_enc n y); congruence. Qed.

Lemma be_dec_range l : 0 <= be_dec l < 256 ^ zlen l.
Proof.
  induction l as [|b l IH]; simpl; [done|].
  pose proof (b2z_range b). unfold zlen in *. simpl length. rewrite pow256_S. nia.
Qed.

Lemma be_dec_enc_mod n z : be_dec (be_enc n z) = z mod 256 ^ Z.of_nat n.
Proof.
  induction n as [|n IH]; cbn [be_enc be_dec].
  - by rewrite Z.mod_1_r.
  - rewrite IH, zlen_be_enc, b2z_z2b, pow256_S, (Z.mul_comm 256).
    rewrite (Z.rem_mul_r z) by (pose proof (pow256_pos (Z.of_nat n)); lia). lia.
Qed.

Lemma be_dec_enc n z : 0 <= z < 256 ^ Z.of_nat n -> be_dec (be_enc n z) = z.
Proof. intros. rewrite be_dec_enc_mod. by apply Z.mod_small. Qed.

(** Big-endian encodings of one width compare as their integers. *)
Lemma bcompare_be_dec a b :
  length a = length b -> bcompare a b = (be_dec a ?= be_dec b).
Proof.
  revert b; induction a as [|x a IH]; intros [|y b] H; simplify_eq/=; [done|].
  rewrite (IH _ H). pose proof (be_dec_range a). pose proof (be_dec_range b).
  assert (zlen a = zlen b) as Hl by (unfold zlen; congruence). rewrite Hl in *.
  destruct (Z.compare_spec (b2z x) (b2z y)) as [E|E|E]; symmetry.
  - rewrite E. destruct (Z.compare_spec (be_dec a) (be_dec b));
      [apply Z.compare_eq_iff|apply Z.compare_lt_iff|apply Z.compare_gt_iff]; lia.
  - apply Z.compare_lt_iff. nia.
  - apply Z.compare_gt_iff. nia.
Qed.

Lemma bcompare_be_enc n x y :
  0 <= x < 256 ^ Z.of_nat n -> 0 <= y < 256 ^ Z.of_nat n ->
  bcompare (be_enc n x) (be_enc n y) = (x ?= y).
Proof.
  intros. rewrite bcompare_be_dec by (by rewrite !length_be_enc). by rewrite !be_dec_enc.
Qed.

Lemma be_enc_dec n l : length l = n -> be_enc n (be_dec l) = l.
Proof.
  intros Hl. apply bcompare_eq. rewrite bcompare_be_dec by (rewrite length_be_enc; done).
  rewrite be_dec_enc; [apply Z.compare_refl|].
  pose proof (be_dec_range l). unfold zlen in *. by rewrite Hl in *.
Qed.

(** Machine ranges. *)
Definition u16 (z : Z) : Prop := 0 <= z < 2 ^ 16.
Definition u32 (z : Z) : Prop := 0 <= z < 2 ^ 32.
Definition u64 (z : Z) : Prop := 0 <= z < 2 ^ 64.
Definition i64 (z : Z) : Prop := - 2 ^ 63 <= z < 2 ^ 63.

(** Go's conversions between [int64] and [uint64]. *)
Definition to_u64 (z : Z) : Z := z mod 2 ^ 64.
Definition to_i64 (z : Z) : Z := if z <? 2 ^ 63 then z else z - 2 ^ 64.

Lemma to_u64_range z : u64 (to_u64 z).
Proof. apply Z.mod_pos_bound. lia. Qed.

Lemma to_i64_to_u64 z : i64 z -> to_i64 (to_u64 z) = z.
Proof.
  unfold i64, to_i64, to_u64. intros H. destruct (Z_lt_le_dec z 0).
  - replace (z mod 2 ^ 64) with (z + 2 ^ 64)
      by (rewrite <- (Z.mod_add z 1) by lia; rewrite Z.mod_small; lia).
    destruct (Z.ltb_spec (z + 2 ^ 64) (2 ^ 63)); lia.
  - rewrite Z.mod_small by lia. destruct (Z.ltb_spec z (2 ^ 63)); lia.
Qed.

Lemma to_i64_range z : u64 z -> i64 (to_i64 z).
Proof. unfold u64, i64, to_i64. destruct (Z.ltb_spec z (2 ^ 63)); lia. Qed.

Lemma to_u64_to_i64 z : u64 z -> to_u64 (to_i64 z) = z.
Proof.
  unfold u64, to_u64, to_i64. intros. destruct (Z.ltb_spec z (2 ^ 63)).
  - apply Z.mod_small; lia.
  - rewrite <- (Z.mod_add _ 1) by lia. rewrite Z.mod_small; lia.
Qed.

(** A power of two and a smaller number share no bit. *)
Lemma land_pow2_small n x : 0 <= n -> 0 <= x < 2 ^ n -> Z.land (2 ^ n) x = 0.
Proof.
  intros Hn Hx. apply Z.bits_inj'. intros m Hm.
  rewrite Z.land_spec, Z.bits_0, Z.pow2_bits_eqb by lia.
  destruct (Z.eqb_spec n m) as [<-|]; cbn [andb]; [|done].
  rewrite Z.testbit_eqb, Z.div_small by lia. done.
Qed.

(** Flipping the sign bit of a two's complement [int64]. *)
Lemma lxor_sign_bit t : i64 t -> Z.lxor (to_u64 t) (2 ^ 63) = t + 2 ^ 63.
Proof.
  unfold i64. intros Ht.
  assert (Hx : forall x, 0 <= x < 2 ^ 63 -> Z.lxor x (2 ^ 63) = x + 2 ^ 63).
  { intros x Hx. symmetry. apply Z.add_nocarry_lxor.
    rewrite Z.land_comm. apply land_pow2_small; lia. }
  unfold to_u64. destruct (Z_lt_le_dec t 0).
  - replace (t mod 2 ^ 64) with (Z.lxor (t + 2 ^ 63) (2 ^ 63)).
    + by rewrite Z.lxor_assoc, Z.lxor_nilpotent, Z.lxor_0_r.
    + rewrite Hx by lia. rewrite <- (Z.mod_add t 1) by lia. rewrite Z.mod_small; lia.
  - rewrite Z.mod_small by lia. apply Hx. lia.
Qed.

(** ** Reading from a [bytes.Reader]

    A reader is the bytes left to read; every failure of a read is the
    caller's corruption error, so a read is an [option]. *)

(** [io.ReadFull] into a buffer of [n] bytes. *)
Definition read_full (n : Z) (r : bytes) : option (bytes * bytes) :=
  if n <=? zlen r then Some (take (Z.to_nat n) r, drop (Z.to_nat n) r) else None.

Lemma read_full_spec n r v r' :
  0 <= n -> read_full n r = Some (v, r') <-> r = v ++ r' /\ zlen v = n.
Proof.
  intros Hn. unfold read_full, zlen. destruct (Z.leb_spec n (Z.of_nat (length r))); split.
  - intros [= <- <-]. rewrite take_drop, length_take. split; [done|lia].
  - intros [-> Hv]. subst n. rewrite Nat2Z.id, take_app_length, drop_app_length. done.
  - discriminate.
  - intros [-> Hv]. rewrite length_app in *. lia.
Qed.

Lemma read_full_app v r n : zlen v = n -> read_full n (v ++ r) = Some (v, r).
Proof. intros <-. apply read_full_spec; [apply zlen_nonneg|done]. Qed.

(** [allZero] of the storage package, and the [IsZero] of fixed-size arrays. *)
Definition all_zero (l : bytes) : bool := forallb (fun b => b2z b =? 0) l.

Lemma all_zero_spec l : all_zero l = true <-> l = replicate (length l) x00.
Proof.
  induction l as [|b l IH]; simpl; [done|].
  rewrite andb_true_iff, IH, Z.eqb_eq. split.
  - intros [Hb ->]. rewrite length_replicate. f_equal. by apply b2z_inj.
  - intros [= -> Hl]. split; done.
Qed.

Lemma all_zero_zeros n : all_zero (zeros n) = true.
Proof. apply all_zero_spec. unfold zeros. by rewrite length_replicate. Qed.

(** ** Overwriting zero bytes, and big-endian values of concatenations *)

Lemma put_zeros n lo v :
  0 <= lo -> lo + zlen v <= n ->
  put (zeros n) lo v = zeros lo ++ v ++ zeros (n - lo - zlen v).
Proof.
  intros. pose proof (zlen_nonneg v). unfold put, zeros, zlen in *.
  rewrite take_replicate, drop_replicate.
  f_equal; [f_equal; lia|]. f_equal. f_equal. lia.
Qed.

Lemma be_dec_app a b : be_dec (a ++ b) = be_dec a * 256 ^ zlen b + be_dec b.
Proof.
  induction a as [|x a IH]; simpl; [done|].
  rewrite IH, zlen_app, Z.pow_add_r by apply zlen_nonneg. ring.
Qed.

Lemma be_dec_zeros n : be_dec (zeros n) = 0.
Proof.
  unfold zeros. induction (Z.to_nat n) as [|m IH]; simpl; [done|].
  rewrite IH. change (b2z x00) with 0. lia.
Qed.

Lemma zeros_app a b : 0 <= a -> 0 <= b -> zeros a ++ zeros b = zeros (a + b).
Proof.
  intros. unfold zeros. rewrite <- replicate_add. f_equal. lia.
Qed.

Lemma put_app_l {A} (a b : list A) lo v :
  0 <= lo -> lo + zlen v <= zlen a -> put (a ++ b) lo v = put a lo v ++ b.
Proof.
  intros. unfold put, zlen in *.
  rewrite take_app_le by lia. rewrite drop_app_le by lia. by rewrite <- !app_assoc.
Qed.

Lemma z2b_small z : 0 <= z < 256 -> b2z (z2b z) = z.
Proof. intros. rewrite b2z_z2b. by apply Z.mod_small. Qed.

(** Kept folded by [simpl] and [cbn] in the files that use them. *)
#[global] Arguments le_enc : simpl never.
#[global] Arguments be_enc : simpl never.
#[global] Arguments zeros : simpl never.
#[global] Arguments sub : simpl never.
#[global] Arguments put : simpl never.
#[global] Arguments zlen : simpl never.
#[global] Arguments bs : simpl never.
