(* ===== verification/Strings.v ===== *)
(** * Strings of the standard library

    The functions of [strings], [unicode/utf8] and [sort] on strings the modelled
    packages use. *)
From S2P Require Import Prelude Bytes.
From Stdlib Require Import Permutation Sorted.

(** ** UTF-8 *)

Definition in_range (b : byte) (lo hi : Z) : bool := (lo <=? b2z b) && (b2z b <=? hi).
Definition continuation (b : byte) : bool := in_range b 0x80 0xbf.

(** [utf8.Valid] and [utf8.ValidString]: the accepted byte ranges of
    [unicode/utf8]. *)
Fixpoint utf8_valid (s : bytes) : bool :=
  match s with
  | [] => true
  | a :: s1 =>
      if b2z a <? 0x80 then utf8_valid s1
      else
        match s1 with
        | [] => false
        | b :: s2 =>
            if in_range a 0xc2 0xdf then continuation b && utf8_valid s2
            else
              match s2 with
              | [] => false
              | c :: s3 =>
                  if in_range a 0xe0 0xef then
                    (if b2z a =? 0xe0 then in_range b 0xa0 0xbf
                     else if b2z a =? 0xed then in_range b 0x80 0x9f
                     else continuation b)
                    && continuation c && utf8_valid s3
                  else
                    match s3 with
                    | [] => false
                    | d :: s4 =>
                        in_range a 0xf0 0xf4
                        && (if b2z a =? 0xf0 then in_range b 0x90 0xbf
                            else if b2z a =? 0xf4 then in_range b 0x80 0x8f
                            else continuation b)
                        && continuation c && continuation d && utf8_valid s4
                    end
              end
        end
  end.

(** ** Prefixes, search and sorting *)

(** [strings.HasPrefix]. *)
Fixpoint has_prefix (s prefix : bytes) : bool :=
  match prefix, s with
  | [], _ => true
  | p :: prefix, b :: s => (b2z b =? b2z p) && has_prefix s prefix
  | _ :: _, [] => false
  end.

(** [sort.Strings]. *)
Fixpoint insert_string (x : bytes) (l : list bytes) : list bytes :=
  match l with
  | [] => [x]
  | y :: l => if bltb y x then y :: insert_string x l else x :: y :: l
  end.
Definition sort_strings (l : list bytes) : list bytes := foldr insert_string [] l.

(** [strings.Contains] and [strings.ContainsRune] for a one-byte needle. *)
Definition contains_byte (s : bytes) (c : byte) : bool := existsb (fun b => b2z b =? b2z c) s.

Definition has_prefix_byte (s : bytes) (c : byte) : bool :=
  match s with b :: _ => b2z b =? b2z c | [] => false end.

(** ** What sorting gives *)

Lemma insert_string_Permutation x l : Permutation (insert_string x l) (x :: l).
Proof. induction l as [|y l IH]; cbn; [done|]. destruct (bltb y x); [|done]. rewrite IH. constructor. Qed.

Lemma sort_strings_Permutation l : Permutation (sort_strings l) l.
Proof.
  induction l as [|x l IH]; [done|]. change (sort_strings (x :: l)) with (insert_string x (sort_strings l)).
  by rewrite insert_string_Permutation, IH.
Qed.

(** In increasing order, equal strings next to each other. *)
Lemma insert_string_sorted x l :
  StronglySorted (fun a b => ~ blt b a) l -> StronglySorted (fun a b => ~ blt b a) (insert_string x l).
Proof.
  induction l as [|y l IH]; intros Hs; cbn [insert_string].
  { by repeat constructor. }
  apply StronglySorted_inv in Hs as [Hs Hy]. destruct (bltb y x) eqn:E.
  - apply bltb_lt in E. constructor; [by apply IH|]. apply Forall_forall. intros z Hz.
    rewrite insert_string_Permutation in Hz. apply elem_of_cons in Hz as [->|Hz]; [by apply blt_asym|].
    rewrite Forall_forall in Hy. by apply Hy.
  - apply bltb_ge in E. constructor; [by constructor|]. constructor; [done|]. eapply Forall_impl; [exact Hy|].
    intros z Hz Hzx. cbn in Hz. destruct (blt_trichotomy x y) as [?|[->|?]]; [|done|done]. apply Hz. by etransitivity.
Qed.

Lemma sort_strings_sorted l : StronglySorted (fun a b => ~ blt b a) (sort_strings l).
Proof. induction l as [|x l IH]; [constructor|]. by apply insert_string_sorted. Qed.

Lemma strictly_sorted_NoDup l : StronglySorted blt l -> NoDup l.
Proof.
  induction 1 as [|x l Hs IH Hx]; constructor; [|done]. intros Hin. rewrite Forall_forall in Hx. apply Hx in Hin.
  by apply blt_irrefl in Hin.
Qed.
