(* ===== verification/Layout.v ===== *)
(** * Fixed binary layouts

    Go code writes a record by [put]ting its fields into a zeroed buffer and
    reads it by slicing. The lemmas and tactics here turn a chain of [put]s
    into the concatenation of its fields and cut bytes back into fields. *)
From S2P Require Import Prelude Bytes.

Lemma put_app_r {A} (a b : list A) lo v :
  zlen a <= lo -> put (a ++ b) lo v = a ++ put b (lo - zlen a) v.
Proof.
  unfold put, zlen. intros H.
  replace (Z.to_nat lo) with (length a + Z.to_nat (lo - Z.of_nat (length a)))%nat by lia.
  rewrite <- Nat.add_assoc, take_app_add, drop_app_add, <- app_assoc.
  do 4 f_equal; lia.
Qed.

Lemma zeros_nil n : n <= 0 -> zeros n = [].
Proof. intros. unfold zeros. by replace (Z.to_nat n) with 0%nat by lia. Qed.

(** Overwriting the zeros from their first byte on. *)
Lemma put_zeros_here n lo v :
  lo = 0 -> zlen v <= n -> put (zeros n) lo v = v ++ zeros (n - zlen v).
Proof.
  intros -> H. pose proof (zlen_nonneg v). rewrite put_zeros by lia.
  rewrite (zeros_nil 0) by lia. cbn. do 2 f_equal. lia.
Qed.

(** Overwriting inside a zeroed gap. *)
Lemma put_gap pre n suf lo v :
  zlen pre <= lo -> lo - zlen pre + zlen v <= n ->
  put (pre ++ zeros n ++ suf) lo v =
  pre ++ zeros (lo - zlen pre) ++ v ++ zeros (n - (lo - zlen pre) - zlen v) ++ suf.
Proof.
  intros. pose proof (zlen_nonneg v).
  rewrite put_app_r, put_app_l, put_zeros by (rewrite ?zlen_zeros; lia). by rewrite <- !app_assoc.
Qed.

Lemma put_zeros_split n lo v rest :
  0 <= lo -> lo + zlen v <= n ->
  put (zeros n ++ rest) lo v = zeros lo ++ v ++ zeros (n - lo - zlen v) ++ rest.
Proof.
  intros. pose proof (zlen_nonneg v).
  rewrite put_app_l, put_zeros by (rewrite ?zlen_zeros; lia). by rewrite <- !app_assoc.
Qed.

Lemma put_zeros_first n v rest :
  zlen v <= n -> put (zeros n ++ rest) 0 v = v ++ zeros (n - zlen v) ++ rest.
Proof.
  intros. rewrite put_zeros_split, (zeros_nil 0) by lia. cbn [app]. by rewrite Z.sub_0_r.
Qed.

(** ** Cutting *)

Lemma sub_mid {A} (pre m suf : list A) lo hi :
  lo = zlen pre -> hi = lo + zlen m -> sub (pre ++ m ++ suf) lo hi = m.
Proof.
  intros -> ->. rewrite sub_app_r, sub_app_l by (try apply zlen_nonneg; lia).
  rewrite Z.sub_diag. apply sub_all. lia.
Qed.

(** [l] from [lo] on, cut at the given offsets. *)
Fixpoint pieces {A} (l : list A) (lo : Z) (cuts : list Z) : list A :=
  match cuts with
  | [] => []
  | hi :: cuts => sub l lo hi ++ pieces l hi cuts
  end.

Fixpoint cuts_reach (lo : Z) (cuts : list Z) (n : Z) : Prop :=
  match cuts with
  | [] => lo = n
  | hi :: cuts => lo <= hi /\ cuts_reach hi cuts n
  end.

Lemma cuts_reach_le lo cuts n : cuts_reach lo cuts n -> lo <= n.
Proof.
  revert lo; induction cuts as [|hi cuts IH]; intros lo H; cbn in H; [lia|].
  destruct H as [? H]. apply IH in H. lia.
Qed.

Lemma pieces_sub {A} (l : list A) lo cuts n :
  0 <= lo -> cuts_reach lo cuts n -> pieces l lo cuts = sub l lo n.
Proof.
  revert lo; induction cuts as [|hi cuts IH]; intros lo Hlo H; cbn in *.
  - subst. unfold sub. by replace (Z.to_nat (n - n)) with 0%nat by lia.
  - destruct H as [Hhi H]. rewrite (IH hi) by (done || lia).
    apply cuts_reach_le in H. by rewrite <- sub_split by lia.
Qed.

Lemma pieces_all {A} (l : list A) cuts :
  cuts_reach 0 cuts (zlen l) -> l = pieces l 0 cuts.
Proof. intros H. rewrite (pieces_sub l 0 cuts (zlen l)) by (done || lia). by rewrite sub_all. Qed.

(** ** Integer fields *)

(** The little-endian integer at [lo]. *)
Lemma le_field_eq l lo hi k v :
  0 <= lo -> hi <= zlen l -> hi - lo = Z.of_nat k ->
  le_dec (sub l lo hi) = v -> sub l lo hi = le_enc k v.
Proof.
  intros Hlo Hhi Hk <-. symmetry. apply le_enc_dec.
  pose proof (zlen_sub l lo hi ltac:(lia) ltac:(lia) ltac:(lia)) as H. unfold zlen in H. lia.
Qed.

Lemma le_dec_u16 z : u16 z -> le_dec (le_enc 2 z) = z.
Proof. intros H. by apply (le_dec_enc 2). Qed.
Lemma le_dec_u32 z : u32 z -> le_dec (le_enc 4 z) = z.
Proof. intros H. by apply (le_dec_enc 4). Qed.
Lemma le_dec_u64 z : u64 z -> le_dec (le_enc 8 z) = z.
Proof. intros H. by apply (le_dec_enc 8). Qed.

Lemma field_u64 l lo hi : 0 <= lo -> hi = lo + 8 -> hi <= zlen l -> u64 (le_dec (sub l lo hi)).
Proof.
  intros. unfold u64. pose proof (le_dec_range (sub l lo hi)) as H'.
  rewrite zlen_sub in H' by lia. by replace (hi - lo) with 8 in H' by lia.
Qed.

Lemma field_u32 l lo hi : 0 <= lo -> hi = lo + 4 -> hi <= zlen l -> u32 (le_dec (sub l lo hi)).
Proof.
  intros. unfold u32. pose proof (le_dec_range (sub l lo hi)) as H'.
  rewrite zlen_sub in H' by lia. by replace (hi - lo) with 4 in H' by lia.
Qed.

Lemma field_u16 l lo hi : 0 <= lo -> hi = lo + 2 -> hi <= zlen l -> u16 (le_dec (sub l lo hi)).
Proof.
  intros. unfold u16. pose proof (le_dec_range (sub l lo hi)) as H'.
  rewrite zlen_sub in H' by lia. by replace (hi - lo) with 2 in H' by lia.
Qed.

Lemma field_u8 l lo hi : 0 <= lo -> hi = lo + 1 -> hi <= zlen l -> 0 <= le_dec (sub l lo hi) < 256.
Proof.
  intros. pose proof (le_dec_range (sub l lo hi)) as H'.
  rewrite zlen_sub in H' by lia. by replace (hi - lo) with 1 in H' by lia.
Qed.

Lemma le_field_range l lo hi :
  0 <= lo -> lo <= hi -> hi <= zlen l -> 0 <= le_dec (sub l lo hi) < 256 ^ (hi - lo).
Proof. intros. rewrite <- (zlen_sub l lo hi) by lia. apply le_dec_range. Qed.

Lemma le_field_id l lo hi k :
  0 <= lo -> hi <= zlen l -> hi - lo = Z.of_nat k ->
  le_enc k (le_dec (sub l lo hi)) = sub l lo hi.
Proof. intros. symmetry. by apply le_field_eq. Qed.

Lemma all_zero_sub l lo hi :
  0 <= lo -> lo <= hi -> hi <= zlen l -> all_zero (sub l lo hi) = true ->
  sub l lo hi = zeros (hi - lo).
Proof.
  intros ??? H. apply all_zero_spec in H. rewrite H. unfold zeros.
  rewrite <- (zlen_sub l lo hi) by lia. unfold zlen. by rewrite Nat2Z.id.
Qed.

(** ** Tactics *)

(** Lengths of concatenations of fields; a codec adds the lengths of its own
    fields to the database. *)
Create Rewrite HintDb zlen.
#[export] Hint Rewrite @zlen_app @zlen_cons @zlen_nil zlen_le_enc zlen_be_enc : zlen.
Ltac zlens := autorewrite with zlen in *.

(** Side conditions on offsets. *)
Ltac offsets :=
  repeat match goal with
  | |- context [zlen (le_enc ?n ?z)] => rewrite (zlen_le_enc n z)
  | |- context [zlen (be_enc ?n ?z)] => rewrite (zlen_be_enc n z)
  | |- context [zlen (zeros ?n)] => rewrite (zlen_zeros n) by lia
  end; try lia.

(** Evaluates the differences of concrete offsets. *)
Ltac eval_offsets :=
  rewrite ?zlen_le_enc;
  repeat match goal with
  | |- context [?a - ?b] =>
      let c := eval vm_compute in (a - b) in
      lazymatch c with Z0 => idtac | Zpos _ => idtac | Zneg _ => idtac end;
      change (a - b) with c
  end.

(** Turns [put]s into zeroed bytes, written in increasing order, into the
    concatenation of what was written. *)
Ltac layout :=
  repeat first
    [ rewrite put_zeros_here by offsets
    | rewrite put_zeros by offsets
    | rewrite put_app_r by offsets ];
  rewrite <- ?app_assoc.

(** The same at concrete offsets, in front of more bytes. *)
Ltac header_layout :=
  repeat (first
    [ rewrite put_zeros_first by offsets
    | rewrite put_app_r by offsets
    | rewrite put_zeros_split by offsets ]; eval_offsets);
  rewrite ?(zeros_nil 0) by lia; rewrite ?app_nil_l, <- ?app_assoc.

(** Evaluates the slices of concatenations of fields. *)
Ltac slice :=
  repeat match goal with
  | |- context [sub (?a ++ ?b) ?lo ?hi] =>
      first [ rewrite (sub_app_r a b lo hi) by offsets
            | rewrite (sub_app_l a b lo hi) by offsets ]
  end;
  repeat match goal with
  | |- context [sub ?l ?lo ?hi] =>
      replace (sub l lo hi) with l by (symmetry; replace lo with 0 by offsets; apply sub_all; offsets)
  end.

(** Closes an equality of two layouts whose gaps are written differently. *)
Ltac same_layout :=
  repeat match goal with
  | |- context [zeros ?n] => rewrite (zeros_nil n) by offsets
  end;
  rewrite ?app_nil_r;
  repeat match goal with
  | |- ?x = ?x => reflexivity
  | |- app _ _ = app _ _ => apply (f_equal2 app)
  | |- zeros _ = zeros _ => apply (f_equal zeros)
  end;
  offsets.

(** Reads back the integer fields of an image. *)
Ltac read_fields :=
  repeat first
    [ rewrite le_dec_u16 by (unfold u16; lia)
    | rewrite le_dec_u32 by (first [assumption | unfold u32; lia])
    | rewrite le_dec_u64 by (first [assumption | unfold u64; lia]) ].

(** [breflect], and comparisons of bytes. *)
Ltac reflect_checks :=
  breflect;
  repeat match goal with
  | H : beqb _ _ = true |- _ => apply beqb_eq in H
  end.
