(* ===== verification/Entries.v ===== *)
(** * Sorted association lists over byte keys

    The abstract content of a Go map keyed by strings, of a document and of a
    B+tree: a list of bindings. Lookup, insertion and removal on lists whose
    keys strictly increase, and the sort that turns a map in iteration order
    into such a list ([sort.Strings] over the keys). *)
From S2P Require Import Prelude Bytes.
From Stdlib Require Import Permutation Sorted.

(** The value bound to a key: Go's [d[k]]. *)
Fixpoint field {A} (d : list (bytes * A)) (k : bytes) : option A :=
  match d with
  | [] => None
  | (k', v) :: d => if beqb k k' then Some v else field d k
  end.

Lemma field_Some {A} (d : list (bytes * A)) k v : field d k = Some v -> (k, v) ∈ d.
Proof.
  induction d as [|[k' v'] d IH]; simpl; [done|].
  destruct (beqb k k') eqn:E.
  - apply beqb_eq in E as ->. intros [= ->]. left.
  - intros H. right. auto.
Qed.

Lemma field_NoDup {A} (d : list (bytes * A)) k v :
  NoDup d.*1 -> (k, v) ∈ d -> field d k = Some v.
Proof.
  induction d as [|[k' v'] d IH]; simpl; [by intros _ ?%not_elem_of_nil|].
  intros Hnd Hin. apply NoDup_cons in Hnd as [Hk Hnd].
  apply elem_of_cons in Hin as [[= -> ->]|Hin]; [by rewrite beqb_refl|].
  destruct (beqb k k') eqn:E; [|auto].
  apply beqb_eq in E as ->. destruct Hk. by apply (list_elem_of_fmap_2 fst) in Hin.
Qed.

Lemma field_None {A} (d : list (bytes * A)) k : field d k = None <-> k ∉ d.*1.
Proof.
  induction d as [|[k' v'] d IH]; simpl.
  - split; [intros _; apply not_elem_of_nil|done].
  - rewrite not_elem_of_cons. destruct (beqb k k') eqn:E.
    + apply beqb_eq in E as ->. split; [done|tauto].
    + apply beqb_neq in E. tauto.
Qed.

(** ** Sorted lists *)

Definition sorted_keys {A} (l : list (bytes * A)) : Prop := StronglySorted blt l.*1.

(** Insert a binding, or replace the one with its key. *)
Fixpoint ins {A} (k : bytes) (v : A) (l : list (bytes * A)) : list (bytes * A) :=
  match l with
  | [] => [(k, v)]
  | (k', v') :: l' =>
      match bcompare k k' with
      | Lt => (k, v) :: l
      | Eq => (k, v) :: l'
      | Gt => (k', v') :: ins k v l'
      end
  end.

Fixpoint del {A} (k : bytes) (l : list (bytes * A)) : list (bytes * A) :=
  match l with
  | [] => []
  | (k', v') :: l' => if beqb k k' then l' else (k', v') :: del k l'
  end.

(** A map's bindings in the order of [sort.Strings] over its keys. *)
Definition sort_fields {A} (l : list (bytes * A)) : list (bytes * A) :=
  foldr (fun kv => ins kv.1 kv.2) [] l.

Section SortedLists.
Context {A : Type}.
Implicit Types (l : list (bytes * A)) (k : bytes) (v : A).

Lemma sorted_keys_nil : sorted_keys (@nil (bytes * A)).
Proof. constructor. Qed.

Lemma sorted_keys_cons k v l :
  sorted_keys ((k, v) :: l) <-> sorted_keys l /\ Forall (blt k) l.*1.
Proof.
  unfold sorted_keys. cbn. split.
  - intros H. by apply StronglySorted_inv in H.
  - intros [? ?]. by constructor.
Qed.

Lemma sorted_keys_app l1 l2 :
  sorted_keys (l1 ++ l2) <->
  sorted_keys l1 /\ sorted_keys l2 /\ Forall (fun x => Forall (blt x) l2.*1) l1.*1.
Proof.
  induction l1 as [|[k v] l1 IH]; cbn.
  - split; [intros H; repeat split; [apply sorted_keys_nil|done|constructor]|tauto].
  - rewrite !sorted_keys_cons, IH, !fmap_app, Forall_app, Forall_cons. tauto.
Qed.

Lemma sorted_keys_NoDup l : sorted_keys l -> NoDup l.*1.
Proof.
  induction l as [|[k v] l IH]; cbn; [constructor|].
  rewrite sorted_keys_cons. intros [Hs Hf]. constructor; [|auto].
  intros Hin. rewrite Forall_forall in Hf. by apply Hf in Hin as ?%blt_irrefl.
Qed.

Lemma elem_of_ins k v l x : x ∈ (ins k v l).*1 <-> x = k \/ x ∈ l.*1.
Proof.
  induction l as [|[k' v'] l IH]; cbn.
  - rewrite elem_of_cons, elem_of_nil. tauto.
  - destruct (bcompare k k') eqn:E; cbn; rewrite !elem_of_cons, ?IH; [|tauto|tauto].
    apply bcompare_eq in E as ->. tauto.
Qed.

Lemma Forall_ins (P : bytes -> Prop) k v l :
  P k -> Forall P l.*1 -> Forall P (ins k v l).*1.
Proof.
  rewrite !Forall_forall. intros Hk Hl x [->|Hx]%elem_of_ins; auto.
Qed.

Lemma sorted_ins k v l : sorted_keys l -> sorted_keys (ins k v l).
Proof.
  induction l as [|[k' v'] l IH]; cbn.
  - intros _. apply sorted_keys_cons. split; [apply sorted_keys_nil|constructor].
  - rewrite sorted_keys_cons. intros [Hs Hf].
    destruct (bcompare k k') eqn:E; apply sorted_keys_cons.
    + apply bcompare_eq in E as ->. done.
    + split; [by apply sorted_keys_cons|]. constructor; [done|].
      eapply Forall_impl; [exact Hf|]. intros x Hx. by trans k'.
    + split; [auto|]. apply Forall_ins; [by apply blt_gt|done].
Qed.

Lemma field_ins k v l k' :
  field (ins k v l) k' = if beqb k' k then Some v else field l k'.
Proof.
  induction l as [|[x y] l IH]; cbn; [done|].
  destruct (bcompare k x) eqn:E; cbn; [|done|].
  - apply bcompare_eq in E as ->. by destruct (beqb k' x).
  - rewrite IH. destruct (beqb k' x) eqn:Ex; [|done].
    destruct (beqb k' k) eqn:Ek; [|done].
    apply beqb_eq in Ex as ->. apply beqb_eq in Ek as ->.
    by rewrite bcompare_refl in E.
Qed.

Lemma elem_of_del k l x : x ∈ (del k l).*1 -> x ∈ l.*1.
Proof.
  induction l as [|[k' v'] l IH]; cbn; [done|].
  destruct (beqb k k'); cbn; rewrite !elem_of_cons; [tauto|]. intros [->|?]; auto.
Qed.

Lemma sorted_del k l : sorted_keys l -> sorted_keys (del k l).
Proof.
  induction l as [|[k' v'] l IH]; cbn; [done|].
  rewrite sorted_keys_cons. intros [Hs Hf]. destruct (beqb k k'); [done|].
  apply sorted_keys_cons. split; [auto|]. rewrite Forall_forall in *.
  intros x Hx%elem_of_del. auto.
Qed.

Lemma field_del k l k' :
  sorted_keys l -> field (del k l) k' = if beqb k' k then None else field l k'.
Proof.
  induction l as [|[x y] l IH]; cbn; [by destruct (beqb k' k)|].
  rewrite sorted_keys_cons. intros [Hs Hf]. destruct (beqb k x) eqn:E; cbn.
  - apply beqb_eq in E as ->. destruct (beqb k' x) eqn:E'; [|done].
    apply beqb_eq in E' as ->. apply field_None. intros Hin.
    rewrite Forall_forall in Hf. by apply Hf in Hin as ?%blt_irrefl.
  - rewrite IH by done. destruct (beqb k' x) eqn:Ex; [|done].
    destruct (beqb k' k) eqn:Ek; [|done].
    apply beqb_eq in Ex as ->. apply beqb_eq in Ek as ->. by rewrite beqb_refl in E.
Qed.

Lemma del_absent k l : field l k = None -> del k l = l.
Proof.
  induction l as [|[x y] l IH]; cbn; [done|].
  destruct (beqb k x); [done|]. intros. f_equal; auto.
Qed.

(** Sorted lists with the same lookups are equal. *)
Lemma sorted_ext l1 l2 :
  sorted_keys l1 -> sorted_keys l2 -> (forall k, field l1 k = field l2 k) -> l1 = l2.
Proof.
  revert l2. induction l1 as [|[k v] l1 IH]; intros [|[k' v'] l2] H1 H2 Hf; [done|..].
  - specialize (Hf k'). cbn in Hf. by rewrite beqb_refl in Hf.
  - specialize (Hf k). cbn in Hf. by rewrite beqb_refl in Hf.
  - apply sorted_keys_cons in H1 as [H1 F1]. apply sorted_keys_cons in H2 as [H2 F2].
    rewrite Forall_forall in F1, F2.
    assert (k = k') as <-.
    { destruct (blt_trichotomy k k') as [H|[H|H]]; [|done|]; exfalso.
      - specialize (Hf k). cbn in Hf. rewrite beqb_refl in Hf.
        destruct (beqb k k') eqn:E; [apply beqb_eq in E as ->; by apply blt_irrefl in H|].
        symmetry in Hf. apply field_Some, (list_elem_of_fmap_2 fst) in Hf. apply F2 in Hf.
        eapply blt_asym; eauto.
      - specialize (Hf k'). cbn in Hf. rewrite beqb_refl in Hf.
        destruct (beqb k' k) eqn:E; [apply beqb_eq in E as ->; by apply blt_irrefl in H|].
        apply field_Some, (list_elem_of_fmap_2 fst) in Hf. apply F1 in Hf.
        eapply blt_asym; eauto. }
    pose proof (Hf k) as Hk. cbn in Hk. rewrite beqb_refl in Hk. injection Hk as <-.
    f_equal. apply IH; [done|done|]. intros x. specialize (Hf x). cbn in Hf.
    destruct (beqb x k) eqn:E; [|done]. apply beqb_eq in E as ->.
    assert (field l1 k = None) as ->.
    { apply field_None. intros Hin%F1. by apply blt_irrefl in Hin. }
    symmetry. apply field_None. intros Hin%F2. by apply blt_irrefl in Hin.
Qed.

(** ** Insertion and removal in one half of a split list *)

Lemma ins_app_r k v l1 l2 :
  Forall (fun x => blt x k) l1.*1 -> ins k v (l1 ++ l2) = l1 ++ ins k v l2.
Proof.
  induction l1 as [|[x y] l1 IH]; cbn; [done|].
  intros [Hx Hl]%Forall_cons. apply blt_gt in Hx. rewrite Hx. f_equal. auto.
Qed.

Lemma ins_app_l k v l1 l2 :
  Forall (blt k) l2.*1 -> ins k v (l1 ++ l2) = ins k v l1 ++ l2.
Proof.
  intros H2. induction l1 as [|[x y] l1 IH]; cbn.
  - destruct l2 as [|[x y] l2]; [done|]. cbn in *. apply Forall_cons in H2 as [H2 _].
    by rewrite H2.
  - destruct (bcompare k x); cbn; [done|done|]. by rewrite IH.
Qed.

Lemma del_app_r k l1 l2 :
  Forall (fun x => blt x k) l1.*1 -> del k (l1 ++ l2) = l1 ++ del k l2.
Proof.
  induction l1 as [|[x y] l1 IH]; cbn; [done|].
  intros [Hx Hl]%Forall_cons. destruct (beqb k x) eqn:E.
  - apply beqb_eq in E as ->. by apply blt_irrefl in Hx.
  - f_equal. auto.
Qed.

Lemma del_app_l k l1 l2 :
  Forall (blt k) l2.*1 -> del k (l1 ++ l2) = del k l1 ++ l2.
Proof.
  intros H2. induction l1 as [|[x y] l1 IH]; cbn.
  - apply del_absent, field_None. rewrite Forall_forall in H2.
    intros Hin%H2. by apply blt_irrefl in Hin.
  - destruct (beqb k x); cbn; [done|]. by rewrite IH.
Qed.

Lemma field_app_r k l1 l2 :
  Forall (fun x => blt x k) l1.*1 -> field (l1 ++ l2) k = field l2 k.
Proof.
  induction l1 as [|[x y] l1 IH]; cbn; [done|].
  intros [Hx Hl]%Forall_cons. destruct (beqb k x) eqn:E; [|auto].
  apply beqb_eq in E as ->. by apply blt_irrefl in Hx.
Qed.

Lemma field_app_l k l1 l2 :
  Forall (blt k) l2.*1 -> field (l1 ++ l2) k = field l1 k.
Proof.
  intros H2. induction l1 as [|[x y] l1 IH]; cbn.
  - apply field_None. rewrite Forall_forall in H2.
    intros Hin%H2. by apply blt_irrefl in Hin.
  - destruct (beqb k x); auto.
Qed.

Lemma length_ins k v l :
  sorted_keys l ->
  zlen (ins k v l) = zlen l + (match field l k with Some _ => 0 | None => 1 end).
Proof.
  induction l as [|[x y] l IH]; cbn; [done|].
  rewrite sorted_keys_cons. intros [Hs Hf]. destruct (bcompare k x) eqn:E.
  - apply bcompare_eq in E as ->. rewrite beqb_refl, !zlen_cons. lia.
  - destruct (beqb k x) eqn:E'; [apply beqb_eq in E' as ->; by apply blt_irrefl in E|].
    assert (field l k = None) as ->; [|rewrite !zlen_cons; lia].
    apply field_None. rewrite Forall_forall in Hf. intros Hin%Hf.
    eapply blt_asym; eauto.
  - destruct (beqb k x) eqn:E'; [apply beqb_eq in E' as ->; by rewrite bcompare_refl in E|].
    rewrite !zlen_cons, IH by done. lia.
Qed.

Lemma del_incl k l e : e ∈ del k l -> e ∈ l.
Proof.
  induction l as [|[k' v'] l IH]; cbn; [done|]. destruct (beqb k k'); rewrite !elem_of_cons; [by right|]. intros [->|?]; auto.
Qed.

Lemma ins_incl k v l e : e ∈ ins k v l -> e = (k, v) \/ e ∈ l.
Proof.
  induction l as [|[k' v'] l IH]; cbn; [rewrite elem_of_cons, elem_of_nil; tauto|].
  destruct (bcompare k k'); rewrite !elem_of_cons; [tauto|tauto|]. intros [->|?]; [tauto|]. destruct (IH H); tauto.
Qed.

Lemma length_del k l :
  zlen (del k l) = zlen l - (match field l k with Some _ => 1 | None => 0 end).
Proof.
  induction l as [|[x y] l IH]; cbn; [done|].
  destruct (beqb k x); rewrite !zlen_cons; lia.
Qed.

(** ** Sorting a map's bindings *)

Lemma ins_Permutation k v l : k ∉ l.*1 -> Permutation (ins k v l) ((k, v) :: l).
Proof.
  induction l as [|[x y] l IH]; cbn; [done|].
  rewrite not_elem_of_cons. intros [Hx Hl]. destruct (bcompare k x) eqn:E.
  - by apply bcompare_eq in E.
  - done.
  - rewrite IH by done. constructor.
Qed.

Lemma elem_of_sort_fields l x : x ∈ (sort_fields l).*1 <-> x ∈ l.*1.
Proof.
  induction l as [|[k v] l IH]; cbn; [done|].
  rewrite elem_of_ins, elem_of_cons, IH. done.
Qed.

Lemma sort_fields_Permutation l : NoDup l.*1 -> Permutation (sort_fields l) l.
Proof.
  induction l as [|[k v] l IH]; cbn; [done|].
  rewrite NoDup_cons. intros [Hk Hl]. rewrite ins_Permutation; [by rewrite IH|].
  intros Hin. by apply Hk, elem_of_sort_fields.
Qed.

Lemma sorted_sort_fields l : sorted_keys (sort_fields l).
Proof. induction l as [|[k v] l IH]; cbn; [apply sorted_keys_nil|by apply sorted_ins]. Qed.

Lemma field_sort_fields l k : field (sort_fields l) k = field l k.
Proof. induction l as [|[x y] l IH]; [done|]. simpl. by rewrite field_ins, IH. Qed.

Lemma sort_fields_sorted l : sorted_keys l -> sort_fields l = l.
Proof.
  intros H. apply sorted_ext; [apply sorted_sort_fields|done|apply field_sort_fields].
Qed.

Lemma zlen_sort_fields l : NoDup l.*1 -> zlen (sort_fields l) = zlen l.
Proof. intros H. unfold zlen. by rewrite sort_fields_Permutation. Qed.

Lemma field_Permutation l1 l2 k :
  NoDup l1.*1 -> Permutation l1 l2 -> field l1 k = field l2 k.
Proof.
  intros Hnd Hp.
  assert (Hnd2 : NoDup l2.*1) by (by rewrite <- Hp).
  destruct (field l2 k) as [v|] eqn:E.
  - apply field_NoDup; [done|]. rewrite Hp. by apply field_Some.
  - apply field_None. rewrite Hp. by apply field_None.
Qed.

Lemma sort_fields_eq l1 l2 :
  NoDup l1.*1 -> NoDup l2.*1 ->
  sort_fields l1 = sort_fields l2 <-> Permutation l1 l2.
Proof.
  intros H1 H2. split; intros H.
  - by rewrite <- (sort_fields_Permutation l1), H, sort_fields_Permutation.
  - apply sorted_ext; [apply sorted_sort_fields..|]. intros k.
    rewrite !field_sort_fields. by apply field_Permutation.
Qed.

(** Two maps of one size agree once one contains the other. *)
Lemma fields_subset_eq l1 l2 :
  NoDup l1.*1 -> NoDup l2.*1 -> length l1 = length l2 ->
  (forall k v, (k, v) ∈ l1 -> field l2 k = Some v) -> Permutation l1 l2.
Proof.
  intros H1 H2 Hl Hin. apply submseteq_length_Permutation; [|lia].
  apply NoDup_submseteq; [by apply NoDup_fmap_1 in H1|].
  intros [k v] Hkv. apply field_Some. auto.
Qed.
End SortedLists.

Lemma fmap_ins {A B} (f : A -> B) k v l :
  prod_map id f <$> ins k v l = ins k (f v) (prod_map id f <$> l).
Proof.
  induction l as [|[x y] l IH]; cbn; [done|].
  destruct (bcompare k x); cbn; [done|done|]. by rewrite <- IH.
Qed.

Lemma fmap_sort_fields {A B} (f : A -> B) l :
  prod_map id f <$> sort_fields l = sort_fields (prod_map id f <$> l).
Proof. induction l as [|[k v] l IH]; [done|]. simpl. by rewrite fmap_ins, IH. Qed.

Lemma fst_prod_map {A B} (f : A -> B) (l : list (bytes * A)) :
  (prod_map id f <$> l).*1 = l.*1.
Proof. rewrite <- list_fmap_compose. by apply list_fmap_ext; intros ? [? ?]. Qed.

(** ** Maps behind stored maps

    Two maps with the same keys whose values stand in a relation: the entries of a
    tree and the values they describe. *)
#[local] Open Scope Z_scope.
Section Linked.
Context {A B : Type}.
Implicit Types (R : A -> B -> Prop) (l : list (bytes * A)) (m : list (bytes * B)).

Definition linked R l m : Prop := Forall2 (fun e e' => e.1 = e'.1 /\ R e.2 e'.2) l m.

Lemma linked_nil R : linked R [] [].
Proof. constructor. Qed.

Lemma linked_keys R l m : linked R l m -> l.*1 = m.*1.
Proof. induction 1 as [|[k a] [k' b] l m [E _] HF IH]; cbn in *; [done|]. by rewrite E, IH. Qed.

Lemma linked_zlen R l m : linked R l m -> zlen l = zlen m.
Proof. intros HF. unfold zlen. by rewrite (Forall2_length _ _ _ HF). Qed.

Lemma linked_sorted R l m : linked R l m -> sorted_keys l -> sorted_keys m.
Proof. unfold sorted_keys. intros HF. by rewrite (linked_keys _ _ _ HF). Qed.

Lemma linked_impl R R' l m : (forall a b, R a b -> R' a b) -> linked R l m -> linked R' l m.
Proof. intros HR HF. eapply Forall2_impl; [exact HF|]. intros e e' [? ?]. auto. Qed.

Lemma linked_field R l m k :
  linked R l m -> match field l k, field m k with Some a, Some b => R a b | None, None => True | _, _ => False end.
Proof.
  induction 1 as [|[k1 a] [k2 b] l m [E HR] HF IH]; cbn in *; [done|]. subst k2. by destruct (beqb k k1).
Qed.

Lemma linked_field_Some R l m k a : linked R l m -> field l k = Some a -> exists b, field m k = Some b /\ R a b.
Proof. intros HF%(linked_field _ _ _ k) E. rewrite E in HF. destruct (field m k) as [b|]; [by exists b|done]. Qed.

Lemma linked_field_None R l m k : linked R l m -> field l k = None <-> field m k = None.
Proof. intros HF%(linked_field _ _ _ k). destruct (field l k), (field m k); done. Qed.

Lemma linked_ins R l m k a b : linked R l m -> R a b -> linked R (ins k a l) (ins k b m).
Proof.
  intros HF HR. induction HF as [|[k1 a1] [k2 b1] l m [E HR1] HF IH]; cbn in *; [by repeat constructor|]. subst k2.
  destruct (bcompare k k1); repeat constructor; done.
Qed.

Lemma linked_del R l m k : linked R l m -> linked R (del k l) (del k m).
Proof.
  induction 1 as [|[k1 a1] [k2 b1] l m [E HR1] HF IH]; cbn in *; [constructor|]. subst k2.
  destruct (beqb k k1); [done|]. by constructor.
Qed.
End Linked.

Lemma zlen_ins_at_most {A} k (v : A) l : zlen (ins k v l) <= zlen l + 1.
Proof.
  induction l as [|[x y] l IH]; cbn; [done|]. destruct (bcompare k x); rewrite !zlen_cons; lia.
Qed.

(** ** Sums over maps *)

Section Sum.
Context {A : Type}.
Implicit Types (f : bytes -> A -> Z) (l : list (bytes * A)).

Definition tally f l : Z := foldr (fun e n => f e.1 e.2 + n) 0 l.

Lemma tally_ins f k v l :
  sorted_keys l -> tally f (ins k v l) = tally f l + f k v - from_option (f k) 0 (field l k).
Proof.
  induction l as [|[x y] l IH]; cbn [ins tally foldr field from_option fst snd]; [lia|]. rewrite sorted_keys_cons. intros [Hs Hf].
  destruct (bcompare k x) eqn:E; cbn [tally foldr fst snd].
  - apply bcompare_eq in E as ->. rewrite beqb_refl. cbn [from_option]. lia.
  - destruct (beqb k x) eqn:E'; [apply beqb_eq in E' as ->; by apply blt_irrefl in E|].
    assert (field l k = None) as ->; [|cbn [from_option]; lia]. apply field_None. rewrite Forall_forall in Hf. intros Hin%Hf. by eapply blt_asym.
  - destruct (beqb k x) eqn:E'; [apply beqb_eq in E' as ->; by rewrite bcompare_refl in E|]. fold (tally f (ins k v l)). rewrite IH by done.
    unfold tally. lia.
Qed.

Lemma tally_ext f g l : Forall (fun e => f e.1 e.2 = g e.1 e.2) l -> tally f l = tally g l.
Proof. induction 1 as [|e l E _ IH]; [done|]. cbn. unfold tally in IH. lia. Qed.

Lemma tally_one l : tally (fun _ _ => 1) l = zlen l.
Proof. induction l as [|e l IH]; [done|]. rewrite zlen_cons. cbn. unfold tally in IH. lia. Qed.
End Sum.
