(* ===== verification/Hashes.v ===== *)
(** * SHA-256 and CRC-32C

    The two checksums of the page format, as [crypto/sha256] and
    [hash/crc32] (with [crc32.MakeTable(crc32.Castagnoli)]) compute them. The
    examples at the end are the published test vectors. *)
From S2P Require Import Prelude Bytes.

Definition w32 (z : Z) : Z := Z.land z 0xffffffff.

(** ** SHA-256 (FIPS 180-4) *)
Module Sha256.

Definition rotr (x n : Z) : Z :=
  Z.lor (Z.shiftr x n) (w32 (Z.shiftl x (32 - n))).

(** The standard's constants are fraction bits of roots of the first primes. *)
Definition is_prime (n : Z) : bool :=
  forallb (fun d => negb (n mod Z.of_nat d =? 0)) (seq 2 (Z.to_nat (Z.sqrt n) - 1)).

Definition primes : list Z := List.filter is_prime (map Z.of_nat (seq 2 310)).

(** The integer cube root below [2 ^ n], bit by bit. *)
Fixpoint cube_root (n : nat) (acc z : Z) : Z :=
  match n with
  | O => acc
  | S n =>
      let next := acc + 2 ^ Z.of_nat n in
      cube_root n (if next ^ 3 <=? z then next else acc) z
  end.

Definition initial : list Z :=
  Eval vm_compute in map (fun p => w32 (Z.sqrt (p * 2 ^ 64))) (take 8 primes).

Definition constants : list Z :=
  Eval vm_compute in map (fun p => w32 (cube_root 36 0 (p * 2 ^ 96))) primes.

(** One round over the eight working words; [w] is a window of the next
    sixteen schedule words, whose head is consumed. *)
Definition round (k : Z) (st : list Z * list Z) : list Z * list Z :=
  match st with
  | ([a; b; c; d; e; f; g; h], w0 :: w) =>
      let s1 := Z.lxor (Z.lxor (rotr e 6) (rotr e 11)) (rotr e 25) in
      let ch := Z.lxor (Z.land e f) (Z.land (Z.lxor e 0xffffffff) g) in
      let t1 := h + s1 + ch + k + w0 in
      let s0 := Z.lxor (Z.lxor (rotr a 2) (rotr a 13)) (rotr a 22) in
      let maj := Z.lxor (Z.lxor (Z.land a b) (Z.land a c)) (Z.land b c) in
      let w1 := nth 0 w 0 in
      let w14 := nth 13 w 0 in
      let e0 := Z.lxor (Z.lxor (rotr w1 7) (rotr w1 18)) (Z.shiftr w1 3) in
      let e1 := Z.lxor (Z.lxor (rotr w14 17) (rotr w14 19)) (Z.shiftr w14 10) in
      ([w32 (t1 + s0 + maj); a; b; c; w32 (d + t1); e; f; g],
       w ++ [w32 (w0 + e0 + nth 8 w 0 + e1)])
  | _ => st
  end.

(** The sixteen big-endian words of a block. *)
Fixpoint words (n : nat) (l : bytes) : list Z :=
  match n with
  | O => []
  | S n => be_dec (take 4 l) :: words n (drop 4 l)
  end.

Definition compress (h : list Z) (block : bytes) : list Z :=
  let '(h', _) := fold_left (fun st k => round k st) constants (h, words 16 block) in
  zip_with (fun x y => w32 (x + y)) h h'.

Fixpoint blocks (n : nat) (h : list Z) (l : bytes) : list Z :=
  match n with
  | O => h
  | S n => blocks n (compress h (take 64 l)) (drop 64 l)
  end.

Definition pad (msg : bytes) : bytes :=
  msg ++ z2b 0x80 :: zeros ((55 - zlen msg) mod 64) ++ be_enc 8 (8 * zlen msg).

(** [sha256.Sum256]. The digest is the first 32 bytes by construction. *)
Definition sum (msg : bytes) : bytes :=
  let p := pad msg in
  let h := blocks (Z.to_nat (zlen p / 64)) initial p in
  be_enc 32 (fold_left (fun acc x => acc * 2 ^ 32 + x) h 0).

Lemma zlen_sum msg : zlen (sum msg) = 32.
Proof. unfold sum. apply zlen_be_enc. Qed.

Example sum_abc :
  sum (bs "abc") = be_enc 32 0xba7816bf8f01cfea414140de5dae2223b00361a396177a9cb410ff61f20015ad.
Proof. vm_compute. reflexivity. Qed.

Example sum_two_blocks :
  sum (bs "abcdbcdecdefdefgefghfghighijhijkijkljklmklmnlmnomnopnopq")
  = be_enc 32 0x248d6a61d20638b8e5c026930c3e6039a33ce45964ff2167f6ecedd419db06c1.
Proof. vm_compute. reflexivity. Qed.

End Sha256.

(** ** CRC-32C *)
Module Crc32c.

Definition polynomial : Z := 0x82f63b78.

(** Eight shift steps: the table entry of a byte. *)
Fixpoint shift_steps (n : nat) (crc : Z) : Z :=
  match n with
  | O => crc
  | S n => shift_steps n
      (if Z.testbit crc 0 then Z.lxor (Z.shiftr crc 1) polynomial else Z.shiftr crc 1)
  end.

Definition step (crc : Z) (b : byte) : Z :=
  Z.lxor (shift_steps 8 (Z.land (Z.lxor crc (b2z b)) 0xff)) (Z.shiftr crc 8).

(** [crc32.Update(crc, crcTable, p)]. *)
Definition update (crc : Z) (p : bytes) : Z :=
  w32 (Z.lxor (fold_left step p (Z.lxor crc 0xffffffff)) 0xffffffff).

Lemma update_u32 crc p : u32 (update crc p).
Proof.
  unfold update, w32, u32. change 0xffffffff with (Z.ones 32).
  rewrite Z.land_ones by lia. apply Z.mod_pos_bound. lia.
Qed.

Example update_check : update 0 (bs "123456789") = 0xe3069283.
Proof. vm_compute. reflexivity. Qed.

End Crc32c.
