(* ===== verification/PageFormat.v ===== *)
(** * Pages and metadata

    [internal/storage/format.go]: the metadata slots, the data pages and the
    database root page, with their checksums. *)
From S2P Require Import Prelude Bytes Layout Hashes.

Definition PageSize : Z := 16 * 1024.
Definition PageHeaderSize : Z := 64.
Definition MetaHeaderSize : Z := 256.
Definition FormatVersion : Z := 3.

Definition metaMagic : bytes := bs "MELDMT2" ++ [x00].
Definition pageMagic : bytes := bs "MELDPG2" ++ [x00].

Definition RequiredFeatureShadowIndexBuilds : Z := 1.
Definition RequiredFeatureCompoundIndexes : Z := 2.
Definition RequiredFeatureIndexBuildAppliedRoot : Z := 4.
Definition SupportedRequiredFeatures : Z :=
  Z.lor (Z.lor RequiredFeatureShadowIndexBuilds RequiredFeatureCompoundIndexes)
    RequiredFeatureIndexBuildAppliedRoot.
Definition OptionalFeaturePersistentFreeSpace : Z := 1.

(** [PageType] is a [uint8]; the constants the code names. *)
Definition PageDatabaseRoot : Z := 1.
Definition PageIndexBuildCatalogLeaf : Z := 22.
Definition PageDocumentOverflow : Z := 8.
Definition PageCommitOverflow : Z := 11.
Definition PageSystemOverflow : Z := 20.

(** The tree kinds and their leaf and branch page types
    ([treePageTypes], [internal/storage/reachability.go]). *)
Inductive TreeKind :=
| TreeCatalog | TreePrimary | TreeSecondary | TreeCommitLog | TreeIndexCatalog
| TreeOrder | TreeSystem | TreeFreeSpace | TreeIndexBuildCatalog.

Definition treePageTypes (kind : TreeKind) : Z * Z :=
  match kind with
  | TreeCatalog => (3, 2)
  | TreePrimary => (5, 4)
  | TreeSecondary => (7, 6)
  | TreeCommitLog => (10, 9)
  | TreeFreeSpace => (13, 12)
  | TreeIndexCatalog => (15, 14)
  | TreeOrder => (17, 16)
  | TreeSystem => (19, 18)
  | TreeIndexBuildCatalog => (22, 21)
  end.

Record Meta := mk_Meta {
  DatabaseID : bytes;
  Generation : Z;
  CommitSequence : Z;
  RootPage : Z;
  PhysicalPageCount : Z;
  OldestRetainedSequence : Z;
  RequiredFeatures : Z;
  OptionalFeatures : Z }.

Record MetaEnvelope := mk_MetaEnvelope {
  env_Revision : Z;
  env_HeaderSize : Z;
  env_PageSize : Z;
  env_DatabaseID : bytes;
  env_Generation : Z;
  env_CommitSequence : Z;
  env_RootPage : Z;
  env_PhysicalPageCount : Z;
  env_RequiredFeatures : Z;
  env_OptionalFeatures : Z }.

Record Page := mk_Page {
  page_Type : Z;
  page_Flags : Z;
  page_ID : Z;
  page_Generation : Z;
  page_BornSequence : Z;
  page_ItemCount : Z;
  page_Link : Z;
  page_Payload : bytes }.

Record DatabaseRoot := mk_DatabaseRoot {
  root_CommitSequence : Z;
  root_CatalogRoot : Z;
  root_CommitLogRoot : Z;
  root_FreeSpaceRoot : Z;
  root_OldestRetainedSequence : Z;
  root_CatalogGeneration : Z;
  root_DocumentCount : Z;
  root_CollectionCount : Z;
  root_IndexBuildCatalogRoot : Z }.

#[export] Instance Meta_eq_dec : EqDecision Meta.
Proof. solve_decision. Defined.

(** ** Checksums *)

Definition metaChecksum (page : bytes) : bytes :=
  Sha256.sum (sub page 0 224 ++ zeros 32 ++ sub page 256 (zlen page)).

Definition pageChecksum (page : bytes) : Z :=
  let checksum := Crc32c.update 0 (sub page 0 56) in
  let checksum := Crc32c.update checksum (zeros 4) in
  Crc32c.update checksum (sub page 60 (zlen page)).

(** ** Metadata *)

Definition validMeta (meta : Meta) : bool :=
  if all_zero (DatabaseID meta) || (Generation meta =? 0) || (PhysicalPageCount meta <? 2)
     || (CommitSequence meta <? OldestRetainedSequence meta) then false
  else if RootPage meta =? 0 then CommitSequence meta =? 0
  else (2 <=? RootPage meta) && (RootPage meta <? PhysicalPageCount meta) && (0 <? CommitSequence meta).

Definition unsupported_features (features : Z) : Z := Z.ldiff features SupportedRequiredFeatures.

(** The page before its checksum is written. *)
Definition metaFields (meta : Meta) : bytes :=
  let page := zeros PageSize in
  let page := put page 0 metaMagic in
  let page := put page 8 (le_enc 2 FormatVersion) in
  let page := put page 10 (le_enc 2 MetaHeaderSize) in
  let page := put page 12 (le_enc 4 PageSize) in
  let page := put page 16 (DatabaseID meta) in
  let page := put page 32 (le_enc 8 (Generation meta)) in
  let page := put page 40 (le_enc 8 (CommitSequence meta)) in
  let page := put page 48 (le_enc 8 (RootPage meta)) in
  let page := put page 56 (le_enc 8 (PhysicalPageCount meta)) in
  let page := put page 64 (le_enc 8 (OldestRetainedSequence meta)) in
  let page := put page 72 (le_enc 8 (RequiredFeatures meta)) in
  put page 80 (le_enc 8 (OptionalFeatures meta)).

Definition EncodeMeta (meta : Meta) : result bytes :=
  if negb (unsupported_features (RequiredFeatures meta) =? 0) then Err ErrUnsupportedFeature
  else if negb (validMeta meta) then Err ErrCorrupt
  else
    let page := metaFields meta in
    Ok (put page 224 (metaChecksum page)).

Definition InspectMetaEnvelope (page : bytes) : result MetaEnvelope :=
  if negb (zlen page =? PageSize) || negb (beqb (sub page 0 8) metaMagic) then Err ErrCorrupt
  else if negb (beqb (sub page 224 256) (metaChecksum page)) then Err ErrCorrupt
  else Ok {| env_Revision := le_dec (sub page 8 10);
             env_HeaderSize := le_dec (sub page 10 12);
             env_PageSize := le_dec (sub page 12 16);
             env_DatabaseID := sub page 16 32;
             env_Generation := le_dec (sub page 32 40);
             env_CommitSequence := le_dec (sub page 40 48);
             env_RootPage := le_dec (sub page 48 56);
             env_PhysicalPageCount := le_dec (sub page 56 64);
             env_RequiredFeatures := le_dec (sub page 72 80);
             env_OptionalFeatures := le_dec (sub page 80 88) |}.

Definition DecodeMeta (page : bytes) : result Meta :=
  let* envelope := InspectMetaEnvelope page in
  if negb (env_Revision envelope =? FormatVersion) then Err ErrUnsupportedFormat
  else if negb (env_HeaderSize envelope =? MetaHeaderSize) || negb (env_PageSize envelope =? PageSize)
          || negb (all_zero (sub page 88 224)) || negb (all_zero (sub page 256 (zlen page)))
  then Err ErrCorrupt
  else
    let meta := {| DatabaseID := sub page 16 32;
                   Generation := le_dec (sub page 32 40);
                   CommitSequence := le_dec (sub page 40 48);
                   RootPage := le_dec (sub page 48 56);
                   PhysicalPageCount := le_dec (sub page 56 64);
                   OldestRetainedSequence := le_dec (sub page 64 72);
                   RequiredFeatures := le_dec (sub page 72 80);
                   OptionalFeatures := le_dec (sub page 80 88) |} in
    if negb (unsupported_features (RequiredFeatures meta) =? 0) then Err ErrUnsupportedFeature
    else if negb (validMeta meta) then Err ErrCorrupt
    else Ok meta.

(** ** Data pages *)

Definition known_page_type (t : Z) : bool :=
  (PageDatabaseRoot <=? t) && (t <=? PageIndexBuildCatalogLeaf).

(** The page before its checksum is written. *)
Definition pageFields (value : Page) : bytes :=
  let page := zeros PageSize in
  let page := put page 0 pageMagic in
  let page := put page 8 (le_enc 2 FormatVersion) in
  let page := put page 10 (le_enc 1 (page_Type value)) in
  let page := put page 11 (le_enc 1 (page_Flags value)) in
  let page := put page 12 (le_enc 2 PageHeaderSize) in
  let page := put page 16 (le_enc 8 (page_ID value)) in
  let page := put page 24 (le_enc 8 (page_Generation value)) in
  let page := put page 32 (le_enc 8 (page_BornSequence value)) in
  let page := put page 40 (le_enc 4 (zlen (page_Payload value))) in
  let page := put page 44 (le_enc 4 (page_ItemCount value)) in
  let page := put page 48 (le_enc 8 (page_Link value)) in
  put page PageHeaderSize (page_Payload value).

Definition EncodePage (value : Page) : result bytes :=
  if negb (known_page_type (page_Type value)) || (page_ID value <? 2) || (page_Generation value =? 0)
     || (PageSize - PageHeaderSize <? zlen (page_Payload value)) then Err ErrCorrupt
  else
    let page := pageFields value in
    Ok (put page 56 (le_enc 4 (pageChecksum page))).

Definition decodePage (page : bytes) (expectedID : Z) : result Page :=
  if negb (zlen page =? PageSize) || negb (beqb (sub page 0 8) pageMagic)
     || negb (le_dec (sub page 8 10) =? FormatVersion)
     || negb (le_dec (sub page 12 14) =? PageHeaderSize)
     || negb (le_dec (sub page 14 16) =? 0) || negb (le_dec (sub page 60 64) =? 0)
     || negb (le_dec (sub page 16 24) =? expectedID) || (expectedID <? 2)
     || negb (le_dec (sub page 56 60) =? pageChecksum page) then Err ErrCorrupt
  else
    let length := le_dec (sub page 40 44) in
    if (PageSize - PageHeaderSize <? length)
       || negb (all_zero (sub page (PageHeaderSize + length) (zlen page))) then Err ErrCorrupt
    else
      let result := {| page_Type := le_dec (sub page 10 11);
                       page_Flags := le_dec (sub page 11 12);
                       page_ID := expectedID;
                       page_Generation := le_dec (sub page 24 32);
                       page_BornSequence := le_dec (sub page 32 40);
                       page_ItemCount := le_dec (sub page 44 48);
                       page_Link := le_dec (sub page 48 56);
                       page_Payload := sub page PageHeaderSize (PageHeaderSize + length) |} in
      if negb (known_page_type (page_Type result)) || (page_Generation result =? 0) then Err ErrCorrupt
      else Ok result.

(** The copying and the sharing reader return the same page. *)
Definition DecodePage : bytes -> Z -> result Page := decodePage.
Definition decodePageView : bytes -> Z -> result Page := decodePage.

(** ** The database root *)

Definition root_payload (root : DatabaseRoot) : bytes :=
  let payload := zeros 128 in
  let payload := put payload 0 (le_enc 8 (root_CommitSequence root)) in
  let payload := put payload 8 (le_enc 8 (root_CatalogRoot root)) in
  let payload := put payload 16 (le_enc 8 (root_CommitLogRoot root)) in
  let payload := put payload 24 (le_enc 8 (root_FreeSpaceRoot root)) in
  let payload := put payload 32 (le_enc 8 (root_OldestRetainedSequence root)) in
  let payload := put payload 40 (le_enc 8 (root_CatalogGeneration root)) in
  let payload := put payload 48 (le_enc 8 (root_DocumentCount root)) in
  let payload := put payload 56 (le_enc 8 (root_CollectionCount root)) in
  put payload 64 (le_enc 8 (root_IndexBuildCatalogRoot root)).

Definition EncodeDatabaseRoot (pageID generation : Z) (root : DatabaseRoot) : result bytes :=
  if (root_CommitSequence root <? root_OldestRetainedSequence root)
     || ((root_CommitSequence root =? 0)
         && (negb (root_CatalogRoot root =? 0) || negb (root_CommitLogRoot root =? 0)
             || negb (root_FreeSpaceRoot root =? 0) || negb (root_IndexBuildCatalogRoot root =? 0)))
  then Err ErrCorrupt
  else
    EncodePage {| page_Type := PageDatabaseRoot; page_Flags := 0; page_ID := pageID;
                  page_Generation := generation; page_BornSequence := root_CommitSequence root;
                  page_ItemCount := 1; page_Link := 0; page_Payload := root_payload root |}.

Definition DecodeDatabaseRoot (page : bytes) (expectedID : Z) : result (DatabaseRoot * Page) :=
  match DecodePage page expectedID with
  | Err _ => Err ErrCorrupt
  | Ok decoded =>
      let payload := page_Payload decoded in
      if negb (page_Type decoded =? PageDatabaseRoot) || negb (page_Flags decoded =? 0)
         || negb (page_ItemCount decoded =? 1) || negb (page_Link decoded =? 0)
         || negb (zlen payload =? 128) || negb (all_zero (sub payload 72 (zlen payload)))
      then Err ErrCorrupt
      else
        let root := {| root_CommitSequence := le_dec (sub payload 0 8);
                       root_CatalogRoot := le_dec (sub payload 8 16);
                       root_CommitLogRoot := le_dec (sub payload 16 24);
                       root_FreeSpaceRoot := le_dec (sub payload 24 32);
                       root_OldestRetainedSequence := le_dec (sub payload 32 40);
                       root_CatalogGeneration := le_dec (sub payload 40 48);
                       root_DocumentCount := le_dec (sub payload 48 56);
                       root_CollectionCount := le_dec (sub payload 56 64);
                       root_IndexBuildCatalogRoot := le_dec (sub payload 64 72) |} in
        if negb (root_CommitSequence root =? page_BornSequence decoded)
           || (root_CommitSequence root <? root_OldestRetainedSequence root) then Err ErrCorrupt
        else Ok (root, decoded)
  end.

(** ** Images: the bytes of an encoded structure *)

#[global] Arguments Sha256.sum : simpl never.
#[global] Arguments Crc32c.update : simpl never.

(** The widths of the Go fields. *)
Definition meta_ok (m : Meta) : Prop :=
  zlen (DatabaseID m) = 16 /\ u64 (Generation m) /\ u64 (CommitSequence m) /\ u64 (RootPage m) /\
  u64 (PhysicalPageCount m) /\ u64 (OldestRetainedSequence m) /\ u64 (RequiredFeatures m) /\
  u64 (OptionalFeatures m).

Definition page_ok (p : Page) : Prop :=
  0 <= page_Type p < 256 /\ 0 <= page_Flags p < 256 /\ u64 (page_ID p) /\
  u64 (page_Generation p) /\ u64 (page_BornSequence p) /\ u32 (page_ItemCount p) /\
  u64 (page_Link p).

Definition root_ok (r : DatabaseRoot) : Prop :=
  u64 (root_CommitSequence r) /\ u64 (root_CatalogRoot r) /\ u64 (root_CommitLogRoot r) /\
  u64 (root_FreeSpaceRoot r) /\ u64 (root_OldestRetainedSequence r) /\
  u64 (root_CatalogGeneration r) /\ u64 (root_DocumentCount r) /\ u64 (root_CollectionCount r) /\
  u64 (root_IndexBuildCatalogRoot r).

Definition meta_image (m : Meta) (checksum : bytes) : bytes :=
  metaMagic ++ le_enc 2 FormatVersion ++ le_enc 2 MetaHeaderSize ++ le_enc 4 PageSize
  ++ DatabaseID m ++ le_enc 8 (Generation m) ++ le_enc 8 (CommitSequence m)
  ++ le_enc 8 (RootPage m) ++ le_enc 8 (PhysicalPageCount m)
  ++ le_enc 8 (OldestRetainedSequence m) ++ le_enc 8 (RequiredFeatures m)
  ++ le_enc 8 (OptionalFeatures m) ++ zeros 136 ++ checksum ++ zeros (PageSize - 256).

Definition page_image (p : Page) (checksum : Z) : bytes :=
  pageMagic ++ le_enc 2 FormatVersion ++ le_enc 1 (page_Type p) ++ le_enc 1 (page_Flags p)
  ++ le_enc 2 PageHeaderSize ++ zeros 2 ++ le_enc 8 (page_ID p) ++ le_enc 8 (page_Generation p)
  ++ le_enc 8 (page_BornSequence p) ++ le_enc 4 (zlen (page_Payload p))
  ++ le_enc 4 (page_ItemCount p) ++ le_enc 8 (page_Link p) ++ le_enc 4 checksum ++ zeros 4
  ++ page_Payload p ++ zeros (PageSize - PageHeaderSize - zlen (page_Payload p)).

Definition root_image (r : DatabaseRoot) : bytes :=
  le_enc 8 (root_CommitSequence r) ++ le_enc 8 (root_CatalogRoot r)
  ++ le_enc 8 (root_CommitLogRoot r) ++ le_enc 8 (root_FreeSpaceRoot r)
  ++ le_enc 8 (root_OldestRetainedSequence r) ++ le_enc 8 (root_CatalogGeneration r)
  ++ le_enc 8 (root_DocumentCount r) ++ le_enc 8 (root_CollectionCount r)
  ++ le_enc 8 (root_IndexBuildCatalogRoot r) ++ zeros 56.

Lemma zlen_metaMagic : zlen metaMagic = 8. Proof. done. Qed.
Lemma zlen_pageMagic : zlen pageMagic = 8. Proof. done. Qed.

(** Offsets of the constants of the layouts, for [layout] and [slice]. *)
Ltac page_layout :=
  pose proof zlen_metaMagic; pose proof zlen_pageMagic;
  unfold PageSize, PageHeaderSize, FormatVersion, MetaHeaderSize in *.

Lemma zlen_meta_image m c : zlen (DatabaseID m) = 16 -> zlen c = 32 -> zlen (meta_image m c) = PageSize.
Proof.
  intros. unfold meta_image. page_layout.
  rewrite !zlen_app, !zlen_le_enc, !zlen_zeros by lia. lia.
Qed.

Lemma metaFields_image m c :
  zlen (DatabaseID m) = 16 -> zlen c = 32 -> put (metaFields m) 224 c = meta_image m c.
Proof. intros. unfold metaFields, meta_image. page_layout. layout. same_layout. Qed.

Lemma zlen_metaFields m : zlen (DatabaseID m) = 16 -> zlen (metaFields m) = PageSize.
Proof.
  intros. unfold metaFields. page_layout. layout.
  rewrite !zlen_app, !zlen_le_enc, zlen_zeros; offsets.
Qed.

(** The checksum does not read its own field. *)
Lemma metaChecksum_put page c :
  zlen page = PageSize -> zlen c = 32 -> metaChecksum (put page 224 c) = metaChecksum page.
Proof.
  intros Hp Hc. unfold metaChecksum. unfold PageSize in Hp. rewrite zlen_put by lia.
  by rewrite sub_put_before, sub_put_after by lia.
Qed.

Lemma EncodeMeta_image m page :
  zlen (DatabaseID m) = 16 ->
  EncodeMeta m = Ok page <->
  unsupported_features (RequiredFeatures m) = 0 /\ validMeta m = true /\
  page = meta_image m (metaChecksum (metaFields m)).
Proof.
  intros Hid. unfold EncodeMeta.
  destruct (Z.eqb_spec (unsupported_features (RequiredFeatures m)) 0); [|split; [done|lia]].
  cbn [negb]. destruct (validMeta m); cbn [negb]; [|split; [done|intros (_ & ? & _); done]].
  rewrite metaFields_image by (done || apply Sha256.zlen_sum).
  split; [intros <-%Ok_inj; done|intros (_ & _ & ->); done].
Qed.

(** Cuts a metadata page into its fields. *)
Definition meta_cuts : list Z :=
  [8; 10; 12; 16; 32; 40; 48; 56; 64; 72; 80; 88; 224; 256; PageSize].

(** The slices of an image. *)
Lemma meta_image_fields m c :
  zlen (DatabaseID m) = 16 -> zlen c = 32 ->
  let page := meta_image m c in
  sub page 0 8 = metaMagic /\ sub page 8 10 = le_enc 2 FormatVersion /\
  sub page 10 12 = le_enc 2 MetaHeaderSize /\ sub page 12 16 = le_enc 4 PageSize /\
  sub page 16 32 = DatabaseID m /\ sub page 32 40 = le_enc 8 (Generation m) /\
  sub page 40 48 = le_enc 8 (CommitSequence m) /\ sub page 48 56 = le_enc 8 (RootPage m) /\
  sub page 56 64 = le_enc 8 (PhysicalPageCount m) /\
  sub page 64 72 = le_enc 8 (OldestRetainedSequence m) /\
  sub page 72 80 = le_enc 8 (RequiredFeatures m) /\
  sub page 80 88 = le_enc 8 (OptionalFeatures m) /\ sub page 88 224 = zeros 136 /\
  sub page 224 256 = c /\ sub page 256 PageSize = zeros (PageSize - 256).
Proof.
  intros Hid Hc. unfold meta_image. page_layout. cbv zeta.
  repeat split; slice; reflexivity.
Qed.

Lemma DecodeMeta_image page m :
  DecodeMeta page = Ok m <->
  meta_ok m /\ unsupported_features (RequiredFeatures m) = 0 /\ validMeta m = true /\
  page = meta_image m (metaChecksum (metaFields m)).
Proof.
  unfold DecodeMeta, InspectMetaEnvelope. split.
  - destruct (negb (zlen page =? PageSize) || _) eqn:E1; [done|].
    destruct (negb (beqb (sub page 224 256) _)) eqn:E2; [done|]. cbn -[Z.eqb].
    destruct (negb (le_dec _ =? FormatVersion)) eqn:E3; [done|].
    match goal with |- (if ?b then _ else _) = _ -> _ => destruct b eqn:E4; [done|] end.
    match goal with |- (if ?b then _ else _) = _ -> _ => destruct b eqn:E5; [done|] end.
    match goal with |- (if ?b then _ else _) = _ -> _ => destruct b eqn:E6; [done|] end.
    reflect_checks. intros <-%Ok_inj. cbn in E5.
    match goal with H : zlen page = PageSize |- _ => rename H into Hp; rewrite Hp in * end.
    unfold PageSize in *.
    match type of E6 with validMeta ?x = true => set (m := x) in * end.
    assert (Hid : zlen (DatabaseID m) = 16) by (subst m; cbn; rewrite zlen_sub; lia).
    split; [split; [done|]; repeat split; apply field_u64; lia|].
    split; [done|]. split; [done|].
    assert (Himg : page = meta_image m (sub page 224 256)).
    { rewrite (pieces_all page meta_cuts) at 1 by (rewrite Hp; unfold meta_cuts, PageSize; cbn; lia).
      cbn [pieces meta_cuts]. rewrite app_nil_r. unfold meta_image, PageSize, FormatVersion, MetaHeaderSize in *.
      subst m. cbn [DatabaseID Generation CommitSequence RootPage PhysicalPageCount
        OldestRetainedSequence RequiredFeatures OptionalFeatures].
      rewrite !le_field_id by lia.
      rewrite (le_field_eq page 8 10 2 3), (le_field_eq page 10 12 2 256),
        (le_field_eq page 12 16 4 (16 * 1024)) by (done || lia).
      rewrite (all_zero_sub page 88 224), (all_zero_sub page 256 (16 * 1024)) by (done || lia).
      match goal with H : sub page 0 8 = _ |- _ => rewrite H end. reflexivity. }
    rewrite Himg at 1. f_equal. rewrite E2. rewrite Himg at 1.
    rewrite <- metaFields_image by (done || rewrite zlen_sub; lia).
    apply metaChecksum_put; [by apply zlen_metaFields|rewrite zlen_sub; lia].
  - intros (Hok & Hu & Hv & ->). destruct Hok as (Hid & Hok).
    set (c := metaChecksum (metaFields m)).
    assert (Hc : zlen c = 32) by apply Sha256.zlen_sum.
    pose proof (meta_image_fields m c Hid Hc) as F. cbv zeta in F.
    pose proof (metaFields_image m c Hid Hc) as Hput.
    assert (Hsum : metaChecksum (meta_image m c) = c).
    { rewrite <- Hput. apply metaChecksum_put; [by apply zlen_metaFields|done]. }
    rewrite (zlen_meta_image m c Hid Hc), Hsum.
    destruct F as (-> & -> & -> & -> & -> & -> & -> & -> & -> & -> & -> & -> & -> & -> & ->).
    rewrite !beqb_refl, !all_zero_zeros.
    destruct Hok as (? & ? & ? & ? & ? & ? & ?).
    cbn [env_Revision env_HeaderSize env_PageSize rbind].
    unfold FormatVersion, MetaHeaderSize, PageSize. read_fields.
    rewrite !Z.eqb_refl. cbn [negb orb].
    replace {| DatabaseID := _ |} with m by (by destruct m).
    cbn -[Z.eqb]. by rewrite Hu, Hv.
Qed.

(** ** Page images *)

(** What [EncodePage] checks. *)
Definition validPage (p : Page) : bool :=
  known_page_type (page_Type p) && (2 <=? page_ID p) && negb (page_Generation p =? 0)
  && (zlen (page_Payload p) <=? PageSize - PageHeaderSize).

Lemma validPage_spec p :
  validPage p = true <->
  known_page_type (page_Type p) = true /\ 2 <= page_ID p /\ page_Generation p <> 0 /\
  zlen (page_Payload p) <= PageSize - PageHeaderSize.
Proof.
  unfold validPage. rewrite !andb_true_iff, negb_true_iff, !Z.leb_le, Z.eqb_neq. tauto.
Qed.

Lemma EncodePage_valid p page :
  EncodePage p = Ok page <->
  validPage p = true /\ page = put (pageFields p) 56 (le_enc 4 (pageChecksum (pageFields p))).
Proof.
  unfold EncodePage, validPage.
  destruct (known_page_type (page_Type p)); cbn [negb orb andb]; [|split; [done|by intros []]].
  destruct (Z.ltb_spec (page_ID p) 2), (Z.leb_spec 2 (page_ID p)); try lia; cbn [orb andb];
    [split; [done|by intros []]|].
  destruct (page_Generation p =? 0); cbn [orb andb negb]; [split; [done|by intros []]|].
  destruct (Z.ltb_spec (PageSize - PageHeaderSize) (zlen (page_Payload p))),
    (Z.leb_spec (zlen (page_Payload p)) (PageSize - PageHeaderSize)); try lia;
    [split; [done|by intros []]|].
  split; [intros <-%Ok_inj; done|by intros [_ ->]].
Qed.

Lemma pageFields_image p c :
  zlen (page_Payload p) <= PageSize - PageHeaderSize ->
  put (pageFields p) 56 (le_enc 4 c) = page_image p c.
Proof.
  intros. pose proof (zlen_nonneg (page_Payload p)). unfold pageFields, page_image. page_layout.
  layout. rewrite put_app_l by offsets. layout. same_layout.
Qed.

Lemma zlen_pageFields p :
  zlen (page_Payload p) <= PageSize - PageHeaderSize -> zlen (pageFields p) = PageSize.
Proof.
  intros. pose proof (zlen_nonneg (page_Payload p)). unfold pageFields. page_layout. layout.
  rewrite !zlen_app, !zlen_le_enc, !zlen_zeros; offsets.
Qed.

Lemma pageChecksum_put page c :
  zlen page = PageSize -> pageChecksum (put page 56 (le_enc 4 c)) = pageChecksum page.
Proof.
  intros Hp. unfold pageChecksum, PageSize in *.
  rewrite zlen_put by offsets. rewrite sub_put_before, sub_put_after by offsets. done.
Qed.

Lemma page_image_fields p c :
  zlen (page_Payload p) <= PageSize - PageHeaderSize ->
  let page := page_image p c in
  zlen page = PageSize /\
  sub page 0 8 = pageMagic /\ sub page 8 10 = le_enc 2 FormatVersion /\
  sub page 10 11 = le_enc 1 (page_Type p) /\ sub page 11 12 = le_enc 1 (page_Flags p) /\
  sub page 12 14 = le_enc 2 PageHeaderSize /\ sub page 14 16 = zeros 2 /\
  sub page 16 24 = le_enc 8 (page_ID p) /\ sub page 24 32 = le_enc 8 (page_Generation p) /\
  sub page 32 40 = le_enc 8 (page_BornSequence p) /\
  sub page 40 44 = le_enc 4 (zlen (page_Payload p)) /\
  sub page 44 48 = le_enc 4 (page_ItemCount p) /\ sub page 48 56 = le_enc 8 (page_Link p) /\
  sub page 56 60 = le_enc 4 c /\ sub page 60 64 = zeros 4 /\
  sub page PageHeaderSize (PageHeaderSize + zlen (page_Payload p)) = page_Payload p /\
  sub page (PageHeaderSize + zlen (page_Payload p)) PageSize =
    zeros (PageSize - PageHeaderSize - zlen (page_Payload p)).
Proof.
  intros Hb. pose proof (zlen_nonneg (page_Payload p)). unfold page_image. page_layout. cbv zeta.
  split; [rewrite !zlen_app, !zlen_le_enc, !zlen_zeros; offsets|].
  repeat split; slice; reflexivity.
Qed.

Lemma pageChecksum_u32 page : u32 (pageChecksum page).
Proof. apply Crc32c.update_u32. Qed.

Definition page_cuts (length : Z) : list Z :=
  [8; 10; 11; 12; 14; 16; 24; 32; 40; 44; 48; 56; 60; 64; 64 + length; PageSize].

Lemma decodePage_sound page id p :
  decodePage page id = Ok p -> page_ok p /\ page_ID p = id /\ EncodePage p = Ok page.
Proof.
  rewrite EncodePage_valid. unfold decodePage.
  match goal with |- (if ?b then _ else _) = _ -> _ => destruct b eqn:E1; [done|] end.
  match goal with |- (if ?b then _ else _) = _ -> _ => destruct b eqn:E2; [done|] end.
  match goal with |- (if ?b then _ else _) = _ -> _ => destruct b eqn:E3; [done|] end.
  reflect_checks. intros <-%Ok_inj.
  match goal with H : zlen page = PageSize |- _ => rename H into Hp; rewrite Hp in * end.
  set (length := le_dec (sub page 40 44)) in *. unfold PageSize, PageHeaderSize in *.
  pose proof (field_u32 page 40 44 ltac:(lia) ltac:(lia) ltac:(lia)) as Hlen.
  fold length in Hlen. unfold u32 in Hlen.
  match type of H with known_page_type (page_Type ?x) = true => set (p := x) in * end.
  assert (Hpl : zlen (page_Payload p) = length) by (subst p; cbn; rewrite zlen_sub; lia).
  split.
  { repeat split; subst p; cbn; try (apply field_u8; lia); try (apply field_u32; lia);
      try (apply field_u64; lia). all: rewrite <- H6; apply field_u64; lia. }
  split; [done|]. split; [apply validPage_spec; rewrite Hpl; by repeat split|].
  assert (Himg : page = page_image p (le_dec (sub page 56 60))).
  { rewrite (pieces_all page (page_cuts length)) at 1
      by (rewrite Hp; unfold page_cuts, PageSize; cbn; lia).
    cbn [pieces page_cuts]. rewrite app_nil_r.
    unfold page_image, PageSize, FormatVersion, PageHeaderSize in *. rewrite Hpl.
    subst p. cbn [page_Type page_Flags page_ID page_Generation page_BornSequence page_ItemCount
      page_Link page_Payload].
    rewrite !le_field_id by lia.
    rewrite (le_field_eq page 8 10 2 3), (le_field_eq page 12 14 2 64),
      (le_field_eq page 14 16 2 0), (le_field_eq page 60 64 4 0), (le_field_eq page 16 24 8 id)
      by (done || lia).
    rewrite (le_field_eq page 40 44 4 length) by (done || lia).
    rewrite (all_zero_sub page (64 + length) (16 * 1024)) by (done || lia).
    match goal with H : sub page 0 8 = _ |- _ => rewrite H end.
    replace (16 * 1024 - (64 + length)) with (16 * 1024 - 64 - length) by lia. reflexivity. }
  rewrite pageFields_image by (rewrite Hpl; unfold PageSize, PageHeaderSize; lia).
  rewrite Himg at 1. f_equal. rewrite H4. rewrite Himg at 1.
  rewrite <- pageFields_image by (rewrite Hpl; unfold PageSize, PageHeaderSize; lia).
  apply pageChecksum_put, zlen_pageFields. rewrite Hpl. unfold PageSize, PageHeaderSize. lia.
Qed.

Lemma decodePage_complete page id p :
  page_ok p -> page_ID p = id -> EncodePage p = Ok page -> decodePage page id = Ok p.
Proof.
  rewrite EncodePage_valid. unfold decodePage.
  intros Hok Hid [(Ht & Hi & Hg & Hl)%validPage_spec Hpage].
  set (c := pageChecksum (pageFields p)) in *.
  pose proof (pageFields_image p c Hl) as Hput. rewrite Hput in Hpage.
  assert (Hsum : pageChecksum page = c).
  { rewrite Hpage, <- Hput. by apply pageChecksum_put, zlen_pageFields. }
  pose proof (page_image_fields p c Hl) as F. cbv zeta in F. rewrite <- Hpage in F.
  rewrite Hsum.
  destruct F as (-> & -> & -> & -> & -> & -> & -> & -> & -> & -> & -> & -> & -> & -> & -> & Hpay & Hrest).
  pose proof (zlen_nonneg (page_Payload p)).
  destruct Hok as (? & ? & ? & ? & ? & ? & ?).
  unfold FormatVersion, PageHeaderSize, PageSize in *.
  rewrite (le_dec_u32 c) by apply pageChecksum_u32. read_fields.
  change (le_dec (zeros 2)) with 0. change (le_dec (zeros 4)) with 0.
  rewrite (le_dec_enc 1 (page_Type p)), (le_dec_enc 1 (page_Flags p)) by (cbn; lia).
  rewrite Hpay, Hrest, all_zero_zeros.
  rewrite beqb_refl, Hid, !Z.eqb_refl.
  destruct (Z.ltb_spec id 2); [lia|]. destruct (Z.ltb_spec (16 * 1024 - 64) (zlen (page_Payload p))); [lia|].
  cbn [negb orb page_Type page_Generation]. rewrite Ht. rewrite <- Hid.
  destruct (Z.eqb_spec (page_Generation p) 0); [done|]. cbn. by destruct p.
Qed.

Lemma EncodePage_length p page : EncodePage p = Ok page -> zlen page = PageSize.
Proof.
  intros ((_ & _ & _ & Hl)%validPage_spec & ->)%EncodePage_valid.
  rewrite zlen_put; rewrite ?zlen_pageFields by done; unfold PageSize; offsets.
Qed.

(** ** The database root *)

Lemma root_payload_image root : root_payload root = root_image root.
Proof. unfold root_payload, root_image. layout. same_layout. Qed.

Lemma zlen_root_image root : zlen (root_image root) = 128.
Proof. unfold root_image. rewrite !zlen_app, !zlen_le_enc, zlen_zeros; lia. Qed.

(** The page that carries a root. *)
Definition root_page (pageID generation : Z) (root : DatabaseRoot) : Page :=
  {| page_Type := PageDatabaseRoot; page_Flags := 0; page_ID := pageID;
     page_Generation := generation; page_BornSequence := root_CommitSequence root;
     page_ItemCount := 1; page_Link := 0; page_Payload := root_image root |}.

Definition root_refused (root : DatabaseRoot) : bool :=
  (root_CommitSequence root <? root_OldestRetainedSequence root)
  || ((root_CommitSequence root =? 0)
      && (negb (root_CatalogRoot root =? 0) || negb (root_CommitLogRoot root =? 0)
          || negb (root_FreeSpaceRoot root =? 0) || negb (root_IndexBuildCatalogRoot root =? 0))).

Lemma EncodeDatabaseRoot_page pageID generation root :
  EncodeDatabaseRoot pageID generation root =
  if root_refused root then Err ErrCorrupt else EncodePage (root_page pageID generation root).
Proof.
  unfold EncodeDatabaseRoot, root_page. by rewrite root_payload_image.
Qed.

Lemma root_image_fields r :
  let p := root_image r in
  sub p 0 8 = le_enc 8 (root_CommitSequence r) /\ sub p 8 16 = le_enc 8 (root_CatalogRoot r) /\
  sub p 16 24 = le_enc 8 (root_CommitLogRoot r) /\ sub p 24 32 = le_enc 8 (root_FreeSpaceRoot r) /\
  sub p 32 40 = le_enc 8 (root_OldestRetainedSequence r) /\
  sub p 40 48 = le_enc 8 (root_CatalogGeneration r) /\
  sub p 48 56 = le_enc 8 (root_DocumentCount r) /\
  sub p 56 64 = le_enc 8 (root_CollectionCount r) /\
  sub p 64 72 = le_enc 8 (root_IndexBuildCatalogRoot r) /\ sub p 72 128 = zeros 56.
Proof. unfold root_image. cbv zeta. repeat split; slice; reflexivity. Qed.

Lemma root_of_payload payload :
  zlen payload = 128 -> all_zero (sub payload 72 128) = true ->
  let root := {| root_CommitSequence := le_dec (sub payload 0 8);
                 root_CatalogRoot := le_dec (sub payload 8 16);
                 root_CommitLogRoot := le_dec (sub payload 16 24);
                 root_FreeSpaceRoot := le_dec (sub payload 24 32);
                 root_OldestRetainedSequence := le_dec (sub payload 32 40);
                 root_CatalogGeneration := le_dec (sub payload 40 48);
                 root_DocumentCount := le_dec (sub payload 48 56);
                 root_CollectionCount := le_dec (sub payload 56 64);
                 root_IndexBuildCatalogRoot := le_dec (sub payload 64 72) |} in
  root_ok root /\ root_image root = payload.
Proof.
  intros Hl Hz. cbv zeta. split; [repeat split; cbn; apply field_u64; lia|].
  unfold root_image. cbn [root_CommitSequence root_CatalogRoot root_CommitLogRoot root_FreeSpaceRoot
    root_OldestRetainedSequence root_CatalogGeneration root_DocumentCount root_CollectionCount
    root_IndexBuildCatalogRoot].
  rewrite !le_field_id by lia. change (zeros 56) with (zeros (128 - 72)).
  rewrite <- (all_zero_sub payload 72 128) by (done || lia).
  rewrite (pieces_all payload [8; 16; 24; 32; 40; 48; 56; 64; 72; 128]) at 11 by (cbn; lia).
  cbn [pieces]. by rewrite app_nil_r.
Qed.

Lemma DecodeDatabaseRoot_sound page id root p :
  DecodeDatabaseRoot page id = Ok (root, p) ->
  root_ok root /\ p = root_page id (page_Generation p) root /\ u64 (page_Generation p) /\ u64 id /\
  root_OldestRetainedSequence root <= root_CommitSequence root /\
  EncodePage (root_page id (page_Generation p) root) = Ok page.
Proof.
  unfold DecodeDatabaseRoot, DecodePage. destruct (decodePage page id) as [d|] eqn:Ed; [|done].
  match goal with |- (if ?b then _ else _) = _ -> _ => destruct b eqn:E1; [done|] end.
  match goal with |- (if ?b then _ else _) = _ -> _ => destruct b eqn:E2; [done|] end.
  reflect_checks. intros [= <- <-].
  apply decodePage_sound in Ed as (Hok & Hid & Henc).
  match goal with H : zlen _ = 128 |- _ => rename H into Hl; rewrite Hl in * end.
  destruct (root_of_payload (page_Payload d)) as [Hrok Himg]; [done..|].
  split; [done|]. match type of Hrok with root_ok ?r => set (r0 := r) in * end.
  assert (Hd : d = root_page id (page_Generation d) r0).
  { unfold root_page. rewrite Himg. destruct d; cbn in *. congruence. }
  rewrite <- Hd. destruct Hok as (_ & _ & ? & ? & _). subst id. done.
Qed.

Lemma DecodeDatabaseRoot_complete page id generation root :
  root_ok root -> u64 generation -> u64 id ->
  EncodeDatabaseRoot id generation root = Ok page ->
  DecodeDatabaseRoot page id = Ok (root, root_page id generation root).
Proof.
  intros Hr Hg Hid. rewrite EncodeDatabaseRoot_page. destruct (root_refused root) eqn:Er; [done|].
  intros He. apply orb_false_iff in Er as [Er _]. breflect.
  unfold DecodeDatabaseRoot, DecodePage. rewrite (decodePage_complete page id (root_page id generation root)).
  - cbn [page_Payload root_page page_Type page_Flags page_ItemCount page_Link page_BornSequence].
    rewrite zlen_root_image. pose proof (root_image_fields root) as F. cbv zeta in F.
    destruct F as (-> & -> & -> & -> & -> & -> & -> & -> & -> & ->).
    destruct Hr as (? & ? & ? & ? & ? & ? & ? & ? & ?). read_fields. rewrite all_zero_zeros.
    cbn -[Z.eqb Z.ltb]. rewrite !Z.eqb_refl. cbn -[Z.ltb].
    destruct (Z.ltb_spec (root_CommitSequence root) (root_OldestRetainedSequence root)); [lia|].
    by destruct root.
  - destruct Hr as (? & _). unfold root_page, page_ok, u64, u32, PageDatabaseRoot in *. cbn. lia.
  - done.
  - done.
Qed.

(** ** Theorems *)

(** Metadata round trip and canonicity: [DecodeMeta] accepts exactly the
    pages [EncodeMeta] writes, checksum, zero padding and validity included. *)
Lemma DecodeMeta_exact page m :
  DecodeMeta page = Ok m <-> meta_ok m /\ EncodeMeta m = Ok page.
Proof.
  rewrite DecodeMeta_image. split.
  - intros (Hok & H). split; [done|]. by apply EncodeMeta_image; [apply Hok|].
  - intros [Hok H]. split; [done|]. by apply EncodeMeta_image; [apply Hok|].
Qed.

(** A metadata slot is reported as written by another format revision only
    when its magic and its checksum are intact: a torn slot is [ErrCorrupt], so
    opening falls back to the other slot instead of refusing the file. *)
Lemma DecodeMeta_unsupported page :
  DecodeMeta page = Err ErrUnsupportedFormat <->
  zlen page = PageSize /\ sub page 0 8 = metaMagic /\ sub page 224 256 = metaChecksum page /\
  le_dec (sub page 8 10) <> FormatVersion.
Proof.
  unfold DecodeMeta, InspectMetaEnvelope. split.
  - destruct (negb (zlen page =? PageSize) || _) eqn:E1; [done|].
    destruct (negb (beqb (sub page 224 256) _)) eqn:E2; [done|]. cbn -[Z.eqb].
    destruct (Z.eqb_spec (le_dec (sub page 8 10)) FormatVersion); cbn [negb].
    + repeat match goal with |- context [if ?b then _ else _] => destruct b end; done.
    + reflect_checks. done.
  - intros (-> & -> & -> & Hv). rewrite Z.eqb_refl, !beqb_refl. cbn -[Z.eqb].
    by destruct (Z.eqb_spec (le_dec (sub page 8 10)) FormatVersion).
Qed.

(** Data pages: [DecodePage] for an expected identifier accepts exactly the
    pages [EncodePage] writes for that identifier. *)
Lemma DecodePage_exact page id p :
  DecodePage page id = Ok p <-> page_ok p /\ page_ID p = id /\ EncodePage p = Ok page.
Proof.
  split; [apply decodePage_sound|]. intros (Hok & Hid & He). by apply decodePage_complete.
Qed.

(** C20: metadata slots and data pages are accepted exactly when they are images of
    legal contents, byte for byte; a slot counts as written by another revision of
    the format exactly when its magic and checksum are right and its revision
    differs, so that a torn slot never stops a file from opening. *)
Theorem page_images_exact :
  (forall page m, DecodeMeta page = Ok m <-> meta_ok m /\ EncodeMeta m = Ok page) /\
  (forall page, DecodeMeta page = Err ErrUnsupportedFormat <->
     zlen page = PageSize /\ sub page 0 8 = metaMagic /\ sub page 224 256 = metaChecksum page /\
     le_dec (sub page 8 10) <> FormatVersion) /\
  (forall page id p, DecodePage page id = Ok p <-> page_ok p /\ page_ID p = id /\ EncodePage p = Ok page).
Proof. split; [exact DecodeMeta_exact|]. split; [exact DecodeMeta_unsupported|exact DecodePage_exact]. Qed.

(** Database roots: what [EncodeDatabaseRoot] writes is read back as the
    same root, and a root page is read only if it is the page of that root. *)
Theorem DatabaseRoot_roundtrip page id generation root :
  root_ok root -> u64 generation -> u64 id ->
  (EncodeDatabaseRoot id generation root = Ok page ->
   DecodeDatabaseRoot page id = Ok (root, root_page id generation root)) /\
  (forall p, DecodeDatabaseRoot page id = Ok (root, p) -> root_refused root = false ->
   p = root_page id (page_Generation p) root /\
   EncodeDatabaseRoot id (page_Generation p) root = Ok page).
Proof.
  intros Hr Hg Hid. split; [by apply DecodeDatabaseRoot_complete|].
  intros p H Hrefused. apply DecodeDatabaseRoot_sound in H as (_ & Hp & _ & _ & _ & He).
  split; [done|]. by rewrite EncodeDatabaseRoot_page, Hrefused.
Qed.

Definition example_root : DatabaseRoot :=
  {| root_CommitSequence := 7; root_CatalogRoot := 3; root_CommitLogRoot := 4;
     root_FreeSpaceRoot := 0; root_OldestRetainedSequence := 2; root_CatalogGeneration := 1;
     root_DocumentCount := 12; root_CollectionCount := 2; root_IndexBuildCatalogRoot := 0 |}.

Definition example_root_page : bytes :=
  match EncodeDatabaseRoot 5 9 example_root with Ok page => page | Err _ => [] end.
