(* ===== verification/Records.v ===== *)
(** * Records of the storage trees

    The fixed-size records the trees hold: free-space extents
    ([internal/storage/freespace_codec.go]) and collection metadata
    ([collection_codec.go]). *)
From S2P Require Import Prelude Bytes Strings Layout Hashes PageFormat.

(** ** Extents *)

Definition freeSpaceExtentMagic : bytes := bs "MELDFR31".

Definition freeSpaceKey (pageID : Z) : bytes := be_enc 8 pageID.

Definition encodeFreeSpaceExtent (end_ safePhysicalPages auditGeneration : Z) : result bytes :=
  if (end_ <=? 2) || (safePhysicalPages <? end_) || (auditGeneration =? 0) then Err ErrCorrupt
  else
    let value := zeros 32 in
    let value := put value 0 freeSpaceExtentMagic in
    let value := put value 8 (le_enc 8 end_) in
    let value := put value 16 (le_enc 8 safePhysicalPages) in
    Ok (put value 24 (le_enc 8 auditGeneration)).

(** The start, the end and the audit generation. *)
Definition decodeFreeSpaceExtent (key value : bytes) (physicalPages : Z) : result (Z * Z * Z) :=
  if negb (zlen key =? 8) || negb (zlen value =? 32) || negb (beqb (sub value 0 8) freeSpaceExtentMagic)
  then Err ErrCorrupt
  else
    let start := be_dec key in
    let end_ := le_dec (sub value 8 16) in
    let safePhysicalPages := le_dec (sub value 16 24) in
    let auditGeneration := le_dec (sub value 24 32) in
    if (start <? 2) || (end_ <=? start) || (safePhysicalPages <? end_) || (physicalPages <? safePhysicalPages)
       || (auditGeneration =? 0) then Err ErrCorrupt
    else Ok (start, end_, auditGeneration).

Definition extent_image (end_ safe generation : Z) : bytes :=
  freeSpaceExtentMagic ++ le_enc 8 end_ ++ le_enc 8 safe ++ le_enc 8 generation.

Lemma encodeFreeSpaceExtent_image end_ safe generation value :
  encodeFreeSpaceExtent end_ safe generation = Ok value <->
  2 < end_ <= safe /\ generation <> 0 /\ value = extent_image end_ safe generation.
Proof.
  unfold encodeFreeSpaceExtent.
  destruct (Z.leb_spec end_ 2), (Z.ltb_spec safe end_), (Z.eqb_spec generation 0); cbn [orb];
    try (split; [done|lia]).
  assert (Hm : zlen freeSpaceExtentMagic = 8) by done.
  assert (put (put (put (put (zeros 32) 0 freeSpaceExtentMagic) 8 (le_enc 8 end_)) 16 (le_enc 8 safe)) 24
    (le_enc 8 generation) = extent_image end_ safe generation) as ->.
  { unfold extent_image. layout. same_layout. }
  split; [by intros <-%Ok_inj|by intros (_ & _ & ->)].
Qed.

Lemma zlen_extent_image end_ safe generation : zlen (extent_image end_ safe generation) = 32.
Proof. done. Qed.

Lemma be_enc_dec_fixed l : zlen l = 8 -> be_enc 8 (be_dec l) = l.
Proof.
  intros Hl. apply bcompare_eq. rewrite bcompare_be_dec by (rewrite length_be_enc; unfold zlen in Hl; lia).
  rewrite be_dec_enc; [apply Z.compare_refl|]. pose proof (be_dec_range l) as H. rewrite Hl in H. exact H.
Qed.

(** The extents accepted for a file of [physicalPages] pages are exactly the
    encoded ones that lie within the file. *)
Theorem decodeFreeSpaceExtent_exact key value physicalPages start end_ generation :
  decodeFreeSpaceExtent key value physicalPages = Ok (start, end_, generation) <->
  u64 start /\ u64 end_ /\ u64 generation /\ key = freeSpaceKey start /\ 2 <= start < end_ /\
  exists safe, u64 safe /\ safe <= physicalPages /\ encodeFreeSpaceExtent end_ safe generation = Ok value.
Proof.
  unfold decodeFreeSpaceExtent, freeSpaceKey. split.
  - destruct (_ || _) eqn:E1; [done|]. destruct (_ || _) eqn:E2 in |- *; [done|]. reflect_checks. intros [= <- <- <-].
    assert (Hk : be_enc 8 (be_dec key) = key) by by apply be_enc_dec_fixed.
    assert (Hk8 : zlen key = 8) by done. pose proof (be_dec_range key) as Hr. rewrite Hk8 in Hr. change (256 ^ 8) with (2 ^ 64) in Hr.
    split; [exact Hr|]. split; [apply field_u64; lia|]. split; [apply field_u64; lia|]. split; [done|].
    split; [lia|]. exists (le_dec (sub value 16 24)). split; [apply field_u64; lia|]. split; [done|].
    apply encodeFreeSpaceExtent_image. split; [lia|]. split; [done|]. unfold extent_image.
    rewrite !le_field_id by lia. rewrite (pieces_all value [8; 16; 24; 32]) at 1 by (cbn; lia). cbn [pieces].
    rewrite app_nil_r. congruence.
  - intros (Hs & He & Hg & -> & Hlt & safe & Hsafe & Hp & (Hse & Hg0 & ->)%encodeFreeSpaceExtent_image).
    rewrite zlen_be_enc, zlen_extent_image.
    assert (Hf : sub (extent_image end_ safe generation) 0 8 = freeSpaceExtentMagic /\
      sub (extent_image end_ safe generation) 8 16 = le_enc 8 end_ /\
      sub (extent_image end_ safe generation) 16 24 = le_enc 8 safe /\
      sub (extent_image end_ safe generation) 24 32 = le_enc 8 generation).
    { assert (Hm : zlen freeSpaceExtentMagic = 8) by done. unfold extent_image. repeat split; slice; reflexivity. }
    destruct Hf as (-> & -> & -> & ->). rewrite beqb_refl. cbn [negb orb].
    rewrite !le_dec_u64 by done. rewrite be_dec_enc by exact Hs.
    destruct (Z.ltb_spec start 2); [lia|]. destruct (Z.leb_spec end_ start); [lia|].
    destruct (Z.ltb_spec safe end_); [lia|]. destruct (Z.ltb_spec physicalPages safe); [lia|].
    by destruct (Z.eqb_spec generation 0).
Qed.

(** ** Collections *)

Definition ascii_letter (b : byte) : bool := in_range b 0x41 0x5a || in_range b 0x61 0x7a.

Definition validCollectionName (name : bytes) : bool :=
  match name with
  | [] => false
  | first :: rest =>
      (zlen name <=? 128) && ascii_letter first
      && forallb (fun b => ascii_letter b || in_range b 0x30 0x39 || (b2z b =? 0x5f) || (b2z b =? 0x2d)) rest
  end.

Record CollectionMeta := mk_CollectionMeta {
  coll_ID : Z;
  coll_PrimaryRoot : Z;
  coll_IndexCatalogRoot : Z;
  coll_DocumentCount : Z;
  coll_CreatedSequence : Z;
  coll_UpdatedSequence : Z;
  coll_NextDocumentPosition : Z;
  coll_OrderRoot : Z }.

Definition catalogValueMagic : bytes := bs "MELDCOL2".

Definition validCollectionMeta (meta : CollectionMeta) : bool :=
  negb ((coll_ID meta =? 0) || (coll_PrimaryRoot meta <? 2) || (coll_OrderRoot meta <? 2)
        || (coll_CreatedSequence meta =? 0) || (coll_UpdatedSequence meta <? coll_CreatedSequence meta)
        || (coll_NextDocumentPosition meta <? coll_DocumentCount meta)
        || (negb (coll_IndexCatalogRoot meta =? 0) && (coll_IndexCatalogRoot meta <? 2))).

Definition encodeCollectionMeta (meta : CollectionMeta) : result bytes :=
  if negb (validCollectionMeta meta) then Err ErrCorrupt
  else
    let value := zeros 72 in
    let value := put value 0 catalogValueMagic in
    let value := put value 8 (le_enc 2 FormatVersion) in
    let value := put value 12 (le_enc 4 (coll_ID meta)) in
    let value := put value 16 (le_enc 8 (coll_PrimaryRoot meta)) in
    let value := put value 24 (le_enc 8 (coll_IndexCatalogRoot meta)) in
    let value := put value 32 (le_enc 8 (coll_DocumentCount meta)) in
    let value := put value 40 (le_enc 8 (coll_CreatedSequence meta)) in
    let value := put value 48 (le_enc 8 (coll_UpdatedSequence meta)) in
    let value := put value 56 (le_enc 8 (coll_NextDocumentPosition meta)) in
    Ok (put value 64 (le_enc 8 (coll_OrderRoot meta))).

Definition decodeCollectionMeta (value : bytes) : result CollectionMeta :=
  if negb (zlen value =? 72) || negb (beqb (sub value 0 8) catalogValueMagic)
     || negb (le_dec (sub value 8 10) =? FormatVersion) || negb (le_dec (sub value 10 12) =? 0)
  then Err ErrCorrupt
  else
    let meta := {| coll_ID := le_dec (sub value 12 16);
                   coll_PrimaryRoot := le_dec (sub value 16 24);
                   coll_IndexCatalogRoot := le_dec (sub value 24 32);
                   coll_DocumentCount := le_dec (sub value 32 40);
                   coll_CreatedSequence := le_dec (sub value 40 48);
                   coll_UpdatedSequence := le_dec (sub value 48 56);
                   coll_NextDocumentPosition := le_dec (sub value 56 64);
                   coll_OrderRoot := le_dec (sub value 64 72) |} in
    if negb (validCollectionMeta meta) then Err ErrCorrupt else Ok meta.

(** The widths of the Go fields. *)
Definition collection_ok (m : CollectionMeta) : Prop :=
  u32 (coll_ID m) /\ u64 (coll_PrimaryRoot m) /\ u64 (coll_IndexCatalogRoot m) /\ u64 (coll_DocumentCount m) /\
  u64 (coll_CreatedSequence m) /\ u64 (coll_UpdatedSequence m) /\ u64 (coll_NextDocumentPosition m) /\
  u64 (coll_OrderRoot m).

Definition collection_image (m : CollectionMeta) : bytes :=
  catalogValueMagic ++ le_enc 2 FormatVersion ++ zeros 2 ++ le_enc 4 (coll_ID m) ++ le_enc 8 (coll_PrimaryRoot m)
  ++ le_enc 8 (coll_IndexCatalogRoot m) ++ le_enc 8 (coll_DocumentCount m) ++ le_enc 8 (coll_CreatedSequence m)
  ++ le_enc 8 (coll_UpdatedSequence m) ++ le_enc 8 (coll_NextDocumentPosition m) ++ le_enc 8 (coll_OrderRoot m).

Lemma encodeCollectionMeta_image m value :
  encodeCollectionMeta m = Ok value <-> validCollectionMeta m = true /\ value = collection_image m.
Proof.
  unfold encodeCollectionMeta. destruct (validCollectionMeta m); cbn [negb]; [|split; [done|by intros []]].
  assert (Hm : zlen catalogValueMagic = 8) by done. unfold FormatVersion.
  match goal with |- Ok ?p = _ <-> _ => assert (p = collection_image m) as -> end.
  { unfold collection_image, FormatVersion. layout. same_layout. }
  split; [by intros <-%Ok_inj|by intros [_ ->]].
Qed.

Lemma collection_image_fields m :
  let p := collection_image m in
  sub p 0 8 = catalogValueMagic /\ sub p 8 10 = le_enc 2 FormatVersion /\ sub p 10 12 = zeros 2 /\
  sub p 12 16 = le_enc 4 (coll_ID m) /\ sub p 16 24 = le_enc 8 (coll_PrimaryRoot m) /\
  sub p 24 32 = le_enc 8 (coll_IndexCatalogRoot m) /\ sub p 32 40 = le_enc 8 (coll_DocumentCount m) /\
  sub p 40 48 = le_enc 8 (coll_CreatedSequence m) /\ sub p 48 56 = le_enc 8 (coll_UpdatedSequence m) /\
  sub p 56 64 = le_enc 8 (coll_NextDocumentPosition m) /\ sub p 64 72 = le_enc 8 (coll_OrderRoot m).
Proof.
  assert (Hm : zlen catalogValueMagic = 8) by done. unfold collection_image. cbv zeta.
  repeat split; slice; reflexivity.
Qed.

(** The collection records accepted are exactly the encodings of valid
    collection metadata. *)
Theorem decodeCollectionMeta_exact value m :
  decodeCollectionMeta value = Ok m <-> collection_ok m /\ encodeCollectionMeta m = Ok value.
Proof.
  rewrite encodeCollectionMeta_image. unfold decodeCollectionMeta. split.
  - destruct (_ || _) eqn:E; [done|]. reflect_checks.
    match goal with |- (if negb (validCollectionMeta ?x) then _ else _) = _ -> _ => set (c := x) end.
    destruct (validCollectionMeta c) eqn:Ev; [|done]. intros <-%Ok_inj.
    assert (Hl : zlen value = 72) by done.
    split; [split; [apply field_u32; lia|repeat split; apply field_u64; lia]|]. split; [done|].
    unfold collection_image, c. cbn [coll_ID coll_PrimaryRoot coll_IndexCatalogRoot coll_DocumentCount
      coll_CreatedSequence coll_UpdatedSequence coll_NextDocumentPosition coll_OrderRoot].
    rewrite !le_field_id by lia.
    rewrite <- (le_field_eq value 8 10 2 FormatVersion) by (done || lia).
    change (zeros 2) with (le_enc 2 0). rewrite <- (le_field_eq value 10 12 2 0) by (done || lia).
    rewrite (pieces_all value [8; 10; 12; 16; 24; 32; 40; 48; 56; 64; 72]) at 1 by (cbn; lia). cbn [pieces].
    rewrite app_nil_r. congruence.
  - intros ((H1 & H2 & H3 & H4 & H5 & H6 & H7 & H8) & Hv & ->).
    pose proof (collection_image_fields m) as F. cbv zeta in F.
    destruct F as (-> & -> & -> & -> & -> & -> & -> & -> & -> & -> & ->).
    assert (Hl : zlen (collection_image m) = 72) by done. rewrite Hl, beqb_refl, !le_dec_u64, le_dec_u32 by done.
    change (le_dec (le_enc 2 FormatVersion) =? FormatVersion) with true. change (le_dec (zeros 2) =? 0) with true.
    cbn [negb orb Z.eqb Pos.eqb]. destruct m; cbn in *. by rewrite Hv.
Qed.

(** the metadata records round trip. A free-space extent is accepted exactly
    when it is the encoding of an extent within the file; a collection record
    exactly when it encodes valid metadata; and a database root is read back from
    the page it is written to, and from no other page of its generation. *)
Theorem metadata_records_roundtrip :
  (forall key value physicalPages start end_ generation,
    decodeFreeSpaceExtent key value physicalPages = Ok (start, end_, generation) <->
    u64 start /\ u64 end_ /\ u64 generation /\ key = freeSpaceKey start /\ 2 <= start < end_ /\
    exists safe, u64 safe /\ safe <= physicalPages /\ encodeFreeSpaceExtent end_ safe generation = Ok value) /\
  (forall value m, decodeCollectionMeta value = Ok m <-> collection_ok m /\ encodeCollectionMeta m = Ok value) /\
  (forall page id generation root,
    root_ok root -> u64 generation -> u64 id ->
    (EncodeDatabaseRoot id generation root = Ok page ->
     DecodeDatabaseRoot page id = Ok (root, root_page id generation root)) /\
    (forall p, DecodeDatabaseRoot page id = Ok (root, p) -> root_refused root = false ->
     p = root_page id (page_Generation p) root /\
     EncodeDatabaseRoot id (page_Generation p) root = Ok page)).
Proof.
  split; [exact decodeFreeSpaceExtent_exact|]. split; [exact decodeCollectionMeta_exact|exact DatabaseRoot_roundtrip].
Qed.

Lemma metadata_records_roundtrip_witness :
  DecodeDatabaseRoot example_root_page 5 = Ok (example_root, root_page 5 9 example_root).
Proof.
  apply (proj2 (proj2 metadata_records_roundtrip)).
  - unfold root_ok, u64. cbn. lia.
  - unfold u64. lia.
  - unfold u64. lia.
  - vm_compute. reflexivity.
Defined.
