(* ===== verification/NodeCodec.v ===== *)
(** * Tree nodes and their slotted pages

    The node type of [internal/storage/btree.go], its encoding
    ([btree_codec.go]) and the readers that work on the encoded payload
    ([btree_read.go]). *)
From S2P Require Import Prelude Bytes Layout Hashes PageFormat.

(** ** Nodes *)

(** [nodeRef] and [treeNode]. A pointer to a loaded node is the node itself: each
    node has one parent. *)
Unset Elimination Schemes.
Inductive nodeRef :=
| mk_ref (pageID count : Z) (node : option treeNode)
with treeNode :=
| mk_node (leaf dirty : bool) (keys values : list bytes) (children : list nodeRef) (count : Z).
Set Elimination Schemes.

Definition ref_pageID (r : nodeRef) : Z := let 'mk_ref p _ _ := r in p.
Definition ref_count (r : nodeRef) : Z := let 'mk_ref _ c _ := r in c.
Definition ref_node (r : nodeRef) : option treeNode := let 'mk_ref _ _ n := r in n.

Definition node_leaf (n : treeNode) : bool := let 'mk_node l _ _ _ _ _ := n in l.
Definition node_dirty (n : treeNode) : bool := let 'mk_node _ d _ _ _ _ := n in d.
Definition node_keys (n : treeNode) : list bytes := let 'mk_node _ _ k _ _ _ := n in k.
Definition node_values (n : treeNode) : list bytes := let 'mk_node _ _ _ v _ _ := n in v.
Definition node_children (n : treeNode) : list nodeRef := let 'mk_node _ _ _ _ c _ := n in c.
Definition node_count (n : treeNode) : Z := let 'mk_node _ _ _ _ _ c := n in c.

(** The sum of the children's counts, a [uint64]. *)
Definition childCount (children : list nodeRef) : Z :=
  fold_left (fun result child => to_u64 (result + ref_count child)) children 0.

Definition capacity : Z := PageSize - PageHeaderSize.
Definition maxKey : Z := 4096.

(** ** Sizes *)

Definition treeNodeEntryEncodedSize (node : treeNode) (index : nat) : result Z :=
  match node_keys node !! index with
  | None => Err ErrCorrupt
  | Some key =>
      if (zlen key =? 0) || (maxKey <? zlen key) then Err ErrKeyTooBig
      else if negb (node_leaf node) then Ok (2 + zlen key + 16)
      else
        match node_values node !! index with
        | None => Err ErrNodeFull
        | Some value =>
            if 2 ^ 32 - 1 <? zlen value then Err ErrNodeFull
            else Ok (2 + 4 + zlen key + zlen value)
        end
  end.

(** The size loop from [index] on; [n] entries are left. *)
Fixpoint sizeEntries (node : treeNode) (index n : nat) (size : Z) : result Z :=
  match n with
  | O => Ok size
  | S n =>
      let* entryLength := treeNodeEntryEncodedSize node index in
      if (65535 <? entryLength) || (capacity - entryLength <? size) then Err ErrNodeFull
      else sizeEntries node (S index) n (size + entryLength)
  end.

Definition treeNodeEncodedSize (node : treeNode) : result Z :=
  let keys := node_keys node in
  if (65535 <? zlen keys)
     || (negb (node_leaf node) && negb (zlen (node_children node) =? zlen keys + 1))
     || (node_leaf node && negb (zlen (node_values node) =? zlen keys)) then Err ErrCorrupt
  else sizeEntries node 0 (length keys) (32 + zlen keys * 8).

(** ** Encoding *)

(** The bytes of one entry: the lengths, the key, then the value or the child. *)
Definition leafEntry (key value : bytes) : bytes :=
  le_enc 2 (zlen key) ++ le_enc 4 (zlen value) ++ key ++ value.
Definition branchEntry (key : bytes) (child : nodeRef) : bytes :=
  le_enc 2 (zlen key) ++ key ++ le_enc 8 (ref_pageID child) ++ le_enc 8 (ref_count child).

(** The entries the encoding loop writes, in order. *)
Definition nodeEntries (node : treeNode) : list bytes :=
  if node_leaf node then zip_with leafEntry (node_keys node) (node_values node)
  else zip_with branchEntry (node_keys node) (drop 1 (node_children node)).

(** The loop: entries from [offset] up, slots from the end down. *)
Fixpoint writeEntries (payload : bytes) (index offset : Z) (entries : list bytes) : bytes * Z :=
  match entries with
  | [] => (payload, offset)
  | entry :: entries =>
      let entryLength := zlen entry in
      let payload := put payload offset entry in
      let slot := zlen payload - (index + 1) * 8 in
      let payload := put payload slot (le_enc 2 offset) in
      let payload := put payload (slot + 2) (le_enc 2 entryLength) in
      writeEntries payload (index + 1) (offset + entryLength) entries
  end.

Definition encodeTreeNode (node : treeNode) : result bytes :=
  let* size := treeNodeEncodedSize node in
  let '(payload, offset) := writeEntries (zeros size) 0 32 (nodeEntries node) in
  let payload := put payload 0 (le_enc 2 (zlen (node_keys node))) in
  let payload := put payload 2 (le_enc 2 offset) in
  let payload := put payload 4 (le_enc 2 offset) in
  let payload :=
    match node_children node with
    | child :: _ =>
        if node_leaf node then payload
        else put (put payload 8 (le_enc 8 (ref_pageID child))) 16 (le_enc 8 (ref_count child))
    | [] => payload
    end in
  Ok (put payload 24 (le_enc 8 (node_count node))).

(** ** Decoding *)

Definition leaf_page_type (t : Z) : bool :=
  (t =? 3) || (t =? 5) || (t =? 7) || (t =? 10) || (t =? 15) || (t =? 17) || (t =? 19)
  || (t =? 13) || (t =? 22).

(** One entry's key and its value, or its child. *)
Inductive entryBody :=
| EntryValue (value : bytes)
| EntryChild (child count : Z).

Definition decodeEntry (leaf : bool) (entry : bytes) : option (bytes * entryBody) :=
  let keyLength := le_dec (sub entry 0 2) in
  if leaf then
    if zlen entry <? 6 then None
    else
      let valueLength := le_dec (sub entry 2 6) in
      if (keyLength =? 0) || negb (6 + keyLength + valueLength =? zlen entry) then None
      else Some (sub entry 6 (6 + keyLength), EntryValue (sub entry (6 + keyLength) (zlen entry)))
  else if (keyLength =? 0) || negb (2 + keyLength + 16 =? zlen entry) then None
  else
    let child := le_dec (sub entry (2 + keyLength) (2 + keyLength + 8)) in
    let childItems := le_dec (sub entry (2 + keyLength + 8) (zlen entry)) in
    if child <? 2 then None
    else Some (sub entry 2 (2 + keyLength), EntryChild child childItems).

(** The decoding loop: the entries of the slots from [index] on, [n] of them;
    [previous] is the key read before. *)
Fixpoint decodeEntries (payload : bytes) (leaf : bool) (freeStart : Z) (n : nat) (index cursor : Z)
    (previous : option bytes) : option (list (bytes * entryBody)) :=
  match n with
  | O => if cursor =? freeStart then Some [] else None
  | S n =>
      let slot := sub payload (zlen payload - (index + 1) * 8) (zlen payload - index * 8) in
      let offset := le_dec (sub slot 0 2) in
      let length := le_dec (sub slot 2 4) in
      if negb (le_dec (sub slot 4 8) =? 0) || negb (offset =? cursor) || (length <? 2)
         || (freeStart <? offset + length) then None
      else
        let? (key, body) := decodeEntry leaf (sub payload offset (offset + length)) in
        if (match previous with Some p => negb (bltb p key) | None => false end) then None
        else
          let? rest := decodeEntries payload leaf freeStart n (index + 1) (cursor + length) (Some key) in
          Some ((key, body) :: rest)
  end.

Definition entry_value (e : bytes * entryBody) : bytes :=
  match e.2 with EntryValue v => v | EntryChild _ _ => [] end.
Definition entry_ref (e : bytes * entryBody) : nodeRef :=
  match e.2 with EntryChild c n => mk_ref c n None | EntryValue _ => mk_ref 0 0 None end.

(** Every failure is [ErrCorrupt]. *)
Definition decodeTreeNode (page : Page) : option treeNode :=
  let payload := page_Payload page in
  if (zlen payload <? 32) || (65535 <? page_ItemCount page) then None
  else
    let count := le_dec (sub payload 0 2) in
    let freeStart := le_dec (sub payload 2 4) in
    let freeEnd := le_dec (sub payload 4 6) in
    if negb (count =? page_ItemCount page) || negb (le_dec (sub payload 6 8) =? 0)
       || (freeStart <? 32) || negb (freeEnd =? freeStart)
       || negb (zlen payload =? freeStart + count * 8) then None
    else
      let leaf := leaf_page_type (page_Type page) in
      let left := le_dec (sub payload 8 16) in
      let leftCount := le_dec (sub payload 16 24) in
      let nodeCount := le_dec (sub payload 24 32) in
      if (if leaf then negb (left =? 0) || negb (leftCount =? 0) else left <? 2) then None
      else
        let? entries := decodeEntries payload leaf freeStart (Z.to_nat count) 0 32 None in
        let node :=
          if leaf then mk_node true false entries.*1 (entry_value <$> entries) [] nodeCount
          else mk_node false false entries.*1 [] (mk_ref left leftCount None :: (entry_ref <$> entries))
                 nodeCount in
        if (if leaf then negb (nodeCount =? zlen (node_keys node))
            else negb (nodeCount =? childCount (node_children node))) then None
        else Some node.

(** ** The image of a payload *)

(** The slots of entries laid out from [offset]. *)
Fixpoint slots (offset : Z) (entries : list bytes) : list bytes :=
  match entries with
  | [] => []
  | e :: entries => (le_enc 2 offset ++ le_enc 2 (zlen e) ++ zeros 4) :: slots (offset + zlen e) entries
  end.

Definition entries_size (entries : list bytes) : Z := zlen (concat entries).

(** The bytes of the slot area, last slot first. *)
Definition slot_area (offset : Z) (entries : list bytes) : bytes := concat (rev (slots offset entries)).

Lemma length_slots offset entries : length (slots offset entries) = length entries.
Proof. revert offset; induction entries as [|e es IH]; intros; simpl; auto. Qed.

Lemma slots_app offset es1 es2 :
  slots offset (es1 ++ es2) = slots offset es1 ++ slots (offset + entries_size es1) es2.
Proof.
  revert offset; induction es1 as [|e es IH]; intros offset; cbn [slots app].
  - unfold entries_size. cbn. by rewrite Z.add_0_r.
  - rewrite IH. unfold entries_size. cbn [concat]. rewrite zlen_app. do 3 f_equal. lia.
Qed.

Lemma zlen_slot offset (e : bytes) : zlen (le_enc 2 offset ++ le_enc 2 (zlen e) ++ zeros 4) = 8.
Proof. done. Qed.

Lemma zlen_slot_area offset es : zlen (slot_area offset es) = 8 * zlen es.
Proof.
  unfold slot_area. revert offset; induction es as [|e es IH]; intros offset; [done|].
  cbn [slots rev]. rewrite concat_app, zlen_app, IH. cbn [concat]. rewrite app_nil_r, zlen_slot, zlen_cons. lia.
Qed.

Lemma slot_area_cons offset e es :
  slot_area offset (e :: es) =
  slot_area (offset + zlen e) es ++ le_enc 2 offset ++ le_enc 2 (zlen e) ++ zeros 4.
Proof. unfold slot_area. cbn [slots rev]. rewrite concat_app. cbn [concat]. by rewrite app_nil_r. Qed.

(** Writing a slot at the end of the zeroed area before [suf]. *)
Lemma put_slot pre n suf a b :
  8 <= n ->
  let payload := pre ++ zeros n ++ suf in
  let slot := zlen payload - zlen suf - 8 in
  put (put payload slot (le_enc 2 a)) (slot + 2) (le_enc 2 b) =
  pre ++ zeros (n - 8) ++ (le_enc 2 a ++ le_enc 2 b ++ zeros 4) ++ suf.
Proof.
  intros Hn. cbv zeta. rewrite !zlen_app, zlen_zeros by lia.
  rewrite put_gap by offsets.
  replace (zlen pre + (n + zlen suf) - zlen suf - 8 - zlen pre) with (n - 8) by lia.
  rewrite zlen_le_enc, (app_assoc pre), (app_assoc (pre ++ _)).
  rewrite put_gap by (rewrite ?zlen_app, ?zlen_le_enc, ?zlen_zeros; lia).
  rewrite !zlen_app, !zlen_le_enc, zlen_zeros by lia.
  rewrite (zeros_nil (_ + 2 - _)) by lia. rewrite <- !app_assoc. cbn [app].
  do 5 f_equal. f_equal. lia.
Qed.

Lemma writeEntries_image pre es index suf :
  zlen suf = index * 8 ->
  writeEntries (pre ++ zeros (entries_size es + 8 * zlen es) ++ suf) index (zlen pre) es =
  (pre ++ concat es ++ slot_area (zlen pre) es ++ suf, zlen pre + entries_size es).
Proof.
  revert pre index suf; induction es as [|e es IH]; intros pre index suf Hs.
  - cbn [writeEntries]. change (entries_size [] + 8 * zlen []) with 0.
    change (entries_size []) with 0. by rewrite Z.add_0_r.
  - cbn [writeEntries]. unfold entries_size. cbn [concat]. rewrite zlen_app, zlen_cons.
    pose proof (zlen_nonneg e). pose proof (zlen_nonneg es). pose proof (zlen_nonneg (concat es)).
    rewrite put_gap, Z.sub_diag, (zeros_nil 0) by lia. cbn [app].
    rewrite (app_assoc pre).
    set (n := zlen e + zlen (concat es) + 8 * (1 + zlen es) - 0 - zlen e).
    replace (zlen ((pre ++ e) ++ zeros n ++ suf) - (index + 1) * 8)
      with (zlen ((pre ++ e) ++ zeros n ++ suf) - zlen suf - 8) by lia.
    rewrite put_slot by lia.
    replace (n - 8) with (entries_size es + 8 * zlen es) by (unfold n, entries_size; lia).
    rewrite <- zlen_app. rewrite IH by (rewrite zlen_app, zlen_slot; lia).
    rewrite slot_area_cons, !zlen_app, <- !app_assoc. f_equal. unfold entries_size. lia.
Qed.

(** ** Well-formed nodes *)

Definition key_ok (k : bytes) : Prop := 1 <= zlen k <= maxKey.

Definition node_shape (n : treeNode) : Prop :=
  if node_leaf n then length (node_values n) = length (node_keys n)
  else length (node_children n) = S (length (node_keys n)).

(** What [treeNodeEncodedSize] accepts, and the size it returns. *)
Definition node_size (n : treeNode) : Z :=
  32 + 8 * zlen (node_keys n) + entries_size (nodeEntries n).

Definition node_fits (n : treeNode) : Prop :=
  node_shape n /\ Forall key_ok (node_keys n) /\ node_size n <= capacity.

Lemma entries_size_nil : entries_size [] = 0.
Proof. done. Qed.
Lemma entries_size_cons e es : entries_size (e :: es) = zlen e + entries_size es.
Proof. unfold entries_size. cbn [concat]. by rewrite zlen_app. Qed.
Lemma entries_size_app es1 es2 : entries_size (es1 ++ es2) = entries_size es1 + entries_size es2.
Proof. unfold entries_size. by rewrite concat_app, zlen_app. Qed.
Lemma entries_size_nonneg es : 0 <= entries_size es.
Proof. apply zlen_nonneg. Qed.

Lemma zlen_leafEntry k v : zlen (leafEntry k v) = 2 + 4 + zlen k + zlen v.
Proof. unfold leafEntry. zlens. lia. Qed.
Lemma zlen_branchEntry k c : zlen (branchEntry k c) = 2 + zlen k + 16.
Proof. unfold branchEntry. zlens. lia. Qed.

Lemma length_nodeEntries n : node_shape n -> length (nodeEntries n) = length (node_keys n).
Proof.
  unfold node_shape, nodeEntries. destruct (node_leaf n); intros H; rewrite length_zip_with.
  - lia.
  - rewrite length_drop. lia.
Qed.

(** The entry-size function against the entry written. *)
Lemma entryEncodedSize_spec n i s :
  node_shape n ->
  treeNodeEntryEncodedSize n i = Ok s <->
  exists k e, node_keys n !! i = Some k /\ nodeEntries n !! i = Some e /\ key_ok k /\ s = zlen e /\
    (node_leaf n = true -> zlen e - zlen k - 6 <= 2 ^ 32 - 1).
Proof.
  intros Hs. unfold treeNodeEntryEncodedSize, key_ok.
  destruct (node_keys n !! i) as [k|] eqn:Ek; [|split; [done|by intros (? & ? & ? & _)]].
  pose proof (zlen_nonneg k).
  assert (Hb : (zlen k =? 0) || (maxKey <? zlen k) = false <-> 1 <= zlen k <= maxKey).
  { rewrite orb_false_iff, Z.eqb_neq, Z.ltb_ge. lia. }
  destruct ((zlen k =? 0) || (maxKey <? zlen k)).
  { split; [done|]. intros (? & ? & [= <-] & _ & Hk & _). by apply Hb in Hk. }
  pose proof (proj1 Hb eq_refl) as Hk. unfold nodeEntries, node_shape in *.
  destruct (node_leaf n); cbn [negb].
  - destruct (lookup_lt_is_Some_2 (node_values n) i) as [v Ev].
    { rewrite Hs. by eapply lookup_lt_Some. }
    rewrite Ev. assert (He : zip_with leafEntry (node_keys n) (node_values n) !! i = Some (leafEntry k v)).
    { rewrite lookup_zip_with, Ek. cbn. by rewrite Ev. }
    destruct (Z.ltb_spec (2 ^ 32 - 1) (zlen v)).
    + split; [done|]. intros (? & ? & [= <-] & Hx & _ & _ & Hle). rewrite He in Hx.
      injection Hx as <-. rewrite zlen_leafEntry in Hle. specialize (Hle eq_refl). lia.
    + split.
      * intros <-%Ok_inj. exists k, (leafEntry k v). rewrite zlen_leafEntry. repeat split; try done; lia.
      * intros (? & ? & [= <-] & Hx & _ & -> & _). rewrite He in Hx. injection Hx as <-.
        by rewrite zlen_leafEntry.
  - destruct (lookup_lt_is_Some_2 (drop 1 (node_children n)) i) as [c Ec].
    { rewrite length_drop, Hs. apply lookup_lt_Some in Ek. lia. }
    assert (He : zip_with branchEntry (node_keys n) (drop 1 (node_children n)) !! i = Some (branchEntry k c)).
    { rewrite lookup_zip_with, Ek. cbn [mbind option_bind]. by rewrite Ec. }
    split.
    + intros <-%Ok_inj. exists k, (branchEntry k c). rewrite zlen_branchEntry. repeat split; try done; lia.
    + intros (? & ? & [= <-] & Hx & _ & -> & _). rewrite He in Hx. injection Hx as <-.
      by rewrite zlen_branchEntry.
Qed.

Lemma sizeEntries_spec n m i size t :
  node_shape n -> (i + m = length (node_keys n))%nat -> 0 <= size ->
  sizeEntries n i m size = Ok t <->
  Forall key_ok (drop i (node_keys n)) /\ t = size + entries_size (drop i (nodeEntries n)) /\
  (m = O \/ t <= capacity).
Proof.
  intros Hs. revert i size; induction m as [|m IH]; intros i size Him Hsz; cbn [sizeEntries].
  - rewrite !drop_ge by (rewrite ?length_nodeEntries by done; lia).
    rewrite entries_size_nil. split.
    + intros <-%Ok_inj. rewrite Z.add_0_r. auto.
    + intros (_ & -> & _). by rewrite Z.add_0_r.
  - destruct (lookup_lt_is_Some_2 (node_keys n) i ltac:(lia)) as [k Ek].
    destruct (lookup_lt_is_Some_2 (nodeEntries n) i) as [e Ee].
    { rewrite length_nodeEntries by done. lia. }
    rewrite (drop_S _ _ _ Ek), (drop_S _ _ _ Ee), entries_size_cons, Forall_cons.
    pose proof (entries_size_nonneg (drop (S i) (nodeEntries n))). pose proof (zlen_nonneg k). pose proof (zlen_nonneg e).
    split.
    + intros H2. inv_ok. apply (entryEncodedSize_spec n i a Hs) in Hok as (? & ? & Hk & He & Hkk & -> & _).
      rewrite Ek in Hk. injection Hk as <-. rewrite Ee in He. injection He as <-.
      destruct ((65535 <? zlen e) || (capacity - zlen e <? size)) eqn:Eb; [done|]. breflect.
      apply IH in H2 as (HF & -> & Hc); [|lia..]. split; [done|]. split; [lia|]. right.
      destruct Hc as [->|]; [|lia].
      rewrite drop_ge by (rewrite length_nodeEntries by done; lia). rewrite entries_size_nil. lia.
    + intros ([Hk HF] & -> & [?|Hc]); [done|].
      assert (treeNodeEntryEncodedSize n i = Ok (zlen e)) as ->.
      { apply (entryEncodedSize_spec n i (zlen e) Hs). exists k, e. repeat split; try done; try apply Hk.
        intros _. unfold capacity, PageSize, PageHeaderSize in Hc. lia. }
      cbn [rbind]. unfold capacity, PageSize, PageHeaderSize in *.
      destruct (Z.ltb_spec 65535 (zlen e)); [lia|].
      destruct (Z.ltb_spec (16 * 1024 - 64 - zlen e) size); [lia|]. cbn [orb].
      apply IH; [lia|lia|]. split; [done|]. split; [lia|]. by right.
Qed.

Lemma treeNodeEncodedSize_spec n t :
  treeNodeEncodedSize n = Ok t <-> node_fits n /\ t = node_size n.
Proof.
  unfold treeNodeEncodedSize, node_fits, node_size.
  pose proof (zlen_nonneg (node_keys n)). pose proof (entries_size_nonneg (nodeEntries n)).
  assert (Hshape : (negb (node_leaf n) && negb (zlen (node_children n) =? zlen (node_keys n) + 1)) = false /\
    (node_leaf n && negb (zlen (node_values n) =? zlen (node_keys n))) = false <-> node_shape n).
  { unfold node_shape, zlen. destruct (node_leaf n); cbn [negb andb];
      rewrite negb_false_iff, Z.eqb_eq; intuition lia. }
  assert (Hcap : capacity = 16320) by reflexivity.
  destruct (Z.ltb_spec 65535 (zlen (node_keys n))); cbn [orb].
  { split; [done|]. intros [(_ & _ & ?) _]. lia. }
  destruct (_ && _) eqn:E1; cbn [orb].
  { split; [done|]. intros [(?%Hshape & _) _]. by destruct H2. }
  destruct (node_leaf n && _) eqn:E2; cbn [orb].
  { split; [done|]. intros [(?%Hshape & _) _]. by destruct H2. }
  pose proof (proj1 Hshape (conj eq_refl eq_refl)) as Hs.
  rewrite (sizeEntries_spec n _ 0 _ t Hs) by (done || lia). rewrite !drop_0.
  split.
  - intros (HF & -> & Hc). split; [|lia]. split; [done|]. split; [done|].
    destruct Hc as [Hl|]; [|lia]. unfold zlen. rewrite Hl.
    assert (nodeEntries n = []) as -> by (apply nil_length_inv; by rewrite length_nodeEntries).
    rewrite entries_size_nil. lia.
  - intros [(_ & HF & Hc) ->]. split; [done|]. split; [lia|]. right. lia.
Qed.

Definition left_bytes (n : treeNode) : bytes :=
  match node_children n with
  | child :: _ =>
      if node_leaf n then zeros 16 else le_enc 8 (ref_pageID child) ++ le_enc 8 (ref_count child)
  | [] => zeros 16
  end.

Definition free_start (n : treeNode) : Z := 32 + entries_size (nodeEntries n).

Definition node_image (n : treeNode) : bytes :=
  le_enc 2 (zlen (node_keys n)) ++ le_enc 2 (free_start n) ++ le_enc 2 (free_start n) ++ zeros 2
  ++ left_bytes n ++ le_enc 8 (node_count n)
  ++ concat (nodeEntries n) ++ slot_area 32 (nodeEntries n).

Lemma zlen_left_bytes n : zlen (left_bytes n) = 16.
Proof. unfold left_bytes. destruct (node_children n); [done|]. by destruct (node_leaf n). Qed.

Lemma zlen_nodeEntries n : node_shape n -> zlen (nodeEntries n) = zlen (node_keys n).
Proof. intros H. unfold zlen. by rewrite length_nodeEntries. Qed.

Lemma encodeTreeNode_image n payload :
  encodeTreeNode n = Ok payload <-> node_fits n /\ payload = node_image n.
Proof.
  unfold encodeTreeNode. rewrite rbind_ok.
  assert (Hw : node_fits n -> writeEntries (zeros (node_size n)) 0 32 (nodeEntries n) =
    (zeros 32 ++ concat (nodeEntries n) ++ slot_area 32 (nodeEntries n), free_start n)).
  { intros (Hs & _ & _). pose proof (entries_size_nonneg (nodeEntries n)).
    pose proof (zlen_nonneg (node_keys n)).
    pose proof (writeEntries_image (zeros 32) (nodeEntries n) 0 [] eq_refl) as H1.
    rewrite zlen_zeros, app_nil_r, zlen_nodeEntries, zeros_app, app_nil_r in H1 by (done || lia).
    unfold node_size, free_start. rewrite <- H1. do 2 f_equal. lia. }
  assert (Hput : node_fits n -> forall rest,
    let payload := put (put (put (zeros 32 ++ rest) 0 (le_enc 2 (zlen (node_keys n)))) 2
      (le_enc 2 (free_start n))) 4 (le_enc 2 (free_start n)) in
    put match node_children n with
      | child :: _ =>
          if node_leaf n then payload
          else put (put payload 8 (le_enc 8 (ref_pageID child))) 16 (le_enc 8 (ref_count child))
      | [] => payload
      end 24 (le_enc 8 (node_count n)) =
    le_enc 2 (zlen (node_keys n)) ++ le_enc 2 (free_start n) ++ le_enc 2 (free_start n) ++ zeros 2
    ++ left_bytes n ++ le_enc 8 (node_count n) ++ rest).
  { intros _ rest. cbv zeta. unfold left_bytes.
    destruct (node_children n) as [|c cs]; [|destruct (node_leaf n)]; header_layout; reflexivity. }
  split.
  - intros (size & [Hf ->]%treeNodeEncodedSize_spec & H). split; [done|].
    rewrite (Hw Hf) in H. apply Ok_inj in H as <-. apply (Hput Hf).
  - intros [Hf ->]. exists (node_size n). split; [by apply treeNodeEncodedSize_spec|].
    rewrite (Hw Hf). f_equal. apply (Hput Hf).
Qed.

Lemma zlen_node_image n : node_shape n -> zlen (node_image n) = node_size n.
Proof.
  intros Hs. unfold node_image, node_size, entries_size.
  rewrite !zlen_app, !zlen_le_enc, zlen_left_bytes, zlen_slot_area, zlen_nodeEntries by done.
  rewrite zlen_zeros by lia. lia.
Qed.

(** ** Decoding an image *)

(** The slot and the entry at an index. *)
Lemma slot_at hdr es1 e es2 :
  zlen hdr = 32 ->
  let es := es1 ++ e :: es2 in
  let payload := hdr ++ concat es ++ slot_area 32 es in
  let index := zlen es1 in
  sub payload (zlen payload - (index + 1) * 8) (zlen payload - index * 8) =
  le_enc 2 (32 + entries_size es1) ++ le_enc 2 (zlen e) ++ zeros 4.
Proof.
  intros Hh. cbv zeta. set (es := es1 ++ e :: es2).
  assert (Ha : slot_area 32 es = slot_area (32 + entries_size es1 + zlen e) es2 ++
    (le_enc 2 (32 + entries_size es1) ++ le_enc 2 (zlen e) ++ zeros 4) ++ slot_area 32 es1).
  { unfold es, slot_area. rewrite slots_app. cbn [slots]. rewrite rev_app_distr. cbn [rev].
    rewrite !concat_app. cbn [concat]. by rewrite app_nil_r, <- !app_assoc. }
  rewrite Ha, !zlen_app, !zlen_slot_area, !zlen_le_enc, zlen_zeros by lia.
  pose proof (zlen_nonneg es1). pose proof (zlen_nonneg es2). pose proof (zlen_nonneg (concat es)).
  rewrite (app_assoc hdr), (app_assoc (hdr ++ _)).
  apply sub_mid; rewrite !zlen_app, ?zlen_slot_area, ?zlen_le_enc, ?zlen_zeros; lia.
Qed.

Lemma entry_at hdr es1 e es2 area :
  zlen hdr = 32 ->
  sub (hdr ++ concat (es1 ++ e :: es2) ++ area) (32 + entries_size es1)
    (32 + entries_size es1 + zlen e) = e.
Proof.
  intros Hh. rewrite concat_app. cbn [concat].
  replace (hdr ++ (concat es1 ++ e ++ concat es2) ++ area)
    with ((hdr ++ concat es1) ++ e ++ (concat es2 ++ area)) by by rewrite <- !app_assoc.
  apply sub_mid; rewrite ?zlen_app; unfold entries_size; lia.
Qed.

(** Keys in strictly increasing order after [previous]. *)
Fixpoint increasing (previous : option bytes) (keys : list bytes) : Prop :=
  match keys with
  | [] => True
  | k :: keys => (match previous with Some p => blt p k | None => True end) /\ increasing (Some k) keys
  end.

Lemma decodeEntries_image hdr leaf es1 es2 decoded previous :
  zlen hdr = 32 -> 32 + entries_size (es1 ++ es2) < 2 ^ 16 ->
  Forall2 (fun e d => decodeEntry leaf e = Some d /\ 2 <= zlen e) es2 decoded ->
  increasing previous decoded.*1 ->
  let es := es1 ++ es2 in
  decodeEntries (hdr ++ concat es ++ slot_area 32 es) leaf (32 + entries_size es)
    (length es2) (zlen es1) (32 + entries_size es1) previous = Some decoded.
Proof.
  intros Hh. cbv zeta. revert es1 decoded previous.
  induction es2 as [|e es2 IH]; intros es1 decoded previous Hlt Hd Hi.
  - inversion Hd. subst. cbn [length decodeEntries]. rewrite app_nil_r. by rewrite Z.eqb_refl.
  - inversion Hd as [|? d ? ds [Hde Hle] Hds]; subst. destruct Hi as [Hp Hi].
    cbn [length decodeEntries]. rewrite (slot_at hdr es1 e es2 Hh).
    rewrite entries_size_app, entries_size_cons in Hlt.
    pose proof (entries_size_nonneg es1). pose proof (entries_size_nonneg es2).
    rewrite entries_size_app, entries_size_cons.
    replace (sub (le_enc 2 (32 + entries_size es1) ++ le_enc 2 (zlen e) ++ zeros 4) 0 2)
      with (le_enc 2 (32 + entries_size es1)) by (slice; reflexivity).
    replace (sub (le_enc 2 (32 + entries_size es1) ++ le_enc 2 (zlen e) ++ zeros 4) 2 4)
      with (le_enc 2 (zlen e)) by (slice; reflexivity).
    replace (sub (le_enc 2 (32 + entries_size es1) ++ le_enc 2 (zlen e) ++ zeros 4) 4 8)
      with (zeros 4) by (slice; reflexivity).
    rewrite !le_dec_u16 by (unfold u16; lia). change (le_dec (zeros 4)) with 0.
    rewrite Z.eqb_refl, Z.eqb_refl. destruct (Z.ltb_spec (zlen e) 2); [lia|].
    destruct (Z.ltb_spec (32 + (entries_size es1 + (zlen e + entries_size es2)))
      (32 + entries_size es1 + zlen e)); [lia|]. cbn [negb orb].
    rewrite entry_at, Hde by done. destruct d as [key body]. cbn [obind fst] in *.
    assert ((match previous with Some p => negb (bltb p key) | None => false end) = false) as ->.
    { destruct previous as [p|]; [|done]. apply negb_false_iff. by apply bltb_lt. }
    specialize (IH (es1 ++ [e]) ds (Some key)).
    assert (E1 : entries_size (es1 ++ [e]) = entries_size es1 + zlen e).
    { rewrite entries_size_app, entries_size_cons, entries_size_nil. lia. }
    assert (E2 : zlen (es1 ++ [e]) = zlen es1 + 1) by (rewrite zlen_app, zlen_cons, zlen_nil; lia).
    replace ((es1 ++ [e]) ++ es2) with (es1 ++ e :: es2) in IH by by rewrite <- app_assoc.
    rewrite E1, E2, entries_size_app, entries_size_cons in IH.
    rewrite <- !Z.add_assoc. rewrite <- ?Z.add_assoc in IH. rewrite IH; [done|lia|done|done].
Qed.

(** What a stored node must satisfy to be read back. *)
Definition node_stored (n : treeNode) : Prop :=
  Forall u64 (ref_pageID <$> node_children n) /\ Forall u64 (ref_count <$> node_children n) /\
  u64 (node_count n) /\ increasing None (node_keys n) /\
  if node_leaf n then node_count n = zlen (node_keys n) /\ node_children n = []
  else node_values n = [] /\ Forall (fun r => 2 <= ref_pageID r) (node_children n) /\
       node_count n = childCount (node_children n).

(** The node as it is read back: nothing loaded below it, nothing dirty. *)
Definition unload_ref (r : nodeRef) : nodeRef := mk_ref (ref_pageID r) (ref_count r) None.
Definition unload (n : treeNode) : treeNode :=
  mk_node (node_leaf n) false (node_keys n) (node_values n) (unload_ref <$> node_children n) (node_count n).

Lemma decodeEntry_leaf k v :
  key_ok k -> zlen v < 2 ^ 32 -> decodeEntry true (leafEntry k v) = Some (k, EntryValue v).
Proof.
  unfold key_ok, maxKey. intros Hk Hv. pose proof (zlen_nonneg v). unfold decodeEntry.
  rewrite zlen_leafEntry. unfold leafEntry.
  rewrite (sub_app_l (le_enc 2 _) _ 0 2) by offsets. rewrite sub_all by offsets.
  rewrite le_dec_u16 by (unfold u16; lia).
  destruct (Z.ltb_spec (2 + 4 + zlen k + zlen v) 6); [lia|].
  rewrite (sub_mid (le_enc 2 (zlen k)) (le_enc 4 (zlen v))) by offsets.
  rewrite le_dec_u32 by (unfold u32; lia).
  destruct (Z.eqb_spec (zlen k) 0); [lia|].
  destruct (Z.eqb_spec (6 + zlen k + zlen v) (2 + 4 + zlen k + zlen v)); [|lia]. cbn [negb orb].
  rewrite (app_assoc (le_enc 2 _)). rewrite (sub_mid (le_enc 2 _ ++ le_enc 4 _) k v) by (rewrite ?zlen_app; offsets).
  do 3 f_equal. rewrite (app_assoc (_ ++ _)). rewrite <- (app_nil_r v) at 2.
  apply sub_mid; rewrite ?zlen_app; offsets.
Qed.

Lemma decodeEntry_branch k c :
  key_ok k -> 2 <= ref_pageID c -> u64 (ref_pageID c) -> u64 (ref_count c) ->
  decodeEntry false (branchEntry k c) = Some (k, EntryChild (ref_pageID c) (ref_count c)).
Proof.
  unfold key_ok, maxKey. intros Hk Hp Hc Hn. unfold decodeEntry.
  rewrite zlen_branchEntry. unfold branchEntry.
  rewrite (sub_app_l (le_enc 2 _) _ 0 2) by offsets. rewrite sub_all by offsets.
  rewrite le_dec_u16 by (unfold u16; lia).
  destruct (Z.eqb_spec (zlen k) 0); [lia|].
  destruct (Z.eqb_spec (2 + zlen k + 16) (2 + zlen k + 16)); [|lia]. cbn [negb orb].
  rewrite (sub_mid (le_enc 2 _) k _ 2) by offsets. rewrite (app_assoc (le_enc 2 _)).
  rewrite (sub_mid (_ ++ _) (le_enc 8 (ref_pageID c)) _ (2 + zlen k)) by (rewrite ?zlen_app; offsets).
  rewrite le_dec_u64 by done. destruct (Z.ltb_spec (ref_pageID c) 2); [lia|].
  rewrite (app_assoc (_ ++ _)). rewrite <- (app_nil_r (le_enc 8 (ref_count c))).
  rewrite (sub_mid _ (le_enc 8 (ref_count c)) []) by (rewrite ?zlen_app; offsets).
  by rewrite le_dec_u64.
Qed.

(** The entries a node's image is read back as. *)
Definition decodedEntries (n : treeNode) : list (bytes * entryBody) :=
  if node_leaf n then zip_with (fun k v => (k, EntryValue v)) (node_keys n) (node_values n)
  else zip_with (fun k c => (k, EntryChild (ref_pageID c) (ref_count c))) (node_keys n)
         (drop 1 (node_children n)).

Lemma entries_size_elem e es : e ∈ es -> zlen e <= entries_size es.
Proof.
  induction es as [|x es IH]; [by intros ?%elem_of_nil|].
  rewrite elem_of_cons, entries_size_cons. pose proof (entries_size_nonneg es).
  pose proof (zlen_nonneg x). intros [->|H1%IH]; lia.
Qed.

Lemma decoded_entries n :
  node_fits n -> node_stored n ->
  Forall2 (fun e d => decodeEntry (node_leaf n) e = Some d /\ 2 <= zlen e)
    (nodeEntries n) (decodedEntries n).
Proof.
  intros (Hs & Hk & Hc) (Hp & Hn & _ & _ & Hl).
  assert (Hb : forall e, e ∈ nodeEntries n -> zlen e <= capacity).
  { intros e He%entries_size_elem. unfold node_size in Hc. pose proof (zlen_nonneg (node_keys n)). lia. }
  unfold nodeEntries, decodedEntries, node_shape in *. destruct (node_leaf n).
  - clear Hc Hl. revert Hs Hb. generalize (node_values n).
    induction Hk as [|k ks Hk Hks IH]; intros [|v vs] Hs Hb; try done; constructor.
    + cbn in Hb. assert (zlen v < 2 ^ 32).
      { specialize (Hb (leafEntry k v) ltac:(left)). rewrite zlen_leafEntry in Hb.
        pose proof (zlen_nonneg k). change capacity with 16320 in Hb. lia. }
      split; [by apply decodeEntry_leaf|]. rewrite zlen_leafEntry.
      pose proof (zlen_nonneg k). pose proof (zlen_nonneg v). lia.
    + apply IH; [cbn in Hs; lia|]. intros e He. apply Hb. by right.
  - destruct Hl as (_ & H2 & _). clear Hc Hb. destruct (node_children n) as [|c0 cs]; [done|].
    cbn [drop]. apply Forall_cons in Hp as [_ Hp]. apply Forall_cons in Hn as [_ Hn].
    apply Forall_cons in H2 as [_ H2]. injection Hs as Hs. rewrite drop_0. revert cs Hs Hp Hn H2.
    induction Hk as [|k ks Hk Hks IH]; intros [|c cs] Hs Hp Hn H2; try done; cbn [zip_with fmap list_fmap] in *;
      constructor.
    + apply Forall_cons in Hp as [? _]. apply Forall_cons in Hn as [? _]. apply Forall_cons in H2 as [? _].
      split; [by apply decodeEntry_branch|]. rewrite zlen_branchEntry. pose proof (zlen_nonneg k). lia.
    + apply Forall_cons in Hp as [_ ?]. apply Forall_cons in Hn as [_ ?]. apply Forall_cons in H2 as [_ ?].
      injection Hs as Hs. by apply IH.
Qed.

Lemma decodedEntries_parts n :
  node_shape n ->
  (decodedEntries n).*1 = node_keys n /\
  (node_leaf n = true -> entry_value <$> decodedEntries n = node_values n) /\
  (node_leaf n = false -> entry_ref <$> decodedEntries n = unload_ref <$> drop 1 (node_children n)).
Proof.
  unfold node_shape, decodedEntries. destruct (node_leaf n); intros Hs.
  - split; [|split; [intros _|done]].
    + revert Hs. generalize (node_values n). induction (node_keys n) as [|k ks IH]; intros [|v vs] Hs; try done.
      cbn. f_equal. apply IH. cbn in Hs. lia.
    + revert Hs. generalize (node_values n). induction (node_keys n) as [|k ks IH]; intros [|v vs] Hs; try done.
      cbn. f_equal. apply IH. cbn in Hs. lia.
  - destruct (node_children n) as [|c0 cs]; [done|]. cbn [drop]. rewrite drop_0. injection Hs as Hs.
    split; [|split; [done|intros _]].
    + revert cs Hs. induction (node_keys n) as [|k ks IH]; intros [|v vs] Hs; try done.
      cbn. f_equal. apply IH. cbn in Hs. lia.
    + revert cs Hs. induction (node_keys n) as [|k ks IH]; intros [|v vs] Hs; try done.
      cbn. f_equal. apply IH. cbn in Hs. lia.
Qed.

Lemma childCount_unload rs : childCount (unload_ref <$> rs) = childCount rs.
Proof.
  unfold childCount. generalize 0. induction rs as [|r rs IH]; intros z; [done|]. cbn. apply IH.
Qed.

(** The header of an image. *)
Lemma node_image_fields n :
  let p := node_image n in
  sub p 0 2 = le_enc 2 (zlen (node_keys n)) /\ sub p 2 4 = le_enc 2 (free_start n) /\
  sub p 4 6 = le_enc 2 (free_start n) /\ sub p 6 8 = zeros 2 /\
  sub p 8 16 = sub (left_bytes n) 0 8 /\ sub p 16 24 = sub (left_bytes n) 8 16 /\
  sub p 24 32 = le_enc 8 (node_count n).
Proof.
  pose proof (zlen_left_bytes n). unfold node_image. cbv zeta.
  repeat split; slice; reflexivity.
Qed.

Lemma left_bytes_fields n c cs :
  node_leaf n = false -> node_children n = c :: cs ->
  sub (left_bytes n) 0 8 = le_enc 8 (ref_pageID c) /\
  sub (left_bytes n) 8 16 = le_enc 8 (ref_count c).
Proof. intros Hl Hc. unfold left_bytes. rewrite Hc, Hl. split; slice; reflexivity. Qed.

Lemma left_bytes_leaf n : node_leaf n = true -> left_bytes n = zeros 16.
Proof. intros Hl. unfold left_bytes. rewrite Hl. by destruct (node_children n). Qed.

Lemma decodeEntries_node n :
  node_fits n -> node_stored n ->
  decodeEntries (node_image n) (node_leaf n) (free_start n) (length (node_keys n)) 0 32 None =
  Some (decodedEntries n).
Proof.
  intros Hf Hst. pose proof Hf as (Hs & _ & Hc).
  pose proof (decodeEntries_image
    (le_enc 2 (zlen (node_keys n)) ++ le_enc 2 (free_start n) ++ le_enc 2 (free_start n) ++ zeros 2
     ++ left_bytes n ++ le_enc 8 (node_count n)) (node_leaf n) [] (nodeEntries n) (decodedEntries n)
    None) as H.
  cbv zeta in H. rewrite <- !app_assoc, length_nodeEntries in H by done.
  cbn [app] in H. rewrite zlen_nil, entries_size_nil, Z.add_0_r in H. apply H.
  - rewrite !zlen_app, !zlen_le_enc, zlen_left_bytes, zlen_zeros; lia.
  - unfold node_size in Hc. change capacity with 16320 in Hc. pose proof (zlen_nonneg (node_keys n)). lia.
  - by apply decoded_entries.
  - rewrite (proj1 (decodedEntries_parts n Hs)). apply Hst.
Qed.

(** Reading back an encoded node, from any page that carries it. *)
Lemma decodeTreeNode_image n page :
  node_fits n -> node_stored n ->
  page_Payload page = node_image n -> page_ItemCount page = zlen (node_keys n) ->
  leaf_page_type (page_Type page) = node_leaf n ->
  decodeTreeNode page = Some (unload n).
Proof.
  intros Hf Hst Hp Hi Ht. pose proof Hf as (Hs & _ & Hc). unfold decodeTreeNode.
  rewrite Hp, Hi, Ht, zlen_node_image by done.
  pose proof (node_image_fields n) as F. cbv zeta in F. destruct F as (-> & -> & -> & -> & -> & -> & ->).
  pose proof (zlen_nonneg (node_keys n)). pose proof (entries_size_nonneg (nodeEntries n)).
  unfold node_size, free_start in *. change capacity with 16320 in Hc.
  destruct Hst as (Hpid & Hcnt & Hn & Hinc & Hkind) eqn:Est. clear Est.
  rewrite !le_dec_u16 by (unfold u16; lia). rewrite le_dec_u64 by done.
  change (le_dec (zeros 2)) with 0.
  destruct (Z.ltb_spec (32 + 8 * zlen (node_keys n) + entries_size (nodeEntries n)) 32); [lia|].
  destruct (Z.ltb_spec 65535 (zlen (node_keys n))); [lia|].
  destruct (Z.ltb_spec (32 + entries_size (nodeEntries n)) 32); [lia|].
  rewrite !Z.eqb_refl. cbn [negb orb].
  destruct (Z.eqb_spec (32 + 8 * zlen (node_keys n) + entries_size (nodeEntries n))
    (32 + entries_size (nodeEntries n) + zlen (node_keys n) * 8)); [|lia]. cbn [negb].
  replace (Z.to_nat (zlen (node_keys n))) with (length (node_keys n)) by (unfold zlen; lia).
  pose proof (decodeEntries_node n Hf (conj Hpid (conj Hcnt (conj Hn (conj Hinc Hkind))))) as Hdec.
  unfold free_start in Hdec. rewrite Hdec. cbn [obind].
  destruct (decodedEntries_parts n Hs) as (-> & Hv & Hr). unfold unload.
  destruct (node_leaf n) eqn:El.
  - destruct Hkind as [Hcount Hch]. rewrite left_bytes_leaf by done.
    change (le_dec (sub (zeros 16) 0 8)) with 0. change (le_dec (sub (zeros 16) 8 16)) with 0.
    cbn -[Z.eqb zlen]. rewrite Hcount, !Z.eqb_refl, Hv, Hch by done. done.
  - destruct Hkind as (Hvals & Hids & Hcount). destruct (node_children n) as [|c cs] eqn:Ech.
    { unfold node_shape in Hs. by rewrite El, Ech in Hs. }
    destruct (left_bytes_fields n c cs El Ech) as [-> ->].
    cbn [fmap list_fmap] in Hpid, Hcnt. apply Forall_cons in Hpid as [? _]. apply Forall_cons in Hcnt as [? _].
    apply Forall_cons in Hids as [? _]. rewrite !le_dec_u64 by done.
    destruct (Z.ltb_spec (ref_pageID c) 2); [lia|]. cbn [node_children]. rewrite Hr by done.
    cbn [drop]. rewrite drop_0.
    change (mk_ref (ref_pageID c) (ref_count c) None :: (unload_ref <$> cs)) with (unload_ref <$> c :: cs).
    rewrite childCount_unload, <- Hcount, Z.eqb_refl, Hvals. done.
Qed.


(** C12: a node is encoded exactly when its lists have matching lengths, its keys
    are of 1 to 4096 bytes and the whole fits the page capacity; the payload has
    the computed size, and a page that carries the payload of a consistent node
    reads back as that node, its children not loaded. *)
Theorem encodeTreeNode_roundtrip n :
  match encodeTreeNode n with
  | Ok payload =>
      node_fits n /\ treeNodeEncodedSize n = Ok (zlen payload) /\ zlen payload <= capacity /\
      (node_stored n -> forall page,
         page_Payload page = payload -> page_ItemCount page = zlen (node_keys n) ->
         leaf_page_type (page_Type page) = node_leaf n -> decodeTreeNode page = Some (unload n))
  | Err _ => ~ node_fits n
  end.
Proof.
  destruct (encodeTreeNode n) as [payload|e] eqn:E.
  - apply encodeTreeNode_image in E as [Hf ->]. pose proof Hf as (Hs & _ & Hc).
    split; [done|]. rewrite zlen_node_image by done. split; [by apply treeNodeEncodedSize_spec|].
    split; [done|]. intros Hst page. by apply decodeTreeNode_image.
  - intros Hf. assert (encodeTreeNode n = Ok (node_image n)) by (by apply encodeTreeNode_image). congruence.
Qed.
