(* ===== verification/NodeView.v ===== *)
(** * Reading trees without copying

    [internal/storage/btree_read.go]: a view of a node's payload, what it accepts
    compared with [decodeTreeNode], and the lookup that walks views from a root
    page. A branch page that points back to itself makes the walk endless; its
    fuel stands for the pages it visits. *)
From S2P Require Import Prelude Bytes Layout Hashes PageFormat Entries NodeCodec.

Record treeNodeView := mk_view {
  view_payload : bytes;
  view_leaf : bool;
  view_count : Z;
  view_freeStart : Z }.

(** The key, the value, the child and its count behind an entry's bytes. *)
Definition view_body (leaf : bool) (entry : bytes) : result (bytes * bytes * Z * Z) :=
  let keyLength := le_dec (sub entry 0 2) in
  if (keyLength =? 0) || (4096 <? keyLength) then Err ErrCorrupt
  else if leaf then
    if zlen entry <? 6 then Err ErrCorrupt
    else
      let valueLength := le_dec (sub entry 2 6) in
      if negb (6 + keyLength + valueLength =? zlen entry) then Err ErrCorrupt
      else Ok (sub entry 6 (6 + keyLength), sub entry (6 + keyLength) (zlen entry), 0, 0)
  else if negb (2 + keyLength + 16 =? zlen entry) then Err ErrCorrupt
  else Ok (sub entry 2 (2 + keyLength), [], le_dec (sub entry (2 + keyLength) (2 + keyLength + 8)),
           le_dec (sub entry (2 + keyLength + 8) (zlen entry))).

(** The slot of an index: the last eight bytes belong to index zero. *)
Definition view_slot (view : treeNodeView) (index : Z) : bytes :=
  let payload := view_payload view in
  sub payload (zlen payload - (index + 1) * 8) (zlen payload - index * 8).

Definition view_entry (view : treeNodeView) (index : Z) : result (bytes * bytes * Z * Z) :=
  if (index <? 0) || (view_count view <=? index) then Err ErrCorrupt
  else
    let slot := view_slot view index in
    let offset := le_dec (sub slot 0 2) in
    let length := le_dec (sub slot 2 4) in
    if negb (le_dec (sub slot 4 8) =? 0) || (offset <? 32) || (length <? 2) || (view_freeStart view <? offset + length)
    then Err ErrCorrupt
    else view_body (view_leaf view) (sub (view_payload view) offset (offset + length)).

Definition view_child (view : treeNodeView) (index : Z) : result (Z * Z) :=
  if view_leaf view || (index <? 0) || (view_count view <? index) then Err ErrCorrupt
  else if index =? 0 then
    Ok (le_dec (sub (view_payload view) 8 16), le_dec (sub (view_payload view) 16 24))
  else
    let* (_, _, child, count) := view_entry view (index - 1) in
    Ok (child, count).

(** The loop that adds up the counts of a branch; [n] entries from [index] on. *)
Fixpoint sumChildren (view : treeNodeView) (n : nat) (index subtree : Z) : result Z :=
  match n with
  | O => Ok subtree
  | S n =>
      let* (_, _, child, childCount) := view_entry view index in
      if child <? 2 then Err ErrCorrupt else sumChildren view n (index + 1) (to_u64 (subtree + childCount))
  end.

(** The loop that checks keys and offsets. *)
Fixpoint checkKeys (view : treeNodeView) (n : nat) (index cursor : Z) (previous : option bytes) : bool :=
  match n with
  | O => cursor =? view_freeStart view
  | S n =>
      match view_entry view index with
      | Err _ => false
      | Ok (key, _, _, _) =>
          let slot := view_slot view index in
          (match previous with Some p => bltb p key | None => true end)
          && (le_dec (sub slot 0 2) =? cursor)
          && checkKeys view n (index + 1) (cursor + le_dec (sub slot 2 4)) (Some key)
      end
  end.

Definition decodeTreeNodeView (page : Page) : result treeNodeView :=
  let payload := page_Payload page in
  if (zlen payload <? 32) || (65535 <? page_ItemCount page) then Err ErrCorrupt
  else
    let view := mk_view payload (leaf_page_type (page_Type page)) (le_dec (sub payload 0 2)) (le_dec (sub payload 2 4)) in
    let freeEnd := le_dec (sub payload 4 6) in
    if negb (view_count view =? page_ItemCount page) || negb (le_dec (sub payload 6 8) =? 0)
       || (view_freeStart view <? 32) || negb (freeEnd =? view_freeStart view)
       || negb (zlen payload =? view_freeStart view + view_count view * 8) then Err ErrCorrupt
    else
      let n := Z.to_nat (view_count view) in
      let left := le_dec (sub payload 8 16) in
      let leftCount := le_dec (sub payload 16 24) in
      let* _ :=
        if view_leaf view then
          guard_err ((left =? 0) && (leftCount =? 0) && (le_dec (sub payload 24 32) =? view_count view)) ErrCorrupt
        else if left <? 2 then Err ErrCorrupt
        else
          let* subtree := sumChildren view n 0 leftCount in
          guard_err (subtree =? le_dec (sub payload 24 32)) ErrCorrupt in
      if checkKeys view n 0 32 None then Ok view else Err ErrCorrupt.

(** ** Views accept what the decoder accepts, with keys of at most 4096 bytes *)

(** What a view reports for a decoded entry. *)
Definition entry_view (e : bytes * entryBody) : bytes * bytes * Z * Z :=
  match e.2 with
  | EntryValue value => (e.1, value, 0, 0)
  | EntryChild child count => (e.1, [], child, count)
  end.

Definition short_key (e : bytes * entryBody) : Prop := zlen e.1 <= maxKey.

Lemma view_body_decode leaf entry e :
  2 <= zlen entry ->
  decodeEntry leaf entry = Some e /\ short_key e <->
  view_body leaf entry = Ok (entry_view e) /\
  (exists k, if leaf then exists v, e = (k, EntryValue v) else exists c n, e = (k, EntryChild c n) /\ 2 <= c).
Proof.
  intros H2. unfold decodeEntry, view_body, short_key, maxKey.
  pose proof (le_dec_range (sub entry 0 2)) as Hk. pose proof (le_dec_range (sub entry 2 6)) as Hv.
  set (kl := le_dec (sub entry 0 2)) in *.
  destruct leaf.
  - destruct (Z.ltb_spec (zlen entry) 6) as [|H6].
    { split; [by intros [? _]|]. by destruct (_ || _); intros [? _]. }
    destruct (Z.eqb_spec kl 0); cbn [orb].
    { split; [by intros [? _]|by intros [? _]]. }
    set (vl := le_dec (sub entry 2 6)) in *.
    destruct (Z.eqb_spec (6 + kl + vl) (zlen entry)) as [Hl|Hl]; cbn [negb].
    2: { split; [by intros [? _]|]. by destruct (_ <? _); intros [? _]. }
    assert (Hz : zlen (sub entry 6 (6 + kl)) = kl) by (rewrite zlen_sub; lia).
    destruct (Z.ltb_spec 4096 kl); split.
    + intros [[= <-] Hs]. cbn [fst] in Hs. lia.
    + by intros [? _].
    + intros [[= <-] _]. split; [done|]. by repeat eexists.
    + intros [Heq%Ok_inj (k & v & ->)]. cbn [entry_view fst snd] in Heq. injection Heq as Ek Ev. rewrite Ek, Ev. split; [done|]. cbn [fst]. rewrite <- Ek. lia.
  - destruct (Z.eqb_spec kl 0); cbn [orb].
    { split; [by intros [? _]|by intros [? _]]. }
    destruct (Z.eqb_spec (2 + kl + 16) (zlen entry)) as [Hl|Hl]; cbn [negb].
    2: { split; [by intros [? _]|]. by destruct (_ <? _); intros [? _]. }
    assert (Hz : zlen (sub entry 2 (2 + kl)) = kl) by (rewrite zlen_sub; lia).
    set (c := le_dec (sub entry (2 + kl) _)). destruct (Z.ltb_spec c 2).
    { split; [by intros [? _]|]. destruct (_ <? _); [by intros [? _]|].
      intros [Heq%Ok_inj (k & c' & n' & -> & ?)]. cbn [entry_view fst snd] in Heq. injection Heq as ? ? ?. lia. }
    destruct (Z.ltb_spec 4096 kl); split.
    + intros [[= <-] Hs]. cbn [fst] in Hs. lia.
    + by intros [? _].
    + intros [[= <-] _]. split; [done|]. by repeat eexists.
    + intros [Heq%Ok_inj (k & c' & n' & -> & ?)]. cbn [entry_view fst snd] in Heq. injection Heq as Ek Ec En. rewrite Ek, Ec, En. split; [done|]. cbn [fst]. rewrite <- Ek. lia.
Qed.

Lemma view_body_shape leaf entry r :
  view_body leaf entry = Ok r ->
  exists e, r = entry_view e /\ exists k, if leaf then exists v, e = (k, EntryValue v) else exists c n, e = (k, EntryChild c n).
Proof.
  unfold view_body. destruct (_ || _); [done|]. destruct leaf.
  - destruct (_ <? _); [done|]. destruct (negb _); [done|]. intros <-%Ok_inj.
    eexists (_, EntryValue _). split; [reflexivity|]. by repeat eexists.
  - destruct (negb _); [done|]. intros <-%Ok_inj. eexists (_, EntryChild _ _). split; [reflexivity|]. by repeat eexists.
Qed.

Section Loops.
Variable view : treeNodeView.
Hypothesis Hlen : zlen (view_payload view) = view_freeStart view + view_count view * 8.

Abbreviation slot_offset index := (le_dec (sub (view_slot view index) 0 2)).
Abbreviation slot_length index := (le_dec (sub (view_slot view index) 2 4)).
Abbreviation slot_rest index := (le_dec (sub (view_slot view index) 4 8)).
Abbreviation slot_entry index :=
  (sub (view_payload view) (slot_offset index) (slot_offset index + slot_length index)).

Lemma view_entry_slot index :
  0 <= index < view_count view ->
  view_entry view index =
  if negb (slot_rest index =? 0) || (slot_offset index <? 32) || (slot_length index <? 2)
     || (view_freeStart view <? slot_offset index + slot_length index) then Err ErrCorrupt
  else view_body (view_leaf view) (slot_entry index).
Proof.
  intros [H1 H2]. unfold view_entry. destruct (Z.ltb_spec index 0); [lia|].
  by destruct (Z.leb_spec (view_count view) index); [lia|].
Qed.

(** One step of the decoder against one entry of the view. *)
Lemma slot_entry_decode index e :
  0 <= index < view_count view -> slot_rest index = 0 -> 32 <= slot_offset index -> 2 <= slot_length index ->
  slot_offset index + slot_length index <= view_freeStart view ->
  decodeEntry (view_leaf view) (slot_entry index) = Some e /\ short_key e <->
  view_entry view index = Ok (entry_view e) /\
  (exists k, if view_leaf view then exists v, e = (k, EntryValue v) else exists c n, e = (k, EntryChild c n) /\ 2 <= c).
Proof.
  intros Hi Hr Ho Hl Hf. rewrite view_entry_slot by done. rewrite Hr.
  destruct (Z.ltb_spec (slot_offset index) 32); [lia|]. destruct (Z.ltb_spec (slot_length index) 2); [lia|].
  destruct (Z.ltb_spec (view_freeStart view) (slot_offset index + slot_length index)); [lia|]. cbn [Z.eqb negb orb].
  apply view_body_decode. rewrite zlen_sub; lia.
Qed.

Abbreviation add_count := (fun result child => to_u64 (result + ref_count child)).

Lemma loop_decode n index cursor previous es s :
  0 <= index -> index + Z.of_nat n = view_count view -> 32 <= cursor ->
  decodeEntries (view_payload view) (view_leaf view) (view_freeStart view) n index cursor previous = Some es ->
  Forall short_key es ->
  checkKeys view n index cursor previous = true /\
  (view_leaf view = false -> sumChildren view n index s = Ok (fold_left add_count (entry_ref <$> es) s)) /\
  (forall i e, es !! i = Some e -> view_entry view (index + Z.of_nat i) = Ok (entry_view e)).
Proof.
  revert index cursor previous es s; induction n as [|n IH]; intros index cursor previous es s Hi Hn Hc; cbn [decodeEntries].
  { destruct (cursor =? view_freeStart view) eqn:E; [|done]. intros [= <-] _. split; [done|]. split; [done|]. done. }
  fold (view_slot view index).
  destruct (_ || _) eqn:E; [done|]. breflect. intros Hd. inv_ok. destruct a as [key body].
  destruct (match previous with Some p => _ | None => false end) eqn:Ep; [done|]. inv_ok. subst es.
  intros [Hs Hss]%Forall_cons. pose proof (proj1 (slot_entry_decode index (key, body) ltac:(lia) ltac:(done) ltac:(lia)
    ltac:(lia) ltac:(lia)) (conj Hok Hs)) as [Hv Hshape].
  destruct (IH (index + 1) (cursor + slot_length index) (Some key) a
    (match body with EntryChild _ c => to_u64 (s + c) | _ => s end) ltac:(lia) ltac:(lia) ltac:(lia) Hok0 Hss) as (Hck & Hsum & Hat).
  cbn [checkKeys sumChildren]. rewrite Hv. cbn [entry_view rbind fst snd].
  assert (Hlt : (match previous with Some p => bltb p key | None => true end) = true).
  { destruct previous; [|done]. by apply negb_false_iff. }
  split; [|split].
  - assert (Ho : (slot_offset index =? cursor) = true) by (by apply Z.eqb_eq).
    destruct body; cbn [entry_view fst snd]; rewrite Hlt, Ho, Hck; done.
  - intros Hl. rewrite Hl in Hshape. destruct Hshape as (k & c & m & [= -> ->] & H2c). cbn [entry_view fst snd].
    destruct (Z.ltb_spec c 2); [lia|]. cbv beta iota in Hsum. by rewrite (Hsum Hl).
  - intros [|i] e He; cbn in He.
    + injection He as <-. by rewrite Z.add_0_r.
    + replace (index + Z.of_nat (S i)) with (index + 1 + Z.of_nat i) by lia. by apply Hat.
Qed.

Lemma loop_check n index cursor previous s :
  0 <= index -> index + Z.of_nat n = view_count view -> 32 <= cursor ->
  checkKeys view n index cursor previous = true ->
  (view_leaf view = false -> is_ok (sumChildren view n index s) = true) ->
  exists es, decodeEntries (view_payload view) (view_leaf view) (view_freeStart view) n index cursor previous = Some es /\
    Forall short_key es.
Proof.
  revert index cursor previous s; induction n as [|n IH]; intros index cursor previous s Hi Hn Hc Hck Hsum.
  { cbn [decodeEntries checkKeys] in *. rewrite Hck. by exists []. }
  cbn [decodeEntries checkKeys sumChildren] in *. fold (view_slot view index).
  destruct (view_entry view index) as [[[[key value] child] count]|] eqn:Ev; [|done]. cbn [rbind] in Hsum. breflect.
  pose proof Ev as Hslot. rewrite view_entry_slot in Hslot by lia. destruct (_ || _) eqn:E in Hslot; [done|]. breflect.
  apply view_body_shape in Hslot as (e & He & k & Hk).
  assert (Hdec : decodeEntry (view_leaf view) (slot_entry index) = Some e /\ short_key e).
  { apply slot_entry_decode; [lia|done|done|done|done|]. split; [by rewrite Ev, He|]. exists k.
    destruct (view_leaf view); [done|]. destruct Hk as (c & m & ->). exists c, m. split; [done|].
    cbn [entry_view fst snd] in He. injection He as -> _ -> ->. specialize (Hsum eq_refl).
    destruct (Z.ltb_spec c 2); [done|lia]. }
  destruct Hdec as [Hdec Hshort].
  destruct (IH (index + 1) (cursor + slot_length index) (Some key) (to_u64 (s + count))) as (es & Hes & Hss); [lia|lia|lia|done| |].
  { intros Hl. specialize (Hsum Hl). by destruct (child <? 2). }
  exists (e :: es). split; [|by constructor].
  destruct (Z.eqb_spec (slot_rest index) 0); [|done]. destruct (Z.eqb_spec (slot_offset index) cursor); [|done].
  destruct (Z.ltb_spec (slot_length index) 2); [lia|].
  destruct (Z.ltb_spec (view_freeStart view) (slot_offset index + slot_length index)); [lia|]. cbn [negb orb].
  rewrite Hdec. cbn [obind]. destruct e as [key' body]. assert (key' = key) as ->.
  { destruct body; cbn in He; by injection He. }
  assert ((match previous with Some p => negb (bltb p key) | None => false end) = false) as ->.
  { destruct previous; [|done]. by apply negb_false_iff. }
  by rewrite Hes.
Qed.
End Loops.

(** The view of a node. *)
Record views (view : treeNodeView) (node : treeNode) : Prop := {
  vw_leaf : view_leaf view = node_leaf node;
  vw_count : view_count view = zlen (node_keys node);
  vw_key i key : node_keys node !! i = Some key ->
    exists value child count, view_entry view (Z.of_nat i) = Ok (key, value, child, count) /\
      (node_leaf node = true -> node_values node !! i = Some value);
  vw_child i child : node_leaf node = false -> node_children node !! i = Some child ->
    view_child view (Z.of_nat i) = Ok (ref_pageID child, ref_count child) }.

Definition page_view (page : Page) : treeNodeView :=
  mk_view (page_Payload page) (leaf_page_type (page_Type page)) (le_dec (sub (page_Payload page) 0 2))
    (le_dec (sub (page_Payload page) 2 4)).

(** The decoder's result, from its entries. *)
Definition node_of (page : Page) (entries : list (bytes * entryBody)) : treeNode :=
  let payload := page_Payload page in
  let nodeCount := le_dec (sub payload 24 32) in
  if leaf_page_type (page_Type page) then mk_node true false entries.*1 (entry_value <$> entries) [] nodeCount
  else mk_node false false entries.*1 []
         (mk_ref (le_dec (sub payload 8 16)) (le_dec (sub payload 16 24)) None :: (entry_ref <$> entries)) nodeCount.

Lemma decodeEntries_length payload leaf fs n index cursor previous es :
  decodeEntries payload leaf fs n index cursor previous = Some es -> length es = n.
Proof.
  revert index cursor previous es; induction n as [|n IH]; intros index cursor previous es; cbn [decodeEntries].
  - destruct (_ =? _); [by intros [= <-]|done].
  - destruct (_ || _); [done|]. intros Hd. inv_ok. destruct a as [key body].
    destruct (match previous with Some p => _ | None => false end); [done|]. inv_ok. subst es. cbn. f_equal. by eapply IH.
Qed.

Lemma entry_body_leaf payload leaf fs n index cursor previous es :
  decodeEntries payload leaf fs n index cursor previous = Some es ->
  Forall (fun e => exists k, if leaf then exists v, e = (k, EntryValue v) else exists c m, e = (k, EntryChild c m)) es.
Proof.
  revert index cursor previous es; induction n as [|n IH]; intros index cursor previous es; cbn [decodeEntries].
  - destruct (_ =? _); [by intros [= <-]|done].
  - destruct (_ || _); [done|]. intros Hd. inv_ok. destruct a as [key body].
    destruct (match previous with Some p => _ | None => false end); [done|]. inv_ok. subst es.
    constructor; [|by eapply IH]. unfold decodeEntry in Hok. destruct leaf.
    + destruct (_ <? _) in Hok; [done|]. destruct (_ || _) in Hok; [done|]. injection Hok as <- <-. by repeat eexists.
    + destruct (_ || _) in Hok; [done|]. destruct (_ <? _) in Hok; [done|]. injection Hok as <- <-. by repeat eexists.
Qed.

(** The view of decoded entries. *)
Lemma entries_views page es :
  let view := page_view page in
  zlen (view_payload view) = view_freeStart view + view_count view * 8 ->
  decodeEntries (page_Payload page) (view_leaf view) (view_freeStart view) (Z.to_nat (view_count view)) 0 32 None = Some es ->
  Forall short_key es -> views view (node_of page es).
Proof.
  cbv zeta. set (view := page_view page). intros Hlen Hd Hs.
  assert (Hc0 : 0 <= view_count view) by apply le_dec_range.
  pose proof (decodeEntries_length _ _ _ _ _ _ _ _ Hd) as Hl.
  pose proof (entry_body_leaf _ _ _ _ _ _ _ _ Hd) as Hb.
  destruct (loop_decode view Hlen (Z.to_nat (view_count view)) 0 32 None es 0) as (_ & _ & Hat'); [lia|lia|lia|done|done|].
  assert (Hat : forall i e, es !! i = Some e -> view_entry view (Z.of_nat i) = Ok (entry_view e)) by exact Hat'. clear Hat'.
  assert (Hkeys : node_keys (node_of page es) = es.*1).
  { unfold node_of. by destruct (leaf_page_type _). }
  constructor.
  - unfold node_of, view, page_view. cbn. by destruct (leaf_page_type _).
  - rewrite Hkeys. unfold zlen. rewrite length_fmap, Hl. lia.
  - rewrite Hkeys. intros i key Hk. rewrite list_lookup_fmap in Hk. destruct (es !! i) as [e|] eqn:Ee; [|done].
    cbn in Hk. injection Hk as <-. specialize (Hat i e Ee). destruct e as [k [v|c m]]; cbn in Hat.
    + exists v, 0, 0. split; [done|]. unfold node_of. destruct (leaf_page_type _); [|done]. intros _. cbn.
      by rewrite list_lookup_fmap, Ee.
    + exists [], c, m. split; [done|]. unfold node_of. destruct (leaf_page_type _) eqn:Ef; [|done]. intros _.
      rewrite Forall_lookup in Hb. destruct (Hb _ _ Ee) as [k' Hk']. unfold view, page_view in Hk'. cbn in Hk'.
      rewrite Ef in Hk'. by destruct Hk' as [? ?].
  - unfold node_of. destruct (leaf_page_type (page_Type page)) eqn:Ef; [done|]. intros i child _. cbn [node_children].
    destruct i as [|i]; intros Hc.
    + injection Hc as <-. unfold view_child. change (view_leaf view) with (leaf_page_type (page_Type page)). rewrite Ef.
      change (Z.of_nat 0) with 0. by destruct (Z.ltb_spec (view_count view) 0); [lia|].
    + change ((entry_ref <$> es) !! i = Some child) in Hc. rewrite list_lookup_fmap in Hc.
      destruct (es !! i) as [e|] eqn:Ee; [|done]. cbn in Hc. injection Hc as <-.
      pose proof (lookup_lt_Some _ _ _ Ee). unfold view_child.
      change (view_leaf view) with (leaf_page_type (page_Type page)). rewrite Ef.
      destruct (Z.ltb_spec (Z.of_nat (S i)) 0); [lia|]. destruct (Z.ltb_spec (view_count view) (Z.of_nat (S i))); [lia|].
      destruct (Z.eqb_spec (Z.of_nat (S i)) 0); [lia|]. cbn [orb].
      replace (Z.of_nat (S i) - 1) with (Z.of_nat i) by lia. rewrite (Hat i e Ee).
      rewrite Forall_lookup in Hb. destruct (Hb _ _ Ee) as [k' Hk']. unfold view, page_view in Hk'. cbn in Hk'.
      rewrite Ef in Hk'. by destruct Hk' as (c & m & ->).
Qed.

(** The tests after the layout test, of the view and of the decoder. *)
Lemma view_tail page :
  let view := page_view page in
  let payload := page_Payload page in
  let left := le_dec (sub payload 8 16) in
  let leftCount := le_dec (sub payload 16 24) in
  let nodeCount := le_dec (sub payload 24 32) in
  let n := Z.to_nat (view_count view) in
  32 <= zlen payload -> zlen payload = view_freeStart view + view_count view * 8 ->
  (exists u, (if view_leaf view then guard_err ((left =? 0) && (leftCount =? 0) && (nodeCount =? view_count view)) ErrCorrupt
     else if left <? 2 then Err ErrCorrupt
     else let* subtree := sumChildren view n 0 leftCount in guard_err (subtree =? nodeCount) ErrCorrupt) = Ok u) /\
  checkKeys view n 0 32 None = true <->
  (if view_leaf view then left = 0 /\ leftCount = 0 else 2 <= left) /\
  exists es, decodeEntries payload (view_leaf view) (view_freeStart view) n 0 32 None = Some es /\ Forall short_key es /\
    nodeCount = if view_leaf view then zlen (node_keys (node_of page es)) else childCount (node_children (node_of page es)).
Proof.
  cbv zeta. set (v := page_view page). intros H32 Hlen. assert (Hc0 : 0 <= view_count v) by apply le_dec_range.
  pose proof (loop_check v Hlen (Z.to_nat (view_count v)) 0 32 None (le_dec (sub (page_Payload page) 16 24))
    ltac:(lia) ltac:(lia) ltac:(lia)) as Hchk.
  pose proof (fun es => loop_decode v Hlen (Z.to_nat (view_count v)) 0 32 None es (le_dec (sub (page_Payload page) 16 24))
    ltac:(lia) ltac:(lia) ltac:(lia)) as Hdec.
  change (view_payload v) with (page_Payload page) in Hchk, Hdec.
  assert (Hkeys : forall es, decodeEntries (page_Payload page) (view_leaf v) (view_freeStart v) (Z.to_nat (view_count v)) 0 32 None = Some es ->
    view_leaf v = true -> zlen (node_keys (node_of page es)) = view_count v).
  { intros es Hes%decodeEntries_length _. unfold node_of. destruct (leaf_page_type _); cbn [node_keys]; unfold zlen;
      rewrite length_fmap, Hes; lia. }
  assert (Hsum : forall es, view_leaf v = false -> childCount (node_children (node_of page es)) =
    fold_left (fun result child => to_u64 (result + ref_count child)) (entry_ref <$> es) (le_dec (sub (page_Payload page) 16 24))).
  { intros es Hl. unfold node_of. change (leaf_page_type (page_Type page)) with (view_leaf v). rewrite Hl. cbn [node_children].
    unfold childCount. cbn [fold_left ref_count]. rewrite Z.add_0_l. f_equal. unfold to_u64. apply Z.mod_small.
    apply (field_u64 (page_Payload page) 16 24); lia. }
  destruct (view_leaf v) eqn:Ef.
  - split.
    + intros [[u Hg%guard_err_ok] Hck]. breflect. split; [done|].
      destruct (Hchk Hck ltac:(done)) as (es & Hes & Hss). exists es. split; [done|]. split; [done|]. by rewrite (Hkeys es Hes).
    + intros [[H1 H2] (es & Hes & Hss & Hn)]. destruct (Hdec es Hes Hss) as (Hck & _). split; [|done].
      exists tt. apply guard_err_ok. rewrite (Hkeys es Hes eq_refl) in Hn. bgoal; done.
  - split.
    + intros [[u Hg] Hck]. destruct (Z.ltb_spec (le_dec (sub (page_Payload page) 8 16)) 2); [done|].
      split; [done|]. inv_ok. breflect. destruct (Hchk Hck) as (es & Hes & Hss); [intros _; by rewrite Hok|].
      exists es. split; [done|]. split; [done|]. rewrite Hsum by done. destruct (Hdec es Hes Hss) as (_ & Hs & _).
      rewrite (Hs eq_refl) in Hok. injection Hok as ->. done.
    + intros [H1 (es & Hes & Hss & Hn)]. destruct (Hdec es Hes Hss) as (Hck & Hs & _). split; [|done].
      exists tt. destruct (Z.ltb_spec (le_dec (sub (page_Payload page) 8 16)) 2); [lia|]. rewrite (Hs eq_refl). cbn [rbind].
      apply guard_err_ok. rewrite Hsum in Hn by done. apply Z.eqb_eq. done.
Qed.

Lemma decodeTreeNode_children page node :
  decodeTreeNode page = Some node ->
  node_children node = [] \/ exists left count es, node_children node = mk_ref left count None :: (entry_ref <$> es).
Proof.
  unfold decodeTreeNode. destruct (_ || _); [done|]. destruct (_ || _); [done|].
  destruct (if leaf_page_type (page_Type page) then _ else _); [done|]. intros Hd. inv_ok.
  destruct (leaf_page_type (page_Type page)) in Hd; destruct (negb _) in Hd; try done; injection Hd as <-; [by left|].
  right. by repeat eexists.
Qed.

(** The decoder's tests after its entries. *)
Lemma decoder_tail page es node :
  let leaf := leaf_page_type (page_Type page) in
  let payload := page_Payload page in
  let left := le_dec (sub payload 8 16) in
  let leftCount := le_dec (sub payload 16 24) in
  let nodeCount := le_dec (sub payload 24 32) in
  (if (if leaf then negb (left =? 0) || negb (leftCount =? 0) else left <? 2) then None
   else if (if leaf then negb (nodeCount =? zlen (node_keys (node_of page es)))
            else negb (nodeCount =? childCount (node_children (node_of page es)))) then None
   else Some (node_of page es)) = Some node <->
  node = node_of page es /\ (if leaf then left = 0 /\ leftCount = 0 else 2 <= left) /\
  nodeCount = if leaf then zlen (node_keys (node_of page es)) else childCount (node_children (node_of page es)).
Proof.
  cbv zeta. destruct (leaf_page_type (page_Type page)).
  - destruct (Z.eqb_spec (le_dec (sub (page_Payload page) 8 16)) 0); [|by split; [|intros (_ & [? _] & _)]].
    destruct (Z.eqb_spec (le_dec (sub (page_Payload page) 16 24)) 0); [|by split; [|intros (_ & [_ ?] & _)]]. cbn [negb orb].
    destruct (Z.eqb_spec (le_dec (sub (page_Payload page) 24 32)) (zlen (node_keys (node_of page es)))); cbn [negb].
    + split; [by intros [= <-]|by intros [-> _]].
    + split; [done|by intros (_ & _ & ?)].
  - destruct (Z.ltb_spec (le_dec (sub (page_Payload page) 8 16)) 2); [split; [done|lia]|].
    destruct (Z.eqb_spec (le_dec (sub (page_Payload page) 24 32)) (childCount (node_children (node_of page es)))); cbn [negb].
    + split; [by intros [= <-]|by intros [-> _]].
    + split; [done|by intros (_ & _ & ?)].
Qed.

(** Both directions of the agreement. *)
Lemma decodeTreeNodeView_spec page :
  (forall view, decodeTreeNodeView page = Ok view ->
     exists node, decodeTreeNode page = Some node /\ Forall (fun key => zlen key <= maxKey) (node_keys node) /\
       view = page_view page /\ views view node) /\
  (forall node, decodeTreeNode page = Some node -> Forall (fun key => zlen key <= maxKey) (node_keys node) ->
     decodeTreeNodeView page = Ok (page_view page)).
Proof.
  unfold decodeTreeNodeView, decodeTreeNode. fold (page_view page). set (v := page_view page).
  destruct (_ || _) eqn:E0; [done|].
  change (le_dec (sub (page_Payload page) 0 2)) with (view_count v).
  change (le_dec (sub (page_Payload page) 2 4)) with (view_freeStart v).
  match goal with |- context [if ?b then Err ErrCorrupt else _] => destruct b eqn:E end; [done|].
  breflect. pose proof (view_tail page) as Htail. cbv zeta in Htail. fold v in Htail. specialize (Htail ltac:(lia) ltac:(lia)).
  pose proof (decoder_tail page) as Hdec. cbv zeta in Hdec. change (view_leaf v) with (leaf_page_type (page_Type page)) in *.
  assert (Hkeys : forall es, node_keys (node_of page es) = es.*1) by (intros es; unfold node_of; by destruct (leaf_page_type _)).
  split.
  - intros view Hd. inv_ok. destruct (checkKeys v _ 0 32 None) eqn:Hck; [|done]. injection Hd as <-.
    destruct (proj1 Htail) as (Hleft & es & Hes & Hss & Hn); [split; [by exists a|done]|].
    exists (node_of page es). split; [|split; [|split; [done|by apply entries_views]]].
    + rewrite Hes. cbn [obind]. by apply Hdec.
    + rewrite Hkeys. apply (Forall_fmap fst). exact Hss.
  - intros node Hnode Hshort.
    destruct (decodeEntries _ _ _ _ _ _ _) as [es|] eqn:Hes; cbn [obind] in Hnode.
    2: { by destruct (if leaf_page_type (page_Type page) then _ else _) in Hnode. }
    apply Hdec in Hnode as (-> & Hleft & Hn). rewrite Hkeys in Hshort. apply (Forall_fmap fst) in Hshort.
    destruct (proj2 Htail) as [[u Hu] Hck].
    { split; [done|]. exists es. split; [done|]. split; [exact Hshort|done]. }
    rewrite Hu. cbn [rbind]. by rewrite Hck.
Qed.

Lemma decodeTreeNodeView_page page node :
  decodeTreeNode page = Some node -> Forall (fun key => zlen key <= maxKey) (node_keys node) ->
  exists view, decodeTreeNodeView page = Ok view /\ views view node.
Proof.
  intros Hd Hs. destruct (decodeTreeNodeView_spec page) as [Hsound Hok]. exists (page_view page).
  split; [by eapply Hok|]. destruct (Hsound _ (Hok node Hd Hs)) as (node' & Hd' & _ & _ & Hv). congruence.
Qed.

(** C13: a view accepts a page exactly when [decodeTreeNode] does and no key is
    longer than 4096 bytes, and then shows that node. *)
Theorem decodeTreeNodeView_agrees page view :
  decodeTreeNodeView page = Ok view <->
  exists node, decodeTreeNode page = Some node /\ Forall (fun key => zlen key <= maxKey) (node_keys node) /\
    view = page_view page /\ views view node.
Proof.
  split; [apply decodeTreeNodeView_spec|]. intros (node & Hd & Hs & -> & _).
  by eapply (proj2 (decodeTreeNodeView_spec page)).
Qed.
