(* ===== verification/CowTree.v ===== *)
(** * The copy-on-write B+ tree of a write transaction

    [internal/storage/btree.go]. Go mutates the nodes it has loaded; here an
    operation returns the changed reference. The load cache of [MutableTree] and
    the loaded node a read leaves behind in a clean reference only save later
    page reads, so operations that change nothing return no new tree. Split and
    merge counters are returned as numbers to add. *)
From S2P Require Import Prelude Bytes Layout Hashes PageFormat NodeCodec.

(** ** Pages as the tree sees them *)

(** [WriteTxn.readPage] and [WriteTxn.appendPage]. *)
Class PageStore (T : Type) := {
  readPage : T -> Z -> result bytes;
  appendPage : T -> Z -> Z -> Z -> Z -> bytes -> result (Z * T) }.

(** A tree entry. *)
Abbreviation KeyValue := (bytes * bytes)%type.

(** ** Choosing a split *)

(** [treeNodeEntryPrefix]: cumulative entry and slot bytes, from [acc]. *)
Fixpoint entryPrefix (node : treeNode) (index n : nat) (acc : Z) : option (list Z) :=
  match n with
  | O => Some [acc]
  | S n =>
      match treeNodeEntryEncodedSize node index with
      | Err _ => None
      | Ok entryLength =>
          let? rest := entryPrefix node (S index) n (acc + 8 + entryLength) in Some (acc :: rest)
      end
  end.

Definition treeNodeEntryPrefix (node : treeNode) : option (list Z) :=
  entryPrefix node 0 (length (node_keys node)) 0.

(** [prefix[i]]; the indexes the loops use are in range. *)
Definition at_ (prefix : list Z) (i : nat) : Z := default 0 (prefix !! i).

(** A candidate so far: position, largest half, skew. *)
Definition better (largest skew : Z) (best : option (nat * Z * Z)) : bool :=
  match best with
  | None => true
  | Some (_, bestLargest, bestSkew) =>
      (largest <? bestLargest) || ((largest =? bestLargest) && (skew <? bestSkew))
  end.

(** Both split loops: [n] positions from [i] on, with the sizes of the halves. *)
Fixpoint splitLoop (sizes : nat -> Z * Z) (n i : nat) (best : option (nat * Z * Z)) : option (nat * Z * Z) :=
  match n with
  | O => best
  | S n =>
      let '(leftSize, rightSize) := sizes i in
      if (capacity <? leftSize) || (capacity <? rightSize) then splitLoop sizes n (S i) best
      else
        let largest := Z.max leftSize rightSize in
        let skew := Z.abs (leftSize - rightSize) in
        splitLoop sizes n (S i) (if better largest skew best then Some (i, largest, skew) else best)
  end.

Definition leafSizes (prefix : list Z) (len boundary : nat) : Z * Z :=
  (32 + at_ prefix boundary, 32 + at_ prefix len - at_ prefix boundary).
Definition branchSizes (prefix : list Z) (len promoted : nat) : Z * Z :=
  (32 + at_ prefix promoted, 32 + at_ prefix len - at_ prefix (S promoted)).

Definition byteBalancedLeafSplit (node : treeNode) : option nat :=
  let len := length (node_keys node) in
  if negb (node_leaf node) || (len <? 2)%nat || negb (length (node_values node) =? len)%nat then None
  else
    let? prefix := treeNodeEntryPrefix node in
    let? (best, _, _) := splitLoop (leafSizes prefix len) (len - 1) 1 None in
    Some best.

Definition byteBalancedBranchSplit (node : treeNode) : option nat :=
  let len := length (node_keys node) in
  if node_leaf node || (len =? 0)%nat || negb (length (node_children node) =? S len)%nat then None
  else
    let? prefix := treeNodeEntryPrefix node in
    let? (best, _, _) := splitLoop (branchSizes prefix len) len 0 None in
    Some best.

Definition nodeFits (node : treeNode) : bool := is_ok (treeNodeEncodedSize node).

(** ** Building nodes *)

Definition new_ref (node : treeNode) : nodeRef := mk_ref 0 (node_count node) (Some node).

Definition mk_leaf (keys values : list bytes) (count : Z) : treeNode :=
  mk_node true true keys values [] count.
Definition mk_branch (keys : list bytes) (children : list nodeRef) (count : Z) : treeNode :=
  mk_node false true keys [] children count.

(** What a changed subtree hands to its parent: the left part, and the separator
    and right part of a split. *)
Definition change : Type := nodeRef * option (bytes * nodeRef).

(** The tail of [put] and [delete] on an oversized branch. *)
Definition splitBranch (ref : nodeRef) (node : treeNode) : result (change * Z) :=
  if nodeFits node then Ok (mk_ref (ref_pageID ref) (node_count node) (Some node), None, 0)
  else
    match byteBalancedBranchSplit node with
    | None => Err ErrNodeFull
    | Some middle =>
        match node_keys node !! middle with
        | None => Err ErrPanic
        | Some promoted =>
            let leftChildren := take (S middle) (node_children node) in
            let rightChildren := drop (S middle) (node_children node) in
            let leftNode := mk_branch (take middle (node_keys node)) leftChildren (childCount leftChildren) in
            let rightNode := mk_branch (drop (S middle) (node_keys node)) rightChildren (childCount rightChildren) in
            Ok (new_ref leftNode, Some (promoted, new_ref rightNode), 1)
        end
    end.

(** The tail of [put] on an oversized leaf. *)
Definition splitLeaf (ref : nodeRef) (node : treeNode) : result (change * Z) :=
  if nodeFits node then Ok (mk_ref (ref_pageID ref) (node_count node) (Some node), None, 0)
  else
    match byteBalancedLeafSplit node with
    | None => Err ErrNodeFull
    | Some middle =>
        match node_keys node !! middle with
        | None => Err ErrPanic
        | Some separator =>
            let leftNode := mk_leaf (take middle (node_keys node)) (take middle (node_values node))
                          (Z.of_nat middle) in
            let rightNode := mk_leaf (drop middle (node_keys node)) (drop middle (node_values node))
                           (zlen (node_keys node) - Z.of_nat middle) in
            Ok (new_ref leftNode, Some (separator, new_ref rightNode), 1)
        end
    end.

(** The position of a key among a node's keys. *)
Definition key_position (keys : list bytes) (key : bytes) : nat :=
  sort_Search (length keys) (fun i => match keys !! i with Some k => negb (bltb k key) | None => true end).

Definition key_at (keys : list bytes) (position : nat) (key : bytes) : bool :=
  match keys !! position with Some k => beqb k key | None => false end.

(** The child a key belongs to. *)
Definition child_position (keys : list bytes) (key : bytes) : nat :=
  let position := key_position keys key in
  if key_at keys position key then S position else position.

(** The first child that can hold keys from [start] on. *)
Definition scan_position (keys : list bytes) (start : bytes) : nat :=
  sort_Search (length keys) (fun i => match keys !! i with Some k => bltb start k | None => true end).

Section Tree.
Context {T : Type} `{PageStore T}.
Variable tx : T.
Variable kind : TreeKind.

Definition accepts (pageType : Z) : bool :=
  (pageType =? (treePageTypes kind).1) || (pageType =? (treePageTypes kind).2).

(** The node stored on a page; [reference] without its cache. *)
Definition reference (pageID : Z) : result treeNode :=
  let* raw := readPage tx pageID in
  match DecodePage raw pageID with
  | Err _ => Err ErrCorrupt
  | Ok page => if accepts (page_Type page) then of_option ErrCorrupt (decodeTreeNode page) else Err ErrCorrupt
  end.

Definition load (ref : nodeRef) : result treeNode :=
  match ref_node ref with
  | Some node => Ok node
  | None =>
      let* loaded := reference (ref_pageID ref) in
      if negb (ref_count ref =? node_count loaded) then Err ErrCorrupt else Ok loaded
  end.

Definition OpenTree (rootPage : Z) : result nodeRef :=
  if rootPage =? 0 then Ok (mk_ref 0 0 (Some (mk_leaf [] [] 0)))
  else
    let* node := reference rootPage in
    Ok (mk_ref rootPage (node_count node) (Some node)).

(** ** Lookup *)

Fixpoint getBorrowed (fuel : nat) (ref : nodeRef) (key : bytes) : result (option bytes) :=
  match fuel with
  | O => Err ErrFuel
  | S fuel =>
      let* node := load ref in
      let position := key_position (node_keys node) key in
      if node_leaf node then
        if key_at (node_keys node) position key then
          match node_values node !! position with Some v => Ok (Some v) | None => Err ErrPanic end
        else Ok None
      else
        match node_children node !! child_position (node_keys node) key with
        | None => Err ErrPanic
        | Some child => getBorrowed fuel child key
        end
  end.

(** The second result of [Get] is whether a value was found. *)
Definition Get : nat -> nodeRef -> bytes -> result (option bytes) := getBorrowed.

(** ** Insertion *)

(** The leaf part of [put], before the size test. *)
Definition putLeaf (node : treeNode) (key value : bytes) : treeNode :=
  let position := key_position (node_keys node) key in
  if key_at (node_keys node) position key then
    mk_leaf (node_keys node) (<[position:=value]> (node_values node)) (node_count node)
  else
    mk_leaf (insert_at (node_keys node) position key) (insert_at (node_values node) position value)
      (to_u64 (node_count node + 1)).

(** A branch after one of its children changed; [count] is its new count. *)
Definition replaceChild (node : treeNode) (childIndex : nat) (c : change) (count : Z) : treeNode :=
  let children := <[childIndex:=c.1]> (node_children node) in
  match c.2 with
  | None => mk_branch (node_keys node) children count
  | Some (separator, rightRef) =>
      mk_branch (insert_at (node_keys node) childIndex separator)
        (insert_at children (S childIndex) rightRef) count
  end.

Definition change_right_count (c : change) : Z :=
  match c.2 with Some (_, rightRef) => ref_count rightRef | None => 0 end.

Fixpoint put (fuel : nat) (ref : nodeRef) (key value : bytes) : result (change * Z) :=
  match fuel with
  | O => Err ErrFuel
  | S fuel =>
      let* node := load ref in
      if node_leaf node then splitLeaf ref (putLeaf node key value)
      else
        let childIndex := child_position (node_keys node) key in
        match node_children node !! childIndex with
        | None => Err ErrPanic
        | Some child =>
            let* (c, splits) := put fuel child key value in
            let count := to_u64 (node_count node + (ref_count c.1 - ref_count child)) in
            let count := to_u64 (count + change_right_count c) in
            let* (c, more) := splitBranch ref (replaceChild node childIndex c count) in
            Ok (c, splits + more)
        end
  end.

(** The root after a change: a new root above a split. *)
Definition growRoot (c : change) : nodeRef :=
  match c.2 with
  | None => c.1
  | Some (separator, rightRef) =>
      new_ref (mk_branch [separator] [c.1; rightRef] (to_u64 (ref_count c.1 + ref_count rightRef)))
  end.

Definition Put (fuel : nat) (root : nodeRef) (key value : bytes) : result (nodeRef * Z) :=
  if (zlen key =? 0) || (maxKey <? zlen key) then Err ErrKeyTooBig
  else
    let* (c, splits) := put fuel root key value in
    Ok (growRoot c, splits).

(** ** Deletion *)

Fixpoint minimumKey (fuel : nat) (ref : nodeRef) : result bytes :=
  match fuel with
  | O => Err ErrFuel
  | S fuel =>
      let* node := load ref in
      if node_leaf node then
        match node_keys node with k :: _ => Ok k | [] => Err ErrCorrupt end
      else
        match node_children node with child :: _ => minimumKey fuel child | [] => Err ErrCorrupt end
  end.

(** [mergeChildren]: the parent's keys and children after the merge, or nothing
    when the merged node does not fit. *)
Definition mergeChildren (parent : treeNode) (leftIndex : nat) : result (option treeNode) :=
  match node_children parent !! leftIndex, node_children parent !! S leftIndex,
        node_keys parent !! leftIndex with
  | Some leftRef, Some rightRef, Some separator =>
      let* leftNode := load leftRef in
      let* rightNode := load rightRef in
      if negb (Bool.eqb (node_leaf leftNode) (node_leaf rightNode)) then Err ErrCorrupt
      else
        let count := to_u64 (node_count leftNode + node_count rightNode) in
        let merged :=
          if node_leaf leftNode then
            mk_leaf (node_keys leftNode ++ node_keys rightNode)
              (node_values leftNode ++ node_values rightNode) count
          else
            mk_branch (node_keys leftNode ++ separator :: node_keys rightNode)
              (node_children leftNode ++ node_children rightNode) count in
        if negb (nodeFits merged) then Ok None
        else
          Ok (Some (mk_branch (remove_at (node_keys parent) leftIndex)
                      (remove_at (<[leftIndex:=new_ref merged]> (node_children parent)) (S leftIndex))
                      (node_count parent)))
  | _, _, _ => Err ErrCorrupt
  end.

(** Sets the separator before a child to the child's lowest key. *)
Definition setMinimum (fuel : nat) (node : treeNode) (childIndex : nat) : result treeNode :=
  match childIndex with
  | O => Ok node
  | S before =>
      match node_children node !! childIndex with
      | None => Err ErrPanic
      | Some child =>
          let* minimum := minimumKey fuel child in
          Ok (mk_branch (<[before:=minimum]> (node_keys node)) (node_children node) (node_count node))
      end
  end.

(** The child just changed is dropped when it is empty, else its separator is
    refreshed; the index of the child to merge is returned. *)
Definition pruneChild (fuel : nat) (node : treeNode) (childIndex : nat) : result (treeNode * nat) :=
  match node_children node !! childIndex with
  | None => Err ErrPanic
  | Some childRef =>
      let* child := load childRef in
      if node_count child =? 0 then
        let children := remove_at (node_children node) childIndex in
        let '(keys, childIndex) :=
          match childIndex with
          | O => (match node_keys node with _ :: keys => keys | [] => [] end, O)
          | S before => (remove_at (node_keys node) before, before)
          end in
        match children with
        | [] => Ok (mk_leaf [] [] (node_count node), childIndex)
        | _ => Ok (mk_branch keys children (node_count node), childIndex)
        end
      else
        let* node := setMinimum fuel node childIndex in
        Ok (node, childIndex)
  end.

(** Merging the changed child with a neighbour when the two fit one page. *)
Definition mergeStep (fuel : nat) (node : treeNode) (childIndex : nat) : result (treeNode * Z) :=
  let len := length (node_children node) in
  if negb (node_leaf node) && (1 <? len)%nat then
    let mergeIndex := if (len - 1 <=? childIndex)%nat then (childIndex - 1)%nat else childIndex in
    let* merged := mergeChildren node mergeIndex in
    match merged with
    | None => Ok (node, 0)
    | Some node =>
        let* node := setMinimum fuel node mergeIndex in
        Ok (node, 1)
    end
  else Ok (node, 0).

(** [delete]: whether the key was there, the changed subtree, and the splits and
    merges made. *)
Fixpoint delete (fuel : nat) (ref : nodeRef) (key : bytes) : result (bool * change * (Z * Z)) :=
  match fuel with
  | O => Err ErrFuel
  | S fuel' =>
      let* node := load ref in
      let position := key_position (node_keys node) key in
      if node_leaf node then
        if negb (key_at (node_keys node) position key) then Ok (false, (ref, None), (0, 0))
        else
          let node := mk_leaf (remove_at (node_keys node) position)
                        (remove_at (node_values node) position) (to_u64 (node_count node - 1)) in
          Ok (true, (mk_ref (ref_pageID ref) (node_count node) (Some node), None), (0, 0))
      else
        let childIndex := child_position (node_keys node) key in
        match node_children node !! childIndex with
        | None => Err ErrPanic
        | Some child =>
            let* (removed, c, counts) := delete fuel' child key in
            if negb removed then Ok (false, (ref, None), counts)
            else
              let node := replaceChild node childIndex c (to_u64 (node_count node - 1)) in
              let* (node, childIndex) := pruneChild fuel' node childIndex in
              let* (node, merges) := mergeStep fuel' node childIndex in
              let* (c, splits) := splitBranch ref node in
              Ok (true, c, (counts.1 + splits, counts.2 + merges))
        end
  end.

(** The loop that drops empty and single-child roots. *)
Fixpoint collapseRoot (fuel : nat) (root : nodeRef) : result nodeRef :=
  match fuel with
  | O => Err ErrFuel
  | S fuel =>
      let* node := load root in
      if node_leaf node || negb (zlen (node_keys node) =? 0) then Ok root
      else
        match node_children node with
        | [] => if node_count node =? 0 then Ok (mk_ref 0 0 (Some (mk_leaf [] [] 0))) else Err ErrCorrupt
        | [child] => collapseRoot fuel child
        | _ => Err ErrCorrupt
        end
  end.

Definition Delete (fuel : nat) (root : nodeRef) (key : bytes) : result (bool * nodeRef * (Z * Z)) :=
  if zlen key =? 0 then Err ErrCorrupt
  else
    let* (removed, c, counts) := delete fuel root key in
    if negb removed then Ok (false, root, counts)
    else
      let* root := collapseRoot fuel (growRoot c) in
      Ok (true, root, counts).

(** ** Scans *)

(** The leaf loop: the entries from [start] on, while below [end_] and the limit. *)
Fixpoint scanLeaf (entries : list KeyValue) (end_ : bytes) (limit : Z) (result : list KeyValue) : list KeyValue :=
  match entries with
  | [] => result
  | (k, v) :: entries =>
      if negb (beqb end_ []) && negb (bltb k end_) then result
      else
        let result := result ++ [(k, v)] in
        if (0 <? limit) && (limit <=? zlen result) then result
        else scanLeaf entries end_ limit result
  end.

(** The children loop; [separators] are the keys before the children left. *)
Fixpoint scanChildren (scan : nodeRef -> list KeyValue -> result (list KeyValue))
    (children : list nodeRef) (separators : list (option bytes)) (end_ : bytes) (limit : Z)
    (out : list KeyValue) : result (list KeyValue) :=
  match children, separators with
  | child :: children, before :: separators =>
      if (match before with Some k => negb (beqb end_ []) && negb (bltb k end_) | None => false end) then Ok out
      else
        let* out := scan child out in
        if (0 <? limit) && (limit <=? zlen out) then Ok out
        else scanChildren scan children separators end_ limit out
  | _, _ => Ok out
  end.

Fixpoint scan (fuel : nat) (ref : nodeRef) (start end_ : bytes) (limit : Z) (out : list KeyValue) : result (list KeyValue) :=
  match fuel with
  | O => Err ErrFuel
  | S fuel =>
      if (0 <? limit) && (limit <=? zlen out) then Ok out
      else
        let* node := load ref in
        if node_leaf node then
          let position := if beqb start [] then O else key_position (node_keys node) start in
          Ok (scanLeaf (drop position (zip (node_keys node) (node_values node))) end_ limit out)
        else
          let childIndex := if beqb start [] then O else scan_position (node_keys node) start in
          scanChildren (fun child out => scan fuel child start end_ limit out)
            (drop childIndex (node_children node)) (drop childIndex (None :: (Some <$> node_keys node)))
            end_ limit out
  end.

Definition Scan (fuel : nat) (root : nodeRef) (start end_ : bytes) (limit : Z) : result (list KeyValue) :=
  if negb (beqb start []) && negb (beqb end_ []) && bltb end_ start then Err ErrCorrupt
  else scan fuel root start end_ limit [].
End Tree.

(** ** Flushing *)

Section Flush.
Context {T : Type} `{PageStore T}.
Variable kind : TreeKind.

Section Children.
Variable flush : T -> nodeRef -> result (nodeRef * T).

Fixpoint flushChildren (tx : T) (children : list nodeRef) : result (list nodeRef * T) :=
  match children with
  | [] => Ok ([], tx)
  | child :: children =>
      let* (child, tx) := flush tx child in
      let* (children, tx) := flushChildren tx children in
      Ok (child :: children, tx)
  end.
End Children.

(** The flushed reference carries the page it was written to. *)
Fixpoint flush (tx : T) (ref : nodeRef) : result (nodeRef * T) :=
  match ref with
  | mk_ref pageID count None => if pageID =? 0 then Err ErrCorrupt else Ok (ref, tx)
  | mk_ref pageID count (Some (mk_node leaf dirty keys values children node_count)) =>
      if negb (pageID =? 0) && negb dirty then Ok (ref, tx)
      else
        let* (children, tx) := if leaf then Ok (children, tx) else flushChildren flush tx children in
        let* payload := encodeTreeNode (mk_node leaf dirty keys values children node_count) in
        let pageType := if leaf then (treePageTypes kind).1 else (treePageTypes kind).2 in
        let* (pageID, tx) := appendPage tx pageType 0 (zlen keys) 0 payload in
        Ok (mk_ref pageID node_count (Some (mk_node leaf false keys values children node_count)), tx)
  end.

(** The root page and the transaction after the writes. *)
Definition Flush (tx : T) (root : nodeRef) : result (Z * T) :=
  let* (root, tx) := flush tx root in Ok (ref_pageID root, tx).
End Flush.
