(* ===== verification/TreeShape.v ===== *)
(** * What a tree holds

    The entries a subtree of [CowTree] represents, its separators as intervals,
    and the search positions in sorted keys. *)
From S2P Require Import Prelude Bytes Layout Hashes PageFormat Entries NodeCodec CowTree.

(** ** Positions in sorted keys *)

Abbreviation sorted_list := (StronglySorted blt).

Lemma sorted_list_app (l1 l2 : list bytes) :
  sorted_list (l1 ++ l2) <->
  sorted_list l1 /\ sorted_list l2 /\ Forall (fun x => Forall (blt x) l2) l1.
Proof.
  induction l1 as [|x l1 IH]; cbn.
  - split; [intros H; repeat split; [constructor|done|constructor]|by intros (_ & H & _)].
  - rewrite Forall_cons. split.
    + intros H. inversion H as [|? ? Hs Hf]; subst. apply IH in Hs as (H1 & H2 & H3).
      apply Forall_app in Hf as [Hf1 Hf2]. repeat split; try done. by constructor.
    + intros (H1 & H2 & Hx & H3). inversion H1; subst. constructor; [by apply IH|].
      by apply Forall_app.
Qed.

(** A search for the first element with a property that is monotone along the
    list splits the list. *)
Lemma search_split (p : bytes -> bool) (keys : list bytes) :
  (forall a b x y, (a <= b)%nat -> keys !! a = Some x -> keys !! b = Some y -> p x = true -> p y = true) ->
  exists l1 l2, keys = l1 ++ l2 /\
    sort_Search (length keys) (fun i => match keys !! i with Some k => p k | None => true end) = length l1 /\
    Forall (fun k => p k = false) l1 /\ Forall (fun k => p k = true) l2.
Proof.
  intros Hm.
  set (f := fun i : nat => match keys !! i with Some k => p k | None => true end). destruct (sort_Search_spec (length keys) f) as (Hle & Hlo & Hhi).
  { intros a b Hab. unfold f. destruct (lookup_lt_is_Some_2 keys a ltac:(lia)) as [x Hx].
    destruct (lookup_lt_is_Some_2 keys b ltac:(lia)) as [y Hy]. rewrite Hx, Hy. apply (Hm a b); [lia|done|done]. }
  set (r := sort_Search (length keys) f) in *.
  exists (take r keys), (drop r keys). split; [by rewrite take_drop|].
  split; [rewrite length_take; lia|]. split; apply Forall_lookup; intros i x Hx.
  - apply lookup_take_Some in Hx as [Hx Hi]. specialize (Hlo i Hi). unfold f in Hlo. by rewrite Hx in Hlo.
  - rewrite lookup_drop in Hx. assert (Hlt := lookup_lt_Some _ _ _ Hx).
    specialize (Hhi (r + i)%nat ltac:(lia)). unfold f in Hhi. by rewrite Hx in Hhi.
Qed.

Lemma sorted_lookup_le (keys : list bytes) a b x y :
  sorted_list keys -> (a <= b)%nat -> keys !! a = Some x -> keys !! b = Some y -> ~ blt y x.
Proof.
  intros Hs Hab Hx Hy Hlt. destruct (decide (a = b)) as [->|].
  { rewrite Hx in Hy. injection Hy as ->. by apply blt_irrefl in Hlt. }
  apply take_drop_middle in Hx. rewrite <- Hx in Hs, Hy.
  rewrite (cons_middle x), app_assoc in Hs, Hy. apply sorted_list_app in Hs as (_ & _ & Hs).
  apply Forall_app in Hs as [_ Hs]. apply Forall_cons in Hs as [Hs _].
  assert (Hlen : (length (take a keys ++ [x]) <= b)%nat).
  { rewrite length_app, length_take. cbn. lia. }
  rewrite lookup_app_r in Hy by done. rewrite Forall_lookup in Hs.
  specialize (Hs _ _ Hy). apply (blt_irrefl x). by eapply blt_trans.
Qed.

Lemma key_position_split keys key :
  sorted_list keys ->
  exists l1 l2, keys = l1 ++ l2 /\ key_position keys key = length l1 /\
    Forall (fun k => blt k key) l1 /\ Forall (fun k => ~ blt k key) l2.
Proof.
  intros Hs. destruct (search_split (fun k => negb (bltb k key)) keys) as (l1 & l2 & -> & Hp & H1 & H2).
  - intros a b x y Hab Hx Hy. rewrite !negb_true_iff, !bltb_ge. intros Hkx Hky.
    pose proof (sorted_lookup_le _ _ _ _ _ Hs Hab Hx Hy) as Hxy.
    destruct (blt_trichotomy x y) as [?|[->|?]]; [|done|done].
    apply Hkx. by eapply blt_trans.
  - exists l1, l2. split; [done|]. split; [done|]. split; eapply Forall_impl; try done; intros k Hk.
    + apply negb_false_iff in Hk. by apply bltb_lt.
    + apply negb_true_iff in Hk. by apply bltb_ge.
Qed.

Lemma key_at_split l1 l2 key :
  key_at (l1 ++ l2) (length l1) key = match l2 with k :: _ => beqb k key | [] => false end.
Proof.
  unfold key_at. rewrite lookup_app_r, Nat.sub_diag by done. by destruct l2.
Qed.

(** The child position separates the keys at most [key] from the greater ones. *)
Lemma child_position_split keys key :
  sorted_list keys ->
  exists l1 l2, keys = l1 ++ l2 /\ child_position keys key = length l1 /\
    Forall (fun k => ~ blt key k) l1 /\ Forall (blt key) l2.
Proof.
  intros Hs. destruct (key_position_split keys key Hs) as (l1 & l2 & -> & Hp & H1 & H2).
  unfold child_position. rewrite Hp, key_at_split. apply sorted_list_app in Hs as (_ & Hs2 & _).
  assert (H1' : Forall (fun k => ~ blt key k) l1).
  { eapply Forall_impl; [exact H1|]. intros k Hk Hk'. by apply (blt_asym k key). }
  destruct l2 as [|k l2].
  { exists l1, []. by rewrite app_nil_r. }
  apply Forall_cons in H2 as [Hk H2]. inversion Hs2 as [|? ? _ Hkl]; subst.
  destruct (beqb k key) eqn:E.
  - apply beqb_eq in E as ->. exists (l1 ++ [key]), l2. rewrite <- app_assoc.
    split; [done|]. split; [rewrite length_app; cbn; lia|]. split; [|done].
    apply Forall_app. split; [done|]. constructor; [apply blt_irrefl|constructor].
  - apply beqb_neq in E. exists l1, (k :: l2). split; [done|]. split; [done|]. split; [done|].
    assert (blt key k) by (destruct (blt_trichotomy key k) as [?|[?|?]]; congruence || done).
    constructor; [done|]. eapply Forall_impl; [exact Hkl|]. intros x Hx. by eapply blt_trans.
Qed.

Lemma scan_position_split keys start :
  sorted_list keys ->
  exists l1 l2, keys = l1 ++ l2 /\ scan_position keys start = length l1 /\
    Forall (fun k => ~ blt start k) l1 /\ Forall (blt start) l2.
Proof.
  intros Hs. destruct (search_split (bltb start) keys) as (l1 & l2 & -> & Hp & H1 & H2).
  - intros a b x y Hab Hx Hy. rewrite !bltb_lt. intros Hkx.
    pose proof (sorted_lookup_le _ _ _ _ _ Hs Hab Hx Hy) as Hxy.
    destruct (blt_trichotomy x y) as [?|[->|?]]; [by eapply blt_trans|done|done].
  - exists l1, l2. split; [done|]. split; [done|]. split; eapply Forall_impl; try done; intros k Hk.
    + by apply bltb_ge.
    + by apply bltb_lt.
Qed.

(** ** Leaves *)

(** The leaf positions, on entries. *)
Lemma leaf_split {A} (l : list (bytes * A)) key :
  sorted_keys l ->
  exists l1 l2, l = l1 ++ l2 /\ key_position l.*1 key = length l1 /\
    Forall (fun x => blt x key) l1.*1 /\
    ((exists v l2', l2 = (key, v) :: l2' /\ Forall (blt key) l2'.*1 /\ key_at l.*1 (length l1) key = true) \/
     (Forall (blt key) l2.*1 /\ key_at l.*1 (length l1) key = false)).
Proof.
  intros Hs. destruct (key_position_split _ key Hs) as (k1 & k2 & Hk & Hp & H1 & H2).
  assert (exists l1 l2, l = l1 ++ l2 /\ l1.*1 = k1 /\ l2.*1 = k2) as (l1 & l2 & -> & <- & <-).
  { apply fmap_app_inv in Hk as (l1 & l2 & -> & -> & ->). eauto. }
  exists l1, l2. split; [done|]. split; [by rewrite Hp, length_fmap|]. split; [done|].
  unfold sorted_keys in Hs. rewrite fmap_app in Hs |- *. rewrite <- (length_fmap fst l1), key_at_split.
  apply sorted_list_app in Hs as (_ & Hs2 & _).
  destruct l2 as [|[k v] l2]; [right; split; [constructor|done]|]. cbn in *.
  apply Forall_cons in H2 as [Hk2 _]. inversion Hs2 as [|? ? _ Hkl]; subst.
  destruct (beqb k key) eqn:E.
  - apply beqb_eq in E as ->. left. eauto.
  - apply beqb_neq in E. right. split; [|done].
    assert (blt key k) by (destruct (blt_trichotomy key k) as [?|[?|?]]; congruence || done).
    constructor; [done|]. eapply Forall_impl; [exact Hkl|]. intros x Hx. by eapply blt_trans.
Qed.

Lemma field_above {A} (l : list (bytes * A)) key : Forall (blt key) l.*1 -> field l key = None.
Proof.
  intros H. apply field_None. intros Hin. rewrite Forall_forall in H.
  by apply H, blt_irrefl in Hin.
Qed.
