(* ===== verification/TreeInvariant.v ===== *)
(** * The tree invariant

    [rep h ref l]: the subtree at [ref] has height [h] and holds exactly the
    sorted entries [l]; every node of it fits a page and knows its count. *)
From S2P Require Import Prelude Bytes Layout Hashes PageFormat Entries NodeCodec CowTree.
From S2P Require Import TreeShape.

(** ** Pieces between separators *)

Definition above (lo : option bytes) (k : bytes) : Prop :=
  match lo with Some b => ~ blt k b | None => True end.
Definition below (hi : option bytes) (k : bytes) : Prop :=
  match hi with Some b => blt k b | None => True end.

(** The entries of one child: sorted, not empty, within its separators. *)
Definition piece (lo : option bytes) (l : list KeyValue) (hi : option bytes) : Prop :=
  l <> [] /\ sorted_keys l /\ Forall (fun k => above lo k /\ below hi k) l.*1.

(** The children of a branch, in their order. *)
Fixpoint chain (lo : option bytes) (ls : list (list KeyValue)) (keys : list bytes) (hi : option bytes) : Prop :=
  match ls, keys with
  | [l], [] => piece lo l hi
  | l :: ls, k :: keys => piece lo l (Some k) /\ chain (Some k) ls keys hi
  | _, _ => False
  end.

(** The children left of a position, and the separator before it. *)
Fixpoint chain_left (lo : option bytes) (ls : list (list KeyValue)) (keys : list bytes) (mid : option bytes) : Prop :=
  match ls, keys with
  | [], [] => mid = lo
  | l :: ls, k :: keys => piece lo l (Some k) /\ chain_left (Some k) ls keys mid
  | _, _ => False
  end.

(** The children right of a position, and the separator after it. *)
Definition chain_right (mid : option bytes) (ls : list (list KeyValue)) (keys : list bytes) (hi : option bytes) : Prop :=
  match ls, keys with
  | [], [] => mid = hi
  | _ :: _, k :: keys => mid = Some k /\ chain (Some k) ls keys hi
  | _, _ => False
  end.

Lemma chain_cons lo l l' ls k keys hi :
  chain lo (l :: l' :: ls) (k :: keys) hi <-> piece lo l (Some k) /\ chain (Some k) (l' :: ls) keys hi.
Proof. done. Qed.

Lemma chain_length lo ls keys hi : chain lo ls keys hi -> length ls = S (length keys).
Proof.
  revert lo keys; induction ls as [|l ls IH]; intros lo keys H; [done|].
  destruct ls as [|l' ls], keys as [|k keys]; cbn in *; try done.
  - by destruct H as [_ H].
  - destruct H as [_ H]. f_equal. by apply (IH (Some k)).
Qed.

Lemma chain_right_cons lo l ls keys hi :
  chain lo (l :: ls) keys hi <-> exists mid, piece lo l mid /\ chain_right mid ls keys hi.
Proof.
  destruct ls as [|l' ls], keys as [|k keys]; cbn.
  - split; [eauto|intros (m & H & ->); done].
  - split; [by intros [_ []]|by intros (m & _ & [])].
  - split; [done|by intros (m & _ & [])].
  - split; [intros [H1 H2]; eauto|by intros (m & H1 & -> & H2)].
Qed.

(** A hole at a position. *)
Lemma chain_hole lo ls1 l ls2 ks1 ks2 hi :
  length ls1 = length ks1 ->
  chain lo (ls1 ++ l :: ls2) (ks1 ++ ks2) hi <->
  exists m1 m2, chain_left lo ls1 ks1 m1 /\ piece m1 l m2 /\ chain_right m2 ls2 ks2 hi.
Proof.
  revert lo ks1; induction ls1 as [|l1 ls1 IH]; intros lo [|k ks1] Hlen; try done; cbn [app].
  - rewrite chain_right_cons. cbn. split; [intros (m & H1 & H2); eauto|intros (m1 & m2 & -> & H); eauto].
  - injection Hlen as Hlen. cbn [chain_left].
    assert (chain lo (l1 :: ls1 ++ l :: ls2) (k :: ks1 ++ ks2) hi <->
      piece lo l1 (Some k) /\ chain (Some k) (ls1 ++ l :: ls2) (ks1 ++ ks2) hi) as ->.
    { cbn. by destruct ls1. }
    rewrite (IH (Some k) ks1 Hlen). split.
    + intros (H & m1 & m2 & H1 & H2). exists m1, m2. tauto.
    + intros (m1 & m2 & [H H1] & H2). eauto.
Qed.

(** Cutting a chain at a separator. *)
Lemma chain_app lo ls1 ls2 ks1 k ks2 hi :
  length ls1 = S (length ks1) ->
  chain lo (ls1 ++ ls2) (ks1 ++ k :: ks2) hi <->
  chain lo ls1 ks1 (Some k) /\ chain (Some k) ls2 ks2 hi.
Proof.
  revert lo ks1; induction ls1 as [|l1 ls1 IH]; intros lo ks1 Hlen; [done|].
  destruct ks1 as [|k1 ks1]; cbn [app].
  - destruct ls1; [|done]. cbn [app]. destruct ls2; cbn; tauto.
  - injection Hlen as Hlen. destruct ls1 as [|l2 ls1]; [done|].
    specialize (IH (Some k1) ks1 Hlen). cbn [app] in *. rewrite !chain_cons, IH. tauto.
Qed.

Lemma chain_hole_two lo ls1 l l' ls2 ks1 k ks2 hi :
  length ls1 = length ks1 ->
  chain lo (ls1 ++ l :: l' :: ls2) (ks1 ++ k :: ks2) hi <->
  exists m1 m2, chain_left lo ls1 ks1 m1 /\ piece m1 l (Some k) /\ piece (Some k) l' m2 /\
    chain_right m2 ls2 ks2 hi.
Proof.
  intros Hlen. rewrite chain_hole by done. cbn [chain_right]. setoid_rewrite chain_right_cons.
  split.
  - intros (m1 & m2 & H1 & H2 & -> & m3 & H3 & H4). eauto 10.
  - intros (m1 & m2 & H1 & H2 & H3 & H4). eauto 10.
Qed.

(** ** What a chain says of all its entries *)

Lemma piece_sorted lo l hi : piece lo l hi -> sorted_keys l.
Proof. by intros (_ & H & _). Qed.

Lemma piece_bounds lo l hi : piece lo l (Some hi) -> Forall (fun k => blt k hi) l.*1.
Proof. intros (_ & _ & H). eapply Forall_impl; [exact H|]. by intros k [_ ?]. Qed.

Lemma piece_sep lo l hi : piece (Some lo) l (Some hi) -> blt lo hi.
Proof.
  intros (Hne & _ & H). destruct l as [|[k v] l]; [done|]. cbn in H.
  apply Forall_cons in H as [[H1 H2] _]. cbn in *.
  destruct (blt_trichotomy lo k) as [?|[->|?]]; [by eapply blt_trans|done|done].
Qed.

Lemma above_trans lo k x : match lo with Some b => blt b k | None => True end -> ~ blt x k -> above lo x.
Proof.
  destruct lo as [b|]; cbn; [|done]. intros Hb Hx Hxb. apply Hx. by eapply blt_trans.
Qed.

Lemma chain_bounds lo ls keys hi :
  chain lo ls keys hi -> Forall (fun k => above lo k) (concat ls).*1.
Proof.
  revert lo keys; induction ls as [|l ls IH]; intros lo keys H; [constructor|].
  cbn [concat]. rewrite fmap_app, Forall_app.
  apply chain_right_cons in H as (mid & Hp & Hr). split.
  { destruct Hp as (_ & _ & Hp). eapply Forall_impl; [exact Hp|]. by intros k [? _]. }
  destruct ls as [|l' ls]; [constructor|]. destruct keys as [|k keys]; [done|].
  destruct Hr as [-> Hr]. specialize (IH _ _ Hr). eapply Forall_impl; [exact IH|].
  intros x Hx. apply (above_trans lo k); [|done]. destruct lo as [b|]; [|done]. by eapply piece_sep.
Qed.

Lemma chain_sorted lo ls keys hi : chain lo ls keys hi -> sorted_keys (concat ls).
Proof.
  revert lo keys; induction ls as [|l ls IH]; intros lo keys H; [constructor|].
  apply chain_right_cons in H as (mid & Hp & Hr). cbn [concat]. apply sorted_keys_app.
  split; [by eapply piece_sorted|].
  destruct ls as [|l' ls]; [split; [constructor|]|].
  { apply Forall_forall. intros; constructor. }
  destruct keys as [|k keys]; [done|]. destruct Hr as [-> Hr]. split; [by eapply IH|].
  pose proof (chain_bounds _ _ _ _ Hr) as Hb. apply piece_bounds in Hp.
  eapply Forall_impl; [exact Hp|]. intros x Hx. eapply Forall_impl; [exact Hb|].
  intros y Hy. cbn in Hx, Hy |- *. destruct (blt_trichotomy k y) as [?|[<-|?]]; [eauto using blt_trans|done|done].
Qed.

Lemma chain_keys_sorted lo ls keys hi : chain lo ls keys hi -> sorted_list keys /\
  Forall (fun k => match lo with Some b => blt b k | None => True end) keys.
Proof.
  revert lo keys; induction ls as [|l ls IH]; intros lo keys H; [done|].
  destruct ls as [|l' ls], keys as [|k keys]; cbn in H; try done.
  - split; constructor.
  - by destruct H.
  - destruct H as [Hp H]. apply IH in H as [Hs Hf].
    assert (match lo with Some b => blt b k | None => True end).
    { destruct lo; [|done]. by eapply piece_sep. }
    split; [by constructor|]. constructor; [done|].
    eapply Forall_impl; [exact Hf|]. intros x Hx. cbn in Hx. destruct lo; [|done]. by eapply blt_trans.
Qed.

Lemma chain_left_bounds lo ls keys mid :
  chain_left lo ls keys mid ->
  Forall (fun k => below mid k) (concat ls).*1 /\ (ls = [] \/ exists b, mid = Some b).
Proof.
  revert lo keys; induction ls as [|l ls IH]; intros lo [|k keys] H; try done; cbn in *.
  { split; [constructor|by left]. }
  destruct H as [Hp H]. pose proof (IH _ _ H) as [Hf Hm]. rewrite fmap_app, Forall_app.
  destruct ls as [|l' ls].
  - destruct keys; [|done]. cbn in H. subst. split; [|eauto]. split; [|constructor].
    by apply (piece_bounds lo).
  - destruct Hm as [?|[b ->]]; [done|]. split; [|eauto]. split; [|done].
    apply piece_bounds in Hp. eapply Forall_impl; [exact Hp|]. intros x Hx. cbn.
    destruct keys as [|k' keys]; [done|]. eapply blt_trans; [exact Hx|].
    clear -H. assert (forall ls ks c, chain_left (Some c) ls ks (Some b) -> c = b \/ blt c b) as Hgen.
    { clear. induction ls as [|l ls IH]; intros [|k ks] c H; try done; cbn in H.
      - injection H as ->. by left.
      - destruct H as [Hp H]. apply piece_sep in Hp. apply IH in H as [<-|H]; right; [done|by eapply blt_trans]. }
    cbn in H. destruct H as [Hp H]. apply piece_sep in Hp. apply Hgen in H as [<-|H]; [done|by eapply blt_trans].
Qed.

Lemma chain_right_bounds mid ls keys hi :
  chain_right mid ls keys hi -> Forall (fun k => above mid k) (concat ls).*1.
Proof.
  destruct ls as [|l ls], keys as [|k keys]; try done.
  intros [-> H]. by eapply chain_bounds.
Qed.

(** Dropping the outer bounds. *)
Lemma piece_weaken lo l hi : piece lo l hi -> piece None l hi /\ piece lo l None.
Proof.
  intros (H1 & H2 & H3). split; (split; [done|split; [done|]]);
    (eapply Forall_impl; [exact H3|]; cbn; tauto).
Qed.

Lemma chain_weaken lo ls keys hi : chain lo ls keys hi -> chain None ls keys None.
Proof.
  assert (Hr : forall ls lo keys, chain lo ls keys hi -> chain lo ls keys None).
  { clear. induction ls as [|l ls IH]; intros lo keys H; [done|].
    destruct ls as [|l' ls], keys as [|k keys]; try done.
    - exact (proj2 (piece_weaken _ _ _ H)).
    - apply chain_cons in H as [? H]. apply chain_cons. split; [done|]. by apply IH. }
  intros H%Hr. destruct ls as [|l [|l' ls]], keys as [|k keys]; try done.
  - exact (proj1 (piece_weaken _ _ _ H)).
  - cbn in H. tauto.
  - apply chain_cons in H as [H1 H]. apply chain_cons. split; [|done].
    exact (proj1 (piece_weaken _ _ _ H1)).
Qed.

Lemma chain_nonempty lo ls keys hi : chain lo ls keys hi -> concat ls <> [].
Proof.
  destruct ls as [|l ls]; [done|]. intros H. apply chain_right_cons in H as (mid & (Hne & _) & _).
  cbn. by destruct l.
Qed.

Lemma chain_below lo ls keys hi :
  chain lo ls keys (Some hi) -> Forall (fun k => blt k hi) (concat ls).*1.
Proof.
  revert lo keys; induction ls as [|l ls IH]; intros lo keys H; [constructor|].
  destruct ls as [|l' ls], keys as [|k keys]; try done.
  - cbn [concat]. rewrite app_nil_r. by eapply piece_bounds.
  - by destruct H.
  - apply chain_cons in H as [Hp H]. cbn [concat]. rewrite fmap_app, Forall_app.
    pose proof (IH _ _ H) as Hf. split; [|done]. apply piece_bounds in Hp.
    pose proof (chain_bounds _ _ _ _ H) as Hb. pose proof (chain_nonempty _ _ _ _ H) as Hne.
    destruct (concat (l' :: ls)) as [|[x v] rest]; [done|]. cbn in Hf, Hb.
    apply Forall_cons in Hf as [Hx _]. apply Forall_cons in Hb as [Hk _].
    assert (blt k hi).
    { destruct (blt_trichotomy k x) as [?|[->|?]]; [by eapply blt_trans|done|done]. }
    eapply Forall_impl; [exact Hp|]. intros y Hy. cbn in Hy. by eapply blt_trans.
Qed.

(** ** Split positions *)

Lemma entryPrefix_spec node i n acc prefix :
  node_shape node -> (i + n = length (node_keys node))%nat ->
  entryPrefix node i n acc = Some prefix ->
  forall j, (j <= n)%nat ->
    at_ prefix j = acc + 8 * Z.of_nat j + entries_size (take j (drop i (nodeEntries node))).
Proof.
  intros Hs. revert i acc prefix; induction n as [|n IH]; intros i acc prefix Hin H j Hj; cbn in H.
  - injection H as <-. assert (j = O) as -> by lia. rewrite take_0, entries_size_nil. unfold at_. cbn. lia.
  - destruct (treeNodeEntryEncodedSize node i) as [s|] eqn:E; [|done].
    apply entryEncodedSize_spec in E as (k & e & _ & He & _ & -> & _); [|done].
    apply obind_some in H as (rest & Hrest & [= <-]). destruct j as [|j].
    + rewrite take_0, entries_size_nil. unfold at_. cbn. lia.
    + change (at_ (acc :: rest) (S j)) with (at_ rest j).
      rewrite (IH (S i) _ rest) by (done || lia).
      rewrite (drop_S _ _ _ He). cbn [take]. rewrite entries_size_cons. lia.
Qed.

Lemma entryPrefix_some node i n acc :
  node_shape node -> Forall key_ok (node_keys node) ->
  (node_leaf node = true -> Forall (fun v => zlen v < 2 ^ 32) (node_values node)) ->
  (i + n = length (node_keys node))%nat -> exists prefix, entryPrefix node i n acc = Some prefix.
Proof.
  intros Hs Hk Hv. revert i acc; induction n as [|n IH]; intros i acc Hin; cbn; [eauto|].
  destruct (lookup_lt_is_Some_2 (node_keys node) i ltac:(lia)) as [k Ek].
  destruct (lookup_lt_is_Some_2 (nodeEntries node) i) as [e Ee]; [rewrite length_nodeEntries by done; lia|].
  assert (treeNodeEntryEncodedSize node i = Ok (zlen e)) as ->.
  { apply entryEncodedSize_spec; [done|]. exists k, e. repeat split; try done.
    1, 2: rewrite Forall_lookup in Hk; by apply (Hk i k).
    intros Hl. unfold nodeEntries in Ee. rewrite Hl in Ee. rewrite lookup_zip_with, Ek in Ee.
    cbn in Ee. destruct (node_values node !! i) as [v|] eqn:Ev; [|done]. injection Ee as <-.
    specialize (Hv Hl). rewrite Forall_lookup in Hv. specialize (Hv _ _ Ev). rewrite zlen_leafEntry. lia. }
  destruct (IH (S i) (acc + 8 + zlen e) ltac:(lia)) as [rest ->]. cbn. eauto.
Qed.

(** The sizes of the two halves fit. *)
Definition halves_fit (sizes : nat -> Z * Z) (i : nat) : Prop :=
  (sizes i).1 <= capacity /\ (sizes i).2 <= capacity.

Lemma splitLoop_sound sizes n i best b L S :
  splitLoop sizes n i best = Some (b, L, S) ->
  best = Some (b, L, S) \/ ((i <= b < i + n)%nat /\ halves_fit sizes b) \/
  exists L' S', best = Some (b, L', S').
Proof.
  revert i best; induction n as [|n IH]; intros i best H; cbn in H; [by left|].
  destruct (sizes i) as [l r] eqn:E. destruct ((capacity <? l) || (capacity <? r)) eqn:Ec.
  - apply IH in H as [?|[[? ?]|?]]; [by left|right; left; split; [lia|done]|by right; right].
  - breflect. apply IH in H as [H|[[? ?]|(L' & S' & H)]].
    + destruct (better _ _ best); [|by left]. injection H as <- <- <-. right. left. split; [lia|].
      unfold halves_fit. rewrite E. cbn. lia.
    + right. left. split; [lia|done].
    + destruct (better _ _ best); [|right; right; eauto]. injection H as <- <- <-.
      right. left. split; [lia|]. unfold halves_fit. rewrite E. cbn. lia.
Qed.

Lemma splitLoop_complete sizes n i best j :
  (i <= j < i + n)%nat -> halves_fit sizes j -> exists r, splitLoop sizes n i best = Some r.
Proof.
  assert (Hsome : forall n i best, best <> None -> exists r, splitLoop sizes n i best = Some r).
  { clear. induction n as [|n IH]; intros i best Hb; cbn; [destruct best; [eauto|done]|].
    destruct (sizes i). destruct (_ || _); [by apply IH|]. apply IH. by destruct (better _ _ best). }
  revert i best; induction n as [|n IH]; intros i best Hj Hf; cbn; [lia|].
  destruct (sizes i) as [l r] eqn:E. destruct ((capacity <? l) || (capacity <? r)) eqn:Ec.
  - destruct (decide (i = j)) as [->|]; [|apply IH; [lia|done]].
    unfold halves_fit in Hf. rewrite E in Hf. cbn in Hf. apply orb_true_iff in Ec as [?%Z.ltb_lt|?%Z.ltb_lt]; lia.
  - destruct best as [x|].
    + apply Hsome. by destruct (better _ _ (Some x)).
    + apply Hsome. done.
Qed.

(** Sizes of the entries before and after a position. *)
Definition size_to (node : treeNode) (i : nat) : Z :=
  8 * Z.of_nat i + entries_size (take i (nodeEntries node)).

Lemma size_to_all node : node_shape node -> size_to node (length (node_keys node)) = node_size node - 32.
Proof.
  intros Hs. unfold size_to, node_size, zlen. rewrite take_ge by (rewrite length_nodeEntries by done; lia). lia.
Qed.

Lemma size_to_S node i e : nodeEntries node !! i = Some e -> size_to node (S i) = size_to node i + 8 + zlen e.
Proof.
  intros He. unfold size_to. rewrite (take_S_r _ _ _ He), entries_size_app, entries_size_cons, entries_size_nil. lia.
Qed.

Lemma leaf_split_sound node b :
  node_shape node -> byteBalancedLeafSplit node = Some b ->
  node_leaf node = true /\ (1 <= b < length (node_keys node))%nat /\
  32 + size_to node b <= capacity /\
  32 + (size_to node (length (node_keys node)) - size_to node b) <= capacity.
Proof.
  intros Hs H. unfold byteBalancedLeafSplit in H.
  destruct (node_leaf node) eqn:El; [|done]. cbn [negb orb] in H.
  destruct (_ || _) eqn:Ec in H; [done|]. apply orb_false_iff in Ec as [Ec _]. apply Nat.ltb_ge in Ec.
  apply obind_some in H as (prefix & Hp & H). apply obind_some in H as ([[b' L] S] & H & [= ->]).
  apply splitLoop_sound in H as [?|[[Hb Hf]|(? & ? & ?)]]; [done| |done].
  pose proof (entryPrefix_spec node 0 _ 0 prefix Hs eq_refl Hp) as Hat. rewrite drop_0 in Hat.
  unfold halves_fit, leafSizes in Hf. cbn in Hf. rewrite !Hat in Hf by lia. unfold size_to.
  split; [done|]. split; [lia|]. lia.
Qed.

Lemma branch_split_sound node b :
  node_shape node -> byteBalancedBranchSplit node = Some b ->
  node_leaf node = false /\ (b < length (node_keys node))%nat /\
  32 + size_to node b <= capacity /\
  32 + (size_to node (length (node_keys node)) - size_to node (S b)) <= capacity.
Proof.
  intros Hs H. unfold byteBalancedBranchSplit in H.
  destruct (node_leaf node) eqn:El; [done|]. cbn [orb] in H.
  destruct (_ || _) eqn:Ec in H; [done|].
  apply obind_some in H as (prefix & Hp & H). apply obind_some in H as ([[b' L] S] & H & [= ->]).
  apply splitLoop_sound in H as [?|[[Hb Hf]|(? & ? & ?)]]; [done| |done].
  pose proof (entryPrefix_spec node 0 _ 0 prefix Hs eq_refl Hp) as Hat. rewrite drop_0 in Hat.
  unfold halves_fit, branchSizes in Hf. cbn [fst snd] in Hf. rewrite !Hat in Hf by lia. unfold size_to.
  split; [done|]. split; [lia|]. lia.
Qed.

(** The first position whose prefix passes a bound. *)
Lemma crossing (f : nat -> Z) n c : f O <= c -> c < f n -> exists i, (i < n)%nat /\ f i <= c /\ c < f (S i).
Proof.
  intros H0. induction n as [|n IH]; intros Hn; [lia|].
  destruct (Z.le_gt_cases (f n) c) as [Hle|Hgt]; [exists n; lia|].
  destruct (IH Hgt) as (i & ? & ? & ?). exists i. lia.
Qed.

Lemma branch_split_complete node :
  node_shape node -> node_leaf node = false -> Forall key_ok (node_keys node) ->
  capacity < node_size node -> node_size node <= 2 * capacity - 32 ->
  exists b, byteBalancedBranchSplit node = Some b.
Proof.
  intros Hs Hl Hk Hbig Hbound. pose proof (size_to_all node Hs) as Hall. unfold byteBalancedBranchSplit.
  assert (Hlen : length (node_keys node) <> O).
  { intros E. rewrite E in Hall. unfold size_to in Hall. rewrite take_0, entries_size_nil in Hall.
    change capacity with 16320 in *. lia. }
  rewrite Hl. destruct (Nat.eqb_spec (length (node_keys node)) 0); [done|]. unfold node_shape in *.
  pose proof Hs as Hs'. rewrite Hl in Hs'. rewrite Hs', Nat.eqb_refl. cbn [negb orb].
  destruct (entryPrefix_some node 0 (length (node_keys node)) 0 Hs Hk) as [prefix Hp]; [by rewrite Hl|done|].
  unfold treeNodeEntryPrefix. rewrite Hp. cbn [obind].
  pose proof (entryPrefix_spec node 0 _ 0 prefix Hs eq_refl Hp) as Hat. rewrite drop_0 in Hat.
  destruct (crossing (size_to node) (length (node_keys node)) (capacity - 32)) as (i & Hi & Hle & Hgt).
  { unfold size_to. rewrite take_0, entries_size_nil. by change capacity with 16320. }
  { lia. }
  destruct (splitLoop_complete (branchSizes prefix (length (node_keys node))) (length (node_keys node)) 0 None i)
    as [[[b L] S] ->]; [lia| |cbn; eauto].
  unfold halves_fit, branchSizes. cbn [fst snd]. rewrite !Hat by lia.
  change (0 + 8 * Z.of_nat ?j + entries_size (take ?j ?l)) with (size_to node j).
  unfold size_to in *. lia.
Qed.

(** An entry with its slot takes at most half of the space for entries. *)
Definition half_capacity : Z := (capacity - 32) / 2.
Definition small_entry (e : KeyValue) : Prop := 8 + (2 + 4 + zlen e.1 + zlen e.2) <= half_capacity.

(** A leaf with a boundary that leaves two halves that fit is split. *)
Lemma leaf_split_at node i :
  node_shape node -> node_leaf node = true -> Forall key_ok (node_keys node) ->
  Forall (fun e => zlen e < 2 ^ 32) (nodeEntries node) -> (1 <= i < length (node_keys node))%nat ->
  32 + size_to node i <= capacity -> 32 + (size_to node (length (node_keys node)) - size_to node i) <= capacity ->
  exists b, byteBalancedLeafSplit node = Some b.
Proof.
  intros Hs' Hl Hk He Hi H1 H2. unfold byteBalancedLeafSplit.
  assert (Hv : Forall (fun v => zlen v < 2 ^ 32) (node_values node)).
  { unfold nodeEntries, node_shape in *. rewrite Hl in *. apply Forall_lookup. intros j v Hj.
    destruct (lookup_lt_is_Some_2 (node_keys node) j) as [k Ek].
    { rewrite <- Hs'. by eapply lookup_lt_Some. }
    rewrite Forall_lookup in He. specialize (He j (leafEntry k v)).
    rewrite lookup_zip_with, Ek in He. cbn in He. rewrite Hj in He. specialize (He eq_refl).
    rewrite zlen_leafEntry in He. pose proof (zlen_nonneg k). lia. }
  assert (Hs : length (node_values node) = length (node_keys node)) by (unfold node_shape in Hs'; by rewrite Hl in Hs').
  rewrite Hl. destruct (Nat.ltb_spec (length (node_keys node)) 2); [lia|]. rewrite Hs, Nat.eqb_refl. cbn [negb orb].
  destruct (entryPrefix_some node 0 (length (node_keys node)) 0 Hs' Hk) as [prefix Hp]; [done|done|].
  unfold treeNodeEntryPrefix. rewrite Hp. cbn [obind].
  pose proof (entryPrefix_spec node 0 _ 0 prefix Hs' eq_refl Hp) as Hat. rewrite drop_0 in Hat.
  destruct (splitLoop_complete (leafSizes prefix (length (node_keys node))) (length (node_keys node) - 1) 1 None i)
    as [[[b L] S] ->]; [lia| |cbn; eauto].
  unfold halves_fit, leafSizes. cbn [fst snd]. rewrite !Hat by lia. unfold size_to in *. lia.
Qed.

Lemma leaf_split_complete node :
  node_shape node -> node_leaf node = true -> Forall key_ok (node_keys node) ->
  Forall (fun e => 8 + zlen e <= half_capacity) (nodeEntries node) ->
  capacity < node_size node -> node_size node <= capacity + half_capacity ->
  exists b, byteBalancedLeafSplit node = Some b.
Proof.
  intros Hs Hl Hk He Hbig Hbound. pose proof (size_to_all node Hs) as Hall.
  change half_capacity with 8144 in *. change capacity with 16320 in Hbig, Hbound.
  destruct (crossing (size_to node) (length (node_keys node)) (capacity - 32)) as (i & Hi & Hle & Hgt).
  { unfold size_to. rewrite take_0, entries_size_nil. by change capacity with 16320. }
  { change capacity with 16320. lia. }
  destruct (lookup_lt_is_Some_2 (nodeEntries node) i) as [e Ee]; [by rewrite length_nodeEntries|].
  assert (Hsmall : 8 + zlen e <= 8144) by (rewrite Forall_lookup in He; by eapply He).
  rewrite (size_to_S _ _ _ Ee) in Hgt. change capacity with 16320 in Hle, Hgt.
  assert (Hi1 : (1 <= i)%nat).
  { destruct i; [|lia]. unfold size_to in Hgt. rewrite take_0, entries_size_nil in Hgt. lia. }
  apply (leaf_split_at node i); [done|done|done| |lia|change capacity with 16320; lia|change capacity with 16320; lia].
  eapply Forall_impl; [exact He|]. cbn. intros x Hx. lia.
Qed.

(** ** The halves of a split *)

Lemma size_to_drop node i :
  node_shape node -> (i <= length (node_keys node))%nat ->
  8 * Z.of_nat (length (node_keys node) - i) + entries_size (drop i (nodeEntries node)) =
  size_to node (length (node_keys node)) - size_to node i.
Proof.
  intros Hs Hi. unfold size_to.
  rewrite (take_ge (nodeEntries node)) by (rewrite length_nodeEntries by done; lia).
  rewrite <- (take_drop i (nodeEntries node)) at 2. rewrite entries_size_app. lia.
Qed.

Lemma leaf_left_fits node b c :
  node_shape node -> node_leaf node = true -> Forall key_ok (node_keys node) ->
  (b <= length (node_keys node))%nat -> 32 + size_to node b <= capacity ->
  node_fits (mk_leaf (take b (node_keys node)) (take b (node_values node)) c).
Proof.
  intros Hs Hl Hk Hb Hc. unfold node_shape in Hs. rewrite Hl in Hs. split; [|split].
  - unfold node_shape. cbn. rewrite !length_take. lia.
  - cbn. by apply Forall_take.
  - unfold node_size, nodeEntries. cbn [node_leaf node_keys node_values mk_leaf]. rewrite <- zip_with_take.
    unfold size_to, nodeEntries in Hc. rewrite Hl in Hc. unfold zlen at 1. rewrite length_take. lia.
Qed.

Lemma leaf_right_fits node b c :
  node_shape node -> node_leaf node = true -> Forall key_ok (node_keys node) ->
  (b <= length (node_keys node))%nat ->
  32 + (size_to node (length (node_keys node)) - size_to node b) <= capacity ->
  node_fits (mk_leaf (drop b (node_keys node)) (drop b (node_values node)) c).
Proof.
  intros Hs Hl Hk Hb Hc. rewrite <- size_to_drop in Hc by done.
  unfold node_shape in Hs. rewrite Hl in Hs. split; [|split].
  - unfold node_shape. cbn. rewrite !length_drop. lia.
  - cbn. by apply Forall_drop.
  - unfold node_size, nodeEntries. cbn [node_leaf node_keys node_values mk_leaf]. rewrite <- zip_with_drop.
    unfold nodeEntries in Hc. rewrite Hl in Hc. unfold zlen at 1. rewrite length_drop. lia.
Qed.

Lemma branch_left_fits node b c :
  node_shape node -> node_leaf node = false -> Forall key_ok (node_keys node) ->
  (b < length (node_keys node))%nat -> 32 + size_to node b <= capacity ->
  node_fits (mk_branch (take b (node_keys node)) (take (S b) (node_children node)) c).
Proof.
  intros Hs Hl Hk Hb Hc. unfold node_shape in Hs. rewrite Hl in Hs. split; [|split].
  - unfold node_shape. cbn -[take]. rewrite !length_take. lia.
  - cbn. by apply Forall_take.
  - unfold node_size, nodeEntries. cbn [node_leaf node_keys node_children mk_branch].
    replace (drop 1 (take (S b) (node_children node))) with (take b (drop 1 (node_children node))).
    2: { destruct (node_children node); [done|]. cbn. by rewrite drop_0. }
    rewrite <- zip_with_take. unfold size_to, nodeEntries in Hc. rewrite Hl in Hc.
    unfold zlen at 1. rewrite length_take. lia.
Qed.

Lemma branch_right_fits node b c :
  node_shape node -> node_leaf node = false -> Forall key_ok (node_keys node) ->
  (b < length (node_keys node))%nat ->
  32 + (size_to node (length (node_keys node)) - size_to node (S b)) <= capacity ->
  node_fits (mk_branch (drop (S b) (node_keys node)) (drop (S b) (node_children node)) c).
Proof.
  intros Hs Hl Hk Hb Hc. rewrite <- size_to_drop in Hc by (done || lia).
  unfold node_shape in Hs. rewrite Hl in Hs. split; [|split].
  - unfold node_shape. cbn -[drop]. rewrite !length_drop. lia.
  - cbn. by apply Forall_drop.
  - unfold node_size, nodeEntries. cbn [node_leaf node_keys node_children mk_branch].
    replace (drop 1 (drop (S b) (node_children node))) with (drop (S b) (drop 1 (node_children node))).
    2: { rewrite !drop_drop. f_equal. lia. }
    rewrite <- zip_with_drop. unfold nodeEntries in Hc. rewrite Hl in Hc. unfold zlen at 1. rewrite length_drop. lia.
Qed.

Lemma nodeFits_spec node : nodeFits node = true <-> node_fits node.
Proof.
  unfold nodeFits, is_ok. destruct (treeNodeEncodedSize node) as [t|e] eqn:E.
  - apply treeNodeEncodedSize_spec in E as [? _]. tauto.
  - split; [done|]. intros Hf. assert (treeNodeEncodedSize node = Ok (node_size node)) as E'.
    { by apply treeNodeEncodedSize_spec. } congruence.
Qed.

Lemma nodeFits_false node :
  nodeFits node = false -> node_shape node -> Forall key_ok (node_keys node) -> capacity < node_size node.
Proof.
  intros H Hs Hk. destruct (Z.le_gt_cases (node_size node) capacity); [|lia].
  assert (nodeFits node = true) by (apply nodeFits_spec; done). congruence.
Qed.
