(* ===== verification/TreeRep.v ===== *)
(** * Trees and the sorted entries they hold

    The representation predicate, and lookup, insertion and scans of [CowTree]
    against operations on sorted entries. *)
From S2P Require Import Prelude Bytes Layout Hashes PageFormat Entries NodeCodec CowTree.
From S2P Require Import TreeShape TreeInvariant.

Section Rep.
Context {T : Type} `{PageStore T}.
Variables (tx : T) (kind : TreeKind).

(** The subtree at [ref] has height [h] and holds [l]. *)
Fixpoint rep (h : nat) (ref : nodeRef) (l : list KeyValue) : Prop :=
  exists node, load tx kind ref = Ok node /\ ref_count ref = zlen l /\ node_count node = zlen l /\
    node_fits node /\
    match h with
    | O => node_leaf node = true /\ node_keys node = l.*1 /\ node_values node = l.*2 /\ sorted_keys l
    | S h => node_leaf node = false /\
        exists ls, l = concat ls /\ Forall2 (rep h) (node_children node) ls /\
          chain None ls (node_keys node) None
    end.

(** The same for a loaded node, whether or not it fits a page. *)
Definition holds (h : nat) (node : treeNode) (l : list KeyValue) : Prop :=
  node_count node = zlen l /\ node_shape node /\ Forall key_ok (node_keys node) /\
  match h with
  | O => node_leaf node = true /\ node_keys node = l.*1 /\ node_values node = l.*2 /\ sorted_keys l
  | S h => node_leaf node = false /\
      exists ls, l = concat ls /\ Forall2 (rep h) (node_children node) ls /\
        chain None ls (node_keys node) None
  end.

Lemma rep_holds h ref l :
  rep h ref l <->
  exists node, load tx kind ref = Ok node /\ ref_count ref = zlen l /\ holds h node l /\
    node_size node <= capacity.
Proof.
  unfold holds. destruct h; cbn [rep]; split;
    (intros (node & Hl & Hc & H1); exists node; unfold node_fits in *; tauto).
Qed.

Lemma holds_sorted h node l : holds h node l -> sorted_keys l.
Proof.
  intros (_ & _ & _ & Hm). destruct h; [tauto|].
  destruct Hm as (_ & ls & -> & _ & Hc). by eapply chain_sorted.
Qed.

Lemma rep_sorted h ref l : rep h ref l -> sorted_keys l.
Proof. intros (node & _ & _ & Hh & _)%rep_holds. by eapply holds_sorted. Qed.

Lemma rep_count h ref l : rep h ref l -> ref_count ref = zlen l.
Proof. by intros (node & _ & Hc & _)%rep_holds. Qed.

(** A loaded, fitting node under any reference. *)
Lemma holds_rep h node l pageID :
  holds h node l -> nodeFits node = true -> rep h (mk_ref pageID (node_count node) (Some node)) l.
Proof.
  intros Hh Hf%nodeFits_spec. apply rep_holds. exists node. split; [done|].
  split; [apply Hh|]. split; [done|]. apply Hf.
Qed.

Lemma childCount_cons c cs z :
  fold_left (fun result child => to_u64 (result + ref_count child)) (c :: cs) z =
  fold_left (fun result child => to_u64 (result + ref_count child)) cs (to_u64 (z + ref_count c)).
Proof. done. Qed.

Lemma childCount_rep h children ls :
  Forall2 (rep h) children ls -> zlen (concat ls) < 2 ^ 64 -> childCount children = zlen (concat ls).
Proof.
  intros HF. unfold childCount.
  assert (Hgen : forall z, 0 <= z -> z + zlen (concat ls) < 2 ^ 64 ->
    fold_left (fun result child => to_u64 (result + ref_count child)) children z = z + zlen (concat ls)).
  { induction HF as [|c l cs ls Hc HF IH]; intros z Hz Hb; [cbn; rewrite zlen_nil; lia|].
    cbn [concat] in *. rewrite childCount_cons, (rep_count _ _ _ Hc).
    rewrite zlen_app in *. pose proof (zlen_nonneg l). pose proof (zlen_nonneg (concat ls)).
    assert (to_u64 (z + zlen l) = z + zlen l) as -> by (apply Z.mod_small; lia).
    rewrite IH by lia. lia. }
  intros Hb. rewrite (Hgen 0) by lia. lia.
Qed.

(** ** Changes of a subtree *)

(** What [put] and [delete] return holds [l], in one or two subtrees. *)
Definition change_rep (h : nat) (c : change) (l : list KeyValue) : Prop :=
  match c.2 with
  | None => rep h c.1 l
  | Some (sep, sibling) =>
      exists l1 l2, l = l1 ++ l2 /\ rep h c.1 l1 /\ rep h sibling l2 /\ l1 <> [] /\ l2 <> [] /\
        Forall (fun k => blt k sep) l1.*1 /\ Forall (fun k => ~ blt k sep) l2.*1 /\ key_ok sep
  end.

Lemma splitLeaf_sound ref node l c splits :
  holds 0 node l -> splitLeaf ref node = Ok (c, splits) -> change_rep 0 c l.
Proof.
  intros Hh. pose proof Hh as (Hcount & Hs & Hk & Hl & Hkeys & Hvals & Hsort). unfold splitLeaf.
  destruct (nodeFits node) eqn:Ef; [intros [= <- _]; by apply holds_rep|].
  destruct (byteBalancedLeafSplit node) as [b|] eqn:Eb; [|done].
  apply leaf_split_sound in Eb as (_ & Hb & H1 & H2); [|done].
  destruct (node_keys node !! b) as [sep|] eqn:Esep; [|done]. intros [= <- _].
  assert (Hlen : length (node_keys node) = length l) by (by rewrite Hkeys, length_fmap).
  exists (take b l), (drop b l). rewrite take_drop.
  assert (Hks : drop b l.*1 = sep :: drop (S b) l.*1) by (rewrite <- Hkeys; by apply drop_S).
  pose proof Hsort as Hsort'. rewrite <- (take_drop b l) in Hsort'. apply sorted_keys_app in Hsort' as (Hs1 & Hs2 & Hs12).
  split; [done|]. split; [|split; [|split; [|split; [|split; [|split]]]]].
  - apply holds_rep; [|apply nodeFits_spec; apply leaf_left_fits; auto; lia].
    pose proof (leaf_left_fits node b (Z.of_nat b) Hs Hl Hk ltac:(lia) H1) as (? & ? & _).
    split; [cbn; unfold zlen; rewrite length_take; lia|]. split; [done|]. split; [done|].
    cbn. by rewrite Hkeys, Hvals, !fmap_take.
  - apply holds_rep; [|apply nodeFits_spec; apply leaf_right_fits; auto; lia].
    pose proof (leaf_right_fits node b (zlen (node_keys node) - Z.of_nat b) Hs Hl Hk ltac:(lia) H2) as (? & ? & _).
    split; [cbn; unfold zlen; rewrite length_drop; lia|]. split; [done|]. split; [done|].
    cbn. by rewrite Hkeys, Hvals, !fmap_drop.
  - intros E. apply (f_equal length) in E. rewrite length_take in E. cbn in E. lia.
  - intros E. apply (f_equal length) in E. rewrite length_drop in E. cbn in E. lia.
  - rewrite fmap_drop in Hs12. rewrite Hks in Hs12. eapply Forall_impl; [exact Hs12|].
    intros x Hx. by apply Forall_cons in Hx as [? _].
  - unfold sorted_keys in Hs2. rewrite fmap_drop in Hs2 |- *. rewrite Hks in *. inversion Hs2 as [|? ? _ Hf]; subst.
    constructor; [apply blt_irrefl|]. eapply Forall_impl; [exact Hf|]. intros x Hx Hx'. by apply (blt_asym sep x).
  - rewrite Forall_lookup in Hk. by eapply Hk.
Qed.

Lemma splitBranch_sound h ref node l c splits :
  holds (S h) node l -> zlen l < 2 ^ 64 -> splitBranch ref node = Ok (c, splits) -> change_rep (S h) c l.
Proof.
  intros Hh Hmax. pose proof Hh as (Hcount & Hs & Hk & Hl & ls & -> & Href & Hch). unfold splitBranch.
  destruct (nodeFits node) eqn:Ef; [intros [= <- _]; by apply holds_rep|].
  destruct (byteBalancedBranchSplit node) as [b|] eqn:Eb; [|done].
  apply branch_split_sound in Eb as (_ & Hb & H1 & H2); [|done].
  destruct (node_keys node !! b) as [sep|] eqn:Esep; [|done]. intros [= <- _].
  pose proof (chain_length _ _ _ _ Hch) as Hlen.
  rewrite <- (take_drop_middle _ _ _ Esep), <- (take_drop (S b) ls) in Hch.
  apply chain_app in Hch as [Hch1 Hch2]; [|rewrite !length_take; lia].
  pose proof (Forall2_take _ _ _ (S b) Href) as Href1. pose proof (Forall2_drop _ _ _ (S b) Href) as Href2.
  assert (Hcat : concat ls = concat (take (S b) ls) ++ concat (drop (S b) ls)).
  { by rewrite <- concat_app, take_drop. }
  rewrite Hcat, zlen_app in Hmax.
  pose proof (zlen_nonneg (concat (take (S b) ls))). pose proof (zlen_nonneg (concat (drop (S b) ls))).
  exists (concat (take (S b) ls)), (concat (drop (S b) ls)).
  split; [done|]. split; [|split; [|split; [|split; [|split; [|split]]]]].
  - apply holds_rep; [|apply nodeFits_spec; apply branch_left_fits; auto; lia].
    pose proof (branch_left_fits node b (childCount (take (S b) (node_children node))) Hs Hl Hk ltac:(lia) H1) as (? & ? & _).
    split; [by apply (childCount_rep h); [|lia]|]. split; [done|]. split; [done|]. split; [done|].
    exists (take (S b) ls). split; [done|]. split; [done|].
    by eapply chain_weaken.
  - apply holds_rep; [|apply nodeFits_spec; apply branch_right_fits; auto; lia].
    pose proof (branch_right_fits node b (childCount (drop (S b) (node_children node))) Hs Hl Hk ltac:(lia) H2) as (? & ? & _).
    split; [by apply (childCount_rep h); [|lia]|]. split; [done|]. split; [done|]. split; [done|].
    exists (drop (S b) ls). split; [done|]. split; [done|].
    by eapply chain_weaken.
  - by eapply chain_nonempty.
  - by eapply chain_nonempty.
  - by eapply chain_below.
  - by eapply (chain_bounds (Some sep)).
  - rewrite Forall_lookup in Hk. by eapply Hk.
Qed.

(** ** Descending to the child of a key *)

(** The branch cut at the child [key] belongs to. *)
Record hole (h : nat) (node : treeNode) (l : list KeyValue) (key : bytes)
    (cs1 : list nodeRef) (child : nodeRef) (cs2 : list nodeRef)
    (ls1 : list (list KeyValue)) (l0 : list KeyValue) (ls2 : list (list KeyValue))
    (ks1 ks2 : list bytes) (m1 m2 : option bytes) : Prop := {
  hole_children : node_children node = cs1 ++ child :: cs2;
  hole_keys : node_keys node = ks1 ++ ks2;
  hole_entries : l = concat ls1 ++ l0 ++ concat ls2;
  hole_length : length cs1 = length ks1;
  hole_length_ls : length ls1 = length ks1;
  hole_position : child_position (node_keys node) key = length cs1;
  hole_left : chain_left None ls1 ks1 m1;
  hole_piece : piece m1 l0 m2;
  hole_right : chain_right m2 ls2 ks2 None;
  hole_rep_left : Forall2 (rep h) cs1 ls1;
  hole_rep : rep h child l0;
  hole_rep_right : Forall2 (rep h) cs2 ls2;
  hole_above : above m1 key;
  hole_below : below m2 key;
  hole_before : Forall (fun k => blt k key) (concat ls1).*1;
  hole_after : Forall (blt key) (concat ls2).*1 }.

Lemma chain_left_mid lo ls keys mid key :
  chain_left lo ls keys mid -> Forall (fun k => ~ blt key k) keys -> above lo key -> above mid key.
Proof.
  revert lo keys; induction ls as [|l ls IH]; intros lo [|k keys] Hc Hk Hlo; try done; cbn in Hc.
  - by subst.
  - destruct Hc as [_ Hc]. apply Forall_cons in Hk as [Hk1 Hk]. by eapply IH.
Qed.

Lemma chain_right_mid mid ls keys key :
  chain_right mid ls keys None -> Forall (blt key) keys -> below mid key.
Proof.
  destruct ls, keys as [|k keys]; try done; cbn; [by intros -> _|].
  intros [-> _] Hk. by apply Forall_cons in Hk as [? _].
Qed.

Lemma below_above mid k key : below mid k -> above mid key -> (exists b, mid = Some b) -> blt k key.
Proof.
  intros H1 H2 [b ->]. cbn in *. destruct (blt_trichotomy b key) as [?|[<-|?]]; [by eapply blt_trans|done|done].
Qed.

Lemma find_hole h node l key :
  holds (S h) node l ->
  exists cs1 child cs2 ls1 l0 ls2 ks1 ks2 m1 m2,
    hole h node l key cs1 child cs2 ls1 l0 ls2 ks1 ks2 m1 m2.
Proof.
  intros (_ & Hs & _ & Hl & ls & -> & Href & Hch).
  pose proof (chain_length _ _ _ _ Hch) as Hlen.
  destruct (chain_keys_sorted _ _ _ _ Hch) as [Hsort _].
  destruct (child_position_split _ key Hsort) as (ks1 & ks2 & Hk & Hp & H1 & H2).
  assert (exists ls1 l0 ls2, ls = ls1 ++ l0 :: ls2 /\ length ls1 = length ks1) as (ls1 & l0 & ls2 & -> & Hl1).
  { rewrite Hk, length_app in Hlen. destruct (lookup_lt_is_Some_2 ls (length ks1) ltac:(lia)) as [l0 El].
    exists (take (length ks1) ls), l0, (drop (S (length ks1)) ls).
    split; [by rewrite take_drop_middle|]. rewrite length_take. lia. }
  apply Forall2_app_inv_r in Href as (cs1 & cs' & Hr1 & Hr2 & Hcs).
  inversion Hr2 as [|child ? cs2 ? Hr0 Hr3]; subst.
  rewrite Hk in Hch. apply chain_hole in Hch as (m1 & m2 & Hcl & Hpc & Hcr); [|done].
  assert (Ha : above m1 key) by (eapply chain_left_mid; [exact Hcl|exact H1|done]).
  assert (Hb : below m2 key) by (eapply chain_right_mid; [exact Hcr|exact H2]).
  exists cs1, child, cs2, ls1, l0, ls2, ks1, ks2, m1, m2.
  pose proof (Forall2_length _ _ _ Hr1) as Hlc.
  constructor; try done.
  - by rewrite concat_app.
  - lia.
  - rewrite Hp. lia.
  - destruct (chain_left_bounds _ _ _ _ Hcl) as [Hf Hm]. destruct ls1; [constructor|].
    destruct Hm as [?|Hm]; [done|]. eapply Forall_impl; [exact Hf|]. intros k Hbk. by eapply below_above.
  - destruct ls2 as [|l2 ls2]; [constructor|]. destruct ks2 as [|k ks2]; [done|].
    destruct Hcr as [-> Hcr]. pose proof (chain_bounds _ _ _ _ Hcr) as Hf.
    eapply Forall_impl; [exact Hf|]. intros x Hx. cbn in Hb, Hx.
    destruct (blt_trichotomy k x) as [?|[<-|?]]; [by eapply blt_trans|done|done].
Qed.

Lemma hole_lookup h node l key cs1 child cs2 ls1 l0 ls2 ks1 ks2 m1 m2 :
  hole h node l key cs1 child cs2 ls1 l0 ls2 ks1 ks2 m1 m2 ->
  node_children node !! child_position (node_keys node) key = Some child.
Proof. intros Hh. rewrite (hole_position _ _ _ _ _ _ _ _ _ _ _ _ _ _ Hh), (hole_children _ _ _ _ _ _ _ _ _ _ _ _ _ _ Hh). by apply list_lookup_middle. Qed.

(** ** Lookup *)

Lemma getBorrowed_correct h ref l key fuel :
  rep h ref l -> (h < fuel)%nat -> getBorrowed tx kind fuel ref key = Ok (field l key).
Proof.
  revert ref l fuel; induction h as [|h IH]; intros ref l [|fuel] Hr Hf; try lia;
    apply rep_holds in Hr as (node & Hload & _ & Hh & _); cbn [getBorrowed]; rewrite Hload; cbn [rbind].
  - destruct Hh as (_ & _ & _ & -> & -> & -> & Hs).
    destruct (leaf_split l key Hs) as (l1 & l2 & -> & -> & H1 & [(v & l2' & -> & H2 & ->)|[H2 ->]]).
    + rewrite fmap_app, lookup_app_r by (rewrite length_fmap; done). rewrite length_fmap, Nat.sub_diag. cbn.
      rewrite field_app_r by done. cbn. by rewrite beqb_refl.
    + rewrite field_app_r by done. by rewrite field_above.
  - destruct (find_hole h node l key Hh) as (cs1 & child & cs2 & ls1 & l0 & ls2 & ks1 & ks2 & m1 & m2 & Hhole).
    destruct Hh as (_ & _ & _ & -> & _). rewrite (hole_lookup _ _ _ _ _ _ _ _ _ _ _ _ _ _ Hhole).
    destruct Hhole. rewrite (IH child l0) by (done || lia). subst l.
    rewrite field_app_r, field_app_l by done. done.
Qed.

(** ** Insertion *)

Lemma putLeaf_holds node l key value :
  holds 0 node l -> key_ok key -> zlen l + 1 < 2 ^ 64 -> holds 0 (putLeaf node key value) (ins key value l).
Proof.
  intros (Hc & Hs & Hk & Hl & Hkeys & Hvals & Hsort) Hkey Hmax. unfold putLeaf.
  pose proof (sorted_ins key value l Hsort) as Hsort'.
  destruct (leaf_split l key Hsort) as (l1 & l2 & -> & Hp & H1 & Hcase).
  rewrite Hkeys, Hp. rewrite ins_app_r in * by done. rewrite Hvals.
  destruct Hcase as [(v & l2' & -> & H2 & Hat)|[H2 Hat]]; rewrite Hat.
  - assert (Hins : ins key value ((key, v) :: l2') = (key, value) :: l2') by (cbn; by rewrite bcompare_refl).
    rewrite Hins in *. unfold holds, node_shape. cbn [node_count node_leaf node_keys node_values mk_leaf].
    rewrite Hkeys in Hk.
    assert (Hv : <[length l1:=value]> (l1 ++ (key, v) :: l2').*2 = (l1 ++ (key, value) :: l2').*2).
    { rewrite !fmap_app. rewrite <- (length_fmap snd l1). cbn. by rewrite insert_app_r_alt, Nat.sub_diag by lia. }
    rewrite Hv, !length_fmap. split; [rewrite Hc, !zlen_app, !zlen_cons; done|].
    split; [rewrite !length_app; done|]. rewrite !fmap_app in *. cbn in *. done.
  - assert (Hins : ins key value l2 = (key, value) :: l2).
    { destruct l2 as [|[k2 v2] l2]; [done|]. cbn in H2 |- *. apply Forall_cons in H2 as [H2 _].
      unfold blt in H2. by rewrite H2. }
    rewrite Hins in *. unfold holds, node_shape. cbn [node_count node_leaf node_keys node_values mk_leaf].
    rewrite Hkeys in Hk.
    assert (Hki : insert_at (l1 ++ l2).*1 (length l1) key = (l1 ++ (key, value) :: l2).*1).
    { rewrite !fmap_app. rewrite <- (length_fmap fst l1). by rewrite insert_at_app. }
    assert (Hvi : insert_at (l1 ++ l2).*2 (length l1) value = (l1 ++ (key, value) :: l2).*2).
    { rewrite !fmap_app. rewrite <- (length_fmap snd l1). by rewrite insert_at_app. }
    rewrite Hki, Hvi, !length_fmap. split.
    { rewrite Hc, !zlen_app, zlen_cons in *. pose proof (zlen_nonneg l1). pose proof (zlen_nonneg l2).
      unfold to_u64. rewrite Z.mod_small; lia. }
    split; [done|]. split; [|done]. rewrite !fmap_app in *. apply Forall_app in Hk as [? ?].
    apply Forall_app. split; [done|]. by constructor.
Qed.

(** Putting a changed child back into its branch. *)
Lemma replaceChild_holds h node l key cs1 child cs2 ls1 l0 ls2 ks1 ks2 m1 m2 c l0' count :
  hole h node l key cs1 child cs2 ls1 l0 ls2 ks1 ks2 m1 m2 ->
  node_leaf node = false -> Forall key_ok (node_keys node) ->
  change_rep h c l0' -> l0' <> [] -> sorted_keys l0' ->
  Forall (fun k => above m1 k /\ below m2 k) l0'.*1 ->
  count = zlen (concat ls1 ++ l0' ++ concat ls2) ->
  holds (S h) (replaceChild node (length cs1) c count) (concat ls1 ++ l0' ++ concat ls2).
Proof.
  intros [Hcs Hks Hl Hlen Hlen' _ Hcl _ Hcr Hr1 _ Hr2 _ _ _ _] Hleaf Hk Hc Hne Hsort Hb ->.
  pose proof (Forall2_length _ _ _ Hr2) as Hlen2.
  assert (Hlk : length cs2 = length ks2).
  { destruct ls2, ks2 as [|k ks2]; try done. destruct Hcr as [_ Hcr].
    apply chain_length in Hcr. cbn in *. lia. }
  rewrite Hks in Hk. unfold replaceChild. rewrite Hcs, Hks, insert_app_r_alt, Nat.sub_diag by lia. cbn [list_insert insert].
  destruct c as [c1 [[sep sibling]|]]; cbn [fst snd] in *.
  - destruct Hc as (la & lb & -> & Ha & Hbr & Hnea & Hneb & Hla & Hlb & Hsep). cbn [fst] in *.
    rewrite Hlen, insert_at_app.
    replace (insert_at (cs1 ++ c1 :: cs2) (S (length ks1)) sibling) with (cs1 ++ c1 :: sibling :: cs2).
    2: { rewrite (cons_middle c1 cs1 cs2), app_assoc, <- Hlen.
         replace (S (length cs1)) with (length (cs1 ++ [c1])) by (rewrite length_app; cbn; lia).
         by rewrite insert_at_app, <- app_assoc. }
    apply sorted_keys_app in Hsort as (Hsa & Hsb & _). rewrite fmap_app, Forall_app in Hb. destruct Hb as [Hba Hbb].
    split; [done|]. split; [unfold node_shape; cbn; rewrite !length_app; cbn; lia|].
    split; [apply Forall_app in Hk as [? ?]; apply Forall_app; split; [done|by constructor]|].
    split; [done|]. exists (ls1 ++ la :: lb :: ls2).
    split; [by rewrite concat_app; cbn [concat]; rewrite <- !app_assoc|].
    split; [apply Forall2_app; [done|by repeat constructor]|].
    apply chain_hole_two; [done|]. exists m1, m2. split; [done|]. split; [|split; [|done]].
    + split; [done|]. split; [done|]. apply Forall_forall. intros x Hx. rewrite Forall_forall in Hba, Hla.
      split; [by apply Hba|by apply Hla].
    + split; [done|]. split; [done|]. apply Forall_forall. intros x Hx. rewrite Forall_forall in Hbb, Hlb.
      split; [by apply Hlb|by apply Hbb].
  - split; [done|]. split; [unfold node_shape; cbn; rewrite !length_app; cbn; lia|].
    split; [done|]. split; [done|]. exists (ls1 ++ l0' :: ls2).
    split; [by rewrite concat_app|]. split; [apply Forall2_app; [done|by constructor]|].
    apply chain_hole; [done|]. by exists m1, m2.
Qed.

Lemma ins_nonempty {A} k (v : A) l : ins k v l <> [].
Proof. destruct l as [|[k' v'] l]; cbn; [done|]. by destruct (bcompare k k'). Qed.

Lemma zlen_ins_le (k : bytes) (v : bytes) l : sorted_keys l -> zlen l <= zlen (ins k v l) <= zlen l + 1.
Proof. intros Hs. rewrite (length_ins k v l Hs). destruct (field l k); lia. Qed.

Lemma hole_ins h node l key cs1 child cs2 ls1 l0 ls2 ks1 ks2 m1 m2 value :
  hole h node l key cs1 child cs2 ls1 l0 ls2 ks1 ks2 m1 m2 ->
  ins key value l = concat ls1 ++ ins key value l0 ++ concat ls2.
Proof. intros []. subst l. by rewrite ins_app_r, ins_app_l. Qed.

Lemma hole_ins_bounds h node l key cs1 child cs2 ls1 l0 ls2 ks1 ks2 m1 m2 value :
  hole h node l key cs1 child cs2 ls1 l0 ls2 ks1 ks2 m1 m2 ->
  Forall (fun k => above m1 k /\ below m2 k) (ins key value l0).*1.
Proof. intros []. destruct hole_piece0 as (_ & _ & Hb). by apply Forall_ins. Qed.

Lemma change_rep_count h c l :
  change_rep h c l -> ref_count c.1 + change_right_count c = zlen l.
Proof.
  unfold change_rep, change_right_count. destruct c as [c1 [[sep r]|]]; cbn.
  - intros (l1 & l2 & -> & H1 & H2 & _). rewrite (rep_count _ _ _ H1), (rep_count _ _ _ H2), zlen_app. done.
  - intros Hr. rewrite (rep_count _ _ _ Hr). lia.
Qed.

(** The [uint64] arithmetic on counts agrees with the sizes. *)
Lemma count_update total old c1 right :
  0 <= old <= total -> 0 <= c1 -> 0 <= right -> total - old + c1 + right < 2 ^ 64 ->
  to_u64 (to_u64 (total + (c1 - old)) + right) = total - old + c1 + right.
Proof. intros. unfold to_u64. rewrite (Z.mod_small (total + (c1 - old))) by lia. rewrite Z.mod_small; lia. Qed.

(** The branch part of [put], once the child has changed. *)
Lemma put_branch h node l key value cs1 child cs2 ls1 l0 ls2 ks1 ks2 m1 m2 c :
  hole h node l key cs1 child cs2 ls1 l0 ls2 ks1 ks2 m1 m2 ->
  holds (S h) node l -> zlen l + 1 < 2 ^ 64 -> change_rep h c (ins key value l0) ->
  holds (S h)
    (replaceChild node (length cs1) c
       (to_u64 (to_u64 (node_count node + (ref_count c.1 - ref_count child)) + change_right_count c)))
    (ins key value l).
Proof.
  intros Hhole Hh Hmax Hc. pose proof Hh as (Hcount & _ & Hk & Hl & _).
  pose proof (holds_sorted _ _ _ Hh) as Hsl.
  pose proof (hole_ins _ _ _ _ _ _ _ _ _ _ _ _ _ _ value Hhole) as Hins.
  pose proof (hole_ins_bounds _ _ _ _ _ _ _ _ _ _ _ _ _ _ value Hhole) as Hb.
  pose proof (zlen_ins_le key value l Hsl) as Hlen.
  pose proof (hole_entries _ _ _ _ _ _ _ _ _ _ _ _ _ _ Hhole) as Hent.
  pose proof (rep_count _ _ _ (hole_rep _ _ _ _ _ _ _ _ _ _ _ _ _ _ Hhole)) as Hchild.
  pose proof (zlen_nonneg l0). pose proof (zlen_nonneg (concat ls1)). pose proof (zlen_nonneg (concat ls2)).
  assert (Htot : zlen l = zlen (concat ls1) + zlen l0 + zlen (concat ls2)) by (rewrite Hent, !zlen_app; lia).
  assert (Hs0 : sorted_keys l0) by (eapply piece_sorted, (hole_piece _ _ _ _ _ _ _ _ _ _ _ _ _ _ Hhole)).
  pose proof (change_rep_count _ _ _ Hc) as Hcc. rewrite Hins in *. rewrite !zlen_app in Hlen.
  eapply replaceChild_holds; [exact Hhole|done|done|done|apply ins_nonempty|by apply sorted_ins|done|].
  rewrite !zlen_app, Hcount, Hchild. rewrite count_update; [lia|lia| | |lia].
  - destruct c as [r0 [[? ?]|]]; cbn in *; [destruct Hc as (la & lb & _ & Ha & _)|];
      [rewrite (rep_count _ _ _ Ha)|rewrite (rep_count _ _ _ Hc)]; apply zlen_nonneg.
  - destruct c as [r0 [[? ?]|]]; cbn in *; [|lia]. destruct Hc as (la & lb & _ & _ & Hb' & _).
    rewrite (rep_count _ _ _ Hb'). apply zlen_nonneg.
Qed.

Lemma hole_child_length h node l key cs1 child cs2 ls1 l0 ls2 ks1 ks2 m1 m2 :
  hole h node l key cs1 child cs2 ls1 l0 ls2 ks1 ks2 m1 m2 -> zlen l0 <= zlen l.
Proof.
  intros []. subst l. rewrite !zlen_app. pose proof (zlen_nonneg (concat ls1)).
  pose proof (zlen_nonneg (concat ls2)). lia.
Qed.

Lemma put_correct h ref l key value fuel c splits :
  rep h ref l -> key_ok key -> zlen l + 1 < 2 ^ 64 -> (h < fuel)%nat ->
  put tx kind fuel ref key value = Ok (c, splits) -> change_rep h c (ins key value l).
Proof.
  revert ref l fuel c splits; induction h as [|h IH]; intros ref l [|fuel] c splits Hr Hkey Hmax Hf Hput; try lia;
    apply rep_holds in Hr as (node & Hload & Hcnt & Hh & _); cbn [put] in Hput; rewrite Hload in Hput; cbn [rbind] in Hput.
  - assert (node_leaf node = true) as Hl by apply Hh. rewrite Hl in Hput.
    eapply splitLeaf_sound; [|exact Hput]. by apply putLeaf_holds.
  - destruct (find_hole h node l key Hh) as (cs1 & child & cs2 & ls1 & l0 & ls2 & ks1 & ks2 & m1 & m2 & Hhole).
    pose proof Hh as (_ & _ & _ & Hl & _). rewrite Hl, (hole_lookup _ _ _ _ _ _ _ _ _ _ _ _ _ _ Hhole) in Hput.
    inv_ok. destruct a as [c0 splits0]. inv_ok. destruct a as [c1 more]. injection Hput as <- <-.
    rewrite (hole_position _ _ _ _ _ _ _ _ _ _ _ _ _ _ Hhole) in Hok0.
    pose proof (hole_child_length _ _ _ _ _ _ _ _ _ _ _ _ _ _ Hhole).
    pose proof (zlen_ins_le key value l (holds_sorted _ _ _ Hh)).
    eapply splitBranch_sound; [|lia|exact Hok0]. apply (put_branch h _ _ _ _ _ _ _ _ _ _ _ _ _ _ _ Hhole Hh Hmax).
    eapply IH; [apply (hole_rep _ _ _ _ _ _ _ _ _ _ _ _ _ _ Hhole)|done|lia| |exact Hok]. lia.
Qed.

Lemma growRoot_rep h c l :
  change_rep h c l -> zlen l < 2 ^ 64 -> exists h', (h' <= S h)%nat /\ rep h' (growRoot c) l.
Proof.
  unfold change_rep, growRoot. destruct c as [c1 [[sep r]|]]; cbn [fst snd]; [|exists h; split; [lia|done]].
  intros (l1 & l2 & -> & H1 & H2 & Hn1 & Hn2 & Hb1 & Hb2 & Hk) Hmax. exists (S h). split; [done|].
  assert (Hcnt : to_u64 (ref_count c1 + ref_count r) = zlen (l1 ++ l2)).
  { rewrite (rep_count _ _ _ H1), (rep_count _ _ _ H2), <- zlen_app. apply Z.mod_small.
    split; [apply zlen_nonneg|done]. }
  unfold new_ref. apply holds_rep.
  - split; [done|]. split; [done|]. split; [by constructor|]. split; [done|].
    exists [l1; l2]. split; [cbn; by rewrite app_nil_r|]. split; [by repeat constructor|].
    cbn. split; (split; [done|]); (split; [by eapply rep_sorted|]); (eapply Forall_impl; [eassumption|]); cbn; tauto.
  - apply nodeFits_spec. split; [done|]. split; [by constructor|].
    unfold node_size, nodeEntries, key_ok in *. cbn. rewrite entries_size_cons, zlen_branchEntry, entries_size_nil.
    change (zlen [sep]) with 1. unfold maxKey in Hk. change capacity with 16320. lia.
Qed.

(** ** Insertion succeeds when entries are small *)

Lemma leaf_entries node l :
  holds 0 node l -> nodeEntries node = (fun e => leafEntry e.1 e.2) <$> l.
Proof.
  intros (_ & _ & _ & Hl & Hk & Hv & _). unfold nodeEntries. rewrite Hl, Hk, Hv, zip_with_fst_snd.
  apply list_fmap_ext. by intros _ [k v] _.
Qed.

Definition leaf_bytes (l : list KeyValue) : Z := entries_size ((fun e => leafEntry e.1 e.2) <$> l) + 8 * zlen l.

Lemma leaf_node_size node l : holds 0 node l -> node_size node = 32 + leaf_bytes l.
Proof.
  intros Hh. unfold node_size, leaf_bytes. rewrite (leaf_entries _ _ Hh).
  destruct Hh as (_ & _ & _ & _ & -> & _). unfold zlen. rewrite length_fmap. lia.
Qed.

Lemma leaf_bytes_cons k v l : leaf_bytes ((k, v) :: l) = 8 + (2 + 4 + zlen k + zlen v) + leaf_bytes l.
Proof. unfold leaf_bytes. rewrite fmap_cons, entries_size_cons, zlen_leafEntry, zlen_cons. cbn. lia. Qed.

Lemma leaf_bytes_ins k v l : leaf_bytes (ins k v l) <= 8 + (2 + 4 + zlen k + zlen v) + leaf_bytes l.
Proof.
  induction l as [|[k' v'] l IH]; cbn [ins]; [by rewrite leaf_bytes_cons|].
  pose proof (zlen_nonneg k'). pose proof (zlen_nonneg v').
  destruct (bcompare k k'); rewrite !leaf_bytes_cons; lia.
Qed.

Lemma small_ins k v l : Forall small_entry l -> small_entry (k, v) -> Forall small_entry (ins k v l).
Proof.
  intros Hl Hs. induction Hl as [|[k' v'] l He Hl IH]; cbn [ins]; [by constructor|].
  destruct (bcompare k k'); by repeat constructor.
Qed.

Lemma splitLeaf_ok ref node l :
  holds 0 node l -> Forall small_entry l -> node_size node <= capacity + half_capacity ->
  exists r, splitLeaf ref node = Ok r.
Proof.
  intros Hh Hsm Hsize. pose proof Hh as (_ & Hs & Hk & Hl & _). unfold splitLeaf.
  destruct (nodeFits node) eqn:Ef; [eauto|].
  pose proof (nodeFits_false _ Ef Hs Hk) as Hbig.
  destruct (leaf_split_complete node) as [b Hb]; try done.
  { rewrite (leaf_entries _ _ Hh). apply Forall_fmap. eapply Forall_impl; [exact Hsm|].
    intros [k v] He. unfold small_entry in He. cbn in *. by rewrite zlen_leafEntry. }
  rewrite Hb. apply leaf_split_sound in Hb as (_ & Hb & _); [|done].
  destruct (lookup_lt_is_Some_2 (node_keys node) b ltac:(lia)) as [sep ->]. eauto.
Qed.

Lemma splitBranch_ok ref node :
  node_shape node -> node_leaf node = false -> Forall key_ok (node_keys node) ->
  node_size node <= 2 * capacity - 32 -> exists r, splitBranch ref node = Ok r.
Proof.
  intros Hs Hl Hk Hsize. unfold splitBranch. destruct (nodeFits node) eqn:Ef; [eauto|].
  pose proof (nodeFits_false _ Ef Hs Hk) as Hbig.
  destruct (branch_split_complete node) as [b Hb]; try done.
  rewrite Hb. apply branch_split_sound in Hb as (_ & Hb & _); [|done].
  destruct (lookup_lt_is_Some_2 (node_keys node) b ltac:(lia)) as [sep ->]. eauto.
Qed.

(** The size of a branch is a function of its keys. *)
Definition keys_bytes (keys : list bytes) : Z := zlen (concat keys) + 26 * zlen keys.

Lemma keys_bytes_app k1 k2 : keys_bytes (k1 ++ k2) = keys_bytes k1 + keys_bytes k2.
Proof. unfold keys_bytes. rewrite concat_app, !zlen_app. lia. Qed.
Lemma keys_bytes_cons k ks : keys_bytes (k :: ks) = zlen k + 26 + keys_bytes ks.
Proof. unfold keys_bytes. cbn [concat]. rewrite zlen_app, zlen_cons. lia. Qed.
Lemma keys_bytes_nonneg ks : 0 <= keys_bytes ks.
Proof. unfold keys_bytes. pose proof (zlen_nonneg (concat ks)). pose proof (zlen_nonneg ks). lia. Qed.

Lemma branch_node_size node :
  node_shape node -> node_leaf node = false -> node_size node = 32 + keys_bytes (node_keys node).
Proof.
  intros Hs Hl. unfold node_size, keys_bytes, nodeEntries, node_shape in *. rewrite Hl in *.
  destruct (node_children node) as [|c0 cs]; [done|]. cbn [drop]. rewrite drop_0. injection Hs as Hs.
  assert (entries_size (zip_with branchEntry (node_keys node) cs) =
    zlen (concat (node_keys node)) + 18 * zlen (node_keys node)) as ->; [|lia].
  revert cs Hs. induction (node_keys node) as [|k ks IH]; intros [|c cs] Hs; try done.
  cbn [zip_with concat]. rewrite entries_size_cons, zlen_branchEntry, zlen_app, zlen_cons, IH by (cbn in Hs; lia). lia.
Qed.

Lemma keys_bytes_insert_at ks i k : keys_bytes (insert_at ks i k) = keys_bytes ks + zlen k + 26.
Proof.
  unfold insert_at. rewrite keys_bytes_app, keys_bytes_cons.
  rewrite <- (take_drop i ks) at 3. rewrite keys_bytes_app. lia.
Qed.

Lemma replaceChild_keys node i c count :
  keys_bytes (node_keys (replaceChild node i c count)) <= keys_bytes (node_keys node) +
    (match c.2 with Some (sep, _) => zlen sep + 26 | None => 0 end).
Proof.
  unfold replaceChild. destruct c as [c1 [[sep r]|]]; cbn; [|lia]. rewrite keys_bytes_insert_at. lia.
Qed.

Lemma change_sep_bound h c l :
  change_rep h c l -> (match c.2 with Some (sep, _) => zlen sep + 26 | None => 0 end) <= maxKey + 26.
Proof.
  unfold change_rep. destruct c as [c1 [[sep r]|]]; cbn; [|unfold maxKey; lia].
  intros (? & ? & _ & _ & _ & _ & _ & _ & _ & [_ Hk]). lia.
Qed.

(** Insertion succeeds when it does in the leaf that takes the key. *)
Lemma put_total h ref l key value fuel :
  rep h ref l -> key_ok key -> zlen l + 1 < 2 ^ 64 -> (h < fuel)%nat ->
  (forall ref0 node before l0 after, l = before ++ l0 ++ after -> holds 0 node l0 -> node_size node <= capacity ->
     zlen l0 + 1 < 2 ^ 64 -> exists r, splitLeaf ref0 (putLeaf node key value) = Ok r) ->
  exists r, put tx kind fuel ref key value = Ok r.
Proof.
  revert ref l fuel; induction h as [|h IH]; intros ref l [|fuel] Hr Hkey Hmax Hf Hleaf; try lia;
    apply rep_holds in Hr as (node & Hload & Hcnt & Hh & Hsize); cbn [put]; rewrite Hload; cbn [rbind].
  - pose proof Hh as (_ & _ & _ & Hl & _). rewrite Hl. apply (Hleaf ref node [] l []); [by rewrite app_nil_r|done|done|done].
  - destruct (find_hole h node l key Hh) as (cs1 & child & cs2 & ls1 & l0 & ls2 & ks1 & ks2 & m1 & m2 & Hhole).
    pose proof Hh as (Hcount & Hshape & Hk & Hl & _). rewrite Hl, (hole_lookup _ _ _ _ _ _ _ _ _ _ _ _ _ _ Hhole).
    pose proof (hole_entries _ _ _ _ _ _ _ _ _ _ _ _ _ _ Hhole) as Hent.
    pose proof (hole_rep _ _ _ _ _ _ _ _ _ _ _ _ _ _ Hhole) as Hr0.
    pose proof (hole_child_length _ _ _ _ _ _ _ _ _ _ _ _ _ _ Hhole).
    destruct (IH child l0 fuel Hr0 Hkey ltac:(lia) ltac:(lia)) as [[c0 n0] Hput].
    { intros ref0 node0 before l1 after ->. apply (Hleaf ref0 node0 (concat ls1 ++ before) l1 (after ++ concat ls2)).
      by rewrite Hent, <- !app_assoc. }
    rewrite Hput. cbn [rbind].
    pose proof (put_correct h child l0 key value fuel c0 n0 Hr0 Hkey ltac:(lia) ltac:(lia) Hput) as Hc0.
    rewrite (hole_position _ _ _ _ _ _ _ _ _ _ _ _ _ _ Hhole).
    pose proof (put_branch h node l key value _ _ _ _ _ _ _ _ _ _ c0 Hhole Hh Hmax Hc0) as (_ & Hs' & Hk' & Hl' & _).
    match goal with |- context [splitBranch ref ?n] => destruct (splitBranch_ok ref n Hs' Hl' Hk') as [[c1 n1] ->] end;
      [|cbn; eauto].
    rewrite branch_node_size by done. rewrite branch_node_size in Hsize by done.
    pose proof (replaceChild_keys node (length cs1) c0
      (to_u64 (to_u64 (node_count node + (ref_count c0.1 - ref_count child)) + change_right_count c0))).
    pose proof (change_sep_bound _ _ _ Hc0). unfold maxKey in *. change capacity with 16320 in *. lia.
Qed.

Lemma put_succeeds h ref l key value fuel :
  rep h ref l -> key_ok key -> zlen l + 1 < 2 ^ 64 -> (h < fuel)%nat ->
  Forall small_entry l -> small_entry (key, value) -> exists r, put tx kind fuel ref key value = Ok r.
Proof.
  intros Hr Hkey Hmax Hf Hsm Hs1. apply (put_total h ref l key value fuel Hr Hkey Hmax Hf).
  intros ref0 node before l0 after -> Hh Hsize Hm. rewrite !Forall_app in Hsm. destruct Hsm as (_ & Hsm & _).
  pose proof (putLeaf_holds node l0 key value Hh Hkey Hm) as Hp. apply (splitLeaf_ok _ _ _ Hp); [by apply small_ins|].
  rewrite (leaf_node_size _ _ Hp). rewrite (leaf_node_size _ _ Hh) in Hsize.
  pose proof (leaf_bytes_ins key value l0). unfold small_entry in Hs1. cbn in Hs1. lia.
Qed.

(** A leaf, full or not, takes one more entry at its end. *)
Lemma ins_last key value (l : list KeyValue) : Forall (fun k => blt k key) l.*1 -> ins key value l = l ++ [(key, value)].
Proof.
  induction l as [|[k v] l IH]; cbn [ins fmap list_fmap fst app]; [done|]. intros [Hk Hl]%Forall_cons.
  unfold blt in Hk. by rewrite (bcompare_antisym k key), Hk, IH.
Qed.

Lemma splitLeaf_last ref node l key value :
  holds 0 node (l ++ [(key, value)]) -> leaf_bytes l <= capacity - 32 -> leaf_bytes [(key, value)] <= capacity - 32 ->
  exists r, splitLeaf ref node = Ok r.
Proof.
  intros Hh H1 H2. pose proof Hh as (_ & Hs & Hk & Hl & Hkeys & _). unfold splitLeaf.
  destruct (nodeFits node) eqn:Ef; [eauto|]. pose proof (nodeFits_false _ Ef Hs Hk) as Hbig.
  rewrite (leaf_node_size _ _ Hh) in Hbig.
  assert (Hlen : length (node_keys node) = S (length l)) by (rewrite Hkeys, length_fmap, length_app; cbn; lia).
  assert (Hsz : size_to node (length l) = leaf_bytes l).
  { unfold size_to, leaf_bytes. rewrite (leaf_entries _ _ Hh), fmap_app, take_app_length' by (by rewrite length_fmap). unfold zlen. lia. }
  assert (Hall : size_to node (S (length l)) = leaf_bytes l + leaf_bytes [(key, value)]).
  { rewrite (size_to_S node (length l) (leafEntry key value)).
    - rewrite Hsz, leaf_bytes_cons, zlen_leafEntry. change (leaf_bytes []) with 0. lia.
    - rewrite (leaf_entries _ _ Hh), fmap_app, lookup_app_r by (rewrite length_fmap; lia). by rewrite length_fmap, Nat.sub_diag. }
  destruct (leaf_split_at node (length l)) as [b Hb]; [done|done|done| |rewrite Hlen| | |].
  - rewrite (leaf_entries _ _ Hh). apply (Forall_fmap (fun e : KeyValue => leafEntry e.1 e.2)). apply Forall_lookup. intros i [k v] Hi.
    assert (Hb : forall l' : list KeyValue, (k, v) ∈ l' -> zlen (leafEntry k v) <= leaf_bytes l').
    { clear. induction l' as [|[k' v'] l' IH]; [by intros ?%not_elem_of_nil|]. rewrite leaf_bytes_cons, elem_of_cons.
      rewrite zlen_leafEntry in *. pose proof (zlen_nonneg k'). pose proof (zlen_nonneg v').
      assert (0 <= leaf_bytes l') by (unfold leaf_bytes, entries_size; pose proof (zlen_nonneg l'); clear;
        induction l' as [|e l' IH]; [done|]; cbn; rewrite zlen_cons; pose proof (zlen_nonneg (leafEntry e.1 e.2)); unfold zlen in *; lia).
      intros [[= -> ->]|Hin]; [lia|]. specialize (IH Hin). lia. }
    apply list_elem_of_lookup_2, elem_of_app in Hi as [Hi|Hi]; apply Hb in Hi; cbn; change capacity with 16320 in *; lia.
  - destruct l; [|cbn; lia]. cbn [app] in *. change capacity with 16320 in *. cbn in Hbig. lia.
  - rewrite Hsz. lia.
  - rewrite Hlen, Hall, Hsz. lia.
  - rewrite Hb. apply leaf_split_sound in Hb as (_ & Hb & _); [|done].
    destruct (lookup_lt_is_Some_2 (node_keys node) b ltac:(lia)) as [sep ->]. eauto.
Qed.

(** Insertion after every key succeeds for any entry that fits a page. *)
Lemma put_last_succeeds h ref l key value fuel :
  rep h ref l -> key_ok key -> zlen l + 1 < 2 ^ 64 -> (h < fuel)%nat ->
  Forall (fun k => blt k key) l.*1 -> leaf_bytes [(key, value)] <= capacity - 32 ->
  exists r, put tx kind fuel ref key value = Ok r.
Proof.
  intros Hr Hkey Hmax Hf Hlast Hfit. apply (put_total h ref l key value fuel Hr Hkey Hmax Hf).
  intros ref0 node before l0 after -> Hh Hsize Hm. rewrite !fmap_app, !Forall_app in Hlast. destruct Hlast as (_ & Hlast & _).
  pose proof (putLeaf_holds node l0 key value Hh Hkey Hm) as Hp. rewrite ins_last in Hp by done.
  apply (splitLeaf_last _ _ l0 key value Hp); [|done]. rewrite (leaf_node_size _ _ Hh) in Hsize. lia.
Qed.

(** ** Insertion fails only for lack of a split *)

Lemma splitLeaf_error ref node e :
  node_shape node -> splitLeaf ref node = Err e -> e = ErrNodeFull.
Proof.
  intros Hs. unfold splitLeaf. destruct (nodeFits node); [done|].
  destruct (byteBalancedLeafSplit node) as [b|] eqn:Eb; [|by intros [= <-]].
  apply leaf_split_sound in Eb as (_ & Hb & _); [|done].
  destruct (lookup_lt_is_Some_2 (node_keys node) b ltac:(lia)) as [sep ->]. done.
Qed.

Lemma splitBranch_error ref node e :
  node_shape node -> splitBranch ref node = Err e -> e = ErrNodeFull.
Proof.
  intros Hs. unfold splitBranch. destruct (nodeFits node); [done|].
  destruct (byteBalancedBranchSplit node) as [b|] eqn:Eb; [|by intros [= <-]].
  apply branch_split_sound in Eb as (_ & Hb & _); [|done].
  destruct (lookup_lt_is_Some_2 (node_keys node) b ltac:(lia)) as [sep ->]. done.
Qed.

Lemma put_error h ref l key value fuel e :
  rep h ref l -> key_ok key -> zlen l + 1 < 2 ^ 64 -> (h < fuel)%nat ->
  put tx kind fuel ref key value = Err e -> e = ErrNodeFull.
Proof.
  revert ref l fuel; induction h as [|h IH]; intros ref l [|fuel] Hr Hkey Hmax Hf; try lia;
    apply rep_holds in Hr as (node & Hload & Hcnt & Hh & _); cbn [put]; rewrite Hload; cbn [rbind].
  - pose proof Hh as (_ & _ & _ & -> & _). apply splitLeaf_error.
    apply (putLeaf_holds node l key value Hh Hkey Hmax).
  - destruct (find_hole h node l key Hh) as (cs1 & child & cs2 & ls1 & l0 & ls2 & ks1 & ks2 & m1 & m2 & Hhole).
    pose proof Hh as (_ & _ & _ & -> & _). rewrite (hole_lookup _ _ _ _ _ _ _ _ _ _ _ _ _ _ Hhole).
    pose proof (hole_child_length _ _ _ _ _ _ _ _ _ _ _ _ _ _ Hhole).
    pose proof (hole_rep _ _ _ _ _ _ _ _ _ _ _ _ _ _ Hhole) as Hr0.
    destruct (put tx kind fuel child key value) as [[c0 n0]|e'] eqn:Hput; cbn [rbind].
    2: { intros [= <-]. eapply IH; [exact Hr0|done|lia| |exact Hput]. lia. }
    pose proof (put_correct h child l0 key value fuel c0 n0 Hr0 Hkey ltac:(lia) ltac:(lia) Hput) as Hc0.
    rewrite (hole_position _ _ _ _ _ _ _ _ _ _ _ _ _ _ Hhole).
    pose proof (put_branch h node l key value _ _ _ _ _ _ _ _ _ _ c0 Hhole Hh Hmax Hc0) as (_ & Hs' & _).
    match goal with |- context [splitBranch ref ?n] => destruct (splitBranch ref n) as [[c n']|e'] eqn:Es end; [done|].
    cbn [rbind]. intros [= <-]. by eapply splitBranch_error.
Qed.
End Rep.
