(* ===== verification/TreeDelete.v ===== *)
(** * Deletion from the tree

    [delete] of [CowTree] on the represented entries: it always succeeds on a
    well-formed tree and removes exactly the key. *)
From S2P Require Import Prelude Bytes Layout Hashes PageFormat Entries NodeCodec CowTree.
From S2P Require Import TreeShape TreeInvariant TreeRep.

(** ** More on chains *)

Lemma chain_left_snoc lo ls ks k mid :
  chain_left lo ls (ks ++ [k]) mid -> mid = Some k /\ chain lo ls ks (Some k).
Proof.
  revert lo ls; induction ks as [|k' ks IH]; intros lo [|l ls] H; try done; cbn [app chain_left] in H;
    destruct H as [Hp H].
  - destruct ls; [|done]. cbn in H. by subst.
  - destruct (IH _ _ H) as [-> Hc]. split; [done|]. destruct ls as [|l' ls]; [by destruct ks|].
    by apply chain_cons.
Qed.

Lemma piece_hi_mono lo l a b : piece lo l (Some a) -> blt a b -> piece lo l (Some b).
Proof.
  intros (H1 & H2 & H3) Hab. split; [done|]. split; [done|].
  eapply Forall_impl; [exact H3|]. cbn. intros k [? ?]. split; [done|]. by eapply blt_trans.
Qed.

Lemma chain_hi_mono lo ls ks a b : chain lo ls ks (Some a) -> blt a b -> chain lo ls ks (Some b).
Proof.
  intros H Hab. revert lo ks H; induction ls as [|l ls IH]; intros lo ks H; [done|].
  destruct ls as [|l' ls], ks as [|k ks]; try done; try (cbn in H; tauto).
  - cbn in *. by eapply piece_hi_mono.
  - apply chain_cons in H as [? H]. apply chain_cons. auto.
Qed.

Lemma chain_join lo ls1 ks1 k ls2 ks2 hi :
  chain lo ls1 ks1 (Some k) -> chain (Some k) ls2 ks2 hi -> chain lo (ls1 ++ ls2) (ks1 ++ k :: ks2) hi.
Proof. intros H1 H2. apply chain_app; [by eapply chain_length|done]. Qed.

Lemma piece_tighten lo l hi lo' hi' :
  piece lo l hi -> Forall (fun k => above lo' k /\ below hi' k) l.*1 -> piece lo' l hi'.
Proof. intros (H1 & H2 & _) H. done. Qed.

Lemma chain_tighten_hi lo ls ks b :
  chain lo ls ks None -> Forall (fun k => blt k b) (concat ls).*1 -> chain lo ls ks (Some b).
Proof.
  revert lo ks; induction ls as [|l ls IH]; intros lo ks H Hb; [done|].
  cbn [concat] in Hb. rewrite fmap_app, Forall_app in Hb. destruct Hb as [Hb1 Hb2].
  destruct ls as [|l' ls], ks as [|k ks]; try done; try (cbn in H; tauto).
  - cbn in *. destruct H as (H1 & H2 & H3). split; [done|]. split; [done|].
    apply Forall_forall. intros x Hx. rewrite Forall_forall in H3, Hb1. split; [by apply H3|by apply Hb1].
  - apply chain_cons in H as [? H]. apply chain_cons. auto.
Qed.

Lemma chain_tighten_lo ls ks b hi lo :
  chain lo ls ks hi -> Forall (fun k => ~ blt k b) (concat ls).*1 -> chain (Some b) ls ks hi.
Proof.
  destruct ls as [|l ls]; [done|]. intros H Hb. cbn [concat] in Hb.
  rewrite fmap_app, Forall_app in Hb. destruct Hb as [Hb1 _].
  apply chain_right_cons in H as (mid & (H1 & H2 & H3) & Hr). apply chain_right_cons. exists mid.
  split; [|done]. split; [done|]. split; [done|].
  apply Forall_forall. intros x Hx. rewrite Forall_forall in H3, Hb1. split; [by apply Hb1|by apply H3].
Qed.

Lemma sorted_head_min (k : bytes) (v : bytes) l : sorted_keys ((k, v) :: l) -> Forall (fun x => ~ blt x k) ((k, v) :: l).*1.
Proof.
  intros [_ Hf]%sorted_keys_cons. cbn. constructor; [apply blt_irrefl|].
  eapply Forall_impl; [exact Hf|]. intros x Hx Hx'. by apply (blt_asym k x).
Qed.

Section Delete.
Context {T : Type} `{PageStore T}.
Variables (tx : T) (kind : TreeKind).
Abbreviation rep := (rep tx kind).
Abbreviation holds := (holds tx kind).

(** ** Refreshing a separator *)

Lemma minimumKey_correct h ref k v l fuel :
  rep h ref ((k, v) :: l) -> (h < fuel)%nat -> minimumKey tx kind fuel ref = Ok k.
Proof.
  revert ref k v l fuel; induction h as [|h IH]; intros ref k v l [|fuel] Hr Hf; try lia;
    apply rep_holds in Hr as (node & Hload & _ & Hh & _); cbn [minimumKey]; rewrite Hload; cbn [rbind].
  - by destruct Hh as (_ & _ & _ & -> & -> & _).
  - destruct Hh as (_ & _ & _ & -> & ls & Hl & Href & Hch).
    destruct ls as [|l0 ls]; [done|]. inversion Href as [|c ? cs ? Hc Hcs Hc1 Hc2]; subst.
    apply chain_right_cons in Hch as (mid & (Hne & _) & _).
    destruct l0 as [|[k0 v0] l0]; [done|]. injection Hl as <- <- _.
    eapply IH; [exact Hc|lia].
Qed.

Lemma keys_bytes_update ks i k0 k : ks !! i = Some k0 -> keys_bytes (<[i:=k]> ks) = keys_bytes ks - zlen k0 + zlen k.
Proof.
  intros Hi. rewrite <- (take_drop_middle _ _ _ Hi) at 2.
  rewrite insert_take_drop by (by eapply lookup_lt_Some).
  rewrite !keys_bytes_app, !keys_bytes_cons. lia.
Qed.

(** A step on an oversized branch: it succeeds, keeps what the branch holds and
    lets it grow by less than a key. *)
Definition keeps (h : nat) (l : list KeyValue) (node node' : treeNode) (room : Z) : Prop :=
  holds (S h) node' l /\ length (node_children node') = length (node_children node) /\
  keys_bytes (node_keys node') <= keys_bytes (node_keys node) + room.

Lemma first_key_ok h ref k v l : rep h ref ((k, v) :: l) -> key_ok k.
Proof.
  revert ref k v l; induction h as [|h IH]; intros ref k v l Hr;
    apply rep_holds in Hr as (node & _ & _ & Hh & _).
  - destruct Hh as (_ & _ & Hk & _ & Hkeys & _). rewrite Hkeys in Hk. cbn in Hk. by apply Forall_cons in Hk as [? _].
  - destruct Hh as (_ & _ & _ & _ & ls & Hl & Href & Hch).
    destruct ls as [|l0 ls]; [done|]. inversion Href as [|c ? cs ? Hc Hcs Hc1 Hc2]; subst.
    apply chain_right_cons in Hch as (mid & (Hne & _) & _).
    destruct l0 as [|[k0 v0] l0]; [done|]. injection Hl as <- <- _. by eapply IH.
Qed.

Lemma setMinimum_correct h node l i fuel :
  holds (S h) node l -> (i < length (node_children node))%nat -> (h < fuel)%nat ->
  exists node', setMinimum tx kind fuel node i = Ok node' /\ keeps h l node node' maxKey.
Proof.
  intros Hh Hi Hf. unfold setMinimum.
  destruct i as [|before]. { exists node. split; [done|]. split; [done|]. unfold maxKey. lia. }
  pose proof Hh as (Hcount & Hs & Hk & Hl & ls & Hcat & Href & Hch).
  pose proof (Forall2_length _ _ _ Href) as Hlen. pose proof (chain_length _ _ _ _ Hch) as Hlk.
  destruct (lookup_lt_is_Some_2 _ _ Hi) as [child Hchild]. rewrite Hchild.
  destruct (Forall2_lookup_l _ _ _ _ _ Href Hchild) as (l0 & Hl0 & Hr0).
  destruct (lookup_lt_is_Some_2 (node_keys node) before ltac:(lia)) as [k0 Hk0].
  pose proof (take_drop_middle _ _ _ Hk0) as Hkeys. pose proof (take_drop_middle _ _ _ Hl0) as Hls.
  rewrite <- Hkeys in Hch. rewrite <- Hls in Hch.
  apply chain_app in Hch as [Hc1 Hc2]; [|rewrite !length_take; lia].
  pose proof Hc2 as (mid & (Hne & Hsort0 & _) & _)%chain_right_cons.
  destruct l0 as [|[k v] l0]; [done|].
  rewrite (minimumKey_correct h child k v l0 fuel Hr0) by lia. cbn [rbind]. eexists. split; [done|].
  pose proof (first_key_ok _ _ _ _ _ Hr0) as Hkok.
  assert (Hnew : <[before:=k]> (node_keys node) = take before (node_keys node) ++ k :: drop (S before) (node_keys node)).
  { apply insert_take_drop. by eapply lookup_lt_Some. }
  split; [|split; [done|]].
  - split; [done|]. split; [unfold node_shape in *; rewrite Hl in Hs; cbn; by rewrite length_insert|].
    split; [by apply Forall_insert|]. split; [done|]. exists ls. split; [done|]. split; [done|].
    cbn [node_keys mk_branch]. rewrite Hnew, <- Hls. apply chain_join.
    + pose proof (chain_bounds _ _ _ _ Hc2) as Hb. cbn in Hb. apply Forall_cons in Hb as [Hb _].
      destruct (blt_trichotomy k0 k) as [Hlt|[->|?]]; [by eapply chain_hi_mono|done|done].
    + eapply chain_tighten_lo; [exact Hc2|]. apply chain_sorted in Hc2. cbn [concat app] in *.
      by apply sorted_head_min in Hc2.
  - cbn [node_keys mk_branch]. rewrite (keys_bytes_update _ _ _ _ Hk0). unfold key_ok in Hkok.
    pose proof (zlen_nonneg k0). lia.
Qed.

(** ** Dropping an emptied child *)

(** What a subtree without entries looks like after a deletion. *)
Definition emptied (c : change) : Prop :=
  c.2 = None /\ exists pageID, c.1 = mk_ref pageID 0 (Some (mk_leaf [] [] 0)).

Lemma chain_remove ls1 ls2 ks1 ks2 m1 l0 m2 :
  chain_left None ls1 ks1 m1 -> piece m1 l0 m2 -> chain_right m2 ls2 ks2 None -> ls1 ++ ls2 <> [] ->
  chain None (ls1 ++ ls2)
    (match rev ks1 with [] => tail ks2 | _ :: _ => removelast ks1 ++ ks2 end) None.
Proof.
  intros Hcl Hp Hcr Hne.
  destruct ks1 as [|k ks1 _] using rev_ind.
  - destruct ls1; [|done]. destruct ls2 as [|l2 ls2], ks2 as [|k2 ks2]; try done.
    destruct Hcr as [_ Hcr]. cbn [rev app tail]. by eapply chain_weaken.
  - rewrite rev_app_distr. cbn [rev app]. rewrite removelast_last.
    apply chain_left_snoc in Hcl as [-> Hc].
    destruct ls2 as [|l2 ls2], ks2 as [|k2 ks2]; try done.
    + rewrite !app_nil_r. by eapply chain_weaken.
    + destruct Hcr as [-> Hcr]. apply (chain_join None ls1 ks1 k2); [|done].
      eapply chain_hi_mono; [exact Hc|]. by eapply piece_sep.
Qed.

Lemma keys_bytes_tail ks : keys_bytes (tail ks) <= keys_bytes ks.
Proof. destruct ks as [|k ks]; cbn; [done|]. rewrite keys_bytes_cons. pose proof (zlen_nonneg k). lia. Qed.

Lemma keys_bytes_removelast ks : keys_bytes (removelast ks) <= keys_bytes ks.
Proof.
  destruct ks as [|k ks _] using rev_ind; [done|]. rewrite removelast_last, keys_bytes_app.
  pose proof (keys_bytes_nonneg [k]). lia.
Qed.

(** [pruneChild] when the child at the hole lost its last entry. *)
Lemma prune_empty h node l key cs1 child cs2 ls1 l0 ls2 ks1 ks2 m1 m2 c count fuel :
  hole tx kind h node l key cs1 child cs2 ls1 l0 ls2 ks1 ks2 m1 m2 ->
  node_leaf node = false -> Forall key_ok (node_keys node) ->
  emptied c -> count = zlen (concat ls1 ++ concat ls2) ->
  exists node' i, pruneChild tx kind fuel (replaceChild node (length cs1) c count) (length cs1) = Ok (node', i) /\
    match concat ls1 ++ concat ls2 with
    | [] => node' = mk_leaf [] [] 0
    | l' => holds (S h) node' l' /\ (i < length (node_children node'))%nat /\
            keys_bytes (node_keys node') <= keys_bytes (node_keys node)
    end.
Proof.
  intros [Hcs Hks Hl Hlen Hlen' _ Hcl Hp Hcr Hr1 _ Hr2 _ _ _ _] Hleaf Hk (Hc2 & pid & Hc1) Hcount.
  destruct c as [c1 c2]. cbn in Hc1, Hc2. subst c1 c2.
  pose proof (Forall2_length _ _ _ Hr1) as Hlen1. pose proof (Forall2_length _ _ _ Hr2) as Hlen2.
  assert (Hlk : length cs2 = length ks2).
  { destruct ls2, ks2 as [|k ks2]; try done. destruct Hcr as [_ Hcr]. apply chain_length in Hcr. cbn in *. lia. }
  unfold replaceChild, pruneChild. cbn [fst snd node_children mk_branch node_keys node_count].
  rewrite Hcs, Hks, insert_app_r_alt, Nat.sub_diag by lia. cbn [list_insert insert].
  rewrite list_lookup_middle by done. cbn [load ref_node rbind node_count mk_leaf]. cbn [Z.eqb].
  rewrite remove_at_app.
  assert (Hkeys : (match length cs1 with
      | O => (match ks1 ++ ks2 with [] => [] | _ :: keys => keys end, O)
      | S before => (remove_at (ks1 ++ ks2) before, before)
      end) = (match rev ks1 with [] => tail ks2 | _ :: _ => removelast ks1 ++ ks2 end, pred (length cs1))).
  { rewrite Hlen. destruct ks1 as [|k ks1 _] using rev_ind; [by destruct ks2|].
    rewrite rev_app_distr, length_app, Nat.add_1_r. cbn [rev app pred]. rewrite removelast_last.
    rewrite <- app_assoc. cbn [app]. by rewrite remove_at_app. }
  rewrite Hkeys. cbn [fst snd]. clear Hkeys.
  destruct (cs1 ++ cs2) as [|c cs] eqn:Ecs.
  - apply app_eq_nil in Ecs as [-> ->]. destruct ls1; [|done]. destruct ls2; [|done].
    cbn [concat app] in *. subst count. eexists _, _. split; [done|]. by rewrite zlen_nil.
  - assert (Hne : ls1 ++ ls2 <> []).
    { intros E. apply (f_equal length) in E. apply (f_equal length) in Ecs.
      rewrite length_app in *. cbn in *. lia. }
    pose proof (chain_remove _ _ _ _ _ _ _ Hcl Hp Hcr Hne) as Hch.
    pose proof (chain_nonempty _ _ _ _ Hch) as Hcne. rewrite concat_app in Hcne.
    pose proof (chain_length _ _ _ _ Hch) as Hchl.
    set (keys := match rev ks1 with [] => tail ks2 | _ => removelast ks1 ++ ks2 end) in *.
    exists (mk_branch keys (c :: cs) count), (pred (length cs1)). split; [done|].
    assert (Hkb : keys_bytes keys <= keys_bytes (ks1 ++ ks2) /\ Forall key_ok keys).
    { rewrite Hks in Hk. apply Forall_app in Hk as [Hk1 Hk2]. unfold keys.
      destruct (rev ks1) eqn:Erev.
      - apply (f_equal (@rev _)) in Erev. rewrite rev_involutive in Erev. subst ks1.
        split; [apply keys_bytes_tail|by apply Forall_tail].
      - rewrite !keys_bytes_app. pose proof (keys_bytes_removelast ks1). split; [lia|].
        apply Forall_app. split; [|done]. clear -Hk1. destruct ks1 as [|k ks1 _] using rev_ind; [done|].
        rewrite removelast_last. by apply Forall_app in Hk1 as [? _]. }
    destruct Hkb as [Hkb Hkf].
    destruct (concat ls1 ++ concat ls2) eqn:Econc; [done|]. rewrite <- Econc in *.
    cbn [node_children node_keys mk_branch]. split; [|split; [|done]].
    + split; [done|]. split.
      { unfold node_shape. cbn [node_leaf node_children node_keys mk_branch]. rewrite <- Ecs, <- Hchl, !length_app. lia. }
      split; [done|]. split; [done|]. exists (ls1 ++ ls2). split; [by rewrite concat_app|].
      split; [|done]. cbn [node_children mk_branch]. rewrite <- Ecs. by apply Forall2_app.
    + apply (f_equal length) in Ecs. rewrite length_app in Ecs. cbn in Ecs |- *. lia.
Qed.

(** ** Merging neighbours *)

Lemma merge_holds h leftNode rightNode la lb sep :
  holds h leftNode la -> holds h rightNode lb -> key_ok sep -> zlen (la ++ lb) < 2 ^ 64 ->
  sorted_keys (la ++ lb) ->
  Forall (fun k => blt k sep) la.*1 -> Forall (fun k => ~ blt k sep) lb.*1 ->
  node_leaf leftNode = node_leaf rightNode /\
  holds h
    (if node_leaf leftNode then
       mk_leaf (node_keys leftNode ++ node_keys rightNode) (node_values leftNode ++ node_values rightNode)
         (to_u64 (node_count leftNode + node_count rightNode))
     else
       mk_branch (node_keys leftNode ++ sep :: node_keys rightNode)
         (node_children leftNode ++ node_children rightNode)
         (to_u64 (node_count leftNode + node_count rightNode))) (la ++ lb).
Proof.
  intros (Hca & Hsa & Hka & Ha) (Hcb & Hsb & Hkb & Hb) Hsep Hmax Hsort Hla Hlb.
  assert (Hcount : to_u64 (node_count leftNode + node_count rightNode) = zlen (la ++ lb)).
  { rewrite Hca, Hcb, zlen_app in *. pose proof (zlen_nonneg la). pose proof (zlen_nonneg lb).
    apply Z.mod_small. lia. }
  unfold node_shape in *. destruct h as [|h].
  - destruct Ha as (Hl1 & Hk1 & Hv1 & _), Hb as (Hl2 & Hk2 & Hv2 & _). rewrite Hl1, Hl2 in *.
    split; [done|]. split; [done|]. split.
    { unfold node_shape. cbn. rewrite !length_app. lia. }
    split; [cbn; by apply Forall_app|]. cbn. by rewrite Hk1, Hk2, Hv1, Hv2, !fmap_app.
  - destruct Ha as (Hl1 & lsa & -> & Hra & Hcha), Hb as (Hl2 & lsb & -> & Hrb & Hchb). rewrite Hl1, Hl2 in *.
    split; [done|]. split; [done|]. split.
    { unfold node_shape. cbn. rewrite !length_app. cbn. lia. }
    split; [cbn; apply Forall_app; split; [done|by constructor]|]. split; [done|].
    exists (lsa ++ lsb). split; [by rewrite concat_app|]. split; [by apply Forall2_app|].
    cbn. apply chain_join; [by apply chain_tighten_hi|by eapply chain_tighten_lo].
Qed.

Lemma mergeChildren_correct h node l i :
  holds (S h) node l -> zlen l < 2 ^ 64 -> (S i < length (node_children node))%nat ->
  exists r, mergeChildren tx kind node i = Ok r /\
    match r with
    | None => True
    | Some node' => holds (S h) node' l /\ (i < length (node_children node'))%nat /\
        keys_bytes (node_keys node') <= keys_bytes (node_keys node)
    end.
Proof.
  intros Hh Hmax Hi. pose proof Hh as (Hcount & Hs & Hk & Hl & ls & Hcat & Href & Hch).
  pose proof (Forall2_length _ _ _ Href) as Hlen. pose proof (chain_length _ _ _ _ Hch) as Hlk.
  destruct (lookup_lt_is_Some_2 (node_children node) i ltac:(lia)) as [ca Ea].
  destruct (lookup_lt_is_Some_2 (node_children node) (S i) ltac:(lia)) as [cb Eb].
  destruct (lookup_lt_is_Some_2 (node_keys node) i ltac:(lia)) as [sep Es].
  destruct (Forall2_lookup_l _ _ _ _ _ Href Ea) as (la & Ela & Hra).
  destruct (Forall2_lookup_l _ _ _ _ _ Href Eb) as (lb & Elb & Hrb).
  unfold mergeChildren. rewrite Ea, Eb, Es.
  apply rep_holds in Hra as Hra'. destruct Hra' as (na & Hla & _ & Hha & _). rewrite Hla. cbn [rbind].
  apply rep_holds in Hrb as Hrb'. destruct Hrb' as (nb & Hlb & _ & Hhb & _). rewrite Hlb. cbn [rbind].
  assert (Hls : ls = take i ls ++ la :: lb :: drop (S (S i)) ls).
  { rewrite <- (take_drop_middle _ _ _ Ela) at 1. by rewrite (drop_S _ _ _ Elb). }
  assert (Hcs : node_children node = take i (node_children node) ++ ca :: cb :: drop (S (S i)) (node_children node)).
  { rewrite <- (take_drop_middle _ _ _ Ea) at 1. by rewrite (drop_S _ _ _ Eb). }
  assert (Hks : node_keys node = take i (node_keys node) ++ sep :: drop (S i) (node_keys node)).
  { by rewrite take_drop_middle. }
  pose proof Hch as Hch'. rewrite Hls, Hks in Hch'. apply chain_hole_two in Hch' as (m1 & m2 & Hcl & Hpa & Hpb & Hcr);
    [|rewrite !length_take; lia].
  pose proof Hpa as (Hnea & Hsorta & Hba). pose proof Hpb as (Hneb & Hsortb & Hbb).
  assert (Hfa : Forall (fun k => blt k sep) la.*1) by by eapply piece_bounds.
  assert (Hfb : Forall (fun k => ~ blt k sep) lb.*1) by (eapply Forall_impl; [exact Hbb|]; by intros x [? _]).
  pose proof (chain_sorted _ _ _ _ Hch) as Hsort.
  assert (Hsab : sorted_keys (la ++ lb)).
  { rewrite Hls, concat_app in Hsort. cbn [concat] in Hsort.
    apply sorted_keys_app in Hsort as (_ & Hsort & _). rewrite app_assoc in Hsort.
    by apply sorted_keys_app in Hsort as (Hsort & _ & _). }
  assert (Hlab : l = concat (take i ls) ++ (la ++ lb) ++ concat (drop (S (S i)) ls)).
  { rewrite Hcat, Hls at 1. rewrite concat_app. cbn [concat]. by rewrite <- !app_assoc. }
  assert (Hmab : zlen (la ++ lb) < 2 ^ 64).
  { rewrite Hlab, !zlen_app in Hmax. rewrite zlen_app. pose proof (zlen_nonneg (concat (take i ls))).
    pose proof (zlen_nonneg (concat (drop (S (S i)) ls))). lia. }
  assert (Hsepok : key_ok sep) by (rewrite Forall_lookup in Hk; by eapply Hk).
  destruct (merge_holds h na nb la lb sep Hha Hhb Hsepok Hmab Hsab Hfa Hfb) as [Heq Hm].
  rewrite Heq, Bool.eqb_reflx, <- Heq. cbn [negb].
  set (merged := if node_leaf na then _ else _) in *.
  destruct (nodeFits merged) eqn:Efit; cbn [negb]; [|by exists None].
  eexists (Some _). split; [done|].
  pose proof (holds_rep _ _ _ _ _ 0 Hm Efit) as Hrm.
  assert (Hch2 : remove_at (<[i:=new_ref merged]> (node_children node)) (S i) =
    take i (node_children node) ++ new_ref merged :: drop (S (S i)) (node_children node)).
  { rewrite insert_take_drop by lia. rewrite (drop_S _ _ _ Eb).
    rewrite (cons_middle (new_ref merged)), app_assoc.
    replace (S i) with (length (take i (node_children node) ++ [new_ref merged])) at 2
      by (rewrite length_app, length_take; cbn; lia).
    by rewrite remove_at_app, <- app_assoc. }
  assert (Hk2 : remove_at (node_keys node) i = take i (node_keys node) ++ drop (S i) (node_keys node)) by done.
  rewrite Hch2, Hk2. cbn [node_children node_keys mk_branch]. split; [|split].
  - split; [done|]. split.
    { unfold node_shape in *. rewrite Hl in Hs. cbn [node_leaf node_children node_keys mk_branch].
      rewrite !length_app, !length_take. cbn [length]. rewrite !length_drop. lia. }
    split; [cbn; rewrite Hks in Hk; apply Forall_app in Hk as [? Hk]; apply Forall_cons in Hk as [_ ?]; by apply Forall_app|].
    split; [done|]. exists (take i ls ++ (la ++ lb) :: drop (S (S i)) ls).
    split; [by rewrite concat_app|]. split.
    { cbn. apply Forall2_app; [by apply Forall2_take|]. constructor; [done|by apply Forall2_drop]. }
    cbn [node_keys mk_branch]. apply chain_hole; [rewrite !length_take; lia|]. exists m1, m2.
    split; [done|]. split; [|done]. split; [by destruct la|]. split; [done|].
    rewrite fmap_app. apply Forall_app. split.
    + apply Forall_forall. intros x Hx. rewrite Forall_forall in Hba. split; [by apply Hba|].
      destruct m2 as [b|]; [|done]. pose proof (piece_sep _ _ _ Hpb). rewrite Forall_forall in Hfa.
      eapply blt_trans; [by apply Hfa|done].
    + apply Forall_forall. intros x Hx. rewrite Forall_forall in Hbb. split; [|by apply Hbb].
      apply (above_trans m1 sep); [destruct m1; [by eapply piece_sep|done]|]. rewrite Forall_forall in Hfb. by apply Hfb.
  - rewrite length_app, length_take. cbn. lia.
  - rewrite Hks at 3. rewrite !keys_bytes_app, keys_bytes_cons. pose proof (zlen_nonneg sep). lia.
Qed.

Lemma mergeStep_correct h node l i fuel :
  holds (S h) node l -> zlen l < 2 ^ 64 -> (i < length (node_children node))%nat -> (h < fuel)%nat ->
  exists node' merges, mergeStep tx kind fuel node i = Ok (node', merges) /\ holds (S h) node' l /\
    keys_bytes (node_keys node') <= keys_bytes (node_keys node) + maxKey.
Proof.
  intros Hh Hmax Hi Hf. pose proof Hh as (_ & _ & _ & Hl & _). unfold mergeStep. rewrite Hl. cbn [negb andb].
  destruct (Nat.ltb_spec 1 (length (node_children node))) as [Hlt|].
  2: { exists node, 0. split; [done|]. split; [done|]. unfold maxKey. lia. }
  set (mi := if (length (node_children node) - 1 <=? i)%nat then (i - 1)%nat else i).
  assert (Hmi : (S mi < length (node_children node))%nat).
  { unfold mi. destruct (Nat.leb_spec (length (node_children node) - 1) i); lia. }
  destruct (mergeChildren_correct h node l mi Hh Hmax Hmi) as (r & Hr & Hcase). rewrite Hr. cbn [rbind].
  destruct r as [node'|]; [|exists node, 0; split; [done|]; split; [done|]; unfold maxKey; lia].
  destruct Hcase as (Hh' & Hi' & Hb').
  destruct (setMinimum_correct h node' l mi fuel Hh' Hi' Hf) as (node'' & Hset & Hh'' & _ & Hb'').
  rewrite Hset. cbn [rbind]. exists node'', 1. split; [done|]. split; [done|]. lia.
Qed.

(** ** Deleting *)

Definition delete_rep (h : nat) (c : change) (l : list KeyValue) : Prop :=
  match l with [] => emptied c | _ => change_rep tx kind h c l end.

Definition found (l : list KeyValue) (key : bytes) : bool :=
  match field l key with Some _ => true | None => false end.

Lemma leaf_bytes_app l1 l2 : leaf_bytes (l1 ++ l2) = leaf_bytes l1 + leaf_bytes l2.
Proof. unfold leaf_bytes. rewrite fmap_app, entries_size_app, zlen_app. lia. Qed.

Lemma delete_leaf node l l1 v l2 key pageID :
  holds 0 node l -> node_size node <= capacity -> l = l1 ++ (key, v) :: l2 -> zlen l < 2 ^ 64 ->
  key_position (node_keys node) key = length l1 ->
  let node' := mk_leaf (remove_at (node_keys node) (length l1)) (remove_at (node_values node) (length l1))
                 (to_u64 (node_count node - 1)) in
  delete_rep 0 (mk_ref pageID (node_count node') (Some node'), None) (l1 ++ l2).
Proof.
  intros Hh Hsize Hl Hmax Hp. cbv zeta. pose proof Hh as (Hc & Hs & Hk & Hleaf & Hkeys & Hvals & Hsort).
  assert (Hrk : remove_at (node_keys node) (length l1) = (l1 ++ l2).*1).
  { rewrite Hkeys, Hl, !fmap_app, <- (length_fmap fst l1). cbn. by rewrite remove_at_app. }
  assert (Hrv : remove_at (node_values node) (length l1) = (l1 ++ l2).*2).
  { rewrite Hvals, Hl, !fmap_app, <- (length_fmap snd l1). cbn. by rewrite remove_at_app. }
  assert (Hcount : to_u64 (node_count node - 1) = zlen (l1 ++ l2)).
  { rewrite Hc, Hl, !zlen_app, zlen_cons in *. pose proof (zlen_nonneg l1). pose proof (zlen_nonneg l2).
    unfold to_u64. rewrite Z.mod_small; lia. }
  rewrite Hrk, Hrv, Hcount. cbn [node_count mk_leaf].
  assert (Hh' : holds 0 (mk_leaf (l1 ++ l2).*1 (l1 ++ l2).*2 (zlen (l1 ++ l2))) (l1 ++ l2)).
  { split; [done|]. split; [unfold node_shape; cbn; by rewrite !length_fmap|]. split.
    - cbn. rewrite Hkeys, Hl, fmap_app in Hk. rewrite fmap_app. apply Forall_app in Hk as [? Hk].
      apply Forall_app. split; [done|]. by apply Forall_cons in Hk as [_ ?].
    - split; [done|]. split; [done|]. split; [done|]. rewrite Hl in Hsort.
      apply sorted_keys_app in Hsort as (H1 & H2 & H3). apply sorted_keys_cons in H2 as [H2 _].
      apply sorted_keys_app. split; [done|]. split; [done|]. eapply Forall_impl; [exact H3|].
      intros x Hx. by apply Forall_cons in Hx as [_ ?]. }
  assert (Hf' : nodeFits (mk_leaf (l1 ++ l2).*1 (l1 ++ l2).*2 (zlen (l1 ++ l2))) = true).
  { apply nodeFits_spec. split; [apply Hh'|]. split; [apply Hh'|].
    rewrite (leaf_node_size _ _ _ _ Hh'). rewrite (leaf_node_size _ _ _ _ Hh), Hl in Hsize.
    rewrite leaf_bytes_app in *. rewrite leaf_bytes_cons in Hsize.
    pose proof (zlen_nonneg key). pose proof (zlen_nonneg v). lia. }
  pose proof (holds_rep _ _ _ _ _ pageID Hh' Hf') as Hr. cbn [node_count mk_leaf] in Hr.
  destruct (l1 ++ l2) as [|e rest] eqn:E; [|done]. cbn. split; [done|]. by exists pageID.
Qed.

Lemma finish_branch h ref node l :
  holds (S h) node l -> zlen l < 2 ^ 64 -> l <> [] -> node_size node <= 2 * capacity - 32 ->
  exists c splits, splitBranch ref node = Ok (c, splits) /\ delete_rep (S h) c l.
Proof.
  intros Hh Hmax Hne Hsize. pose proof Hh as (_ & Hs & Hk & Hl & _).
  destruct (splitBranch_ok ref node Hs Hl Hk Hsize) as [[c n] Hsp]. exists c, n. split; [done|].
  unfold delete_rep. destruct l; [done|]. by eapply splitBranch_sound.
Qed.

(** The steps after the child has changed and still holds entries. *)
Lemma prune_nonempty h node l c i fuel cs1 cs2 l0' :
  holds (S h) node l -> zlen l < 2 ^ 64 -> node_children node = cs1 ++ c.1 :: cs2 -> i = length cs1 ->
  change_rep tx kind h c l0' -> l0' <> [] -> (h < fuel)%nat ->
  exists node', pruneChild tx kind fuel node i = Ok (node', i) /\ keeps h l node node' maxKey.
Proof.
  intros Hh Hmax Hcs -> Hc Hne Hf. unfold pruneChild. rewrite Hcs, list_lookup_middle by done.
  assert (exists child, load tx kind c.1 = Ok child /\ node_count child <> 0) as (child & Hload & Hcnt).
  { unfold change_rep in Hc. destruct c as [c1 [[sep r]|]]; cbn [fst snd] in *.
    - destruct Hc as (la & lb & _ & Ha & _ & Hnea & _). apply rep_holds in Ha as (n & Hl & _ & (Hn & _) & _).
      exists n. split; [done|]. rewrite Hn. destruct la; [done|]. rewrite zlen_cons. pose proof (zlen_nonneg la). lia.
    - apply rep_holds in Hc as (n & Hl & _ & (Hn & _) & _).
      exists n. split; [done|]. rewrite Hn. destruct l0'; [done|]. rewrite zlen_cons. pose proof (zlen_nonneg l0'). lia. }
  rewrite Hload. cbn [rbind]. destruct (Z.eqb_spec (node_count child) 0); [done|].
  destruct (setMinimum_correct h node l (length cs1) fuel Hh) as (node' & Hset & Hkeep); [|done|].
  { rewrite Hcs, length_app. cbn. lia. }
  rewrite Hset. cbn [rbind]. eauto.
Qed.

Lemma hole_del h node l key cs1 child cs2 ls1 l0 ls2 ks1 ks2 m1 m2 :
  hole tx kind h node l key cs1 child cs2 ls1 l0 ls2 ks1 ks2 m1 m2 ->
  del key l = concat ls1 ++ del key l0 ++ concat ls2 /\ field l key = field l0 key.
Proof. intros []. subst l. by rewrite del_app_r, del_app_l, field_app_r, field_app_l. Qed.

Lemma Forall_del (P : bytes -> Prop) key (l : list KeyValue) : Forall P l.*1 -> Forall P (del key l).*1.
Proof.
  intros Hl. apply Forall_forall. intros x Hx%elem_of_del. rewrite Forall_forall in Hl. auto.
Qed.

Lemma keys_bytes_replace node i c count h l :
  change_rep tx kind h c l ->
  keys_bytes (node_keys (replaceChild node i c count)) <= keys_bytes (node_keys node) + maxKey + 26.
Proof.
  intros Hc. pose proof (replaceChild_keys node i c count). pose proof (change_sep_bound _ _ _ _ _ Hc). lia.
Qed.

Lemma replaceChild_children node cs1 child cs2 c count :
  node_children node = cs1 ++ child :: cs2 ->
  exists cs2', node_children (replaceChild node (length cs1) c count) = cs1 ++ c.1 :: cs2'.
Proof.
  intros Hcs. unfold replaceChild. rewrite Hcs, insert_app_r_alt, Nat.sub_diag by lia.
  cbn [list_insert insert]. destruct c as [c1 [[sep r]|]]; cbn [fst snd node_children mk_branch]; [|eauto].
  rewrite (cons_middle c1), app_assoc.
  replace (S (length cs1)) with (length (cs1 ++ [c1])) by (rewrite length_app; cbn; lia).
  rewrite insert_at_app, <- app_assoc. cbn. eauto.
Qed.

(** The branch part of [delete], once the key is gone from the child. *)
Lemma delete_branch h ref node l key v cs1 child cs2 ls1 l0 ls2 ks1 ks2 m1 m2 c fuel :
  hole tx kind h node l key cs1 child cs2 ls1 l0 ls2 ks1 ks2 m1 m2 ->
  holds (S h) node l -> node_size node <= capacity -> zlen l < 2 ^ 64 -> (h < fuel)%nat ->
  field l0 key = Some v -> delete_rep h c (del key l0) ->
  exists node1 i node2 merges c' splits,
    pruneChild tx kind fuel (replaceChild node (length cs1) c (to_u64 (node_count node - 1))) (length cs1)
      = Ok (node1, i) /\
    mergeStep tx kind fuel node1 i = Ok (node2, merges) /\
    splitBranch ref node2 = Ok (c', splits) /\ delete_rep (S h) c' (del key l).
Proof.
  intros Hhole Hh Hsize Hmax Hf Hfield Hc. pose proof Hh as (Hcount & Hshape & Hk & Hl & _).
  destruct (hole_del _ _ _ _ _ _ _ _ _ _ _ _ _ _ Hhole) as [Hdel Hfl]. rewrite <- Hfl in Hfield.
  pose proof (length_del key l) as Hlen. rewrite Hfield in Hlen. pose proof (zlen_nonneg (del key l)).
  assert (Hcnt : to_u64 (node_count node - 1) = zlen (del key l)).
  { rewrite Hcount, Hlen. apply Z.mod_small. lia. }
  assert (Hmax' : zlen (del key l) < 2 ^ 64) by lia.
  rewrite Hcnt. rewrite (branch_node_size _ Hshape Hl) in Hsize. change capacity with 16320 in Hsize.
  assert (Hs0 : sorted_keys l0) by (eapply piece_sorted, (hole_piece _ _ _ _ _ _ _ _ _ _ _ _ _ _ _ _ Hhole)).
  destruct (del key l0) as [|e rest] eqn:Ed.
  - cbn [delete_rep] in Hc. cbn [app] in Hdel. rewrite Hdel in *.
    destruct (prune_empty h node l key cs1 child cs2 ls1 l0 ls2 ks1 ks2 m1 m2 c
      (zlen (concat ls1 ++ concat ls2)) fuel Hhole Hl Hk Hc eq_refl) as (node1 & i & Hp & Hcase).
    destruct (concat ls1 ++ concat ls2) as [|e rest] eqn:Ecat.
    + subst node1. eexists _, _, _, _, _, _. split; [exact Hp|]. split; [done|]. split; [done|].
      split; [done|]. by eexists.
    + destruct Hcase as (Hh1 & Hi & Hb).
      destruct (mergeStep_correct h node1 _ i fuel Hh1 Hmax' Hi Hf) as (node2 & merges & Hm & Hh2 & Hb2).
      destruct (finish_branch h ref node2 _ Hh2 Hmax') as (c' & splits & Hsp & Hc'); [done| |eauto 10].
      rewrite branch_node_size by apply Hh2. unfold maxKey in *. change capacity with 16320. lia.
  - assert (Hcr : change_rep tx kind h c (del key l0)) by by rewrite Ed. clear Hc.
    rewrite <- Ed in Hdel. assert (Hne0 : del key l0 <> []) by by rewrite Ed.
    assert (Hh1 : holds (S h) (replaceChild node (length cs1) c (zlen (del key l))) (del key l)).
    { rewrite Hdel. eapply replaceChild_holds; [exact Hhole|done|done|done|done|by apply sorted_del| |done].
      apply Forall_del. destruct (hole_piece _ _ _ _ _ _ _ _ _ _ _ _ _ _ _ _ Hhole) as (_ & _ & Hb). exact Hb. }
    pose proof (keys_bytes_replace node (length cs1) c (zlen (del key l)) _ _ Hcr) as Hb1.
    destruct (replaceChild_children node cs1 child cs2 c (zlen (del key l))) as [cs2' Hcs'];
      [apply (hole_children _ _ _ _ _ _ _ _ _ _ _ _ _ _ _ _ Hhole)|].
    destruct (prune_nonempty h _ _ c (length cs1) fuel cs1 cs2' (del key l0) Hh1 Hmax' Hcs' eq_refl Hcr Hne0 Hf)
      as (node1 & Hp & Hh1' & Hlen1 & Hb1').
    destruct (mergeStep_correct h node1 _ (length cs1) fuel Hh1' Hmax') as (node2 & merges & Hm & Hh2 & Hb2);
      [rewrite Hlen1, Hcs', length_app; cbn; lia|done|].
    destruct (finish_branch h ref node2 _ Hh2 Hmax') as (c' & splits & Hsp & Hc').
    { rewrite Hdel, Ed. intros E. apply app_eq_nil in E as [_ E]. done. }
    { rewrite branch_node_size by apply Hh2. unfold maxKey in *. change capacity with 16320. lia. }
    eexists _, _, _, _, _, _. eauto.
Qed.

Lemma delete_correct h ref l key fuel :
  rep h ref l -> zlen l < 2 ^ 64 -> (h < fuel)%nat ->
  exists c counts, delete tx kind fuel ref key = Ok (found l key, c, counts) /\
    if found l key then delete_rep h c (del key l) else c = (ref, None).
Proof.
  revert ref l fuel; induction h as [|h IH]; intros ref l [|fuel] Hr Hmax Hf; try lia;
    apply rep_holds in Hr as (node & Hload & Hcnt & Hh & Hsize); cbn [delete]; rewrite Hload; cbn [rbind].
  - pose proof Hh as (_ & _ & _ & Hl & Hkeys & _ & Hsort). rewrite Hl, Hkeys.
    destruct (leaf_split l key Hsort) as (l1 & l2 & -> & Hp & H1 & Hcase). rewrite Hp. unfold found.
    rewrite field_app_r, del_app_r by done.
    destruct Hcase as [(v & l2' & -> & H2 & ->)|[H2 ->]]; cbn [negb].
    + cbn [field del]. rewrite !beqb_refl. eexists _, _. split; [done|]. rewrite <- Hkeys.
      eapply (delete_leaf node _ l1 v l2' key); [exact Hh|done|done|done|by rewrite Hkeys].
    + rewrite field_above by done. eauto.
  - destruct (find_hole tx kind h node l key Hh) as (cs1 & child & cs2 & ls1 & l0 & ls2 & ks1 & ks2 & m1 & m2 & Hhole).
    pose proof Hh as (Hcount & Hshape & Hk & Hl & _).
    rewrite Hl, (hole_lookup _ _ _ _ _ _ _ _ _ _ _ _ _ _ _ _ Hhole).
    destruct (hole_del _ _ _ _ _ _ _ _ _ _ _ _ _ _ Hhole) as [Hdel Hfield].
    pose proof (hole_child_length _ _ _ _ _ _ _ _ _ _ _ _ _ _ _ _ Hhole).
    destruct (IH child l0 fuel) as (c & counts & Hd & Hcase);
      [apply (hole_rep _ _ _ _ _ _ _ _ _ _ _ _ _ _ _ _ Hhole)|lia|lia|].
    rewrite Hd. cbn [rbind]. unfold found in *. rewrite Hfield.
    destruct (field l0 key) as [v|] eqn:Ef; [|cbn [negb]; eauto]. cbn [negb].
    rewrite (hole_position _ _ _ _ _ _ _ _ _ _ _ _ _ _ _ _ Hhole).
    destruct (delete_branch h ref node l key v _ _ _ _ _ _ _ _ _ _ c fuel Hhole Hh Hsize Hmax ltac:(lia) Ef Hcase)
      as (node1 & i & node2 & merges & c' & splits & -> & Hm & Hsp & Hc'). cbn [rbind].
    rewrite Hm. cbn [rbind]. rewrite Hsp. cbn [rbind]. eauto.
Qed.

(** The root after a deletion: single-child roots are dropped. *)
Lemma collapseRoot_correct h ref l fuel :
  rep h ref l -> (h < fuel)%nat -> exists ref' h', collapseRoot tx kind fuel ref = Ok ref' /\ rep h' ref' l /\ (h' <= h)%nat.
Proof.
  revert ref fuel; induction h as [|h IH]; intros ref [|fuel] Hr Hf; try lia;
    pose proof Hr as (node & Hload & _ & Hh & _)%rep_holds; cbn [collapseRoot]; rewrite Hload; cbn [rbind].
  - destruct Hh as (_ & _ & _ & -> & _). cbn [orb]. by exists ref, O.
  - destruct Hh as (_ & Hs & _ & Hl & ls & -> & Href & Hch). rewrite Hl. cbn [orb].
    pose proof (chain_length _ _ _ _ Hch) as Hlen. pose proof (Forall2_length _ _ _ Href) as Hlen2.
    destruct (node_keys node) as [|k ks] eqn:Ek.
    + rewrite zlen_nil, Z.eqb_refl. cbn [negb]. destruct ls as [|l0 [|l1 ls]]; try done.
      inversion Href as [|c ? cs ? Hc Hcs E1 E2]; subst. inversion Hcs; subst. cbn [concat] in *. rewrite app_nil_r in *.
      destruct (IH c fuel Hc ltac:(lia)) as (ref' & h' & -> & ? & ?). exists ref', h'. split; [done|]. split; [done|lia].
    + destruct (Z.eqb_spec (zlen (k :: ks)) 0) as [E|]; [rewrite zlen_cons in E; pose proof (zlen_nonneg ks); lia|].
      cbn [negb]. exists ref, (S h). done.
Qed.
End Delete.
