(* ===== verification/TreeScan.v ===== *)
(** * Range scans of the tree

    [scan] of [CowTree] returns the entries in [start, end) in key order, up to
    the limit. *)
From S2P Require Import Prelude Bytes Layout Hashes PageFormat Entries NodeCodec CowTree.
From S2P Require Import TreeShape TreeInvariant TreeRep.

(** An empty bound is open. *)
Definition in_bounds (start end_ : bytes) (e : KeyValue) : bool :=
  (beqb start [] || negb (bltb e.1 start)) && (beqb end_ [] || bltb e.1 end_).

(** [out] and then as many of [r] as the limit leaves room for. *)
Definition grab (limit : Z) (out r : list KeyValue) : list KeyValue :=
  if 0 <? limit then out ++ take (Z.to_nat (limit - zlen out)) r else out ++ r.

Definition full (limit : Z) (out : list KeyValue) : bool := (0 <? limit) && (limit <=? zlen out).

Definition scan_result (start end_ : bytes) (limit : Z) (l : list KeyValue) : list KeyValue :=
  grab limit [] (List.filter (in_bounds start end_) l).

Lemma grab_nil limit out : grab limit out [] = out.
Proof. unfold grab. destruct (0 <? limit); [by rewrite take_nil, app_nil_r|by rewrite app_nil_r]. Qed.

Lemma grab_full limit out r : full limit out = true -> grab limit out r = out.
Proof.
  unfold full, grab. rewrite andb_true_iff, Z.leb_le. intros [-> H].
  replace (Z.to_nat (limit - zlen out)) with O by lia. by rewrite take_0, app_nil_r.
Qed.

Lemma grab_app limit out a b : grab limit (grab limit out a) b = grab limit out (a ++ b).
Proof.
  unfold grab. destruct (0 <? limit) eqn:E; [|by rewrite <- app_assoc].
  rewrite <- app_assoc, take_app. do 3 f_equal. unfold zlen. rewrite length_app, length_take. lia.
Qed.

Lemma grab_cons limit out e r : grab limit out (e :: r) = grab limit (grab limit out [e]) r.
Proof. by rewrite grab_app. Qed.

Lemma filter_none {A} (p : A -> bool) l : Forall (fun x => p x = false) l -> List.filter p l = [].
Proof. induction 1 as [|x l Hx Hl IH]; [done|]. cbn. by rewrite Hx. Qed.

Lemma filter_app_ {A} (p : A -> bool) l1 l2 : List.filter p (l1 ++ l2) = List.filter p l1 ++ List.filter p l2.
Proof. induction l1 as [|x l1 IH]; [done|]. cbn. destruct (p x); cbn; by rewrite IH. Qed.

(** Entries before a start bound, or from an end bound on. *)
Lemma before_start start end_ (l : list KeyValue) :
  start <> [] -> Forall (fun k => blt k start) l.*1 -> List.filter (in_bounds start end_) l = [].
Proof.
  intros Hs Hl. apply filter_none. rewrite (Forall_fmap fst) in Hl. eapply Forall_impl; [exact Hl|].
  intros [k v] Hk. unfold in_bounds. cbn in *. destruct (beqb start []) eqn:E; [by apply beqb_eq in E|].
  apply bltb_lt in Hk. by rewrite Hk.
Qed.

Lemma from_end start end_ (l : list KeyValue) :
  end_ <> [] -> Forall (fun k => ~ blt k end_) l.*1 -> List.filter (in_bounds start end_) l = [].
Proof.
  intros Hs Hl. apply filter_none. rewrite (Forall_fmap fst) in Hl. eapply Forall_impl; [exact Hl|].
  intros [k v] Hk. unfold in_bounds. cbn in *. destruct (beqb end_ []) eqn:E; [by apply beqb_eq in E|].
  apply bltb_ge in Hk. rewrite Hk. apply andb_false_r.
Qed.

Lemma scanLeaf_spec start end_ limit l out :
  sorted_keys l -> full limit out = false ->
  Forall (fun k => start = [] \/ ~ blt k start) l.*1 ->
  scanLeaf l end_ limit out = grab limit out (List.filter (in_bounds start end_) l).
Proof.
  revert out; induction l as [|[k v] l IH]; intros out Hs Hf Hst; cbn [scanLeaf].
  { by rewrite grab_nil. }
  pose proof Hs as [Hs' Hkl]%sorted_keys_cons. cbn in Hst. apply Forall_cons in Hst as [Hk Hst].
  assert (Hb1 : beqb start [] || negb (bltb k start) = true).
  { destruct Hk as [->|Hk]; [by rewrite beqb_refl|]. apply bltb_ge in Hk. rewrite Hk. apply orb_true_r. }
  destruct (beqb end_ []) eqn:Ee; cbn [negb andb].
  2: destruct (bltb k end_) eqn:Ek; cbn [negb andb].
  3: { apply beqb_neq in Ee. rewrite from_end; [by rewrite grab_nil|done|].
       apply bltb_ge in Ek. constructor; [done|]. eapply Forall_impl; [exact Hkl|].
       intros x Hx Hxe. apply Ek. by eapply blt_trans. }
  all: assert (Hin : in_bounds start end_ (k, v) = true) by (unfold in_bounds; cbn; rewrite Hb1, Ee; cbn; try done).
  all: cbn [List.filter]; rewrite Hin.
  all: rewrite (grab_cons limit out (k, v)).
  all: assert (Hg : grab limit out [(k, v)] = out ++ [(k, v)])
    by (unfold grab, full in *; destruct (0 <? limit); [|done]; cbn [andb] in Hf; apply Z.leb_gt in Hf;
        rewrite take_ge; [done|cbn; lia]).
  all: rewrite Hg; fold (full limit (out ++ [(k, v)])); destruct (full limit (out ++ [(k, v)])) eqn:Ef;
    [by rewrite grab_full|by apply IH].
Qed.

Section Scan.
Context {T : Type} `{PageStore T}.
Variables (tx : T) (kind : TreeKind).

Lemma scanChildren_spec h scanf start end_ limit children ls lo keys before out :
  Forall2 (rep tx kind h) children ls ->
  (forall child l out, rep tx kind h child l -> scanf child out = Ok (grab limit out (List.filter (in_bounds start end_) l))) ->
  chain lo ls keys None -> (match before with Some k => Forall (fun x => ~ blt x k) (concat ls).*1 | None => True end) ->
  full limit out = false ->
  scanChildren scanf children (before :: (Some <$> keys)) end_ limit out =
    Ok (grab limit out (List.filter (in_bounds start end_) (concat ls))).
Proof.
  intros Href Hscan. revert lo keys before out. induction Href as [|child l children ls Hc Href IH];
    intros lo keys before out Hch Hbef Hfull; [done|]. cbn [scanChildren].
  destruct (match before with Some k => _ | None => false end) eqn:Estop.
  { destruct before as [k|]; [|done]. apply andb_true_iff in Estop as [He Hk].
    apply negb_true_iff, beqb_neq in He. apply negb_true_iff, bltb_ge in Hk.
    rewrite from_end; [by rewrite grab_nil|done|]. eapply Forall_impl; [exact Hbef|].
    intros x Hx Hxe. destruct (blt_trichotomy k x) as [?|[<-|?]]; [|done|done]. apply Hk. by eapply blt_trans. }
  rewrite (Hscan child l out Hc). cbn [rbind concat]. rewrite filter_app_, <- grab_app.
  set (out' := grab limit out _). fold (full limit out'). destruct (full limit out') eqn:Ef.
  { by rewrite grab_full. }
  apply chain_right_cons in Hch as (mid & Hp & Hr).
  destruct ls as [|l' ls], keys as [|k keys]; try done.
  - inversion Href; subst. cbn. by rewrite grab_nil.
  - destruct Hr as [-> Hr]. rewrite fmap_cons. eapply IH; [exact Hr| |done].
    by apply chain_bounds in Hr.
Qed.

Lemma scan_correct h ref l start end_ limit out fuel :
  rep tx kind h ref l -> (h < fuel)%nat ->
  scan tx kind fuel ref start end_ limit out = Ok (grab limit out (List.filter (in_bounds start end_) l)).
Proof.
  revert ref l out fuel; induction h as [|h IH]; intros ref l out [|fuel] Hr Hf; try lia;
    pose proof Hr as (node & Hload & _ & Hh & _)%rep_holds; cbn [scan]; fold (full limit out);
    (destruct (full limit out) eqn:Efull; [by rewrite grab_full|]); rewrite Hload; cbn [rbind].
  - destruct Hh as (_ & _ & _ & -> & -> & -> & Hs). rewrite zip_fst_snd. f_equal.
    destruct (beqb start []) eqn:Es.
    + apply beqb_eq in Es as ->. rewrite drop_0. apply scanLeaf_spec; [done|done|].
      apply Forall_forall. by left.
    + apply beqb_neq in Es. destruct (leaf_split l start Hs) as (l1 & l2 & -> & -> & H1 & Hcase).
      rewrite drop_app_length, filter_app_, before_start by done. cbn [app].
      apply sorted_keys_app in Hs as (_ & Hs2 & _). apply scanLeaf_spec; [done|done|].
      destruct Hcase as [(v & l2' & -> & H2 & _)|[H2 _]].
      * cbn. constructor; [right; apply blt_irrefl|]. eapply Forall_impl; [exact H2|].
        intros x Hx. right. intros Hx'. by apply (blt_asym start x).
      * eapply Forall_impl; [exact H2|]. intros x Hx. right. intros Hx'. by apply (blt_asym start x).
  - pose proof Hh as (_ & _ & _ & Hl & ls & -> & Href & Hch). rewrite Hl.
    assert (Hsc : forall child l out, rep tx kind h child l ->
      scan tx kind fuel child start end_ limit out = Ok (grab limit out (List.filter (in_bounds start end_) l))).
    { intros. apply IH; [done|lia]. }
    destruct (beqb start []) eqn:Es.
    + rewrite !drop_0. by eapply scanChildren_spec.
    + apply beqb_neq in Es. destruct (chain_keys_sorted _ _ _ _ Hch) as [Hks _].
      destruct (scan_position_split _ start Hks) as (ks1 & ks2 & Hk & -> & H1 & H2).
      pose proof (chain_length _ _ _ _ Hch) as Hlen. rewrite Hk in Hch, Hlen |- *. rewrite length_app in Hlen.
      destruct ks1 as [|k ks1 _] using rev_ind.
      { cbn [length app]. rewrite !drop_0. by eapply scanChildren_spec. }
      rewrite <- app_assoc in Hch. cbn [app] in Hch. rewrite length_app in *. cbn [length] in *.
      rewrite <- (take_drop (S (length ks1)) ls) in Hch |- *.
      apply chain_app in Hch as [Hch1 Hch2]; [|rewrite length_take; lia].
      rewrite concat_app, filter_app_. rewrite (before_start start end_ (concat (take (S (length ks1)) ls)) Es).
      2: { apply chain_below in Hch1. eapply Forall_impl; [exact Hch1|]. intros x Hx. cbn in Hx.
           apply Forall_app in H1 as [_ H1]. apply Forall_cons in H1 as [H1 _].
           destruct (blt_trichotomy k start) as [?|[<-|?]]; [by eapply blt_trans|done|done]. }
      cbn [app]. rewrite Nat.add_1_r. cbn [drop].
      assert (Hseps : drop (length ks1) (Some <$> (ks1 ++ [k]) ++ ks2) = Some k :: (Some <$> ks2)).
      { rewrite <- app_assoc, fmap_app. rewrite <- (length_fmap Some ks1). by rewrite drop_app_length. }
      rewrite Hseps. eapply scanChildren_spec; [|exact Hsc|exact Hch2| |done].
      * by apply Forall2_drop.
      * by apply chain_bounds in Hch2.
Qed.
End Scan.
