(* ===== verification/Tree.v ===== *)
(** * The copy-on-write tree is a sorted map

    The theorems of [CowTree]'s operations: [Get], [Put], [Delete] and [Scan] of
    a tree that holds the sorted entries [l] are lookup, insertion, removal and
    range selection on [l]. *)
From S2P Require Import Prelude Bytes Layout Hashes PageFormat Entries NodeCodec CowTree.
From S2P Require Import TreeShape TreeInvariant TreeRep TreeDelete TreeScan.

(** ** Fixed page stores *)

(** A store of readable pages only, which the examples use. *)
Definition no_pages : PageStore (list (Z * bytes)) := {|
  readPage pages id := match List.find (fun p => p.1 =? id) pages with Some p => Ok p.2 | None => Err ErrCorrupt end;
  appendPage pages _ _ _ _ _ := Err ErrStorageLimit |}.
#[local] Existing Instance no_pages.

(** ** Sequences of operations *)

Inductive operation :=
| OpPut (key value : bytes)
| OpDelete (key : bytes).

Definition operate (l : list KeyValue) (op : operation) : list KeyValue :=
  match op with OpPut key value => ins key value l | OpDelete key => del key l end.

Definition operation_ok (op : operation) : Prop :=
  match op with OpPut key value => key_ok key /\ small_entry (key, value) | OpDelete key => key <> [] end.

Section Tree.
Context {T : Type} `{PageStore T}.
Variables (tx : T) (kind : TreeKind).

Definition perform (fuel : nat) (root : nodeRef) (op : operation) : result nodeRef :=
  match op with
  | OpPut key value => let* (root, _) := Put tx kind fuel root key value in Ok root
  | OpDelete key => let* (_, root, _) := Delete tx kind fuel root key in Ok root
  end.

(** A write transaction's updates of one tree. *)
Fixpoint run (fuel : nat) (root : nodeRef) (ops : list operation) : result nodeRef :=
  match ops with
  | [] => Ok root
  | op :: ops => let* root := perform fuel root op in run fuel root ops
  end.

Lemma key_guard key : (zlen key =? 0) || (maxKey <? zlen key) = false <-> key_ok key.
Proof.
  pose proof (zlen_nonneg key). unfold key_ok. rewrite orb_false_iff, Z.eqb_neq, Z.ltb_ge. lia.
Qed.

Lemma rep_empty : rep tx kind 0 (mk_ref 0 0 (Some (mk_leaf [] [] 0))) [].
Proof.
  cbn [rep]. eexists. split; [done|]. split; [done|]. split; [done|].
  split; [|split; [done|]; split; [done|]; split; [done|]; apply sorted_keys_nil].
  split; [done|]. split; [constructor|]. cbv. discriminate.
Qed.

Lemma Put_rep h root l key value fuel :
  rep tx kind h root l -> zlen l + 1 < 2 ^ 64 -> (h < fuel)%nat -> key_ok key ->
  match Put tx kind fuel root key value with
  | Ok (root', _) => exists h', (h' <= S h)%nat /\ rep tx kind h' root' (ins key value l)
  | Err e => e = ErrNodeFull /\ ~ Forall small_entry ((key, value) :: l)
  end.
Proof.
  intros Hr Hmax Hf Hkey. unfold Put. rewrite (proj2 (key_guard key) Hkey).
  destruct (put tx kind fuel root key value) as [[c splits]|e] eqn:Ep; cbn [rbind].
  - eapply growRoot_rep; [by eapply put_correct|].
    pose proof (zlen_ins_le key value l (rep_sorted _ _ _ _ _ Hr)). lia.
  - split; [by eapply put_error|]. intros [Hs Hl]%Forall_cons.
    destruct (put_succeeds tx kind h root l key value fuel) as [r Hr']; try done. congruence.
Qed.

Lemma Delete_rep h root l key fuel :
  rep tx kind h root l -> zlen l < 2 ^ 64 -> (S h < fuel)%nat -> key <> [] ->
  exists root' counts h', Delete tx kind fuel root key = Ok (found l key, root', counts) /\
    (h' <= S h)%nat /\ rep tx kind h' root' (del key l).
Proof.
  intros Hr Hmax Hf Hkey. unfold Delete.
  destruct (Z.eqb_spec (zlen key) 0) as [E|_]; [by apply zlen_0 in E|].
  destruct (delete_correct tx kind h root l key fuel Hr Hmax ltac:(lia)) as (c & counts & -> & Hc).
  cbn [rbind]. unfold found in *. destruct (field l key) as [v|] eqn:Ef; cbn [negb].
  2: { exists root, counts, h. rewrite del_absent by done. split; [done|]. split; [lia|done]. }
  assert (exists hg, (hg <= S h)%nat /\ rep tx kind hg (growRoot c) (del key l)) as (hg & Hhg & Hg).
  { unfold delete_rep in Hc. destruct (del key l) as [|e l'] eqn:Ed.
    - destruct Hc as [Hc2 [pid Hc1]]. exists O. split; [lia|]. destruct c as [c1 c2]. cbn in *. subst. cbn. apply rep_empty.
    - rewrite <- Ed in *. apply growRoot_rep; [done|].
      pose proof (length_del key l) as Hl. destruct (field l key); lia. }
  destruct (collapseRoot_correct tx kind hg (growRoot c) _ fuel Hg ltac:(lia)) as (root' & h' & -> & Hr' & Hle).
  cbn [rbind]. exists root', counts, h'. split; [done|]. split; [lia|done].
Qed.

Lemma Scan_rep h root l start end_ limit fuel :
  rep tx kind h root l -> (h < fuel)%nat ->
  Scan tx kind fuel root start end_ limit =
    if negb (beqb start []) && negb (beqb end_ []) && bltb end_ start then Err ErrCorrupt
    else Ok (scan_result start end_ limit l).
Proof.
  intros Hr Hf. unfold Scan. destruct (_ && bltb end_ start); [done|].
  by apply (scan_correct tx kind h).
Qed.

Lemma run_rep ops fuel h root l :
  rep tx kind h root l -> Forall small_entry l -> Forall operation_ok ops ->
  zlen l + zlen ops < 2 ^ 64 -> (h + length ops < fuel)%nat ->
  exists root' h', run fuel root ops = Ok root' /\ (h' <= h + length ops)%nat /\
    rep tx kind h' root' (fold_left operate ops l).
Proof.
  revert h root l; induction ops as [|op ops IH]; intros h root l Hr Hsm Hops Hmax Hf.
  { exists root, h. split; [done|]. cbn. split; [lia|done]. }
  apply Forall_cons in Hops as [Hop Hops]. rewrite zlen_cons in Hmax. cbn [length] in Hf.
  pose proof (zlen_nonneg ops). cbn [run fold_left]. destruct op as [key value|key]; cbn [perform operate].
  - destruct Hop as [Hk Hs]. pose proof (Put_rep h root l key value fuel Hr ltac:(lia) ltac:(lia) Hk) as HP.
    destruct (Put tx kind fuel root key value) as [[root' splits]|e]; cbn [rbind].
    2: { destruct HP as [_ []]. by constructor. }
    destruct HP as (h' & Hh' & Hr').
    pose proof (zlen_ins_le key value l (rep_sorted _ _ _ _ _ Hr)).
    destruct (IH h' root' _ Hr') as (root2 & h2 & Hrun & Hh2 & Hr2);
      [by apply small_ins|done|lia|lia|]. exists root2, h2. split; [done|]. split; [cbn [length]; lia|done].
  - destruct (Delete_rep h root l key fuel Hr ltac:(lia) ltac:(lia) Hop) as (root' & counts & h' & -> & Hh' & Hr').
    cbn [rbind]. pose proof (length_del key l) as Hl.
    destruct (IH h' root' _ Hr') as (root2 & h2 & Hrun & Hh2 & Hr2); [|done| |lia|].
    + clear -Hsm. induction Hsm as [|[k v] l ? ? ?]; cbn; [done|]. destruct (beqb key k); [done|by constructor].
    + destruct (field l key); lia.
    + exists root2, h2. split; [done|]. split; [cbn [length]; lia|done].
Qed.

(** ** The theorems *)

(** On a tree that holds [l], [Put] returns a tree that holds [l] with the
    key bound to the value; it refuses the keys that are empty or longer than
    4096 bytes, and fails otherwise only with ErrNodeFull and only when some
    entry takes more than half of a page. *)
Lemma Put_refines h root l key value fuel :
  rep tx kind h root l -> zlen l + 1 < 2 ^ 64 -> (h < fuel)%nat ->
  match Put tx kind fuel root key value with
  | Ok (root', _) => key_ok key /\ exists h', (h' <= S h)%nat /\ rep tx kind h' root' (ins key value l)
  | Err ErrKeyTooBig => ~ key_ok key
  | Err e => e = ErrNodeFull /\ key_ok key /\ ~ Forall small_entry ((key, value) :: l)
  end.
Proof.
  intros Hr Hmax Hf. destruct ((zlen key =? 0) || (maxKey <? zlen key)) eqn:E.
  - unfold Put. rewrite E. rewrite <- key_guard. congruence.
  - pose proof (proj1 (key_guard key) E) as Hk. pose proof (Put_rep h root l key value fuel Hr Hmax Hf Hk) as HP.
    destruct (Put tx kind fuel root key value) as [[root' s]|e]; [done|]. by destruct HP as [-> ?].
Qed.

(** C10: [Get] finds exactly the value bound to a key. *)
Lemma Get_refines h root l key fuel :
  rep tx kind h root l -> (h < fuel)%nat -> Get tx kind fuel root key = Ok (field l key).
Proof. apply getBorrowed_correct. Qed.

(** C8: [Delete] never fails on a nonempty key: it reports whether the key was
    there and returns a tree that holds the other entries. *)
Lemma Delete_refines h root l key fuel :
  rep tx kind h root l -> zlen l < 2 ^ 64 -> (S h < fuel)%nat ->
  match Delete tx kind fuel root key with
  | Ok (removed, root', _) => key <> [] /\ removed = found l key /\
      exists h', (h' <= S h)%nat /\ rep tx kind h' root' (del key l)
  | Err e => e = ErrCorrupt /\ key = []
  end.
Proof.
  intros Hr Hmax Hf. destruct key as [|b key]; [done|].
  destruct (Delete_rep h root l (b :: key) fuel Hr Hmax Hf) as (root' & counts & h' & -> & ? & ?); [done|].
  split; [done|]. split; [done|]. eauto.
Qed.

(** C9: [Scan] returns the entries from the start bound up to the end bound, in
    key order, cut at the limit; it refuses bounds that cross. *)
Lemma Scan_refines h root l start end_ limit fuel :
  rep tx kind h root l -> (h < fuel)%nat ->
  Scan tx kind fuel root start end_ limit =
    if negb (beqb start []) && negb (beqb end_ []) && bltb end_ start then Err ErrCorrupt
    else Ok (scan_result start end_ limit l).
Proof. apply Scan_rep. Qed.

(** C11: every operation on a tree that holds a map is the operation of the map:
    [Get] and [Scan] show its bindings; [Put] and [Delete] leave a tree of the
    updated map, one level taller at most; the errors are characterised, and
    ErrNodeFull needs an entry of more than half a page. *)
Theorem tree_operations_refine h root l fuel :
  rep tx kind h root l -> zlen l + 1 < 2 ^ 64 -> (S h < fuel)%nat ->
  (forall key, Get tx kind fuel root key = Ok (field l key)) /\
  (forall start end_ limit, Scan tx kind fuel root start end_ limit =
     if negb (beqb start []) && negb (beqb end_ []) && bltb end_ start then Err ErrCorrupt
     else Ok (scan_result start end_ limit l)) /\
  (forall key value,
     match Put tx kind fuel root key value with
     | Ok (root', _) => key_ok key /\ exists h', (h' <= S h)%nat /\ rep tx kind h' root' (ins key value l)
     | Err ErrKeyTooBig => ~ key_ok key
     | Err e => e = ErrNodeFull /\ key_ok key /\ ~ Forall small_entry ((key, value) :: l)
     end) /\
  (forall key,
     match Delete tx kind fuel root key with
     | Ok (removed, root', _) => key <> [] /\ removed = found l key /\
         exists h', (h' <= S h)%nat /\ rep tx kind h' root' (del key l)
     | Err e => e = ErrCorrupt /\ key = []
     end).
Proof.
  intros Hr Hmax Hf. split; [|split; [|split]].
  - intros key. apply (Get_refines h); [done|lia].
  - intros start end_ limit. apply (Scan_refines h); [done|lia].
  - intros key value. apply Put_refines; [done|done|lia].
  - intros key. apply Delete_refines; [done|lia|done].
Qed.

(** C9: any sequence of insertions of entries of at most half a page and of
    deletions, on a new tree, succeeds; lookups and scans of the result are those
    of the sorted map the operations describe. *)
Theorem tree_is_sorted_map ops fuel :
  Forall operation_ok ops -> zlen ops < 2 ^ 64 -> (length ops < fuel)%nat ->
  exists empty root, OpenTree tx kind 0 = Ok empty /\ run fuel empty ops = Ok root /\
    (forall key, Get tx kind fuel root key = Ok (field (fold_left operate ops []) key)) /\
    (forall start end_ limit, start = [] \/ end_ = [] \/ ~ blt end_ start ->
       Scan tx kind fuel root start end_ limit = Ok (scan_result start end_ limit (fold_left operate ops []))).
Proof.
  intros Hops Hmax Hf. destruct (run_rep ops fuel 0 _ [] rep_empty) as (root & h & Hrun & Hh & Hr); try done.
  exists (mk_ref 0 0 (Some (mk_leaf [] [] 0))), root. split; [done|]. split; [done|]. split.
  - intros key. apply (getBorrowed_correct tx kind h); [done|lia].
  - intros start end_ limit Hb. rewrite (Scan_rep h root (fold_left operate ops [])) by (done || lia).
    destruct (beqb start []) eqn:Es; [done|]. destruct (beqb end_ []) eqn:Ee; [done|].
    apply beqb_neq in Es, Ee. destruct Hb as [?|[?|Hb]]; [done|done|]. apply bltb_ge in Hb. by rewrite Hb.
Qed.

(** The bytes an entry takes in a leaf, its slot included. *)
Definition entry_bytes (e : KeyValue) : Z := 8 + (2 + 4 + zlen e.1 + zlen e.2).

(** A leaf of three entries no two neighbours of which share a page. *)
Lemma three_wide_split node e1 e2 e3 :
  holds tx kind 0 node [e1; e2; e3] -> capacity - 32 < entry_bytes e1 + entry_bytes e2 ->
  capacity - 32 < entry_bytes e2 + entry_bytes e3 -> splitLeaf (mk_ref 0 0 None) node = Err ErrNodeFull.
Proof.
  intros Hh H12 H23. pose proof Hh as (_ & Hs & Hk & Hl & Hkeys & _). unfold splitLeaf.
  pose proof (leaf_node_size tx kind _ _ Hh) as Hsize. pose proof (leaf_entries tx kind _ _ Hh) as Hent.
  assert (Hpos : 0 <= entry_bytes e1 /\ 0 <= entry_bytes e3).
  { unfold entry_bytes. pose proof (zlen_nonneg e1.1). pose proof (zlen_nonneg e1.2).
    pose proof (zlen_nonneg e3.1). pose proof (zlen_nonneg e3.2). lia. }
  assert (Hall : node_size node = 32 + (entry_bytes e1 + (entry_bytes e2 + entry_bytes e3))).
  { destruct e1, e2, e3. rewrite Hsize, !leaf_bytes_cons. unfold entry_bytes. change (leaf_bytes []) with 0. cbn [fst snd]. lia. }
  destruct (nodeFits node) eqn:Ef; [apply nodeFits_spec in Ef as (_ & _ & ?); lia|].
  destruct (byteBalancedLeafSplit node) as [b|] eqn:Eb; [|done].
  apply leaf_split_sound in Eb as (_ & Hb & H1 & H2); [|done]. rewrite size_to_all in H2 by done.
  assert (H0 : size_to node 0 = 0) by (unfold size_to; by rewrite take_0, entries_size_nil).
  assert (Hs1 : size_to node 1 = entry_bytes e1).
  { rewrite (size_to_S node 0 (leafEntry e1.1 e1.2)) by (by rewrite Hent).
    rewrite zlen_leafEntry, H0. unfold entry_bytes. lia. }
  assert (Hs2 : size_to node 2 = entry_bytes e1 + entry_bytes e2).
  { rewrite (size_to_S node 1 (leafEntry e2.1 e2.2)) by (by rewrite Hent).
    rewrite zlen_leafEntry, Hs1. unfold entry_bytes. lia. }
  rewrite Hkeys in Hb. cbn in Hb. destruct b as [|[|[|b]]]; [lia| | |lia]; lia.
Qed.

(** Between two entries of a full leaf, inserting an entry that fits no page
    together with either neighbour fails with ErrNodeFull although each of the
    three fits a page of its own: a leaf is only ever cut in two. *)
Theorem Put_three_wide_entries root k1 v1 k2 v2 k3 v3 fuel :
  rep tx kind 0 root [(k1, v1); (k3, v3)] -> blt k1 k2 -> blt k2 k3 -> key_ok k2 -> (0 < fuel)%nat ->
  capacity - 32 < entry_bytes (k1, v1) + entry_bytes (k2, v2) ->
  capacity - 32 < entry_bytes (k2, v2) + entry_bytes (k3, v3) ->
  Put tx kind fuel root k2 v2 = Err ErrNodeFull.
Proof.
  intros Hr H1 H2 Hk Hf Hs1 Hs2. unfold Put. rewrite (proj2 (key_guard k2) Hk).
  destruct fuel as [|fuel]; [lia|]. cbn [put].
  apply rep_holds in Hr as (node & -> & _ & Hh & _). cbn [rbind].
  pose proof (putLeaf_holds tx kind node _ k2 v2 Hh Hk eq_refl) as Hp.
  assert (Hins : ins k2 v2 [(k1, v1); (k3, v3)] = [(k1, v1); (k2, v2); (k3, v3)]).
  { cbn. unfold blt in H1, H2. rewrite (bcompare_antisym k1 k2), H1. cbn. by rewrite H2. }
  rewrite Hins in Hp. pose proof (three_wide_split _ _ _ _ Hp Hs1 Hs2) as Hsp.
  pose proof Hh as (_ & _ & _ & -> & _). unfold splitLeaf in *. destruct (nodeFits _); [done|].
  destruct (byteBalancedLeafSplit _); [|done]. by destruct (_ !! _).
Qed.
End Tree.

(** ** The theorems on concrete trees *)

Section Witnesses.
Definition leaf_ref (l : list KeyValue) : nodeRef := mk_ref 0 (zlen l) (Some (mk_leaf l.*1 l.*2 (zlen l))).

(** A tree of two leaves. *)
Definition two_leaves : nodeRef :=
  mk_ref 0 3 (Some (mk_branch [bs "c"] [leaf_ref [(bs "a", bs "1")]; leaf_ref [(bs "c", bs "3"); (bs "e", bs "5")]] 3)).
Definition two_leaves_entries : list KeyValue := [(bs "a", bs "1"); (bs "c", bs "3"); (bs "e", bs "5")].

Lemma leaf_rep l :
  sorted_keys l -> Forall key_ok l.*1 -> leaf_bytes l <= capacity - 32 ->
  rep (T:=list (Z * bytes)) [] TreePrimary 0 (leaf_ref l) l.
Proof.
  intros Hs Hk Hb. apply rep_holds.
  exists (mk_leaf l.*1 l.*2 (zlen l)). split; [done|]. split; [done|].
  assert (Hh : holds (T:=list (Z * bytes)) [] TreePrimary 0 (mk_leaf l.*1 l.*2 (zlen l)) l).
  { split; [done|]. split; [unfold node_shape; cbn; by rewrite !length_fmap|]. done. }
  split; [done|]. rewrite (leaf_node_size _ _ _ _ Hh). lia.
Qed.

Ltac concrete_keys := repeat constructor; cbv; try discriminate.

Lemma two_leaves_rep : rep (T:=list (Z * bytes)) [] TreePrimary 1 two_leaves two_leaves_entries.
Proof.
  cbn [rep]. exists (mk_branch [bs "c"] [leaf_ref [(bs "a", bs "1")]; leaf_ref [(bs "c", bs "3"); (bs "e", bs "5")]] 3).
  split; [done|]. split; [done|]. split; [done|]. split.
  { split; [done|]. split; [concrete_keys|]. cbv. discriminate. }
  split; [done|]. exists [[(bs "a", bs "1")]; [(bs "c", bs "3"); (bs "e", bs "5")]]. split; [done|]. split.
  - constructor; [|constructor; [|constructor]]; (apply leaf_rep; [concrete_keys|concrete_keys|cbv; discriminate]).
  - cbn. repeat split; try done; concrete_keys.
Qed.

Lemma tree_operations_refine_witness :
  Get (T:=list (Z * bytes)) [] TreePrimary 3 two_leaves (bs "e") = Ok (Some (bs "5")) /\
  Scan (T:=list (Z * bytes)) [] TreePrimary 3 two_leaves (bs "b") (bs "e") 1 = Ok [(bs "c", bs "3")] /\
  match Put (T:=list (Z * bytes)) [] TreePrimary 3 two_leaves (bs "b") (bs "2") with
  | Ok (root', _) => key_ok (bs "b") /\
      exists h', (h' <= 2)%nat /\ rep [] TreePrimary h' root' (ins (bs "b") (bs "2") two_leaves_entries)
  | Err ErrKeyTooBig => ~ key_ok (bs "b")
  | Err e => e = ErrNodeFull /\ key_ok (bs "b") /\ ~ Forall small_entry ((bs "b", bs "2") :: two_leaves_entries)
  end /\
  match Delete (T:=list (Z * bytes)) [] TreePrimary 3 two_leaves (bs "c") with
  | Ok (removed, root', _) => bs "c" <> [] /\ removed = found two_leaves_entries (bs "c") /\
      exists h', (h' <= 2)%nat /\ rep [] TreePrimary h' root' (del (bs "c") two_leaves_entries)
  | Err e => e = ErrCorrupt /\ bs "c" = []
  end.
Proof.
  destruct (tree_operations_refine [] TreePrimary 1 two_leaves two_leaves_entries 3 two_leaves_rep ltac:(reflexivity) ltac:(lia))
    as (H1 & H2 & H3 & H4).
  split; [exact (H1 (bs "e"))|]. split; [exact (H2 (bs "b") (bs "e") 1)|]. split; [exact (H3 (bs "b") (bs "2"))|exact (H4 (bs "c"))].
Defined.

Lemma tree_is_sorted_map_witness :
  let ops := [OpPut (bs "b") (bs "2"); OpPut (bs "a") (bs "1"); OpDelete (bs "b")] in
  exists empty root, OpenTree (T:=list (Z * bytes)) [] TreePrimary 0 = Ok empty /\
    run [] TreePrimary 4 empty ops = Ok root /\
    (forall key, Get [] TreePrimary 4 root key = Ok (field (fold_left operate ops []) key)) /\
    (forall start end_ limit, start = [] \/ end_ = [] \/ ~ blt end_ start ->
       Scan [] TreePrimary 4 root start end_ limit = Ok (scan_result start end_ limit (fold_left operate ops []))).
Proof.
  apply (tree_is_sorted_map [] TreePrimary); [|reflexivity|cbn; lia].
  repeat constructor; cbv; discriminate.
Defined.

(** Document records of 8045, 8191 and 8045 bytes under 16-byte identifiers. *)
Lemma Put_three_wide_entries_witness :
  let key b := replicate 16 b in
  Put (T:=list (Z * bytes)) [] TreePrimary 1
    (leaf_ref [(key x01, zeros 8070); (key x03, zeros 8070)]) (key x02) (zeros 8216) = Err ErrNodeFull.
Proof.
  cbv zeta. apply (Put_three_wide_entries [] TreePrimary _ (replicate 16 x01) (zeros 8070) _ _ (replicate 16 x03) (zeros 8070)).
  - apply leaf_rep; [concrete_keys|concrete_keys|vm_compute; discriminate].
  - reflexivity.
  - reflexivity.
  - split; cbv; discriminate.
  - lia.
  - vm_compute. reflexivity.
  - vm_compute. reflexivity.
Defined.
End Witnesses.
