(* ===== verification/Flush.v ===== *)
(** * Writing a tree to pages

    [PageStoreLaws] states what the tree needs of a transaction's pages;
    [flush_correct] shows that the pages a flush writes read back as the tree in
    memory. *)
From S2P Require Import Prelude Bytes Layout Hashes PageFormat Entries NodeCodec CowTree.
From S2P Require Import TreeShape TreeInvariant TreeRep TreeDelete.

(** The page types of trees. *)
Definition tree_page_type (t : Z) : Prop := exists kind, t = (treePageTypes kind).1 \/ t = (treePageTypes kind).2.

(** What an appended page reads back as. *)
Definition reads_as {T} `{PageStore T} (tx : T) (id t n : Z) (payload : bytes) : Prop :=
  exists raw page, readPage tx id = Ok raw /\ DecodePage raw id = Ok page /\
    page_Type page = t /\ page_ItemCount page = n /\ page_Payload page = payload.

(** A transaction's pages. [available] pages are those no later write touches:
    staged pages and committed pages that are not free. *)
Class PageStoreLaws (T : Type) `{PageStore T} := {
  store_ok : T -> Prop;
  available : T -> Z -> Prop;
  available_id tx id : store_ok tx -> available tx id -> 2 <= id < 2 ^ 64;
  (** An append of a tree page fails only for lack of space. *)
  appendPage_error tx t n payload e :
    store_ok tx -> tree_page_type t -> 0 <= n < 2 ^ 32 -> 0 < zlen payload <= capacity ->
    appendPage tx t 0 n 0 payload = Err e -> e = ErrStorageLimit;
  appendPage_ok tx t n payload id tx' :
    store_ok tx -> tree_page_type t -> 0 <= n < 2 ^ 32 -> 0 < zlen payload <= capacity ->
    appendPage tx t 0 n 0 payload = Ok (id, tx') ->
    store_ok tx' /\ available tx' id /\ reads_as tx' id t n payload /\
    (forall p, available tx p -> p <> id /\ available tx' p /\ readPage tx' p = readPage tx p) }.

Section Flush.
Context {T : Type} `{PageStoreLaws T}.
Variable kind : TreeKind.

(** [tx'] keeps every available page of [tx]. *)
Definition extends (tx tx' : T) : Prop :=
  forall p, available tx p -> available tx' p /\ readPage tx' p = readPage tx p.

#[export] Instance extends_preorder : PreOrder extends.
Proof.
  split; [done|]. intros a b c Hab Hbc p Hp. destruct (Hab p Hp) as [H1 E1]. destruct (Hbc p H1) as [H2 E2].
  split; [done|congruence].
Qed.

(** A leaf has no children and a branch no values. *)
Definition unmixed (node : treeNode) : Prop :=
  if node_leaf node then node_children node = [] else node_values node = [].

Unset Elimination Schemes.
(** Every page below a reference is available; loaded nodes of it are dirty, or
    are what their page holds. *)
Inductive sound (tx : T) : nodeRef -> Prop :=
| sound_page pageID count :
    available tx pageID ->
    (forall node, reference tx kind pageID = Ok node -> Forall (sound tx) (node_children node)) ->
    sound tx (mk_ref pageID count None)
| sound_dirty pageID count node :
    node_dirty node = true -> unmixed node -> Forall (sound tx) (node_children node) ->
    sound tx (mk_ref pageID count (Some node))
| sound_clean pageID count node :
    node_dirty node = false -> pageID <> 0 -> available tx pageID -> reference tx kind pageID = Ok node ->
    Forall (sound tx) (node_children node) ->
    sound tx (mk_ref pageID count (Some node)).
Set Elimination Schemes.

Lemma sound_children tx ref node : sound tx ref -> load tx kind ref = Ok node -> Forall (sound tx) (node_children node).
Proof.
  intros Hs. unfold load. inversion Hs as [p c Ha Hc|p c n Hd Hu Hc|p c n Hd Hp Ha Hr Hc]; subst; cbn [ref_node ref_pageID ref_count].
  - intros Hl. inv_ok. destruct (negb _) in Hl; [done|]. inv_ok. subst. by apply Hc.
  - by intros [= <-].
  - by intros [= <-].
Qed.

Lemma reference_extends tx tx' pageID :
  extends tx tx' -> available tx pageID -> reference tx' kind pageID = reference tx kind pageID.
Proof. intros He Ha. unfold reference. by rewrite (proj2 (He pageID Ha)). Qed.

(** ** Updates keep references sound *)

Definition sound_change (tx : T) (c : change) : Prop :=
  sound tx c.1 /\ match c.2 with Some (_, sibling) => sound tx sibling | None => True end.

Lemma sound_new_ref tx node : node_dirty node = true -> unmixed node -> Forall (sound tx) (node_children node) -> sound tx (new_ref node).
Proof. intros. by apply sound_dirty. Qed.

Lemma splitLeaf_change tx ref node c splits :
  node_dirty node = true -> node_leaf node = true -> node_children node = [] -> splitLeaf ref node = Ok (c, splits) -> sound_change tx c.
Proof.
  intros Hd Hl Hc. unfold splitLeaf. destruct (nodeFits node).
  { intros [= <- _]. split; [|done]. apply sound_dirty; [done|unfold unmixed; by rewrite Hl|by rewrite Hc]. }
  destruct (byteBalancedLeafSplit node) as [b|]; [|done]. destruct (node_keys node !! b); [|done].
  intros [= <- _]. split; apply sound_new_ref; done.
Qed.

Lemma splitBranch_change tx ref node c splits :
  node_dirty node = true -> unmixed node -> Forall (sound tx) (node_children node) -> splitBranch ref node = Ok (c, splits) ->
  sound_change tx c.
Proof.
  intros Hd Hu Hc. unfold splitBranch. destruct (nodeFits node).
  { intros [= <- _]. split; [|done]. by apply sound_dirty. }
  destruct (byteBalancedBranchSplit node) as [b|]; [|done]. destruct (node_keys node !! b); [|done].
  intros [= <- _]. split; apply sound_new_ref; try done; cbn [mk_branch node_children];
    [by apply Forall_take|by apply Forall_drop].
Qed.

Lemma Forall_insert_at {A} (P : A -> Prop) l i x : Forall P l -> P x -> Forall P (insert_at l i x).
Proof. intros. unfold insert_at. apply Forall_app. split; [by apply Forall_take|]. constructor; [done|by apply Forall_drop]. Qed.

Lemma Forall_remove_at {A} (P : A -> Prop) l i : Forall P l -> Forall P (remove_at l i).
Proof. intros. unfold remove_at. apply Forall_app. split; [by apply Forall_take|by apply Forall_drop]. Qed.

Lemma replaceChild_children_sound tx node i c count :
  Forall (sound tx) (node_children node) -> sound_change tx c ->
  Forall (sound tx) (node_children (replaceChild node i c count)).
Proof.
  intros Hc [H1 H2]. unfold replaceChild. destruct c as [c1 [[sep sibling]|]]; cbn in *.
  - apply Forall_insert_at; [|done]. by apply Forall_insert.
  - by apply Forall_insert.
Qed.

Lemma replaceChild_dirty node i c count :
  node_dirty (replaceChild node i c count) = true /\ unmixed (replaceChild node i c count).
Proof. unfold replaceChild. by destruct c.2 as [[]|]. Qed.

Lemma put_sound tx fuel ref key value c splits :
  sound tx ref -> put tx kind fuel ref key value = Ok (c, splits) -> sound_change tx c.
Proof.
  revert ref c splits; induction fuel as [|fuel IH]; intros ref c splits Hs Hp; [done|]. cbn [put] in Hp.
  destruct (load tx kind ref) as [node|] eqn:El; [|done]. cbn [rbind] in Hp.
  pose proof (sound_children _ _ _ Hs El) as Hc. destruct (node_leaf node) eqn:Elf.
  - eapply splitLeaf_change; [..|exact Hp]; unfold putLeaf; by destruct (key_at _ _ _).
  - destruct (node_children node !! _) as [child|] eqn:Ech; [|done]. inv_ok. destruct a as [c0 s0]. inv_ok.
    destruct a as [c1 s1]. inv_ok. injection Hp as <- _.
    assert (Hch : sound tx child) by (rewrite Forall_lookup in Hc; by eapply Hc).
    eapply splitBranch_change; [apply replaceChild_dirty|apply replaceChild_dirty| |eassumption].
    apply replaceChild_children_sound; [done|]. by eapply IH.
Qed.

Lemma growRoot_sound tx c : sound_change tx c -> sound tx (growRoot c).
Proof.
  intros [H1 H2]. unfold growRoot. destruct c as [c1 [[sep sibling]|]]; cbn in *; [|done].
  apply sound_new_ref; [done|done|]. by repeat constructor.
Qed.

Lemma Put_sound tx fuel root key value root' splits :
  sound tx root -> Put tx kind fuel root key value = Ok (root', splits) -> sound tx root'.
Proof.
  intros Hs. unfold Put. destruct (_ || _); [done|]. intros Hp. inv_ok. destruct a as [c s]. inv_ok.
  injection Hp as <- _. apply growRoot_sound. by eapply put_sound.
Qed.

(** A branch while [delete] works on it. *)
Definition sound_node (tx : T) (node : treeNode) : Prop :=
  node_dirty node = true /\ unmixed node /\ Forall (sound tx) (node_children node).

Lemma setMinimum_sound tx fuel node i node' :
  sound_node tx node -> setMinimum tx kind fuel node i = Ok node' -> sound_node tx node'.
Proof.
  intros Hs. unfold setMinimum. destruct i as [|i]; [by intros [= <-]|].
  destruct (node_children node !! S i); [|done]. intros Hm. inv_ok. subst. split; [done|]. split; [done|apply Hs].
Qed.

Lemma pruneChild_sound tx fuel node i node' j :
  sound_node tx node -> pruneChild tx kind fuel node i = Ok (node', j) -> sound_node tx node'.
Proof.
  intros Hs. pose proof Hs as (_ & _ & Hc). unfold pruneChild. destruct (node_children node !! i) as [child|]; [|done].
  intros Hp. inv_ok. destruct (node_count a =? 0).
  - pose proof (Forall_remove_at _ _ i Hc) as Hr. destruct (match i with O => _ | S _ => _ end) as [keys i'].
    destruct (remove_at (node_children node) i) eqn:E; injection Hp as <- _; split; done.
  - inv_ok. injection Hp as <- _. by eapply setMinimum_sound.
Qed.

Lemma mergeChildren_sound tx node i node' :
  sound_node tx node -> mergeChildren tx kind node i = Ok (Some node') -> sound_node tx node'.
Proof.
  intros (_ & _ & Hc). unfold mergeChildren.
  destruct (node_children node !! i) as [ca|] eqn:Ea; [|done].
  destruct (node_children node !! S i) as [cb|] eqn:Eb; [|done].
  destruct (node_keys node !! i) as [sep|]; [|done]. intros Hm. inv_ok.
  assert (Ha : sound tx ca) by (rewrite Forall_lookup in Hc; by eapply Hc).
  assert (Hb : sound tx cb) by (rewrite Forall_lookup in Hc; by eapply Hc).
  pose proof (sound_children _ _ _ Ha Hok) as Hca. pose proof (sound_children _ _ _ Hb Hok0) as Hcb.
  destruct (negb (Bool.eqb _ _)) in Hm; [done|]. destruct (negb (nodeFits _)) in Hm; [done|].
  injection Hm as <-. split; [done|]. split; [done|]. cbn [mk_branch node_children]. apply Forall_remove_at. apply Forall_insert; [done|].
  destruct (node_leaf a); apply sound_new_ref; try done. by apply Forall_app.
Qed.

Lemma mergeStep_sound tx fuel node i node' merges :
  sound_node tx node -> mergeStep tx kind fuel node i = Ok (node', merges) -> sound_node tx node'.
Proof.
  intros Hs. unfold mergeStep. destruct (negb (node_leaf node) && _); [|by intros [= <- _]].
  intros Hm. inv_ok. destruct a as [node1|]; [|by injection Hm as <- _]. inv_ok. injection Hm as <- _.
  eapply setMinimum_sound; [|eassumption]. by eapply mergeChildren_sound.
Qed.

Lemma delete_sound tx fuel ref key removed c counts :
  sound tx ref -> delete tx kind fuel ref key = Ok (removed, c, counts) -> sound_change tx c.
Proof.
  revert ref removed c counts; induction fuel as [|fuel IH]; intros ref removed c counts Hs Hd; [done|].
  cbn [delete] in Hd. destruct (load tx kind ref) as [node|] eqn:El; [|done]. cbn [rbind] in Hd.
  pose proof (sound_children _ _ _ Hs El) as Hc. destruct (node_leaf node) eqn:Elf.
  - destruct (negb _) in Hd; injection Hd as _ <- _; (split; [|done]); [done|]. by apply sound_dirty.
  - destruct (node_children node !! _) as [child|] eqn:Ech; [|done].
    assert (Hch : sound tx child) by (rewrite Forall_lookup in Hc; by eapply Hc).
    inv_ok. destruct a as [[removed' c0] counts0]. destruct (negb removed').
    { injection Hd as _ <- _. by split. }
    inv_ok. destruct a as [node1 j]. inv_ok. destruct a as [node2 m]. inv_ok. destruct a as [c1 s1]. inv_ok.
    injection Hd as _ <- _. apply IH in Hok; [|done].
    apply pruneChild_sound in Hok0.
    2: { split; [apply replaceChild_dirty|]. split; [apply replaceChild_dirty|]. by apply replaceChild_children_sound. }
    apply mergeStep_sound in Hok1; [|done]. by eapply splitBranch_change; [..|eassumption]; apply Hok1.
Qed.

Lemma collapseRoot_sound tx fuel root root' :
  sound tx root -> collapseRoot tx kind fuel root = Ok root' -> sound tx root'.
Proof.
  revert root; induction fuel as [|fuel IH]; intros root Hs Hc; [done|]. cbn [collapseRoot] in Hc.
  destruct (load tx kind root) as [node|] eqn:El; [|done]. cbn [rbind] in Hc.
  pose proof (sound_children _ _ _ Hs El) as Hch. destruct (_ || _) in Hc; [by injection Hc as <-|].
  destruct (node_children node) as [|child [|]]; [| |done].
  - destruct (_ =? _) in Hc; [|done]. injection Hc as <-. by apply sound_dirty.
  - apply Forall_cons in Hch as [? _]. by apply (IH child).
Qed.

Lemma Delete_sound tx fuel root key removed root' counts :
  sound tx root -> Delete tx kind fuel root key = Ok (removed, root', counts) -> sound tx root'.
Proof.
  intros Hs. unfold Delete. destruct (_ =? 0); [done|]. intros Hd. inv_ok. destruct a as [[r c] n].
  destruct (negb r); [by injection Hd as _ <- _|]. inv_ok. injection Hd as _ <- _.
  eapply collapseRoot_sound; [|eassumption]. apply growRoot_sound. by eapply delete_sound.
Qed.

(** ** Later pages leave earlier ones alone *)

Lemma sound_extends tx tx' ref : extends tx tx' -> sound tx ref -> sound tx' ref.
Proof.
  intros He. revert ref. fix IH 2. intros ref [p c Ha Hc|p c n Hd Hu Hc|p c n Hd Hp Ha Hr Hc].
  - apply sound_page; [by apply He|]. intros node Hn. rewrite (reference_extends tx) in Hn by done.
    specialize (Hc node Hn). induction Hc as [|r rs Hr Hrs IHs]; constructor; [by apply IH|done].
  - apply sound_dirty; [done|done|]. induction Hc as [|r rs Hr Hrs IHs]; constructor; [by apply IH|done].
  - apply sound_clean; [done|done|by apply He|by rewrite (reference_extends tx)|].
    induction Hc as [|r' rs Hr' Hrs IHs]; constructor; [by apply IH|done].
Qed.

Lemma load_extends tx tx' ref : extends tx tx' -> sound tx ref -> load tx' kind ref = load tx kind ref.
Proof.
  intros He Hs. unfold load. inversion Hs; subst; cbn; try done. by rewrite (reference_extends tx).
Qed.

Lemma rep_extends tx tx' h ref l :
  extends tx tx' -> sound tx ref -> rep tx kind h ref l -> rep tx' kind h ref l.
Proof.
  intros He. revert ref l; induction h as [|h IH]; intros ref l Hs (node & Hl & Hc & Hn & Hf & Hb);
    exists node; rewrite (load_extends tx) by done; do 4 (split; [done|]); [done|].
  destruct Hb as (Hlf & ls & -> & Href & Hch). split; [done|]. exists ls. split; [done|]. split; [|done].
  pose proof (sound_children _ _ _ Hs Hl) as Hcs. clear -IH Href Hcs.
  induction Href as [|r l rs ls Hr Hrs IHs]; constructor; apply Forall_cons in Hcs as [??]; auto.
Qed.

(** The pages from [pageID] on hold [l]. *)
Definition stored (tx : T) (h : nat) (pageID : Z) (l : list KeyValue) : Prop :=
  rep tx kind h (mk_ref pageID (zlen l) None) l /\ sound tx (mk_ref pageID (zlen l) None).

Lemma stored_extends tx tx' h pageID l : extends tx tx' -> stored tx h pageID l -> stored tx' h pageID l.
Proof. intros He [Hr Hs]. split; [by eapply rep_extends|by eapply sound_extends]. Qed.

Lemma stored_available tx h pageID l : stored tx h pageID l -> available tx pageID.
Proof. intros [_ Hs]. by inversion Hs. Qed.

Lemma reference_clean tx pageID node : reference tx kind pageID = Ok node -> node_dirty node = false.
Proof.
  unfold reference. intros Hr. inv_ok. destruct (DecodePage a pageID) as [page|]; [|done].
  destruct (accepts _ _); [|done]. destruct (decodeTreeNode page) as [n|] eqn:E; [|done]. injection Hr as <-.
  unfold decodeTreeNode in E. repeat (destruct (_ || _) in E; [done|]).
  destruct (if leaf_page_type (page_Type page) then _ else _) in E; [done|]. inv_ok.
  destruct (leaf_page_type (page_Type page)) in E; destruct (negb _) in E; try done; by injection E as <-.
Qed.


(** Opening a stored tree. *)
Lemma OpenTree_stored tx h pageID l :
  store_ok tx -> stored tx h pageID l ->
  exists root, OpenTree tx kind pageID = Ok root /\ rep tx kind h root l /\ sound tx root.
Proof.
  intros Hok [Hr Hs]. pose proof Hr as (node & Hl & Hc & Hh & Hsz)%rep_holds.
  inversion Hs as [p c Ha Hcs| |]; subst. pose proof (available_id tx pageID Hok Ha) as [Hid _].
  unfold OpenTree. destruct (Z.eqb_spec pageID 0); [lia|].
  unfold load in Hl. cbn [ref_node ref_pageID ref_count] in Hl. inv_ok.
  destruct (negb _) in Hl; [done|]. injection Hl as ->. rewrite Hok0. cbn [rbind].
  exists (mk_ref pageID (node_count node) (Some node)). split; [done|]. split.
  - apply rep_holds. exists node. split; [done|]. split; [apply Hh|done].
  - apply sound_clean; [by eapply reference_clean|lia|done|done|by apply Hcs].
Qed.

(** ** Flushing *)

Lemma tree_types : leaf_page_type (treePageTypes kind).1 = true /\ leaf_page_type (treePageTypes kind).2 = false.
Proof. by destruct kind. Qed.

Lemma sorted_increasing ks p :
  sorted_list ks -> (match p with Some b => Forall (blt b) ks | None => True end) -> increasing p ks.
Proof.
  revert p; induction ks as [|k ks IH]; intros p Hs Hp; [done|]. cbn.
  inversion Hs as [|? ? Hs' Hf]; subst. split; [|by apply IH].
  destruct p; [|done]. by apply Forall_cons in Hp as [? _].
Qed.

(** The node [flush] encodes, once its children are written. *)
Lemma flushed_node tx tx' h leaf keys values children count l id :
  store_ok tx ->
  let node := mk_node leaf false keys values children count in
  holds tx kind h (mk_node leaf false keys values (unload_ref <$> children) count) l ->
  node_size node <= capacity -> unmixed node -> zlen l < 2 ^ 64 -> Forall (sound tx) (unload_ref <$> children) ->
  store_ok tx' -> extends tx tx' -> available tx' id ->
  reads_as tx' id (if leaf then (treePageTypes kind).1 else (treePageTypes kind).2) (zlen keys) (node_image node) ->
  stored tx' h id l.
Proof.
  intros Hok node Hh Hsz Hu Hmax Hcs Hok' He Hav (raw & page & Hraw & Hdec & Ht & Hn & Hp).
  assert (Href : reference tx' kind id = Ok (unload node)).
  { unfold reference. rewrite Hraw. cbn [rbind]. rewrite Hdec.
    assert (accepts kind (page_Type page) = true) as ->.
    { unfold accepts. rewrite Ht. destruct leaf; rewrite Z.eqb_refl; [done|apply orb_true_r]. }
    destruct tree_types as [T1 T2]. rewrite (decodeTreeNode_image node page); try done.
    - destruct Hh as (_ & Hs & Hk & _). split; [|by split]. unfold node_shape in *. cbn in *.
      destruct leaf; [done|]. by rewrite length_fmap in Hs.
    - destruct Hh as (Hc & Hs & Hk & Hm). cbn in Hc. pose proof (zlen_nonneg l).
      assert (Hids : Forall u64 (ref_pageID <$> children) /\ Forall (fun r => 2 <= ref_pageID r) children).
      { pose proof (proj1 (Forall_fmap unload_ref _ _) Hcs) as Hcs'.
        split; [apply (Forall_fmap ref_pageID)|]; (eapply Forall_impl; [exact Hcs'|]);
          intros r Hr; inversion Hr as [p c Ha _| |]; subst;
          destruct (available_id tx _ Hok Ha); unfold u64; cbn; lia. }
      destruct Hids as [Hids H2]. destruct h as [|h].
      + destruct Hm as (Hlf & Hkeys & _ & Hsort). cbn in Hlf. subst leaf. cbn in Hkeys, Hs. unfold unmixed in Hu. cbn in Hu. subst children.
        split; [constructor|]. split; [constructor|]. cbn. split; [unfold u64; lia|]. split; [|split; [|done]].
        * apply sorted_increasing; [by rewrite Hkeys|done].
        * rewrite Hc, Hkeys. unfold zlen. by rewrite length_fmap.
      + destruct Hm as (Hlf & ls & -> & Href & Hch). cbn in Hlf. subst leaf. cbn in Hch, Href.
        destruct (chain_keys_sorted _ _ _ _ Hch) as [Hks _].
        split; [done|]. split; [|split; [cbn; unfold u64; lia|split; [by apply sorted_increasing|]]].
        * rewrite Forall_fmap. apply Forall_forall. intros r Hr. cbn in Hr.
          apply list_elem_of_lookup in Hr as [i Hi].
          destruct (Forall2_lookup_l _ _ _ i (unload_ref r) Href) as (l0 & Hl0 & Hr0); [by rewrite list_lookup_fmap, Hi|].
          apply rep_count in Hr0. cbn in Hr0. unfold u64, compose. rewrite Hr0. pose proof (zlen_nonneg l0).
          assert (zlen l0 <= zlen (concat ls)); [|lia].
          rewrite <- (take_drop_middle _ _ _ Hl0), concat_app. cbn [concat]. rewrite !zlen_app.
          pose proof (zlen_nonneg (concat (take i ls))). pose proof (zlen_nonneg (concat (drop (S i) ls))). lia.
        * split; [exact Hu|]. split; [done|]. change (count = childCount children). rewrite Hc.
          rewrite <- (childCount_unload children). by rewrite (childCount_rep tx kind h _ ls).
    - rewrite Ht. destruct leaf; [apply tree_types|apply tree_types]. }
  assert (Hcs' : Forall (sound tx') (unload_ref <$> children)).
  { eapply Forall_impl; [exact Hcs|]. intros r. by apply sound_extends. }
  split.
  2: { apply sound_page; [done|]. intros n Hn'. rewrite Href in Hn'. injection Hn' as <-. done. }
  apply rep_holds. exists (unload node). unfold load. cbn [ref_node ref_pageID ref_count]. rewrite Href. cbn [rbind].
  assert (node_count (unload node) = zlen l) as Hcount by apply Hh. rewrite Hcount, Z.eqb_refl. cbn [negb].
  split; [done|]. split; [done|]. split.
  - destruct Hh as (Hc & Hs & Hk & Hm). split; [done|]. split; [done|]. split; [done|].
    destruct h; [done|]. destruct Hm as (Hlf & ls & -> & Href' & Hch). split; [done|]. exists ls. split; [done|].
    split; [|done]. cbn in Href' |- *. clear -Href' Hcs He.
    induction Href' as [|r l rs ls Hr Hrs IHs]; [constructor|]. apply Forall_cons in Hcs as [H1 H2].
    constructor; [by eapply rep_extends|by apply IHs].
  - destruct Hh as (_ & Hs & _ & Hm). unfold node_size, nodeEntries in *. cbn in *. destruct leaf; [done|].
    cbn in Hm, Hs. destruct children as [|c0 cs]; [done|]. cbn [fmap list_fmap drop] in *. rewrite !drop_0 in *.
    rewrite zip_with_fmap_r. replace (zip_with (fun x y => branchEntry x (unload_ref y)) keys cs)
      with (zip_with branchEntry keys cs); [done|]. by apply zip_with_ext.
Qed.

(** The promise of a flush: what it returns, or why it fails. *)
Definition flushes (tx : T) (h : nat) (l : list KeyValue) (r : result (nodeRef * T)) : Prop :=
  match r with
  | Ok (ref, tx') => store_ok tx' /\ extends tx tx' /\ ref_count ref = zlen l /\ stored tx' h (ref_pageID ref) l
  | Err e => e = ErrStorageLimit
  end.

Lemma flushChildren_correct h tx children ls :
  (forall tx ref l, store_ok tx -> rep tx kind h ref l -> sound tx ref -> zlen l < 2 ^ 64 ->
     flushes tx h l (flush kind tx ref)) ->
  store_ok tx -> Forall2 (rep tx kind h) children ls -> Forall (sound tx) children -> zlen (concat ls) < 2 ^ 64 ->
  match flushChildren (flush kind) tx children with
  | Ok (children', tx') => store_ok tx' /\ extends tx tx' /\
      Forall2 (fun r l => ref_count r = zlen l /\ stored tx' h (ref_pageID r) l) children' ls
  | Err e => e = ErrStorageLimit
  end.
Proof.
  intros IH. revert tx ls; induction children as [|c cs IHc]; intros tx ls Hok Href Hs Hmax;
    inversion Href as [|? l ? ls' Hc Hcs]; subst; cbn [flushChildren]; [by split|].
  apply Forall_cons in Hs as [Hsc Hscs]. cbn [concat] in Hmax. rewrite zlen_app in Hmax.
  pose proof (zlen_nonneg l). pose proof (zlen_nonneg (concat ls')).
  specialize (IH tx c l Hok Hc Hsc ltac:(lia)) as Hf. destruct (flush kind tx c) as [[c' tx1]|e]; [|done].
  cbn [rbind]. destruct Hf as (Hok1 & He1 & Hcnt & Hst).
  assert (Href1 : Forall2 (rep tx1 kind h) cs ls').
  { clear -Hcs Hscs He1. induction Hcs as [|r l rs ls Hr Hrs IHs]; [constructor|].
    apply Forall_cons in Hscs as [? ?]. constructor; [by eapply rep_extends|by apply IHs]. }
  assert (Hs1 : Forall (sound tx1) cs) by (eapply Forall_impl; [exact Hscs|]; intros r; by apply sound_extends).
  specialize (IHc tx1 ls' Hok1 Href1 Hs1 ltac:(lia)).
  destruct (flushChildren (flush kind) tx1 cs) as [[cs' tx2]|e]; cbn [rbind]; [|done].
  destruct IHc as (Hok2 & He2 & Hcs'). split; [done|]. split; [by etransitivity|].
  constructor; [|done]. split; [done|]. by eapply stored_extends.
Qed.

(** Encoding a written node and appending its page. *)
Lemma append_node tx h leaf keys values children count l :
  store_ok tx ->
  let node := mk_node leaf false keys values children count in
  holds tx kind h (mk_node leaf false keys values (unload_ref <$> children) count) l ->
  node_shape node -> node_size node <= capacity -> unmixed node -> zlen l < 2 ^ 64 ->
  Forall (sound tx) (unload_ref <$> children) ->
  flushes tx h l
    (let* payload := encodeTreeNode node in
     let* (id, tx') := appendPage tx (if leaf then (treePageTypes kind).1 else (treePageTypes kind).2) 0 (zlen keys) 0 payload in
     Ok (mk_ref id count (Some node), tx')).
Proof.
  intros Hok node Hh Hs Hsz Hu Hmax Hcs.
  assert (Hf : node_fits node) by (split; [done|]; split; [apply Hh|done]).
  rewrite (proj2 (encodeTreeNode_image node (node_image node)) (conj Hf eq_refl)). cbn [rbind].
  assert (Hlen : 0 < zlen (node_image node) <= capacity).
  { rewrite zlen_node_image by done. split; [|done]. unfold node_size.
    pose proof (zlen_nonneg (node_keys node)). pose proof (entries_size_nonneg (nodeEntries node)). lia. }
  assert (Hn : 0 <= zlen keys < 2 ^ 32).
  { unfold node_size in Hsz. pose proof (zlen_nonneg keys). pose proof (entries_size_nonneg (nodeEntries node)).
    change (node_keys node) with keys in Hsz. change capacity with 16320 in Hsz. lia. }
  assert (Ht : tree_page_type (if leaf then (treePageTypes kind).1 else (treePageTypes kind).2)).
  { exists kind. destruct leaf; tauto. }
  destruct (appendPage _ _ _ _ _ _) as [[id tx']|e] eqn:Ea; cbn [rbind].
  - apply appendPage_ok in Ea as (Hok' & Hav & Hreads & Hkeep); try done.
    assert (He : extends tx tx') by (intros p Hp; split; apply (Hkeep p Hp)).
    split; [done|]. split; [done|]. split; [apply Hh|].
    by apply (flushed_node tx tx' h leaf keys values children count).
  - by eapply appendPage_error.
Qed.

Lemma sizeEntries_dirty leaf d d' keys values children count index n size :
  sizeEntries (mk_node leaf d keys values children count) index n size =
  sizeEntries (mk_node leaf d' keys values children count) index n size.
Proof.
  revert index size; induction n as [|n IH]; intros index size; [done|]. cbn [sizeEntries].
  change (treeNodeEntryEncodedSize (mk_node leaf d keys values children count) index)
    with (treeNodeEntryEncodedSize (mk_node leaf d' keys values children count) index).
  destruct (treeNodeEntryEncodedSize _ index); cbn [rbind]; [|done]. by destruct (_ || _).
Qed.

Lemma encodeTreeNode_dirty leaf d d' keys values children count :
  encodeTreeNode (mk_node leaf d keys values children count) =
  encodeTreeNode (mk_node leaf d' keys values children count).
Proof.
  unfold encodeTreeNode, treeNodeEncodedSize. cbn [node_keys node_leaf node_children node_values].
  by rewrite (sizeEntries_dirty leaf d d').
Qed.

Lemma flush_correct h tx ref l :
  store_ok tx -> rep tx kind h ref l -> sound tx ref -> zlen l < 2 ^ 64 -> flushes tx h l (flush kind tx ref).
Proof.
  revert tx ref l; induction h as [|h IH]; intros tx ref l Hok Hr Hs Hmax;
    pose proof Hr as (node & Hload & Hcnt & Hh & Hsz)%rep_holds.
  all: inversion Hs as [p c Ha Hc|p c n Hd Hu Hc|p c n Hd Hp Ha Hrf Hc]; subst; cbn [ref_count] in Hcnt; cbn [flush].
  all: try (destruct (available_id tx p Hok Ha) as [Hid _]).
  1, 4: destruct (Z.eqb_spec p 0); [lia|]; split; [done|]; split; [done|]; split; [done|]; split;
    [by rewrite <- Hcnt|rewrite <- Hcnt; cbn [ref_pageID]; by apply sound_page].
  2, 4: destruct n as [leaf dirty keys values children count]; cbn in Hd; subst dirty;
    destruct (Z.eqb_spec p 0); [lia|]; cbn [negb andb]; split; [done|]; split; [done|]; split; [done|].
  2, 3: unfold load in Hload; cbn [ref_node] in Hload; injection Hload as <-.
  2, 3: split; [|cbn [ref_pageID]; apply sound_page; [done|intros n' Hn'; rewrite Hrf in Hn'; by injection Hn' as <-]];
    apply rep_holds; eexists; unfold load; cbn [ref_node ref_pageID ref_count]; rewrite Hrf; cbn [rbind];
    assert (Hnc : count = zlen l) by apply Hh; cbn [node_count]; rewrite Hnc, Z.eqb_refl; cbn [negb];
    rewrite Hnc in Hh; done.
  all: destruct n as [leaf dirty keys values children count]; cbn in Hd; subst dirty;
    rewrite andb_false_r; unfold load in Hload; cbn [ref_node] in Hload; injection Hload as <-.
  - pose proof Hh as (_ & Hshape & _ & Hl & _). cbn in Hl. subst leaf. unfold unmixed in Hu. cbn in Hu. subst children.
    cbn [rbind]. rewrite (encodeTreeNode_dirty true true false).
    by apply (append_node tx 0 true keys values [] count).
  - pose proof Hh as (Hcount & Hshape & Hk & Hl & ls & -> & Href & Hch). cbn in Hl. subst leaf.
    cbn [node_children node_keys node_count] in *.
    pose proof (flushChildren_correct h tx children ls IH Hok Href Hc Hmax) as Hf.
    destruct (flushChildren (flush kind) tx children) as [[children' tx1]|e]; cbn [rbind]; [|done].
    destruct Hf as (Hok1 & He1 & Hcs). pose proof (Forall2_length _ _ _ Hcs) as Hlen.
    pose proof (Forall2_length _ _ _ Href) as Hlen'.
    assert (Hshape' : node_shape (mk_node false false keys values children' count)).
    { unfold node_shape in *. cbn in *. lia. }
    assert (Hun : Forall2 (fun r l => stored tx1 h (ref_pageID r) l /\ r = mk_ref (ref_pageID r) (zlen l) None)
              (unload_ref <$> children') ls).
    { apply Forall2_fmap_l. eapply Forall2_impl; [exact Hcs|]. intros r l' [E Hst]. cbn. split; [done|].
      unfold unload_ref. by rewrite E. }
    enough (flushes tx1 (S h) (concat ls)
      (let* payload := encodeTreeNode (mk_node false false keys values children' count) in
       let* (id, tx') := appendPage tx1 (treePageTypes kind).2 0 (zlen keys) 0 payload in
       Ok (mk_ref id count (Some (mk_node false false keys values children' count)), tx'))) as Hfl.
    { rewrite (encodeTreeNode_dirty false true false).
      destruct (encodeTreeNode _); cbn [rbind] in *; [|done].
      destruct (appendPage _ _ _ _ _ _) as [[id tx2]|]; cbn [rbind] in *; [|done].
      destruct Hfl as (? & ? & ? & ?). split; [done|]. split; [by etransitivity|done]. }
    apply (append_node tx1 (S h) false keys values children' count); try done.
    + split; [done|]. split; [unfold node_shape in *; cbn in *; by rewrite length_fmap|]. split; [done|].
      split; [done|]. exists ls. split; [done|]. split; [|done]. cbn [node_children].
      eapply Forall2_impl; [exact Hun|]. intros r l' [[Hr' _] ->]. done.
    + rewrite branch_node_size in Hsz |- * by done. done.
    + eapply Forall2_Forall_l; [exact Hun|]. apply Forall_forall. intros l' _ r [[_ Hs'] ->]. done.
Qed.

(** Whatever every append keeps, a flush keeps. *)
Lemma flush_steps (R : T -> T -> Prop) :
  PreOrder R ->
  (forall tx t n payload id tx', 0 <= n < 2 ^ 32 -> appendPage tx t 0 n 0 payload = Ok (id, tx') -> R tx tx') ->
  forall ref tx ref' tx', flush kind tx ref = Ok (ref', tx') -> R tx tx'.
Proof.
  intros HR Happ. fix IH 1. intros [p c [[leaf dirty keys values children count]|]] tx ref' tx'; cbn [flush].
  2: { destruct (p =? 0); [done|]. by intros [= _ <-]. }
  destruct (_ && _); [by intros [= _ <-]|].
  assert (Hcs : forall tx children' tx', flushChildren (flush kind) tx children = Ok (children', tx') -> R tx tx').
  { clear -IH HR. induction children as [|r rs IHs]; intros tx children' tx'; cbn [flushChildren]; [by intros [= _ <-]|].
    destruct (flush kind tx r) as [[r1 tx1]|] eqn:E1; [|done]. cbn [rbind].
    destruct (flushChildren (flush kind) tx1 rs) as [[rs2 tx2]|] eqn:E2; [|done]. cbn [rbind].
    intros [= _ <-]. etransitivity; [by eapply IH|by eapply IHs]. }
  intros Hf. inv_ok. destruct a as [children' tx1]. inv_ok. destruct a0 as [id tx2]. inv_ok.
  injection Hf as _ <-. etransitivity; [|eapply Happ; [|done]].
  - destruct leaf; [by injection Hok as _ <-|by eapply Hcs].
  - apply encodeTreeNode_image in Hok0 as [(_ & _ & Hsz) _]. unfold node_size in Hsz. cbn [node_keys] in Hsz.
    change capacity with 16320 in Hsz. pose proof (zlen_nonneg keys).
    pose proof (entries_size_nonneg (nodeEntries (mk_node leaf dirty keys values children' count))). lia.
Qed.
End Flush.
