(* ===== verification/Bulk.v ===== *)
(** * Building a tree from sorted entries

    [SortedTreeBuilder] of [internal/storage/btree_bulk.go]: leaves are written as
    they fill, then branch levels until one root is left. *)
From S2P Require Import Prelude Bytes Layout Hashes PageFormat Entries NodeCodec CowTree.
From S2P Require Import TreeShape TreeInvariant TreeRep TreeDelete Tree Flush.

Record bulkTreeRef := mk_bulk { bulk_pageID : Z; bulk_count : Z; bulk_minKey : bytes }.

Record SortedTreeBuilder := mk_builder {
  b_keys : list bytes;
  b_values : list bytes;
  b_leaves : list bulkTreeRef;
  b_lastKey : bytes;
  b_count : Z;
  b_leafSize : Z;
  b_finished : bool }.

Definition NewSortedTreeBuilder : SortedTreeBuilder := mk_builder [] [] [] [] 0 32 false.

(** The children, the keys after the first child, and the count. *)
Definition bulkBranchNode (children : list bulkTreeRef) : treeNode :=
  mk_node false false (bulk_minKey <$> drop 1 children) []
    ((fun child => mk_ref (bulk_pageID child) (bulk_count child) None) <$> children)
    (fold_left (fun count child => to_u64 (count + bulk_count child)) children 0).

(** How many of [rest] join a group of encoded size [size]. *)
Fixpoint fillCount (size : Z) (rest : list bulkTreeRef) : nat :=
  match rest with
  | [] => O
  | child :: rest =>
      let entrySize := 8 + 2 + zlen (bulk_minKey child) + 16 in
      if capacity <? size + entrySize then O else S (fillCount (size + entrySize) rest)
  end.

Fixpoint groupLoop (fuel : nat) (level : list bulkTreeRef) : list (list bulkTreeRef) :=
  match fuel, level with
  | S fuel, first :: rest =>
      let n := fillCount 32 rest in
      (first :: take n rest) :: groupLoop fuel (drop n rest)
  | _, _ => []
  end.

(** A last group of one child takes the last child of the group before it. *)
Definition balanceGroups (groups : list (list bulkTreeRef)) : result (list (list bulkTreeRef)) :=
  match rev groups with
  | [child] :: previous :: before =>
      if zlen previous <? 3 then Err ErrNodeFull
      else
        let n := (length previous - 1)%nat in
        Ok (rev before ++ [take n previous; drop n previous ++ [child]])
  | _ => Ok groups
  end.

Fixpoint checkGroups (groups : list (list bulkTreeRef)) : result unit :=
  match groups with
  | [] => Ok tt
  | group :: groups =>
      if zlen group <? 2 then Err ErrCorrupt
      else
        let* _ := treeNodeEncodedSize (bulkBranchNode group) in
        checkGroups groups
  end.

Definition partitionBulkLevel (level : list bulkTreeRef) : result (list (list bulkTreeRef)) :=
  if zlen level <? 2 then Err ErrCorrupt
  else
    let* groups := balanceGroups (groupLoop (length level) level) in
    let* _ := checkGroups groups in
    Ok groups.

Section Bulk.
Context {T : Type} `{PageStore T}.
Variable kind : TreeKind.

Definition flushLeaf (tx : T) (b : SortedTreeBuilder) : result (SortedTreeBuilder * T) :=
  let* payload := encodeTreeNode (mk_node true false (b_keys b) (b_values b) [] (zlen (b_keys b))) in
  let* (pageID, tx) := appendPage tx (treePageTypes kind).1 0 (zlen (b_keys b)) 0 payload in
  let minimum := match b_keys b with key :: _ => key | [] => [] end in
  Ok (mk_builder [] [] (b_leaves b ++ [mk_bulk pageID (zlen (b_keys b)) minimum]) (b_lastKey b) (b_count b) 32
        (b_finished b), tx).

Definition Add (tx : T) (b : SortedTreeBuilder) (key value : bytes) : result (SortedTreeBuilder * T) :=
  if b_finished b || (zlen key =? 0) || (maxKey <? zlen key) then Err ErrCorrupt
  else if (0 <? zlen (b_lastKey b)) && negb (bltb (b_lastKey b) key) then Err ErrCorrupt
  else if 2 ^ 32 - 1 <? zlen value then Err ErrNodeFull
  else
    let entrySize := 8 + 2 + 4 + zlen key + zlen value in
    if capacity <? 32 + entrySize then Err ErrNodeFull
    else
      let* (b, tx) := if capacity <? b_leafSize b + entrySize then flushLeaf tx b else Ok (b, tx) in
      Ok (mk_builder (b_keys b ++ [key]) (b_values b ++ [value]) (b_leaves b) key (to_u64 (b_count b + 1))
            (b_leafSize b + entrySize) (b_finished b), tx).

(** One level of branches. *)
Fixpoint writeGroups (tx : T) (groups : list (list bulkTreeRef)) : result (list bulkTreeRef * T) :=
  match groups with
  | [] => Ok ([], tx)
  | group :: groups =>
      let node := bulkBranchNode group in
      let* payload := encodeTreeNode node in
      let* (pageID, tx) := appendPage tx (treePageTypes kind).2 0 (zlen (node_keys node)) 0 payload in
      let minimum := match group with child :: _ => bulk_minKey child | [] => [] end in
      let* (next, tx) := writeGroups tx groups in
      Ok (mk_bulk pageID (node_count node) minimum :: next, tx)
  end.

Fixpoint buildLevels (fuel : nat) (tx : T) (level : list bulkTreeRef) : result (list bulkTreeRef * T) :=
  match fuel with
  | O => Err ErrFuel
  | S fuel =>
      if 1 <? zlen level then
        let* groups := partitionBulkLevel level in
        let* (level, tx) := writeGroups tx groups in
        buildLevels fuel tx level
      else Ok (level, tx)
  end.

Definition set_finished (b : SortedTreeBuilder) : SortedTreeBuilder :=
  mk_builder (b_keys b) (b_values b) (b_leaves b) (b_lastKey b) (b_count b) (b_leafSize b) true.

Definition Finish (fuel : nat) (tx : T) (b : SortedTreeBuilder) : result (Z * SortedTreeBuilder * T) :=
  if b_finished b then Err ErrCorrupt
  else
    let b := set_finished b in
    let* (b, tx) := if (0 <? zlen (b_keys b)) || (zlen (b_leaves b) =? 0) then flushLeaf tx b else Ok (b, tx) in
    let* (level, tx) := buildLevels fuel tx (b_leaves b) in
    match level with
    | [root] => if negb (bulk_count root =? b_count b) then Err ErrCorrupt else Ok (bulk_pageID root, b, tx)
    | _ => Err ErrCorrupt
    end.

(** What a caller does with sorted entries. *)
Fixpoint addAll (tx : T) (b : SortedTreeBuilder) (l : list KeyValue) : result (SortedTreeBuilder * T) :=
  match l with
  | [] => Ok (b, tx)
  | (key, value) :: l =>
      let* (b, tx) := Add tx b key value in
      addAll tx b l
  end.

Definition buildSorted (fuel : nat) (tx : T) (l : list KeyValue) : result (Z * SortedTreeBuilder * T) :=
  let* (b, tx) := addAll tx NewSortedTreeBuilder l in
  Finish fuel tx b.
End Bulk.

(** ** Groups *)

(** The bytes of the children after the first, slots included. *)
Definition group_bytes (children : list bulkTreeRef) : Z :=
  fold_right (fun child size => 8 + 2 + zlen (bulk_minKey child) + 16 + size) 0 children.

Definition min_ok (child : bulkTreeRef) : Prop := key_ok (bulk_minKey child).

Lemma fillCount_fits size rest :
  size <= capacity -> size + group_bytes (take (fillCount size rest) rest) <= capacity.
Proof.
  revert size; induction rest as [|child rest IH]; intros size Hs; cbn [fillCount]; [cbn; lia|].
  destruct (Z.ltb_spec capacity (size + (8 + 2 + zlen (bulk_minKey child) + 16))); [cbn; lia|].
  cbn [take group_bytes fold_right]. fold (group_bytes (take (fillCount (size + (8 + 2 + zlen (bulk_minKey child) + 16)) rest) rest)).
  specialize (IH (size + (8 + 2 + zlen (bulk_minKey child) + 16)) ltac:(lia)). lia.
Qed.

Lemma fillCount_le size rest : (fillCount size rest <= length rest)%nat.
Proof. revert size; induction rest as [|c rest IH]; intros size; cbn; [lia|]. destruct (_ <? _); [lia|]. specialize (IH (size + (8 + 2 + zlen (bulk_minKey c) + 16))). cbn in IH. lia. Qed.

(** A group that stops early has at least three children after the first. *)
Lemma fillCount_three rest :
  Forall min_ok rest -> (fillCount 32 rest < length rest)%nat -> (3 <= fillCount 32 rest)%nat.
Proof.
  intros Hm. change capacity with 16320.
  assert (Hstep : forall size c rest, min_ok c -> size + 4122 <= 16320 ->
    fillCount size (c :: rest) = S (fillCount (size + (8 + 2 + zlen (bulk_minKey c) + 16)) rest) /\
    size + (8 + 2 + zlen (bulk_minKey c) + 16) <= size + 4122).
  { intros size c r [H1 H2] Hs. change maxKey with 4096 in H2. cbn [fillCount]. change capacity with 16320.
    destruct (Z.ltb_spec 16320 (size + (8 + 2 + zlen (bulk_minKey c) + 16))); [lia|]. split; [done|lia]. }
  destruct rest as [|c1 [|c2 [|c3 rest]]]; cbn [length]; intros Hlt.
  - cbn in Hlt. lia.
  - apply Forall_cons in Hm as [H1 _]. destruct (Hstep 32 c1 [] H1) as [E _]; [lia|]. rewrite E in Hlt. cbn in Hlt. lia.
  - rewrite !Forall_cons in Hm. destruct Hm as (H1 & H2 & _).
    destruct (Hstep 32 c1 [c2] H1) as [E B]; [lia|]. rewrite E in Hlt.
    destruct (Hstep (32 + (8 + 2 + zlen (bulk_minKey c1) + 16)) c2 [] H2) as [E2 _]; [lia|]. rewrite E2 in Hlt. cbn in Hlt. lia.
  - rewrite !Forall_cons in Hm. destruct Hm as (H1 & H2 & H3 & _).
    destruct (Hstep 32 c1 (c2 :: c3 :: rest) H1) as [E B]; [lia|]. rewrite E.
    destruct (Hstep (32 + (8 + 2 + zlen (bulk_minKey c1) + 16)) c2 (c3 :: rest) H2) as [E2 B2]; [lia|]. rewrite E2.
    destruct (Hstep (32 + (8 + 2 + zlen (bulk_minKey c1) + 16) + (8 + 2 + zlen (bulk_minKey c2) + 16)) c3 rest H3) as [E3 _]; [lia|].
    rewrite E3. lia.
Qed.

(** A group that makes a branch. *)
Definition group_ok (group : list bulkTreeRef) : Prop :=
  group <> [] /\ Forall min_ok group /\ 32 + group_bytes (drop 1 group) <= capacity.

Lemma group_bytes_nonneg l : 0 <= group_bytes l.
Proof. induction l as [|c l IH]; cbn; [lia|]. pose proof (zlen_nonneg (bulk_minKey c)). fold (group_bytes l). lia. Qed.

Lemma group_bytes_take n l : group_bytes (take n l) <= group_bytes l.
Proof.
  revert n; induction l as [|c l IH]; intros [|n]; cbn [take group_bytes fold_right]; try lia.
  - fold (group_bytes l). pose proof (group_bytes_nonneg l). pose proof (zlen_nonneg (bulk_minKey c)). lia.
  - fold (group_bytes (take n l)) (group_bytes l). specialize (IH n). lia.
Qed.

Lemma groupLoop_spec fuel level :
  Forall min_ok level -> (length level <= fuel)%nat ->
  concat (groupLoop fuel level) = level /\ Forall group_ok (groupLoop fuel level) /\
  forall before last, groupLoop fuel level = before ++ [last] -> Forall (fun g => (4 <= length g)%nat) before.
Proof.
  revert level; induction fuel as [|fuel IH]; intros [|first rest] Hm Hf; cbn [groupLoop length] in *; try lia;
    try (split; [done|split; [constructor|]]; intros [|] ? Hx; done).
  apply Forall_cons in Hm as [H1 Hm]. pose proof (fillCount_le 32 rest) as Hn. set (n := fillCount 32 rest) in *.
  destruct (IH (drop n rest)) as (Hc & Hok & Hfull); [by apply Forall_drop|rewrite length_drop; lia|].
  split; [cbn [concat app]; rewrite Hc; by rewrite take_drop|]. split.
  - constructor; [|done]. split; [done|]. split; [constructor; [done|by apply Forall_take]|]. cbn [drop]. rewrite drop_0.
    apply fillCount_fits. done.
  - intros [|g before] last Heq; [constructor|]. cbn [app] in Heq. injection Heq as <- Heq.
    constructor; [|by eapply Hfull]. cbn [length]. rewrite length_take.
    assert (Hlt : (n < length rest)%nat).
    { destruct (Nat.lt_ge_cases n (length rest)) as [|Hge]; [done|]. rewrite (drop_ge rest n) in Heq by done.
      destruct fuel; [by destruct before|]. by destruct before. }
    pose proof (fillCount_three rest Hm Hlt). fold n in H. lia.
Qed.

Lemma group_ok_take n group : group_ok group -> (1 <= n)%nat -> group_ok (take n group).
Proof.
  intros (Hne & Hm & Hb) Hn. destruct group as [|c group]; [done|]. destruct n as [|n]; [lia|]. split; [done|].
  split; [by apply Forall_take|]. cbn [take drop] in *. rewrite drop_0 in *. pose proof (group_bytes_take n group). lia.
Qed.

Lemma group_ok_pair c1 c2 : min_ok c1 -> min_ok c2 -> group_ok [c1; c2].
Proof.
  intros H1 H2. split; [done|]. split; [constructor; [done|constructor; [done|constructor]]|]. cbn. destruct H2 as [_ H2].
  change maxKey with 4096 in H2. change capacity with 16320. lia.
Qed.

Lemma balanceGroups_spec groups level :
  concat groups = level -> Forall group_ok groups -> (2 <= length level)%nat ->
  (forall before last, groups = before ++ [last] -> Forall (fun g => (4 <= length g)%nat) before) ->
  exists groups', balanceGroups groups = Ok groups' /\ concat groups' = level /\ Forall group_ok groups' /\
    Forall (fun g => (2 <= length g)%nat) groups'.
Proof.
  intros Hc Hok Hlen Hfull. unfold balanceGroups.
  destruct groups as [|last before _] using rev_ind; [subst level; cbn in Hlen; lia|].
  pose proof (Hfull before last eq_refl) as H4. rewrite rev_app_distr. cbn [rev app].
  apply Forall_app in Hok as [Hokb Hokl]. apply Forall_cons in Hokl as [Hokl _].
  assert (Hbig : (2 <= length last)%nat -> Forall (fun g => (2 <= length g)%nat) (before ++ [last])).
  { intros H2. apply Forall_app. split; [|constructor; [done|constructor]]. eapply Forall_impl; [exact H4|]. cbn. lia. }
  destruct last as [|child [|child2 last]]; [by destruct Hokl|..].
  2: { exists (before ++ [child :: child2 :: last]). split; [done|]. split; [done|]. split; [apply Forall_app; auto|].
       apply Hbig. cbn. lia. }
  destruct before as [|previous before _] using rev_ind; [subst level; cbn in Hlen; lia|]. clear Hbig Hfull.
  rewrite rev_app_distr. cbn [rev app]. apply Forall_app in H4 as [H4 H4p]. apply Forall_cons in H4p as [H4p _].
  apply Forall_app in Hokb as [Hokb Hokp]. apply Forall_cons in Hokp as [Hokp _].
  destruct (Z.ltb_spec (zlen previous) 3); [unfold zlen in *; lia|]. rewrite rev_involutive.
  set (n := (length previous - 1)%nat). eexists. split; [reflexivity|].
  assert (Hdrop : exists stolen, drop n previous = [stolen] /\ min_ok stolen).
  { destruct (drop n previous) as [|x [|y r]] eqn:E; apply (f_equal length) in E as El; rewrite length_drop in El; cbn in El; try lia.
    exists x. split; [done|]. destruct Hokp as (_ & Hm & _). apply (Forall_drop _ n) in Hm. rewrite E in Hm. by apply Forall_cons in Hm as [? _]. }
  destruct Hdrop as (stolen & Hd & Hms). split; [|split].
  - rewrite <- Hc, !concat_app. cbn [concat]. rewrite !app_nil_r, <- !app_assoc. f_equal. rewrite app_assoc. by rewrite take_drop.
  - apply Forall_app. split; [done|]. constructor; [apply group_ok_take; [done|unfold n; lia]|]. constructor; [|constructor].
    rewrite Hd. apply group_ok_pair; [done|]. destruct Hokl as (_ & Hm & _). by apply Forall_cons in Hm as [? _].
  - apply Forall_app. split; [eapply Forall_impl; [exact H4|]; cbn; lia|]. constructor; [rewrite length_take; lia|].
    constructor; [|constructor]. rewrite Hd. cbn. lia.
Qed.

Lemma bulkBranch_fits group : group_ok group -> node_fits (bulkBranchNode group) /\ node_size (bulkBranchNode group) = 32 + group_bytes (drop 1 group).
Proof.
  intros (Hne & Hm & Hb). assert (Hsize : node_size (bulkBranchNode group) = 32 + group_bytes (drop 1 group)).
  { unfold node_size, nodeEntries, bulkBranchNode. cbn [node_leaf node_keys node_children]. clear Hb Hm Hne.
    rewrite <- fmap_drop. generalize (drop 1 group). intros l. clear group.
    unfold zlen at 1. rewrite length_fmap. induction l as [|c l IH]; [done|].
    cbn [fmap list_fmap zip_with length group_bytes fold_right]. rewrite entries_size_cons, zlen_branchEntry. fold (group_bytes l).
    cbn [fmap list_fmap] in IH. lia. }
  split; [|done]. split; [|split; [|lia]].
  - unfold node_shape, bulkBranchNode. cbn. rewrite !length_fmap. destruct group; [done|]. cbn. by rewrite drop_0.
  - unfold bulkBranchNode. cbn [node_keys]. apply (Forall_fmap bulk_minKey). by apply Forall_drop.
Qed.

Lemma checkGroups_ok groups :
  Forall group_ok groups -> Forall (fun g => (2 <= length g)%nat) groups -> checkGroups groups = Ok tt.
Proof.
  induction 1 as [|g gs Hg Hgs IH]; intros H2; [done|]. apply Forall_cons in H2 as [H2 H2s]. cbn [checkGroups].
  destruct (Z.ltb_spec (zlen g) 2); [unfold zlen in *; lia|]. destruct (bulkBranch_fits g Hg) as [Hf Hs].
  rewrite (proj2 (treeNodeEncodedSize_spec _ _) (conj Hf eq_refl)). cbn [rbind]. by apply IH.
Qed.

(** Every level of at least two subtrees splits into branches of at least two. *)
Lemma partitionBulkLevel_ok level :
  Forall min_ok level -> (2 <= length level)%nat ->
  exists groups, partitionBulkLevel level = Ok groups /\ concat groups = level /\ Forall group_ok groups /\
    Forall (fun g => (2 <= length g)%nat) groups.
Proof.
  intros Hm H2. unfold partitionBulkLevel. destruct (Z.ltb_spec (zlen level) 2); [unfold zlen in *; lia|].
  destruct (groupLoop_spec (length level) level Hm ltac:(lia)) as (Hc & Hok & Hfull).
  destruct (balanceGroups_spec _ level Hc Hok H2 Hfull) as (groups & Hg & Hc' & Hok' & H2').
  exists groups. rewrite Hg. cbn [rbind]. by rewrite checkGroups_ok.
Qed.

(** ** Levels *)

Section Levels.
Context {T : Type} `{PageStoreLaws T}.
Variable kind : TreeKind.

(** A written subtree and its entries. *)
Definition subtree_at (tx : T) (h : nat) (r : bulkTreeRef) (l : list KeyValue) : Prop :=
  stored kind tx h (bulk_pageID r) l /\ bulk_count r = zlen l /\ exists e l', l = e :: l' /\ bulk_minKey r = e.1.

Lemma subtree_extends tx tx' h r l : extends tx tx' -> subtree_at tx h r l -> subtree_at tx' h r l.
Proof. intros He (Hs & Hc & Hm). split; [by eapply stored_extends|done]. Qed.

Lemma level_extends tx tx' h level ls :
  extends tx tx' -> Forall2 (subtree_at tx h) level ls -> Forall2 (subtree_at tx' h) level ls.
Proof. intros He Hl. eapply Forall2_impl; [exact Hl|]. intros r l. by apply subtree_extends. Qed.

(** The separators of a group are the lowest keys of its children. *)
Lemma chain_of_mins tx h level ls lo :
  Forall2 (subtree_at tx h) level ls -> ls <> [] -> sorted_keys (concat ls) ->
  Forall (above lo) (concat ls).*1 -> chain lo ls (bulk_minKey <$> drop 1 level) None.
Proof.
  intros Hl. revert lo; induction Hl as [|r l level ls Hr Hl IH]; intros lo Hne Hs Ha; [done|]. cbn [drop]. rewrite drop_0.
  destruct Hr as (_ & _ & e & l' & -> & _). cbn [concat] in Hs, Ha.
  pose proof Hs as Hs'. apply sorted_keys_app in Hs' as (Hs1 & Hs2 & Hs12). rewrite fmap_app, Forall_app in Ha.
  destruct Ha as [Ha1 Ha2]. destruct Hl as [|r2 l2 level ls Hr2 Hl].
  - cbn. split; [done|]. split; [done|]. eapply Forall_impl; [exact Ha1|]. done.
  - destruct Hr2 as (_ & _ & e2 & l2' & -> & Hmin). cbn [fmap list_fmap]. rewrite Hmin. apply chain_cons. split.
    + split; [done|]. split; [done|]. apply Forall_and. split; [done|].
      eapply Forall_impl; [exact Hs12|]. intros k Hk. by apply Forall_cons in Hk as [? _].
    + specialize (IH (Some e2.1)). cbn [drop] in IH. rewrite drop_0 in IH. apply IH; [done|done|].
      cbn [concat app fmap list_fmap] in Hs2 |- *. constructor; [cbn; apply blt_irrefl|].
      destruct e2 as [k2 v2]. apply sorted_keys_cons in Hs2 as [_ Hk2]. eapply Forall_impl; [exact Hk2|].
      intros k Hk Hk'. by apply (blt_asym k2 k).
Qed.

Lemma count_fold group ls tx h z :
  Forall2 (subtree_at tx h) group ls -> 0 <= z -> z + zlen (concat ls) < 2 ^ 64 ->
  fold_left (fun count child => to_u64 (count + bulk_count child)) group z = z + zlen (concat ls).
Proof.
  intros Hl. revert z; induction Hl as [|r l group ls Hr Hl IH]; intros z Hz Hm; cbn [fold_left concat] in *; [change (zlen []) with 0; lia|].
  rewrite zlen_app in *. pose proof (zlen_nonneg l). pose proof (zlen_nonneg (concat ls)). destruct Hr as (_ & -> & _).
  assert (Hto : to_u64 (z + zlen l) = z + zlen l) by (apply Z.mod_small; lia). rewrite Hto, IH by lia. lia.
Qed.

(** Writing the branch of a group. *)
Lemma branch_written tx h group ls :
  store_ok tx -> group_ok group -> Forall2 (subtree_at tx h) group ls -> sorted_keys (concat ls) -> zlen (concat ls) < 2 ^ 64 ->
  flushes kind tx (S h) (concat ls)
    (let* payload := encodeTreeNode (bulkBranchNode group) in
     let* (id, tx') := appendPage tx (treePageTypes kind).2 0 (zlen (node_keys (bulkBranchNode group))) 0 payload in
     Ok (mk_ref id (node_count (bulkBranchNode group)) (Some (bulkBranchNode group)), tx')).
Proof.
  intros Hok Hg Hl Hs Hmax. destruct (bulkBranch_fits group Hg) as [(Hshape & Hkeys & Hsz) _].
  assert (Hcount : node_count (bulkBranchNode group) = zlen (concat ls)).
  { cbn. rewrite (count_fold group ls tx h) by (done || lia). lia. }
  assert (Hne : ls <> []) by (destruct Hg as [Hne _]; by inversion Hl; subst).
  unfold bulkBranchNode in *. set (refs := (fun child => mk_ref (bulk_pageID child) (bulk_count child) None) <$> group) in *.
  assert (Hun : unload_ref <$> refs = refs).
  { unfold refs. rewrite <- list_fmap_compose. by apply list_fmap_ext. }
  apply (append_node kind tx (S h) false); rewrite ?Hun; try done.
  - split; [done|]. split; [done|]. split; [done|]. split; [done|]. exists ls. split; [done|]. split.
    + unfold refs. cbn [node_children]. apply Forall2_fmap_l. eapply Forall2_impl; [exact Hl|].
      intros r l ([Hr _] & Hc & _). unfold compose. by rewrite Hc.
    + apply (chain_of_mins tx h); [done|done|done|]. by apply Forall_forall.
  - unfold refs. rewrite Forall_fmap. apply Forall_forall. intros r Hr.
    apply list_elem_of_lookup in Hr as [i Hi]. destruct (Forall2_lookup_l _ _ _ _ _ Hl Hi) as (l & _ & ([_ Hsd] & Hc & _)).
    unfold compose. by rewrite Hc.
Qed.

Lemma writeGroups_correct h groups tx lss :
  store_ok tx -> Forall2 (Forall2 (subtree_at tx h)) groups lss -> Forall group_ok groups ->
  sorted_keys (concat (concat lss)) -> zlen (concat (concat lss)) < 2 ^ 64 ->
  match writeGroups kind tx groups with
  | Ok (next, tx') => store_ok tx' /\ extends tx tx' /\ Forall2 (subtree_at tx' (S h)) next (@concat KeyValue <$> lss)
  | Err e => e = ErrStorageLimit
  end.
Proof.
  intros Hok Hl. revert tx Hok Hl; induction groups as [|g groups IH] in lss |- *; intros tx Hok Hl Hg Hs Hmax;
    inversion Hl as [|? ls ? lss' Hgl Hls]; subst; cbn [writeGroups]; [by split|].
  apply Forall_cons in Hg as [Hg Hgs]. cbn [concat] in Hs, Hmax. rewrite concat_app in Hs, Hmax. rewrite zlen_app in Hmax.
  pose proof (zlen_nonneg (concat ls)). pose proof (zlen_nonneg (concat (concat lss'))).
  apply sorted_keys_app in Hs as (Hs1 & Hs2 & _).
  pose proof (branch_written tx h g ls Hok Hg Hgl Hs1 ltac:(lia)) as Hb.
  destruct (encodeTreeNode (bulkBranchNode g)) as [payload|e]; cbn [rbind] in *; [|done].
  destruct (appendPage tx _ _ _ _ payload) as [[id tx1]|e]; cbn [rbind] in *; [|done].
  destruct Hb as (Hok1 & He1 & Hc1 & Hst1). cbn [ref_count ref_pageID] in Hc1, Hst1.
  assert (Hls1 : Forall2 (Forall2 (subtree_at tx1 h)) groups lss').
  { eapply Forall2_impl; [exact Hls|]. intros x y. by apply level_extends. }
  specialize (IH lss' tx1 Hok1 Hls1 Hgs Hs2 ltac:(lia)).
  destruct (writeGroups kind tx1 groups) as [[next tx2]|e]; cbn [rbind]; [|done].
  destruct IH as (Hok2 & He2 & Hnext). split; [done|]. split; [by trans tx1|]. constructor; [|done].
  apply (subtree_extends tx1); [done|]. split; [done|]. split; [done|]. cbn [bulk_minKey].
  destruct Hg as [Hne _]. destruct Hgl as [|c l0 g ls Hc Hgl]; [done|]. destruct Hc as (_ & _ & e & l' & -> & Hmin).
  by exists e, (l' ++ concat ls).
Qed.

Lemma Forall2_concat_split {A B} (P : A -> B -> Prop) (groups : list (list A)) (ls : list B) :
  Forall2 P (concat groups) ls -> exists lss, ls = concat lss /\ Forall2 (Forall2 P) groups lss.
Proof.
  revert ls; induction groups as [|g groups IH]; intros ls Hl; cbn [concat] in Hl.
  - inversion Hl; subst. by exists [].
  - apply Forall2_app_inv_l in Hl as (l1 & l2 & H1 & H2 & ->). destruct (IH l2 H2) as (lss & -> & Hlss).
    exists (l1 :: lss). by split; [|constructor].
Qed.

Lemma concat_groups {A} (groups : list (list A)) :
  Forall (fun g => (2 <= length g)%nat) groups -> (2 * length groups <= length (concat groups))%nat.
Proof. induction 1 as [|g gs Hg Hgs IH]; cbn; [lia|]. rewrite length_app. lia. Qed.

Lemma concat_concat {A} (lss : list (list (list A))) : concat (@concat A <$> lss) = concat (concat lss).
Proof. induction lss as [|ls lss IH]; [done|]. cbn [fmap list_fmap concat]. rewrite concat_app. f_equal. exact IH. Qed.

Lemma level_min_ok tx h level ls :
  Forall2 (subtree_at tx h) level ls -> Forall key_ok (concat ls).*1 -> Forall min_ok level.
Proof.
  induction 1 as [|r l level ls Hr Hl IH]; intros Hk; [constructor|]. cbn [concat] in Hk.
  rewrite fmap_app, Forall_app in Hk. destruct Hk as [Hk1 Hk2]. constructor; [|auto].
  destruct Hr as (_ & _ & e & l' & -> & Hmin). unfold min_ok. rewrite Hmin. by apply Forall_cons in Hk1 as [? _].
Qed.

(** The levels above a level end in one subtree with all its entries. *)
Lemma buildLevels_correct fuel tx h level ls :
  store_ok tx -> Forall2 (subtree_at tx h) level ls -> Forall key_ok (concat ls).*1 ->
  sorted_keys (concat ls) -> zlen (concat ls) < 2 ^ 64 -> level <> [] -> (length level <= fuel)%nat ->
  match buildLevels kind fuel tx level with
  | Ok (level', tx') => store_ok tx' /\ extends tx tx' /\
      exists root h', level' = [root] /\ (2 ^ h' <= 2 ^ h * length level)%nat /\ subtree_at tx' h' root (concat ls)
  | Err e => e = ErrStorageLimit
  end.
Proof.
  revert tx h level ls; induction fuel as [|fuel IH]; intros tx h level ls Hok Hl Hk Hs Hmax Hne Hf;
    [destruct level; cbn in Hf; [done|lia]|]. cbn [buildLevels].
  destruct (Z.ltb_spec 1 (zlen level)) as [H1|H1].
  - assert (H2 : (2 <= length level)%nat) by (unfold zlen in H1; lia).
    destruct (partitionBulkLevel_ok level) as (groups & -> & <- & Hg & H2g); [by eapply level_min_ok|done|]. cbn [rbind].
    destruct (Forall2_concat_split _ _ _ Hl) as (lss & -> & Hlss). pose proof (concat_groups groups H2g) as Hlen.
    pose proof (writeGroups_correct h groups tx lss Hok Hlss Hg Hs Hmax) as Hw.
    destruct (writeGroups kind tx groups) as [[next tx1]|e]; cbn [rbind]; [|done]. destruct Hw as (Hok1 & He1 & Hnext).
    pose proof (Forall2_length _ _ _ Hnext) as Hn. rewrite length_fmap in Hn. pose proof (Forall2_length _ _ _ Hlss) as Hn'.
    specialize (IH tx1 (S h) next _ Hok1 Hnext). rewrite concat_concat in IH. specialize (IH Hk Hs Hmax).
    assert (Hng : groups <> []) by (intros ->; cbn in H2; lia).
    ospecialize (IH _ _); [destruct next; [destruct groups; [done|cbn in *; lia]|done]|lia|].
    destruct (buildLevels kind fuel tx1 next) as [[level' tx2]|e]; [|done]. destruct IH as (Hok2 & He2 & root & h' & -> & Hh & Hr).
    split; [done|]. split; [by trans tx1|]. exists root, h'. split; [done|]. split; [|done]. cbn [Nat.pow] in Hh. nia.
  - destruct level as [|root [|r2 level]]; [done| |unfold zlen in H1; cbn in H1; lia]. split; [done|]. split; [done|].
    inversion Hl as [|? l ? ls' Hr Hls]; subst. inversion Hls; subst. exists root, h. split; [done|]. split; [cbn; lia|].
    cbn [concat]. by rewrite app_nil_r.
Qed.

(** ** Pages and entries added *)

(** An entry that fits a leaf of its own. *)
Definition entry_fits (e : KeyValue) : Prop := key_ok e.1 /\ 32 + entry_bytes e <= capacity.

Definition last_key (l : list KeyValue) : bytes := match last l with Some e => e.1 | None => [] end.

(** The flushed leaves hold [ls], the pending entries are [l]. *)
Record building (tx : T) (b : SortedTreeBuilder) (ls : list (list KeyValue)) (l : list KeyValue) : Prop := {
  bd_store : store_ok tx;
  bd_leaves : Forall2 (subtree_at tx 0) (b_leaves b) ls;
  bd_keys : b_keys b = l.*1;
  bd_values : b_values b = l.*2;
  bd_size : b_leafSize b = 32 + leaf_bytes l;
  bd_room : b_leafSize b <= capacity;
  bd_sorted : sorted_keys (concat ls ++ l);
  bd_fits : Forall entry_fits (concat ls ++ l);
  bd_count : b_count b = zlen (concat ls ++ l);
  bd_last : b_lastKey b = last_key (concat ls ++ l);
  bd_pending : l = [] -> ls = [];
  bd_open : b_finished b = false }.

Lemma sorted_keys_snoc (l : list KeyValue) k v :
  sorted_keys (l ++ [(k, v)]) <-> sorted_keys l /\ (l = [] \/ blt (last_key l) k).
Proof.
  rewrite sorted_keys_app. destruct l as [|e l _] using rev_ind.
  - cbn. split; [intros _; split; [apply sorted_keys_nil|by left]|]. intros _. split; [apply sorted_keys_nil|].
    split; [|constructor]. apply sorted_keys_cons. split; [apply sorted_keys_nil|constructor].
  - unfold last_key. rewrite last_snoc. split.
    + intros (H1 & _ & H2). split; [done|]. right. rewrite fmap_app, Forall_app in H2. destruct H2 as [_ H2].
      cbn in H2. apply Forall_cons in H2 as [H2 _]. by apply Forall_cons in H2 as [? _].
    + intros [H1 [H2|H2]]; [by destruct l|]. split; [done|]. split; [apply sorted_keys_cons; split; [apply sorted_keys_nil|constructor]|].
      apply sorted_keys_app in H1 as (_ & _ & H1). rewrite fmap_app, Forall_app. split.
      * eapply Forall_impl; [exact H1|]. intros x Hx. cbn in Hx |- *. apply Forall_cons in Hx as [Hx _].
        constructor; [by trans e.1|constructor].
      * constructor; [|constructor]. constructor; [done|constructor].
Qed.

Lemma key_ok_fits l : Forall entry_fits l -> Forall key_ok l.*1.
Proof. intros Hf. rewrite Forall_fmap. eapply Forall_impl; [exact Hf|]. intros e [He _]. exact He. Qed.

Lemma flushLeaf_correct tx b l :
  store_ok tx -> b_keys b = l.*1 -> b_values b = l.*2 -> sorted_keys l -> Forall key_ok l.*1 ->
  32 + leaf_bytes l <= capacity -> zlen l < 2 ^ 64 ->
  match flushLeaf kind tx b with
  | Ok (b', tx') => store_ok tx' /\ extends tx tx' /\ exists page, stored kind tx' 0 page l /\
      b' = mk_builder [] [] (b_leaves b ++ [mk_bulk page (zlen l) (match l.*1 with key :: _ => key | [] => [] end)])
             (b_lastKey b) (b_count b) 32 (b_finished b)
  | Err e => e = ErrStorageLimit
  end.
Proof.
  intros Hok Hkeys Hvalues Hs Hk Hsz Hmax. unfold flushLeaf. rewrite Hkeys, Hvalues.
  assert (Hz : zlen l.*1 = zlen l) by (unfold zlen; by rewrite length_fmap). rewrite Hz.
  assert (Hh : holds tx kind 0 (mk_node true false l.*1 l.*2 [] (zlen l)) l).
  { split; [done|]. split; [unfold node_shape; cbn; rewrite !length_fmap; done|]. by split. }
  pose proof (append_node kind tx 0 true l.*1 l.*2 [] (zlen l) l Hok Hh) as Ha.
  ospecialize (Ha _ _ _ Hmax _); [apply Hh|rewrite (leaf_node_size _ _ _ _ Hh); done|done|constructor|].
  rewrite Hz in Ha. cbn iota in Ha. destruct (encodeTreeNode _) as [payload|e]; cbn [rbind] in *; [|done].
  destruct (appendPage tx _ _ _ _ payload) as [[id tx1]|e]; cbn [rbind] in *; [|done].
  destruct Ha as (Hok1 & He1 & _ & Hst). split; [done|]. split; [done|]. exists id. by split.
Qed.

(** The entries an added one has to follow. *)
Definition addable (all : list KeyValue) (e : KeyValue) : Prop :=
  entry_fits e /\ (all = [] \/ blt (last_key all) e.1).

Lemma last_key_pos all : Forall entry_fits all -> (0 <? zlen (last_key all)) = negb (match all with [] => true | _ => false end).
Proof.
  intros Hf. destruct all as [|e all _] using rev_ind; [done|]. unfold last_key. rewrite last_snoc.
  apply Forall_app in Hf as [_ Hf]. apply Forall_cons in Hf as [[[Hk _] _] _]. destruct (Z.ltb_spec 0 (zlen e.1)); [|lia].
  by destruct all.
Qed.

(** The checks of [Add] are exactly [addable]. *)
Lemma Add_checks all b tx k v :
  Forall entry_fits all -> b_finished b = false -> b_lastKey b = last_key all ->
  (addable all (k, v) /\
   Add kind tx b k v =
     (let* (b, tx) := if capacity <? b_leafSize b + entry_bytes (k, v) then flushLeaf kind tx b else Ok (b, tx) in
      Ok (mk_builder (b_keys b ++ [k]) (b_values b ++ [v]) (b_leaves b) k (to_u64 (b_count b + 1))
            (b_leafSize b + entry_bytes (k, v)) (b_finished b), tx))) \/
  (~ addable all (k, v) /\ exists e, Add kind tx b k v = Err e /\ e ∈ [ErrCorrupt; ErrNodeFull]).
Proof.
  intros Hf Hfin Hlast. unfold Add, addable, entry_fits, key_ok. rewrite Hfin, Hlast, last_key_pos by done. cbn [orb fst].
  assert (Hsize : entry_bytes (k, v) = 8 + 2 + 4 + zlen k + zlen v) by (unfold entry_bytes; cbn [fst snd]; lia).
  rewrite <- Hsize. change maxKey with 4096. pose proof (zlen_nonneg k).
  assert (Hin : forall e, e = ErrCorrupt \/ e = ErrNodeFull -> e ∈ [ErrCorrupt; ErrNodeFull]).
  { intros e [-> | ->]; [apply list_elem_of_here|apply list_elem_of_further, list_elem_of_here]. }
  destruct (Z.eqb_spec (zlen k) 0); [right; split; [lia|eexists; split; [done|auto]]|].
  destruct (Z.ltb_spec 4096 (zlen k)); [right; split; [lia|eexists; split; [done|auto]]|]. cbn [orb].
  destruct (match all with [] => true | _ => false end) eqn:Eall.
  - destruct all; [|done]. cbn [negb andb].
    destruct (Z.ltb_spec (2 ^ 32 - 1) (zlen v)).
    { right. split; [|eexists; split; [done|auto]]. intros [[_ Hb] _]. rewrite Hsize in Hb. change capacity with 16320 in Hb. lia. }
    destruct (Z.ltb_spec capacity (32 + entry_bytes (k, v))); [right; split; [lia|eexists; split; [done|auto]]|].
    left. split; [|done]. split; [lia|by left].
  - cbn [negb andb]. destruct (bltb (last_key all) k) eqn:Hlt; [apply bltb_lt in Hlt|apply bltb_ge in Hlt]; cbn [negb].
    2: { right. split; [|eexists; split; [done|auto]]. intros [_ [->|?]]; [done|contradiction]. }
    destruct (Z.ltb_spec (2 ^ 32 - 1) (zlen v)).
    { right. split; [|eexists; split; [done|auto]]. intros [[_ Hb] _]. rewrite Hsize in Hb. change capacity with 16320 in Hb. lia. }
    destruct (Z.ltb_spec capacity (32 + entry_bytes (k, v))); [right; split; [lia|eexists; split; [done|auto]]|].
    left. split; [|done]. split; [lia|by right].
Qed.

(** A flush inside [Add] moves the pending entries to a leaf. *)
Lemma flush_pending tx b ls l :
  building tx b ls l -> l <> [] -> zlen (concat ls ++ l) < 2 ^ 64 ->
  match flushLeaf kind tx b with
  | Ok (b', tx') => store_ok tx' /\ extends tx tx' /\ exists r, subtree_at tx' 0 r l /\
      b' = mk_builder [] [] (b_leaves b ++ [r]) (b_lastKey b) (b_count b) 32 (b_finished b)
  | Err e => e = ErrStorageLimit
  end.
Proof.
  intros Hb Hne Hmax. rewrite zlen_app in Hmax. pose proof (zlen_nonneg (concat ls)).
  destruct (proj1 (sorted_keys_app _ _) (bd_sorted _ _ _ _ Hb)) as (_ & Hs & _).
  destruct (proj1 (Forall_app _ _ _) (bd_fits _ _ _ _ Hb)) as [_ Hf].
  pose proof (flushLeaf_correct tx b l (bd_store _ _ _ _ Hb) (bd_keys _ _ _ _ Hb) (bd_values _ _ _ _ Hb) Hs
    (key_ok_fits l Hf)) as Hfl. rewrite <- (bd_size _ _ _ _ Hb) in Hfl. specialize (Hfl (bd_room _ _ _ _ Hb) ltac:(lia)).
  destruct (flushLeaf kind tx b) as [[b' tx']|e]; [|done]. destruct Hfl as (Hok & He & page & Hst & ->).
  split; [done|]. split; [done|]. eexists. split; [|reflexivity]. split; [done|]. split; [done|].
  destruct l as [|e l]; [done|]. by exists e, l.
Qed.

Lemma Add_correct tx b ls l k v :
  building tx b ls l -> zlen (concat ls ++ l) + 1 < 2 ^ 64 ->
  match Add kind tx b k v with
  | Ok (b', tx') => addable (concat ls ++ l) (k, v) /\ extends tx tx' /\
      exists ls' l', building tx' b' ls' l' /\ l' <> [] /\ concat ls' ++ l' = (concat ls ++ l) ++ [(k, v)]
  | Err e => e = ErrStorageLimit \/ (e ∈ [ErrCorrupt; ErrNodeFull] /\ ~ addable (concat ls ++ l) (k, v))
  end.
Proof.
  intros Hb Hmax. pose proof Hb as [Hok Hlv Hks Hvs Hsz Hroom Hs Hf Hc Hla Hpe Hop].
  destruct (Add_checks (concat ls ++ l) b tx k v Hf Hop Hla) as [[Hadd ->]|(Hn & e & -> & He)]; [|by right].
  assert (Hs' : sorted_keys ((concat ls ++ l) ++ [(k, v)])) by (apply sorted_keys_snoc; split; [done|apply Hadd]).
  assert (Hf' : Forall entry_fits ((concat ls ++ l) ++ [(k, v)])) by (apply Forall_app; split; [done|]; constructor; [apply Hadd|constructor]).
  assert (Hto : to_u64 (b_count b + 1) = zlen ((concat ls ++ l) ++ [(k, v)])).
  { rewrite Hc, (zlen_app _ [(k, v)]). change (zlen [(k, v)]) with 1. pose proof (zlen_nonneg (concat ls ++ l)). apply Z.mod_small. lia. }
  assert (Hla' : k = last_key ((concat ls ++ l) ++ [(k, v)])) by (unfold last_key; by rewrite last_snoc).
  destruct (Z.ltb_spec capacity (b_leafSize b + entry_bytes (k, v))) as [Hfull|Hroom'].
  - assert (Hne : l <> []).
    { intros ->. rewrite Hsz in Hfull. change (leaf_bytes []) with 0 in Hfull. destruct Hadd as [[_ ?] _]. lia. }
    pose proof (flush_pending tx b ls l Hb Hne ltac:(lia)) as Hfl.
    destruct (flushLeaf kind tx b) as [[b' tx']|e]; cbn [rbind]; [|by left].
    destruct Hfl as (Hok' & He & r & Hr & ->). cbn [b_keys b_values b_leaves b_count b_leafSize b_finished].
    split; [done|]. split; [done|]. exists (ls ++ [l]), [(k, v)]. split; [|split; [done|]].
    2: { rewrite concat_app. cbn [concat]. by rewrite app_nil_r. }
    assert (Hcat : concat (ls ++ [l]) ++ [(k, v)] = (concat ls ++ l) ++ [(k, v)]).
    { rewrite concat_app. cbn [concat]. by rewrite app_nil_r. }
    split; cbn [b_keys b_values b_leaves b_count b_leafSize b_finished b_lastKey]; rewrite ?Hcat; try done.
    + apply Forall2_app; [by eapply level_extends|]. by constructor.
    + rewrite leaf_bytes_cons. unfold entry_bytes. change (leaf_bytes []) with 0. cbn [fst snd]. lia.
    + apply Hadd.
  - cbn [rbind]. split; [done|]. split; [done|]. exists ls, (l ++ [(k, v)]). rewrite app_assoc. split; [|split; [by destruct l|done]].
    split; cbn [b_keys b_values b_leaves b_count b_leafSize b_finished b_lastKey]; rewrite ?app_assoc, ?fmap_app; try done.
    + by rewrite Hks.
    + by rewrite Hvs.
    + rewrite leaf_bytes_app, leaf_bytes_cons, Hsz. unfold entry_bytes. change (leaf_bytes []) with 0. cbn [fst snd]. lia.
    + by destruct l.
Qed.

Lemma addAll_correct tx b ls l added :
  building tx b ls l -> zlen (concat ls ++ l) + zlen added < 2 ^ 64 ->
  match addAll kind tx b added with
  | Ok (b', tx') => extends tx tx' /\
      exists ls' l', building tx' b' ls' l' /\ (added <> [] -> l' <> []) /\ concat ls' ++ l' = (concat ls ++ l) ++ added
  | Err e => e = ErrStorageLimit \/ (e ∈ [ErrCorrupt; ErrNodeFull] /\
      ~ (sorted_keys ((concat ls ++ l) ++ added) /\ Forall entry_fits ((concat ls ++ l) ++ added)))
  end.
Proof.
  revert tx b ls l; induction added as [|[k v] added IH]; intros tx b ls l Hb Hmax; cbn [addAll].
  { split; [done|]. exists ls, l. split; [done|]. split; [done|]. by rewrite app_nil_r. }
  rewrite zlen_cons in Hmax. pose proof (zlen_nonneg added). pose proof (Add_correct tx b ls l k v Hb ltac:(lia)) as Ha.
  destruct (Add kind tx b k v) as [[b1 tx1]|e]; cbn [rbind].
  - destruct Ha as (Hadd & He1 & ls1 & l1 & Hb1 & Hne & Hcat).
    assert (Hmax1 : zlen (concat ls1 ++ l1) + zlen added < 2 ^ 64).
    { rewrite Hcat, (zlen_app _ [(k, v)]). change (zlen [(k, v)]) with 1. lia. }
    specialize (IH tx1 b1 ls1 l1 Hb1 Hmax1). rewrite Hcat, <- app_assoc in IH. cbn [app] in IH.
    destruct (addAll kind tx1 b1 added) as [[b2 tx2]|e] eqn:E.
    + destruct IH as (He2 & ls2 & l2 & Hb2 & Hne2 & Hcat2). split; [by trans tx1|]. exists ls2, l2. split; [done|].
      split; [|done]. intros _. destruct added; [|by apply Hne2]. cbn [addAll] in E. injection E as -> ->.
      intros ->. pose proof (bd_pending _ _ _ _ Hb2 eq_refl) as ->. cbn in Hcat2. by destruct (concat ls ++ l).
    + done.
  - destruct Ha as [?|[He Hn]]; [by left|]. right. split; [done|]. intros [Hs Hf].
    change ((k, v) :: added) with ([(k, v)] ++ added) in Hs, Hf. rewrite app_assoc in Hs, Hf.
    apply sorted_keys_app in Hs as [Hs _]. apply sorted_keys_snoc in Hs as [_ Hs].
    apply Forall_app in Hf as [Hf _]. apply Forall_app in Hf as [_ Hf]. apply Forall_cons in Hf as [Hf _]. by apply Hn.
Qed.

(** The leaves are never more than the entries. *)
Lemma leaves_le tx level ls : Forall2 (subtree_at tx 0) level ls -> (length level <= length (concat ls))%nat.
Proof.
  induction 1 as [|r l level ls Hr Hl IH]; cbn [length concat]; [lia|]. rewrite length_app.
  destruct Hr as (_ & _ & e & l' & -> & _). cbn. lia.
Qed.

Lemma Finish_correct fuel tx b ls l :
  building tx b ls l -> zlen (concat ls ++ l) < 2 ^ 64 -> (Nat.max 1 (length (concat ls ++ l)) <= fuel)%nat ->
  match Finish kind fuel tx b with
  | Ok (page, b', tx') => b_finished b' = true /\ store_ok tx' /\ extends tx tx' /\
      exists h, (2 ^ h <= Nat.max 1 (length (concat ls ++ l)))%nat /\ stored kind tx' h page (concat ls ++ l)
  | Err e => e = ErrStorageLimit
  end.
Proof.
  intros Hb Hmax Hfuel. pose proof Hb as [Hok Hlv Hks Hvs Hsz Hroom Hs Hf Hc Hla Hpe Hop].
  unfold Finish. rewrite Hop. cbn [set_finished b_keys b_leaves].
  assert (Hz : zlen (b_keys b) = zlen l) by (rewrite Hks; unfold zlen; by rewrite length_fmap). rewrite Hz.
  destruct l as [|e l].
  { rewrite (Hpe eq_refl) in *. inversion Hlv as [Hnil|]. cbn [orb Z.ltb Z.compare zlen length Z.of_nat Z.eqb].
    rewrite <- Hnil in Hlv.
    pose proof (flushLeaf_correct tx (set_finished b) [] Hok Hks Hvs sorted_keys_nil) as Hfl.
    specialize (Hfl (Forall_nil_2 _)). specialize (Hfl ltac:(by vm_compute) ltac:(by vm_compute)).
    destruct (flushLeaf kind tx (set_finished b)) as [[b' tx']|er]; cbn [rbind]; [|done].
    destruct Hfl as (Hok' & He & page & Hst & ->). cbn [set_finished b_leaves]. rewrite <- Hnil. cbn [app fmap list_fmap].
    destruct fuel as [|fuel]; [cbn in Hfuel; lia|]. cbn [buildLevels]. change (1 <? zlen [_]) with false. cbn [rbind bulk_count b_count set_finished].
    rewrite Hc. cbn. split; [done|]. split; [done|]. split; [done|]. exists 0%nat. split; [cbn; lia|done]. }
  destruct (Z.ltb_spec 0 (zlen (e :: l))) as [_|Hbad]; [|rewrite zlen_cons in Hbad; pose proof (zlen_nonneg l); lia].
  cbn [orb].
  destruct (proj1 (sorted_keys_app _ _) Hs) as (_ & Hsl & _). destruct (proj1 (Forall_app _ _ _) Hf) as [_ Hfl'].
  pose proof Hmax as Hmax'. rewrite zlen_app in Hmax'. pose proof (zlen_nonneg (concat ls)).
  pose proof (flushLeaf_correct tx (set_finished b) (e :: l) Hok Hks Hvs Hsl (key_ok_fits _ Hfl')) as Hfl.
  specialize (Hfl ltac:(rewrite <- Hsz; exact Hroom) ltac:(lia)).
  destruct (flushLeaf kind tx (set_finished b)) as [[b' tx1]|er]; cbn [rbind]; [|done].
  destruct Hfl as (Hok1 & He1 & page & Hst & ->). cbn [set_finished b_leaves b_count b_finished b_lastKey].
  set (r := mk_bulk page (zlen (e :: l)) _).
  assert (Hlv1 : Forall2 (subtree_at tx1 0) (b_leaves b ++ [r]) (ls ++ [e :: l])).
  { apply Forall2_app; [by eapply level_extends|]. constructor; [|constructor]. split; [done|]. split; [done|]. by exists e, l. }
  assert (Hcat : concat (ls ++ [e :: l]) = concat ls ++ e :: l) by (rewrite concat_app; cbn [concat]; by rewrite app_nil_r).
  pose proof (leaves_le _ _ _ Hlv1) as Hle. rewrite Hcat in Hle.
  pose proof (buildLevels_correct fuel tx1 0 _ _ Hok1 Hlv1) as Hbl. rewrite Hcat in Hbl.
  specialize (Hbl (key_ok_fits _ Hf) Hs Hmax). ospecialize (Hbl _ _); [by destruct (b_leaves b)|lia|].
  destruct (buildLevels kind fuel tx1 (b_leaves b ++ [r])) as [[level tx2]|er]; cbn [rbind]; [|done].
  destruct Hbl as (Hok2 & He2 & root & h & -> & Hh & [Hst2 [Hcnt _]]).
  rewrite Hcnt, Hc, Z.eqb_refl. cbn [negb]. split; [done|]. split; [done|]. split; [by trans tx1|].
  exists h. split; [|done]. cbn [Nat.pow] in Hh. lia.
Qed.

(** Building from a list of entries. *)
Lemma buildSorted_spec fuel tx l :
  store_ok tx -> zlen l < 2 ^ 64 -> (Nat.max 1 (length l) <= fuel)%nat ->
  match buildSorted kind fuel tx l with
  | Ok (page, b', tx') => sorted_keys l /\ Forall entry_fits l /\ b_finished b' = true /\ store_ok tx' /\ extends tx tx' /\
      exists h, (2 ^ h <= Nat.max 1 (length l))%nat /\ stored kind tx' h page l
  | Err e => e = ErrStorageLimit \/ (e ∈ [ErrCorrupt; ErrNodeFull] /\ ~ (sorted_keys l /\ Forall entry_fits l))
  end.
Proof.
  intros Hok Hmax Hfuel. unfold buildSorted.
  assert (Hb0 : building tx NewSortedTreeBuilder [] []).
  { split; try done; constructor. }
  pose proof (addAll_correct tx NewSortedTreeBuilder [] [] l Hb0) as Ha. cbn [concat app] in Ha.
  specialize (Ha ltac:(change (zlen []) with 0; lia)).
  destruct (addAll kind tx NewSortedTreeBuilder l) as [[b tx1]|e]; cbn [rbind]; [|done].
  destruct Ha as (He1 & ls & l' & Hb & _ & Hcat).
  pose proof (Finish_correct fuel tx1 b ls l' Hb) as Hfin. rewrite Hcat in Hfin. specialize (Hfin Hmax Hfuel).
  pose proof (bd_sorted _ _ _ _ Hb) as Hs. pose proof (bd_fits _ _ _ _ Hb) as Hf. rewrite Hcat in Hs, Hf.
  destruct (Finish kind fuel tx1 b) as [[[page b'] tx2]|e]; [|by left].
  destruct Hfin as (Hfi & Hok2 & He2 & h & Hh & Hst). split; [done|]. split; [done|]. split; [done|]. split; [done|].
  split; [by trans tx1|]. by exists h.
Qed.

(** A finished builder refuses further use. *)
Lemma finished_refuses b tx key value fuel :
  b_finished b = true -> Add kind tx b key value = Err ErrCorrupt /\ Finish kind fuel tx b = Err ErrCorrupt.
Proof. intros Hf. unfold Add, Finish. by rewrite Hf. Qed.

(** C19: adding entries and finishing gives the page of a balanced tree of exactly
    those entries, over all the pages there were, when they are in strictly
    increasing key order and each fits a leaf; otherwise an entry is refused, and
    the only other failure is the storage limit. The loops end, and the builder
    cannot be used again. *)
Theorem SortedTreeBuilder_builds fuel tx l :
  store_ok tx -> zlen l < 2 ^ 64 -> (Nat.max 1 (length l) <= fuel)%nat ->
  match buildSorted kind fuel tx l with
  | Ok (page, b, tx') => sorted_keys l /\ Forall entry_fits l /\ store_ok tx' /\ extends tx tx' /\
      (exists h root, (2 ^ h <= Nat.max 1 (length l))%nat /\ OpenTree tx' kind page = Ok root /\ rep tx' kind h root l /\
        forall key, Get tx' kind (S h) root key = Ok (field l key)) /\
      (forall tx key value, Add kind tx b key value = Err ErrCorrupt) /\ (forall tx, Finish kind fuel tx b = Err ErrCorrupt)
  | Err e => e = ErrStorageLimit \/ (e ∈ [ErrCorrupt; ErrNodeFull] /\ ~ (sorted_keys l /\ Forall entry_fits l))
  end.
Proof.
  intros Hok Hmax Hfuel. pose proof (buildSorted_spec fuel tx l Hok Hmax Hfuel) as Hb.
  destruct (buildSorted kind fuel tx l) as [[[page b] tx']|e]; [|done].
  destruct Hb as (Hs & Hf & Hfin & Hok' & He & h & Hh & Hst).
  destruct (OpenTree_stored kind tx' h page l Hok' Hst) as (root & Ho & Hr & _).
  do 4 (split; [done|]). split.
  - exists h, root. split; [done|]. split; [done|]. split; [done|]. intros key. exact (getBorrowed_correct tx' kind h root l key (S h) Hr ltac:(lia)).
  - split; [intros t k v; exact (proj1 (finished_refuses b t k v fuel Hfin))|].
    intros t. exact (proj2 (finished_refuses b t [] [] fuel Hfin)).
Qed.
End Levels.
