(* ===== verification/FileStore.v ===== *)
(** * The database file and its write transactions

    [File] and [WriteTxn] of [internal/storage/file.go]: page allocation, staging
    and reads. A file is the list of its pages. Locks, page cache, notification
    channels and statistics are not part of the state: [PageCache] shows that reads
    through the cache are reads of the file, and the others are not read by the
    code modelled here. *)
From stdpp Require Import gmap.
From S2P Require Import Prelude Bytes Layout Hashes PageFormat Entries NodeCodec CowTree.
From S2P Require Import TreeShape TreeInvariant TreeRep TreeDelete Flush.
#[local] Open Scope Z_scope.

(** ** Files *)

Abbreviation disk := (list bytes).

(** [ReadAt] of a whole page; past the end it fails. *)
Definition read_page (d : disk) (pageID : Z) : result bytes :=
  if pageID <? 0 then Err ErrCorrupt else of_option ErrIO (d !! Z.to_nat pageID).

(** [WriteAt] of a whole page; a write past the end leaves zeros before it. *)
Definition write_page (d : disk) (pageID : Z) (data : bytes) : disk :=
  let i := Z.to_nat pageID in
  if (i <? length d)%nat then <[i:=data]> d
  else d ++ replicate (i - length d) (zeros PageSize) ++ [data].

Definition DefaultCommitRetentionMaxCommits : Z := 10000.
Definition DefaultCommitRetentionMaxBytes : Z := Z.shiftl 256 20.

(** A version an active reader or replay stream needs retained. *)
Record readerPin := mk_readerPin {
  pin_generation : Z;
  pin_sequence : Z;
  pin_rootPage : Z;
  pin_replay : bool }.

(** The fields of a [File] that publication, allocation and retention read and
    write; [f_readers] holds the pins by their numbers. *)
Record File := mk_File {
  f_file : disk;
  f_meta : Meta;
  f_root : DatabaseRoot;
  f_metaSlot : Z;
  f_metas : Meta * Meta;
  f_metaOK : bool * bool;
  f_nextPage : Z;
  f_fatalErr : option gerror;
  f_freePages : list Z;
  f_freeSpaceTracked : bool;
  f_freeSpaceNeedsRebuild : bool;
  f_maxPhysicalPages : Z;
  f_readers : gmap Z readerPin;
  f_commitRetentionMax : Z;
  f_commitRetentionMaxBytes : Z;
  f_retainedCommitBytes : Z;
  f_nextPin : Z }.

(** Go's [a[slot]] for arrays of length two. *)
Definition slot2 {A} (p : A * A) (slot : Z) : A := if slot =? 0 then p.1 else p.2.
Definition set_slot2 {A} (p : A * A) (slot : Z) (a : A) : A * A := if slot =? 0 then (a, p.2) else (p.1, a).

Record WriteTxn := mk_WriteTxn {
  tx_file : File;
  tx_baseRoot : DatabaseRoot;
  tx_generation : Z;
  tx_sequence : Z;
  tx_nextPage : Z;
  tx_freePages : list Z;
  tx_reusedPages : list Z;
  tx_pages : list (Z * bytes);
  tx_byID : gmap Z bytes;
  tx_freeSpaceTracked : bool;
  tx_freeSpaceRebuild : bool;
  tx_metadataAllocation : bool;
  tx_requiredFeatures : Z;
  tx_indexBuildCatalogChanged : bool;
  tx_retentionEvaluated : bool;
  tx_retainedCommitBytes : Z }.

(** Updates of one or two fields. *)
Definition set_alloc (tx : WriteTxn) (nextPage : Z) (free reused : list Z) : WriteTxn :=
  mk_WriteTxn (tx_file tx) (tx_baseRoot tx) (tx_generation tx) (tx_sequence tx) nextPage free reused
    (tx_pages tx) (tx_byID tx) (tx_freeSpaceTracked tx) (tx_freeSpaceRebuild tx) (tx_metadataAllocation tx)
    (tx_requiredFeatures tx) (tx_indexBuildCatalogChanged tx) (tx_retentionEvaluated tx) (tx_retainedCommitBytes tx).
Definition set_pages (tx : WriteTxn) (pages : list (Z * bytes)) (byID : gmap Z bytes) : WriteTxn :=
  mk_WriteTxn (tx_file tx) (tx_baseRoot tx) (tx_generation tx) (tx_sequence tx) (tx_nextPage tx) (tx_freePages tx)
    (tx_reusedPages tx) pages byID (tx_freeSpaceTracked tx) (tx_freeSpaceRebuild tx) (tx_metadataAllocation tx)
    (tx_requiredFeatures tx) (tx_indexBuildCatalogChanged tx) (tx_retentionEvaluated tx) (tx_retainedCommitBytes tx).
Definition set_metadataAllocation (tx : WriteTxn) (b : bool) : WriteTxn :=
  mk_WriteTxn (tx_file tx) (tx_baseRoot tx) (tx_generation tx) (tx_sequence tx) (tx_nextPage tx) (tx_freePages tx)
    (tx_reusedPages tx) (tx_pages tx) (tx_byID tx) (tx_freeSpaceTracked tx) (tx_freeSpaceRebuild tx) b
    (tx_requiredFeatures tx) (tx_indexBuildCatalogChanged tx) (tx_retentionEvaluated tx) (tx_retainedCommitBytes tx).
Definition set_requiredFeatures (tx : WriteTxn) (features : Z) : WriteTxn :=
  mk_WriteTxn (tx_file tx) (tx_baseRoot tx) (tx_generation tx) (tx_sequence tx) (tx_nextPage tx) (tx_freePages tx)
    (tx_reusedPages tx) (tx_pages tx) (tx_byID tx) (tx_freeSpaceTracked tx) (tx_freeSpaceRebuild tx)
    (tx_metadataAllocation tx) features (tx_indexBuildCatalogChanged tx) (tx_retentionEvaluated tx) (tx_retainedCommitBytes tx).

Definition set_retention (tx : WriteTxn) (evaluated : bool) (retained : Z) : WriteTxn :=
  mk_WriteTxn (tx_file tx) (tx_baseRoot tx) (tx_generation tx) (tx_sequence tx) (tx_nextPage tx) (tx_freePages tx)
    (tx_reusedPages tx) (tx_pages tx) (tx_byID tx) (tx_freeSpaceTracked tx) (tx_freeSpaceRebuild tx)
    (tx_metadataAllocation tx) (tx_requiredFeatures tx) (tx_indexBuildCatalogChanged tx) evaluated retained.
Definition set_sequence (tx : WriteTxn) (sequence : Z) : WriteTxn :=
  mk_WriteTxn (tx_file tx) (tx_baseRoot tx) (tx_generation tx) sequence (tx_nextPage tx) (tx_freePages tx)
    (tx_reusedPages tx) (tx_pages tx) (tx_byID tx) (tx_freeSpaceTracked tx) (tx_freeSpaceRebuild tx)
    (tx_metadataAllocation tx) (tx_requiredFeatures tx) (tx_indexBuildCatalogChanged tx) (tx_retentionEvaluated tx)
    (tx_retainedCommitBytes tx).

(** ** Transactions *)

Definition requireFeature (tx : WriteTxn) (feature : Z) : result WriteTxn :=
  if (feature =? 0) || negb (Z.ldiff feature SupportedRequiredFeatures =? 0) then Err ErrUnsupportedFeature
  else Ok (set_requiredFeatures tx (Z.lor (tx_requiredFeatures tx) feature)).

(** Free pages are taken from the end, then the file grows. *)
Definition allocatePageID (tx : WriteTxn) : result (Z * WriteTxn) :=
  if tx_nextPage tx <? 2 then Err ErrCorrupt
  else
    match last (tx_freePages tx), tx_metadataAllocation tx with
    | Some id, false =>
        if (id <? 2) || (tx_nextPage tx <=? id) then Err ErrCorrupt
        else Ok (id, set_alloc tx (tx_nextPage tx) (removelast (tx_freePages tx)) (tx_reusedPages tx ++ [id]))
    | _, _ =>
        let max := f_maxPhysicalPages (tx_file tx) in
        if (max =? 0) || (max <=? tx_nextPage tx) then Err ErrStorageLimit
        else
          let id := tx_nextPage tx in
          let next := to_u64 (id + 1) in
          if next =? 0 then Err ErrCorrupt else Ok (id, set_alloc tx next (tx_freePages tx) (tx_reusedPages tx))
    end.

Fixpoint allocatePageIDs (tx : WriteTxn) (count : nat) : result (list Z * WriteTxn) :=
  match count with
  | O => Ok ([], tx)
  | S count =>
      let* (id, tx) := allocatePageID tx in
      let* (ids, tx) := allocatePageIDs tx count in
      Ok (id :: ids, tx)
  end.

Definition appendPageAt (tx : WriteTxn) (id pageType flags itemCount link : Z) (payload : bytes) : result WriteTxn :=
  if id <? 2 then Err ErrCorrupt
  else
    let* encoded := EncodePage {| page_Type := pageType; page_Flags := flags; page_ID := id;
      page_Generation := tx_generation tx; page_BornSequence := tx_sequence tx;
      page_ItemCount := itemCount; page_Link := link; page_Payload := payload |} in
    Ok (set_pages tx (tx_pages tx ++ [(id, encoded)]) (<[id:=encoded]> (tx_byID tx))).

Definition tx_appendPage (tx : WriteTxn) (pageType flags itemCount link : Z) (payload : bytes) : result (Z * WriteTxn) :=
  let* (id, tx) := allocatePageID tx in
  let* tx := appendPageAt tx id pageType flags itemCount link payload in
  Ok (id, tx).

(** The page and its bytes. *)
Definition readDataPageUnlocked (f : File) (pageID : Z) : result (bytes * Page) :=
  if (pageID <? 2) || (f_nextPage f <=? pageID) then Err ErrCorrupt
  else
    let* raw := read_page (f_file f) pageID in
    let* decoded := decodePageView raw pageID in
    Ok (raw, decoded).

Definition tx_readPage (tx : WriteTxn) (pageID : Z) : result bytes :=
  match tx_byID tx !! pageID with
  | Some page => Ok page
  | None =>
      if (pageID <? 2) || (f_nextPage (tx_file tx) <=? pageID) then Err ErrCorrupt
      else let* page := readDataPageUnlocked (tx_file tx) pageID in Ok page.1
  end.

#[export] Instance WriteTxn_pages : PageStore WriteTxn := {|
  readPage := tx_readPage;
  appendPage := tx_appendPage |}.

(** A page the transaction has written. *)
Definition staged (tx : WriteTxn) (id : Z) : Prop := is_Some (tx_byID tx !! id).

(** ** What holds of a transaction that only uses these operations *)

Record txn_ok (tx : WriteTxn) : Prop := {
  txn_next : 2 <= f_nextPage (tx_file tx) <= tx_nextPage tx;
  txn_max : f_maxPhysicalPages (tx_file tx) < 2 ^ 64 - 1;
  txn_next_width : tx_nextPage tx < 2 ^ 64;
  txn_generation : 0 < tx_generation tx < 2 ^ 64;
  txn_sequence : 0 <= tx_sequence tx < 2 ^ 64;
  txn_base_free : Forall (fun id => 2 <= id < f_nextPage (tx_file tx)) (f_freePages (tx_file tx));
  (** The pages taken so far, last taken first, are the end of the pool. *)
  txn_free : f_freePages (tx_file tx) = tx_freePages tx ++ rev (tx_reusedPages tx);
  txn_free_NoDup : NoDup (f_freePages (tx_file tx));
  txn_staged id : staged tx id ->
    (id ∉ tx_freePages tx) /\ (id ∈ f_freePages (tx_file tx) \/ f_nextPage (tx_file tx) <= id < tx_nextPage tx) }.

Lemma txn_free_prefix tx : txn_ok tx -> tx_freePages tx `prefix_of` f_freePages (tx_file tx).
Proof. intros Hok. rewrite (txn_free _ Hok). by eexists. Qed.

(** Pages the transaction has written, and committed pages that were not free
    when it began. *)
Definition txn_available (tx : WriteTxn) (id : Z) : Prop :=
  staged tx id \/ (2 <= id < f_nextPage (tx_file tx) /\ id ∉ f_freePages (tx_file tx)).

Lemma last_removelast {A} (l : list A) x : last l = Some x -> l = removelast l ++ [x].
Proof.
  intros Hl. apply last_Some in Hl as [l' ->]. by rewrite removelast_last.
Qed.

Lemma elem_of_snoc {A} (l : list A) x : x ∈ l ++ [x].
Proof. apply elem_of_app. right. by left. Qed.
Lemma elem_of_front {A} (l1 l2 : list A) x : x ∈ l1 -> x ∈ l1 ++ l2.
Proof. intros. apply elem_of_app. by left. Qed.

(** What [allocatePageID] changes, whichever way it finds a page. *)
Lemma allocatePageID_ok tx id tx' :
  txn_ok tx -> allocatePageID tx = Ok (id, tx') ->
  txn_ok tx' /\ 2 <= id < 2 ^ 64 /\ ~ staged tx id /\ (id ∉ tx_freePages tx') /\
  ~ txn_available tx id /\ (id ∈ f_freePages (tx_file tx) \/ f_nextPage (tx_file tx) <= id < tx_nextPage tx') /\
  tx' = set_alloc tx (tx_nextPage tx') (tx_freePages tx') (tx_reusedPages tx').
Proof.
  intros Hok. pose proof Hok as [Hn Hmax Hw Hg Hs Hbf Hfr Hnd Hst]. pose proof (txn_free_prefix _ Hok) as Hpre.
  unfold allocatePageID. destruct (tx_nextPage tx <? 2); [done|].
  set (grow := if (f_maxPhysicalPages (tx_file tx) =? 0) || _ then _ else _).
  assert (Hgrow : grow = Ok (id, tx') -> txn_ok tx' /\ 2 <= id < 2 ^ 64 /\ ~ staged tx id /\
    (id ∉ tx_freePages tx') /\ ~ txn_available tx id /\
    (id ∈ f_freePages (tx_file tx) \/ f_nextPage (tx_file tx) <= id < tx_nextPage tx') /\
    tx' = set_alloc tx (tx_nextPage tx') (tx_freePages tx') (tx_reusedPages tx')).
  { unfold grow. destruct (_ || _) eqn:E; [done|]. breflect.
    assert (Hto : to_u64 (tx_nextPage tx + 1) = tx_nextPage tx + 1) by (apply Z.mod_small; lia). rewrite Hto.
    destruct (Z.eqb_spec (tx_nextPage tx + 1) 0); [lia|]. intros [= <- <-]. cbn.
    assert (Hfree : forall i, i ∈ f_freePages (tx_file tx) -> i < f_nextPage (tx_file tx)).
    { intros i Hi. rewrite Forall_forall in Hbf. by apply Hbf. }
    assert (Hdom : ~ staged tx (tx_nextPage tx)).
    { intros Hd%Hst. destruct Hd as [_ [?%Hfree|?]]; lia. }
    split; [constructor; cbn; try done; try lia|].
    { intros i Hi. destruct (Hst i Hi) as [? [?|?]]; split; try done; [by left|right; lia]. }
    split; [lia|]. split; [done|]. split; [|split; [|split; [right; lia|done]]].
    - intros Hi. assert (Hx : tx_nextPage tx ∈ f_freePages (tx_file tx)) by (by eapply elem_of_prefix).
      apply Hfree in Hx. lia.
    - intros [Hd|[? _]]; [done|lia]. }
  destruct (last (tx_freePages tx)) as [x|] eqn:El; [|done].
  destruct (tx_metadataAllocation tx); [done|]. clear grow Hgrow.
  destruct ((x <? 2) || _) eqn:E; [done|]. breflect. intros Heq%Ok_inj. injection Heq as <- <-. cbn.
  apply last_removelast in El. set (free := removelast (tx_freePages tx)) in *.
  assert (Hx : x ∈ f_freePages (tx_file tx)).
  { eapply elem_of_prefix; [|exact Hpre]. rewrite El. apply elem_of_snoc. }
  assert (Hnx : x ∉ free).
  { destruct Hpre as [k Hk]. rewrite Hk, El in Hnd. apply NoDup_app in Hnd as (Hnd & _).
    apply NoDup_app in Hnd as (_ & Hd & _). intros Hi. apply (Hd x Hi). by left. }
  assert (Hd : ~ staged tx x).
  { intros [Hi _]%Hst. apply Hi. rewrite El. apply elem_of_snoc. }
  split; [constructor; cbn; try done|].
  - rewrite rev_app_distr. cbn [rev app]. by rewrite Hfr, El, <- app_assoc.
  - intros i [Hi ?]%Hst. split; [|done]. intros Hf. apply Hi. rewrite El. by apply elem_of_front.
  - rewrite Forall_forall in Hbf. specialize (Hbf x Hx). split; [lia|]. split; [done|]. split; [done|].
    split; [|by auto]. intros [?|[_ ?]]; done.
Qed.

Lemma allocatePageID_error tx e : txn_ok tx -> allocatePageID tx = Err e -> e = ErrStorageLimit.
Proof.
  intros Hok. pose proof Hok as [Hn Hmax Hw Hg Hs Hbf Hfr Hnd Hst]. pose proof (txn_free_prefix _ Hok) as Hpre. unfold allocatePageID.
  destruct (Z.ltb_spec (tx_nextPage tx) 2); [lia|].
  set (grow := if (f_maxPhysicalPages (tx_file tx) =? 0) || _ then _ else _).
  assert (Hgrow : grow = Err e -> e = ErrStorageLimit).
  { unfold grow. destruct (_ || _) eqn:E; [by intros [= <-]|]. breflect.
    assert (Hto : to_u64 (tx_nextPage tx + 1) = tx_nextPage tx + 1) by (apply Z.mod_small; lia). rewrite Hto.
    destruct (Z.eqb_spec (tx_nextPage tx + 1) 0); [lia|done]. }
  destruct (last (tx_freePages tx)) as [x|] eqn:El; [|done]. destruct (tx_metadataAllocation tx); [done|].
  assert (Hx : 2 <= x < f_nextPage (tx_file tx)).
  { rewrite Forall_forall in Hbf. apply Hbf. eapply elem_of_prefix; [|exact Hpre].
    rewrite (last_removelast _ _ El). apply elem_of_snoc. }
  destruct (Z.ltb_spec x 2); [lia|]. destruct (Z.leb_spec (tx_nextPage tx) x); [lia|done].
Qed.

(** ** Appending keeps the promises of a page store *)

Lemma appendPageAt_stage tx id t flags n link payload tx' :
  appendPageAt tx id t flags n link payload = Ok tx' ->
  exists encoded, EncodePage {| page_Type := t; page_Flags := flags; page_ID := id;
      page_Generation := tx_generation tx; page_BornSequence := tx_sequence tx;
      page_ItemCount := n; page_Link := link; page_Payload := payload |} = Ok encoded /\
    tx' = set_pages tx (tx_pages tx ++ [(id, encoded)]) (<[id:=encoded]> (tx_byID tx)).
Proof.
  unfold appendPageAt. destruct (id <? 2); [done|]. intros Ha. inv_ok. eauto.
Qed.

Lemma tx_appendPage_error tx t n payload e :
  txn_ok tx -> tree_page_type t -> 0 <= n < 2 ^ 32 -> 0 < zlen payload <= capacity ->
  tx_appendPage tx t 0 n 0 payload = Err e -> e = ErrStorageLimit.
Proof.
  intros Hok [kind Ht] Hn Hp. unfold tx_appendPage.
  destruct (allocatePageID tx) as [[id tx1]|e1] eqn:Ea; cbn [rbind].
  2: { intros [= <-]. by eapply allocatePageID_error. }
  apply allocatePageID_ok in Ea as (Hok1 & Hid & _ & _ & _ & _ & ->); [|done].
  unfold appendPageAt. destruct (Z.ltb_spec id 2); [lia|]. cbn [set_alloc tx_generation tx_sequence].
  assert (Hv : validPage {| page_Type := t; page_Flags := 0; page_ID := id; page_Generation := tx_generation tx;
    page_BornSequence := tx_sequence tx; page_ItemCount := n; page_Link := 0; page_Payload := payload |} = true).
  { apply validPage_spec. cbn. destruct Hok. unfold capacity in Hp.
    split; [|lia]. destruct Ht as [->| ->]; by destruct kind. }
  rewrite (proj2 (EncodePage_valid _ _) (conj Hv eq_refl)). done.
Qed.

Lemma txn_stage tx id encoded :
  txn_ok tx -> 2 <= id -> (id ∉ tx_freePages tx) ->
  id ∈ f_freePages (tx_file tx) \/ f_nextPage (tx_file tx) <= id < tx_nextPage tx ->
  txn_ok (set_pages tx (tx_pages tx ++ [(id, encoded)]) (<[id:=encoded]> (tx_byID tx))).
Proof.
  intros [Hn Hmax Hw Hg Hs Hbf Hpre Hnd Hst] Hid Hf Hin. constructor; cbn; try done.
  intros i. unfold staged. cbn. destruct (decide (i = id)) as [->|Hne]; [done|].
  rewrite lookup_insert_ne by done. apply Hst.
Qed.

Lemma tx_appendPage_ok tx t n payload id tx' :
  txn_ok tx -> tree_page_type t -> 0 <= n < 2 ^ 32 -> 0 < zlen payload <= capacity ->
  tx_appendPage tx t 0 n 0 payload = Ok (id, tx') ->
  txn_ok tx' /\ txn_available tx' id /\ reads_as tx' id t n payload /\
  (forall p, txn_available tx p -> p <> id /\ txn_available tx' p /\ readPage tx' p = readPage tx p).
Proof.
  intros Hok [kind Ht] Hn Hp. unfold tx_appendPage. intros Ha. inv_ok. destruct a as [id1 tx1]. inv_ok.
  injection Ha as <- <-. apply allocatePageID_ok in Hok0 as (Hokt & Hid & Hnst & Hnf & Hav & Hwhere & Heq); [|done].
  apply appendPageAt_stage in Hok1 as (encoded & He & ->).
  rewrite Heq in He |- *. cbn [set_alloc set_pages tx_generation tx_sequence tx_pages tx_byID tx_file] in *.
  split; [|split; [|split]].
  - rewrite Heq in Hokt. apply (txn_stage _ _ encoded Hokt); [lia|done|]. destruct Hwhere; [by left|right; cbn; lia].
  - left. unfold staged. cbn. rewrite lookup_insert_eq. by eexists.
  - exists encoded. eexists. split; [|split].
    + cbn. unfold tx_readPage. cbn. by rewrite lookup_insert_eq.
    + eapply decodePage_complete; [..|exact He]; [|done]. destruct Hok. unfold page_ok, u64, u32. cbn.
      split; [destruct Ht as [->| ->]; by destruct kind|]. lia.
    + done.
  - intros p Hpa. assert (p <> id1) as Hne by (intros ->; done). split; [done|]. split.
    + destruct Hpa as [Hs|Hs]; [left|by right]. unfold staged in *. cbn. by rewrite lookup_insert_ne.
    + cbn. unfold tx_readPage. cbn. by rewrite lookup_insert_ne.
Qed.

#[export] Instance WriteTxn_laws : PageStoreLaws WriteTxn.
Proof.
  refine {| store_ok := txn_ok; available := txn_available |}.
  - intros tx id [Hn _ Hw _ _ Hbf _ _ Hst] [Hs|[? _]]; [|lia].
    apply Hst in Hs as [_ [Hi|Hi]]; [|lia]. rewrite Forall_forall in Hbf. specialize (Hbf id Hi). lia.
  - intros. by eapply tx_appendPage_error.
  - intros. by eapply tx_appendPage_ok.
Defined.
