(* ===== verification/Recovery.v ===== *)
(** * Choosing the database version of an existing file

    [inspectExistingFile] and what it calls in [internal/storage/file.go]: the
    newest metadata slot whose root page is intact wins. A file whose size is no
    multiple of the page size counts as its whole pages. *)
From S2P Require Import Prelude Bytes Layout Hashes PageFormat Entries NodeCodec CowTree.
From S2P Require Import TreeShape TreeInvariant TreeRep TreeDelete Flush FileStore.
#[local] Open Scope Z_scope.

Definition zero_Meta : Meta :=
  {| DatabaseID := zeros 16; Generation := 0; CommitSequence := 0; RootPage := 0; PhysicalPageCount := 0;
     OldestRetainedSequence := 0; RequiredFeatures := 0; OptionalFeatures := 0 |}.

Definition root_zero (sequence : Z) : DatabaseRoot :=
  {| root_CommitSequence := sequence; root_CatalogRoot := 0; root_CommitLogRoot := 0; root_FreeSpaceRoot := 0;
     root_OldestRetainedSequence := 0; root_CatalogGeneration := 0; root_DocumentCount := 0;
     root_CollectionCount := 0; root_IndexBuildCatalogRoot := 0 |}.

(** The tree roots [validateRoot] checks. *)
Definition root_references (root : DatabaseRoot) : list Z :=
  [root_CatalogRoot root; root_CommitLogRoot root; root_FreeSpaceRoot root; root_IndexBuildCatalogRoot root].

Definition reference_ok (physicalPageCount referenced : Z) : bool :=
  (referenced =? 0) || ((2 <=? referenced) && (referenced <? physicalPageCount)).

Definition validateRoot (file : disk) (meta : Meta) : result unit :=
  if RootPage meta =? 0 then guard_err (CommitSequence meta =? 0) ErrCorrupt
  else if PhysicalPageCount meta <=? RootPage meta then Err ErrCorrupt
  else
    match read_page file (RootPage meta) with
    | Err _ => Err ErrCorrupt
    | Ok page =>
        match DecodeDatabaseRoot page (RootPage meta) with
        | Err _ => Err ErrCorrupt
        | Ok (root, decoded) =>
            if negb (root_CommitSequence root =? CommitSequence meta)
               || negb (page_Generation decoded =? Generation meta)
               || negb (root_OldestRetainedSequence root =? OldestRetainedSequence meta) then Err ErrCorrupt
            else if negb (root_IndexBuildCatalogRoot root =? 0)
                    && (Z.land (RequiredFeatures meta) RequiredFeatureShadowIndexBuilds =? 0) then Err ErrCorrupt
            else guard_err (forallb (reference_ok (PhysicalPageCount meta)) (root_references root)) ErrCorrupt
        end
    end.

Definition readDatabaseRoot (file : disk) (meta : Meta) : result DatabaseRoot :=
  if RootPage meta =? 0 then Ok (root_zero (CommitSequence meta))
  else
    let* page := read_page file (RootPage meta) in
    let* (root, _) := DecodeDatabaseRoot page (RootPage meta) in
    if negb (root_CommitSequence root =? CommitSequence meta) then Err ErrCorrupt else Ok root.

Record existingFileState := mk_existingFileState {
  st_meta : Meta;
  st_root : DatabaseRoot;
  st_metaSlot : Z;
  st_metas : Meta * Meta;
  st_metaOK : bool * bool;
  st_nextPage : Z }.

(** A slot's metadata, if the slot holds some that fits the file. *)
Definition slot_meta (physicalPages : Z) (decoded : result Meta) : option Meta :=
  match decoded with
  | Ok meta => if PhysicalPageCount meta <=? physicalPages then Some meta else None
  | Err _ => None
  end.

Definition newer_format (decoded : result Meta) : option gerror :=
  match decoded with
  | Err ErrUnsupportedFormat => Some ErrUnsupportedFormat
  | Err ErrUnsupportedFeature => Some ErrUnsupportedFeature
  | _ => None
  end.

(** The slots that may be selected, the preferred one first. *)
Definition slot_order (metas : option Meta * option Meta) : list Z :=
  match metas with
  | (None, _) => [1; 0]
  | (Some m0, Some m1) => if Generation m0 <? Generation m1 then [1; 0] else [0; 1]
  | (Some _, None) => [0; 1]
  end.

Definition meta_conflict (metas : option Meta * option Meta) : bool :=
  match metas with
  | (Some m0, Some m1) =>
      negb (beqb (DatabaseID m0) (DatabaseID m1))
      || ((Generation m0 =? Generation m1) && negb (bool_decide (m0 = m1)))
  | _ => false
  end.

Definition root_valid (file : disk) (meta : option Meta) : bool :=
  match meta with Some m => is_ok (validateRoot file m) | None => false end.

Definition inspectExistingFile (file : disk) (physicalPages : Z) : result existingFileState :=
  if physicalPages <? 2 then Err ErrCorrupt
  else
    let* page0 := read_page file 0 in
    let* page1 := read_page file 1 in
    let decoded := (DecodeMeta page0, DecodeMeta page1) in
    match newer_format decoded.1, newer_format decoded.2 with
    | Some e, _ => Err e
    | None, Some e => Err e
    | None, None =>
        let metas := (slot_meta physicalPages decoded.1, slot_meta physicalPages decoded.2) in
        match metas with
        | (None, None) => Err ErrCorrupt
        | _ =>
            if meta_conflict metas then Err ErrCorrupt
            else
              let valid := (root_valid file metas.1, root_valid file metas.2) in
              match List.find (fun slot => slot2 valid slot) (slot_order metas) with
              | None => Err ErrCorrupt
              | Some selected =>
                  let metas := (default zero_Meta metas.1, default zero_Meta metas.2) in
                  let meta := slot2 metas selected in
                  let* root := readDatabaseRoot file meta in
                  Ok (mk_existingFileState meta root selected metas valid physicalPages)
              end
        end
    end.

(** What a caller is told about a recovery. *)
Record OpenReport := mk_OpenReport {
  SelectedMetaSlot : Z;
  ChecksumValidMetaSlots : Z;
  RootValidMetaSlots : Z;
  MetaRedundancyDegraded : bool;
  FallbackToOlderRoot : bool;
  TrailingBytesRemoved : Z }.

Definition openReport (state : existingFileState) (trailing : Z) : OpenReport :=
  let present (m : Meta) := negb (bool_decide (m = zero_Meta)) in
  let count (b0 b1 : bool) := (if b0 then 1 else 0) + (if b1 then 1 else 0) in
  let newer (g : Z) (m : Meta) := if present m && (g <? Generation m) then Generation m else g in
  let newestGeneration := newer (newer 0 (st_metas state).1) (st_metas state).2 in
  let checksumValid := count (present (st_metas state).1) (present (st_metas state).2) in
  let rootValid := count (st_metaOK state).1 (st_metaOK state).2 in
  {| SelectedMetaSlot := st_metaSlot state;
     ChecksumValidMetaSlots := checksumValid;
     RootValidMetaSlots := rootValid;
     MetaRedundancyDegraded := (rootValid <? checksumValid) || ((checksumValid <? 2) && (2 <? st_nextPage state));
     FallbackToOlderRoot := Generation (st_meta state) <? newestGeneration;
     TrailingBytesRemoved := trailing |}.

(** The handle a file is opened with; free pages are restored later, if at all. *)
Definition open (state : existingFileState) (file : disk) (maxPhysicalPages : Z) : File :=
  mk_File file (st_meta state) (st_root state) (st_metaSlot state) (st_metas state) (st_metaOK state)
    (st_nextPage state) None [] false false maxPhysicalPages ∅ 0 0 0 0.

(** ** Disks *)

Lemma read_write_eq d id data : 0 <= id -> read_page (write_page d id data) id = Ok data.
Proof.
  intros Hid. unfold read_page, write_page. destruct (Z.ltb_spec id 0); [lia|].
  destruct (Nat.ltb_spec (Z.to_nat id) (length d)).
  - by rewrite list_lookup_insert_eq.
  - rewrite lookup_app_r by done. rewrite lookup_app_r by (rewrite length_replicate; lia).
    rewrite length_replicate, Nat.sub_diag. done.
Qed.

Lemma read_write_ne d id data id' :
  0 <= id -> id' <> id -> is_ok (read_page d id') = true -> read_page (write_page d id data) id' = read_page d id'.
Proof.
  intros Hid Hne. unfold read_page, write_page. destruct (Z.ltb_spec id' 0) as [|Hp]; [done|].
  destruct (d !! Z.to_nat id') as [p|] eqn:E; [|done]. intros _. pose proof (lookup_lt_Some _ _ _ E).
  destruct (Nat.ltb_spec (Z.to_nat id) (length d)).
  - rewrite list_lookup_insert_ne by lia. by rewrite E.
  - rewrite lookup_app_l by done. by rewrite E.
Qed.

Lemma length_write d id data :
  0 <= id -> zlen (write_page d id data) = Z.max (zlen d) (id + 1).
Proof.
  intros Hid. unfold write_page, zlen. destruct (Nat.ltb_spec (Z.to_nat id) (length d)).
  - rewrite length_insert. lia.
  - rewrite !length_app, length_replicate. cbn. lia.
Qed.

Lemma read_page_ok d id : is_ok (read_page d id) = true <-> 0 <= id < zlen d.
Proof.
  unfold read_page, zlen. destruct (Z.ltb_spec id 0) as [|Hid]; [split; [done|lia]|].
  destruct (d !! Z.to_nat id) as [p|] eqn:E; cbn.
  - apply lookup_lt_Some in E. split; [lia|done].
  - apply lookup_ge_None in E. split; [done|lia].
Qed.

(** ** Selecting the newest intact version *)

(** What the other slot may hold beside the slot of [m]. *)
Definition older_slot (d : disk) (slot : Z) (m : Meta) : Prop :=
  exists page, read_page d slot = Ok page /\
    (DecodeMeta page = Err ErrCorrupt \/
     exists m', DecodeMeta page = Ok m' /\ DatabaseID m' = DatabaseID m /\ Generation m' < Generation m).

(** [d] is opened at [m], which the slot holds, with root [r]. *)
Record opens_at (d : disk) (slot : Z) (m : Meta) (r : DatabaseRoot) : Prop := {
  oa_slot : slot = 0 \/ slot = 1;
  oa_meta : exists page, read_page d slot = Ok page /\ DecodeMeta page = Ok m;
  oa_count : PhysicalPageCount m <= zlen d;
  oa_valid : validateRoot d m = Ok tt;
  oa_root : readDatabaseRoot d m = Ok r;
  oa_other : older_slot d (1 - slot) m }.

Lemma slot_meta_other n page m :
  (DecodeMeta page = Err ErrCorrupt \/
   exists m', DecodeMeta page = Ok m' /\ DatabaseID m' = DatabaseID m /\ Generation m' < Generation m) ->
  newer_format (DecodeMeta page) = None /\
  match slot_meta n (DecodeMeta page) with
  | Some m' => DatabaseID m' = DatabaseID m /\ Generation m' < Generation m
  | None => True
  end.
Proof.
  intros [-> |(m' & -> & Hid & Hg)]; [done|]. cbn. split; [done|]. by destruct (_ <=? _).
Qed.

Lemma inspect_opens_at d slot m r :
  opens_at d slot m r ->
  exists st, inspectExistingFile d (zlen d) = Ok st /\ st_meta st = m /\ st_root st = r /\ st_metaSlot st = slot /\
    st_nextPage st = zlen d.
Proof.
  intros [Hslot (page & Hread & Hdec) Hcount Hvalid Hroot (page' & Hread' & Hother)].
  apply (slot_meta_other (zlen d)) in Hother as [Hn Hother].
  assert (Hsm : slot_meta (zlen d) (DecodeMeta page) = Some m).
  { rewrite Hdec. cbn. by rewrite (proj2 (Z.leb_le _ _) Hcount). }
  assert (Hnm : newer_format (DecodeMeta page) = None) by by rewrite Hdec.
  assert (Hlen : 2 <= zlen d).
  { assert (is_ok (read_page d 1) = true) as H1%read_page_ok; [|lia].
    destruct Hslot as [->| ->]; [change (1 - 0) with 1 in Hread'; by rewrite Hread'|by rewrite Hread]. }
  unfold inspectExistingFile. destruct (Z.ltb_spec (zlen d) 2); [lia|].
  assert (Hfin : forall metas valid, slot2 metas slot = m ->
    exists st, (let* root := readDatabaseRoot d (slot2 metas slot) in
                Ok (mk_existingFileState (slot2 metas slot) root slot metas valid (zlen d))) = Ok st /\
      st_meta st = m /\ st_root st = r /\ st_metaSlot st = slot /\ st_nextPage st = zlen d).
  { intros metas valid ->. rewrite Hroot. cbn. eexists. split; [done|]. done. }
  assert (Hrv : root_valid d (Some m) = true) by (cbn; by rewrite Hvalid).
  destruct Hslot as [->| ->]; try change (1 - 0) with 1 in Hread'; try change (1 - 1) with 0 in Hread';
    rewrite Hread, Hread'; cbn [rbind fst snd]; rewrite Hnm, Hn, Hsm;
    destruct (slot_meta (zlen d) (DecodeMeta page')) as [m'|]; cbn [fst snd];
    unfold meta_conflict, slot_order.
  - destruct Hother as [Hid Hg]. rewrite Hid, beqb_refl.
    destruct (Z.eqb_spec (Generation m) (Generation m')); [lia|].
    destruct (Z.ltb_spec (Generation m) (Generation m')); [lia|]. cbn [negb orb andb List.find slot2 Z.eqb fst].
    rewrite Hrv. by apply Hfin.
  - cbn [List.find slot2 Z.eqb fst]. rewrite Hrv. by apply Hfin.
  - destruct Hother as [Hid Hg]. rewrite Hid, beqb_refl.
    destruct (Z.eqb_spec (Generation m') (Generation m)); [lia|].
    destruct (Z.ltb_spec (Generation m') (Generation m)); [|lia]. cbn [negb orb andb List.find slot2 Z.eqb fst snd].
    rewrite Hrv. by apply Hfin.
  - cbn [List.find slot2 Z.eqb fst snd]. rewrite Hrv. by apply Hfin.
Qed.

(** [opens_at] survives changes elsewhere. *)
Lemma opens_at_keep d d' slot m r :
  opens_at d slot m r -> zlen d <= zlen d' ->
  read_page d' slot = read_page d slot ->
  (RootPage m <> 0 -> read_page d' (RootPage m) = read_page d (RootPage m)) ->
  older_slot d' (1 - slot) m -> opens_at d' slot m r.
Proof.
  intros [Hs Hm Hc Hv Hr _] Hlen Hslot Hrp Ho. constructor; [done|by rewrite Hslot|lia| | |done].
  - revert Hv. unfold validateRoot. destruct (Z.eqb_spec (RootPage m) 0); [done|]. by rewrite Hrp.
  - revert Hr. unfold readDatabaseRoot. destruct (Z.eqb_spec (RootPage m) 0); [done|]. by rewrite Hrp.
Qed.
