(* ===== verification/Commit.v ===== *)
(** * Publishing a generation

    [updateUnlockedAdvance] of [internal/storage/file.go] and
    [finalizeFreeSpace] of [freespace.go]. What reaches the file is a list of
    page writes and syncs; the oracle [io] says which of them succeed. The test
    fault hooks are failures between two of them. *)
From stdpp Require Import gmap.
From S2P Require Import Prelude Bytes Layout Entries Hashes PageFormat Records NodeCodec CowTree TreeShape.
From S2P Require Import TreeInvariant TreeRep TreeDelete Tree Flush FileStore Recovery.
#[local] Open Scope Z_scope.

(** ** The free-space tree of a generation *)

(** The runs of consecutive pages, from one that began at [start]. *)
Fixpoint extentLoop (start end_ : Z) (pages : list Z) : list (Z * Z) :=
  match pages with
  | [] => [(start, end_)]
  | page :: pages =>
      if page =? end_ then extentLoop start (end_ + 1) pages else (start, end_) :: extentLoop page (page + 1) pages
  end.

Fixpoint putExtents (fuel : nat) (tx : WriteTxn) (tree : nodeRef) (extents : list (Z * Z)) : result nodeRef :=
  match extents with
  | [] => Ok tree
  | (start, end_) :: extents =>
      let* value := encodeFreeSpaceExtent end_ (tx_nextPage tx) (tx_generation tx) in
      let* (tree, _) := Put tx TreeFreeSpace fuel tree (freeSpaceKey start) value in
      putExtents fuel tx tree extents
  end.

Definition set_FreeSpaceRoot (root : DatabaseRoot) (page : Z) : DatabaseRoot :=
  mk_DatabaseRoot (root_CommitSequence root) (root_CatalogRoot root) (root_CommitLogRoot root) page
    (root_OldestRetainedSequence root) (root_CatalogGeneration root) (root_DocumentCount root)
    (root_CollectionCount root) (root_IndexBuildCatalogRoot root).

Definition set_IndexBuildCatalogRoot (root : DatabaseRoot) (page : Z) : DatabaseRoot :=
  mk_DatabaseRoot (root_CommitSequence root) (root_CatalogRoot root) (root_CommitLogRoot root) (root_FreeSpaceRoot root)
    (root_OldestRetainedSequence root) (root_CatalogGeneration root) (root_DocumentCount root)
    (root_CollectionCount root) page.

(** A tree of that many entries is at most that high. *)
Definition finalizeFreeSpace (tx : WriteTxn) (root : DatabaseRoot) : result (DatabaseRoot * WriteTxn) :=
  if negb (tx_freeSpaceTracked tx) then Ok (set_FreeSpaceRoot root 0, tx)
  else if negb (tx_freeSpaceRebuild tx) then Ok (set_FreeSpaceRoot root (root_FreeSpaceRoot (tx_baseRoot tx)), tx)
  else
    match tx_freePages tx with
    | [] => Ok (set_FreeSpaceRoot root 0, tx)
    | first :: rest =>
        let* tree := OpenTree tx TreeFreeSpace 0 in
        let* tree := putExtents (S (length (tx_freePages tx))) tx tree (extentLoop first (first + 1) rest) in
        let* (page, tx) := Flush TreeFreeSpace (set_metadataAllocation tx true) tree in
        Ok (set_FreeSpaceRoot root page, set_metadataAllocation tx false)
    end.

(** ** Building a generation *)

Definition maxUint64 : Z := 2 ^ 64 - 1.

Definition beginUpdate (f : File) (advance : Z) : result WriteTxn :=
  match f_fatalErr f with
  | Some e => Err e
  | None =>
      let generation := to_u64 (Generation (f_meta f) + 1) in
      if maxUint64 - CommitSequence (f_meta f) <? advance then Err ErrCorrupt
      else
        let sequence := CommitSequence (f_meta f) + advance in
        if (generation =? 0) || ((0 <? advance) && (sequence =? 0)) then Err ErrCorrupt
        else Ok (mk_WriteTxn f (f_root f) generation sequence (f_nextPage f) (f_freePages f) [] [] ∅
                   (f_freeSpaceTracked f) (f_freeSpaceNeedsRebuild f) false (RequiredFeatures (f_meta f)) false
                   false (f_retainedCommitBytes f))
  end.

(** The root a callback builds, and the transaction after it. *)
Abbreviation builder := (WriteTxn -> result (DatabaseRoot * WriteTxn)).

(** Everything before the first write: the transaction with its root page
    staged, the root and the root page's number. *)
Definition stageUpdate (f : File) (advance : Z) (build : builder) : result (WriteTxn * DatabaseRoot * Z) :=
  let* tx := beginUpdate f advance in
  let sequence := tx_sequence tx in
  let generation := tx_generation tx in
  let* (root, tx) := build tx in
  let root := if negb (tx_indexBuildCatalogChanged tx)
              then set_IndexBuildCatalogRoot root (root_IndexBuildCatalogRoot (f_root f)) else root in
  if negb (root_CommitSequence root =? sequence) || (sequence <? root_OldestRetainedSequence root)
     || (negb (root_IndexBuildCatalogRoot root =? 0)
         && (Z.land (tx_requiredFeatures tx) RequiredFeatureShadowIndexBuilds =? 0)) then Err ErrCorrupt
  else
    let* (rootPageID, tx) := allocatePageID tx in
    let* (root, tx) := finalizeFreeSpace tx root in
    let* rootPage := EncodeDatabaseRoot rootPageID generation root in
    Ok (set_pages tx (tx_pages tx ++ [(rootPageID, rootPage)]) (tx_byID tx), root, rootPageID).

Definition publishedMeta (f : File) (tx : WriteTxn) (root : DatabaseRoot) (rootPageID : Z) : Meta :=
  {| DatabaseID := DatabaseID (f_meta f);
     Generation := tx_generation tx;
     CommitSequence := tx_sequence tx;
     RootPage := rootPageID;
     PhysicalPageCount := tx_nextPage tx;
     OldestRetainedSequence := root_OldestRetainedSequence root;
     RequiredFeatures := tx_requiredFeatures tx;
     OptionalFeatures :=
       if tx_freeSpaceTracked tx then Z.lor (OptionalFeatures (f_meta f)) OptionalFeaturePersistentFreeSpace
       else Z.ldiff (OptionalFeatures (f_meta f)) OptionalFeaturePersistentFreeSpace |}.

(** ** Input and output *)

Inductive event :=
| WriteAt (pageID : Z) (data : bytes)
| Sync.

#[export] Instance event_eq_dec : EqDecision event.
Proof. solve_decision. Defined.

Definition apply_event (d : disk) (e : event) : disk :=
  match e with WriteAt pageID data => write_page d pageID data | Sync => d end.

(** Performs operations until one fails; the failed one is part of the trace,
    since it may have happened in part. *)
Fixpoint performIO (io : nat -> bool) (d : disk) (trace : list event) (events : list event) : bool * disk * list event :=
  match events with
  | [] => (true, d, trace)
  | e :: events =>
      if io (length trace) then performIO io (apply_event d e) (trace ++ [e]) events else (false, d, trace ++ [e])
  end.

Definition dataEvents (pages : list (Z * bytes)) : list event :=
  ((fun page => WriteAt page.1 page.2) <$> pages) ++ [Sync].

Definition with_file (f : File) (d : disk) : File :=
  mk_File d (f_meta f) (f_root f) (f_metaSlot f) (f_metas f) (f_metaOK f) (f_nextPage f) (f_fatalErr f)
    (f_freePages f) (f_freeSpaceTracked f) (f_freeSpaceNeedsRebuild f) (f_maxPhysicalPages f) (f_readers f)
    (f_commitRetentionMax f) (f_commitRetentionMaxBytes f) (f_retainedCommitBytes f) (f_nextPin f).

Definition failCommit (f : File) (d : disk) (err : gerror) : File :=
  mk_File d (f_meta f) (f_root f) (f_metaSlot f) (f_metas f) (f_metaOK f) (f_nextPage f) (Some err)
    (f_freePages f) (f_freeSpaceTracked f) (f_freeSpaceNeedsRebuild f) (f_maxPhysicalPages f) (f_readers f)
    (f_commitRetentionMax f) (f_commitRetentionMaxBytes f) (f_retainedCommitBytes f) (f_nextPin f).

Definition publish (f : File) (d : disk) (tx : WriteTxn) (root : DatabaseRoot) (meta : Meta) (slot : Z) : File :=
  mk_File d meta root slot (set_slot2 (f_metas f) slot meta) (set_slot2 (f_metaOK f) slot true) (tx_nextPage tx)
    (f_fatalErr f) (tx_freePages tx) (tx_freeSpaceTracked tx) false (f_maxPhysicalPages f) (f_readers f)
    (f_commitRetentionMax f) (f_commitRetentionMaxBytes f)
    (if tx_retentionEvaluated tx then tx_retainedCommitBytes tx else f_retainedCommitBytes f) (f_nextPin f).

(** The error if there is one, the file afterwards and what was done to it. *)
Definition updateUnlockedAdvance (io : nat -> bool) (f : File) (advance : Z) (build : builder)
    : option gerror * File * list event :=
  match stageUpdate f advance build with
  | Err e => (Some e, f, [])
  | Ok (tx, root, rootPageID) =>
      match performIO io (f_file f) [] (dataEvents (tx_pages tx)) with
      | (false, d, trace) => (Some ErrIO, failCommit f d ErrIO, trace)
      | (true, d, trace) =>
          let meta := publishedMeta f tx root rootPageID in
          match EncodeMeta meta with
          | Err e => (Some e, with_file f d, trace)
          | Ok encoded =>
              let slot := 1 - f_metaSlot f in
              match performIO io d trace [WriteAt slot encoded; Sync] with
              | (false, d, trace) => (Some ErrIO, failCommit f d ErrIO, trace)
              | (true, d, trace) => (None, publish f d tx root meta slot, trace)
              end
          end
      end
  end.

(** [updateUnlocked]. *)
Definition updateUnlocked (io : nat -> bool) (f : File) (advanceSequence : bool) (build : builder) :=
  updateUnlockedAdvance io f (if advanceSequence then 1 else 0) build.

(** [CommitRoot]: the callback that publishes a given root. *)
Definition CommitRoot (root : DatabaseRoot) : builder := fun tx =>
  if negb (root_CommitSequence root =? tx_sequence tx) then Err ErrCorrupt else Ok (root, tx).

(** ** Crashes *)

(** The durable pages and the writes that no sync has covered. *)
Definition settle (s : disk * list (Z * bytes)) (e : event) : disk * list (Z * bytes) :=
  match e with
  | WriteAt pageID data => (s.1, s.2 ++ [(pageID, data)])
  | Sync => (fold_left (fun d page => write_page d page.1 page.2) s.2 s.1, [])
  end.

Definition settled (d : disk) (trace : list event) : disk * list (Z * bytes) := fold_left settle trace (d, []).

(** What a crash can leave of the durable pages [d] and the pending writes. A page
    that was being written may hold anything, except that a metadata slot that
    holds neither its old nor a written page fails its checksum. *)
Definition crash (d : disk) (pending : list (Z * bytes)) (d' : disk) : Prop :=
  zlen d <= zlen d' /\
  (forall id, id ∉ pending.*1 -> is_ok (read_page d id) = true -> read_page d' id = read_page d id) /\
  (forall id page, 0 <= id < 2 -> read_page d' id = Ok page ->
     read_page d id = Ok page \/ (id, page) ∈ pending \/ DecodeMeta page = Err ErrCorrupt).

(** ** Commits are atomic under crashes

    What a transaction writes stays clear of the pages its base version uses,
    so a file that crashes during [updateUnlockedAdvance] opens at the old or at
    the new version. *)
(** ** What a transaction has written *)

(** Pages the transaction may write: free ones and new ones. *)
Definition writable (tx : WriteTxn) (id : Z) : Prop :=
  id ∈ f_freePages (tx_file tx) \/ f_nextPage (tx_file tx) <= id < tx_nextPage tx.

(** [limbo] pages are allocated and not staged yet. *)
Record written (limbo : list Z) (tx : WriteTxn) : Prop := {
  w_ok : txn_ok tx;
  w_pages : Forall (fun p => writable tx p.1 /\ is_ok (decodePageView p.2 p.1) = true) (tx_pages tx);
  w_NoDup : NoDup (tx_pages tx).*1;
  w_byID id data : tx_byID tx !! id = Some data -> (id, data) ∈ tx_pages tx;
  w_limbo : Forall (fun id => writable tx id /\ ~ id ∈ (tx_pages tx).*1 /\ ~ id ∈ tx_freePages tx) limbo;
  w_cover id : f_nextPage (tx_file tx) <= id < tx_nextPage tx -> id ∈ limbo \/ id ∈ (tx_pages tx).*1;
  w_unused id : id ∈ (tx_pages tx).*1 -> ~ id ∈ tx_freePages tx }.

(** What no operation of a transaction changes. *)
Record same_txn (tx tx' : WriteTxn) : Prop := {
  same_file : tx_file tx' = tx_file tx;
  same_base : tx_baseRoot tx' = tx_baseRoot tx;
  same_generation : tx_generation tx' = tx_generation tx;
  same_sequence : tx_sequence tx' = tx_sequence tx;
  same_next : tx_nextPage tx <= tx_nextPage tx' }.

#[export] Instance same_txn_preorder : PreOrder same_txn.
Proof.
  split; [by intros tx; constructor|]. intros a b c [] []. constructor; try congruence. lia.
Qed.

Lemma writable_range tx id : txn_ok tx -> writable tx id -> 2 <= id < tx_nextPage tx.
Proof.
  intros [Hn _ _ _ _ Hbf _ _ _] [Hi|Hi]; [|lia]. rewrite Forall_forall in Hbf. specialize (Hbf id Hi). lia.
Qed.

Lemma writable_mono tx tx' id : same_txn tx tx' -> writable tx id -> writable tx' id.
Proof. intros [Hf _ _ _ Hn]. unfold writable. rewrite Hf. intros [?|?]; [by left|right; lia]. Qed.

(** ** Operations keep track of their pages *)

Lemma allocate_written limbo tx id tx' :
  written limbo tx -> allocatePageID tx = Ok (id, tx') ->
  written (id :: limbo) tx' /\ same_txn tx tx' /\ tx_pages tx' = tx_pages tx /\ ~ id ∈ limbo /\
  tx_requiredFeatures tx' = tx_requiredFeatures tx.
Proof.
  intros [Hok Hp Hnd Hby Hl Hc Hu] Ha.
  assert (Hcases : (tx_nextPage tx' = tx_nextPage tx /\ last (tx_freePages tx) = Some id /\
       tx_freePages tx = tx_freePages tx' ++ [id]) \/
    (id = tx_nextPage tx /\ tx_nextPage tx' = tx_nextPage tx + 1 /\ tx_freePages tx' = tx_freePages tx)).
  { revert Ha. unfold allocatePageID. destruct (_ <? 2); [done|].
    assert (Hto : (f_maxPhysicalPages (tx_file tx) <=? tx_nextPage tx) = false ->
      to_u64 (tx_nextPage tx + 1) = tx_nextPage tx + 1).
    { intros E. breflect. destruct Hok. apply Z.mod_small. lia. }
    destruct (last (tx_freePages tx)) as [x|] eqn:El; [destruct (tx_metadataAllocation tx)|].
    1, 3: destruct ((_ =? 0) || _) eqn:E; [done|]; apply orb_false_iff in E as [_ E]; rewrite (Hto E);
      destruct (_ =? 0); [done|]; intros Heq%Ok_inj; injection Heq as <- <-; right; done.
    destruct ((x <? 2) || _); [done|]. intros Heq%Ok_inj. injection Heq as <- <-. left.
    split; [done|]. split; [done|]. by apply last_removelast. }
  pose proof (allocatePageID_ok _ _ _ Hok Ha) as (Hok' & Hid & _ & Hnf & Hav & Hwhere & Heq).
  assert (Hsame : same_txn tx tx') by (rewrite Heq; constructor; cbn; [done..|lia]).
  assert (Hpages : tx_pages tx' = tx_pages tx) by by rewrite Heq.
  assert (Hfile : tx_file tx' = tx_file tx) by apply Hsame.
  assert (Hsub : forall i, i ∈ tx_freePages tx' -> i ∈ tx_freePages tx).
  { intros i Hi. destruct Hcases as [(_ & _ & ->)|(_ & _ & <-)]; [by apply elem_of_front|done]. }
  assert (Hnew : ~ id ∈ (tx_pages tx).*1 /\ ~ id ∈ limbo).
  { destruct Hcases as [(_ & _ & E)|(-> & _ & _)].
    - assert (id ∈ tx_freePages tx) by (rewrite E; apply elem_of_snoc). split; [by intros Hi%Hu|].
      intros Hi. rewrite Forall_forall in Hl. by apply Hl in Hi as (_ & _ & ?).
    - split; intros Hi.
      + apply list_elem_of_fmap in Hi as (p & Ep & Hi). rewrite Forall_forall in Hp. apply Hp in Hi as [Hi _].
        apply (writable_range tx _ Hok) in Hi. lia.
      + rewrite Forall_forall in Hl. apply Hl in Hi as [Hi _]. apply (writable_range tx _ Hok) in Hi. lia. }
  split; [|split; [done|split; [done|split; [apply Hnew|by rewrite Heq]]]].
  constructor; rewrite ?Hpages, ?Hfile; [done| |done|by rewrite Heq| | |].
  - eapply Forall_impl; [exact Hp|]. intros p [? ?]. split; [by eapply writable_mono|done].
  - constructor; [split; [unfold writable; rewrite Hfile; destruct Hwhere; auto|split; [apply Hnew|done]]|].
    eapply Forall_impl; [exact Hl|]. intros i (Hi & ? & Hf). split; [by eapply writable_mono|]. split; [done|]. by intros ?%Hsub.
  - intros i Hi. destruct Hcases as [(Hn & _)|(-> & Hn & _)].
    + rewrite Hn in Hi. destruct (Hc i Hi); [left; by right|by right].
    + destruct (decide (i = tx_nextPage tx)) as [->|]; [left; by left|].
      destruct (Hc i ltac:(lia)); [left; by right|by right].
  - intros i Hi Hf. by apply (Hu i Hi), Hsub.
Qed.

(** Staging a page takes it out of limbo. *)
Lemma stage_written limbo tx id encoded byID :
  written (id :: limbo) tx -> ~ id ∈ limbo -> is_ok (decodePageView encoded id) = true ->
  txn_ok (set_pages tx (tx_pages tx ++ [(id, encoded)]) byID) ->
  byID = tx_byID tx \/ byID = <[id:=encoded]> (tx_byID tx) ->
  written limbo (set_pages tx (tx_pages tx ++ [(id, encoded)]) byID).
Proof.
  intros [Hok Hp Hnd Hby Hl Hc Hu] Hnl Hlen Hok' Hmap. apply Forall_cons in Hl as [(Hid & Hnp & Hnf) Hl].
  constructor; cbn; [done| | | | | |].
  - apply Forall_app. split; [done|]. constructor; [by split|constructor].
  - rewrite fmap_app. apply NoDup_app. split; [done|]. split; [|apply NoDup_singleton].
    intros i Hi ->%list_elem_of_singleton. done.
  - intros i data Hi. destruct Hmap as [->| ->]; [by apply elem_of_front, Hby|].
    apply lookup_insert_Some in Hi as [[<- <-]|[_ Hi]]; [apply elem_of_snoc|by apply elem_of_front, Hby].
  - rewrite fmap_app. apply Forall_forall. intros i Hi. pose proof Hi as Hi'. rewrite Forall_forall in Hl.
    destruct (Hl i Hi) as (? & Hni & ?). split; [done|]. split; [|done].
    intros [?|Hx]%elem_of_app; [done|]. apply list_elem_of_singleton in Hx. cbn in Hx. by subst.
  - intros i Hi. rewrite fmap_app. destruct (Hc i Hi) as [[->|?]%elem_of_cons|?]; [right; apply elem_of_snoc|by left|].
    right. by apply elem_of_front.
  - intros i. rewrite fmap_app. intros [?|Hx]%elem_of_app; [by apply Hu|].
    apply list_elem_of_singleton in Hx. cbn in Hx. by subst.
Qed.

Lemma append_written limbo tx t flags n link payload id tx' :
  written limbo tx -> 0 <= flags < 256 -> u32 n -> u64 link ->
  tx_appendPage tx t flags n link payload = Ok (id, tx') ->
  written limbo tx' /\ same_txn tx tx' /\ tx_requiredFeatures tx' = tx_requiredFeatures tx.
Proof.
  intros Hw Hfl Hn Hli. unfold tx_appendPage. intros Ha. inv_ok. destruct a as [id1 tx1]. inv_ok. injection Ha as <- <-.
  pose proof Hok as Ha. apply (allocate_written limbo) in Ha as (Hw1 & Hs1 & Hpg & Hnl & Hrf); [|done].
  apply allocatePageID_ok in Hok as (Hok' & Hid & _ & Hnf & _ & Hwhere & _); [|apply Hw].
  apply appendPageAt_stage in Hok0 as (encoded & He & ->). split; [|split].
  - apply stage_written; [done|done| |apply txn_stage; [done|lia|done|]|by right].
    + assert (decodePageView encoded id1 = Ok (mk_Page t flags id1 (tx_generation tx1) (tx_sequence tx1) n link payload)) as ->; [|done].
      apply decodePage_complete; [|done|done]. apply EncodePage_valid in He as [(Ht & _)%validPage_spec _]. cbn in Ht.
      unfold known_page_type, PageDatabaseRoot, PageIndexBuildCatalogLeaf in Ht. breflect. destruct Hok'.
      unfold page_ok, u64, u32 in *. cbn. lia.
    + rewrite (same_file _ _ Hs1). destruct Hwhere; [by left|by right].
  - etransitivity; [exact Hs1|]. by constructor.
  - done.
Qed.

Definition keeps_written (limbo : list Z) (tx tx' : WriteTxn) : Prop :=
  written limbo tx -> written limbo tx' /\ same_txn tx tx' /\ tx_requiredFeatures tx' = tx_requiredFeatures tx.

#[export] Instance keeps_written_preorder limbo : PreOrder (keeps_written limbo).
Proof.
  split; [by intros tx Hw|]. intros a b c Hab Hbc Ha. destruct (Hab Ha) as (Hb & H1 & E1).
  destruct (Hbc Hb) as (Hc & H2 & E2). split; [done|]. split; [by etransitivity|congruence].
Qed.

Lemma Flush_written limbo kind tx root page tx' :
  written limbo tx -> Flush kind tx root = Ok (page, tx') ->
  written limbo tx' /\ same_txn tx tx' /\ tx_requiredFeatures tx' = tx_requiredFeatures tx.
Proof.
  intros Hw. unfold Flush. intros Hf. inv_ok. destruct a as [ref tx1]. injection Hf as <- <-.
  refine (flush_steps kind (keeps_written limbo) _ _ _ _ _ _ Hok Hw).
  intros tx0 t n payload id tx2 Hn Ha Hw0. by eapply append_written.
Qed.

(** ** The free-space tree *)

Lemma extentLoop_bounds n start end_ pages :
  2 <= start -> start < end_ <= n -> Forall (fun p => 2 <= p < n) pages ->
  Forall (fun e => 2 <= e.1 < e.2 /\ e.2 <= n) (extentLoop start end_ pages).
Proof.
  revert start end_; induction pages as [|p pages IH]; intros start end_ H1 H2 Hp; cbn [extentLoop].
  { constructor; [cbn; lia|constructor]. }
  apply Forall_cons in Hp as [Hp Hps]. destruct (Z.eqb_spec p end_); [apply IH; [lia|lia|done]|].
  constructor; [cbn; lia|apply IH; [lia|lia|done]].
Qed.

Lemma length_extentLoop start end_ pages : (length (extentLoop start end_ pages) <= S (length pages))%nat.
Proof.
  revert start end_; induction pages as [|p pages IH]; intros start end_; cbn [extentLoop]; [done|].
  destruct (p =? end_); cbn [length]; [etransitivity; [apply IH|]; lia|]. specialize (IH p (p + 1)). lia.
Qed.

(** The pages an extent stands for, and those a list of extents does. *)
Fixpoint pages_from (start : Z) (n : nat) : list Z :=
  match n with O => [] | S n => start :: pages_from (start + 1) n end.
Definition extent_pages (e : Z * Z) : list Z := pages_from e.1 (Z.to_nat (e.2 - e.1)).

Lemma pages_from_snoc start n : pages_from start (S n) = pages_from start n ++ [start + Z.of_nat n].
Proof.
  revert start; induction n as [|n IH]; intros start; [cbn; f_equal; lia|].
  change (pages_from start (S (S n))) with (start :: pages_from (start + 1) (S n)). rewrite IH. cbn. do 3 f_equal. lia.
Qed.

(** The extents list the pool's pages, in order. *)
Lemma extentLoop_pages start end_ pages :
  start < end_ -> concat (extent_pages <$> extentLoop start end_ pages) = extent_pages (start, end_) ++ pages.
Proof.
  revert start end_; induction pages as [|p pages IH]; intros start end_ Hlt; cbn [extentLoop].
  { cbn. by rewrite app_nil_r. }
  destruct (Z.eqb_spec p end_) as [->|Hne].
  - rewrite IH by lia. unfold extent_pages. cbn [fst snd].
    replace (Z.to_nat (end_ + 1 - start)) with (S (Z.to_nat (end_ - start))) by lia.
    rewrite pages_from_snoc, <- app_assoc. cbn [app]. do 3 f_equal. lia.
  - cbn [fmap list_fmap concat]. rewrite IH by lia. do 2 f_equal. unfold extent_pages. cbn [fst snd].
    replace (Z.to_nat (p + 1 - p)) with 1%nat by lia. done.
Qed.

(** The entry of an extent, and the entries after writing extents. *)
Definition extent_entry (tx : WriteTxn) (e : Z * Z) : KeyValue :=
  (freeSpaceKey e.1, extent_image e.2 (tx_nextPage tx) (tx_generation tx)).
Definition extent_entries (tx : WriteTxn) (extents : list (Z * Z)) (l : list KeyValue) : list KeyValue :=
  fold_left (fun l e => ins (extent_entry tx e).1 (extent_entry tx e).2 l) extents l.

Lemma putExtents_rep tx fuel extents h tree l :
  txn_ok tx -> rep tx TreeFreeSpace h tree l -> sound TreeFreeSpace tx tree ->
  Forall (fun e => 2 <= e.1 < e.2 /\ e.2 <= tx_nextPage tx) extents ->
  Forall small_entry l -> zlen l + zlen extents < 2 ^ 64 -> (h + length extents <= fuel)%nat ->
  exists tree' h', putExtents fuel tx tree extents = Ok tree' /\ (h' <= h + length extents)%nat /\
    rep tx TreeFreeSpace h' tree' (extent_entries tx extents l) /\ sound TreeFreeSpace tx tree' /\
    zlen (extent_entries tx extents l) <= zlen l + zlen extents.
Proof.
  intros Hok. revert h tree l; induction extents as [|e extents IH]; intros h tree l Hr Hs He Hsm Hmax Hf.
  { exists tree, h. cbn. split; [done|]. split; [lia|]. split; [done|]. split; [done|]. change (zlen []) with 0. lia. }
  apply Forall_cons in He as [Hb He]. destruct e as [start end_]. cbn [fst snd] in Hb. cbn [putExtents length] in *.
  rewrite zlen_cons in Hmax. pose proof (zlen_nonneg extents).
  assert (Henc : encodeFreeSpaceExtent end_ (tx_nextPage tx) (tx_generation tx) = Ok (extent_image end_ (tx_nextPage tx) (tx_generation tx))).
  { apply encodeFreeSpaceExtent_image. destruct Hok. split; [lia|]. split; [lia|done]. }
  rewrite Henc. cbn [rbind].
  assert (Hk : key_ok (freeSpaceKey start)) by by cbv.
  assert (Hse : small_entry (extent_entry tx (start, end_))) by by cbv.
  pose proof (Put_rep tx TreeFreeSpace h tree l (freeSpaceKey start) (extent_image end_ (tx_nextPage tx) (tx_generation tx))
    fuel Hr ltac:(lia) ltac:(lia) Hk) as HP.
  destruct (Put tx TreeFreeSpace fuel tree _ _) as [[tree1 splits]|e] eqn:Ep; cbn [rbind].
  2: { destruct HP as [_ []]. by constructor. }
  destruct HP as (h1 & Hh1 & Hr1).
  pose proof (Put_sound TreeFreeSpace tx fuel _ _ _ _ _ Hs Ep) as Hs1.
  pose proof (zlen_ins_le (freeSpaceKey start) (extent_image end_ (tx_nextPage tx) (tx_generation tx)) l (rep_sorted _ _ _ _ _ Hr)) as Hle.
  destruct (IH h1 tree1 _ Hr1 Hs1 He) as (tree2 & h2 & Hp2 & Hh2 & Hr2 & Hs2 & Hz2); [by apply small_ins|lia|lia|].
  exists tree2, h2. split; [done|]. split; [lia|]. split; [done|]. split; [done|].
  rewrite zlen_cons. change (extent_entries tx ((start, end_) :: extents) l) with
    (extent_entries tx extents (ins (freeSpaceKey start) (extent_image end_ (tx_nextPage tx) (tx_generation tx)) l)).
  lia.
Qed.

Lemma written_metadataAllocation limbo tx b : written limbo tx -> written limbo (set_metadataAllocation tx b).
Proof. intros [[] ? ? ? ? ? ?]. constructor; [constructor|..]; done. Qed.

Lemma extends_metadataAllocation tx b : extends tx (set_metadataAllocation tx b).
Proof. intros p Hp. split; done. Qed.

(** The pool as [finalizeFreeSpace] writes it. *)
Definition pool_entries (tx : WriteTxn) : list KeyValue :=
  match tx_freePages tx with
  | [] => []
  | first :: rest => extent_entries tx (extentLoop first (first + 1) rest) []
  end.

Lemma finalizeFreeSpace_correct limbo tx root :
  written limbo tx -> zlen (tx_freePages tx) < 2 ^ 63 ->
  match finalizeFreeSpace tx root with
  | Ok (root', tx') =>
      written limbo tx' /\ same_txn tx tx' /\ tx_requiredFeatures tx' = tx_requiredFeatures tx /\ extends tx tx' /\
      exists page, root' = set_FreeSpaceRoot root page /\
        (if negb (tx_freeSpaceTracked tx) then page = 0
         else if negb (tx_freeSpaceRebuild tx) then page = root_FreeSpaceRoot (tx_baseRoot tx)
         else match tx_freePages tx with
              | [] => page = 0
              | _ => exists h, stored TreeFreeSpace tx' h page (pool_entries tx) /\ 2 <= page < tx_nextPage tx'
              end)
  | Err e => e = ErrStorageLimit
  end.
Proof.
  intros Hw Hlen. unfold finalizeFreeSpace, pool_entries.
  destruct (tx_freeSpaceTracked tx); cbn [negb]; [|repeat (split; [done|]); by exists 0].
  destruct (tx_freeSpaceRebuild tx); cbn [negb].
  2: { repeat (split; [done|]). by eexists. }
  destruct (tx_freePages tx) as [|first rest] eqn:Ef.
  { repeat (split; [done|]). by exists 0. }
  pose proof (w_ok _ _ Hw) as Hok.
  assert (Hfree : Forall (fun p => 2 <= p < tx_nextPage tx) (first :: rest)).
  { rewrite <- Ef. apply Forall_forall. intros p Hp. apply (writable_range tx p Hok). left.
    eapply elem_of_prefix; [exact Hp|by apply txn_free_prefix]. }
  apply Forall_cons in Hfree as [Hfirst Hrest].
  destruct (putExtents_rep tx (S (length (first :: rest))) (extentLoop first (first + 1) rest) 0
    (mk_ref 0 0 (Some (mk_leaf [] [] 0))) []) as (tree & h & Hput & Hh & Hr & Hs & Hz).
  { done. }
  { apply rep_empty. }
  { by apply sound_dirty. }
  { apply extentLoop_bounds; [lia|lia|done]. }
  { done. }
  { change (zlen []) with 0. pose proof (length_extentLoop first (first + 1) rest).
    unfold zlen in *. cbn [length] in Hlen. lia. }
  { pose proof (length_extentLoop first (first + 1) rest). cbn [length]. lia. }
  cbn [OpenTree Z.eqb rbind]. change (OpenTree tx TreeFreeSpace 0) with (Ok (mk_ref 0 0 (Some (mk_leaf [] [] 0)))).
  cbn [rbind]. rewrite Hput. cbn [rbind].
  set (tx1 := set_metadataAllocation tx true).
  pose proof (extends_metadataAllocation tx true) as Hext. fold tx1 in Hext.
  pose proof (flush_correct TreeFreeSpace h tx1 tree (extent_entries tx (extentLoop first (first + 1) rest) [])) as Hfl.
  destruct (Flush TreeFreeSpace tx1 tree) as [[page tx2]|e] eqn:Efl; cbn [rbind].
  - pose proof (Flush_written limbo _ _ _ _ _ (written_metadataAllocation _ _ true Hw) Efl) as (Hw2 & Hs2 & Hf2).
    split; [by apply written_metadataAllocation|]. split; [destruct Hs2; by constructor|]. split; [done|].
    unfold Flush in Efl.
    destruct (flush TreeFreeSpace tx1 tree) as [[ref tx3]|]; [|done]. injection Efl as <- <-.
    destruct Hfl as (Hok3 & He3 & Hc3 & Hst3).
    + apply (written_metadataAllocation limbo tx true Hw).
    + by eapply rep_extends.
    + by eapply sound_extends.
    + change (zlen []) with 0 in Hz. pose proof (length_extentLoop first (first + 1) rest).
      unfold zlen in *. cbn [length] in Hlen. lia.
    + split; [etransitivity; [exact Hext|etransitivity; [exact He3|apply extends_metadataAllocation]]|].
      exists (ref_pageID ref). split; [done|]. exists h. split; [by eapply stored_extends; [apply extends_metadataAllocation|]|].
      apply stored_available in Hst3. destruct Hst3 as [Hsg|[Hp _]].
      * apply (writable_range tx3); [done|]. by apply Hok3 in Hsg as [_ ?].
      * destruct Hok3. cbn. lia.
  - unfold Flush in Efl. destruct (flush TreeFreeSpace tx1 tree) as [[ref tx3]|] eqn:E3; [done|].
    injection Efl as <-. apply Hfl.
    + apply (written_metadataAllocation limbo tx true Hw).
    + by eapply rep_extends.
    + by eapply sound_extends.
    + change (zlen []) with 0 in Hz. pose proof (length_extentLoop first (first + 1) rest).
      unfold zlen in *. cbn [length] in Hlen. lia.
Qed.
