(* ===== verification/Atomicity.v ===== *)
(** * Commits are atomic and durable

    The theorems about [updateUnlockedAdvance]: whatever a crash leaves of an
    update, the file opens at the old or the new version; after an update the
    file satisfies the invariant again and the trees its transaction wrote are
    the trees of the new version. *)
From S2P Require Import Prelude Bytes Layout Hashes PageFormat Entries Records NodeCodec.
From S2P Require Import CowTree TreeShape TreeInvariant TreeRep TreeDelete Tree Flush FileStore.
From S2P Require Import Recovery Commit.
From stdpp Require Import gmap.
#[local] Open Scope Z_scope.

(** ** The invariant of an open file *)

Record file_ok (f : File) : Prop := {
  fo_opens : opens_at (f_file f) (f_metaSlot f) (f_meta f) (f_root f);
  fo_next : 2 <= f_nextPage f <= zlen (f_file f);
  fo_width : f_nextPage f < 2 ^ 64;
  fo_count : PhysicalPageCount (f_meta f) <= f_nextPage f;
  fo_free : Forall (fun id => 2 <= id < f_nextPage f) (f_freePages f);
  fo_NoDup : NoDup (f_freePages f);
  fo_length : zlen (f_freePages f) < 2 ^ 63;
  fo_root : RootPage (f_meta f) <> 0 -> ~ RootPage (f_meta f) ∈ f_freePages f;
  fo_max : f_maxPhysicalPages f < 2 ^ 64 - 1 }.

(** What a callback must do: use the transaction's operations, return a root of
    in-range pages and only supported features. *)
Definition build_ok (f : File) (advance : Z) (build : builder) : Prop :=
  forall tx, beginUpdate f advance = Ok tx ->
    match build tx with
    | Ok (root, tx') =>
        written [] tx' /\ same_txn tx tx' /\ root_ok root /\
        Forall (fun p => reference_ok (tx_nextPage tx') p = true) (root_references root) /\
        u64 (tx_requiredFeatures tx') /\ unsupported_features (tx_requiredFeatures tx') = 0
    | Err _ => True
    end.

(** ** Runs of writes *)

Abbreviation write_pages := (fold_left (fun d page => write_page d page.1 page.2)).

Lemma zlen_write_pages pages d :
  Forall (fun p => 0 <= p.1) pages -> zlen d <= zlen (write_pages pages d) /\
  forall id, id ∈ pages.*1 -> id < zlen (write_pages pages d).
Proof.
  revert d; induction pages as [|p pages IH]; intros d Hp; [split; [done|by intros id ?%elem_of_nil]|].
  apply Forall_cons in Hp as [Hp Hps]. cbn [fold_left]. pose proof (length_write d p.1 p.2 Hp) as Hl.
  destruct (IH (write_page d p.1 p.2) Hps) as [H1 H2]. split; [lia|].
  intros id [->|Hi]%elem_of_cons; [lia|by apply H2].
Qed.

Lemma read_write_pages_ne pages d id :
  Forall (fun p => 0 <= p.1) pages -> ~ id ∈ pages.*1 -> is_ok (read_page d id) = true ->
  read_page (write_pages pages d) id = read_page d id.
Proof.
  revert d; induction pages as [|p pages IH]; intros d Hp Hn Hok; [done|].
  apply Forall_cons in Hp as [Hp Hps]. cbn [fmap list_fmap] in Hn. apply not_elem_of_cons in Hn as [Hne Hn].
  cbn [fold_left]. assert (Hr : read_page (write_page d p.1 p.2) id = read_page d id) by by apply read_write_ne.
  rewrite IH; [done|done|done|by rewrite Hr].
Qed.

Lemma read_write_pages_in pages d id data :
  Forall (fun p => 0 <= p.1) pages -> NoDup pages.*1 -> (id, data) ∈ pages ->
  read_page (write_pages pages d) id = Ok data.
Proof.
  revert d; induction pages as [|p pages IH]; intros d Hp Hnd Hin; [by apply elem_of_nil in Hin|].
  apply Forall_cons in Hp as [Hp Hps]. cbn [fmap list_fmap] in Hnd. apply NoDup_cons in Hnd as [Hni Hnd].
  cbn [fold_left]. apply elem_of_cons in Hin as [<-|Hin]; [|by apply IH]. cbn [fst snd] in *.
  assert (Hr : read_page (write_page d id data) id = Ok data) by by apply read_write_eq.
  by rewrite read_write_pages_ne; [|done|done|rewrite Hr].
Qed.

(** ** The transaction an update begins with *)

Lemma opens_meta d slot m r : opens_at d slot m r -> meta_ok m /\ unsupported_features (RequiredFeatures m) = 0 /\ validMeta m = true.
Proof. intros Ho. destruct (oa_meta _ _ _ _ Ho) as (page & _ & (H1 & H2 & H3 & _)%DecodeMeta_image). done. Qed.

Lemma valid_rootpage m : validMeta m = true -> RootPage m = 0 \/ 2 <= RootPage m < PhysicalPageCount m.
Proof.
  unfold validMeta. destruct (_ || _); [done|]. destruct (Z.eqb_spec (RootPage m) 0); [by left|].
  intros. breflect. lia.
Qed.

Lemma begin_written f advance tx :
  file_ok f -> 0 <= advance < 2 ^ 64 -> beginUpdate f advance = Ok tx ->
  written [] tx /\ tx_file tx = f /\ tx_baseRoot tx = f_root f /\
  tx_generation tx = Generation (f_meta f) + 1 /\ tx_sequence tx = CommitSequence (f_meta f) + advance /\
  tx_freePages tx = f_freePages f /\ tx_nextPage tx = f_nextPage f.
Proof.
  intros [Ho Hn Hw _ Hfr Hnd _ _ Hmax] Ha. unfold beginUpdate. destruct (f_fatalErr f); [done|].
  destruct (opens_meta _ _ _ _ Ho) as ((_ & Hg & Hc & _) & _). unfold u64, maxUint64 in *.
  destruct (Z.ltb_spec (2 ^ 64 - 1 - CommitSequence (f_meta f)) advance); [done|].
  destruct (_ || _) eqn:E; [done|]. apply orb_false_iff in E as [E _]. breflect. intros <-%Ok_inj.
  assert (Hlt : Generation (f_meta f) + 1 < 2 ^ 64).
  { destruct (Z.eq_dec (Generation (f_meta f)) (2 ^ 64 - 1)) as [Eg|]; [|lia]. rewrite Eg in E. by destruct E. }
  assert (Hgen : to_u64 (Generation (f_meta f) + 1) = Generation (f_meta f) + 1) by (apply Z.mod_small; lia).
  split; [|cbn; rewrite Hgen; done]. constructor; cbn; try done; try (intros; lia).
  - constructor; cbn; try done; rewrite ?Hgen; try lia; [by rewrite app_nil_r|].
    intros id [? Hs]. cbn in Hs. by rewrite lookup_empty in Hs.
  - constructor.
  - by intros id ?%elem_of_nil.
Qed.

(** The references of the current root. *)
Lemma base_references f p :
  file_ok f -> p ∈ root_references (f_root f) -> reference_ok (f_nextPage f) p = true.
Proof.
  intros [Ho _ _ Hcount _ _ _ _ _] Hp.
  assert (reference_ok (PhysicalPageCount (f_meta f)) p = true) as H.
  { pose proof (oa_valid _ _ _ _ Ho) as Hv. pose proof (oa_root _ _ _ _ Ho) as Hr.
    unfold validateRoot, readDatabaseRoot in Hv, Hr. destruct (Z.eqb_spec (RootPage (f_meta f)) 0).
    - injection Hr as Hr. rewrite <- Hr in Hp. unfold root_references, root_zero in Hp. cbn in Hp.
      repeat (apply elem_of_cons in Hp as [->|Hp]; [done|]). by apply elem_of_nil in Hp.
    - destruct (_ <=? _) in Hv; [done|]. destruct (read_page _ _) as [page|]; [|done]. cbn [rbind] in Hr.
      destruct (DecodeDatabaseRoot _ _) as [[root decoded]|]; [|done]. cbn [rbind] in Hr.
      destruct (negb _) in Hr; [done|]. injection Hr as ->. destruct (_ || _ || _) in Hv; [done|].
      destruct (_ && _) in Hv; [done|]. apply guard_err_ok in Hv. by eapply forallb_forall in Hv; [|by apply list_elem_of_In]. }
  unfold reference_ok in *. apply orb_true_iff in H as [->|H]; [done|]. apply orb_true_iff. right. breflect. bgoal; lia.
Qed.

(** ** What an update stages *)

Record staged_update (f : File) (advance : Z) (tx : WriteTxn) (root : DatabaseRoot) (id : Z) (rootPage : bytes) : Prop := {
  su_written : written [] tx;
  su_file : tx_file tx = f;
  su_generation : tx_generation tx = Generation (f_meta f) + 1;
  su_sequence : tx_sequence tx = CommitSequence (f_meta f) + advance;
  su_page : (id, rootPage) ∈ tx_pages tx;
  su_encoded : EncodeDatabaseRoot id (tx_generation tx) root = Ok rootPage;
  su_root : root_ok root;
  su_root_sequence : root_CommitSequence root = tx_sequence tx;
  su_oldest : root_OldestRetainedSequence root <= tx_sequence tx;
  su_builds : root_IndexBuildCatalogRoot root <> 0 ->
    Z.land (tx_requiredFeatures tx) RequiredFeatureShadowIndexBuilds <> 0;
  su_references : Forall (fun p => reference_ok (tx_nextPage tx) p = true) (root_references root);
  su_features : u64 (tx_requiredFeatures tx) /\ unsupported_features (tx_requiredFeatures tx) = 0 }.

Lemma reference_mono n n' p : n <= n' -> reference_ok n p = true -> reference_ok n' p = true.
Proof.
  unfold reference_ok. intros Hn [->|H]%orb_true_iff; [done|]. apply orb_true_iff. right. breflect. bgoal; lia.
Qed.

Lemma reference_width n p : n < 2 ^ 64 -> reference_ok n p = true -> u64 p.
Proof.
  unfold reference_ok, u64. intros Hn [H|H]%orb_true_iff; breflect; [subst; lia|lia].
Qed.

Lemma set_FreeSpaceRoot_ok n root page :
  n < 2 ^ 64 -> root_ok root -> Forall (fun p => reference_ok n p = true) (root_references root) ->
  reference_ok n page = true ->
  root_ok (set_FreeSpaceRoot root page) /\
  Forall (fun p => reference_ok n p = true) (root_references (set_FreeSpaceRoot root page)).
Proof.
  intros Hn (H1 & H2 & H3 & H4 & H5 & H6 & H7 & H8 & H9) Hr Hp. pose proof (reference_width n page Hn Hp).
  split; [unfold root_ok; cbn; tauto|].
  unfold root_references in *. cbn in *. rewrite !Forall_cons in *. tauto.
Qed.

Lemma set_IndexBuildCatalogRoot_ok n root page :
  n < 2 ^ 64 -> root_ok root -> Forall (fun p => reference_ok n p = true) (root_references root) ->
  reference_ok n page = true ->
  root_ok (set_IndexBuildCatalogRoot root page) /\
  Forall (fun p => reference_ok n p = true) (root_references (set_IndexBuildCatalogRoot root page)).
Proof.
  intros Hn (H1 & H2 & H3 & H4 & H5 & H6 & H7 & H8 & H9) Hr Hp. pose proof (reference_width n page Hn Hp).
  split; [unfold root_ok; cbn; tauto|].
  unfold root_references in *. cbn in *. rewrite !Forall_cons in *. tauto.
Qed.

(** The page [finalizeFreeSpace] sets is in range. *)
Lemma finalize_reference f tx page tx' h :
  file_ok f -> tx_file tx = f -> tx_baseRoot tx = f_root f -> written h tx' -> same_txn tx tx' ->
  (if negb (tx_freeSpaceTracked tx) then page = 0
   else if negb (tx_freeSpaceRebuild tx) then page = root_FreeSpaceRoot (tx_baseRoot tx)
   else match tx_freePages tx with
        | [] => page = 0
        | _ => exists h, stored TreeFreeSpace tx' h page (pool_entries tx) /\ 2 <= page < tx_nextPage tx'
        end) -> reference_ok (tx_nextPage tx') page = true.
Proof.
  intros Hf Hfile Hbase Hw Hs.
  assert (Hn : f_nextPage f <= tx_nextPage tx').
  { pose proof (txn_next _ (w_ok _ _ Hw)) as Hn. rewrite (same_file _ _ Hs), Hfile in Hn. lia. }
  destruct (negb (tx_freeSpaceTracked tx)); [by intros ->|]. destruct (negb (tx_freeSpaceRebuild tx)).
  { intros ->. rewrite Hbase. apply (reference_mono (f_nextPage f)); [done|]. apply base_references; [done|].
    right. right. by left. }
  destruct (tx_freePages tx); [by intros ->|]. intros (k & _ & Hp). unfold reference_ok.
  apply orb_true_iff. right. bgoal; lia.
Qed.

(** The free pages of a transaction are fewer than its file's. *)
Lemma free_length limbo tx : written limbo tx -> file_ok (tx_file tx) -> zlen (tx_freePages tx) < 2 ^ 63.
Proof.
  intros Hw Hf. pose proof (prefix_length _ _ (txn_free_prefix _ (w_ok _ _ Hw))).
  pose proof (fo_length _ Hf). unfold zlen in *. lia.
Qed.

(** Staging the root page completes the transaction. *)
Lemma stage_root tx id root rootPage :
  written [id] tx -> root_ok root -> EncodeDatabaseRoot id (tx_generation tx) root = Ok rootPage ->
  written [] (set_pages tx (tx_pages tx ++ [(id, rootPage)]) (tx_byID tx)).
Proof.
  intros Hw Hr He. pose proof (w_ok _ _ Hw) as Hok.
  pose proof (w_limbo _ _ Hw) as [(Hid & _) _]%Forall_cons. apply (writable_range _ _ Hok) in Hid.
  assert (Hwd : tx_nextPage tx < 2 ^ 64) by apply Hok.
  apply stage_written; [done|by intros ?%elem_of_nil| |destruct Hok; by constructor|by left].
  apply DecodeDatabaseRoot_complete in He; [|done|destruct Hok; unfold u64; lia|unfold u64; lia].
  unfold DecodeDatabaseRoot in He. by destruct (DecodePage rootPage id) as [d|] eqn:E; [|done]; change (is_ok (DecodePage rootPage id) = true); rewrite E.
Qed.

Lemma stageUpdate_ok f advance build tx root id :
  file_ok f -> 0 <= advance < 2 ^ 64 -> build_ok f advance build ->
  stageUpdate f advance build = Ok (tx, root, id) -> exists rootPage, staged_update f advance tx root id rootPage.
Proof.
  intros Hf Ha Hb. unfold stageUpdate. intros Hst. inv_ok. rename a into tx0, Hok into Hbegin.
  specialize (Hb tx0 Hbegin). pose proof (begin_written f advance tx0 Hf Ha Hbegin) as (Hw0 & Hfile & Hbase & Hgen & Hseq & _ & Hnext).
  destruct a0 as [root1 tx1]. rewrite Hok0 in Hb. destruct Hb as (Hw1 & Hs1 & Hr1 & Href1 & Hft).
  set (root2 := if negb (tx_indexBuildCatalogChanged tx1) then _ else root1) in Hst.
  pose proof (w_ok _ _ Hw1) as Hok1.
  assert (Hn1 : f_nextPage f <= tx_nextPage tx1) by (rewrite <- Hnext; apply Hs1).
  assert (Hr2 : root_ok root2 /\ Forall (fun p => reference_ok (tx_nextPage tx1) p = true) (root_references root2)).
  { unfold root2. destruct (negb _); [|done].
    apply set_IndexBuildCatalogRoot_ok; [apply Hok1|done|done|]. apply (reference_mono (f_nextPage f)); [done|].
    apply base_references; [done|]. right. right. right. by left. }
  destruct Hr2 as [Hr2 Href2].
  destruct (_ || _) eqn:Echk in Hst; [done|]. apply orb_false_iff in Echk as [Echk1 Echk2]. breflect. inv_ok.
  destruct a as [rid tx2]. inv_ok. destruct a as [root3 tx3]. inv_ok. rename a into rootPage.
  injection Hst as <- <- <-.
  pose proof (allocate_written [] _ _ _ Hw1 Hok) as (Hw2 & Hs2 & _ & _ & Hrf2).
  assert (Hs02 : same_txn tx0 tx2) by by etransitivity.
  assert (Hfile2 : tx_file tx2 = f) by (by rewrite (same_file _ _ Hs02)).
  assert (Hlen2 : zlen (tx_freePages tx2) < 2 ^ 63) by (eapply free_length; [exact Hw2|by rewrite Hfile2]).
  pose proof (finalizeFreeSpace_correct [rid] tx2 root2 Hw2 Hlen2) as Hfin. rewrite Hok2 in Hfin.
  destruct Hfin as (Hw3 & Hs3 & Hrf3 & _ & page & -> & Hpage).
  assert (Hs03 : same_txn tx0 tx3) by by etransitivity.
  apply (finalize_reference f tx2 page tx3 [rid]) in Hpage; [|done|done|by rewrite (same_base _ _ Hs02)|done|done].
  assert (Hwd3 : tx_nextPage tx3 < 2 ^ 64) by apply (w_ok _ _ Hw3).
  assert (Hn13 : tx_nextPage tx1 <= tx_nextPage tx3) by (etransitivity; [apply Hs2|apply Hs3]).
  destruct (set_FreeSpaceRoot_ok (tx_nextPage tx3) root2 page) as [Hr3 Href3]; [done|done| |done|].
  { eapply Forall_impl; [exact Href2|]. intros p. by apply reference_mono. }
  assert (Hgen3 : tx_generation tx3 = tx_generation tx0) by apply Hs03.
  rewrite <- Hgen3 in Hok3. exists rootPage.
  constructor; cbn [set_pages tx_file tx_generation tx_sequence tx_pages tx_requiredFeatures tx_nextPage].
  - by eapply stage_root.
  - by rewrite (same_file _ _ Hs03).
  - congruence.
  - rewrite (same_sequence _ _ Hs03). done.
  - apply elem_of_snoc.
  - done.
  - done.
  - rewrite (same_sequence _ _ Hs03). done.
  - rewrite (same_sequence _ _ Hs03). done.
  - cbn. intros Hi. rewrite Hrf3, Hrf2. apply andb_false_iff in Echk2 as [E|E]; breflect; done.
  - done.
  - by rewrite Hrf3, Hrf2.
Qed.

(** ** The new version *)

Lemma u64_lor a b : u64 a -> u64 b -> u64 (Z.lor a b).
Proof.
  unfold u64. intros Ha Hb. assert (0 <= Z.lor a b) by (apply Z.lor_nonneg; lia). split; [done|].
  destruct (Z.eq_dec (Z.lor a b) 0) as [->|Hne]; [lia|]. apply Z.log2_lt_pow2; [lia|].
  rewrite Z.log2_lor by lia. apply Z.max_lub_lt.
  - destruct (Z.eq_dec a 0) as [->|]; [done|]. apply Z.log2_lt_pow2; lia.
  - destruct (Z.eq_dec b 0) as [->|]; [done|]. apply Z.log2_lt_pow2; lia.
Qed.

Lemma u64_ldiff a b : u64 a -> 0 <= b -> u64 (Z.ldiff a b).
Proof.
  unfold u64. intros Ha Hb. split; [apply Z.ldiff_nonneg; lia|].
  assert (Z.ldiff a b <= a); [|lia]. apply Z.ldiff_le. lia. apply Z.bits_inj'. intros n Hn.
  rewrite Z.ldiff_spec, Z.ldiff_spec, Z.bits_0. destruct (Z.testbit a n), (Z.testbit b n); done.
Qed.

(** Where [publishedMeta] is stored, and its root page, the file opens at it. *)
Lemma published_opens f advance tx root id rootPage encoded d :
  file_ok f -> 0 <= advance -> staged_update f advance tx root id rootPage ->
  EncodeMeta (publishedMeta f tx root id) = Ok encoded ->
  read_page d (1 - f_metaSlot f) = Ok encoded -> read_page d id = Ok rootPage ->
  read_page d (f_metaSlot f) = read_page (f_file f) (f_metaSlot f) -> tx_nextPage tx <= zlen d ->
  opens_at d (1 - f_metaSlot f) (publishedMeta f tx root id) root.
Proof.
  intros Hf Hadv [Hw Hfile Hgen Hseq Hpage Henc Hroot Hrs Hold Hib Href [Hft Hfu]] Hem Hslot Hrp Hother Hlen.
  pose proof (fo_opens _ Hf) as Ho. destruct (opens_meta _ _ _ _ Ho) as ((Hid16 & Hg & Hc & _ & _ & _ & _ & Hopt) & _).
  pose proof (w_ok _ _ Hw) as Hok. pose proof Hok as [Hn _ Hwd Hgw Hsw _ _ _ _].
  assert (Hidr : 2 <= id < tx_nextPage tx).
  { pose proof (w_pages _ _ Hw) as Hp. rewrite Forall_forall in Hp. specialize (Hp _ Hpage) as [Hfr _].
    by apply (writable_range tx). }
  assert (Hmok : meta_ok (publishedMeta f tx root id)).
  { unfold meta_ok, publishedMeta, u64 in *. cbn. destruct Hroot as (_ & _ & _ & _ & Hoo & _).
    repeat (split; [first [done|lia]|]).
    destruct (tx_freeSpaceTracked tx); [by apply u64_lor|by apply u64_ldiff]. }
  assert (Hvalid : DecodeMeta encoded = Ok (publishedMeta f tx root id)).
  { apply DecodeMeta_image. split; [done|]. by apply EncodeMeta_image in Hem. }
  assert (Hdec : DecodeDatabaseRoot rootPage id = Ok (root, root_page id (tx_generation tx) root)).
  { apply DecodeDatabaseRoot_complete; [done|unfold u64; lia|unfold u64; lia|done]. }
  constructor.
  - destruct (oa_slot _ _ _ _ Ho) as [-> | ->]; [by right|by left].
  - eauto.
  - done.
  - unfold validateRoot, publishedMeta. cbn [RootPage CommitSequence PhysicalPageCount Generation OldestRetainedSequence RequiredFeatures].
    destruct (Z.eqb_spec id 0); [lia|]. destruct (Z.leb_spec (tx_nextPage tx) id); [lia|]. rewrite Hrp, Hdec.
    cbn [root_page page_Generation]. rewrite Hrs, !Z.eqb_refl. cbn [negb orb].
    destruct (_ && _) eqn:Eb.
    + apply andb_true_iff in Eb as [E1 E2]. breflect. by apply Hib in E1.
    + apply guard_err_ok. apply forallb_forall. intros p Hp%list_elem_of_In. rewrite Forall_forall in Href. by apply Href.
  - unfold readDatabaseRoot, publishedMeta. cbn [RootPage CommitSequence]. destruct (Z.eqb_spec id 0); [lia|].
    rewrite Hrp. cbn [rbind]. rewrite Hdec. cbn [rbind]. by rewrite Hrs, Z.eqb_refl.
  - destruct (oa_meta _ _ _ _ Ho) as (page & Hr & Hd). exists page.
    replace (1 - (1 - f_metaSlot f)) with (f_metaSlot f) by lia. rewrite Hother. split; [done|]. right.
    exists (f_meta f). cbn. split; [done|]. split; [done|]. lia.
Qed.

(** ** Crashes *)

Lemma prefix_snoc_inv {A} (l l1 : list A) x : l `prefix_of` l1 ++ [x] -> l `prefix_of` l1 \/ l = l1 ++ [x].
Proof.
  intros [k Hk]. destruct k as [|y k _] using rev_ind; [right; by rewrite app_nil_r in Hk|].
  left. rewrite app_assoc in Hk. apply app_inj_tail in Hk as [-> _]. by exists k.
Qed.

Definition page_writes (pages : list (Z * bytes)) : list event := (fun page => WriteAt page.1 page.2) <$> pages.

Lemma settled_app d tr1 tr2 : settled d (tr1 ++ tr2) = fold_left settle tr2 (settled d tr1).
Proof. apply fold_left_app. Qed.

Lemma settled_writes d pages : settled d (page_writes pages) = (d, pages).
Proof.
  induction pages as [|[id data] pages IH] using rev_ind; [done|].
  unfold page_writes in *. rewrite fmap_app, settled_app, IH. done.
Qed.

Lemma settled_data d pages : settled d (dataEvents pages) = (write_pages pages d, []).
Proof. unfold dataEvents. rewrite settled_app. fold (page_writes pages). by rewrite settled_writes. Qed.

(** A prefix of the page writes leaves some of them pending. *)
Lemma prefix_writes tr pages : tr `prefix_of` page_writes pages -> exists ps, tr = page_writes ps /\ ps `prefix_of` pages.
Proof.
  revert tr; induction pages as [|p pages IH]; intros tr [k Hk]; destruct tr as [|e tr]; cbn in Hk;
    try (exists []; split; [done|apply prefix_nil]).
  injection Hk as <- Hk. destruct (IH tr (ex_intro _ k Hk)) as (ps & -> & [k' ->]).
  exists (p :: ps). split; [done|]. by exists k'.
Qed.

Section Crash.
Variables (f : File) (advance : Z) (tx : WriteTxn) (root : DatabaseRoot) (id : Z) (rootPage : bytes).
Hypothesis Hf : file_ok f.
Hypothesis Hadv : 0 <= advance.
Hypothesis Hsu : staged_update f advance tx root id rootPage.

Lemma page_ids : Forall (fun p => 0 <= p.1) (tx_pages tx).
Proof.
  eapply Forall_impl; [apply (w_pages _ _ (su_written _ _ _ _ _ _ Hsu))|]. intros p [Hp _].
  apply (writable_range tx) in Hp; [lia|]. apply (su_written _ _ _ _ _ _ Hsu).
Qed.

Lemma not_written i :
  i < 2 \/ (i = RootPage (f_meta f) /\ i <> 0) -> ~ i ∈ (tx_pages tx).*1.
Proof.
  intros Hi Hin. apply list_elem_of_fmap in Hin as (p & -> & Hin).
  pose proof (su_written _ _ _ _ _ _ Hsu) as Hw. pose proof (w_pages _ _ Hw) as Hp. rewrite Forall_forall in Hp.
  destruct (Hp _ Hin) as [Hfr _]. destruct Hi as [Hi|[Hi Hne]].
  - apply (writable_range tx) in Hfr; [lia|apply Hw].
  - pose proof (su_file _ _ _ _ _ _ Hsu) as Hfile. unfold writable in Hfr. rewrite Hfile in Hfr.
    rewrite Hi in Hfr, Hne. destruct Hfr as [Hfr|Hfr]; [by apply (fo_root _ Hf)|].
    destruct (opens_meta _ _ _ _ (fo_opens _ Hf)) as (_ & _ & Hv). apply valid_rootpage in Hv.
    pose proof (fo_count _ Hf). lia.
Qed.

Lemma root_readable : RootPage (f_meta f) <> 0 -> is_ok (read_page (f_file f) (RootPage (f_meta f))) = true.
Proof.
  intros Hne. pose proof (oa_root _ _ _ _ (fo_opens _ Hf)) as Hr. unfold readDatabaseRoot in Hr.
  destruct (Z.eqb_spec (RootPage (f_meta f)) 0); [done|]. by destruct (read_page _ _).
Qed.

(** Files that agree with the old one off the written pages. *)
Definition off_pages (d : disk) : Prop :=
  zlen (f_file f) <= zlen d /\
  forall i, ~ i ∈ (tx_pages tx).*1 -> is_ok (read_page (f_file f) i) = true -> read_page d i = read_page (f_file f) i.

Lemma slot_reads d :
  off_pages d ->
  read_page d (f_metaSlot f) = read_page (f_file f) (f_metaSlot f) /\
  read_page d (1 - f_metaSlot f) = read_page (f_file f) (1 - f_metaSlot f) /\
  (RootPage (f_meta f) <> 0 -> read_page d (RootPage (f_meta f)) = read_page (f_file f) (RootPage (f_meta f))).
Proof.
  intros [_ Hd]. pose proof (fo_opens _ Hf) as Ho. pose proof (oa_slot _ _ _ _ Ho).
  destruct (oa_meta _ _ _ _ Ho) as (p1 & H1 & _). destruct (oa_other _ _ _ _ Ho) as (p2 & H2 & _).
  split; [|split].
  - apply Hd; [apply not_written; left; lia|by rewrite H1].
  - apply Hd; [apply not_written; left; lia|by rewrite H2].
  - intros Hne. apply Hd; [by apply not_written; right|by apply root_readable].
Qed.

Lemma off_pages_old d : off_pages d -> opens_at d (f_metaSlot f) (f_meta f) (f_root f).
Proof.
  intros Hd. destruct (slot_reads d Hd) as (H1 & H2 & H3).
  eapply opens_at_keep; [apply (fo_opens _ Hf)|apply Hd|done|done|].
  destruct (oa_other _ _ _ _ (fo_opens _ Hf)) as (page & Hr & Hp). exists page. by rewrite H2.
Qed.

Lemma off_pages_write : off_pages (write_pages (tx_pages tx) (f_file f)).
Proof.
  split; [apply zlen_write_pages, page_ids|]. intros i Hn Hi. by apply read_write_pages_ne; [apply page_ids| |].
Qed.

(** A crash before the sync of the pages. *)
Lemma crash_data tr d :
  tr `prefix_of` dataEvents (tx_pages tx) ->
  crash (settled (f_file f) tr).1 (settled (f_file f) tr).2 d -> off_pages d.
Proof.
  intros [Ht| ->]%prefix_snoc_inv.
  - fold (page_writes (tx_pages tx)) in Ht. apply prefix_writes in Ht as (ps & -> & [k Hk]).
    rewrite settled_writes. cbn [fst snd]. intros (Hlen & Hread & _). split; [done|].
    intros i Hn Hi. apply Hread; [|done]. intros Hin. apply Hn. rewrite Hk, fmap_app. by apply elem_of_front.
  - fold (page_writes (tx_pages tx)). change (page_writes (tx_pages tx) ++ [Sync]) with (dataEvents (tx_pages tx)).
    rewrite settled_data. cbn [fst snd]. intros (Hlen & Hread & _).
    destruct off_pages_write as [H1 H2]. split; [lia|]. intros i Hn Hi. rewrite <- (H2 i Hn Hi).
    apply Hread; [by intros ?%elem_of_nil|by rewrite (H2 i Hn Hi)].
Qed.

(** The pages once they are durable. *)
Definition durable (d : disk) : Prop :=
  off_pages d /\ tx_nextPage tx <= zlen d /\
  forall p, p ∈ tx_pages tx -> read_page d p.1 = Ok p.2.

Lemma write_pages_durable : durable (write_pages (tx_pages tx) (f_file f)).
Proof.
  pose proof (su_written _ _ _ _ _ _ Hsu) as Hw. split; [apply off_pages_write|]. split.
  - destruct (zlen_write_pages (tx_pages tx) (f_file f) page_ids) as [H1 H2].
    pose proof (fo_next _ Hf) as Hn. pose proof (txn_next _ (w_ok _ _ Hw)) as Htn.
    pose proof (su_file _ _ _ _ _ _ Hsu) as Hfile. rewrite Hfile in Htn.
    destruct (Z.eq_dec (tx_nextPage tx) (f_nextPage f)) as [->|Hne]; [lia|].
    destruct (w_cover _ _ Hw (tx_nextPage tx - 1)) as [?%elem_of_nil|Hin]; [rewrite Hfile; lia|done|].
    apply H2 in Hin. lia.
  - intros [i data] Hp. cbn. by apply read_write_pages_in; [apply page_ids|apply Hw|].
Qed.

Variable encoded : bytes.
Hypothesis Hem : EncodeMeta (publishedMeta f tx root id) = Ok encoded.

Lemma durable_new d :
  durable d -> opens_at (write_page d (1 - f_metaSlot f) encoded) (1 - f_metaSlot f) (publishedMeta f tx root id) root.
Proof.
  intros (Hoff & Hlen & Hread). pose proof (oa_slot _ _ _ _ (fo_opens _ Hf)) as Hs.
  destruct (slot_reads d Hoff) as (H1 & H2 & _).
  destruct (oa_meta _ _ _ _ (fo_opens _ Hf)) as (p1 & Hr1 & _).
  pose proof (su_page _ _ _ _ _ _ Hsu) as Hp. pose proof (Hread _ Hp) as Hrp. cbn in Hrp.
  assert (Hid : 2 <= id).
  { destruct (Z.lt_ge_cases id 2); [|done]. exfalso. apply (not_written id); [by left|].
    apply list_elem_of_fmap. by exists (id, rootPage). }
  eapply published_opens; [done|done|done|done| | | |].
  - apply read_write_eq. lia.
  - rewrite read_write_ne; [done|lia|lia|by rewrite Hrp].
  - rewrite read_write_ne; [done|lia|lia|by rewrite H1, Hr1].
  - rewrite length_write by lia. lia.
Qed.

(** A crash while the metadata slot is written. *)
Lemma crash_meta d d' :
  durable d -> crash d [(1 - f_metaSlot f, encoded)] d' ->
  opens_at d' (f_metaSlot f) (f_meta f) (f_root f) \/
  opens_at d' (1 - f_metaSlot f) (publishedMeta f tx root id) root.
Proof.
  intros Hdur (Hlen & Hread & Htorn). pose proof Hdur as (Hoff & Hnext & Hpages).
  pose proof (oa_slot _ _ _ _ (fo_opens _ Hf)) as Hs. destruct (slot_reads d Hoff) as (H1 & H2 & H3).
  destruct (oa_meta _ _ _ _ (fo_opens _ Hf)) as (p1 & Hr1 & _).
  destruct (oa_other _ _ _ _ (fo_opens _ Hf)) as (p2 & Hr2 & Hp2).
  assert (Hkeep : forall i, i <> 1 - f_metaSlot f -> is_ok (read_page d i) = true -> read_page d' i = read_page d i).
  { intros i Hi. apply Hread. cbn. intros ?%list_elem_of_singleton. done. }
  assert (Hs1 : read_page d' (f_metaSlot f) = read_page (f_file f) (f_metaSlot f)).
  { rewrite Hkeep; [done|lia|by rewrite H1, Hr1]. }
  assert (Hold : older_slot d' (1 - f_metaSlot f) (f_meta f) -> opens_at d' (f_metaSlot f) (f_meta f) (f_root f)).
  { intros Ho. eapply opens_at_keep; [apply (fo_opens _ Hf)|destruct Hoff; lia|done| |done].
    intros Hne. destruct (opens_meta _ _ _ _ (fo_opens _ Hf)) as (_ & _ & Hv). apply valid_rootpage in Hv.
    rewrite Hkeep; [by apply H3|lia|]. rewrite H3 by done. by apply root_readable. }
  assert (is_ok (read_page d' (1 - f_metaSlot f)) = true) as Hok.
  { apply read_page_ok. assert (is_ok (read_page d (1 - f_metaSlot f)) = true) as ?%read_page_ok by by rewrite H2, Hr2. lia. }
  destruct (read_page d' (1 - f_metaSlot f)) as [page|] eqn:Epage; [|done].
  destruct (Htorn (1 - f_metaSlot f) page ltac:(lia) Epage) as [Hp|[Hp|Hp]].
  - left. apply Hold. exists page. split; [done|]. rewrite H2, Hr2 in Hp. injection Hp as <-. done.
  - right. apply list_elem_of_singleton in Hp. injection Hp as Hp. subst page.
    pose proof (su_page _ _ _ _ _ _ Hsu) as Hpg. pose proof (Hpages _ Hpg) as Hrp. cbn in Hrp.
    assert (Hid : id <> 1 - f_metaSlot f).
    { intros Hid. apply (not_written id); [left; lia|]. apply list_elem_of_fmap. by exists (id, rootPage). }
    eapply published_opens; [done|done|done|done|done| |done|lia]. rewrite Hkeep; [done|done|by rewrite Hrp].
  - left. apply Hold. exists page. split; [done|by left].
Qed.

(** Without pending writes nothing changes. *)
Lemma crash_settled d d' slot m r : crash d [] d' -> opens_at d slot m r -> opens_at d' slot m r.
Proof.
  intros (Hlen & Hread & _) Ho. assert (Hk : forall i, is_ok (read_page d i) = true -> read_page d' i = read_page d i).
  { intros i. apply Hread. cbn. by intros ?%elem_of_nil. }
  destruct (oa_meta _ _ _ _ Ho) as (p1 & H1 & _). destruct (oa_other _ _ _ _ Ho) as (p2 & H2 & Hp2).
  eapply opens_at_keep; [done|done|by apply Hk; rewrite H1| |].
  - intros Hne. apply Hk. pose proof (oa_root _ _ _ _ Ho) as Hr. unfold readDatabaseRoot in Hr.
    destruct (Z.eqb_spec (RootPage m) 0); [done|].
    destruct (read_page d (RootPage m)); [done|discriminate Hr].
  - exists p2. rewrite Hk by (by rewrite H2). done.
Qed.
End Crash.

(** ** Performing the events of an update *)

Lemma performIO_trace io d trace events :
  let '(ok, d', trace') := performIO io d trace events in
  (exists done, trace' = trace ++ done /\ done `prefix_of` events) /\
  (ok = true -> trace' = trace ++ events /\ d' = fold_left apply_event events d).
Proof.
  revert d trace; induction events as [|e events IH]; intros d trace; cbn [performIO].
  { split; [exists []; by rewrite app_nil_r|]. by rewrite app_nil_r. }
  destruct (io (length trace)).
  - specialize (IH (apply_event d e) (trace ++ [e])).
    destruct (performIO io (apply_event d e) (trace ++ [e]) events) as [[ok d'] trace'].
    destruct IH as [(done & -> & [k ->]) H2]. rewrite <- app_assoc. split.
    + exists (e :: done). split; [done|]. by exists k.
    + intros Hok. destruct (H2 Hok) as [H3 H4]. rewrite <- app_assoc in H3. split; [|done].
      by rewrite <- app_assoc in H3.
  - split; [|done]. exists [e]. split; [done|]. by exists events.
Qed.

Lemma apply_data d pages : fold_left apply_event (dataEvents pages) d = write_pages pages d.
Proof.
  unfold dataEvents. rewrite fold_left_app. cbn. revert d; induction pages as [|p pages IH]; intros d; [done|].
  cbn. apply IH.
Qed.

(** The outcome of an update that got as far as staging. *)
Lemma update_cases io f advance build tx root id :
  stageUpdate f advance build = Ok (tx, root, id) ->
  let '(outcome, f', trace) := updateUnlockedAdvance io f advance build in
  (outcome <> None /\ trace `prefix_of` dataEvents (tx_pages tx) /\ f_meta f' = f_meta f /\ f_root f' = f_root f /\
     f_nextPage f' = f_nextPage f /\ f_freePages f' = f_freePages f /\
     (f_fatalErr f' <> None \/ trace = dataEvents (tx_pages tx) /\ is_ok (EncodeMeta (publishedMeta f tx root id)) = false)) \/
  exists encoded, EncodeMeta (publishedMeta f tx root id) = Ok encoded /\
    let last := [WriteAt (1 - f_metaSlot f) encoded; Sync] in
    (outcome <> None /\ (exists k, trace = dataEvents (tx_pages tx) ++ k /\ k `prefix_of` last) /\
       f_meta f' = f_meta f /\ f_root f' = f_root f /\ f_fatalErr f' <> None) \/
    (outcome = None /\ trace = dataEvents (tx_pages tx) ++ last /\
       f' = publish f (write_page (write_pages (tx_pages tx) (f_file f)) (1 - f_metaSlot f) encoded) tx root
              (publishedMeta f tx root id) (1 - f_metaSlot f)).
Proof.
  intros Hst. unfold updateUnlockedAdvance. rewrite Hst.
  pose proof (performIO_trace io (f_file f) [] (dataEvents (tx_pages tx))) as H1.
  destruct (performIO io (f_file f) [] (dataEvents (tx_pages tx))) as [[[] d1] tr1].
  2: { left. destruct H1 as [(k & -> & Hk) _]. by repeat (split; [done|]); left. }
  destruct H1 as [_ [Htr Hd]]; [done|]. rewrite apply_data in Hd. cbn in Htr. subst tr1 d1.
  destruct (EncodeMeta (publishedMeta f tx root id)) as [encoded|e].
  2: { left. repeat (split; [done|]). by right. }
  pose proof (performIO_trace io (write_pages (tx_pages tx) (f_file f)) (dataEvents (tx_pages tx))
    [WriteAt (1 - f_metaSlot f) encoded; Sync]) as H2.
  destruct (performIO io (write_pages (tx_pages tx) (f_file f)) (dataEvents (tx_pages tx)) _) as [[[] d2] tr2].
  - destruct H2 as [_ [-> ->]]; [done|]. right. exists encoded. split; [done|]. by right.
  - destruct H2 as [(k & -> & Hk) _]. right. exists encoded. split; [done|]. left.
    split; [done|]. split; [by exists k|done].
Qed.

(** ** What a reopened file reads *)

(** A reader's view of the current version. *)
Definition snapshot (f : File) : WriteTxn :=
  mk_WriteTxn f (f_root f) (Generation (f_meta f)) (CommitSequence (f_meta f)) (f_nextPage f) (f_freePages f) [] [] ∅
    (f_freeSpaceTracked f) (f_freeSpaceNeedsRebuild f) false (RequiredFeatures (f_meta f)) false false 0.

(** The file opens at that version, and every tree of [src] is in it. *)
Definition recovers (d : disk) (m : Meta) (r : DatabaseRoot) (src : WriteTxn) : Prop :=
  exists st, inspectExistingFile d (zlen d) = Ok st /\ st_meta st = m /\ st_root st = r /\
    forall max kind h page l, stored kind src h page l -> stored kind (snapshot (open st d max)) h page l.

(** [d] holds the pages of [src]. *)
Definition kept (src : WriteTxn) (d : disk) : Prop :=
  forall p, txn_available src p -> 2 <= p /\
    exists raw, read_page d p = Ok raw /\ tx_readPage src p = (let* _ := decodePageView raw p in Ok raw).

Lemma kept_mono src d d' :
  kept src d -> (forall p, 2 <= p -> is_ok (read_page d p) = true -> read_page d' p = read_page d p) -> kept src d'.
Proof.
  intros Hk Hd p Hp. destruct (Hk p Hp) as (H2 & raw & Hr & Ht). split; [done|]. exists raw. split; [|done].
  by rewrite Hd, Hr by (done || by rewrite Hr).
Qed.

(** A view of a file reads the pages below its end. *)
Lemma snapshot_read f p raw :
  2 <= p < f_nextPage f -> read_page (f_file f) p = Ok raw ->
  tx_readPage (snapshot f) p = (let* _ := decodePageView raw p in Ok raw).
Proof.
  intros Hp Hr. unfold tx_readPage. cbn [snapshot tx_byID tx_file]. rewrite lookup_empty. unfold readDataPageUnlocked.
  destruct (Z.ltb_spec p 2); [lia|]. destruct (Z.leb_spec (f_nextPage f) p); [lia|]. cbn [orb].
  rewrite Hr. cbn [rbind]. by destruct (decodePageView raw p).
Qed.

Lemma opens_at_recovers d slot m r src : opens_at d slot m r -> kept src d -> recovers d m r src.
Proof.
  intros (st & H1 & H2 & H3 & _ & H5)%inspect_opens_at Hk. exists st. split; [done|]. split; [done|]. split; [done|].
  intros max kind h page l. apply stored_extends. intros p Hp. destruct (Hk p Hp) as (Hp2 & raw & Hr & Ht).
  assert (is_ok (read_page d p) = true) as Hlt%read_page_ok by by rewrite Hr.
  assert (Hpn : 2 <= p < f_nextPage (open st d max)) by (cbn [open f_nextPage]; lia).
  split; [right; split; [done|]; cbn [open f_freePages]; by intros ?%elem_of_nil|].
  change (tx_readPage (snapshot (open st d max)) p = tx_readPage src p). rewrite Ht. by apply snapshot_read.
Qed.

Lemma available_snapshot f p : txn_available (snapshot f) p -> 2 <= p < f_nextPage f /\ ~ p ∈ f_freePages f.
Proof. intros [[data Hs]|Hp]; [cbn in Hs; by rewrite lookup_empty in Hs|done]. Qed.

Lemma kept_snapshot f : file_ok f -> kept (snapshot f) (f_file f).
Proof.
  intros Hf p [Hp _]%available_snapshot. split; [lia|]. pose proof (fo_next _ Hf).
  assert (is_ok (read_page (f_file f) p) = true) as Hr by (apply read_page_ok; lia).
  destruct (read_page (f_file f) p) as [raw|] eqn:E; [|done]. exists raw. split; [done|]. by apply snapshot_read.
Qed.

Lemma kept_old f advance tx root id rootPage d :
  file_ok f -> staged_update f advance tx root id rootPage -> off_pages f tx d -> kept (snapshot f) d.
Proof.
  intros Hf Hsu [_ Hd] p Hp. pose proof (kept_snapshot f Hf p Hp) as (H2 & raw & Hr & Ht). split; [done|].
  exists raw. split; [|done]. rewrite Hd; [done| |by rewrite Hr]. intros Hin.
  apply available_snapshot in Hp as [Hp Hn]. apply list_elem_of_fmap in Hin as (q & -> & Hin).
  pose proof (w_pages _ _ (su_written _ _ _ _ _ _ Hsu)) as Hw. rewrite Forall_forall in Hw.
  destruct (Hw _ Hin) as [Hwr _]. unfold writable in Hwr. rewrite (su_file _ _ _ _ _ _ Hsu) in Hwr.
  destruct Hwr; [done|lia].
Qed.

Lemma kept_new f advance tx root id rootPage d :
  file_ok f -> staged_update f advance tx root id rootPage -> durable f tx d -> kept tx d.
Proof.
  intros Hf Hsu (Hoff & _ & Hpages) p Hp. pose proof (su_written _ _ _ _ _ _ Hsu) as Hw. pose proof (w_ok _ _ Hw) as Hok.
  pose proof (su_file _ _ _ _ _ _ Hsu) as Hfile. unfold tx_readPage. destruct (tx_byID tx !! p) as [raw|] eqn:E.
  - assert (Hs : staged tx p) by by eexists. apply (txn_staged _ Hok) in Hs as [_ Hwr]. apply (writable_range _ _ Hok) in Hwr.
    apply (w_byID _ _ Hw) in E. split; [lia|]. exists raw. split; [by apply (Hpages (p, raw))|].
    pose proof (w_pages _ _ Hw) as Hd. rewrite Forall_forall in Hd. destruct (Hd _ E) as [_ Hdec]. cbn in Hdec.
    by destruct (decodePageView raw p).
  - destruct Hp as [[raw Hs]|Hp]; [congruence|]. rewrite Hfile in Hp |- *.
    destruct (kept_old f advance tx root id rootPage d Hf Hsu Hoff p (or_intror Hp)) as (H2 & raw & Hr & Ht).
    split; [done|]. exists raw. split; [done|]. rewrite <- Ht. unfold tx_readPage. cbn [snapshot tx_byID tx_file]. by rewrite lookup_empty.
Qed.

Lemma crash_kept src d pending d' :
  Forall (fun p => p.1 < 2) pending -> crash d pending d' -> kept src d -> kept src d'.
Proof.
  intros Hp (_ & Hread & _) Hk. apply (kept_mono src d); [done|]. intros p Hp2. apply Hread.
  intros (q & -> & Hin)%list_elem_of_fmap. rewrite Forall_forall in Hp. specialize (Hp _ Hin). lia.
Qed.

Lemma write_kept src d slot page : 0 <= slot < 2 -> kept src d -> kept src (write_page d slot page).
Proof. intros Hs Hk. apply (kept_mono src d); [done|]. intros p Hp. apply read_write_ne; lia. Qed.

(** What a crash during an update leaves. *)
Lemma update_crash io f advance build tr d :
  file_ok f -> build_ok f advance build -> 0 <= advance < 2 ^ 64 ->
  let '(outcome, f', trace) := updateUnlockedAdvance io f advance build in
  tr `prefix_of` trace -> crash (settled (f_file f) tr).1 (settled (f_file f) tr).2 d ->
  (outcome = None -> tr = trace -> exists tx root id, stageUpdate f advance build = Ok (tx, root, id) /\
     f_meta f' = publishedMeta f tx root id /\ f_root f' = root /\ recovers d (f_meta f') (f_root f') tx) /\
  (recovers d (f_meta f) (f_root f) (snapshot f) \/
   exists tx root id, stageUpdate f advance build = Ok (tx, root, id) /\
     (length (dataEvents (tx_pages tx)) < length tr)%nat /\ recovers d (publishedMeta f tx root id) root tx).
Proof.
  intros Hf Hb Ha. destruct (stageUpdate f advance build) as [[[tx root] id]|e] eqn:Hst.
  2: { unfold updateUnlockedAdvance. rewrite Hst. intros ->%prefix_nil_inv Hc. split; [done|]. left.
       eapply opens_at_recovers; [eapply crash_settled; [exact Hc|apply Hf]|].
       eapply crash_kept; [constructor|exact Hc|by apply kept_snapshot]. }
  destruct (stageUpdate_ok f advance build tx root id Hf Ha Hb Hst) as [rootPage Hsu].
  pose proof (update_cases io f advance build tx root id Hst) as Hcases.
  destruct (updateUnlockedAdvance io f advance build) as [[outcome f'] trace].
  assert (Hdata : tr `prefix_of` dataEvents (tx_pages tx) -> crash (settled (f_file f) tr).1 (settled (f_file f) tr).2 d ->
    recovers d (f_meta f) (f_root f) (snapshot f)).
  { intros Ht Hc. assert (Hoff : off_pages f tx d) by by eapply crash_data.
    eapply opens_at_recovers; [by eapply off_pages_old|by eapply kept_old]. }
  destruct Hcases as [(Ho & Htrace & _)|(encoded & Hem & Hcases)].
  { intros Ht Hc. split; [done|]. left. apply Hdata; [by etransitivity|done]. }
  assert (Hall : trace `prefix_of` (dataEvents (tx_pages tx) ++ [WriteAt (1 - f_metaSlot f) encoded]) ++ [Sync]).
  { destruct Hcases as [(_ & (k & -> & [k' Hk]) & _)|(_ & -> & _)]; [exists k'|exists []]; cbn;
      rewrite <- !app_assoc; [by rewrite <- Hk|done]. }
  intros Ht Hc. pose proof (write_pages_durable f advance tx root id rootPage Hf Hsu) as Hdur.
  pose proof (oa_slot _ _ _ _ (fo_opens _ Hf)) as Hslot.
  assert (Hnew : tr = (dataEvents (tx_pages tx) ++ [WriteAt (1 - f_metaSlot f) encoded]) ++ [Sync] ->
    recovers d (publishedMeta f tx root id) root tx).
  { intros ->. rewrite settled_app, settled_app, settled_data in Hc. cbn in Hc. eapply opens_at_recovers.
    - eapply crash_settled; [exact Hc|]. eapply durable_new; [done|apply Ha|done|done|done].
    - eapply crash_kept; [constructor|exact Hc|]. apply write_kept; [lia|by eapply kept_new]. }
  split.
  { intros -> ->. destruct Hcases as [(? & _)|(_ & -> & ->)]; [done|]. exists tx, root, id. cbn.
    split; [done|]. split; [done|]. split; [done|]. apply Hnew. by rewrite <- app_assoc. }
  assert (Htr : tr `prefix_of` (dataEvents (tx_pages tx) ++ [WriteAt (1 - f_metaSlot f) encoded]) ++ [Sync]) by by etransitivity.
  apply prefix_snoc_inv in Htr as [Htr|Htr].
  - apply prefix_snoc_inv in Htr as [Htr| ->]; [left; by apply Hdata|].
    rewrite settled_app, settled_data in Hc. cbn in Hc.
    assert (Hpend : Forall (fun p : Z * bytes => p.1 < 2) [(1 - f_metaSlot f, encoded)]) by (repeat constructor; cbn; lia).
    destruct (crash_meta f advance tx root id rootPage Hf ltac:(lia) Hsu encoded Hem _ d Hdur Hc) as [Ho|Ho].
    + left. eapply opens_at_recovers; [exact Ho|]. eapply crash_kept; [exact Hpend|exact Hc|]. eapply kept_old; [done|done|apply Hdur].
    + right. exists tx, root, id. split; [done|]. split; [rewrite length_app; cbn; lia|].
      eapply opens_at_recovers; [exact Ho|]. eapply crash_kept; [exact Hpend|exact Hc|by eapply kept_new].
  - right. exists tx, root, id. split; [done|]. split; [rewrite Htr, !length_app; cbn; lia|by apply Hnew].
Qed.

(** C2: whatever prefix of an update's writes and syncs a crash cuts off, and
    whatever it leaves of the writes no sync covered, the file opens: at the old
    version with every tree it had, or, once the metadata write has begun, at the
    new one with every tree the transaction held; after a successful update it
    opens at the new version. *)
Theorem update_atomic io f advance build tr d :
  file_ok f -> build_ok f advance build -> 0 <= advance < 2 ^ 64 ->
  let '(outcome, f', trace) := updateUnlockedAdvance io f advance build in
  tr `prefix_of` trace -> crash (settled (f_file f) tr).1 (settled (f_file f) tr).2 d ->
  (outcome = None -> tr = trace -> exists tx root id, stageUpdate f advance build = Ok (tx, root, id) /\
     f_meta f' = publishedMeta f tx root id /\ f_root f' = root /\ recovers d (f_meta f') (f_root f') tx) /\
  (recovers d (f_meta f) (f_root f) (snapshot f) \/
   exists tx root id, stageUpdate f advance build = Ok (tx, root, id) /\
     (length (dataEvents (tx_pages tx)) < length tr)%nat /\ recovers d (publishedMeta f tx root id) root tx).
Proof. apply update_crash. Qed.

(** ** The file after an update *)

Lemma prefix_Forall {A} (P : A -> Prop) l1 l2 : l1 `prefix_of` l2 -> Forall P l2 -> Forall P l1.
Proof. intros [k ->] H. by apply Forall_app in H as [? _]. Qed.

Lemma prefix_NoDup {A} (l1 l2 : list A) : l1 `prefix_of` l2 -> NoDup l2 -> NoDup l1.
Proof. intros [k ->] H. by apply NoDup_app in H as [? _]. Qed.

Lemma published_file_ok f advance tx root id rootPage encoded :
  file_ok f -> 0 <= advance -> staged_update f advance tx root id rootPage ->
  EncodeMeta (publishedMeta f tx root id) = Ok encoded ->
  file_ok (publish f (write_page (write_pages (tx_pages tx) (f_file f)) (1 - f_metaSlot f) encoded) tx root
             (publishedMeta f tx root id) (1 - f_metaSlot f)).
Proof.
  intros Hf Ha Hsu Hem. pose proof (write_pages_durable f advance tx root id rootPage Hf Hsu) as Hdur.
  pose proof (su_written _ _ _ _ _ _ Hsu) as Hw. pose proof (w_ok _ _ Hw) as Hok.
  pose proof (su_file _ _ _ _ _ _ Hsu) as Hfile. pose proof (oa_slot _ _ _ _ (fo_opens _ Hf)).
  pose proof (txn_free_prefix _ Hok) as Hpre. destruct Hok as [Hn _ Hwd _ _ _ _ _ _]. rewrite Hfile in Hn, Hpre. pose proof Hdur as (_ & Hnext & _).
  constructor; cbn.
  - by eapply durable_new.
  - rewrite length_write by lia. lia.
  - done.
  - done.
  - eapply Forall_impl; [eapply prefix_Forall; [exact Hpre|apply (fo_free _ Hf)]|]. cbn. lia.
  - eapply prefix_NoDup; [exact Hpre|apply (fo_NoDup _ Hf)].
  - pose proof (prefix_length _ _ Hpre). pose proof (fo_length _ Hf). unfold zlen in *. lia.
  - intros _. apply (w_unused _ _ Hw). apply list_elem_of_fmap. exists (id, rootPage). split; [done|].
    apply (su_page _ _ _ _ _ _ Hsu).
  - apply Hf.
Qed.

Lemma off_pages_file_ok f tx advance root id rootPage :
  file_ok f -> staged_update f advance tx root id rootPage ->
  file_ok (with_file f (write_pages (tx_pages tx) (f_file f))).
Proof.
  intros Hf Hsu. pose proof (off_pages_write f advance tx root id rootPage Hsu) as Hoff.
  destruct Hf as [Ho Hn Hw Hc Hfr Hnd Hl Hr Hm] eqn:E. clear E. constructor; cbn; try done.
  - apply (off_pages_old f advance tx root id rootPage); [by constructor|done|done].
  - destruct Hoff. lia.
Qed.

(** The cases of an update. *)
Lemma update_outcome_cases io f advance build :
  file_ok f -> build_ok f advance build -> 0 <= advance < 2 ^ 64 ->
  let '(outcome, f', trace) := updateUnlockedAdvance io f advance build in
  match outcome with
  | None =>
      file_ok f' /\ f_fatalErr f' = None /\ Generation (f_meta f') = Generation (f_meta f) + 1 /\
      CommitSequence (f_meta f') = CommitSequence (f_meta f) + advance /\ f_metaSlot f' = 1 - f_metaSlot f /\
      DatabaseID (f_meta f') = DatabaseID (f_meta f)
  | Some _ =>
      f_meta f' = f_meta f /\ f_root f' = f_root f /\
      (file_ok f' \/
       exists e, f_fatalErr f' = Some e /\
         forall io' advance' build', updateUnlockedAdvance io' f' advance' build' = (Some e, f', []))
  end.
Proof.
  intros Hf Hb Ha. destruct (stageUpdate f advance build) as [[[tx root] id]|e] eqn:Hst.
  2: { unfold updateUnlockedAdvance. rewrite Hst. by repeat (split; [done|]); left. }
  destruct (stageUpdate_ok f advance build tx root id Hf Ha Hb Hst) as [rootPage Hsu].
  assert (Hnofatal : f_fatalErr f = None).
  { unfold stageUpdate, beginUpdate in Hst. by destruct (f_fatalErr f). }
  unfold updateUnlockedAdvance. rewrite Hst.
  assert (Hfail : forall d e, exists e', f_fatalErr (failCommit f d e) = Some e' /\
    forall io' advance' build', updateUnlockedAdvance io' (failCommit f d e) advance' build' = (Some e', failCommit f d e, [])).
  { intros d e. exists e. split; [done|]. intros. done. }
  pose proof (performIO_trace io (f_file f) [] (dataEvents (tx_pages tx))) as H1.
  destruct (performIO io (f_file f) [] (dataEvents (tx_pages tx))) as [[[] d1] tr1].
  2: { split; [done|]. split; [done|]. right. apply Hfail. }
  destruct H1 as [_ [_ ->]]; [done|]. rewrite apply_data.
  destruct (EncodeMeta (publishedMeta f tx root id)) as [encoded|e] eqn:Hem.
  2: { split; [done|]. split; [done|]. left. by eapply off_pages_file_ok. }
  pose proof (performIO_trace io (write_pages (tx_pages tx) (f_file f)) tr1
    [WriteAt (1 - f_metaSlot f) encoded; Sync]) as H2.
  destruct (performIO io (write_pages (tx_pages tx) (f_file f)) tr1 _) as [[[] d2] tr2].
  2: { split; [done|]. split; [done|]. right. apply Hfail. }
  destruct H2 as [_ [_ ->]]; [done|].
  split; [eapply published_file_ok; [done|apply Ha|done|done]|].
  split; [done|]. cbn. rewrite (su_generation _ _ _ _ _ _ Hsu), (su_sequence _ _ _ _ _ _ Hsu). done.
Qed.

(** C8: a successful update leaves a file in order, one generation and [advance]
    commits further, in the other metadata slot; a failed one keeps the version,
    and either leaves the file in order or refuses every later update without
    touching the file. *)
Theorem update_outcome io f advance build :
  file_ok f -> build_ok f advance build -> 0 <= advance < 2 ^ 64 ->
  let '(outcome, f', trace) := updateUnlockedAdvance io f advance build in
  match outcome with
  | None =>
      file_ok f' /\ f_fatalErr f' = None /\ Generation (f_meta f') = Generation (f_meta f) + 1 /\
      CommitSequence (f_meta f') = CommitSequence (f_meta f) + advance /\ f_metaSlot f' = 1 - f_metaSlot f /\
      DatabaseID (f_meta f') = DatabaseID (f_meta f)
  | Some _ =>
      f_meta f' = f_meta f /\ f_root f' = f_root f /\
      (file_ok f' \/
       exists e, f_fatalErr f' = Some e /\
         forall io' advance' build', updateUnlockedAdvance io' f' advance' build' = (Some e, f', []))
  end.
Proof. apply update_outcome_cases. Qed.

Lemma available_range tx p : txn_ok tx -> txn_available tx p -> 2 <= p < tx_nextPage tx /\ ~ p ∈ tx_freePages tx.
Proof.
  intros Hok [Hs|[Hp Hnf]].
  - destruct (txn_staged _ Hok p Hs) as [Hnf Hwr]. split; [by apply writable_range|done].
  - split; [destruct Hok; lia|]. intros Hin. apply Hnf. eapply elem_of_prefix; [exact Hin|by apply txn_free_prefix].
Qed.

(** A transaction begins with the pages of its file. *)
Lemma begin_extends f advance tx : beginUpdate f advance = Ok tx -> extends (snapshot f) tx.
Proof.
  unfold beginUpdate. destruct (f_fatalErr f); [done|]. destruct (_ <? _); [done|]. destruct (_ || _); [done|].
  by intros <-%Ok_inj.
Qed.

(** Every page of the staged transaction, and every page of the old version that
    was not free, is in the new version as it was. *)
Lemma published_extends io f advance build tx root id f' trace :
  file_ok f -> build_ok f advance build -> 0 <= advance < 2 ^ 64 ->
  stageUpdate f advance build = Ok (tx, root, id) ->
  updateUnlockedAdvance io f advance build = (None, f', trace) -> f_root f' = root /\ extends tx (snapshot f').
Proof.
  intros Hf Hb Ha Hst Hup. destruct (stageUpdate_ok f advance build tx root id Hf Ha Hb Hst) as [rootPage Hsu].
  pose proof (update_cases io f advance build tx root id Hst) as Hcases. rewrite Hup in Hcases.
  destruct Hcases as [(? & _)|(encoded & Hem & [(? & _)|(_ & _ & Hf')])]; [done|done|]. split; [by rewrite Hf'|].
  assert (Hk : kept tx (f_file f')).
  { rewrite Hf'. cbn [publish f_file]. pose proof (oa_slot _ _ _ _ (fo_opens _ Hf)). apply write_kept; [lia|].
    eapply kept_new; [done|done|by eapply write_pages_durable]. }
  intros p Hp. destruct (available_range tx p (w_ok _ _ (su_written _ _ _ _ _ _ Hsu)) Hp) as [Hrange Hnf].
  destruct (Hk p Hp) as (_ & raw & Hr & Ht).
  assert (Hn : f_nextPage f' = tx_nextPage tx) by by rewrite Hf'.
  split; [right; cbn [snapshot tx_file]; split; [lia|by rewrite Hf']|].
  change (tx_readPage (snapshot f') p = tx_readPage tx p). rewrite Ht. apply snapshot_read; [lia|done].
Qed.

(** C14: the trees an update's transaction holds when it is published, those it
    wrote and those of the old version it did not free, are the trees readers of
    the new version see, and those the next transaction begins with. *)
Theorem update_durable io f advance build tx root id f' trace kind h page l :
  file_ok f -> build_ok f advance build -> 0 <= advance < 2 ^ 64 ->
  stageUpdate f advance build = Ok (tx, root, id) ->
  updateUnlockedAdvance io f advance build = (None, f', trace) -> stored kind tx h page l ->
  stored kind (snapshot f') h page l /\
  forall advance' tx', beginUpdate f' advance' = Ok tx' -> stored kind tx' h page l.
Proof.
  intros Hf Hb Ha Hst Hup Hs. destruct (published_extends io f advance build tx root id f' trace) as [_ He]; [done..|].
  apply (stored_extends _ _ _ _ _ _ He) in Hs. split; [done|].
  intros advance' tx' Hbegin. eapply stored_extends; [by eapply begin_extends|done].
Qed.
