(* ===== verification/TreeRead.v ===== *)
(** * Lookups by root page

    [treeGetUnlocked] and [validateTreeRootUnlocked] of
    [internal/storage/btree_read.go]: reading a committed tree page by page
    through views, without loading nodes. *)
From S2P Require Import Prelude Bytes Layout Hashes PageFormat Entries NodeCodec NodeView.
From S2P Require Import CowTree TreeShape TreeInvariant TreeRep TreeDelete TreeScan Tree Flush.
From S2P Require Import FileStore Recovery Commit Atomicity.
From stdpp Require Import gmap.
#[local] Open Scope Z_scope.

Section Read.
Variables (f : File) (kind : TreeKind).

(** The view of a page of the tree. *)
Definition read_view (pageID : Z) : result treeNodeView :=
  let* (_, page) := readDataPageUnlocked f pageID in
  if negb (accepts kind (page_Type page)) then Err ErrCorrupt else decodeTreeNodeView page.

Definition validateTreeRootUnlocked (rootPage : Z) : result unit :=
  if rootPage =? 0 then Ok tt
  else if rootPage <? 2 then Err ErrCorrupt
  else
    let* _ := read_view rootPage in
    Ok tt.

Definition view_search (view : treeNodeView) (key : bytes) : nat :=
  sort_Search (Z.to_nat (view_count view)) (fun index =>
    match view_entry view (Z.of_nat index) with
    | Ok (candidate, _, _, _) => negb (bltb candidate key)
    | Err _ => negb (bltb [] key)
    end).

Fixpoint treeGetLoop (fuel : nat) (pageID : Z) (key : bytes) : result (option bytes) :=
  match fuel with
  | O => Err ErrFuel
  | S fuel =>
      let* view := read_view pageID in
      let position := Z.of_nat (view_search view key) in
      if view_leaf view then
        if view_count view <=? position then Ok None
        else
          let* (candidate, value, _, _) := view_entry view position in
          if negb (beqb candidate key) then Ok None else Ok (Some value)
      else
        let* position :=
          if position <? view_count view then
            let* (candidate, _, _, _) := view_entry view position in
            Ok (if beqb candidate key then position + 1 else position)
          else Ok position in
        let* (pageID, _) := view_child view position in
        treeGetLoop fuel pageID key
  end.

Definition treeGetUnlocked (fuel : nat) (rootPage : Z) (key : bytes) : result (option bytes) :=
  if rootPage =? 0 then Ok None
  else if beqb key [] then Err ErrCorrupt
  else treeGetLoop fuel rootPage key.

(** ** Views of a tree's pages *)

Lemma reference_view pageID node :
  reference (snapshot f) kind pageID = Ok node -> Forall key_ok (node_keys node) ->
  exists view, read_view pageID = Ok view /\ views view node.
Proof.
  unfold reference, read_view. change (readPage (snapshot f) pageID) with (tx_readPage (snapshot f) pageID).
  unfold tx_readPage. cbn [snapshot tx_byID tx_file]. rewrite lookup_empty. intros Hr Hk.
  destruct (_ || _) in Hr; [done|]. destruct (readDataPageUnlocked f pageID) as [[raw page]|] eqn:Er; [|done].
  cbn [rbind fst] in *. unfold readDataPageUnlocked in Er. destruct (_ || _) in Er; [done|]. inv_ok.
  injection Er as -> ->. change (decodePageView raw pageID) with (DecodePage raw pageID) in *.
  rewrite Hok0 in Hr. destruct (accepts kind (page_Type page)); [|done]. cbn [negb].
  destruct (decodeTreeNode page) as [n|] eqn:Ed; [|done]. injection Hr as ->.
  assert (Hs : Forall (fun key => zlen key <= maxKey) (node_keys node)).
  { eapply Forall_impl; [exact Hk|]. by intros k [_ ?]. }
  exact (decodeTreeNodeView_page page node Ed Hs).
Qed.

Lemma view_search_position view node key :
  views view node -> view_search view key = key_position (node_keys node) key.
Proof.
  intros Hv. unfold view_search, key_position. rewrite (vw_count _ _ Hv).
  replace (Z.to_nat (zlen (node_keys node))) with (length (node_keys node)) by (unfold zlen; lia).
  apply sort_Search_ext. intros i Hi. destruct (lookup_lt_is_Some_2 _ _ Hi) as [k Hk]. rewrite Hk.
  by destruct (vw_key _ _ Hv i k Hk) as (v & c & n & -> & _).
Qed.

(** ** The loop follows [getBorrowed] *)

Lemma child_position_le keys key : (child_position keys key <= length keys)%nat.
Proof.
  unfold child_position, key_at. destruct (keys !! key_position keys key) as [k|] eqn:E; [|apply sort_Search_le].
  apply lookup_lt_Some in E. destruct (beqb k key); lia.
Qed.

Lemma view_child_position view node key :
  views view node -> node_leaf node = false ->
  (if Z.of_nat (view_search view key) <? view_count view then
     let* (candidate, _, _, _) := view_entry view (Z.of_nat (view_search view key)) in
     Ok (if beqb candidate key then Z.of_nat (view_search view key) + 1 else Z.of_nat (view_search view key))
   else Ok (Z.of_nat (view_search view key))) = Ok (Z.of_nat (child_position (node_keys node) key)).
Proof.
  intros Hv _. rewrite (view_search_position _ _ _ Hv), (vw_count _ _ Hv). unfold child_position, key_at, zlen.
  set (position := key_position (node_keys node) key).
  destruct (node_keys node !! position) as [k|] eqn:Hk.
  - pose proof (lookup_lt_Some _ _ _ Hk). destruct (vw_key _ _ Hv position k Hk) as (v & c & n & -> & _). cbn [rbind].
    destruct (Z.ltb_spec (Z.of_nat position) (Z.of_nat (length (node_keys node)))); [|lia].
    destruct (beqb k key); [|done]. f_equal. lia.
  - apply lookup_ge_None in Hk. by destruct (Z.ltb_spec (Z.of_nat position) (Z.of_nat (length (node_keys node)))); [lia|].
Qed.

Lemma treeGetLoop_leaf view node key fuel pageID :
  read_view pageID = Ok view -> views view node -> node_leaf node = true -> node_shape node ->
  treeGetLoop (S fuel) pageID key =
    if key_at (node_keys node) (key_position (node_keys node) key) key
    then match node_values node !! key_position (node_keys node) key with Some v => Ok (Some v) | None => Err ErrPanic end
    else Ok None.
Proof.
  intros Hr Hv Hl Hs. cbn [treeGetLoop]. rewrite Hr. cbn [rbind]. rewrite (vw_leaf _ _ Hv), Hl.
  rewrite (view_search_position _ _ _ Hv), (vw_count _ _ Hv). unfold key_at, zlen.
  set (position := key_position (node_keys node) key). destruct (node_keys node !! position) as [k|] eqn:Hk.
  - pose proof (lookup_lt_Some _ _ _ Hk). destruct (vw_key _ _ Hv position k Hk) as (v & c & n & -> & Hval). cbn [rbind].
    destruct (Z.leb_spec (Z.of_nat (length (node_keys node))) (Z.of_nat position)); [lia|].
    destruct (beqb k key); cbn [negb]; [|done]. by rewrite (Hval Hl).
  - apply lookup_ge_None in Hk. by destruct (Z.leb_spec (Z.of_nat (length (node_keys node))) (Z.of_nat position)); [|lia].
Qed.

(** An unloaded reference to a tree, as its page. *)
Lemma load_page pageID count node :
  load (snapshot f) kind (mk_ref pageID count None) = Ok node -> reference (snapshot f) kind pageID = Ok node.
Proof.
  unfold load. cbn [ref_node ref_pageID ref_count]. intros Hl. inv_ok. destruct (negb _) in Hl; [done|]. by injection Hl as <-.
Qed.

Lemma reference_children pageID node child :
  reference (snapshot f) kind pageID = Ok node -> child ∈ node_children node -> ref_node child = None.
Proof.
  unfold reference. intros Hr Hin. inv_ok. destruct (DecodePage a pageID) as [page|]; [|done].
  destruct (accepts kind _); [|done]. destruct (decodeTreeNode page) as [n|] eqn:Ed; [|done]. injection Hr as ->.
  destruct (decodeTreeNode_children page node Ed) as [E|(left & count & es & E)]; rewrite E in Hin; [by apply elem_of_nil in Hin|].
  apply elem_of_cons in Hin as [->|Hin]; [done|]. apply list_elem_of_fmap in Hin as ([k [v|c m]] & -> & _); done.
Qed.

Lemma treeGetLoop_correct h pageID count l key fuel :
  rep (snapshot f) kind h (mk_ref pageID count None) l -> (h < fuel)%nat ->
  treeGetLoop fuel pageID key = getBorrowed (snapshot f) kind fuel (mk_ref pageID count None) key.
Proof.
  revert pageID count l fuel; induction h as [|h IH]; intros pageID count l [|fuel] Hr Hf; try lia;
    apply rep_holds in Hr as (node & Hload & _ & Hh & _); pose proof (load_page _ _ _ Hload) as Href;
    pose proof Hh as (_ & Hshape & Hkeys & Hmatch);
    destruct (reference_view pageID node Href Hkeys) as (view & Hview & Hv).
  - destruct Hmatch as (Hl & _). rewrite (treeGetLoop_leaf view node) by done. cbn [getBorrowed].
    rewrite Hload. cbn [rbind]. by rewrite Hl.
  - destruct Hmatch as (Hl & ls & _ & Hls & _). cbn [treeGetLoop getBorrowed]. rewrite Hview, Hload. cbn [rbind].
    rewrite (vw_leaf _ _ Hv), Hl, (view_child_position view node key Hv Hl). cbn [rbind].
    destruct (node_children node !! child_position (node_keys node) key) as [child|] eqn:Hc.
    + rewrite (vw_child _ _ Hv _ child Hl Hc). cbn [rbind].
      assert (Hn : ref_node child = None) by (eapply reference_children; [exact Href|by eapply list_elem_of_lookup_2]).
      destruct child as [p c o]. cbn in Hn. subst o. cbn [ref_pageID].
      destruct (Forall2_lookup_l _ _ _ _ _ Hls Hc) as (l0 & _ & Hrc). apply (IH p c l0); [done|lia].
    + exfalso. apply lookup_ge_None in Hc. unfold node_shape in Hshape. rewrite Hl in Hshape.
      pose proof (child_position_le (node_keys node) key). lia.
Qed.

(** A lookup by root page. *)
Lemma treeGetUnlocked_correct h rootPage l key fuel :
  (rootPage = 0 /\ l = []) \/ stored kind (snapshot f) h rootPage l -> file_ok f -> (h < fuel)%nat ->
  treeGetUnlocked fuel rootPage key = if beqb key [] && negb (rootPage =? 0) then Err ErrCorrupt else Ok (field l key).
Proof.
  intros Ht Hf Hfuel. unfold treeGetUnlocked. destruct Ht as [[-> ->]|[Hr Hs]].
  { cbn [Z.eqb negb]. by rewrite andb_false_r. }
  assert (Hid : 2 <= rootPage).
  { inversion Hs as [p c Ha _| |]; subst. destruct (kept_snapshot f Hf rootPage Ha) as [? _]. done. }
  destruct (Z.eqb_spec rootPage 0); [lia|]. cbn [negb]. rewrite andb_true_r. destruct (beqb key []); [done|].
  rewrite (treeGetLoop_correct h rootPage (zlen l) l) by done. by eapply getBorrowed_correct.
Qed.

(** looking a key up by the page of a committed tree gives the binding of
    the key in the map the tree holds; page zero is the empty tree, and an empty
    key is refused in any other. *)
Theorem treeGetUnlocked_refines h rootPage l key fuel :
  (rootPage = 0 /\ l = []) \/ stored kind (snapshot f) h rootPage l -> file_ok f -> (h < fuel)%nat ->
  treeGetUnlocked fuel rootPage key = if beqb key [] && negb (rootPage =? 0) then Err ErrCorrupt else Ok (field l key).
Proof. apply treeGetUnlocked_correct. Qed.
End Read.
