(* ===== verification/Iterator.v ===== *)
(** * Lazy tree scans

    [TreeIterator] of [internal/storage/btree_iterator.go]: a stack of branch
    positions over a leaf position. [Next] reads pages of the file as it is when
    it is called, so other transactions may commit between two calls. *)
From S2P Require Import Prelude Bytes Layout Hashes PageFormat Entries NodeCodec NodeView.
From S2P Require Import CowTree TreeShape TreeInvariant TreeRep TreeScan Flush.
From S2P Require Import FileStore Recovery Commit Atomicity TreeRead.
From stdpp Require Import gmap.
#[local] Open Scope Z_scope.

Definition maxTreeIteratorDepth : nat := 64.

Record treeIteratorFrame := mk_frame { frame_view : treeNodeView; frame_childIndex : Z }.

(** Where an iterator stands; the branch visited last comes first. *)
Record position := mk_position {
  at_branches : list treeIteratorFrame;
  at_leaf : treeNodeView;
  at_leafIndex : Z }.

Record TreeIterator := mk_iterator {
  it_rootPage : Z;
  it_kind : TreeKind;
  it_start : bytes;
  it_end : bytes;
  it_remaining : Z;
  it_initialized : bool;
  it_done : bool;
  it_closed : bool;
  it_err : option gerror;
  it_at : position;
  it_key : bytes;
  it_value : bytes }.

Definition set_at (it : TreeIterator) (p : position) : TreeIterator :=
  mk_iterator (it_rootPage it) (it_kind it) (it_start it) (it_end it) (it_remaining it) (it_initialized it) (it_done it)
    (it_closed it) (it_err it) p (it_key it) (it_value it).
Definition set_err (it : TreeIterator) (e : gerror) : TreeIterator :=
  mk_iterator (it_rootPage it) (it_kind it) (it_start it) (it_end it) (it_remaining it) (it_initialized it) (it_done it)
    (it_closed it) (Some e) (it_at it) (it_key it) (it_value it).
Definition set_done (it : TreeIterator) : TreeIterator :=
  mk_iterator (it_rootPage it) (it_kind it) (it_start it) (it_end it) (it_remaining it) (it_initialized it) true
    (it_closed it) (it_err it) (it_at it) (it_key it) (it_value it).
Definition set_initialized (it : TreeIterator) : TreeIterator :=
  mk_iterator (it_rootPage it) (it_kind it) (it_start it) (it_end it) (it_remaining it) true (it_done it)
    (it_closed it) (it_err it) (it_at it) (it_key it) (it_value it).
Definition set_entry (it : TreeIterator) (key value : bytes) : TreeIterator :=
  mk_iterator (it_rootPage it) (it_kind it) (it_start it) (it_end it) (it_remaining it) (it_initialized it) (it_done it)
    (it_closed it) (it_err it) (it_at it) key value.
(** An entry is shown: the limit counts down and ends the scan at zero. *)
Definition count_down (it : TreeIterator) : TreeIterator :=
  if 0 <? it_remaining it then
    mk_iterator (it_rootPage it) (it_kind it) (it_start it) (it_end it) (it_remaining it - 1) (it_initialized it)
      (it_done it || (it_remaining it - 1 =? 0)) (it_closed it) (it_err it) (it_at it) (it_key it) (it_value it)
  else it.

Definition no_view : treeNodeView := mk_view [] false 0 0.
Definition no_position : position := mk_position [] no_view 0.

Definition newTreeIterator (rootPage : Z) (kind : TreeKind) (start end_ : bytes) (limit : Z) : result TreeIterator :=
  if (0 <? zlen start) && (0 <? zlen end_) && bltb end_ start then Err ErrCorrupt
  else Ok (mk_iterator rootPage kind start end_ limit false
             ((rootPage =? 0) || ((0 <? zlen start) && (0 <? zlen end_) && beqb start end_)) false None no_position [] []).

(** [sort.Search] with a predicate that may record an error. *)
Fixpoint searchLoopErr (fuel : nat) (f : nat -> bool * option gerror) (i j : nat) (err : option gerror) : nat * option gerror :=
  match fuel with
  | O => (i, err)
  | S fuel =>
      if (i <? j)%nat then
        let h := ((i + j) / 2)%nat in
        let (found, e) := f h in
        let err := match e with Some e => Some e | None => err end in
        if negb found then searchLoopErr fuel f (h + 1) j err else searchLoopErr fuel f i h err
      else (i, err)
  end.

(** The first index whose key passes [p]. *)
Definition seek_index (view : treeNodeView) (p : bytes -> bool) : nat * option gerror :=
  let n := Z.to_nat (view_count view) in
  searchLoopErr n (fun index =>
    match view_entry view (Z.of_nat index) with
    | Ok (key, _, _, _) => (p key, None)
    | Err e => (true, Some e)
    end) 0 n None.

Section Iterator.
Variables (f : File) (kind : TreeKind).

(** [seek] is empty where the code passes [useSeek] false. Each turn pushes a
    frame and the depth is bounded, so the fuel [maxTreeIteratorDepth + 1] is
    never used up. *)
Fixpoint descendLoop (fuel : nat) (p : position) (pageID : Z) (seek : bytes) : position * option gerror :=
  match fuel with
  | O => (p, Some ErrFuel)
  | S fuel =>
      if (maxTreeIteratorDepth <=? length (at_branches p))%nat then (p, Some ErrCorrupt)
      else
        match read_view f kind pageID with
        | Err e => (p, Some e)
        | Ok view =>
            if view_leaf view then
              let (leafIndex, err) := if 0 <? zlen seek then seek_index view (fun key => negb (bltb key seek)) else (O, None) in
              (mk_position (at_branches p) view (Z.of_nat leafIndex), err)
            else
              let (childIndex, err) := if 0 <? zlen seek then seek_index view (fun key => bltb seek key) else (O, None) in
              match err with
              | Some e => (p, Some e)
              | None =>
                  match view_child view (Z.of_nat childIndex) with
                  | Err e => (p, Some e)
                  | Ok (childPage, _) =>
                      descendLoop fuel
                        (mk_position (mk_frame view (Z.of_nat childIndex) :: at_branches p) (at_leaf p) (at_leafIndex p))
                        childPage seek
                  end
              end
        end
  end.

Definition descendUnlocked (p : position) (pageID : Z) (seek : bytes) : position * option gerror :=
  descendLoop (S maxTreeIteratorDepth) p pageID seek.

(** What is left of the stack, and whether a leaf was found; no error and no leaf
    is the end of the scan. *)
Fixpoint advanceFrames (branches : list treeIteratorFrame) (p : position) : position * option gerror * bool :=
  match branches with
  | [] => (mk_position [] (at_leaf p) (at_leafIndex p), None, false)
  | frame :: rest =>
      if frame_childIndex frame <? view_count (frame_view frame) then
        let frame := mk_frame (frame_view frame) (frame_childIndex frame + 1) in
        let p := mk_position (frame :: rest) (at_leaf p) (at_leafIndex p) in
        match view_child (frame_view frame) (frame_childIndex frame) with
        | Err e => (p, Some e, false)
        | Ok (pageID, _) =>
            let (p, err) := descendUnlocked p pageID [] in
            (p, err, match err with Some _ => false | None => true end)
        end
      else advanceFrames rest p
  end.

Definition advanceLeafUnlocked (it : TreeIterator) : bool * TreeIterator :=
  let '(p, err, found) := advanceFrames (at_branches (it_at it)) (it_at it) in
  match err with
  | Some e => (false, set_err (set_at it p) e)
  | None => if found then (true, set_at it p) else (false, set_done (set_at it p))
  end.

(** [None] is out of fuel: the loop goes on over leaves without entries. *)
Fixpoint nextLoop (fuel : nat) (it : TreeIterator) : option (bool * TreeIterator) :=
  match fuel with
  | O => None
  | S fuel =>
      let p := it_at it in
      if at_leafIndex p <? view_count (at_leaf p) then
        match view_entry (at_leaf p) (at_leafIndex p) with
        | Err e => Some (false, set_err it e)
        | Ok (key, value, _, _) =>
            let it := set_at it (mk_position (at_branches p) (at_leaf p) (at_leafIndex p + 1)) in
            if (0 <? zlen (it_end it)) && negb (bltb key (it_end it)) then Some (false, set_done it)
            else Some (true, count_down (set_entry it key value))
        end
      else
        let (found, it) := advanceLeafUnlocked it in
        if found then nextLoop fuel it else Some (false, it)
  end.

Definition nextUnlocked (fuel : nat) (it : TreeIterator) : option (bool * TreeIterator) :=
  if it_initialized it then nextLoop fuel it
  else
    let it := set_initialized it in
    let (p, err) := descendUnlocked (it_at it) (it_rootPage it) (it_start it) in
    match err with
    | Some e => Some (false, set_err (set_at it p) e)
    | None => nextLoop fuel (set_at it p)
    end.
End Iterator.

(** [None] for a file that was closed. *)
Definition Next (fuel : nat) (f : option File) (it : TreeIterator) : option (bool * TreeIterator) :=
  if it_closed it || it_done it || (match it_err it with Some _ => true | None => false end) then Some (false, it)
  else
    let it := set_entry it [] [] in
    match f with
    | None => Some (false, set_err it ErrClosed)
    | Some f => nextUnlocked f (it_kind it) fuel it
    end.

Definition Close (it : TreeIterator) : TreeIterator :=
  if it_closed it then it
  else mk_iterator (it_rootPage it) (it_kind it) (it_start it) (it_end it) (it_remaining it) (it_initialized it) true
    true (it_err it) (mk_position [] no_view (at_leafIndex (it_at it))) [] [].

(** ** Every call ends *)

(** The children left to visit, in base 2^16 with the outermost branch first. *)
Definition frame_rest (frame : treeIteratorFrame) : Z := Z.max 0 (view_count (frame_view frame) - frame_childIndex frame).

Definition weight (depth : nat) : Z := 2 ^ (16 * (64 - Z.of_nat depth)).

Fixpoint measure (branches : list treeIteratorFrame) : Z :=
  match branches with
  | [] => 0
  | frame :: rest => frame_rest frame * weight (length rest) + measure rest
  end.

Lemma weight_pos depth : (depth <= 64)%nat -> 0 < weight depth.
Proof. intros H. apply Z.pow_pos_nonneg; lia. Qed.

Lemma weight_nonneg depth : 0 <= weight depth.
Proof. apply Z.pow_nonneg. lia. Qed.

Lemma weight_S depth : (depth < 64)%nat -> weight depth = 65536 * weight (S depth).
Proof.
  intros H. unfold weight. change 65536 with (2 ^ 16). rewrite <- Z.pow_add_r by lia. f_equal. lia.
Qed.

Lemma measure_nonneg branches : 0 <= measure branches.
Proof.
  induction branches as [|frame rest IH]; cbn [measure]; [lia|]. pose proof (weight_nonneg (length rest)).
  unfold frame_rest. nia.
Qed.

Lemma read_view_count f kind pageID view : read_view f kind pageID = Ok view -> view_count view < 65536.
Proof.
  unfold read_view. intros Hr. inv_ok. destruct a as [raw page]. destruct (negb _) in Hr; [done|].
  unfold decodeTreeNodeView in Hr. destruct (_ || _) eqn:E in Hr; [done|]. destruct (_ || _) eqn:E2 in Hr; [done|].
  inv_ok. destruct (checkKeys _ _ _ _ _) in Hr; [|done]. injection Hr as <-. breflect. cbn [view_count] in *. lia.
Qed.

Section Ends.
Variables (f : File) (kind : TreeKind).

Lemma descendLoop_measure fuel p pageID seek p' :
  descendLoop f kind fuel p pageID seek = (p', None) ->
  (length (at_branches p) < 64)%nat /\ measure (at_branches p') < measure (at_branches p) + 65536 * weight (length (at_branches p)).
Proof.
  revert p pageID; induction fuel as [|fuel IH]; intros p pageID; cbn [descendLoop]; [done|].
  destruct (Nat.leb_spec maxTreeIteratorDepth (length (at_branches p))) as [|Hd]; [done|]. unfold maxTreeIteratorDepth in Hd.
  pose proof (weight_pos (length (at_branches p)) ltac:(lia)) as Hw.
  destruct (read_view f kind pageID) as [view|] eqn:Hv; [|done]. apply read_view_count in Hv.
  destruct (view_leaf view).
  - destruct (if 0 <? zlen seek then _ else _) as [leafIndex err]. intros [= <- ->]. cbn [at_branches]. split; [done|lia].
  - destruct (if 0 <? zlen seek then _ else _) as [childIndex err]. destruct err; [done|].
    destruct (view_child view _) as [[childPage c]|]; [|done]. intros [H1 H2]%IH. cbn [at_branches length measure] in *.
    split; [done|]. rewrite (weight_S (length (at_branches p))) in * by lia. set (w := weight (S (length (at_branches p)))) in *.
    assert (frame_rest (mk_frame view (Z.of_nat childIndex)) <= 65535) by (unfold frame_rest; cbn; lia).
    assert (0 < w) by (apply weight_pos; lia). nia.
Qed.

Lemma advanceFrames_measure branches p p' err :
  advanceFrames f kind branches p = (p', err, true) -> measure (at_branches p') < measure branches.
Proof.
  induction branches as [|frame rest IH]; cbn [advanceFrames]; [done|].
  destruct (Z.ltb_spec (frame_childIndex frame) (view_count (frame_view frame))) as [Hlt|Hge].
  - destruct (view_child _ _) as [[pageID c]|]; [|done].
    destruct (descendUnlocked _ _ _ _ _) as [p1 [e|]] eqn:Hd; [done|]. intros [= <- <-]. unfold descendUnlocked in Hd.
    apply descendLoop_measure in Hd as [Hl Hd]. cbn [at_branches length measure] in *.
    rewrite (weight_S (length rest)) in * by lia. unfold frame_rest in *. cbn [frame_view frame_childIndex] in *.
    pose proof (weight_pos (S (length rest)) ltac:(lia)). nia.
  - intros H%IH. cbn [measure]. pose proof (weight_nonneg (length rest)). unfold frame_rest. nia.
Qed.

(** The fuel of [descendLoop] does not matter. *)
Lemma descendLoop_fuel fuel p pageID seek :
  (0 < fuel)%nat -> (64 < length (at_branches p) + fuel)%nat ->
  descendLoop f kind fuel p pageID seek = descendLoop f kind (S fuel) p pageID seek.
Proof.
  revert p pageID; induction fuel as [|fuel IH]; intros p pageID H0 Hf; [lia|]. cbn [descendLoop] in IH |- *.
  destruct (Nat.leb_spec maxTreeIteratorDepth (length (at_branches p))) as [|Hd]; [done|]. unfold maxTreeIteratorDepth in Hd.
  destruct (read_view f kind pageID) as [view|]; [|done]. destruct (view_leaf view); [done|].
  destruct (if 0 <? zlen seek then _ else _) as [childIndex [e|]]; [done|].
  destruct (view_child view _) as [[childPage c]|]; [|done]. apply IH; cbn [at_branches length]; lia.
Qed.

Lemma descendUnlocked_fuel fuel p pageID seek :
  (64 < fuel)%nat -> descendLoop f kind fuel p pageID seek = descendUnlocked f kind p pageID seek.
Proof.
  intros Hf. unfold descendUnlocked, maxTreeIteratorDepth. induction Hf as [|fuel Hf IH]; [done|].
  rewrite <- descendLoop_fuel by lia. exact IH.
Qed.

Lemma nextLoop_ends fuel it :
  (Z.to_nat (measure (at_branches (it_at it))) < fuel)%nat ->
  exists r, forall fuel', (fuel <= fuel')%nat -> nextLoop f kind fuel' it = Some r.
Proof.
  revert it; induction fuel as [|fuel IH]; intros it Hf; [lia|].
  assert (Hstep : exists r, (forall n, nextLoop f kind (S n) it = Some r) \/
    exists it1, (Z.to_nat (measure (at_branches (it_at it1))) < fuel)%nat /\ forall n, nextLoop f kind (S n) it = nextLoop f kind n it1).
  { cbn [nextLoop]. destruct (_ <? _).
    - destruct (view_entry _ _) as [[[[key value] c] n]|e]; [|eexists; by left].
      destruct (_ && _); eexists; by left.
    - unfold advanceLeafUnlocked. destruct (advanceFrames _ _ _ _) as [[p' err] found] eqn:Ha.
      destruct err as [e|]; [eexists; by left|]. destruct found; [|eexists; by left].
      exists (true, it). right. eexists. split; [|reflexivity]. cbn [it_at set_at].
      apply advanceFrames_measure in Ha. pose proof (measure_nonneg (at_branches p')). lia. }
  destruct Hstep as (r & [Hr|(it1 & Hm & Hr)]).
  - exists r. intros [|n] Hn; [lia|done].
  - destruct (IH it1 Hm) as [r' Hr']. exists r'. intros [|n] Hn; [lia|]. rewrite Hr. apply Hr'. lia.
Qed.
End Ends.

Lemma Next_ends f it : exists fuel r, forall fuel', (fuel <= fuel')%nat -> Next fuel' f it = Some r.
Proof.
  unfold Next. destruct (_ || _); [by exists O; eexists|]. destruct f as [f|]; [|by exists O; eexists].
  unfold nextUnlocked. destruct (it_initialized _).
  - destruct (nextLoop_ends f (it_kind it) _ (set_entry it [] []) (Nat.lt_succ_diag_r _)) as [r Hr]. by eexists _, r.
  - destruct (descendUnlocked _ _ _ _ _) as [p [e|]]; [by exists O; eexists|].
    destruct (nextLoop_ends f (it_kind it) _ (set_at (set_initialized (set_entry it [] [])) p) (Nat.lt_succ_diag_r _)) as [r Hr].
    by eexists _, r.
Qed.

(** ** What a scan shows *)

(** Searching with keys that can all be read. *)
Lemma searchLoopErr_ok fuel f g n i j err :
  (j <= n)%nat -> (forall a, a < n -> f a = (g a, None))%nat ->
  searchLoopErr fuel f i j err = (search_loop fuel g i j, err).
Proof.
  intros Hj Hfg. revert i j Hj; induction fuel as [|fuel IH]; intros i j Hj; cbn [searchLoopErr search_loop]; [done|].
  destruct (Nat.ltb_spec i j) as [Hlt|]; [|done].
  assert (Hh : ((i + j) / 2 < j)%nat) by (apply Nat.Div0.div_lt_upper_bound; lia).
  rewrite Hfg by lia. destruct (negb _); apply IH; lia.
Qed.

Lemma seek_index_views view node p :
  views view node ->
  seek_index view p =
    (sort_Search (length (node_keys node)) (fun i => match node_keys node !! i with Some k => p k | None => true end), None).
Proof.
  intros Hv. unfold seek_index, sort_Search. rewrite (vw_count _ _ Hv).
  replace (Z.to_nat (zlen (node_keys node))) with (length (node_keys node)) by (unfold zlen; lia).
  apply (searchLoopErr_ok _ _ _ (length (node_keys node))); [done|]. intros i Hi.
  destruct (lookup_lt_is_Some_2 _ _ Hi) as [k Hk]. rewrite Hk. by destruct (vw_key _ _ Hv i k Hk) as (v & c & n & -> & _).
Qed.

(** The entries from the start bound on. *)
Definition from_start (start : bytes) (e : KeyValue) : bool := beqb start [] || negb (bltb e.1 start).

Lemma filter_all {A} (p : A -> bool) l : Forall (fun x => p x = true) l -> List.filter p l = l.
Proof. induction 1 as [|x l Hx Hl IH]; [done|]. cbn. by rewrite Hx, IH. Qed.

Lemma from_start_after start (l : list KeyValue) k :
  ~ blt k start -> Forall (fun x => ~ blt x k) l.*1 -> List.filter (from_start start) l = l.
Proof.
  intros Hk Hl. apply filter_all. rewrite (Forall_fmap fst) in Hl. eapply Forall_impl; [exact Hl|]. intros e He.
  unfold from_start. apply orb_true_iff. right. apply negb_true_iff, bltb_ge. intros Hlt.
  cbn in He. apply Hk. destruct (blt_trichotomy k e.1) as [?|[E|?]]; [by trans e.1|by rewrite E|done].
Qed.

Lemma from_start_before start (l : list KeyValue) :
  start <> [] -> Forall (fun k => blt k start) l.*1 -> List.filter (from_start start) l = [].
Proof.
  intros Hs Hl. apply filter_none. rewrite (Forall_fmap fst) in Hl. eapply Forall_impl; [exact Hl|].
  intros e He. unfold from_start. destruct (beqb start []) eqn:E; [by apply beqb_eq in E|]. apply bltb_lt in He. cbn in He. by rewrite He.
Qed.

Lemma leaf_from_start start (l : list KeyValue) :
  sorted_keys l -> start <> [] -> drop (key_position l.*1 start) l = List.filter (from_start start) l.
Proof.
  intros Hs Hne. destruct (leaf_split l start Hs) as (l1 & l2 & -> & -> & H1 & Hcase).
  rewrite drop_app_length, filter_app_, (from_start_before start l1) by done. cbn [app]. symmetry. apply filter_all.
  assert (H2 : Forall (fun x => ~ blt x start) l2.*1).
  { destruct Hcase as [(v & l2' & -> & H2 & _)|[H2 _]].
    - cbn. constructor; [apply blt_irrefl|]. eapply Forall_impl; [exact H2|]. intros x Hx Hx'. by apply (blt_asym start x).
    - eapply Forall_impl; [exact H2|]. intros x Hx Hx'. by apply (blt_asym start x). }
  rewrite (Forall_fmap fst) in H2. eapply Forall_impl; [exact H2|]. intros e He. unfold from_start.
  apply orb_true_iff. right. by apply negb_true_iff, bltb_ge.
Qed.

(** The child a seek descends to, and the children after it. *)
Lemma branch_from_start start ls keys :
  chain None ls keys None -> start <> [] ->
  exists l, ls !! scan_position keys start = Some l /\
    List.filter (from_start start) (concat ls) =
    List.filter (from_start start) l ++ concat (drop (S (scan_position keys start)) ls).
Proof.
  intros Hch Hne. destruct (chain_keys_sorted _ _ _ _ Hch) as [Hks _].
  destruct (scan_position_split _ start Hks) as (ks1 & ks2 & Hk & -> & H1 & H2).
  pose proof (chain_length _ _ _ _ Hch) as Hlen. rewrite Hk, length_app in Hlen.
  destruct (lookup_lt_is_Some_2 ls (length ks1)) as [l Hl]; [lia|]. exists l. split; [done|].
  pose proof Hch as Hch'. rewrite Hk in Hch'.
  assert (exists ls1 ls2, ls = ls1 ++ l :: ls2 /\ length ls1 = length ks1) as (ls1 & ls2 & -> & Hlen1).
  { exists (take (length ks1) ls), (drop (S (length ks1)) ls). split; [by rewrite <- (drop_S _ _ _ Hl), take_drop|].
    rewrite length_take. lia. }
  rewrite <- Hlen1. rewrite cons_middle, app_assoc, drop_app_length'; [|rewrite length_app; cbn; lia].
  rewrite <- app_assoc. cbn [app]. rewrite concat_app. cbn [concat]. rewrite !filter_app_.
  rewrite Hk in Hch. rewrite (from_start_before start (concat ls1)); [|done|].
  - cbn [app]. f_equal. apply chain_hole in Hch as (m1 & m2 & _ & _ & Hr); [|done].
    destruct ls2 as [|l2 ls2]; [done|]. destruct ks2 as [|k ks2]; [done|]. destruct Hr as [_ Hr].
    apply chain_bounds in Hr. apply Forall_cons in H2 as [H2 _]. apply (from_start_after start _ k); [|exact Hr].
    intros Hx. by apply (blt_asym start k).
  - destruct ks1 as [|k ks1 _] using rev_ind; [by destruct ls1|]. rewrite length_app in Hlen1. cbn in Hlen1.
    rewrite <- app_assoc in Hch. cbn [app] in Hch. apply chain_app in Hch as [Hch _]; [|lia]. apply chain_below in Hch.
    apply Forall_app in H1 as [_ H1]. apply Forall_cons in H1 as [H1 _]. eapply Forall_impl; [exact Hch|]. intros x Hx. cbn in Hx.
    destruct (blt_trichotomy k start) as [?|[<-|?]]; [by trans k|done|done].
Qed.

(** The node behind a page of a committed tree. *)
Lemma stored_node f kind h pageID l :
  stored kind (snapshot f) h pageID l ->
  exists node, available (snapshot f) pageID /\ reference (snapshot f) kind pageID = Ok node /\ Forall key_ok (node_keys node) /\ node_shape node /\
    match h with
    | O => node_leaf node = true /\ node_keys node = l.*1 /\ node_values node = l.*2 /\ sorted_keys l
    | S h => node_leaf node = false /\ exists ls, l = concat ls /\ chain None ls (node_keys node) None /\
        Forall2 (fun child l => stored kind (snapshot f) h (ref_pageID child) l) (node_children node) ls
    end.
Proof.
  intros [Hr Hs]. apply rep_holds in Hr as (node & Hload & _ & Hh & _). pose proof (load_page _ _ _ _ _ Hload) as Href.
  pose proof Hh as (_ & Hshape & Hkeys & Hmatch). inversion Hs as [p c Ha Hc| |]; subst.
  exists node. do 4 (split; [done|]).
  destruct h as [|h]; [tauto|]. destruct Hmatch as (Hl & ls & -> & Hls & Hch). split; [done|]. exists ls. split; [done|]. split; [done|].
  specialize (Hc node Href).
  apply Forall2_same_length_lookup. split; [by eapply Forall2_length|]. intros i child l Hi Hli.
  pose proof (Forall2_lookup_lr _ _ _ _ _ _ Hls Hi Hli) as Hrc. rewrite Forall_lookup in Hc. specialize (Hc i child Hi).
  pose proof (rep_count _ _ _ _ _ Hrc) as Hcount.
  assert (Hn : ref_node child = None) by (eapply reference_children; [exact Href|by eapply list_elem_of_lookup_2]).
  destruct child as [p' c' o]. cbn in Hn, Hcount. subst o c'. by split.
Qed.

Section Scans.
Variables (f0 : File) (kind : TreeKind).

(** A version of the file in which the pages of [f0] are still there. *)
Definition later (f : File) : Prop := extends (snapshot f0) (snapshot f).

(** The entries the frames still have to visit; [h] is the height of a child of
    the last branch. *)
Inductive stack : nat -> list treeIteratorFrame -> list KeyValue -> Prop :=
| stack_root h : stack h [] []
| stack_branch h view i node rest ls l :
    views view node -> node_leaf node = false -> node_shape node -> (i < length (node_children node))%nat ->
    Forall2 (fun child l => stored kind (snapshot f0) h (ref_pageID child) l /\ l <> []) (drop (S i) (node_children node)) ls ->
    stack (S h) rest l -> stack h (mk_frame view (Z.of_nat i) :: rest) (concat ls ++ l).

(** The entries a position has still to show. *)
Definition pending (p : position) (l : list KeyValue) : Prop :=
  exists node es i l', views (at_leaf p) node /\ node_leaf node = true /\ node_keys node = es.*1 /\ node_values node = es.*2 /\
    at_leafIndex p = Z.of_nat i /\ (i <= length es)%nat /\ l = drop i es ++ l' /\
    stack 0 (at_branches p) l' /\ (length (at_branches p) < 64)%nat.

Definition at_entry (p : position) : Prop := at_leafIndex p < view_count (at_leaf p).

Lemma zlen_pos (b : bytes) : (0 <? zlen b) = negb (beqb b []).
Proof. destruct b as [|x b]; [done|]. rewrite zlen_cons. pose proof (zlen_nonneg b). destruct (Z.ltb_spec 0 (1 + zlen b)); [done|lia]. Qed.

Lemma pieces_nonempty lo ls keys hi : chain lo ls keys hi -> Forall (fun l => l <> []) ls.
Proof.
  revert lo keys; induction ls as [|l ls IH]; intros lo keys H; [constructor|].
  apply chain_right_cons in H as (mid & (Hne & _) & Hr). constructor; [done|].
  destruct ls as [|l' ls]; [constructor|]. destruct keys as [|k keys]; [done|]. destruct Hr as [_ Hr]. by eapply IH.
Qed.

(** Reading a page of [f0] later. *)
Lemma later_view f pageID node :
  later f -> available (snapshot f0) pageID -> reference (snapshot f0) kind pageID = Ok node -> Forall key_ok (node_keys node) ->
  exists view, read_view f kind pageID = Ok view /\ views view node.
Proof.
  intros Hlater Ha Hr Hk. apply (reference_view f kind pageID node); [|done]. rewrite <- Hr. unfold reference.
  by rewrite (proj2 (Hlater pageID Ha)).
Qed.

Lemma Forall2_Forall_both {A B} (P : A -> B -> Prop) (Q : B -> Prop) l k :
  Forall2 P l k -> Forall Q k -> Forall2 (fun a b => P a b /\ Q b) l k.
Proof. induction 1; intros Hq; [constructor|]. apply Forall_cons in Hq as [??]. by constructor; auto. Qed.

(** A descent ends at a leaf that shows the entries of the subtree from the bound. *)
Lemma descend_pending f h fuel p pageID seek l l' :
  later f -> stored kind (snapshot f0) h pageID l -> stack h (at_branches p) l' ->
  (length (at_branches p) + h < 64)%nat -> (h < fuel)%nat ->
  exists p', descendLoop f kind fuel p pageID seek = (p', None) /\
    pending p' (List.filter (from_start seek) l ++ l') /\ (seek = [] -> l <> [] -> at_entry p').
Proof.
  intros Hlater. revert fuel p pageID l l'; induction h as [|h IH]; intros [|fuel] p pageID l l' Hst Hk Hd Hf; try lia;
    cbn [descendLoop]; (destruct (Nat.leb_spec maxTreeIteratorDepth (length (at_branches p))) as [Hbad|_]; [unfold maxTreeIteratorDepth in Hbad; lia|]);
    destruct (stored_node f0 kind _ pageID l Hst) as (node & Ha & Hr & Hkeysok & Hshape & Hm);
    destruct (later_view f pageID node Hlater Ha Hr Hkeysok) as (view & -> & Hv).
  - destruct Hm as (Hl & Hkeys & Hvals & Hs). rewrite (vw_leaf _ _ Hv), Hl, (seek_index_views _ _ _ Hv).
    assert (Hlen : length (node_keys node) = length l) by (rewrite Hkeys; by rewrite length_fmap).
    assert (Hidx : exists i, (i <= length l)%nat /\ (if 0 <? zlen seek then (sort_Search (length (node_keys node))
        (fun i => match node_keys node !! i with Some k => negb (bltb k seek) | None => true end), None) else (O, @None gerror)) = (i, None) /\
        drop i l = List.filter (from_start seek) l /\ (seek = [] -> i = O)).
    { rewrite zlen_pos. destruct (beqb seek []) eqn:E; cbn [negb].
      - apply beqb_eq in E as ->. exists O. split; [lia|]. split; [done|]. split; [|done]. symmetry. apply filter_all, Forall_forall. done.
      - apply beqb_neq in E. eexists. split; [|split; [reflexivity|split; [|done]]].
        + rewrite <- Hlen. apply sort_Search_le.
        + rewrite Hkeys. by apply leaf_from_start. }
    destruct Hidx as (i & Hi & -> & Hdrop & Hi0). eexists. split; [reflexivity|]. split.
    + exists node, l, i, l'. cbn [at_leaf at_leafIndex at_branches]. rewrite Hdrop. do 8 (split; [done|]). lia.
    + intros -> Hne. unfold at_entry. cbn [at_leaf at_leafIndex]. rewrite (vw_count _ _ Hv), (Hi0 eq_refl). unfold zlen. rewrite Hlen.
      destruct l; [done|cbn; lia].
  - destruct Hm as (Hl & ls & -> & Hch & Hls). rewrite (vw_leaf _ _ Hv), Hl, (seek_index_views _ _ _ Hv).
    assert (Hidx : exists i l, ls !! i = Some l /\ (if 0 <? zlen seek then (sort_Search (length (node_keys node))
        (fun i => match node_keys node !! i with Some k => bltb seek k | None => true end), None) else (O, @None gerror)) = (i, None) /\
        List.filter (from_start seek) (concat ls) = List.filter (from_start seek) l ++ concat (drop (S i) ls)).
    { rewrite zlen_pos. destruct (beqb seek []) eqn:E; cbn [negb].
      - apply beqb_eq in E as ->. destruct ls as [|l ls]; [done|]. exists O, l. split; [done|]. split; [done|].
        rewrite !filter_all by (apply Forall_forall; done). cbn [drop concat]. by rewrite drop_0.
      - apply beqb_neq in E. destruct (branch_from_start seek ls _ Hch E) as (l & Hli & Heq). eexists _, l. split; [exact Hli|]. by split. }
    destruct Hidx as (i & l & Hli & -> & Heq). destruct (Forall2_lookup_r _ _ _ _ _ Hls Hli) as (child & Hci & Hcl).
    rewrite (vw_child _ _ Hv i child Hl Hci).
    assert (Hstk : stack h (mk_frame view (Z.of_nat i) :: at_branches p) (concat (drop (S i) ls) ++ l')).
    { apply (stack_branch h view i node); try done; [by eapply lookup_lt_Some|].
      apply Forall2_drop, Forall2_Forall_both; [done|by eapply pieces_nonempty]. }
    destruct (IH fuel (mk_position (mk_frame view (Z.of_nat i) :: at_branches p) (at_leaf p) (at_leafIndex p)) (ref_pageID child) l
      (concat (drop (S i) ls) ++ l') Hcl Hstk) as (p' & -> & Hp & He); [cbn [at_branches length]; lia|lia|].
    exists p'. split; [done|]. rewrite Heq, <- app_assoc. split; [done|]. intros -> Hne. apply He; [done|].
    apply pieces_nonempty in Hch. rewrite Forall_lookup in Hch. by eapply Hch.
Qed.

(** Leaving a leaf: the next one shows what the frames still had, or nothing is left. *)
Lemma advance_pending f h branches p l :
  later f -> stack h branches l -> (length branches + h < 64)%nat ->
  exists p' found, advanceFrames f kind branches p = (p', None, found) /\
    if found then pending p' l /\ at_entry p' else l = [].
Proof.
  intros Hlater. revert h p l; induction branches as [|frame rest IH]; intros h p l Hst Hd; cbn [advanceFrames].
  { inversion Hst; subst. by eexists _, false. }
  inversion Hst as [|? view i node ? ls l' Hv Hl Hshape Hi Hls Hrest]; subst. cbn [frame_view frame_childIndex length] in *.
  unfold node_shape in Hshape. rewrite Hl in Hshape. rewrite (vw_count _ _ Hv).
  destruct (Z.ltb_spec (Z.of_nat i) (zlen (node_keys node))) as [Hlt|Hge]; unfold zlen in *.
  - destruct (lookup_lt_is_Some_2 (node_children node) (S i)) as [child Hc]; [lia|]. rewrite (drop_S _ _ _ Hc) in Hls.
    inversion Hls as [|? lc ? ls' [Hcl Hne] Hls']; subst.
    replace (Z.of_nat i + 1) with (Z.of_nat (S i)) by lia. rewrite (vw_child _ _ Hv (S i) child Hl Hc).
    assert (Hstk : stack h (mk_frame view (Z.of_nat (S i)) :: rest) (concat ls' ++ l')).
    { apply (stack_branch h view (S i) node); try done; [unfold node_shape; by rewrite Hl|by eapply lookup_lt_Some]. }
    unfold descendUnlocked.
    destruct (descend_pending f h (S maxTreeIteratorDepth) (mk_position (mk_frame view (Z.of_nat (S i)) :: rest) (at_leaf p) (at_leafIndex p))
      (ref_pageID child) [] lc (concat ls' ++ l') Hlater Hcl Hstk) as (p' & -> & Hp & He); [cbn; lia|unfold maxTreeIteratorDepth; lia|].
    exists p', true. split; [done|]. split; [|by apply He]. cbn [concat]. rewrite <- app_assoc.
    by rewrite filter_all in Hp by (apply Forall_forall; done).
  - rewrite drop_ge in Hls by lia. inversion Hls; subst. cbn [concat app]. apply (IH (S h)); [done|lia].
Qed.

(** What is still to come, cut at the end bound and the limit. *)
Definition below_end (end_ : bytes) (e : KeyValue) : bool := beqb end_ [] || bltb e.1 end_.

Definition shows (it : TreeIterator) (l : list KeyValue) : list KeyValue :=
  grab (Z.max 0 (it_remaining it)) [] (List.filter (below_end (it_end it)) l).

(** An iterator between two calls, and one at its end. *)
Record running (it : TreeIterator) (l : list KeyValue) : Prop := {
  rn_kind : it_kind it = kind;
  rn_open : it_closed it = false;
  rn_going : it_done it = false;
  rn_err : it_err it = None;
  rn_sorted : sorted_keys l;
  rn_at : if it_initialized it then pending (it_at it) l
          else at_branches (it_at it) = [] /\ exists h l0, (h < 64)%nat /\ stored kind (snapshot f0) h (it_rootPage it) l0 /\
            l = List.filter (from_start (it_start it)) l0 }.

Definition finished (it : TreeIterator) : Prop := it_done it = true /\ it_err it = None.

(** One turn at an entry. *)
Definition advanced (it : TreeIterator) (l : list KeyValue) (r : bool * TreeIterator) : Prop :=
  match shows it l with
  | [] => r.1 = false /\ finished r.2
  | e :: rest => r.1 = true /\ it_key r.2 = e.1 /\ it_value r.2 = e.2 /\
      (finished r.2 /\ rest = [] \/ exists l', running r.2 l' /\ shows r.2 l' = rest)
  end.

Lemma grab_zero l : grab 0 [] l = l.
Proof. done. Qed.

Lemma grab_positive n l : 0 < n -> grab n [] l = take (Z.to_nat n) l.
Proof. intros H. unfold grab. destruct (Z.ltb_spec 0 n); [|lia]. cbn [app]. change (zlen []) with 0. by rewrite Z.sub_0_r. Qed.

Lemma entry_turn f fuel it l :
  it_initialized it = true -> running it l -> at_entry (it_at it) ->
  exists r, nextLoop f kind (S fuel) it = Some r /\ advanced it l r.
Proof.
  intros Hini [Hk Hop Hgo Herr Hs Hat] Hentry. rewrite Hini in Hat.
  destruct Hat as (node & es & i & l' & Hv & Hl & Hkeys & Hvals & Hi & Hile & -> & Hstk & Hd).
  cbn [nextLoop]. unfold at_entry in Hentry. rewrite (proj2 (Z.ltb_lt _ _) Hentry). rewrite (vw_count _ _ Hv), Hi, Hkeys in Hentry.
  unfold zlen in Hentry. rewrite length_fmap in Hentry. destruct (lookup_lt_is_Some_2 es i ltac:(lia)) as [[k v] He].
  assert (Hkey : node_keys node !! i = Some k) by (rewrite Hkeys, list_lookup_fmap, He; done).
  destruct (vw_key _ _ Hv i k Hkey) as (v' & c & n & Hent & Hval). rewrite Hi, Hent.
  assert (v' = v) as ->.
  { specialize (Hval Hl). rewrite Hvals, list_lookup_fmap, He in Hval. by injection Hval. }
  rewrite (drop_S _ _ _ He) in Hs |- *. cbn [app] in Hs |- *. cbn [set_at it_end].
  apply sorted_keys_cons in Hs as [Hs Hlt].
  assert (Hbe : below_end (it_end it) (k, v) = negb ((0 <? zlen (it_end it)) && negb (bltb k (it_end it)))).
  { unfold below_end. rewrite zlen_pos. cbn [fst]. by destruct (beqb (it_end it) []), (bltb k (it_end it)). }
  unfold advanced, shows. cbn [List.filter]. rewrite Hbe.
  destruct ((0 <? zlen (it_end it)) && negb (bltb k (it_end it))) eqn:Estop; cbn [negb].
  - eexists. split; [reflexivity|]. apply andb_true_iff in Estop as [He0 Hnl]. rewrite zlen_pos in He0.
    apply negb_true_iff, beqb_neq in He0. apply negb_true_iff, bltb_ge in Hnl.
    rewrite filter_none; [rewrite grab_nil; by split|]. rewrite (Forall_fmap fst) in Hlt. eapply Forall_impl; [exact Hlt|].
    intros e Hke. cbn in Hke. unfold below_end. rewrite (proj2 (beqb_neq _ _) He0). apply bltb_ge. intros Hx. apply Hnl. by trans e.1.
  - eexists. split; [reflexivity|]. set (rest := drop (S i) es ++ l') in *.
    assert (Hpend : pending (mk_position (at_branches (it_at it)) (at_leaf (it_at it)) (Z.of_nat i + 1)) rest).
    { exists node, es, (S i), l'. cbn [at_leaf at_leafIndex at_branches]. do 4 (split; [done|]). split; [lia|]. split; [lia|]. by split. }
    unfold count_down. cbn [it_remaining set_entry set_at]. destruct (Z.ltb_spec 0 (it_remaining it)) as [Hrem|Hrem].
    + replace (Z.max 0 (it_remaining it)) with (it_remaining it) by lia. rewrite grab_positive by done.
      replace (Z.to_nat (it_remaining it)) with (S (Z.to_nat (it_remaining it - 1))) by lia. cbn [take].
      split; [done|]. split; [done|]. split; [done|]. destruct (Z.eqb_spec (it_remaining it - 1) 0) as [E|E].
      * left. rewrite E. unfold finished. cbn. by rewrite orb_true_r.
      * right. exists rest. split.
        { split; cbn; try done; [by rewrite Hgo|by rewrite Hini]. }
        cbn. replace (Z.max 0 (it_remaining it - 1)) with (it_remaining it - 1) by lia. rewrite grab_positive by lia. done.
    + replace (Z.max 0 (it_remaining it)) with 0 by lia. rewrite !grab_zero. split; [done|]. split; [done|]. split; [done|].
      right. exists rest. split; [split; cbn; try done; by rewrite Hini|].
      cbn. replace (Z.max 0 (it_remaining it)) with 0 by lia. done.
Qed.

Lemma loop_turn f fuel it l :
  later f -> it_initialized it = true -> running it l -> (2 <= fuel)%nat ->
  exists r, nextLoop f kind fuel it = Some r /\ advanced it l r.
Proof.
  intros Hlater Hini Hr Hf. destruct (decide (at_entry (it_at it))) as [He|Hne].
  { destruct fuel as [|fuel]; [lia|]. by apply entry_turn. }
  destruct fuel as [|[|fuel]]; [lia|lia|]. pose proof Hr as [Hk Hop Hgo Herr Hs Hat]. rewrite Hini in Hat.
  destruct Hat as (node & es & i & l' & Hv & Hl & Hkeys & Hvals & Hi & Hile & Heq & Hstk & Hd).
  unfold at_entry in Hne. assert (Hlen : i = length es).
  { rewrite (vw_count _ _ Hv), Hkeys, Hi in Hne. unfold zlen in Hne. rewrite length_fmap in Hne. lia. }
  rewrite drop_ge in Heq by lia. cbn [app] in Heq. subst l'.
  destruct (advance_pending f 0 (at_branches (it_at it)) (it_at it) l Hlater Hstk ltac:(lia)) as (p' & found & Hadv & Hfound).
  assert (Hturn : nextLoop f kind (S (S fuel)) it =
    if found then nextLoop f kind (S fuel) (set_at it p') else Some (false, set_done (set_at it p'))).
  { remember (S fuel) as n. cbn [nextLoop]. destruct (Z.ltb_spec (at_leafIndex (it_at it)) (view_count (at_leaf (it_at it)))); [lia|].
    unfold advanceLeafUnlocked. rewrite Hadv. by destruct found. }
  rewrite Hturn. destruct found.
  - destruct Hfound as [Hp He].
    destruct (entry_turn f fuel (set_at it p') l Hini) as (r & -> & Hadvr); [by split; cbn; rewrite ?Hini|done|]. by exists r.
  - subst l. eexists. split; [reflexivity|]. unfold advanced, shows. cbn [List.filter]. rewrite grab_nil. by split; [|split].
Qed.

Lemma nextUnlocked_turn f fuel it l :
  later f -> running it l -> (2 <= fuel)%nat -> exists r, nextUnlocked f kind fuel it = Some r /\ advanced it l r.
Proof.
  intros Hlater Hr Hf. pose proof Hr as [Hk Hop Hgo Herr Hs Hat]. unfold nextUnlocked. destruct (it_initialized it) eqn:Hini.
  { by apply loop_turn. }
  destruct Hat as (Hb & h & l0 & Hh & Hst & ->). unfold descendUnlocked.
  destruct (descend_pending f h (S maxTreeIteratorDepth) (it_at it) (it_rootPage it) (it_start it) l0 [] Hlater Hst)
    as (p' & Hd & Hp & _); [rewrite Hb; constructor|rewrite Hb; cbn; lia|unfold maxTreeIteratorDepth; lia|].
  change (it_at (set_initialized it)) with (it_at it). change (it_rootPage (set_initialized it)) with (it_rootPage it).
  change (it_start (set_initialized it)) with (it_start it). rewrite Hd. rewrite app_nil_r in Hp.
  destruct (loop_turn f fuel (set_at (set_initialized it) p') (List.filter (from_start (it_start it)) l0) Hlater) as (r & -> & Ha);
    [done|by split|done|]. by exists r.
Qed.

Lemma Next_turn f fuel it l :
  later f -> running it l -> (2 <= fuel)%nat -> exists r, Next fuel (Some f) it = Some r /\ advanced it l r.
Proof.
  intros Hlater Hr Hf. pose proof Hr as [Hk Hop Hgo Herr Hs Hat]. unfold Next. rewrite Hop, Hgo, Herr. cbn [orb].
  set (it0 := set_entry it [] []). assert (Hr0 : running it0 l) by (by split). change (it_kind it0) with (it_kind it). rewrite Hk.
  enough (exists r, nextUnlocked f kind fuel it0 = Some r /\ advanced it0 l r) as H by exact H. by apply nextUnlocked_turn.
Qed.

(** Calls of [Next], one per version of the file, until one returns false. *)
Fixpoint walk (fuel : nat) (fs : list (option File)) (it : TreeIterator) : list KeyValue * TreeIterator :=
  match fs with
  | [] => ([], it)
  | f :: fs =>
      match Next fuel f it with
      | Some (true, it) => let (l, it') := walk fuel fs it in ((it_key it, it_value it) :: l, it')
      | Some (false, it) => ([], it)
      | None => ([], it)
      end
  end.

Lemma walk_finished fuel fs it : finished it -> walk fuel fs it = ([], it).
Proof. intros [Hd _]. destruct fs as [|f fs]; [done|]. cbn [walk]. unfold Next. by rewrite Hd, orb_true_r. Qed.

Lemma walk_correct fuel fs it l :
  Forall (fun f => exists f', f = Some f' /\ later f') fs -> running it l -> (2 <= fuel)%nat ->
  (walk fuel fs it).1 = take (length fs) (shows it l) /\ it_err (walk fuel fs it).2 = None /\
  ((length (shows it l) < length fs)%nat -> finished (walk fuel fs it).2).
Proof.
  intros Hfs. revert it l; induction Hfs as [|f fs (f' & -> & Hlater) Hfs IH]; intros it l Hr Hf; cbn [walk length].
  { split; [done|]. split; [apply Hr|lia]. }
  destruct (Next_turn f' fuel it l Hlater Hr Hf) as ([ok it'] & -> & Ha). unfold advanced in Ha. cbn [fst snd] in Ha.
  destruct (shows it l) as [|e rest]; [destruct Ha as (-> & Hd & He); by split; [|split]|].
  destruct Ha as (-> & Hk & Hv & [[Hfin ->]|(l' & Hr' & Hsh)]).
  - rewrite walk_finished by done. cbn [fst snd take length]. rewrite take_nil, Hk, Hv. destruct e. split; [done|]. split; [apply Hfin|done].
  - destruct (IH it' l' Hr' Hf) as (H1 & H2 & H3). destruct (walk fuel fs it') as [out it2]. cbn [fst snd] in *.
    rewrite Hsh in H1, H3. rewrite H1, Hk, Hv. destruct e. split; [done|]. split; [done|]. intros Hlen. apply H3. cbn in Hlen. lia.
Qed.
End Scans.

(** ** Scans while others commit *)

(** [f'] is [f] after one successful update. *)
Definition commits (f f' : File) : Prop :=
  exists io advance build trace, build_ok f advance build /\ 0 <= advance < 2 ^ 64 /\
    updateUnlockedAdvance io f advance build = (None, f', trace).

Lemma commits_later f f' : file_ok f -> commits f f' -> file_ok f' /\ extends (snapshot f) (snapshot f').
Proof.
  intros Hf (io & advance & build & trace & Hb & Ha & Hup).
  pose proof (update_outcome_cases io f advance build Hf Hb Ha) as Hout. rewrite Hup in Hout. split; [apply Hout|].
  destruct (stageUpdate f advance build) as [[[tx root] id]|e] eqn:Hst.
  2: { unfold updateUnlockedAdvance in Hup. by rewrite Hst in Hup. }
  destruct (published_extends io f advance build tx root id f' trace Hf Hb Ha Hst Hup) as [_ He].
  trans tx; [|exact He]. destruct (stageUpdate_ok f advance build tx root id Hf Ha Hb Hst) as [rootPage Hsu].
  pose proof (su_file _ _ _ _ _ _ Hsu) as Hfile. pose proof (su_written _ _ _ _ _ _ Hsu) as Hw.
  intros p Hp. pose proof (available_snapshot f p Hp) as [Hrange Hnf]. split.
  - right. rewrite Hfile. by split.
  - change (tx_readPage tx p = tx_readPage (snapshot f) p). unfold tx_readPage. cbn [snapshot tx_byID tx_file]. rewrite lookup_empty, Hfile.
    destruct (tx_byID tx !! p) as [raw|] eqn:E; [|done]. exfalso.
    destruct (txn_staged _ (w_ok _ _ Hw) p) as [_ Hwr]; [by eexists|]. unfold writable in Hwr. rewrite Hfile in Hwr.
    destruct Hwr; [done|lia].
Qed.

Lemma versions_later f f' : file_ok f -> rtc commits f f' -> file_ok f' /\ later f f'.
Proof.
  intros Hf Hc. induction Hc as [f|f f1 f' Hc Hcs IH]; [by split|]. destruct (commits_later f f1 Hf Hc) as [Hf1 He].
  destruct (IH Hf1) as [Hf' He']. split; [done|]. unfold later in *. by trans (snapshot f1).
Qed.

Lemma scan_filter start end_ l :
  List.filter (below_end end_) (List.filter (from_start start) l) = List.filter (in_bounds start end_) l.
Proof.
  induction l as [|e l IH]; [done|]. cbn [List.filter].
  change (in_bounds start end_ e) with (from_start start e && below_end end_ e).
  destruct (from_start start e); cbn [andb List.filter]; [|exact IH]. by rewrite IH.
Qed.

Lemma scan_limit limit l : grab (Z.max 0 limit) [] l = grab limit [] l.
Proof. unfold grab. destruct (Z.ltb_spec 0 limit), (Z.ltb_spec 0 (Z.max 0 limit)); try lia; [|done]. by replace (Z.max 0 limit) with limit by lia. Qed.

Lemma scan_equal_bounds b limit l : b <> [] -> scan_result b b limit l = [].
Proof.
  intros Hb. unfold scan_result. rewrite filter_none; [apply grab_nil|]. apply Forall_forall. intros e _. unfold in_bounds.
  rewrite (proj2 (beqb_neq _ _) Hb). cbn [orb]. by destruct (bltb e.1 b).
Qed.

Lemma Forall_list_filter {A} (P : A -> Prop) (p : A -> bool) l : Forall P l -> Forall P (List.filter p l).
Proof. induction 1 as [|x l Hx Hl IH]; [constructor|]. cbn. destruct (p x); [by constructor|done]. Qed.

Lemma sorted_filter (p : KeyValue -> bool) l : sorted_keys l -> sorted_keys (List.filter p l).
Proof.
  induction l as [|[k v] l IH]; [done|]. rewrite sorted_keys_cons. intros [Hs Hk]. cbn [List.filter].
  destruct (p (k, v)); [|auto]. apply sorted_keys_cons. split; [auto|]. rewrite (Forall_fmap fst) in Hk |- *.
  by apply Forall_list_filter.
Qed.

(** A new iterator is at its end, or about to show what is in its bounds. *)
Lemma new_iterator f kind h rootPage l start end_ limit :
  file_ok f -> (rootPage = 0 /\ l = []) \/ stored kind (snapshot f) h rootPage l -> (h < 64)%nat ->
  match newTreeIterator rootPage kind start end_ limit with
  | Err e => e = ErrCorrupt /\ start <> [] /\ end_ <> [] /\ blt end_ start
  | Ok it => finished it /\ scan_result start end_ limit l = [] \/
      exists l', running f kind it l' /\ shows it l' = scan_result start end_ limit l
  end.
Proof.
  intros Hf Ht Hh. unfold newTreeIterator. rewrite !zlen_pos.
  destruct (negb (beqb start []) && negb (beqb end_ []) && bltb end_ start) eqn:E.
  { apply andb_true_iff in E as [[H1 H2]%andb_true_iff H3]. apply negb_true_iff, beqb_neq in H1, H2. by apply bltb_lt in H3. }
  set (done := (rootPage =? 0) || _). destruct done eqn:Hdone.
  - left. split; [done|]. subst done. apply orb_true_iff in Hdone as [H0|[[H1 H2]%andb_true_iff H3]%andb_true_iff].
    + apply Z.eqb_eq in H0. destruct Ht as [[_ ->]|Hst]; [by apply grab_nil|].
      apply stored_available in Hst. apply (kept_snapshot f Hf) in Hst as [? _]. lia.
    + apply negb_true_iff, beqb_neq in H1. apply beqb_eq in H3 as <-. by apply scan_equal_bounds.
  - right. subst done. apply orb_false_iff in Hdone as [H0 _]. apply Z.eqb_neq in H0.
    destruct Ht as [[? _]|Hst]; [done|].
    exists (List.filter (from_start start) l). split.
    + split; try done; [|by split; [|exists h, l]]. apply sorted_filter. destruct Hst as [Hr _]. by eapply rep_sorted.
    + unfold shows, scan_result. cbn [it_remaining it_end]. by rewrite scan_filter, scan_limit.
Qed.

Lemma iterator_walk f kind h rootPage l start end_ limit fuel fs :
  file_ok f -> (rootPage = 0 /\ l = []) \/ stored kind (snapshot f) h rootPage l -> (h < 64)%nat ->
  Forall (fun v => exists f', v = Some f' /\ rtc commits f f') fs -> (2 <= fuel)%nat ->
  match newTreeIterator rootPage kind start end_ limit with
  | Err e => e = ErrCorrupt /\ start <> [] /\ end_ <> [] /\ blt end_ start
  | Ok it =>
      (walk fuel fs it).1 = take (length fs) (scan_result start end_ limit l) /\ it_err (walk fuel fs it).2 = None /\
      ((length (scan_result start end_ limit l) < length fs)%nat -> finished (walk fuel fs it).2)
  end.
Proof.
  intros Hf Ht Hh Hfs Hfuel. pose proof (new_iterator f kind h rootPage l start end_ limit Hf Ht Hh) as Hnew.
  destruct (newTreeIterator rootPage kind start end_ limit) as [it|]; [|done]. destruct Hnew as [[Hfin ->]|(l' & Hrun & <-)].
  - rewrite walk_finished by done. rewrite take_nil. split; [done|]. split; [apply Hfin|done].
  - apply (walk_correct f kind); [|done|done]. eapply Forall_impl; [exact Hfs|].
    intros v (f' & -> & Hc). exists f'. split; [done|]. by apply versions_later.
Qed.

(** C16: a scan of a committed tree shows the entries in the bounds in key order,
    up to the limit, the list [MutableTree.Scan] returns, while any number of
    updates commit between the calls; then it ends without an error. Bounds that
    cross are refused. *)
Theorem TreeIterator_scans f kind h rootPage l start end_ limit fuel fs :
  file_ok f -> (rootPage = 0 /\ l = []) \/ stored kind (snapshot f) h rootPage l -> (h < 64)%nat ->
  Forall (fun v => exists f', v = Some f' /\ rtc commits f f') fs -> (2 <= fuel)%nat ->
  match newTreeIterator rootPage kind start end_ limit with
  | Err e => e = ErrCorrupt /\ start <> [] /\ end_ <> [] /\ blt end_ start
  | Ok it =>
      (walk fuel fs it).1 = take (length fs) (scan_result start end_ limit l) /\ it_err (walk fuel fs it).2 = None /\
      ((length (scan_result start end_ limit l) < length fs)%nat -> finished (walk fuel fs it).2)
  end.
Proof. apply iterator_walk. Qed.

(** C17: every call of [Next] ends, whatever the pages hold and wherever the
    iterator stands: the walk advances in a finite order, and a descent is cut at
    64 branches, so that more fuel changes nothing. *)
Theorem TreeIterator_terminates f it :
  (exists fuel r, forall more, Next (fuel + more) f it = Some r) /\
  forall file kind p pageID seek more,
    descendLoop file kind (65 + more) p pageID seek = descendUnlocked file kind p pageID seek.
Proof.
  split.
  - destruct (Next_ends f it) as (fuel & r & Hr). exists fuel, r. intros more. apply Hr. lia.
  - intros. apply descendUnlocked_fuel. lia.
Qed.
