(* ===== verification/PageCache.v ===== *)
(** * The page cache

    [internal/storage/pagecache.go]: sixteen bounded shards with round-robin
    eviction, and [readDataPageUnlocked] of [file.go] through it. The cache is
    never visible: reads through it are reads of the file, whatever updates
    commit or fail in between. *)
From S2P Require Import Prelude Bytes Layout Hashes PageFormat Entries NodeCodec.
From S2P Require Import CowTree TreeShape TreeInvariant TreeRep Flush.
From S2P Require Import FileStore Recovery Commit Atomicity.
From stdpp Require Import gmap.
#[local] Open Scope Z_scope.

Definition defaultCachedPages : Z := 1024.
Definition pageCacheShards : Z := 16.

Record cachedPage := mk_cached { cp_raw : bytes; cp_page : Page }.

Record pageCacheShard := mk_shard {
  sh_entries : gmap Z cachedPage;
  sh_order : list Z;
  sh_hand : nat;
  sh_limit : nat }.

Record pageCache := mk_cache {
  pc_shards : list pageCacheShard;
  pc_hits : Z;
  pc_misses : Z;
  pc_evictions : Z }.

Definition newPageCache (capacity : Z) : pageCache :=
  let capacity := if capacity <? pageCacheShards then pageCacheShards else capacity in
  let base := capacity / pageCacheShards in
  let remainder := capacity mod pageCacheShards in
  mk_cache ((fun index => mk_shard ∅ [] 0 (Z.to_nat (if Z.of_nat index <? remainder then base + 1 else base)))
              <$> seq 0 (Z.to_nat pageCacheShards)) 0 0 0.

Definition shard_index (pageID : Z) : nat := Z.to_nat (pageID mod pageCacheShards).

(** The entry of a page, if it is there. *)
Definition cached (cache : pageCache) (pageID : Z) : option cachedPage :=
  pc_shards cache !! shard_index pageID ≫= fun shard => sh_entries shard !! pageID.

Definition get (cache : pageCache) (pageID : Z) : option cachedPage * pageCache :=
  match cached cache pageID with
  | None => (None, mk_cache (pc_shards cache) (pc_hits cache) (to_u64 (pc_misses cache + 1)) (pc_evictions cache))
  | Some page => (Some page, mk_cache (pc_shards cache) (to_u64 (pc_hits cache + 1)) (pc_misses cache) (pc_evictions cache))
  end.

(** The page retained, the shard and whether an entry was evicted. *)
Definition shard_put (shard : pageCacheShard) (pageID : Z) (entry : cachedPage) : result (cachedPage * pageCacheShard * bool) :=
  match sh_entries shard !! pageID with
  | Some existing => Ok (existing, shard, false)
  | None =>
      if (sh_limit shard <=? size (sh_entries shard))%nat then
        match sh_order shard !! sh_hand shard with
        | None => Err ErrPanic
        | Some victim =>
            Ok (entry, mk_shard (<[pageID:=entry]> (delete victim (sh_entries shard)))
                         (<[sh_hand shard:=pageID]> (sh_order shard)) (Nat.modulo (sh_hand shard + 1) (sh_limit shard)) (sh_limit shard), true)
        end
      else
        Ok (entry, mk_shard (<[pageID:=entry]> (sh_entries shard)) (sh_order shard ++ [pageID]) (sh_hand shard) (sh_limit shard), false)
  end.

Definition put (cache : pageCache) (pageID : Z) (raw : bytes) (decoded : Page) : result (cachedPage * pageCache) :=
  match pc_shards cache !! shard_index pageID with
  | None => Err ErrPanic
  | Some shard =>
      let* (entry, shard, evicted) := shard_put shard pageID (mk_cached raw decoded) in
      Ok (entry, mk_cache (<[shard_index pageID:=shard]> (pc_shards cache)) (pc_hits cache) (pc_misses cache)
                   (if evicted then to_u64 (pc_evictions cache + 1) else pc_evictions cache))
  end.

(** Where a page stands in the eviction order. *)
Fixpoint index_of (pageID : Z) (order : list Z) : option nat :=
  match order with
  | [] => None
  | candidate :: order => if candidate =? pageID then Some O else S <$> index_of pageID order
  end.

Definition shard_invalidate (shard : pageCacheShard) (pageID : Z) : pageCacheShard :=
  match sh_entries shard !! pageID with
  | None => shard
  | Some _ =>
      let entries := delete pageID (sh_entries shard) in
      match index_of pageID (sh_order shard) with
      | None => mk_shard entries (sh_order shard) (sh_hand shard) (sh_limit shard)
      | Some index =>
          let order := remove_at (sh_order shard) index in
          let hand := if (index <? sh_hand shard)%nat then (sh_hand shard - 1)%nat else sh_hand shard in
          let hand := if (length order =? 0)%nat || (length order <=? hand)%nat then O else hand in
          mk_shard entries order hand (sh_limit shard)
      end
  end.

Definition invalidate (cache : pageCache) (pageIDs : list Z) : pageCache :=
  fold_left (fun cache pageID =>
    mk_cache (alter (fun shard => shard_invalidate shard pageID) (shard_index pageID) (pc_shards cache))
      (pc_hits cache) (pc_misses cache) (pc_evictions cache)) pageIDs cache.

(** [CapacityPages] and [ResidentPages] of [stats]. *)
Definition stats_pages (cache : pageCache) : Z * Z :=
  fold_left (fun sums shard => (to_u64 (sums.1 + Z.of_nat (sh_limit shard)), to_u64 (sums.2 + Z.of_nat (size (sh_entries shard)))))
    (pc_shards cache) (0, 0).

(** [readDataPageUnlocked] with its cache. *)
Definition readThrough (f : File) (cache : pageCache) (pageID : Z) : result cachedPage * pageCache :=
  if (pageID <? 2) || (f_nextPage f <=? pageID) then (Err ErrCorrupt, cache)
  else
    let (hit, cache) := get cache pageID in
    match hit with
    | Some page => (Ok page, cache)
    | None =>
        match read_page (f_file f) pageID with
        | Err e => (Err e, cache)
        | Ok raw =>
            match decodePageView raw pageID with
            | Err e => (Err e, cache)
            | Ok decoded =>
                match put cache pageID raw decoded with
                | Ok (page, cache) => (Ok page, cache)
                | Err e => (Err e, cache)
                end
            end
        end
    end.

(** ** Shards *)

Record shard_ok (i : nat) (shard : pageCacheShard) : Prop := {
  so_limit : (1 <= sh_limit shard)%nat;
  so_NoDup : NoDup (sh_order shard);
  so_dom id : id ∈ sh_order shard <-> is_Some (sh_entries shard !! id);
  so_room : (length (sh_order shard) <= sh_limit shard)%nat;
  so_hand : sh_hand shard = O \/ (sh_hand shard < length (sh_order shard))%nat;
  so_index id : id ∈ sh_order shard -> shard_index id = i }.

Lemma shard_size i shard : shard_ok i shard -> size (sh_entries shard) = length (sh_order shard).
Proof.
  intros Hok. rewrite <- (size_dom (D:=gset Z)).
  assert (dom (sh_entries shard) = list_to_set (C:=gset Z) (sh_order shard)) as ->.
  { apply set_eq. intros id. rewrite elem_of_dom, elem_of_list_to_set. symmetry. apply (so_dom _ _ Hok). }
  apply size_list_to_set, (so_NoDup _ _ Hok).
Qed.

(** Replacing and removing an element of a list without duplicates. *)
Lemma replace_order (l : list Z) h victim p :
  NoDup l -> l !! h = Some victim -> ~ p ∈ l ->
  NoDup (<[h:=p]> l) /\ forall id, id ∈ <[h:=p]> l <-> id = p \/ (id ∈ l /\ id <> victim).
Proof.
  intros Hnd Hv Hp. pose proof (lookup_lt_Some _ _ _ Hv) as Hlt. rewrite insert_take_drop by done.
  pose proof (eq_sym (take_drop_middle _ _ _ Hv)) as El. revert El. generalize (take h l) (drop (S h) l). intros l1 l2 El.
  clear Hv Hlt. subst l.
  apply NoDup_app in Hnd as (H1 & H12 & H2). apply NoDup_cons in H2 as [Hv2 H2].
  rewrite elem_of_app, elem_of_cons in Hp. split.
  - apply NoDup_app. split; [done|]. split; [|apply NoDup_cons; split; [tauto|done]].
    intros x Hx. rewrite elem_of_cons. intros [->|Hx2]; [tauto|]. apply (H12 x Hx). by right.
  - intros id. rewrite !elem_of_app, !elem_of_cons. split.
    + intros [Hx|[->|Hx]]; [|by left|].
      * right. split; [by left|]. intros ->. apply (H12 victim Hx). by left.
      * right. split; [by right; right|]. by intros ->.
    + intros [->|[[Hx|[->|Hx]] Hne]]; [by right; left|by left|done|by right; right].
Qed.

Lemma remove_order (l : list Z) h p :
  NoDup l -> l !! h = Some p -> NoDup (remove_at l h) /\ forall id, id ∈ remove_at l h <-> id ∈ l /\ id <> p.
Proof.
  intros Hnd Hp. unfold remove_at. pose proof (eq_sym (take_drop_middle _ _ _ Hp)) as El. revert El.
  generalize (take h l) (drop (S h) l). intros l1 l2 El. clear Hp. subst l.
  apply NoDup_app in Hnd as (H1 & H12 & H2). apply NoDup_cons in H2 as [Hv2 H2]. split.
  - apply NoDup_app. split; [done|]. split; [|done]. intros x Hx Hx2. apply (H12 x Hx). by right.
  - intros id. rewrite !elem_of_app, !elem_of_cons. split.
    + intros [Hx|Hx]; [split; [by left|]|split; [by right; right|by intros ->]]. intros ->. apply (H12 p Hx). by left.
    + intros [[Hx|[->|Hx]] Hne]; [by left|done|by right].
Qed.

Lemma index_of_found pageID order : pageID ∈ order -> exists i, index_of pageID order = Some i /\ order !! i = Some pageID.
Proof.
  induction order as [|c order IH]; [by intros ?%elem_of_nil|]. cbn [index_of].
  destruct (Z.eqb_spec c pageID) as [->|Hne]; [by exists O|]. intros [->|Hin]%elem_of_cons; [done|].
  destruct (IH Hin) as (i & -> & Hi). by exists (S i).
Qed.

Lemma shard_put_ok i shard pageID entry :
  shard_ok i shard -> shard_index pageID = i ->
  exists page shard' evicted, shard_put shard pageID entry = Ok (page, shard', evicted) /\ shard_ok i shard' /\
    sh_limit shard' = sh_limit shard /\
    page = default entry (sh_entries shard !! pageID) /\ sh_entries shard' !! pageID = Some page /\
    forall id, id <> pageID -> sh_entries shard' !! id = sh_entries shard !! id \/ sh_entries shard' !! id = None.
Proof.
  intros Hok Hi. pose proof Hok as [Hlim Hnd Hdom Hroom Hhand Hidx]. unfold shard_put.
  destruct (sh_entries shard !! pageID) as [existing|] eqn:E.
  { exists existing, shard, false. do 4 (split; [done|]). split; [done|]. by left. }
  assert (Hnew : ~ pageID ∈ sh_order shard) by (rewrite Hdom, E; by intros [? ?]).
  rewrite (shard_size i) by done. destruct (Nat.leb_spec (sh_limit shard) (length (sh_order shard))) as [Hfull|Hspace].
  - destruct (lookup_lt_is_Some_2 (sh_order shard) (sh_hand shard)) as [victim Hv]; [lia|]. rewrite Hv.
    destruct (replace_order _ _ _ pageID Hnd Hv Hnew) as [Hnd' Hin'].
    eexists _, _, _. split; [reflexivity|]. cbn [sh_entries sh_limit default].
    split; [|split; [done|split; [done|split; [apply lookup_insert_eq|]]]].
    + split; cbn [sh_entries sh_order sh_hand sh_limit]; try done.
      * intros id. rewrite Hin'. destruct (decide (id = pageID)) as [->|Hne].
        { rewrite lookup_insert_eq. split; [by eexists|by left]. }
        rewrite lookup_insert_ne by done. destruct (decide (id = victim)) as [->|Hnv].
        { rewrite lookup_delete_eq. split; [by intros [?|[_ ?]]|by intros [? ?]]. }
        rewrite lookup_delete_ne by done. rewrite <- Hdom. tauto.
      * by rewrite length_insert.
      * right. rewrite length_insert. assert (length (sh_order shard) = sh_limit shard) as -> by lia. apply Nat.mod_upper_bound. lia.
      * intros id [->|[Hid _]]%Hin'; [done|by apply Hidx].
    + intros id Hne. rewrite lookup_insert_ne by done. destruct (decide (id = victim)) as [->|Hnv].
      * right. apply lookup_delete_eq.
      * left. by apply lookup_delete_ne.
  - eexists _, _, _. split; [reflexivity|]. cbn [sh_entries sh_limit default].
    split; [|split; [done|split; [done|split; [apply lookup_insert_eq|]]]].
    + split; cbn [sh_entries sh_order sh_hand sh_limit]; try done.
      * apply NoDup_app. split; [done|]. split; [|apply NoDup_singleton]. by intros x Hx ->%list_elem_of_singleton.
      * intros id. rewrite elem_of_app, list_elem_of_singleton. destruct (decide (id = pageID)) as [->|Hne].
        { rewrite lookup_insert_eq. split; [by eexists|by right]. }
        rewrite lookup_insert_ne by done. rewrite <- Hdom. tauto.
      * rewrite length_app. cbn. lia.
      * rewrite length_app. cbn. lia.
      * intros id. rewrite elem_of_app, list_elem_of_singleton. intros [Hid| ->]; [by apply Hidx|done].
    + intros id Hne. left. by apply lookup_insert_ne.
Qed.

Lemma shard_invalidate_ok i shard pageID :
  shard_ok i shard -> shard_ok i (shard_invalidate shard pageID) /\ sh_limit (shard_invalidate shard pageID) = sh_limit shard /\
  sh_entries (shard_invalidate shard pageID) = delete pageID (sh_entries shard).
Proof.
  intros Hok. pose proof Hok as [Hlim Hnd Hdom Hroom Hhand Hidx]. unfold shard_invalidate.
  destruct (sh_entries shard !! pageID) as [existing|] eqn:E; [|split; [done|split; [done|by rewrite delete_id]]].
  destruct (index_of_found pageID (sh_order shard)) as (index & -> & Hix); [apply Hdom; by eexists|].
  split; [|done]. destruct (remove_order _ _ _ Hnd Hix) as [Hnd' Hin']. pose proof (lookup_lt_Some _ _ _ Hix) as Hlt.
  assert (Hlen : S (length (remove_at (sh_order shard) index)) = length (sh_order shard)).
  { unfold remove_at. rewrite length_app, length_take, length_drop. lia. }
  split; cbn [sh_entries sh_order sh_hand sh_limit]; try done.
  - intros id. rewrite Hin'. destruct (decide (id = pageID)) as [->|Hne].
    { rewrite lookup_delete_eq. split; [by intros [_ ?]|by intros [? ?]]. }
    rewrite lookup_delete_ne by done. rewrite <- Hdom. tauto.
  - lia.
  - set (hand := if (index <? sh_hand shard)%nat then _ else _). destruct (_ || _) eqn:Eh; [by left|].
    apply orb_false_iff in Eh as [_ Eh]. apply Nat.leb_gt in Eh. by right.
  - intros id [Hid _]%Hin'. by apply Hidx.
Qed.

(** ** The cache *)

Record cache_ok (cache : pageCache) : Prop := {
  co_length : length (pc_shards cache) = 16%nat;
  co_shard i shard : pc_shards cache !! i = Some shard -> shard_ok i shard }.

(** The pages the shards may hold together. *)
Definition limits (cache : pageCache) : list nat := sh_limit <$> pc_shards cache.

Lemma shard_index_lt pageID : (shard_index pageID < 16)%nat.
Proof. unfold shard_index, pageCacheShards. pose proof (Z.mod_pos_bound pageID 16). lia. Qed.

Lemma cache_shard cache pageID :
  cache_ok cache -> exists shard, pc_shards cache !! shard_index pageID = Some shard /\ shard_ok (shard_index pageID) shard.
Proof.
  intros [Hl Hs]. destruct (lookup_lt_is_Some_2 (pc_shards cache) (shard_index pageID)) as [shard Hi].
  { rewrite Hl. apply shard_index_lt. }
  exists shard. split; [done|]. by apply Hs.
Qed.

Lemma get_spec cache pageID :
  (get cache pageID).1 = cached cache pageID /\ pc_shards (get cache pageID).2 = pc_shards cache.
Proof. unfold get. by destruct (cached cache pageID). Qed.

Lemma put_spec cache pageID raw decoded :
  cache_ok cache ->
  exists page cache', put cache pageID raw decoded = Ok (page, cache') /\ cache_ok cache' /\ limits cache' = limits cache /\
    page = default (mk_cached raw decoded) (cached cache pageID) /\ cached cache' pageID = Some page /\
    forall id, id <> pageID -> cached cache' id = cached cache id \/ cached cache' id = None.
Proof.
  intros Hok. destruct (cache_shard cache pageID Hok) as (shard & Hs & Hsok). unfold put. rewrite Hs.
  destruct (shard_put_ok _ shard pageID (mk_cached raw decoded) Hsok eq_refl) as (page & shard' & evicted & -> & Hsok' & Hlim & Hpage & Hhere & Hother).
  cbn [rbind]. eexists _, _. split; [reflexivity|]. pose proof (lookup_lt_Some _ _ _ Hs) as Hlt. unfold cached in *. rewrite Hs.
  cbn [pc_shards mbind option_bind]. split; [|split; [|split; [done|split]]].
  - split; cbn [pc_shards]; [rewrite length_insert; apply Hok|]. intros i sh Hi. apply list_lookup_insert_Some in Hi as [(<- & <- & _)|[_ Hi]].
    + done.
    + by apply Hok.
  - unfold limits. cbn [pc_shards]. rewrite list_fmap_insert, Hlim. apply list_insert_id. by rewrite list_lookup_fmap, Hs.
  - rewrite list_lookup_insert_eq by done. done.
  - intros id Hne. destruct (decide (shard_index id = shard_index pageID)) as [->|Hni].
    + rewrite list_lookup_insert_eq, Hs by done. by apply Hother.
    + left. by rewrite list_lookup_insert_ne by done.
Qed.

Lemma invalidate_spec cache pageIDs :
  cache_ok cache ->
  cache_ok (invalidate cache pageIDs) /\ limits (invalidate cache pageIDs) = limits cache /\
  forall id, cached (invalidate cache pageIDs) id = if decide (id ∈ pageIDs) then None else cached cache id.
Proof.
  revert cache; induction pageIDs as [|p ps IH]; intros cache Hok.
  { split; [done|]. split; [done|]. intros id. destruct (decide (id ∈ [])) as [?%elem_of_nil|]; done. }
  unfold invalidate. cbn [fold_left]. set (cache1 := mk_cache _ _ _ _). fold (invalidate cache1 ps).
  destruct (cache_shard cache p Hok) as (shard & Hs & Hsok). destruct (shard_invalidate_ok _ _ p Hsok) as (Hsok' & Hlim & Hent).
  assert (Hok1 : cache_ok cache1).
  { split; cbn [cache1 pc_shards]; [rewrite length_alter; apply Hok|]. intros i sh Hi.
    destruct (decide (i = shard_index p)) as [->|Hne].
    - rewrite list_lookup_alter_eq, Hs in Hi. by injection Hi as <-.
    - rewrite list_lookup_alter_ne in Hi by done. by apply Hok. }
  destruct (IH cache1 Hok1) as (Hok' & Hl' & Hc'). split; [done|]. split.
  - rewrite Hl'. unfold limits. cbn [cache1 pc_shards]. apply list_eq. intros i. rewrite !list_lookup_fmap.
    destruct (decide (i = shard_index p)) as [->|Hne]; [by rewrite list_lookup_alter_eq, Hs; cbn; rewrite Hlim|by rewrite list_lookup_alter_ne].
  - intros id. rewrite Hc'. assert (H1 : cached cache1 id = if decide (id = p) then None else cached cache id).
    { unfold cached. cbn [cache1 pc_shards]. destruct (decide (shard_index id = shard_index p)) as [E|Hni].
      - rewrite E, list_lookup_alter_eq, Hs. cbn. rewrite Hent. destruct (decide (id = p)) as [->|Hne]; [apply lookup_delete_eq|by apply lookup_delete_ne].
      - rewrite list_lookup_alter_ne by done. destruct (decide (id = p)); [congruence|done]. }
    rewrite H1. destruct (decide (id ∈ ps)), (decide (id = p)), (decide (id ∈ p :: ps)) as [Hin|Hin]; try done;
      try (exfalso; apply Hin; apply elem_of_cons; tauto); apply elem_of_cons in Hin as [?|?]; done.
Qed.

Lemma sum_limits (base remainder : Z) n :
  0 <= base -> 0 <= remainder ->
  Z.of_nat (sum_list ((fun index => Z.to_nat (if Z.of_nat index <? remainder then base + 1 else base)) <$> seq 0 n)) =
  Z.of_nat n * base + Z.min (Z.of_nat n) remainder.
Proof.
  intros Hb Hr. induction n as [|n IH]; [cbn; lia|]. rewrite seq_S, fmap_app.
  cbn [fmap list_fmap]. rewrite sum_list_with_app. cbn [sum_list_with]. rewrite Nat2Z.inj_add, IH. cbn [plus].
  destruct (Z.ltb_spec (Z.of_nat n) remainder); cbn; lia.
Qed.

Lemma newPageCache_ok capacity :
  cache_ok (newPageCache capacity) /\ Z.of_nat (sum_list (limits (newPageCache capacity))) = Z.max pageCacheShards capacity /\
  forall id, cached (newPageCache capacity) id = None.
Proof.
  unfold newPageCache. set (c := if capacity <? pageCacheShards then _ else _).
  assert (Hc : c = Z.max pageCacheShards capacity) by (unfold c; destruct (Z.ltb_spec capacity pageCacheShards); lia).
  clearbody c. change pageCacheShards with 16 in *. assert (Hbase : 1 <= c / 16) by (apply Z.div_le_lower_bound; lia).
  pose proof (Z.mod_pos_bound c 16 ltac:(lia)) as Hmod. pose proof (Z.div_mod c 16 ltac:(lia)) as Hdiv. split; [|split].
  - split; [done|]. intros i shard Hi. cbn [pc_shards] in Hi. apply list_lookup_fmap_Some in Hi as (j & -> & Hj).
    split; cbn; try done; [|constructor| |lia|by left|by intros id ?%elem_of_nil].
    + destruct (Z.of_nat j <? c `mod` 16); lia.
    + intros id. rewrite lookup_empty. split; [by intros ?%elem_of_nil|by intros [? ?]].
  - unfold limits. cbn [pc_shards]. rewrite <- list_fmap_compose.
    etransitivity; [apply (sum_limits (c / 16) (c mod 16) 16); lia|]. lia.
  - intros id. unfold cached. cbn [pc_shards]. destruct (_ !! shard_index id) as [shard|] eqn:Hi; [|done].
    cbn. apply list_lookup_fmap_Some in Hi as (j & -> & Hj). apply lookup_empty.
Qed.

(** ** The cache and the file *)

(** Entries of pages that are not free are what the file holds. *)
Definition coherent (f : File) (cache : pageCache) : Prop :=
  cache_ok cache /\
  forall id page, cached cache id = Some page ->
    2 <= id < f_nextPage f /\ (~ id ∈ f_freePages f -> readDataPageUnlocked f id = Ok (cp_raw page, cp_page page)).

Lemma coherent_empty f capacity : coherent f (newPageCache capacity).
Proof. destruct (newPageCache_ok capacity) as (Hok & _ & Hnone). split; [done|]. intros id page. by rewrite Hnone. Qed.

(** What a read through the cache returns is what the uncached read returns. *)
Definition as_read (r : result cachedPage) : result (bytes * Page) := (fun page => (cp_raw page, cp_page page)) <$> r.

Lemma readThrough_ok f cache id :
  coherent f cache ->
  coherent f (readThrough f cache id).2 /\ limits (readThrough f cache id).2 = limits cache /\
  (~ id ∈ f_freePages f -> as_read (readThrough f cache id).1 = readDataPageUnlocked f id).
Proof.
  intros [Hok Hc]. unfold readThrough. destruct ((id <? 2) || (f_nextPage f <=? id)) eqn:Erange.
  { split; [done|]. split; [done|]. intros _. unfold readDataPageUnlocked. by rewrite Erange. }
  apply orb_false_iff in Erange as [E1%Z.ltb_ge E2%Z.leb_gt].
  assert (Hread : readDataPageUnlocked f id =
    let* raw := read_page (f_file f) id in
    let* decoded := decodePageView raw id in
    Ok (raw, decoded)).
  { unfold readDataPageUnlocked. destruct (Z.ltb_spec id 2); [lia|]. by destruct (Z.leb_spec (f_nextPage f) id); [lia|]. }
  destruct (get_spec cache id) as [Hget Hsh]. destruct (get cache id) as [hit cache1]. cbn [fst snd] in Hget, Hsh. subst hit.
  assert (Hcached : forall i, cached cache1 i = cached cache i) by (intros i; unfold cached; by rewrite Hsh).
  assert (Hco : coherent f cache1).
  { split; [|intros i page; rewrite Hcached; apply Hc]. destruct Hok as [H1 H2]. by split; rewrite Hsh. }
  assert (Hlim : limits cache1 = limits cache) by (unfold limits; by rewrite Hsh).
  destruct (cached cache id) as [page|] eqn:Ehit.
  { split; [done|]. split; [done|]. intros Hnf. symmetry. by apply (Hc id page). }
  rewrite Hread. destruct (read_page (f_file f) id) as [raw|e] eqn:Eraw; cbn [rbind]; [|by split; [|split]].
  destruct (decodePageView raw id) as [decoded|e] eqn:Edec; cbn [rbind]; [|by split; [|split]].
  destruct Hco as [Hok1 Hc1]. destruct (put_spec cache1 id raw decoded Hok1) as (page & cache2 & -> & Hok2 & Hl2 & Hp & Hhere & Hother).
  rewrite Hcached, Ehit in Hp. cbn in Hp. subst page. cbn [fst snd]. split; [|split; [by rewrite Hl2|done]].
  split; [done|]. intros i page. destruct (decide (i = id)) as [->|Hne].
  - rewrite Hhere. intros [= <-]. split; [lia|]. intros _. rewrite Hread. cbn [rbind]. by rewrite Edec.
  - destruct (Hother i Hne) as [-> | ->]; [apply Hc1|done].
Qed.

(** ** Updates *)

(** The end of [updateUnlockedAdvance] for the cache: a published transaction
    invalidates the pages it took from the pool. *)
Definition updateThrough (io : nat -> bool) (f : File) (cache : pageCache) (advance : Z) (build : builder)
    : option gerror * File * pageCache :=
  let '(outcome, f', _) := updateUnlockedAdvance io f advance build in
  match outcome, stageUpdate f advance build with
  | None, Ok (tx, _, _) => (outcome, f', invalidate cache (tx_reusedPages tx))
  | _, _ => (outcome, f', cache)
  end.

Definition event_off (p : Z) (e : event) : Prop := match e with WriteAt q _ => 0 <= q /\ q <> p | Sync => True end.

Lemma performIO_reads io d trace events p :
  Forall (event_off p) events -> is_ok (read_page d p) = true ->
  read_page (performIO io d trace events).1.2 p = read_page d p.
Proof.
  revert d trace; induction events as [|e events IH]; intros d trace He Hok; cbn [performIO]; [done|].
  apply Forall_cons in He as [He Hes]. destruct (io (length trace)); [|done].
  assert (Hstep : read_page (apply_event d e) p = read_page d p).
  { destruct e as [q data|]; [|done]. cbn in He |- *. apply read_write_ne; [lia|lia|done]. }
  rewrite IH; [done|done|by rewrite Hstep].
Qed.

(** Pages in use and readable are left alone by an update, published or not. *)
Lemma update_reads io f advance build p :
  file_ok f -> build_ok f advance build -> 0 <= advance < 2 ^ 64 -> 2 <= p < f_nextPage f -> ~ p ∈ f_freePages f ->
  read_page (f_file (updateUnlockedAdvance io f advance build).1.2) p = read_page (f_file f) p.
Proof.
  intros Hf Hb Ha Hp Hn. unfold updateUnlockedAdvance.
  destruct (stageUpdate f advance build) as [[[tx root] id]|e] eqn:Hst; [|done].
  destruct (stageUpdate_ok f advance build tx root id Hf Ha Hb Hst) as [rootPage Hsu].
  assert (Hok : is_ok (read_page (f_file f) p) = true) by (apply read_page_ok; pose proof (fo_next _ Hf); lia).
  assert (Hdata : Forall (event_off p) (dataEvents (tx_pages tx))).
  { unfold dataEvents. apply Forall_app. split; [|by repeat constructor]. apply (Forall_fmap (fun page => WriteAt page.1 page.2)).
    pose proof (w_pages _ _ (su_written _ _ _ _ _ _ Hsu)) as Hw. eapply Forall_impl; [exact Hw|]. intros [q data] [Hwr _]. cbn in Hwr |- *.
    pose proof (writable_range tx q (w_ok _ _ (su_written _ _ _ _ _ _ Hsu)) Hwr). split; [lia|]. intros ->.
    unfold writable in Hwr. rewrite (su_file _ _ _ _ _ _ Hsu) in Hwr. destruct Hwr; [done|lia]. }
  pose proof (performIO_reads io (f_file f) [] _ p Hdata Hok) as H1.
  destruct (performIO io (f_file f) [] (dataEvents (tx_pages tx))) as [[[] d1] tr1]; cbn [fst snd] in H1; [|exact H1].
  destruct (EncodeMeta _) as [encoded|e]; [|exact H1].
  assert (Hmeta : Forall (event_off p) [WriteAt (1 - f_metaSlot f) encoded; Sync]).
  { pose proof (oa_slot _ _ _ _ (fo_opens _ Hf)). constructor; [cbn; lia|by constructor]. }
  pose proof (performIO_reads io d1 tr1 _ p Hmeta) as H2. rewrite H1 in H2. specialize (H2 Hok).
  by destruct (performIO io d1 tr1 _) as [[[] d2] tr2].
Qed.

Lemma update_failed io f advance build :
  (updateUnlockedAdvance io f advance build).1.1 <> None ->
  f_nextPage (updateUnlockedAdvance io f advance build).1.2 = f_nextPage f /\
  f_freePages (updateUnlockedAdvance io f advance build).1.2 = f_freePages f.
Proof.
  unfold updateUnlockedAdvance. destruct (stageUpdate f advance build) as [[[tx root] id]|e]; [|done].
  destruct (performIO io (f_file f) [] _) as [[[] d1] tr1]; [|done]. destruct (EncodeMeta _) as [encoded|e]; [|done].
  by destruct (performIO io d1 tr1 _) as [[[] d2] tr2].
Qed.

Lemma reads_same f f' id :
  read_page (f_file f') id = read_page (f_file f) id -> 2 <= id < f_nextPage f -> f_nextPage f <= f_nextPage f' ->
  readDataPageUnlocked f' id = readDataPageUnlocked f id.
Proof.
  intros Hr Hid Hn. unfold readDataPageUnlocked. rewrite Hr. destruct (Z.ltb_spec id 2); [lia|].
  by destruct (Z.leb_spec (f_nextPage f') id), (Z.leb_spec (f_nextPage f) id); try lia.
Qed.

Lemma elem_of_rev_list {A} (l : list A) x : x ∈ rev l <-> x ∈ l.
Proof. by rewrite !list_elem_of_In, <- in_rev. Qed.

Lemma updateThrough_coherent io f cache advance build :
  file_ok f -> build_ok f advance build -> 0 <= advance < 2 ^ 64 -> coherent f cache ->
  coherent (updateThrough io f cache advance build).1.2 (updateThrough io f cache advance build).2 /\
  limits (updateThrough io f cache advance build).2 = limits cache.
Proof.
  intros Hf Hb Ha [Hok Hc]. pose proof (update_reads io f advance build) as Hreads. pose proof (update_failed io f advance build) as Hfail.
  unfold updateThrough. destruct (updateUnlockedAdvance io f advance build) as [[outcome f'] trace] eqn:Hup. cbn [fst snd] in Hreads, Hfail.
  assert (Hkeep : f_nextPage f' = f_nextPage f -> f_freePages f' = f_freePages f -> coherent f' cache).
  { intros Hn Hfr. split; [done|]. intros id page [Hr Hp]%Hc. rewrite Hn, Hfr. split; [done|]. intros Hnf.
    rewrite <- (Hp Hnf). apply reads_same; [by apply Hreads|done|lia]. }
  destruct outcome as [e|]; [destruct (Hfail ltac:(done)) as [Hn Hfr]; cbn [fst snd]; split; [by apply Hkeep|done]|].
  destruct (stageUpdate f advance build) as [[[tx root] id0]|e] eqn:Hst; [|by unfold updateUnlockedAdvance in Hup; rewrite Hst in Hup].
  destruct (stageUpdate_ok f advance build tx root id0 Hf Ha Hb Hst) as [rootPage Hsu].
  pose proof (update_cases io f advance build tx root id0 Hst) as Hcases. rewrite Hup in Hcases.
  destruct Hcases as [(? & _)|(encoded & Hem & [(? & _)|(_ & _ & Hf')])]; [done|done|]. cbn [fst snd].
  destruct (invalidate_spec cache (tx_reusedPages tx) Hok) as (Hok' & Hlim & Hinv). split; [|done]. split; [done|].
  intros id page. rewrite Hinv. destruct (decide (id ∈ tx_reusedPages tx)) as [|Hnr]; [done|]. intros [Hr Hp]%Hc.
  pose proof (w_ok _ _ (su_written _ _ _ _ _ _ Hsu)) as Htx. pose proof (su_file _ _ _ _ _ _ Hsu) as Hfile.
  assert (Hn : f_nextPage f <= f_nextPage f').
  { rewrite Hf'. cbn [publish f_nextPage]. pose proof (txn_next _ Htx) as Hn. rewrite Hfile in Hn. lia. }
  split; [lia|]. intros Hnf. assert (Hnf0 : ~ id ∈ f_freePages f).
  { rewrite <- Hfile, (txn_free _ Htx), elem_of_app, elem_of_rev_list. rewrite Hf' in Hnf. cbn [publish f_freePages] in Hnf. tauto. }
  rewrite <- (Hp Hnf0). apply reads_same; [by apply Hreads|done|done].
Qed.

(** Reads and updates of one file, in any order. *)
Inductive cache_step : File * pageCache -> File * pageCache -> Prop :=
| step_read f cache id : cache_step (f, cache) (f, (readThrough f cache id).2)
| step_update io f cache advance build outcome f' cache' :
    build_ok f advance build -> 0 <= advance < 2 ^ 64 ->
    updateThrough io f cache advance build = (outcome, f', cache') -> cache_step (f, cache) (f', cache').

Definition cache_inv (sizes : list nat) (s : File * pageCache) : Prop :=
  (file_ok s.1 \/ f_fatalErr s.1 <> None) /\ coherent s.1 s.2 /\ limits s.2 = sizes.

Lemma cache_step_inv sizes s s' : cache_step s s' -> cache_inv sizes s -> cache_inv sizes s'.
Proof.
  intros Hs (Hf & Hc & Hl). destruct Hs as [f cache id|io f cache advance build outcome f' cache' Hb Ha Hup]; cbn [fst snd] in *.
  - destruct (readThrough_ok f cache id Hc) as (Hc' & Hl' & _). split; [done|]. split; [done|]. cbn [snd]. congruence.
  - destruct (f_fatalErr f) as [e|] eqn:He.
    + assert (Hst : stageUpdate f advance build = Err e).
      { unfold stageUpdate, beginUpdate. by rewrite He. }
      unfold updateThrough, updateUnlockedAdvance in Hup. rewrite Hst in Hup. injection Hup as <- <- <-.
      split; [right; cbn; by rewrite He|done].
    + destruct Hf as [Hf|?]; [|done]. pose proof (updateThrough_coherent io f cache advance build Hf Hb Ha Hc) as [Hc' Hl'].
      pose proof (update_outcome_cases io f advance build Hf Hb Ha) as Hout. rewrite Hup in Hc', Hl'. cbn [fst snd] in Hc', Hl'.
      split; [|split; [done|cbn [snd]; congruence]]. cbn [fst].
      unfold updateThrough in Hup. destruct (updateUnlockedAdvance io f advance build) as [[o f1] tr].
      assert (f1 = f') as -> by (destruct o, (stageUpdate f advance build) as [[[tx r] i]|]; by injection Hup).
      destruct o as [e|]; [destruct Hout as (_ & _ & [?|(e' & He' & _)]); [by left|right; by rewrite He']|left; apply Hout].
Qed.

Lemma cache_inv_reachable f0 capacity s :
  file_ok f0 -> rtc cache_step (f0, newPageCache capacity) s -> cache_inv (limits (newPageCache capacity)) s.
Proof.
  intros Hf Hs. assert (H0 : cache_inv (limits (newPageCache capacity)) (f0, newPageCache capacity)).
  { split; [by left|]. split; [apply coherent_empty|done]. }
  induction Hs as [s|s s1 s2 H1 Hs IH]; [done|]. apply IH. by eapply cache_step_inv.
Qed.

Lemma stats_sums shards a b :
  Forall (fun shard => (size (sh_entries shard) <= sh_limit shard)%nat) shards -> 0 <= b <= a ->
  a + Z.of_nat (sum_list (sh_limit <$> shards)) < 2 ^ 64 ->
  let r := fold_left (fun sums shard =>
    (to_u64 (sums.1 + Z.of_nat (sh_limit shard)), to_u64 (sums.2 + Z.of_nat (size (sh_entries shard))))) shards (a, b) in
  r.1 = a + Z.of_nat (sum_list (sh_limit <$> shards)) /\ r.2 <= r.1.
Proof.
  intros Hf. revert a b; induction Hf as [|shard shards Hs Hf IH]; intros a b Hb Ha; cbn [fold_left]; [cbn in *; lia|].
  assert (Hsum : Z.of_nat (sum_list (sh_limit <$> shard :: shards)) = Z.of_nat (sh_limit shard) + Z.of_nat (sum_list (sh_limit <$> shards))).
  { rewrite <- Nat2Z.inj_add. done. }
  rewrite Hsum in *. cbn [fst snd].
  assert (Hu : forall x, 0 <= x < 2 ^ 64 -> to_u64 x = x) by (intros x Hx; by apply Z.mod_small).
  rewrite !Hu by lia. assert (Hba : 0 <= b + Z.of_nat (size (sh_entries shard)) <= a + Z.of_nat (sh_limit shard)).
  { clear -Hs Hb. apply inj_le in Hs. lia. }
  specialize (IH (a + Z.of_nat (sh_limit shard)) (b + Z.of_nat (size (sh_entries shard))) Hba
    ltac:(rewrite <- Z.add_assoc; exact Ha)).
  cbv zeta in IH |- *. destruct IH as [H1 H2]. rewrite <- Z.add_assoc in H1. by split.
Qed.

(** C18: whatever reads and updates, successful or failed, the file has gone
    through since it was opened with an empty cache, a read of a page that is not
    free returns through the cache what it returns from the file, and the cache
    holds at most the pages it was made for, sixteen at least. *)
Theorem cache_transparent f0 capacity f cache :
  file_ok f0 -> capacity < 2 ^ 63 -> rtc cache_step (f0, newPageCache capacity) (f, cache) ->
  (forall id, ~ id ∈ f_freePages f -> as_read (readThrough f cache id).1 = readDataPageUnlocked f id) /\
  (stats_pages cache).1 = Z.max pageCacheShards capacity /\ (stats_pages cache).2 <= (stats_pages cache).1.
Proof.
  intros Hf Hcap Hs. destruct (cache_inv_reachable f0 capacity _ Hf Hs) as (_ & Hc & Hl). cbn [fst snd] in Hc, Hl. split.
  - intros id. by apply readThrough_ok.
  - destruct (newPageCache_ok capacity) as (_ & Hsum & _). rewrite <- Hl in Hsum. rewrite <- Hsum. destruct Hc as [Hok _].
    apply (stats_sums (pc_shards cache) 0 0); [|lia|change (Z.of_nat (sum_list (limits cache)) < 2 ^ 64); rewrite Hsum; change pageCacheShards with 16; lia].
    apply Forall_forall. intros shard [i Hi]%list_elem_of_lookup. pose proof (co_shard _ Hok i shard Hi) as Hsok.
    rewrite (shard_size i) by done. apply (so_room _ _ Hsok).
Qed.
