(* ===== verification/Snapshots.v ===== *)
(** * Tree transactions

    A transaction opens a tree at the root the database version names, updates it
    in memory, flushes it and publishes a root that names the new tree. What
    readers of the old and of the new version see, whatever happens. *)
From S2P Require Import Prelude Bytes Layout Hashes PageFormat Entries Records NodeCodec.
From S2P Require Import CowTree TreeShape TreeInvariant TreeRep TreeDelete TreeScan Tree Flush.
From S2P Require Import FileStore Recovery Commit Atomicity TreeRead.
From stdpp Require Import gmap.
#[local] Open Scope Z_scope.

(** The tree at a root page, where page zero is the empty tree. *)
Definition tree_at {T} `{PageStoreLaws T} (kind : TreeKind) (tx : T) (h : nat) (page : Z) (l : list KeyValue) : Prop :=
  (page = 0 /\ l = [] /\ h = 0%nat) \/ stored kind tx h page l.

Lemma zlen_operations ops l : sorted_keys l -> zlen (fold_left operate ops l) <= zlen l + zlen ops.
Proof.
  revert l; induction ops as [|op ops IH]; intros l Hs; cbn [fold_left]; [change (zlen []) with 0; lia|].
  rewrite zlen_cons. assert (Hop : sorted_keys (operate l op) /\ zlen (operate l op) <= zlen l + 1).
  { destruct op as [key value|key]; cbn [operate].
    - pose proof (zlen_ins_le key value l Hs). split; [by apply sorted_ins|lia].
    - pose proof (length_del key l). split; [by apply sorted_del|]. destruct (field l key); lia. }
  destruct Hop as [Hs' Hl]. specialize (IH _ Hs'). lia.
Qed.

Section CopyOnWrite.
Context {T : Type} `{PageStoreLaws T}.
Variable kind : TreeKind.

Lemma tree_at_extends tx tx' h page l : extends tx tx' -> tree_at kind tx h page l -> tree_at kind tx' h page l.
Proof. intros He [?|Hs]; [by left|right; by eapply stored_extends]. Qed.

Lemma OpenTree_tree_at tx h page l :
  store_ok tx -> tree_at kind tx h page l ->
  exists root, OpenTree tx kind page = Ok root /\ rep tx kind h root l /\ sound kind tx root.
Proof.
  intros Hok [(-> & -> & ->)|Hs]; [|by apply OpenTree_stored].
  exists (mk_ref 0 0 (Some (mk_leaf [] [] 0))). split; [done|]. split; [apply rep_empty|]. by apply sound_dirty.
Qed.

Lemma run_sound tx ops fuel root root' : sound kind tx root -> run tx kind fuel root ops = Ok root' -> sound kind tx root'.
Proof.
  revert root; induction ops as [|op ops IH]; intros root Hs; cbn [run]; [by intros [= <-]|]. intros Hr. inv_ok.
  apply (IH a); [|done]. destruct op as [key value|key]; cbn [perform] in Hok; inv_ok.
  - destruct a0 as [r s]. injection Hok as <-. by eapply Put_sound.
  - destruct a0 as [[r s] c]. injection Hok as <-. by eapply Delete_sound.
Qed.

(** C10: a tree opened at a page, updated and flushed reads back as the updated
    map, and every tree the transaction already had, the one it started from
    included, still reads as before; the flush fails only for lack of space. *)
Theorem copy_on_write tx h page l ops fuel :
  store_ok tx -> tree_at kind tx h page l -> Forall small_entry l -> Forall operation_ok ops ->
  zlen l + zlen ops < 2 ^ 64 -> (h + length ops < fuel)%nat ->
  exists root root', OpenTree tx kind page = Ok root /\ run tx kind fuel root ops = Ok root' /\
    match Flush kind tx root' with
    | Ok (page', tx') =>
        store_ok tx' /\ (exists h', (h' <= h + length ops)%nat /\ stored kind tx' h' page' (fold_left operate ops l)) /\
        forall kind' h' p' l', tree_at kind' tx h' p' l' -> tree_at kind' tx' h' p' l'
    | Err e => e = ErrStorageLimit
    end.
Proof.
  intros Hok Ht Hsm Hops Hmax Hf. destruct (OpenTree_tree_at tx h page l Hok Ht) as (root & Ho & Hr & Hs).
  destruct (run_rep tx kind ops fuel h root l Hr Hsm Hops Hmax Hf) as (root' & h' & Hrun & Hh' & Hr').
  exists root, root'. split; [done|]. split; [done|].
  pose proof (flush_correct kind h' tx root' _ Hok Hr' (run_sound _ _ _ _ _ Hs Hrun)) as Hfl.
  unfold Flush. destruct (flush kind tx root') as [[ref tx']|e]; cbn [rbind].
  - destruct Hfl as (Hok' & He & _ & Hst); [|]. { eapply Z.le_lt_trans; [apply zlen_operations; by eapply rep_sorted|done]. }
    split; [done|]. split; [by exists h'|]. intros kind' h2 p2 l2 [?|Hs2]; [by left|right; by eapply stored_extends].
  - apply Hfl. eapply Z.le_lt_trans; [apply zlen_operations; by eapply rep_sorted|done].
Qed.
End CopyOnWrite.

(** ** Committing a tree *)

(** The callback of an update of the collection catalog: open the tree of the
    base version, apply the operations, flush it and name it in the next root. *)
Definition catalogUpdate (fuel : nat) (ops : list operation) : builder := fun tx =>
  let base := tx_baseRoot tx in
  let* root := OpenTree tx TreeCatalog (root_CatalogRoot base) in
  let* root := run tx TreeCatalog fuel root ops in
  let* (page, tx) := Flush TreeCatalog tx root in
  Ok (mk_DatabaseRoot (tx_sequence tx) page (root_CommitLogRoot base) (root_FreeSpaceRoot base)
        (root_OldestRetainedSequence base) (root_CatalogGeneration base) (root_DocumentCount base)
        (root_CollectionCount base) (root_IndexBuildCatalogRoot base), tx).

Lemma current_root f : file_ok f -> root_ok (f_root f).
Proof.
  intros [Ho _ _ _ _ _ _ _ _]. pose proof (oa_root _ _ _ _ Ho) as Hr. unfold readDatabaseRoot in Hr.
  destruct (opens_meta _ _ _ _ Ho) as ((_ & _ & Hc & _) & _). destruct (RootPage (f_meta f) =? 0).
  - injection Hr as <-. unfold root_ok, u64 in *. cbn. lia.
  - destruct (read_page _ _) as [raw|]; [|done]. cbn [rbind] in Hr.
    destruct (DecodeDatabaseRoot raw _) as [[r p]|] eqn:E; [|done]. cbn [rbind] in Hr.
    destruct (negb _) in Hr; [done|]. injection Hr as <-. by apply DecodeDatabaseRoot_sound in E as [? _].
Qed.

Lemma begin_features f advance tx : beginUpdate f advance = Ok tx -> tx_requiredFeatures tx = RequiredFeatures (f_meta f).
Proof.
  unfold beginUpdate. destruct (f_fatalErr f); [done|]. destruct (_ <? _); [done|]. destruct (_ || _); [done|].
  by intros <-%Ok_inj.
Qed.

Section Commit.
Variables (f : File) (ops : list operation) (fuel h : nat) (l : list KeyValue).
Hypothesis Hf : file_ok f.
Hypothesis Htree : tree_at TreeCatalog (snapshot f) h (root_CatalogRoot (f_root f)) l.
Hypothesis Hsmall : Forall small_entry l.
Hypothesis Hops : Forall operation_ok ops.
Hypothesis Hmax : zlen l + zlen ops < 2 ^ 64.
Hypothesis Hfuel : (h + length ops < fuel)%nat.

(** What the callback returns. *)
Lemma catalogUpdate_spec advance tx :
  0 <= advance < 2 ^ 64 -> beginUpdate f advance = Ok tx ->
  match catalogUpdate fuel ops tx with
  | Ok (root, tx') => written [] tx' /\ same_txn tx tx' /\ tx_requiredFeatures tx' = tx_requiredFeatures tx /\
      extends tx tx' /\ exists h' page, (h' <= h + length ops)%nat /\ stored TreeCatalog tx' h' page (fold_left operate ops l) /\
      root = mk_DatabaseRoot (tx_sequence tx) page (root_CommitLogRoot (f_root f)) (root_FreeSpaceRoot (f_root f))
        (root_OldestRetainedSequence (f_root f)) (root_CatalogGeneration (f_root f)) (root_DocumentCount (f_root f))
        (root_CollectionCount (f_root f)) (root_IndexBuildCatalogRoot (f_root f))
  | Err e => e = ErrStorageLimit
  end.
Proof.
  intros Ha Hb. destruct (begin_written f advance tx Hf Ha Hb) as (Hw & _ & Hbase & _).
  assert (Ht : tree_at TreeCatalog tx h (root_CatalogRoot (tx_baseRoot tx)) l).
  { rewrite Hbase. eapply tree_at_extends; [by eapply begin_extends|exact Htree]. }
  assert (Hok : store_ok tx) by exact (w_ok _ _ Hw).
  destruct (OpenTree_tree_at TreeCatalog tx h _ l Hok Ht) as (root & Ho & Hr & Hs).
  destruct (run_rep tx TreeCatalog ops fuel h root l Hr Hsmall Hops Hmax Hfuel) as (root' & h' & Hrun & Hh' & Hr').
  unfold catalogUpdate. rewrite Ho. cbn [rbind]. rewrite Hrun. cbn [rbind].
  pose proof (flush_correct TreeCatalog h' tx root' _ Hok Hr' (run_sound _ _ _ _ _ _ Hs Hrun)) as Hfl.
  assert (Hz : zlen (fold_left operate ops l) < 2 ^ 64).
  { eapply Z.le_lt_trans; [apply zlen_operations; by eapply rep_sorted|done]. }
  destruct (Flush TreeCatalog tx root') as [[page tx']|e] eqn:Efl; cbn [rbind].
  - destruct (Flush_written [] _ _ _ _ _ Hw Efl) as (Hw' & Hs' & Hf'). unfold Flush in Efl.
    destruct (flush TreeCatalog tx root') as [[ref tx3]|]; [|done]. injection Efl as <- <-.
    destruct (Hfl Hz) as (_ & He & _ & Hst).
    split; [done|]. split; [done|]. split; [done|]. split; [done|]. exists h', (ref_pageID ref). split; [done|]. split; [done|].
    by rewrite Hbase, (same_sequence _ _ Hs').
  - unfold Flush in Efl. destruct (flush TreeCatalog tx root') as [[ref tx3]|]; [done|]. injection Efl as <-. by apply Hfl.
Qed.

Lemma catalogUpdate_ok advance : 0 <= advance < 2 ^ 64 -> build_ok f advance (catalogUpdate fuel ops).
Proof.
  intros Ha tx Hb. pose proof (catalogUpdate_spec advance tx Ha Hb) as Hspec.
  destruct (catalogUpdate fuel ops tx) as [[root tx']|]; [|done].
  destruct Hspec as (Hw & Hs & Hft & _ & h' & page & _ & Hst & ->).
  destruct (begin_written f advance tx Hf Ha Hb) as (Hw0 & Hfile & _ & _ & Hseq & _ & Hnext).
  pose proof (w_ok _ _ Hw) as Hok. apply stored_available in Hst as Hav. apply (available_range _ _ Hok) in Hav as [Hp _].
  assert (Hn : f_nextPage f <= tx_nextPage tx') by (rewrite <- Hnext; apply Hs).
  split; [done|]. split; [done|]. split; [|split].
  - destruct (current_root f Hf) as (_ & _ & H2 & H3 & H4 & H5 & H6 & H7 & H8).
    destruct Hok as [_ _ Hwd _ Hsq _ _ _ _]. rewrite (same_sequence _ _ Hs) in Hsq. unfold root_ok, u64 in *. cbn. lia.
  - assert (Hbase : forall p, p ∈ root_references (f_root f) -> reference_ok (tx_nextPage tx') p = true).
    { intros p Hin. eapply reference_mono; [exact Hn|]. by apply base_references. }
    unfold root_references in *. cbn. constructor.
    { unfold reference_ok. apply orb_true_iff. right. bgoal; lia. }
    apply Forall_forall. intros p Hin. apply Hbase. by right.
  - rewrite Hft, (begin_features f advance tx Hb). destruct (opens_meta _ _ _ _ (fo_opens _ Hf)) as (Hm & Hu & _).
    split; [apply Hm|done].
Qed.

(** Staging keeps what the callback wrote. *)
Lemma stageUpdate_built advance build tx root id :
  0 <= advance < 2 ^ 64 -> build_ok f advance build -> stageUpdate f advance build = Ok (tx, root, id) ->
  exists tx0 tx1 root1, beginUpdate f advance = Ok tx0 /\ build tx0 = Ok (root1, tx1) /\ extends tx1 tx /\
    root_CatalogRoot root = root_CatalogRoot root1.
Proof.
  intros Ha Hb. unfold stageUpdate. intros Hst. inv_ok. rename a into tx0, Hok into Hbegin. specialize (Hb tx0 Hbegin).
  pose proof (begin_written f advance tx0 Hf Ha Hbegin) as (Hw0 & Hfile & _).
  destruct a0 as [root1 tx1]. rewrite Hok0 in Hb. destruct Hb as (Hw1 & Hs1 & _).
  set (root2 := if negb (tx_indexBuildCatalogChanged tx1) then _ else root1) in Hst.
  assert (Hr2 : root_CatalogRoot root2 = root_CatalogRoot root1) by (unfold root2; by destruct (negb _)).
  destruct (_ || _) in Hst; [done|]. inv_ok. destruct a as [rid tx2]. inv_ok. destruct a as [root3 tx3]. inv_ok.
  injection Hst as <- <- <-. pose proof (allocate_written [] _ _ _ Hw1 Hok) as (Hw2 & Hs2 & _).
  assert (Hlen2 : zlen (tx_freePages tx2) < 2 ^ 63).
  { eapply free_length; [exact Hw2|]. by rewrite (same_file _ _ Hs2), (same_file _ _ Hs1), Hfile. }
  pose proof (finalizeFreeSpace_correct [rid] tx2 root2 Hw2 Hlen2) as Hfin. rewrite Hok1 in Hfin.
  destruct Hfin as (_ & _ & _ & He & page & -> & _).
  exists tx0, tx1, root1. split; [done|]. split; [done|]. split; [|done].
  apply allocatePageID_ok in Hok as (_ & _ & _ & _ & _ & _ & Heq); [|apply Hw1].
  etransitivity; [|etransitivity; [exact He|by intros p Hp; split]].
  rewrite Heq. by intros p Hp; split.
Qed.

(** What the new version is staged with. *)
Lemma catalog_staged tx root id :
  stageUpdate f 1 (catalogUpdate fuel ops) = Ok (tx, root, id) ->
  extends (snapshot f) tx /\
  exists h', (h' <= h + length ops)%nat /\ stored TreeCatalog tx h' (root_CatalogRoot root) (fold_left operate ops l).
Proof.
  intros Hst. destruct (stageUpdate_built 1 (catalogUpdate fuel ops) tx root id) as (tx0 & tx1 & root1 & Hb & Hc & He & Hr);
    [lia|by apply catalogUpdate_ok|done|].
  pose proof (catalogUpdate_spec 1 tx0 ltac:(lia) Hb) as Hspec. rewrite Hc in Hspec.
  destruct Hspec as (_ & _ & _ & He1 & h' & page & Hh' & Hs & ->). split.
  - etransitivity; [by eapply begin_extends|]. by etransitivity.
  - exists h'. split; [done|]. rewrite Hr. by eapply stored_extends.
Qed.

(** What committing operations on the catalog tree leaves. *)
Lemma commit_catalog_cases io :
  let '(outcome, f', trace) := updateUnlockedAdvance io f 1 (catalogUpdate fuel ops) in
  match outcome with
  | None => file_ok f' /\
      (exists h', (h' <= h + length ops)%nat /\
         stored TreeCatalog (snapshot f') h' (root_CatalogRoot (f_root f')) (fold_left operate ops l)) /\
      forall kind h0 page l0, tree_at kind (snapshot f) h0 page l0 -> tree_at kind (snapshot f') h0 page l0
  | Some _ => f_meta f' = f_meta f /\ f_root f' = f_root f /\ (file_ok f' \/ f_fatalErr f' <> None)
  end.
Proof.
  pose proof (catalogUpdate_ok 1 ltac:(lia)) as Hb.
  pose proof (update_outcome_cases io f 1 (catalogUpdate fuel ops) Hf Hb ltac:(lia)) as Hout.
  destruct (updateUnlockedAdvance io f 1 (catalogUpdate fuel ops)) as [[[e|] f'] trace] eqn:Hup.
  { destruct Hout as (Hm & Hr & Hout). split; [done|]. split; [done|]. destruct Hout as [?|(e' & He & _)]; [by left|right; by rewrite He]. }
  destruct Hout as (Hf' & _). split; [done|].
  destruct (stageUpdate f 1 (catalogUpdate fuel ops)) as [[[tx root] id]|e] eqn:Hst.
  2: { unfold updateUnlockedAdvance in Hup. by rewrite Hst in Hup. }
  destruct (catalog_staged tx root id Hst) as (He & h' & Hh' & Hs).
  destruct (published_extends io f 1 _ tx root id f' trace Hf Hb ltac:(lia) Hst Hup) as [Hr Hp]. split.
  - exists h'. split; [done|]. rewrite Hr. by eapply stored_extends.
  - intros kind h0 page l0. apply tree_at_extends. by etransitivity.
Qed.

(** C3: committing operations on the catalog tree. After success, lookups by the
    new root find the bindings of the updated map, and every tree of the old
    version reads as before; after a failure the version is the old one, and the
    file either is in order or refuses every later update. *)
Theorem commit_catalog io :
  let '(outcome, f', trace) := updateUnlockedAdvance io f 1 (catalogUpdate fuel ops) in
  match outcome with
  | None => file_ok f' /\
      (forall key, treeGetUnlocked f' TreeCatalog fuel (root_CatalogRoot (f_root f')) key =
         if beqb key [] then Err ErrCorrupt else Ok (field (fold_left operate ops l) key)) /\
      forall kind h0 page l0, tree_at kind (snapshot f) h0 page l0 -> tree_at kind (snapshot f') h0 page l0
  | Some _ => f_meta f' = f_meta f /\ f_root f' = f_root f /\ (file_ok f' \/ f_fatalErr f' <> None)
  end.
Proof.
  pose proof (commit_catalog_cases io) as Hc.
  destruct (updateUnlockedAdvance io f 1 (catalogUpdate fuel ops)) as [[[e|] f'] trace]; [done|].
  destruct Hc as (Hf' & (h' & Hh' & Hs) & Hold). split; [done|]. split; [|done]. intros key.
  assert (Hid : root_CatalogRoot (f_root f') <> 0).
  { apply stored_available in Hs. apply (kept_snapshot f' Hf') in Hs as [? _]. lia. }
  rewrite (treeGetUnlocked_correct f' TreeCatalog h' _ (fold_left operate ops l)); [|by right|done|lia].
  destruct (Z.eqb_spec (root_CatalogRoot (f_root f')) 0); [done|]. by rewrite andb_true_r.
Qed.

(** C1: whenever a crash interrupts committing operations on the catalog tree,
    the file opens and its catalog holds either the old map or the updated one;
    the updated one if the commit had succeeded. *)
Theorem commit_all_or_nothing io tr d :
  let '(outcome, f', trace) := updateUnlockedAdvance io f 1 (catalogUpdate fuel ops) in
  tr `prefix_of` trace -> crash (settled (f_file f) tr).1 (settled (f_file f) tr).2 d ->
  exists st l', inspectExistingFile d (zlen d) = Ok st /\
    (forall max, exists h', tree_at TreeCatalog (snapshot (open st d max)) h' (root_CatalogRoot (st_root st)) l') /\
    (l' = l \/ l' = fold_left operate ops l) /\
    (outcome = None -> tr = trace -> l' = fold_left operate ops l).
Proof.
  pose proof (catalogUpdate_ok 1 ltac:(lia)) as Hb.
  pose proof (update_crash io f 1 (catalogUpdate fuel ops) tr d Hf Hb ltac:(lia)) as Hat.
  destruct (updateUnlockedAdvance io f 1 (catalogUpdate fuel ops)) as [[outcome f'] trace].
  intros Ht Hc. destruct (Hat Ht Hc) as [Hdone Hany]. clear Hat.
  assert (Hnew : forall tx root id m, stageUpdate f 1 (catalogUpdate fuel ops) = Ok (tx, root, id) -> recovers d m root tx ->
    exists st, inspectExistingFile d (zlen d) = Ok st /\ forall max, exists h',
      tree_at TreeCatalog (snapshot (open st d max)) h' (root_CatalogRoot (st_root st)) (fold_left operate ops l)).
  { intros tx root id m Hst (st & Hi & _ & Hr & Htrees). exists st. split; [done|]. intros max.
    destruct (catalog_staged tx root id Hst) as (_ & h' & _ & Hs). exists h'. right. rewrite Hr. by apply Htrees. }
  assert (Hcase : (outcome = None /\ tr = trace) \/ ~ (outcome = None /\ tr = trace)).
  { destruct outcome; [right; by intros []|]. destruct (decide (tr = trace)); [by left|right; by intros []]. }
  destruct Hcase as [[Ho Htr]|Hn].
  - destruct (Hdone Ho Htr) as (tx & root & id & Hst & _ & Hr & Hrec). rewrite Hr in Hrec.
    destruct (Hnew tx root id _ Hst Hrec) as (st & Hi & Htrees). exists st, (fold_left operate ops l).
    split; [done|]. split; [done|]. split; [by right|done].
  - destruct Hany as [(st & Hi & _ & Hr & Htrees)|(tx & root & id & Hst & _ & Hrec)].
    + exists st, l. split; [done|]. split.
      { intros max. exists h. rewrite Hr. destruct Htree as [?|Hs]; [by left|right; by apply Htrees]. }
      split; [by left|]. intros ? ?. by destruct Hn.
    + destruct (Hnew tx root id _ Hst Hrec) as (st & Hi & Htrees). exists st, (fold_left operate ops l).
      split; [done|]. split; [done|]. split; [by right|done].
Qed.
End Commit.
