(* ===== verification/Transactions.v ===== *)
(** * Trees a transaction is updating

    What the components above the storage trees need of them: a tree opened in a
    write transaction, its updates while the transaction stages other pages, and
    its flush. *)
From stdpp Require Import gmap.
From S2P Require Import Prelude Bytes Layout Entries Hashes PageFormat Records NodeCodec CowTree TreeShape.
From S2P Require Import TreeInvariant TreeRep TreeDelete TreeScan Tree Flush FileStore Recovery Commit Atomicity.
From S2P Require Import TreeRead Snapshots.
#[local] Open Scope Z_scope.

(** ** Steps of a transaction *)

(** From [tx] a callback has reached [tx']: every page of [tx] is as it was. *)
Record moves (tx tx' : WriteTxn) : Prop := {
  mv_written : written [] tx';
  mv_same : same_txn tx tx';
  mv_features : tx_requiredFeatures tx' = tx_requiredFeatures tx;
  mv_extends : extends tx tx' }.

Lemma moves_refl tx : written [] tx -> moves tx tx.
Proof. intros Hw. constructor; [done|reflexivity|done|reflexivity]. Qed.

Lemma moves_trans a b c : moves a b -> moves b c -> moves a c.
Proof. intros [_ S1 F1 E1] [W2 S2 F2 E2]. constructor; [done|by etransitivity|congruence|by etransitivity]. Qed.

Lemma moves_retention tx evaluated retained : written [] tx -> moves tx (set_retention tx evaluated retained).
Proof.
  intros Hw. constructor; [|by constructor|done|by intros p Hp; split].
  destruct Hw as [[] ? ? ? ? ? ?]. constructor; [constructor|..]; done.
Qed.

(** Every page of [tx] reads the same in [tx']. *)
Definition carries (tx tx' : WriteTxn) : Prop := extends tx tx' /\ tx_nextPage tx <= tx_nextPage tx'.

Lemma moves_carries tx tx' : moves tx tx' -> carries tx tx'.
Proof. intros [_ Hs _ He]. split; [done|]. apply Hs. Qed.

Lemma carries_trans a b c : carries a b -> carries b c -> carries a c.
Proof. intros [E1 N1] [E2 N2]. split; [by etransitivity|lia]. Qed.

(** What only the bookkeeping of retention and of index builds changes. *)
Definition flags (tx : WriteTxn) : bool * Z * bool :=
  (tx_retentionEvaluated tx, tx_retainedCommitBytes tx, tx_indexBuildCatalogChanged tx).

(** A step that only stages pages. *)
Definition quiet (tx tx' : WriteTxn) : Prop := moves tx tx' /\ flags tx' = flags tx.

Lemma quiet_refl tx : written [] tx -> quiet tx tx.
Proof. split; [by apply moves_refl|done]. Qed.

Lemma quiet_trans a b c : quiet a b -> quiet b c -> quiet a c.
Proof. intros [H1 F1] [H2 F2]. split; [by eapply moves_trans|congruence]. Qed.

Lemma allocate_flags tx id tx' : allocatePageID tx = Ok (id, tx') -> flags tx' = flags tx.
Proof.
  unfold allocatePageID. destruct (tx_nextPage tx <? 2); [done|].
  assert (Hg : (if (f_maxPhysicalPages (tx_file tx) =? 0) || (f_maxPhysicalPages (tx_file tx) <=? tx_nextPage tx) then Err ErrStorageLimit
    else if to_u64 (tx_nextPage tx + 1) =? 0 then Err ErrCorrupt
    else Ok (tx_nextPage tx, set_alloc tx (to_u64 (tx_nextPage tx + 1)) (tx_freePages tx) (tx_reusedPages tx))) = Ok (id, tx') ->
    flags tx' = flags tx).
  { destruct (_ || _); [done|]. destruct (_ =? 0); [done|]. intros Hg. injection Hg as Hn1 Hn2. by subst. }
  destruct (last (tx_freePages tx)); [|exact Hg]. destruct (tx_metadataAllocation tx); [exact Hg|].
  destruct (_ || _) in |- *; [done|]. intros Ha. injection Ha as Hn1 Hn2. by subst.
Qed.

Lemma allocates_flags n tx ids tx' : allocatePageIDs tx n = Ok (ids, tx') -> flags tx' = flags tx.
Proof.
  revert tx ids; induction n as [|n IH]; intros tx ids; cbn [allocatePageIDs]; [by intros [= _ <-]|].
  intros Ha. inv_ok. destruct a as [id tx1]. inv_ok. destruct a as [rest tx2]. injection Ha as Hn1 Hn2. subst.
  rewrite (IH _ _ Hok0). by eapply allocate_flags.
Qed.

Lemma appendPageAt_flags tx id t fl n link payload tx' : appendPageAt tx id t fl n link payload = Ok tx' -> flags tx' = flags tx.
Proof. unfold appendPageAt. destruct (id <? 2); [done|]. intros Ha. inv_ok. by subst. Qed.

Lemma Flush_flags kind tx root page tx' : Flush kind tx root = Ok (page, tx') -> flags tx' = flags tx.
Proof.
  unfold Flush. intros Hf. inv_ok. destruct a as [ref tx1]. injection Hf as Hn1 Hn2. subst.
  refine (flush_steps kind (fun a b => flags b = flags a) _ _ _ _ _ _ Hok).
  - split; [by intros ?|]. intros a b c H1 H2. congruence.
  - intros tx0 t n payload id tx2 _ Ha. cbn in Ha. unfold tx_appendPage in Ha. inv_ok. destruct a as [id1 tx3]. inv_ok. injection Ha as Hn1 Hn2. subst.
    rewrite (appendPageAt_flags _ _ _ _ _ _ _ _ Hok1). by eapply allocate_flags.
Qed.

(** ** Trees in memory *)

(** The tree at [tree], of height at most [h], holds [l]. *)
Definition live (tx : WriteTxn) (kind : TreeKind) (h : nat) (tree : nodeRef) (l : list KeyValue) : Prop :=
  exists h', (h' <= h)%nat /\ rep tx kind h' tree l /\ sound kind tx tree.

(** The tree at a page, of height at most [h]; page zero is the empty tree. *)
Definition held (tx : WriteTxn) (kind : TreeKind) (h : nat) (page : Z) (l : list KeyValue) : Prop :=
  exists h', (h' <= h)%nat /\ tree_at kind tx h' page l.

Section Live.
Context {kind : TreeKind}.
Implicit Types (tx : WriteTxn) (tree : nodeRef) (l : list KeyValue).

Lemma live_sorted tx h tree l : live tx kind h tree l -> sorted_keys l.
Proof. intros (h' & _ & Hr & _). by eapply rep_sorted. Qed.

Lemma live_count tx h tree l : live tx kind h tree l -> ref_count tree = zlen l.
Proof. intros (h' & _ & Hr & _). by eapply rep_count. Qed.

Lemma live_mono tx h1 h2 tree l : (h1 <= h2)%nat -> live tx kind h1 tree l -> live tx kind h2 tree l.
Proof. intros Hh (h' & ? & ?). exists h'. split; [lia|done]. Qed.

Lemma live_moves tx tx' h tree l : moves tx tx' -> live tx kind h tree l -> live tx' kind h tree l.
Proof.
  intros Hm (h' & ? & Hr & Hs). pose proof (mv_extends _ _ Hm). exists h'. split; [done|].
  split; [by eapply rep_extends|by eapply sound_extends].
Qed.

Lemma held_carries tx tx' h page l : carries tx tx' -> held tx kind h page l -> held tx' kind h page l.
Proof. intros Hm (h' & ? & Ht). exists h'. split; [done|]. eapply tree_at_extends; [apply Hm|done]. Qed.

Lemma held_moves tx tx' h page l : moves tx tx' -> held tx kind h page l -> held tx' kind h page l.
Proof. intros Hm%moves_carries. by apply held_carries. Qed.

Lemma held_mono tx h1 h2 page l : (h1 <= h2)%nat -> held tx kind h1 page l -> held tx kind h2 page l.
Proof. intros Hh (h' & ? & ?). exists h'. split; [lia|done]. Qed.

Lemma held_sorted tx h page l : held tx kind h page l -> sorted_keys l.
Proof.
  intros (h' & _ & [(_ & -> & _)|Hs]); [apply sorted_keys_nil|]. destruct Hs as [Hr _]. by eapply rep_sorted.
Qed.

Lemma open_live tx h page l :
  written [] tx -> held tx kind h page l -> exists tree, OpenTree tx kind page = Ok tree /\ live tx kind h tree l.
Proof.
  intros Hw (h' & Hh & Ht). assert (Hok : store_ok tx) by exact (w_ok _ _ Hw).
  destruct (OpenTree_tree_at kind tx h' page l Hok Ht) as (tree & Ho & Hr & Hs).
  exists tree. split; [done|]. by exists h'.
Qed.

Lemma get_live tx h tree l key fuel : live tx kind h tree l -> (h < fuel)%nat -> Get tx kind fuel tree key = Ok (field l key).
Proof. intros (h' & Hh & Hr & _) Hf. apply (getBorrowed_correct tx kind h'); [done|lia]. Qed.

Lemma scan_live tx h tree l fuel limit :
  live tx kind h tree l -> (h < fuel)%nat -> Scan tx kind fuel tree [] [] limit = Ok (scan_result [] [] limit l).
Proof. intros (h' & Hh & Hr & _) Hf. by rewrite (Scan_rep tx kind h' tree l [] [] limit fuel Hr) by lia. Qed.

(** Insertion, its failure, and the cases where it does not fail. *)
Lemma put_live tx h tree l key value fuel :
  live tx kind h tree l -> zlen l + 1 < 2 ^ 64 -> (h < fuel)%nat -> key_ok key ->
  match Put tx kind fuel tree key value with
  | Ok (tree', _) => live tx kind (S h) tree' (ins key value l)
  | Err e => e = ErrNodeFull /\ ~ Forall small_entry ((key, value) :: l)
  end.
Proof.
  intros (h' & Hh & Hr & Hs) Hmax Hf Hk. pose proof (Put_rep tx kind h' tree l key value fuel Hr Hmax ltac:(lia) Hk) as HP.
  destruct (Put tx kind fuel tree key value) as [[tree' s]|e] eqn:E; [|done]. destruct HP as (h2 & ? & Hr2).
  exists h2. split; [lia|]. split; [done|]. by eapply Put_sound.
Qed.

Lemma put_live_last tx h tree l key value fuel :
  live tx kind h tree l -> zlen l + 1 < 2 ^ 64 -> (h < fuel)%nat -> key_ok key ->
  Forall (fun k => blt k key) l.*1 -> zlen key + zlen value <= capacity - 46 ->
  exists tree' s, Put tx kind fuel tree key value = Ok (tree', s) /\ live tx kind (S h) tree' (l ++ [(key, value)]).
Proof.
  intros Hl Hmax Hf Hk Hlast Hfit. pose proof (put_live tx h tree l key value fuel Hl Hmax Hf Hk) as HP.
  destruct Hl as (h' & Hh & Hr & Hs).
  destruct (put_last_succeeds tx kind h' tree l key value fuel Hr Hk Hmax ltac:(lia) Hlast) as [[c n] Hput].
  { rewrite leaf_bytes_cons. change (leaf_bytes []) with 0. lia. }
  unfold Put in *. rewrite (proj2 (key_guard key) Hk), Hput in *. cbn [rbind] in *. rewrite ins_last in HP by done. eauto.
Qed.

Lemma delete_live tx h tree l key fuel :
  live tx kind h tree l -> zlen l < 2 ^ 64 -> (S h < fuel)%nat -> key <> [] ->
  exists tree' counts, Delete tx kind fuel tree key = Ok (found l key, tree', counts) /\ live tx kind (S h) tree' (del key l).
Proof.
  intros (h' & Hh & Hr & Hs) Hmax Hf Hk.
  destruct (Delete_rep tx kind h' tree l key fuel Hr Hmax ltac:(lia) Hk) as (tree' & counts & h2 & HD & ? & Hr2).
  exists tree', counts. split; [done|]. exists h2. split; [lia|]. split; [done|]. by eapply Delete_sound.
Qed.

Lemma flush_ref_live tx h tree l :
  written [] tx -> live tx kind h tree l -> zlen l < 2 ^ 64 ->
  match flush kind tx tree with
  | Ok (ref, tx') => quiet tx tx' /\ 2 <= ref_pageID ref < tx_nextPage tx' /\ ref_count ref = zlen l /\
      (exists h', (h' <= h)%nat /\ stored kind tx' h' (ref_pageID ref) l) /\ held tx' kind h (ref_pageID ref) l
  | Err e => e = ErrStorageLimit
  end.
Proof.
  intros Hw (h' & Hh & Hr & Hs) Hz. assert (Hok0 : store_ok tx) by exact (w_ok _ _ Hw).
  pose proof (flush_correct kind h' tx tree l Hok0 Hr Hs) as Hfl.
  destruct (flush kind tx tree) as [[ref tx']|e] eqn:Efl; [|by apply Hfl].
  assert (Efl2 : Flush kind tx tree = Ok (ref_pageID ref, tx')) by (unfold Flush; by rewrite Efl).
  destruct (Flush_written [] _ _ _ _ _ Hw Efl2) as (Hw' & Hs' & Hf'). pose proof (Flush_flags _ _ _ _ _ Efl2).
  destruct (Hfl Hz) as (Hok & He & Hrep & Hst).
  split; [split; [by constructor|done]|]. apply stored_available in Hst as Hav. apply (available_range _ _ Hok) in Hav as [Hp _].
  split; [done|]. split; [exact Hrep|]. split; [by exists h'|]. exists h'. split; [done|]. by right.
Qed.

Lemma flush_live tx h tree l :
  written [] tx -> live tx kind h tree l -> zlen l < 2 ^ 64 ->
  match Flush kind tx tree with
  | Ok (page, tx') => quiet tx tx' /\ 2 <= page < tx_nextPage tx' /\
      (exists h', (h' <= h)%nat /\ stored kind tx' h' page l) /\ held tx' kind h page l
  | Err e => e = ErrStorageLimit
  end.
Proof.
  intros Hw Hl Hz. pose proof (flush_ref_live tx h tree l Hw Hl Hz) as Hf. unfold Flush.
  destruct (flush kind tx tree) as [[ref tx']|e]; cbn [rbind]; [|exact Hf]. by destruct Hf as (? & ? & _ & ? & ?).
Qed.
End Live.

(** ** Callbacks of updates

    What publishing does with the result of a callback that stages pages: the
    interface between [updateUnlockedAdvance] and the transactions of the
    components above it. *)
(** The roots that publication leaves as the callback returned them. *)
Definition same_version (r r' : DatabaseRoot) : Prop :=
  root_CommitSequence r' = root_CommitSequence r /\ root_CatalogRoot r' = root_CatalogRoot r /\
  root_CommitLogRoot r' = root_CommitLogRoot r /\ root_OldestRetainedSequence r' = root_OldestRetainedSequence r /\
  root_CatalogGeneration r' = root_CatalogGeneration r /\ root_DocumentCount r' = root_DocumentCount r /\
  root_CollectionCount r' = root_CollectionCount r.

(** The settings and the pins of readers, which no commit changes. *)
Definition same_readers (f f' : File) : Prop :=
  f_readers f' = f_readers f /\ f_commitRetentionMax f' = f_commitRetentionMax f /\
  f_commitRetentionMaxBytes f' = f_commitRetentionMaxBytes f /\ f_maxPhysicalPages f' = f_maxPhysicalPages f /\
  f_nextPin f' = f_nextPin f.

(** A callback that stages pages, returns a root of legal fields, and reaches
    [post]. *)
Definition built (f : File) (advance : Z) (build : builder) (post : WriteTxn -> DatabaseRoot -> WriteTxn -> Prop) : Prop :=
  forall tx, beginUpdate f advance = Ok tx ->
    match build tx with
    | Ok (root, tx') =>
        moves tx tx' /\ root_ok root /\ Forall (fun p => reference_ok (tx_nextPage tx') p = true) (root_references root) /\ post tx root tx'
    | Err _ => True
    end.

Lemma built_ok f advance build post : file_ok f -> 0 <= advance < 2 ^ 64 -> built f advance build post -> build_ok f advance build.
Proof.
  intros Hf Ha Hb tx Htx. specialize (Hb tx Htx). destruct (build tx) as [[root tx']|]; [|done].
  destruct Hb as ([Hw Hs Hft _] & Hr & Hrefs & _). do 4 (split; [done|]). rewrite Hft, (begin_features f advance tx Htx).
  destruct (opens_meta _ _ _ _ (fo_opens _ Hf)) as (Hm & Hu & _). split; [apply Hm|done].
Qed.

(** The root of the base version has legal fields and references. *)
Lemma base_root f advance tx :
  file_ok f -> 0 <= advance < 2 ^ 64 -> beginUpdate f advance = Ok tx ->
  root_ok (tx_baseRoot tx) /\ Forall (fun p => reference_ok (tx_nextPage tx) p = true) (root_references (tx_baseRoot tx)) /\
  u64 (tx_sequence tx).
Proof.
  intros Hf Ha Hb. destruct (begin_written f advance tx Hf Ha Hb) as (Hw & Hfile & Hbase & _ & Hseq & _ & Hnext).
  rewrite Hbase, Hnext. split; [by apply current_root|]. split.
  - apply Forall_forall. intros p Hp. by apply base_references.
  - destruct (w_ok _ _ Hw). unfold u64. lia.
Qed.

Lemma finalize_flags tx root root' tx' : finalizeFreeSpace tx root = Ok (root', tx') -> flags tx' = flags tx.
Proof.
  unfold finalizeFreeSpace. destruct (negb (tx_freeSpaceTracked tx)); [by intros [= _ <-]|].
  destruct (negb (tx_freeSpaceRebuild tx)); [by intros [= _ <-]|]. destruct (tx_freePages tx); [by intros [= _ <-]|].
  intros Hf. inv_ok. destruct a1 as [page tx1]. injection Hf as _ <-. by apply Flush_flags in Hok1.
Qed.

(** What staging leaves of the callback's result. *)
Lemma stageUpdate_keeps f advance build tx root id :
  file_ok f -> 0 <= advance < 2 ^ 64 -> build_ok f advance build -> stageUpdate f advance build = Ok (tx, root, id) ->
  exists tx0 tx1 root1, beginUpdate f advance = Ok tx0 /\ build tx0 = Ok (root1, tx1) /\ carries tx1 tx /\
    same_version root1 root /\ flags tx = flags tx1 /\ tx_requiredFeatures tx = tx_requiredFeatures tx1 /\
    root_IndexBuildCatalogRoot root =
      (if tx_indexBuildCatalogChanged tx1 then root_IndexBuildCatalogRoot root1 else root_IndexBuildCatalogRoot (f_root f)).
Proof.
  intros Hf Ha Hb Hst0. pose proof (stageUpdate_ok f advance build tx root id Hf Ha Hb Hst0) as [rootPage Hsu].
  revert Hst0. unfold stageUpdate. intros Hst. inv_ok. rename a into tx0, Hok into Hbegin. specialize (Hb tx0 Hbegin).
  pose proof (begin_written f advance tx0 Hf Ha Hbegin) as (Hw0 & Hfile & _).
  destruct a0 as [root1 tx1]. rewrite Hok0 in Hb. destruct Hb as (Hw1 & Hs1 & _).
  set (root2 := if negb (tx_indexBuildCatalogChanged tx1) then _ else root1) in Hst.
  destruct (_ || _) in Hst; [done|]. inv_ok. destruct a as [rid tx2]. inv_ok. destruct a as [root3 tx3]. inv_ok.
  injection Hst as <- <- <-. pose proof (allocate_written [] _ _ _ Hw1 Hok) as (Hw2 & Hs2 & Hft2).
  assert (Hlen2 : zlen (tx_freePages tx2) < 2 ^ 63).
  { eapply free_length; [exact Hw2|]. by rewrite (same_file _ _ Hs2), (same_file _ _ Hs1), Hfile. }
  pose proof (finalizeFreeSpace_correct [rid] tx2 root2 Hw2 Hlen2) as Hfin. rewrite Hok1 in Hfin.
  destruct Hfin as (_ & Hs3 & Hft3 & He & page & -> & _). pose proof (finalize_flags _ _ _ _ Hok1) as Hfl3.
  pose proof (allocate_flags _ _ _ Hok) as Hfl2.
  exists tx0, tx1, root1. split; [done|]. split; [done|]. split; [split|split; [|split; [|split; [|]]]].
  - apply allocatePageID_ok in Hok as (_ & _ & _ & _ & _ & _ & Heq); [|apply Hw1].
    etransitivity; [|etransitivity; [exact He|by intros p Hp; split]]. rewrite Heq. by intros p Hp; split.
  - pose proof (same_next _ _ Hs2). pose proof (same_next _ _ Hs3). cbn. lia.
  - unfold root2, same_version. by destruct (negb _).
  - transitivity (flags tx3); [done|]. congruence.
  - cbn. destruct Hft2 as (_ & _ & Hft2). congruence.
  - unfold root2. by destruct (tx_indexBuildCatalogChanged tx1).
Qed.

(** What a commit leaves. *)
Definition committed (f : File) (advance : Z) (build : builder) (post : WriteTxn -> DatabaseRoot -> WriteTxn -> Prop) (f' : File) : Prop :=
  file_ok f' /\ f_fatalErr f' = None /\ same_readers f f' /\ CommitSequence (f_meta f') = CommitSequence (f_meta f) + advance /\
  exists tx root tx', beginUpdate f advance = Ok tx /\ build tx = Ok (root, tx') /\ moves tx tx' /\ post tx root tx' /\
    carries (snapshot f) tx /\ carries tx' (snapshot f') /\ same_version root (f_root f') /\
    root_CommitSequence root = tx_sequence tx /\
    root_IndexBuildCatalogRoot (f_root f') =
      (if tx_indexBuildCatalogChanged tx' then root_IndexBuildCatalogRoot root else root_IndexBuildCatalogRoot (f_root f)) /\
    f_retainedCommitBytes f' = (if tx_retentionEvaluated tx' then tx_retainedCommitBytes tx' else f_retainedCommitBytes f) /\
    RequiredFeatures (f_meta f') = tx_requiredFeatures tx'.

Lemma update_readers io f advance build : same_readers f (updateUnlockedAdvance io f advance build).1.2.
Proof.
  unfold updateUnlockedAdvance. destruct (stageUpdate f advance build) as [[[tx root] id]|]; [|done].
  destruct (performIO _ _ _ _) as [[[] d] tr]; [|done]. destruct (EncodeMeta _); [|done].
  by destruct (performIO _ _ _ _) as [[[] d'] tr'].
Qed.

Lemma commit_built io f advance build post :
  file_ok f -> 0 <= advance < 2 ^ 64 -> built f advance build post ->
  let '(outcome, f', trace) := updateUnlockedAdvance io f advance build in
  match outcome with
  | None => committed f advance build post f'
  | Some _ => f_meta f' = f_meta f /\ f_root f' = f_root f /\ same_readers f f' /\ (file_ok f' \/ f_fatalErr f' <> None)
  end.
Proof.
  intros Hf Ha Hbt. pose proof (built_ok f advance build post Hf Ha Hbt) as Hb.
  pose proof (update_outcome_cases io f advance build Hf Hb Ha) as Hout. pose proof (update_readers io f advance build) as Hread.
  destruct (updateUnlockedAdvance io f advance build) as [[[e|] f'] trace] eqn:Hup; cbn [fst snd] in Hread.
  { destruct Hout as (Hm & Hr & Hout). do 3 (split; [done|]). destruct Hout as [?|(e' & He & _)]; [by left|right; by rewrite He]. }
  destruct Hout as (Hf' & Hfe & _ & Hseq & _). do 4 (split; [done|]).
  destruct (stageUpdate f advance build) as [[[tx root] id]|e] eqn:Hst.
  2: { unfold updateUnlockedAdvance in Hup. by rewrite Hst in Hup. }
  destruct (stageUpdate_keeps f advance build tx root id Hf Ha Hb Hst) as (tx0 & tx1 & root1 & Hbegin & Hbuild & Hc & Hv & Hfl & Hft & Hib).
  destruct (stageUpdate_ok f advance build tx root id Hf Ha Hb Hst) as [rootPage Hsu].
  destruct (published_extends io f advance build tx root id f' trace Hf Hb Ha Hst Hup) as [Hr He].
  pose proof (Hbt tx0 Hbegin) as Hpost. rewrite Hbuild in Hpost. destruct Hpost as (Hm & _ & _ & Hpost).
  destruct (begin_written f advance tx0 Hf Ha Hbegin) as (_ & _ & _ & _ & Hseq0 & _ & Hnext0).
  exists tx0, root1, tx1. do 4 (split; [done|]). split; [split; [by eapply begin_extends|cbn; lia]|].
  pose proof (update_cases io f advance build tx root id Hst) as Hcases. rewrite Hup in Hcases.
  destruct Hcases as [(? & _)|(encoded & _ & [(? & _)|(_ & _ & Hpub)])]; [done|done|].
  split; [split; [etransitivity; [apply Hc|done]|destruct Hc as [_ Hn]; by rewrite Hpub]|].
  split; [by rewrite Hr|]. split; [|split; [|split]].
  - destruct Hv as (Hcs & _). rewrite <- Hcs, (su_root_sequence _ _ _ _ _ _ Hsu), (su_sequence _ _ _ _ _ _ Hsu). done.
  - by rewrite Hr.
  - rewrite Hpub. cbn [publish f_retainedCommitBytes]. unfold flags in Hfl. by injection Hfl as -> -> _.
  - rewrite Hpub. cbn [publish f_meta publishedMeta RequiredFeatures]. exact Hft.
Qed.

(** Trees of the old version are those of the new one. *)
Lemma committed_carries f advance build post f' : committed f advance build post f' -> carries (snapshot f) (snapshot f').
Proof.
  intros (_ & _ & _ & _ & tx & root & tx' & _ & _ & Hm & _ & H1 & H2 & _).
  eapply carries_trans; [exact H1|]. eapply carries_trans; [by apply moves_carries|exact H2].
Qed.

(** ** Why an update fails

    The reasons for which [updateUnlockedAdvance] of [internal/storage/file.go]
    leaves the version alone: what the callback refuses, a full file, and input or
    output that fails. *)
(** What the callback leaves is a new version: the root carries the new sequence,
    no older than what the log still holds, and the index builds did not change. *)
Definition advances (tx : WriteTxn) (root : DatabaseRoot) (tx' : WriteTxn) : Prop :=
  root_CommitSequence root = tx_sequence tx /\ 0 < tx_sequence tx /\ root_OldestRetainedSequence root <= tx_sequence tx /\
  tx_indexBuildCatalogChanged tx' = false.

(** The current root has builds only with the feature for them. *)
Lemma builds_feature f : file_ok f -> root_IndexBuildCatalogRoot (f_root f) <> 0 -> Z.land (RequiredFeatures (f_meta f)) RequiredFeatureShadowIndexBuilds <> 0.
Proof.
  intros [Ho _ _ _ _ _ _ _ _]. pose proof (oa_root _ _ _ _ Ho) as Hr. pose proof (oa_valid _ _ _ _ Ho) as Hv.
  unfold readDatabaseRoot in Hr. unfold validateRoot in Hv. destruct (Z.eqb_spec (RootPage (f_meta f)) 0) as [E|E].
  { injection Hr as <-. cbn. done. }
  destruct (_ <=? _) in Hv; [done|]. destruct (read_page _ _) as [page|]; [|done]. cbn [rbind] in Hr.
  destruct (DecodeDatabaseRoot _ _) as [[root decoded]|]; [|done]. cbn [rbind] in Hr. destruct (negb _) in Hr; [done|]. injection Hr as ->.
  destruct (_ || _ || _) in Hv; [done|]. destruct (_ && _) eqn:E1 in Hv; [done|]. intros Hne. apply andb_false_iff in E1 as [E1|E1]; breflect; done.
Qed.

Lemma encode_root_total id generation root :
  root_CommitSequence root <> 0 -> root_OldestRetainedSequence root <= root_CommitSequence root -> 2 <= id -> generation <> 0 ->
  exists page, EncodeDatabaseRoot id generation root = Ok page.
Proof.
  intros Hs Ho Hid Hg. rewrite EncodeDatabaseRoot_page. unfold root_refused.
  destruct (Z.ltb_spec (root_CommitSequence root) (root_OldestRetainedSequence root)); [lia|]. destruct (Z.eqb_spec (root_CommitSequence root) 0); [done|].
  cbn [orb andb]. eexists. apply EncodePage_valid. split; [|done]. apply validPage_spec. unfold root_page. cbn. rewrite zlen_root_image. done.
Qed.

Lemma encode_meta_total f advance tx root id rootPage :
  file_ok f -> staged_update f advance tx root id rootPage -> 0 < tx_sequence tx -> is_ok (EncodeMeta (publishedMeta f tx root id)) = true.
Proof.
  intros Hf [Hw _ Hgen _ Hpage _ _ _ Hold _ _ [_ Hfu]] Hseq. pose proof (fo_opens _ Hf) as Ho.
  destruct (opens_meta _ _ _ _ Ho) as ((Hid16 & Hg & _) & _ & Hv). unfold u64 in Hg.
  assert (Hidr : 2 <= id < tx_nextPage tx).
  { pose proof (w_pages _ _ Hw) as Hp. rewrite Forall_forall in Hp. specialize (Hp _ Hpage) as [Hfr _].
    apply (writable_range tx); [apply Hw|exact Hfr]. }
  assert (Hvm : validMeta (publishedMeta f tx root id) = true).
  { unfold validMeta, publishedMeta. cbn -[all_zero]. unfold validMeta in Hv. destruct (all_zero (DatabaseID (f_meta f))); [done|].
    destruct (Z.eqb_spec (tx_generation tx) 0); [lia|]. destruct (Z.ltb_spec (tx_nextPage tx) 2); [lia|].
    destruct (Z.ltb_spec (tx_sequence tx) (root_OldestRetainedSequence root)); [lia|]. cbn [orb].
    destruct (Z.eqb_spec id 0); [lia|]. bgoal; lia. }
  assert (He : EncodeMeta (publishedMeta f tx root id) = Ok (meta_image (publishedMeta f tx root id) (metaChecksum (metaFields (publishedMeta f tx root id))))).
  { apply EncodeMeta_image; done. }
  by rewrite He.
Qed.

Lemma performIO_fails io d trace events d' trace' : performIO io d trace events = (false, d', trace') -> exists n, io n = false.
Proof.
  revert d trace; induction events as [|e events IH]; intros d trace; cbn [performIO]; [done|]. destruct (io (length trace)) eqn:E; [apply IH|eauto].
Qed.

(** The reasons. *)
Definition update_error (io : nat -> bool) (f : File) (advance : Z) (build : builder) (e : gerror) : Prop :=
  beginUpdate f advance = Err e \/ (exists tx, beginUpdate f advance = Ok tx /\ build tx = Err e) \/
  e = ErrStorageLimit \/ e = ErrIO /\ exists n, io n = false.

Lemma stage_error f advance build post e :
  file_ok f -> 0 <= advance < 2 ^ 64 -> built f advance build post ->
  (forall tx root tx', beginUpdate f advance = Ok tx -> build tx = Ok (root, tx') -> post tx root tx' -> advances tx root tx') ->
  stageUpdate f advance build = Err e ->
  beginUpdate f advance = Err e \/ (exists tx, beginUpdate f advance = Ok tx /\ build tx = Err e) \/ e = ErrStorageLimit.
Proof.
  intros Hf Ha Hb Hadv. unfold stageUpdate. destruct (beginUpdate f advance) as [tx0|e0] eqn:Hbegin; cbn [rbind]; [|intros [= <-]; by left].
  pose proof (Hb tx0 Hbegin) as Hb0. destruct (build tx0) as [[root1 tx1]|e0] eqn:Hbuild; cbn [rbind]; [|intros [= <-]; right; left; eauto].
  destruct Hb0 as (Hm & Hrok & _ & Hpost). destruct (Hadv tx0 root1 tx1 eq_refl Hbuild Hpost) as (Hs & Hpos & Hold & Hib).
  destruct (begin_written f advance tx0 Hf Ha Hbegin) as (Hw0 & Hfile & _ & Hgen & _ & _ & _). rewrite Hib. cbn [negb].
  set (root2 := set_IndexBuildCatalogRoot _ _).
  assert (Hs2 : root_CommitSequence root2 = tx_sequence tx0) by exact Hs.
  assert (Ho2 : root_OldestRetainedSequence root2 <= tx_sequence tx0) by exact Hold.
  pose proof (begin_features f advance tx0 Hbegin) as Hfe. pose proof (mv_features _ _ Hm) as Hfe1.
  destruct (_ || _) eqn:E.
  { exfalso. apply orb_true_iff in E as [E|E].
    - apply orb_true_iff in E as [E|E]; breflect; lia.
    - apply andb_true_iff in E as [E1 E2]. breflect. apply (builds_feature f Hf); [exact E1|]. by rewrite <- Hfe, <- Hfe1. }
  right; right. destruct (allocatePageID tx1) as [[id tx2]|e0] eqn:Ea; cbn [rbind] in *.
  2: { assert (e = e0) as -> by congruence. eapply allocatePageID_error; [|exact Ea]. apply Hm. }
  destruct (allocatePageID_ok _ _ _ (w_ok _ _ (mv_written _ _ Hm)) Ea) as (_ & Hid & _).
  pose proof (allocate_written [] _ _ _ (mv_written _ _ Hm) Ea) as (Hw2 & Hsm2 & _).
  assert (Hlen2 : zlen (tx_freePages tx2) < 2 ^ 63).
  { eapply free_length; [exact Hw2|]. by rewrite (same_file _ _ Hsm2), (same_file _ _ (mv_same _ _ Hm)), Hfile. }
  pose proof (finalizeFreeSpace_correct [id] tx2 root2 Hw2 Hlen2) as Hfin.
  destruct (finalizeFreeSpace tx2 root2) as [[root3 tx3]|e0]; cbn [rbind] in *; [|congruence].
  destruct Hfin as (_ & _ & _ & _ & page & -> & _).
  destruct (encode_root_total id (tx_generation tx0) (set_FreeSpaceRoot root2 page)) as [rp Hrp]; [cbn; lia|cbn; lia|lia| |rewrite Hrp in *; done].
  pose proof (fo_opens _ Hf) as Ho. destruct (opens_meta _ _ _ _ Ho) as ((_ & Hg & _) & _). unfold u64 in Hg. lia.
Qed.

Lemma update_failures io f advance build post :
  file_ok f -> 0 <= advance < 2 ^ 64 -> built f advance build post ->
  (forall tx root tx', beginUpdate f advance = Ok tx -> build tx = Ok (root, tx') -> post tx root tx' -> advances tx root tx') ->
  match updateUnlockedAdvance io f advance build with
  | (Some e, _, _) => update_error io f advance build e
  | (None, _, _) => True
  end.
Proof.
  intros Hf Ha Hb Hadv. unfold updateUnlockedAdvance, update_error. destruct (stageUpdate f advance build) as [[[tx root] id]|e] eqn:Hst.
  2: { destruct (stage_error f advance build post e Hf Ha Hb Hadv Hst) as [?|[?|?]]; auto. }
  destruct (performIO io _ _ _) as [[[] d] tr] eqn:E1; [|right; right; right; split; [done|by eapply performIO_fails]].
  destruct (stageUpdate_ok f advance build tx root id Hf Ha (built_ok _ _ _ _ Hf Ha Hb) Hst) as [rootPage Hsu].
  destruct (stageUpdate_keeps f advance build tx root id Hf Ha (built_ok _ _ _ _ Hf Ha Hb) Hst) as (tx0 & tx1 & root1 & Hbegin & Hbuild & _).
  pose proof (Hb tx0 Hbegin) as Hb0. rewrite Hbuild in Hb0. destruct Hb0 as (_ & _ & _ & Hpost).
  destruct (Hadv tx0 root1 tx1 Hbegin Hbuild Hpost) as (_ & Hpos & _).
  destruct (begin_written f advance tx0 Hf Ha Hbegin) as (_ & _ & _ & _ & Hseq & _ & _).
  pose proof (encode_meta_total f advance tx root id rootPage Hf Hsu ltac:(rewrite (su_sequence _ _ _ _ _ _ Hsu); lia)) as Hem.
  destruct (EncodeMeta _) as [encoded|]; [|done].
  destruct (performIO io d tr _) as [[[] d'] tr'] eqn:E2; [done|]. right; right; right. split; [done|by eapply performIO_fails].
Qed.
