(* ===== verification/Created.v ===== *)
(** * A new database file

    What [OpenWithOptions] of [internal/storage/file.go] does with an empty
    file, and concrete runs of the commit theorems on the file it makes. *)
From S2P Require Import Prelude Bytes Layout Hashes PageFormat Entries Records NodeCodec.
From S2P Require Import CowTree TreeShape TreeInvariant TreeRep TreeDelete Tree Flush Bulk FileStore.
From S2P Require Import Recovery Commit Atomicity TreeRead Iterator PageCache Snapshots.
From stdpp Require Import gmap.
#[local] Open Scope Z_scope.

Definition created_meta (databaseID : bytes) : Meta :=
  {| DatabaseID := databaseID; Generation := 1; CommitSequence := 0; RootPage := 0; PhysicalPageCount := 2;
     OldestRetainedSequence := 0; RequiredFeatures := 0; OptionalFeatures := 0 |}.

(** [databaseID] is what [rand.Read] drew. The file is extended with zero bytes to
    two pages, then the first metadata slot is written. *)
Definition create (databaseID : bytes) (maxPhysicalPages : Z) : result File :=
  let meta := created_meta databaseID in
  let* encoded := EncodeMeta meta in
  Ok (mk_File (write_page [zeros PageSize; zeros PageSize] 0 encoded) meta (root_zero 0) 0 (meta, zero_Meta)
        (true, false) 2 None [] false false maxPhysicalPages ∅ DefaultCommitRetentionMaxCommits DefaultCommitRetentionMaxBytes 0 0).

Lemma zero_slot : DecodeMeta (zeros PageSize) = Err ErrCorrupt.
Proof. vm_compute. reflexivity. Qed.

Lemma created_meta_ok id : zlen id = 16 -> meta_ok (created_meta id).
Proof. intros Hid. unfold meta_ok, u64. cbn. lia. Qed.

Lemma create_ok id max :
  zlen id = 16 -> all_zero id = false -> exists f, create id max = Ok f /\ f_maxPhysicalPages f = max.
Proof.
  intros Hid Hz. unfold create. destruct (EncodeMeta (created_meta id)) as [page|e] eqn:E; [by eexists|].
  exfalso. unfold EncodeMeta in E. change (unsupported_features _ =? 0) with true in E. cbn [negb] in E.
  assert (Hv : validMeta (created_meta id) = true) by (unfold validMeta, created_meta; cbn [DatabaseID Generation RootPage PhysicalPageCount CommitSequence OldestRetainedSequence]; by rewrite Hz).
  by rewrite Hv in E.
Qed.

Lemma create_file_ok id max f :
  zlen id = 16 -> max < 2 ^ 64 - 1 -> create id max = Ok f -> file_ok f /\ f_fatalErr f = None /\
    f_meta f = created_meta id /\ f_root f = root_zero 0 /\ f_freePages f = [].
Proof.
  intros Hid Hmax Hc. unfold create in Hc. inv_ok. subst f.
  split; [|done]. constructor; cbn [f_file f_meta f_root f_metaSlot f_nextPage f_freePages f_maxPhysicalPages].
  - apply EncodeMeta_image in Hok as Him; [|done]. destruct Him as (Hu & Hv & Hp).
    constructor; [by left| |done|done|done|].
    + exists a. split; [done|]. apply DecodeMeta_image. split; [by apply created_meta_ok|]. done.
    + exists (zeros PageSize). split; [done|]. left. apply zero_slot.
  - done.
  - done.
  - done.
  - constructor.
  - constructor.
  - done.
  - done.
  - done.
Qed.

(** C15: a database file that was just created is in order: it reopens at
    generation one with an empty root, and accepts an update. *)
Theorem create_opens id max :
  zlen id = 16 -> all_zero id = false -> max < 2 ^ 64 - 1 ->
  exists f, create id max = Ok f /\ file_ok f /\ opens_at (f_file f) 0 (created_meta id) (root_zero 0) /\
    (exists tx, beginUpdate f 1 = Ok tx /\ tx_generation tx = 2 /\ tx_sequence tx = 1) /\
    forall kind, tree_at kind (snapshot f) 0 (root_CatalogRoot (f_root f)) [].
Proof.
  intros Hid Hz Hmax. destruct (create_ok id max Hid Hz) as (f & Hc & _).
  destruct (create_file_ok id max f Hid Hmax Hc) as (Hf & Hfatal & Hm & Hr & _). exists f. split; [done|]. split; [done|].
  assert (Hslot : f_metaSlot f = 0) by (unfold create in Hc; inv_ok; by subst f).
  split; [pose proof (fo_opens _ Hf) as Ho; by rewrite Hslot, Hm, Hr in Ho|]. split.
  - unfold beginUpdate. rewrite Hfatal, Hm. eexists. split; [reflexivity|]. done.
  - intros kind. left. by rewrite Hr.
Qed.

Section Witnesses.
Definition example_id : bytes := replicate 16 x2a.
Definition example_ops : list operation := [OpPut (bs "users") (bs "1"); OpPut (bs "posts") (bs "2"); OpDelete (bs "users")].
Definition always (_ : nat) : bool := true.

Lemma example_operations : Forall operation_ok example_ops.
Proof. repeat constructor; cbv; try discriminate. Qed.

Lemma example_file : exists f, create example_id 1000 = Ok f /\ file_ok f /\ f_root f = root_zero 0.
Proof.
  destruct (create_ok example_id 1000) as (f & Hc & _); [done|done|]. exists f. split; [done|].
  destruct (create_file_ok example_id 1000 f) as (Hf & _ & _ & Hr & _); [done|lia|done|]. done.
Qed.

Lemma empty_root f kind : f_root f = root_zero 0 -> tree_at kind (snapshot f) 0 (root_CatalogRoot (f_root f)) [].
Proof. intros Hr. left. by rewrite Hr. Qed.

Lemma example_build f : file_ok f -> f_root f = root_zero 0 -> build_ok f 1 (catalogUpdate 4 example_ops).
Proof.
  intros Hf Hr. apply (catalogUpdate_ok f example_ops 4 0 [] Hf); [by apply empty_root|constructor| |done|cbn; lia|lia].
  apply example_operations.
Qed.

Lemma create_opens_witness :
  exists f, create example_id 1000 = Ok f /\ file_ok f /\ opens_at (f_file f) 0 (created_meta example_id) (root_zero 0) /\
    (exists tx, beginUpdate f 1 = Ok tx /\ tx_generation tx = 2 /\ tx_sequence tx = 1) /\
    forall kind, tree_at kind (snapshot f) 0 (root_CatalogRoot (f_root f)) [].
Proof. apply (create_opens example_id 1000); [reflexivity|reflexivity|lia]. Defined.

(** The created file, as a value. *)
Definition example_created : File :=
  match create example_id 1000 with
  | Ok f => f
  | Err _ => mk_File [] (created_meta []) (root_zero 0) 0 (zero_Meta, zero_Meta) (false, false) 0 None [] false false 0 ∅ 0 0 0 0
  end.

Lemma example_ok : file_ok example_created /\ f_root example_created = root_zero 0.
Proof.
  destruct example_file as (f & Hc & Hf & Hr). unfold example_created. by rewrite Hc.
Qed.

Lemma example_commits : (updateUnlockedAdvance always example_created 1 (catalogUpdate 4 example_ops)).1.1 = None.
Proof. vm_compute. reflexivity. Qed.

Lemma example_begins : exists tx, beginUpdate example_created 1 = Ok tx.
Proof.
  assert (is_ok (beginUpdate example_created 1) = true) as H by (vm_compute; reflexivity).
  destruct (beginUpdate example_created 1) as [tx|]; [by exists tx|discriminate H].
Qed.

Lemma example_stages : exists staged, stageUpdate example_created 1 (catalogUpdate 4 example_ops) = Ok staged.
Proof.
  assert (is_ok (stageUpdate example_created 1 (catalogUpdate 4 example_ops)) = true) as H by (vm_compute; reflexivity).
  destruct (stageUpdate example_created 1 (catalogUpdate 4 example_ops)) as [st|]; [by exists st|discriminate H].
Qed.

Lemma copy_on_write_witness :
  exists tx, beginUpdate example_created 1 = Ok tx /\
  exists root root', OpenTree tx TreeCatalog 0 = Ok root /\ run tx TreeCatalog 4 root example_ops = Ok root' /\
    match Flush TreeCatalog tx root' with
    | Ok (page', tx') =>
        store_ok tx' /\
        (exists h', (h' <= 3)%nat /\ stored TreeCatalog tx' h' page' (fold_left operate example_ops [])) /\
        forall kind' h' p' l', tree_at kind' tx h' p' l' -> tree_at kind' tx' h' p' l'
    | Err e => e = ErrStorageLimit
    end.
Proof.
  destruct example_ok as [Hf Hr]. destruct example_begins as [tx Hb]. exists tx. split; [exact Hb|]. apply (copy_on_write TreeCatalog tx 0 0 [] example_ops 4).
  - destruct (begin_written example_created 1 tx Hf ltac:(lia) Hb) as [Hw _]. apply (w_ok [] tx Hw).
  - left. done.
  - constructor.
  - apply example_operations.
  - reflexivity.
  - cbn. lia.
Defined.

Lemma update_atomic_witness :
  let '(outcome, f', trace) := updateUnlockedAdvance always example_created 1 (catalogUpdate 4 example_ops) in
  outcome = None /\
  forall d, crash (settled (f_file example_created) trace).1 (settled (f_file example_created) trace).2 d ->
    recovers d (f_meta example_created) (f_root example_created) (snapshot example_created) \/
    exists tx root id, stageUpdate example_created 1 (catalogUpdate 4 example_ops) = Ok (tx, root, id) /\
      (length (dataEvents (tx_pages tx)) < length trace)%nat /\ recovers d (publishedMeta example_created tx root id) root tx.
Proof.
  destruct example_ok as [Hf Hr]. pose proof (example_build _ Hf Hr) as Hb. pose proof example_commits as Ho.
  pose proof (fun tr d => update_atomic always example_created 1 (catalogUpdate 4 example_ops) tr d Hf Hb ltac:(lia)) as Hat.
  destruct (updateUnlockedAdvance always example_created 1 (catalogUpdate 4 example_ops)) as [[outcome f'] trace].
  split; [exact Ho|]. intros d Hc. apply (Hat trace d); [reflexivity|exact Hc].
Defined.

Lemma update_outcome_witness :
  let '(outcome, f', trace) := updateUnlockedAdvance always example_created 1 (catalogUpdate 4 example_ops) in
  file_ok f' /\ f_fatalErr f' = None /\ Generation (f_meta f') = 2 /\ CommitSequence (f_meta f') = 1 /\ f_metaSlot f' = 1.
Proof.
  destruct example_ok as [Hf Hr]. pose proof (example_build _ Hf Hr) as Hb. pose proof example_commits as Ho.
  pose proof (update_outcome always example_created 1 (catalogUpdate 4 example_ops) Hf Hb ltac:(lia)) as Hout.
  destruct (updateUnlockedAdvance always example_created 1 (catalogUpdate 4 example_ops)) as [[outcome f'] trace].
  cbn in Ho. subst outcome. destruct Hout as (H1 & H2 & H3 & H4 & H5 & _). split; [exact H1|]. split; [exact H2|].
  split; [etransitivity; [exact H3|vm_compute; reflexivity]|]. split; [etransitivity; [exact H4|vm_compute; reflexivity]|].
  etransitivity; [exact H5|vm_compute; reflexivity].
Defined.

Lemma update_durable_witness :
  exists tx root id f' trace h,
    stageUpdate example_created 1 (catalogUpdate 4 example_ops) = Ok (tx, root, id) /\
    updateUnlockedAdvance always example_created 1 (catalogUpdate 4 example_ops) = (None, f', trace) /\
    stored TreeCatalog (snapshot f') h (root_CatalogRoot root) [(bs "posts", bs "2")].
Proof.
  destruct example_ok as [Hf Hr]. pose proof (example_build _ Hf Hr) as Hb. pose proof example_commits as Ho.
  destruct example_stages as [[[tx root] id] Hst].
  destruct (updateUnlockedAdvance always example_created 1 (catalogUpdate 4 example_ops)) as [[outcome f'] trace] eqn:Hup.
  cbn in Ho. subst outcome.
  destruct (catalog_staged example_created example_ops 4 0 [] Hf (empty_root _ _ Hr) ltac:(constructor) example_operations
    ltac:(reflexivity) ltac:(cbn; lia) tx root id Hst) as (_ & h & _ & Hs).
  exists tx, root, id, f', trace, h. split; [exact Hst|]. split; [reflexivity|].
  apply (update_durable always example_created 1 (catalogUpdate 4 example_ops) tx root id f' trace TreeCatalog h
    (root_CatalogRoot root) [(bs "posts", bs "2")]); [exact Hf|exact Hb|lia|exact Hst|exact Hup|exact Hs].
Defined.

Lemma treeGetUnlocked_refines_witness :
  exists f', file_ok f' /\
    treeGetUnlocked f' TreeCatalog 9 (root_CatalogRoot (f_root f')) (bs "posts") = Ok (Some (bs "2")).
Proof.
  destruct example_ok as [Hf Hr]. pose proof example_commits as Ho.
  pose proof (commit_catalog_cases example_created example_ops 4 0 [] Hf (empty_root _ _ Hr) ltac:(constructor) example_operations
    ltac:(reflexivity) ltac:(cbn; lia) always) as Hc.
  destruct (updateUnlockedAdvance always example_created 1 (catalogUpdate 4 example_ops)) as [[outcome f'] trace].
  cbn in Ho. subst outcome. destruct Hc as (Hf' & (h & Hh & Hs) & _). exists f'. split; [exact Hf'|].
  apply (treeGetUnlocked_refines f' TreeCatalog h (root_CatalogRoot (f_root f')) [(bs "posts", bs "2")] (bs "posts") 9);
    [right; exact Hs|exact Hf'|cbn in Hh; lia].
Defined.

Lemma commit_catalog_witness :
  let '(outcome, f', trace) := updateUnlockedAdvance always example_created 1 (catalogUpdate 4 example_ops) in
  outcome = None /\ treeGetUnlocked f' TreeCatalog 4 (root_CatalogRoot (f_root f')) (bs "posts") = Ok (Some (bs "2")) /\
  treeGetUnlocked f' TreeCatalog 4 (root_CatalogRoot (f_root f')) (bs "users") = Ok None.
Proof.
  destruct example_ok as [Hf Hr]. pose proof example_commits as Ho.
  pose proof (commit_catalog example_created example_ops 4 0 [] Hf (empty_root _ _ Hr) ltac:(constructor) example_operations
    ltac:(reflexivity) ltac:(cbn; lia) always) as Hc.
  destruct (updateUnlockedAdvance always example_created 1 (catalogUpdate 4 example_ops)) as [[outcome f'] trace].
  cbn in Ho. subst outcome. split; [reflexivity|]. destruct Hc as (_ & Hget & _).
  split; [exact (Hget (bs "posts"))|exact (Hget (bs "users"))].
Defined.

Lemma commit_all_or_nothing_witness :
  let '(outcome, f', trace) := updateUnlockedAdvance always example_created 1 (catalogUpdate 4 example_ops) in
  forall tr d, tr `prefix_of` trace ->
  crash (settled (f_file example_created) tr).1 (settled (f_file example_created) tr).2 d ->
  exists st l', inspectExistingFile d (zlen d) = Ok st /\
    (forall max, exists h', tree_at TreeCatalog (snapshot (open st d max)) h' (root_CatalogRoot (st_root st)) l') /\
    (l' = [] \/ l' = [(bs "posts", bs "2")]) /\ (outcome = None -> tr = trace -> l' = [(bs "posts", bs "2")]).
Proof.
  destruct example_ok as [Hf Hr].
  pose proof (fun tr d => commit_all_or_nothing example_created example_ops 4 0 [] Hf (empty_root _ _ Hr) ltac:(constructor)
    example_operations ltac:(reflexivity) ltac:(cbn; lia) always tr d) as Hc.
  destruct (updateUnlockedAdvance always example_created 1 (catalogUpdate 4 example_ops)) as [[outcome f'] trace].
  exact Hc.
Defined.
End Witnesses.

(** A sorted build in the first transaction of a new file. *)
Definition example_entries : list KeyValue := [(bs "a", bs "1"); (bs "b", bs "2"); (bs "c", [])].

Lemma SortedTreeBuilder_builds_witness :
  exists tx, beginUpdate example_created 1 = Ok tx /\
    match buildSorted TreeSecondary 3 tx example_entries with
    | Ok (page, b, tx') => sorted_keys example_entries /\ Forall entry_fits example_entries /\ store_ok tx' /\ extends tx tx' /\
        (exists h root, (2 ^ h <= Nat.max 1 (length example_entries))%nat /\ OpenTree tx' TreeSecondary page = Ok root /\
          rep tx' TreeSecondary h root example_entries /\
          forall key, Get tx' TreeSecondary (S h) root key = Ok (field example_entries key)) /\
        (forall tx key value, Bulk.Add TreeSecondary tx b key value = Err ErrCorrupt) /\
        (forall tx, Finish TreeSecondary 3 tx b = Err ErrCorrupt)
    | Err e => e = ErrStorageLimit \/
        (e ∈ [ErrCorrupt; ErrNodeFull] /\ ~ (sorted_keys example_entries /\ Forall entry_fits example_entries))
    end.
Proof.
  destruct example_ok as [Hf Hr]. destruct example_begins as [tx Hb]. exists tx. split; [exact Hb|].
  apply (SortedTreeBuilder_builds TreeSecondary 3 tx example_entries).
  - destruct (begin_written example_created 1 tx Hf ltac:(lia) Hb) as [Hw _]. apply (w_ok [] tx Hw).
  - reflexivity.
  - cbn. lia.
Defined.

(** A scan of the catalog of the first commit. *)
Lemma TreeIterator_scans_witness :
  exists f', file_ok f' /\
    match newTreeIterator (root_CatalogRoot (f_root f')) TreeCatalog (bs "a") (bs "z") 5 with
    | Err _ => False
    | Ok it => (walk 2 [Some f'; Some f'] it).1 = [(bs "posts", bs "2")] /\ finished (walk 2 [Some f'; Some f'] it).2
    end.
Proof.
  destruct example_ok as [Hf Hr]. pose proof example_commits as Ho.
  pose proof (commit_catalog_cases example_created example_ops 4 0 [] Hf (empty_root _ _ Hr) ltac:(constructor) example_operations
    ltac:(reflexivity) ltac:(cbn; lia) always) as Hc.
  destruct (updateUnlockedAdvance always example_created 1 (catalogUpdate 4 example_ops)) as [[outcome f'] trace].
  cbn in Ho. subst outcome. destruct Hc as (Hf' & (h & Hh & Hs) & _). exists f'. split; [exact Hf'|].
  assert (Hh64 : (h < 64)%nat) by (change (h <= 3)%nat in Hh; lia).
  pose proof (TreeIterator_scans f' TreeCatalog h (root_CatalogRoot (f_root f')) [(bs "posts", bs "2")] (bs "a") (bs "z") 5 2
    [Some f'; Some f'] Hf' (or_intror Hs) Hh64
    ltac:(repeat constructor; exists f'; split; [reflexivity|apply rtc_refl|reflexivity|apply rtc_refl]) ltac:(lia)) as Hit.
  destruct (newTreeIterator (root_CatalogRoot (f_root f')) TreeCatalog (bs "a") (bs "z") 5) as [it|e].
  - destruct Hit as (H1 & _ & H3). split; [exact H1|]. apply H3, Nat.ltb_lt. vm_compute. reflexivity.
  - destruct Hit as (_ & _ & _ & Hlt). vm_compute in Hlt. discriminate Hlt.
Defined.

(** A read, the first commit and the cache after both. *)
Lemma cache_transparent_witness :
  exists f cache, rtc cache_step (example_created, newPageCache 40) (f, cache) /\ f_root f <> f_root example_created /\
    (forall id, ~ id ∈ f_freePages f -> as_read (readThrough f cache id).1 = readDataPageUnlocked f id) /\
    (stats_pages cache).1 = 40 /\ (stats_pages cache).2 <= 40.
Proof.
  destruct example_ok as [Hf Hr]. pose proof (example_build _ Hf Hr) as Hb. pose proof example_commits as Ho.
  set (cache1 := (readThrough example_created (newPageCache 40) 2).2).
  destruct (updateThrough always example_created cache1 1 (catalogUpdate 4 example_ops)) as [[outcome f] cache] eqn:Hup.
  assert (Hs : rtc cache_step (example_created, newPageCache 40) (f, cache)).
  { eapply rtc_l; [apply (step_read _ _ 2)|]. apply rtc_once. eapply step_update; [exact Hb|lia|exact Hup]. }
  exists f, cache. split; [exact Hs|]. split.
  - pose proof (commit_catalog_cases example_created example_ops 4 0 [] Hf (empty_root _ _ Hr) ltac:(constructor) example_operations
      ltac:(reflexivity) ltac:(cbn; lia) always) as Hc.
    unfold updateThrough in Hup. destruct (updateUnlockedAdvance always example_created 1 (catalogUpdate 4 example_ops)) as [[o f'] trace].
    cbn in Ho. subst o. destruct Hc as (Hf' & (h & Hh & Hst) & _).
    assert (f' = f) as -> by (destruct (stageUpdate _ _ _) as [[[tx r] i]|]; by injection Hup). intros E. rewrite E, Hr in Hst.
    apply stored_available, (kept_snapshot f Hf') in Hst as [Hbad _]. cbn in Hbad. lia.
  - destruct (cache_transparent example_created 40 f cache Hf ltac:(reflexivity) Hs) as (H1 & H2 & H3).
    split; [exact H1|]. split; [exact H2|]. rewrite H2 in H3. exact H3.
Defined.
