(* ===== verification/Float64.v ===== *)
(** * IEEE-754 binary64 as bit patterns

    A Go [float64] is its 64-bit pattern ([math.Float64bits]). A pattern that
    is not a NaN stands for an exact number: sign, magnitude and shift with
    value [+-(magnitude * 2^shift) * 2^-1074], so scaling by 2^1074 gives an
    integer and comparisons are comparisons of integers. The infinities get the
    scaled value that continues the exponent range, above every finite float. *)
From S2P Require Import Prelude Bytes.

Definition f64_exponent (b : Z) : Z := Z.land (Z.shiftr b 52) 0x7ff.
Definition f64_fraction (b : Z) : Z := Z.land b (2 ^ 52 - 1).
Definition f64_negative (b : Z) : bool := Z.shiftr b 63 =? 1.

(** [math.IsNaN], [math.IsInf(f, 0)]. *)
Definition is_nan (b : Z) : bool := (f64_exponent b =? 0x7ff) && negb (f64_fraction b =? 0).
Definition is_inf (b : Z) : bool := (f64_exponent b =? 0x7ff) && (f64_fraction b =? 0).
Definition is_finite (b : Z) : bool := negb (is_nan b || is_inf b).

Definition f64_magnitude (b : Z) : Z :=
  if f64_exponent b =? 0 then f64_fraction b else Z.lor (2 ^ 52) (f64_fraction b).
Definition f64_shift (b : Z) : Z :=
  if f64_exponent b =? 0 then 0 else f64_exponent b - 1.

(** The value times 2^1074. *)
Definition f64_scaled (b : Z) : Z :=
  (if f64_negative b then -1 else 1) * (f64_magnitude b * 2 ^ f64_shift b).

(** The common scale, and an integer at that scale. *)
Definition scale : Z := 2 ^ 1074.
Definition int_scaled (i : Z) : Z := i * scale.

(** Go's [==] and [<] on float64. *)
Definition f64_eqb (a b : Z) : bool :=
  negb (is_nan a) && negb (is_nan b) && (f64_scaled a =? f64_scaled b).
Definition f64_ltb (a b : Z) : bool :=
  negb (is_nan a) && negb (is_nan b) && (f64_scaled a <? f64_scaled b).

(** Go's conversion [float64(i)] of an [int64]: the nearest float, ties to
    the one with an even significand. The result is an integer, given here as
    such. *)
Definition float_of_int (i : Z) : Z :=
  let a := Z.abs i in
  if a <? 2 ^ 53 then i
  else
    let g := 2 ^ (Z.log2 a - 52) in
    let q := a / g in
    let r := a mod g in
    let q' := if (g <? 2 * r) || ((g =? 2 * r) && Z.odd q) then q + 1 else q in
    Z.sgn i * (q' * g).

(** Go's conversion [int64(f)] for an [f] in range: truncation. *)
Definition int_of_float (b : Z) : Z := Z.quot (f64_scaled b) scale.

(** [math.Trunc(f) == f] for a finite [f]: no fractional part. *)
Definition f64_integral (b : Z) : bool := Z.rem (f64_scaled b) scale =? 0.

Lemma scale_pos : 0 < scale.
Proof. unfold scale. apply Z.pow_pos_nonneg; lia. Qed.

Lemma f64_fraction_range b : 0 <= f64_fraction b < 2 ^ 52.
Proof.
  unfold f64_fraction. change (2 ^ 52 - 1) with (Z.ones 52).
  rewrite Z.land_ones by lia. apply Z.mod_pos_bound. lia.
Qed.

Lemma f64_exponent_range b : 0 <= f64_exponent b < 2 ^ 11.
Proof.
  unfold f64_exponent. change 0x7ff with (Z.ones 11).
  rewrite Z.land_ones by lia. apply Z.mod_pos_bound. lia.
Qed.

Lemma lor_hidden_bit f : 0 <= f < 2 ^ 52 -> Z.lor (2 ^ 52) f = 2 ^ 52 + f.
Proof.
  intros Hf. assert (Hl : Z.land (2 ^ 52) f = 0) by (apply land_pow2_small; lia).
  rewrite <- Z.lxor_lor by done. symmetry. by apply Z.add_nocarry_lxor.
Qed.

Lemma f64_magnitude_range b : 0 <= f64_magnitude b < 2 ^ 53.
Proof.
  unfold f64_magnitude. pose proof (f64_fraction_range b).
  destruct (_ =? 0); [lia|]. rewrite lor_hidden_bit by lia. lia.
Qed.

Lemma f64_shift_range b : 0 <= f64_shift b <= 2046.
Proof.
  unfold f64_shift. pose proof (f64_exponent_range b).
  destruct (Z.eqb_spec (f64_exponent b) 0); lia.
Qed.

(** A normal float has its hidden bit set. *)
Lemma f64_magnitude_normal b : 0 < f64_shift b -> 2 ^ 52 <= f64_magnitude b.
Proof.
  unfold f64_shift, f64_magnitude. pose proof (f64_fraction_range b).
  destruct (_ =? 0); [lia|]. rewrite lor_hidden_bit by lia. lia.
Qed.

Lemma f64_shift_finite b : is_finite b = true -> f64_shift b <= 2045.
Proof.
  unfold is_finite, is_nan, is_inf, f64_shift. pose proof (f64_exponent_range b).
  destruct (Z.eqb_spec (f64_exponent b) 0); [lia|].
  destruct (Z.eqb_spec (f64_exponent b) 0x7ff) as [->|]; simpl; [|lia].
  destruct (f64_fraction b =? 0); done.
Qed.

Lemma is_finite_not_nan b : is_finite b = true -> is_nan b = false.
Proof. unfold is_finite. destruct (is_nan b); done. Qed.

(** ** Rounding of integers *)

Section Rounding.
Variable i : Z.
Hypothesis Hbig : 2 ^ 53 <= Z.abs i.

Let a := Z.abs i.
Let g := 2 ^ (Z.log2 a - 52).

Lemma rounding_grid : 0 < g /\ 2 ^ 52 * g <= a < 2 ^ 53 * g.
Proof.
  assert (53 <= Z.log2 a) as Hl by (apply Z.log2_le_pow2; lia).
  assert (Ha : 0 < a) by lia. pose proof (Z.log2_spec a Ha) as [H1 H2].
  unfold g. rewrite <- !Z.pow_add_r by lia.
  replace (52 + (Z.log2 a - 52)) with (Z.log2 a) by lia.
  replace (53 + (Z.log2 a - 52)) with (Z.succ (Z.log2 a)) by lia.
  split; [apply Z.pow_pos_nonneg; lia|lia].
Qed.

(** The rounded magnitude is one of the two grid neighbours. *)
Lemma float_of_int_abs :
  exists q, float_of_int i = Z.sgn i * (q * g) /\
    ((q = a / g /\ 2 * (a mod g) <= g) \/ (q = a / g + 1 /\ g <= 2 * (a mod g))).
Proof.
  unfold float_of_int. fold a. destruct (Z.ltb_spec a (2 ^ 53)); [lia|]. fold g.
  eexists. split; [reflexivity|].
  destruct (Z.ltb_spec g (2 * (a mod g))); simpl; [right; split; lia|].
  destruct (Z.eqb_spec g (2 * (a mod g))); simpl; [|left; split; lia].
  destruct (Z.odd _); [right|left]; split; lia.
Qed.
End Rounding.

(** A float at least as large as the grid's base lies on the grid. *)
Lemma f64_scaled_grid f s :
  0 <= s -> 2 ^ 52 * 2 ^ s * scale <= Z.abs (f64_scaled f) ->
  exists k, f64_scaled f = k * (2 ^ s * scale).
Proof.
  intros Hs H. pose proof (f64_magnitude_range f) as Hm. pose proof (f64_shift_range f) as Hsh.
  assert (Habs : Z.abs (f64_scaled f) = f64_magnitude f * 2 ^ f64_shift f).
  { unfold f64_scaled. pose proof (Z.pow_nonneg 2 (f64_shift f)).
    destruct (f64_negative f); nia. }
  rewrite Habs in H. unfold scale in *. rewrite <- !Z.pow_add_r in * by lia.
  assert (2 ^ (52 + s + 1074) < 2 ^ (53 + f64_shift f)) as Hlt.
  { rewrite (Z.pow_add_r 2 53) by lia. eapply Z.le_lt_trans; [exact H|].
    apply Z.mul_lt_mono_pos_r; [apply Z.pow_pos_nonneg; lia|lia]. }
  apply Z.pow_lt_mono_r_iff in Hlt; [|lia|lia].
  exists ((if f64_negative f then -1 else 1) * (f64_magnitude f * 2 ^ (f64_shift f - (s + 1074)))).
  unfold f64_scaled. rewrite <- !Z.mul_assoc, <- Z.pow_add_r by lia. repeat f_equal. lia.
Qed.

Section Monotone.
Variables (a q g sc F : Z).
Hypothesis Hsc : 0 < sc.
Hypothesis Hg : 0 < g.
Hypothesis Ha : 2 ^ 52 * g <= a.
Hypothesis Hq : (q = a / g /\ 2 * (a mod g) <= g) \/ (q = a / g + 1 /\ g <= 2 * (a mod g)).
Hypothesis HF : 2 ^ 52 * g * sc <= Z.abs F -> exists k, F = k * (g * sc).

Lemma round_below : F <= a * sc -> F <= q * g * sc.
Proof.
  intros H. pose proof (Z.div_mod a g ltac:(lia)). pose proof (Z.mod_pos_bound a g Hg).
  assert (2 ^ 52 <= a / g) by (apply Z.div_le_lower_bound; lia).
  destruct (Z_lt_le_dec F (2 ^ 52 * g * sc)) as [Hlt|Hge].
  - assert (2 ^ 52 * g * sc <= q * g * sc); [|lia].
    apply Z.mul_le_mono_nonneg_r; [lia|]. apply Z.mul_le_mono_nonneg_r; lia.
  - destruct HF as [k ->]; [lia|].
    assert (k * g <= a) by (apply (Z.mul_le_mono_pos_r _ _ sc); lia).
    assert (k <= a / g) by (apply Z.div_le_lower_bound; lia).
    rewrite Z.mul_assoc. apply Z.mul_le_mono_nonneg_r; [lia|].
    apply Z.mul_le_mono_nonneg_r; lia.
Qed.

Lemma round_above : a * sc <= F -> q * g * sc <= F.
Proof.
  intros H. pose proof (Z.div_mod a g ltac:(lia)). pose proof (Z.mod_pos_bound a g Hg).
  assert (2 ^ 52 * g * sc <= a * sc) by (apply Z.mul_le_mono_nonneg_r; lia).
  destruct HF as [k ->]; [lia|].
  assert (a <= k * g) by (apply (Z.mul_le_mono_pos_r _ _ sc); lia).
  rewrite Z.mul_assoc. apply Z.mul_le_mono_nonneg_r; [lia|].
  apply Z.mul_le_mono_nonneg_r; [lia|].
  destruct Hq as [[-> _]|[-> Hr]].
  - apply Z.div_le_upper_bound; lia.
  - assert (a / g < k); [|lia]. apply (Z.mul_lt_mono_pos_r g); lia.
Qed.
End Monotone.

Lemma float_of_int_small i : Z.abs i < 2 ^ 53 -> float_of_int i = i.
Proof. intros. unfold float_of_int. destruct (Z.ltb_spec (Z.abs i) (2 ^ 53)); [done|lia]. Qed.

(** Rounding an integer never moves it past a representable float. *)
Lemma float_of_int_mono i f :
  (int_scaled i <= f64_scaled f -> int_scaled (float_of_int i) <= f64_scaled f) /\
  (f64_scaled f <= int_scaled i -> f64_scaled f <= int_scaled (float_of_int i)).
Proof.
  destruct (Z_lt_le_dec (Z.abs i) (2 ^ 53)) as [Hs|Hb].
  { by rewrite float_of_int_small by done. }
  destruct (float_of_int_abs i Hb) as (q & -> & Hq).
  destruct (rounding_grid i Hb) as (Hg & Ha & _).
  set (g := 2 ^ (Z.log2 (Z.abs i) - 52)) in *. unfold int_scaled.
  assert (Hl : 53 <= Z.log2 (Z.abs i)) by (apply Z.log2_le_pow2; lia).
  pose proof scale_pos as Hsc.
  assert (HF : 2 ^ 52 * g * scale <= Z.abs (f64_scaled f) ->
    exists k, f64_scaled f = k * (g * scale)).
  { apply (f64_scaled_grid f (Z.log2 (Z.abs i) - 52)). lia. }
  assert (HF' : 2 ^ 52 * g * scale <= Z.abs (- f64_scaled f) ->
    exists k, - f64_scaled f = k * (g * scale)).
  { rewrite Z.abs_opp. intros [k ->]%HF. exists (- k). ring. }
  pose proof (round_below _ _ _ _ (f64_scaled f) Hsc Hg Ha Hq HF).
  pose proof (round_above _ _ _ _ (f64_scaled f) Hsc Hg Ha Hq HF).
  pose proof (round_below _ _ _ _ (- f64_scaled f) Hsc Hg Ha Hq HF').
  pose proof (round_above _ _ _ _ (- f64_scaled f) Hsc Hg Ha Hq HF').
  destruct (Z.lt_trichotomy i 0) as [Hi|[->|Hi]]; [|simpl in Hb; lia|].
  - rewrite (Z.sgn_neg i) by lia. rewrite (Z.abs_neq i) in * by lia.
    split; intros Hc.
    + enough (- f64_scaled f <= q * g * scale) by lia. auto with lia.
    + enough (q * g * scale <= - f64_scaled f) by lia. auto with lia.
  - rewrite (Z.sgn_pos i) by lia. rewrite (Z.abs_eq i) in * by lia.
    rewrite Z.mul_1_l. split; auto.
Qed.
