(* ===== verification/Values.v ===== *)
(** * Typed values: kinds, equality and order

    [internal/database/value.go], [document.go] and the comparison functions of
    [query.go]. A [Value] is a tagged union; a [Document] (a Go map) is the list
    of its bindings in some iteration order, with distinct keys. The map of an
    object may be nil, which [Object(nil)] makes and [Clone] keeps: it reads as an
    empty map, but an assignment into it panics, so an object says which it is.
    A nil map has no fields; nothing here depends on that. A float is its bit
    pattern, a time its milliseconds since the Unix epoch ([Time] truncates
    to that precision), a document ID its sixteen bytes. *)
From S2P Require Import Prelude Bytes Entries Float64.

(** ** Data *)

Inductive kind :=
| NullKind | BoolKind | Int64Kind | Float64Kind | StringKind
| BinaryKind | TimeKind | ArrayKind | ObjectKind | IDKind.

#[export] Instance kind_eq_dec : EqDecision kind.
Proof. solve_decision. Defined.

Unset Elimination Schemes.
Inductive value :=
| VNull
| VBool (b : bool)
| VInt (i : Z)
| VFloat (f : Z)
| VString (s : bytes)
| VBinary (b : bytes)
| VTime (t : Z)
| VArray (a : list value)
| VObject (isNil : bool) (d : list (bytes * value))
| VID (id : bytes).
Set Elimination Schemes.

Abbreviation document := (list (bytes * value)).

Definition Kind (v : value) : kind :=
  match v with
  | VNull => NullKind | VBool _ => BoolKind | VInt _ => Int64Kind
  | VFloat _ => Float64Kind | VString _ => StringKind | VBinary _ => BinaryKind
  | VTime _ => TimeKind | VArray _ => ArrayKind | VObject _ _ => ObjectKind
  | VID _ => IDKind
  end.

(** The [uint8] behind a kind ([iota] order), and Go's [==] on kinds. *)
Definition kind_code (k : kind) : Z :=
  match k with
  | NullKind => 0 | BoolKind => 1 | Int64Kind => 2 | Float64Kind => 3
  | StringKind => 4 | BinaryKind => 5 | TimeKind => 6 | ArrayKind => 7
  | ObjectKind => 8 | IDKind => 9
  end.

Definition kind_eqb (a b : kind) : bool := kind_code a =? kind_code b.

(** Induction over the nested arrays and objects. *)
Section value_induction.
Variable P : value -> Prop.
Hypothesis Hnull : P VNull.
Hypothesis Hbool : forall b, P (VBool b).
Hypothesis Hint : forall i, P (VInt i).
Hypothesis Hfloat : forall f, P (VFloat f).
Hypothesis Hstring : forall s, P (VString s).
Hypothesis Hbinary : forall b, P (VBinary b).
Hypothesis Htime : forall t, P (VTime t).
Hypothesis Harray : forall a, Forall P a -> P (VArray a).
Hypothesis Hobject : forall isNil d, Forall (fun kv => P kv.2) d -> P (VObject isNil d).
Hypothesis Hid : forall id, P (VID id).

Fixpoint value_nested_ind (v : value) : P v :=
  match v with
  | VNull => Hnull | VBool b => Hbool b | VInt i => Hint i | VFloat f => Hfloat f
  | VString s => Hstring s | VBinary b => Hbinary b | VTime t => Htime t
  | VArray a => Harray a
      ((fix go (a : list value) : Forall P a :=
          match a with
          | [] => List.Forall_nil _
          | v :: a => List.Forall_cons _ _ _ (value_nested_ind v) (go a)
          end) a)
  | VObject isNil d => Hobject isNil d
      ((fix go (d : document) : Forall (fun kv => P kv.2) d :=
          match d with
          | [] => List.Forall_nil _
          | kv :: d => List.Forall_cons _ kv _ (value_nested_ind kv.2) (go d)
          end) d)
  | VID id => Hid id
  end.
End value_induction.

(** The Go types bound their contents; [machine_ok] says so of a model value. *)
Fixpoint machine_ok (v : value) : Prop :=
  match v with
  | VInt i => i64 i
  | VFloat f => u64 f
  | VTime t => i64 t
  | VID id => zlen id = 16
  | VArray a => fold_right (fun v P => machine_ok v /\ P) True a
  | VObject _ d =>
      NoDup d.*1 /\ fold_right (fun kv P => machine_ok kv.2 /\ P) True d
  | _ => True
  end.

Lemma fold_right_Forall {A} (P : A -> Prop) l :
  fold_right (fun x Q => P x /\ Q) True l <-> Forall P l.
Proof.
  induction l as [|x l IH]; simpl; [split; auto|]. rewrite Forall_cons, IH. done.
Qed.

Lemma machine_ok_array a : machine_ok (VArray a) <-> Forall machine_ok a.
Proof. simpl. apply (fold_right_Forall machine_ok). Qed.

Lemma machine_ok_object isNil d :
  machine_ok (VObject isNil d) <-> NoDup d.*1 /\ Forall (fun kv => machine_ok kv.2) d.
Proof. simpl. by rewrite (fold_right_Forall (fun kv => machine_ok kv.2)). Qed.

(** ** Numeric comparison *)

(** An order result of Go's comparison functions: -1, 0 or 1. *)
Definition cmp_int (a b : Z) : Z :=
  match a ?= b with Lt => -1 | Eq => 0 | Gt => 1 end.

Definition cmp_of (c : comparison) : Z :=
  match c with Lt => -1 | Eq => 0 | Gt => 1 end.

Definition two63 : Z := 2 ^ 63.

(** The [ok] result of the Go function is the [option]. *)
Definition compareIntFloat (i f : Z) : option Z :=
  if is_nan f then None
  else if int_scaled two63 <=? f64_scaled f then Some (-1)
  else if f64_scaled f <? - int_scaled two63 then Some 1
  else if (int_scaled (float_of_int i) =? f64_scaled f)
          && (f64_integral f && (int_of_float f =? i)) then Some 0
  else if int_scaled (float_of_int i) <? f64_scaled f then Some (-1)
  else Some 1.

Definition compareNumeric (a b : value) : option Z :=
  match a, b with
  | VInt i, VFloat f => compareIntFloat i f
  | VFloat f, VInt i => (fun c => - c) <$> compareIntFloat i f
  | _, _ => None
  end.

(** ** Equality *)

Section EqualParts.
Variable eqv : value -> value -> bool.

Fixpoint elements_equal (a b : list value) : bool :=
  match a, b with
  | x :: a, y :: b => if eqv x y then elements_equal a b else false
  | _, _ => true
  end.

Fixpoint fields_equal (d other : document) : bool :=
  match d with
  | [] => true
  | (k, v) :: d =>
      match field other k with
      | None => false
      | Some ov => if eqv v ov then fields_equal d other else false
      end
  end.

(** [Document.Equal]. *)
Definition document_equal (d other : document) : bool :=
  if negb (zlen d =? zlen other) then false else fields_equal d other.
End EqualParts.

(** [Value.Equal]. *)
Fixpoint Equal (v other : value) : bool :=
  if kind_eqb (Kind v) (Kind other) then
    match v, other with
    | VNull, VNull => true
    | VBool a, VBool b => Bool.eqb a b
    | VInt a, VInt b => a =? b
    | VFloat a, VFloat b => f64_eqb a b
    | VString a, VString b => beqb a b
    | VBinary a, VBinary b => beqb a b
    | VTime a, VTime b => a =? b
    | VID a, VID b => beqb a b
    | VArray a, VArray b =>
        if negb (zlen a =? zlen b) then false else elements_equal Equal a b
    | VObject _ a, VObject _ b => document_equal Equal a b
    | _, _ => false
    end
  else
    match compareNumeric v other with
    | Some c => c =? 0
    | None => false
    end.

Definition Document_Equal (d other : document) : bool := document_equal Equal d other.

(** ** Order *)

Definition scalarKind (k : kind) : bool :=
  match k with ArrayKind | ObjectKind => false | _ => true end.

Definition valueKindRank (k : kind) : Z :=
  match k with
  | NullKind => 0 | BoolKind => 1 | Int64Kind | Float64Kind => 2
  | StringKind => 3 | TimeKind => 4 | IDKind => 5 | BinaryKind => 6
  | ArrayKind => 7 | ObjectKind => 8
  end.

Definition compareValueKinds (a b : kind) : Z :=
  cmp_int (valueKindRank a) (valueKindRank b).

Definition compareValues (a b : value) : option Z :=
  match compareNumeric a b with
  | Some c => Some c
  | None =>
      if negb (scalarKind (Kind a)) || negb (scalarKind (Kind b)) then None
      else if kind_eqb (Kind a) (Kind b) then
        match a, b with
        | VNull, VNull => Some 0
        | VInt x, VInt y => Some (if x <? y then -1 else if y <? x then 1 else 0)
        | VFloat x, VFloat y =>
            Some (if f64_ltb x y then -1 else if f64_ltb y x then 1 else 0)
        | VString x, VString y => Some (cmp_of (bcompare x y))
        | VBool x, VBool y =>
            Some (if Bool.eqb x y then 0 else if negb x then -1 else 1)
        | VTime x, VTime y => Some (if x <? y then -1 else if y <? x then 1 else 0)
        | VID x, VID y => Some (cmp_of (bcompare x y))
        | VBinary x, VBinary y => Some (cmp_of (bcompare x y))
        | _, _ => None
        end
      else Some (compareValueKinds (Kind a) (Kind b))
  end.

Definition compareSortValues (a b : value) : Z :=
  if kind_eqb (Kind a) (Kind b) then
    match compareValues a b with Some c => c | None => 0 end
  else
    match compareNumeric a b with
    | Some c => c
    | None => compareValueKinds (Kind a) (Kind b)
    end.

(** ** Specification of the numeric comparison *)

Lemma cmp_int_spec a b :
  (cmp_int a b = -1 /\ a < b) \/ (cmp_int a b = 0 /\ a = b) \/ (cmp_int a b = 1 /\ b < a).
Proof. unfold cmp_int. destruct (Z.compare_spec a b); auto. Qed.

Lemma int_scaled_lt a b : int_scaled a < int_scaled b <-> a < b.
Proof. unfold int_scaled. symmetry. apply Z.mul_lt_mono_pos_r, scale_pos. Qed.

Lemma int_scaled_le a b : int_scaled a <= int_scaled b <-> a <= b.
Proof. unfold int_scaled. symmetry. apply Z.mul_le_mono_pos_r, scale_pos. Qed.

Lemma int_scaled_inj a b : int_scaled a = int_scaled b <-> a = b.
Proof. pose proof (int_scaled_le a b). pose proof (int_scaled_le b a). lia. Qed.

(** The float converts back to the integer exactly when they are equal. *)
Lemma int_of_float_exact i f :
  f64_integral f && (int_of_float f =? i) = true <-> int_scaled i = f64_scaled f.
Proof.
  unfold f64_integral, int_of_float, int_scaled. pose proof scale_pos.
  rewrite andb_true_iff, !Z.eqb_eq.
  pose proof (Z.quot_rem (f64_scaled f) scale ltac:(lia)). split.
  - intros [? <-]. lia.
  - intros <-. rewrite Z.rem_mul, Z.quot_mul by lia. done.
Qed.

(** The comparison is the exact one, except that an integer strictly below a
    float to which it rounds up is reported above it. *)
Lemma compareIntFloat_cases i f :
  i64 i -> is_nan f = false ->
  exists c, compareIntFloat i f = Some c /\
    (c = cmp_int (int_scaled i) (f64_scaled f) \/
     (c = 1 /\ int_scaled i < f64_scaled f /\
      int_scaled (float_of_int i) = f64_scaled f)).
Proof.
  intros Hi Hn. unfold compareIntFloat. rewrite Hn.
  destruct (float_of_int_mono i f) as [Hle Hge].
  pose proof (cmp_int_spec (int_scaled i) (f64_scaled f)) as Hc.
  pose proof (int_scaled_lt i two63). pose proof (int_scaled_le (- two63) i).
  assert (int_scaled (- two63) = - int_scaled two63) by (unfold int_scaled; ring).
  unfold i64, two63 in *.
  destruct (Z.leb_spec (int_scaled (2 ^ 63)) (f64_scaled f)); [eexists; split; [done|left; lia]|].
  destruct (Z.ltb_spec (f64_scaled f) (- int_scaled (2 ^ 63))); [eexists; split; [done|left; lia]|].
  destruct (f64_integral f && (int_of_float f =? i)) eqn:E.
  - apply int_of_float_exact in E.
    destruct (Z.eqb_spec (int_scaled (float_of_int i)) (f64_scaled f)); simpl;
      [eexists; split; [done|left; lia]|]. lia.
  - rewrite andb_false_r.
    assert (int_scaled i <> f64_scaled f).
    { intros ?%int_of_float_exact. congruence. }
    destruct (Z.ltb_spec (int_scaled (float_of_int i)) (f64_scaled f)).
    + eexists. split; [done|]. left. lia.
    + eexists. split; [done|]. destruct (Z_lt_le_dec (int_scaled i) (f64_scaled f)).
      * right. lia.
      * left. lia.
Qed.

Lemma compareIntFloat_nan i f : is_nan f = true -> compareIntFloat i f = None.
Proof. intros H. unfold compareIntFloat. by rewrite H. Qed.

Lemma compareIntFloat_zero i f :
  i64 i -> is_nan f = false ->
  (exists c, compareIntFloat i f = Some c /\ (c = 0 <-> int_scaled i = f64_scaled f)).
Proof.
  intros Hi Hn. destruct (compareIntFloat_cases i f Hi Hn) as (c & Hc & Hcase).
  exists c. split; [done|]. pose proof (cmp_int_spec (int_scaled i) (f64_scaled f)). lia.
Qed.

(** ** What [Equal] decides *)

(** The meaning of a value: numbers by their exact value, objects as sorted
    finite maps. *)
Fixpoint denote (v : value) : value :=
  match v with
  | VInt i => VInt (int_scaled i)
  | VFloat f => VInt (f64_scaled f)
  | VArray a => VArray (denote <$> a)
  | VObject _ d => VObject false (sort_fields (prod_map id denote <$> d))
  | v => v
  end.

Fixpoint no_nan (v : value) : Prop :=
  match v with
  | VFloat f => is_nan f = false
  | VArray a => fold_right (fun v P => no_nan v /\ P) True a
  | VObject _ d => fold_right (fun kv P => no_nan kv.2 /\ P) True d
  | _ => True
  end.

Lemma no_nan_array a : no_nan (VArray a) <-> Forall no_nan a.
Proof. simpl. apply (fold_right_Forall no_nan). Qed.
Lemma no_nan_object isNil d : no_nan (VObject isNil d) <-> Forall (fun kv => no_nan kv.2) d.
Proof. simpl. apply (fold_right_Forall (fun kv => no_nan kv.2)). Qed.

Definition comparable_value (v : value) : Prop := machine_ok v /\ no_nan v.

(** [eqv] decides equality of denotations for the left value [v]. *)
Definition decides_at (v : value) : Prop :=
  forall w, comparable_value v -> comparable_value w ->
    Equal v w = true <-> denote v = denote w.

Lemma comparable_array a : comparable_value (VArray a) <-> Forall comparable_value a.
Proof.
  unfold comparable_value at 1. rewrite machine_ok_array, no_nan_array.
  unfold comparable_value. by rewrite Forall_and.
Qed.

Lemma comparable_object isNil d :
  comparable_value (VObject isNil d) <->
  NoDup d.*1 /\ Forall (fun kv => comparable_value kv.2) d.
Proof.
  unfold comparable_value at 1. rewrite machine_ok_object, no_nan_object.
  unfold comparable_value. rewrite Forall_and. tauto.
Qed.

Lemma elements_equal_denote a b :
  Forall decides_at a -> Forall comparable_value a -> Forall comparable_value b ->
  length a = length b ->
  elements_equal Equal a b = true <-> denote <$> a = denote <$> b.
Proof.
  intros Ha. revert b. induction Ha as [|v a Hv Ha IH]; intros [|w b] Hca Hcb Hl;
    simplify_eq/=; [done|].
  apply Forall_cons in Hca as [? ?]. apply Forall_cons in Hcb as [? ?].
  specialize (Hv w). destruct (Equal v w).
  - rewrite IH by done. split; [intros ->; f_equal; tauto|congruence].
  - split; [done|]. intros [=]. tauto.
Qed.

Lemma fields_equal_denote d e :
  Forall (fun kv => decides_at kv.2) d ->
  Forall (fun kv => comparable_value kv.2) d ->
  Forall (fun kv => comparable_value kv.2) e ->
  fields_equal Equal d e = true <->
  forall k v, (k, v) ∈ d -> exists w, field e k = Some w /\ denote v = denote w.
Proof.
  intros Hd Hc He. induction d as [|[k v] d IH]; simpl.
  { split; [|done]. by intros _ ? ? ?%not_elem_of_nil. }
  apply Forall_cons in Hd as [Hv Hd]. apply Forall_cons in Hc as [Hcv Hc].
  change (decides_at v) in Hv. specialize (IH Hd Hc). split.
  - destruct (field e k) as [w|] eqn:Ef; [|done].
    destruct (Equal v w) eqn:Eq; [|done].
    intros H k' v' [[= -> ->]|Hin]%elem_of_cons; [|by apply IH].
    exists w. split; [done|]. apply Hv; [done| |done].
    rewrite Forall_forall in He. by apply field_Some, He in Ef.
  - intros H. destruct (H k v ltac:(left)) as (w & Ef & Hw). rewrite Ef.
    assert (comparable_value w).
    { rewrite Forall_forall in He. by apply field_Some, He in Ef. }
    apply (Hv w) in Hw as ->; [|done..].
    apply IH. intros. apply H. by right.
Qed.

Lemma elem_of_prod_map {A B} (f : A -> B) (d : list (bytes * A)) k w :
  (k, w) ∈ prod_map id f <$> d <-> exists v, w = f v /\ (k, v) ∈ d.
Proof.
  rewrite list_elem_of_fmap. split.
  - intros ([k' v] & [= -> ->] & Hin). eauto.
  - intros (v & -> & Hin). by exists (k, v).
Qed.

Lemma field_prod_map {A B} (f : A -> B) (d : list (bytes * A)) k :
  field (prod_map id f <$> d) k = f <$> field d k.
Proof. induction d as [|[k' v] d IH]; simpl; [done|]. by destruct (beqb k k'). Qed.

Lemma Equal_decides v : decides_at v.
Proof.
  induction v using value_nested_ind; intros w Hv Hw.
  all: destruct w; cbn; try (split; [done|intros [=]]; fail).
  all: try (rewrite ?beqb_eq, ?Bool.eqb_true_iff, ?Z.eqb_eq; split; congruence).
  - rewrite Z.eqb_eq. split; [congruence|]. intros [= H]. by apply int_scaled_inj.
  - destruct Hv, Hw. destruct (compareIntFloat_zero i f) as (c & -> & Hc); [done|done|].
    rewrite Z.eqb_eq, Hc. split; congruence.
  - destruct Hv, Hw. destruct (compareIntFloat_zero i f) as (c & -> & Hc); [done|done|].
    simpl. rewrite Z.eqb_eq. split; [intros; f_equal; lia|]. intros [=]. lia.
  - destruct Hv as [_ Hv], Hw as [_ Hw]. unfold f64_eqb. cbn in Hv, Hw.
    rewrite Hv, Hw. cbn. rewrite Z.eqb_eq. split; congruence.
  - apply comparable_array in Hv, Hw.
    destruct (Z.eqb_spec (zlen a) (zlen a0)) as [Hl|Hl]; cbn.
    + rewrite elements_equal_denote by (done || unfold zlen in Hl; lia).
      split; congruence.
    + split; [done|]. intros [= Heq]. destruct Hl. unfold zlen. f_equal.
      by rewrite <- (length_fmap denote a), Heq, length_fmap.
  - apply comparable_object in Hv as [Nv Hv], Hw as [Nw Hw].
    assert (Hnd : NoDup (prod_map id denote <$> d).*1 /\ NoDup (prod_map id denote <$> d0).*1)
      by (by rewrite !fst_prod_map). destruct Hnd as [N1 N2].
    transitivity (Permutation (prod_map id denote <$> d) (prod_map id denote <$> d0)).
    2: { rewrite <- sort_fields_eq by done. split; congruence. }
    unfold document_equal. destruct (Z.eqb_spec (zlen d) (zlen d0)) as [Hl|Hl]; cbn.
    + rewrite fields_equal_denote by done. unfold zlen in Hl. split.
      * intros H0. apply fields_subset_eq; [done|done|rewrite !length_fmap; lia|].
        intros k x (v & -> & Hin)%elem_of_prod_map.
        destruct (H0 _ _ Hin) as (w & Hf & ->). by rewrite field_prod_map, Hf.
      * intros Hp k v Hin.
        assert (Hx : (k, denote v) ∈ prod_map id denote <$> d0)
          by (rewrite <- Hp; apply elem_of_prod_map; eauto).
        apply elem_of_prod_map in Hx as (w & Hvw & Hin').
        exists w. split; [by apply field_NoDup|done].
    + split; [done|]. intros Hp%Permutation_length. rewrite !length_fmap in Hp.
      unfold zlen in Hl. lia.
Qed.

(** ** Properties *)

(** C37: [Value.Equal] decides equality of meaning: on values the Go types can
    hold without NaN, it returns true exactly when the two values denote the same
    thing, numbers compared by exact value across [int64] and [float64] and objects
    compared as finite maps whatever their iteration order. In particular it is an
    equivalence relation. *)
Theorem Equal_iff_same_denotation v w :
  comparable_value v -> comparable_value w ->
  Equal v w = true <-> denote v = denote w.
Proof. apply Equal_decides. Qed.

Lemma Equal_iff_same_denotation_witness :
  let v := VObject false [(bs "a", VInt 1); (bs "b", VArray [VNull])] in
  let w := VObject false [(bs "b", VArray [VNull]); (bs "a", VFloat 0x3ff0000000000000)] in
  comparable_value v /\ comparable_value w /\ Equal v w = true /\ denote v = denote w.
Proof.
  intros v w.
  assert (Hv : comparable_value v).
  { subst v. apply comparable_object. split; [apply (bool_decide_unpack _); vm_compute; exact I|].
    repeat constructor; vm_compute; intuition discriminate. }
  assert (Hw : comparable_value w).
  { subst w. apply comparable_object. split; [apply (bool_decide_unpack _); vm_compute; exact I|].
    repeat constructor; vm_compute; intuition discriminate. }
  split; [exact Hv|]. split; [exact Hw|].
  assert (He : Equal v w = true) by (vm_compute; reflexivity).
  split; [exact He|]. exact (proj1 (Equal_iff_same_denotation v w Hv Hw) He).
Defined.

(** [compareIntFloat] on an [int64] and a non-NaN float always answers, its
    answer is 0 exactly when the two numbers are equal, and it is the exact order
    except when the integer is strictly below the float and [float64(i)] rounds up
    to that float. That exception happens: the integer 9007199254740995 is below the
    float 9007199254740996.0 and is reported above it, so range predicates disagree
    with the exact order of the index keys, and the order sorts use is not
    transitive: the integer 9007199254740996 equals the float and is above the
    first integer. *)
Theorem compareIntFloat_misorders :
  (forall i f, i64 i -> is_nan f = false ->
    exists c, compareIntFloat i f = Some c /\
      (c = 0 <-> int_scaled i = f64_scaled f) /\
      (c = cmp_int (int_scaled i) (f64_scaled f) \/
       (c = 1 /\ int_scaled i < f64_scaled f /\
        int_scaled (float_of_int i) = f64_scaled f))) /\
  (let i := 9007199254740995 in
   let j := 9007199254740996 in
   let f := 0x4340000000000002 in
   f64_scaled f = int_scaled j /\ int_scaled i < f64_scaled f /\
   compareValues (VInt i) (VFloat f) = Some 1 /\ compareValues (VFloat f) (VInt i) = Some (-1) /\
   compareSortValues (VInt i) (VInt j) = -1 /\ compareSortValues (VInt j) (VFloat f) = 0 /\
   compareSortValues (VInt i) (VFloat f) = 1).
Proof.
  split; [|vm_compute; repeat split].
  intros i f Hi Hn. destruct (compareIntFloat_cases i f Hi Hn) as (c & Hc & Hcase).
  exists c. split; [done|]. pose proof (cmp_int_spec (int_scaled i) (f64_scaled f)).
  split; [lia|done].
Qed.

Lemma compareIntFloat_misorders_witness :
  exists c, compareIntFloat (2 ^ 53 + 1) 0x4340000000000000 = Some c /\
    (c = 0 <-> int_scaled (2 ^ 53 + 1) = f64_scaled 0x4340000000000000).
Proof.
  destruct (proj1 compareIntFloat_misorders (2 ^ 53 + 1) 0x4340000000000000) as (c & Hc & H0 & _).
  - split; vm_compute; [intros [=]|reflexivity].
  - vm_compute. reflexivity.
  - exists c. split; [exact Hc|exact H0].
Defined.
