(* ===== verification/IndexKey.v ===== *)
(** * Scalar index keys

    [internal/database/index_key.go]: the byte key of a scalar value, whose byte
    order is the order of the values. *)
From S2P Require Import Prelude Bytes Float64 Values.

Definition numericMagnitudeBytes : Z := 263.

(** Go's [^b] on a byte. *)
Definition bnot (b : byte) : byte := z2b (Z.lxor (b2z b) 0xff).

(** [writeShiftedIndexMagnitude]: the Go function writes into [destination] and
    reports success; the model returns both. *)
Definition writeShiftedIndexMagnitude (destination : bytes) (magnitude shift : Z) : bytes * bool :=
  if (zlen destination =? 0) || (magnitude =? 0) then (destination, magnitude =? 0)
  else
    let byteShift := shift / 8 in
    let bitShift := shift mod 8 in
    let fin := zlen destination - byteShift in
    if fin <? 8 then (destination, false)
    else
      let destination := put destination (fin - 8) (be_enc 8 (to_u64 (Z.shiftl magnitude bitShift))) in
      if negb (bitShift =? 0) then
        let high := Z.shiftr magnitude (64 - bitShift) in
        if negb (high =? 0) then
          if fin <? 9 then (destination, false)
          else (put destination (fin - 9) [z2b high], true)
        else (destination, true)
      else (destination, true).

(** The sign, magnitude and shift the numeric encoder extracts. *)
Definition numericParts (v : value) : result (bool * Z * Z) :=
  match v with
  | VInt number =>
      let negative := number <? 0 in
      Ok (negative, (if negative then to_u64 (- (number + 1)) + 1 else to_u64 number), 1074)
  | VFloat f =>
      if is_nan f || is_inf f then Err ErrInvalidDocument
      else Ok (f64_negative f, f64_magnitude f, f64_shift f)
  | _ => Err ErrNotIndexable
  end.

Definition appendNumericIndexKey (destination : bytes) (v : value) : result bytes :=
  let* (negative, magnitude, shift) := numericParts v in
  let body := zeros numericMagnitudeBytes in
  if magnitude =? 0 then Ok (destination ++ z2b 0x30 :: z2b 0x01 :: body)
  else
    let '(body, fits) := writeShiftedIndexMagnitude body magnitude shift in
    if negb fits then Err ErrMagnitudeOverflow
    else if negative then Ok (destination ++ z2b 0x30 :: z2b 0x00 :: (bnot <$> body))
    else Ok (destination ++ z2b 0x30 :: z2b 0x02 :: body).

Definition encodeNumericIndexKey (v : value) : result bytes := appendNumericIndexKey [] v.

Fixpoint escapeBody (value : bytes) : bytes :=
  match value with
  | [] => []
  | item :: value =>
      (if b2z item =? 0 then [x00; xff] else [item]) ++ escapeBody value
  end.

Definition appendEscapedIndexBytes (result value : bytes) : bytes :=
  result ++ escapeBody value ++ [x00; x00].

Definition escapeIndexBytes (value : bytes) : bytes := appendEscapedIndexBytes [] value.

Definition appendIndexKey (destination : bytes) (v : value) : result bytes :=
  match v with
  | VNull => Ok (destination ++ [z2b 0x10])
  | VBool b => Ok (destination ++ [if b then z2b 0x21 else z2b 0x20])
  | VInt _ | VFloat _ => appendNumericIndexKey destination v
  | VString s => Ok (appendEscapedIndexBytes (destination ++ [z2b 0x40]) s)
  | VTime t => Ok (destination ++ z2b 0x50 :: be_enc 8 (Z.lxor (to_u64 t) (2 ^ 63)))
  | VID id => Ok (destination ++ z2b 0x60 :: id)
  | VBinary b => Ok (appendEscapedIndexBytes (destination ++ [z2b 0x70]) b)
  | VArray _ | VObject _ _ => Err ErrNotIndexable
  end.

Definition encodeIndexKey (v : value) : result bytes := appendIndexKey [] v.

Fixpoint zero_count (value : bytes) : Z :=
  match value with
  | [] => 0
  | item :: value => (if b2z item =? 0 then 1 else 0) + zero_count value
  end.

Definition escapedIndexBytesLength (value : bytes) : Z := zlen value + 2 + zero_count value.

Definition indexKeyCapacity (v : value) : Z :=
  match v with
  | VNull | VBool _ => 1
  | VInt _ | VFloat _ => 2 + numericMagnitudeBytes
  | VString s => 1 + escapedIndexBytesLength s
  | VTime _ => 9
  | VID _ => 17
  | VBinary b => 1 + escapedIndexBytesLength b
  | VArray _ | VObject _ _ => 0
  end.

(** ** Specification: the order of scalar values *)

(** The exact value of a number, at the common scale. *)
Definition exact_number (v : value) : Z :=
  match v with
  | VInt i => int_scaled i
  | VFloat f => f64_scaled f
  | _ => 0
  end.

Definition scalar_order (a b : value) : comparison :=
  match valueKindRank (Kind a) ?= valueKindRank (Kind b) with
  | Eq =>
      match a, b with
      | VBool x, VBool y =>
          match x, y with false, true => Lt | true, false => Gt | _, _ => Eq end
      | VString x, VString y => bcompare x y
      | VTime x, VTime y => x ?= y
      | VID x, VID y => bcompare x y
      | VBinary x, VBinary y => bcompare x y
      | _, _ => exact_number a ?= exact_number b
      end
  | c => c
  end.

(** A value the encoder accepts: scalar, and finite when a float. *)
Definition indexable (v : value) : Prop :=
  machine_ok v /\ scalarKind (Kind v) = true /\
  match v with VFloat f => is_finite f = true | _ => True end.

(** ** Escaped byte strings *)

Lemma b2z_zero b : b2z b = 0 -> b = x00.
Proof. intros H. by apply b2z_inj. Qed.

(** Escaped strings are prefix free and keep the byte order, whatever follows. *)
Lemma bcompare_escaped a b x y :
  bcompare ((escapeBody a ++ [x00; x00]) ++ x) ((escapeBody b ++ [x00; x00]) ++ y) =
  match bcompare a b with Eq => bcompare x y | c => c end.
Proof.
  revert b; induction a as [|i a IH]; intros [|j b]; [done|..];
    cbn [escapeBody bcompare]; try pose proof (b2z_range i) as Hi;
    try pose proof (b2z_range j) as Hj.
  - destruct (Z.eqb_spec (b2z j) 0) as [E|E]; cbn -[b2z Z.compare]; [done|].
    change (b2z x00) with 0. by destruct (Z.compare_spec 0 (b2z j)); [lia|done|lia].
  - destruct (Z.eqb_spec (b2z i) 0) as [E|E]; cbn -[b2z Z.compare]; [done|].
    change (b2z x00) with 0. by destruct (Z.compare_spec (b2z i) 0); [lia|lia|done].
  - specialize (IH b). rewrite <- !app_assoc in *. cbn [app] in IH.
    destruct (Z.eqb_spec (b2z i) 0) as [E|E], (Z.eqb_spec (b2z j) 0) as [E'|E'];
      cbn -[b2z Z.compare]; change (b2z x00) with 0; change (b2z xff) with 255.
    + by rewrite E, E', IH.
    + rewrite E. by destruct (Z.compare_spec 0 (b2z j)); [lia|done|lia].
    + rewrite E'. by destruct (Z.compare_spec (b2z i) 0); [lia|lia|done].
    + by destruct (b2z i ?= b2z j); [apply IH|done|done].
Qed.

Lemma zlen_escapeBody a : zlen (escapeBody a) = zlen a + zero_count a.
Proof.
  induction a as [|i a IH]; simpl; [done|]. rewrite zlen_app, zlen_cons, IH.
  destruct (b2z i =? 0); rewrite ?zlen_cons, zlen_nil; lia.
Qed.

(** ** Numeric keys *)

(** The shifted magnitude is written as one big-endian integer. *)
Lemma writeShiftedIndexMagnitude_spec n m s :
  0 < n -> 0 < m < 2 ^ 64 -> 0 <= s -> 8 <= n - s / 8 ->
  (9 <= n - s / 8 \/ m * 2 ^ (s mod 8) < 2 ^ 64) ->
  writeShiftedIndexMagnitude (zeros n) m s = (be_enc (Z.to_nat n) (m * 2 ^ s), true).
Proof.
  intros Hn Hm Hs H8 H9. unfold writeShiftedIndexMagnitude. rewrite zlen_zeros by lia.
  destruct (Z.eqb_spec n 0); [lia|]. destruct (Z.eqb_spec m 0); [lia|]. cbn [orb].
  destruct (Z.ltb_spec (n - s / 8) 8); [lia|].
  pose proof (Z.mod_pos_bound s 8 ltac:(lia)) as Hb.
  pose proof (Z.div_mod s 8 ltac:(lia)) as Hdm. pose proof (Z.div_pos s 8 Hs ltac:(lia)).
  set (e := n - s / 8) in *. set (b := s mod 8) in *. set (q := s / 8) in *.
  rewrite (Z.shiftl_mul_pow2 m b), (Z.shiftr_div_pow2 m) by lia.
  assert (Hpow : 2 ^ s = 2 ^ b * 256 ^ q).
  { change 256 with (2 ^ 8). rewrite <- Z.pow_mul_r, <- Z.pow_add_r by lia. f_equal. lia. }
  set (p := 2 ^ b) in *. assert (Hp : 0 < p) by (apply Z.pow_pos_nonneg; lia).
  assert (Hhigh : m / 2 ^ (64 - b) = m * p / 2 ^ 64).
  { replace (2 ^ 64) with (2 ^ (64 - b) * p)
      by (unfold p; rewrite <- Z.pow_add_r by lia; f_equal; lia).
    rewrite Z.div_mul_cancel_r; [done|lia|]. apply Z.pow_nonzero; lia. }
  rewrite Hhigh. pose proof (Z.div_mod (m * p) (2 ^ 64) ltac:(lia)) as Hmp.
  pose proof (Z.mod_pos_bound (m * p) (2 ^ 64) ltac:(lia)) as Hlow.
  assert (Hp8 : p <= 2 ^ 7) by (apply Z.pow_le_mono_r; lia).
  assert (Hmp0 : 0 <= m * p) by nia.
  assert (Hh : 0 <= m * p / 2 ^ 64 < 256).
  { split; [apply Z.div_pos; lia|]. apply Z.div_lt_upper_bound; [lia|]. nia. }
  fold (to_u64 (m * p)) in Hmp, Hlow.
  rewrite put_zeros by (rewrite ?zlen_be_enc; lia). rewrite zlen_be_enc.
  replace (n - (e - 8) - Z.of_nat 8) with q by lia.
  assert (Hplain : m * p / 2 ^ 64 = 0 ->
    zeros (e - 8) ++ be_enc 8 (to_u64 (m * p)) ++ zeros q = be_enc (Z.to_nat n) (m * 2 ^ s)).
  { intros Hz. symmetry. rewrite <- (be_enc_dec (Z.to_nat n) (zeros (e - 8) ++ _)).
    - f_equal. rewrite !be_dec_app, !be_dec_zeros, be_dec_enc, zlen_zeros, Hpow by lia. nia.
    - apply Nat2Z.inj. fold (zlen (zeros (e - 8) ++ be_enc 8 (to_u64 (m * p)) ++ zeros q)).
      rewrite !zlen_app, zlen_be_enc, !zlen_zeros by lia. lia. }
  destruct (Z.eqb_spec b 0) as [Eb|Eb]; cbn [negb].
  { f_equal. apply Hplain. unfold p. rewrite Eb. apply Z.div_small. lia. }
  destruct (Z.eqb_spec (m * p / 2 ^ 64) 0) as [E0|E0]; cbn [negb].
  { f_equal. auto. }
  assert (9 <= e). { destruct H9; [done|]. destruct E0. apply Z.div_small. split; assumption. }
  destruct (Z.ltb_spec e 9); [lia|]. f_equal.
  rewrite put_app_l, put_zeros by (rewrite ?zlen_zeros, ?zlen_cons, ?zlen_nil by lia; lia).
  change (zlen [z2b (m * p / 2 ^ 64)]) with 1. replace (e - 8 - (e - 9) - 1) with 0 by lia.
  change (zeros 0) with (@nil byte). rewrite app_nil_r.
  symmetry. rewrite <- (be_enc_dec (Z.to_nat n)).
  - f_equal. rewrite !be_dec_app, !be_dec_zeros, be_dec_enc, !zlen_app, zlen_be_enc, zlen_zeros, Hpow by lia.
    cbn [be_dec]. rewrite z2b_small by lia. rewrite Z.pow_add_r by lia. change (256 ^ zlen []) with 1.
    change (256 ^ Z.of_nat 8) with (2 ^ 64). nia.
  - apply Nat2Z.inj. match goal with |- Z.of_nat (length ?l) = _ => fold (zlen l) end.
    rewrite !zlen_app, zlen_be_enc, !zlen_zeros by lia. change (zlen [_]) with 1. lia.
Qed.

(** The numeric key as a function of the exact value. *)
Definition numeric_body (s : Z) : bytes :=
  if s =? 0 then z2b 0x01 :: zeros 263
  else if s <? 0 then z2b 0x00 :: (bnot <$> be_enc 263 (- s))
  else z2b 0x02 :: be_enc 263 s.

Definition magnitude_bound : Z := 256 ^ Z.of_nat 263.

Lemma magnitude_bound_pow : magnitude_bound = 2 ^ 2104.
Proof. unfold magnitude_bound. change 256 with (2 ^ 8). by rewrite <- Z.pow_mul_r by lia. Qed.

Definition numeric (v : value) : Prop :=
  match v with VInt i => i64 i | VFloat f => u64 f /\ is_finite f = true | _ => False end.

(** The extracted parts are the exact value, and fit the reserved bytes. *)
Lemma numericParts_spec v :
  numeric v ->
  exists neg mag sh,
    numericParts v = Ok (neg, mag, sh) /\ 0 <= mag < 2 ^ 64 /\ 0 <= sh /\
    8 <= 263 - sh / 8 /\ (9 <= 263 - sh / 8 \/ mag * 2 ^ (sh mod 8) < 2 ^ 64) /\
    exact_number v = (if neg then - (mag * 2 ^ sh) else mag * 2 ^ sh) /\
    mag * 2 ^ sh < magnitude_bound.
Proof.
  rewrite magnitude_bound_pow. destruct v as [| |i|f| | | | | |]; try done; cbn [numeric].
  - intros Hi. cbn [numericParts exact_number]. unfold i64 in Hi.
    assert (Hm : exists mag, (if i <? 0 then to_u64 (- (i + 1)) + 1 else to_u64 i) = mag /\
      0 <= mag <= 2 ^ 63 /\ (if i <? 0 then - mag else mag) = i).
    { unfold to_u64. destruct (Z.ltb_spec i 0); eexists; (split; [reflexivity|]);
        rewrite Z.mod_small by lia; lia. }
    destruct Hm as (mag & -> & Hmag & Hsgn).
    exists (i <? 0), mag, 1074. split; [done|]. split; [lia|]. split; [lia|].
    split; [done|]. split; [left; done|]. split.
    + unfold int_scaled, scale. transitivity ((if i <? 0 then - mag else mag) * 2 ^ 1074).
      * by rewrite Hsgn.
      * generalize (2 ^ 1074) as sc. intros. destruct (i <? 0); ring.
    + apply Z.le_lt_trans with (2 ^ 63 * 2 ^ 1074).
      * apply Z.mul_le_mono_nonneg_r; [apply Z.pow_nonneg; lia|lia].
      * rewrite <- Z.pow_add_r by lia. apply Z.pow_lt_mono_r; lia.
  - intros [Hf Hfin]. cbn [numericParts exact_number].
    assert (is_nan f || is_inf f = false) as ->
      by (unfold is_finite in Hfin; by destruct (is_nan f || is_inf f)).
    pose proof (f64_magnitude_range f). pose proof (f64_shift_range f) as [Hs _].
    pose proof (f64_shift_finite f Hfin) as Hs2.
    assert (f64_shift f / 8 <= 2045 / 8) by (apply Z.div_le_mono; lia).
    change (2045 / 8) with 255 in *.
    pose proof (Z.mod_pos_bound (f64_shift f) 8 ltac:(lia)).
    exists (f64_negative f), (f64_magnitude f), (f64_shift f).
    split; [done|]. split; [lia|]. split; [lia|]. split; [lia|]. split.
    { right. apply Z.lt_le_trans with (2 ^ 53 * 2 ^ (f64_shift f mod 8)).
      - apply Z.mul_lt_mono_pos_r; [apply Z.pow_pos_nonneg; lia|lia].
      - rewrite <- Z.pow_add_r by lia. apply Z.pow_le_mono_r; lia. }
    split; [unfold f64_scaled; destruct (f64_negative f); ring|].
    apply Z.lt_le_trans with (2 ^ 53 * 2 ^ f64_shift f).
    + apply Z.mul_lt_mono_pos_r; [apply Z.pow_pos_nonneg; lia|lia].
    + rewrite <- Z.pow_add_r by lia. apply Z.pow_le_mono_r; lia.
Qed.

Lemma exact_number_bound v : numeric v -> Z.abs (exact_number v) < magnitude_bound.
Proof.
  intros (neg & mag & sh & _ & Hm & Hsh & _ & _ & -> & Hb)%numericParts_spec.
  pose proof (Z.pow_nonneg 2 sh). destruct neg; nia.
Qed.

Lemma appendNumericIndexKey_spec dst v :
  numeric v ->
  appendNumericIndexKey dst v = Ok (dst ++ z2b 0x30 :: numeric_body (exact_number v)).
Proof.
  intros Hv. destruct (numericParts_spec v Hv)
    as (neg & mag & sh & Hp & Hm & Hsh & H8 & H9 & Hx & Hb).
  unfold appendNumericIndexKey. rewrite Hp. cbn [rbind]. unfold numericMagnitudeBytes.
  assert (0 < 2 ^ sh) by (apply Z.pow_pos_nonneg; lia).
  unfold numeric_body. destruct (Z.eqb_spec mag 0) as [->|Hm0].
  - rewrite Hx. by destruct neg.
  - rewrite writeShiftedIndexMagnitude_spec by (done || lia). cbn [negb].
    change (Z.to_nat 263) with 263%nat.
    assert (0 < mag * 2 ^ sh) by nia. rewrite Hx. destruct neg.
    + destruct (Z.eqb_spec (- (mag * 2 ^ sh)) 0); [lia|].
      destruct (Z.ltb_spec (- (mag * 2 ^ sh)) 0); [|lia]. by rewrite Z.opp_involutive.
    + destruct (Z.eqb_spec (mag * 2 ^ sh) 0); [lia|].
      destruct (Z.ltb_spec (mag * 2 ^ sh) 0); [lia|done].
Qed.

Lemma b2z_bnot b : b2z (bnot b) = 255 - b2z b.
Proof. by destruct b. Qed.

Lemma bcompare_bnot a b :
  length a = length b -> bcompare (bnot <$> a) (bnot <$> b) = bcompare b a.
Proof.
  revert b; induction a as [|x a IH]; intros [|y b] H; simplify_eq/=; [done|].
  rewrite !b2z_bnot, IH by done.
  by destruct (Z.compare_spec (255 - b2z x) (255 - b2z y)),
    (Z.compare_spec (b2z y) (b2z x)); try lia.
Qed.

Lemma bcompare_numeric_body x y u w :
  Z.abs x < magnitude_bound -> Z.abs y < magnitude_bound ->
  bcompare (numeric_body x ++ u) (numeric_body y ++ w) =
  match x ?= y with Eq => bcompare u w | c => c end.
Proof.
  intros Hx Hy. unfold numeric_body, magnitude_bound in *.
  assert (Hz : zeros 263 = replicate 263 x00) by done.
  destruct (Z.eqb_spec x 0) as [->|Ex]; destruct (Z.eqb_spec y 0) as [->|Ey].
  - rewrite Z.compare_refl. apply bcompare_app_same.
  - destruct (Z.ltb_spec y 0) as [Hs|Hs], (Z.compare_spec 0 y); try (exfalso; lia); reflexivity.
  - destruct (Z.ltb_spec x 0) as [Hs|Hs], (Z.compare_spec x 0); try (exfalso; lia); reflexivity.
  - destruct (Z.ltb_spec x 0) as [Hs|Hs]; destruct (Z.ltb_spec y 0) as [Ht|Ht].
    + cbn -[be_enc Z.compare]. rewrite Z.compare_refl.
      rewrite bcompare_app_len by (by rewrite !length_fmap, !length_be_enc).
      rewrite bcompare_bnot by (by rewrite !length_be_enc).
      rewrite bcompare_be_enc by lia. by rewrite Z.compare_opp.
    + cbn -[Z.compare]. by destruct (Z.compare_spec x y); [lia|done|lia].
    + cbn -[Z.compare]. by destruct (Z.compare_spec x y); [lia|lia|done].
    + cbn -[be_enc Z.compare]. rewrite Z.compare_refl.
      rewrite bcompare_app_len by (by rewrite !length_be_enc).
      by rewrite bcompare_be_enc by lia.
Qed.

(** ** Scalar keys *)

(** The key as a function of the value. *)
Definition scalar_key (v : value) : bytes :=
  match v with
  | VNull => [z2b 0x10]
  | VBool b => [if b then z2b 0x21 else z2b 0x20]
  | VInt _ | VFloat _ => z2b 0x30 :: numeric_body (exact_number v)
  | VString s => z2b 0x40 :: escapeBody s ++ [x00; x00]
  | VTime t => z2b 0x50 :: be_enc 8 (t + 2 ^ 63)
  | VID id => z2b 0x60 :: id
  | VBinary b => z2b 0x70 :: escapeBody b ++ [x00; x00]
  | VArray _ | VObject _ _ => []
  end.

Lemma indexable_numeric v :
  indexable v -> Kind v = Int64Kind \/ Kind v = Float64Kind -> numeric v.
Proof. intros (H1 & _ & H3) [Hk|Hk]; destruct v; done. Qed.

Lemma appendIndexKey_spec dst v :
  indexable v -> appendIndexKey dst v = Ok (dst ++ scalar_key v).
Proof.
  intros Hi. destruct v as [| |i|f|s|b|t| | |id]; cbn [appendIndexKey scalar_key]; try done.
  - apply appendNumericIndexKey_spec, indexable_numeric; auto.
  - apply appendNumericIndexKey_spec, indexable_numeric; auto.
  - unfold appendEscapedIndexBytes. by rewrite <- app_assoc.
  - unfold appendEscapedIndexBytes. by rewrite <- app_assoc.
  - destruct Hi as (Ht & _). by rewrite lxor_sign_bit.
  - by destruct Hi as (_ & ? & _).
  - by destruct Hi as (_ & ? & _).
Qed.

Lemma not_indexable_error dst v : scalarKind (Kind v) = false -> is_ok (appendIndexKey dst v) = false.
Proof. by destruct v. Qed.

(** Keys of scalars compare as the values do, and the first byte of a key is
    its type tag. *)
Lemma bcompare_scalar_key a b :
  indexable a -> indexable b ->
  bcompare (scalar_key a) (scalar_key b) = scalar_order a b.
Proof.
  intros Ha Hb.
  assert (Hnum : forall a b, numeric a -> numeric b ->
    bcompare (z2b 0x30 :: numeric_body (exact_number a))
             (z2b 0x30 :: numeric_body (exact_number b)) =
    (exact_number a ?= exact_number b)).
  { intros x y Hx Hy. cbn [bcompare]. rewrite Z.compare_refl.
    rewrite <- (app_nil_r (numeric_body (exact_number x))),
      <- (app_nil_r (numeric_body (exact_number y))).
    rewrite bcompare_numeric_body by (by apply exact_number_bound).
    by destruct (exact_number x ?= exact_number y). }
  assert (Hesc : forall t s1 s2,
    bcompare (t :: escapeBody s1 ++ [x00; x00]) (t :: escapeBody s2 ++ [x00; x00]) =
    bcompare s1 s2).
  { intros. cbn [bcompare]. rewrite Z.compare_refl.
    rewrite <- (app_nil_r (escapeBody s1 ++ _)), <- (app_nil_r (escapeBody s2 ++ _)).
    rewrite bcompare_escaped. by destruct (bcompare s1 s2). }
  unfold scalar_order.
  destruct a as [|[]|i|f|s|y|t|a|d|id], b as [|[]|i'|f'|s'|y'|t'|a'|d'|id'];
    try (by destruct Ha as (_ & ? & _)); try (by destruct Hb as (_ & ? & _));
    try reflexivity; cbn [Kind valueKindRank Z.compare Pos.compare Pos.compare_cont].
  - apply Hnum; apply indexable_numeric; auto.
  - apply Hnum; apply indexable_numeric; auto.
  - apply Hnum; apply indexable_numeric; auto.
  - apply Hnum; apply indexable_numeric; auto.
  - apply Hesc.
  - apply Hesc.
  - cbn [scalar_key bcompare]. rewrite Z.compare_refl.
    destruct Ha as (Ht & _), Hb as (Ht' & _). cbn in Ht, Ht'. unfold i64 in *.
    rewrite bcompare_be_enc by (change (256 ^ Z.of_nat 8) with (2 ^ 64); lia).
    destruct (Z.compare_spec t t');
      [apply Z.compare_eq_iff|apply Z.compare_lt_iff|apply Z.compare_gt_iff]; lia.
Qed.

Lemma zlen_numeric_body s : zlen (numeric_body s) = 264.
Proof.
  unfold numeric_body. destruct (s =? 0); [done|].
  destruct (s <? 0); rewrite zlen_cons; unfold zlen; rewrite ?length_fmap, length_be_enc; done.
Qed.

Lemma zlen_scalar_key v : indexable v -> zlen (scalar_key v) = indexKeyCapacity v.
Proof.
  intros (Hm & Hs & _). destruct v; try done; cbn [scalar_key indexKeyCapacity].
  - by rewrite zlen_cons, zlen_numeric_body.
  - by rewrite zlen_cons, zlen_numeric_body.
  - rewrite zlen_cons, zlen_app, zlen_escapeBody. unfold escapedIndexBytesLength.
    change (zlen [x00; x00]) with 2. lia.
  - rewrite zlen_cons, zlen_app, zlen_escapeBody. unfold escapedIndexBytesLength.
    change (zlen [x00; x00]) with 2. lia.
  - cbn in Hm. rewrite zlen_cons. lia.
Qed.

(** ** Properties *)

Definition indexableb (v : value) : bool :=
  scalarKind (Kind v) && match v with VFloat f => is_finite f | _ => true end.

(** C30: [encodeIndexKey] is total on the values it accepts and order preserving:
    on machine values it succeeds exactly for scalars other than NaN and the
    infinities, and byte comparison of two keys is the documented order of the
    values: kinds by rank, numbers by exact value across [int64] and [float64],
    strings, binaries and IDs bytewise, times chronologically. [indexKeyCapacity] is
    the exact length of the key. *)
Theorem encodeIndexKey_order a b :
  machine_ok a -> machine_ok b ->
  (is_ok (encodeIndexKey a) = indexableb a) /\
  (forall ka kb, encodeIndexKey a = Ok ka -> encodeIndexKey b = Ok kb ->
     bcompare ka kb = scalar_order a b /\ zlen ka = indexKeyCapacity a).
Proof.
  intros Ha Hb.
  assert (Hok : forall v, machine_ok v -> is_ok (encodeIndexKey v) = true -> indexable v).
  { intros v Hv Hk. split; [done|]. destruct v as [| | |f| | | | | |]; try done.
    unfold encodeIndexKey, appendIndexKey, appendNumericIndexKey, numericParts in Hk.
    unfold is_finite. by destruct (is_nan f || is_inf f). }
  split.
  - destruct (indexableb a) eqn:E.
    + unfold encodeIndexKey. rewrite appendIndexKey_spec; [done|].
      apply andb_true_iff in E as [E1 E2]. split; [done|]. split; [done|]. by destruct a.
    + destruct (is_ok (encodeIndexKey a)) eqn:Ek; [|done].
      destruct (Hok _ Ha Ek) as (_ & E1 & E2). unfold indexableb in E. rewrite E1 in E.
      destruct a; simpl in E; congruence.
  - intros ka kb Hka Hkb.
    assert (Ia : indexable a) by (apply Hok; [done|by rewrite Hka]).
    assert (Ib : indexable b) by (apply Hok; [done|by rewrite Hkb]).
    unfold encodeIndexKey in *. rewrite appendIndexKey_spec in Hka, Hkb by done.
    injection Hka as <-. injection Hkb as <-.
    split; [by apply bcompare_scalar_key|by apply zlen_scalar_key].
Qed.

Lemma encodeIndexKey_order_witness :
  (is_ok (encodeIndexKey (VInt 9007199254740995)) = true) /\
  (forall ka kb, encodeIndexKey (VInt 9007199254740995) = Ok ka ->
     encodeIndexKey (VFloat 0x4340000000000002) = Ok kb -> bcompare ka kb = Lt /\ zlen ka = 265).
Proof.
  destruct (encodeIndexKey_order (VInt 9007199254740995) (VFloat 0x4340000000000002)) as [H1 H2].
  - split; vm_compute; [intros [=]|reflexivity].
  - split; vm_compute; [intros [=]|reflexivity].
  - split; [exact H1|]. intros ka kb Ha Hb. destruct (H2 ka kb Ha Hb) as [-> ->].
    vm_compute. split; reflexivity.
Defined.
