(* ===== verification/CompoundKey.v ===== *)
(** * Compound index keys

    [internal/database/compound_index_key.go]: keys of value tuples with a
    direction per field, partial keys and prefixes. *)
From S2P Require Import Prelude Bytes Float64 Values IndexKey.

Definition maxCompoundIndexFields : Z := 4.
Definition maxCanonicalSecondaryKeyLen : Z := 4096 - 24.
Definition compoundPartialMarker : byte := x01.
Definition compoundComponentFloor : byte := x02.

(** [IndexField] of [index_definition.go]. *)
Record IndexField := { Path : bytes; Order : Z }.

(** [appendAscendingIndexComponent]: the framing of [appendEscapedIndexBytes]. *)
Definition appendAscendingIndexComponent (destination scalar : bytes) : bytes :=
  destination ++ escapeBody scalar ++ [x00; x00].

Fixpoint invertBody (scalar : bytes) : bytes :=
  match scalar with
  | [] => []
  | value :: scalar =>
      (if b2z (bnot value) =? 0xff then [xff; x00] else [bnot value]) ++ invertBody scalar
  end.

Definition appendDescendingIndexComponent (destination scalar : bytes) : bytes :=
  destination ++ invertBody scalar ++ [xff; xff].

(** First loop of [encodeCompoundIndexKey]: the scalar keys of the tuple. The Go
    code appends them to one buffer and remembers the ends; the model keeps the
    slices. *)
Fixpoint encodeScalars (values : list value) (fields : list IndexField) : result (list bytes) :=
  match fields, values with
  | f :: fields, v :: values =>
      if negb (Order f =? 1) && negb (Order f =? -1) then Err ErrBadDirection
      else
        let* scalar := encodeIndexKey v in
        let* rest := encodeScalars values fields in
        Ok (scalar :: rest)
  | _, _ => Ok []
  end.

Definition componentCapacity (scalar : bytes) : Z := zlen scalar + 2 + zero_count scalar.

(** Last loop: the framed components. *)
Fixpoint appendComponents (result : bytes) (fields : list IndexField) (scalars : list bytes) : bytes :=
  match fields, scalars with
  | f :: fields, scalar :: scalars =>
      appendComponents
        (if Order f =? 1 then appendAscendingIndexComponent result scalar
         else appendDescendingIndexComponent result scalar) fields scalars
  | _, _ => result
  end.

Definition encodeCompoundIndexKey (values : list value) (fields : list IndexField) : result bytes :=
  if (zlen values =? 0) || negb (zlen values =? zlen fields)
     || (maxCompoundIndexFields <? zlen fields) then Err ErrBadTuple
  else
    let* scalars := encodeScalars values fields in
    let resultCapacity := foldr (fun s n => componentCapacity s + n) 0 scalars in
    if maxCanonicalSecondaryKeyLen <? resultCapacity then Err ErrKeyTooLarge
    else Ok (appendComponents [] fields scalars).

Definition encodeCompoundPartialIndexKey (values : list value) (fields : list IndexField)
    (id : bytes) : result bytes :=
  if (zlen values =? 0) || negb (zlen values =? zlen fields) || all_zero id then Err ErrBadTuple
  else
    let* key := encodeCompoundIndexKey values fields in
    if maxCanonicalSecondaryKeyLen <? zlen key + 1 + zlen id then Err ErrKeyTooLarge
    else Ok (key ++ compoundPartialMarker :: id).

Definition encodeCompoundIndexPrefix (values : list value) (fields : list IndexField) : result bytes :=
  if (zlen values =? 0) || (zlen fields <? zlen values) then Err ErrBadTuple
  else encodeCompoundIndexKey values (take (length values) fields).

(** ** Specification *)

(** The order of tuples: field by field, reversed for descending fields. *)
Fixpoint tuple_order (fields : list IndexField) (vs ws : list value) : comparison :=
  match fields, vs, ws with
  | f :: fields, v :: vs, w :: ws =>
      match (if Order f =? 1 then scalar_order v w else scalar_order w v) with
      | Eq => tuple_order fields vs ws
      | c => c
      end
  | _, _, _ => Eq
  end.

(** One framed component. *)
Definition component (f : IndexField) (scalar : bytes) : bytes :=
  if Order f =? 1 then escapeBody scalar ++ [x00; x00] else invertBody scalar ++ [xff; xff].

Fixpoint components (fields : list IndexField) (scalars : list bytes) : bytes :=
  match fields, scalars with
  | f :: fields, s :: scalars => component f s ++ components fields scalars
  | _, _ => []
  end.

Lemma appendComponents_spec r fields scalars :
  appendComponents r fields scalars = r ++ components fields scalars.
Proof.
  revert r scalars; induction fields as [|f fields IH]; intros r [|s scalars]; simpl;
    rewrite ?app_nil_r; try done.
  rewrite IH, app_assoc. f_equal. unfold component. by destruct (Order f =? 1).
Qed.

(** Descending frames compare in the reverse order, whatever follows. *)
Lemma bcompare_inverted a b x y :
  bcompare ((invertBody a ++ [xff; xff]) ++ x) ((invertBody b ++ [xff; xff]) ++ y) =
  match bcompare b a with Eq => bcompare x y | c => c end.
Proof.
  revert b; induction a as [|i a IH]; intros [|j b]; [done|..];
    cbn [invertBody bcompare]; try pose proof (b2z_range i) as Hi;
    try pose proof (b2z_range j) as Hj; rewrite ?b2z_bnot.
  - destruct (Z.eqb_spec (255 - b2z j) 255) as [E|E]; cbn -[b2z Z.compare]; [done|].
    rewrite b2z_bnot. change (b2z xff) with 255.
    by destruct (Z.compare_spec 255 (255 - b2z j)); [lia|lia|].
  - destruct (Z.eqb_spec (255 - b2z i) 255) as [E|E]; cbn -[b2z Z.compare]; [done|].
    rewrite b2z_bnot. change (b2z xff) with 255.
    by destruct (Z.compare_spec (255 - b2z i) 255); [lia| |lia].
  - specialize (IH b). rewrite <- !app_assoc in *. cbn [app] in IH.
    destruct (Z.eqb_spec (255 - b2z i) 255) as [E|E], (Z.eqb_spec (255 - b2z j) 255) as [E'|E'];
      cbn -[b2z Z.compare]; rewrite ?b2z_bnot; change (b2z xff) with 255.
    + replace (b2z i) with 0 by lia. replace (b2z j) with 0 by lia. by rewrite IH.
    + replace (b2z i) with 0 by lia.
      by destruct (Z.compare_spec 255 (255 - b2z j)), (Z.compare_spec (b2z j) 0); try lia.
    + replace (b2z j) with 0 by lia.
      by destruct (Z.compare_spec (255 - b2z i) 255), (Z.compare_spec 0 (b2z i)); try lia.
    + by destruct (Z.compare_spec (255 - b2z i) (255 - b2z j)),
        (Z.compare_spec (b2z j) (b2z i)); try lia.
Qed.

Lemma bcompare_component f a b x y :
  bcompare (component f a ++ x) (component f b ++ y) =
  match (if Order f =? 1 then bcompare a b else bcompare b a) with
  | Eq => bcompare x y | c => c end.
Proof.
  unfold component. destruct (Order f =? 1); [apply bcompare_escaped|apply bcompare_inverted].
Qed.

Lemma zlen_component f s : zlen (component f s) = componentCapacity s.
Proof.
  unfold component, componentCapacity. destruct (Order f =? 1); rewrite zlen_app.
  - rewrite zlen_escapeBody. change (zlen [x00; x00]) with 2. lia.
  - change (zlen [xff; xff]) with 2.
    assert (zlen (invertBody s) = zlen s + zero_count s) as ->; [|lia].
    induction s as [|i s IH]; simpl; [done|]. rewrite zlen_app, zlen_cons, IH, b2z_bnot.
    destruct (Z.eqb_spec (255 - b2z i) 255), (Z.eqb_spec (b2z i) 0); try lia;
      rewrite ?zlen_cons, zlen_nil; lia.
Qed.

Lemma zlen_components fields scalars :
  length fields = length scalars ->
  zlen (components fields scalars) = foldr (fun s n => componentCapacity s + n) 0 scalars.
Proof.
  revert scalars; induction fields as [|f fields IH]; intros [|s scalars] H;
    simplify_eq/=; [done|]. by rewrite zlen_app, zlen_component, IH.
Qed.

(** The key of a tuple whose components are all indexable. *)
Definition tuple_key (fields : list IndexField) (vs : list value) : bytes :=
  components fields (scalar_key <$> vs).

Lemma bcompare_tuple_key fields vs ws x y :
  Forall indexable vs -> Forall indexable ws ->
  length vs = length fields -> length ws = length fields ->
  bcompare (tuple_key fields vs ++ x) (tuple_key fields ws ++ y) =
  match tuple_order fields vs ws with Eq => bcompare x y | c => c end.
Proof.
  unfold tuple_key. revert vs ws.
  induction fields as [|f fields IH]; intros [|v vs] [|w ws] Hv Hw Lv Lw; simplify_eq/=; [done|].
  apply Forall_cons in Hv as [Hv Hvs]. apply Forall_cons in Hw as [Hw Hws].
  rewrite <- !app_assoc, bcompare_component, IH by done.
  destruct (Order f =? 1); rewrite bcompare_scalar_key by done;
    by destruct (scalar_order _ _).
Qed.

Lemma encodeScalars_spec fields vs out :
  Forall machine_ok vs -> length vs = length fields ->
  encodeScalars vs fields = Ok out ->
  Forall indexable vs /\ out = scalar_key <$> vs.
Proof.
  revert vs out; induction fields as [|f fields IH]; intros [|v vs] out Hm Hl He;
    simplify_eq/=; [done|].
  destruct (negb (Order f =? 1) && negb (Order f =? -1)); [done|]. inv_ok. subst out.
  apply Forall_cons in Hm as [Hv Hvs].
  destruct (IH vs a0 Hvs ltac:(lia) Hok0) as [Hi ->].
  assert (Hiv : indexable v).
  { split; [done|]. destruct v as [| | |f'| | | | | |]; try done.
    unfold encodeIndexKey, appendIndexKey, appendNumericIndexKey, numericParts in Hok.
    unfold is_finite. by destruct (is_nan f' || is_inf f'). }
  unfold encodeIndexKey in Hok. rewrite appendIndexKey_spec in Hok by done.
  injection Hok as <-. split; [by constructor|done].
Qed.

(** What a successful encoding is. *)
Lemma encodeCompoundIndexKey_spec fields vs k :
  Forall machine_ok vs -> encodeCompoundIndexKey vs fields = Ok k ->
  Forall indexable vs /\ length vs = length fields /\ vs <> [] /\
  k = tuple_key fields vs /\ zlen k <= maxCanonicalSecondaryKeyLen.
Proof.
  intros Hm. unfold encodeCompoundIndexKey.
  destruct (Z.eqb_spec (zlen vs) 0) as [|H0]; [done|].
  destruct (Z.eqb_spec (zlen vs) (zlen fields)) as [Hl|]; [|done]. cbn [negb orb].
  destruct (maxCompoundIndexFields <? zlen fields); [done|]. intros He. inv_ok.
  assert (Hl' : length vs = length fields) by (unfold zlen in Hl; lia).
  destruct (encodeScalars_spec _ _ _ Hm Hl' Hok) as [Hi ->].
  destruct (Z.ltb_spec maxCanonicalSecondaryKeyLen
    (foldr (fun s n => componentCapacity s + n) 0 (scalar_key <$> vs))) as [|Hcap]; [done|].
  injection He as <-. rewrite appendComponents_spec. simpl. fold (tuple_key fields vs).
  split; [done|]. split; [done|]. split; [intros ->; by apply H0|]. split; [done|].
  unfold tuple_key. rewrite zlen_components; [done|by rewrite length_fmap].
Qed.

Lemma tuple_key_app fields vs rest :
  tuple_key fields (vs ++ rest) =
  tuple_key (take (length vs) fields) vs ++ tuple_key (drop (length vs) fields) rest.
Proof.
  unfold tuple_key. revert fields; induction vs as [|v vs IH]; intros [|f fields]; try done.
  cbn. by rewrite IH, app_assoc.
Qed.

(** Every component sorts above the partial marker and the range floor. *)
Lemma component_above_floor f v rest x :
  indexable v -> bcompare (compoundComponentFloor :: x) (component f (scalar_key v) ++ rest) = Lt.
Proof.
  intros (Hm & Hs & _). unfold component.
  destruct (Order f =? 1); destruct v as [|[]| | | | | | | |]; done.
Qed.

Lemma tuple_key_above_floor fields v rest x :
  length fields = S (length rest) -> indexable v ->
  bcompare (compoundComponentFloor :: x) (tuple_key fields (v :: rest)) = Lt.
Proof. destruct fields as [|f fields]; [done|]. intros _ Hv. by apply component_above_floor. Qed.

(** ** Properties *)

(** Compound keys of two tuples under one index definition compare as the
    tuples do, field by field with descending fields reversed, and no key exceeds the
    storage key limit. *)
Lemma encodeCompoundIndexKey_order fields vs ws kv kw :
  Forall machine_ok vs -> Forall machine_ok ws ->
  encodeCompoundIndexKey vs fields = Ok kv -> encodeCompoundIndexKey ws fields = Ok kw ->
  bcompare kv kw = tuple_order fields vs ws /\ zlen kv <= maxCanonicalSecondaryKeyLen.
Proof.
  intros Hv Hw Hkv Hkw.
  destruct (encodeCompoundIndexKey_spec _ _ _ Hv Hkv) as (Iv & Lv & _ & -> & Hb).
  destruct (encodeCompoundIndexKey_spec _ _ _ Hw Hkw) as (Iw & Lw & _ & -> & _).
  split; [|done]. rewrite <- (app_nil_r (tuple_key _ vs)), <- (app_nil_r (tuple_key _ ws)).
  rewrite bcompare_tuple_key by done. by destruct (tuple_order fields vs ws).
Qed.

(** An encoded equality prefix is a byte prefix of every key whose tuple
    extends it, what follows is above the range floor, and the key of a partial tuple
    (the document lacks the remaining fields) sorts below every complete tuple with
    the same leading values. *)
Lemma compound_prefix_and_partial fields vs rest id kp kv kq :
  Forall machine_ok (vs ++ rest) -> rest <> [] ->
  encodeCompoundIndexPrefix vs fields = Ok kp ->
  encodeCompoundIndexKey (vs ++ rest) fields = Ok kv ->
  encodeCompoundPartialIndexKey vs (take (length vs) fields) id = Ok kq ->
  (exists tail, kv = kp ++ tail /\ blt [compoundComponentFloor] tail) /\
  kq = kp ++ compoundPartialMarker :: id /\ blt kq kv.
Proof.
  intros Hm Hne Hp Hv Hq. unfold encodeCompoundIndexPrefix in Hp.
  destruct ((zlen vs =? 0) || (zlen fields <? zlen vs)); [done|].
  pose proof Hm as [Hm1 Hm2]%Forall_app.
  destruct (encodeCompoundIndexKey_spec _ _ _ Hm Hv) as (Iv & Lv & _ & -> & _).
  destruct (encodeCompoundIndexKey_spec _ _ _ Hm1 Hp) as (_ & _ & _ & -> & _).
  unfold encodeCompoundPartialIndexKey in Hq.
  destruct (_ || all_zero id); [done|]. rewrite Hp in Hq. cbn [rbind] in Hq.
  destruct (_ <? _); [done|]. injection Hq as <-.
  rewrite tuple_key_app. apply Forall_app in Iv as [_ Ir].
  destruct rest as [|r rest]; [done|]. apply Forall_cons in Ir as [Ir _].
  rewrite length_app in Lv. simpl in Lv.
  assert (Hd : length (drop (length vs) fields) = S (length rest)) by (rewrite length_drop; lia).
  split; [|split; [done|]].
  - eexists. split; [done|]. by apply tuple_key_above_floor.
  - unfold blt. rewrite bcompare_app_same.
    apply (blt_trans _ [compoundComponentFloor]); [done|]. by apply tuple_key_above_floor.
Qed.

(** C31: compound keys compare as the tuples do, field by field with descending
    fields reversed, within the storage limit. A prefix key is a byte prefix of the
    keys of the tuples that extend it, what follows is above the range floor, and a
    partial tuple sorts below every complete one with the same leading values. *)
Theorem compound_keys_ordered fields :
  (forall vs ws kv kw, Forall machine_ok vs -> Forall machine_ok ws ->
     encodeCompoundIndexKey vs fields = Ok kv -> encodeCompoundIndexKey ws fields = Ok kw ->
     bcompare kv kw = tuple_order fields vs ws /\ zlen kv <= maxCanonicalSecondaryKeyLen) /\
  (forall vs rest id kp kv kq, Forall machine_ok (vs ++ rest) -> rest <> [] ->
     encodeCompoundIndexPrefix vs fields = Ok kp -> encodeCompoundIndexKey (vs ++ rest) fields = Ok kv ->
     encodeCompoundPartialIndexKey vs (take (length vs) fields) id = Ok kq ->
     (exists tail, kv = kp ++ tail /\ blt [compoundComponentFloor] tail) /\
     kq = kp ++ compoundPartialMarker :: id /\ blt kq kv).
Proof. split; [apply encodeCompoundIndexKey_order|apply compound_prefix_and_partial]. Qed.

Lemma compound_keys_ordered_witness :
  let fields := [{| Path := bs "team"; Order := 1 |}; {| Path := bs "score"; Order := -1 |}] in
  let vs := [VString (bs "a")] in
  let id := be_enc 16 5 in
  exists kv kw kp kq,
    encodeCompoundIndexKey [VString (bs "a"); VInt 7] fields = Ok kv /\
    encodeCompoundIndexKey [VString (bs "a"); VInt 3] fields = Ok kw /\
    encodeCompoundIndexPrefix vs fields = Ok kp /\
    encodeCompoundPartialIndexKey vs (take (length vs) fields) id = Ok kq /\
    bcompare kv kw = Lt /\ (exists tail, kw = kp ++ tail) /\ blt kq kw.
Proof.
  intros fields vs id.
  assert (M : forall s i, i64 i -> Forall machine_ok [VString s; VInt i])
    by (intros s i Hi; repeat constructor; apply Hi).
  assert (H7 : i64 7) by (split; vm_compute; [intros [=]|reflexivity]).
  assert (H3 : i64 3) by (split; vm_compute; [intros [=]|reflexivity]).
  destruct (compound_keys_ordered fields) as [P1 P2].
  eexists. eexists. eexists. eexists. split; [vm_compute; reflexivity|]. split; [vm_compute; reflexivity|].
  split; [vm_compute; reflexivity|]. split; [vm_compute; reflexivity|]. split.
  - eapply (P1 [VString (bs "a"); VInt 7] [VString (bs "a"); VInt 3] _ _ (M _ _ H7) (M _ _ H3)); vm_compute; reflexivity.
  - destruct (P2 vs [VInt 3] id _ _ _ (M (bs "a") 3 H3) ltac:(discriminate) ltac:(vm_compute; reflexivity) ltac:(vm_compute; reflexivity)
      ltac:(vm_compute; reflexivity)) as ((tail & Ht & _) & _ & Hlt).
    split; [exists tail; exact Ht|exact Hlt].
Defined.
