(* ===== verification/Documents.v ===== *)
(** * Documents: field names, validation and paths

    [internal/database/document.go] and the path functions of [query.go]. *)
From S2P Require Import Prelude Bytes Strings Entries Float64 Values.

(** ** Field names and validation *)

Definition dot : byte := x2e.
Definition dollar : byte := x24.

(** [validField], true for a nil error. *)
Definition validField (k : bytes) : bool :=
  negb (beqb k [] || negb (utf8_valid k) || contains_byte k x00 || contains_byte k dot
        || has_prefix_byte k dollar || beqb k (bs "__proto__") || beqb k (bs "prototype")
        || beqb k (bs "constructor")).

Section ValidateParts.
Variable nested : value -> Z -> bool.

Definition validateDocument_with (d : document) (depth : Z) : bool :=
  if 64 <? depth then false
  else forallb (fun kv => validField kv.1 && nested kv.2 depth) d.

Definition validateArray_with (values : list value) (depth : Z) : bool :=
  if 64 <? depth then false else forallb (fun v => nested v depth) values.
End ValidateParts.

(** The checks both loops make on one value; every failure is
    [ErrInvalidDocument]. *)
Fixpoint validateNested (v : value) (depth : Z) : bool :=
  match v with
  | VFloat f => negb (is_nan f || is_inf f)
  | VString s => utf8_valid s
  | VObject _ d => validateDocument_with validateNested d (depth + 1)
  | VArray a => validateArray_with validateNested a (depth + 1)
  | _ => true
  end.

Definition validateDocument : document -> Z -> bool := validateDocument_with validateNested.
Definition validateArray : list value -> Z -> bool := validateArray_with validateNested.

(** [Document.Validate]. *)
Definition Validate (d : document) : bool := validateDocument d 0.

(** [Document.ID]. *)
Definition Document_ID (d : document) : option bytes :=
  match field d (bs "_id") with Some (VID id) => Some id | _ => None end.

(** ** Paths *)

(** [strings.Split(path, ".")]. *)
Fixpoint split_dot (path : bytes) : list bytes :=
  match path with
  | [] => [[]]
  | b :: path =>
      let parts := split_dot path in
      if b2z b =? b2z dot then [] :: parts
      else match parts with p :: parts => (b :: p) :: parts | [] => [[b]] end
  end.

(** The loop of [lookup] and [lookupInternal] over the path parts. *)
Fixpoint lookup_parts (current : document) (parts : list bytes) : option value :=
  match parts with
  | [] => None
  | part :: rest =>
      match field current part with
      | None => None
      | Some v =>
          match rest with
          | [] => Some v
          | _ => match v with VObject _ d => lookup_parts d rest | _ => None end
          end
      end
  end.

Definition lookupInternal (d : document) (path : bytes) : option value :=
  lookup_parts d (split_dot path).

Definition validatePath (path : bytes) : bool :=
  negb ((zlen path =? 0) || (512 <? zlen path)) && forallb validField (split_dot path).

(** ** Facts *)

Lemma validField_nonempty k : validField k = true -> 1 <= zlen k.
Proof. destruct k; [done|]. rewrite zlen_cons. pose proof (zlen_nonneg k). lia. Qed.

(** Validity of a value does not depend on the order of its fields. *)
Lemma forallb_Permutation {A} (f : A -> bool) l1 l2 :
  Permutation l1 l2 -> forallb f l1 = forallb f l2.
Proof.
  induction 1; simpl; try congruence. by rewrite !andb_assoc, (andb_comm (f _)).
Qed.

Lemma validateDocument_Permutation nested d1 d2 depth :
  Permutation d1 d2 ->
  validateDocument_with nested d1 depth = validateDocument_with nested d2 depth.
Proof. intros H. unfold validateDocument_with. by rewrite (forallb_Permutation _ _ _ H). Qed.
