(* ===== verification/IndexTree.v ===== *)
(** * The in-memory index tree

    [internal/index/btree.go]: a B+ tree from keys to sorted sets of values, the
    leaves linked for scans. Go mutates nodes in place; here an operation returns
    the changed node. Only leaves are shared, through [next], so a leaf has an
    address and a link is the address of a leaf of the tree; a tree remembers the
    next address to allocate. A result [None] is an index out of range in Go. *)
From S2P Require Import Prelude Bytes Entries CowTree TreeShape.
From Stdlib Require Import Sorted.

(** ** Data *)

Record leaf := mk_leaf { l_address : Z; l_keys : list bytes; l_values : list (list bytes); l_next : option Z }.

Unset Elimination Schemes.
Inductive node :=
| Leaf (l : leaf)
| Branch (keys : list bytes) (children : list node).
Set Elimination Schemes.

Record Tree := mk_tree { t_root : node; t_maxKeys : Z; t_size : Z; t_free : Z }.

Definition defaultMaxKeys : Z := 32.

Definition empty_leaf (address : Z) : node := Leaf (mk_leaf address [] [] None).

Definition New : Tree := mk_tree (empty_leaf 0) defaultMaxKeys 0 1.
Definition NewWithOrder (maxKeys : Z) : Tree :=
  mk_tree (empty_leaf 0) (if maxKeys <? 3 then 3 else maxKeys) 0 1.

Definition Len (t : Tree) : Z := t_size t.

(** ** Separators *)

Fixpoint minKey (current : node) : option bytes :=
  match current with
  | Leaf l => head (l_keys l)
  | Branch _ children => match children with child :: _ => minKey child | [] => None end
  end.

Fixpoint minKeys (children : list node) : option (list bytes) :=
  match children with
  | [] => Some []
  | child :: children => let? k := minKey child in let? ks := minKeys children in Some (k :: ks)
  end.

Definition recompute (current : node) : option node :=
  match current with
  | Leaf _ => Some current
  | Branch _ children => let? keys := minKeys (tail children) in Some (Branch keys children)
  end.

(** ** Insertion *)

(** [f] on the child at a position. *)
Definition pick {A B} (f : A -> option B) : list A -> nat -> option B :=
  fix pick l i := match l, i with
  | [], _ => None
  | a :: _, O => f a
  | _ :: l, S i => pick l i
  end.

(** Whether a pair was added, the changed node, the separator and right half of
    a split, and the next free address. *)
Abbreviation inserted := (bool * node * option (bytes * node) * Z)%type.

Definition insertLeaf (maxKeys : Z) (l : leaf) (key value : bytes) (free : Z) : option inserted :=
  let position := key_position (l_keys l) key in
  if key_at (l_keys l) position key then
    let? values := l_values l !! position in
    let valuePosition := key_position values value in
    if key_at values valuePosition value then Some (false, Leaf l, None, free)
    else
      let values := insert_at values valuePosition value in
      Some (true, Leaf (mk_leaf (l_address l) (l_keys l) (<[position:=values]> (l_values l)) (l_next l)), None, free)
  else
    let keys := insert_at (l_keys l) position key in
    let values := insert_at (l_values l) position [value] in
    if zlen keys <=? maxKeys then Some (true, Leaf (mk_leaf (l_address l) keys values (l_next l)), None, free)
    else
      let middle := (length keys / 2)%nat in
      let right := mk_leaf free (drop middle keys) (drop middle values) (l_next l) in
      let? separator := head (l_keys right) in
      Some (true, Leaf (mk_leaf (l_address l) (take middle keys) (take middle values) (Some free)),
            Some (separator, Leaf right), free + 1).

(** The children after the one at [childIndex] became [child] and [childSplit]. *)
Definition grownChildren (children : list node) (childIndex : nat) (child : node)
    (childSplit : option (bytes * node)) : list node :=
  let children := <[childIndex:=child]> children in
  match childSplit with
  | Some (_, rightNode) => insert_at children (S childIndex) rightNode
  | None => children
  end.

(** A branch with its new children, split when it has too many. *)
Definition growBranch (maxKeys : Z) (children : list node) (free : Z) : option inserted :=
  let? seps := minKeys (tail children) in
  if zlen seps <=? maxKeys then Some (true, Branch seps children, None, free)
  else
    let middle := (length children / 2)%nat in
    let? leftNode := recompute (Branch seps (take middle children)) in
    let? rightNode := recompute (Branch [] (drop middle children)) in
    let? separator := minKey rightNode in
    Some (true, leftNode, Some (separator, rightNode), free).

Fixpoint insert (maxKeys : Z) (current : node) (key value : bytes) (free : Z) : option inserted :=
  match current with
  | Leaf l => insertLeaf maxKeys l key value free
  | Branch keys children =>
      let childIndex := scan_position keys key in
      let? (added, child, childSplit, free) :=
        pick (fun child => insert maxKeys child key value free) children childIndex in
      if added then growBranch maxKeys (grownChildren children childIndex child childSplit) free
      else Some (false, Branch keys children, None, free)
  end.

Definition Insert (t : Tree) (key value : bytes) : option (Tree * bool) :=
  if zlen key =? 0 then Some (t, false)
  else
    let? (added, root, result, free) := insert (t_maxKeys t) (t_root t) key value (t_free t) in
    if negb added then Some (t, false)
    else
      let? root := match result with
                   | Some (_, rightNode) => recompute (Branch [] [root; rightNode])
                   | None => Some root
                   end in
      Some (mk_tree root (t_maxKeys t) (t_size t + 1) free, true).

(** ** Lookup *)

Fixpoint findLeaf (current : node) (key : bytes) : option leaf :=
  match current with
  | Leaf l => Some l
  | Branch keys children => pick (fun child => findLeaf child key) children (scan_position keys key)
  end.

Definition Get (t : Tree) (key : bytes) : option (list bytes) :=
  let? l := findLeaf (t_root t) key in
  let position := key_position (l_keys l) key in
  if key_at (l_keys l) position key then l_values l !! position else Some [].

(** ** Deletion *)

Definition fill (current : node) : Z :=
  match current with Leaf l => zlen (l_keys l) | Branch _ children => zlen children end.

Definition min_fill (maxKeys : Z) (current : node) : Z :=
  match current with Leaf _ => (maxKeys + 1) / 2 | Branch _ _ => (maxKeys + 2) / 2 end.

Definition underfilled (maxKeys : Z) (current : node) : bool := fill current <? min_fill maxKeys current.
Definition canLend (maxKeys : Z) (current : node) : bool := min_fill maxKeys current <? fill current.

Definition leaf_is (current : node) : bool := match current with Leaf _ => true | Branch _ _ => false end.

Definition node_children (current : node) : list node :=
  match current with Leaf _ => [] | Branch _ children => children end.

(** The fields of a node read as a leaf; a branch has no values. *)
Definition node_leaf (current : node) : leaf :=
  match current with Leaf l => l | Branch keys _ => mk_leaf 0 keys [] None end.

Definition with_entries (l : leaf) (keys : list bytes) (values : list (list bytes)) : node :=
  Leaf (mk_leaf (l_address l) keys values (l_next l)).

(** Both siblings after the loan. *)
Definition borrowFromLeft (left current : node) : option (node * node) :=
  if leaf_is current then
    let l := node_leaf left in
    let c := node_leaf current in
    let? k := last (l_keys l) in
    let? v := last (l_values l) in
    Some (with_entries l (removelast (l_keys l)) (removelast (l_values l)),
          with_entries c (k :: l_keys c) (v :: l_values c))
  else
    let? child := last (node_children left) in
    let? leftNode := recompute (Branch [] (removelast (node_children left))) in
    let? current := recompute (Branch [] (child :: node_children current)) in
    Some (leftNode, current).

Definition borrowFromRight (current right : node) : option (node * node) :=
  if leaf_is current then
    let c := node_leaf current in
    let r := node_leaf right in
    let? k := head (l_keys r) in
    let? v := head (l_values r) in
    Some (with_entries c (l_keys c ++ [k]) (l_values c ++ [v]),
          with_entries r (tail (l_keys r)) (tail (l_values r)))
  else
    let? child := head (node_children right) in
    let? current := recompute (Branch [] (node_children current ++ [child])) in
    let? rightNode := recompute (Branch [] (tail (node_children right))) in
    Some (current, rightNode).

Definition mergeNodes (left right : node) : option node :=
  if leaf_is left then
    let l := node_leaf left in
    let r := node_leaf right in
    Some (Leaf (mk_leaf (l_address l) (l_keys l ++ l_keys r) (l_values l ++ l_values r) (l_next r)))
  else recompute (Branch [] (node_children left ++ node_children right)).

(** The children of a parent after the child at [childIndex] lost an entry. *)
Definition rebalanceChild (maxKeys : Z) (children : list node) (childIndex : nat) : option (list node) :=
  match children !! childIndex with
  | None => Some children
  | Some child =>
      if negb (underfilled maxKeys child) || (length children =? 1)%nat then Some children
      else
        let left := match childIndex with O => None | S before => children !! before end in
        let right := children !! S childIndex in
        match left, right with
        | Some l, _ =>
            if canLend maxKeys l then
              let? (l, child) := borrowFromLeft l child in
              Some (<[childIndex:=child]> (<[pred childIndex:=l]> children))
            else
              match right with
              | Some r =>
                  if canLend maxKeys r then
                    let? (child, r) := borrowFromRight child r in
                    Some (<[S childIndex:=r]> (<[childIndex:=child]> children))
                  else
                    let? merged := mergeNodes l child in
                    Some (remove_at (<[pred childIndex:=merged]> children) childIndex)
              | None =>
                  let? merged := mergeNodes l child in
                  Some (remove_at (<[pred childIndex:=merged]> children) childIndex)
              end
        | None, Some r =>
            if canLend maxKeys r then
              let? (child, r) := borrowFromRight child r in
              Some (<[S childIndex:=r]> (<[childIndex:=child]> children))
            else
              let? merged := mergeNodes child r in
              Some (remove_at (<[childIndex:=merged]> children) 1)
        | None, None => None
        end
  end.

Definition deleteLeaf (l : leaf) (key value : bytes) : option (bool * node) :=
  let position := key_position (l_keys l) key in
  if negb (key_at (l_keys l) position key) then Some (false, Leaf l)
  else
    let? values := l_values l !! position in
    let valuePosition := key_position values value in
    if negb (key_at values valuePosition value) then Some (false, Leaf l)
    else
      let values := remove_at values valuePosition in
      if 0 <? zlen values then Some (true, with_entries l (l_keys l) (<[position:=values]> (l_values l)))
      else Some (true, with_entries l (remove_at (l_keys l) position) (remove_at (l_values l) position)).

(** [Tree.delete]. *)
Fixpoint remove (maxKeys : Z) (current : node) (key value : bytes) : option (bool * node) :=
  match current with
  | Leaf l => deleteLeaf l key value
  | Branch keys children =>
      let childIndex := scan_position keys key in
      let? (deleted, child) := pick (fun child => remove maxKeys child key value) children childIndex in
      if negb deleted then Some (false, Branch keys children)
      else
        let? children := rebalanceChild maxKeys (<[childIndex:=child]> children) childIndex in
        let? current := recompute (Branch keys children) in
        Some (true, current)
  end.

(** [for !root.leaf && len(root.children) == 1]. *)
Fixpoint collapse (current : node) : node :=
  match current with
  | Branch _ [child] => collapse child
  | _ => current
  end.

Definition Delete (t : Tree) (key value : bytes) : option (Tree * bool) :=
  if zlen key =? 0 then Some (t, false)
  else
    let? (deleted, root) := remove (t_maxKeys t) (t_root t) key value in
    if negb deleted then Some (t, false)
    else
      let size := t_size t - 1 in
      if size =? 0 then Some (mk_tree (empty_leaf (t_free t)) (t_maxKeys t) size (t_free t + 1), true)
      else Some (mk_tree (collapse root) (t_maxKeys t) size (t_free t), true).

(** ** Scans *)

Record Pair := mk_pair { Pair_Key : bytes; Pair_Value : bytes }.

(** The loop over one leaf: the pairs it appends, and whether [Scan] returns. *)
Fixpoint scanLeaf (start fin : bytes) (includeEnd : bool) (entries : list (bytes * list bytes)) : list Pair * bool :=
  match entries with
  | [] => ([], false)
  | (key, values) :: entries =>
      if (0 <? zlen start) && bltb key start then scanLeaf start fin includeEnd entries
      else if (0 <? zlen fin) && (bltb fin key || (beqb key fin && negb includeEnd)) then ([], true)
      else
        let '(rest, stop) := scanLeaf start fin includeEnd entries in
        ((mk_pair key <$> values) ++ rest, stop)
  end.

Fixpoint leaves (current : node) : list leaf :=
  match current with
  | Leaf l => [l]
  | Branch _ children => flat_map leaves children
  end.

(** The leaf at an address. *)
Definition leaf_at (current : node) (address : Z) : option leaf :=
  List.find (fun l => l_address l =? address) (leaves current).

Definition leaf_entries (l : leaf) : list (bytes * list bytes) := zip (l_keys l) (l_values l).

Fixpoint scanLeaves (fuel : nat) (root : node) (l : option leaf) (start fin : bytes) (includeEnd : bool)
    : option (list Pair) :=
  match fuel, l with
  | O, _ => None
  | S _, None => Some []
  | S fuel, Some l =>
      let '(found, stop) := scanLeaf start fin includeEnd (leaf_entries l) in
      if stop then Some found
      else
        match l_next l with
        | None => Some found
        | Some address =>
            let? l := leaf_at root address in
            let? rest := scanLeaves fuel root (Some l) start fin includeEnd in
            Some (found ++ rest)
        end
  end.

(** At most one step per leaf and one to see the end. *)
Definition Scan (t : Tree) (start fin : bytes) (includeEnd : bool) : option (list Pair) :=
  let? l := findLeaf (t_root t) start in
  scanLeaves (S (length (leaves (t_root t)))) (t_root t) (Some l) start fin includeEnd.
