(* ===== verification/IndexTreeShape.v ===== *)
(** * The invariant of the in-memory index tree

    Balance, occupancy and separators of [IndexTree], the entries its leaves
    hold, and what an operation does to the list of leaves. *)
From S2P Require Import Prelude Bytes Entries CowTree TreeShape IndexTree.
From Stdlib Require Import Sorted.

(** ** Sorted sets of values *)

Abbreviation entry := (bytes * list bytes)%type.

Definition mark (vs : list bytes) : list (bytes * unit) := (fun v => (v, tt)) <$> vs.
Definition value_add (v : bytes) (vs : list bytes) : list bytes := (ins v tt (mark vs)).*1.
Definition value_remove (v : bytes) (vs : list bytes) : list bytes := (del v (mark vs)).*1.

Lemma mark_fst vs : (mark vs).*1 = vs.
Proof. unfold mark. rewrite <- list_fmap_compose. apply list_fmap_id. Qed.

Lemma fst_mark (l : list (bytes * unit)) : mark l.*1 = l.
Proof. induction l as [|[k []] l IH]; [done|]. cbn. by f_equal. Qed.

Lemma mark_sorted vs : sorted_keys (mark vs) <-> sorted_list vs.
Proof. unfold sorted_keys. by rewrite mark_fst. Qed.

Lemma field_mark vs v : field (mark vs) v = if bool_decide (v ∈ vs) then Some tt else None.
Proof.
  case_bool_decide as H.
  - destruct (field (mark vs) v) as [[]|] eqn:E; [done|]. apply field_None in E. by rewrite mark_fst in E.
  - apply field_None. by rewrite mark_fst.
Qed.

Lemma elem_of_value_add v vs x : x ∈ value_add v vs <-> x = v \/ x ∈ vs.
Proof. unfold value_add. by rewrite elem_of_ins, mark_fst. Qed.

Lemma elem_of_value_remove v vs x : sorted_list vs -> x ∈ value_remove v vs <-> x <> v /\ x ∈ vs.
Proof.
  intros Hs. apply mark_sorted in Hs. unfold value_remove. rewrite <- (mark_fst vs) at 2.
  assert (Hin : forall l : list (bytes * unit), x ∈ l.*1 <-> field l x <> None).
  { intros l. rewrite field_None. split; [tauto|]. intros H. destruct (decide (x ∈ l.*1)); tauto. }
  rewrite !Hin, field_del by done. destruct (beqb x v) eqn:E.
  - apply beqb_eq in E. tauto.
  - apply beqb_neq in E. tauto.
Qed.

Lemma value_add_sorted v vs : sorted_list vs -> sorted_list (value_add v vs).
Proof. intros Hs%mark_sorted. unfold value_add. by apply (sorted_ins v tt). Qed.

Lemma value_remove_sorted v vs : sorted_list vs -> sorted_list (value_remove v vs).
Proof. intros Hs%mark_sorted. unfold value_remove. by apply (sorted_del v). Qed.

Definition value_set (vs : list bytes) : Prop := vs <> [] /\ sorted_list vs.

(** The positions Go computes, on a sorted set of values. *)
Lemma value_position vs v : sorted_list vs ->
  if key_at vs (key_position vs v) v
  then (v ∈ vs) /\ remove_at vs (key_position vs v) = value_remove v vs
  else (v ∉ vs) /\ insert_at vs (key_position vs v) v = value_add v vs.
Proof.
  intros Hs%mark_sorted. destruct (leaf_split (mark vs) v Hs) as (l1 & l2 & Hl & Hp & H1 & H2).
  rewrite mark_fst in Hp, H2. rewrite Hp.
  assert (Hvs : vs = l1.*1 ++ l2.*1) by (by rewrite <- (mark_fst vs), Hl, fmap_app).
  assert (H1' : v ∉ l1.*1) by (intros Hin; rewrite Forall_forall in H1; by apply H1 in Hin as ?%blt_irrefl).
  destruct H2 as [(u & l2' & -> & H2 & ->)|[H2 ->]].
  - split; [rewrite Hvs; cbn; apply elem_of_app; right; left|].
    unfold value_remove. rewrite Hl, del_app_r by done. cbn. rewrite beqb_refl, Hvs, fmap_app. cbn.
    by rewrite <- (length_fmap fst l1), remove_at_app.
  - split.
    + rewrite Hvs. rewrite elem_of_app. intros [?|Hin]; [done|].
      rewrite Forall_forall in H2. by apply H2 in Hin as ?%blt_irrefl.
    + unfold value_add. rewrite Hl, ins_app_r, fmap_app by done. rewrite Hvs, <- (length_fmap fst l1), insert_at_app.
      f_equal. change l2 with ([] ++ l2) at 2. rewrite ins_app_l by done. done.
Qed.

(** ** Multimaps as sorted lists of entries *)

Definition values_of (l : list entry) (key : bytes) : list bytes :=
  match field l key with Some vs => vs | None => [] end.
Definition multi_has (key value : bytes) (l : list entry) : bool := bool_decide (value ∈ values_of l key).
Definition multi_add (key value : bytes) (l : list entry) : list entry :=
  ins key (value_add value (values_of l key)) l.
Definition multi_remove (key value : bytes) (l : list entry) : list entry :=
  match value_remove value (values_of l key) with
  | [] => del key l
  | vs => ins key vs l
  end.

Definition between (l1 : list entry) (key : bytes) (l2 : list entry) : Prop :=
  Forall (fun x => blt x key) l1.*1 /\ Forall (blt key) l2.*1.

Section Between.
Context {l1 : list entry} {key : bytes} {l2 : list entry} (Hb : between l1 key l2) (l : list entry).

Lemma field_between : field (l1 ++ l ++ l2) key = field l key.
Proof. destruct Hb. by rewrite field_app_r, field_app_l. Qed.

Lemma ins_between v : ins key v (l1 ++ l ++ l2) = l1 ++ ins key v l ++ l2.
Proof. destruct Hb. by rewrite ins_app_r, ins_app_l. Qed.

Lemma del_between : del key (l1 ++ l ++ l2) = l1 ++ del key l ++ l2.
Proof. destruct Hb. by rewrite del_app_r, del_app_l. Qed.

Lemma values_between : values_of (l1 ++ l ++ l2) key = values_of l key.
Proof. unfold values_of. by rewrite field_between. Qed.

Lemma multi_has_between value : multi_has key value (l1 ++ l ++ l2) = multi_has key value l.
Proof. unfold multi_has. by rewrite values_between. Qed.

Lemma multi_add_between value : multi_add key value (l1 ++ l ++ l2) = l1 ++ multi_add key value l ++ l2.
Proof. unfold multi_add. by rewrite values_between, ins_between. Qed.

Lemma multi_remove_between value : multi_remove key value (l1 ++ l ++ l2) = l1 ++ multi_remove key value l ++ l2.
Proof.
  unfold multi_remove. rewrite values_between. destruct (value_remove value _); [apply del_between|apply ins_between].
Qed.
End Between.

(** ** Leaves *)

Definition leaf_ok (l : leaf) : Prop := length (l_values l) = length (l_keys l) /\ Forall value_set (l_values l).

Definition entries (ls : list leaf) : list entry := flat_map leaf_entries ls.

Lemma entries_app l1 l2 : entries (l1 ++ l2) = entries l1 ++ entries l2.
Proof. apply flat_map_app. Qed.

Lemma entries_cons l ls : entries (l :: ls) = leaf_entries l ++ entries ls.
Proof. done. Qed.

Lemma leaf_entries_of a (es : list entry) next : leaf_entries (mk_leaf a es.*1 es.*2 next) = es.
Proof. apply zip_fst_snd. Qed.

(** A leaf is its address, its entries and its link. *)
Lemma leaf_eta l : leaf_ok l ->
  l = mk_leaf (l_address l) (leaf_entries l).*1 (leaf_entries l).*2 (l_next l).
Proof.
  intros [Hl _]. unfold leaf_entries. rewrite fst_zip, snd_zip by lia. by destruct l.
Qed.

Lemma leaf_ok_of a (es : list entry) next :
  leaf_ok (mk_leaf a es.*1 es.*2 next) <-> Forall value_set es.*2.
Proof. unfold leaf_ok. cbn. rewrite !length_fmap. tauto. Qed.

Lemma leaf_ok_entries l : leaf_ok l -> Forall value_set (leaf_entries l).*2.
Proof. intros [H1 H2]. unfold leaf_entries. by rewrite snd_zip by lia. Qed.

Lemma leaf_keys l : leaf_ok l -> l_keys l = (leaf_entries l).*1.
Proof. intros [Hl _]. unfold leaf_entries. by rewrite fst_zip by lia. Qed.

(** Keys split off a list of entries keep their values. *)
Lemma entry_split (es : list entry) key :
  sorted_keys es -> exists e1 e2, es = e1 ++ e2 /\ key_position es.*1 key = length e1 /\
    Forall (fun x => blt x key) e1.*1 /\
    ((exists vs e2', e2 = (key, vs) :: e2' /\ Forall (blt key) e2'.*1 /\ key_at es.*1 (length e1) key = true /\
        field es key = Some vs) \/
     (Forall (blt key) e2.*1 /\ key_at es.*1 (length e1) key = false /\ field es key = None)).
Proof.
  intros Hs. destruct (leaf_split es key Hs) as (e1 & e2 & -> & Hp & H1 & H2).
  exists e1, e2. split; [done|]. split; [done|]. split; [done|].
  destruct H2 as [(vs & e2' & -> & H2 & Hk)|[H2 Hk]].
  - left. exists vs, e2'. split; [done|]. split; [done|]. split; [done|]. rewrite field_app_r by done. cbn.
    by rewrite beqb_refl.
  - right. split; [done|]. split; [done|]. rewrite field_app_r by done. by apply field_above.
Qed.

Lemma lookup_snd_app (e1 e2 : list entry) k vs : (e1 ++ (k, vs) :: e2).*2 !! length e1 = Some vs.
Proof. rewrite fmap_app, lookup_app_r; rewrite length_fmap; [by rewrite Nat.sub_diag|done]. Qed.

Lemma insert_snd_app (e1 e2 : list entry) k vs vs' :
  <[length e1:=vs']> (e1 ++ (k, vs) :: e2).*2 = (e1 ++ (k, vs') :: e2).*2.
Proof. rewrite !fmap_app. cbn. rewrite <- (length_fmap snd e1). by rewrite insert_middle. Qed.

Lemma keys_app (e1 e2 : list entry) k vs vs' : (e1 ++ (k, vs) :: e2).*1 = (e1 ++ (k, vs') :: e2).*1.
Proof. by rewrite !fmap_app. Qed.

Lemma value_set_app (e1 e2 : list entry) k vs : Forall value_set (e1 ++ (k, vs) :: e2).*2 <->
  Forall value_set e1.*2 /\ value_set vs /\ Forall value_set e2.*2.
Proof. rewrite fmap_app, Forall_app. cbn. by rewrite Forall_cons. Qed.

Lemma value_add_set v vs : (vs = [] \/ value_set vs) -> value_set (value_add v vs).
Proof.
  intros H. split.
  - intros E. apply (not_elem_of_nil (A := bytes) v). rewrite <- E, elem_of_value_add. by left.
  - apply value_add_sorted. destruct H as [->|[_ H]]; [constructor|done].
Qed.

(** The halves of a leaf that grew too large, or the grown leaf. *)
Definition grown (m : Z) (l : leaf) (free : Z) (es : list entry) (n : node) (s : option (bytes * node)) (free' : Z) : Prop :=
  match s with
  | None => n = Leaf (mk_leaf (l_address l) es.*1 es.*2 (l_next l)) /\ free' = free /\ zlen es <= m
  | Some (separator, r) =>
      free' = free + 1 /\ m < zlen es /\
      let middle := (length es / 2)%nat in
      n = Leaf (mk_leaf (l_address l) (take middle es).*1 (take middle es).*2 (Some free)) /\
      r = Leaf (mk_leaf free (drop middle es).*1 (drop middle es).*2 (l_next l)) /\
      head (drop middle es).*1 = Some separator
  end.

Lemma fmap_insert_at {A B} (f : A -> B) l i x : f <$> insert_at l i x = insert_at (f <$> l) i (f x).
Proof. unfold insert_at. by rewrite fmap_app, fmap_take, fmap_cons, fmap_drop. Qed.

Lemma fmap_remove_at {A B} (f : A -> B) l i : f <$> remove_at l i = remove_at (f <$> l) i.
Proof. unfold remove_at. by rewrite fmap_app, fmap_take, fmap_drop. Qed.

Lemma insertLeaf_spec m l key value free :
  3 <= m -> leaf_ok l -> sorted_keys (leaf_entries l) -> zlen (l_keys l) <= m ->
  if multi_has key value (leaf_entries l)
  then insertLeaf m l key value free = Some (false, Leaf l, None, free)
  else exists n s free', insertLeaf m l key value free = Some (true, n, s, free') /\
    grown m l free (multi_add key value (leaf_entries l)) n s free'.
Proof.
  intros Hm Hok Hs Hlen. pose proof (leaf_ok_entries l Hok) as Hvs. unfold insertLeaf.
  rewrite (leaf_keys l Hok) in *. assert (Hsnd : l_values l = (leaf_entries l).*2).
  { rewrite (leaf_eta l Hok) at 1. done. }
  rewrite Hsnd. set (es := leaf_entries l) in *. clearbody es.
  destruct (entry_split es key Hs) as (e1 & e2 & -> & -> & H1 & H2).
  unfold multi_has, multi_add, values_of.
  destruct H2 as [(vs & e2' & -> & H2 & -> & ->)|(H2 & -> & ->)].
  - rewrite lookup_snd_app. cbn [obind]. apply value_set_app in Hvs as (_ & [Hne Hsv] & _).
    pose proof (value_position vs value Hsv) as Hv. destruct (key_at vs _ value); destruct Hv as [Hin Hv].
    + by rewrite bool_decide_true by done.
    + rewrite bool_decide_false by done. rewrite insert_snd_app, Hv. eexists _, None, free. split; [done|].
      rewrite ins_app_r by done. cbn. rewrite bcompare_refl. split; [by rewrite (keys_app e1 e2' key vs (value_add value vs))|].
      split; [done|]. unfold zlen in *. rewrite length_fmap, !length_app in Hlen. rewrite !length_app. cbn in *. lia.
  - rewrite bool_decide_false by (apply not_elem_of_nil).
    assert (Hins : insert_at (e1 ++ e2).*1 (length e1) key = (ins key [value] (e1 ++ e2)).*1 /\
                   insert_at (e1 ++ e2).*2 (length e1) [value] = (ins key [value] (e1 ++ e2)).*2).
    { rewrite ins_app_r by done. change e2 with ([] ++ e2) at 2 4. rewrite ins_app_l by done. cbn.
      rewrite <- (insert_at_app e1 e2 (key, [value])). by rewrite !fmap_insert_at. }
    destruct Hins as [-> ->]. change (value_add value []) with [value].
    set (es := ins key [value] (e1 ++ e2)). unfold zlen. rewrite length_fmap. fold (zlen es).
    destruct (Z.leb_spec (zlen es) m) as [Hle|Hgt].
    + by exists (Leaf (mk_leaf (l_address l) es.*1 es.*2 (l_next l))), None, free.
    + cbn [l_keys]. rewrite <- !fmap_take, <- !fmap_drop.
      destruct (drop (length es / 2) es) as [|[k v] rest] eqn:Hd.
      { exfalso. apply (f_equal length) in Hd. rewrite length_drop in Hd. change (@length entry []) with 0%nat in Hd.
        assert (length es / 2 < length es)%nat by (apply Nat.div_lt; unfold zlen in Hgt; lia). lia. }
      cbn [fmap list_fmap head obind]. eexists _, (Some (k, _)), (free + 1). split; [reflexivity|].
      cbn [grown]. rewrite Hd. by split.
Qed.

(** ** Balance, occupancy and separators *)

Definition full (m : Z) (n : node) : Prop := min_fill m n <= fill n.

(** The node and everything below it, but for the node's own lower bound. *)
Fixpoint shaped (m : Z) (h : nat) (n : node) : Prop :=
  match h, n with
  | O, Leaf l => zlen (l_keys l) <= m
  | S h, Branch keys children =>
      zlen children <= m + 1 /\ minKeys (tail children) = Some keys /\
      Forall (fun child => shaped m h child /\ full m child) children
  | _, _ => False
  end.

(** A list of leaves in key order. *)
Definition leaves_ok (ls : list leaf) : Prop := Forall leaf_ok ls /\ sorted_keys (entries ls).

Lemma leaves_ok_app l1 l2 : leaves_ok (l1 ++ l2) -> leaves_ok l1 /\ leaves_ok l2.
Proof.
  intros [H1 H2]. apply Forall_app in H1 as [? ?]. rewrite entries_app in H2.
  apply sorted_keys_app in H2 as (? & ? & _). by repeat split.
Qed.

Lemma flat_leaves_app c1 c2 : flat_map leaves (c1 ++ c2) = flat_map leaves c1 ++ flat_map leaves c2.
Proof. apply flat_map_app. Qed.

Lemma minKeys_spec cs ks : minKeys cs = Some ks <-> Forall2 (fun c k => minKey c = Some k) cs ks.
Proof.
  revert ks; induction cs as [|c cs IH]; intros ks; cbn.
  - split; [intros [= <-]; constructor|]. by inversion 1.
  - split.
    + destruct (minKey c) as [k|] eqn:E; [|done]. cbn. destruct (minKeys cs) as [ks'|]; [|done]. intros [= <-].
      constructor; [done|]. by apply IH.
    + inversion 1 as [|? ? ? ? Hk Hks]; subst. apply IH in Hks. by rewrite Hk, Hks.
Qed.

(** The least key of a subtree that is not empty. *)
Lemma minKey_spec m h n : 3 <= m -> shaped m h n -> full m n -> Forall leaf_ok (leaves n) ->
  exists k, minKey n = Some k /\ head (entries (leaves n)).*1 = Some k.
Proof.
  intros Hm. revert n; induction h as [|h IH]; intros [l|keys cs] Hs Hf Hl; try done.
  - cbn in *. apply Forall_cons in Hl as [Hl _]. rewrite (leaf_keys l Hl). unfold full in Hf. cbn in Hf.
    rewrite (leaf_keys l Hl) in Hf. rewrite app_nil_r. destruct (leaf_entries l) as [|[k v] es]; [|by exists k].
    cbn in Hf. exfalso. pose proof (Z.div_le_lower_bound (m + 1) 2 1). rewrite zlen_nil in Hf. lia.
  - destruct Hs as (_ & _ & Hc). unfold full in Hf. cbn in Hf. destruct cs as [|c cs].
    { exfalso. pose proof (Z.div_le_lower_bound (m + 2) 2 1). rewrite zlen_nil in Hf. lia. }
    apply Forall_cons in Hc as [[Hc Hfc] _]. cbn in *. apply Forall_app in Hl as [Hl _].
    destruct (IH c Hc Hfc Hl) as (k & -> & Hk). exists k. split; [done|].
    rewrite entries_app, fmap_app. destruct (entries (leaves c)).*1; [done|exact Hk].
Qed.

Lemma Forall_head {A} (P : A -> Prop) l x : Forall P l -> head l = Some x -> P x.
Proof. destruct l; [done|]. intros [? _]%Forall_cons [= <-]. done. Qed.

Lemma head_elem {A} (l : list A) x : head l = Some x -> x ∈ l.
Proof. destruct l; [done|]. intros [= <-]. left. Qed.

Section Children.
Context (m : Z) (h : nat) (Hm : 3 <= m).

Abbreviation child_ok := (fun c => shaped m h c /\ full m c).

Lemma minKey_child c : child_ok c -> leaves_ok (leaves c) ->
  exists k, minKey c = Some k /\ head (entries (leaves c)).*1 = Some k.
Proof. intros [Hs Hf] [Hl _]. by eapply minKey_spec. Qed.

(** Separators are a sorted sample of the keys. *)
Lemma separators_sorted cs ks : Forall child_ok cs -> leaves_ok (flat_map leaves cs) ->
  Forall2 (fun c k => minKey c = Some k) cs ks ->
  sorted_list ks /\ Forall (fun k => k ∈ (entries (flat_map leaves cs)).*1) ks.
Proof.
  intros Hc Hl H2. revert Hc Hl. induction H2 as [|c k cs ks Hk H2 IH]; intros Hc Hl; [by repeat constructor|].
  cbn in Hl. apply Forall_cons in Hc as [Hc Hcs]. pose proof Hl as [_ Hs]. apply leaves_ok_app in Hl as [Hl Hls].
  destruct (IH Hcs Hls) as [IH1 IH2]. destruct (minKey_child c Hc Hl) as (k' & Hk' & Hh). rewrite Hk in Hk'.
  injection Hk' as <-. rewrite entries_app in Hs. apply sorted_keys_app in Hs as (_ & _ & Hs).
  pose proof (Forall_head _ _ _ Hs Hh) as Hlt. split.
  - constructor; [done|]. rewrite Forall_forall in IH2 |- *. rewrite Forall_forall in Hlt. auto.
  - cbn. rewrite entries_app, fmap_app. constructor; [apply elem_of_app; left; by apply head_elem|].
    eapply Forall_impl; [exact IH2|]. intros x Hx. apply elem_of_app. by right.
Qed.

(** Where [sort.Search] descends, the other children are out of the way. *)
Lemma child_located keys cs key :
  cs <> [] -> Forall child_ok cs -> leaves_ok (flat_map leaves cs) -> minKeys (tail cs) = Some keys ->
  exists c1 c c2, cs = c1 ++ c :: c2 /\ length c1 = scan_position keys key /\
    between (entries (flat_map leaves c1)) key (entries (flat_map leaves c2)).
Proof.
  intros Hne Hc Hl Hk%minKeys_spec. destruct cs as [|c0 cs]; [done|]. cbn [tail] in Hk.
  apply Forall_cons in Hc as [Hc0 Hcs]. cbn in Hl. pose proof (leaves_ok_app _ _ Hl) as [Hl0 Hls].
  destruct (separators_sorted cs keys Hcs Hls Hk) as [Hsorted _].
  destruct (scan_position_split keys key Hsorted) as (k1 & k2 & -> & -> & H1 & H2).
  apply Forall2_app_inv_r in Hk as (r1 & r2 & Hr1 & Hr2 & ->).
  assert (Hright : Forall (blt key) (entries (flat_map leaves r2)).*1).
  { apply Forall_app in Hcs as [_ Hcs]. rewrite flat_leaves_app in Hls. apply leaves_ok_app in Hls as [_ Hls].
    clear -Hm H2 Hr2 Hcs Hls. induction Hr2 as [|c k cs ks Hck _ IH]; [constructor|]. cbn in *.
    apply Forall_cons in Hcs as [Hc Hcs]. apply Forall_cons in H2 as [Hlt H2].
    pose proof (leaves_ok_app _ _ Hls) as [Hl Hl2]. rewrite entries_app, fmap_app, Forall_app.
    split; [|by apply IH]. destruct (minKey_child c Hc Hl) as (k' & Hk' & Hh).
    rewrite Hck in Hk'. injection Hk' as <-. destruct Hl as [_ Hs]. unfold sorted_keys in Hs.
    destruct (entries (leaves c)).*1 as [|x l]; [done|]. injection Hh as ->. inversion Hs as [|? ? _ Hf]; subst.
    constructor; [done|]. eapply Forall_impl; [exact Hf|]. intros y Hy. by eapply blt_trans. }
  destruct r1 as [|c r _] using rev_ind.
  - apply Forall2_length in Hr1. destruct k1; [|done]. by exists [], c0, r2.
  - apply Forall2_length in Hr1 as Hlen. rewrite length_app in Hlen. cbn in Hlen.
    exists (c0 :: r), c, r2. split; [by rewrite <- app_assoc|]. split; [cbn; lia|]. split; [|done].
    apply Forall2_app_inv_l in Hr1 as (ks & kl & _ & Hcl & ->).
    inversion Hcl as [|? k ? ? Hck Hnil]; subst. inversion Hnil; subst.
    apply Forall_app in H1 as [_ H1]. apply Forall_cons in H1 as [Hge _].
    apply Forall_app in Hcs as [Hcs _]. apply Forall_app in Hcs as [_ Hcs]. apply Forall_cons in Hcs as [Hc _].
    assert (Hl' : leaves_ok (flat_map leaves (c0 :: r) ++ leaves c)).
    { cbn. rewrite !flat_leaves_app in Hl. cbn in Hl. rewrite app_nil_r in Hl. rewrite app_assoc in Hl.
      apply leaves_ok_app in Hl as [Hl _]. by rewrite <- app_assoc. }
    pose proof Hl' as [_ Hs]. apply leaves_ok_app in Hl' as [_ Hlc].
    destruct (minKey_child c Hc Hlc) as (k' & Hk' & Hh). rewrite Hck in Hk'. injection Hk' as <-.
    rewrite entries_app in Hs. apply sorted_keys_app in Hs as (_ & _ & Hs).
    eapply Forall_impl; [exact Hs|]. intros x Hx. pose proof (Forall_head _ _ _ Hx Hh) as Hxk.
    cbn in Hxk. by eapply blt_le_trans.
Qed.
End Children.
