(* ===== verification/IndexTreeUpdates.v ===== *)
(** * Insertion into the in-memory index tree

    [Tree.insert] replaces one leaf by the grown leaf or its halves, and keeps
    the tree balanced and filled. *)
From stdpp Require Import relations.
From S2P Require Import Prelude Bytes Entries CowTree TreeShape IndexTree IndexTreeShape.
From Stdlib Require Import Sorted.

Definition split_leaves (s : option (bytes * node)) : list leaf :=
  match s with Some (_, rightNode) => leaves rightNode | None => [] end.

(** What a leaf becomes when its entries become [es]: itself with the new
    entries, or two linked leaves of which the second has the address [free]. *)
Inductive leaf_grows (l : leaf) (free : Z) (es : list entry) : list leaf -> Z -> Prop :=
| leaf_fits : leaf_grows l free es [mk_leaf (l_address l) es.*1 es.*2 (l_next l)] free
| leaf_halves e1 e2 : es = e1 ++ e2 ->
    leaf_grows l free es
      [mk_leaf (l_address l) e1.*1 e1.*2 (Some free); mk_leaf free e2.*1 e2.*2 (l_next l)] (free + 1).

Lemma leaf_grows_entries l free es ls free' : leaf_grows l free es ls free' -> entries ls = es.
Proof. destruct 1 as [|e1 e2 ->]; unfold entries; cbn [flat_map]; by rewrite !leaf_entries_of, app_nil_r. Qed.

Lemma leaf_grows_ok l free es ls free' : leaf_grows l free es ls free' -> Forall value_set es.*2 -> Forall leaf_ok ls.
Proof.
  destruct 1 as [|e1 e2 ->]; intros H; [constructor; [by apply leaf_ok_of|constructor]|].
  rewrite fmap_app, Forall_app in H. destruct H as [H1 H2].
  constructor; [by apply leaf_ok_of|]. constructor; [by apply leaf_ok_of|constructor].
Qed.

Lemma multi_add_ok key value es : Forall value_set es.*2 -> Forall value_set (multi_add key value es).*2.
Proof.
  intros H. unfold multi_add. assert (Hv : value_set (value_add value (values_of es key))).
  { apply value_add_set. unfold values_of. destruct (field es key) as [vs|] eqn:E; [right|by left].
    apply field_Some in E. rewrite Forall_forall in H. apply H. by apply (list_elem_of_fmap_2 snd) in E. }
  apply Forall_fmap, Forall_forall. intros e [->|He]%ins_incl; [done|].
  rewrite Forall_forall in H. apply H. by apply list_elem_of_fmap_2.
Qed.

Definition inhabited (n : node) : Prop := match n with Branch _ [] => False | _ => True end.

Section Insert.
Context (m : Z) (Hm : 3 <= m).

Lemma half_leaf n : m < Z.of_nat n <= m + 1 ->
  (m + 1) / 2 <= Z.of_nat (n / 2) <= m /\ (m + 1) / 2 <= Z.of_nat (n - n / 2) <= m.
Proof using Hm. intros Hn. rewrite Nat2Z.inj_sub by (apply Nat.Div0.div_le_upper_bound; lia). rewrite Nat2Z.inj_div. change (Z.of_nat 2) with 2.
  Z.to_euclidean_division_equations. lia. Qed.

Lemma half_branch n : m + 1 < Z.of_nat n <= m + 2 ->
  (m + 2) / 2 <= Z.of_nat (n / 2) <= m + 1 /\ (m + 2) / 2 <= Z.of_nat (n - n / 2) <= m + 1.
Proof using Hm. intros Hn. rewrite Nat2Z.inj_sub by (apply Nat.Div0.div_le_upper_bound; lia). rewrite Nat2Z.inj_div. change (Z.of_nat 2) with 2.
  Z.to_euclidean_division_equations. lia. Qed.

Lemma minKeys_exists h cs : Forall (fun c => shaped m h c /\ full m c) cs -> Forall leaf_ok (flat_map leaves cs) ->
  exists ks, minKeys cs = Some ks /\ length ks = length cs.
Proof using Hm.
  induction 1 as [|c cs [Hs Hf] Hcs IH]; cbn; [by exists []|]. intros [Hl Hls]%Forall_app.
  destruct (minKey_spec m h c Hm Hs Hf Hl) as (k & -> & _). destruct (IH Hls) as (ks & -> & Hlen).
  exists (k :: ks). split; [done|]. cbn. by rewrite Hlen.
Qed.

(** What an insertion makes of a subtree of height [h]. *)
Definition well_split (h : nat) (f : Z) (n : node) (s : option (bytes * node)) : Prop :=
  shaped m h n /\ inhabited n /\
  match s with
  | None => f <= fill n
  | Some (_, r) => full m n /\ shaped m h r /\ full m r
  end.

Lemma branch_shaped h cs ks :
  zlen cs <= m + 1 -> minKeys (tail cs) = Some ks -> Forall (fun c => shaped m h c /\ full m c) cs ->
  shaped m (S h) (Branch ks cs).
Proof. by intros. Qed.

Lemma recompute_spec h ks cs :
  zlen cs <= m + 1 -> Forall (fun c => shaped m h c /\ full m c) cs -> Forall leaf_ok (flat_map leaves cs) ->
  exists n, recompute (Branch ks cs) = Some n /\ shaped m (S h) n /\ leaves n = flat_map leaves cs /\
    fill n = zlen cs /\ node_children n = cs /\ min_fill m n = (m + 2) / 2.
Proof using Hm.
  intros Hlen Hc Hl. destruct (minKeys_exists h (tail cs)) as (seps & Hk & _).
  { destruct cs; [done|]. by apply Forall_cons in Hc as [_ ?]. }
  { destruct cs; [constructor|]. cbn in Hl. by apply Forall_app in Hl as [_ ?]. }
  cbn. rewrite Hk. exists (Branch seps cs). split; [done|]. split; [by apply branch_shaped|]. done.
Qed.

Lemma growBranch_spec h cs free :
  Forall (fun c => shaped m h c /\ full m c) cs -> Forall leaf_ok (flat_map leaves cs) -> cs <> [] ->
  zlen cs <= m + 2 ->
  exists n s, growBranch m cs free = Some (true, n, s, free) /\ well_split (S h) (zlen cs) n s /\
    leaves n ++ split_leaves s = flat_map leaves cs.
Proof using Hm.
  intros Hc Hl Hne Hlen. unfold growBranch. destruct (minKeys_exists h (tail cs)) as (seps & Hk & Hks).
  { destruct cs; [done|]. by apply Forall_cons in Hc as [_ ?]. }
  { destruct cs; [constructor|]. cbn in Hl. by apply Forall_app in Hl as [_ ?]. }
  rewrite Hk. cbn [obind]. assert (Hseps : zlen seps = zlen cs - 1).
  { unfold zlen. rewrite Hks. destruct cs; [done|]. cbn. lia. }
  rewrite Hseps. destruct (Z.leb_spec (zlen cs - 1) m) as [Hle|Hgt].
  - exists (Branch seps cs), None. split; [done|]. split; [|by rewrite app_nil_r]. split; [apply branch_shaped; by try lia|].
    split; [by destruct cs|]. cbn. lia.
  - pose proof (half_branch (length cs)) as Hh. fold (zlen cs) in Hh. specialize (Hh ltac:(lia)) as [[H1 H2] [H3 H4]].
    set (mid := (length cs / 2)%nat) in *. assert (Hmid : (mid <= length cs)%nat) by (unfold zlen in *; lia).
    assert (Hsplit : flat_map leaves (take mid cs) ++ flat_map leaves (drop mid cs) = flat_map leaves cs).
    { by rewrite <- flat_leaves_app, take_drop. }
    rewrite <- (take_drop mid cs) in Hc. apply Forall_app in Hc as [Hc1 Hc2].
    rewrite <- Hsplit in Hl. apply Forall_app in Hl as [Hl1 Hl2].
    destruct (recompute_spec h seps (take mid cs)) as (n & -> & Hn & Ln & Fn & _ & Mn); [|done..|].
    { unfold zlen. rewrite length_take. lia. }
    destruct (recompute_spec h [] (drop mid cs)) as (r & -> & Hr & Lr & Fr & _ & Mr); [|done..|].
    { unfold zlen. rewrite length_drop. lia. }
    cbn [obind]. unfold zlen in Fn, Fr. rewrite length_take in Fn. rewrite length_drop in Fr.
    assert (Hfr : full m r) by (unfold full; rewrite Mr, Fr; lia).
    destruct (minKey_spec m (S h) r Hm Hr Hfr) as (k & -> & _); [by rewrite Lr|].
    exists n, (Some (k, r)). split; [done|]. cbn [split_leaves]. rewrite Ln, Lr. split; [|done].
    split; [done|]. split; [|split; [|done]].
    + destruct n as [|ks [|]]; [done| |done]. exfalso. change (fill (Branch ks [])) with 0 in Fn.
      pose proof (Z.div_le_lower_bound (m + 2) 2 2 ltac:(lia) ltac:(lia)). lia.
    + unfold full. rewrite Mn, Fn. lia.
Qed.

Lemma shaped_min_fill h n n' : shaped m h n -> shaped m h n' -> min_fill m n = min_fill m n'.
Proof. by destruct h, n, n'. Qed.

Lemma pick_middle {A B} (f : A -> option B) (l1 l2 : list A) x : pick f (l1 ++ x :: l2) (length l1) = f x.
Proof. by induction l1. Qed.

Lemma grownChildren_middle c1 c c2 n s :
  grownChildren (c1 ++ c :: c2) (length c1) n s =
  c1 ++ n :: (match s with Some (_, r) => [r] | None => [] end) ++ c2.
Proof.
  unfold grownChildren. rewrite insert_middle. destruct s as [[sep r]|]; [|done].
  rewrite (cons_middle n), app_assoc. replace (S (length c1)) with (length (c1 ++ [n])) by (rewrite length_app; cbn; lia).
  by rewrite insert_at_app, <- app_assoc.
Qed.

Lemma grown_grows l free es n s free' : grown m l free es n s free' -> Forall value_set es.*2 ->
  leaf_grows l free es (leaves n ++ split_leaves s) free' /\ (zlen es <= m + 1 -> well_split 0 (zlen es - 1) n s).
Proof using Hm.
  destruct s as [[sep r]|]; cbn [grown split_leaves].
  - intros (-> & Hgt & -> & -> & Hk) _. cbn [leaves app]. split; [apply leaf_halves; by rewrite take_drop|].
    intros Hle. pose proof (half_leaf (length es)) as Hh. fold (zlen es) in Hh.
    specialize (Hh ltac:(lia)) as [[H1 H2] [H3 H4]]. unfold well_split, full, shaped, fill, min_fill, zlen; cbn [l_keys].
    rewrite !length_fmap, length_take, length_drop. unfold zlen in *.
    assert (length es / 2 <= length es)%nat by (apply Nat.Div0.div_le_upper_bound; lia). cbn [inhabited]. lia.
  - intros (-> & -> & Hle) _. cbn. rewrite app_nil_r || idtac. split; [constructor|]. intros _.
    unfold well_split, shaped, fill, zlen; cbn [l_keys inhabited]. rewrite length_fmap. unfold zlen in Hle. lia.
Qed.

Lemma multi_add_length key value es : sorted_keys es -> zlen es <= zlen (multi_add key value es) <= zlen es + 1.
Proof. intros Hs. unfold multi_add. rewrite length_ins by done. destruct (field es key); lia. Qed.

Lemma between_outer c1 key c2 L1 L2 :
  between (entries (flat_map leaves c1)) key (entries (flat_map leaves c2)) -> between (entries L1) key (entries L2) ->
  between (entries (flat_map leaves c1 ++ L1)) key (entries (L2 ++ flat_map leaves c2)).
Proof. intros [H1 H2] [H3 H4]. split; rewrite entries_app, fmap_app; by apply Forall_app. Qed.

(** Insertion changes one leaf, the one the key belongs to. *)
Lemma insert_spec h n key value free :
  shaped m h n -> inhabited n -> leaves_ok (leaves n) ->
  exists L1 l L2, leaves n = L1 ++ l :: L2 /\ between (entries L1) key (entries L2) /\
    if multi_has key value (leaf_entries l) then insert m n key value free = Some (false, n, None, free)
    else exists n' s free', insert m n key value free = Some (true, n', s, free') /\
      well_split h (fill n) n' s /\
      exists ls, leaf_grows l free (multi_add key value (leaf_entries l)) ls free' /\
        leaves n' ++ split_leaves s = L1 ++ ls ++ L2.
Proof using Hm.
  revert n; induction h as [|h IH]; intros [l|keys cs] Hs Hin Hl; try done.
  - exists [], l, []. split; [done|]. split; [repeat constructor|]. cbn in Hs, Hl.
    destruct Hl as [Hok Hsort]. apply Forall_cons in Hok as [Hok _]. cbn in Hsort. rewrite app_nil_r in Hsort.
    pose proof (insertLeaf_spec m l key value free Hm Hok Hsort Hs) as H. cbn [insert].
    destruct (multi_has key value (leaf_entries l)); [done|]. destruct H as (n & s & free' & -> & Hg).
    pose proof (multi_add_length key value _ Hsort). cbn [fill] in *. unfold zlen in Hs. rewrite (leaf_keys l Hok), length_fmap in Hs.
    fold (zlen (leaf_entries l)) in Hs. destruct (grown_grows _ _ _ _ _ _ Hg) as [Hls Hw]; [by apply multi_add_ok, leaf_ok_entries|].
    exists n, s, free'. split; [done|]. split; [|exists (leaves n ++ split_leaves s); split; [done|by rewrite app_nil_r]].
    destruct (Hw ltac:(lia)) as (W1 & W2 & W3). split; [done|]. split; [done|]. destruct s as [[sep r]|]; [done|].
    destruct Hg as (-> & _ & _). cbn [fill l_keys]. unfold zlen. rewrite (leaf_keys l Hok), !length_fmap.
    fold (zlen (leaf_entries l)) (zlen (multi_add key value (leaf_entries l))). by destruct H.
  - destruct Hs as (Hlen & Hk & Hc). assert (Hne : cs <> []) by (by destruct cs).
    destruct (child_located m h Hm keys cs key Hne Hc Hl Hk) as (c1 & c & c2 & -> & Hp & Hb).
    apply Forall_app in Hc as [Hc1 Hc]. apply Forall_cons in Hc as [[Hsc Hfc] Hc2].
    assert (Hlc : leaves_ok (leaves c)).
    { cbn in Hl. rewrite flat_leaves_app in Hl. apply leaves_ok_app in Hl as [_ Hl]. cbn in Hl. by apply leaves_ok_app in Hl as [? _]. }
    assert (Hic : inhabited c).
    { destruct c as [|ks [|]]; [done| |done]. unfold full in Hfc. cbn in Hfc.
      pose proof (Z.div_le_lower_bound (m + 2) 2 1). rewrite zlen_nil in Hfc. lia. }
    destruct (IH c Hsc Hic Hlc) as (L1 & l & L2 & HL & Hb' & Hi).
    exists (flat_map leaves c1 ++ L1), l, (L2 ++ flat_map leaves c2).
    split; [cbn; rewrite flat_leaves_app; cbn; by rewrite HL, <- !app_assoc|]. split; [by apply between_outer|].
    cbn [insert]. rewrite <- Hp, pick_middle. destruct (multi_has key value (leaf_entries l)) eqn:Hhas.
    { by rewrite Hi. }
    destruct Hi as (n' & s & free' & -> & (W1 & W2 & W3) & ls & Hg & HL'). cbn [obind].
    rewrite grownChildren_middle. set (sl := match s with Some (_, r) => [r] | None => [] end).
    assert (Hsl : flat_map leaves (c1 ++ n' :: sl ++ c2) = flat_map leaves c1 ++ L1 ++ ls ++ L2 ++ flat_map leaves c2).
    { rewrite flat_leaves_app. cbn. rewrite flat_leaves_app. f_equal. rewrite app_assoc.
      assert (flat_map leaves sl = split_leaves s) as -> by (destruct s as [[sep r]|]; [apply app_nil_r|done]).
      by rewrite HL', <- !app_assoc. }
    assert (Hfn : full m n').
    { destruct s as [[sep r]|]; [by destruct W3|]. unfold full in *. rewrite <- (shaped_min_fill h c n') by done. lia. }
    destruct (growBranch_spec h (c1 ++ n' :: sl ++ c2) free') as (n'' & s' & Hgb & Hw & HL'').
    + apply Forall_app. split; [done|]. constructor; [done|]. apply Forall_app. split; [|done].
      destruct s as [[sep r]|]; [|constructor]. destruct W3 as (_ & ? & ?). by constructor.
    + rewrite Hsl. cbn in Hl. rewrite flat_leaves_app in Hl. cbn in Hl. rewrite HL in Hl. destruct Hl as [Hl _].
      apply Forall_app in Hl as [? Hl]. apply Forall_app in Hl as [Hl Hl2]. apply Forall_app in Hl as [? Hl].
      apply Forall_cons in Hl as [Hll Hl]. rewrite !Forall_app. repeat split; [done|done| |done|done].
      apply (leaf_grows_ok _ _ _ _ _ Hg), multi_add_ok. by apply leaf_ok_entries.
    + by destruct c1.
    + rewrite !zlen_app, zlen_cons in *. unfold sl. rewrite zlen_app. destruct s as [[sep r]|]; rewrite ?zlen_cons, zlen_nil; lia.
    + exists n'', s', free'. split; [done|]. split.
      * destruct Hw as (V1 & V2 & V3). split; [done|]. split; [done|]. destruct s' as [[sep r]|]; [done|]. cbn [fill] in *.
        rewrite !zlen_app, !zlen_cons, zlen_app in V3. rewrite zlen_app, zlen_cons. pose proof (zlen_nonneg sl). lia.
      * exists ls. split; [done|]. rewrite HL'', Hsl. by rewrite <- !app_assoc.
Qed.
End Insert.

(** ** Removal from the in-memory index tree

    [Tree.delete] removes a value from one leaf; an underfilled child borrows
    from a sibling or is merged with it. *)
(** A leaf by its entries. *)
Definition leaf_of (address : Z) (es : list entry) (next : option Z) : leaf := mk_leaf address es.*1 es.*2 next.

Lemma leaf_of_entries l : leaf_ok l -> l = leaf_of (l_address l) (leaf_entries l) (l_next l).
Proof. apply leaf_eta. Qed.

Lemma leaf_values l : leaf_ok l -> l_values l = (leaf_entries l).*2.
Proof. intros H. by rewrite (leaf_eta l H) at 1. Qed.

Lemma leaf_of_ok a es next : leaf_ok (leaf_of a es next) <-> Forall value_set es.*2.
Proof. apply leaf_ok_of. Qed.

Lemma entries_leaf_of a es next : leaf_entries (leaf_of a es next) = es.
Proof. apply leaf_entries_of. Qed.

Lemma fill_leaf_of a es next : fill (Leaf (leaf_of a es next)) = zlen es.
Proof. cbn. unfold zlen. by rewrite length_fmap. Qed.

(** ** One leaf *)

Lemma multi_remove_length key value es : sorted_keys es -> zlen es - 1 <= zlen (multi_remove key value es) <= zlen es.
Proof.
  intros Hs. unfold multi_remove. destruct (value_remove value (values_of es key)) as [|v vs] eqn:E.
  - rewrite length_del. destruct (field es key); lia.
  - rewrite length_ins by done. unfold values_of in E. destruct (field es key); [lia|done].
Qed.

Lemma multi_remove_ok key value es : sorted_keys es -> Forall value_set es.*2 -> Forall value_set (multi_remove key value es).*2.
Proof.
  intros Hs H. unfold multi_remove. rewrite Forall_fmap in H |- *. rewrite Forall_forall in H.
  destruct (value_remove value (values_of es key)) as [|v vs] eqn:E.
  - apply Forall_forall. intros e He%del_incl. by apply H.
  - apply Forall_forall. intros e [->|He]%ins_incl; [|by apply H]. unfold compose; cbn. rewrite <- E.
    split; [by rewrite E|]. apply value_remove_sorted. unfold values_of.
    destruct (field es key) as [ws|] eqn:Ef; [|constructor]. apply field_Some, H in Ef. apply Ef.
Qed.

Lemma multi_remove_sorted key value es : sorted_keys es -> sorted_keys (multi_remove key value es).
Proof.
  intros Hs. unfold multi_remove. destruct (value_remove value _); [by apply sorted_del|by apply sorted_ins].
Qed.

Lemma zero_length_ltb {A} (l : list A) : (0 <? zlen l) = match l with [] => false | _ => true end.
Proof. destruct l; [done|]. rewrite zlen_cons. pose proof (zlen_nonneg l). apply Z.ltb_lt. lia. Qed.

Lemma deleteLeaf_spec l key value :
  leaf_ok l -> sorted_keys (leaf_entries l) ->
  deleteLeaf l key value =
  Some (if multi_has key value (leaf_entries l)
        then (true, Leaf (leaf_of (l_address l) (multi_remove key value (leaf_entries l)) (l_next l)))
        else (false, Leaf l)).
Proof.
  intros Hok Hs. pose proof (leaf_ok_entries l Hok) as Hvs. unfold deleteLeaf, with_entries.
  assert (Hsnd : l_values l = (leaf_entries l).*2) by (rewrite (leaf_eta l Hok) at 1; done).
  rewrite Hsnd, (leaf_keys l Hok) in *. set (es := leaf_entries l) in *. clearbody es.
  destruct (entry_split es key Hs) as (e1 & e2 & -> & -> & H1 & H2). unfold multi_has, multi_remove, values_of.
  destruct H2 as [(vs & e2' & -> & H2 & -> & ->)|(H2 & -> & ->)]; cbn [negb].
  - rewrite lookup_snd_app. cbn [obind]. apply value_set_app in Hvs as (_ & [Hne Hsv] & _).
    pose proof (value_position vs value Hsv) as Hv. destruct (key_at vs _ value); destruct Hv as [Hin Hv]; cbn [negb].
    + rewrite bool_decide_true by done. rewrite Hv, zero_length_ltb. unfold leaf_of.
      destruct (value_remove value vs) as [|v vs'].
      * rewrite del_app_r by done. cbn [del]. rewrite beqb_refl. rewrite <- !fmap_remove_at, remove_at_app. done.
      * rewrite ins_app_r by done. cbn [ins]. rewrite bcompare_refl, insert_snd_app. by rewrite (keys_app e1 e2' key vs (v :: vs')).
    + by rewrite bool_decide_false by done.
  - by rewrite bool_decide_false by apply not_elem_of_nil.
Qed.

(** ** Moving entries between neighbours *)

(** The effect of one loan or merge on the leaves. *)
Inductive reshaped : list leaf -> list leaf -> Prop :=
| reshaped_same L : reshaped L L
| reshaped_moved A a b ea eb B :
    Forall value_set ea.*2 -> Forall value_set eb.*2 -> leaf_entries a ++ leaf_entries b = ea ++ eb ->
    reshaped (A ++ a :: b :: B) (A ++ leaf_of (l_address a) ea (l_next a) :: leaf_of (l_address b) eb (l_next b) :: B)
| reshaped_merged A a b B :
    reshaped (A ++ a :: b :: B) (A ++ leaf_of (l_address a) (leaf_entries a ++ leaf_entries b) (l_next b) :: B).

Lemma reshaped_context A B L L' : reshaped L L' -> reshaped (A ++ L ++ B) (A ++ L' ++ B).
Proof.
  destruct 1 as [L|A' a b ea eb B' H1 H2 H3|A' a b B']; [constructor|..].
  - rewrite <- !app_assoc. cbn [app]. rewrite !(app_assoc A A'). by constructor.
  - rewrite <- !app_assoc. cbn [app]. rewrite !(app_assoc A A'). constructor.
Qed.

Lemma reshaped_entries L L' : reshaped L L' -> entries L' = entries L.
Proof.
  destruct 1 as [L|A a b ea eb B H1 H2 H3|A a b B]; [done|..]; rewrite !entries_app, !entries_cons, !entries_leaf_of.
  - by rewrite (app_assoc ea), <- H3, <- app_assoc.
  - by rewrite <- app_assoc.
Qed.

Lemma reshaped_ok L L' : reshaped L L' -> Forall leaf_ok L -> Forall leaf_ok L'.
Proof.
  destruct 1 as [L|A a b ea eb B H1 H2 H3|A a b B]; [done|..]; rewrite !Forall_app, !Forall_cons, !leaf_of_ok; [tauto|].
  intros (HA & Ha & Hb & HB). rewrite fmap_app, Forall_app. auto using leaf_ok_entries.
Qed.

(** ** Loans and merges *)

Section Remove.
Context (m : Z) (Hm : 3 <= m).

Abbreviation child_ok h := (fun c => shaped m h c /\ full m c).

Lemma min_leaf : 2 <= (m + 1) / 2 /\ 2 * ((m + 1) / 2) <= m + 1.
Proof using Hm. Z.to_euclidean_division_equations. lia. Qed.

Lemma min_branch : 2 <= (m + 2) / 2 /\ 2 * ((m + 2) / 2) <= m + 2.
Proof using Hm. Z.to_euclidean_division_equations. lia. Qed.

(** What replaces two siblings. *)
Definition repaired (h : nat) (before after : list node) : Prop :=
  Forall (child_ok h) after /\ reshaped (flat_map leaves before) (flat_map leaves after).

Lemma shaped_leaf l : shaped m 0 (Leaf l) <-> zlen (l_keys l) <= m.
Proof. done. Qed.

Lemma shaped_branch h ks cs : shaped m (S h) (Branch ks cs) ->
  zlen cs <= m + 1 /\ Forall (child_ok h) cs.
Proof. by intros (? & _ & ?). Qed.

Lemma leaf_child_ok a es next : (m + 1) / 2 <= zlen es <= m -> child_ok 0 (Leaf (leaf_of a es next)).
Proof. intros H. unfold full. rewrite fill_leaf_of. cbn. unfold zlen. rewrite length_fmap. fold (zlen es). lia. Qed.

Lemma branch_child_ok h ks cs : (m + 2) / 2 <= zlen cs <= m + 1 -> Forall (child_ok h) cs ->
  Forall leaf_ok (flat_map leaves cs) ->
  exists n, recompute (Branch ks cs) = Some n /\ child_ok (S h) n /\ leaves n = flat_map leaves cs /\ fill n = zlen cs.
Proof using Hm.
  intros Hlen Hc Hl. destruct (recompute_spec m Hm h ks cs ltac:(lia) Hc Hl) as (n & Hr & Hs & HL & Hf & _ & Hmin).
  exists n. split; [done|]. split; [split; [done|unfold full; rewrite Hmin, Hf; lia]|done].
Qed.

Lemma leaf_fill l : leaf_ok l -> fill (Leaf l) = zlen (leaf_entries l).
Proof. intros H. cbn. rewrite (leaf_keys l H). unfold zlen. by rewrite length_fmap. Qed.

Lemma borrowFromLeft_spec h x y :
  shaped m h x -> shaped m h y -> min_fill m x < fill x -> fill y = min_fill m y - 1 ->
  Forall leaf_ok (leaves x ++ leaves y) ->
  exists x' y', borrowFromLeft x y = Some (x', y') /\ repaired h [x; y] [x'; y'].
Proof using Hm.
  intros Hx Hy Fx Fy Hl. pose proof min_leaf. pose proof min_branch. destruct h as [|h], x as [lx|kx cx], y as [ly|ky cy]; try done.
  - apply Forall_app in Hl as [Hlx Hly]. cbn [leaves] in Hlx, Hly. apply Forall_cons in Hlx as [Hlx _]. apply Forall_cons in Hly as [Hly _].
    cbn [min_fill] in Fx, Fy. rewrite leaf_fill in Fx, Fy by done. rewrite shaped_leaf, leaf_keys in Hx, Hy by done.
    pose proof (leaf_ok_entries lx Hlx) as Vx. pose proof (leaf_ok_entries ly Hly) as Vy.
    unfold borrowFromLeft, with_entries. cbn [leaf_is node_leaf]. rewrite !leaf_keys, !leaf_values by done.
    unfold zlen in Hx, Hy. rewrite length_fmap in Hx, Hy. fold (zlen (leaf_entries lx)) in Hx.
    destruct (leaf_entries lx) as [|[k v] es _] eqn:Ex using rev_ind; [cbn in Fx; rewrite zlen_nil in Fx; lia|].
    rewrite zlen_app, zlen_cons, zlen_nil in Hx, Fx. rewrite !fmap_app.
    change ([(k, v)].*1) with [k]. change ([(k, v)].*2) with [v]. rewrite !last_snoc, !removelast_last. cbn [obind]. eexists _, _. split; [reflexivity|].
    rewrite fmap_app in Vx. apply Forall_app in Vx as [Vx Vk]. apply Forall_cons in Vk as [Vk _]. split.
    + constructor; [apply (leaf_child_ok _ es); lia|]. constructor; [|constructor].
      apply (leaf_child_ok _ ((k, v) :: leaf_entries ly)). rewrite zlen_cons. unfold zlen in *. lia.
    + apply (reshaped_moved [] lx ly es ((k, v) :: leaf_entries ly) []); [done|by constructor|]. by rewrite Ex, <- app_assoc.
  - apply shaped_branch in Hx as [Lx Cx]. apply shaped_branch in Hy as [Ly Cy]. cbn [fill min_fill] in Fx, Fy.
    unfold borrowFromLeft. cbn [leaf_is node_children leaves] in *.
    destruct cx as [|c cs _] using rev_ind; [rewrite zlen_nil in Fx; lia|]. rewrite last_snoc, removelast_last. cbn [obind].
    rewrite zlen_app, zlen_cons, zlen_nil in Lx, Fx. apply Forall_app in Cx as [Cx Cc].
    rewrite flat_leaves_app, !Forall_app in Hl. destruct Hl as [[Hls Hlc] Hly]. cbn in Hlc. rewrite app_nil_r in Hlc.
    destruct (branch_child_ok h [] cs) as (x' & -> & Hx' & Lx' & _); [lia|done|done|]. cbn [obind].
    destruct (branch_child_ok h [] (c :: cy)) as (y' & -> & Hy' & Ly' & _).
    { rewrite zlen_cons. lia. } { constructor; [by apply Forall_cons in Cc as [? _]|done]. } { cbn. by apply Forall_app. }
    exists x', y'. split; [done|]. split; [by constructor; [|constructor]|].
    cbn. rewrite Lx', Ly', flat_leaves_app. cbn. rewrite !app_nil_r, <- app_assoc. constructor.
Qed.

Lemma borrowFromRight_spec h x y :
  shaped m h x -> shaped m h y -> fill x = min_fill m x - 1 -> min_fill m y < fill y ->
  Forall leaf_ok (leaves x ++ leaves y) ->
  exists x' y', borrowFromRight x y = Some (x', y') /\ repaired h [x; y] [x'; y'].
Proof using Hm.
  intros Hx Hy Fx Fy Hl. pose proof min_leaf. pose proof min_branch. destruct h as [|h], x as [lx|kx cx], y as [ly|ky cy]; try done.
  - apply Forall_app in Hl as [Hlx Hly]. cbn [leaves] in Hlx, Hly. apply Forall_cons in Hlx as [Hlx _]. apply Forall_cons in Hly as [Hly _].
    cbn [min_fill] in Fx, Fy. rewrite leaf_fill in Fx, Fy by done. rewrite shaped_leaf, leaf_keys in Hx, Hy by done.
    pose proof (leaf_ok_entries lx Hlx) as Vx. pose proof (leaf_ok_entries ly Hly) as Vy.
    unfold borrowFromRight, with_entries. cbn [leaf_is node_leaf]. rewrite !leaf_keys, !leaf_values by done.
    unfold zlen in Hx, Hy. rewrite length_fmap in Hx, Hy. fold (zlen (leaf_entries ly)) in Hy.
    destruct (leaf_entries ly) as [|[k v] es] eqn:Ey; [cbn in Fy; rewrite zlen_nil in Fy; lia|].
    rewrite zlen_cons in Hy, Fy. cbn [fmap list_fmap head tail obind]. eexists _, _. split; [reflexivity|].
    cbn in Vy. apply Forall_cons in Vy as [Vk Vy]. split.
    + constructor; [|constructor; [|constructor]]; [|apply (leaf_child_ok _ es); lia].
      change [(k, v).1] with ([(k, v)].*1). change [(k, v).2] with ([(k, v)].*2). rewrite <- !fmap_app.
      apply (leaf_child_ok _ (leaf_entries lx ++ [(k, v)])). rewrite zlen_app, zlen_cons, zlen_nil. unfold zlen in *. lia.
    + change [(k, v).1] with ([(k, v)].*1). change [(k, v).2] with ([(k, v)].*2). rewrite <- !fmap_app.
      apply (reshaped_moved [] lx ly (leaf_entries lx ++ [(k, v)]) es []); [rewrite fmap_app; apply Forall_app; split; [done|by constructor]|done|].
      by rewrite Ey, <- app_assoc.
  - apply shaped_branch in Hx as [Lx Cx]. apply shaped_branch in Hy as [Ly Cy]. cbn [fill min_fill] in Fx, Fy.
    unfold borrowFromRight. cbn [leaf_is node_children leaves] in *.
    destruct cy as [|c cs]; [rewrite zlen_nil in Fy; lia|]. cbn [head tail obind].
    rewrite zlen_cons in Ly, Fy. apply Forall_cons in Cy as [Cc Cy].
    cbn in Hl. rewrite !Forall_app in Hl. destruct Hl as [Hlx [Hlc Hls]].
    destruct (branch_child_ok h [] (cx ++ [c])) as (x' & -> & Hx' & Lx' & _).
    { rewrite zlen_app, zlen_cons, zlen_nil. lia. } { apply Forall_app. split; [done|by constructor]. }
    { rewrite flat_leaves_app. apply Forall_app. cbn. by rewrite app_nil_r. }
    cbn [obind]. destruct (branch_child_ok h [] cs) as (y' & -> & Hy' & Ly' & _); [lia|done|done|].
    exists x', y'. split; [done|]. split; [by constructor; [|constructor]|].
    cbn. rewrite Lx', Ly', flat_leaves_app. cbn. rewrite !app_nil_r, <- app_assoc. constructor.
Qed.

Lemma mergeNodes_spec h x y :
  shaped m h x -> shaped m h y -> min_fill m x - 1 <= fill x -> min_fill m y - 1 <= fill y ->
  fill x + fill y = 2 * min_fill m x - 1 ->
  Forall leaf_ok (leaves x ++ leaves y) ->
  exists z, mergeNodes x y = Some z /\ repaired h [x; y] [z].
Proof using Hm.
  intros Hx Hy Fx Fy Fxy Hl. pose proof min_leaf. pose proof min_branch. destruct h as [|h], x as [lx|kx cx], y as [ly|ky cy]; try done.
  - apply Forall_app in Hl as [Hlx Hly]. cbn [leaves] in Hlx, Hly. apply Forall_cons in Hlx as [Hlx _]. apply Forall_cons in Hly as [Hly _].
    cbn [min_fill] in Fx, Fy, Fxy. rewrite leaf_fill in Fx by done. rewrite leaf_fill in Fy by done. rewrite !leaf_fill in Fxy by done.
    unfold mergeNodes. cbn [leaf_is node_leaf]. rewrite !leaf_keys, !leaf_values, <- !fmap_app by done. eexists. split; [reflexivity|]. split; [|apply (reshaped_merged [] lx ly [])].
    constructor; [|constructor]. apply (leaf_child_ok _ (leaf_entries lx ++ leaf_entries ly)). rewrite zlen_app. lia.
  - apply shaped_branch in Hx as [Lx Cx]. apply shaped_branch in Hy as [Ly Cy]. cbn [fill min_fill leaves] in *.
    unfold mergeNodes. cbn [leaf_is node_children]. destruct (branch_child_ok h [] (cx ++ cy)) as (z & -> & Hz & Lz & _).
    { rewrite zlen_app. lia. } { by apply Forall_app. } { by rewrite flat_leaves_app. }
    exists z. split; [done|]. split; [by constructor|]. cbn. rewrite Lz, flat_leaves_app, !app_nil_r. constructor.
Qed.

(** ** Rebalancing a child *)

Lemma insert_middle_next {A} (l1 l2 : list A) x y z : <[S (length l1):=z]> (l1 ++ x :: y :: l2) = l1 ++ x :: z :: l2.
Proof. rewrite insert_app_r_alt by lia. by replace (S (length l1) - length l1)%nat with 1%nat by lia. Qed.

Lemma insert_middle_third {A} (l1 l2 : list A) w x y z :
  <[S (S (length l1)):=z]> (l1 ++ w :: x :: y :: l2) = l1 ++ w :: x :: z :: l2.
Proof. rewrite insert_app_r_alt by lia. by replace (S (S (length l1)) - length l1)%nat with 2%nat by lia. Qed.

Lemma remove_middle_next {A} (l1 l2 : list A) x y : remove_at (l1 ++ x :: y :: l2) (S (length l1)) = l1 ++ x :: l2.
Proof.
  rewrite (cons_middle x), app_assoc. replace (S (length l1)) with (length (l1 ++ [x])) by (rewrite length_app; cbn; lia).
  by rewrite remove_at_app, <- app_assoc.
Qed.

Lemma reshaped_steps_context A B L L' : rtc reshaped L L' -> rtc reshaped (A ++ L ++ B) (A ++ L' ++ B).
Proof. apply (rtc_congruence (fun L => A ++ L ++ B)). intros. by apply reshaped_context. Qed.

Lemma siblings_ok l1 x y l2 : Forall leaf_ok (flat_map leaves (l1 ++ x :: y :: l2)) -> Forall leaf_ok (leaves x ++ leaves y).
Proof.
  rewrite flat_leaves_app. intros [_ H]%Forall_app. cbn in H. rewrite app_assoc in H. by apply Forall_app in H as [? _].
Qed.

(** Two siblings replaced inside their parent. *)
Lemma repaired_inside h c1 before after c2 :
  Forall (child_ok h) c1 -> Forall (child_ok h) c2 -> repaired h before after ->
  Forall (child_ok h) (c1 ++ after ++ c2) /\
  reshaped (flat_map leaves (c1 ++ before ++ c2)) (flat_map leaves (c1 ++ after ++ c2)).
Proof.
  intros H1 H2 [H3 H4]. rewrite !flat_leaves_app. split; [by rewrite !Forall_app|by apply reshaped_context].
Qed.

(** Each outcome of a rebalance: the pair of siblings that is replaced. *)
Lemma rebalanceChild_spec h c1 c c2 :
  Forall (child_ok h) c1 -> Forall (child_ok h) c2 -> shaped m h c -> min_fill m c - 1 <= fill c ->
  2 <= zlen (c1 ++ c :: c2) -> Forall leaf_ok (flat_map leaves (c1 ++ c :: c2)) ->
  exists cs, rebalanceChild m (c1 ++ c :: c2) (length c1) = Some cs /\ Forall (child_ok h) cs /\
    zlen (c1 ++ c :: c2) - 1 <= zlen cs <= zlen (c1 ++ c :: c2) /\
    reshaped (flat_map leaves (c1 ++ c :: c2)) (flat_map leaves cs).
Proof using Hm.
  intros H1 H2 Hc Fc Hlen Hl. unfold rebalanceChild. rewrite lookup_middle. unfold underfilled.
  destruct (Z.ltb_spec (fill c) (min_fill m c)) as [Hlt|Hge]; cbn [negb orb].
  2: { exists (c1 ++ c :: c2). split; [done|]. split; [by apply Forall_app; split; [|constructor]|]. split; [lia|constructor]. }
  destruct (Nat.eqb_spec (length (c1 ++ c :: c2)) 1) as [E|_]; [unfold zlen in Hlen; lia|].
  assert (Hmin : forall x, shaped m h x -> min_fill m x = min_fill m c) by (intros x Hx; by apply (shaped_min_fill m h)).
  assert (Hmerge : forall l1 x y l2, c1 ++ c :: c2 = l1 ++ x :: y :: l2 -> Forall (child_ok h) l1 -> Forall (child_ok h) l2 ->
    shaped m h x -> shaped m h y -> min_fill m c - 1 <= fill x -> min_fill m c - 1 <= fill y ->
    fill x + fill y = 2 * min_fill m c - 1 ->
    exists z, mergeNodes x y = Some z /\ Forall (child_ok h) (l1 ++ z :: l2) /\
      zlen (c1 ++ c :: c2) - 1 <= zlen (l1 ++ z :: l2) <= zlen (c1 ++ c :: c2) /\
      reshaped (flat_map leaves (c1 ++ c :: c2)) (flat_map leaves (l1 ++ z :: l2))).
  { intros l1 x y l2 E Hl1 Hl2 Hx Hy Fx Fy Fxy. rewrite E in *.
    destruct (mergeNodes_spec h x y) as (z & Hz & Hr); rewrite ?Hmin; try done.
    { apply (siblings_ok _ _ _ _ Hl). }
    exists z. split; [done|]. destruct (repaired_inside h l1 [x; y] [z] l2 Hl1 Hl2 Hr) as [? ?].
    split; [done|]. split; [rewrite !zlen_app, !zlen_cons; lia|done]. }
  assert (Hleft : forall l1 x, c1 = l1 ++ [x] -> min_fill m x < fill x ->
    exists x' y', borrowFromLeft x c = Some (x', y') /\ Forall (child_ok h) (l1 ++ x' :: y' :: c2) /\
      reshaped (flat_map leaves (c1 ++ c :: c2)) (flat_map leaves (l1 ++ x' :: y' :: c2))).
  { intros l1 x -> Hx. apply Forall_app in H1 as [Hl1 Hx1]. apply Forall_cons in Hx1 as [[Hsx _] _].
    rewrite <- app_assoc in *. cbn [app] in *. destruct (borrowFromLeft_spec h x c) as (x' & y' & Hz & Hr); try done; [lia|..].
    { apply (siblings_ok _ _ _ _ Hl). }
    exists x', y'. split; [done|]. by apply (repaired_inside h l1 [x; c] [x'; y'] c2). }
  assert (Hright : forall y l2, c2 = y :: l2 -> min_fill m y < fill y ->
    exists x' y', borrowFromRight c y = Some (x', y') /\ Forall (child_ok h) (c1 ++ x' :: y' :: l2) /\
      reshaped (flat_map leaves (c1 ++ c :: c2)) (flat_map leaves (c1 ++ x' :: y' :: l2))).
  { intros y l2 -> Hy. apply Forall_cons in H2 as [[Hsy _] Hl2].
    destruct (borrowFromRight_spec h c y) as (x' & y' & Hz & Hr); try done; [lia|..].
    { apply (siblings_ok _ _ _ _ Hl). }
    exists x', y'. split; [done|]. by apply (repaired_inside h c1 [c; y] [x'; y'] l2). }
  destruct c1 as [|x l1 _] using rev_ind; cbn [length].
  - destruct c2 as [|y l2]; [cbn [app] in Hlen; rewrite zlen_cons, zlen_nil in Hlen; lia|]. cbn [app lookup list_lookup]. unfold canLend.
    apply Forall_cons in H2 as [[Hsy Hfy] Hl2].
    destruct (Z.ltb_spec (min_fill m y) (fill y)) as [Hy|Hy].
    + destruct (Hright y l2 eq_refl Hy) as (x' & y' & -> & Hf & Hr). exists (x' :: y' :: l2). cbn [app] in *.
      split; [done|]. split; [done|]. split; [rewrite !zlen_cons; lia|done].
    + pose proof (Hmin y Hsy) as Ey. unfold full in Hfy. destruct (Hmerge [] c y l2) as (z & -> & Hf & Hz & Hr); try done; [lia..|].
      exists (z :: l2). by split; [|split].
  - apply Forall_app in H1 as [Hl1 Hx]. apply Forall_cons in Hx as [[Hsx Hfx] _]. pose proof (Hmin x Hsx) as Ex. unfold full in Hfx.
    rewrite length_app, Nat.add_1_r. cbn [pred]. rewrite <- app_assoc in *. cbn [app] in *.
    assert (Hlook : forall y l2, (l1 ++ x :: c :: y :: l2) !! S (S (length l1)) = Some y).
    { intros y l2. rewrite lookup_app_r by lia. by replace (S (S (length l1)) - length l1)%nat with 2%nat by lia. }
    rewrite lookup_middle. unfold canLend. destruct (Z.ltb_spec (min_fill m x) (fill x)) as [Hgt|Hle].
    { destruct (Hleft l1 x eq_refl Hgt) as (x' & y' & -> & Hf & Hr). cbn [obind]. exists (l1 ++ x' :: y' :: c2).
      rewrite insert_middle, insert_middle_next. split; [done|]. split; [done|].
      split; [rewrite !zlen_app, !zlen_cons; lia|done]. }
    destruct (Hmerge l1 x c c2) as (z & Hz & Hf & Hlz & Hr); try done; [lia..|]. rewrite Hz. cbn [obind].
    rewrite insert_middle, (remove_middle_next l1 c2 z c).
    destruct ((l1 ++ x :: c :: c2) !! S (S (length l1))) as [y|] eqn:Ey; [|by exists (l1 ++ z :: c2)].
    destruct c2 as [|y' l2].
    { exfalso. apply lookup_lt_Some in Ey. rewrite length_app in Ey. cbn in Ey. lia. }
    rewrite Hlook in Ey. injection Ey as ->. destruct (Z.ltb_spec (min_fill m y) (fill y)) as [Hy|Hy]; [|by exists (l1 ++ z :: y :: l2)].
    destruct (Hright y l2 eq_refl Hy) as (x' & y' & -> & Hf' & Hr'). cbn [obind]. exists (l1 ++ x :: x' :: y' :: l2).
    rewrite <- !app_assoc in *. cbn [app] in *. rewrite insert_middle_next, insert_middle_third. split; [done|]. split; [done|].
    split; [rewrite !zlen_app, !zlen_cons; lia|done].
Qed.

(** ** Removal *)

(** A branch with a sibling for every child. *)
Definition wide (n : node) : Prop := match n with Leaf _ => True | Branch _ children => 2 <= zlen children end.

Lemma full_wide h n : shaped m h n -> full m n -> wide n.
Proof using Hm.
  destruct n as [l|ks cs]; [done|]. unfold full. cbn. intros _ H. pose proof min_branch. lia.
Qed.

Lemma wide_inhabited n : wide n -> inhabited n.
Proof. destruct n as [|ks [|]]; [done| |done]. cbn. rewrite zlen_nil. lia. Qed.

Lemma full_inhabited h n : shaped m h n -> full m n -> inhabited n.
Proof using Hm. intros Hs Hf. by eapply wide_inhabited, full_wide. Qed.

(** The leaf a value is removed from. *)
Definition shrunk (l : leaf) (key value : bytes) : leaf :=
  leaf_of (l_address l) (multi_remove key value (leaf_entries l)) (l_next l).

Lemma shrunk_ok l key value : leaf_ok l -> sorted_keys (leaf_entries l) -> leaf_ok (shrunk l key value).
Proof. intros Hok Hs. unfold shrunk. by apply leaf_of_ok, multi_remove_ok, leaf_ok_entries. Qed.

Lemma child_leaves keys c1 c c2 : leaves_ok (leaves (Branch keys (c1 ++ c :: c2))) ->
  leaves_ok (leaves c) /\ Forall leaf_ok (flat_map leaves c1) /\ Forall leaf_ok (flat_map leaves c2).
Proof.
  cbn. rewrite flat_leaves_app. intros H. apply leaves_ok_app in H as [[H1 _] H]. cbn in H.
  apply leaves_ok_app in H as [H [H2 _]]. done.
Qed.

(** The child that holds a key, with what is around it. *)
Lemma descend h keys cs key : shaped m (S h) (Branch keys cs) -> inhabited (Branch keys cs) ->
  leaves_ok (leaves (Branch keys cs)) ->
  exists c1 c c2, cs = c1 ++ c :: c2 /\ length c1 = scan_position keys key /\
    between (entries (flat_map leaves c1)) key (entries (flat_map leaves c2)) /\
    Forall (child_ok h) c1 /\ Forall (child_ok h) c2 /\ child_ok h c /\ wide c /\ leaves_ok (leaves c).
Proof using Hm.
  intros (Hlen & Hk & Hc) Hin Hl. assert (Hne : cs <> []) by (by destruct cs).
  destruct (child_located m h Hm keys cs key Hne Hc Hl Hk) as (c1 & c & c2 & -> & Hp & Hb).
  apply Forall_app in Hc as [Hc1 Hc]. apply Forall_cons in Hc as [[Hsc Hfc] Hc2].
  exists c1, c, c2. repeat (split; [done|]). split; [by eapply full_wide|]. by apply (child_leaves keys c1 c c2).
Qed.

Lemma remove_spec h n key value :
  shaped m h n -> wide n -> leaves_ok (leaves n) ->
  exists L1 l L2, leaves n = L1 ++ l :: L2 /\ between (entries L1) key (entries L2) /\
    if multi_has key value (leaf_entries l)
    then exists n', remove m n key value = Some (true, n') /\ shaped m h n' /\ fill n - 1 <= fill n' /\
      rtc reshaped (L1 ++ shrunk l key value :: L2) (leaves n')
    else remove m n key value = Some (false, n).
Proof using Hm.
  revert n; induction h as [|h IH]; intros [l|keys cs] Hs Hw Hl; try done.
  - exists [], l, []. split; [done|]. split; [repeat constructor|]. destruct Hl as [Hok Hsort].
    apply Forall_cons in Hok as [Hok _]. cbn in Hsort. rewrite app_nil_r in Hsort.
    cbn [remove]. rewrite deleteLeaf_spec by done. destruct (multi_has key value (leaf_entries l)); [|done].
    pose proof (multi_remove_length key value (leaf_entries l) Hsort) as Hlen. fold (shrunk l key value).
    eexists. split; [reflexivity|]. rewrite shaped_leaf, leaf_keys in Hs by done. unfold zlen in Hs. rewrite length_fmap in Hs.
    fold (zlen (leaf_entries l)) in Hs. unfold shrunk. rewrite leaf_fill, fill_leaf_of by done.
    split; [apply shaped_leaf; cbn; unfold zlen; rewrite length_fmap; unfold zlen in *; lia|]. split; [lia|constructor].
  - destruct (descend h keys cs key Hs (wide_inhabited _ Hw) Hl) as (c1 & c & c2 & -> & Hp & Hb & Hc1 & Hc2 & [Hsc Hfc] & Hwc & Hlc).
    destruct (IH c Hsc Hwc Hlc) as (L1 & l & L2 & HL & Hb' & Hi).
    exists (flat_map leaves c1 ++ L1), l, (L2 ++ flat_map leaves c2).
    split; [cbn; rewrite flat_leaves_app; cbn; by rewrite HL, <- !app_assoc|]. split; [by apply between_outer|].
    cbn [remove]. rewrite <- Hp, pick_middle. destruct (multi_has key value (leaf_entries l)) eqn:Hhas.
    2: by rewrite Hi.
    destruct Hi as (c' & -> & Hsc' & Hfc' & Hr). cbn [obind negb]. rewrite insert_middle.
    destruct (child_leaves _ _ _ _ Hl) as (_ & Hl1 & Hl2).
    assert (Hokl : Forall leaf_ok (L1 ++ shrunk l key value :: L2)).
    { destruct Hlc as [Hok Hsort]. rewrite HL in Hok, Hsort. rewrite entries_app, entries_cons in Hsort.
      apply sorted_keys_app in Hsort as (_ & Hsort & _). apply sorted_keys_app in Hsort as (Hsort & _).
      apply Forall_app in Hok as [Hok1 Hok]. apply Forall_cons in Hok as [Hok Hok2].
      apply Forall_app. split; [done|]. constructor; [by apply shrunk_ok|done]. }
    assert (Hok' : Forall leaf_ok (leaves c')).
    { revert Hokl. clear -Hr. induction Hr as [|L L' L'' Hs _ IH]; [done|]. intros Hok. apply IH. by eapply reshaped_ok. }
    unfold full in Hfc. rewrite (shaped_min_fill m h c c' Hsc Hsc') in Hfc.
    assert (Hlens : zlen (c1 ++ c' :: c2) = zlen (c1 ++ c :: c2)) by (by rewrite !zlen_app, !zlen_cons).
    cbn [wide] in Hw.
    destruct (rebalanceChild_spec h c1 c' c2 Hc1 Hc2 Hsc') as (cs' & -> & Hcs & Hlen & Hr'); [lia|lia|..].
    { rewrite flat_leaves_app. apply Forall_app. split; [done|]. cbn. by apply Forall_app. }
    apply shaped_branch in Hs as [Hmax _]. cbn [obind].
    destruct (recompute_spec m Hm h keys cs') as (n' & -> & Hn' & HL' & Hf & _ & _); [lia|done|..].
    { eapply reshaped_ok; [exact Hr'|]. rewrite flat_leaves_app. apply Forall_app. split; [done|]. cbn. by apply Forall_app. }
    exists n'. split; [done|]. split; [done|]. split; [cbn [fill]; lia|]. rewrite HL'.
    apply rtc_r with (flat_map leaves (c1 ++ c' :: c2)); [|exact Hr'].
    rewrite flat_leaves_app. cbn. rewrite <- app_assoc.
    pose proof (reshaped_steps_context (flat_map leaves c1) (flat_map leaves c2) _ _ Hr) as Hc. by rewrite <- app_assoc in Hc.
Qed.
End Remove.
