(* ===== verification/IndexTreeMap.v ===== *)
(** * The in-memory index tree is a sorted multimap

    Lookups, scans and updates of [IndexTree] are those of the sorted list of
    its entries, and every update keeps the tree balanced, filled and linked. *)
From stdpp Require Import relations.
From S2P Require Import Prelude Bytes Entries CowTree TreeShape IndexTree IndexTreeShape IndexTreeUpdates.
From Stdlib Require Import Sorted.

(** ** Links *)

Definition first_address (ls : list leaf) (after : option Z) : option Z :=
  match ls with [] => after | l :: _ => Some (l_address l) end.

(** Every leaf links to the next one, the last to [after]. *)
Fixpoint chain (ls : list leaf) (after : option Z) : Prop :=
  match ls with
  | [] => True
  | l :: ls => l_next l = first_address ls after /\ chain ls after
  end.

Lemma first_address_app l1 l2 after : first_address (l1 ++ l2) after = first_address l1 (first_address l2 after).
Proof. by destruct l1. Qed.

Lemma leaf_chain_app l1 l2 after : chain (l1 ++ l2) after <-> chain l1 (first_address l2 after) /\ chain l2 after.
Proof.
  induction l1 as [|l l1 IH]; cbn [app chain]; [tauto|]. rewrite IH, first_address_app. tauto.
Qed.

(** The leaves of a tree: linked, at distinct allocated addresses. *)
Record linked (free : Z) (ls : list leaf) : Prop := {
  linked_chain : chain ls None;
  linked_distinct : NoDup (l_address <$> ls);
  linked_allocated : Forall (fun l => l_address l < free) ls }.

(** A leaf changed in place. *)
Lemma linked_update free L1 l es L2 :
  linked free (L1 ++ l :: L2) -> linked free (L1 ++ leaf_of (l_address l) es (l_next l) :: L2).
Proof.
  intros [H1 H2 H3]. split.
  - apply leaf_chain_app in H1 as [H1 Hl]. by apply leaf_chain_app.
  - by rewrite fmap_app in H2 |- *.
  - rewrite Forall_app, Forall_cons in H3 |- *. done.
Qed.

Lemma linked_grows free l es ls free' L1 L2 :
  leaf_grows l free es ls free' -> linked free (L1 ++ l :: L2) -> linked free' (L1 ++ ls ++ L2).
Proof.
  destruct 1 as [|e1 e2 _]; [apply linked_update|]. intros [H1 H2 H3]. split.
  - apply leaf_chain_app in H1 as [H1 [Hl HL2]]. apply leaf_chain_app. split; [done|]. by repeat split.
  - rewrite !fmap_app in *. cbn in *. assert (Hfree : free ∉ l_address <$> (L1 ++ l :: L2)).
    { intros (x & Hx & Hin)%list_elem_of_fmap. rewrite Forall_forall in H3. specialize (H3 x Hin). lia. }
    rewrite fmap_app in Hfree. cbn in Hfree.
    assert (Hp : Permutation (free :: (l_address <$> L1) ++ l_address l :: (l_address <$> L2))
      ((l_address <$> L1) ++ l_address l :: free :: (l_address <$> L2))) by solve_Permutation.
    rewrite <- Hp. by constructor.
  - rewrite Forall_app, Forall_cons in H3. rewrite !Forall_app, !Forall_cons. destruct H3 as (HL1 & Hl & HL2).
    assert (Hw : forall L, Forall (fun l => l_address l < free) L -> Forall (fun l => l_address l < free + 1) L).
    { intros L HL. eapply Forall_impl; [exact HL|]. cbn. lia. }
    cbn. repeat split; [by apply Hw|lia|lia|constructor|by apply Hw].
Qed.

Lemma linked_reshaped free L L' : reshaped L L' -> linked free L -> linked free L'.
Proof.
  destruct 1 as [L|A a b ea eb B _ _ _|A a b B]; [done|..]; intros [H1 H2 H3].
  - split.
    + apply leaf_chain_app in H1 as [H1 Hl]. by apply leaf_chain_app.
    + by rewrite fmap_app in H2 |- *.
    + rewrite Forall_app, !Forall_cons in H3 |- *. done.
  - split.
    + apply leaf_chain_app in H1 as [H1 (_ & Hb & HB)]. apply leaf_chain_app. split; [exact H1|]. by split.
    + rewrite fmap_app in H2 |- *. cbn in *. rewrite (cons_middle (l_address a)), app_assoc in H2.
      rewrite (cons_middle (l_address a)), app_assoc. apply NoDup_app in H2 as (N1 & N2 & N3). apply NoDup_cons in N3 as [N3 N4].
      apply NoDup_app. split; [done|]. split; [|done]. intros x Hx Hin. apply (N2 x Hx). by right.
    + apply Forall_app in H3 as [? H3]. apply Forall_cons in H3 as [? H3]. apply Forall_cons in H3 as [_ H3].
      apply Forall_app. split; [done|by constructor].
Qed.

Lemma reshaped_all free L L' : rtc reshaped L L' ->
  linked free L -> Forall leaf_ok L -> linked free L' /\ Forall leaf_ok L' /\ entries L' = entries L.
Proof.
  induction 1 as [|L L' L'' Hs _ IH]; [done|]. intros H1 H2.
  destruct IH as (? & ? & ->); [by eapply linked_reshaped|by eapply reshaped_ok|]. by rewrite (reshaped_entries L L').
Qed.

(** ** The invariant of a tree *)

(** The number of pairs. *)
Fixpoint total (es : list entry) : Z := match es with [] => 0 | (_, vs) :: es => zlen vs + total es end.

Record tree_ok (h : nat) (t : Tree) : Prop := {
  ok_order : 3 <= t_maxKeys t;
  ok_shape : shaped (t_maxKeys t) h (t_root t);
  ok_wide : wide (t_root t);
  ok_leaves : leaves_ok (leaves (t_root t));
  ok_linked : linked (t_free t) (leaves (t_root t));
  ok_size : t_size t = total (entries (leaves (t_root t))) }.

(** A tree of some height holds a multimap. *)
Definition holds (t : Tree) (es : list entry) : Prop := exists h, tree_ok h t /\ entries (leaves (t_root t)) = es.

Lemma total_app a b : total (a ++ b) = total a + total b.
Proof. induction a as [|[k vs] a IH]; cbn [app total]; [lia|]. rewrite IH. lia. Qed.

Lemma total_ins k vs es : sorted_keys es -> total (ins k vs es) = total es + zlen vs - zlen (values_of es k).
Proof.
  induction es as [|[k' vs'] es IH]; [cbn [ins total]; unfold values_of; cbn [field]; change (@zlen bytes []) with 0; lia|]. rewrite sorted_keys_cons. intros [Hs Hk]. unfold values_of in *. cbn [ins field].
  destruct (bcompare k k') eqn:E.
  - apply bcompare_eq in E as ->. rewrite beqb_refl. cbn [total]. lia.
  - assert (beqb k k' = false) as -> by (apply beqb_neq; intros ->; by apply blt_irrefl in E).
    rewrite (field_above es k); [cbn [total]; change (@zlen bytes []) with 0; lia|]. eapply Forall_impl; [exact Hk|].
    intros x Hx. by eapply blt_trans.
  - apply blt_gt in E. assert (beqb k k' = false) as -> by (apply beqb_neq; intros ->; by apply blt_irrefl in E).
    cbn [total]. rewrite IH by done. lia.
Qed.

Lemma total_del k es : total (del k es) = total es - zlen (values_of es k).
Proof.
  induction es as [|[k' vs'] es IH]; [done|]. unfold values_of in *. cbn [del field].
  destruct (beqb k k'); cbn [total]; lia.
Qed.

Lemma zlen_value_add v vs : sorted_list vs -> v ∉ vs -> zlen (value_add v vs) = zlen vs + 1.
Proof.
  intros Hs%mark_sorted Hv. unfold value_add, zlen. rewrite length_fmap. fold (zlen (ins v tt (mark vs))).
  rewrite length_ins by done. rewrite field_mark, bool_decide_false by done. unfold zlen, mark. by rewrite length_fmap.
Qed.

Lemma zlen_value_remove v vs : v ∈ vs -> zlen (value_remove v vs) = zlen vs - 1.
Proof.
  intros Hv. unfold value_remove, zlen. rewrite length_fmap. fold (zlen (del v (mark vs))).
  rewrite length_del, field_mark, bool_decide_true by done. unfold zlen, mark. by rewrite length_fmap.
Qed.

Lemma values_of_sorted es key : Forall value_set es.*2 -> sorted_list (values_of es key).
Proof.
  intros H. unfold values_of. destruct (field es key) as [vs|] eqn:E; [|constructor].
  rewrite Forall_fmap, Forall_forall in H. apply field_Some, H in E. apply E.
Qed.

Lemma total_add key value es : sorted_keys es -> Forall value_set es.*2 -> multi_has key value es = false ->
  total (multi_add key value es) = total es + 1.
Proof.
  intros Hs Hv Hh. apply bool_decide_eq_false in Hh. unfold multi_add. rewrite total_ins by done.
  rewrite zlen_value_add by (by try apply values_of_sorted). lia.
Qed.

Lemma total_remove key value es : sorted_keys es -> multi_has key value es = true ->
  total (multi_remove key value es) = total es - 1.
Proof.
  intros Hs Hh. apply bool_decide_eq_true in Hh. pose proof (zlen_value_remove _ _ Hh) as Hz. unfold multi_remove.
  destruct (value_remove value (values_of es key)); [rewrite total_del|rewrite total_ins by done]; change (@zlen bytes []) with 0 in *; lia.
Qed.

Lemma total_zero es : Forall value_set es.*2 -> total es = 0 -> es = [].
Proof.
  destruct es as [|[k vs] es]; [done|]. cbn [fmap list_fmap total]. intros [[Hne _] Hv]%Forall_cons Ht. exfalso. cbn [snd] in Hne.
  assert (0 < zlen vs) by (destruct vs; [done|rewrite zlen_cons; pose proof (zlen_nonneg vs); lia]).
  assert (0 <= total es); [|lia]. clear. induction es as [|[k' vs'] es IH]; cbn [total]; [lia|]. pose proof (zlen_nonneg vs'). lia.
Qed.

(** ** Lookups *)

Section Lookups.
Context (m : Z) (Hm : 3 <= m).

Lemma findLeaf_spec h n key : shaped m h n -> wide n -> leaves_ok (leaves n) ->
  exists L1 l L2, findLeaf n key = Some l /\ leaves n = L1 ++ l :: L2 /\ between (entries L1) key (entries L2).
Proof using Hm.
  revert n; induction h as [|h IH]; intros [l|keys cs] Hs Hw Hl; try done.
  - exists [], l, []. split; [done|]. split; [done|]. repeat constructor.
  - destruct (descend m Hm h keys cs key Hs (wide_inhabited _ Hw) Hl) as (c1 & c & c2 & -> & Hp & Hb & _ & _ & [Hsc _] & Hwc & Hlc).
    destruct (IH c Hsc Hwc Hlc) as (L1 & l & L2 & Hf & HL & Hb').
    exists (flat_map leaves c1 ++ L1), l, (L2 ++ flat_map leaves c2). cbn [findLeaf]. rewrite <- Hp, pick_middle.
    split; [done|]. split; [cbn; rewrite flat_leaves_app; cbn; by rewrite HL, <- !app_assoc|by apply between_outer].
Qed.
End Lookups.

(** The leaf for a key, inside the leaves of a tree. *)
Lemma leaf_in_tree L1 l L2 : leaves_ok (L1 ++ l :: L2) -> leaf_ok l /\ sorted_keys (leaf_entries l).
Proof.
  intros H. apply leaves_ok_app in H as [_ [H1 H2]]. apply Forall_cons in H1 as [H1 _].
  rewrite entries_cons in H2. apply sorted_keys_app in H2 as [H2 _]. done.
Qed.

Lemma Get_spec t es key : holds t es -> Get t key = Some (values_of es key).
Proof.
  intros (h & [Hm Hs Hw Hl _ _] & <-). unfold Get.
  destruct (findLeaf_spec _ Hm h (t_root t) key Hs Hw Hl) as (L1 & l & L2 & -> & HL & Hb). cbn [obind].
  rewrite HL in *. destruct (leaf_in_tree _ _ _ Hl) as [Hok Hsort].
  rewrite entries_app, entries_cons, (values_between Hb). rewrite leaf_keys, leaf_values by done.
  destruct (entry_split (leaf_entries l) key Hsort) as (e1 & e2 & -> & -> & H1 & H2). unfold values_of.
  destruct H2 as [(vs & e2' & -> & H2 & -> & ->)|(H2 & -> & ->)]; [|done]. apply lookup_snd_app.
Qed.

(** ** Scans *)

(** Whether a scan shows a key. *)
Definition in_range (start fin : bytes) (includeEnd : bool) (key : bytes) : bool :=
  negb (bltb key start) &&
  ((zlen fin =? 0) || bltb key fin || (beqb key fin && includeEnd)).

Definition pairs_of (e : entry) : list Pair := mk_pair e.1 <$> e.2.

(** The pairs of a range, in key order. *)
Definition pairs_in (start fin : bytes) (includeEnd : bool) (es : list entry) : list Pair :=
  flat_map pairs_of (List.filter (fun e => in_range start fin includeEnd e.1) es).

Lemma pairs_in_app start fin inc l1 l2 : pairs_in start fin inc (l1 ++ l2) = pairs_in start fin inc l1 ++ pairs_in start fin inc l2.
Proof. unfold pairs_in. by rewrite List.filter_app, flat_map_app. Qed.

Lemma pairs_in_none start fin inc l : Forall (fun k => in_range start fin inc k = false) l.*1 -> pairs_in start fin inc l = [].
Proof.
  unfold pairs_in. induction l as [|[k vs] l IH]; [done|]. cbn. intros [-> H]%Forall_cons. auto.
Qed.

(** Once a key is past the end of the range, so are the keys above it. *)
Lemma past_end start fin inc k l :
  ((0 <? zlen fin) && (bltb fin k || (beqb k fin && negb inc))) = true -> Forall (blt k) l.*1 ->
  pairs_in start fin inc ((k, []) :: l) = [] /\ in_range start fin inc k = false /\ pairs_in start fin inc l = [].
Proof.
  intros [Hf Hk]%andb_true_iff Hl. apply Z.ltb_lt in Hf.
  assert (Hle : forall x, (k = x \/ blt k x) -> in_range start fin inc x = false).
  { intros x Hx. unfold in_range. assert ((zlen fin =? 0) = false) as -> by (apply Z.eqb_neq; lia).
    assert (Hfx : blt fin x \/ (x = fin /\ inc = false)).
    { apply orb_true_iff in Hk as [Hk%bltb_lt|[->%beqb_eq Hinc%negb_true_iff]%andb_true_iff].
      - left. destruct Hx as [<-|Hx]; [done|]. by eapply blt_trans.
      - destruct Hx as [<-|Hx]; auto. }
    assert (bltb x fin = false /\ (beqb x fin && inc) = false) as [-> ->]; [|by rewrite andb_false_r].
    destruct Hfx as [Hfx|[-> ->]].
    - split; [apply bltb_ge; by apply blt_asym|]. assert (beqb x fin = false) as ->; [|done].
      apply beqb_neq. intros ->. by apply blt_irrefl in Hfx.
    - split; [apply bltb_ge, blt_irrefl|apply andb_false_r]. }
  assert (Hn : pairs_in start fin inc l = []).
  { apply pairs_in_none. eapply Forall_impl; [exact Hl|]. intros x Hx. apply Hle. by right. }
  split; [|split; [apply Hle; by left|done]]. unfold pairs_in in *. cbn. rewrite (Hle k) by by left. done.
Qed.

Lemma leaf_scan_spec start fin inc es rest :
  sorted_keys (es ++ rest) ->
  let '(found, stop) := scanLeaf start fin inc es in
  found = pairs_in start fin inc es /\ (stop = true -> pairs_in start fin inc rest = []).
Proof.
  induction es as [|[k vs] es IH]; [by intros _|]. cbn [app scanLeaf]. rewrite sorted_keys_cons. intros [Hs Hk].
  specialize (IH Hs). unfold pairs_in in IH |- *. cbn [List.filter fst].
  destruct ((0 <? zlen start) && bltb k start) eqn:E1.
  { apply andb_true_iff in E1 as [_ E1]. unfold in_range at 1. rewrite E1. cbn [negb andb]. done. }
  destruct ((0 <? zlen fin) && _) eqn:E2.
  { destruct (past_end start fin inc k (es ++ rest) E2 Hk) as (_ & -> & Hp). rewrite pairs_in_app in Hp.
    apply app_eq_nil in Hp as [Hp1 Hp2]. unfold pairs_in in Hp1. rewrite Hp1. by split. }
  assert (in_range start fin inc k = true) as ->.
  { unfold in_range. assert (bltb k start = false) as ->.
    { destruct (bltb k start) eqn:E; [|done]. rewrite andb_true_r in E1. apply Z.ltb_ge in E1.
      assert (start = []) as -> by (apply zlen_0; pose proof (zlen_nonneg start); lia).
      apply bltb_lt in E. by apply not_blt_nil in E. }
    cbn [negb andb]. destruct (Z.eqb_spec (zlen fin) 0) as [|Hf]; [done|].
    assert ((0 <? zlen fin) = true) as Hf' by (apply Z.ltb_lt; pose proof (zlen_nonneg fin); lia).
    rewrite Hf' in E2. cbn [andb orb] in E2 |- *. apply orb_false_iff in E2 as [E2 E3]. apply bltb_ge in E2.
    destruct (blt_trichotomy k fin) as [H|[->|H]]; [apply bltb_lt in H; by rewrite H| |done].
    rewrite beqb_refl in E3 |- *. cbn in E3. apply negb_false_iff in E3 as ->. by rewrite orb_true_r. }
  destruct (scanLeaf start fin inc es) as [found stop]. destruct IH as [-> IH]. by split.
Qed.

Lemma leaf_at_spec root L1 l L2 : leaves root = L1 ++ l :: L2 -> NoDup (l_address <$> leaves root) ->
  leaf_at root (l_address l) = Some l.
Proof.
  unfold leaf_at. intros ->. induction L1 as [|x L1 IH]; cbn; [by rewrite Z.eqb_refl|].
  intros [Hx Hnd]%NoDup_cons. destruct (Z.eqb_spec (l_address x) (l_address l)) as [E|_]; [|by apply IH].
  destruct Hx. rewrite E, fmap_app. apply elem_of_app. right. left.
Qed.

Lemma scanLeaves_spec root start fin inc fuel L1 l L2 :
  leaves root = L1 ++ l :: L2 -> NoDup (l_address <$> leaves root) -> chain (leaves root) None ->
  sorted_keys (entries (leaves root)) -> (length (l :: L2) <= fuel)%nat ->
  scanLeaves fuel root (Some l) start fin inc = Some (pairs_in start fin inc (entries (l :: L2))).
Proof.
  intros HL Hnd Hch Hs. revert fuel L1 l HL. induction L2 as [|l' L2 IH]; intros [|fuel] L1 l HL Hf; try (cbn in Hf; lia).
  all: cbn [scanLeaves]; pose proof HL as HL'; rewrite HL in Hch, Hs; apply leaf_chain_app in Hch as [_ [Hnext _]]; cbn in Hnext;
    rewrite entries_app, entries_cons in Hs; apply sorted_keys_app in Hs as (_ & Hs & _).
  - pose proof (leaf_scan_spec start fin inc _ _ Hs) as Hsp. destruct (scanLeaf start fin inc (leaf_entries l)) as [found stop].
    destruct Hsp as [-> _]. rewrite Hnext. cbn. rewrite app_nil_r. by destruct stop.
  - pose proof (leaf_scan_spec start fin inc _ _ Hs) as Hsp. destruct (scanLeaf start fin inc (leaf_entries l)) as [found stop].
    destruct Hsp as [-> Hstop]. rewrite (entries_cons l), pairs_in_app.
    destruct stop; [by rewrite Hstop, app_nil_r|]. rewrite Hnext.
    assert (Hl' : leaves root = (L1 ++ [l]) ++ l' :: L2) by (by rewrite <- app_assoc).
    rewrite (leaf_at_spec root (L1 ++ [l]) l' L2 Hl' Hnd). cbn [obind].
    by rewrite (IH fuel (L1 ++ [l]) l' Hl' ltac:(cbn in Hf |- *; lia)).
Qed.

Lemma Scan_spec t es start fin inc : holds t es -> Scan t start fin inc = Some (pairs_in start fin inc es).
Proof.
  intros (h & [Hm Hs Hw Hl [Hch Hnd _] _] & <-). unfold Scan.
  destruct (findLeaf_spec _ Hm h (t_root t) start Hs Hw Hl) as (L1 & l & L2 & -> & HL & [Hb _]). cbn [obind].
  destruct Hl as [_ Hsort]. rewrite (scanLeaves_spec _ _ _ _ _ L1 l L2 HL Hnd Hch Hsort).
  - rewrite HL, entries_app, pairs_in_app. rewrite (pairs_in_none _ _ _ (entries L1)); [done|].
    eapply Forall_impl; [exact Hb|]. intros x Hx. unfold in_range. apply bltb_lt in Hx. by rewrite Hx.
  - rewrite HL, length_app. lia.
Qed.

(** ** Updates *)

Lemma New_holds : holds New [].
Proof.
  exists O. split; [|done]. split; cbn; try done; [by split; [repeat constructor|constructor]|].
  split; cbn; [done|apply NoDup_singleton|apply Forall_singleton; cbn; lia].
Qed.

Lemma NewWithOrder_holds maxKeys : holds (NewWithOrder maxKeys) [].
Proof.
  assert (3 <= (if maxKeys <? 3 then 3 else maxKeys)) by (destruct (Z.ltb_spec maxKeys 3); lia).
  exists O. split; [|done]. split; cbn; try done.
  - change (@zlen bytes []) with 0. lia.
  - by split; [repeat constructor|constructor].
  - split; cbn; [done|apply NoDup_singleton|apply Forall_singleton; cbn; lia].
Qed.

Lemma multi_add_sorted key value es : sorted_keys es -> sorted_keys (multi_add key value es).
Proof. intros Hs. by apply sorted_ins. Qed.

Lemma leaves_ok_values L : Forall leaf_ok L -> Forall value_set (entries L).*2.
Proof.
  induction 1 as [|l L Hl _ IH]; [constructor|]. rewrite entries_cons, fmap_app. apply Forall_app.
  split; [by apply leaf_ok_entries|done].
Qed.

Lemma Insert_spec t es key value : holds t es -> key <> [] ->
  exists t', Insert t key value = Some (t', negb (multi_has key value es)) /\
    holds t' (if multi_has key value es then es else multi_add key value es).
Proof.
  intros (h & [Hm Hs Hw Hl Hlk Hsz] & <-) Hk. unfold Insert.
  destruct (Z.eqb_spec (zlen key) 0) as [E|_]; [by apply zlen_0 in E|].
  destruct (insert_spec _ Hm h (t_root t) key value (t_free t) Hs (wide_inhabited _ Hw) Hl) as (L1 & l & L2 & HL & Hb & Hi).
  assert (Hhas : multi_has key value (entries (leaves (t_root t))) = multi_has key value (leaf_entries l)).
  { rewrite HL, entries_app, entries_cons. apply (multi_has_between Hb). }
  rewrite Hhas. destruct (multi_has key value (leaf_entries l)) eqn:Eh.
  { rewrite Hi. cbn. exists t. split; [done|]. by exists h. }
  destruct Hi as (n' & s & free' & -> & (Hs' & Hin & Hsplit) & ls & Hg & HL'). cbn [obind negb].
  pose proof Hl as [Hok Hsort]. pose proof (leaves_ok_values _ Hok) as Hvals.
  assert (Hadd : entries (leaves n' ++ split_leaves s) = multi_add key value (entries (leaves (t_root t)))).
  { rewrite HL', HL, !entries_app, entries_cons, (multi_add_between Hb). by rewrite (leaf_grows_entries _ _ _ _ _ Hg). }
  assert (Hok' : leaves_ok (leaves n' ++ split_leaves s)).
  { split; [|rewrite Hadd; by apply multi_add_sorted]. rewrite HL' in *. rewrite HL in Hok, Hl.
    destruct (leaf_in_tree _ _ _ Hl) as [Hokl _]. apply Forall_app in Hok as [? Hok]. apply Forall_cons in Hok as [_ ?].
    rewrite !Forall_app. split; [done|]. split; [|done]. by apply (leaf_grows_ok _ _ _ _ _ Hg), multi_add_ok, leaf_ok_entries. }
  assert (Hlk' : linked free' (leaves n' ++ split_leaves s)).
  { rewrite HL'. rewrite HL in Hlk. by eapply linked_grows. }
  assert (Hsz' : t_size t + 1 = total (entries (leaves n' ++ split_leaves s))).
  { rewrite Hadd, total_add by done. by rewrite Hsz. }
  destruct s as [[sep r]|]; cbn [split_leaves] in *.
  - destruct Hsplit as (Hfn & Hsr & Hfr). destruct (recompute_spec _ Hm h [] [n'; r]) as (root & -> & Hroot & HLr & _ & Hch & _).
    { rewrite !zlen_cons, zlen_nil. lia. } { by repeat constructor. }
    { cbn. rewrite app_nil_r. apply Hok'. }
    cbn [obind]. cbn in HLr. rewrite app_nil_r in HLr. eexists. split; [reflexivity|]. exists (S h).
    split; [|cbn [t_root]; by rewrite HLr]. split; cbn; rewrite ?HLr; try done.
    destruct root as [|ks cs]; [done|]. cbn in Hch |- *. subst cs. rewrite !zlen_cons, zlen_nil. lia.
  - rewrite app_nil_r in *. eexists. split; [reflexivity|]. exists h. split; [|done]. split; cbn; try done.
    destruct (t_root t) as [l0|ks cs], n' as [l'|ks' cs']; try done; [by destruct h|]. cbn in *. lia.
Qed.

Lemma collapse_spec m h n : 3 <= m -> shaped m h n -> inhabited n ->
  exists h', shaped m h' (collapse n) /\ wide (collapse n) /\ leaves (collapse n) = leaves n.
Proof.
  intros Hm Hs Hin. destruct n as [l|ks [|c [|c' cs]]]; [by exists h|done| |].
  - destruct h as [|h]; [done|]. destruct Hs as (_ & _ & Hc). apply Forall_cons in Hc as [[Hsc Hfc] _].
    pose proof (full_wide m Hm h c Hsc Hfc) as Hw. exists h. cbn [collapse leaves flat_map]. rewrite app_nil_r.
    assert (collapse c = c) as ->; [|done]. by destruct c as [|ks' [|d [|d' ds]]].
  - exists h. split; [done|]. split; [|done]. cbn. rewrite !zlen_cons. pose proof (zlen_nonneg cs). lia.
Qed.

Lemma Delete_spec t es key value : holds t es -> key <> [] ->
  exists t', Delete t key value = Some (t', multi_has key value es) /\
    holds t' (if multi_has key value es then multi_remove key value es else es).
Proof.
  intros (h & [Hm Hs Hw Hl Hlk Hsz] & <-) Hk. unfold Delete.
  destruct (Z.eqb_spec (zlen key) 0) as [E|_]; [by apply zlen_0 in E|].
  destruct (remove_spec _ Hm h (t_root t) key value Hs Hw Hl) as (L1 & l & L2 & HL & Hb & Hi).
  assert (Hhas : multi_has key value (entries (leaves (t_root t))) = multi_has key value (leaf_entries l)).
  { rewrite HL, entries_app, entries_cons. apply (multi_has_between Hb). }
  rewrite Hhas. destruct (multi_has key value (leaf_entries l)) eqn:Eh.
  2: { rewrite Hi. cbn. exists t. split; [done|]. by exists h. }
  destruct Hi as (n' & -> & Hs' & Hf & Hr). cbn [obind negb]. pose proof Hl as [Hok Hsort].
  pose proof (leaves_ok_values _ Hok) as Hvals.
  destruct (reshaped_all (t_free t) _ _ Hr) as (Hlk' & Hok' & He).
  { unfold shrunk. rewrite HL in Hlk. by apply linked_update. }
  { rewrite HL in Hl, Hok. destruct (leaf_in_tree _ _ _ Hl) as [Hokl Hsl].
    apply Forall_app in Hok as [? Hok]. apply Forall_cons in Hok as [_ ?]. apply Forall_app. split; [done|].
    constructor; [by apply shrunk_ok|done]. }
  assert (Hrem : entries (leaves n') = multi_remove key value (entries (leaves (t_root t)))).
  { rewrite He, HL, !entries_app, !entries_cons, (multi_remove_between Hb). unfold shrunk. by rewrite entries_leaf_of. }
  assert (Hsz' : t_size t - 1 = total (entries (leaves n'))) by (rewrite Hrem, total_remove by done; by rewrite Hsz).
  destruct (Z.eqb_spec (t_size t - 1) 0) as [Hz|Hz].
  - eexists. split; [reflexivity|]. exists O. rewrite <- Hrem. rewrite Hz in Hsz'.
    assert (entries (leaves n') = []) as ->.
    { apply total_zero; [|done]. by apply leaves_ok_values. }
    split; [|done]. split; cbn; try done.
    + change (@zlen bytes []) with 0. lia.
    + by split; [repeat constructor|constructor].
    + split; cbn; [done|apply NoDup_singleton|apply Forall_singleton; cbn; lia].
  - destruct (collapse_spec _ h n' Hm Hs') as (h' & Hc & Hcw & HLc).
    { destruct n' as [|ks [|]]; [done| |done]. destruct (t_root t) as [l0|ks0 cs0]; [by destruct h|].
      cbn in Hf, Hw. rewrite zlen_nil in Hf. lia. }
    eexists. split; [reflexivity|]. exists h'. split; [|by cbn; rewrite HLc].
    split; cbn; rewrite ?HLc; try done. split; [done|]. rewrite Hrem. by apply multi_remove_sorted.
Qed.

(** ** Properties *)

(** C29: the in-memory index tree is a sorted multimap, for every order it is
    created with: [Get] and [Scan] return the values of a key and the pairs of a
    range in key order; [Insert] and [Delete] add and remove one pair, report
    whether they did, and keep the balance, the occupancy of the nodes, the links
    between the leaves and the count; an empty key changes nothing. No operation
    runs out of range. *)
Theorem index_tree_is_multimap :
  holds New [] /\ (forall maxKeys, holds (NewWithOrder maxKeys) []) /\
  forall t es, holds t es ->
    sorted_keys es /\ Forall value_set es.*2 /\ Len t = total es /\
    (forall key, Get t key = Some (values_of es key)) /\
    (forall start fin includeEnd, Scan t start fin includeEnd = Some (pairs_in start fin includeEnd es)) /\
    (forall key value, key <> [] ->
      (exists t', Insert t key value = Some (t', negb (multi_has key value es)) /\
         holds t' (if multi_has key value es then es else multi_add key value es)) /\
      (exists t', Delete t key value = Some (t', multi_has key value es) /\
         holds t' (if multi_has key value es then multi_remove key value es else es))) /\
    (forall value, Insert t [] value = Some (t, false) /\ Delete t [] value = Some (t, false)).
Proof.
  split; [apply New_holds|]. split; [apply NewWithOrder_holds|]. intros t es Ht.
  pose proof Ht as (h & [Hm Hs Hw [Hok Hsort] Hlk Hsz] & He). rewrite He in *.
  split; [done|]. split; [rewrite <- He; by apply leaves_ok_values|]. split; [done|].
  split; [intros key; by apply Get_spec|]. split; [intros start fin inc; by apply Scan_spec|].
  split; [intros key value Hk; split; [by apply Insert_spec|by apply Delete_spec]|done].
Qed.

(** Nine pairs in a tree of order three, one of them removed again. *)
Definition example_index : option (Tree * bool) :=
  let k (n : Z) := be_enc 1 n in
  let add n := fun r => let? (t, _) := r in Insert t (k n) (k (n + 100)) in
  let? (t, _) := add 5 (add 9 (add 1 (add 7 (add 3 (add 8 (add 2 (add 6 (add 4 (Some (NewWithOrder 3, true)))))))))) in
  Delete t (k 5) (k 105).

Lemma index_tree_is_multimap_witness :
  exists t, example_index = Some (t, true) /\ Len t = 8 /\
    Scan t (be_enc 1 3) (be_enc 1 7) true =
      Some [mk_pair (be_enc 1 3) (be_enc 1 103); mk_pair (be_enc 1 4) (be_enc 1 104);
            mk_pair (be_enc 1 6) (be_enc 1 106); mk_pair (be_enc 1 7) (be_enc 1 107)] /\
    exists t', Insert (NewWithOrder 3) [x01] [x02] = Some (t', true) /\ holds t' [([x01], [[x02]])].
Proof.
  eexists. split; [vm_compute; reflexivity|]. split; [reflexivity|]. split; [vm_compute; reflexivity|].
  destruct index_tree_is_multimap as (_ & Hnew & H). destruct (H (NewWithOrder 3) [] (Hnew 3)) as (_ & _ & _ & _ & _ & Hu & _).
  destruct (Hu [x01] [x02] ltac:(discriminate)) as [(t' & H1 & H2) _]. exists t'. split; [exact H1|exact H2].
Defined.
