(* ===== verification/DocumentCodec.v ===== *)
(** * The binary document codec

    [internal/database/document_codec.go], [document_size.go] and
    [storage_document_codec.go]. A [bytes.Buffer] written to is the bytes
    appended, a [bytes.Reader] the bytes left. *)
From S2P Require Import Prelude Bytes Strings Entries Float64 Values Documents.

Definition MaxUint16 : Z := 65535.
Definition MaxUint32 : Z := 2 ^ 32 - 1.
Definition MaxUint64 : Z := 2 ^ 64 - 1.

(** ** Writing *)

Definition writeU16 (value : Z) : bytes := le_enc 2 value.
Definition writeU32 (value : Z) : bytes := le_enc 4 value.
Definition writeU64 (value : Z) : bytes := le_enc 8 value.

Definition writeString16 (value : bytes) : result bytes :=
  if MaxUint16 <? zlen value then Err ErrCorrupt
  else Ok (writeU16 (zlen value) ++ value).

Definition writeBytes32 (value : bytes) : result bytes :=
  if MaxUint32 <? zlen value then Err ErrInvalidDocument
  else Ok (writeU32 (zlen value) ++ value).

Section EncodeObject.
Variable encodeValue : value -> Z -> result bytes.

(** One field of the sorted loop: its key, then its value. *)
Definition encodeField (kv : bytes * result bytes) : result bytes :=
  let* key := writeString16 kv.1 in
  let* body := kv.2 in
  Ok (key ++ body).

(** The encodings of the values are attached to their keys before the keys are
    sorted; they are written, and their errors returned, in key order. *)
Definition encodeObject_with (d : document) (depth : Z) : result bytes :=
  if (64 <? depth) || (MaxUint32 <? zlen d) then Err ErrInvalidDocument
  else if negb (forallb (fun kv => validField kv.1) d) then Err ErrInvalidDocument
  else
    let fields := sort_fields (map (fun kv => (kv.1, encodeValue kv.2 (depth + 1))) d) in
    let* parts := seqR (map encodeField fields) in
    Ok (writeU32 (zlen d) ++ concat parts).
End EncodeObject.

Fixpoint encodeValueBinary (v : value) (depth : Z) : result bytes :=
  if 64 <? depth then Err ErrInvalidDocument
  else
    let* body :=
      match v with
      | VNull => Ok []
      | VBool b => Ok [if b then x01 else x00]
      | VInt i => Ok (writeU64 (to_u64 i))
      | VFloat f =>
          if is_nan f || is_inf f then Err ErrInvalidDocument else Ok (writeU64 f)
      | VString s => writeBytes32 s
      | VBinary b => writeBytes32 b
      | VTime t => Ok (writeU64 (to_u64 t))
      | VID id => Ok id
      | VArray a =>
          if MaxUint32 <? zlen a then Err ErrInvalidDocument
          else
            let* parts := seqR (map (fun item => encodeValueBinary item (depth + 1)) a) in
            Ok (writeU32 (zlen a) ++ concat parts)
      | VObject _ d => encodeObject_with encodeValueBinary d (depth + 1)
      end in
    Ok (z2b (kind_code (Kind v)) :: body).

Definition encodeObjectBinary : document -> Z -> result bytes := encodeObject_with encodeValueBinary.

Definition encodeDocumentBinary (d : document) : result bytes :=
  if negb (Validate d) then Err ErrInvalidDocument else encodeObjectBinary d 0.

(** ** Reading *)

Definition read_uint (n : Z) (r : bytes) : option (Z * bytes) :=
  let? (data, r) := read_full n r in Some (le_dec data, r).
Definition readByte (r : bytes) : option (byte * bytes) :=
  match r with b :: r => Some (b, r) | [] => None end.
Definition readU16 := read_uint 2.
Definition readU32 := read_uint 4.
Definition readU64 := read_uint 8.

Definition readString16 (r : bytes) : option (bytes * bytes) :=
  let? (length, r) := readU16 r in read_full length r.

Definition readBytes32 (r : bytes) (max : Z) : option (bytes * bytes) :=
  let? (length, r) := readU32 r in
  if (max <? length) || (zlen r <? length) then None else read_full length r.

Section DecodeParts.
Variable decodeValue : bytes -> option (value * bytes).

(** The array loop. *)
Fixpoint decodeElements (n : nat) (r : bytes) : option (list value * bytes) :=
  match n with
  | O => Some ([], r)
  | S n =>
      let? (v, r) := decodeValue r in
      let? (rest, r) := decodeElements n r in
      Some (v :: rest, r)
  end.

(** The object loop; [d] holds the fields read so far. *)
Fixpoint decodeFields (n : nat) (d : document) (previous r : bytes) : option (document * bytes) :=
  match n with
  | O => Some (d, r)
  | S n =>
      let? (key, r) := readString16 r in
      if negb (validField key) || (negb (beqb previous []) && bleb key previous) then None
      else if (match field d key with Some _ => true | None => false end) then None
      else
        let? (v, r) := decodeValue r in
        decodeFields n (d ++ [(key, v)]) key r
  end.

Definition decodeObject_with (r : bytes) (depth : Z) : option (document * bytes) :=
  if 64 <? depth then None
  else
    let? (count, r) := readU32 r in
    if (1000000 <? count) || (zlen r / 4 <? count) then None
    else decodeFields (Z.to_nat count) [] [] r.
End DecodeParts.

(** The recursion is bounded by the depth check; [fuel] is at least the number
    of levels left ([decode_fuel] is enough from depth 0 on). *)
Fixpoint decodeValueBinary (fuel : nat) (r : bytes) (depth : Z) : option (value * bytes) :=
  match fuel with
  | O => None
  | S fuel =>
      if 64 <? depth then None
      else
        let? (kind, r) := readByte r in
        if 9 <? b2z kind then None
        else
          match b2z kind with
          | 0 => Some (VNull, r)
          | 1 =>
              let? (value, r) := readByte r in
              if 1 <? b2z value then None else Some (VBool (b2z value =? 1), r)
          | 2 => let? (value, r) := readU64 r in Some (VInt (to_i64 value), r)
          | 3 =>
              let? (bits, r) := readU64 r in
              if is_nan bits || is_inf bits then None else Some (VFloat bits, r)
          | 4 =>
              let? (value, r) := readBytes32 r (64 * 2 ^ 20) in
              if negb (utf8_valid value) then None else Some (VString value, r)
          | 5 => let? (value, r) := readBytes32 r (64 * 2 ^ 20) in Some (VBinary value, r)
          | 6 => let? (value, r) := readU64 r in Some (VTime (to_i64 value), r)
          | 7 =>
              let? (count, r) := readU32 r in
              if (10000000 <? count) || (zlen r <? count) then None
              else
                let? (values, r) :=
                  decodeElements (fun r => decodeValueBinary fuel r (depth + 1)) (Z.to_nat count) r in
                Some (VArray values, r)
          | 8 =>
              let? (d, r) :=
                decodeObject_with (fun r => decodeValueBinary fuel r (depth + 2)) r (depth + 1) in
              Some (VObject false d, r)
          | _ =>
              let? (id, r) := read_full 16 r in
              if all_zero id then None else Some (VID id, r)
          end
  end.

Definition decode_fuel : nat := 66.

Definition decodeObjectBinary (fuel : nat) (r : bytes) (depth : Z) : option (document * bytes) :=
  decodeObject_with (fun r => decodeValueBinary fuel r (depth + 1)) r depth.

(** The one error is [ErrCorrupt]. *)
Definition decodeDocumentBinary (data : bytes) : option document :=
  let? (d, r) := decodeObjectBinary decode_fuel data 0 in
  if negb (zlen r =? 0) then None else Some d.

(** ** Sizes ([document_size.go]) *)

Section ObjectSize.
Variable valueSize : value -> Z -> result Z.

(** The field loop, [total] so far. *)
Fixpoint sizeFields (d : document) (depth total : Z) : result Z :=
  match d with
  | [] => Ok total
  | (key, v) :: d =>
      if negb (validField key) then Err ErrInvalidDocument
      else if MaxUint16 <? zlen key then Err ErrInvalidDocument
      else
        let* size := valueSize v (depth + 1) in
        let add := 2 + zlen key in
        if (MaxUint64 - total <? add) || (MaxUint64 - total - add <? size) then
          Err ErrInvalidDocument
        else sizeFields d depth (total + (add + size))
  end.

Definition objectSize_with (d : document) (depth : Z) : result Z :=
  if (64 <? depth) || (MaxUint32 <? zlen d) then Err ErrInvalidDocument
  else sizeFields d depth 4.

(** The array loop. *)
Fixpoint sizeElements (a : list value) (depth total : Z) : result Z :=
  match a with
  | [] => Ok total
  | item :: a =>
      let* size := valueSize item (depth + 1) in
      if MaxUint64 - total <? size then Err ErrInvalidDocument
      else sizeElements a depth (total + size)
  end.
End ObjectSize.

Fixpoint canonicalValueSize (v : value) (depth : Z) : result Z :=
  if 64 <? depth then Err ErrInvalidDocument
  else
    match v with
    | VNull => Ok 1
    | VBool _ => Ok 2
    | VInt _ | VTime _ => Ok 9
    | VFloat f => if is_nan f || is_inf f then Err ErrInvalidDocument else Ok 9
    | VID _ => Ok 17
    | VString s =>
        if negb (utf8_valid s) || (MaxUint32 <? zlen s) then Err ErrInvalidDocument
        else Ok (5 + zlen s)
    | VBinary b => if MaxUint32 <? zlen b then Err ErrInvalidDocument else Ok (5 + zlen b)
    | VObject _ d =>
        let* size := objectSize_with canonicalValueSize d (depth + 1) in
        Ok (to_u64 (size + 1))
    | VArray a =>
        if MaxUint32 <? zlen a then Err ErrInvalidDocument
        else sizeElements canonicalValueSize a depth 5
    end.

Definition canonicalDocumentSize (d : document) : result Z := objectSize_with canonicalValueSize d 0.

(** ** The storage envelope ([storage_document_codec.go]) *)

Definition storedDocumentVersion : Z := 1.
Definition storedDocumentHeader : Z := 24.
Definition maxStoredDocumentBody : Z := 64 * 1024 * 1024.
Definition storedDocumentMagic : bytes := bs "MELDDOC2".

Definition encodeStoredDocument (d : document) : result bytes :=
  let* body := encodeDocumentBinary d in
  if maxStoredDocumentBody <? zlen body then Err ErrInvalidDocument
  else
    let encoded := zeros (storedDocumentHeader + zlen body) in
    let encoded := put encoded 0 storedDocumentMagic in
    let encoded := put encoded 8 (le_enc 2 storedDocumentVersion) in
    let encoded := put encoded 10 (le_enc 2 storedDocumentHeader) in
    let encoded := put encoded 16 (le_enc 4 (zlen body)) in
    let encoded := put encoded 20 (le_enc 4 (zlen body)) in
    Ok (put encoded storedDocumentHeader body).

Definition storedDocumentBody (encoded : bytes) : option bytes :=
  if (zlen encoded <? storedDocumentHeader)
     || negb (beqb (sub encoded 0 8) storedDocumentMagic)
     || negb (le_dec (sub encoded 8 10) =? storedDocumentVersion)
     || negb (le_dec (sub encoded 10 12) =? storedDocumentHeader)
     || negb (le_dec (sub encoded 12 16) =? 0) then None
  else
    let logical := le_dec (sub encoded 16 20) in
    let stored := le_dec (sub encoded 20 24) in
    if negb (logical =? stored) || (maxStoredDocumentBody <? stored)
       || negb (stored =? zlen encoded - storedDocumentHeader) then None
    else Some (sub encoded storedDocumentHeader (zlen encoded)).

Definition decodeStoredDocument (encoded : bytes) : option document :=
  let? body := storedDocumentBody encoded in
  let? d := decodeDocumentBinary body in
  if negb (Validate d) then None else Some d.

(** ** Canonical documents *)

(** Objects with their fields in key order: the form every encoding has. *)
Fixpoint canon (v : value) : value :=
  match v with
  | VArray a => VArray (canon <$> a)
  | VObject _ d => VObject false (sort_fields (prod_map id canon <$> d))
  | v => v
  end.

Definition canon_document (d : document) : document := sort_fields (prod_map id canon <$> d).

(** Two Go maps with the same bindings, whatever their iteration order. *)
Definition same_document (d e : document) : Prop := canon_document d = canon_document e.

#[export] Instance same_document_equiv : Equivalence same_document.
Proof. unfold same_document. constructor; congruence. Qed.

(** What the reader bounds and the writer does not. *)
Fixpoint within_limits (v : value) : Prop :=
  match v with
  | VString s => zlen s <= 64 * 2 ^ 20
  | VBinary b => zlen b <= 64 * 2 ^ 20
  | VID id => all_zero id = false
  | VArray a => zlen a <= 10000000 /\ fold_right (fun v P => within_limits v /\ P) True a
  | VObject _ d => zlen d <= 1000000 /\ fold_right (fun kv P => within_limits kv.2 /\ P) True d
  | _ => True
  end.

Lemma within_limits_array a :
  within_limits (VArray a) <-> zlen a <= 10000000 /\ Forall within_limits a.
Proof. simpl. by rewrite (fold_right_Forall within_limits). Qed.

Lemma within_limits_object isNil d :
  within_limits (VObject isNil d) <-> zlen d <= 1000000 /\ Forall (fun kv => within_limits kv.2) d.
Proof. simpl. by rewrite (fold_right_Forall (fun kv => within_limits kv.2)). Qed.
