(* ===== verification/DocumentRoundtrip.v ===== *)
(** * The document codec: round trips and sizes

    Decoding inverts encoding up to field order, accepts only canonical
    encodings, and the computed size is the encoded size. *)
From S2P Require Import Prelude Bytes Strings Layout Entries Float64 Values Documents DocumentCodec.

(** ** Readers invert writers *)

Lemma read_uint_le n k v r :
  n = Z.of_nat k -> 0 <= v < 256 ^ n -> read_uint n (le_enc k v ++ r) = Some (v, r).
Proof.
  intros -> Hv. unfold read_uint.
  rewrite read_full_app by apply zlen_le_enc. cbn. by rewrite le_dec_enc.
Qed.

Lemma zlen_writeU32 v : zlen (writeU32 v) = 4.
Proof. apply zlen_le_enc. Qed.
Lemma zlen_writeU64 v : zlen (writeU64 v) = 8.
Proof. apply zlen_le_enc. Qed.
#[export] Hint Rewrite zlen_writeU32 zlen_writeU64 : zlen.

Lemma readU16_write v r : 0 <= v <= MaxUint16 -> readU16 (writeU16 v ++ r) = Some (v, r).
Proof. intros. apply read_uint_le; [done|]. unfold MaxUint16 in *. change (256 ^ 2) with 65536. lia. Qed.

Lemma readU32_write v r : 0 <= v <= MaxUint32 -> readU32 (writeU32 v ++ r) = Some (v, r).
Proof.
  intros. apply read_uint_le; [done|]. unfold MaxUint32 in *. change (256 ^ 4) with (2 ^ 32). lia.
Qed.

Lemma readU64_write v r : u64 v -> readU64 (writeU64 v ++ r) = Some (v, r).
Proof. intros. apply read_uint_le; [done|]. done. Qed.

Lemma read_uint_inv n k v r r' :
  n = Z.of_nat k -> read_uint n r = Some (v, r') ->
  r = le_enc k v ++ r' /\ 0 <= v < 256 ^ n.
Proof.
  intros -> H. unfold read_uint in H. inv_ok. destruct a as [data r1].
  apply read_full_spec in Hok as [-> Hl]; [|lia]. injection H as <- <-.
  assert (Hk : length data = k) by (unfold zlen in Hl; lia). split.
  - by rewrite le_enc_dec.
  - rewrite <- Hl. apply le_dec_range.
Qed.

Lemma readString16_write v r out :
  writeString16 v = Ok out -> readString16 (out ++ r) = Some (v, r).
Proof.
  unfold writeString16, readString16. destruct (Z.ltb_spec MaxUint16 (zlen v)); [done|].
  intros <-%Ok_inj. rewrite <- app_assoc, readU16_write by (pose proof (zlen_nonneg v); lia).
  cbn. by apply read_full_app.
Qed.

Lemma readBytes32_write v r out max :
  zlen v <= max -> writeBytes32 v = Ok out -> readBytes32 (out ++ r) max = Some (v, r).
Proof.
  unfold writeBytes32, readBytes32. intros Hm. destruct (Z.ltb_spec MaxUint32 (zlen v)); [done|].
  intros <-%Ok_inj. rewrite <- app_assoc, readU32_write by (pose proof (zlen_nonneg v); lia).
  cbn [obind]. rewrite zlen_app. pose proof (zlen_nonneg r).
  destruct (Z.ltb_spec max (zlen v)); [lia|].
  destruct (Z.ltb_spec (zlen v + zlen r) (zlen v)); [lia|]. cbn. by apply read_full_app.
Qed.

Lemma readString16_inv v r r' :
  readString16 r = Some (v, r') ->
  r = writeU16 (zlen v) ++ v ++ r' /\ zlen v <= MaxUint16.
Proof.
  unfold readString16. intros H. inv_ok. destruct a as [n r1].
  apply (read_uint_inv 2 2) in Hok as [-> Hn]; [|done].
  apply read_full_spec in H as [-> <-]; [|lia]. split; [done|].
  unfold MaxUint16. change (256 ^ 2) with 65536 in Hn. lia.
Qed.

Lemma readBytes32_inv v r r' max :
  readBytes32 r max = Some (v, r') ->
  r = writeU32 (zlen v) ++ v ++ r' /\ zlen v <= max /\ zlen v <= MaxUint32.
Proof.
  unfold readBytes32. intros H. inv_ok. destruct a as [n r1].
  apply (read_uint_inv 4 4) in Hok as [-> Hn]; [|done].
  destruct ((max <? n) || (zlen r1 <? n)) eqn:E; [done|]. breflect.
  apply read_full_spec in H as [-> <-]; [|lia]. split; [done|].
  unfold MaxUint32. change (256 ^ 4) with (2 ^ 32) in Hn. lia.
Qed.

(** ** Encodings do not depend on field order *)

Lemma canon_object isNil d : canon (VObject isNil d) = VObject false (canon_document d).
Proof. done. Qed.

Lemma kind_canon v : Kind (canon v) = Kind v.
Proof. by destruct v. Qed.

(** The fields the encoder writes, in order. *)
Lemma encode_fields_sorted enc (d : document) depth :
  sort_fields (map (fun kv => (kv.1, enc kv.2 (depth + 1))) d) =
  map (fun kv => (kv.1, enc kv.2 (depth + 1))) (sort_fields d) :> list (bytes * result bytes).
Proof.
  pose proof (fmap_sort_fields (fun v : value => enc v (depth + 1) : result bytes) d) as H.
  assert (Hm : forall l : document, prod_map id (fun v => enc v (depth + 1)) <$> l =
    map (fun kv => (kv.1, enc kv.2 (depth + 1) : result bytes)) l).
  { intros l. apply list_fmap_ext. by intros _ [k v] _. }
  by rewrite !Hm in H.
Qed.

(** Every encoding starts with its kind byte. *)
Lemma encodeValueBinary_head v depth out :
  encodeValueBinary v depth = Ok out -> exists body, out = z2b (kind_code (Kind v)) :: body.
Proof.
  intros H. destruct v; cbn [encodeValueBinary] in H;
    destruct (64 <? depth); try done; inv_ok; subst out; eauto.
Qed.

Lemma encodeValueBinary_nonempty v depth out :
  encodeValueBinary v depth = Ok out -> 1 <= zlen out.
Proof.
  intros [body ->]%encodeValueBinary_head.
  rewrite zlen_cons. pose proof (zlen_nonneg body). lia.
Qed.

Lemma encodeField_inv kv part :
  encodeField kv = Ok part ->
  exists key body, writeString16 kv.1 = Ok key /\ kv.2 = Ok body /\ part = key ++ body.
Proof. unfold encodeField. intros H. inv_ok. eauto. Qed.

Lemma writeString16_inv v out :
  writeString16 v = Ok out -> out = writeU16 (zlen v) ++ v /\ zlen v <= MaxUint16.
Proof.
  unfold writeString16. destruct (Z.ltb_spec MaxUint16 (zlen v)); [done|].
  intros <-%Ok_inj. done.
Qed.

(** The concatenated fields are at least four bytes each. *)
Lemma fields_length_bound (l : document) (enc : value -> Z -> result bytes) depth parts :
  (forall v out, enc v depth = Ok out -> 1 <= zlen out) ->
  forallb (fun kv => validField kv.1) l = true ->
  seqR (map encodeField (map (fun kv => (kv.1, enc kv.2 depth)) l)) = Ok parts ->
  4 * zlen l <= zlen (concat parts).
Proof.
  intros Henc. revert parts; induction l as [|[k v] l IH]; intros parts Hk Hs; simpl in *.
  { injection Hs as <-. done. }
  inv_ok. subst parts. breflect. simpl. specialize (IH _ H0 Hok0).
  apply encodeField_inv in Hok as (key & body & Hkey & Hbody & ->). simpl in *.
  apply writeString16_inv in Hkey as [-> _]. apply Henc in Hbody.
  apply validField_nonempty in H. unfold writeU16.
  rewrite zlen_cons, !zlen_app, zlen_le_enc. lia.
Qed.

Lemma elements_length_bound (l : list value) (enc : value -> Z -> result bytes) depth parts :
  (forall v out, enc v depth = Ok out -> 1 <= zlen out) ->
  seqR (map (fun v => enc v depth) l) = Ok parts -> zlen l <= zlen (concat parts).
Proof.
  intros Henc. revert parts; induction l as [|v l IH]; intros parts Hs; simpl in *.
  { injection Hs as <-. done. }
  inv_ok. subst parts. specialize (IH _ Hok0). apply Henc in Hok.
  simpl. rewrite zlen_cons, zlen_app. lia.
Qed.

(** ** Decoding an encoding *)

(** [v] reads back from any successful encoding of it. *)
Definition reads_back (v : value) : Prop := forall depth k out fuel r,
  machine_ok v -> within_limits v -> validateNested v k = true -> 0 <= depth ->
  encodeValueBinary v depth = Ok out -> (Z.to_nat (65 - depth) < fuel)%nat ->
  decodeValueBinary fuel (out ++ r) depth = Some (canon v, r).

Lemma decodeElements_encoded (a : list value) enc dec parts r :
  Forall (fun v => forall out r, enc v = Ok out -> dec (out ++ r) = Some (canon v, r)) a ->
  seqR (map enc a) = Ok parts ->
  decodeElements dec (length a) (concat parts ++ r) = Some (canon <$> a, r).
Proof.
  intros Ha. revert parts; induction Ha as [|v a Hv Ha IH]; intros parts Hs; simpl in *.
  { apply Ok_inj in Hs as <-. done. }
  inv_ok. subst parts. simpl. rewrite <- app_assoc, (Hv _ _ Hok). simpl.
  by rewrite (IH _ Hok0).
Qed.

Lemma decodeFields_encoded (l : document) enc dec parts acc previous r :
  Forall (fun kv => forall out r, enc kv.2 = Ok out -> dec (out ++ r) = Some (canon kv.2, r)) l ->
  forallb (fun kv => validField kv.1) l = true ->
  sorted_keys l -> (previous = [] \/ Forall (blt previous) l.*1) ->
  Forall (fun x => Forall (blt x) l.*1) acc.*1 ->
  seqR (map encodeField (map (fun kv => (kv.1, enc kv.2)) l)) = Ok parts ->
  decodeFields dec (length l) acc previous (concat parts ++ r) =
    Some (acc ++ (prod_map id canon <$> l), r).
Proof.
  intros Hl. revert parts acc previous.
  induction Hl as [|[k v] l Hv Hl IH]; intros parts acc previous Hval Hs Hp Hacc Hq;
    cbn [map seqR length decodeFields] in *.
  { apply Ok_inj in Hq as <-. simpl. by rewrite app_nil_r. }
  inv_ok. subst parts. cbn [forallb] in Hval. apply andb_true_iff in Hval as [Hk Hval].
  apply sorted_keys_cons in Hs as [Hs Hkl].
  apply encodeField_inv in Hok as (key & body & Hkey & Hbody & ->). cbn [fst snd] in *.
  cbn [concat]. rewrite <- !app_assoc, (readString16_write _ _ _ Hkey). cbn [obind].
  rewrite Hk. cbn [negb orb].
  assert (negb (beqb previous []) && bleb k previous = false) as ->.
  { destruct Hp as [->|Hp]; [by rewrite beqb_refl|]. apply Forall_cons in Hp as [Hp _].
    apply andb_false_iff. right. by apply bleb_gt. }
  assert (field acc k = None) as ->.
  { apply field_None. intros Hin. rewrite Forall_forall in Hacc.
    apply Hacc, Forall_cons in Hin as [Hin _]. by apply blt_irrefl in Hin. }
  rewrite (Hv _ _ Hbody). cbn [obind]. erewrite (IH _ _ k); [|done|done|by right| |done].
  - by rewrite <- app_assoc.
  - rewrite fmap_app, Forall_app. split.
    + eapply Forall_impl; [exact Hacc|]. intros x Hx. by apply Forall_cons in Hx as [_ Hx].
    + by repeat constructor.
Qed.

Lemma Forall_sort_fields {A} (P : bytes * A -> Prop) l :
  NoDup l.*1 -> Forall P l -> Forall P (sort_fields l).
Proof. intros H Hl. apply (Permutation_Forall (Permutation_sym (sort_fields_Permutation l H)) Hl). Qed.

(** A successful object encoding, as the fields it writes. *)
Lemma encodeObject_inv enc d depth out :
  NoDup d.*1 -> encodeObject_with enc d depth = Ok out ->
  depth <= 64 /\ zlen d <= MaxUint32 /\
  forallb (fun kv => validField kv.1) (sort_fields d) = true /\
  exists parts,
    seqR (map encodeField (map (fun kv => (kv.1, enc kv.2 (depth + 1))) (sort_fields d))) = Ok parts /\
    out = writeU32 (zlen d) ++ concat parts.
Proof.
  intros Hnd. unfold encodeObject_with.
  destruct ((64 <? depth) || (MaxUint32 <? zlen d)) eqn:E; [done|]. breflect.
  destruct (forallb _ d) eqn:Ev; [|done]. cbn [negb]. intros He. inv_ok. subst out.
  rewrite encode_fields_sorted in Hok.
  rewrite (forallb_Permutation _ _ _ (sort_fields_Permutation d Hnd)). eauto 10.
Qed.

Lemma decodeObject_encoded enc dec d depth out r :
  NoDup d.*1 -> zlen d <= 1000000 ->
  (forall v depth out, enc v depth = Ok out -> 1 <= zlen out) ->
  Forall (fun kv => forall out r,
    enc kv.2 (depth + 1) = Ok out -> dec (out ++ r) = Some (canon kv.2, r)) d ->
  encodeObject_with enc d depth = Ok out ->
  decodeObject_with dec (out ++ r) depth = Some (canon_document d, r).
Proof.
  intros Hnd Hlim Hpos Hd He.
  destruct (encodeObject_inv _ _ _ _ Hnd He) as (Hdep & Hlen & Hval & parts & Hs & ->).
  unfold decodeObject_with. destruct (Z.ltb_spec 64 depth); [lia|].
  pose proof (zlen_nonneg d). rewrite <- app_assoc, readU32_write by lia. cbn [obind].
  destruct (Z.ltb_spec 1000000 (zlen d)); [lia|]. cbn [orb].
  assert (Hb : 4 * zlen d <= zlen (concat parts)).
  { rewrite <- (zlen_sort_fields d Hnd). eapply (fields_length_bound _ enc (depth + 1)); eauto. }
  rewrite zlen_app. pose proof (zlen_nonneg r).
  assert (zlen d <= (zlen (concat parts) + zlen r) / 4) by (apply Z.div_le_lower_bound; lia).
  destruct (Z.ltb_spec ((zlen (concat parts) + zlen r) / 4) (zlen d)); [lia|].
  replace (Z.to_nat (zlen d)) with (length (sort_fields d))
    by (rewrite <- (zlen_sort_fields d Hnd); unfold zlen; lia).
  rewrite (decodeFields_encoded (sort_fields d) (fun v => enc v (depth + 1))); try done.
  - unfold canon_document. by rewrite fmap_sort_fields.
  - by apply Forall_sort_fields.
  - apply sorted_sort_fields.
  - by left.
Qed.

Lemma value_reads_back v : reads_back v.
Proof.
  induction v using value_nested_ind; intros depth k out fuel r Hm Hl Hv Hd He Hf;
    (destruct fuel as [|fuel]; [lia|]); cbn [encodeValueBinary decodeValueBinary] in *;
    destruct (Z.ltb_spec 64 depth); try done; inv_ok; subst out; cbn [readByte app obind].
  all: rewrite z2b_small by (cbn; lia); cbn -[Z.div canon].
  - by subst a.
  - subst a. by destruct b.
  - subst a. rewrite readU64_write by apply to_u64_range. cbn. by rewrite to_i64_to_u64.
  - destruct (is_nan f || is_inf f) eqn:E; [done|]. inv_ok. subst a.
    rewrite readU64_write by done. cbn. by rewrite E.
  - rewrite (readBytes32_write _ _ _ _ Hl Hok). cbn in Hv |- *. by rewrite Hv.
  - by rewrite (readBytes32_write _ _ _ _ Hl Hok).
  - subst a. rewrite readU64_write by apply to_u64_range. cbn. by rewrite to_i64_to_u64.
  - apply within_limits_array in Hl as [Hn Hl]. apply machine_ok_array in Hm.
    destruct (Z.ltb_spec MaxUint32 (zlen a)); [done|]. inv_ok. subst a0.
    pose proof (zlen_nonneg a). rewrite <- app_assoc, readU32_write by lia. cbn [obind].
    assert (zlen a <= zlen (concat a1)).
    { eapply (elements_length_bound a encodeValueBinary (depth + 1)); [|exact Hok0]. intros ? ?.
      apply encodeValueBinary_nonempty. }
    rewrite zlen_app. pose proof (zlen_nonneg r).
    destruct (Z.ltb_spec 10000000 (zlen a)); [lia|]. cbn [orb].
    destruct (Z.ltb_spec (zlen (concat a1) + zlen r) (zlen a)); [lia|].
    replace (Z.to_nat (zlen a)) with (length a) by (unfold zlen; lia).
    cbn in Hv. unfold validateArray_with in Hv. destruct (64 <? k + 1); [done|].
    rewrite (decodeElements_encoded a (fun v => encodeValueBinary v (depth + 1))); [done| |done].
    rewrite Forall_forall in *. intros v Hin out r' Hout. apply forallb_forall with (x := v) in Hv.
    2: by apply list_elem_of_In.
    eapply (H v Hin); eauto. lia. lia.
  - apply within_limits_object in Hl as [Hn Hl]. apply machine_ok_object in Hm as [Hnd Hm].
    cbn in Hv. unfold validateDocument_with in Hv. destruct (64 <? k + 1); [done|].
    rewrite (decodeObject_encoded encodeValueBinary
      (fun r => decodeValueBinary fuel r (depth + 2)) d (depth + 1)); try done.
    { apply encodeValueBinary_nonempty. }
    replace (depth + 1 + 1) with (depth + 2) by lia.
    rewrite Forall_forall in *. intros kv Hin out r' Hout.
    apply forallb_forall with (x := kv) in Hv; [|by apply list_elem_of_In].
    apply andb_true_iff in Hv as [_ Hv]. eapply (H kv Hin); eauto. lia.
    destruct (encodeObject_inv _ _ _ _ Hnd Hok) as (? & _). lia.
  - subst a. cbn in Hm, Hl. rewrite read_full_app by done. cbn. by rewrite Hl.
Qed.

(** ** Canonical forms have the same encoding *)

Lemma zlen_canon_document d : NoDup d.*1 -> zlen (canon_document d) = zlen d.
Proof.
  intros H. unfold canon_document. rewrite zlen_sort_fields by (by rewrite fst_prod_map).
  unfold zlen. by rewrite length_fmap.
Qed.

Lemma canon_document_keys d : NoDup d.*1 -> Permutation (canon_document d).*1 d.*1.
Proof.
  intros H. unfold canon_document.
  rewrite sort_fields_Permutation by (by rewrite fst_prod_map). by rewrite fst_prod_map.
Qed.

Lemma forallb_keys (P : bytes -> bool) (l : document) :
  forallb (fun kv => P kv.1) l = forallb P l.*1.
Proof. induction l as [|[k v] l IH]; cbn; [done|by rewrite <- IH]. Qed.

Lemma encodeObject_canon enc d depth :
  NoDup d.*1 -> Forall (fun kv => enc (canon kv.2) (depth + 1) = enc kv.2 (depth + 1)) d ->
  encodeObject_with enc (canon_document d) depth = encodeObject_with enc d depth.
Proof.
  intros Hnd Hd. unfold encodeObject_with. rewrite zlen_canon_document by done.
  rewrite !forallb_keys, (forallb_Permutation _ _ _ (canon_document_keys d Hnd)).
  rewrite !encode_fields_sorted.
  assert (map (fun kv => (kv.1, enc kv.2 (depth + 1))) (sort_fields (canon_document d)) =
    map (fun kv => (kv.1, enc kv.2 (depth + 1))) (sort_fields d)) as ->; [|done].
  rewrite sort_fields_sorted by apply sorted_sort_fields.
  unfold canon_document. rewrite <- fmap_sort_fields.
  pose proof (Forall_sort_fields _ d Hnd Hd) as Hs.
  induction Hs as [|[k v] l Hv Hl IH]; [done|]. cbn [fmap list_fmap map prod_map fst snd id].
  cbn [snd] in Hv. by rewrite Hv, IH.
Qed.

Lemma encode_canon v depth :
  machine_ok v -> encodeValueBinary (canon v) depth = encodeValueBinary v depth.
Proof.
  revert depth. induction v using value_nested_ind; intros depth Hm; try done.
  - apply machine_ok_array in Hm. cbn [canon encodeValueBinary Kind].
    replace (zlen (canon <$> a)) with (zlen a) by (unfold zlen; by rewrite length_fmap).
    assert (map (fun item => encodeValueBinary item (depth + 1)) (canon <$> a) =
      map (fun item => encodeValueBinary item (depth + 1)) a) as ->; [|done].
    revert Hm. induction H as [|v l Hv Hl IH]; intros Hm; [done|].
    apply Forall_cons in Hm as [Hm1 Hm2]. cbn [fmap list_fmap map]. by rewrite Hv, IH.
  - apply machine_ok_object in Hm as [Hnd Hm]. rewrite canon_object.
    cbn [encodeValueBinary Kind]. rewrite encodeObject_canon; [done..|].
    rewrite Forall_forall in *. intros kv Hin. apply H; auto.
Qed.

Lemma validate_canon_document_of nested d depth :
  NoDup d.*1 -> Forall (fun kv => nested (canon kv.2) depth = nested kv.2 depth) d ->
  validateDocument_with nested (canon_document d) depth = validateDocument_with nested d depth.
Proof.
  intros Hnd Hd. rewrite (validateDocument_Permutation _ _ (prod_map id canon <$> d)).
  2: { apply sort_fields_Permutation. by rewrite fst_prod_map. }
  unfold validateDocument_with. destruct (64 <? depth); [done|].
  clear Hnd. induction Hd as [|[k v] l Hv Hl IH]; [done|].
  cbn in Hv |- *. by rewrite Hv, IH.
Qed.

Lemma validate_canon v depth : machine_ok v -> validateNested (canon v) depth = validateNested v depth.
Proof.
  revert depth. induction v using value_nested_ind; intros depth Hm; try done.
  - apply machine_ok_array in Hm. cbn [canon validateNested]. unfold validateArray_with.
    destruct (64 <? depth + 1); [done|]. revert Hm.
    induction H as [|v l Hv Hl IH]; intros Hm; [done|].
    apply Forall_cons in Hm as [Hm1 Hm2]. cbn. by rewrite Hv, IH.
  - apply machine_ok_object in Hm as [Hnd Hm]. rewrite canon_object. cbn [validateNested].
    apply validate_canon_document_of; [done|]. rewrite Forall_forall in *. auto.
Qed.

Lemma validate_canon_document d depth :
  machine_ok (VObject false d) -> validateDocument (canon_document d) depth = validateDocument d depth.
Proof.
  intros [Hnd Hm]%machine_ok_object. apply validate_canon_document_of; [done|].
  eapply Forall_impl; [exact Hm|]. intros kv Hkv. by apply validate_canon.
Qed.

(** ** Decoding accepts only canonical encodings *)

(** What the reader has checked of a value read at [depth]. *)
Definition canonical_at (depth : Z) (v : value) : Prop :=
  canon v = v /\ machine_ok v /\ within_limits v /\
  forall k, k < depth -> validateNested v k = true.

Definition sound_reader (enc : value -> result bytes) (depth : Z)
    (dec : bytes -> option (value * bytes)) : Prop :=
  forall r v r', dec r = Some (v, r') ->
    canonical_at depth v /\ exists out, enc v = Ok out /\ r = out ++ r'.

Lemma decodeElements_sound enc depth dec n r l r' :
  sound_reader enc depth dec -> decodeElements dec n r = Some (l, r') ->
  length l = n /\ Forall (canonical_at depth) l /\
  exists parts, seqR (map enc l) = Ok parts /\ r = concat parts ++ r'.
Proof.
  intros Hd. revert r l; induction n as [|n IH]; intros r l H; simpl in H; inv_ok.
  { injection H as <- <-. repeat split; [constructor|]. by exists []. }
  destruct a as [v r1]. inv_ok. destruct a as [rest r2]. inv_ok. injection H as <- <-.
  apply Hd in Hok as (Hv & out & Hout & ->). apply IH in Hok0 as (<- & Hl & parts & Hp & ->).
  repeat split; [by constructor|]. exists (out :: parts). simpl. rewrite Hout. simpl.
  rewrite Hp. by rewrite <- app_assoc.
Qed.

Lemma decodeFields_sound enc depth dec n acc previous r d r' :
  sound_reader enc depth dec -> decodeFields dec n acc previous r = Some (d, r') ->
  exists l parts, d = acc ++ l /\ length l = n /\ sorted_keys l /\
    (previous = [] \/ Forall (blt previous) l.*1) /\
    Forall (fun kv => validField kv.1 = true /\ canonical_at depth kv.2) l /\
    seqR (map encodeField (map (fun kv => (kv.1, enc kv.2)) l)) = Ok parts /\
    r = concat parts ++ r'.
Proof.
  intros Hd. revert acc previous r; induction n as [|n IH]; intros acc previous r H;
    cbn [decodeFields] in H.
  { apply Some_injective in H. injection H as <- <-. exists [], []. rewrite app_nil_r.
    split; [done|]. split; [done|]. split; [apply sorted_keys_nil|].
    split; [right; constructor|]. by split; [constructor|]. }
  inv_ok. destruct a as [key r1].
  destruct (negb (validField key) || _) eqn:Ec; [done|]. breflect.
  destruct (field acc key) eqn:Ef; [done|]. inv_ok. destruct a as [v r2].
  apply readString16_inv in Hok as [-> Hkl]. apply Hd in Hok0 as (Hv & out & Hout & ->).
  apply IH in H as (l & parts & -> & <- & Hs & Hp & Hl & Hseq & ->).
  destruct Hp as [->|Hp]; [by apply validField_nonempty in H0|].
  exists ((key, v) :: l), ((writeU16 (zlen key) ++ key ++ out) :: parts).
  rewrite <- app_assoc. split; [done|]. split; [done|].
  split; [by apply sorted_keys_cons|]. split.
  { apply andb_false_iff in H1 as [H1|H1]; breflect; [left; by apply beqb_eq|right].
    apply bleb_gt in H1. constructor; [done|]. eapply Forall_impl; [exact Hp|].
    intros x Hx. by eapply blt_trans. }
  split; [by constructor|]. cbn [map seqR fst snd]. unfold encodeField at 1.
  unfold writeString16. cbn [fst snd]. destruct (Z.ltb_spec MaxUint16 (zlen key)); [lia|].
  cbn [rbind]. rewrite Hout. cbn [rbind]. rewrite Hseq. cbn [rbind concat].
  by rewrite <- !app_assoc.
Qed.

Lemma canon_id_fields (l : document) :
  Forall (fun kv => canon kv.2 = kv.2) l -> prod_map id canon <$> l = l.
Proof.
  induction 1 as [|[k v] l Hv Hl IH]; [done|]. cbn in Hv |- *. by rewrite Hv, IH.
Qed.

(** The object read is an object whose encoding was read. *)
Lemma decodeObject_sound enc depth dec r d r' :
  sound_reader (fun v => enc v (depth + 1)) (depth + 1) dec ->
  decodeObject_with dec r depth = Some (d, r') ->
  depth <= 64 /\ canon_document d = d /\ machine_ok (VObject false d) /\ within_limits (VObject false d) /\
  (forall k, k <= depth -> validateDocument d k = true) /\
  exists out, encodeObject_with enc d depth = Ok out /\ r = out ++ r'.
Proof.
  intros Hd H. unfold decodeObject_with in H. destruct (Z.ltb_spec 64 depth); [done|].
  inv_ok. destruct a as [count r1].
  apply (read_uint_inv 4 4) in Hok as [-> Hc]; [|done].
  destruct ((1000000 <? count) || (zlen r1 / 4 <? count)) eqn:E; [done|]. breflect.
  apply (decodeFields_sound (fun v => enc v (depth + 1)) (depth + 1)) in H; [|done].
  destruct H as (l & parts & -> & Hlen & Hs & _ & Hl & Hseq & ->). rewrite app_nil_l.
  assert (Hz : zlen l = count) by (unfold zlen; lia). subst count.
  pose proof (sorted_keys_NoDup _ Hs) as Hnd. split; [lia|]. split.
  { unfold canon_document. rewrite canon_id_fields; [by apply sort_fields_sorted|].
    eapply Forall_impl; [exact Hl|]. by intros kv (_ & Hx & _). }
  split. { apply machine_ok_object. split; [done|].
    eapply Forall_impl; [exact Hl|]. by intros kv (_ & _ & Hx & _). }
  split. { apply within_limits_object. split; [lia|].
    eapply Forall_impl; [exact Hl|]. by intros kv (_ & _ & _ & Hx & _). }
  split. { intros k Hk. unfold validateDocument, validateDocument_with.
    destruct (Z.ltb_spec 64 k); [lia|]. apply forallb_forall. intros kv Hin.
    apply list_elem_of_In in Hin. rewrite Forall_forall in Hl.
    destruct (Hl kv Hin) as (-> & _ & _ & _ & Hx). apply Hx. lia. }
  exists (writeU32 (zlen l) ++ concat parts). split; [|by rewrite <- app_assoc].
  unfold encodeObject_with. destruct (Z.ltb_spec 64 depth); [lia|].
  unfold MaxUint32. destruct (Z.ltb_spec (2 ^ 32 - 1) (zlen l)); [lia|]. cbn [orb].
  replace (forallb _ l) with true.
  2: { symmetry. apply forallb_forall. intros kv Hin. apply list_elem_of_In in Hin.
       rewrite Forall_forall in Hl. by destruct (Hl kv Hin). }
  cbn [negb]. rewrite encode_fields_sorted, sort_fields_sorted by done.
  rewrite Hseq. done.
Qed.

(** The body of an encoding, after the kind byte. *)
Definition encodeBody (v : value) (depth : Z) : result bytes :=
  let* out := encodeValueBinary v depth in Ok (drop 1 out).

Lemma encodeBody_ok v depth body :
  encodeBody v depth = Ok body ->
  encodeValueBinary v depth = Ok (z2b (kind_code (Kind v)) :: body).
Proof.
  unfold encodeBody. intros H. inv_ok. subst body.
  by destruct (encodeValueBinary_head _ _ _ Hok) as [body ->].
Qed.

(** Leaves: what was read is the body of the value's encoding. *)
Lemma sound_leaf v depth kind body r' :
  z2b (kind_code (Kind v)) = kind -> canon v = v -> machine_ok v -> within_limits v ->
  (forall k, k < depth -> validateNested v k = true) -> encodeBody v depth = Ok body ->
  canonical_at depth v /\
  exists out, encodeValueBinary v depth = Ok out /\ kind :: body ++ r' = out ++ r'.
Proof.
  intros <- Hc Hm Hl Hv He. apply encodeBody_ok in He. split; [done|]. eauto.
Qed.

Ltac open_body :=
  unfold encodeBody; cbn [encodeValueBinary];
  match goal with |- context [64 <? ?d] => destruct (Z.ltb_spec 64 d); [lia|] end;
  cbn [rbind drop].

Lemma decodeArray_sound fuel depth kind r v r' :
  sound_reader (fun v => encodeValueBinary v (depth + 1)) (depth + 1)
    (fun r => decodeValueBinary fuel r (depth + 1)) ->
  0 <= depth <= 64 -> z2b 7 = kind ->
  (let? (count, r) := readU32 r in
   if (10000000 <? count) || (zlen r <? count) then None
   else
     let? (values, r) :=
       decodeElements (fun r => decodeValueBinary fuel r (depth + 1)) (Z.to_nat count) r in
     Some (VArray values, r)) = Some (v, r') ->
  canonical_at depth v /\
  exists out, encodeValueBinary v depth = Ok out /\ kind :: r = out ++ r'.
Proof.
  intros IH Hd Hk H. inv_ok. destruct a as [count r1].
  apply (read_uint_inv 4 4) in Hok as [-> Hc]; [|done].
  destruct ((10000000 <? count) || (zlen r1 <? count)) eqn:E; [done|]. breflect. inv_ok.
  destruct a as [l r2]. injection H as <- <-.
  apply (decodeElements_sound _ _ _ _ _ _ _ IH) in Hok as (Hlen & Hl & parts & Hp & ->).
  assert (zlen l = count) by (unfold zlen; lia). subst count.
  rewrite app_assoc. apply sound_leaf; [done|..].
  - cbn. f_equal. clear -Hl. induction Hl as [|x l Hx Hl IHl]; [done|].
    cbn. rewrite IHl. by destruct Hx as [-> _].
  - apply machine_ok_array. eapply Forall_impl; [exact Hl|]. by intros ? (_ & ? & _).
  - apply within_limits_array. split; [lia|].
    eapply Forall_impl; [exact Hl|]. by intros ? (_ & _ & ? & _).
  - intros k Hkd. cbn. unfold validateArray_with. destruct (Z.ltb_spec 64 (k + 1)); [lia|].
    apply forallb_forall. intros x Hin%list_elem_of_In. rewrite Forall_forall in Hl.
    destruct (Hl x Hin) as (_ & _ & _ & Hx). apply Hx. lia.
  - open_body. unfold MaxUint32. destruct (Z.ltb_spec (2 ^ 32 - 1) (zlen l)); [lia|].
    by rewrite Hp.
Qed.

Lemma decodeValue_sound fuel depth :
  0 <= depth ->
  sound_reader (fun v => encodeValueBinary v depth) depth
    (fun r => decodeValueBinary fuel r depth).
Proof.
  revert depth. induction fuel as [|fuel IH]; intros depth Hd0 r v r' H; [done|].
  cbn [decodeValueBinary] in H. destruct (Z.ltb_spec 64 depth) as [|Hd]; [done|].
  inv_ok. destruct a as [kind r1]. destruct r as [|b r]; [done|]. injection Hok as -> ->.
  destruct (Z.ltb_spec 9 (b2z kind)) as [|Hk]; [done|].
  pose proof (b2z_range kind) as Hr.
  assert (Hcase : b2z kind = 0 \/ b2z kind = 1 \/ b2z kind = 2 \/ b2z kind = 3 \/ b2z kind = 4 \/
    b2z kind = 5 \/ b2z kind = 6 \/ b2z kind = 7 \/ b2z kind = 8 \/ b2z kind = 9) by lia.
  assert (Hz : z2b (b2z kind) = kind) by apply z2b_b2z.
  destruct Hcase as [E|[E|[E|[E|[E|[E|[E|[E|[E|E]]]]]]]]]; rewrite E in H, Hz.
  - injection H as <- <-. apply (sound_leaf VNull depth kind [] r1); try done. by open_body.
  - inv_ok. destruct a as [value r2]. destruct r1 as [|b r1]; [done|]. injection Hok as -> ->.
    destruct (Z.ltb_spec 1 (b2z value)); [done|]. injection H as <- <-.
    apply (sound_leaf _ depth kind [value] r2); try done. open_body. do 2 f_equal.
    pose proof (b2z_range value). apply b2z_inj.
    destruct (Z.eqb_spec (b2z value) 1) as [->|]; [done|]. change (b2z x00) with 0. lia.
  - inv_ok. destruct a as [value r2]. injection H as <- <-. apply (read_uint_inv 8 8) in Hok as [-> Hv]; [|done].
    apply sound_leaf; try done; [by apply to_i64_range|]. open_body. by rewrite to_u64_to_i64.
  - inv_ok. destruct a as [value r2]. apply (read_uint_inv 8 8) in Hok as [-> Hv]; [|done].
    destruct (is_nan value || is_inf value) eqn:En; [done|]. injection H as <- <-.
    apply sound_leaf; try done; [intros; cbn; by rewrite En|]. open_body. by rewrite En.
  - inv_ok. destruct a as [value r2]. destruct (utf8_valid value) eqn:Eu; [|done].
    injection H as <- <-. apply readBytes32_inv in Hok as (-> & Hl1 & Hl2). rewrite app_assoc.
    apply sound_leaf; try done. open_body. unfold writeBytes32.
    destruct (Z.ltb_spec MaxUint32 (zlen value)); [lia|done].
  - inv_ok. destruct a as [value r2]. injection H as <- <-.
    apply readBytes32_inv in Hok as (-> & Hl1 & Hl2). rewrite app_assoc.
    apply sound_leaf; try done. open_body. unfold writeBytes32.
    destruct (Z.ltb_spec MaxUint32 (zlen value)); [lia|done].
  - inv_ok. destruct a as [value r2]. injection H as <- <-. apply (read_uint_inv 8 8) in Hok as [-> Hv]; [|done].
    apply sound_leaf; try done; [by apply to_i64_range|]. open_body. by rewrite to_u64_to_i64.
  - apply (decodeArray_sound fuel depth kind r1 v r'); [|lia|done|done]. apply IH. lia.
  - inv_ok. destruct a as [d r2]. injection H as <- <-.
    apply (decodeObject_sound encodeValueBinary) in Hok
      as (Hd1 & Hc & Hm & Hl & Hv & out & Ho & ->).
    2: { replace (depth + 1 + 1) with (depth + 2) by lia. apply IH. lia. }
    apply sound_leaf; try done.
    + cbn. f_equal. exact Hc.
    + intros k Hkd. apply (Hv (k + 1)). lia.
    + open_body. by rewrite Ho.
  - inv_ok. destruct a as [id r2]. destruct (all_zero id) eqn:Ez; [done|].
    injection H as <- <-. apply read_full_spec in Hok as [-> Hl]; [|lia].
    apply sound_leaf; try done. by open_body.
Qed.

(** ** Whole documents *)

(** A document a Go program can hold, within the bounds of the reader. *)
Definition storable (d : document) : Prop :=
  machine_ok (VObject false d) /\ within_limits (VObject false d).

Lemma encodeDocument_valid d data :
  encodeDocumentBinary d = Ok data -> Validate d = true /\ encodeObjectBinary d 0 = Ok data.
Proof. unfold encodeDocumentBinary. destruct (Validate d); [done|]. cbn. discriminate. Qed.

Lemma decode_encode_document d data r fuel :
  storable d -> encodeDocumentBinary d = Ok data -> (decode_fuel <= fuel)%nat ->
  decodeObjectBinary fuel (data ++ r) 0 = Some (canon_document d, r).
Proof.
  intros [Hm Hl] He Hf. apply encodeDocument_valid in He as [Hv He].
  apply machine_ok_object in Hm as [Hnd Hm]. apply within_limits_object in Hl as [Hn Hl].
  unfold decode_fuel in Hf.
  apply (decodeObject_encoded encodeValueBinary _ d 0); try done.
  { intros ? ? ?. apply encodeValueBinary_nonempty. }
  rewrite Forall_forall in *. intros kv Hin out r' Hout.
  unfold Validate, validateDocument, validateDocument_with in Hv. cbn [Z.ltb Z.compare] in Hv.
  apply forallb_forall with (x := kv) in Hv; [|by apply list_elem_of_In].
  apply andb_true_iff in Hv as [_ Hv].
  eapply value_reads_back; eauto; [lia|]. cbn. lia.
Qed.

Lemma encodeDocument_canon d :
  machine_ok (VObject false d) -> encodeDocumentBinary (canon_document d) = encodeDocumentBinary d.
Proof.
  intros Hm. pose proof Hm as [Hnd Hf]%machine_ok_object. unfold encodeDocumentBinary.
  assert (Validate (canon_document d) = Validate d) as ->.
  { unfold Validate, validateDocument. apply validate_canon_document. done. }
  destruct (Validate d); [|done]. cbn [negb]. apply encodeObject_canon; [done|].
  eapply Forall_impl; [exact Hf|]. intros kv Hkv. by apply encode_canon.
Qed.

Lemma decode_of_encode d data :
  storable d -> encodeDocumentBinary d = Ok data ->
  decodeDocumentBinary data = Some (canon_document d).
Proof.
  intros Hs He. unfold decodeDocumentBinary.
  pose proof (decode_encode_document d data [] decode_fuel Hs He (le_n _)) as H.
  rewrite app_nil_r in H. by rewrite H.
Qed.

Lemma encode_of_decode data d :
  decodeDocumentBinary data = Some d ->
  storable d /\ canon_document d = d /\ encodeDocumentBinary d = Ok data.
Proof.
  unfold decodeDocumentBinary. intros H. inv_ok. destruct a as [d' r].
  destruct (Z.eqb_spec (zlen r) 0) as [Hr|]; [|done]. injection H as ->.
  apply (decodeObject_sound encodeValueBinary) in Hok
    as (_ & Hc & Hm & Hl & Hv & out & Ho & ->); [|by apply decodeValue_sound].
  destruct r; [|pose proof (zlen_nonneg r); rewrite zlen_cons in Hr; lia]. rewrite app_nil_r.
  repeat split; [apply Hm|apply Hm|apply Hl|apply Hl|done|].
  unfold encodeDocumentBinary, Validate. by rewrite Hv by lia.
Qed.

Lemma encode_same d e :
  storable d -> storable e -> same_document d e -> encodeDocumentBinary d = encodeDocumentBinary e.
Proof.
  intros [Hd _] [He _] H. rewrite <- (encodeDocument_canon d Hd), <- (encodeDocument_canon e He).
  by f_equal.
Qed.

(** ** Sizes *)

Lemma seqR_Permutation {A} (l1 l2 : list (result A)) o1 :
  Permutation l1 l2 -> seqR l1 = Ok o1 -> exists o2, seqR l2 = Ok o2 /\ Permutation o1 o2.
Proof.
  intros Hp H. apply seqR_ok in H. subst l1. symmetry in Hp.
  apply Permutation_map_inv in Hp as (o2 & -> & Ho). exists o2. split; [|done].
  by apply seqR_ok.
Qed.

Lemma zlen_concat_Permutation (l1 l2 : list bytes) :
  Permutation l1 l2 -> zlen (concat l1) = zlen (concat l2).
Proof. induction 1; cbn [concat]; rewrite ?zlen_app in *; lia. Qed.

Section SizeAgrees.
Variables (enc : value -> Z -> result bytes) (size : value -> Z -> result Z).

(** [size] computes the length [enc] writes, when that length is a [uint64]. *)
Definition size_agrees (v : value) : Prop := forall depth out,
  enc v depth = Ok out -> zlen out <= MaxUint64 -> size v depth = Ok (zlen out).

Lemma sizeFields_agrees (d : document) depth parts total :
  Forall (fun kv => size_agrees kv.2) d ->
  forallb (fun kv => validField kv.1) d = true ->
  seqR (map encodeField (map (fun kv => (kv.1, enc kv.2 (depth + 1))) d)) = Ok parts ->
  0 <= total -> total + zlen (concat parts) <= MaxUint64 ->
  sizeFields size d depth total = Ok (total + zlen (concat parts)).
Proof.
  intros Hd. revert parts total; induction Hd as [|[k v] d Hv Hd IH]; intros parts total Hk Hs Ht Hb;
    cbn [map seqR forallb sizeFields fst snd] in *.
  { apply Ok_inj in Hs as <-. cbn [concat]. rewrite zlen_nil. f_equal. lia. }
  inv_ok. subst parts. breflect. rewrite H. cbn [negb].
  apply encodeField_inv in Hok as (key & body & Hkey & Hbody & ->). cbn [fst snd] in *.
  apply writeString16_inv in Hkey as [-> Hlen]. unfold writeU16 in *.
  cbn [concat] in *. rewrite !zlen_app, zlen_le_enc in *.
  pose proof (zlen_nonneg k). pose proof (zlen_nonneg body). pose proof (zlen_nonneg (concat a0)).
  destruct (Z.ltb_spec MaxUint16 (zlen k)); [lia|].
  rewrite (Hv _ _ Hbody) by lia. cbn [rbind].
  destruct (Z.ltb_spec (MaxUint64 - total) (2 + zlen k)); [lia|]. cbn [orb].
  destruct (Z.ltb_spec (MaxUint64 - total - (2 + zlen k)) (zlen body)); [lia|].
  rewrite (IH _ _ H0 Hok0) by lia. f_equal. lia.
Qed.

Lemma objectSize_agrees (d : document) depth out :
  NoDup d.*1 -> Forall (fun kv => size_agrees kv.2) d ->
  encodeObject_with enc d depth = Ok out -> zlen out <= MaxUint64 ->
  objectSize_with size d depth = Ok (zlen out).
Proof.
  intros Hnd Hd He Hb. destruct (encodeObject_inv _ _ _ _ Hnd He) as (Hdep & Hlen & Hk & parts & Hs & ->).
  unfold objectSize_with. destruct (Z.ltb_spec 64 depth); [lia|].
  destruct (Z.ltb_spec MaxUint32 (zlen d)); [lia|]. cbn [orb].
  rewrite (forallb_Permutation _ _ _ (sort_fields_Permutation d Hnd)) in Hk.
  destruct (seqR_Permutation _
    (map encodeField (map (fun kv => (kv.1, enc kv.2 (depth + 1))) d)) _
    ltac:(apply Permutation_map, Permutation_map, sort_fields_Permutation, Hnd) Hs)
    as (parts' & Hs' & Hp).
  apply zlen_concat_Permutation in Hp. unfold writeU32 in *.
  rewrite zlen_app, zlen_le_enc, Hp in *. apply sizeFields_agrees; [done..|lia|lia].
Qed.

Lemma sizeElements_agrees (a : list value) depth parts total :
  Forall size_agrees a ->
  seqR (map (fun v => enc v (depth + 1)) a) = Ok parts ->
  0 <= total -> total + zlen (concat parts) <= MaxUint64 ->
  sizeElements size a depth total = Ok (total + zlen (concat parts)).
Proof.
  intros Ha. revert parts total; induction Ha as [|v a Hv Ha IH]; intros parts total Hs Ht Hb;
    cbn [map seqR sizeElements] in *.
  { apply Ok_inj in Hs as <-. cbn [concat]. rewrite zlen_nil. f_equal. lia. }
  inv_ok. subst parts. cbn [concat] in *. rewrite zlen_app in *.
  pose proof (zlen_nonneg a0). pose proof (zlen_nonneg (concat a1)).
  rewrite (Hv _ _ Hok) by lia. cbn [rbind].
  destruct (Z.ltb_spec (MaxUint64 - total) (zlen a0)); [lia|].
  rewrite (IH _ _ Hok0) by lia. f_equal. lia.
Qed.
End SizeAgrees.

Lemma canonicalValueSize_agrees v k :
  machine_ok v -> validateNested v k = true ->
  size_agrees encodeValueBinary canonicalValueSize v.
Proof.
  revert k. induction v using value_nested_ind; intros k Hm Hv depth out He Hb;
    cbn [encodeValueBinary canonicalValueSize] in *; destruct (64 <? depth); try done;
    inv_ok; subst out; rewrite zlen_cons in *.
  - by subst a.
  - by subst a.
  - subst a. by zlens.
  - destruct (is_nan f || is_inf f); [done|]. inv_ok. subst a. by zlens.
  - cbn in Hv. rewrite Hv. cbn [negb orb]. unfold writeBytes32 in Hok.
    destruct (MaxUint32 <? zlen s); [done|]. apply Ok_inj in Hok as <-.
    zlens. f_equal. lia.
  - unfold writeBytes32 in Hok.
    destruct (MaxUint32 <? zlen b); [done|]. apply Ok_inj in Hok as <-.
    zlens. f_equal. lia.
  - subst a. by zlens.
  - destruct (MaxUint32 <? zlen a); [done|]. inv_ok. subst a0.
    zlens. apply machine_ok_array in Hm.
    rewrite (sizeElements_agrees encodeValueBinary _ a depth a1); [f_equal; lia| |done|lia|lia].
    cbn in Hv. unfold validateArray_with in Hv. destruct (64 <? k + 1); [done|].
    rewrite Forall_forall in *. intros v Hin. apply (H v Hin (k + 1)); [by apply Hm|].
    apply forallb_forall with (x := v) in Hv; [done|by apply list_elem_of_In].
  - apply machine_ok_object in Hm as [Hnd Hm].
    rewrite (objectSize_agrees encodeValueBinary canonicalValueSize d (depth + 1) a); [|done| |done|lia].
    + cbn [rbind]. f_equal. pose proof (zlen_nonneg a). unfold to_u64.
      rewrite Z.mod_small; unfold MaxUint64 in *; lia.
    + cbn in Hv. unfold validateDocument_with in Hv. destruct (64 <? k + 1); [done|].
      rewrite Forall_forall in *. intros kv Hin. apply (H kv Hin (k + 1)); [by apply Hm|].
      apply forallb_forall with (x := kv) in Hv; [|by apply list_elem_of_In].
      by apply andb_true_iff in Hv as [_ Hv].
  - subst a. cbn in Hm. by rewrite Hm.
Qed.

(** A size exists only where an encoding does. *)
Lemma sizeElements_encodes (a : list value) depth total n :
  Forall (fun v => forall n, canonicalValueSize v (depth + 1) = Ok n ->
    exists out, encodeValueBinary v (depth + 1) = Ok out) a ->
  sizeElements canonicalValueSize a depth total = Ok n ->
  exists parts, seqR (map (fun v => encodeValueBinary v (depth + 1)) a) = Ok parts.
Proof.
  intros Ha. revert total; induction Ha as [|v a Hv Ha IH]; intros total H;
    cbn [map seqR sizeElements] in *; [by exists []|].
  inv_ok. destruct (MaxUint64 - total <? a0); [done|].
  destruct (Hv _ Hok) as [out ->]. destruct (IH _ H) as [parts ->]. by exists (out :: parts).
Qed.

Lemma sizeFields_encodes (d : document) depth total n :
  Forall (fun kv => forall n, canonicalValueSize kv.2 (depth + 1) = Ok n ->
    exists out, encodeValueBinary kv.2 (depth + 1) = Ok out) d ->
  sizeFields canonicalValueSize d depth total = Ok n ->
  forallb (fun kv => validField kv.1) d = true /\
  exists parts, seqR (map encodeField
    (map (fun kv => (kv.1, encodeValueBinary kv.2 (depth + 1))) d)) = Ok parts.
Proof.
  intros Hd. revert total; induction Hd as [|[k v] d Hv Hd IH]; intros total H;
    cbn [map seqR sizeFields forallb fst snd] in *; [split; [done|by exists []]|].
  destruct (validField k); [|done]. cbn [negb] in H.
  destruct (MaxUint16 <? zlen k) eqn:Ek; [done|]. inv_ok.
  destruct ((MaxUint64 - total <? _) || _); [done|].
  destruct (IH _ H) as [-> [parts Hp]]. split; [done|].
  destruct (Hv _ Hok) as [out Ho]. unfold encodeField at 1. cbn [fst snd].
  unfold writeString16. rewrite Ek, Ho, Hp. cbn. eauto.
Qed.

Lemma objectSize_encodes (d : document) depth n :
  NoDup d.*1 ->
  Forall (fun kv => forall n, canonicalValueSize kv.2 (depth + 1) = Ok n ->
    exists out, encodeValueBinary kv.2 (depth + 1) = Ok out) d ->
  objectSize_with canonicalValueSize d depth = Ok n ->
  exists out, encodeObjectBinary d depth = Ok out.
Proof.
  intros Hnd Hd. unfold objectSize_with, encodeObjectBinary, encodeObject_with.
  destruct ((64 <? depth) || _); [done|]. intros H.
  destruct (sizeFields_encodes _ _ _ _ Hd H) as [-> [parts Hp]]. cbn [negb].
  rewrite encode_fields_sorted.
  destruct (seqR_Permutation _ (map encodeField
    (map (fun kv => (kv.1, encodeValueBinary kv.2 (depth + 1))) (sort_fields d))) _
    ltac:(apply Permutation_map, Permutation_map, Permutation_sym, sort_fields_Permutation, Hnd) Hp)
    as (parts' & -> & _). cbn. eauto.
Qed.

Lemma canonicalValueSize_encodes v : machine_ok v -> forall depth n,
  canonicalValueSize v depth = Ok n -> exists out, encodeValueBinary v depth = Ok out.
Proof.
  induction v using value_nested_ind; intros Hm depth n Hs;
    cbn [encodeValueBinary canonicalValueSize] in *; destruct (64 <? depth); try done; eauto.
  - destruct (is_nan f || is_inf f); [done|]. cbn. eauto.
  - unfold writeBytes32. destruct (negb (utf8_valid s)); [done|]. cbn [orb] in Hs.
    destruct (MaxUint32 <? zlen s); [done|]. cbn. eauto.
  - unfold writeBytes32. destruct (MaxUint32 <? zlen b); [done|]. cbn. eauto.
  - destruct (MaxUint32 <? zlen a); [done|]. apply machine_ok_array in Hm.
    destruct (sizeElements_encodes a depth 5 n) as [parts Hp]; [|done|rewrite Hp; cbn; eauto].
    rewrite Forall_forall in *. intros x Hx m. by apply H; [|apply Hm].
  - inv_ok. apply machine_ok_object in Hm as [Hnd Hm].
    destruct (objectSize_encodes d (depth + 1) a) as [out Ho]; [done| |done|].
    + rewrite Forall_forall in *. intros x Hx m. by apply H; [|apply Hm].
    + unfold encodeObjectBinary in Ho. rewrite Ho. cbn. eauto.
Qed.

(** ** The stored envelope *)

(** The envelope's bytes around a body. *)
Definition envelope (body : bytes) : bytes :=
  storedDocumentMagic ++ le_enc 2 storedDocumentVersion ++ le_enc 2 storedDocumentHeader
  ++ zeros 4 ++ le_enc 4 (zlen body) ++ le_enc 4 (zlen body) ++ body.

Lemma zlen_magic : zlen storedDocumentMagic = 8.
Proof. done. Qed.

Lemma encodeStoredDocument_envelope d data :
  encodeStoredDocument d = Ok data <->
  exists body, encodeDocumentBinary d = Ok body /\ zlen body <= maxStoredDocumentBody /\
    data = envelope body.
Proof.
  unfold encodeStoredDocument. rewrite rbind_ok.
  split; intros (body & He & H); exists body; (split; [done|]).
  - destruct (Z.ltb_spec maxStoredDocumentBody (zlen body)); [done|]. apply Ok_inj in H as <-.
    split; [lia|]. pose proof (zlen_nonneg body). pose proof zlen_magic.
    unfold envelope, storedDocumentHeader. layout. same_layout.
  - destruct H as [Hb ->]. destruct (Z.ltb_spec maxStoredDocumentBody (zlen body)); [lia|].
    f_equal. pose proof (zlen_nonneg body). pose proof zlen_magic.
    unfold envelope, storedDocumentHeader. layout. same_layout.
Qed.

Lemma storedDocumentBody_envelope data body :
  storedDocumentBody data = Some body <->
  zlen body <= maxStoredDocumentBody /\ data = envelope body.
Proof.
  unfold storedDocumentBody, storedDocumentVersion, storedDocumentHeader. split.
  - match goal with |- (if ?b then _ else _) = _ -> _ => destruct b eqn:E; [done|] end.
    match goal with |- (if ?b then _ else _) = _ -> _ => destruct b eqn:E2; [done|] end.
    reflect_checks. intros <-%Some_injective.
    match goal with H : sub data 0 8 = _ |- _ => rename H into Hmagic end.
    rewrite zlen_sub by lia. split; [lia|].
    rewrite (pieces_all data [8; 10; 12; 16; 20; 24; zlen data]) at 1 by (cbn; lia).
    cbn [pieces]. rewrite app_nil_r. unfold envelope. rewrite Hmagic, zlen_sub by lia.
    rewrite (le_field_eq data 8 10 2 1), (le_field_eq data 10 12 2 24),
      (le_field_eq data 12 16 4 0),
      (le_field_eq data 16 20 4 (zlen data - 24)), (le_field_eq data 20 24 4 (zlen data - 24))
      by (reflexivity || lia). done.
  - intros [Hb ->]. pose proof (zlen_nonneg body). pose proof zlen_magic as Hm.
    assert (Hz : zlen (envelope body) = 24 + zlen body).
    { unfold envelope. rewrite !zlen_app, !zlen_le_enc, zlen_zeros by lia. lia. }
    rewrite Hz. unfold envelope.
    unfold storedDocumentVersion, storedDocumentHeader. slice. rewrite beqb_refl.
    rewrite (le_dec_enc 4) by (unfold maxStoredDocumentBody in *; cbn; lia).
    change (le_dec (le_enc 2 1)) with 1. change (le_dec (le_enc 2 24)) with 24.
    change (le_dec (zeros 4)) with 0. rewrite !Z.eqb_refl.
    destruct (Z.ltb_spec (24 + zlen body) 24); [lia|].
    destruct (Z.ltb_spec maxStoredDocumentBody (zlen body)); [lia|].
    destruct (Z.eqb_spec (zlen body) (24 + zlen body - 24)); [done|lia].
Qed.

(** ** Theorems *)

Definition example_document : document :=
  [(bs "name", VString (bs "Ada")); (bs "age", VInt (-36));
   (bs "tags", VArray [VNull; VBool true; VObject true []; VObject false [(bs "z", VTime 5); (bs "a", VBinary [x00])]])].

(** Decides the conditions on a concrete document. *)
Ltac concrete_document :=
  cbn [machine_ok within_limits fold_right snd];
  repeat match goal with
  | |- _ /\ _ => split
  | |- NoDup _ => apply (bool_decide_unpack _); vm_compute; exact I
  | |- True => exact I
  | |- all_zero _ = false => reflexivity
  | |- i64 _ => unfold i64; lia
  | |- u64 _ => unfold u64; lia
  | |- _ <= _ => vm_compute; discriminate
  | |- _ = _ => vm_compute; reflexivity
  end.

Lemma example_storable : storable example_document.
Proof. unfold storable, example_document. concrete_document. Qed.

(** Reading back the encoding of any document a Go program can hold (with
    the contents the reader admits) gives the same document, its fields in key
    order at every level. *)
Lemma encodeDocumentBinary_roundtrip d data :
  storable d -> encodeDocumentBinary d = Ok data ->
  decodeDocumentBinary data = Some (canon_document d).
Proof. apply decode_of_encode. Qed.

Definition encoded_example : bytes :=
  match encodeDocumentBinary example_document with Ok data => data | Err _ => [] end.

(** The codec is canonical: decoding accepts exactly the encodings of
    documents in key order, so no two byte strings decode to one document and
    no byte string decodes to a document that would be encoded otherwise. *)
Lemma decodeDocumentBinary_canonical data d :
  decodeDocumentBinary data = Some d <->
  storable d /\ canon_document d = d /\ encodeDocumentBinary d = Ok data.
Proof.
  split; [apply encode_of_decode|].
  intros (Hs & Hc & He). by rewrite (decode_of_encode d data Hs He), Hc.
Qed.

(** The encoding does not depend on the iteration order of Go's maps and
    identifies the document: two documents have one encoding exactly when they
    have the same bindings at every level. *)
Lemma encoding_identifies_documents d e data :
  storable d -> storable e -> encodeDocumentBinary d = Ok data ->
  encodeDocumentBinary e = Ok data <-> same_document d e.
Proof.
  intros Hd He Hdata. split; intros H.
  - pose proof (decode_of_encode d data Hd Hdata) as H1.
    rewrite (decode_of_encode e data He H) in H1. by apply Some_injective in H1.
  - by rewrite <- (encode_same d e).
Qed.

(** C36: [canonicalDocumentSize] predicts the encoding without building it: a
    valid document with a size has an encoding, and an encoding that fits a
    [uint64] has exactly the computed size. *)
Theorem canonicalDocumentSize_correct d :
  machine_ok (VObject false d) -> Validate d = true ->
  (forall n, canonicalDocumentSize d = Ok n -> exists data, encodeDocumentBinary d = Ok data) /\
  (forall data, encodeDocumentBinary d = Ok data -> zlen data <= MaxUint64 ->
    canonicalDocumentSize d = Ok (zlen data)).
Proof.
  intros [Hnd Hm]%machine_ok_object Hv. unfold encodeDocumentBinary. rewrite Hv. cbn [negb].
  rewrite Forall_forall in Hm. split.
  - intros n Hn. eapply objectSize_encodes; [done| |exact Hn]. apply Forall_forall.
    intros kv Hin m. by apply canonicalValueSize_encodes, Hm.
  - intros data He Hb. apply (objectSize_agrees encodeValueBinary); [done| |done|done].
    apply Forall_forall. intros kv Hin. apply canonicalValueSize_agrees with (k := 0); [by apply Hm|].
    unfold Validate, validateDocument, validateDocument_with in Hv. cbn [Z.ltb Z.compare] in Hv.
    apply forallb_forall with (x := kv) in Hv; [|by apply list_elem_of_In].
    by apply andb_true_iff in Hv as [_ Hv].
Qed.

Lemma canonicalDocumentSize_correct_witness : canonicalDocumentSize example_document = Ok 77.
Proof.
  apply (canonicalDocumentSize_correct example_document) with (data := encoded_example);
    [apply example_storable|reflexivity|reflexivity|vm_compute; discriminate].
Defined.

(** The stored envelope is exact: [decodeStoredDocument] accepts the bytes
    [encodeStoredDocument] writes and no others. *)
Lemma decodeStoredDocument_canonical data d :
  decodeStoredDocument data = Some d <->
  storable d /\ canon_document d = d /\ encodeStoredDocument d = Ok data.
Proof.
  unfold decodeStoredDocument. rewrite encodeStoredDocument_envelope. split.
  - intros H. inv_ok. apply storedDocumentBody_envelope in Hok as [Hb ->].
    destruct (negb (Validate a0)); [done|]. inv_ok. subst a0.
    apply encode_of_decode in Hok0 as (Hs & Hc & He). eauto 10.
  - intros (Hs & Hc & body & He & Hb & ->).
    rewrite (proj2 (storedDocumentBody_envelope (envelope body) body) (conj Hb eq_refl)).
    cbn [obind]. rewrite (decode_of_encode d body Hs He), Hc. cbn [obind].
    by destruct (encodeDocument_valid _ _ He) as [-> _].
Qed.

(** C21: the document codec is exact. Reading back the encoding of any document a
    Go program can hold, with the contents the reader admits, gives the document
    with its fields in key order, the maps of all its objects allocated; decoding accepts exactly the encodings of
    documents in key order; two documents have one encoding exactly when they have
    the same bindings at every level; the stored envelope is exact as well. *)
Theorem document_codec_exact :
  (forall d data, storable d -> encodeDocumentBinary d = Ok data -> decodeDocumentBinary data = Some (canon_document d)) /\
  (forall d data, decodeDocumentBinary data = Some d <-> storable d /\ canon_document d = d /\ encodeDocumentBinary d = Ok data) /\
  (forall d e data, storable d -> storable e -> encodeDocumentBinary d = Ok data ->
     encodeDocumentBinary e = Ok data <-> same_document d e) /\
  (forall d data, decodeStoredDocument data = Some d <-> storable d /\ canon_document d = d /\ encodeStoredDocument d = Ok data).
Proof.
  split; [exact encodeDocumentBinary_roundtrip|]. split; [intros d data; apply decodeDocumentBinary_canonical|].
  split; [exact encoding_identifies_documents|]. intros d data. apply decodeStoredDocument_canonical.
Qed.

Lemma document_codec_exact_witness :
  decodeDocumentBinary encoded_example = Some (canon_document example_document) /\ zlen encoded_example = 77 /\
  encodeDocumentBinary (reverse example_document) = Ok encoded_example.
Proof.
  destruct document_codec_exact as (H1 & _ & H3 & _).
  split; [apply (H1 example_document encoded_example); [apply example_storable|reflexivity]|]. split; [reflexivity|].
  apply (H3 example_document (reverse example_document) encoded_example); [apply example_storable| |reflexivity|reflexivity].
  unfold storable, example_document. cbn [reverse rev_append]. concrete_document.
Defined.

(** a document with a zero [DocumentID] in it is valid and is written to
    storage, and the bytes written cannot be read back. *)
Theorem stored_zero_id_unreadable :
  exists d data, machine_ok (VObject false d) /\ Validate d = true /\
    encodeStoredDocument d = Ok data /\ decodeStoredDocument data = None.
Proof.
  exists [(bs "owner", VID (zeros 16))]. eexists. split; [concrete_document|].
  split; [reflexivity|]. split; reflexivity.
Qed.
