(* ===== verification/FloatArith.v ===== *)
(** * Addition of floats

    Go's [+] on [float64], by exact integer arithmetic on scaled values and
    rounding to the nearest float, ties to the even significand. *)
From S2P Require Import Prelude Bytes Float64.

(** The significand and the exponent of the float nearest to a magnitude. *)
Definition round_shift (a : Z) : Z := Z.max 0 (Z.log2 a - 52).

Definition round_significand (a : Z) : Z :=
  let g := 2 ^ round_shift a in
  let q := a / g in
  let r := a mod g in
  if (g <? 2 * r) || ((g =? 2 * r) && Z.odd q) then q + 1 else q.

Definition magnitude_bits (a : Z) : Z := round_shift a * 2 ^ 52 + round_significand a.

(** The float nearest to a scaled value; none past the largest finite one. *)
Definition f64_round (negative_zero : bool) (s : Z) : option Z :=
  let bits := magnitude_bits (Z.abs s) in
  if 0x7ff * 2 ^ 52 <=? bits then None
  else Some (if (s <? 0) || ((s =? 0) && negative_zero) then 2 ^ 63 + bits else bits).

(** [a + b], none where Go's sum is infinite or a NaN. *)
Definition f64_add (a b : Z) : option Z :=
  if is_finite a && is_finite b then f64_round (f64_negative a && f64_negative b) (f64_scaled a + f64_scaled b) else None.

(** The float of an exactly representable integer. *)
Definition f64_of_int (i : Z) : option Z := f64_round false (int_scaled i).

Lemma round_significand_range a :
  0 <= a -> 0 <= round_significand a <= 2 ^ 53 /\ (0 < round_shift a -> 2 ^ 52 <= round_significand a).
Proof.
  intros Ha. unfold round_significand, round_shift. set (sh := Z.max 0 (Z.log2 a - 52)). set (g := 2 ^ sh).
  assert (Hg : 0 < g) by (apply Z.pow_pos_nonneg; lia).
  assert (Hq : 0 <= a / g < 2 ^ 53 /\ (0 < sh -> 2 ^ 52 <= a / g)).
  { destruct (Z.eq_dec a 0) as [->|Hne].
    - rewrite Z.div_0_l by lia. split; [lia|]. unfold sh. cbn. lia.
    - destruct (Z.log2_spec a ltac:(lia)) as [H1 H2].
      assert (Hsh : Z.log2 a <= 52 + sh) by lia. split; [split; [by apply Z.div_pos|]|].
      + apply Z.div_lt_upper_bound; [done|]. unfold g. rewrite <- Z.pow_add_r by lia.
        eapply Z.lt_le_trans; [exact H2|]. apply Z.pow_le_mono_r; lia.
      + intros Hpos. apply Z.div_le_lower_bound; [done|]. unfold g. rewrite <- Z.pow_add_r by lia.
        etransitivity; [|exact H1]. apply Z.pow_le_mono_r; lia. }
  destruct (_ || _); lia.
Qed.

Lemma bits_fields sh q sign :
  0 <= sh -> 0 <= q <= 2 ^ 53 -> (0 < sh -> 2 ^ 52 <= q) -> sh * 2 ^ 52 + q < 0x7ff * 2 ^ 52 -> (sign = 0 \/ sign = 2 ^ 63) ->
  let b := sign + (sh * 2 ^ 52 + q) in
  0 <= b < 2 ^ 64 /\ is_finite b = true /\ f64_negative b = (sign =? 2 ^ 63) /\ f64_magnitude b * 2 ^ f64_shift b = q * 2 ^ sh.
Proof.
  intros Hsh Hq Hn Hlt Hsign b.
  assert (Hb : 0 <= b < 2 ^ 64) by (unfold b; destruct Hsign as [-> | ->]; lia). split; [done|].
  assert (Hexp : f64_exponent b = (sh * 2 ^ 52 + q) / 2 ^ 52).
  { unfold f64_exponent. change 0x7ff with (Z.ones 11). rewrite Z.land_ones, Z.shiftr_div_pow2 by lia. unfold b.
    destruct Hsign as [-> | ->].
    - rewrite Z.add_0_l. apply Z.mod_small. split; [apply Z.div_pos; lia|apply Z.div_lt_upper_bound; lia].
    - replace (2 ^ 63 + (sh * 2 ^ 52 + q)) with ((sh * 2 ^ 52 + q) + 2 ^ 11 * 2 ^ 52) by lia. rewrite Z.div_add by lia.
      replace ((sh * 2 ^ 52 + q) / 2 ^ 52 + 2 ^ 11) with ((sh * 2 ^ 52 + q) / 2 ^ 52 + 1 * 2 ^ 11) by lia.
      rewrite Z.mod_add by lia. apply Z.mod_small. split; [apply Z.div_pos; lia|apply Z.div_lt_upper_bound; lia]. }
  assert (Hfrac : f64_fraction b = q mod 2 ^ 52).
  { unfold f64_fraction. change (2 ^ 52 - 1) with (Z.ones 52). rewrite Z.land_ones by lia. unfold b. destruct Hsign as [-> | ->].
    - rewrite Z.add_0_l, Z.add_comm. apply Z.mod_add. lia.
    - replace (2 ^ 63 + (sh * 2 ^ 52 + q)) with (q + (sh + 2 ^ 11) * 2 ^ 52) by lia. apply Z.mod_add. lia. }
  rewrite Z.add_comm, Z.div_add in Hexp by lia. split; [|split].
  - assert (f64_exponent b < 0x7ff).
    { rewrite Hexp. apply (Z.add_lt_mono_r _ _ 0). rewrite !Z.add_0_r, <- Z.div_add by lia. apply Z.div_lt_upper_bound; lia. }
    unfold is_finite, is_nan, is_inf. by destruct (Z.eqb_spec (f64_exponent b) 0x7ff); [lia|].
  - unfold f64_negative. rewrite Z.shiftr_div_pow2 by lia. unfold b. destruct Hsign as [-> | ->].
    + rewrite Z.div_small by lia. done.
    + replace (2 ^ 63 + (sh * 2 ^ 52 + q)) with ((sh * 2 ^ 52 + q) + 1 * 2 ^ 63) by lia. rewrite Z.div_add, Z.div_small by lia. done.
  - unfold f64_magnitude, f64_shift. rewrite Hexp, Hfrac.
    destruct (Z.lt_ge_cases q (2 ^ 52)) as [Hs|Hs].
    + assert (sh = 0) as -> by lia. rewrite Z.div_small, Z.mod_small by lia. reflexivity.
    + destruct (Z.eq_dec q (2 ^ 53)) as [->|Hne].
      * change (2 ^ 53 / 2 ^ 52) with 2. change (2 ^ 53 mod 2 ^ 52) with 0. destruct (Z.eqb_spec (2 + sh) 0); [lia|].
        rewrite Z.lor_0_r. replace (2 + sh - 1) with (sh + 1) by lia. rewrite Z.pow_add_r by lia. lia.
      * assert (Hd : q / 2 ^ 52 = 1) by (symmetry; apply (Z.div_unique q (2 ^ 52) 1 (q - 2 ^ 52)); lia).
        assert (Hm : q mod 2 ^ 52 = q - 2 ^ 52) by (symmetry; apply (Z.mod_unique q (2 ^ 52) 1); lia).
        rewrite Hd, Hm. destruct (Z.eqb_spec (1 + sh) 0); [lia|]. rewrite lor_hidden_bit by lia.
        replace (1 + sh - 1) with sh by lia. f_equal. lia.
Qed.

(** The result of rounding, as a number. *)
Lemma f64_round_scaled nz s b :
  f64_round nz s = Some b ->
  0 <= b < 2 ^ 64 /\ is_finite b = true /\
  f64_scaled b = Z.sgn s * (round_significand (Z.abs s) * 2 ^ round_shift (Z.abs s)).
Proof.
  unfold f64_round, magnitude_bits. destruct (Z.leb_spec (0x7ff * 2 ^ 52) (round_shift (Z.abs s) * 2 ^ 52 + round_significand (Z.abs s))) as [|Hlt]; [done|].
  intros [= <-]. destruct (round_significand_range (Z.abs s) (Z.abs_nonneg s)) as [Hq Hn].
  assert (Hsh : 0 <= round_shift (Z.abs s)) by (unfold round_shift; lia).
  set (neg := (s <? 0) || _).
  pose proof (bits_fields (round_shift (Z.abs s)) (round_significand (Z.abs s)) (if neg then 2 ^ 63 else 0) Hsh Hq Hn Hlt
    ltac:(destruct neg; [by right|by left])) as Hb. cbv zeta in Hb.
  assert (Heq : (if neg then 2 ^ 63 else 0) + (round_shift (Z.abs s) * 2 ^ 52 + round_significand (Z.abs s)) =
    if neg then 2 ^ 63 + (round_shift (Z.abs s) * 2 ^ 52 + round_significand (Z.abs s))
    else round_shift (Z.abs s) * 2 ^ 52 + round_significand (Z.abs s)) by (destruct neg; lia).
  rewrite Heq in Hb. destruct Hb as (H1 & H2 & H3 & H4). split; [done|]. split; [done|].
  unfold f64_scaled. rewrite H3, H4. unfold neg. destruct (Z.ltb_spec s 0) as [Hs|Hs]; cbn [orb].
  - rewrite Z.eqb_refl, Z.sgn_neg by done. done.
  - destruct (Z.eqb_spec s 0) as [->|Hne]; cbn [andb].
    + change (round_significand (Z.abs 0) * 2 ^ round_shift (Z.abs 0)) with 0. lia.
    + rewrite Z.sgn_pos by lia. done.
Qed.

(** Rounding is exact on floats. *)
Lemma round_significand_exact a m sh :
  0 <= m < 2 ^ 53 -> 0 <= sh -> a = m * 2 ^ sh -> round_significand a * 2 ^ round_shift a = a.
Proof.
  intros Hm Hsh Ha. unfold round_significand.
  assert (Hdiv : a mod 2 ^ round_shift a = 0).
  { destruct (Z.eq_dec m 0) as [->|Hne]; [subst a; apply Z.mod_0_l; apply Z.pow_nonzero; unfold round_shift; lia|].
    assert (round_shift a <= sh).
    { unfold round_shift. assert (Z.log2 a < 53 + sh); [|lia]. apply Z.log2_lt_pow2; [subst a; apply Z.mul_pos_pos; [lia|apply Z.pow_pos_nonneg; lia]|].
      subst a. rewrite Z.pow_add_r by lia. apply Z.mul_lt_mono_pos_r; [apply Z.pow_pos_nonneg; lia|lia]. }
    rewrite Ha at 1. replace sh with ((sh - round_shift a) + round_shift a) by lia.
    rewrite Z.pow_add_r, Z.mul_assoc by (unfold round_shift in *; lia). apply Z.mod_mul, Z.pow_nonzero; [lia|unfold round_shift; lia]. }
  assert (Hg : 0 < 2 ^ round_shift a) by (apply Z.pow_pos_nonneg; unfold round_shift; lia).
  rewrite Hdiv, Z.mul_0_r. destruct (Z.ltb_spec (2 ^ round_shift a) 0); [lia|]. destruct (Z.eqb_spec (2 ^ round_shift a) 0); [lia|]. cbn [orb andb].
  pose proof (Z.div_mod a (2 ^ round_shift a) ltac:(lia)). lia.
Qed.

(** The sum is within half a unit in the last place of the exact one. *)
Lemma round_nearest a : 0 <= a -> 2 * Z.abs (round_significand a * 2 ^ round_shift a - a) <= 2 ^ round_shift a.
Proof.
  intros Ha. unfold round_significand. set (g := 2 ^ round_shift a).
  assert (Hg : 0 < g) by (apply Z.pow_pos_nonneg; unfold round_shift; lia).
  pose proof (Z.div_mod a g ltac:(lia)) as Hd. pose proof (Z.mod_pos_bound a g Hg) as Hr.
  destruct (Z.ltb_spec g (2 * (a mod g))); cbn [orb]; [nia|].
  destruct (Z.eqb_spec g (2 * (a mod g))); cbn [andb]; [destruct (Z.odd _); nia|nia].
Qed.

Lemma f64_add_nearest a b c :
  f64_add a b = Some c ->
  is_finite c = true /\
  2 * Z.abs (f64_scaled c - (f64_scaled a + f64_scaled b)) <= 2 ^ round_shift (Z.abs (f64_scaled a + f64_scaled b)).
Proof.
  unfold f64_add. destruct (_ && _); [|done]. set (s := f64_scaled a + f64_scaled b).
  intros (_ & Hf & Hs)%f64_round_scaled. split; [done|]. rewrite Hs. pose proof (round_nearest (Z.abs s) (Z.abs_nonneg s)) as Hn.
  set (r := round_significand _ * _) in *. destruct (Z.sgn_spec s) as [[H1 ->]|[[H1 ->]|[H1 ->]]].
  - rewrite (Z.abs_eq s) in Hn |- * by lia. by rewrite Z.mul_1_l.
  - rewrite <- H1 in *. cbn [Z.mul Z.sub Z.opp Z.add Z.abs]. apply Z.pow_nonneg. lia.
  - rewrite (Z.abs_neq s) in Hn |- * by lia. by replace (Z.abs (- (1) * r - s)) with (Z.abs (r - - s)) by lia.
Qed.

(** Integers a float holds exactly convert exactly. *)
Lemma f64_of_int_exact m sh :
  0 <= sh -> Z.abs m < 2 ^ 53 -> forall b, f64_of_int (m * 2 ^ sh) = Some b -> f64_scaled b = int_scaled (m * 2 ^ sh).
Proof.
  intros Hsh Hm b (_ & _ & ->)%f64_round_scaled. unfold int_scaled, scale.
  rewrite (round_significand_exact _ (Z.abs m) (sh + 1074)); [rewrite Z.mul_comm; apply Z.abs_sgn|lia|lia|].
  rewrite !Z.abs_mul, (Z.abs_eq (2 ^ sh)), (Z.abs_eq (2 ^ 1074)), Z.pow_add_r by (lia || apply Z.pow_nonneg; lia). lia.
Qed.
