(* ===== verification/Any.v ===== *)
(** * Go values offered to the database

    The [any] values [ValueOf] of [internal/database/value.go] and the helpers of
    [filter_values.go] tell apart, and what they make of them. All signed integer
    types are one case and all unsigned ones another, since the code treats each
    the same way; a [float32] is given as the [float64] it converts to, a
    [time.Time] as its milliseconds rounded down. A Go map is the list of its
    bindings in some order; a [Document] may be a nil map, and stays one. *)
From S2P Require Import Prelude Bytes Strings Entries Float64 Values Documents.

(** ** Values of any type *)

Unset Elimination Schemes.
Inductive any :=
| ANil
| AValue (v : value)
| ABool (b : bool)
| AString (s : bytes)
| ABytes (b : bytes)
| ATime (t : Z)
| ADocumentID (id : bytes)
| AInt (i : Z)
| AUint (u : Z)
| AFloat (f : Z)
| AValues (l : list value)
| AAnys (l : list any)
| AStrings (l : list bytes)
| ADocument (isNil : bool) (d : document)
| AMap (m : list (bytes * any))
| AFilter (m : list (bytes * any))
| AFilters (l : list (list (bytes * any)))
| AOther.
Set Elimination Schemes.

Definition maxInt64 : Z := 2 ^ 63 - 1.

(** [ValueOf]; [NewDocument] is its case for maps. The checks of the loop over a
    map stop at the first failure, whatever the order; every failure is
    [ErrInvalidDocument]. *)
Fixpoint ValueOf (x : any) : result value :=
  match x with
  | ANil => Ok VNull
  | AValue v => Ok v
  | ABool b => Ok (VBool b)
  | AString s => Ok (VString s)
  | ABytes b => Ok (VBinary b)
  | ATime t => Ok (VTime t)
  | ADocumentID id => Ok (VID id)
  | AInt i => Ok (VInt i)
  | AUint u => if u <=? maxInt64 then Ok (VInt u) else Err ErrInvalidDocument
  | AFloat f => Ok (VFloat f)
  | AValues l => Ok (VArray l)
  | AAnys l =>
      let* values := seqR (map ValueOf l) in
      Ok (VArray values)
  | ADocument isNil d => Ok (VObject isNil d)
  | AMap m =>
      let* d := seqR (map (fun kv =>
        if validField kv.1 then let* v := ValueOf kv.2 in Ok (kv.1, v) else Err ErrInvalidDocument) m) in
      Ok (VObject false d)
  | AStrings _ | AFilter _ | AFilters _ | AOther => Err ErrInvalidDocument
  end.

Definition NewDocument (fields : list (bytes * any)) : result document :=
  seqR (map (fun kv =>
    if validField kv.1 then let* v := ValueOf kv.2 in Ok (kv.1, v) else Err ErrInvalidDocument) fields).

Definition asFilter (raw : any) : option (list (bytes * any)) :=
  match raw with AFilter m | AMap m => Some m | _ => None end.

Definition asStringAnyMap (raw : any) : option (list (bytes * any)) :=
  match raw with AMap m | AFilter m => Some m | _ => None end.

Definition asAnySlice (raw : any) : option (list any) :=
  match raw with
  | AAnys l => Some l
  | AValues l => Some (AValue <$> l)
  | _ => None
  end.

Definition asFilters (raw : any) : option (list (list (bytes * any))) :=
  match raw with
  | AFilters l => Some l
  | _ => asAnySlice raw ≫= fun items => mapM asFilter items
  end.
