(* ===== verification/Update.v ===== *)
(** * Document updates

    [internal/database/update.go]: compiling update operators and applying them
    to documents. [Apply] works on a deep copy of the document, so assignments
    through nested maps are functional updates here. The copy of a nil map is nil,
    and an assignment into it panics. *)
From S2P Require Import Prelude Bytes Strings Entries Float64 FloatArith Values Documents Any.

(** ** Maps *)

(** [d[k] = v] and [delete(d, k)]. *)
Definition doc_delete (d : document) (k : bytes) : document := List.filter (fun kv => negb (beqb kv.1 k)) d.
Definition doc_set (d : document) (k : bytes) (v : value) : document := (k, v) :: doc_delete d k.

(** ** Compiled updates *)

Record updateOperation := mk_op { op_kind : bytes; op_path : bytes; op_value : value }.

Abbreviation MutationSpec := (list updateOperation).

Definition update_operators : list bytes := [bs "$set"; bs "$unset"; bs "$inc"; bs "$push"; bs "$pull"].

Definition conflicts (previousPath path : bytes) : bool :=
  beqb previousPath path || has_prefix previousPath (path ++ [dot]) || has_prefix path (previousPath ++ [dot]).

(** The loop over the paths of one operator; [seen] are the paths before. *)
Fixpoint compilePaths (operator : bytes) (paths : list (bytes * any)) (seen : list bytes) (acc : MutationSpec)
    : result (list bytes * MutationSpec) :=
  match paths with
  | [] => Ok (seen, acc)
  | (path, raw) :: paths =>
      if negb (validatePath path) then Err ErrInvalidUpdate
      else if beqb path (bs "_id") || has_prefix path (bs "_id.") then Err ErrImmutableID
      else if existsb (fun previousPath => conflicts previousPath path) seen then Err ErrInvalidUpdate
      else
        let* value :=
          if beqb operator (bs "$unset") then Ok VNull
          else match ValueOf raw with Ok v => Ok v | Err _ => Err ErrInvalidUpdate end in
        if beqb operator (bs "$inc") && negb (kind_eqb (Kind value) Int64Kind || kind_eqb (Kind value) Float64Kind)
        then Err ErrInvalidUpdate
        else compilePaths operator paths (seen ++ [path]) (acc ++ [mk_op (drop 1 operator) path value])
  end.

Fixpoint compileOperators (operators : list (bytes * any)) (seen : list bytes) (acc : MutationSpec) : result MutationSpec :=
  match operators with
  | [] => Ok acc
  | (operator, raw) :: operators =>
      if negb (existsb (beqb operator) update_operators) then Err ErrInvalidUpdate
      else
        match asStringAnyMap raw with
        | None => Err ErrInvalidUpdate
        | Some fields =>
            if zlen fields =? 0 then Err ErrInvalidUpdate
            else
              let* (seen, acc) := compilePaths operator (sort_fields fields) seen acc in
              compileOperators operators seen acc
        end
  end.

Definition CompileUpdate (update : list (bytes * any)) : result MutationSpec :=
  if zlen update =? 0 then Err ErrInvalidUpdate else compileOperators (sort_fields update) [] [].

Definition Paths (m : MutationSpec) : list bytes := sort_strings (op_path <$> m).

(** ** Applying *)

(** [current[part] = v] on a map that may be nil. *)
Definition map_set (isNil : bool) (current : document) (part : bytes) (v : value) : result document :=
  if isNil then Err ErrPanic else Ok (doc_set current part v).

(** The loop of [setPath]: [current] is the map at hand, nil or not. A missing
    parent is assigned before it is filled, so a nil map panics there too. *)
Fixpoint set_parts (isNil : bool) (current : document) (parts : list bytes) (v : value) : result document :=
  match parts with
  | [] => Err ErrPanic
  | part :: rest =>
      match rest with
      | [] => map_set isNil current part v
      | _ =>
          match field current part with
          | None =>
              if isNil then Err ErrPanic
              else
                let* child := set_parts false [] rest v in
                Ok (doc_set current part (VObject false child))
          | Some (VObject childNil child) =>
              let* child := set_parts childNil child rest v in
              Ok (doc_set current part (VObject childNil child))
          | Some _ => Err ErrInvalidUpdate
          end
      end
  end.

Definition setPath (isNil : bool) (d : document) (path : bytes) (v : value) : result document :=
  set_parts isNil d (split_dot path) v.

(** [delete] does nothing on a nil map, so nothing here panics. *)
Fixpoint unset_parts (current : document) (parts : list bytes) : document :=
  match parts with
  | [] => current
  | part :: rest =>
      match rest with
      | [] => doc_delete current part
      | _ =>
          match field current part with
          | Some (VObject childNil child) => doc_set current part (VObject childNil (unset_parts child rest))
          | _ => current
          end
      end
  end.

Definition unsetPath (d : document) (path : bytes) : document := unset_parts d (split_dot path).

(** The float of an integer it holds exactly. *)
Definition exactFloat64 (i : Z) : option Z :=
  let converted := float_of_int i in
  if (2 ^ 63 <=? converted) || (converted <? - 2 ^ 63) then None
  else if converted =? i then f64_of_int converted else None.

Definition to_i64 (z : Z) : Z := (z + 2 ^ 63) mod 2 ^ 64 - 2 ^ 63.

(** The operands as floats; a right operand of another kind has the float field zero. *)
Definition left_number (left : value) : result Z :=
  match left with
  | VInt l => of_option ErrInvalidUpdate (exactFloat64 l)
  | VFloat l => Ok l
  | _ => Err ErrInvalidUpdate
  end.

Definition right_number (right : value) : result Z :=
  match right with
  | VInt r => of_option ErrInvalidUpdate (exactFloat64 r)
  | VFloat r => Ok r
  | _ => Ok 0
  end.

Definition add_floats (left right : value) : result value :=
  let* a := left_number left in
  let* b := right_number right in
  match f64_add a b with Some sum => Ok (VFloat sum) | None => Err ErrInvalidUpdate end.

Definition addNumbers (left right : value) : result value :=
  match left, right with
  | VInt l, VInt r =>
      let sum := to_i64 (l + r) in
      if ((0 <? r) && (sum <? l)) || ((r <? 0) && (l <? sum)) then Err ErrInvalidUpdate else Ok (VInt sum)
  | _, _ => add_floats left right
  end.

Definition applyUpdateOperation (isNil : bool) (d : document) (operation : updateOperation) : result document :=
  let path := op_path operation in
  let v := op_value operation in
  if beqb (op_kind operation) (bs "set") then setPath isNil d path v
  else if beqb (op_kind operation) (bs "unset") then Ok (unsetPath d path)
  else if beqb (op_kind operation) (bs "inc") then
    match lookupInternal d path with
    | None => setPath isNil d path v
    | Some current =>
        let* sum := addNumbers current v in
        setPath isNil d path sum
    end
  else if beqb (op_kind operation) (bs "push") then
    match lookupInternal d path with
    | None => setPath isNil d path (VArray [v])
    | Some (VArray values) => setPath isNil d path (VArray (values ++ [v]))
    | Some _ => Err ErrInvalidUpdate
    end
  else if beqb (op_kind operation) (bs "pull") then
    match lookupInternal d path with
    | None => Ok d
    | Some (VArray values) => setPath isNil d path (VArray (List.filter (fun item => negb (Equal item v)) values))
    | Some _ => Err ErrInvalidUpdate
    end
  else Err ErrInvalidUpdate.

Fixpoint applyOperations (isNil : bool) (d : document) (m : MutationSpec) : result document :=
  match m with
  | [] => Ok d
  | operation :: m =>
      let* d := applyUpdateOperation isNil d operation in
      applyOperations isNil d m
  end.

(** [Apply] works on a clone of the document, which is nil if the document is. *)
Definition Apply (m : MutationSpec) (isNil : bool) (d : document) : result document :=
  if zlen m =? 0 then Err ErrInvalidUpdate
  else
    let* result := applyOperations isNil d m in
    if Validate result then Ok result else Err ErrInvalidDocument.

(** ** Selected documents *)

Record pendingUpdate := mk_pending { pu_id : bytes; pu_before : document; pu_after : document }.

(** The changes and [ModifiedCount]; [MatchedCount] is the number of documents. A
    document that has an identifier is not a nil map. *)
Fixpoint prepareDocumentUpdates (selected : list document) (m : MutationSpec) : result (list pendingUpdate * Z) :=
  match selected with
  | [] => Ok ([], 0)
  | d :: selected =>
      match Document_ID d with
      | None => Err ErrCorrupt
      | Some id =>
          let* after := Apply m false d in
          let* (changes, modified) := prepareDocumentUpdates selected m in
          if negb (Document_Equal after d) then Ok (mk_pending id d after :: changes, modified + 1)
          else Ok (changes, modified)
      end
  end.

(** ** Maps and paths *)

Lemma field_doc_delete d k k' : field (doc_delete d k) k' = if beqb k' k then None else field d k'.
Proof.
  unfold doc_delete. induction d as [|[x y] d IH]; cbn [List.filter field fst]; [by destruct (beqb k' k)|].
  destruct (beqb x k) eqn:E; cbn [negb field].
  - apply beqb_eq in E as ->. rewrite IH. destruct (beqb k' k) eqn:E'; [done|]. done.
  - destruct (beqb k' x) eqn:Ex; [|done]. apply beqb_eq in Ex as ->. by rewrite E.
Qed.

Lemma field_doc_set d k v k' : field (doc_set d k v) k' = if beqb k' k then Some v else field d k'.
Proof. unfold doc_set. cbn [field]. destruct (beqb k' k) eqn:E; [done|]. by rewrite field_doc_delete, E. Qed.

(** One path is the start of the other. *)
Definition overlap (ps qs : list bytes) : Prop := ps `prefix_of` qs \/ qs `prefix_of` ps.

Lemma overlap_nil_l qs : overlap [] qs.
Proof. left. apply prefix_nil. Qed.

Lemma overlap_nil_r ps : overlap ps [].
Proof. right. apply prefix_nil. Qed.

Lemma overlap_cons p ps qs : overlap (p :: ps) (p :: qs) <-> overlap ps qs.
Proof.
  split; intros [H|H]; [left; by apply prefix_cons_inv_2 in H|right; by apply prefix_cons_inv_2 in H|left; by apply prefix_cons|right; by apply prefix_cons].
Qed.

Lemma lookup_empty_doc parts : lookup_parts [] parts = None.
Proof. by destruct parts. Qed.

(** What is on the way to a path: objects that are there or can be made, a value
    that is no object, or a nil map that would have to be assigned into. *)
Inductive way := Open | Blocked | NilMap.

Fixpoint way_to (isNil : bool) (current : document) (parts : list bytes) : way :=
  match parts with
  | [] => NilMap
  | part :: rest =>
      let write := if isNil then NilMap else Open in
      match rest with
      | [] => write
      | _ => match field current part with
             | None => write
             | Some (VObject childNil child) => way_to childNil child rest
             | Some _ => Blocked
             end
      end
  end.

(** What a write along a way ends in. *)
Definition way_result {A} (w : way) (a : A) : result A :=
  match w with Open => Ok a | Blocked => Err ErrInvalidUpdate | NilMap => Err ErrPanic end.

Lemma way_empty part rest : way_to false [] (part :: rest) = Open.
Proof. by destruct rest. Qed.

Lemma set_parts_step isNil d part rest v :
  rest <> [] -> set_parts isNil d (part :: rest) v =
    match field d part with
    | None => if isNil then Err ErrPanic else let* child := set_parts false [] rest v in Ok (doc_set d part (VObject false child))
    | Some (VObject childNil child) => let* child := set_parts childNil child rest v in Ok (doc_set d part (VObject childNil child))
    | Some _ => Err ErrInvalidUpdate
    end.
Proof. intros Hne. by destruct rest. Qed.

Lemma unset_parts_step d part rest :
  rest <> [] -> unset_parts d (part :: rest) =
    match field d part with Some (VObject n child) => doc_set d part (VObject n (unset_parts child rest)) | _ => d end.
Proof. intros Hne. by destruct rest. Qed.

Lemma lookup_parts_step d part rest :
  rest <> [] -> lookup_parts d (part :: rest) = match field d part with Some (VObject _ child) => lookup_parts child rest | _ => None end.
Proof. intros Hne. destruct rest; [done|]. cbn [lookup_parts]. by destruct (field d part) as [[]|]. Qed.

Lemma way_step isNil d part rest :
  rest <> [] -> way_to isNil d (part :: rest) =
    match field d part with
    | None => if isNil then NilMap else Open
    | Some (VObject n child) => way_to n child rest
    | Some _ => Blocked
    end.
Proof. intros Hne. by destruct rest. Qed.

(** A write succeeds exactly along an open way. *)
Lemma set_parts_way isNil d parts v :
  match set_parts isNil d parts v with
  | Ok _ => way_to isNil d parts = Open
  | Err e => way_result (way_to isNil d parts) v = Err e
  end.
Proof.
  revert isNil d; induction parts as [|part rest IH]; intros isNil d; [done|].
  destruct (decide (rest = [])) as [->|Hne]; [by destruct isNil|]. rewrite set_parts_step, way_step by done.
  destruct (field d part) as [w|].
  - destruct w as [| | | | | | | |n child|]; try done.
    specialize (IH n child). by destruct (set_parts n child rest v).
  - destruct isNil; [done|]. specialize (IH false []). destruct rest as [|r rest]; [done|]. rewrite way_empty in IH.
    by destruct (set_parts false [] (r :: rest) v).
Qed.

(** A set puts the value at its path. *)
Lemma lookup_set_same isNil d parts v d' : set_parts isNil d parts v = Ok d' -> lookup_parts d' parts = Some v.
Proof.
  revert isNil d d'; induction parts as [|part rest IH]; intros isNil d d'; [done|]. destruct (decide (rest = [])) as [->|Hne].
  - destruct isNil; [done|]. cbn. intros [= <-]. cbn. by rewrite beqb_refl.
  - rewrite set_parts_step, lookup_parts_step by done. intros Hs.
    assert (exists n m child child', set_parts n child rest v = Ok child' /\ d' = doc_set d part (VObject m child'))
      as (n & m & child & child' & Hc & ->).
    { destruct (field d part) as [[]|]; try done; [|destruct isNil; [done|]]; inv_ok; subst d'; eauto 10. }
    rewrite field_doc_set, beqb_refl. by eapply IH.
Qed.

(** Nothing else changes: values, absence, and where objects can be made. *)
Lemma set_other isNil d parts v d' qs :
  set_parts isNil d parts v = Ok d' -> ~ overlap parts qs ->
  lookup_parts d' qs = lookup_parts d qs /\ way_to isNil d' qs = way_to isNil d qs.
Proof.
  revert isNil d d' qs; induction parts as [|part rest IH]; intros isNil d d' qs Hs Ho; [exfalso; apply Ho, overlap_nil_l|].
  destruct qs as [|q qs]; [exfalso; apply Ho, overlap_nil_r|].
  assert (Hfield : exists w, d' = doc_set d part w /\ (rest = [] \/ exists n child child', rest <> [] /\ w = VObject n child' /\
    set_parts n child rest v = Ok child' /\
    (field d part = Some (VObject n child) \/ field d part = None /\ child = [] /\ n = false /\ isNil = false))).
  { destruct (decide (rest = [])) as [->|Hne]; [destruct isNil; [done|]; cbn in Hs; injection Hs as <-; eexists; split; [done|by left]|].
    rewrite set_parts_step in Hs by done.
    destruct (field d part) as [[]|] eqn:E; try done; [|destruct isNil; [done|]]; inv_ok; subst d'; eexists; (split; [done|]); right; eauto 12. }
  destruct Hfield as (w & -> & Hcase). destruct (beqb q part) eqn:Eq.
  - apply beqb_eq in Eq as ->. rewrite overlap_cons in Ho. destruct Hcase as [->|(n & child & child' & Hne & -> & Hc & Hf)].
    { exfalso. apply Ho, overlap_nil_l. }
    assert (Hqs : qs <> []) by (intros ->; apply Ho, overlap_nil_r).
    destruct (IH n child child' qs Hc Ho) as [H1 H2].
    rewrite !lookup_parts_step, !way_step, field_doc_set, beqb_refl by done. rewrite H1, H2.
    destruct Hf as [-> |(-> & -> & -> & ->)]; [done|]. rewrite lookup_empty_doc. split; [done|]. destruct qs; [done|apply way_empty].
  - destruct (decide (qs = [])) as [->|Hqs]; [cbn [lookup_parts way_to]; by rewrite field_doc_set, Eq|].
    by rewrite !lookup_parts_step, !way_step, field_doc_set, Eq by done.
Qed.

Lemma lookup_unset_same d parts : parts <> [] -> lookup_parts (unset_parts d parts) parts = None.
Proof.
  revert d; induction parts as [|part rest IH]; intros d Hne0; [done|]. destruct (decide (rest = [])) as [->|Hne].
  - cbn. by rewrite field_doc_delete, beqb_refl.
  - rewrite unset_parts_step, lookup_parts_step by done. destruct (field d part) as [w|] eqn:E; [|by rewrite E].
    destruct w as [| | | | | | | |n child|]; try by rewrite E. rewrite field_doc_set, beqb_refl. by apply IH.
Qed.

Lemma unset_other isNil d parts qs :
  ~ overlap parts qs -> lookup_parts (unset_parts d parts) qs = lookup_parts d qs /\ way_to isNil (unset_parts d parts) qs = way_to isNil d qs.
Proof.
  revert isNil d qs; induction parts as [|part rest IH]; intros isNil d qs Ho; [done|].
  destruct qs as [|q qs]; [exfalso; apply Ho, overlap_nil_r|]. destruct (decide (rest = [])) as [->|Hne].
  - cbn [unset_parts]. destruct (beqb q part) eqn:Eq; [apply beqb_eq in Eq as ->; exfalso; apply Ho; rewrite overlap_cons; apply overlap_nil_l|].
    destruct (decide (qs = [])) as [->|Hqs]; [cbn [lookup_parts way_to]; by rewrite field_doc_delete, Eq|].
    by rewrite !lookup_parts_step, !way_step, field_doc_delete, Eq by done.
  - rewrite unset_parts_step by done. destruct (field d part) as [w|] eqn:E; [|done].
    destruct w as [| | | | | | | |n child|]; try done. destruct (beqb q part) eqn:Eq.
    + apply beqb_eq in Eq as ->. rewrite overlap_cons in Ho. assert (Hqs : qs <> []) by (intros ->; apply Ho, overlap_nil_r).
      rewrite !lookup_parts_step, !way_step, field_doc_set, beqb_refl, E by done. by apply IH.
    + destruct (decide (qs = [])) as [->|Hqs]; [cbn [lookup_parts way_to]; by rewrite field_doc_set, Eq|].
      by rewrite !lookup_parts_step, !way_step, field_doc_set, Eq by done.
Qed.

(** ** Paths as strings and as parts *)

Fixpoint join_dot (parts : list bytes) : bytes :=
  match parts with
  | [] => []
  | part :: rest => match rest with [] => part | _ => part ++ dot :: join_dot rest end
  end.

Lemma split_dot_nonempty path : split_dot path <> [].
Proof. destruct path as [|b path]; [done|]. cbn. destruct (_ =? _); [done|]. by destruct (split_dot path). Qed.

Lemma join_split path : join_dot (split_dot path) = path.
Proof.
  induction path as [|b path IH]; [done|]. cbn [split_dot]. pose proof (split_dot_nonempty path) as Hne.
  destruct (split_dot path) as [|p parts] eqn:E; [done|]. destruct (Z.eqb_spec (b2z b) (b2z dot)) as [Hb|Hb].
  - apply b2z_inj in Hb as ->. cbn [join_dot] in *. by rewrite IH.
  - cbn [join_dot] in *. destruct parts; cbn in *; by rewrite <- IH.
Qed.

Lemma split_dot_inj p q : split_dot p = split_dot q -> p = q.
Proof. intros H. by rewrite <- (join_split p), <- (join_split q), H. Qed.

Lemma split_dot_app p q : split_dot (p ++ dot :: q) = split_dot p ++ split_dot q.
Proof.
  induction p as [|b p IH]; [done|]. cbn [app split_dot]. rewrite IH. destruct (_ =? _); [done|].
  pose proof (split_dot_nonempty p). by destruct (split_dot p).
Qed.

Lemma join_dot_app l x r : l <> [] -> join_dot (l ++ x :: r) = join_dot l ++ dot :: join_dot (x :: r).
Proof.
  intros Hne. induction l as [|y l IH]; [done|]. destruct l as [|z l]; [done|].
  change ((y :: z :: l) ++ x :: r) with (y :: (z :: l) ++ x :: r). cbn [join_dot]. cbn [app].
  change (z :: l ++ x :: r) with ((z :: l) ++ x :: r). rewrite IH by done. by rewrite <- app_assoc.
Qed.

Lemma has_prefix_spec s p : has_prefix s p = true <-> exists r, s = p ++ r.
Proof.
  revert s; induction p as [|b p IH]; intros s; cbn [has_prefix].
  { split; [by exists s|by destruct s]. }
  destruct s as [|c s]; [split; [done|by intros [r Hr]]|]. cbn [has_prefix]. rewrite andb_true_iff, Z.eqb_eq, IH. split.
  - intros [Hb [r ->]]. apply b2z_inj in Hb as ->. by exists r.
  - intros [r Hr]. injection Hr as -> ->. split; [done|by exists r].
Qed.

Lemma prefix_parts p q : split_dot p `prefix_of` split_dot q <-> p = q \/ has_prefix q (p ++ [dot]) = true.
Proof.
  rewrite has_prefix_spec. split.
  - intros [k Hk]. destruct k as [|x k]; [left; rewrite app_nil_r in Hk; by apply split_dot_inj|]. right. exists (join_dot (x :: k)).
    rewrite <- (join_split q), Hk, join_dot_app by apply split_dot_nonempty. by rewrite join_split, <- app_assoc.
  - intros [->|[r ->]]; [done|]. rewrite <- app_assoc. cbn [app]. rewrite split_dot_app. by eexists.
Qed.

(** The string test of the compiler is overlap of the parts. *)
Lemma conflicts_overlap p q : conflicts p q = true <-> overlap (split_dot p) (split_dot q).
Proof.
  unfold conflicts, overlap. rewrite !prefix_parts, !orb_true_iff, beqb_eq. split.
  - intros [[->|H]|H]; [left; by left|right; by right|left; by right].
  - intros [[->|H]|[->|H]]; [by left; left|by right|by left; left|by left; right].
Qed.

(** ** What one operation does *)

(** What an operation makes of the value at its path. *)
Definition op_result (operation : updateOperation) (current : option value) : result (option value) :=
  let v := op_value operation in
  if beqb (op_kind operation) (bs "set") then Ok (Some v)
  else if beqb (op_kind operation) (bs "unset") then Ok None
  else if beqb (op_kind operation) (bs "inc") then
    match current with None => Ok (Some v) | Some c => Some <$> addNumbers c v end
  else if beqb (op_kind operation) (bs "push") then
    match current with
    | None => Ok (Some (VArray [v]))
    | Some (VArray values) => Ok (Some (VArray (values ++ [v])))
    | Some _ => Err ErrInvalidUpdate
    end
  else if beqb (op_kind operation) (bs "pull") then
    match current with
    | None => Ok None
    | Some (VArray values) => Ok (Some (VArray (List.filter (fun item => negb (Equal item v)) values)))
    | Some _ => Err ErrInvalidUpdate
    end
  else Err ErrInvalidUpdate.

(** Operations that only remove work on any document. *)
Definition removes (operation : updateOperation) (current : option value) : bool :=
  beqb (op_kind operation) (bs "unset") || (beqb (op_kind operation) (bs "pull") && match current with None => true | Some _ => false end).

(** What an operation ought to do to a document: the value it leaves at its
    path, or why it cannot be applied. *)
Definition op_outcome (isNil : bool) (d : document) (operation : updateOperation) : result (option value) :=
  let current := lookupInternal d (op_path operation) in
  let* r := op_result operation current in
  if removes operation current then Ok r else way_result (way_to isNil d (split_dot (op_path operation))) r.

Lemma add_floats_error l r e : add_floats l r = Err e -> e = ErrInvalidUpdate.
Proof.
  unfold add_floats. destruct (left_number l) as [a|e1] eqn:El; cbn [rbind].
  2: { intros [= <-]. unfold left_number in El. destruct l; try (by injection El); try done. destruct (exactFloat64 i); [done|by injection El]. }
  destruct (right_number r) as [b|e1] eqn:Er; cbn [rbind].
  2: { intros [= <-]. unfold right_number in Er. destruct r; try done. destruct (exactFloat64 i); [done|by injection Er]. }
  destruct (f64_add a b); [done|by intros [= <-]].
Qed.

Lemma addNumbers_error l r e : addNumbers l r = Err e -> e = ErrInvalidUpdate.
Proof.
  destruct l; try apply add_floats_error. destruct r; try apply add_floats_error.
  unfold addNumbers. destruct (_ || _); [by intros [= <-]|done].
Qed.

Lemma op_result_error operation current e : op_result operation current = Err e -> e = ErrInvalidUpdate.
Proof.
  unfold op_result. repeat (destruct (beqb _ _)); try done.
  - destruct current as [c|]; [|done]. destruct (addNumbers c _) as [s|e1] eqn:E; [done|]. intros [= <-]. by eapply addNumbers_error.
  - destruct current as [[]|]; try done; by intros [= <-].
  - destruct current as [[]|]; try done; by intros [= <-].
  - by intros [= <-].
Qed.

(** What a write leaves, whatever the value. *)
Lemma setPath_outcome isNil d path v :
  match setPath isNil d path v with
  | Ok d' => way_result (way_to isNil d (split_dot path)) (Some v) = Ok (lookupInternal d' path) /\
      forall qs, ~ overlap (split_dot path) qs -> lookup_parts d' qs = lookup_parts d qs /\ way_to isNil d' qs = way_to isNil d qs
  | Err e => way_result (way_to isNil d (split_dot path)) (Some v) = Err e
  end.
Proof.
  unfold setPath, lookupInternal. pose proof (set_parts_way isNil d (split_dot path) v) as Hw.
  destruct (set_parts isNil d (split_dot path) v) as [d'|e] eqn:E.
  - rewrite Hw, (lookup_set_same _ _ _ _ _ E). split; [done|]. intros qs. by eapply set_other.
  - revert Hw. destruct (way_to isNil d (split_dot path)); cbn; [done|congruence..].
Qed.

(** One operation: it changes its own path as [op_outcome] says and nothing beside it. *)
Lemma apply_operation isNil d operation :
  match applyUpdateOperation isNil d operation with
  | Ok d' => op_outcome isNil d operation = Ok (lookupInternal d' (op_path operation)) /\
      forall qs, ~ overlap (split_dot (op_path operation)) qs ->
        lookup_parts d' qs = lookup_parts d qs /\ way_to isNil d' qs = way_to isNil d qs
  | Err e => op_outcome isNil d operation = Err e
  end.
Proof.
  unfold applyUpdateOperation, op_outcome, removes, op_result. set (path := op_path operation). set (v := op_value operation).
  pose proof (split_dot_nonempty path) as Hne. pose proof (setPath_outcome isNil d path) as Hput.
  destruct (beqb (op_kind operation) (bs "set")) eqn:E1.
  { apply beqb_eq in E1. rewrite E1. apply (Hput v). }
  destruct (beqb (op_kind operation) (bs "unset")) eqn:E2.
  { cbn [rbind orb]. unfold lookupInternal, unsetPath. rewrite lookup_unset_same by done. split; [done|]. intros qs. apply unset_other. }
  cbn [orb]. destruct (beqb (op_kind operation) (bs "inc")) eqn:E3.
  { apply beqb_eq in E3. rewrite E3. destruct (lookupInternal d path) as [c|]; [|apply (Hput v)].
    destruct (addNumbers c v) as [sum|e] eqn:Es; cbn [rbind]; [apply (Hput sum)|done]. }
  destruct (beqb (op_kind operation) (bs "push")) eqn:E4.
  { apply beqb_eq in E4. rewrite E4. destruct (lookupInternal d path) as [[]|]; try done. all: apply Hput. }
  destruct (beqb (op_kind operation) (bs "pull")) eqn:E5; [|done].
  destruct (lookupInternal d path) as [[]|] eqn:El; try done.
  - apply Hput.
  - cbn [rbind andb]. by rewrite El.
Qed.

(** ** Updates of several paths *)

(** No two operations touch overlapping paths. *)
Fixpoint disjoint_paths (m : MutationSpec) : Prop :=
  match m with
  | [] => True
  | operation :: m => Forall (fun o => conflicts (op_path operation) (op_path o) = false) m /\ disjoint_paths m
  end.

Lemma conflicts_sym p q : conflicts p q = conflicts q p.
Proof.
  destruct (conflicts p q) eqn:E1, (conflicts q p) eqn:E2; try done.
  - apply conflicts_overlap in E1. assert (conflicts q p = true) by (apply conflicts_overlap; destruct E1; [by right|by left]). congruence.
  - apply conflicts_overlap in E2. assert (conflicts p q = true) by (apply conflicts_overlap; destruct E2; [by right|by left]). congruence.
Qed.

Lemma no_conflict p q : conflicts p q = false -> ~ overlap (split_dot p) (split_dot q).
Proof. intros H Ho%conflicts_overlap. congruence. Qed.

(** Applying one operation leaves the outcome of the others as it was. *)
Lemma outcome_after isNil d d' o o' :
  applyUpdateOperation isNil d o = Ok d' -> conflicts (op_path o) (op_path o') = false ->
  op_outcome isNil d' o' = op_outcome isNil d o'.
Proof.
  intros Ha Hc. pose proof (apply_operation isNil d o) as Hop. rewrite Ha in Hop. destruct Hop as (_ & Hq).
  destruct (Hq (split_dot (op_path o')) (no_conflict _ _ Hc)) as [H1 H2]. unfold op_outcome, lookupInternal. by rewrite H1, H2.
Qed.

(** [r] is [d] with every path of [m] as its operation says, judged on [d], and
    every path beside them as it was. *)
Definition updates_to (isNil : bool) (m : MutationSpec) (d r : document) : Prop :=
  Forall (fun o => op_outcome isNil d o = Ok (lookupInternal r (op_path o))) m /\
  forall path, Forall (fun o => conflicts (op_path o) path = false) m -> lookupInternal r path = lookupInternal d path.

(** [o] is the first operation of [m] that cannot be applied to [d], for [e]. *)
Definition fails_at (isNil : bool) (m : MutationSpec) (d : document) (e : gerror) : Prop :=
  exists before o after, m = before ++ o :: after /\
    Forall (fun o => is_ok (op_outcome isNil d o) = true) before /\ op_outcome isNil d o = Err e.

Lemma apply_operations isNil m d :
  disjoint_paths m ->
  match applyOperations isNil d m with
  | Ok d' => updates_to isNil m d d'
  | Err e => fails_at isNil m d e
  end.
Proof.
  revert d; induction m as [|o m IH]; intros d; cbn [disjoint_paths applyOperations]; [intros _; by split; [constructor|]|].
  intros [Ho Hm]. pose proof (apply_operation isNil d o) as Hop.
  destruct (applyUpdateOperation isNil d o) as [d1|e] eqn:E1; cbn [rbind]; [|by exists [], o, m].
  destruct Hop as (Hres & Hq). specialize (IH d1 Hm).
  assert (Hsame : Forall (fun o' => op_outcome isNil d1 o' = op_outcome isNil d o') m).
  { eapply Forall_impl; [exact Ho|]. intros o' Hc. by eapply outcome_after. }
  rewrite Forall_forall in Hsame. destruct (applyOperations isNil d1 m) as [d'|e].
  - destruct IH as [Hall Hrest].
    assert (Hkeep : lookupInternal d' (op_path o) = lookupInternal d1 (op_path o)).
    { apply Hrest. eapply Forall_impl; [exact Ho|]. intros o' Hc. by rewrite conflicts_sym. }
    split.
    + constructor; [by rewrite Hkeep|]. rewrite Forall_forall in Hall |- *. intros o' Hin. rewrite <- Hsame by done. by apply Hall.
    + intros path [Hc Hcs]%Forall_cons. rewrite Hrest by done. unfold lookupInternal. by apply Hq, no_conflict.
  - destruct IH as (before & o' & after & -> & Hok & He). exists (o :: before), o', after. split; [done|].
    rewrite <- Hsame by (apply elem_of_app; right; left). split; [|done]. constructor; [by rewrite Hres|].
    rewrite Forall_forall in Hok |- *. intros x Hx. rewrite <- Hsame by (apply elem_of_app; by left). by apply Hok.
Qed.

(** ** What the compiler guarantees *)

Lemma disjoint_paths_app m1 m2 :
  disjoint_paths (m1 ++ m2) <-> disjoint_paths m1 /\ disjoint_paths m2 /\
    Forall (fun o => Forall (fun o' => conflicts (op_path o) (op_path o') = false) m2) m1.
Proof.
  induction m1 as [|o m1 IH]; cbn [app disjoint_paths]; [by split; [intros; split_and!|tauto]|].
  rewrite Forall_app, Forall_cons, IH. tauto.
Qed.

(** The operations so far: their paths are the ones seen, valid, disjoint, and off [_id]. *)
Record compiled (seen : list bytes) (m : MutationSpec) : Prop := {
  cd_paths : op_path <$> m = seen;
  cd_disjoint : disjoint_paths m;
  cd_valid : Forall (fun o => validatePath (op_path o) = true /\ conflicts (op_path o) (bs "_id") = false) m }.

Lemma path_off_id path :
  beqb path (bs "_id") || has_prefix path (bs "_id.") = false -> validatePath path = true -> conflicts path (bs "_id") = false.
Proof.
  intros [H1 H2]%orb_false_iff Hv. unfold conflicts. rewrite H1. cbn [orb].
  change (bs "_id" ++ [dot]) with (bs "_id."). rewrite H2. cbn [orb].
  apply not_true_iff_false. rewrite has_prefix_spec. intros [r Hr]. rewrite <- app_assoc in Hr. cbn [app] in Hr.
  assert (split_dot (bs "_id") = split_dot path ++ split_dot r) as Hsplit by (rewrite Hr; apply split_dot_app).
  apply (f_equal length) in Hsplit. rewrite length_app in Hsplit. change (length (split_dot (bs "_id"))) with 1%nat in Hsplit.
  pose proof (split_dot_nonempty path). pose proof (split_dot_nonempty r). destruct (split_dot path), (split_dot r); cbn in *; try done; lia.
Qed.

Lemma compilePaths_compiled operator paths seen m seen' m' :
  compiled seen m -> compilePaths operator paths seen m = Ok (seen', m') ->
  compiled seen' m' /\ exists added, m' = m ++ added /\
    Forall2 (fun kv o => op_kind o = drop 1 operator /\ op_path o = kv.1 /\
      (if beqb operator (bs "$unset") then op_value o = VNull else ValueOf kv.2 = Ok (op_value o))) paths added.
Proof.
  revert seen m; induction paths as [|[path raw] paths IH]; intros seen m Hc; cbn [compilePaths].
  { intros [= <- <-]. split; [done|]. exists []. by rewrite app_nil_r. }
  destruct (validatePath path) eqn:Ev; cbn [negb]; [|done]. destruct (_ || _) eqn:Eid; [done|].
  destruct (existsb _ seen) eqn:Eseen; [done|]. intros Hok. inv_ok.
  destruct (_ && negb _) in Hok; [done|]. pose proof Hc as [Hp Hd Hv].
  assert (Hc' : compiled (seen ++ [path]) (m ++ [mk_op (drop 1 operator) path a])).
  { split.
    - by rewrite fmap_app, Hp.
    - apply disjoint_paths_app. split; [done|]. split; [by split; [constructor|]|]. apply Forall_forall. intros o Ho. constructor; [|constructor].
      cbn [op_path]. destruct (conflicts (op_path o) path) eqn:E; [|done]. rewrite <- not_true_iff_false in Eseen. exfalso. apply Eseen.
      apply existsb_exists. exists (op_path o). split; [|done]. rewrite <- Hp. apply list_elem_of_In, list_elem_of_fmap. by exists o.
    - apply Forall_app. split; [done|]. constructor; [|constructor]. split; [done|]. by apply path_off_id. }
  destruct (IH _ _ Hc' Hok) as (Hfin & added & -> & Hadd). split; [done|]. exists (mk_op (drop 1 operator) path a :: added).
  rewrite <- app_assoc. split; [done|]. constructor; [|done]. cbn [op_kind op_path op_value fst snd]. split; [done|]. split; [done|].
  destruct (beqb operator (bs "$unset")); [by injection Hok0 as <-|]. destruct (ValueOf raw); [by injection Hok0 as <-|done].
Qed.

(** The operations of an update: one for each path of each operator, in order. *)
Definition requested (update : list (bytes * any)) (m : MutationSpec) : Prop :=
  exists groups, m = concat groups /\
    Forall2 (fun kv group => exists fields, asStringAnyMap kv.2 = Some fields /\ fields <> [] /\ kv.1 ∈ update_operators /\
      Forall2 (fun field o => op_kind o = drop 1 kv.1 /\ op_path o = field.1 /\
        (if beqb kv.1 (bs "$unset") then op_value o = VNull else ValueOf field.2 = Ok (op_value o))) (sort_fields fields) group)
      (sort_fields update) groups.

Lemma compileOperators_compiled operators seen m m' :
  compiled seen m -> compileOperators operators seen m = Ok m' ->
  exists seen', compiled seen' m' /\ exists groups, m' = m ++ concat groups /\
    Forall2 (fun kv group => exists fields, asStringAnyMap kv.2 = Some fields /\ fields <> [] /\ kv.1 ∈ update_operators /\
      Forall2 (fun field o => op_kind o = drop 1 kv.1 /\ op_path o = field.1 /\
        (if beqb kv.1 (bs "$unset") then op_value o = VNull else ValueOf field.2 = Ok (op_value o))) (sort_fields fields) group)
      operators groups.
Proof.
  revert seen m; induction operators as [|[operator raw] operators IH]; intros seen m Hc; cbn [compileOperators].
  { intros [= <-]. exists seen. split; [done|]. exists []. by rewrite app_nil_r. }
  destruct (existsb (beqb operator) update_operators) eqn:Eop; cbn [negb]; [|done].
  destruct (asStringAnyMap raw) as [fields|] eqn:Ef; [|done]. destruct (Z.eqb_spec (zlen fields) 0) as [|Hne]; [done|].
  intros Hok. inv_ok. destruct a as [seen1 m1].
  destruct (compilePaths_compiled _ _ _ _ _ _ Hc Hok0) as (Hc1 & added & -> & Hadd).
  destruct (IH _ _ Hc1 Hok) as (seen' & Hfin & groups & -> & Hgroups). exists seen'. split; [done|]. exists (added :: groups).
  cbn [concat]. rewrite app_assoc. split; [done|]. constructor; [|done]. exists fields. cbn [fst snd]. split; [done|].
  split; [by intros ->|]. split; [|done]. apply existsb_exists in Eop as (x & Hin & ->%beqb_eq). by apply list_elem_of_In.
Qed.

Lemma CompileUpdate_compiled update m :
  CompileUpdate update = Ok m -> requested update m /\ disjoint_paths m /\
  Forall (fun o => validatePath (op_path o) = true /\ conflicts (op_path o) (bs "_id") = false) m.
Proof.
  unfold CompileUpdate. destruct (_ =? 0); [done|]. intros Hc.
  destruct (compileOperators_compiled (sort_fields update) [] [] m) as (seen & Hfin & groups & -> & Hg); [by split|done|].
  split; [by exists groups|]. split; apply Hfin.
Qed.

Lemma sort_fields_nonempty {A} (l : list (bytes * A)) : l <> [] -> sort_fields l <> [].
Proof.
  intros Hne E. destruct l as [|[k v] l]; [done|]. assert (Hin : k ∈ (sort_fields ((k, v) :: l)).*1) by (apply elem_of_sort_fields; left).
  rewrite E in Hin. by apply elem_of_nil in Hin.
Qed.

Lemma compiled_nonempty update m : CompileUpdate update = Ok m -> m <> [].
Proof.
  intros Hc. destruct (CompileUpdate_compiled _ _ Hc) as ((groups & -> & Hg) & _). unfold CompileUpdate in Hc.
  destruct (Z.eqb_spec (zlen update) 0) as [|Hne]; [done|].
  assert (Hs : sort_fields update <> []) by (apply sort_fields_nonempty; by intros ->).
  destruct Hg as [|kv group kvs groups (fields & _ & Hf & _ & H2) Hg]; [done|]. apply sort_fields_nonempty in Hf.
  destruct H2; [done|]. done.
Qed.

Lemma Document_ID_lookup d d' : lookupInternal d' (bs "_id") = lookupInternal d (bs "_id") -> Document_ID d' = Document_ID d.
Proof.
  unfold lookupInternal, Document_ID. change (split_dot (bs "_id")) with [bs "_id"]. cbn [lookup_parts].
  destruct (field d' (bs "_id")), (field d (bs "_id")); intros H; try done. by injection H as ->.
Qed.

(** What applying an update ends in. *)
Definition applied (isNil : bool) (m : MutationSpec) (d : document) (r : result document) : Prop :=
  match r with
  | Ok r => updates_to isNil m d r /\ Validate r = true /\ Document_ID r = Document_ID d
  | Err e => fails_at isNil m d e \/ e = ErrInvalidDocument /\ exists r, updates_to isNil m d r /\ Validate r = false
  end.

Lemma update_applies update m isNil d :
  CompileUpdate update = Ok m -> requested update m /\ applied isNil m d (Apply m isNil d).
Proof.
  intros Hc. destruct (CompileUpdate_compiled _ _ Hc) as (Hreq & Hdis & Hvalid). split; [done|]. unfold Apply.
  destruct (Z.eqb_spec (zlen m) 0) as [E|_]; [by destruct m; [by destruct (compiled_nonempty _ _ Hc)|rewrite zlen_cons in E; pose proof (zlen_nonneg m); lia]|].
  pose proof (apply_operations isNil m d Hdis) as Ha. destruct (applyOperations isNil d m) as [r|e]; cbn [rbind]; [|by left].
  destruct (Validate r) eqn:Ev; [|right; eauto]. split; [done|]. split; [done|].
  apply Document_ID_lookup, Ha. eapply Forall_impl; [exact Hvalid|]. by intros o [_ ?].
Qed.

(** C32: a compiled update is one operation for each path of each operator, in
    key order. Applied to a document it leaves at every path what its operator
    says, judged on the document as it was, and nothing changes beside the paths;
    the identifier stays and the result is valid. Otherwise it fails with the
    error of the first operation that cannot be applied - because of the value at
    its path, because the path leads through a value that is no object, or, a
    panic, because it would have to assign into a nil map - or, when all can be
    applied, because the result would not be a valid document. *)
Theorem update_correct update m isNil d :
  CompileUpdate update = Ok m ->
  requested update m /\
  match Apply m isNil d with
  | Ok r => updates_to isNil m d r /\ Validate r = true /\ Document_ID r = Document_ID d
  | Err e => fails_at isNil m d e \/ e = ErrInvalidDocument /\ exists r, updates_to isNil m d r /\ Validate r = false
  end.
Proof. intros Hc. destruct (update_applies update m isNil d Hc) as [? Ha]. split; [done|]. by destruct (Apply m isNil d). Qed.

Definition example_update : list (bytes * any) :=
  [(bs "$set", AMap [(bs "a.b", AInt 1)]); (bs "$inc", AMap [(bs "n", AInt 2)]); (bs "$push", AMap [(bs "l", AString (bs "x"))])].
Definition example_document : document :=
  [(bs "_id", VID (replicate 16 x01)); (bs "n", VInt 40); (bs "l", VArray [VNull])].

(** An object made from a nil map: setting a field of it panics, removing one
    does not. *)
Definition example_nil : document := [(bs "_id", VID (replicate 16 x01)); (bs "a", VObject true [])].

Example nil_set_panics :
  Apply [mk_op (bs "set") (bs "a.b") (VInt 1)] false example_nil = Err ErrPanic /\
  Apply [mk_op (bs "set") (bs "a.b.c") (VInt 1)] false example_nil = Err ErrPanic /\
  is_ok (Apply [mk_op (bs "unset") (bs "a.b") VNull] false example_nil) = true.
Proof. by vm_compute. Qed.

Lemma update_correct_witness :
  exists m r, CompileUpdate example_update = Ok m /\ Apply m false example_document = Ok r /\ requested example_update m /\
    lookupInternal r (bs "n") = Some (VInt 42) /\ lookupInternal r (bs "a.b") = Some (VInt 1) /\ Document_ID r = Some (replicate 16 x01) /\
    fails_at false m example_nil ErrPanic.
Proof.
  destruct (CompileUpdate example_update) as [m|] eqn:Hc; [|vm_compute in Hc; discriminate Hc].
  destruct (update_correct example_update m false example_document Hc) as [Hreq Happ].
  destruct (update_correct example_update m false example_nil Hc) as [_ Hnil].
  assert (Hp : Apply m false example_nil = Err ErrPanic).
  { vm_compute in Hc. injection Hc as <-. vm_compute. reflexivity. }
  rewrite Hp in Hnil. destruct (Apply m false example_document) as [r|] eqn:Ha.
  - exists m, r. split; [reflexivity|]. split; [exact Ha|]. split; [exact Hreq|]. destruct Happ as (_ & _ & Hid).
    vm_compute in Hc. injection Hc as <-. vm_compute in Ha. injection Ha as <-. split; [reflexivity|]. split; [reflexivity|].
    split; [exact Hid|]. destruct Hnil as [H|[E _]]; [exact H|discriminate E].
  - exfalso. vm_compute in Hc. injection Hc as <-. vm_compute in Ha. discriminate Ha.
Defined.
