(* ===== verification/Query.v ===== *)
(** * Queries: compiled filters and their evaluation

    [internal/database/query.go] and [query_budget.go]. A Go function that
    returns [(bool, error)] returns an [outcome]: both results, since a caller
    such as [Match] reads the first whatever the second is. A budget is passed
    by pointer and may be nil, so every evaluation takes and returns an optional
    budget. *)
From S2P Require Import Prelude Bytes Strings Entries Float64 Values Documents Any DocumentCodec.

(** ** Limits *)

Record QueryLimits := mk_query_limits {
  MaxWireBytes : Z; MaxDepth : Z; MaxNodes : Z; MaxArrayItems : Z;
  MaxValueBytes : Z; MaxSortFields : Z; MaxLimit : Z }.

Definition DefaultQueryLimits : QueryLimits := mk_query_limits (2 ^ 20) 16 128 256 16384 4 10000.

Definition maxQueryArraySize : Z := 2 ^ 53 - 1.

Definition canonicalQueryTypes : list (bytes * kind) :=
  [(bs "null", NullKind); (bs "boolean", BoolKind); (bs "int64", Int64Kind); (bs "float64", Float64Kind);
   (bs "string", StringKind); (bs "date", TimeKind); (bs "id", IDKind); (bs "binary", BinaryKind);
   (bs "array", ArrayKind); (bs "object", ObjectKind)].

Record ResourceLimits := mk_resource_limits {
  MaxDocumentBytes : Z; MaxTransactionBytes : Z; MaxTransactionChanges : Z;
  MaxIndexBuildEntries : Z; MaxIndexBuildBytes : Z;
  MaxReactiveViewDocuments : Z; MaxReactiveViewBytes : Z;
  MaxQueryDocumentsExamined : Z; MaxQueryKeysExamined : Z; MaxQueryCandidates : Z;
  MaxQuerySortBytes : Z; MaxQuerySkip : Z; MaxQueryPredicateSteps : Z }.

(** ** Expressions

    [nilElement] and [nilExpr] are nil interface values. *)
Unset Elimination Schemes.
Inductive elementExpr :=
| nilElement
| elementLogicalExpr (op : bytes) (args : list elementExpr)
| elementNotExpr (arg : elementExpr)
| elementCompareExpr (cmp : bytes) (v : value)
| elementMembershipExpr (op : bytes) (values : list value).

Inductive expr :=
| nilExpr
| trueExpr
| logicalExpr (op : bytes) (args : list expr)
| notExpr (arg : expr)
| compareExpr (cmp path : bytes) (v : value)
| membershipExpr (op path : bytes) (values : list value)
| existsExpr (path : bytes) (v : bool)
| sizeExpr (path : bytes) (size : Z)
| typeExpr (path : bytes) (types : list kind)
| allExpr (path : bytes) (values : list value)
| elemMatchExpr (path mode : bytes) (scalar : elementExpr) (object : expr).
Set Elimination Schemes.

Record SortField := mk_sort { sf_path : bytes; sf_direction : Z }.

Record QuerySpec := mk_query {
  q_where : expr; q_sort : list SortField; q_skip : Z; q_limit : option Z; q_seek : bool }.

(** ** Budgets *)

(** [b_db]: whether the budget belongs to a database, whose rejections are
    counted once. *)
Record queryBudget := mk_budget {
  b_db : bool; b_query : QuerySpec; b_limits : ResourceLimits;
  b_documents : Z; b_keys : Z; b_candidates : Z; b_sortBytes : Z; b_predicateSteps : Z;
  b_rejected : bool; b_exceeded : bytes }.

Definition newPredicateBudget (query : QuerySpec) (limits : ResourceLimits) : queryBudget :=
  mk_budget false query limits 0 0 0 0 0 false [].

Definition reject (kind : bytes) (b : queryBudget) : queryBudget :=
  mk_budget (b_db b) (b_query b) (b_limits b) (b_documents b) (b_keys b) (b_candidates b) (b_sortBytes b)
    (b_predicateSteps b) (b_rejected b || b_db b) (if beqb (b_exceeded b) [] then kind else b_exceeded b).

Definition newQueryBudget (limits : ResourceLimits) (query : QuerySpec) : queryBudget * option gerror :=
  let budget := mk_budget true query limits 0 0 0 0 0 false [] in
  if MaxQuerySkip limits <? to_u64 (q_skip query) then (reject (bs "skip") budget, Some ErrQueryBudget)
  else (budget, None).

Definition charge_document (b : queryBudget) : queryBudget * option gerror :=
  if MaxQueryDocumentsExamined (b_limits b) <=? b_documents b then (reject (bs "documents") b, Some ErrQueryBudget)
  else (mk_budget (b_db b) (b_query b) (b_limits b) (b_documents b + 1) (b_keys b) (b_candidates b)
          (b_sortBytes b) (b_predicateSteps b) (b_rejected b) (b_exceeded b), None).

Definition charge_key (b : queryBudget) : queryBudget * option gerror :=
  if MaxQueryKeysExamined (b_limits b) <=? b_keys b then (reject (bs "keys") b, Some ErrQueryBudget)
  else (mk_budget (b_db b) (b_query b) (b_limits b) (b_documents b) (b_keys b + 1) (b_candidates b)
          (b_sortBytes b) (b_predicateSteps b) (b_rejected b) (b_exceeded b), None).

Definition predicate (b : queryBudget) : queryBudget * option gerror :=
  if MaxQueryPredicateSteps (b_limits b) <=? b_predicateSteps b then (reject (bs "predicate_steps") b, Some ErrQueryBudget)
  else (mk_budget (b_db b) (b_query b) (b_limits b) (b_documents b) (b_keys b) (b_candidates b)
          (b_sortBytes b) (b_predicateSteps b + 1) (b_rejected b) (b_exceeded b), None).

Definition set_candidates (b : queryBudget) (candidates sortBytes : Z) : queryBudget :=
  mk_budget (b_db b) (b_query b) (b_limits b) (b_documents b) (b_keys b) candidates sortBytes
    (b_predicateSteps b) (b_rejected b) (b_exceeded b).

Definition charge_candidate (d : document) (b : queryBudget) : queryBudget * option gerror :=
  if MaxQueryCandidates (b_limits b) <=? b_candidates b then (reject (bs "candidates") b, Some ErrQueryBudget)
  else
    let b := set_candidates b (b_candidates b + 1) (b_sortBytes b) in
    if zlen (q_sort (b_query b)) =? 0 then (b, None)
    else
      match canonicalDocumentSize d with
      | Err e => (b, Some e)
      | Ok size =>
          if (MaxQuerySortBytes (b_limits b) <? b_sortBytes b)
             || (MaxQuerySortBytes (b_limits b) - b_sortBytes b <? size)
          then (reject (bs "sort_bytes") b, Some ErrQueryBudget)
          else (set_candidates b (b_candidates b) (b_sortBytes b + size), None)
      end.

Definition releaseCandidate (d : document) (b : queryBudget) : queryBudget * option gerror :=
  if b_candidates b =? 0 then (b, Some ErrCorrupt)
  else
    let b := set_candidates b (b_candidates b - 1) (b_sortBytes b) in
    if zlen (q_sort (b_query b)) =? 0 then (b, None)
    else
      match canonicalDocumentSize d with
      | Err e => (b, Some e)
      | Ok size =>
          if b_sortBytes b <? size then (b, Some ErrCorrupt)
          else (set_candidates b (b_candidates b) (b_sortBytes b - size), None)
      end.

(** ** Evaluation *)

Abbreviation outcome := (bool * option gerror)%type.
Abbreviation budgeted := (option queryBudget -> outcome * option queryBudget).

(** [if budget != nil { if err := budget.predicate(); err != nil { return false, err } }]
    before the rest. *)
Definition charged (rest : budgeted) : budgeted := fun budget =>
  match budget with
  | None => rest None
  | Some b =>
      match predicate b with
      | (b, Some err) => ((false, Some err), Some b)
      | (b, None) => rest (Some b)
      end
  end.

Definition returns (o : bool) : budgeted := fun budget => ((o, None), budget).

(** [matched, err := m; return !matched, err]. *)
Definition negated (m : budgeted) : budgeted := fun budget =>
  let '((matched, err), budget) := m budget in ((negb matched, err), budget).

Section Loops.
Context {A : Type} (f : A -> budgeted).

(** The conjunction loop: [if err != nil || !matched { return false, err }]. *)
Fixpoint and_loop (args : list A) : budgeted := fun budget =>
  match args with
  | [] => ((true, None), budget)
  | arg :: args =>
      let '((matched, err), budget) := f arg budget in
      match err with
      | Some e => ((false, Some e), budget)
      | None => if matched then and_loop args budget else ((false, None), budget)
      end
  end.

(** The disjunction loop: [if err != nil || matched { return matched, err }]. *)
Fixpoint or_loop (args : list A) : budgeted := fun budget =>
  match args with
  | [] => ((false, None), budget)
  | arg :: args =>
      let '((matched, err), budget) := f arg budget in
      match err with
      | Some e => ((matched, Some e), budget)
      | None => if matched then ((true, None), budget) else or_loop args budget
      end
  end.

(** A search loop that charges every element before [f] looks at it:
    [if err != nil { return false, err }; if matched { ... }]. *)
Fixpoint find_loop (items : list A) : budgeted := fun budget =>
  match items with
  | [] => ((false, None), budget)
  | item :: items =>
      charged (fun budget =>
        let '((matched, err), budget) := f item budget in
        match err with
        | Some e => ((false, Some e), budget)
        | None => if matched then ((true, None), budget) else find_loop items budget
        end) budget
  end.
End Loops.

Definition fieldEqualsWithBudget (v candidate : value) : budgeted :=
  match v with
  | VArray items =>
      if negb (kind_eqb (Kind candidate) ArrayKind)
      then find_loop (fun item => returns (Equal item candidate)) items
      else returns (Equal v candidate)
  | _ => returns (Equal v candidate)
  end.

Definition fieldEquals (v candidate : value) : bool := (fieldEqualsWithBudget v candidate None).1.1.

(** The range comparisons of [compareExpr.match] and [matchElementExpression]. *)
Definition range_compare (cmp : bytes) (v operand : value) : bool :=
  match compareValues v operand with
  | None => false
  | Some comparison =>
      if beqb cmp (bs "gt") then 0 <? comparison
      else if beqb cmp (bs "gte") then 0 <=? comparison
      else if beqb cmp (bs "lt") then comparison <? 0
      else comparison <=? 0
  end.

Definition compare_value (cmp : bytes) (v operand : value) : budgeted :=
  if beqb cmp (bs "eq") then fieldEqualsWithBudget v operand
  else if beqb cmp (bs "ne") then negated (fieldEqualsWithBudget v operand)
  else returns (range_compare cmp v operand).

Definition compareExpr_match (cmp path : bytes) (operand : value) (d : document) : budgeted :=
  match lookupInternal d path with
  | None => returns (beqb cmp (bs "ne"))
  | Some v => compare_value cmp v operand
  end.

(** The candidates loop of the membership tests, and what [op] makes of it. *)
Definition member_hit (v : value) (values : list value) : budgeted :=
  find_loop (fun candidate => fieldEqualsWithBudget v candidate) values.

Definition membership_result (op : bytes) (hit : budgeted) : budgeted := fun budget =>
  let '((hit, err), budget) := hit budget in
  match err with
  | Some e => ((false, Some e), budget)
  | None => ((if beqb op (bs "in") then hit else negb hit, None), budget)
  end.

Definition membershipExpr_match (op path : bytes) (values : list value) (d : document) : budgeted :=
  membership_result op
    (match lookupInternal d path with Some v => member_hit v values | None => returns false end).

Definition existsExpr_match (path : bytes) (v : bool) (d : document) : budgeted :=
  returns (Bool.eqb (match lookupInternal d path with Some _ => true | None => false end) v).

Definition sizeExpr_match (path : bytes) (size : Z) (d : document) : budgeted :=
  returns (match lookupInternal d path with Some (VArray items) => zlen items =? size | _ => false end).

Definition typeExpr_match (path : bytes) (types : list kind) (d : document) : budgeted :=
  match lookupInternal d path with
  | None => returns false
  | Some v => find_loop (fun k => returns (kind_eqb (Kind v) k)) types
  end.

Fixpoint all_loop (items required : list value) : budgeted := fun budget =>
  match required with
  | [] => ((true, None), budget)
  | r :: required =>
      charged (fun budget =>
        let '((matched, err), budget) := find_loop (fun item => returns (Equal item r)) items budget in
        match err with
        | Some e => ((false, Some e), budget)
        | None => if matched then all_loop items required budget else ((false, None), budget)
        end) budget
  end.

Definition allExpr_match (path : bytes) (values : list value) (d : document) : budgeted :=
  match lookupInternal d path with
  | Some (VArray items) => all_loop items values
  | _ => returns false
  end.

Definition corrupt : budgeted := fun budget => ((false, Some ErrCorrupt), budget).

Fixpoint matchElementExpression (e : elementExpr) (v : value) : budgeted :=
  charged
    (match e with
     | nilElement => corrupt
     | elementLogicalExpr op args =>
         if beqb op (bs "and") then and_loop (fun child => matchElementExpression child v) args
         else or_loop (fun child => matchElementExpression child v) args
     | elementNotExpr arg => negated (matchElementExpression arg v)
     | elementCompareExpr cmp operand => compare_value cmp v operand
     | elementMembershipExpr op values => membership_result op (member_hit v values)
     end).

Fixpoint matchExpression (e : expr) (d : document) : budgeted :=
  charged
    (match e with
     | nilExpr => corrupt
     | trueExpr => returns true
     | logicalExpr op args =>
         if beqb op (bs "and") then and_loop (fun arg => matchExpression arg d) args
         else or_loop (fun arg => matchExpression arg d) args
     | notExpr arg => negated (matchExpression arg d)
     | compareExpr cmp path operand => compareExpr_match cmp path operand d
     | membershipExpr op path values => membershipExpr_match op path values d
     | existsExpr path v => existsExpr_match path v d
     | sizeExpr path size => sizeExpr_match path size d
     | typeExpr path types => typeExpr_match path types d
     | allExpr path values => allExpr_match path values d
     | elemMatchExpr path mode scalar object =>
         match lookupInternal d path with
         | Some (VArray items) =>
             find_loop (fun item =>
               if beqb mode (bs "scalar") then matchElementExpression scalar item
               else if beqb mode (bs "object") then
                 match item with VObject _ o => matchExpression object o | _ => returns false end
               else corrupt) items
         | _ => returns false
         end
     end).

(** ** Query operations *)

Definition matchWithBudget (q : QuerySpec) (d : document) : budgeted :=
  match q_where q with
  | nilExpr => returns false
  | e => matchExpression e d
  end.

Definition Match (q : QuerySpec) (d : document) : bool := (matchWithBudget q d None).1.1.

Definition HasModifiers (q : QuerySpec) : bool :=
  (0 <? zlen (q_sort q)) || negb (q_skip q =? 0) || (match q_limit q with Some _ => true | None => false end).

Definition Constrain (q policy : QuerySpec) : QuerySpec :=
  mk_query (logicalExpr (bs "and") [q_where policy; q_where q]) (q_sort q) (q_skip q) (q_limit q) (q_seek q).

Definition Capped (q : QuerySpec) (max : Z) : QuerySpec :=
  let capped := match q_limit q with None => true | Some limit => max <? limit end in
  mk_query (q_where q) (q_sort q) (q_skip q)
    (if (0 <=? max) && capped then Some max else q_limit q) (q_seek q).

(** [seen[key] = struct{}{}]: a set as the list of its members. *)
Definition see (path : bytes) (seen : list bytes) : list bytes :=
  if existsb (beqb path) seen then seen else path :: seen.

Fixpoint collectExprPaths (e : expr) (seen : list bytes) : list bytes :=
  match e with
  | nilExpr | trueExpr => seen
  | logicalExpr _ args => fold_left (fun seen child => collectExprPaths child seen) args seen
  | notExpr arg => collectExprPaths arg seen
  | compareExpr _ path _ | membershipExpr _ path _ | existsExpr path _ | sizeExpr path _
  | typeExpr path _ | allExpr path _ | elemMatchExpr path _ _ _ => see path seen
  end.

Definition QuerySpec_Paths (q : QuerySpec) : list bytes :=
  sort_strings (fold_left (fun seen f => see (sf_path f) seen) (q_sort q) (collectExprPaths (q_where q) [])).

Definition SortPaths (q : QuerySpec) : list bytes := sf_path <$> q_sort q.

(** [FilterCapability]: a path and an operator. *)
Definition seeCapability (c : bytes * bytes) (seen : list (bytes * bytes)) : list (bytes * bytes) :=
  if existsb (fun s => beqb c.1 s.1 && beqb c.2 s.2) seen then seen else c :: seen.

Fixpoint collectFilterCapabilities (e : expr) (seen : list (bytes * bytes)) : list (bytes * bytes) :=
  match e with
  | nilExpr | trueExpr => seen
  | logicalExpr _ args => fold_left (fun seen child => collectFilterCapabilities child seen) args seen
  | notExpr arg => collectFilterCapabilities arg seen
  | compareExpr cmp path _ => seeCapability (path, cmp) seen
  | membershipExpr op path _ => seeCapability (path, op) seen
  | existsExpr path _ => seeCapability (path, bs "exists") seen
  | sizeExpr path _ => seeCapability (path, bs "size") seen
  | typeExpr path _ => seeCapability (path, bs "type") seen
  | allExpr path _ => seeCapability (path, bs "all") seen
  | elemMatchExpr path _ _ _ => seeCapability (path, bs "elem_match") seen
  end.

Definition capability_less (left right : bytes * bytes) : bool :=
  if beqb left.1 right.1 then bltb left.2 right.2 else bltb left.1 right.1.

Fixpoint insert_capability (x : bytes * bytes) (l : list (bytes * bytes)) : list (bytes * bytes) :=
  match l with
  | [] => [x]
  | y :: l => if capability_less y x then y :: insert_capability x l else x :: y :: l
  end.

Definition FilterCapabilities (q : QuerySpec) : list (bytes * bytes) :=
  foldr insert_capability [] (collectFilterCapabilities (q_where q) []).

(** ** Induction over expressions *)

Section element_induction.
Variable P : elementExpr -> Prop.
Hypothesis Hnil : P nilElement.
Hypothesis Hlogical : forall op args, Forall P args -> P (elementLogicalExpr op args).
Hypothesis Hnot : forall arg, P arg -> P (elementNotExpr arg).
Hypothesis Hcompare : forall cmp v, P (elementCompareExpr cmp v).
Hypothesis Hmember : forall op values, P (elementMembershipExpr op values).

Fixpoint elementExpr_nested_ind (e : elementExpr) : P e :=
  match e with
  | nilElement => Hnil
  | elementLogicalExpr op args => Hlogical op args
      ((fix go (l : list elementExpr) : Forall P l :=
          match l with
          | [] => List.Forall_nil _
          | e :: l => List.Forall_cons _ _ _ (elementExpr_nested_ind e) (go l)
          end) args)
  | elementNotExpr arg => Hnot arg (elementExpr_nested_ind arg)
  | elementCompareExpr cmp v => Hcompare cmp v
  | elementMembershipExpr op values => Hmember op values
  end.
End element_induction.

Section expr_induction.
Variable P : expr -> Prop.
Hypothesis Hnil : P nilExpr.
Hypothesis Htrue : P trueExpr.
Hypothesis Hlogical : forall op args, Forall P args -> P (logicalExpr op args).
Hypothesis Hnot : forall arg, P arg -> P (notExpr arg).
Hypothesis Hcompare : forall cmp path v, P (compareExpr cmp path v).
Hypothesis Hmember : forall op path values, P (membershipExpr op path values).
Hypothesis Hexists : forall path v, P (existsExpr path v).
Hypothesis Hsize : forall path size, P (sizeExpr path size).
Hypothesis Htype : forall path types, P (typeExpr path types).
Hypothesis Hall : forall path values, P (allExpr path values).
Hypothesis Helem : forall path mode scalar object, P object -> P (elemMatchExpr path mode scalar object).

Fixpoint expr_nested_ind (e : expr) : P e :=
  match e with
  | nilExpr => Hnil
  | trueExpr => Htrue
  | logicalExpr op args => Hlogical op args
      ((fix go (l : list expr) : Forall P l :=
          match l with
          | [] => List.Forall_nil _
          | e :: l => List.Forall_cons _ _ _ (expr_nested_ind e) (go l)
          end) args)
  | notExpr arg => Hnot arg (expr_nested_ind arg)
  | compareExpr cmp path v => Hcompare cmp path v
  | membershipExpr op path values => Hmember op path values
  | existsExpr path v => Hexists path v
  | sizeExpr path size => Hsize path size
  | typeExpr path types => Htype path types
  | allExpr path values => Hall path values
  | elemMatchExpr path mode scalar object => Helem path mode scalar object (expr_nested_ind object)
  end.
End expr_induction.

(** ** Metering

    What a budget changes: nothing while it lasts, and the error once it does
    not. [spend n b] is the budget after [n] more predicate steps. *)

Definition spend (n : Z) (b : queryBudget) : queryBudget :=
  mk_budget (b_db b) (b_query b) (b_limits b) (b_documents b) (b_keys b) (b_candidates b) (b_sortBytes b)
    (b_predicateSteps b + n) (b_rejected b) (b_exceeded b).

Definition steps_left (b : queryBudget) : Z := MaxQueryPredicateSteps (b_limits b) - b_predicateSteps b.

(** [m] costs [n] steps: with that many left it does what it does unmetered,
    with fewer it uses them up and fails. *)
Definition costs (m : budgeted) (n : Z) : Prop :=
  0 <= n /\ (m None).2 = None /\
  forall b, 0 <= steps_left b ->
    if n <=? steps_left b then m (Some b) = ((m None).1, Some (spend n b))
    else exists o, m (Some b) = ((o, Some ErrQueryBudget),
                                 Some (reject (bs "predicate_steps") (spend (steps_left b) b))).

Definition metered (m : budgeted) : Prop := exists n, costs m n.

(** Runs [m], then [k] on its result; an error skips [k]. *)
Definition then_do (m : budgeted) (on_err : bool -> bool) (k : bool -> budgeted) : budgeted := fun budget =>
  let '((matched, err), budget) := m budget in
  match err with
  | Some e => ((on_err matched, Some e), budget)
  | None => k matched budget
  end.

Lemma spend_0 b : spend 0 b = b.
Proof. destruct b. unfold spend. cbn. by rewrite Z.add_0_r. Qed.
Lemma spend_spend m n b : spend n (spend m b) = spend (m + n) b.
Proof. unfold spend. cbn. by rewrite Z.add_assoc. Qed.
Lemma steps_left_spend n b : steps_left (spend n b) = steps_left b - n.
Proof. unfold steps_left, spend. cbn. lia. Qed.

Lemma metered_ext m m' : (forall b, m b = m' b) -> metered m -> metered m'.
Proof.
  intros H (n & Hn & Hnone & Hb). exists n. split; [done|]. rewrite <- H. split; [done|].
  intros b Hl. specialize (Hb b Hl). by rewrite <- !H.
Qed.

Lemma metered_returns o : metered (returns o).
Proof.
  exists 0. split; [done|]. split; [done|]. intros b Hl.
  destruct (Z.leb_spec 0 (steps_left b)); [|lia]. by rewrite spend_0.
Qed.

Lemma metered_corrupt : metered corrupt.
Proof.
  exists 0. split; [done|]. split; [done|]. intros b Hl.
  destruct (Z.leb_spec 0 (steps_left b)); [|lia]. by rewrite spend_0.
Qed.

Lemma metered_charged m : metered m -> metered (charged m).
Proof.
  intros (n & Hn & Hnone & Hb). exists (1 + n). split; [lia|]. split; [done|].
  intros b Hl. unfold charged, predicate.
  destruct (Z.leb_spec (MaxQueryPredicateSteps (b_limits b)) (b_predicateSteps b)).
  - destruct (Z.leb_spec (1 + n) (steps_left b)); [unfold steps_left in *; lia|].
    exists false. assert (steps_left b = 0) as -> by (unfold steps_left in *; lia). by rewrite spend_0.
  - change (mk_budget _ _ _ _ _ _ _ _ _ _) with (spend 1 b).
    assert (Hs : 0 <= steps_left (spend 1 b)) by (rewrite steps_left_spend; unfold steps_left; lia).
    specialize (Hb _ Hs). rewrite steps_left_spend, !spend_spend in Hb.
    replace (1 + (steps_left b - 1)) with (steps_left b) in Hb by lia.
    destruct (Z.leb_spec n (steps_left b - 1)), (Z.leb_spec (1 + n) (steps_left b)); [done|lia|lia|done].
Qed.

Lemma metered_then m on_err k :
  metered m -> (forall o, metered (k o)) -> metered (then_do m on_err k).
Proof.
  intros (n & Hn & Hnone & Hb) Hk. unfold then_do.
  destruct (m None) as [[o err] none] eqn:E. cbn [fst snd] in *. subst none.
  destruct err as [e|].
  - exists n. split; [done|]. rewrite E. split; [done|]. intros b Hl. specialize (Hb b Hl).
    destruct (n <=? steps_left b); [by rewrite Hb|]. destruct Hb as [o' ->]. by eexists.
  - destruct (Hk o) as (n' & Hn' & Hnone' & Hb'). exists (n + n'). split; [lia|]. rewrite E.
    split; [done|]. intros b Hl. specialize (Hb b Hl).
    destruct (Z.leb_spec n (steps_left b)) as [Hle|Hgt].
    + rewrite Hb. assert (Hs : 0 <= steps_left (spend n b)) by (rewrite steps_left_spend; lia).
      specialize (Hb' _ Hs). rewrite steps_left_spend, !spend_spend in Hb'.
      replace (n + (steps_left b - n)) with (steps_left b) in Hb' by lia.
      destruct (Z.leb_spec n' (steps_left b - n)), (Z.leb_spec (n + n') (steps_left b)); [done|lia|lia|done].
    + destruct Hb as [o' ->]. destruct (Z.leb_spec (n + n') (steps_left b)); [lia|]. by eexists.
Qed.

Create HintDb metering.
#[export] Hint Resolve metered_returns metered_corrupt metered_charged : metering.

Lemma metered_negated m : metered m -> metered (negated m).
Proof.
  intros H. apply (metered_ext (then_do m negb (fun o => returns (negb o)))); [|auto using metered_then with metering].
  intros b. unfold then_do, negated. destruct (m b) as [[o [e|]] b']; done.
Qed.

Lemma metered_membership op m : metered m -> metered (membership_result op m).
Proof.
  intros H. apply (metered_then m (fun _ => false) (fun hit b => ((if beqb op (bs "in") then hit else negb hit, None), b)));
    [done|]. intros hit. apply metered_returns.
Qed.

Section LoopsMetered.
Context {A : Type} (f : A -> budgeted).

Lemma metered_and_loop args : Forall (fun a => metered (f a)) args -> metered (and_loop f args).
Proof.
  induction 1 as [|a args Ha _ IH]; [apply (metered_returns true)|].
  apply (metered_then (f a) (fun _ => false) (fun o b => if o then and_loop f args b else ((false, None), b))); [done|].
  intros []; [done || apply (metered_returns true)|done || apply (metered_returns false)].
Qed.

Lemma metered_or_loop args : Forall (fun a => metered (f a)) args -> metered (or_loop f args).
Proof.
  induction 1 as [|a args Ha _ IH]; [apply (metered_returns false)|].
  apply (metered_then (f a) (fun o => o) (fun o b => if o then ((true, None), b) else or_loop f args b)); [done|].
  intros []; [done || apply (metered_returns true)|done || apply (metered_returns false)].
Qed.

Lemma metered_find_loop items : (forall a, metered (f a)) -> metered (find_loop f items).
Proof.
  intros Hf. induction items as [|a items IH]; [apply (metered_returns false)|]. apply metered_charged.
  apply (metered_then (f a) (fun _ => false) (fun o b => if o then ((true, None), b) else find_loop f items b)); [done|].
  intros []; [done || apply (metered_returns true)|done || apply (metered_returns false)].
Qed.
End LoopsMetered.
#[export] Hint Resolve metered_negated metered_membership metered_and_loop metered_or_loop metered_find_loop : metering.

Lemma metered_fieldEquals v candidate : metered (fieldEqualsWithBudget v candidate).
Proof. unfold fieldEqualsWithBudget. destruct v; [..|destruct (negb _)| |]; auto with metering. Qed.
#[export] Hint Resolve metered_fieldEquals : metering.

Lemma metered_compare_value cmp v operand : metered (compare_value cmp v operand).
Proof. unfold compare_value. destruct (beqb _ _); [|destruct (beqb _ _)]; auto with metering. Qed.

Lemma metered_member_hit v values : metered (member_hit v values).
Proof. apply metered_find_loop. auto with metering. Qed.
#[export] Hint Resolve metered_compare_value metered_member_hit : metering.

Lemma metered_all_loop items required : metered (all_loop items required).
Proof.
  induction required as [|r required IH]; [apply (metered_returns true)|]. apply metered_charged.
  apply (metered_then (find_loop (fun item => returns (Equal item r)) items) (fun _ => false)
    (fun o b => if o then all_loop items required b else ((false, None), b))); [auto with metering|].
  intros []; [done || apply (metered_returns true)|done || apply (metered_returns false)].
Qed.
#[export] Hint Resolve metered_all_loop : metering.

Lemma metered_element e v : metered (matchElementExpression e v).
Proof.
  induction e using elementExpr_nested_ind; cbn [matchElementExpression]; apply metered_charged;
    [..|auto with metering|auto with metering]; [auto with metering| |auto with metering].
  destruct (beqb _ _); auto with metering.
Qed.
#[export] Hint Resolve metered_element : metering.

Lemma metered_expression e d : metered (matchExpression e d).
Proof.
  revert d. induction e as [| |op args IH|arg IH|cmp path v|op path values|path v|path size|path types|path values
    |path mode scalar object IH] using expr_nested_ind; intros d; cbn [matchExpression]; apply metered_charged;
    unfold existsExpr_match, sizeExpr_match; try (auto with metering; done).
  - assert (Forall (fun a => metered (matchExpression a d)) args) by (eapply Forall_impl; [exact IH|]; auto).
    destruct (beqb _ _); auto with metering.
  - unfold compareExpr_match. destruct (lookupInternal d path); auto with metering.
  - unfold membershipExpr_match. destruct (lookupInternal d path); auto with metering.
  - unfold typeExpr_match. destruct (lookupInternal d path); auto with metering.
  - unfold allExpr_match. destruct (lookupInternal d path) as [[]|]; auto with metering.
  - destruct (lookupInternal d path) as [[]|]; auto with metering. apply metered_find_loop.
    intros item. destruct (beqb _ _); [auto with metering|]. destruct (beqb _ _); [|auto with metering].
    destruct item; auto with metering.
Qed.

Lemma metered_match q d : metered (matchWithBudget q d).
Proof. unfold matchWithBudget. destruct (q_where q); auto using metered_expression with metering. Qed.

(** ** What a filter means

    The reference semantics: which documents satisfy a condition, without
    budgets, errors or evaluation order. *)

(** The shape the compilers and the validator guarantee: no nil expression, and
    an element condition of the announced mode. *)
Fixpoint element_ok (e : elementExpr) : bool :=
  match e with
  | nilElement => false
  | elementLogicalExpr _ args => forallb element_ok args
  | elementNotExpr arg => element_ok arg
  | _ => true
  end.

Fixpoint expr_ok (e : expr) : bool :=
  match e with
  | nilExpr => false
  | logicalExpr _ args => forallb expr_ok args
  | notExpr arg => expr_ok arg
  | elemMatchExpr _ mode scalar object =>
      if beqb mode (bs "scalar") then element_ok scalar
      else if beqb mode (bs "object") then expr_ok object else false
  | _ => true
  end.

(** A field is the candidate, or is an array that has it as an element. *)
Definition field_is (v candidate : value) : Prop :=
  match v with
  | VArray items =>
      if decide (Kind candidate = ArrayKind) then Equal v candidate = true
      else Exists (fun item => Equal item candidate = true) items
  | _ => Equal v candidate = true
  end.

Definition value_compares (cmp : bytes) (v operand : value) : Prop :=
  if decide (cmp = bs "eq") then field_is v operand
  else if decide (cmp = bs "ne") then ~ field_is v operand
  else exists o, compareValues v operand = Some o /\
    (if decide (cmp = bs "gt") then 0 < o
     else if decide (cmp = bs "gte") then 0 <= o
     else if decide (cmp = bs "lt") then o < 0
     else o <= 0).

Definition value_among (op : bytes) (v : value) (values : list value) : Prop :=
  if decide (op = bs "in") then Exists (field_is v) values else ~ Exists (field_is v) values.

Definition any_of (l : list Prop) : Prop := fold_right or False l.
Definition all_of (l : list Prop) : Prop := fold_right and True l.

Fixpoint element_satisfies (e : elementExpr) (v : value) : Prop :=
  match e with
  | nilElement => False
  | elementLogicalExpr op args =>
      if decide (op = bs "and") then all_of ((fun arg => element_satisfies arg v) <$> args)
      else any_of ((fun arg => element_satisfies arg v) <$> args)
  | elementNotExpr arg => ~ element_satisfies arg v
  | elementCompareExpr cmp operand => value_compares cmp v operand
  | elementMembershipExpr op values => value_among op v values
  end.

(** A missing field satisfies only the conditions [ne], [nin] and [exists: false]. *)
Fixpoint satisfies (e : expr) (d : document) : Prop :=
  match e with
  | nilExpr => False
  | trueExpr => True
  | logicalExpr op args =>
      if decide (op = bs "and") then all_of ((fun arg => satisfies arg d) <$> args)
      else any_of ((fun arg => satisfies arg d) <$> args)
  | notExpr arg => ~ satisfies arg d
  | compareExpr cmp path operand =>
      match lookupInternal d path with
      | Some v => value_compares cmp v operand
      | None => cmp = bs "ne"
      end
  | membershipExpr op path values =>
      match lookupInternal d path with
      | Some v => value_among op v values
      | None => op <> bs "in"
      end
  | existsExpr path v => lookupInternal d path <> None <-> v = true
  | sizeExpr path size => exists items, lookupInternal d path = Some (VArray items) /\ zlen items = size
  | typeExpr path types => exists v, lookupInternal d path = Some v /\ Kind v ∈ types
  | allExpr path values =>
      exists items, lookupInternal d path = Some (VArray items) /\
        Forall (fun required => Exists (fun item => Equal item required = true) items) values
  | elemMatchExpr path mode scalar object =>
      exists items, lookupInternal d path = Some (VArray items) /\
        if decide (mode = bs "scalar") then any_of (element_satisfies scalar <$> items)
        else any_of ((fun item => match item with VObject _ o => satisfies object o | _ => False end) <$> items)
  end.

(** [m] decides [P] without an error, when nothing meters it. *)
Definition decides (m : budgeted) (P : Prop) : Prop :=
  exists o, m None = ((o, None), None) /\ (o = true <-> P).

Lemma decides_returns o (P : Prop) : (o = true <-> P) -> decides (returns o) P.
Proof. intros H. by exists o. Qed.

Lemma decides_iff m (P Q : Prop) : (P <-> Q) -> decides m P -> decides m Q.
Proof. intros H (o & Ho & HP). exists o. by rewrite <- H. Qed.

Lemma decides_charged m P : decides m P -> decides (charged m) P.
Proof. intros (o & Ho & HP). by exists o. Qed.

Lemma decides_negated m P : decides m P -> decides (negated m) (~ P).
Proof.
  intros (o & Ho & HP). exists (negb o). unfold negated. rewrite Ho. split; [done|].
  rewrite <- HP. by rewrite negb_true_iff, not_true_iff_false.
Qed.

Lemma any_of_Exists {A} (P : A -> Prop) l : any_of (P <$> l) <-> Exists P l.
Proof.
  induction l as [|x l IH]; cbn; [split; [done|by intros ?%Exists_nil]|]. by rewrite Exists_cons, <- IH.
Qed.
Lemma all_of_Forall {A} (P : A -> Prop) l : all_of (P <$> l) <-> Forall P l.
Proof. induction l as [|x l IH]; cbn; [split; auto|]. by rewrite Forall_cons, <- IH. Qed.

Section LoopsDecide.
Context {A : Type} (f : A -> budgeted) (P : A -> Prop).

Lemma decides_and_loop args :
  Forall (fun a => decides (f a) (P a)) args -> decides (and_loop f args) (all_of (P <$> args)).
Proof.
  induction 1 as [|a args (o & Ho & HP) _ (o' & Ho' & IH)]; [by apply decides_returns|].
  exists (o && o'). cbn [and_loop]. rewrite Ho. split; [by destruct o|].
  cbn. rewrite andb_true_iff, HP, IH. done.
Qed.

Lemma decides_or_loop args :
  Forall (fun a => decides (f a) (P a)) args -> decides (or_loop f args) (any_of (P <$> args)).
Proof.
  induction 1 as [|a args (o & Ho & HP) _ (o' & Ho' & IH)]; [by apply decides_returns|].
  exists (o || o'). cbn [or_loop]. rewrite Ho. split; [by destruct o|].
  cbn. rewrite orb_true_iff, HP, IH. done.
Qed.

Lemma decides_find_loop items :
  Forall (fun a => decides (f a) (P a)) items -> decides (find_loop f items) (any_of (P <$> items)).
Proof.
  induction 1 as [|a items (o & Ho & HP) _ (o' & Ho' & IH)]; [by apply decides_returns|].
  exists (o || o'). cbn [find_loop charged]. rewrite Ho. split; [by destruct o|].
  cbn. rewrite orb_true_iff, HP, IH. done.
Qed.
End LoopsDecide.

Lemma decides_find_Exists {A} (f : A -> budgeted) (P : A -> Prop) items :
  (forall a, decides (f a) (P a)) -> decides (find_loop f items) (Exists P items).
Proof.
  intros H. eapply decides_iff; [apply any_of_Exists|]. apply decides_find_loop. by apply Forall_true.
Qed.

Lemma beqb_decide {A} k k' (a b : A) : (if beqb k k' then a else b) = if decide (k = k') then a else b.
Proof.
  destruct (decide (k = k')) as [->|Hne]; [by rewrite beqb_refl|]. apply beqb_neq in Hne. by rewrite Hne.
Qed.

Lemma kind_eqb_eq a b : kind_eqb a b = true <-> a = b.
Proof. unfold kind_eqb. rewrite Z.eqb_eq. split; [by destruct a, b|by intros ->]. Qed.

Lemma decides_fieldEquals v candidate : decides (fieldEqualsWithBudget v candidate) (field_is v candidate).
Proof.
  unfold fieldEqualsWithBudget, field_is. destruct v; try by apply decides_returns.
  destruct (decide (Kind candidate = ArrayKind)) as [Hk|Hk].
  - rewrite (proj2 (kind_eqb_eq _ _) Hk). by apply decides_returns.
  - destruct (kind_eqb _ _) eqn:E; [by apply kind_eqb_eq in E|].
    apply decides_find_Exists. intros item. by apply decides_returns.
Qed.

Lemma range_compare_iff cmp v operand :
  range_compare cmp v operand = true <->
  exists o, compareValues v operand = Some o /\
    (if decide (cmp = bs "gt") then 0 < o
     else if decide (cmp = bs "gte") then 0 <= o
     else if decide (cmp = bs "lt") then o < 0 else o <= 0).
Proof.
  unfold range_compare. destruct (compareValues v operand) as [o|].
  - rewrite !beqb_decide. setoid_rewrite (inj_iff Some). split.
    + intros H. exists o. split; [done|]. repeat case_decide; breflect; done.
    + intros (o' & <- & H). repeat case_decide; bgoal; done.
  - split; [done|]. by intros (? & ? & _).
Qed.

Lemma decides_compare_value cmp v operand :
  decides (compare_value cmp v operand) (value_compares cmp v operand).
Proof.
  unfold compare_value, value_compares. rewrite !beqb_decide.
  destruct (decide (cmp = bs "eq")); [|destruct (decide (cmp = bs "ne"))].
  - apply decides_fieldEquals.
  - apply decides_negated, decides_fieldEquals.
  - apply decides_returns, range_compare_iff.
Qed.

Lemma decides_membership op hit P :
  decides hit P -> decides (membership_result op hit) (if decide (op = bs "in") then P else ~ P).
Proof.
  intros (o & Ho & HP). unfold membership_result. eexists. rewrite Ho, beqb_decide. split; [done|].
  case_decide; [done|]. rewrite <- HP. by rewrite negb_true_iff, not_true_iff_false.
Qed.

Lemma decides_member v values : decides (member_hit v values) (Exists (field_is v) values).
Proof. apply decides_find_Exists. apply decides_fieldEquals. Qed.

Lemma decides_all_loop items required :
  decides (all_loop items required)
    (Forall (fun r => Exists (fun item => Equal item r = true) items) required).
Proof.
  induction required as [|r required (o & Ho & IH)]; [by apply decides_returns|].
  destruct (decides_find_Exists (fun item => returns (Equal item r)) (fun item => Equal item r = true) items)
    as (o' & Ho' & HP); [intros item; by apply decides_returns|].
  exists (o' && o). cbn [all_loop charged]. rewrite Ho'. split; [by destruct o'|].
  by rewrite andb_true_iff, HP, IH, Forall_cons.
Qed.

Lemma decides_element e v : element_ok e = true -> decides (matchElementExpression e v) (element_satisfies e v).
Proof.
  induction e as [|op args IH|arg IH|cmp operand|op values] using elementExpr_nested_ind;
    cbn [element_ok matchElementExpression element_satisfies]; intros Hok; [done|..]; apply decides_charged.
  - assert (Hall : Forall (fun a => decides (matchElementExpression a v) (element_satisfies a v)) args).
    { rewrite forallb_forall in Hok. rewrite Forall_forall in IH |- *. intros a Ha.
      apply IH; [done|]. apply Hok. by apply list_elem_of_In. }
    rewrite beqb_decide. case_decide; [by apply decides_and_loop|by apply decides_or_loop].
  - apply decides_negated. auto.
  - apply decides_compare_value.
  - apply decides_membership, decides_member.
Qed.

Lemma decides_exists o v : decides (returns (Bool.eqb (match o : option value with Some _ => true | None => false end) v))
  (o <> None <-> v = true).
Proof.
  apply decides_returns. rewrite Bool.eqb_true_iff. destruct o as [x|], v; intuition congruence.
Qed.

Lemma found_items (P : list value -> Prop) a : P a <-> exists items, Some (VArray a) = Some (VArray items) /\ P items.
Proof. split; [eauto|]. by intros (? & [= ->] & ?). Qed.

Lemma decides_expression e d : expr_ok e = true -> decides (matchExpression e d) (satisfies e d).
Proof.
  revert d. induction e as [| |op args IH|arg IH|cmp path v|op path values|path v|path size|path types|path values
    |path mode scalar object IH] using expr_nested_ind; intros d Hok; cbn [matchExpression satisfies];
    apply decides_charged; cbn [expr_ok] in Hok.
  - done.
  - by apply decides_returns.
  - assert (Hall : Forall (fun a => decides (matchExpression a d) (satisfies a d)) args).
    { rewrite forallb_forall in Hok. rewrite Forall_forall in IH |- *. intros a Ha.
      apply IH; [done|]. apply Hok. by apply list_elem_of_In. }
    rewrite beqb_decide. case_decide; [by apply decides_and_loop|by apply decides_or_loop].
  - by apply decides_negated, IH.
  - unfold compareExpr_match. destruct (lookupInternal d path); [apply decides_compare_value|].
    apply decides_returns, beqb_eq.
  - unfold membershipExpr_match. destruct (lookupInternal d path).
    + apply decides_membership, decides_member.
    + eapply decides_iff; [|apply (decides_membership op (returns false) False); by apply decides_returns].
      case_decide; [split; [done|intros Hn; by apply Hn]|by split; auto].
  - apply decides_exists.
  - apply decides_returns. destruct (lookupInternal d path) as [[]|]; split; try done;
      try (intros (? & ? & _); congruence).
    + intros ?%Z.eqb_eq. by eexists.
    + intros (? & [= ->] & <-). apply Z.eqb_refl.
  - unfold typeExpr_match. destruct (lookupInternal d path) as [v|].
    + eapply decides_iff; [|apply (decides_find_Exists _ (fun k => Kind v = k)); intros k; apply decides_returns, kind_eqb_eq].
      rewrite Exists_exists. split; [intros (k & Hk & <-); eauto|].
      intros (v' & [= <-] & Hk). eauto.
    + apply decides_returns. split; [done|]. by intros (? & ? & _).
  - unfold allExpr_match. destruct (lookupInternal d path) as [[]|];
      try (apply decides_returns; split; [done|]; intros (? & ? & _); congruence).
    eapply decides_iff; [|apply decides_all_loop]. split; [eauto|]. by intros (? & [= ->] & ?).
  - destruct (lookupInternal d path) as [[]|];
      try (apply decides_returns; split; [done|]; intros (? & ? & _); congruence).
    rewrite !beqb_decide in Hok. case_decide as Hm.
    + apply (decides_iff _ (any_of (element_satisfies scalar <$> a)));
        [apply (found_items (fun items => any_of (element_satisfies scalar <$> items)))|].
      apply decides_find_loop, Forall_true. intros item. rewrite Hm, beqb_refl. by apply decides_element.
    + apply (decides_iff _ (any_of ((fun item => match item with VObject _ o => satisfies object o | _ => False end) <$> a)));
        [apply (found_items (fun items => any_of (_ <$> items)))|].
      apply decides_find_loop, Forall_true. intros item. rewrite beqb_decide, decide_False by done.
      case_decide as Hm'; [|done]. rewrite beqb_decide, decide_True by done.
      destruct item; try by apply decides_returns. by apply IH.
Qed.

(** ** What a filter reads *)

Definition agree_on (paths : list bytes) (d d' : document) : Prop :=
  forall path, path ∈ paths -> lookupInternal d path = lookupInternal d' path.

Lemma elem_of_see p path seen : p ∈ see path seen <-> p = path \/ p ∈ seen.
Proof.
  unfold see. destruct (existsb (beqb path) seen) eqn:E; [|apply elem_of_cons].
  apply existsb_exists in E as (x & Hx & <-%beqb_eq). apply list_elem_of_In in Hx.
  split; [auto|]. by intros [->|].
Qed.

Lemma agree_on_see path seen d d' :
  agree_on (see path seen) d d' -> lookupInternal d path = lookupInternal d' path /\ agree_on seen d d'.
Proof.
  intros H. split; [apply H, elem_of_see; auto|]. intros p Hp. apply H, elem_of_see. auto.
Qed.

Section LoopsExt.
Context {A : Type} (f g : A -> budgeted).

Lemma and_loop_ext args b : Forall (fun a => forall b, f a b = g a b) args -> and_loop f args b = and_loop g args b.
Proof.
  intros H. revert b. induction H as [|a args Ha _ IH]; intros b; [done|]. cbn [and_loop]. rewrite Ha.
  destruct (g a b) as [[[] []] ?]; auto.
Qed.

Lemma or_loop_ext args b : Forall (fun a => forall b, f a b = g a b) args -> or_loop f args b = or_loop g args b.
Proof.
  intros H. revert b. induction H as [|a args Ha _ IH]; intros b; [done|]. cbn [or_loop]. rewrite Ha.
  destruct (g a b) as [[[] []] ?]; auto.
Qed.
End LoopsExt.

Lemma charged_ext m m' b : (forall b, m b = m' b) -> charged m b = charged m' b.
Proof.
  intros H. destruct b as [b|]; cbn [charged]; [|done]. destruct (predicate b) as [? []]; [done|apply H].
Qed.

(** Evaluation reads a document only at the collected paths. *)
Lemma matchExpression_reads e d d' seen :
  agree_on (collectExprPaths e seen) d d' ->
  (forall b, matchExpression e d b = matchExpression e d' b) /\ agree_on seen d d'.
Proof.
  revert seen. induction e as [| |op args IH|arg IH|cmp path v|op path values|path v|path size|path types|path values
    |path mode scalar object IH] using expr_nested_ind; intros seen H; cbn [collectExprPaths] in H.
  1,2: done.
  3-9: apply agree_on_see in H as [Hp Hs]; split; [|done]; intros b; cbn [matchExpression];
    unfold compareExpr_match, membershipExpr_match, existsExpr_match, sizeExpr_match, typeExpr_match, allExpr_match;
    by rewrite Hp.
  - assert (Hall : Forall (fun a => forall b, matchExpression a d b = matchExpression a d' b) args /\ agree_on seen d d').
    { revert seen H. induction IH as [|a args Ha _ IH]; intros seen H; [done|].
      cbn [fold_left] in H. apply IH in H as [Hargs H]. apply Ha in H as [H1 H2]. auto. }
    destruct Hall as [Hall Hs]. split; [|done]. intros b. cbn [matchExpression]. apply charged_ext. intros b'.
    destruct (beqb _ _); [by apply and_loop_ext|by apply or_loop_ext].
  - apply IH in H as [H Hs]. split; [|done]. intros b. cbn [matchExpression]. apply charged_ext. intros b'.
    unfold negated. by rewrite H.
Qed.

(** ** Evaluation is correct, metered or not *)

(** C33: Evaluating a well-formed filter is correct and exactly metered. There is
    a number of predicate steps [n], which depends on the query and the document
    only, such that a budget that has [n] steps left gets the answer of the
    reference semantics and is charged [n], whatever else it has counted; a
    budget that has fewer is used up to its limit, records the reason and gets
    [ErrQueryBudget], never a wrong answer. [Match], which has no budget, gives
    the answer of the reference semantics. *)
Theorem matchWithBudget_correct q d :
  expr_ok (q_where q) = true ->
  (Match q d = true <-> satisfies (q_where q) d) /\
  exists n, 0 <= n /\
  forall b, 0 <= steps_left b ->
    if n <=? steps_left b
    then matchWithBudget q d (Some b) = ((Match q d, None), Some (spend n b))
    else exists o, matchWithBudget q d (Some b) =
           ((o, Some ErrQueryBudget), Some (reject (bs "predicate_steps") (spend (steps_left b) b))).
Proof.
  intros Hok. assert (Hd : decides (matchWithBudget q d) (satisfies (q_where q) d)).
  { apply decides_expression with (d := d) in Hok as Hd. unfold matchWithBudget. by destruct (q_where q). }
  destruct Hd as (o & Ho & HP), (metered_match q d) as (n & Hn & _ & Hb).
  unfold Match. rewrite Ho in *. split; [done|]. exists n. split; [done|]. exact Hb.
Qed.

Definition example_query : QuerySpec :=
  mk_query (logicalExpr (bs "and")
    [compareExpr (bs "gte") (bs "age") (VInt 18);
     notExpr (membershipExpr (bs "in") (bs "tags") [VString (bs "x"); VString (bs "y")])])
    [mk_sort (bs "age") 1] 0 (Some 2) false.

Definition example_person (age : Z) (tags : list bytes) : document :=
  [(bs "age", VInt age); (bs "tags", VArray (VString <$> tags))].

Definition example_limits (steps : Z) : ResourceLimits := mk_resource_limits 1000 1000 10 10 1000 10 1000 10 10 10 1000 10 steps.

Lemma matchWithBudget_correct_witness :
  satisfies (q_where example_query) (example_person 20 [bs "z"]) /\
  exists n, forall b, 0 <= steps_left b -> (n <=? steps_left b) = true ->
    matchWithBudget example_query (example_person 20 [bs "z"]) (Some b) = ((true, None), Some (spend n b)).
Proof.
  destruct (matchWithBudget_correct example_query (example_person 20 [bs "z"]) ltac:(vm_compute; reflexivity))
    as [Hm (n & _ & Hb)]. split.
  - apply Hm. vm_compute. reflexivity.
  - exists n. intros b Hl Hn. specialize (Hb b Hl). rewrite Hn in Hb. exact Hb.
Defined.
