(* ===== verification/Orders.v ===== *)
(** * Sorting and heaps of the Go standard library

    [sort.SliceStable] and the [container/heap] operations the query engine uses,
    over a list and a [less] function, and what they compute when [less] is a
    strict total order on the elements at hand; and the laws of three-way
    comparisons ([Lawful]), closed under the ways the code combines them. *)
From S2P Require Import Prelude Bytes Entries Float64 Values.
From Stdlib Require Import Permutation Sorted.

(** ** Operations *)

Section Operations.
Context {A : Type} (less : A -> A -> bool).

(** [sort.SliceStable] as an insertion sort: an element stays before the equal
    ones that follow it. For a strict weak order every stable sort gives this
    list. *)
Fixpoint insert_stable (x : A) (l : list A) : list A :=
  match l with
  | [] => [x]
  | y :: l' => if less y x then y :: insert_stable x l' else x :: l
  end.

Definition sort_stable (l : list A) : list A := foldr insert_stable [] l.

Definition swap (l : list A) (i j : nat) : list A :=
  match l !! i, l !! j with
  | Some x, Some y => <[i := y]> (<[j := x]> l)
  | _, _ => l
  end.

(** [h.Less(i, j)]. *)
Definition less_at (l : list A) (i j : nat) : bool :=
  match l !! i, l !! j with Some x, Some y => less x y | _, _ => false end.

(** [heap.up] and [heap.down]; each step halves or doubles the index, so the
    length is fuel enough. *)
Fixpoint heap_up (fuel : nat) (l : list A) (j : nat) : list A :=
  match fuel with
  | O => l
  | S fuel =>
      let i := ((j - 1) / 2)%nat in
      if (i =? j)%nat || negb (less_at l j i) then l else heap_up fuel (swap l i j) i
  end.

Fixpoint heap_down (fuel : nat) (l : list A) (i : nat) : list A * nat :=
  match fuel with
  | O => (l, i)
  | S fuel =>
      let n := length l in
      let j1 := (2 * i + 1)%nat in
      if (n <=? j1)%nat then (l, i)
      else
        let j := if ((j1 + 1 <? n)%nat && less_at l (j1 + 1) j1) then (j1 + 1)%nat else j1 in
        if negb (less_at l j i) then (l, i) else heap_down fuel (swap l i j) j
  end.

Definition heap_Push (l : list A) (x : A) : list A :=
  let l := l ++ [x] in heap_up (length l) l (length l - 1).

Definition heap_Fix (l : list A) (i : nat) : list A :=
  let '(l, i') := heap_down (length l) l i in
  if (i <? i')%nat then l else heap_up (length l) l i.
End Operations.

(** ** Permutations *)

Section Permutations.
Context {A : Type} (less : A -> A -> bool).

Lemma insert_stable_Permutation x l : Permutation (insert_stable less x l) (x :: l).
Proof.
  induction l as [|y l IH]; cbn; [done|]. destruct (less y x); [|done]. rewrite IH. constructor.
Qed.

Lemma sort_stable_Permutation l : Permutation (sort_stable less l) l.
Proof. induction l as [|x l IH]; cbn; [done|]. rewrite insert_stable_Permutation. by constructor. Qed.

Lemma length_swap (l : list A) i j : length (swap l i j) = length l.
Proof. unfold swap. destruct (l !! i), (l !! j); by rewrite ?length_insert. Qed.

Lemma insert_Permutation (l : list A) i x y : l !! i = Some x -> Permutation (x :: <[i := y]> l) (y :: l).
Proof.
  intros Hx. rewrite <- (take_drop_middle l i x Hx) at 2.
  rewrite insert_take_drop by (by eapply lookup_lt_Some). rewrite <- !Permutation_middle. constructor.
Qed.

Lemma swap_Permutation (l : list A) i j : i <> j -> Permutation (swap l i j) l.
Proof.
  intros Hij. unfold swap. destruct (l !! i) as [x|] eqn:Hx, (l !! j) as [y|] eqn:Hy; [|done..].
  assert (Hj : <[j := x]> l !! i = Some x) by (by rewrite list_lookup_insert_ne).
  apply (Permutation_cons_inv (a := x)). rewrite (insert_Permutation _ i x y Hj).
  by apply insert_Permutation.
Qed.

Lemma heap_up_Permutation fuel l j : Permutation (heap_up less fuel l j) l.
Proof.
  revert l j; induction fuel as [|fuel IH]; intros l j; cbn [heap_up]; [done|].
  destruct (Nat.eqb_spec ((j - 1) / 2) j); cbn [orb]; [done|]. destruct (negb _); [done|].
  rewrite IH. by apply swap_Permutation.
Qed.

Lemma heap_down_Permutation fuel l i : Permutation (heap_down less fuel l i).1 l.
Proof.
  revert l i; induction fuel as [|fuel IH]; intros l i; cbn [heap_down]; [done|].
  destruct (_ <=? _)%nat; [done|]. destruct (negb _); [done|]. rewrite IH. apply swap_Permutation.
  destruct (_ && _); lia.
Qed.

Lemma heap_Push_Permutation l x : Permutation (heap_Push less l x) (x :: l).
Proof. unfold heap_Push. rewrite heap_up_Permutation. symmetry. apply Permutation_cons_append. Qed.

Lemma heap_Fix_Permutation l i : Permutation (heap_Fix less l i) l.
Proof.
  unfold heap_Fix. pose proof (heap_down_Permutation (length l) l i) as H.
  destruct (heap_down less (length l) l i) as [l' i']. cbn [fst] in H. destruct (_ <? _)%nat; [done|].
  by rewrite heap_up_Permutation.
Qed.
End Permutations.

(** ** Strict total orders on the elements at hand

    [less] is such an order on [S], and is asked about elements of [S] only. *)
Section Order.
Context {A : Type} (less : A -> A -> bool) (S : A -> Prop).

Record total_on : Prop := {
  less_irrefl : forall a, S a -> less a a = false;
  less_trans : forall a b c, S a -> S b -> S c -> less a b = true -> less b c = true -> less a c = true;
  less_total : forall a b, S a -> S b -> less a b = false -> less b a = false -> a = b }.

Hypothesis Horder : total_on.

Lemma less_asym a b : S a -> S b -> less a b = true -> less b a = false.
Proof.
  intros Ha Hb H. destruct (less b a) eqn:E; [|done].
  rewrite <- (less_irrefl Horder a Ha). symmetry. by apply (less_trans Horder a b a).
Qed.

(** A list in order: no element above a later one. *)
Definition in_order (l : list A) : Prop := StronglySorted (fun a b => less b a = false) l.

Lemma less_le_trans a b c : S a -> S b -> S c -> less b a = false -> less c b = false -> less c a = false.
Proof.
  intros Ha Hb Hc H1 H2. destruct (less c a) eqn:E; [|done].
  destruct (less a b) eqn:E1.
  - by rewrite (less_trans Horder c a b) in H2.
  - assert (a = b) as -> by (by apply (less_total Horder)). congruence.
Qed.

Lemma insert_stable_in_order x l : S x -> Forall S l -> in_order l -> in_order (insert_stable less x l).
Proof.
  intros Hx Hl Ho. induction Ho as [|y l Ho IH Hy]; cbn; [by repeat constructor|].
  apply Forall_cons in Hl as [HSy Hl]. destruct (less y x) eqn:E.
  - constructor; [by apply IH|]. rewrite Forall_forall in Hy |- *. intros z Hz.
    rewrite insert_stable_Permutation in Hz. apply elem_of_cons in Hz as [->|Hz]; [|auto].
    by apply less_asym.
  - constructor; [by constructor|]. constructor; [done|].
    rewrite Forall_forall in Hy, Hl |- *. intros z Hz. apply (less_le_trans x y z); auto.
Qed.

Lemma sort_stable_in_order l : Forall S l -> in_order (sort_stable less l).
Proof.
  induction 1 as [|x l Hx Hl IH]; [constructor|]. apply (insert_stable_in_order x (sort_stable less l)); [done| |done].
  by rewrite sort_stable_Permutation.
Qed.

(** Lists in order are equal when they have the same elements. *)
Lemma in_order_unique l1 l2 : Forall S l1 -> in_order l1 -> in_order l2 -> Permutation l1 l2 -> l1 = l2.
Proof.
  intros HS H1. revert l2 HS. induction H1 as [|x l1 H1 IH Hx]; intros l2 HS H2 Hp.
  - by apply Permutation_nil in Hp.
  - destruct H2 as [|y l2 H2 Hy]; [by apply Permutation_sym, Permutation_nil in Hp|].
    assert (HS2 : Forall S (y :: l2)) by (by rewrite <- Hp).
    apply Forall_cons in HS as [HSx HS], HS2 as [HSy HS2].
    assert (x = y) as ->.
    { rewrite Forall_forall in Hx, Hy. apply (less_total Horder); [done..| |].
      - assert (Hin : x ∈ y :: l2) by (rewrite <- Hp; left). apply elem_of_cons in Hin as [->|Hin];
          [by apply (less_irrefl Horder)|by apply Hy].
      - assert (Hin : y ∈ x :: l1) by (rewrite Hp; left). apply elem_of_cons in Hin as [->|Hin];
          [by apply (less_irrefl Horder)|by apply Hx]. }
    f_equal. apply IH; [done..|]. by apply Permutation_cons_inv in Hp.
Qed.

Lemma sort_stable_unique l1 l2 : Forall S l1 -> Permutation l1 l2 -> sort_stable less l1 = sort_stable less l2.
Proof.
  intros HS Hp. apply in_order_unique.
  - by rewrite sort_stable_Permutation.
  - by apply sort_stable_in_order.
  - apply sort_stable_in_order. by rewrite <- Hp.
  - by rewrite !sort_stable_Permutation.
Qed.

Lemma sort_stable_sorted l : Forall S l -> in_order l -> sort_stable less l = l.
Proof.
  intros HS Ho. apply in_order_unique; [by rewrite sort_stable_Permutation|by apply sort_stable_in_order|done|].
  apply sort_stable_Permutation.
Qed.
End Order.

Lemma in_order_ext {A} (f g : A -> A -> bool) l : (forall a b, f a b = g a b) -> in_order f l -> in_order g l.
Proof.
  intros H. induction 1 as [|x l _ IH Hx]; constructor; [done|].
  eapply Forall_impl; [exact Hx|]. cbn. intros y. by rewrite H.
Qed.

Lemma sort_stable_ext {A} (f g : A -> A -> bool) l : (forall a b, f a b = g a b) -> sort_stable f l = sort_stable g l.
Proof.
  intros H. assert (Hi : forall x l, insert_stable f x l = insert_stable g x l).
  { intros x k. induction k as [|y k IH]; cbn; [done|]. by rewrite H, IH. }
  induction l as [|x l IH]; [done|]. change (insert_stable f x (sort_stable f l) = insert_stable g x (sort_stable g l)).
  by rewrite IH, Hi.
Qed.

(** ** Heaps *)

Definition parent (i : nat) : nat := ((i - 1) / 2)%nat.

Lemma parent_iff k i : (0 < k)%nat -> parent k = i <-> k = (2 * i + 1)%nat \/ k = (2 * i + 2)%nat.
Proof.
  intros Hk. unfold parent. pose proof (Nat.div_mod_eq (k - 1) 2). pose proof (Nat.mod_upper_bound (k - 1) 2). lia.
Qed.

Lemma parent_lt k : (0 < k)%nat -> (parent k < k)%nat.
Proof. intros Hk. destruct (proj1 (parent_iff k (parent k) Hk) eq_refl); lia. Qed.

Lemma lookup_swap {A} (l : list A) i j x y k :
  l !! i = Some x -> l !! j = Some y -> i <> j ->
  swap l i j !! k = if decide (k = i) then Some y else if decide (k = j) then Some x else l !! k.
Proof.
  intros Hx Hy Hij. unfold swap. rewrite Hx, Hy. repeat case_decide; subst.
  - apply list_lookup_insert_eq. rewrite length_insert. by eapply lookup_lt_Some.
  - rewrite list_lookup_insert_ne by done. apply list_lookup_insert_eq. by eapply lookup_lt_Some.
  - by rewrite !list_lookup_insert_ne by done.
Qed.

Section Heaps.
Context {A : Type} (less : A -> A -> bool) (S : A -> Prop) (Horder : total_on less S).

(** The element at [k] is not less than its parent. *)
Definition edge_ok (l : list A) (k : nat) : Prop :=
  forall x p, l !! k = Some x -> l !! parent k = Some p -> less x p = false.

Definition is_heap (l : list A) : Prop := forall k, (0 < k)%nat -> edge_ok l k.

(** The elements below [i] are not less than the one above it. *)
Definition skip_ok (l : list A) (i : nat) : Prop :=
  (0 < i)%nat -> forall c x p, parent c = i -> (0 < c)%nat ->
  l !! c = Some x -> l !! parent i = Some p -> less x p = false.

Lemma Forall_at l k x : Forall S l -> l !! k = Some x -> S x.
Proof. intros H Hk. rewrite Forall_lookup in H. by apply (H k). Qed.

Lemma up_step l i j x y :
  Forall S l -> (0 < j)%nat -> parent j = i -> l !! i = Some y -> l !! j = Some x -> less x y = true ->
  (forall k, (0 < k)%nat -> k <> j -> edge_ok l k) -> skip_ok l j ->
  (forall k, (0 < k)%nat -> k <> i -> edge_ok (swap l i j) k) /\ skip_ok (swap l i j) i.
Proof.
  intros HS Hj Hp Hy Hx Hless He Hs. assert (i < j)%nat by (rewrite <- Hp; by apply parent_lt).
  assert (Sx := Forall_at l j x HS Hx). assert (Sy := Forall_at l i y HS Hy).
  split.
  - intros k Hk Hki u p. rewrite !(lookup_swap l i j y x) by (done || lia).
    rewrite (decide_False (P := k = i)) by done. destruct (decide (k = j)) as [->|Hkj].
    { rewrite Hp, decide_True by done. intros [= <-] [= <-]. by apply (less_asym less S Horder). }
    destruct (decide (parent k = i)) as [Hpk|Hpk].
    { intros Hu [= <-]. assert (Su := Forall_at l k u HS Hu).
      destruct (less u x) eqn:E; [|done].
      rewrite <- (He k Hk Hkj u y Hu) by (by rewrite Hpk). symmetry. by apply (less_trans _ _ Horder u x y). }
    destruct (decide (parent k = j)) as [Hpj|Hpj]; [|by apply He].
    intros Hu [= <-]. apply (Hs Hj k u y); [done..|by rewrite Hp].
  - intros Hi c u p Hc Hc0. rewrite !(lookup_swap l i j y x) by (done || lia).
    assert (parent i < i)%nat by (by apply parent_lt). assert (i < c)%nat by (rewrite <- Hc; by apply parent_lt).
    rewrite (decide_False (P := c = i)), (decide_False (P := parent i = i)), (decide_False (P := parent i = j)) by lia.
    intros Hu Hg. assert (Hyg : less y p = false) by (by apply (He i Hi ltac:(lia))).
    destruct (decide (c = j)) as [->|Hcj]; [by injection Hu as <-|].
    apply (less_le_trans less S Horder p y u); [by eapply Forall_at..|done|].
    apply (He c Hc0 Hcj u y Hu). by rewrite Hc.
Qed.

Lemma heap_up_heap fuel l j :
  Forall S l -> (j < fuel)%nat ->
  (forall k, (0 < k)%nat -> k <> j -> edge_ok l k) -> skip_ok l j -> is_heap (heap_up less fuel l j).
Proof.
  revert l j; induction fuel as [|fuel IH]; intros l j HS Hf He Hs; [lia|]. cbn [heap_up].
  fold (parent j). destruct (Nat.eqb_spec (parent j) j) as [Hpj|Hpj]; cbn [orb].
  { intros k Hk. destruct (decide (k = j)) as [->|]; [|by apply He]. pose proof (parent_lt j Hk). lia. }
  assert (Hj : (0 < j)%nat) by (destruct j; [by destruct Hpj|lia]). pose proof (parent_lt j Hj).
  unfold less_at. destruct (l !! j) as [x|] eqn:Hx; cbn [negb].
  2:{ intros k Hk. destruct (decide (k = j)) as [->|]; [|by apply He]. intros ? ? ?. congruence. }
  destruct (l !! parent j) as [y|] eqn:Hy; cbn [negb].
  2:{ intros k Hk. destruct (decide (k = j)) as [->|]; [|by apply He]. intros ? ? ?. congruence. }
  destruct (less x y) eqn:E; cbn [negb].
  - destruct (up_step l (parent j) j x y) as [He' Hs']; [done..|].
    apply IH; [|lia|done|done]. rewrite swap_Permutation by lia. done.
  - intros k Hk. destruct (decide (k = j)) as [->|]; [|by apply He]. intros ? ? ? ?. congruence.
Qed.

Lemma down_step l i j x y :
  Forall S l -> (0 < j)%nat -> parent j = i -> l !! i = Some x -> l !! j = Some y -> less y x = true ->
  (forall c z, (0 < c)%nat -> parent c = i -> l !! c = Some z -> less z y = false) ->
  (forall k, (0 < k)%nat -> parent k <> i -> edge_ok l k) -> skip_ok l i ->
  (forall k, (0 < k)%nat -> parent k <> j -> edge_ok (swap l i j) k) /\ skip_ok (swap l i j) j.
Proof.
  intros HS Hj Hp Hx Hy Hless Hmin He Hs. assert (i < j)%nat by (rewrite <- Hp; by apply parent_lt).
  assert (Sx := Forall_at l i x HS Hx). assert (Sy := Forall_at l j y HS Hy).
  split.
  - intros k Hk Hkj u p. rewrite !(lookup_swap l i j x y) by (done || lia).
    rewrite (decide_False (P := parent k = j)) by done. destruct (decide (k = i)) as [->|Hki].
    { pose proof (parent_lt i Hk). rewrite decide_False by lia. intros [= <-] Hg. by apply (Hs Hk j y p). }
    destruct (decide (parent k = i)) as [Hpk|Hpk].
    { destruct (decide (k = j)) as [->|Hne].
      - intros [= <-] [= <-]. by apply (less_asym less S Horder).
      - intros Hu [= <-]. by apply (Hmin k). }
    destruct (decide (k = j)) as [->|Hne]; [done|]. by apply He.
  - intros _ c u p Hc Hc0. assert (j < c)%nat by (rewrite <- Hc; by apply parent_lt).
    rewrite !(lookup_swap l i j x y) by (done || lia).
    rewrite (decide_False (P := c = i)), (decide_False (P := c = j)), decide_True by lia.
    intros Hu [= <-]. apply (He c Hc0 ltac:(lia) u y Hu). by rewrite Hc.
Qed.

(** The child the loop picks is not above the other one. *)
Lemma down_child l i j1 j :
  Forall S l -> j1 = (2 * i + 1)%nat -> (j1 < length l)%nat ->
  j = (if ((j1 + 1 <? length l)%nat && less_at less l (j1 + 1) j1) then (j1 + 1)%nat else j1) ->
  (0 < j < length l)%nat /\ parent j = i /\
  forall y c z, l !! j = Some y -> (0 < c)%nat -> parent c = i -> l !! c = Some z -> less z y = false.
Proof.
  intros HS -> Hlt ->. destruct (lookup_lt_is_Some_2 l (2 * i + 1) Hlt) as [a Ha].
  assert (Sa := Forall_at l _ a HS Ha). unfold less_at. rewrite Ha.
  destruct (Nat.ltb_spec (2 * i + 1 + 1) (length l)) as [Hb|Hb]; cbn [andb].
  - destruct (lookup_lt_is_Some_2 l _ Hb) as [b Hb']. rewrite Hb'. assert (Sb := Forall_at l _ b HS Hb').
    destruct (less b a) eqn:E; (split; [lia|]; split; [apply parent_iff; lia|]);
      intros y c z Hy Hc Hpc Hz; apply parent_iff in Hpc as [->| ->]; try done;
      replace (2 * i + 2)%nat with (2 * i + 1 + 1)%nat in * by lia; simplify_eq.
    + by apply (less_asym less S Horder).
    + by apply (less_irrefl _ _ Horder).
    + by apply (less_irrefl _ _ Horder).
    + done.
  - split; [lia|]. split; [apply parent_iff; lia|].
    intros y c z Hy Hc Hpc Hz. apply lookup_lt_Some in Hz as Hl. apply parent_iff in Hpc as [->| ->]; [|lia|done].
    simplify_eq. by apply (less_irrefl _ _ Horder).
Qed.

Lemma heap_down_heap fuel l i :
  Forall S l -> (length l - i <= fuel)%nat ->
  (forall k, (0 < k)%nat -> parent k <> i -> edge_ok l k) -> skip_ok l i -> is_heap (heap_down less fuel l i).1.
Proof.
  revert l i; induction fuel as [|fuel IH]; intros l i HS Hf He Hs; cbn [heap_down].
  { cbn [fst]. intros k Hk x p Hx Hp. apply lookup_lt_Some in Hx as Hlt. destruct (decide (parent k = i)); [|by apply (He k)].
    pose proof (parent_lt k Hk). lia. }
  destruct (Nat.leb_spec (length l) (2 * i + 1)) as [Hn|Hn]; cbn [fst].
  { intros k Hk x p Hx Hp. apply lookup_lt_Some in Hx as Hlt. destruct (decide (parent k = i)) as [Hpk|]; [|by apply (He k)].
    apply parent_iff in Hpk; lia. }
  destruct (down_child l i (2 * i + 1) _ HS eq_refl Hn eq_refl) as ([Hj Hjl] & Hp & Hmin).
  set (j := if _ && _ then _ else _) in *.
  destruct (lookup_lt_is_Some_2 l j Hjl) as [y Hy]. pose proof (parent_lt j Hj).
  destruct (lookup_lt_is_Some_2 l i ltac:(lia)) as [x Hx].
  specialize (Hmin y). unfold less_at at 1. rewrite Hx, Hy. destruct (less y x) eqn:E; cbn [negb].
  - destruct (down_step l i j x y) as [He' Hs']; [done..|by intros; apply (Hmin c)|done|done|].
    apply IH; [|rewrite length_swap; lia|done|done]. rewrite swap_Permutation by lia. done.
  - cbn [fst]. intros k Hk u p Hu Hpk. destruct (decide (parent k = i)) as [Hki|]; [|by apply (He k)].
    rewrite Hki in Hpk. assert (p = x) as -> by congruence.
    apply (less_le_trans less S Horder x y u); [by eapply Forall_at..|done|]. by apply (Hmin k).
Qed.

Lemma heap_Push_heap l x : Forall S (l ++ [x]) -> is_heap l -> is_heap (heap_Push less l x).
Proof.
  intros HS Hh. unfold heap_Push. rewrite length_app. cbn [length].
  apply heap_up_heap; [done|lia| |].
  - intros k Hk Hne u p Hu Hp. apply lookup_lt_Some in Hu as Hlt. rewrite length_app in Hlt. cbn in Hlt.
    pose proof (parent_lt k Hk). rewrite lookup_app_l in Hu, Hp by lia. by apply (Hh k).
  - intros Hi c u p Hc Hc0 Hu. apply lookup_lt_Some in Hu. rewrite length_app in Hu. cbn in Hu.
    pose proof (parent_lt c Hc0). lia.
Qed.

Lemma heap_Fix_root l x : Forall S (x :: l) -> (forall r, is_heap (r :: l) -> is_heap (heap_Fix less (x :: l) 0)).
Proof.
  intros HS r Hh. unfold heap_Fix.
  assert (H : is_heap (heap_down less (length (x :: l)) (x :: l) 0).1).
  { apply heap_down_heap; [done|lia| |by intros ?%Nat.lt_irrefl].
    intros k Hk Hp u p Hu Hp'. destruct k as [|k]; [lia|]. destruct (parent (Datatypes.S k)) as [|q] eqn:Hq; [done|].
    apply (Hh (Datatypes.S k) Hk u p); [done|]. by rewrite Hq. }
  destruct (heap_down _ _ _ _) as [l' i']. cbn [fst] in H. destruct (_ <? _)%nat; [done|].
  destruct (length l'); done.
Qed.

(** The root of a heap is not above any element. *)
Lemma heap_root l r x : Forall S (r :: l) -> is_heap (r :: l) -> x ∈ r :: l -> less x r = false.
Proof.
  intros HS Hh [k Hk]%list_elem_of_lookup. revert x Hk.
  induction (lt_wf k) as [k _ IH]. intros x Hk. assert (Sr : S r) by (by apply Forall_cons in HS as [? _]).
  destruct k as [|k]; [injection Hk as <-; by apply (less_irrefl _ _ Horder)|].
  pose proof (parent_lt (Datatypes.S k) ltac:(lia)) as Hlt. apply lookup_lt_Some in Hk as Hl.
  destruct (lookup_lt_is_Some_2 (r :: l) (parent (Datatypes.S k)) ltac:(lia)) as [p Hp].
  apply (less_le_trans less S Horder r p x); [done|by eapply Forall_at..|by eapply IH|].
  by apply (Hh (Datatypes.S k) ltac:(lia)).
Qed.
End Heaps.

(** ** Comparison functions and the order of sort values

    A class of lawful comparison functions, closed under the constructions a
    multi-field sort uses, and the comparison [compareSortValues] is wherever it
    compares an integer with a float exactly. *)
(** ** Lawful comparisons *)

Class Lawful {A} (c : A -> A -> comparison) : Prop := {
  law_opp : forall a b, c b a = CompOpp (c a b);
  law_trans : forall x y z, c x y = Lt -> c y z = Lt -> c x z = Lt;
  law_eq : forall x y z, c x y = Eq -> c x z = c y z }.

Lemma law_refl {A} (c : A -> A -> comparison) `{!Lawful c} a : c a a = Eq.
Proof. pose proof (law_opp a a). by destruct (c a a). Qed.

#[export] Instance lawful_Z : Lawful Z.compare.
Proof.
  split.
  - intros a b. apply Z.compare_antisym.
  - intros x y z. rewrite !Z.compare_lt_iff. lia.
  - by intros x y z ->%Z.compare_eq.
Qed.

#[export] Instance lawful_bytes : Lawful bcompare.
Proof.
  split.
  - apply bcompare_antisym.
  - intros x y z H1 H2. fold (blt x z). by etransitivity.
  - by intros x y z ->%bcompare_eq.
Qed.

Definition compare_lex {A} (c1 c2 : A -> A -> comparison) (a b : A) : comparison :=
  match c1 a b with Eq => c2 a b | o => o end.
Definition compare_opp {A} (c : A -> A -> comparison) (a b : A) : comparison := CompOpp (c a b).
Definition compare_on {A B} (f : A -> B) (c : B -> B -> comparison) (a b : A) : comparison := c (f a) (f b).

(** Nothing comes before something. *)
Definition compare_option {A} (c : A -> A -> comparison) (a b : option A) : comparison :=
  match a, b with
  | None, None => Eq
  | None, Some _ => Lt
  | Some _, None => Gt
  | Some a, Some b => c a b
  end.

Section Closure.
Context {A : Type} (c1 c2 : A -> A -> comparison) `{!Lawful c1, !Lawful c2}.

#[export] Instance lawful_lex : Lawful (compare_lex c1 c2).
Proof.
  unfold compare_lex. split.
  - intros a b. rewrite (law_opp (c := c1) a b). destruct (c1 a b); [apply law_opp|done..].
  - intros x y z. destruct (c1 x y) eqn:E1; [| |done]; intros H1; destruct (c1 y z) eqn:E2; try done; intros H2.
    + rewrite (law_eq x y z E1), E2. by apply (law_trans _ y).
    + by rewrite (law_eq x y z E1), E2.
    + assert (c1 z x = Gt) as Hz.
      { assert (c1 z y = Eq) as Hzy by (by rewrite (law_opp (c := c1) y z), E2).
        rewrite (law_eq z y x Hzy), (law_opp (c := c1) x y), E1. done. }
      by rewrite (law_opp (c := c1) z x), Hz.
    + by rewrite (law_trans _ y _ E1 E2).
  - intros x y z H. destruct (c1 x y) eqn:E1; [|done..]. rewrite (law_eq x y z E1).
    destruct (c1 y z); [by apply law_eq|done..].
Qed.

#[export] Instance lawful_opp : Lawful (compare_opp c1).
Proof.
  unfold compare_opp. split.
  - intros a b. by rewrite (law_opp (c := c1) a b).
  - intros x y z H1 H2. rewrite (law_opp (c := c1) z x), CompOpp_involutive. apply (law_trans _ y).
    + by rewrite (law_opp (c := c1) y z).
    + by rewrite (law_opp (c := c1) x y).
  - intros x y z H. f_equal. apply law_eq. by destruct (c1 x y).
Qed.

#[export] Instance lawful_on {B} (f : B -> A) : Lawful (compare_on f c1).
Proof.
  unfold compare_on. split; [intros; apply law_opp|intros x y z; apply law_trans|intros x y z; apply law_eq].
Qed.

#[export] Instance lawful_option : Lawful (compare_option c1).
Proof.
  split.
  - intros [a|] [b|]; cbn; [apply law_opp|done..].
  - intros [x|] [y|] [z|]; cbn; try done. apply law_trans.
  - intros [x|] [y|] [z|]; cbn; try done. apply law_eq.
Qed.
End Closure.

(** ** The order of sort values *)

(** The rank of the kind, then the number or the bytes. *)
Definition sort_key (v : value) : Z * (Z * bytes) :=
  (valueKindRank (Kind v),
   match v with
   | VNull | VArray _ | VObject _ _ => (0, [])
   | VBool b => (if b then 1 else 0, [])
   | VInt i => (int_scaled i, [])
   | VFloat f => (f64_scaled f, [])
   | VTime t => (t, [])
   | VString s => (0, s)
   | VBinary b => (0, b)
   | VID id => (0, id)
   end).

Definition compare_sort_key : Z * (Z * bytes) -> Z * (Z * bytes) -> comparison :=
  compare_lex (compare_on fst Z.compare)
    (compare_lex (compare_on (fun k => k.2.1) Z.compare) (compare_on (fun k => k.2.2) bcompare)).

Definition compare_sort (a b : value) : comparison := compare_sort_key (sort_key a) (sort_key b).

#[export] Instance lawful_sort_key : Lawful compare_sort_key.
Proof. unfold compare_sort_key. apply _. Qed.

#[export] Instance lawful_sort : Lawful compare_sort.
Proof. exact (lawful_on compare_sort_key sort_key). Qed.

(** The integer and the float are compared exactly: the float is a number, and
    the integer is not below it while it rounds to it. *)
Definition exact_pair (i f : Z) : Prop :=
  i64 i /\ is_nan f = false /\ ~ (int_scaled i < f64_scaled f /\ int_scaled (float_of_int i) = f64_scaled f).

Definition sort_exact (a b : value) : Prop :=
  match a, b with
  | VInt i, VFloat f | VFloat f, VInt i => exact_pair i f
  | VFloat f, VFloat g => is_nan f = false /\ is_nan g = false
  | _, _ => True
  end.

Lemma cmp_int_compare a b : cmp_int a b = cmp_of (a ?= b).
Proof. done. Qed.

Lemma cmp_of_opp c : cmp_of (CompOpp c) = - cmp_of c.
Proof. by destruct c. Qed.

Lemma compareIntFloat_compare i f :
  exact_pair i f -> compareIntFloat i f = Some (cmp_of (int_scaled i ?= f64_scaled f)).
Proof.
  intros (Hi & Hf & Hex). destruct (compareIntFloat_cases i f Hi Hf) as (c & -> & [->|(_ & H1 & H2)]); [done|].
  by destruct Hex.
Qed.

Lemma cmp_ltb x y : (if x <? y then -1 else if y <? x then 1 else 0) = cmp_of (x ?= y).
Proof. destruct (Z.ltb_spec x y), (Z.ltb_spec y x), (Z.compare_spec x y); cbn; lia. Qed.

Lemma compare_key_number r x y : compare_sort_key (r, (x, [])) (r, (y, [])) = (x ?= y).
Proof.
  unfold compare_sort_key, compare_lex, compare_on. cbn [fst snd]. rewrite Z.compare_refl. cbn. by destruct (x ?= y).
Qed.

Lemma compare_key_bytes r x y : compare_sort_key (r, (0, x)) (r, (0, y)) = bcompare x y.
Proof. unfold compare_sort_key, compare_lex, compare_on. cbn [fst snd]. by rewrite !Z.compare_refl. Qed.

Lemma compare_key_rank r r' x y : r <> r' -> compare_sort_key (r, x) (r', y) = (r ?= r').
Proof.
  intros H. unfold compare_sort_key, compare_lex, compare_on. cbn [fst snd].
  destruct (r ?= r') eqn:E; [by apply Z.compare_eq in E|done..].
Qed.

(** [compareSortValues] is this order on exactly comparable values. *)
Lemma compareSortValues_order a b : sort_exact a b -> compareSortValues a b = cmp_of (compare_sort a b).
Proof.
  unfold compareSortValues, compare_sort.
  destruct a, b; cbn [sort_exact]; intros Hex; try reflexivity;
    unfold sort_key; cbn [Kind kind_eqb kind_code valueKindRank Z.eqb Pos.eqb compareValues compareNumeric scalarKind negb orb];
    rewrite ?compare_key_bytes, ?compare_key_number; try reflexivity.
  - destruct b, b0; reflexivity.
  - unfold compareValues; cbn [compareNumeric Kind scalarKind negb orb kind_eqb kind_code Z.eqb Pos.eqb].
    rewrite cmp_ltb. unfold int_scaled. rewrite <- Zmult_compare_compat_r; [done|]. apply Z.lt_gt, scale_pos.
  - by rewrite (compareIntFloat_compare _ _ Hex).
  - rewrite (compareIntFloat_compare _ _ Hex). cbn. by rewrite <- cmp_of_opp, <- Z.compare_antisym.
  - unfold compareValues; cbn [compareNumeric Kind scalarKind negb orb kind_eqb kind_code Z.eqb Pos.eqb].
    unfold f64_ltb. destruct Hex as [-> ->]. cbn [negb andb]. apply cmp_ltb.
  - apply cmp_ltb.
Qed.

(** Integers of at most 53 bits are comparable with every number. *)
Lemma exact_pair_small i f : Z.abs i < 2 ^ 53 -> is_nan f = false -> exact_pair i f.
Proof.
  intros Hi Hf. split; [unfold i64; lia|]. split; [done|]. rewrite float_of_int_small by done. lia.
Qed.
