(* ===== verification/QueryResults.v ===== *)
(** * Query results: ranking, pages and the bounded collector

    [internal/database/query_results.go], with [retainQueryCandidate] of
    [query_budget.go]. [sort.SliceStable] and [container/heap] are those of
    [Orders.v]. Results are deep copies in the code, so they are values here. *)
From S2P Require Import Prelude Bytes Strings Entries Float64 Values Documents Any DocumentCodec Query Orders.
From Stdlib Require Import Permutation Sorted.

(** ** Candidates *)

Record queryCandidate := mk_candidate { qc_document : document; qc_position : Z }.

(** The loop of [compareCandidates] over the sort fields. *)
Fixpoint compare_fields (sort : list SortField) (left right : queryCandidate) : Z :=
  match sort with
  | [] =>
      if qc_position left <? qc_position right then -1
      else if qc_position right <? qc_position left then 1 else 0
  | f :: sort =>
      match lookupInternal (qc_document left) (sf_path f), lookupInternal (qc_document right) (sf_path f) with
      | None, None => compare_fields sort left right
      | None, Some _ => if sf_direction f =? 1 then -1 else 1
      | Some _, None => if sf_direction f =? 1 then 1 else -1
      | Some lv, Some rv =>
          let comparison := compareSortValues lv rv in
          if comparison =? 0 then compare_fields sort left right
          else if sf_direction f =? -1 then - comparison else comparison
      end
  end.

Definition compareCandidates (q : QuerySpec) : queryCandidate -> queryCandidate -> Z := compare_fields (q_sort q).

(** ** Pages *)

Definition candidate_before (q : QuerySpec) (a b : queryCandidate) : bool := compareCandidates q a b <? 0.
Definition position_before (a b : queryCandidate) : bool := qc_position a <? qc_position b.

(** The scan that finds two neighbours out of position order. *)
Fixpoint positions_ordered (l : list queryCandidate) : bool :=
  match l with
  | a :: (b :: _) as l' => if qc_position b <? qc_position a then false else positions_ordered l'
  | _ => true
  end.

(** The candidates sorted by the sort fields, or by position. *)
Definition arrange (q : QuerySpec) (result : list queryCandidate) : list queryCandidate :=
  if 0 <? zlen (q_sort q) then sort_stable (candidate_before q) result
  else if positions_ordered result then result else sort_stable position_before result.

(** [make] of a negative length panics, and so does an index below zero. *)
Definition executeMatched (q : QuerySpec) (result : list queryCandidate) : Prelude.result (list document) :=
  let result := arrange q result in
  let start := if zlen result <? q_skip q then zlen result else q_skip q in
  let end_ :=
    match q_limit q with
    | Some limit =>
        let sum := to_i64 (to_u64 (start + limit)) in
        if sum <? zlen result then sum else zlen result
    | None => zlen result
    end in
  if end_ <? start then Err ErrPanic
  else if (start <? end_) && (start <? 0) then Err ErrPanic
  else Ok (qc_document <$> take (Z.to_nat (end_ - start)) (drop (Z.to_nat start) result)).

Fixpoint matching_from (q : QuerySpec) (documents : list document) (i : Z) : list queryCandidate :=
  match documents with
  | [] => []
  | d :: documents =>
      if Match q d then mk_candidate d i :: matching_from q documents (i + 1)
      else matching_from q documents (i + 1)
  end.

Definition Execute (q : QuerySpec) (documents : list document) : Prelude.result (list document) :=
  executeMatched q (matching_from q documents 0).

(** ** The collector *)

Record queryCandidateCollector := mk_collector {
  c_query : QuerySpec; c_maxRetained : Z; c_items : list queryCandidate }.

Definition maxInt : Z := 2 ^ 63 - 1.

Definition newQueryCandidateCollector (query : QuerySpec) : queryCandidateCollector :=
  match q_limit query with
  | None => mk_collector query (-1) []
  | Some limit =>
      if maxInt - limit <? q_skip query then mk_collector query (-1) []
      else mk_collector query (q_skip query + limit) []
  end.

(** [queryCandidateHeap.Less]: worse first. *)
Definition candidate_worse (q : QuerySpec) (a b : queryCandidate) : bool := 0 <? compareCandidates q a b.

(** [Add]: the collector, whether the candidate is retained, and what it replaces. *)
Definition Collector_Add (candidate : queryCandidate) (c : queryCandidateCollector)
    : queryCandidateCollector * bool * option queryCandidate :=
  let q := c_query c in
  let with_items items := mk_collector q (c_maxRetained c) items in
  if c_maxRetained c <? 0 then (with_items (c_items c ++ [candidate]), true, None)
  else if c_maxRetained c =? 0 then (c, false, None)
  else if zlen (c_items c) <? c_maxRetained c
  then (with_items (heap_Push (candidate_worse q) (c_items c) candidate), true, None)
  else
    match c_items c with
    | [] => (c, false, None)
    | removed :: rest =>
        if 0 <=? compareCandidates q candidate removed then (c, false, None)
        else (with_items (heap_Fix (candidate_worse q) (candidate :: rest) 0), true, Some removed)
    end.

Definition Collector_Documents (c : queryCandidateCollector) : Prelude.result (list document) :=
  executeMatched (c_query c) (c_items c).

(** Adding candidates one after the other. *)
Definition collect (q : QuerySpec) (cs : list queryCandidate) : queryCandidateCollector :=
  fold_left (fun c candidate => (Collector_Add candidate c).1.1) cs (newQueryCandidateCollector q).

Definition retainQueryCandidate (candidate : queryCandidate) (c : queryCandidateCollector) (b : queryBudget)
    : queryCandidateCollector * queryBudget * option gerror :=
  match Collector_Add candidate c with
  | (c, false, _) => (c, b, None)
  | (c, true, None) =>
      let '(b, err) := charge_candidate (qc_document candidate) b in (c, b, err)
  | (c, true, Some evicted) =>
      match releaseCandidate (qc_document evicted) b with
      | (b, Some err) => (c, b, Some err)
      | (b, None) => let '(b, err) := charge_candidate (qc_document candidate) b in (c, b, err)
      end
  end.

(** ** The order of candidates *)

Definition directed (f : SortField) (c : queryCandidate -> queryCandidate -> comparison) :=
  if sf_direction f =? 1 then c else compare_opp c.

(** Field by field in the given directions, a missing field first, then by
    position. *)
Fixpoint rank_fields (sort : list SortField) : queryCandidate -> queryCandidate -> comparison :=
  match sort with
  | [] => compare_on qc_position Z.compare
  | f :: sort =>
      compare_lex
        (directed f (compare_on (fun c => lookupInternal (qc_document c) (sf_path f)) (compare_option compare_sort)))
        (rank_fields sort)
  end.

Lemma directed_eq f c a b : directed f c a b = if sf_direction f =? 1 then c a b else CompOpp (c a b).
Proof. unfold directed. by destruct (_ =? _). Qed.

#[export] Instance lawful_directed f c `{!Lawful c} : Lawful (directed f c).
Proof. unfold directed. destruct (_ =? _); [done|apply lawful_opp, _]. Qed.

#[export] Instance lawful_rank sort : Lawful (rank_fields sort).
Proof. induction sort; cbn [rank_fields]; apply _. Qed.

(** Candidates a query can rank: distinct positions, directions the validator
    accepts, and sort values that compare exactly. *)
Record sortable (q : QuerySpec) (cs : list queryCandidate) : Prop := {
  so_positions : NoDup (qc_position <$> cs);
  so_directions : Forall (fun f => sf_direction f = 1 \/ sf_direction f = -1) (q_sort q);
  so_exact : forall a b f va vb, a ∈ cs -> b ∈ cs -> f ∈ q_sort q ->
    lookupInternal (qc_document a) (sf_path f) = Some va ->
    lookupInternal (qc_document b) (sf_path f) = Some vb -> sort_exact va vb }.

Lemma cmp_of_zero c : cmp_of c = 0 <-> c = Eq.
Proof. by destruct c. Qed.

Lemma compare_fields_rank sort a b :
  Forall (fun f => sf_direction f = 1 \/ sf_direction f = -1) sort ->
  (forall f va vb, f ∈ sort -> lookupInternal (qc_document a) (sf_path f) = Some va ->
     lookupInternal (qc_document b) (sf_path f) = Some vb -> sort_exact va vb) ->
  compare_fields sort a b = cmp_of (rank_fields sort a b).
Proof.
  induction 1 as [|f sort Hf Hs IH]; intros Hex; cbn [compare_fields rank_fields]; [apply cmp_ltb|].
  assert (IH' := IH ltac:(intros f0 va0 vb0 H0; apply Hex; by right)). clear IH.
  unfold compare_lex. rewrite directed_eq. unfold compare_on.
  specialize (Hex f).
  destruct (lookupInternal (qc_document a) (sf_path f)) as [va|],
    (lookupInternal (qc_document b) (sf_path f)) as [vb|]; cbn [compare_option].
  - rewrite (compareSortValues_order va vb) by (eapply Hex; [left|done..]).
    destruct (compare_sort va vb) eqn:E; cbn [cmp_of Z.eqb].
    + destruct (sf_direction f =? 1); done.
    + destruct Hf as [-> | ->]; done.
    + destruct Hf as [-> | ->]; done.
  - destruct (sf_direction f =? 1); done.
  - destruct (sf_direction f =? 1); done.
  - destruct (sf_direction f =? 1); done.
Qed.

Section Sortable.
Context (q : QuerySpec) (cs : list queryCandidate) (Hq : sortable q cs).

Lemma compareCandidates_rank a b :
  a ∈ cs -> b ∈ cs -> compareCandidates q a b = cmp_of (rank_fields (q_sort q) a b).
Proof.
  intros Ha Hb. apply compare_fields_rank; [apply Hq|]. intros f va vb. by apply (so_exact q cs Hq).
Qed.

Lemma rank_last sort a b : rank_fields sort a b = Eq -> qc_position a = qc_position b.
Proof.
  induction sort as [|f sort IH]; cbn [rank_fields]; [apply Z.compare_eq|].
  unfold compare_lex. destruct (directed _ _ _ _); done.
Qed.

Lemma position_inj a b : a ∈ cs -> b ∈ cs -> qc_position a = qc_position b -> a = b.
Proof.
  pose proof (so_positions q cs Hq) as H. intros [i Hi]%list_elem_of_lookup [j Hj]%list_elem_of_lookup Hp.
  assert (i = j) as ->; [|congruence]. eapply NoDup_lookup; [exact H|..].
  - rewrite list_lookup_fmap, Hi. done.
  - rewrite list_lookup_fmap, Hj. cbn. by rewrite Hp.
Qed.

Lemma candidate_before_rank a b : a ∈ cs -> b ∈ cs ->
  candidate_before q a b = match rank_fields (q_sort q) a b with Lt => true | _ => false end.
Proof. intros. unfold candidate_before. rewrite compareCandidates_rank by done. by destruct (rank_fields _ _ _). Qed.

Lemma candidate_before_total : total_on (candidate_before q) (fun a => a ∈ cs).
Proof.
  split.
  - intros a Ha. rewrite candidate_before_rank by done. by rewrite law_refl by apply _.
  - intros a b c Ha Hb Hc. rewrite !candidate_before_rank by done.
    destruct (rank_fields _ a b) eqn:E1; [done| |done]. destruct (rank_fields _ b c) eqn:E2; [done| |done].
    by rewrite (law_trans _ b _ E1 E2).
  - intros a b Ha Hb. rewrite !candidate_before_rank by done.
    rewrite (law_opp (c := rank_fields (q_sort q)) a b). destruct (rank_fields _ a b) eqn:E; [|done..].
    intros _ _. apply position_inj; [done..|]. by eapply rank_last.
Qed.

Lemma candidate_worse_before a b : a ∈ cs -> b ∈ cs -> candidate_worse q a b = candidate_before q b a.
Proof.
  intros. unfold candidate_worse, candidate_before. rewrite !compareCandidates_rank by done.
  rewrite (law_opp (c := rank_fields (q_sort q)) a b), cmp_of_opp. by destruct (rank_fields _ a b).
Qed.

Lemma candidate_worse_total : total_on (candidate_worse q) (fun a => a ∈ cs).
Proof.
  destruct candidate_before_total as [Hi Ht He]. split.
  - intros a Ha. rewrite candidate_worse_before by done. auto.
  - intros a b c Ha Hb Hc. rewrite !candidate_worse_before by done. intros H1 H2. by apply (Ht c b a).
  - intros a b Ha Hb. rewrite !candidate_worse_before by done. intros H1 H2. by apply He.
Qed.

Lemma all_in : Forall (fun a => a ∈ cs) cs.
Proof. by apply Forall_forall. Qed.
End Sortable.

Lemma sortable_sub q cs cs' : sortable q cs -> NoDup (qc_position <$> cs') -> cs' ⊆ cs -> sortable q cs'.
Proof.
  intros [H1 H2 H3] Hnd Hsub. split; [done..|]. intros a b f va vb Ha Hb. apply H3; by apply Hsub.
Qed.

Lemma sortable_Permutation q cs cs' : Permutation cs cs' -> sortable q cs -> sortable q cs'.
Proof.
  intros Hp H. apply (sortable_sub q cs); [done| |intros x; by rewrite Hp].
  rewrite <- Hp. apply H.
Qed.

(** ** Pages *)

(** The candidates in rank order. *)
Definition ranked (q : QuerySpec) (cs : list queryCandidate) : list queryCandidate :=
  sort_stable (candidate_before q) cs.

(** The part of a list the query asks for. *)
Definition page {A} (q : QuerySpec) (l : list A) : list A :=
  let rest := drop (Z.to_nat (q_skip q)) l in
  match q_limit q with Some limit => take (Z.to_nat limit) rest | None => rest end.

Definition paging_ok (q : QuerySpec) : Prop :=
  0 <= q_skip q <= maxInt /\ forall limit, q_limit q = Some limit -> 0 <= limit <= maxInt.

Lemma positions_ordered_in_order l :
  positions_ordered l = true -> in_order position_before l.
Proof.
  intros H. apply Sorted_StronglySorted.
  - intros a b c. unfold position_before. rewrite !Z.ltb_ge. lia.
  - induction l as [|a [|b l] IH]; [repeat constructor..|]. cbn [positions_ordered] in H.
    destruct (Z.ltb_spec (qc_position b) (qc_position a)); [done|].
    constructor; [by apply IH|]. constructor. unfold position_before. by apply Z.ltb_ge.
Qed.

Lemma position_before_candidates q a b : q_sort q = [] -> position_before a b = candidate_before q a b.
Proof.
  intros Hs. unfold position_before, candidate_before, compareCandidates. rewrite Hs. cbn [compare_fields].
  destruct (Z.ltb_spec (qc_position a) (qc_position b)); [done|].
  destruct (Z.ltb_spec (qc_position b) (qc_position a)); done.
Qed.

(** Both branches of [executeMatched] put the candidates in rank order. *)
Lemma executeMatched_ranks q cs : sortable q cs ->
  arrange q cs = ranked q cs.
Proof.
  intros Hq. unfold arrange, ranked. destruct (Z.ltb_spec 0 (zlen (q_sort q))) as [|Hs]; [done|].
  assert (q_sort q = []) as Hnil by (destruct (q_sort q); [done|rewrite zlen_cons in Hs; pose proof (zlen_nonneg l); lia]).
  destruct (positions_ordered cs) eqn:E.
  - symmetry. apply (sort_stable_sorted _ _ (candidate_before_total q cs Hq)); [apply all_in|].
    apply (in_order_ext position_before); [intros a b; by apply position_before_candidates|].
    by apply positions_ordered_in_order.
  - apply sort_stable_ext. intros a b. by apply position_before_candidates.
Qed.

Lemma zlen_ranked q cs : zlen (ranked q cs) = zlen cs.
Proof. unfold ranked, zlen. by rewrite sort_stable_Permutation. Qed.

Lemma executeMatched_page q cs :
  sortable q cs -> paging_ok q -> zlen cs + default 0 (q_limit q) <= maxInt ->
  executeMatched q cs = Ok (qc_document <$> page q (ranked q cs)).
Proof.
  intros Hq [Hskip Hlim] Hmax. unfold executeMatched. cbv zeta. rewrite executeMatched_ranks by done.
  set (l := ranked q cs). assert (Hl : zlen l = zlen cs) by apply zlen_ranked.
  pose proof (zlen_nonneg cs). unfold maxInt in *. rewrite Hl.
  set (start := if zlen cs <? q_skip q then zlen cs else q_skip q).
  assert (Hstart : 0 <= start <= zlen cs) by (unfold start; destruct (Z.ltb_spec (zlen cs) (q_skip q)); lia).
  assert (Hdrop : drop (Z.to_nat start) l = drop (Z.to_nat (q_skip q)) l).
  { unfold start. destruct (Z.ltb_spec (zlen cs) (q_skip q)); [|done]. unfold zlen in *. rewrite !drop_ge by lia. done. }
  assert (Hlen : length (drop (Z.to_nat start) l) = Z.to_nat (zlen cs - start)).
  { rewrite length_drop. unfold zlen in *. lia. }
  clearbody start. unfold page. destruct (q_limit q) as [limit|]; cbn [default from_option id] in Hmax.
  - specialize (Hlim limit eq_refl). rewrite to_i64_to_u64 by (unfold i64; lia).
    set (e := if start + limit <? zlen cs then start + limit else zlen cs).
    assert (He : start <= e <= zlen cs) by (unfold e; destruct (Z.ltb_spec (start + limit) (zlen cs)); lia).
    destruct (Z.ltb_spec e start); [lia|]. destruct (Z.ltb_spec start 0); [lia|]. rewrite andb_false_r.
    do 2 f_equal. rewrite <- Hdrop. unfold e. destruct (Z.ltb_spec (start + limit) (zlen cs)).
    + f_equal. lia.
    + rewrite !take_ge by lia. done.
  - destruct (Z.ltb_spec (zlen cs) start); [lia|]. destruct (Z.ltb_spec start 0); [lia|]. rewrite andb_false_r.
    do 2 f_equal. rewrite <- Hdrop. apply take_ge. lia.
Qed.

(** ** The collector keeps the best candidates *)

Lemma ranked_snoc q cs c : sortable q (cs ++ [c]) ->
  ranked q (cs ++ [c]) = insert_stable (candidate_before q) c (ranked q cs).
Proof.
  intros Hq. change (insert_stable (candidate_before q) c (ranked q cs)) with (ranked q (c :: cs)).
  apply (sort_stable_unique _ _ (candidate_before_total q _ Hq)); [apply all_in|].
  symmetry. apply Permutation_cons_append.
Qed.

Section TopK.
Context {A : Type} (less : A -> A -> bool).

Lemma insert_stable_split x l1 l2 :
  Forall (fun y => less y x = true) l1 -> (forall y, head l2 = Some y -> less y x = false) ->
  insert_stable less x (l1 ++ l2) = l1 ++ x :: l2.
Proof.
  intros H1 H2. induction H1 as [|y l1 Hy _ IH]; cbn [app insert_stable].
  - destruct l2 as [|y l2]; [done|]. cbn [insert_stable]. by rewrite (H2 y).
  - by rewrite Hy, IH.
Qed.

Lemma length_insert_stable x l : length (insert_stable less x l) = S (length l).
Proof. by rewrite insert_stable_Permutation. Qed.

(** The first [n] elements after an insertion are those of the first [n] before it. *)
Lemma take_insert_stable n x l : take n (insert_stable less x l) = take n (insert_stable less x (take n l)).
Proof.
  revert n; induction l as [|y l IH]; intros n; [by destruct n|].
  destruct n as [|n]; [done|]. cbn [insert_stable take].
  destruct (less y x); cbn [take]; [by rewrite IH|]. f_equal.
  destruct n as [|n]; [done|]. cbn [take]. by rewrite take_take, Nat.min_l by lia.
Qed.

Lemma insert_stable_last x l r : less x r = true -> insert_stable less x (l ++ [r]) = insert_stable less x l ++ [r]
  \/ less r x = true.
Proof.
  intros Hx. destruct (less r x) eqn:E; [by right|]. left.
  induction l as [|y l IH]; cbn [app insert_stable]; [by rewrite E|]. destruct (less y x); [by rewrite IH|done].
Qed.

Lemma insert_stable_end x l : Forall (fun y => less y x = true) l -> insert_stable less x l = l ++ [x].
Proof. intros H. rewrite <- (app_nil_r l) at 1. by rewrite insert_stable_split. Qed.
End TopK.

(** What the collector holds after some candidates: all of them, or the best of
    them as a heap with the worst at its root. *)
Definition collected (q : QuerySpec) (cs : list queryCandidate) (c : queryCandidateCollector) : Prop :=
  c_query c = q /\ c_maxRetained c = c_maxRetained (newQueryCandidateCollector q) /\
  if c_maxRetained c <? 0 then c_items c = cs
  else Permutation (c_items c) (take (Z.to_nat (c_maxRetained c)) (ranked q cs)) /\
       is_heap (candidate_worse q) (c_items c).

Section AddStep.
Context (q : QuerySpec) (cs : list queryCandidate) (x : queryCandidate) (Hq : sortable q (cs ++ [x])).
Let Hbefore := candidate_before_total q _ Hq.
Let Hworse := candidate_worse_total q _ Hq.

Lemma in_taken k a : a ∈ take k (ranked q cs) -> a ∈ cs ++ [x].
Proof.
  intros Ha. apply subseteq_take in Ha. unfold ranked in Ha. rewrite sort_stable_Permutation in Ha.
  apply elem_of_app. auto.
Qed.

Lemma taken_in k : Forall (fun a => a ∈ cs ++ [x]) (take k (ranked q cs)).
Proof. apply Forall_forall. intros a. apply in_taken. Qed.

Lemma items_in k items : Permutation items (take k (ranked q cs)) -> Forall (fun a => a ∈ cs ++ [x]) items.
Proof. intros ->. apply taken_in. Qed.

Lemma x_in : x ∈ cs ++ [x].
Proof. apply elem_of_app. right. apply list_elem_of_singleton. done. Qed.

Lemma taken_in_order k : in_order (candidate_before q) (take k (ranked q cs)).
Proof.
  assert (H : in_order (candidate_before q) (ranked q cs)).
  { apply (sort_stable_in_order _ _ Hbefore). apply Forall_forall. intros a Ha. apply elem_of_app. auto. }
  rewrite <- (take_drop k) in H. by eapply StronglySorted_app_1_l.
Qed.

(** The last of the best [k] is before none of them. *)
Lemma last_of_taken k t0 r a :
  take k (ranked q cs) = t0 ++ [r] -> a ∈ t0 ++ [r] -> candidate_before q r a = false.
Proof.
  intros Ht Ha. pose proof (taken_in_order k) as Ho. rewrite Ht in Ho.
  assert (Hr : r ∈ t0 ++ [r]) by (apply elem_of_app; right; by apply list_elem_of_singleton).
  apply elem_of_app in Ha as [Ha|Ha%list_elem_of_singleton].
  - eapply (StronglySorted_app_1_elem_of _ _ _ a r) in Ho; [done|done|by apply list_elem_of_singleton].
  - subst a. apply (less_irrefl _ _ Hbefore). apply (in_taken k). by rewrite Ht.
Qed.

(** The root of the heap of the best [k] is the last of them. *)
Lemma root_is_last k items r t0 r' :
  Permutation items (take k (ranked q cs)) -> is_heap (candidate_worse q) items ->
  head items = Some r -> take k (ranked q cs) = t0 ++ [r'] -> r = r'.
Proof.
  intros Hp Hh Hr Ht. destruct items as [|r0 rest]; [done|]. injection Hr as ->.
  assert (HS := items_in k _ Hp).
  assert (Hin' : r' ∈ r :: rest) by (rewrite Hp, Ht, elem_of_app, list_elem_of_singleton; auto).
  assert (Hin : r ∈ t0 ++ [r']) by (rewrite <- Ht, <- Hp; left).
  rewrite Forall_forall in HS. assert (Hr1 : r ∈ cs ++ [x]) by (apply HS; left). assert (Hr2 := HS r' Hin').
  apply (less_total _ _ Hbefore); [done..| |].
  - rewrite <- (candidate_worse_before q _ Hq) by done.
    apply (heap_root _ _ Hworse rest r r'); [by apply Forall_forall|done|done].
  - by apply (last_of_taken k t0).
Qed.

Lemma x_not_in k a : a ∈ take k (ranked q cs) -> a <> x.
Proof.
  intros Ha ->. apply subseteq_take in Ha. unfold ranked in Ha. rewrite sort_stable_Permutation in Ha.
  pose proof (so_positions _ _ Hq) as Hnd. rewrite fmap_app in Hnd. apply NoDup_app in Hnd as (_ & Hd & _).
  apply (Hd (qc_position x)); [by apply (list_elem_of_fmap_2 qc_position)|]. apply list_elem_of_singleton. done.
Qed.

(** A candidate not before the last of the best [k] leaves them the best. *)
Lemma add_worse k t0 r :
  take k (ranked q cs) = t0 ++ [r] -> k = length (t0 ++ [r]) -> candidate_before q x r = false ->
  take k (insert_stable (candidate_before q) x (take k (ranked q cs))) = take k (ranked q cs).
Proof.
  intros Ht Hk Hxr. rewrite insert_stable_end; [rewrite Ht, Hk; apply take_app_length|].
  apply Forall_forall. intros y Hy. assert (Hy1 := in_taken k y Hy).
  destruct (candidate_before q y x) eqn:E; [done|]. destruct (x_not_in k y Hy).
  apply (less_total _ _ Hbefore); [done|apply x_in|done|].
  assert (Hr1 : r ∈ cs ++ [x]).
  { apply (in_taken k). rewrite Ht. apply elem_of_app. right. by apply list_elem_of_singleton. }
  apply (less_le_trans _ _ Hbefore y r x); [done|done|apply x_in| |done].
  rewrite Ht in Hy. by apply (last_of_taken k t0).
Qed.
End AddStep.

Lemma collected_Add q cs x c :
  sortable q (cs ++ [x]) -> collected q cs c -> collected q (cs ++ [x]) (Collector_Add x c).1.1.
Proof.
  intros Hq (Hcq & Hm & Hc). unfold Collector_Add. destruct c as [q' m items]. cbn [c_query c_maxRetained c_items] in *.
  subst q'. destruct (Z.ltb_spec m 0) as [Hneg|Hpos].
  { split; [done|]. split; [done|]. cbn [fst c_maxRetained c_items]. destruct (Z.ltb_spec m 0); [|lia]. by subst items. }
  destruct Hc as [Hp Hh]. unfold collected. set (k := Z.to_nat m) in *.
  rewrite (ranked_snoc q cs x Hq), take_insert_stable.
  assert (Hlen := Permutation_length Hp). rewrite length_take in Hlen.
  destruct (Z.eqb_spec m 0) as [->|Hm0]; cbn [fst c_query c_maxRetained c_items];
    [split; [done|]; split; [done|]; destruct (Z.ltb_spec 0 0); [lia|]; done|].
  assert (Hcons : Permutation (x :: items) (x :: take k (ranked q cs))) by (by rewrite Hp).
  assert (HS := items_in q cs x k items Hp).
  destruct (Z.ltb_spec (zlen items) m) as [Hlt|Hfull]; cbn [fst c_query c_maxRetained c_items].
  { split; [done|]. split; [done|]. destruct (Z.ltb_spec m 0); [lia|]. split.
    - fold k. rewrite heap_Push_Permutation, Hcons, (take_ge (insert_stable (candidate_before q) x (take k (ranked q cs))) k).
      + symmetry. apply insert_stable_Permutation.
      + rewrite length_insert_stable, length_take. unfold zlen in Hlt. lia.
    - apply (heap_Push_heap _ _ (candidate_worse_total q _ Hq)); [|done].
      apply Forall_app. split; [done|]. apply Forall_singleton, x_in. }
  assert (Hk : length (take k (ranked q cs)) = k) by (rewrite length_take; unfold zlen in Hfull; lia).
  destruct items as [|r rest]; [unfold zlen in Hfull; cbn in Hfull; lia|].
  destruct (exists_last (l := take k (ranked q cs))) as (t0 & r' & Ht); [by destruct (take k _); [cbn in Hk; lia|]|].
  assert (r = r') as <- by (by apply (root_is_last q cs x Hq k (r :: rest) r t0 r')).
  assert (Hk' : k = length (t0 ++ [r])) by (by rewrite <- Ht).
  destruct (Z.leb_spec 0 (compareCandidates q x r)) as [Hge|Hltr]; cbn [fst c_query c_maxRetained c_items].
  - split; [done|]. split; [done|]. destruct (Z.ltb_spec m 0); [lia|]. split; [|done].
    fold k. rewrite (add_worse q cs x Hq k t0 r Ht Hk'); [done|]. unfold candidate_before. by apply Z.ltb_ge.
  - split; [done|]. split; [done|]. destruct (Z.ltb_spec m 0); [lia|].
    assert (Hb : candidate_before q x r = true) by (unfold candidate_before; by apply Z.ltb_lt).
    assert (Hrest : Permutation rest t0).
    { apply (Permutation_cons_inv (a := r)). rewrite Hp, Ht. symmetry. apply Permutation_cons_append. }
    split.
    + fold k. rewrite heap_Fix_Permutation, Hrest, Ht.
      destruct (insert_stable_last _ x t0 r Hb) as [->|Hr].
      * rewrite Hk', length_app. cbn [length].
        rewrite take_app_length' by (rewrite length_insert_stable; lia). symmetry. apply insert_stable_Permutation.
      * apply Forall_cons in HS as [HSr _].
        by rewrite (less_asym _ _ (candidate_before_total q _ Hq) x r (x_in cs x) HSr Hb) in Hr.
    + apply (heap_Fix_root _ _ (candidate_worse_total q _ Hq) rest x) with (r := r); [|done].
      apply Forall_cons in HS as [_ HS]. constructor; [apply x_in|done].
Qed.

Lemma sortable_prefix q cs x : sortable q (cs ++ [x]) -> sortable q cs.
Proof.
  intros H. apply (sortable_sub q (cs ++ [x])); [done| |intros a Ha; apply elem_of_app; by left].
  pose proof (so_positions _ _ H) as Hnd. rewrite fmap_app in Hnd. by apply NoDup_app in Hnd as [? _].
Qed.

Lemma collect_collected q cs : sortable q cs -> collected q cs (collect q cs).
Proof.
  induction cs as [|x cs IH] using rev_ind; intros Hq.
  - unfold collect. cbn [fold_left]. split; [unfold newQueryCandidateCollector; by repeat case_match|].
    split; [done|]. destruct (c_maxRetained _ <? 0); unfold newQueryCandidateCollector;
      destruct (q_limit q) as [limit|]; try destruct (_ <? _); cbn [c_items]; try done;
      (split; [by change (ranked q []) with (@nil queryCandidate); rewrite take_nil|intros k _ u p Hu; done]).
  - unfold collect. rewrite fold_left_app. cbn [fold_left]. apply collected_Add; [done|]. apply IH. by eapply sortable_prefix.
Qed.

(** The page of the best candidates is the page of all of them. *)
Lemma page_of_best {A} q (l : list A) m :
  paging_ok q -> c_maxRetained (newQueryCandidateCollector q) = m -> 0 <= m -> page q (take (Z.to_nat m) l) = page q l.
Proof.
  intros [Hs Hl] Hm H0. unfold newQueryCandidateCollector in Hm. unfold page.
  destruct (q_limit q) as [limit|] eqn:E; [|cbn in Hm; lia].
  specialize (Hl limit eq_refl).
  destruct (Z.ltb_spec (maxInt - limit) (q_skip q)); cbn [c_maxRetained] in Hm; [lia|].
  rewrite skipn_firstn_comm, take_take. f_equal. lia.
Qed.

(** ** What a query returns *)

Lemma Match_satisfies q d : expr_ok (q_where q) = true -> Match q d = true <-> satisfies (q_where q) d.
Proof.
  intros Hok. destruct (decides_expression (q_where q) d Hok) as (o & Ho & HP).
  unfold Match, matchWithBudget. destruct (q_where q); [done|by rewrite Ho..].
Qed.

Lemma elem_of_matching q documents i c :
  0 <= i -> c ∈ matching_from q documents i <->
  i <= qc_position c /\ documents !! Z.to_nat (qc_position c - i) = Some (qc_document c) /\ Match q (qc_document c) = true.
Proof.
  revert i; induction documents as [|d documents IH]; intros i Hi; cbn [matching_from].
  { rewrite elem_of_nil, lookup_nil. split; [done|]. by intros (_ & ? & _). }
  assert (Hcase : (c = mk_candidate d i /\ Match q d = true) \/ c ∈ matching_from q documents (i + 1) <->
    i <= qc_position c /\ (d :: documents) !! Z.to_nat (qc_position c - i) = Some (qc_document c) /\
    Match q (qc_document c) = true).
  { rewrite IH by lia. destruct c as [d' p]. cbn [qc_document qc_position]. split.
    - intros [[[= -> ->] Hm]|(Hp & Hd & Hm)].
      + rewrite Z.sub_diag. auto with lia.
      + split; [lia|]. replace (Z.to_nat (p - i)) with (S (Z.to_nat (p - (i + 1)))) by lia. auto.
    - intros (Hp & Hd & Hm). destruct (decide (p = i)) as [->|Hne].
      + rewrite Z.sub_diag in Hd. injection Hd as ->. auto.
      + right. split; [lia|]. replace (Z.to_nat (p - i)) with (S (Z.to_nat (p - (i + 1)))) in Hd by lia. auto. }
  rewrite <- Hcase. clear Hcase IH. destruct (Match q d); [rewrite elem_of_cons; intuition|]. intuition congruence.
Qed.

Lemma matching_positions q documents i : 0 <= i -> NoDup (qc_position <$> matching_from q documents i).
Proof.
  revert i; induction documents as [|d documents IH]; intros i Hi; cbn [matching_from]; [constructor|].
  destruct (Match q d); [|apply IH; lia]. rewrite fmap_cons. constructor; [|apply IH; lia].
  intros (c & Hp & Hc)%list_elem_of_fmap. apply elem_of_matching in Hc as [Hc _]; [|lia]. cbn in Hp. lia.
Qed.

(** A collector of candidates returns their page. *)
Lemma collected_page q cs c :
  sortable q cs -> paging_ok q -> zlen cs + default 0 (q_limit q) <= maxInt -> collected q cs c ->
  Collector_Documents c = Ok (qc_document <$> page q (ranked q cs)).
Proof.
  intros Hq Hp Hmax (Hcq & Hm & Hc). rewrite Hm in Hc. set (m := c_maxRetained (newQueryCandidateCollector q)) in *.
  unfold Collector_Documents. rewrite Hcq. destruct (Z.ltb_spec m 0) as [Hneg|Hpos].
  { rewrite Hc. by apply executeMatched_page. }
  destruct Hc as [Hin _]. symmetry in Hin.
  assert (Hqb : sortable q (take (Z.to_nat m) (ranked q cs))).
  { apply (sortable_sub q cs); [done| |].
    - assert (Hnd : NoDup (qc_position <$> ranked q cs)) by (unfold ranked; rewrite sort_stable_Permutation; apply Hq).
      rewrite <- (take_drop (Z.to_nat m) (ranked q cs)), fmap_app in Hnd. by apply NoDup_app in Hnd as [? _].
    - intros a Ha%subseteq_take. unfold ranked in Ha. by rewrite sort_stable_Permutation in Ha. }
  rewrite executeMatched_page; [|by apply (sortable_Permutation _ _ _ Hin)|done|].
  2:{ unfold zlen in *. rewrite <- Hin, length_take. unfold ranked. rewrite sort_stable_Permutation. lia. }
  do 2 f_equal. rewrite <- (page_of_best q (ranked q cs) m Hp eq_refl Hpos). f_equal.
  unfold ranked at 1. rewrite <- (sort_stable_unique _ _ (candidate_before_total _ _ Hqb) _ _ (all_in _) Hin).
  apply (sort_stable_sorted _ _ (candidate_before_total _ _ Hqb)); [apply all_in|].
  assert (Ho := sort_stable_in_order _ _ (candidate_before_total _ _ Hq) cs (all_in cs)).
  unfold ranked in *. rewrite <- (take_drop (Z.to_nat m)) in Ho. by eapply StronglySorted_app_1_l.
Qed.

(** A collector holds no more than it retains. *)
Lemma collected_length q cs c limit :
  paging_ok q -> collected q cs c -> q_limit q = Some limit -> q_skip q + limit <= maxInt -> zlen (c_items c) <= q_skip q + limit.
Proof.
  intros [Hs Hlim] (_ & Hm & Hc) Hl Hsum. specialize (Hlim limit Hl). rewrite Hm in Hc. unfold newQueryCandidateCollector in Hc.
  rewrite Hl in Hc. destruct (Z.ltb_spec (maxInt - limit) (q_skip q)); [lia|]. cbn [c_maxRetained] in Hc.
  destruct (Z.ltb_spec (q_skip q + limit) 0); [lia|]. destruct Hc as [Hp _]. unfold zlen. rewrite Hp, length_take. lia.
Qed.

Lemma zlen_matching q documents i : zlen (matching_from q documents i) <= zlen documents.
Proof.
  unfold zlen. revert i; induction documents as [|d ds IH]; intros i; cbn [matching_from length]; [lia|].
  specialize (IH (i + 1)). destruct (Match q d); cbn [length]; lia.
Qed.

(** The candidates of [documents] that satisfy the filter, in rank order. *)
Definition ranking (q : QuerySpec) (documents : list document) (l : list queryCandidate) : Prop :=
  NoDup (qc_position <$> l) /\
  (forall c, c ∈ l <-> 0 <= qc_position c /\ documents !! Z.to_nat (qc_position c) = Some (qc_document c) /\
                       satisfies (q_where q) (qc_document c)) /\
  StronglySorted (fun a b => rank_fields (q_sort q) a b = Lt) l.

Lemma in_order_ranked q cs : sortable q cs -> StronglySorted (fun a b => rank_fields (q_sort q) a b = Lt) (ranked q cs).
Proof.
  intros Hq. pose proof (candidate_before_total q cs Hq) as Ht.
  assert (Hnd : NoDup (ranked q cs)).
  { unfold ranked. rewrite sort_stable_Permutation. apply (NoDup_fmap_1 qc_position), Hq. }
  assert (Hin : Forall (fun a => a ∈ cs) (ranked q cs)).
  { unfold ranked. rewrite sort_stable_Permutation. apply all_in. }
  assert (Ho := sort_stable_in_order _ _ Ht cs (all_in cs)). fold (ranked q cs) in Ho.
  induction Ho as [|a l Ho IH Ha]; [constructor|].
  apply NoDup_cons in Hnd as [Hal Hnd]. apply Forall_cons in Hin as [Hacs Hin].
  constructor; [by apply IH|]. rewrite Forall_forall in Ha, Hin |- *. intros b Hb.
  specialize (Ha b Hb). rewrite (candidate_before_rank q cs Hq) in Ha by auto.
  rewrite (law_opp (c := rank_fields (q_sort q)) b a). destruct (rank_fields (q_sort q) b a) eqn:E; [|done|done].
  assert (a = b) as ->; [|done]. apply (position_inj q cs Hq); [auto..|]. symmetry. by eapply rank_last.
Qed.

Lemma ranking_ranked q documents :
  expr_ok (q_where q) = true -> sortable q (matching_from q documents 0) ->
  ranking q documents (ranked q (matching_from q documents 0)).
Proof.
  intros Hok Hq. split; [|split].
  - unfold ranked. rewrite sort_stable_Permutation. by apply matching_positions.
  - intros c. unfold ranked. rewrite sort_stable_Permutation, elem_of_matching by done.
    by rewrite Z.sub_0_r, (Match_satisfies q (qc_document c) Hok).
  - by apply in_order_ranked.
Qed.

(** C34: [Execute] returns the requested page of the documents that satisfy the
    filter, ranked by the sort fields and then by position; and the bounded
    collector, fed the same matches in any order by any scan, returns the same
    documents while it never holds more than [skip + limit] candidates. The sort
    values are ones that compare exactly. *)
Theorem query_results_correct q documents :
  expr_ok (q_where q) = true -> paging_ok q ->
  sortable q (matching_from q documents 0) -> zlen documents + default 0 (q_limit q) <= maxInt ->
  (exists l, ranking q documents l /\ Execute q documents = Ok (qc_document <$> page q l)) /\
  (forall cs, Permutation cs (matching_from q documents 0) ->
     Collector_Documents (collect q cs) = Execute q documents /\
     (forall limit, q_limit q = Some limit -> q_skip q + limit <= maxInt ->
        zlen (c_items (collect q cs)) <= q_skip q + limit)).
Proof.
  intros Hok Hp Hq Hmax. set (ms := matching_from q documents 0) in *.
  pose proof (zlen_matching q documents 0) as Hlen. fold ms in Hlen.
  assert (Hex : Execute q documents = Ok (qc_document <$> page q (ranked q ms))).
  { unfold Execute. fold ms. apply executeMatched_page; [done|done|lia]. }
  split; [exists (ranked q ms); split; [by apply ranking_ranked|done]|].
  intros cs Hcs. assert (Hqc : sortable q cs) by (by apply (sortable_Permutation q ms)).
  assert (Hrank : ranked q cs = ranked q ms).
  { apply (sort_stable_unique _ _ (candidate_before_total q cs Hqc)); [apply all_in|done]. }
  pose proof (collect_collected q cs Hqc) as Hc. split; [|intros limit; by apply (collected_length q cs)].
  rewrite Hex, <- Hrank. apply (collected_page q cs); [done|done| |done]. unfold zlen in *. rewrite Hcs. lia.
Qed.

Definition example_people : list document :=
  [example_person 30 [bs "z"]; example_person 20 []; example_person 10 []; example_person 25 [bs "x"]; example_person 19 [bs "w"]].

Lemma sort_exact_small a b :
  (forall i, a = VInt i \/ b = VInt i -> Z.abs i < 2 ^ 53) -> (forall f, a = VFloat f \/ b = VFloat f -> is_nan f = false) ->
  sort_exact a b.
Proof.
  intros Hi Hf. destruct a, b; cbn; auto; apply exact_pair_small; auto.
Qed.

Lemma example_sortable : sortable example_query (matching_from example_query example_people 0).
Proof.
  assert (H : matching_from example_query example_people 0 =
    [mk_candidate (example_person 30 [bs "z"]) 0; mk_candidate (example_person 20 []) 1;
     mk_candidate (example_person 19 [bs "w"]) 4]) by (vm_compute; reflexivity).
  rewrite H. split.
  - cbn. repeat (constructor; [rewrite ?elem_of_cons, ?elem_of_nil; lia|]). constructor.
  - repeat constructor.
  - intros a b f va vb Ha Hb Hf Hva Hvb.
    apply list_elem_of_singleton in Hf as ->. cbn [sf_path] in *.
    assert (Hint : forall c v, c ∈ [mk_candidate (example_person 30 [bs "z"]) 0; mk_candidate (example_person 20 []) 1;
      mk_candidate (example_person 19 [bs "w"]) 4] -> lookupInternal (qc_document c) (bs "age") = Some v ->
      exists i, v = VInt i).
    { intros c v Hc. rewrite !elem_of_cons, elem_of_nil in Hc.
      destruct Hc as [->|[->|[->|[]]]]; vm_compute; intros [= <-]; eauto. }
    destruct (Hint a va Ha Hva) as [i ->], (Hint b vb Hb Hvb) as [j ->]. done.
Qed.

Lemma query_results_correct_witness :
  Execute example_query example_people = Ok [example_person 19 [bs "w"]; example_person 20 []] /\
  Collector_Documents (collect example_query
    [mk_candidate (example_person 20 []) 1; mk_candidate (example_person 19 [bs "w"]) 4;
     mk_candidate (example_person 30 [bs "z"]) 0]) = Execute example_query example_people.
Proof.
  destruct (query_results_correct example_query example_people ltac:(reflexivity)) as [_ H].
  - split; [split; vm_compute; discriminate|]. intros limit [= <-]. split; vm_compute; discriminate.
  - apply example_sortable.
  - vm_compute. discriminate.
  - split; [vm_compute; reflexivity|]. apply H.
    assert (Hm : matching_from example_query example_people 0 =
      [mk_candidate (example_person 30 [bs "z"]) 0; mk_candidate (example_person 20 []) 1;
       mk_candidate (example_person 19 [bs "w"]) 4]) by (vm_compute; reflexivity).
    rewrite Hm. symmetry. apply Permutation_cons_append.
Defined.

Lemma executeMatched_elem q cs out d : executeMatched q cs = Ok out -> d ∈ out -> exists c, c ∈ cs /\ qc_document c = d.
Proof.
  unfold executeMatched. cbv zeta. set (l := arrange q cs).
  assert (Hl : Permutation l cs).
  { unfold l, arrange. destruct (_ <? _); [apply sort_stable_Permutation|]. destruct (positions_ordered cs); [done|].
    apply sort_stable_Permutation. }
  set (start := if _ <? q_skip q then _ else _). set (e := match q_limit q with Some _ => _ | None => _ end).
  destruct (e <? start); [done|]. destruct (_ && _); [done|]. intros [= <-].
  intros (c & -> & Hc)%list_elem_of_fmap. exists c. split; [|done].
  rewrite <- Hl. eapply subseteq_drop, subseteq_take, Hc.
Qed.

(** ** Policies

    A policy is enforced by constraining a query, and allowed by its paths. *)

Lemma Match_expression q d : expr_ok (q_where q) = true -> Match q d = (matchExpression (q_where q) d None).1.1.
Proof. intros Hok. unfold Match, matchWithBudget. by destruct (q_where q). Qed.

Lemma Match_constrained q policy d :
  expr_ok (q_where q) = true -> expr_ok (q_where policy) = true ->
  Match (Constrain q policy) d = Match policy d && Match q d.
Proof.
  intros Hq Hp. rewrite !Match_expression by (done || (cbn; by rewrite Hp, Hq)).
  destruct (decides_expression _ d Hq) as (o & Ho & _), (decides_expression _ d Hp) as (o' & Ho' & _).
  rewrite Ho, Ho'. unfold Constrain. cbn [q_where matchExpression charged]. rewrite beqb_refl. cbn [and_loop].
  rewrite Ho'. destruct o'; [rewrite Ho; by destruct o|done].
Qed.

Lemma matching_constrained q policy documents i :
  expr_ok (q_where q) = true -> expr_ok (q_where policy) = true ->
  matching_from (Constrain q policy) documents i =
  List.filter (fun c => Match policy (qc_document c)) (matching_from q documents i).
Proof.
  intros Hq Hp.
  revert i; induction documents as [|d documents IH]; intros i; cbn [matching_from]; [done|].
  rewrite Match_constrained, IH by done. destruct (Match q d); cbn [List.filter qc_document]; [|by rewrite andb_false_r].
  rewrite andb_true_r. by destruct (Match policy d).
Qed.

(** ** What a query reads *)

Lemma agree_on_sort sort seen d d' :
  agree_on (fold_left (fun seen f => see (sf_path f) seen) sort seen) d d' ->
  agree_on seen d d' /\ Forall (fun f => lookupInternal d (sf_path f) = lookupInternal d' (sf_path f)) sort.
Proof.
  revert seen; induction sort as [|f sort IH]; intros seen H; [done|]. cbn [fold_left] in H.
  apply IH in H as [H Hs]. apply agree_on_see in H as [Hp H]. auto.
Qed.

(** Two collections whose documents agree wherever the query reads. *)
Definition same_to (q : QuerySpec) : list document -> list document -> Prop :=
  Forall2 (agree_on (QuerySpec_Paths q)).

Lemma agree_on_Paths q d d' : agree_on (QuerySpec_Paths q) d d' ->
  Match q d = Match q d' /\ Forall (fun f => lookupInternal d (sf_path f) = lookupInternal d' (sf_path f)) (q_sort q).
Proof.
  intros H. assert (H' : agree_on (fold_left (fun seen f => see (sf_path f) seen) (q_sort q) (collectExprPaths (q_where q) [])) d d').
  { intros p Hp. apply H. unfold QuerySpec_Paths. by rewrite sort_strings_Permutation. }
  apply agree_on_sort in H' as [H1 H2]. split; [|done].
  apply matchExpression_reads in H1 as [H1 _]. unfold Match, matchWithBudget. destruct (q_where q); by rewrite ?H1.
Qed.

Section Reads.
Context (q : QuerySpec) (documents documents' : list document).

(** Candidates for the same position of the two collections. *)
Definition paired (c c' : queryCandidate) : Prop :=
  qc_position c = qc_position c' /\
      Forall (fun f => lookupInternal (qc_document c) (sf_path f) = lookupInternal (qc_document c') (sf_path f)) (q_sort q) /\
      exists i, documents !! i = Some (qc_document c) /\ documents' !! i = Some (qc_document c').

Lemma paired_before a a' b b' : paired a a' -> paired b b' -> candidate_before q a b = candidate_before q a' b'.
Proof.
  intros (Ha & Hsa & _) (Hb & Hsb & _). unfold candidate_before, compareCandidates. f_equal.
  induction (q_sort q) as [|f sort IH]; cbn [compare_fields]; [by rewrite Ha, Hb|].
  apply Forall_cons in Hsa as [-> Hsa], Hsb as [-> Hsb]. by rewrite (IH Hsa Hsb).
Qed.

Lemma paired_sort (less : queryCandidate -> queryCandidate -> bool) l l' :
  (forall a a' b b', paired a a' -> paired b b' -> less a b = less a' b') ->
  Forall2 paired l l' -> Forall2 paired (sort_stable less l) (sort_stable less l').
Proof.
  intros Hless. assert (Hins : forall x x' l l', paired x x' -> Forall2 paired l l' ->
    Forall2 paired (insert_stable less x l) (insert_stable less x' l')).
  { intros x x' k k' Hx. induction 1 as [|y y' k k' Hy Hk IH]; cbn; [by apply Forall2_cons; split|].
    rewrite (Hless y y' x x' Hy Hx). destruct (less y' x'); repeat (apply Forall2_cons; split); done. }
  induction 1 as [|x x' l l' Hx Hl IH]; [constructor|]. by apply Hins.
Qed.

Lemma paired_ordered l l' : Forall2 paired l l' -> positions_ordered l = positions_ordered l'.
Proof.
  induction 1 as [|x x' l l' Hx Hl IH]; [done|]. destruct Hl as [|y y' l l' Hy Hl]; [done|].
  destruct Hx as [Hx _], Hy as [Hy _].
  cbn [positions_ordered] in IH |- *. by rewrite IH, Hx, Hy.
Qed.

Lemma paired_executeMatched l l' : Forall2 paired l l' ->
  match executeMatched q l, executeMatched q l' with
  | Ok out, Ok out' => exists ps, Forall2 (fun (i : nat) d => documents !! i = Some d) ps out /\
      Forall2 (fun (i : nat) d => documents' !! i = Some d) ps out'
  | Err e, Err e' => e = e'
  | _, _ => False
  end.
Proof.
  intros Hl. unfold executeMatched.
  assert (Hs : Forall2 paired (arrange q l) (arrange q l')).
  { unfold arrange. destruct (_ <? _); [apply paired_sort; [apply paired_before|done]|].
    rewrite (paired_ordered l l' Hl). destruct (positions_ordered l'); [done|].
    apply paired_sort; [|done]. intros a a' b b' [Ha _] [Hb _]. unfold position_before. by rewrite Ha, Hb. }
  cbv zeta. set (r := arrange q l) in *. set (r' := arrange q l') in *.
  assert (zlen r = zlen r') as -> by (unfold zlen; by rewrite (Forall2_length _ _ _ Hs)).
  set (start := if _ <? q_skip q then _ else _). set (e := match q_limit q with Some _ => _ | None => _ end).
  destruct (e <? start); [done|]. destruct (_ && _); [done|].
  assert (Ho : Forall2 paired (take (Z.to_nat (e - start)) (drop (Z.to_nat start) r))
                              (take (Z.to_nat (e - start)) (drop (Z.to_nat start) r'))).
  { by apply Forall2_take, Forall2_drop. }
  clear -Ho. induction Ho as [|c c' k k' (_ & _ & i & Hi & Hi') _ (ps & H1 & H2)]; [by exists []|].
  exists (i :: ps). split; by apply Forall2_cons.
Qed.

Lemma paired_matching : same_to q documents documents' ->
  Forall2 paired (matching_from q documents 0) (matching_from q documents' 0).
Proof.
  intros H. assert (Hgen : forall ds ds' i n, Forall2 (agree_on (QuerySpec_Paths q)) ds ds' ->
    (forall k, documents !! (n + k)%nat = ds !! k) -> (forall k, documents' !! (n + k)%nat = ds' !! k) ->
    Forall2 paired (matching_from q ds i) (matching_from q ds' i)).
  { intros ds ds' i n Hds. revert i n. induction Hds as [|d d' ds ds' Hd _ IH]; intros i n H1 H2; cbn [matching_from]; [done|].
    apply agree_on_Paths in Hd as [-> Hf].
    assert (Hrec : Forall2 paired (matching_from q ds (i + 1)) (matching_from q ds' (i + 1))).
    { apply (IH (i + 1) (S n)); intros k;
        [etransitivity; [|apply (H1 (S k))]|etransitivity; [|apply (H2 (S k))]]; f_equal; lia. }
    destruct (Match q d'); [|done]. constructor; [|done]. split; [done|]. split; [done|].
    exists (n + 0)%nat. cbn [qc_document]. by rewrite H1, H2. }
  by apply (Hgen documents documents' 0 0%nat).
Qed.
End Reads.

(** Authorization by constraint and by paths is sound. A query constrained
    by a policy returns the page of exactly those of its matches that the policy
    admits, in the same relative order. And a query depends on the documents
    only through the paths [Paths] lists: on two collections whose documents
    agree on those paths it selects the same positions in the same order, or
    fails in the same way. *)
Theorem query_policies_sound q policy documents :
  expr_ok (q_where q) = true -> expr_ok (q_where policy) = true ->
  Execute (Constrain q policy) documents =
    executeMatched q (List.filter (fun c => Match policy (qc_document c)) (matching_from q documents 0)) /\
      (forall out, Execute (Constrain q policy) documents = Ok out ->
     Forall (fun d => d ∈ documents /\ satisfies (q_where policy) d /\ satisfies (q_where q) d) out) /\
      (forall documents', Forall2 (agree_on (QuerySpec_Paths q)) documents documents' ->
     match Execute q documents, Execute q documents' with
     | Ok out, Ok out' => exists positions, Forall2 (fun (i : nat) d => documents !! i = Some d) positions out /\
      Forall2 (fun (i : nat) d => documents' !! i = Some d) positions out'
     | Err e, Err e' => e = e'
     | _, _ => False
     end).
Proof.
  intros Hq Hp. assert (Hex : Execute (Constrain q policy) documents =
    executeMatched q (List.filter (fun c => Match policy (qc_document c)) (matching_from q documents 0))).
  { unfold Execute. rewrite matching_constrained by done. done. }
  split; [done|]. split.
  - intros out Hout. rewrite Hex in Hout.
    apply Forall_forall. intros d Hd. destruct (executeMatched_elem _ _ _ d Hout Hd) as (c & Hc & <-). apply list_elem_of_In, filter_In in Hc as [Hc Hpol].
    apply list_elem_of_In, elem_of_matching in Hc as (_ & Hat & Hm); [|done].
    split; [by eapply list_elem_of_lookup_2|]. split; by apply Match_satisfies.
  - intros documents' H. apply paired_executeMatched. by apply paired_matching.
Qed.

Lemma query_policies_sound_witness :
  exists out, Execute (Constrain example_query (mk_query (compareExpr (bs "lt") (bs "age") (VInt 20)) [] 0 None false))
                example_people = Ok out /\
    Forall (fun d => satisfies (compareExpr (bs "lt") (bs "age") (VInt 20)) d) out /\ zlen out = 1.
Proof.
  destruct (query_policies_sound example_query (mk_query (compareExpr (bs "lt") (bs "age") (VInt 20)) [] 0 None false)
    example_people ltac:(reflexivity) ltac:(reflexivity)) as (_ & H & _).
  exists [example_person 19 [bs "w"]]. split; [vm_compute; reflexivity|]. split; [|reflexivity].
  assert (Ho : Execute (Constrain example_query (mk_query (compareExpr (bs "lt") (bs "age") (VInt 20)) [] 0 None false))
                 example_people = Ok [example_person 19 [bs "w"]]) by (vm_compute; reflexivity).
  apply H in Ho. eapply Forall_impl; [exact Ho|]. intros d (_ & Hd & _). exact Hd.
Defined.
