(* ===== verification/QueryCompile.v ===== *)
(** * Compiling filters

    [internal/database/filter.go], [filter_values.go], [filter_elements.go], the
    type names of [query.go] and the expression checks of [query_validate.go]. A
    filter is the list of the bindings of a Go map; the compilers visit its keys
    sorted. The compiler's node counter is threaded through; the recursion is on
    fuel, and the depth limit makes [MaxDepth + 2] levels enough. *)
From S2P Require Import Prelude Bytes Strings Entries Float64 Values Documents Any Query.
#[local] Set Warnings "-register-all".

Abbreviation filter := (list (bytes * any)).

(** ** Document identifiers as text *)

Definition hex_digit (n : Z) : byte := if n <? 10 then z2b (48 + n) else z2b (87 + n).

(** [hex.EncodeToString]. *)
Definition hex_encode (b : bytes) : bytes :=
  b ≫= fun x => [hex_digit (b2z x / 16); hex_digit (b2z x mod 16)].

Definition unhex (b : byte) : option Z :=
  if in_range b 48 57 then Some (b2z b - 48)
  else if in_range b 97 102 then Some (b2z b - 87)
  else if in_range b 65 70 then Some (b2z b - 55)
  else None.

(** [hex.DecodeString]. *)
Fixpoint hex_decode (s : bytes) : option bytes :=
  match s with
  | [] => Some []
  | [_] => None
  | a :: b :: s =>
      let? hi := unhex a in
      let? lo := unhex b in
      let? rest := hex_decode s in
      Some (z2b (16 * hi + lo) :: rest)
  end.

Definition ParseDocumentID (s : bytes) : option bytes :=
  let? b := hex_decode s in
  if zlen b =? 16 then Some b else None.

Definition IsZero (id : bytes) : bool := beqb id (replicate 16 x00).

(** ** Operands *)

(** Any failure is reported by the caller as [ErrInvalidFilter]. *)
Definition queryValueOf (path : bytes) (raw : any) : option value :=
  if beqb path (bs "_id") then
    match raw with
    | ADocumentID id => Some (VID id)
    | AString s =>
        let? id := ParseDocumentID s in
        if IsZero id || negb (beqb (hex_encode id) s) then None else Some (VID id)
    | AValue (VID id) => Some (VID id)
    | _ => None
    end
  else
    match ValueOf raw with
    | Err _ => None
    | Ok v => if validateArray [v] 0 then Some v else None
    end.

Definition containsQueryValue (values : list value) (candidate : value) : bool :=
  existsb (fun v => Equal v candidate) values.

Definition queryArraySize (raw : any) : option Z :=
  let bounded size := if (0 <=? size) && (size <=? maxQueryArraySize) then Some size else None in
  match raw with
  | AInt size => bounded size
  | AUint size => if maxQueryArraySize <? size then None else bounded size
  | _ => None
  end.

Definition queryTypeOperand (raw : any) (maxItems : Z) : result (list bytes) :=
  match raw with
  | AString s => Ok [s]
  | AStrings l => if (zlen l =? 0) || (maxItems <? zlen l) then Err ErrInvalidFilter else Ok l
  | AAnys l =>
      if (zlen l =? 0) || (maxItems <? zlen l) then Err ErrInvalidFilter
      else of_option ErrInvalidFilter (mapM (fun item => match item with AString s => Some s | _ => None end) l)
  | _ => Err ErrInvalidFilter
  end.

Definition type_named (name : bytes) : option kind := field canonicalQueryTypes name.

Definition normalizeQueryTypes (names : list bytes) (maxItems : Z) : result (list kind) :=
  if (zlen names =? 0) || (maxItems <? zlen names) then Err ErrInvalidFilter
  else
    let* selected := of_option ErrInvalidFilter (mapM type_named names) in
    Ok (List.filter (fun k => existsb (kind_eqb k) selected) canonicalQueryTypes.*2).

Definition queryTypeNames (types : list kind) : list bytes :=
  types ≫= fun k => (List.filter (fun candidate => kind_eqb k candidate.2) canonicalQueryTypes).*1.

Fixpoint wireValueBytes (v : value) : Z :=
  match v with
  | VNull | VBool _ => 1
  | VInt _ | VFloat _ | VTime _ => 8
  | VID _ => 16
  | VString s => zlen s
  | VBinary b => zlen b
  | VArray a => fold_right (fun item total => wireValueBytes item + total) 0 a
  | VObject _ d => fold_right (fun kv total => zlen kv.1 + wireValueBytes kv.2 + total) 0 d
  end.

(** ** The compiler *)

Section Compiler.
Context (L : QueryLimits).

(** [filterCompiler.node] on the node counter. *)
Definition node (nodes : Z) : result Z :=
  if MaxNodes L <? nodes + 1 then Err ErrInvalidFilter else Ok (nodes + 1).

Section Loops.
Context {A B : Type}.

(** A loop that compiles every item into one result. *)
Fixpoint each (f : A -> Z -> result (B * Z)) (l : list A) (nodes : Z) : result (list B * Z) :=
  match l with
  | [] => Ok ([], nodes)
  | x :: l =>
      let* (y, nodes) := f x nodes in
      let* (ys, nodes) := each f l nodes in
      Ok (y :: ys, nodes)
  end.

(** A loop whose items append any number of results. *)
Fixpoint each_append (f : A -> Z -> result (list B * Z)) (l : list A) (nodes : Z) : result (list B * Z) :=
  match l with
  | [] => Ok ([], nodes)
  | x :: l =>
      let* (y, nodes) := f x nodes in
      let* (ys, nodes) := each_append f l nodes in
      Ok (y ++ ys, nodes)
  end.
End Loops.

Definition operand_list (path : bytes) (items : list any) : result (list value) :=
  of_option ErrInvalidFilter (mapM (queryValueOf path) items).

Definition is_comparison (operator : bytes) : bool :=
  existsb (beqb operator) [bs "$eq"; bs "$ne"; bs "$gt"; bs "$gte"; bs "$lt"; bs "$lte"].
Definition is_logical (operator : bytes) : bool := existsb (beqb operator) [bs "$and"; bs "$or"].
Definition is_membership (operator : bytes) : bool := existsb (beqb operator) [bs "$in"; bs "$nin"].

(** [operator[1:]]. *)
Definition tail_name (operator : bytes) : bytes := drop 1 operator.

(** The values of [$all] without repetitions, in order of first occurrence. *)
Fixpoint distinct_values (values acc : list value) : list value :=
  match values with
  | [] => acc
  | v :: values => distinct_values values (if containsQueryValue acc v then acc else acc ++ [v])
  end.

Fixpoint compileElementFilter (fuel : nat) (path : bytes) (f : filter) (depth nodes : Z) : result (elementExpr * Z) :=
  match fuel with
  | O => Err ErrFuel
  | S fuel =>
      if (MaxDepth L <? depth) || (zlen f =? 0) then Err ErrInvalidFilter
      else
        let* (args, nodes) := each (fun kv nodes =>
          let '(operator, operand) := kv in
          let* nodes := node nodes in
          if is_logical operator then
            match asAnySlice operand with
            | None => Err ErrInvalidFilter
            | Some items =>
                if (zlen items =? 0) || (MaxArrayItems L <? zlen items) then Err ErrInvalidFilter
                else
                  let* (children, nodes) := each (fun item nodes =>
                    match asStringAnyMap item with
                    | None => Err ErrInvalidFilter
                    | Some child => compileElementFilter fuel path child (depth + 1) nodes
                    end) items nodes in
                  Ok (elementLogicalExpr (tail_name operator) children, nodes)
            end
          else if beqb operator (bs "$not") then
            match asStringAnyMap operand with
            | None => Err ErrInvalidFilter
            | Some child =>
                let* (condition, nodes) := compileElementFilter fuel path child (depth + 1) nodes in
                Ok (elementNotExpr condition, nodes)
            end
          else if is_comparison operator then
            let* v := of_option ErrInvalidFilter (queryValueOf path operand) in
            Ok (elementCompareExpr (tail_name operator) v, nodes)
          else if is_membership operator then
            match asAnySlice operand with
            | None => Err ErrInvalidFilter
            | Some items =>
                if MaxArrayItems L <? zlen items then Err ErrInvalidFilter
                else
                  let* values := operand_list path items in
                  Ok (elementMembershipExpr (tail_name operator) values, nodes)
            end
          else Err ErrInvalidFilter) (sort_fields f) nodes in
        match args with
        | [arg] => Ok (arg, nodes)
        | _ => Ok (elementLogicalExpr (bs "and") args, nodes)
        end
  end.

(** [append(result, e)] for one result. *)
Definition one {A} (r : result (A * Z)) : result (list A * Z) := let* (e, nodes) := r in Ok ([e], nodes).

Fixpoint compileFilter (fuel : nat) (f : filter) (depth nodes : Z) : result (expr * Z) :=
  match fuel with
  | O => Err ErrFuel
  | S fuel =>
      if MaxDepth L <? depth then Err ErrInvalidFilter
      else
        let* (args, nodes) := each_append (fun kv nodes =>
          let '(key, raw) := kv in
          if is_logical key then
            match asFilters raw with
            | None => Err ErrInvalidFilter
            | Some parts =>
                if (zlen parts =? 0) || (MaxArrayItems L <? zlen parts) then Err ErrInvalidFilter
                else
                  let* nodes := node nodes in
                  let* (children, nodes) := each (fun part nodes => compileFilter fuel part (depth + 1) nodes) parts nodes in
                  Ok ([logicalExpr (tail_name key) children], nodes)
            end
          else if beqb key (bs "$not") then
            match asFilter raw with
            | None => Err ErrInvalidFilter
            | Some part =>
                let* nodes := node nodes in
                let* (child, nodes) := compileFilter fuel part (depth + 1) nodes in
                Ok ([notExpr child], nodes)
            end
          else if has_prefix_byte key dollar then Err ErrInvalidFilter
          else if negb (validatePath key) then Err ErrInvalidFilter
          else compileField fuel key raw (depth + 1) nodes) (sort_fields f) nodes in
        match args with
        | [] => let* nodes := node nodes in Ok (trueExpr, nodes)
        | [arg] => Ok (arg, nodes)
        | _ => let* nodes := node nodes in Ok (logicalExpr (bs "and") args, nodes)
        end
  end
with compileField (fuel : nat) (path : bytes) (raw : any) (depth nodes : Z) : result (list expr * Z) :=
  match fuel with
  | O => Err ErrFuel
  | S fuel =>
      if MaxDepth L <? depth then Err ErrInvalidFilter
      else
        let operators := default [] (asStringAnyMap raw) in
        if negb (existsb (fun kv => has_prefix_byte kv.1 dollar) operators) then
          let* v := of_option ErrInvalidFilter (queryValueOf path raw) in
          if MaxValueBytes L <? wireValueBytes v then Err ErrInvalidFilter
          else
            let* nodes := node nodes in
            Ok ([compareExpr (bs "eq") path v], nodes)
        else
          each_append (fun kv nodes =>
            let '(operator, operand) := kv in
            let* nodes := node nodes in
            if is_comparison operator then
              let* v := of_option ErrInvalidFilter (queryValueOf path operand) in
              Ok ([compareExpr (tail_name operator) path v], nodes)
            else if beqb operator (bs "$exists") then
              match operand with
              | ABool v => Ok ([existsExpr path v], nodes)
              | _ => Err ErrInvalidFilter
              end
            else if beqb operator (bs "$size") then
              let* size := of_option ErrInvalidFilter (queryArraySize operand) in
              Ok ([sizeExpr path size], nodes)
            else if beqb operator (bs "$type") then
              let* names := queryTypeOperand operand (MaxArrayItems L) in
              let* types := normalizeQueryTypes names (MaxArrayItems L) in
              Ok ([typeExpr path types], nodes)
            else if beqb operator (bs "$all") then
              match asAnySlice operand with
              | None => Err ErrInvalidFilter
              | Some items =>
                  if (zlen items =? 0) || (MaxArrayItems L <? zlen items) then Err ErrInvalidFilter
                  else
                    let* values := operand_list path items in
                    Ok ([allExpr path (distinct_values values [])], nodes)
              end
            else if beqb operator (bs "$elemMatch") then
              match asStringAnyMap operand with
              | None => Err ErrInvalidFilter
              | Some element =>
                  if zlen element =? 0 then Err ErrInvalidFilter
                  else if existsb (fun kv => has_prefix_byte kv.1 dollar) element then
                    if existsb (fun kv => negb (has_prefix_byte kv.1 dollar)) element then Err ErrInvalidFilter
                    else
                      let* (condition, nodes) := compileElementFilter fuel path element (depth + 1) nodes in
                      Ok ([elemMatchExpr path (bs "scalar") condition nilExpr], nodes)
                  else
                    let* (condition, nodes) := compileFilter fuel element (depth + 1) nodes in
                    Ok ([elemMatchExpr path (bs "object") nilElement condition], nodes)
              end
            else if is_membership operator then
              match asAnySlice operand with
              | None => Err ErrInvalidFilter
              | Some items =>
                  if MaxArrayItems L <? zlen items then Err ErrInvalidFilter
                  else
                    let* values := operand_list path items in
                    Ok ([membershipExpr (tail_name operator) path values], nodes)
              end
            else if beqb operator (bs "$not") then
              let* (nested, nodes) := compileField fuel path operand (depth + 1) nodes in
              Ok ([notExpr (match nested with [e] => e | _ => logicalExpr (bs "and") nested end)], nodes)
            else Err ErrInvalidFilter) (sort_fields operators) nodes
  end.

(** The levels of recursion the depth limit allows. *)
Definition compile_fuel : nat := Z.to_nat (MaxDepth L + 2).

(** The first step of [CompileQuery]. *)
Definition compile_where (f : filter) : result expr :=
  let* (e, _) := compileFilter compile_fuel f 0 0 in Ok e.
End Compiler.

(** ** The validator *)

Definition is_nil (e : expr) : bool := match e with nilExpr => true | _ => false end.
Definition is_nil_element (e : elementExpr) : bool := match e with nilElement => true | _ => false end.

Definition known_op (op : bytes) (ops : list bytes) : bool := existsb (beqb op) ops.
Definition logical_ops : list bytes := [bs "and"; bs "or"].
Definition compare_ops : list bytes := [bs "eq"; bs "ne"; bs "gt"; bs "gte"; bs "lt"; bs "lte"].
Definition membership_ops : list bytes := [bs "in"; bs "nin"].

Definition kinds_eqb (a b : list kind) : bool := bool_decide (a = b).

(** No value equal to an earlier one. *)
Fixpoint distinct_operands (before values : list value) : bool :=
  match values with
  | [] => true
  | v :: values => negb (containsQueryValue before v) && distinct_operands (before ++ [v]) values
  end.

Section Validator.
Context (L : QueryLimits).

(** [querySpecValidator.value], true for a nil error. *)
Fixpoint validate_value (v : value) (depth : Z) : bool :=
  if MaxDepth L <? depth then false
  else
    match v with
    | VFloat f => negb (is_nan f || is_inf f)
    | VString s => utf8_valid s
    | VArray a =>
        if MaxArrayItems L <? zlen a then false else forallb (fun item => validate_value item (depth + 1)) a
    | VObject _ d =>
        if MaxArrayItems L <? zlen d then false
        else forallb (fun kv => validField kv.1 && validate_value kv.2 (depth + 1)) d
    | _ => true
    end.

Definition validate_operand (path : bytes) (v : value) : bool :=
  if negb (validatePath path) then false
  else if beqb path (bs "_id") && negb (kind_eqb (Kind v) IDKind) then false
  else if negb (validate_value v 0) then false
  else wireValueBytes v <=? MaxValueBytes L.

Definition validate_types (types : list kind) : bool :=
  if (zlen types =? 0) || (MaxArrayItems L <? zlen types) then false
  else
    match normalizeQueryTypes (queryTypeNames types) (MaxArrayItems L) with
    | Err _ => false
    | Ok normalized => (zlen normalized =? zlen types) && kinds_eqb normalized types
    end.

(** The loops over children; [visit] returns the node counter. *)
Fixpoint visit_all {A} (nil : A -> bool) (visit : A -> Z -> result Z) (l : list A) (nodes : Z) : result Z :=
  match l with
  | [] => Ok nodes
  | x :: l =>
      if nil x then Err ErrInvalidFilter
      else let* nodes := visit x nodes in visit_all nil visit l nodes
  end.

Fixpoint validate_element (e : elementExpr) (depth nodes : Z) : result Z :=
  if MaxDepth L <? depth then Err ErrInvalidFilter
  else if MaxNodes L <? nodes + 1 then Err ErrInvalidFilter
  else
    let nodes := nodes + 1 in
    match e with
    | nilElement => Err ErrInvalidFilter
    | elementLogicalExpr op args =>
        if negb (known_op op logical_ops) || (zlen args =? 0) || (MaxArrayItems L <? zlen args)
        then Err ErrInvalidFilter
        else visit_all is_nil_element (fun child nodes => validate_element child (depth + 1) nodes) args nodes
    | elementNotExpr arg =>
        if is_nil_element arg then Err ErrInvalidFilter else validate_element arg (depth + 1) nodes
    | elementCompareExpr cmp v =>
        if negb (known_op cmp compare_ops) then Err ErrInvalidFilter
        else if validate_value v 0 then Ok nodes else Err ErrInvalidFilter
    | elementMembershipExpr op values =>
        if negb (known_op op membership_ops) || (MaxArrayItems L <? zlen values) then Err ErrInvalidFilter
        else if forallb (fun v => validate_value v 0) values then Ok nodes else Err ErrInvalidFilter
    end.

Fixpoint validate_expression (e : expr) (depth nodes : Z) : result Z :=
  if MaxDepth L <? depth then Err ErrInvalidFilter
  else if MaxNodes L <? nodes + 1 then Err ErrInvalidFilter
  else
    let nodes := nodes + 1 in
    match e with
    | nilExpr => Err ErrInvalidFilter
    | trueExpr => Ok nodes
    | logicalExpr op args =>
        if negb (known_op op logical_ops) || (zlen args =? 0) || (MaxArrayItems L <? zlen args)
        then Err ErrInvalidFilter
        else visit_all is_nil (fun child nodes => validate_expression child (depth + 1) nodes) args nodes
    | notExpr arg => if is_nil arg then Err ErrInvalidFilter else validate_expression arg (depth + 1) nodes
    | compareExpr cmp path v =>
        if negb (known_op cmp compare_ops) then Err ErrInvalidFilter
        else if validate_operand path v then Ok nodes else Err ErrInvalidFilter
    | membershipExpr op path values =>
        if negb (known_op op membership_ops) || (MaxArrayItems L <? zlen values) then Err ErrInvalidFilter
        else if forallb (validate_operand path) values then Ok nodes else Err ErrInvalidFilter
    | existsExpr path _ => if validatePath path then Ok nodes else Err ErrInvalidFilter
    | sizeExpr path size =>
        if negb (validatePath path) then Err ErrInvalidFilter
        else if (size <? 0) || (maxQueryArraySize <? size) then Err ErrInvalidFilter else Ok nodes
    | typeExpr path types =>
        if negb (validatePath path) then Err ErrInvalidFilter
        else if validate_types types then Ok nodes else Err ErrInvalidFilter
    | allExpr path values =>
        if negb (validatePath path) then Err ErrInvalidFilter
        else if (zlen values =? 0) || (MaxArrayItems L <? zlen values) then Err ErrInvalidFilter
        else if forallb (validate_operand path) values && distinct_operands [] values then Ok nodes
        else Err ErrInvalidFilter
    | elemMatchExpr path mode scalar object =>
        if negb (validatePath path) then Err ErrInvalidFilter
        else if beqb mode (bs "scalar") then
          if is_nil_element scalar || negb (is_nil object) then Err ErrInvalidFilter
          else validate_element scalar (depth + 1) nodes
        else if beqb mode (bs "object") then
          if is_nil object || negb (is_nil_element scalar) then Err ErrInvalidFilter
          else validate_expression object (depth + 1) nodes
        else Err ErrInvalidFilter
    end.

(** [validateSortFields], true for a nil error. *)
Fixpoint sort_fields_ok (fields : list SortField) (seen : list bytes) : bool :=
  match fields with
  | [] => true
  | f :: fields =>
      validatePath (sf_path f) && ((sf_direction f =? 1) || (sf_direction f =? -1))
      && negb (existsb (beqb (sf_path f)) seen) && sort_fields_ok fields (sf_path f :: seen)
  end.

Definition validateSortFields (fields : list SortField) : bool :=
  if MaxSortFields L <? zlen fields then false else sort_fields_ok fields [].
End Validator.

(** ** Well-typed expressions *)

Section Typing.
Context (L : QueryLimits) (operand_ok element_ok : bytes -> value -> bool).

(** What every well-typed expression satisfies; [operand_ok] is asked about the
    operands of a path, [element_ok] about those of element conditions. *)
Inductive element_typed (path : bytes) : elementExpr -> Prop :=
| et_logical op args :
    op ∈ logical_ops -> 0 < zlen args <= MaxArrayItems L -> Forall (element_typed path) args ->
    element_typed path (elementLogicalExpr op args)
| et_not arg : element_typed path arg -> element_typed path (elementNotExpr arg)
| et_compare cmp v : cmp ∈ compare_ops -> element_ok path v = true -> element_typed path (elementCompareExpr cmp v)
| et_member op values :
    op ∈ membership_ops -> zlen values <= MaxArrayItems L -> Forall (fun v => element_ok path v = true) values ->
    element_typed path (elementMembershipExpr op values).

(** Kinds without repetition in the canonical order. *)
Definition canonical_types (types : list kind) : Prop := types <> [] /\ types `sublist_of` canonicalQueryTypes.*2.

Inductive expr_typed : expr -> Prop :=
| xt_true : expr_typed trueExpr
| xt_logical op args :
    op ∈ logical_ops -> 0 < zlen args <= MaxArrayItems L -> Forall expr_typed args -> expr_typed (logicalExpr op args)
| xt_not arg : expr_typed arg -> expr_typed (notExpr arg)
| xt_compare cmp path v :
    cmp ∈ compare_ops -> validatePath path = true -> operand_ok path v = true -> expr_typed (compareExpr cmp path v)
| xt_member op path values :
    op ∈ membership_ops -> zlen values <= MaxArrayItems L -> (values <> [] -> validatePath path = true) ->
    Forall (fun v => operand_ok path v = true) values -> expr_typed (membershipExpr op path values)
| xt_exists path v : validatePath path = true -> expr_typed (existsExpr path v)
| xt_size path size : validatePath path = true -> 0 <= size <= maxQueryArraySize -> expr_typed (sizeExpr path size)
| xt_type path types :
    validatePath path = true -> zlen types <= MaxArrayItems L -> canonical_types types -> expr_typed (typeExpr path types)
| xt_all path values :
    validatePath path = true -> 0 < zlen values <= MaxArrayItems L -> Forall (fun v => operand_ok path v = true) values ->
    distinct_operands [] values = true -> expr_typed (allExpr path values)
| xt_scalar path scalar :
    validatePath path = true -> element_typed path scalar -> expr_typed (elemMatchExpr path (bs "scalar") scalar nilExpr)
| xt_object path object :
    validatePath path = true -> expr_typed object -> expr_typed (elemMatchExpr path (bs "object") nilElement object).
End Typing.

(** ** The compiler yields well-typed expressions *)

Definition compiled_operand (path : bytes) (v : value) : bool :=
  if beqb path (bs "_id") then kind_eqb (Kind v) IDKind else validateArray [v] 0.

Section CompileTyped.
Context (L : QueryLimits) (HL : MaxNodes L <= MaxArrayItems L).

(** The outcome of a compilation that starts with [nodes] nodes: an expression
    that satisfies [Q], or [ErrInvalidFilter]. *)
Definition gives {A} (Q : A -> Prop) (nodes : Z) (r : result (A * Z)) : Prop :=
  match r with
  | Ok (x, n) => nodes <= n <= MaxNodes L /\ Q x
  | Err e => e = ErrInvalidFilter
  end.

Definition gives_list {A} (Q : A -> Prop) (nodes : Z) (r : result (list A * Z)) : Prop :=
  gives (fun xs => Forall Q xs) nodes r /\ forall xs n, r = Ok (xs, n) -> zlen xs <= n - nodes.

Lemma gives_err {A} (Q : A -> Prop) nodes : gives Q nodes (Err ErrInvalidFilter).
Proof. done. Qed.
Lemma gives_list_err {A} (Q : A -> Prop) nodes : gives_list Q nodes (Err ErrInvalidFilter).
Proof. done. Qed.

Lemma gives_node {A} (Q : A -> Prop) nodes (k : Z -> result (A * Z)) :
  (nodes + 1 <= MaxNodes L -> gives Q (nodes + 1) (k (nodes + 1))) -> gives Q nodes (let* n := node L nodes in k n).
Proof.
  intros H. unfold node. destruct (Z.ltb_spec (MaxNodes L) (nodes + 1)); [done|]. cbn [rbind].
  specialize (H ltac:(lia)). unfold gives in *. destruct (k (nodes + 1)) as [[x n]|]; [|done].
  destruct H. split; [lia|done].
Qed.

Lemma gives_bind {A B} (Q : A -> Prop) (R : B -> Prop) nodes r (k : A * Z -> result (B * Z)) :
  gives Q nodes r -> (forall x n, nodes <= n <= MaxNodes L -> Q x -> gives R n (k (x, n))) -> gives R nodes (rbind r k).
Proof.
  unfold gives. destruct r as [[x n]|e]; cbn [rbind]; [|done]. intros [Hn Hx] Hk. specialize (Hk x n Hn Hx).
  destruct (k (x, n)) as [[y n']|]; [|done]. destruct Hk. split; [lia|done].
Qed.

Lemma gives_option {A B} (R : B -> Prop) nodes (o : option A) (k : A -> result (B * Z)) :
  (forall x, o = Some x -> gives R nodes (k x)) -> gives R nodes (rbind (of_option ErrInvalidFilter o) k).
Proof. destruct o; cbn; auto. Qed.

Lemma gives_each {A B} (Q : B -> Prop) (f : A -> Z -> result (B * Z)) l nodes :
  0 <= nodes <= MaxNodes L -> (forall x n, x ∈ l -> 0 <= n <= MaxNodes L -> gives Q n (f x n)) ->
  gives (fun ys => zlen ys = zlen l /\ Forall Q ys) nodes (each f l nodes).
Proof.
  revert nodes; induction l as [|x l IH]; intros nodes Hn Hf; cbn [each]; [cbn; auto with lia|].
  eapply gives_bind; [apply Hf; [left|done]|]. intros y n Hy HQ.
  eapply gives_bind; [apply IH; [lia|intros; apply Hf; [by right|done]]|]. intros ys n' Hn' [Hl HQs].
  cbn. split; [lia|]. rewrite !zlen_cons, Hl. auto.
Qed.

Lemma gives_each_append {A B} (Q : B -> Prop) (f : A -> Z -> result (list B * Z)) l nodes :
  0 <= nodes <= MaxNodes L -> (forall x n, x ∈ l -> 0 <= n <= MaxNodes L -> gives_list Q n (f x n)) ->
  gives_list Q nodes (each_append f l nodes).
Proof.
  revert nodes; induction l as [|x l IH]; intros nodes Hn Hf; cbn [each_append].
  { split; [cbn; auto with lia|]. intros xs n [= <- <-]. change (zlen (@nil B)) with 0. lia. }
  destruct (Hf x nodes ltac:(left) Hn) as [H1 H2].
  destruct (f x nodes) as [[y n]|e]; cbn [rbind]; [|split; [by apply H1|done]].
  cbn in H1. destruct H1 as [Hn1 Hy]. specialize (H2 y n eq_refl).
  destruct (IH n ltac:(lia) ltac:(intros; apply Hf; [by right|done])) as [H3 H4].
  destruct (each_append f l n) as [[ys n']|e]; cbn [rbind]; [|split; [by apply H3|done]].
  cbn in H3. destruct H3 as [Hn3 Hys]. specialize (H4 ys n' eq_refl).
  split; [cbn; split; [lia|by apply Forall_app]|]. intros xs m [= <- <-]. rewrite zlen_app. lia.
Qed.

Lemma gives_list_one {A} (Q : A -> Prop) nodes nodes' x : nodes < nodes' <= MaxNodes L -> Q x ->
  gives_list Q nodes (Ok ([x], nodes')).
Proof.
  intros Hn Hx. split; [cbn; split; [lia|by repeat constructor]|]. intros xs n [= <- <-]. change (zlen [x]) with 1. lia.
Qed.

(** One node, then one expression. *)
Definition gives_single {A} (Q : A -> Prop) (nodes : Z) (r : result (list A * Z)) : Prop :=
  gives_list Q nodes r /\ forall xs n, r = Ok (xs, n) -> zlen xs = 1.

Lemma gives_single_node {A} (Q : A -> Prop) nodes (k : Z -> result (list A * Z)) :
  (nodes + 1 <= MaxNodes L -> gives (fun xs => zlen xs = 1 /\ Forall Q xs) (nodes + 1) (k (nodes + 1))) ->
  gives_single Q nodes (let* n := node L nodes in k n).
Proof.
  intros H. unfold node. destruct (Z.ltb_spec (MaxNodes L) (nodes + 1)); [done|]. cbn [rbind].
  specialize (H ltac:(lia)). unfold gives_single, gives_list, gives in *. destruct (k (nodes + 1)) as [[x n]|]; [|done].
  destruct H as (Hn & Hl & Hx). split; [split; [split; [lia|done]|]|]; intros xs m [= <- <-]; lia.
Qed.

Lemma each_append_single {A B} (Q : B -> Prop) (f : A -> Z -> result (list B * Z)) l nodes :
  0 <= nodes <= MaxNodes L -> (forall x n, x ∈ l -> 0 <= n <= MaxNodes L -> gives_single Q n (f x n)) ->
  gives_list Q nodes (each_append f l nodes) /\ forall xs n, each_append f l nodes = Ok (xs, n) -> zlen xs = zlen l.
Proof.
  intros Hn Hf. split; [apply gives_each_append; [done|]; intros; by apply Hf|].
  revert nodes Hn; induction l as [|x l IH]; intros nodes Hn xs n H; cbn [each_append] in H; [by injection H as <- <-|].
  inv_ok. destruct a as [y m]. inv_ok. destruct a as [ys m']. injection H as <- <-.
  destruct (Hf x nodes ltac:(left) Hn) as [[H1 _] H2]. rewrite Hok in H1. destruct H1 as [Hm _].
  rewrite zlen_app, zlen_cons, (H2 _ _ Hok), (IH ltac:(intros; apply Hf; [by right|done]) m ltac:(lia) _ _ Hok0). lia.
Qed.

Lemma gives_one {A} (Q : A -> Prop) nodes x : nodes <= MaxNodes L -> Q x ->
  gives (fun xs => zlen xs = 1 /\ Forall Q xs) nodes (Ok ([x], nodes)).
Proof. intros Hn Hx. cbn. split; [lia|]. split; [done|by repeat constructor]. Qed.

(** *** Operands *)

Lemma queryValueOf_ok path raw v : queryValueOf path raw = Some v -> compiled_operand path v = true.
Proof.
  unfold queryValueOf, compiled_operand. destruct (beqb path (bs "_id")).
  - destruct raw; try done; [by destruct v0; intros [= <-]| |by intros [= <-]].
    intros H. inv_ok. destruct (_ || _); [done|]. by injection H as <-.
  - destruct (ValueOf raw) as [v'|]; [|done]. destruct (validateArray [v'] 0) eqn:E; [|done]. by intros [= <-].
Qed.

Lemma operand_list_ok path items values :
  mapM (queryValueOf path) items = Some values ->
  zlen values = zlen items /\ Forall (fun v => compiled_operand path v = true) values.
Proof.
  intros H. apply mapM_Some_1 in H. split; [unfold zlen; by rewrite (Forall2_length _ _ _ H)|].
  induction H as [|x y l k Hx _ IH]; [constructor|]. constructor; [by eapply queryValueOf_ok|done].
Qed.

Lemma op_in op ops : existsb (beqb op) ops = true <-> op ∈ ops.
Proof.
  rewrite existsb_exists. split.
  - intros (x & Hx & ->%beqb_eq). by apply list_elem_of_In.
  - intros H%list_elem_of_In. exists op. split; [done|apply beqb_refl].
Qed.

Lemma is_logical_op op : is_logical op = true -> tail_name op ∈ logical_ops.
Proof. intros H%op_in. rewrite !elem_of_cons, elem_of_nil in H. destruct H as [->|[->|[]]]; by apply op_in. Qed.
Lemma is_comparison_op op : is_comparison op = true -> tail_name op ∈ compare_ops.
Proof.
  intros H%op_in. rewrite !elem_of_cons, elem_of_nil in H.
  destruct H as [->|[->|[->|[->|[->|[->|[]]]]]]]; by apply op_in.
Qed.
Lemma is_membership_op op : is_membership op = true -> tail_name op ∈ membership_ops.
Proof. intros H%op_in. rewrite !elem_of_cons, elem_of_nil in H. destruct H as [->|[->|[]]]; by apply op_in. Qed.

Lemma distinct_operands_app before values v :
  distinct_operands before (values ++ [v]) =
  distinct_operands before values && negb (containsQueryValue (before ++ values) v).
Proof.
  revert before; induction values as [|w values IH]; intros before; cbn [app distinct_operands].
  - by rewrite app_nil_r, andb_true_r.
  - rewrite IH, <- app_assoc. cbn [app]. by rewrite andb_assoc.
Qed.

Lemma distinct_values_ok (P : value -> Prop) values acc :
  distinct_operands [] acc = true -> Forall P acc -> Forall P values ->
  let r := distinct_values values acc in
  distinct_operands [] r = true /\ Forall P r /\ zlen acc <= zlen r <= zlen acc + zlen values /\
  (0 < zlen acc + zlen values -> 0 < zlen r).
Proof.
  revert acc; induction values as [|v values IH]; intros acc Hd Ha Hv; cbn [distinct_values].
  { change (zlen (@nil value)) with 0. split; [done|]. split; [done|]. split; lia. }
  apply Forall_cons in Hv as [Hv Hvs]. rewrite zlen_cons. pose proof (zlen_nonneg values).
  destruct (containsQueryValue acc v) eqn:E.
  - destruct (IH acc Hd Ha Hvs) as (H1 & H2 & H3 & H4). split; [done|]. split; [done|]. split; [lia|].
    intros _. destruct acc as [|a acc]; [done|]. rewrite zlen_cons in *. pose proof (zlen_nonneg acc). lia.
  - destruct (IH (acc ++ [v])) as (H1 & H2 & H3 & H4).
    + rewrite distinct_operands_app, Hd, app_nil_l, E. done.
    + by apply Forall_app; repeat constructor.
    + done.
    + rewrite zlen_app, zlen_cons in *. change (zlen (@nil value)) with 0 in *. pose proof (zlen_nonneg acc).
      split; [done|]. split; [done|]. split; lia.
Qed.

Lemma normalizeQueryTypes_ok names n types :
  normalizeQueryTypes names n = Ok types -> zlen types <= n /\ canonical_types types.
Proof.
  unfold normalizeQueryTypes. destruct (Z.eqb_spec (zlen names) 0) as [|H0]; [done|]. cbn [orb].
  destruct (Z.ltb_spec n (zlen names)); [done|]. intros H1. inv_ok.
  destruct (mapM type_named names) as [selected|] eqn:E; [|done]. injection Hok as <-. subst types.
  apply mapM_Some_1 in E. assert (Hlen : zlen selected = zlen names) by (unfold zlen; by rewrite (Forall2_length _ _ _ E)).
  set (kept := List.filter _ _).
  assert (Hin : forall k, k ∈ kept <-> k ∈ canonicalQueryTypes.*2 /\ k ∈ selected).
  { intros k. unfold kept. rewrite !list_elem_of_In, filter_In, existsb_exists. split.
    - intros (H2 & x & H3 & ->%kind_eqb_eq). done.
    - intros [H2 H3]. split; [done|]. exists k. split; [done|by apply kind_eqb_eq]. }
  assert (Hsub : kept `sublist_of` canonicalQueryTypes.*2).
  { unfold kept. generalize (canonicalQueryTypes.*2). intros l. induction l as [|x l IH]; cbn; [constructor|].
    destruct (existsb _ _); by constructor. }
  split; [|split; [|done]].
  - assert (Hnd : NoDup kept) by (eapply sublist_NoDup; [|exact Hsub]; by apply (bool_decide_unpack _); vm_compute).
    assert (Hs : kept ⊆ selected) by (intros k Hk; by apply Hin in Hk as [_ ?]).
    apply (NoDup_submseteq _ _ Hnd) in Hs. apply submseteq_length in Hs. unfold zlen in *. lia.
  - destruct selected as [|k selected]; [change (zlen (@nil kind)) with 0 in Hlen; congruence|]. intros Hnil.
    assert (Hk : k ∈ kept); [|rewrite Hnil in Hk; by apply not_elem_of_nil in Hk].
    apply Hin. split; [|left]. inversion E as [|name ? ? ? Hname]; subst. unfold type_named in Hname.
    apply field_Some in Hname. by apply (list_elem_of_fmap_2 snd) in Hname.
Qed.

(** *** The compilers *)

Abbreviation c_element := (element_typed L compiled_operand).
Abbreviation c_expr := (expr_typed L compiled_operand compiled_operand).

Lemma checked_length {A} (l : list A) n : (zlen l =? 0) || (n <? zlen l) = false -> 0 < zlen l <= n.
Proof. intros H. breflect. pose proof (zlen_nonneg l). lia. Qed.

Lemma each_one {A B} (f : A -> Z -> result (B * Z)) l nodes :
  each f l nodes = each_append (fun x n => one (f x n)) l nodes.
Proof.
  revert nodes; induction l as [|x l IH]; intros nodes; [done|]. cbn [each each_append].
  destruct (f x nodes) as [[y n]|]; cbn [one rbind]; [|done]. by rewrite IH.
Qed.

Lemma each_length {A B} (f : A -> Z -> result (B * Z)) l nodes ys n : each f l nodes = Ok (ys, n) -> zlen ys = zlen l.
Proof.
  revert nodes ys n; induction l as [|x l IH]; intros nodes ys n H; cbn [each] in H; [by injection H as <- <-|].
  inv_ok. destruct a as [y m]. inv_ok. destruct a as [ys' m']. injection H as <- <-. rewrite !zlen_cons. by erewrite IH.
Qed.

Lemma compiled_keys_nonempty {A} (l : list (bytes * A)) : zlen l <> 0 -> 0 < zlen (sort_fields l).
Proof.
  intros H. destruct l as [|[k v] l]; [done|]. change (sort_fields ((k, v) :: l)) with (ins k v (sort_fields l)).
  destruct (sort_fields l) as [|[k' v'] l']; [done|]. cbn [ins]. destruct (bcompare k k');
    rewrite zlen_cons; pose proof (zlen_nonneg l'); rewrite ?zlen_cons; try lia. pose proof (zlen_nonneg (ins k v l')). lia.
Qed.

Lemma gives_list_one_node {A} (Q : A -> Prop) nodes (k : Z -> result (A * Z)) :
  (nodes + 1 <= MaxNodes L -> gives Q (nodes + 1) (k (nodes + 1))) ->
  gives_list Q nodes (one (let* n := node L nodes in k n)).
Proof.
  intros H. unfold node. destruct (Z.ltb_spec (MaxNodes L) (nodes + 1)); [done|]. cbn [rbind].
  specialize (H ltac:(lia)). unfold gives_list, gives, one in *. destruct (k (nodes + 1)) as [[x n]|]; cbn [rbind]; [|done].
  destruct H as (Hn & Hx). split; [split; [lia|by repeat constructor]|]. intros xs m [= <- <-]. change (zlen [x]) with 1. lia.
Qed.

(** The conjunction of several compiled conditions. *)
Lemma list_bounds {A} (Q : A -> Prop) nodes args n :
  0 <= nodes -> gives_list Q nodes (Ok (args, n)) -> zlen args <= MaxArrayItems L /\ Forall Q args /\ nodes <= n <= MaxNodes L.
Proof. intros Hn [[H1 H2] H3]. specialize (H3 args n eq_refl). destruct H1 as [H1 H1']. split; [lia|]. split; [done|lia]. Qed.

Lemma compileElementFilter_gives fuel path f depth nodes :
  MaxDepth L + 2 - depth <= Z.of_nat fuel -> (0 < fuel)%nat -> 0 <= nodes <= MaxNodes L ->
  gives (c_element path) nodes (compileElementFilter L fuel path f depth nodes).
Proof.
  revert f depth nodes; induction fuel as [|fuel IH]; intros f depth nodes Hfuel Hpos Hn; [lia|].
  cbn [compileElementFilter]. destruct (Z.ltb_spec (MaxDepth L) depth) as [|Hd]; [done|]. cbn [orb].
  destruct (Z.eqb_spec (zlen f) 0) as [|Hf]; [done|].
  assert (IH' : forall f n, 0 <= n <= MaxNodes L -> gives (c_element path) n (compileElementFilter L fuel path f (depth + 1) n)).
  { intros f' n Hn'. apply IH; lia. }
  clear IH. rewrite each_one.
  match goal with |- gives _ _ (rbind (each_append ?g ?l nodes) _) =>
    assert (Hl : gives_list (c_element path) nodes (each_append g l nodes)); [|destruct (each_append g l nodes) as [[args n]|e] eqn:E] end.
  - apply gives_each_append; [lia|]. intros [operator operand] m _ Hm. apply gives_list_one_node. intros Hm1.
    destruct (is_logical operator) eqn:Elog.
    { destruct (asAnySlice operand) as [items|]; [|done].
      destruct ((zlen items =? 0) || _) eqn:Elen; [done|]. apply checked_length in Elen.
      eapply gives_bind; [apply (gives_each (c_element path)); [lia|]|].
      - intros item m' _ Hm'. destruct (asStringAnyMap item); [by apply IH'|done].
      - intros children m' Hm' [Hlen HQ]. split; [lia|].
        constructor; [by apply is_logical_op|lia|done]. }
    destruct (beqb operator (bs "$not")).
    { destruct (asStringAnyMap operand) as [child|]; [|done]. eapply gives_bind; [apply IH'; lia|].
      intros condition m' Hm' HQ. split; [lia|by constructor]. }
    destruct (is_comparison operator) eqn:Ecmp.
    { apply gives_option. intros v Hv. split; [lia|].
      constructor; [by apply is_comparison_op|by eapply queryValueOf_ok]. }
    destruct (is_membership operator) eqn:Emem; [|done].
    destruct (asAnySlice operand) as [items|]; [|done]. destruct (Z.ltb_spec (MaxArrayItems L) (zlen items)); [done|].
    apply gives_option. intros values Hv. apply operand_list_ok in Hv as [Hlen HQ]. split; [lia|].
    constructor; [by apply is_membership_op|lia|done].
  - cbn [rbind]. destruct (list_bounds _ nodes args n ltac:(lia) Hl) as (Hb & HQ & Hn').
    assert (Hne : 0 < zlen args).
    { rewrite <- each_one in E. rewrite (each_length _ _ _ _ _ E). by apply compiled_keys_nonempty. }
    destruct args as [|a [|b args]]; cbn [gives].
    + done.
    + apply List.Forall_inv in HQ. by split.
    + split; [done|]. constructor; [by apply op_in|done|done].
  - by apply Hl.
Qed.
Lemma queryTypeOperand_err raw n e : queryTypeOperand raw n = Err e -> e = ErrInvalidFilter.
Proof.
  unfold queryTypeOperand. destruct raw; try by intros [= <-].
  - destruct (_ || _); [by intros [= <-]|]. destruct (mapM _ _); [done|by intros [= <-]].
  - destruct (_ || _); [by intros [= <-]|done].
Qed.

Lemma normalizeQueryTypes_err names n e : normalizeQueryTypes names n = Err e -> e = ErrInvalidFilter.
Proof.
  unfold normalizeQueryTypes. destruct (_ || _); [by intros [= <-]|]. destruct (mapM _ _); [done|by intros [= <-]].
Qed.

(** Both compilers at one level of fuel. *)
Lemma compile_gives fuel :
  (forall f depth nodes, MaxDepth L + 2 - depth <= Z.of_nat fuel -> (0 < fuel)%nat -> 0 <= nodes <= MaxNodes L ->
     gives c_expr nodes (compileFilter L fuel f depth nodes)) /\
  (forall path raw depth nodes, MaxDepth L + 2 - depth <= Z.of_nat fuel -> (0 < fuel)%nat -> 0 <= nodes <= MaxNodes L ->
     validatePath path = true -> gives_list c_expr nodes (compileField L fuel path raw depth nodes) /\
     (forall xs n, compileField L fuel path raw depth nodes = Ok (xs, n) -> 0 < zlen xs)).
Proof.
  induction fuel as [|fuel [IHf IHd]]; [split; intros; lia|]. split.
  - intros f depth nodes Hfuel _ Hn. cbn [compileFilter]. destruct (Z.ltb_spec (MaxDepth L) depth) as [|Hd]; [done|].
    match goal with |- gives _ _ (rbind (each_append ?g ?l nodes) _) =>
      assert (Hl : gives_list c_expr nodes (each_append g l nodes)); [|destruct (each_append g l nodes) as [[args n]|e]] end.
    + apply gives_each_append; [lia|]. intros [key raw] m _ Hm.
      destruct (is_logical key) eqn:Elog.
      { destruct (asFilters raw) as [parts|]; [|done].
        destruct ((zlen parts =? 0) || _) eqn:Elen; [done|]. apply checked_length in Elen.
        apply gives_single_node. intros Hm1.
        eapply gives_bind; [apply (gives_each c_expr); [lia|]|].
        - intros part m' _ Hm'. apply IHf; lia.
        - intros children m' Hm' [Hlen HQ]. apply gives_one; [lia|].
          constructor; [by apply is_logical_op|lia|done]. }
      destruct (beqb key (bs "$not")).
      { destruct (asFilter raw) as [part|]; [|done]. apply gives_single_node. intros Hm1.
        eapply gives_bind; [apply IHf; lia|]. intros child m' Hm' HQ. apply gives_one; [lia|by constructor]. }
      destruct (has_prefix_byte key dollar); [done|].
      destruct (validatePath key) eqn:Ep; cbn [negb]; [|done]. apply IHd; [lia|lia|lia|done].
    + cbn [rbind]. destruct (list_bounds _ nodes args n ltac:(lia) Hl) as (Hb & HQ & Hn').
      assert (Hlast : forall e : expr, c_expr e -> gives c_expr nodes (let* nodes := node L n in Ok (e, nodes))).
      { intros e He. unfold node. destruct (Z.ltb_spec (MaxNodes L) (n + 1)); [done|]. split; [lia|done]. }
      destruct args as [|a [|b args]].
      * apply Hlast. constructor.
      * apply List.Forall_inv in HQ. by split.
      * apply Hlast. constructor; [by apply op_in| |done]. rewrite !zlen_cons in *. pose proof (zlen_nonneg args). lia.
    + by apply Hl.
  - intros path raw depth nodes Hfuel _ Hn Hpath. cbn [compileField].
    destruct (Z.ltb_spec (MaxDepth L) depth) as [|Hd]; [done|].
    destruct (negb _) eqn:Eops.
    { assert (Hs : gives_single c_expr nodes (let* v := of_option ErrInvalidFilter (queryValueOf path raw) in
        if MaxValueBytes L <? wireValueBytes v then Err ErrInvalidFilter
        else let* nodes := node L nodes in Ok ([compareExpr (bs "eq") path v], nodes))).
      { destruct (queryValueOf path raw) as [v|] eqn:Hv; [|done]. cbn [of_option rbind]. destruct (_ <? _); [done|].
        apply gives_single_node. intros Hn1. apply gives_one; [lia|].
        apply xt_compare; [by apply op_in|done|by eapply queryValueOf_ok]. }
      destruct Hs as [Hs1 Hs2]. split; [done|]. intros xs n H. rewrite (Hs2 xs n H). lia. }
    match goal with |- gives_list _ _ (each_append ?g ?l nodes) /\ _ =>
      destruct (each_append_single c_expr g l nodes Hn) as [H1 H2] end.
    2:{ split; [done|]. intros xs n H. rewrite (H2 xs n H). apply compiled_keys_nonempty.
        destruct (default [] (asStringAnyMap raw)); [done|]. rewrite zlen_cons. pose proof (zlen_nonneg l). lia. }
    intros [operator operand] m _ Hm. apply gives_single_node. intros Hm1. cbn beta iota.
    destruct (is_comparison operator) eqn:Ecmp.
    { apply gives_option. intros v Hv. apply gives_one; [lia|].
      apply xt_compare; [by apply is_comparison_op|done|by eapply queryValueOf_ok]. }
    destruct (beqb operator (bs "$exists")).
    { destruct operand; try done. apply gives_one; [lia|by apply xt_exists]. }
    destruct (beqb operator (bs "$size")).
    { apply gives_option. intros size Hsize. apply gives_one; [lia|apply xt_size; [done|]].
      unfold queryArraySize in Hsize. destruct operand; try done; [|destruct (_ <? _); [done|]];
        (destruct (_ && _) eqn:E; [|done]); injection Hsize as <-; breflect; lia. }
    destruct (beqb operator (bs "$type")).
    { destruct (queryTypeOperand operand (MaxArrayItems L)) as [names|] eqn:En; cbn [rbind]; [|by apply queryTypeOperand_err in En].
      destruct (normalizeQueryTypes names (MaxArrayItems L)) as [types|] eqn:Et; cbn [rbind]; [|by apply normalizeQueryTypes_err in Et].
      apply normalizeQueryTypes_ok in Et as [Hlen Hc]. apply gives_one; [lia|by apply xt_type]. }
    destruct (beqb operator (bs "$all")).
    { destruct (asAnySlice operand) as [items|]; [|done]. destruct ((zlen items =? 0) || _) eqn:Elen; [done|].
      apply checked_length in Elen. apply gives_option. intros values Hv. apply operand_list_ok in Hv as [Hlen HQ].
      destruct (distinct_values_ok (fun v => compiled_operand path v = true) values [] eq_refl ltac:(constructor) HQ)
        as (D1 & D2 & D3 & D4).
      change (zlen (@nil value)) with 0 in *. apply gives_one; [lia|apply xt_all; [done|lia|done|done]]. }
    destruct (beqb operator (bs "$elemMatch")).
    { destruct (asStringAnyMap operand) as [element|]; [|done]. destruct (_ =? 0); [done|]. destruct (existsb _ element).
      - destruct (existsb _ element); [done|]. eapply gives_bind; [apply (compileElementFilter_gives _ path); lia|].
        intros condition m' Hm' HQ. apply gives_one; [lia|by apply xt_scalar].
      - eapply gives_bind; [apply IHf; lia|]. intros condition m' Hm' HQ. apply gives_one; [lia|by apply xt_object]. }
    destruct (is_membership operator) eqn:Emem.
    { destruct (asAnySlice operand) as [items|]; [|done]. destruct (Z.ltb_spec (MaxArrayItems L) (zlen items)); [done|].
      apply gives_option. intros values Hv. apply operand_list_ok in Hv as [Hlen HQ]. apply gives_one; [lia|].
      apply xt_member; [by apply is_membership_op|lia|done|done]. }
    destruct (beqb operator (bs "$not")); [|done].
    destruct (IHd path operand (depth + 1) (m + 1)) as [H1 H2]; [lia|lia|lia|done|].
    destruct (compileField L fuel path operand (depth + 1) (m + 1)) as [[nested m']|e]; [|by apply H1].
    cbn [rbind]. destruct (list_bounds _ (m + 1) nested m' ltac:(lia) H1) as (Hb & HQ & Hn').
    specialize (H2 nested m' eq_refl). destruct H1 as [[Hr _] _].
    assert (He : c_expr (match nested with [e] => e | _ => logicalExpr (bs "and") nested end)).
    { destruct nested as [|a [|b nested]]; [done|by apply List.Forall_inv in HQ|]. apply xt_logical; [by apply op_in|done|done]. }
    split; [lia|]. split; [done|by repeat constructor].
Qed.
End CompileTyped.

(** The fuel the depth limit asks for is enough, and every failure is the
    filter error. *)
Lemma compile_where_typed L f :
  0 <= MaxDepth L -> 0 <= MaxNodes L <= MaxArrayItems L ->
  match compile_where L f with
  | Ok e => expr_typed L compiled_operand compiled_operand e
  | Err e => e = ErrInvalidFilter
  end.
Proof.
  intros Hd [Hn HL]. destruct (compile_gives L HL (compile_fuel L)) as [H _]. unfold compile_where.
  specialize (H f 0 0). ospecialize (H _ _ _); [unfold compile_fuel; lia|unfold compile_fuel; lia|lia|].
  destruct (compileFilter L (compile_fuel L) f 0 0) as [[e n]|e]; cbn [rbind]; [by destruct H|done].
Qed.

(** ** Well-typed expressions evaluate without errors *)

Section TypedOk.
Context (L : QueryLimits) (operand_ok element_operand : bytes -> value -> bool).

Lemma element_typed_ok path e : element_typed L element_operand path e -> element_ok e = true.
Proof.
  induction e as [|op args IH|arg IH|cmp operand|op values] using elementExpr_nested_ind; intros H; inversion H; subst; cbn; auto.
  apply forallb_forall. intros a Ha%list_elem_of_In. rewrite Forall_forall in IH. apply IH; [done|].
  match goal with H : Forall (element_typed _ _ _) args |- _ => rewrite Forall_forall in H; by apply H end.
Qed.

Lemma expr_typed_ok e : expr_typed L operand_ok element_operand e -> expr_ok e = true.
Proof.
  induction e as [| |op args IH|arg IH|cmp path v|op path values|path v|path size|path types|path values
    |path mode scalar object IH] using expr_nested_ind; intros H; inversion H; subst; cbn [expr_ok]; auto.
  - apply forallb_forall. intros a Ha%list_elem_of_In. rewrite Forall_forall in IH. apply IH; [done|].
    match goal with H : Forall (expr_typed _ _ _) args |- _ => rewrite Forall_forall in H; by apply H end.
  - rewrite beqb_refl. by eapply element_typed_ok.
Qed.
End TypedOk.

(** ** The validator decides typing and the limits *)

Definition max_of (l : list Z) : Z := fold_right Z.max 0 l.
Definition sum_of (l : list Z) : Z := fold_right Z.add 0 l.

(** Nodes of an expression, and the levels below its root. *)
Fixpoint element_nodes (e : elementExpr) : Z :=
  1 + match e with
      | elementLogicalExpr _ args => sum_of (element_nodes <$> args)
      | elementNotExpr arg => element_nodes arg
      | _ => 0
      end.
Fixpoint element_depth (e : elementExpr) : Z :=
  match e with
  | elementLogicalExpr _ args => max_of ((fun a => 1 + element_depth a) <$> args)
  | elementNotExpr arg => 1 + element_depth arg
  | _ => 0
  end.
Fixpoint expr_nodes (e : expr) : Z :=
  1 + match e with
      | logicalExpr _ args => sum_of (expr_nodes <$> args)
      | notExpr arg => expr_nodes arg
      | elemMatchExpr _ mode scalar object =>
          if beqb mode (bs "scalar") then element_nodes scalar else expr_nodes object
      | _ => 0
      end.
Fixpoint expr_depth (e : expr) : Z :=
  match e with
  | logicalExpr _ args => max_of ((fun a => 1 + expr_depth a) <$> args)
  | notExpr arg => 1 + expr_depth arg
  | elemMatchExpr _ mode scalar object =>
      1 + if beqb mode (bs "scalar") then element_depth scalar else expr_depth object
  | _ => 0
  end.

Section ValidatorExact.
Context (L : QueryLimits).

(** [visit] accepts exactly the [P] items that fit, and counts their nodes. *)
Definition visits {A} (P : A -> Prop) (nodes_of depth_of : A -> Z) (depth nodes : Z) (x : A) (r : result Z) : Prop :=
  forall n, r = Ok n <->
    P x /\ n = nodes + nodes_of x /\ n <= MaxNodes L /\ depth + depth_of x <= MaxDepth L.

Lemma max_of_le l b : 0 <= b -> max_of l <= b <-> Forall (fun x => x <= b) l.
Proof.
  intros Hb. induction l as [|x l IH]; cbn; [split; [constructor|lia]|]. fold (max_of l). rewrite Forall_cons, <- IH. lia.
Qed.

Lemma max_of_nonneg l : 0 <= max_of l.
Proof. induction l as [|x l IH]; cbn; [lia|]. fold (max_of l). lia. Qed.

Lemma sum_of_nonneg {A} (f : A -> Z) l : Forall (fun x => 0 <= f x) l -> 0 <= sum_of (f <$> l).
Proof. induction 1 as [|x l Hx _ IH]; [done|]. cbn [fmap list_fmap sum_of fold_right]. fold (sum_of (f <$> l)). lia. Qed.

Lemma element_nodes_pos e : 1 <= element_nodes e.
Proof.
  induction e as [|op args IH|arg IH|cmp operand|op values] using elementExpr_nested_ind; cbn [element_nodes]; try lia.
  assert (0 <= sum_of (element_nodes <$> args)); [|lia]. apply sum_of_nonneg. eapply Forall_impl; [exact IH|]. intros a Ha; cbv beta in *; lia.
Qed.

Lemma expr_nodes_pos e : 1 <= expr_nodes e.
Proof.
  induction e as [| |op args IH|arg IH|cmp path v|op path values|path v|path size|path types|path values
    |path mode scalar object IH] using expr_nested_ind; cbn [expr_nodes]; try lia.
  - assert (0 <= sum_of (expr_nodes <$> args)); [|lia]. apply sum_of_nonneg. eapply Forall_impl; [exact IH|]. intros a Ha; cbv beta in *; lia.
  - pose proof (element_nodes_pos scalar). destruct (beqb _ _); lia.
Qed.

(** The loop over children, at least one of which is visited. *)
Lemma visit_all_exact {A} (nil : A -> bool) (visit : A -> Z -> result Z) (P : A -> Prop) (nodes_of depth_of : A -> Z)
    depth l nodes n :
  (forall x, x ∈ l -> nil x = true -> ~ P x) -> (forall x, 0 <= nodes_of x) ->
  Forall (fun x => forall nodes, nodes <= MaxNodes L -> visits P nodes_of depth_of depth nodes x (visit x nodes)) l ->
  nodes <= MaxNodes L ->
  visit_all nil visit l nodes = Ok n <->
  Forall P l /\ n = nodes + sum_of (nodes_of <$> l) /\ n <= MaxNodes L /\
  Forall (fun x => depth + depth_of x <= MaxDepth L) l.
Proof.
  intros Hnil Hpos Hall. revert nodes. induction Hall as [|x l Hx Hl IH]; intros nodes Hn; cbn [visit_all].
  { cbn. split; [intros [= <-]; repeat split; [done|lia|lia|done]|]. intros (_ & -> & _). f_equal. lia. }
  cbn [fmap list_fmap sum_of fold_right]. fold (sum_of (nodes_of <$> l)).
  assert (Hs : 0 <= sum_of (nodes_of <$> l)) by (apply sum_of_nonneg, Forall_forall; auto).
  rewrite !Forall_cons. specialize (Hpos x) as Hx0.
  destruct (nil x) eqn:En; [split; [done|]; intros ([HP _] & _); by destruct (Hnil x ltac:(left) En)|].
  rewrite rbind_ok. split.
  - intros (m & Hm & Hrest). apply (Hx nodes Hn) in Hm as (HP & -> & Hm & Hd).
    apply IH in Hrest as (HPs & -> & Hle & Hds); [|intros; apply Hnil; [by right|done]|done].
    repeat split; [done|done|lia|lia|done|done].
  - intros ([HP HPs] & -> & Hle & Hd & Hds). exists (nodes + nodes_of x). split; [apply Hx; [done|]; repeat split; [done|lia|done]|].
    apply IH; [intros; apply Hnil; [by right|done]|lia|]. repeat split; [done|lia|lia|done].
Qed.

Lemma depth_list {A} (f : A -> Z) depth l : depth <= MaxDepth L ->
  Forall (fun x => depth + 1 + f x <= MaxDepth L) l <-> depth + max_of ((fun a => 1 + f a) <$> l) <= MaxDepth L.
Proof.
  intros Hd. transitivity (max_of ((fun a => 1 + f a) <$> l) <= MaxDepth L - depth); [|lia].
  rewrite max_of_le by lia. rewrite Forall_fmap. apply Forall_iff. intros x. cbn. lia.
Qed.

Lemma known_op_in op ops : known_op op ops = true <-> op ∈ ops.
Proof. apply op_in. Qed.

Lemma element_depth_nonneg e : 0 <= element_depth e.
Proof.
  induction e as [|op args IH|arg IH|cmp operand|op values] using elementExpr_nested_ind; cbn [element_depth]; try lia.
  apply max_of_nonneg.
Qed.

Lemma expr_depth_nonneg e : 0 <= expr_depth e.
Proof.
  induction e as [| |op args IH|arg IH|cmp path v|op path values|path v|path size|path types|path values
    |path mode scalar object IH] using expr_nested_ind; cbn [expr_depth]; try lia; [apply max_of_nonneg|].
  pose proof (element_depth_nonneg scalar). destruct (beqb _ _); lia.
Qed.

(** The two checks that open every visit. *)
Lemma visits_enter {A} (P : A -> Prop) (nodes_of depth_of : A -> Z) depth nodes x (r : result Z) :
  1 <= nodes_of x -> 0 <= depth_of x ->
  (depth <= MaxDepth L -> nodes + 1 <= MaxNodes L -> visits P nodes_of depth_of depth nodes x r) ->
  visits P nodes_of depth_of depth nodes x
    (if MaxDepth L <? depth then Err ErrInvalidFilter
     else if MaxNodes L <? nodes + 1 then Err ErrInvalidFilter else r).
Proof.
  intros H1 H2 H n. destruct (Z.ltb_spec (MaxDepth L) depth); [split; [done|]; intros (_ & _ & _ & ?); lia|].
  destruct (Z.ltb_spec (MaxNodes L) (nodes + 1)); [split; [done|]; intros (_ & -> & ? & _); lia|]. by apply H.
Qed.

(** A leaf that passes its checks counts one node. *)
Lemma visits_leaf {A} (P : A -> Prop) (nodes_of depth_of : A -> Z) depth nodes x (b : bool) :
  nodes_of x = 1 -> depth_of x = 0 -> depth <= MaxDepth L -> nodes + 1 <= MaxNodes L -> (P x <-> b = true) ->
  visits P nodes_of depth_of depth nodes x (if b then Ok (nodes + 1) else Err ErrInvalidFilter).
Proof.
  intros Hn Hd H1 H2 HP n. rewrite HP, Hn, Hd. destruct b.
  - split; [intros [= <-]; repeat split; lia|]. intros (_ & -> & _). done.
  - split; [done|]. by intros [? _].
Qed.

(** A check that fails. *)
Lemma visits_never {A} (P : A -> Prop) (nodes_of depth_of : A -> Z) depth nodes x e :
  ~ P x -> visits P nodes_of depth_of depth nodes x (Err e).
Proof. intros H n. split; [done|]. by intros [? _]. Qed.

(** A condition around one other. *)
Lemma visits_around {A B} (P : A -> Prop) (Q : B -> Prop) (nodes_of depth_of : A -> Z) (nodes_of' depth_of' : B -> Z) depth nodes x y r :
  (P x <-> Q y) -> nodes_of x = 1 + nodes_of' y -> depth_of x = 1 + depth_of' y ->
  visits Q nodes_of' depth_of' (depth + 1) (nodes + 1) y r -> visits P nodes_of depth_of depth nodes x r.
Proof.
  intros HP Hn Hd H n. rewrite (H n), HP, Hn, Hd. split; intros (H1 & -> & H2 & H3); (split; [done|]); repeat split; lia.
Qed.

Abbreviation v_element path := (element_typed L (fun _ v => validate_value L v 0) path).

Lemma list_checks {A} (l : list A) :
  (zlen l =? 0) || (MaxArrayItems L <? zlen l) = false <-> 0 < zlen l <= MaxArrayItems L.
Proof. pose proof (zlen_nonneg l). rewrite orb_false_iff, Z.eqb_neq, Z.ltb_ge. lia. Qed.

Lemma forallb_Forall {A} (f : A -> bool) l : forallb f l = true <-> Forall (fun x => f x = true) l.
Proof. rewrite forallb_forall, Forall_forall. by setoid_rewrite list_elem_of_In. Qed.

Lemma validate_element_exact path e depth nodes :
  visits (v_element path) element_nodes element_depth depth nodes e (validate_element L e depth nodes).
Proof.
  revert depth nodes. induction e as [|op args IH|arg IH|cmp operand|op values] using elementExpr_nested_ind;
    intros depth nodes; cbn [validate_element];
    (apply visits_enter; [apply element_nodes_pos|apply element_depth_nonneg|]); intros Hd Hn.
  - intros n. split; [done|]. intros [H _]. inversion H.
  - intros n. cbn [element_nodes element_depth].
    destruct (known_op op logical_ops) eqn:Eop; cbn [negb orb].
    2:{ split; [done|]. intros [H _]. inversion H; subst. rewrite <- known_op_in in *. congruence. }
    destruct (_ || _) eqn:El.
    { split; [done|]. intros [H _]. inversion H; subst. rewrite (proj2 (list_checks args)) in El by done. done. }
    apply list_checks in El. apply known_op_in in Eop.
    rewrite (visit_all_exact _ _ (v_element path) element_nodes element_depth (depth + 1)); [| | |by eapply Forall_impl|done].
    + rewrite depth_list by lia. replace (nodes + (1 + sum_of (element_nodes <$> args))) with (nodes + 1 + sum_of (element_nodes <$> args)) by lia.
      split; [intros (H1 & H2 & H3 & H4); split; [by constructor|done]|].
      intros (H1 & H2 & H3 & H4). inversion H1; subst. done.
    + intros x _ Hx H. destruct x; done || inversion H.
    + intros x. pose proof (element_nodes_pos x). lia.
  - destruct (is_nil_element arg) eqn:En.
    + apply visits_never. intros H. destruct arg; try done. inversion H as [|? H'| |]; subst. inversion H'.
    + eapply visits_around; [|done|done|apply IH]. split; [intros H; by inversion H|by constructor].
  - destruct (known_op cmp compare_ops) eqn:Eop; cbn [negb].
    + apply known_op_in in Eop. apply visits_leaf; [done..|]. split; [intros H; by inversion H|by constructor].
    + apply visits_never. intros H. inversion H; subst. rewrite <- known_op_in in *. congruence.
  - destruct (known_op op membership_ops) eqn:Eop; cbn [negb orb].
    2:{ intros n. split; [done|]. intros [H _]. inversion H; subst. rewrite <- known_op_in in *. congruence. }
    apply known_op_in in Eop. destruct (Z.ltb_spec (MaxArrayItems L) (zlen values)).
    { intros n. split; [done|]. intros [H1 _]. inversion H1; subst. lia. }
    apply visits_leaf; [done..|]. rewrite forallb_Forall. split; [intros H1; by inversion H1|by constructor].
Qed.

(** *** Documents *)

Lemma kept_sublist types :
  types `sublist_of` canonicalQueryTypes.*2 ->
  List.filter (fun k => existsb (kind_eqb k) types) canonicalQueryTypes.*2 = types.
Proof.
  assert (Hnd : NoDup canonicalQueryTypes.*2) by (apply (bool_decide_unpack _); vm_compute; done).
  intros H. revert Hnd. generalize dependent types. generalize (canonicalQueryTypes.*2). intros l types H.
  induction H as [|k types l H IH|k types l H IH]; intros Hnd; cbn; [done|..]; apply NoDup_cons in Hnd as [Hk Hnd].
  - rewrite (proj2 (kind_eqb_eq k k) eq_refl). cbn [orb]. f_equal. etransitivity; [|exact (IH Hnd)].
    apply List.filter_ext_in. intros k' Hk'%list_elem_of_In. cbn [existsb].
    destruct (kind_eqb k' k) eqn:E; [|done]. apply kind_eqb_eq in E as ->. by destruct Hk.
  - destruct (existsb (kind_eqb k) types) eqn:E; [|by apply IH].
    apply existsb_exists in E as (x & Hx%list_elem_of_In & <-%kind_eqb_eq).
    destruct Hk. by eapply sublist_subseteq in H; apply H.
Qed.

Lemma type_named_name k : exists name, (List.filter (fun candidate => kind_eqb k candidate.2) canonicalQueryTypes).*1 = [name]
  /\ type_named name = Some k.
Proof. destruct k; eexists; split; reflexivity. Qed.

Lemma queryTypeNames_named types : mapM type_named (queryTypeNames types) = Some types /\ zlen (queryTypeNames types) = zlen types.
Proof.
  assert (H : mapM type_named (queryTypeNames types) = Some types).
  { induction types as [|k types IH]; [done|]. unfold queryTypeNames in *. cbn [mbind list_bind].
    destruct (type_named_name k) as (name & -> & Hn). cbn [app mapM mbind option_bind]. rewrite Hn. cbn [mbind option_bind].
    by rewrite IH. }
  split; [done|]. apply mapM_Some_1 in H. unfold zlen. by rewrite (Forall2_length _ _ _ H).
Qed.

Lemma validate_types_exact types :
  validate_types L types = true <-> zlen types <= MaxArrayItems L /\ canonical_types types.
Proof.
  unfold validate_types. destruct (queryTypeNames_named types) as [Hm Hl].
  destruct (_ || _) eqn:E.
  { split; [done|]. intros [H1 [H2 _]]. rewrite (proj2 (list_checks types)) in E; [done|].
    destruct types; [done|]. rewrite zlen_cons in *. pose proof (zlen_nonneg types). lia. }
  apply list_checks in E as E'. unfold normalizeQueryTypes. rewrite Hl, E, Hm. cbn [of_option rbind].
  set (kept := List.filter _ _). split.
  - intros H. apply andb_true_iff in H as [_ H]. apply bool_decide_eq_true in H. split; [lia|]. split.
    + intros ->. by destruct E' as [? _].
    + rewrite <- H. unfold kept. generalize (canonicalQueryTypes.*2). intros l. induction l as [|x l IH]; cbn; [constructor|].
      destruct (existsb _ _); by constructor.
  - intros [_ [_ Hsub]]. unfold kept. rewrite (kept_sublist types Hsub), Z.eqb_refl. cbn. unfold kinds_eqb.
    by apply bool_decide_eq_true.
Qed.

Abbreviation v_expr := (expr_typed L (validate_operand L) (fun _ v => validate_value L v 0)).

Lemma validate_operand_path path v : validate_operand L path v = true -> validatePath path = true.
Proof. unfold validate_operand. by destruct (validatePath path). Qed.

Ltac refuses := apply visits_never; let H := fresh in intros H; inversion H; subst; rewrite <- ?known_op_in in *; try congruence; try lia.

Lemma validate_expression_exact e depth nodes :
  visits v_expr expr_nodes expr_depth depth nodes e (validate_expression L e depth nodes).
Proof.
  revert depth nodes. induction e as [| |op args IH|arg IH|cmp path v|op path values|path v|path size|path types|path values
    |path mode scalar object IH] using expr_nested_ind; intros depth nodes; cbn [validate_expression];
    (apply visits_enter; [apply expr_nodes_pos|apply expr_depth_nonneg|]); intros Hd Hn.
  - refuses.
  - apply (visits_leaf v_expr _ _ _ _ _ true); [done..|]. split; [done|constructor].
  - destruct (known_op op logical_ops) eqn:Eop; cbn [negb orb]; [|refuses].
    destruct (_ || _) eqn:El.
    { apply visits_never. intros H. inversion H; subst. by rewrite (proj2 (list_checks args)) in El. }
    apply list_checks in El. apply known_op_in in Eop. intros n. cbn [expr_nodes expr_depth].
    rewrite (visit_all_exact _ _ v_expr expr_nodes expr_depth (depth + 1)); [| | |by eapply Forall_impl|done].
    + rewrite depth_list by lia. replace (nodes + (1 + sum_of (expr_nodes <$> args))) with (nodes + 1 + sum_of (expr_nodes <$> args)) by lia.
      split; [intros (H1 & H2 & H3 & H4); split; [by constructor|done]|].
      intros (H1 & H2 & H3 & H4). inversion H1; subst. done.
    + intros x _ Hx H. destruct x; done || inversion H.
    + intros x. pose proof (expr_nodes_pos x). lia.
  - destruct (is_nil arg) eqn:En.
    + apply visits_never. intros H. destruct arg; try done. inversion H as [| |? H'| | | | | | | |]; subst. inversion H'.
    + eapply visits_around; [|done|done|apply IH]. split; [intros H; by inversion H|by constructor].
  - destruct (known_op cmp compare_ops) eqn:Eop; cbn [negb]; [|refuses]. apply known_op_in in Eop.
    apply visits_leaf; [done..|]. split; [intros H; by inversion H|].
    intros H. constructor; [done|by eapply validate_operand_path|done].
  - destruct (known_op op membership_ops) eqn:Eop; cbn [negb orb]; [|refuses]. apply known_op_in in Eop.
    destruct (Z.ltb_spec (MaxArrayItems L) (zlen values)); [refuses|].
    apply visits_leaf; [done..|]. rewrite forallb_Forall. split; [intros H1; by inversion H1|].
    intros H1. constructor; [done|done| |done]. intros Hne. destruct H1; [done|by eapply validate_operand_path].
  - apply visits_leaf; [done..|]. split; [intros H; by inversion H|by constructor].
  - destruct (validatePath path) eqn:Ep; cbn [negb]; [|refuses].
    destruct (Z.ltb_spec size 0); cbn [orb]; [refuses|]. destruct (Z.ltb_spec maxQueryArraySize size); [refuses|].
    apply (visits_leaf v_expr _ _ _ _ _ true); [done..|]. split; [done|]. intros _. by constructor.
  - destruct (validatePath path) eqn:Ep; cbn [negb]; [|refuses].
    apply visits_leaf; [done..|]. rewrite validate_types_exact. split; [intros H; by inversion H|]. intros []. by constructor.
  - destruct (validatePath path) eqn:Ep; cbn [negb]; [|refuses]. destruct (_ || _) eqn:El.
    { apply visits_never. intros H. inversion H; subst. by rewrite (proj2 (list_checks values)) in El. }
    apply list_checks in El. apply visits_leaf; [done..|]. rewrite andb_true_iff, forallb_Forall.
    split; [intros H; by inversion H|]. intros []. by constructor.
  - destruct (validatePath path) eqn:Ep; cbn [negb]; [|refuses].
    destruct (beqb mode (bs "scalar")) eqn:Em; [apply beqb_eq in Em as ->|destruct (beqb mode (bs "object")) eqn:Em'].
    + destruct (is_nil_element scalar) eqn:E1; cbn [orb].
      { apply visits_never. intros H. inversion H as [| | | | | | | | |? ? ? H'|]; subst. destruct scalar; try done. inversion H'. }
      destruct (is_nil object) eqn:E2; cbn [negb]; [|apply visits_never; intros H; by inversion H; subst].
      destruct object; try done. eapply visits_around; [|done|done|apply (validate_element_exact path)].
      split; [intros H; by inversion H|by constructor].
    + apply beqb_eq in Em' as ->. destruct (is_nil object) eqn:E1; cbn [orb].
      { apply visits_never. intros H. inversion H as [| | | | | | | | | |? ? ? H']; subst. destruct object; try done. inversion H'. }
      destruct (is_nil_element scalar) eqn:E2; cbn [negb]; [|apply visits_never; intros H; by inversion H; subst].
      destruct scalar; try done. eapply visits_around; [|done|done|apply IH].
      split; [intros H; by inversion H|by constructor].
    + apply visits_never. intros H. inversion H; subst; by rewrite beqb_refl in *.
Qed.
End ValidatorExact.

(** C35: Filters are type-checked. Compiling any filter ends: it gives a
    well-typed expression, whose evaluation on any document has no error and is
    that of the reference semantics, or it fails with [ErrInvalidFilter]. And
    the validator accepts exactly the well-typed expressions with checked
    operands that have at most 128 nodes and 16 levels. *)
Theorem filters_type_checked :
  (forall f,
    match compile_where DefaultQueryLimits f with
    | Ok e =>
        expr_typed DefaultQueryLimits compiled_operand compiled_operand e /\
        forall d, exists matched, matchExpression e d None = ((matched, None), None) /\ (matched = true <-> satisfies e d)
    | Err e => e = ErrInvalidFilter
    end) /\
  (forall e,
    is_ok (validate_expression DefaultQueryLimits e 0 0) = true <->
    expr_typed DefaultQueryLimits (validate_operand DefaultQueryLimits)
      (fun _ v => validate_value DefaultQueryLimits v 0) e /\
    expr_nodes e <= 128 /\ expr_depth e <= 16).
Proof.
  split.
  - intros f. pose proof (compile_where_typed DefaultQueryLimits f ltac:(done) ltac:(done)) as H.
    destruct (compile_where DefaultQueryLimits f) as [e|]; [|done]. split; [done|].
    intros d. apply decides_expression. by eapply expr_typed_ok.
  - intros e. pose proof (validate_expression_exact DefaultQueryLimits e 0 0) as H.
    cbn [MaxNodes MaxDepth DefaultQueryLimits] in H. split.
    + destruct (validate_expression _ e 0 0) as [n|]; [|done]. intros _.
      destruct (proj1 (H n) eq_refl) as (H1 & -> & H2 & H3). done.
    + intros (H1 & H2 & H3). by rewrite (proj2 (H (0 + expr_nodes e)) ltac:(done)).
Qed.

(** An operator object, a logical operator and an element condition. *)
Example compile_example :
  compile_where DefaultQueryLimits
    [(bs "age", AMap [(bs "$lt", AInt 65); (bs "$gte", AInt 18)]);
     (bs "$or", AFilters [[(bs "tags", AMap [(bs "$all", AAnys [AString (bs "x"); AString (bs "x")])])];
                          [(bs "scores", AMap [(bs "$elemMatch", AMap [(bs "$gt", AInt 3)])])]])] =
  Ok (logicalExpr (bs "and")
    [logicalExpr (bs "or")
       [allExpr (bs "tags") [VString (bs "x")];
        elemMatchExpr (bs "scores") (bs "scalar") (elementCompareExpr (bs "gt") (VInt 3)) nilExpr];
     compareExpr (bs "gte") (bs "age") (VInt 18); compareExpr (bs "lt") (bs "age") (VInt 65)]).
Proof. vm_compute. reflexivity. Qed.
