(* ===== verification/IndexDefinitions.v ===== *)
(** * Index definitions and document keys

    [internal/database/index_definition.go]: the fields of an index, the key a
    document has in it, and the key intervals of the conditions a query puts on
    its leading fields; with the conditions themselves from [indexes.go]. A nil
    byte slice is the empty list: where Go tests for nil, no other empty slice
    arises. *)
From S2P Require Import Prelude Bytes Strings Entries Float64 Values Documents DocumentCodec IndexKey CompoundKey Query.

(** ** Definitions *)

(** [Field] and [Order] mirror the first of [Fields] for old definitions. *)
Record IndexDefinition := mk_definition {
  def_Name : bytes; def_Field : bytes; def_Order : Z; def_Unique : bool; def_Fields : list IndexField }.

Definition new_field (path : bytes) (order : Z) : IndexField := {| Path := path; Order := order |}.

Definition field_eqb (a b : IndexField) : bool := beqb (Path a) (Path b) && (Order a =? Order b).

Definition indexDefinitionFields (definition : IndexDefinition) : list IndexField :=
  if 0 <? zlen (def_Fields definition) then def_Fields definition
  else if beqb (def_Field definition) [] then []
  else [new_field (def_Field definition) (def_Order definition)].

Definition cloneIndexDefinition (definition : IndexDefinition) : IndexDefinition :=
  let fields := indexDefinitionFields definition in
  match fields with
  | [] => mk_definition (def_Name definition) (def_Field definition) (def_Order definition) (def_Unique definition) []
  | first :: _ => mk_definition (def_Name definition) (Path first) (Order first) (def_Unique definition) fields
  end.

(** [newIndexDefinition]; an empty list of fields is out of range in Go. *)
Definition newIndexDefinition (name : bytes) (fields : list IndexField) (unique : bool) : option IndexDefinition :=
  match fields with
  | [] => None
  | first :: _ => Some (mk_definition name (Path first) (Order first) unique fields)
  end.

Fixpoint fields_equal (l1 l2 : list IndexField) : bool :=
  match l1, l2 with
  | [], [] => true
  | a :: l1, b :: l2 => field_eqb a b && fields_equal l1 l2
  | _, _ => false
  end.

Definition equalIndexDefinitions (left right : IndexDefinition) : bool :=
  beqb (def_Name left) (def_Name right) && Bool.eqb (def_Unique left) (def_Unique right)
  && fields_equal (indexDefinitionFields left) (indexDefinitionFields right).

Definition usesCompoundIndexCodec (definition : IndexDefinition) : bool :=
  match indexDefinitionFields definition with [f] => negb (Order f =? 1) | _ => true end.

(** ** The key of a document *)

(** The values of the leading fields the document has, and whether it has all. *)
Fixpoint leading_values (d : document) (fields : list IndexField) : list value * bool :=
  match fields with
  | [] => ([], true)
  | f :: fields =>
      match lookupInternal d (Path f) with
      | None => ([], false)
      | Some v => let '(values, complete) := leading_values d fields in (v :: values, complete)
      end
  end.

(** The second result of Go is whether there is a key; with an error it is true. *)
Definition indexDocumentKey (definition : IndexDefinition) (d : document) : result (option bytes) :=
  let fields := indexDefinitionFields definition in
  if zlen fields =? 0 then Err ErrInvalidIndex
  else
    let '(values, complete) := leading_values d fields in
    if negb complete then
      if (zlen values =? 0) || negb (usesCompoundIndexCodec definition) then Ok None
      else
        match Document_ID d with
        | None => Err ErrInvalidIndex
        | Some id =>
            if all_zero id then Err ErrInvalidIndex
            else
              match encodeCompoundPartialIndexKey values (take (length values) fields) id with
              | Err _ => Err ErrInvalidIndex
              | Ok key => Ok (Some key)
              end
        end
    else
      match (if usesCompoundIndexCodec definition then encodeCompoundIndexKey values fields
             else match values with v :: _ => encodeIndexKey v | [] => Err ErrPanic end) with
      | Err _ => Err ErrInvalidIndex
      | Ok key => Ok (Some key)
      end.

(** ** Conditions on a path *)

Definition op_eq : bytes := bs "eq".
Definition op_in : bytes := bs "in".
Definition op_and : bytes := bs "and".
Definition op_or : bytes := bs "or".

Definition range_op (cmp : bytes) : bool :=
  beqb cmp (bs "gt") || beqb cmp (bs "gte") || beqb cmp (bs "lt") || beqb cmp (bs "lte").

(** The first result of [f] on a list. *)
Definition first_some {A B} (f : A -> option B) : list A -> option B :=
  fix first_some l := match l with
  | [] => None
  | a :: l => match f a with Some b => Some b | None => first_some l end
  end.

(** All results of [f], in one list. *)
Definition all_some {A B} (f : A -> option (list B)) : list A -> option (list B) :=
  fix all_some l := match l with
  | [] => Some []
  | a :: l => match f a with None => None | Some b => let? rest := all_some l in Some (b ++ rest) end
  end.

Fixpoint equalityCandidate (e : expr) (path : bytes) : option value :=
  match e with
  | compareExpr cmp p v => if beqb p path && beqb cmp op_eq then Some v else None
  | logicalExpr op args => if beqb op op_and then first_some (fun child => equalityCandidate child path) args else None
  | _ => None
  end.

Fixpoint indexValuesCandidateExpr (e : expr) (path : bytes) : option (list value) :=
  match e with
  | compareExpr cmp p v => if beqb p path && beqb cmp op_eq then Some [v] else None
  | membershipExpr op p values => if beqb p path && beqb op op_in then Some values else None
  | logicalExpr op args =>
      if beqb op op_and then first_some (fun child => indexValuesCandidateExpr child path) args
      else if beqb op op_or then all_some (fun child => indexValuesCandidateExpr child path) args
      else None
  | _ => None
  end.

Record encodedIndexValueCandidate := mk_encoded { ec_value : value; ec_key : bytes }.

(** The loop over the values, which skips keys it has seen. *)
Fixpoint encode_values (encoded : list bytes) (values : list value) : option (list encodedIndexValueCandidate) :=
  match values with
  | [] => Some []
  | v :: values =>
      match encodeIndexKey v with
      | Err _ => None
      | Ok key =>
          if existsb (beqb key) encoded then encode_values encoded values
          else let? rest := encode_values (key :: encoded) values in Some (mk_encoded v key :: rest)
      end
  end.

Definition encodedIndexValuesCandidate (e : expr) (path : bytes) : option (list encodedIndexValueCandidate) :=
  let? values := indexValuesCandidateExpr e path in encode_values [] values.

Definition indexValuesCandidate (e : expr) (path : bytes) : option (list value) :=
  let? candidates := encodedIndexValuesCandidate e path in Some (ec_value <$> candidates).

Record indexBound := mk_indexBound { ib_value : value; ib_inclusive : bool }.

(** The captured variables of [rangeCandidate]. *)
Record rangeState := mk_range { rs_lower : option indexBound; rs_upper : option indexBound; rs_found : bool }.

(** Whether a candidate replaces a bound: [tighter] reads the comparison. *)
Definition replaces (tighter : Z -> bool) (candidate : indexBound) (bound : option indexBound) : bool :=
  match bound with
  | None => true
  | Some bound =>
      match compareValues (ib_value candidate) (ib_value bound) with
      | Some comparison => tighter comparison || ((comparison =? 0) && negb (ib_inclusive candidate))
      | None => false
      end
  end.

Definition add_bound (cmp : bytes) (v : value) (st : rangeState) : rangeState :=
  let candidate := mk_indexBound v (beqb cmp (bs "gte") || beqb cmp (bs "lte")) in
  if beqb cmp (bs "gt") || beqb cmp (bs "gte")
  then mk_range (if replaces (fun c => 0 <? c) candidate (rs_lower st) then Some candidate else rs_lower st)
         (rs_upper st) true
  else mk_range (rs_lower st)
         (if replaces (fun c => c <? 0) candidate (rs_upper st) then Some candidate else rs_upper st) true.

(** A loop that stops at the first failure. *)
Definition fold_some {A S} (f : A -> S -> option S) : list A -> S -> option S :=
  fix fold_some l st := match l with [] => Some st | a :: l => let? st := f a st in fold_some l st end.

(** The closure [visit]; [None] is false. *)
Fixpoint visit_range (path : bytes) (e : expr) (st : rangeState) : option rangeState :=
  match e with
  | logicalExpr op args => if beqb op op_and then fold_some (visit_range path) args st else Some st
  | compareExpr cmp p v =>
      if negb (beqb p path) || negb (range_op cmp) then Some st
      else match encodeIndexKey v with Err _ => None | Ok _ => Some (add_bound cmp v st) end
  | _ => Some st
  end.

(** The bounds; [None] when Go's third result is false. *)
Definition rangeCandidate (e : expr) (path : bytes) : option (option indexBound * option indexBound) :=
  match visit_range path e (mk_range None None false) with
  | Some st => if rs_found st then Some (rs_lower st, rs_upper st) else None
  | None => None
  end.

(** ** Intervals of keys *)

Record indexScanSpan := mk_span { sp_start : bytes; sp_end : bytes; sp_exact : bool }.

(** The loop from the last byte; all bytes [0xff] have no end. *)
Fixpoint prefix_end (reversed : bytes) : bytes :=
  match reversed with
  | [] => []
  | b :: reversed => if b2z b =? 0xff then prefix_end reversed else rev (z2b (b2z b + 1) :: reversed)
  end.

Definition indexKeyPrefixEnd (key : bytes) : bytes := prefix_end (rev key).

(** Both ends, or [None] for an interval that is empty. *)
Definition storageIndexBounds (lower upper : option indexBound) : result (option (bytes * bytes)) :=
  let* start :=
    match lower with
    | None => Ok (Some [])
    | Some lower =>
        let* key := encodeIndexKey (ib_value lower) in
        if ib_inclusive lower then Ok (Some key)
        else match indexKeyPrefixEnd key with [] => Ok None | start => Ok (Some start) end
    end in
  match start with
  | None => Ok None
  | Some start =>
      let* fin :=
        match upper with
        | None => Ok []
        | Some upper =>
            let* key := encodeIndexKey (ib_value upper) in
            Ok (if ib_inclusive upper then indexKeyPrefixEnd key else key)
        end in
      if (0 <? zlen start) && (0 <? zlen fin) && negb (bltb start fin) then Ok None else Ok (Some (start, fin))
  end.

(** The equalities on the leading fields; [None] when one has no key. *)
Fixpoint leading_equalities (e : expr) (fields : list IndexField) : option (list value) :=
  match fields with
  | [] => Some []
  | f :: fields =>
      match equalityCandidate e (Path f) with
      | None => Some []
      | Some v =>
          match encodeIndexKey v with
          | Err _ => None
          | Ok _ => let? rest := leading_equalities e fields in Some (v :: rest)
          end
      end
  end.

(** One end of a range on the field after an equality prefix: the key of the
    bound, or the given default. *)
Definition component_bound (prefix : bytes) (next : IndexField) (bound : option indexBound) (missing : bytes)
    (shift : bool -> bool) : option bytes :=
  match bound with
  | None => Some missing
  | Some bound =>
      match encodeCompoundIndexKey [ib_value bound] [next] with
      | Err _ => None
      | Ok component =>
          let key := prefix ++ component in
          Some (if shift (ib_inclusive bound) then indexKeyPrefixEnd key else key)
      end
  end.

(** [None] when Go reports false; the third part is [exact]. *)
Definition compoundIndexQueryBounds (definition : IndexDefinition) (e : expr) : option (bytes * bytes * bool) :=
  let fields := indexDefinitionFields definition in
  if negb (usesCompoundIndexCodec definition) || (zlen fields =? 0) then None
  else
    let? equalities := leading_equalities e fields in
    if zlen equalities =? zlen fields then
      match encodeCompoundIndexKey equalities fields with
      | Err _ => None
      | Ok key => Some (key, indexKeyPrefixEnd key, true)
      end
    else
      let? prefix := (if 0 <? zlen equalities
                      then match encodeCompoundIndexPrefix equalities fields with Err _ => None | Ok p => Some p end
                      else Some []) in
      let? next := fields !! length equalities in
      match rangeCandidate e (Path next) with
      | None => if zlen prefix =? 0 then None else Some (prefix, indexKeyPrefixEnd prefix, false)
      | Some (lower, upper) =>
          let '(physicalLower, physicalUpper) := if Order next =? -1 then (upper, lower) else (lower, upper) in
          let? start := component_bound prefix next physicalLower (prefix ++ [compoundComponentFloor]) negb in
          if (match physicalLower with Some _ => true | None => false end) && (zlen start =? 0) then Some ([], [], false)
          else
            let? fin := component_bound prefix next physicalUpper (indexKeyPrefixEnd prefix) id in
            if (0 <? zlen start) && (0 <? zlen fin) && negb (bltb start fin) then Some ([], [], false)
            else Some (start, fin, false)
      end.

(** The spans of the allowed values of the first field. *)
Fixpoint value_spans (fields : list IndexField) (values : list value) : option (list indexScanSpan) :=
  match values with
  | [] => Some []
  | v :: values =>
      match encodeCompoundIndexPrefix [v] fields with
      | Err _ => None
      | Ok prefix =>
          let fin := indexKeyPrefixEnd prefix in
          if beqb fin [] then None
          else let? rest := value_spans fields values in Some (mk_span prefix fin false :: rest)
      end
  end.

Definition compoundIndexValueSpans (definition : IndexDefinition) (e : expr) : option (list indexScanSpan) :=
  let fields := indexDefinitionFields definition in
  match fields with
  | [] => None
  | first :: _ =>
      if negb (usesCompoundIndexCodec definition) then None
      else let? values := indexValuesCandidate e (Path first) in value_spans fields values
  end.

(** The loop of [indexQueryScore] from a score on. *)
Fixpoint query_score (e : expr) (fields : list IndexField) (score : Z) : Z :=
  match fields with
  | [] => score
  | f :: fields =>
      match indexValuesCandidate e (Path f) with
      | Some values =>
          if zlen values =? 0 then score + 2
          else if negb (zlen values =? 1) then score + 2
          else query_score e fields (score + 2)
      | None =>
          match rangeCandidate e (Path f) with
          | None => score
          | Some (lower, upper) =>
              let encodes (b : option indexBound) :=
                match b with Some b => is_ok (encodeIndexKey (ib_value b)) | None => true end in
              if encodes lower && encodes upper then score + 1 else 0
          end
      end
  end.

Definition indexQueryScore (definition : IndexDefinition) (e : expr) : Z :=
  query_score e (indexDefinitionFields definition) 0.
