(* ===== verification/QueryPlan.v ===== *)
(** * Access plans

    [internal/database/query_plan.go] and [query_plan_explain.go]: the choice of
    document ids or index intervals that cover a query. Go's unordered
    [sort.Slice] is the stable sort; the orders used tell all elements apart, or
    the elements they do not tell apart are merged. *)
From S2P Require Import Prelude Bytes Strings Entries Float64 Values Documents DocumentCodec IndexKey CompoundKey Query Orders IndexDefinitions.

Definition primaryAccessScore : Z := 2 ^ 20.
Definition emptyAccessScore : Z := 2 ^ 21.

(** ** Plans *)

Record ExplainBound := mk_bound {
  eb_Path : bytes; eb_Values : list value; eb_Lower : option value; eb_Upper : option value;
  eb_LowerInclusive : bool; eb_UpperInclusive : bool }.

Record queryPlanSource := mk_source {
  ps_primary : bool; ps_definition : IndexDefinition; ps_ids : list bytes;
  ps_spans : list indexScanSpan; ps_bounds : list ExplainBound }.

Record queryAccessPlan := mk_plan {
  ap_usable : bool; ap_empty : bool; ap_score : Z; ap_sortCompatible : bool;
  ap_sources : list queryPlanSource; ap_fallbackReason : bytes; ap_unindexedPaths : list bytes;
  ap_indexableConjunctPaths : list bytes; ap_compoundIndexOpportunity : bool }.

(** [queryAccessPlan{}], and a plan with no diagnostics. *)
Definition plan_of (usable empty : bool) (score : Z) (sortCompatible : bool) (sources : list queryPlanSource) : queryAccessPlan :=
  mk_plan usable empty score sortCompatible sources [] [] [] false.
Definition no_plan : queryAccessPlan := plan_of false false 0 false [].

Definition chooseAccessScore (empty : bool) (score : Z) : Z := if empty then emptyAccessScore else score.

Definition id_field : bytes := bs "_id".
Definition id_definition : IndexDefinition := mk_definition id_field id_field 1 false [new_field id_field 1].

(** ** Bounds shown by Explain *)

Definition values_bound (path : bytes) (values : list value) : ExplainBound := mk_bound path values None None false false.

Definition explainRangeBound (path : bytes) (lower upper : option indexBound) : ExplainBound :=
  mk_bound path [] (ib_value <$> lower) (ib_value <$> upper)
    (match lower with Some b => ib_inclusive b | None => false end)
    (match upper with Some b => ib_inclusive b | None => false end).

(** The loop of [explainIndexBounds]. *)
Fixpoint explain_fields (e : expr) (fields : list IndexField) : list ExplainBound :=
  match fields with
  | [] => []
  | f :: fields =>
      match indexValuesCandidate e (Path f) with
      | Some values =>
          values_bound (Path f) values :: (if zlen values =? 1 then explain_fields e fields else [])
      | None =>
          match rangeCandidate e (Path f) with
          | None => []
          | Some (lower, upper) => [explainRangeBound (Path f) lower upper]
          end
      end
  end.

Definition explainIndexBounds (definition : IndexDefinition) (e : expr) : list ExplainBound :=
  explain_fields e (indexDefinitionFields definition).

(** The values of a bound that are not among the keys seen for its path. *)
Fixpoint fresh_values (seen : list bytes) (values : list value) : list value * list bytes :=
  match values with
  | [] => ([], seen)
  | v :: values =>
      match encodeIndexKey v with
      | Err _ => fresh_values seen values
      | Ok key =>
          if existsb (beqb key) seen then fresh_values seen values
          else let '(rest, seen) := fresh_values (key :: seen) values in (v :: rest, seen)
      end
  end.

Definition is_range_bound (b : ExplainBound) : bool :=
  match eb_Lower b, eb_Upper b with None, None => zlen (eb_Values b) =? 0 | _, _ => true end.

(** [valueBounds] and [valueKeys]: the position of a path in the result, and its keys. *)
Fixpoint coalesce (bounds : list ExplainBound) (positions : list (bytes * (nat * list bytes)))
    (out : list ExplainBound) : list ExplainBound :=
  match bounds with
  | [] => out
  | b :: bounds =>
      if is_range_bound b then coalesce bounds positions (out ++ [b])
      else
        let '(position, seen, out) :=
          match field positions (eb_Path b) with
          | Some (position, seen) => (position, seen, out)
          | None => (length out, [], out ++ [values_bound (eb_Path b) []])
          end in
        let '(fresh, seen) := fresh_values seen (eb_Values b) in
        let out := match out !! position with
                   | Some o => <[position:=values_bound (eb_Path o) (eb_Values o ++ fresh)]> out
                   | None => out
                   end in
        coalesce bounds (ins (eb_Path b) (position, seen) positions) out
  end.

Definition coalesceExplainBounds (bounds : list ExplainBound) : list ExplainBound :=
  if zlen bounds <? 2 then bounds else coalesce bounds [] [].

(** ** Comparing plans *)

Definition queryPlanHasNoCandidates (plan : queryAccessPlan) : bool :=
  forallb (fun source => (zlen (ps_ids source) =? 0) && (zlen (ps_spans source) =? 0)) (ap_sources plan).

Definition queryPlanWork (plan : queryAccessPlan) : Z :=
  foldr (fun source work => zlen (ps_ids source) + zlen (ps_spans source) + work) 0 (ap_sources plan).

(** [strings.Join]. *)
Fixpoint join (separator : bytes) (parts : list bytes) : bytes :=
  match parts with
  | [] => []
  | [part] => part
  | part :: parts => part ++ separator ++ join separator parts
  end.

Definition queryPlanSignature (plan : queryAccessPlan) : bytes :=
  join [x00] ((fun source => def_Name (ps_definition source)) <$> ap_sources plan).

Definition betterQueryAccessPlan (current candidate : queryAccessPlan) : queryAccessPlan :=
  if negb (ap_usable candidate) then current
  else if negb (ap_usable current) then candidate
  else if negb (Bool.eqb (ap_empty current) (ap_empty candidate)) then if ap_empty candidate then candidate else current
  else if negb (ap_score current =? ap_score candidate)
  then if ap_score current <? ap_score candidate then candidate else current
  else if negb (Bool.eqb (ap_sortCompatible current) (ap_sortCompatible candidate))
  then if ap_sortCompatible candidate then candidate else current
  else
    let currentWork := queryPlanWork current in
    let candidateWork := queryPlanWork candidate in
    if negb (currentWork =? candidateWork) then if candidateWork <? currentWork then candidate else current
    else if negb (zlen (ap_sources current) =? zlen (ap_sources candidate))
    then if zlen (ap_sources candidate) <? zlen (ap_sources current) then candidate else current
    else if bltb (queryPlanSignature candidate) (queryPlanSignature current) then candidate else current.

(** ** Plans of one condition *)

(** The equality prefix of [indexSortCompatible]; [None] when a value has no key. *)
Fixpoint equality_prefix (e : expr) (fields : list IndexField) : option nat :=
  match fields with
  | [] => Some O
  | f :: fields =>
      match equalityCandidate e (Path f) with
      | None => Some O
      | Some v =>
          match encodeIndexKey v with
          | Err _ => None
          | Ok _ => let? n := equality_prefix e fields in Some (S n)
          end
      end
  end.

Fixpoint sort_follows (sort : list SortField) (fields : list IndexField) : bool :=
  match sort, fields with
  | [], _ => true
  | s :: sort, f :: fields =>
      beqb (sf_path s) (Path f) && (sf_direction s =? 1) && (Order f =? 1) && sort_follows sort fields
  | _ :: _, [] => false
  end.

Definition indexSortCompatible (definition : IndexDefinition) (query : QuerySpec) : bool :=
  if zlen (q_sort query) =? 0 then false
  else
    let fields := indexDefinitionFields definition in
    match equality_prefix (q_where query) fields with
    | None => false
    | Some prefix =>
        if (prefix =? 0)%nat || (length fields <? prefix + length (q_sort query))%nat then false
        else sort_follows (q_sort query) (drop prefix fields)
    end.

Definition normalizedSingleSourcePlan (source : queryPlanSource) (score : Z) (query : QuerySpec) : queryAccessPlan :=
  let empty := (zlen (ps_ids source) =? 0) && (zlen (ps_spans source) =? 0) in
  plan_of true empty (if empty then emptyAccessScore else score)
    (negb (ps_primary source) && indexSortCompatible (ps_definition source) query) [source].

Definition ids_of (values : list value) : option (list bytes) :=
  all_some (fun v => match v with VID id => Some [id] | _ => None end) values.

Definition primaryQueryAccessPlan (e : expr) : queryAccessPlan :=
  match indexValuesCandidate e id_field with
  | None => no_plan
  | Some values =>
      match ids_of values with
      | None => no_plan
      | Some ids =>
          let empty := zlen ids =? 0 in
          plan_of true empty (chooseAccessScore empty primaryAccessScore) false
            [mk_source true id_definition ids [] [values_bound id_field values]]
      end
  end.

(** The spans of single keys; [None] when a key has no end. *)
Fixpoint exact_spans (candidates : list encodedIndexValueCandidate) : option (list indexScanSpan) :=
  match candidates with
  | [] => Some []
  | c :: candidates =>
      let fin := indexKeyPrefixEnd (ec_key c) in
      if beqb fin [] then None
      else let? rest := exact_spans candidates in Some (mk_span (ec_key c) fin true :: rest)
  end.

Definition compoundQueryAccessPlan (e : expr) (definition : IndexDefinition) (query : QuerySpec) : queryAccessPlan :=
  let score := indexQueryScore definition e in
  match compoundIndexQueryBounds definition e with
  | Some (start, fin, exact) =>
      if negb exact && (zlen start =? 0) && (zlen fin =? 0) then no_plan
      else normalizedSingleSourcePlan
             (mk_source false definition [] [mk_span start fin exact] (explainIndexBounds definition e)) score query
  | None =>
      match compoundIndexValueSpans definition e with
      | Some spans =>
          normalizedSingleSourcePlan (mk_source false definition [] spans (explainIndexBounds definition e)) score query
      | None => no_plan
      end
  end.

Definition rangeQueryAccessPlan (e : expr) (definition : IndexDefinition) (query : QuerySpec) : queryAccessPlan :=
  match rangeCandidate e (def_Field definition) with
  | None => no_plan
  | Some (lower, upper) =>
      match storageIndexBounds lower upper with
      | Err _ => no_plan
      | Ok valid =>
          let spans := match valid with Some (start, fin) => [mk_span start fin false] | None => [] end in
          let plan := normalizedSingleSourcePlan
            (mk_source false definition [] spans [explainRangeBound (def_Field definition) lower upper]) 1 query in
          match valid with
          | Some _ => plan
          | None => plan_of true true emptyAccessScore (ap_sortCompatible plan) (ap_sources plan)
          end
      end
  end.

Definition indexQueryAccessPlan (e : expr) (definition : IndexDefinition) (query : QuerySpec) : queryAccessPlan :=
  if usesCompoundIndexCodec definition then compoundQueryAccessPlan e definition query
  else
    match encodedIndexValuesCandidate e (def_Field definition) with
    | Some candidates =>
        match exact_spans candidates with
        | None => no_plan
        | Some spans =>
            normalizedSingleSourcePlan
              (mk_source false definition [] spans [values_bound (def_Field definition) (ec_value <$> candidates)]) 2 query
        end
    | None => rangeQueryAccessPlan e definition query
    end.

Definition directQueryAccessPlan (e : expr) (definitions : list IndexDefinition) (query : QuerySpec) : queryAccessPlan :=
  fold_left (fun best definition => betterQueryAccessPlan best (indexQueryAccessPlan e definition query))
    definitions (primaryQueryAccessPlan e).

(** ** Unions *)

(** An empty lower bound is below all keys, an empty upper bound above. *)
Definition compareLowerBounds (left right : bytes) : comparison :=
  match left, right with [], [] => Eq | [], _ => Lt | _, [] => Gt | _, _ => bcompare left right end.
Definition compareUpperBounds (left right : bytes) : comparison :=
  match left, right with [], [] => Eq | [], _ => Gt | _, [] => Lt | _, _ => bcompare left right end.

Definition is_lt (c : comparison) : bool := match c with Lt => true | _ => false end.

Definition span_before (left right : indexScanSpan) : bool :=
  match compareLowerBounds (sp_start left) (sp_start right) with
  | Eq => is_lt (compareUpperBounds (sp_end left) (sp_end right))
  | c => is_lt c
  end.

(** One turn of the merge: [last] is the last span of the result. *)
Definition merge_span (last span : indexScanSpan) : option indexScanSpan :=
  if beqb (sp_start last) (sp_start span) && beqb (sp_end last) (sp_end span)
  then Some (mk_span (sp_start last) (sp_end last) (sp_exact last && sp_exact span))
  else if (zlen (sp_end last) =? 0) || (zlen (sp_start span) =? 0) || bltb (sp_start span) (sp_end last)
  then Some (mk_span (sp_start last)
               (if negb (zlen (sp_end last) =? 0) && ((zlen (sp_end span) =? 0) || bltb (sp_end last) (sp_end span))
                then sp_end span else sp_end last) false)
  else None.

Fixpoint merge_spans (last : indexScanSpan) (spans : list indexScanSpan) : list indexScanSpan :=
  match spans with
  | [] => [last]
  | span :: spans =>
      match merge_span last span with
      | Some last => merge_spans last spans
      | None => last :: merge_spans span spans
      end
  end.

Definition normalizeIndexScanSpans (spans : list indexScanSpan) : list indexScanSpan :=
  match sort_stable span_before spans with [] => [] | first :: rest => merge_spans first rest end.

Fixpoint distinct_ids (seen ids : list bytes) : list bytes :=
  match ids with
  | [] => []
  | id :: ids => if existsb (beqb id) seen then distinct_ids seen ids else id :: distinct_ids (id :: seen) ids
  end.

(** The map [secondary], by name in the order of [sort.Strings]. *)
Fixpoint group_sources (sources : list queryPlanSource) (secondary : list (bytes * queryPlanSource)) : list (bytes * queryPlanSource) :=
  match sources with
  | [] => secondary
  | source :: sources =>
      if ps_primary source then group_sources sources secondary
      else
        let name := def_Name (ps_definition source) in
        let existing := match field secondary name with
                        | Some existing => existing
                        | None => mk_source false (cloneIndexDefinition (ps_definition source)) [] [] []
                        end in
        group_sources sources
          (ins name (mk_source false (ps_definition existing) [] (ps_spans existing ++ ps_spans source)
                       (ps_bounds existing ++ ps_bounds source)) secondary)
  end.

Definition normalized_source (source : queryPlanSource) : queryPlanSource :=
  mk_source (ps_primary source) (ps_definition source) (ps_ids source)
    (normalizeIndexScanSpans (ps_spans source)) (coalesceExplainBounds (ps_bounds source)).

Definition normalizeQueryAccessPlan (plan : queryAccessPlan) (query : QuerySpec) : queryAccessPlan :=
  if negb (ap_usable plan) then no_plan
  else
    let primaries := List.filter ps_primary (ap_sources plan) in
    let primary := mk_source true id_definition (distinct_ids [] (flat_map ps_ids primaries)) []
                     (coalesceExplainBounds (flat_map ps_bounds primaries)) in
    let secondary := normalized_source <$> (group_sources (ap_sources plan) []).*2 in
    let sources := match primaries with [] => secondary | _ => primary :: secondary end in
    let normalized := mk_plan true (ap_empty plan) (ap_score plan) false sources (ap_fallbackReason plan) (ap_unindexedPaths plan)
                        (ap_indexableConjunctPaths plan) (ap_compoundIndexOpportunity plan) in
    mk_plan true (ap_empty plan || queryPlanHasNoCandidates normalized) (ap_score plan)
      (match sources with
       | [source] => negb (ps_primary source) && indexSortCompatible (ps_definition source) query
       | _ => false
       end)
      sources (ap_fallbackReason plan) (ap_unindexedPaths plan) (ap_indexableConjunctPaths plan) (ap_compoundIndexOpportunity plan).

Definition directPlanFullyCoversOr (plan : queryAccessPlan) (definitions : list IndexDefinition) : bool :=
  match ap_sources plan with
  | [source] =>
      if negb (ap_usable plan) || ap_empty plan then ap_usable plan && ap_empty plan
      else if ps_primary source then true
      else
        (zlen (indexDefinitionFields (ps_definition source)) =? 1)
        && forallb (fun definition => zlen (indexDefinitionFields definition) <=? 1) definitions
        && negb (zlen (ps_spans source) =? 0)
        && forallb sp_exact (ps_spans source)
  | _ => ap_usable plan && ap_empty plan
  end.

(** The loop over conjuncts, which returns at a plan proven empty. *)
Definition best_of_all (f : expr -> queryAccessPlan) : list expr -> queryAccessPlan -> queryAccessPlan :=
  fix best_of_all children best := match children with
  | [] => best
  | child :: children =>
      let candidate := f child in
      if ap_usable candidate && ap_empty candidate then candidate
      else best_of_all children (betterQueryAccessPlan best candidate)
  end.

(** The loop over branches: the score and the sources of the union. *)
Definition union_of_all (f : expr -> queryAccessPlan) : list expr -> Z -> list queryPlanSource -> option (Z * list queryPlanSource) :=
  fix union_of_all children score sources := match children with
  | [] => Some (score, sources)
  | child :: children =>
      let candidate := f child in
      if negb (ap_usable candidate) then None
      else if ap_empty candidate then union_of_all children score sources
      else union_of_all children
             (if (score =? emptyAccessScore) || (ap_score candidate <? score) then ap_score candidate else score)
             (sources ++ ap_sources candidate)
  end.

Definition union_plan (union : option (Z * list queryPlanSource)) (query : QuerySpec) : queryAccessPlan :=
  match union with
  | None => no_plan
  | Some (_, []) => plan_of true true emptyAccessScore false []
  | Some (score, sources) => normalizeQueryAccessPlan (plan_of true false score false sources) query
  end.

Fixpoint bestQueryAccessPlan (definitions : list IndexDefinition) (query : QuerySpec) (e : expr) : queryAccessPlan :=
  let best := directQueryAccessPlan e definitions query in
  match e with
  | logicalExpr op args =>
      if beqb op op_and then best_of_all (bestQueryAccessPlan definitions query) args best
      else if beqb op op_or then
        if directPlanFullyCoversOr best definitions then best
        else
          let union := union_plan (union_of_all (bestQueryAccessPlan definitions query) args emptyAccessScore []) query in
          if ap_usable union then betterQueryAccessPlan best union else best
      else best
  | _ => best
  end.

(** ** Why no plan applies *)

Fixpoint collectPotentialIndexPaths (negated : bool) (e : expr) (paths : list bytes) : list bytes :=
  match e with
  | logicalExpr _ args => fold_left (fun paths child => collectPotentialIndexPaths negated child paths) args paths
  | notExpr arg => collectPotentialIndexPaths true arg paths
  | compareExpr cmp path _ =>
      if negb negated && negb (beqb path id_field) && (beqb cmp op_eq || range_op cmp) then see path paths else paths
  | membershipExpr op path _ =>
      if negb negated && negb (beqb path id_field) && beqb op op_in then see path paths else paths
  | _ => paths
  end.

Definition filterMissingLeadingIndexPaths (paths : list bytes) (definitions : list IndexDefinition) : list bytes :=
  sort_strings (List.filter (fun path =>
    negb (existsb (fun definition =>
      match indexDefinitionFields definition with f :: _ => beqb (Path f) path | [] => false end) definitions)) paths).

Definition missingPotentialIndexPaths (e : expr) (definitions : list IndexDefinition) : list bytes :=
  filterMissingLeadingIndexPaths (collectPotentialIndexPaths false e []) definitions.

(** The branches without a plan, and the paths they could use. *)
Definition missing_branches (definitions : list IndexDefinition) (query : QuerySpec) (args : list expr) : list expr :=
  List.filter (fun child => negb (ap_usable (bestQueryAccessPlan definitions query child))) args.

Fixpoint unindexedOrBranchPaths (definitions : list IndexDefinition) (query : QuerySpec) (e : expr) : option (list bytes) :=
  match e with
  | logicalExpr op args =>
      let missing := if beqb op op_or then missing_branches definitions query args else [] in
      match missing with
      | [] => first_some (unindexedOrBranchPaths definitions query) args
      | _ => Some (filterMissingLeadingIndexPaths
                     (fold_left (fun paths child => collectPotentialIndexPaths false child paths) missing []) definitions)
      end
  | _ => None
  end.

Definition classifyQueryPlanFallback (e : expr) (definitions : list IndexDefinition) (query : QuerySpec) : bytes * list bytes :=
  match e with
  | trueExpr => (bs "unfiltered", [])
  | _ =>
      match unindexedOrBranchPaths definitions query e with
      | Some paths => (bs "unindexed_or_branch", paths)
      | None =>
          let paths := missingPotentialIndexPaths e definitions in
          if zlen definitions =? 0 then (bs "no_secondary_indexes", paths) else (bs "no_usable_index", paths)
      end
  end.

(** ** The plan of a query *)

Definition definition_before (left right : IndexDefinition) : bool := bltb (def_Name left) (def_Name right).

Definition selectQueryAccessPlan (e : expr) (definitions : list IndexDefinition) (query : QuerySpec) : queryAccessPlan :=
  let cloned := sort_stable definition_before (cloneIndexDefinition <$> definitions) in
  let selected := bestQueryAccessPlan cloned query e in
  if ap_usable selected then selected
  else
    let '(reason, paths) := classifyQueryPlanFallback e cloned query in
    mk_plan (ap_usable selected) (ap_empty selected) (ap_score selected) (ap_sortCompatible selected) (ap_sources selected)
      reason paths (ap_indexableConjunctPaths selected) (ap_compoundIndexOpportunity selected).

(** ** Opportunities for a compound index *)

Fixpoint flattenConjuncts (e : expr) : list expr :=
  match e with
  | logicalExpr op args => if beqb op op_and then flat_map flattenConjuncts args else [e]
  | _ => [e]
  end.

Definition directIndexablePredicatePath (e : expr) : option bytes :=
  match e with
  | compareExpr cmp path _ => if beqb cmp op_eq || range_op cmp then Some path else None
  | membershipExpr op path _ => if beqb op op_in then Some path else None
  | _ => None
  end.

Definition independentlyIndexableConjunctPaths (e : expr) (definitions : list IndexDefinition) (query : QuerySpec) : list bytes :=
  sort_strings (fold_left (fun paths conjunct =>
    match directIndexablePredicatePath conjunct with
    | None => paths
    | Some path =>
        if beqb path id_field then paths
        else
          let candidate := directQueryAccessPlan conjunct definitions query in
          if negb (ap_usable candidate) || ap_empty candidate || negb (zlen (ap_sources candidate) =? 1) then paths
          else see path paths
    end) (flattenConjuncts e) []).

Fixpoint constrained_fields (e : expr) (fields : list IndexField) : list bytes :=
  match fields with
  | [] => []
  | f :: fields =>
      match indexValuesCandidate e (Path f) with
      | Some values => Path f :: (if zlen values =? 1 then constrained_fields e fields else [])
      | None => match rangeCandidate e (Path f) with Some _ => [Path f] | None => [] end
      end
  end.

Definition selectedSourceConstrainedPaths (source : queryPlanSource) (e : expr) : list bytes :=
  if ps_primary source then [id_field] else constrained_fields e (indexDefinitionFields (ps_definition source)).

Definition annotateQueryAccessPlan (plan : queryAccessPlan) (e : expr) (definitions : list IndexDefinition)
    (query : QuerySpec) : queryAccessPlan :=
  if negb (ap_usable plan) || ap_empty plan then plan
  else
    let paths := independentlyIndexableConjunctPaths e definitions query in
    if zlen paths <? 2 then plan
    else
      let opportunity :=
        match ap_sources plan with
        | [source] =>
            if ps_primary source || def_Unique (ps_definition source) then false
            else
              let covered := selectedSourceConstrainedPaths source e in
              existsb (fun path => negb (existsb (beqb path) covered)) paths
        | _ => false
        end in
      mk_plan (ap_usable plan) (ap_empty plan) (ap_score plan) (ap_sortCompatible plan) (ap_sources plan)
        (ap_fallbackReason plan) (ap_unindexedPaths plan) paths
        (if opportunity then true else ap_compoundIndexOpportunity plan).

(** [queryAccessPlanReason]. *)
Definition queryAccessPlanReason (plan : queryAccessPlan) : bytes :=
  if ap_empty plan then bs "empty_index_result"
  else
    match ap_sources plan with
    | [] => bs "empty_index_result"
    | [source] =>
        if ps_primary source then if 1 <? zlen (ps_ids source) then bs "primary_union" else bs "primary_lookup"
        else if 1 <? zlen (ps_spans source) then bs "index_union" else bs "secondary_index"
    | _ => bs "multi_index_union"
    end.
