(* ===== verification/PlanIntervals.v ===== *)
(** * Keys and the intervals that hold them

    The end of a prefix, the keys of scalars whatever follows them, and the
    order of query comparisons as the order of index keys; what the ranges built
    from conditions hold, and how ranges are sorted and merged. *)
From S2P Require Import Prelude Bytes Strings Entries Float64 Values IndexKey CompoundKey Documents Query Orders.
From S2P Require Import IndexDefinitions QueryPlan.

(** ** The end of a prefix *)

Lemma prefix_end_app r b :
  prefix_end (r ++ [b]) =
  match prefix_end r with
  | [] => if b2z b =? 0xff then [] else [z2b (b2z b + 1)]
  | e => b :: e
  end.
Proof.
  induction r as [|x r IH]; cbn [app prefix_end].
  - by destruct (b2z b =? 0xff).
  - destruct (b2z x =? 0xff); [done|]. cbn [rev]. rewrite rev_app_distr.
    by destruct (rev r) eqn:E.
Qed.

Lemma indexKeyPrefixEnd_cons b key :
  indexKeyPrefixEnd (b :: key) =
  match indexKeyPrefixEnd key with
  | [] => if b2z b =? 0xff then [] else [z2b (b2z b + 1)]
  | e => b :: e
  end.
Proof. unfold indexKeyPrefixEnd. cbn [rev]. apply prefix_end_app. Qed.

Lemma b2z_next b : b2z b <> 0xff -> b2z (z2b (b2z b + 1)) = b2z b + 1.
Proof. intros Hb. pose proof (b2z_range b). rewrite b2z_z2b. apply Z.mod_small. lia. Qed.

(** The keys with a prefix are below its end. *)
Lemma below_prefix_end key rest : indexKeyPrefixEnd key = [] \/ blt (key ++ rest) (indexKeyPrefixEnd key).
Proof.
  induction key as [|b key IH]; [by left|]. rewrite indexKeyPrefixEnd_cons.
  destruct (indexKeyPrefixEnd key) as [|e0 e] eqn:E.
  - destruct (Z.eqb_spec (b2z b) 0xff) as [|Hb]; [by left|right].
    pose proof (b2z_range b). unfold blt. cbn [app bcompare]. rewrite b2z_next by done.
    by destruct (Z.compare_spec (b2z b) (b2z b + 1)); [lia| |lia].
  - right. destruct IH as [?|IH]; [done|]. unfold blt in *. cbn [app bcompare]. by rewrite Z.compare_refl.
Qed.

(** A greater key has the prefix or is not below its end. *)
Lemma above_prefix_end key w :
  blt key w -> (exists rest, w = key ++ rest) \/
  (indexKeyPrefixEnd key <> [] /\ bcompare (indexKeyPrefixEnd key) w <> Gt).
Proof.
  revert w; induction key as [|b key IH]; intros w; [intros _; left; by exists w|].
  destruct w as [|c w]; [done|]. unfold blt. cbn [bcompare]. rewrite indexKeyPrefixEnd_cons.
  pose proof (b2z_range b). pose proof (b2z_range c).
  destruct (Z.compare_spec (b2z b) (b2z c)) as [Hbc|Hbc|Hbc]; intros Hlt; [|right|done].
  - apply b2z_inj in Hbc as <-. destruct (IH w Hlt) as [[rest ->]|[He Hc]]; [left; by exists rest|right].
    destruct (indexKeyPrefixEnd key) as [|e0 e] eqn:E; [done|]. split; [done|]. cbn [bcompare]. by rewrite Z.compare_refl.
  - destruct (indexKeyPrefixEnd key) as [|e0 e] eqn:E.
    + destruct (Z.eqb_spec (b2z b) 0xff); [lia|]. split; [done|]. cbn [bcompare]. rewrite b2z_next by done.
      destruct (Z.compare_spec (b2z b + 1) (b2z c)); [|done|lia]. by destruct w.
    + split; [done|]. cbn [bcompare]. by destruct (Z.compare_spec (b2z b) (b2z c)); [lia| |lia].
Qed.

(** ** Scalar keys are prefix free *)

Lemma bcompare_scalar_key_app a b x y :
  indexable a -> indexable b ->
  bcompare (scalar_key a ++ x) (scalar_key b ++ y) =
  match scalar_order a b with Eq => bcompare x y | c => c end.
Proof.
  intros Ha Hb.
  assert (Hnum : forall a b, numeric a -> numeric b ->
    bcompare ((z2b 0x30 :: numeric_body (exact_number a)) ++ x)
             ((z2b 0x30 :: numeric_body (exact_number b)) ++ y) =
    match exact_number a ?= exact_number b with Eq => bcompare x y | c => c end).
  { intros v w Hv Hw. cbn [bcompare app]. rewrite Z.compare_refl.
    by apply bcompare_numeric_body; apply exact_number_bound. }
  assert (Hesc : forall t s1 s2,
    bcompare ((t :: escapeBody s1 ++ [x00; x00]) ++ x) ((t :: escapeBody s2 ++ [x00; x00]) ++ y) =
    match bcompare s1 s2 with Eq => bcompare x y | c => c end).
  { intros. cbn [bcompare app]. rewrite Z.compare_refl. apply bcompare_escaped. }
  unfold scalar_order.
  destruct a as [|[]|i|f|s|u|t|a|d|id], b as [|[]|i'|f'|s'|u'|t'|a'|d'|id'];
    try (by destruct Ha as (_ & ? & _)); try (by destruct Hb as (_ & ? & _));
    try reflexivity; cbn [Kind valueKindRank Z.compare Pos.compare Pos.compare_cont].
  - apply Hnum; apply indexable_numeric; auto.
  - apply Hnum; apply indexable_numeric; auto.
  - apply Hnum; apply indexable_numeric; auto.
  - apply Hnum; apply indexable_numeric; auto.
  - apply Hesc.
  - apply Hesc.
  - cbn [scalar_key bcompare app]. rewrite Z.compare_refl.
    destruct Ha as (Ht & _), Hb as (Ht' & _). cbn in Ht, Ht'. unfold i64 in *.
    rewrite bcompare_app_len by (by rewrite !length_be_enc).
    rewrite bcompare_be_enc by (change (256 ^ Z.of_nat 8) with (2 ^ 64); lia).
    replace (t + 2 ^ 63 ?= t' + 2 ^ 63) with (t ?= t'); [done|].
    destruct (Z.compare_spec t t'); symmetry;
      [apply Z.compare_eq_iff|apply Z.compare_lt_iff|apply Z.compare_gt_iff]; lia.
  - cbn [scalar_key bcompare app]. rewrite Z.compare_refl.
    destruct Ha as (Ht & _), Hb as (Ht' & _). cbn in Ht, Ht'. unfold zlen in *. apply bcompare_app_len. lia.
Qed.

Lemma scalar_order_refl a : indexable a -> scalar_order a a = Eq.
Proof. intros Ha. rewrite <- bcompare_scalar_key by done. apply bcompare_refl. Qed.

Lemma scalar_order_antisym a b : indexable a -> indexable b -> scalar_order b a = CompOpp (scalar_order a b).
Proof. intros Ha Hb. rewrite <- !bcompare_scalar_key by done. apply bcompare_antisym. Qed.

(** Values the order does not tell apart have one key. *)
Lemma scalar_order_eq a b : indexable a -> indexable b -> scalar_order a b = Eq -> scalar_key a = scalar_key b.
Proof. intros Ha Hb H. apply bcompare_eq. by rewrite bcompare_scalar_key. Qed.

(** ** Encoding *)

Lemma encodeIndexKey_indexable v key : machine_ok v -> encodeIndexKey v = Ok key -> indexable v /\ key = scalar_key v.
Proof.
  intros Hm He. assert (Hi : indexable v).
  { split; [done|]. destruct v as [| | |f| | | | | |]; try done.
    unfold encodeIndexKey, appendIndexKey, appendNumericIndexKey, numericParts in He.
    unfold is_finite. by destruct (is_nan f || is_inf f). }
  split; [done|]. unfold encodeIndexKey in He. rewrite appendIndexKey_spec in He by done. by injection He as <-.
Qed.

Lemma encodeIndexKey_ok v : indexable v -> encodeIndexKey v = Ok (scalar_key v).
Proof. intros Hi. unfold encodeIndexKey. by rewrite appendIndexKey_spec. Qed.

(** ** Query comparisons on indexed values *)

Lemma finite_not_nan f : is_finite f = true -> is_nan f = false.
Proof. unfold is_finite. by destruct (is_nan f). Qed.

Lemma compareValues_order a b :
  indexable a -> indexable b -> sort_exact a b -> compareValues a b = Some (cmp_of (scalar_order a b)).
Proof.
  intros Ha Hb Hex.
  destruct a as [|x|i|f|s|y|t|l|d|id], b as [|x'|i'|f'|s'|y'|t'|l'|d'|id'];
    try (by destruct Ha as (_ & ? & _)); try (by destruct Hb as (_ & ? & _)); try reflexivity;
    try (by destruct x); try (by destruct x'); cbn [sort_exact] in Hex;
    unfold compareValues, scalar_order; cbn [compareNumeric Kind valueKindRank scalarKind negb orb kind_eqb kind_code Z.eqb Pos.eqb
      Z.compare Pos.compare Pos.compare_cont exact_number].
  - by destruct x, x'.
  - rewrite cmp_ltb. unfold int_scaled. rewrite <- Zmult_compare_compat_r; [done|]. apply Z.lt_gt, scale_pos.
  - by rewrite (compareIntFloat_compare _ _ Hex).
  - rewrite (compareIntFloat_compare _ _ Hex). cbn. by rewrite <- cmp_of_opp, <- Z.compare_antisym.
  - destruct Hex as [H1 H2]. unfold f64_ltb. rewrite H1, H2. cbn [negb andb]. by rewrite cmp_ltb.
  - by rewrite cmp_ltb.
Qed.

(** ** Sorting by a weak order *)

Section WeakOrder.
Context {A : Type} (c : A -> A -> comparison) `{!Lawful c} (less : A -> A -> bool).
Hypothesis Hless : forall a b, less a b = is_lt (c a b).

Definition not_above (a b : A) : Prop := c a b <> Gt.

Lemma not_above_trans a b d : not_above a b -> not_above b d -> not_above a d.
Proof.
  unfold not_above. destruct (c a b) eqn:E1; [by rewrite (law_eq a b d E1)| |done]. intros _ H2.
  destruct (c b d) eqn:E2; [|by rewrite (law_trans a b d E1 E2)|done].
  assert (E3 : c d b = Eq) by (by rewrite (law_opp (c := c) b d), E2).
  rewrite (law_opp (c := c) d a), (law_eq d b a E3), (law_opp (c := c) a b), E1. done.
Qed.

Lemma insert_stable_not_above x l :
  StronglySorted not_above l -> StronglySorted not_above (insert_stable less x l).
Proof.
  induction 1 as [|y l Hl IH Hy]; cbn; [by repeat constructor|]. rewrite Hless.
  destruct (c y x) eqn:E; cbn [is_lt].
  - assert (Hx : not_above x y) by (unfold not_above; by rewrite (law_opp (c := c) y x), E).
    constructor; [by constructor|]. constructor; [done|]. eapply Forall_impl; [exact Hy|]. intros z. by apply not_above_trans.
  - constructor; [done|]. rewrite Forall_forall in Hy |- *. intros z Hz.
    rewrite insert_stable_Permutation in Hz. apply elem_of_cons in Hz as [->|Hz]; [unfold not_above; by rewrite E|auto].
  - assert (Hx : not_above x y) by (unfold not_above; by rewrite (law_opp (c := c) y x), E).
    constructor; [by constructor|]. constructor; [done|]. eapply Forall_impl; [exact Hy|]. intros z. by apply not_above_trans.
Qed.

Lemma sort_stable_not_above l : StronglySorted not_above (sort_stable less l).
Proof. induction l as [|x l IH]; [constructor|]. by apply insert_stable_not_above. Qed.
End WeakOrder.

(** ** Spans *)

Definition in_span (key : bytes) (s : indexScanSpan) : Prop :=
  if sp_exact s then key = sp_start s
  else bcompare (sp_start s) key <> Gt /\ (sp_end s = [] \/ blt key (sp_end s)).

(** The interval of a span, its single key included. *)
Definition in_hull (key : bytes) (s : indexScanSpan) : Prop :=
  bcompare (sp_start s) key <> Gt /\ (sp_end s = [] \/ blt key (sp_end s)).

Definition span_ok (s : indexScanSpan) : Prop := sp_exact s = true -> sp_end s = [] \/ blt (sp_start s) (sp_end s).

Lemma in_span_hull key s : span_ok s -> in_span key s -> in_hull key s.
Proof.
  unfold span_ok, in_span, in_hull. destruct (sp_exact s); [|done]. intros Hs ->. rewrite bcompare_refl. auto.
Qed.

Lemma bcompare_trans a b d : bcompare a b <> Gt -> bcompare b d <> Gt -> bcompare a d <> Gt.
Proof. apply (not_above_trans bcompare). Qed.

Lemma blt_not_gt a b d : blt a b -> bcompare b d <> Gt -> blt a d.
Proof.
  intros H1 H2. destruct (bcompare b d) eqn:E; [apply bcompare_eq in E as <-; done| |done]. by transitivity b.
Qed.

Lemma bltb_false_le a b : bltb a b = false -> bcompare b a <> Gt.
Proof. intros H. rewrite (bcompare_antisym a b). unfold bltb in H. by destruct (bcompare a b). Qed.

Lemma compareLowerBounds_eq a b : compareLowerBounds a b = bcompare a b.
Proof. by destruct a, b. Qed.

Definition end_key (fin : bytes) : Z * bytes := (match fin with [] => 1 | _ => 0 end, fin).

Lemma compareUpperBounds_eq a b :
  compareUpperBounds a b = compare_lex (compare_on fst Z.compare) (compare_on snd bcompare) (end_key a) (end_key b).
Proof. by destruct a, b. Qed.

Definition span_order : indexScanSpan -> indexScanSpan -> comparison :=
  compare_lex (compare_on sp_start bcompare)
    (compare_on (fun s => end_key (sp_end s)) (compare_lex (compare_on fst Z.compare) (compare_on snd bcompare))).

#[export] Instance lawful_span : Lawful span_order.
Proof. unfold span_order. apply _. Qed.

Lemma span_before_order a b : span_before a b = is_lt (span_order a b).
Proof.
  unfold span_before, span_order, compare_lex at 1, compare_on at 1.
  rewrite compareLowerBounds_eq. destruct (bcompare _ _); [|done..]. by rewrite compareUpperBounds_eq.
Qed.

Lemma zlen_is_nil {A} (l : list A) : (zlen l =? 0) = match l with [] => true | _ => false end.
Proof. destruct l; [done|]. rewrite zlen_cons. pose proof (zlen_nonneg l). apply Z.eqb_neq. lia. Qed.

(** A merged span holds the keys of both, and starts where the first does. *)
Lemma merge_span_sound last span m key :
  span_ok last -> span_ok span -> bcompare (sp_start last) (sp_start span) <> Gt ->
  merge_span last span = Some m ->
  span_ok m /\ sp_start m = sp_start last /\ (in_span key last \/ in_span key span -> in_span key m).
Proof.
  intros Hl Hs Hle. unfold merge_span.
  destruct (beqb (sp_start last) (sp_start span)) eqn:E1, (beqb (sp_end last) (sp_end span)) eqn:E2; cbn [andb].
  1: { intros [= <-]. apply beqb_eq in E1, E2. split; [|split; [done|]].
    - unfold span_ok. cbn [sp_exact sp_start sp_end]. intros [He _]%andb_true_iff. by apply Hl.
    - destruct (sp_exact last) eqn:X1, (sp_exact span) eqn:X2;
        [unfold in_span; cbn [sp_exact sp_start andb]; rewrite X1, X2, E1; tauto|..];
        (intros [H|H]; [apply in_span_hull in H; [|done]|apply in_span_hull in H; [|done]]);
        unfold in_hull in H; unfold in_span; cbn [sp_exact sp_start sp_end andb];
        rewrite ?E1, ?E2 in *; done. }
  all: destruct (_ || _ || _) eqn:E3; [|done]; intros [= <-]; (split; [done|]; split; [done|]);
    unfold in_span at 3; cbn [sp_exact sp_start sp_end]; rewrite !zlen_is_nil.
  all: (intros [H|H]; apply in_span_hull in H; try done; destruct H as [H1 H2];
    (split; [done || by eapply bcompare_trans|])).
  all: destruct (sp_end last) as [|l0 l] eqn:El; [by left|]; cbn [negb andb];
    destruct (sp_end span) as [|s0 s] eqn:Es; [by left|]; cbn [orb];
    destruct (bltb (l0 :: l) (s0 :: s)) eqn:Elt; right; destruct H2 as [H2|H2]; try done.
  all: try (apply bltb_lt in Elt; by transitivity (l0 :: l)).
  all: eapply blt_not_gt; [done|by apply bltb_false_le].
Qed.

Lemma merge_spans_sound key spans last :
  span_ok last -> Forall span_ok spans -> StronglySorted (fun a b => bcompare (sp_start a) (sp_start b) <> Gt) (last :: spans) ->
  Exists (in_span key) (last :: spans) -> Exists (in_span key) (merge_spans last spans).
Proof.
  revert last; induction spans as [|s spans IH]; intros last Hl Hok Hsort Hex; [done|]. cbn [merge_spans].
  apply Forall_cons in Hok as [Hs Hok]. apply StronglySorted_inv in Hsort as [Hsort Hle].
  destruct (merge_span last s) as [m|] eqn:Em.
  - apply Forall_cons in Hle as [Hle1 Hle]. apply StronglySorted_inv in Hsort as [Hsort Hle2].
    destruct (merge_span_sound last s m key Hl Hs Hle1 Em) as (Hm & Hms & Hin).
    apply IH; [done..| |].
    + constructor; [done|]. by rewrite Hms.
    + rewrite !Exists_cons in Hex. rewrite Exists_cons. tauto.
  - rewrite Exists_cons in Hex |- *. destruct Hex as [Hex|Hex]; [by left|right]. by apply IH.
Qed.

Lemma normalizeIndexScanSpans_sound key spans :
  Forall span_ok spans -> Exists (in_span key) spans -> Exists (in_span key) (normalizeIndexScanSpans spans).
Proof.
  intros Hok Hex. unfold normalizeIndexScanSpans.
  pose proof (sort_stable_Permutation span_before spans) as Hp.
  pose proof (sort_stable_not_above span_order span_before span_before_order spans) as Hsort.
  rewrite <- Hp in Hok, Hex. destruct (sort_stable span_before spans) as [|s rest]; [by apply Exists_nil in Hex|].
  apply Forall_cons in Hok as [Hs Hok]. apply merge_spans_sound; [done..| |done].
  clear -Hsort. induction Hsort as [|a l Hl IH Ha]; constructor; [done|]. eapply Forall_impl; [exact Ha|].
  intros b H E. apply H. unfold span_order, compare_lex at 1, compare_on at 1. by rewrite E.
Qed.

Lemma merge_span_ok last span m : span_ok last -> merge_span last span = Some m -> span_ok m.
Proof.
  intros Hl. unfold merge_span. destruct (_ && beqb (sp_end last) _).
  - intros [= <-]. unfold span_ok in *. cbn [sp_exact sp_start sp_end]. intros [He _]%andb_true_iff. by apply Hl.
  - destruct (_ || _ || _); [|done]. by intros [= <-].
Qed.

Lemma normalizeIndexScanSpans_ok spans : Forall span_ok spans -> Forall span_ok (normalizeIndexScanSpans spans).
Proof.
  intros H. unfold normalizeIndexScanSpans. rewrite <- (sort_stable_Permutation span_before) in H.
  destruct (sort_stable span_before spans) as [|last rest]; [constructor|]. apply Forall_cons in H as [Hl H].
  revert last Hl; induction H as [|s rest Hs H IH]; intros last Hl; cbn [merge_spans]; [by constructor|].
  destruct (merge_span last s) as [m|] eqn:E; [|constructor; [done|by apply IH]].
  apply IH. by apply (merge_span_ok last s).
Qed.

(** ** What a filter says of an indexed document

    The candidate values and ranges a filter puts on a path hold of every
    document that satisfies it, and so its keys lie in the intervals they give. *)
(** ** The operands a plan reads *)

Fixpoint operands (e : expr) : list value :=
  match e with
  | compareExpr _ _ v => [v]
  | membershipExpr _ _ values => values
  | logicalExpr _ args => flat_map operands args
  | _ => []
  end.

Fixpoint range_operands (e : expr) : list (bytes * value) :=
  match e with
  | compareExpr cmp path v => if range_op cmp then [(path, v)] else []
  | logicalExpr _ args => flat_map range_operands args
  | _ => []
  end.

(** Every operand is a value of Go's, and every range compares the field of the
    document with its bound exactly. *)
Record comparable (d : document) (e : expr) : Prop := {
  operands_ok : Forall machine_ok (operands e);
  ranges_exact : Forall (fun pv => forall v, lookupInternal d pv.1 = Some v -> sort_exact v pv.2) (range_operands e) }.

Lemma Forall_flat_map {A B} (P : B -> Prop) (f : A -> list B) l :
  Forall P (flat_map f l) <-> Forall (fun a => Forall P (f a)) l.
Proof.
  induction l as [|a l IH]; cbn; [by rewrite !Forall_nil|]. by rewrite Forall_app, Forall_cons, IH.
Qed.

Lemma comparable_args d op args : comparable d (logicalExpr op args) -> Forall (comparable d) args.
Proof.
  intros [H1 H2]. cbn [operands range_operands] in *. rewrite Forall_flat_map in H1. rewrite Forall_flat_map in H2.
  rewrite Forall_forall in *. intros a Ha. split; auto.
Qed.

(** ** Searches *)

Lemma first_some_spec {A B} (f : A -> option B) l b : first_some f l = Some b -> exists a, a ∈ l /\ f a = Some b.
Proof.
  induction l as [|a l IH]; cbn; [done|]. destruct (f a) as [b'|] eqn:E.
  - intros [= ->]. exists a. split; [left|done].
  - intros H. destruct (IH H) as (a' & Ha & Hf). exists a'. split; [by right|done].
Qed.

Lemma all_some_spec {A B} (f : A -> option (list B)) l bs :
  all_some f l = Some bs -> forall a, a ∈ l -> exists b, f a = Some b /\ b ⊆ bs.
Proof.
  revert bs; induction l as [|a l IH]; cbn [all_some]; intros bs H a' Ha; [by apply not_elem_of_nil in Ha|].
  destruct (f a) as [b|] eqn:E; [|done]. destruct (all_some f l) as [rest|]; [|done]. injection H as <-.
  apply elem_of_cons in Ha as [->|Ha].
  - exists b. split; [done|]. intros x Hx. apply elem_of_app. by left.
  - destruct (IH rest eq_refl a' Ha) as (b' & Hb & Hsub). exists b'. split; [done|]. intros x Hx. apply elem_of_app. right. auto.
Qed.

Lemma all_some_elem {A B} (f : A -> option (list B)) l bs x :
  all_some f l = Some bs -> x ∈ bs -> exists a b, a ∈ l /\ f a = Some b /\ x ∈ b.
Proof.
  revert bs; induction l as [|a l IH]; cbn [all_some]; intros bs H Hx.
  - injection H as <-. by apply not_elem_of_nil in Hx.
  - destruct (f a) as [b|] eqn:E; [|done]. destruct (all_some f l) as [rest|]; [|done]. injection H as <-.
    apply elem_of_app in Hx as [Hx|Hx]; [exists a, b; split; [left|done]|].
    destruct (IH rest eq_refl Hx) as (a' & b' & Ha & Hf & Hb). exists a', b'. split; [by right|done].
Qed.

Lemma Exists_subset {A} (P : A -> Prop) l1 l2 : l1 ⊆ l2 -> Exists P l1 -> Exists P l2.
Proof. rewrite !Exists_exists. intros H (x & Hx & HP). exists x. auto. Qed.

Lemma candidates_machine e path vs :
  indexValuesCandidateExpr e path = Some vs -> Forall machine_ok (operands e) -> Forall machine_ok vs.
Proof.
  revert vs; induction e as [| |op args IH| |cmp q w|op q ws| | | | |] using expr_nested_ind; intros vs He Hm; try done;
    cbn [indexValuesCandidateExpr operands] in *.
  - rewrite Forall_flat_map in Hm. rewrite Forall_forall in IH, Hm.
    destruct (beqb op op_and); [apply first_some_spec in He as (a & Ha & He); eauto|].
    destruct (beqb op op_or); [|done]. rewrite Forall_forall. intros x Hx.
    destruct (all_some_elem _ _ _ x He Hx) as (a & b & Ha & Hb & Hxb).
    specialize (IH a Ha b Hb (Hm a Ha)). rewrite Forall_forall in IH. auto.
  - destruct (_ && _); [|done]. by injection He as <-.
  - destruct (_ && _); [|done]. by injection He as <-.
Qed.

Section Document.
Context (d : document).
Hypothesis Hvalues : forall path v, lookupInternal d path = Some v -> machine_ok v.

(** The field at a path equals one of some values. *)
Definition field_among (path : bytes) (vs : list value) : Prop :=
  exists v, lookupInternal d path = Some v /\ Exists (field_is v) vs.

Lemma satisfies_all op args : op = bs "and" -> satisfies (logicalExpr op args) d -> Forall (fun a => satisfies a d) args.
Proof. intros -> H. cbn [satisfies] in H. rewrite decide_True in H by done. by apply all_of_Forall in H. Qed.

Lemma satisfies_any op args : op <> bs "and" -> satisfies (logicalExpr op args) d -> Exists (fun a => satisfies a d) args.
Proof. intros Hop H. cbn [satisfies] in H. rewrite decide_False in H by done. by apply any_of_Exists in H. Qed.

Lemma candidate_values e path vs :
  comparable d e -> satisfies e d -> indexValuesCandidateExpr e path = Some vs ->
  field_among path vs /\ Forall machine_ok vs.
Proof.
  revert vs; induction e as [| |op args IH| |cmp p w|op p ws| | | | |] using expr_nested_ind; intros vs Hc Hs He; try done;
    cbn [indexValuesCandidateExpr] in He.
  - pose proof (comparable_args _ _ _ Hc) as Hargs. rewrite Forall_forall in IH, Hargs.
    destruct (beqb op op_and) eqn:Eand; [|destruct (beqb op op_or) eqn:Eor; [|done]].
    + apply beqb_eq in Eand. apply first_some_spec in He as (a & Ha & He).
      pose proof (satisfies_all op args Eand Hs) as Hall. rewrite Forall_forall in Hall. apply (IH a Ha); auto.
    + apply beqb_eq in Eor. assert (Hne : op <> bs "and") by (by rewrite Eor).
      pose proof (satisfies_any op args Hne Hs) as Hany. rewrite Exists_exists in Hany. destruct Hany as (a & Ha & Hsa).
      split.
      * destruct (all_some_spec _ _ _ He a Ha) as (b & Hb & Hsub).
        destruct (IH a Ha b (Hargs a Ha) Hsa Hb) as [(v & Hv & Hex) _]. exists v. split; [done|]. by eapply Exists_subset.
      * rewrite Forall_forall. intros x Hx. destruct (all_some_elem _ _ _ x He Hx) as (a' & b & Ha' & Hb & Hxb).
        pose proof (candidates_machine a' path b Hb (operands_ok _ _ (Hargs a' Ha'))) as Hop. rewrite Forall_forall in Hop. auto.
  - destruct (beqb p path) eqn:Ep; [|done]. destruct (beqb cmp op_eq) eqn:Ec; [|done]. injection He as <-.
    apply beqb_eq in Ep as ->. apply beqb_eq in Ec as ->. cbn [satisfies] in Hs. split; [|apply Hc].
    destruct (lookupInternal d path) as [v|] eqn:Ev; [|done]. exists v. split; [done|]. left.
    unfold value_compares in Hs. by rewrite decide_True in Hs.
  - destruct (beqb p path) eqn:Ep; [|done]. destruct (beqb op op_in) eqn:Ec; [|done]. injection He as <-.
    apply beqb_eq in Ep as ->. apply beqb_eq in Ec as ->. cbn [satisfies] in Hs. split; [|apply Hc].
    destruct (lookupInternal d path) as [v|] eqn:Ev; [|done]. exists v. split; [done|].
    unfold value_among in Hs. by rewrite decide_True in Hs.
Qed.

Lemma equality_candidate e path w :
  comparable d e -> satisfies e d -> equalityCandidate e path = Some w ->
  machine_ok w /\ exists v, lookupInternal d path = Some v /\ field_is v w.
Proof.
  induction e as [| |op args IH| |cmp p w'|op p ws| | | | |] using expr_nested_ind; intros Hc Hs He; try done;
    cbn [equalityCandidate] in He.
  - destruct (beqb op op_and) eqn:Eand; [|done]. apply beqb_eq in Eand. apply first_some_spec in He as (a & Ha & He).
    pose proof (comparable_args _ _ _ Hc) as Hargs. pose proof (satisfies_all op args Eand Hs) as Hall.
    rewrite Forall_forall in IH, Hargs, Hall. apply (IH a Ha); auto.
  - destruct (beqb p path) eqn:Ep; [|done]. destruct (beqb cmp op_eq) eqn:Ec; [|done]. injection He as <-.
    apply beqb_eq in Ep as ->. apply beqb_eq in Ec as ->. cbn [satisfies] in Hs.
    split; [pose proof (operands_ok _ _ Hc) as H; by apply Forall_cons in H as [H _]|].
    destruct (lookupInternal d path) as [v|] eqn:Ev; [|done]. exists v. split; [done|].
    unfold value_compares in Hs. by rewrite decide_True in Hs.
Qed.

(** ** Keys of values *)

Lemma f64_scaled_eqb a b : is_finite a = true -> is_finite b = true -> f64_eqb a b = true -> f64_scaled a = f64_scaled b.
Proof.
  intros Ha Hb. unfold f64_eqb. rewrite !finite_not_nan by done. cbn. by rewrite Z.eqb_eq.
Qed.

Lemma Equal_scalar v w : indexable v -> indexable w -> Equal v w = true -> scalar_order v w = Eq.
Proof.
  intros Hv Hw.
  destruct v as [|x|i|f|s|y|t|l|o|id], w as [|x'|i'|f'|s'|y'|t'|l'|o'|id'];
    try (by destruct Hv as (_ & ? & _)); try (by destruct Hw as (_ & ? & _)); try done;
    unfold scalar_order; cbn [Equal Kind kind_eqb kind_code Z.eqb Pos.eqb compareNumeric valueKindRank
      Z.compare Pos.compare Pos.compare_cont exact_number].
  - by destruct x, x'.
  - intros ->%Z.eqb_eq. apply Z.compare_refl.
  - destruct Hv as (Hi & _), Hw as (_ & _ & Hf). cbn in Hi.
    destruct (compareIntFloat_zero i f' Hi (finite_not_nan _ Hf)) as (c & -> & Hc).
    intros H%Z.eqb_eq. apply Z.compare_eq_iff. by apply Hc.
  - destruct Hw as (Hi & _), Hv as (_ & _ & Hf). cbn in Hi.
    destruct (compareIntFloat_zero i' f Hi (finite_not_nan _ Hf)) as (c & -> & Hc).
    cbn. intros H%Z.eqb_eq. apply Z.compare_eq_iff. symmetry. apply Hc. lia.
  - intros H. apply Z.compare_eq_iff. destruct Hv as (_ & _ & Hv), Hw as (_ & _ & Hw). by apply f64_scaled_eqb.
  - intros ->%beqb_eq. apply bcompare_refl.
  - intros ->%beqb_eq. apply bcompare_refl.
  - intros ->%Z.eqb_eq. apply Z.compare_refl.
  - intros ->%beqb_eq. apply bcompare_refl.
Qed.

(** An indexed field that equals a candidate has its key. *)
Lemma field_is_key v w : indexable v -> indexable w -> field_is v w -> scalar_key v = scalar_key w.
Proof.
  intros Hv Hw Hf. apply scalar_order_eq; [done..|]. apply Equal_scalar; [done..|].
  destruct v; try done. by destruct Hv as (_ & ? & _).
Qed.

Lemma encode_values_spec seen vs cs :
  encode_values seen vs = Some cs ->
  Forall (fun c => ec_value c ∈ vs /\ encodeIndexKey (ec_value c) = Ok (ec_key c)) cs /\
  forall v, v ∈ vs -> exists key, encodeIndexKey v = Ok key /\ (key ∈ seen \/ exists c, c ∈ cs /\ ec_key c = key).
Proof.
  revert seen cs; induction vs as [|w vs IH]; intros seen cs; cbn [encode_values].
  - intros [= <-]. split; [constructor|]. intros v Hv. by apply not_elem_of_nil in Hv.
  - destruct (encodeIndexKey w) as [key|] eqn:Ew; [|done]. destruct (existsb (beqb key) seen) eqn:Es.
    + intros He. destruct (IH _ _ He) as [H1 H2]. split.
      * eapply Forall_impl; [exact H1|]. intros c [Hc1 Hc2]. split; [by right|done].
      * intros v Hv. apply elem_of_cons in Hv as [->|Hv]; [|by apply H2]. exists key. split; [done|]. left.
        apply existsb_exists in Es as (x & Hx & E). apply beqb_eq in E as ->. by apply list_elem_of_In.
    + destruct (encode_values (key :: seen) vs) as [rest|] eqn:Er; [|done]. intros [= <-].
      destruct (IH _ _ Er) as [H1 H2]. split.
      * constructor; [split; [left|done]|]. eapply Forall_impl; [exact H1|]. intros c [Hc1 Hc2]. split; [by right|done].
      * intros v Hv. apply elem_of_cons in Hv as [->|Hv].
        -- exists key. split; [done|]. right. exists (mk_encoded w key). split; [left|done].
        -- destruct (H2 v Hv) as (k & Hk & [Hin|(c & Hc & E)]); exists k; (split; [done|]).
           ++ apply elem_of_cons in Hin as [->|Hin]; [|by left]. right. exists (mk_encoded w key). split; [left|done].
           ++ right. exists c. split; [by right|done].
Qed.

(** An indexed field of a satisfying document has the key of some candidate. *)
Lemma encoded_candidates e path cs :
  comparable d e -> satisfies e d -> encodedIndexValuesCandidate e path = Some cs ->
  Forall (fun c => indexable (ec_value c) /\ ec_key c = scalar_key (ec_value c)) cs /\
  exists v, lookupInternal d path = Some v /\
    (indexable v -> exists c, c ∈ cs /\ scalar_key v = ec_key c).
Proof.
  intros Hc Hs. unfold encodedIndexValuesCandidate. destruct (indexValuesCandidateExpr e path) as [vs|] eqn:Ei; [|done].
  cbn [obind]. intros He. destruct (encode_values_spec _ _ _ He) as [H1 H2].
  destruct (candidate_values e path vs Hc Hs Ei) as [(v & Hv & Hex) Hm]. split.
  - eapply Forall_impl; [exact H1|]. intros c [Hin Hk]. rewrite Forall_forall in Hm. by apply encodeIndexKey_indexable; [apply Hm|].
  - exists v. split; [done|]. intros Hi. apply Exists_exists in Hex as (w & Hw & Hf).
    destruct (H2 w Hw) as (key & Hk & [Hn|(c & Hcin & <-)]); [by apply not_elem_of_nil in Hn|].
    exists c. split; [done|]. rewrite Forall_forall in Hm. destruct (encodeIndexKey_indexable _ _ (Hm w Hw) Hk) as [Hiw ->].
    by apply field_is_key.
Qed.

Lemma index_candidate e path values :
  comparable d e -> satisfies e d -> indexValuesCandidate e path = Some values ->
  Forall indexable values /\
  exists v, lookupInternal d path = Some v /\ (indexable v -> exists w, w ∈ values /\ scalar_key v = scalar_key w).
Proof.
  intros Hc Hs. unfold indexValuesCandidate. destruct (encodedIndexValuesCandidate e path) as [cs|] eqn:E; [|done].
  cbn [obind]. intros [= <-]. destruct (encoded_candidates e path cs Hc Hs E) as (H1 & v & Hv & H2). split.
  - rewrite Forall_fmap. eapply Forall_impl; [exact H1|]. by intros c [? _].
  - exists v. split; [done|]. intros Hi. destruct (H2 Hi) as (c & Hin & ->). exists (ec_value c).
    rewrite Forall_forall in H1. split; [by apply list_elem_of_fmap_2|by apply H1].
Qed.

(** ** Ranges *)

(** The field at a path is on the right side of a bound. *)
Definition bound_ok (path : bytes) (inside : bool -> Z -> Prop) (b : indexBound) : Prop :=
  indexable (ib_value b) /\
  exists v, lookupInternal d path = Some v /\ sort_exact v (ib_value b) /\
    exists o, compareValues v (ib_value b) = Some o /\ inside (ib_inclusive b) o.

Definition above (inclusive : bool) (o : Z) : Prop := if inclusive then 0 <= o else 0 < o.
Definition below (inclusive : bool) (o : Z) : Prop := if inclusive then o <= 0 else o < 0.

Definition range_ok (path : bytes) (st : rangeState) : Prop :=
  (rs_found st = true -> exists v, lookupInternal d path = Some v) /\
  (forall b, rs_lower st = Some b -> bound_ok path above b) /\
  (forall b, rs_upper st = Some b -> bound_ok path below b).

Lemma add_bound_ok path cmp w st :
  range_op cmp = true -> satisfies (compareExpr cmp path w) d -> indexable w ->
  (forall v, lookupInternal d path = Some v -> sort_exact v w) ->
  range_ok path st -> range_ok path (add_bound cmp w st).
Proof.
  intros Hop Hs Hi Hex (H1 & H2 & H3). cbn [satisfies] in Hs.
  destruct (lookupInternal d path) as [v|] eqn:Ev; [|subst cmp; by vm_compute in Hop].
  assert (Hne : cmp <> bs "eq" /\ cmp <> bs "ne") by (split; intros ->; by vm_compute in Hop).
  unfold value_compares in Hs. rewrite !decide_False in Hs by apply Hne. destruct Hs as (o & Ho & Hs).
  unfold range_op in Hop. rewrite !orb_true_iff, !beqb_eq in Hop. unfold add_bound.
  destruct Hop as [[[-> | ->] | ->] | ->]; (split; [by exists v|]); cbn [rs_lower rs_upper];
    change (beqb _ _) with true || idtac.
  all: repeat match goal with |- context [beqb ?a ?b] => let r := eval vm_compute in (beqb a b) in change (beqb a b) with r end.
  all: cbn [orb rs_lower rs_upper].
  all: (split; intros b; [try apply H2|try apply H3]).
  all: destruct (replaces _ _ _); [intros [= <-]|auto].
  all: (split; [done|]; exists v; cbn [ib_value ib_inclusive]; split; [done|]; split; [auto|]; exists o; split; [done|]).
  all: cbn [above below]; repeat (rewrite decide_False in Hs by done); by rewrite ?decide_True in Hs by done.
Qed.

Lemma fold_some_ok {A S} (f : A -> S -> option S) (P : S -> Prop) l st st' :
  Forall (fun a => forall st st', P st -> f a st = Some st' -> P st') l ->
  P st -> fold_some f l st = Some st' -> P st'.
Proof.
  intros Hl. revert st; induction Hl as [|a l Ha Hl IH]; intros st Hst; cbn [fold_some]; [by intros [= <-]|].
  destruct (f a st) as [st1|] eqn:E; [|done]. cbn [obind]. apply IH. by apply (Ha st).
Qed.

Lemma visit_range_ok path e st st' :
  comparable d e -> satisfies e d -> range_ok path st -> visit_range path e st = Some st' -> range_ok path st'.
Proof.
  revert st st'; induction e as [| |op args IH| |cmp p w|op p ws| | | | |] using expr_nested_ind;
    intros st st' Hc Hs Hst; cbn [visit_range]; try (by intros [= <-]).
  - destruct (beqb op op_and) eqn:Eand; [|by intros [= <-]]. apply beqb_eq in Eand.
    pose proof (comparable_args _ _ _ Hc) as Hargs. pose proof (satisfies_all op args Eand Hs) as Hall.
    apply fold_some_ok; [|done]. rewrite Forall_forall in IH, Hargs, Hall |- *. intros a Ha st1 st2 H1 H2.
    apply (IH a Ha st1); auto.
  - destruct (beqb p path) eqn:Ep; [|by intros [= <-]]. destruct (range_op cmp) eqn:Eop; [|by intros [= <-]].
    cbn [negb orb]. apply beqb_eq in Ep as ->. destruct (encodeIndexKey w) as [key|] eqn:Ew; [|done]. intros [= <-].
    destruct Hc as [Hm Hr]. cbn [operands range_operands] in Hm, Hr. rewrite Eop in Hr. rewrite Forall_singleton in Hm. rewrite Forall_singleton in Hr.
    apply add_bound_ok; [done..| | |done].
    + by destruct (encodeIndexKey_indexable w key Hm Ew).
    + exact Hr.
Qed.

Lemma range_candidate e path lower upper :
  comparable d e -> satisfies e d -> rangeCandidate e path = Some (lower, upper) ->
  (exists v, lookupInternal d path = Some v) /\
  (forall b, lower = Some b -> bound_ok path above b) /\ (forall b, upper = Some b -> bound_ok path below b).
Proof.
  intros Hc Hs. unfold rangeCandidate. destruct (visit_range path e _) as [st|] eqn:E; [|done].
  assert (H : range_ok path st) by (apply (visit_range_ok path e (mk_range None None false)); done).
  destruct (rs_found st) eqn:Ef; [|done]. intros [= <- <-]. destruct H as (H1 & H2 & H3). auto.
Qed.

(** The comparison a bound makes, in the order of keys. *)
Lemma bound_order path v b inside :
  lookupInternal d path = Some v -> indexable v -> bound_ok path inside b ->
  inside (ib_inclusive b) (cmp_of (scalar_order v (ib_value b))).
Proof.
  intros Hv Hi (Hb & v' & Hv' & Hex & o & Ho & Hin). rewrite Hv in Hv'. injection Hv' as <-.
  rewrite compareValues_order in Ho by done. by injection Ho as <-.
Qed.

Lemma above_order path v b :
  lookupInternal d path = Some v -> indexable v -> bound_ok path above b ->
  scalar_order (ib_value b) v = Lt \/ (ib_inclusive b = true /\ scalar_order (ib_value b) v = Eq).
Proof.
  intros Hv Hi Hb. pose proof (bound_order path v b above Hv Hi Hb) as H. destruct Hb as (Hbi & _).
  rewrite (scalar_order_antisym v) by done. destruct (ib_inclusive b), (scalar_order v (ib_value b)); cbn in *; auto; lia.
Qed.

Lemma below_order path v b :
  lookupInternal d path = Some v -> indexable v -> bound_ok path below b ->
  scalar_order v (ib_value b) = Lt \/ (ib_inclusive b = true /\ scalar_order v (ib_value b) = Eq).
Proof.
  intros Hv Hi Hb. pose proof (bound_order path v b below Hv Hi Hb) as H.
  destruct (ib_inclusive b), (scalar_order v (ib_value b)); cbn in *; auto; lia.
Qed.

(** The interval of a range holds the key of the field, and so is not empty. *)
Lemma storage_bounds path v lower upper r :
  lookupInternal d path = Some v -> indexable v ->
  (forall b, lower = Some b -> bound_ok path above b) -> (forall b, upper = Some b -> bound_ok path below b) ->
  storageIndexBounds lower upper = Ok r ->
  exists start fin, r = Some (start, fin) /\ in_hull (scalar_key v) (mk_span start fin false).
Proof.
  intros Hv Hi Hl Hu. unfold storageIndexBounds, in_hull. cbn [sp_start sp_end].
  assert (Hstart : exists start, (match lower with
    | None => Ok (Some [])
    | Some lower => let* key := encodeIndexKey (ib_value lower) in
        if ib_inclusive lower then Ok (Some key)
        else match indexKeyPrefixEnd key with [] => Ok None | start => Ok (Some start) end end) = Ok (Some start) /\
    bcompare start (scalar_key v) <> Gt).
  { destruct lower as [b|]; [|exists []; split; [done|by destruct (scalar_key v)]].
    pose proof (Hl b eq_refl) as Hb. pose proof (above_order path v b Hv Hi Hb) as Ho. destruct Hb as (Hbi & _).
    rewrite encodeIndexKey_ok by done. cbn [rbind]. destruct (ib_inclusive b).
    - eexists. split; [done|]. rewrite bcompare_scalar_key by done. by destruct Ho as [-> |[_ ->]].
    - destruct Ho as [Ho|[]]; [|done].
      destruct (above_prefix_end (scalar_key (ib_value b)) (scalar_key v)) as [[rest Hr]|[Hne Hle]].
      + unfold blt. by rewrite bcompare_scalar_key.
      + exfalso. pose proof (bcompare_scalar_key_app (ib_value b) v rest [] Hbi Hi) as E.
        by rewrite Ho, app_nil_r, <- Hr, bcompare_refl in E.
      + destruct (indexKeyPrefixEnd _) as [|s0 s]; [done|]. by exists (s0 :: s). }
  destruct Hstart as (start & -> & Hstart). cbn [rbind].
  assert (Hfin : exists fin, (match upper with
    | None => Ok []
    | Some upper => let* key := encodeIndexKey (ib_value upper) in
        Ok (if ib_inclusive upper then indexKeyPrefixEnd key else key) end) = Ok fin /\
    (fin = [] \/ blt (scalar_key v) fin)).
  { destruct upper as [b|]; [|exists []; split; [done|by left]].
    pose proof (Hu b eq_refl) as Hb. pose proof (below_order path v b Hv Hi Hb) as Ho. destruct Hb as (Hbi & _).
    rewrite encodeIndexKey_ok by done. cbn [rbind]. eexists. split; [done|]. destruct (ib_inclusive b).
    - destruct (below_prefix_end (scalar_key (ib_value b)) []) as [?|Hp]; [by left|right]. rewrite app_nil_r in Hp.
      destruct Ho as [Ho|[_ Ho]].
      + transitivity (scalar_key (ib_value b)); [|done]. unfold blt. by rewrite bcompare_scalar_key.
      + by rewrite (scalar_order_eq v (ib_value b)).
    - right. destruct Ho as [Ho|[]]; [|done]. unfold blt. by rewrite bcompare_scalar_key. }
  destruct Hfin as (fin & -> & Hfin). cbn [rbind].
  assert (Hcheck : (0 <? zlen start) && (0 <? zlen fin) && negb (bltb start fin) = false).
  { destruct Hfin as [-> |Hfin]; [by rewrite andb_false_r|]. apply andb_false_iff. right. apply negb_false_iff.
    destruct (bltb start fin) eqn:E; [done|]. apply bltb_false_le in E. exfalso.
    assert (H : blt (scalar_key v) start) by (by eapply blt_not_gt). unfold blt in H.
    apply Hstart. by rewrite (bcompare_antisym (scalar_key v) start), H. }
  rewrite Hcheck. intros [= <-]. exists start, fin. auto.
Qed.
End Document.

(** ** The intervals of an index that a filter can reach

    The key a document has in an index lies in the intervals that
    [compoundIndexQueryBounds], [compoundIndexValueSpans], [storageIndexBounds]
    and the single keys of candidates give, when the document satisfies the
    filter. *)
Section Document.
Context (d : document).
Hypothesis Hvalues : forall path v, lookupInternal d path = Some v -> machine_ok v.

(** ** The key of a document *)

Definition directed (f : IndexField) : Prop := Order f = 1 \/ Order f = -1.

Lemma leading_values_spec fields vs complete :
  leading_values d fields = (vs, complete) ->
  Forall2 (fun f v => lookupInternal d (Path f) = Some v) (take (length vs) fields) vs /\
  (length vs <= length fields)%nat /\
  (if complete then length vs = length fields
   else exists f, fields !! length vs = Some f /\ lookupInternal d (Path f) = None).
Proof.
  revert vs complete; induction fields as [|f fields IH]; intros vs complete; cbn [leading_values].
  - intros [= <- <-]. by repeat constructor.
  - destruct (lookupInternal d (Path f)) as [v|] eqn:Ev.
    + destruct (leading_values d fields) as [vs' c'] eqn:El. intros [= <- <-].
      destruct (IH _ _ eq_refl) as (H1 & H2 & H3). cbn [length take lookup]. split; [by constructor|].
      split; [lia|]. destruct c'; [by rewrite H3|exact H3].
    + intros [= <- <-]. split; [constructor|]. split; [cbn; lia|]. by exists f.
Qed.

Lemma leading_machine fields vs complete : leading_values d fields = (vs, complete) -> Forall machine_ok vs.
Proof using Hvalues.
  intros H. destruct (leading_values_spec _ _ _ H) as (H1 & _ & _). clear -H1 Hvalues.
  induction H1; constructor; eauto.
Qed.

Lemma encodeScalars_orders fields vs out :
  length vs = length fields -> encodeScalars vs fields = Ok out -> Forall directed fields.
Proof.
  revert vs out; induction fields as [|f fields IH]; intros [|v vs] out Hl He; simplify_eq/=; [constructor|].
  destruct (Z.eqb_spec (Order f) 1), (Z.eqb_spec (Order f) (-1)); cbn [negb andb] in He; try done;
    inv_ok; (constructor; [unfold directed; lia|]); eapply IH; try done; lia.
Qed.

Lemma encodeCompoundIndexKey_orders fields vs key : encodeCompoundIndexKey vs fields = Ok key -> Forall directed fields.
Proof.
  unfold encodeCompoundIndexKey. destruct (Z.eqb_spec (zlen vs) 0); [done|].
  destruct (Z.eqb_spec (zlen vs) (zlen fields)) as [Hl|]; [|done]. cbn [negb orb].
  destruct (maxCompoundIndexFields <? zlen fields); [done|]. intros He. inv_ok.
  apply (encodeScalars_orders fields vs a); [|done]. unfold zlen in Hl. lia.
Qed.

(** The key of a document that has a value for the first field of a compound
    index: the components of the leading values, and what marks a partial key. *)
Lemma compound_document_key definition okey vs complete :
  usesCompoundIndexCodec definition = true -> indexDocumentKey definition d = Ok okey ->
  leading_values d (indexDefinitionFields definition) = (vs, complete) -> vs <> [] ->
  Forall indexable vs /\ Forall directed (take (length vs) (indexDefinitionFields definition)) /\
  exists tail, okey = Some (tuple_key (take (length vs) (indexDefinitionFields definition)) vs ++ tail) /\
    (complete = true -> tail = []).
Proof using Hvalues.
  intros Hcodec. unfold indexDocumentKey. intros Hkey Hl Hne.
  pose proof (leading_machine _ _ _ Hl) as Hm. destruct (leading_values_spec _ _ _ Hl) as (_ & _ & Hcomplete).
  destruct (zlen _ =? 0); [done|]. rewrite Hl, Hcodec in Hkey. rewrite zlen_is_nil in Hkey.
  destruct vs as [|v vs]; [done|]. cbn [negb orb] in Hkey. destruct complete; cbn [negb] in Hkey.
  - destruct (encodeCompoundIndexKey (v :: vs) _) as [key|] eqn:He; [|done]. injection Hkey as <-.
    pose proof (encodeCompoundIndexKey_orders _ _ _ He) as Hord.
    destruct (encodeCompoundIndexKey_spec _ _ _ Hm He) as (Hi & Hlen & _ & -> & _).
    rewrite Hcomplete, take_ge by lia. split; [done|]. split; [done|]. exists []. by rewrite app_nil_r.
  - destruct (Document_ID d) as [id|]; [|done]. destruct (all_zero id); [done|].
    destruct (encodeCompoundPartialIndexKey _ _ _) as [key|] eqn:He; [|done]. injection Hkey as <-.
    unfold encodeCompoundPartialIndexKey in He. destruct (_ || all_zero id); [done|].
    destruct (encodeCompoundIndexKey (v :: vs) _) as [base|] eqn:Hb; [|done]. cbn [rbind] in He.
    destruct (_ <? _); [done|]. injection He as <-.
    pose proof (encodeCompoundIndexKey_orders _ _ _ Hb) as Hord.
    destruct (encodeCompoundIndexKey_spec _ _ _ Hm Hb) as (Hi & Hlen & _ & -> & _).
    split; [done|]. split; [done|]. by eexists.
Qed.

(** The key in an index of one ascending field is that of the scalar. *)
Lemma single_document_key definition okey f v :
  usesCompoundIndexCodec definition = false -> indexDefinitionFields definition = [f] ->
  indexDocumentKey definition d = Ok okey -> lookupInternal d (Path f) = Some v ->
  indexable v /\ okey = Some (scalar_key v).
Proof using Hvalues.
  intros Hcodec Hf. unfold indexDocumentKey. rewrite Hf, Hcodec. cbn [zlen]. intros Hkey Hv.
  change (zlen [f] =? 0) with false in Hkey. cbn [leading_values] in Hkey. rewrite Hv in Hkey. cbn [negb] in Hkey.
  destruct (encodeIndexKey v) as [key|] eqn:He; [|done]. injection Hkey as <-.
  destruct (encodeIndexKey_indexable v key (Hvalues _ _ Hv) He) as [Hi ->]. done.
Qed.

(** ** Equalities on the leading fields *)

Lemma leading_equalities_ok e fields eqs vs complete :
  comparable d e -> satisfies e d -> leading_equalities e fields = Some eqs ->
  leading_values d fields = (vs, complete) -> Forall indexable vs ->
  Forall indexable eqs /\ exists vs1 vs2, vs = vs1 ++ vs2 /\ scalar_key <$> vs1 = scalar_key <$> eqs.
Proof using Hvalues.
  intros Hc Hs. revert eqs vs complete; induction fields as [|f fields IH]; intros eqs vs complete; cbn [leading_equalities leading_values].
  - intros [= <-] [= <- <-] _. split; [constructor|]. by exists [], [].
  - destruct (equalityCandidate e (Path f)) as [w|] eqn:Ew.
    2: { intros [= <-] _ _. split; [constructor|]. by exists [], vs. }
    destruct (encodeIndexKey w) as [key|] eqn:Ek; [|done].
    destruct (leading_equalities e fields) as [rest|] eqn:Er; [|done]. cbn [obind]. intros [= <-].
    destruct (equality_candidate d e (Path f) w Hc Hs Ew) as (Hmw & v & Hv & Hf). rewrite Hv.
    destruct (encodeIndexKey_indexable w key Hmw Ek) as [Hiw _].
    destruct (leading_values d fields) as [vs' c'] eqn:El. intros [= <- <-] [Hiv Hi]%Forall_cons.
    destruct (IH rest vs' c' eq_refl eq_refl Hi) as (Hir & vs1 & vs2 & -> & Hkeys).
    split; [by constructor|]. exists (v :: vs1), vs2. split; [done|]. cbn [fmap list_fmap].
    change (scalar_key v :: (scalar_key <$> vs1) = scalar_key w :: (scalar_key <$> rest)).
    f_equal; [|done]. by apply field_is_key.
Qed.

Lemma leading_equalities_length e fields eqs : leading_equalities e fields = Some eqs -> (length eqs <= length fields)%nat.
Proof.
  revert eqs; induction fields as [|f fields IH]; intros eqs; cbn [leading_equalities]; [by intros [= <-]|].
  destruct (equalityCandidate e (Path f)); [|intros [= <-]; cbn; lia]. destruct (encodeIndexKey _); [|done].
  destruct (leading_equalities e fields) as [rest|]; [|done]. cbn [obind]. intros [= <-]. cbn [length].
  specialize (IH rest eq_refl). lia.
Qed.

(** ** One component of a compound key *)

(** A field value between the bounds of a range, in the order of the field. *)
Lemma component_above prefix f b v rest inclusive :
  indexable b -> indexable v -> directed f ->
  (if Order f =? 1 then scalar_order b v else scalar_order v b) = Lt \/
    (inclusive = true /\ (if Order f =? 1 then scalar_order b v else scalar_order v b) = Eq) ->
  let key := prefix ++ component f (scalar_key b) in
  let start := if negb inclusive then indexKeyPrefixEnd key else key in
  start <> [] /\ bcompare start (prefix ++ component f (scalar_key v) ++ rest) <> Gt.
Proof.
  intros Hb Hv Hf Ho key start.
  assert (Hcmp : forall x, bcompare (key ++ x) (prefix ++ component f (scalar_key v) ++ rest) =
    match (if Order f =? 1 then scalar_order b v else scalar_order v b) with Eq => bcompare x rest | c => c end).
  { intros x. unfold key. rewrite <- app_assoc, bcompare_app_same, bcompare_component.
    by rewrite !bcompare_scalar_key by done. }
  assert (Hkey : key <> []).
  { unfold key. destruct prefix; [|done]. cbn. unfold component. destruct (Order f =? 1), (scalar_key b) as [|x y]; cbn; try done;
      try (destruct (_ =? _); done). }
  destruct inclusive; cbn [negb] in start; unfold start.
  - split; [done|]. specialize (Hcmp []). rewrite app_nil_r in Hcmp. rewrite Hcmp.
    destruct Ho as [-> |[_ ->]]; [done|]. by destruct rest.
  - destruct Ho as [Ho|[]]; [|done]. specialize (Hcmp []) as H0. rewrite app_nil_r, Ho in H0.
    destruct (above_prefix_end key _ H0) as [[x Hx]|[Hne Hle]]; [|done].
    exfalso. specialize (Hcmp x). rewrite Hx, bcompare_refl, Ho in Hcmp. done.
Qed.

Lemma component_below prefix f b v rest inclusive :
  indexable b -> indexable v -> directed f ->
  (if Order f =? 1 then scalar_order v b else scalar_order b v) = Lt \/
    (inclusive = true /\ (if Order f =? 1 then scalar_order v b else scalar_order b v) = Eq) ->
  let key := prefix ++ component f (scalar_key b) in
  let fin := if inclusive then indexKeyPrefixEnd key else key in
  fin = [] \/ blt (prefix ++ component f (scalar_key v) ++ rest) fin.
Proof.
  intros Hb Hv Hf Ho key fin.
  assert (Hcmp : forall x, bcompare (prefix ++ component f (scalar_key v) ++ rest) (key ++ x) =
    match (if Order f =? 1 then scalar_order v b else scalar_order b v) with Eq => bcompare rest x | c => c end).
  { intros x. unfold key. rewrite <- app_assoc, bcompare_app_same, bcompare_component.
    by rewrite !bcompare_scalar_key by done. }
  destruct inclusive; unfold fin.
  - destruct Ho as [Ho|[_ Ho]].
    + destruct (below_prefix_end key []) as [?|Hp]; [by left|right]. rewrite app_nil_r in Hp.
      transitivity key; [|done]. specialize (Hcmp []). rewrite app_nil_r, Ho in Hcmp. done.
    + destruct (below_prefix_end key rest) as [?|Hp]; [by left|right].
      specialize (Hcmp rest). rewrite Ho, bcompare_refl in Hcmp. apply bcompare_eq in Hcmp. by rewrite Hcmp.
  - right. destruct Ho as [Ho|[]]; [|done]. specialize (Hcmp []). rewrite app_nil_r, Ho in Hcmp. done.
Qed.

(** ** Compound indexes *)

Lemma component_bound_some prefix next b missing shift x :
  machine_ok (ib_value b) -> component_bound prefix next (Some b) missing shift = Some x ->
  x = (let key := prefix ++ component next (scalar_key (ib_value b)) in
       if shift (ib_inclusive b) then indexKeyPrefixEnd key else key).
Proof.
  intros Hm. unfold component_bound. destruct (encodeCompoundIndexKey _ _) as [c|] eqn:E; [|done]. intros [= <-].
  assert (Hms : Forall machine_ok [ib_value b]) by (by constructor).
  destruct (encodeCompoundIndexKey_spec _ _ _ Hms E) as (_ & _ & _ & -> & _).
  unfold tuple_key. cbn [components fmap list_fmap]. by rewrite app_nil_r.
Qed.

(** The start of the interval of a range on one component. *)
Lemma component_start prefix next physical v rest start :
  indexable v -> directed next ->
  (forall b, physical = Some b -> indexable (ib_value b) /\
     ((if Order next =? 1 then scalar_order (ib_value b) v else scalar_order v (ib_value b)) = Lt \/
      (ib_inclusive b = true /\ (if Order next =? 1 then scalar_order (ib_value b) v else scalar_order v (ib_value b)) = Eq))) ->
  component_bound prefix next physical (prefix ++ [compoundComponentFloor]) negb = Some start ->
  start <> [] /\ bcompare start (prefix ++ component next (scalar_key v) ++ rest) <> Gt.
Proof.
  intros Hv Hd Hb. destruct physical as [b|].
  - destruct (Hb b eq_refl) as [Hi Ho]. intros H%component_bound_some; [|apply Hi]. subst start.
    by apply component_above.
  - intros [= <-]. split; [by destruct prefix|]. rewrite bcompare_app_same. by rewrite component_above_floor.
Qed.

Lemma component_end prefix next physical v rest fin :
  indexable v -> directed next ->
  (forall b, physical = Some b -> indexable (ib_value b) /\
     ((if Order next =? 1 then scalar_order v (ib_value b) else scalar_order (ib_value b) v) = Lt \/
      (ib_inclusive b = true /\ (if Order next =? 1 then scalar_order v (ib_value b) else scalar_order (ib_value b) v) = Eq))) ->
  component_bound prefix next physical (indexKeyPrefixEnd prefix) id = Some fin ->
  fin = [] \/ blt (prefix ++ component next (scalar_key v) ++ rest) fin.
Proof.
  intros Hv Hd Hb. destruct physical as [b|].
  - destruct (Hb b eq_refl) as [Hi Ho]. intros H%component_bound_some; [|apply Hi]. subst fin.
    by apply component_below.
  - intros [= <-]. apply below_prefix_end.
Qed.

Lemma nonempty_interval start key fin :
  bcompare start key <> Gt -> fin = [] \/ blt key fin ->
  (0 <? zlen start) && (0 <? zlen fin) && negb (bltb start fin) = false.
Proof.
  intros Hstart [-> |Hfin]; [by rewrite andb_false_r|]. apply andb_false_iff. right. apply negb_false_iff.
  destruct (bltb start fin) eqn:E; [done|]. apply bltb_false_le in E. exfalso.
  assert (H : blt key start) by (by eapply blt_not_gt). unfold blt in H.
  apply Hstart. by rewrite (bcompare_antisym key start), H.
Qed.

(** The key after an equality prefix. *)
Lemma key_after_prefix fields vs1 vs2 eqs tail :
  scalar_key <$> vs1 = scalar_key <$> eqs ->
  tuple_key (take (length (vs1 ++ vs2)) fields) (vs1 ++ vs2) ++ tail =
  tuple_key (take (length eqs) fields) eqs ++
    tuple_key (drop (length eqs) (take (length (vs1 ++ vs2)) fields)) vs2 ++ tail.
Proof.
  intros Hk. assert (Hl : length vs1 = length eqs) by (apply (f_equal length) in Hk; by rewrite !length_fmap in Hk).
  rewrite tuple_key_app, <- app_assoc, Hl. f_equal. rewrite take_take.
  replace (length eqs `min` length (vs1 ++ vs2))%nat with (length eqs) by (rewrite length_app; lia).
  unfold tuple_key. by rewrite Hk.
Qed.

Definition key_located (okey : option bytes) (s : indexScanSpan) : Prop :=
  exists key, okey = Some key /\ in_span key s /\ span_ok s.

Lemma prefix_located okey prefix rest :
  okey = Some (prefix ++ rest) -> key_located okey (mk_span prefix (indexKeyPrefixEnd prefix) false).
Proof.
  intros ->. eexists. split; [done|]. split; [|done]. unfold in_span. cbn [sp_exact sp_start sp_end].
  split; [|apply below_prefix_end]. rewrite <- (app_nil_r prefix) at 1. rewrite bcompare_app_same. by destruct rest.
Qed.

Lemma exact_located okey key :
  okey = Some key -> key_located okey (mk_span key (indexKeyPrefixEnd key) true).
Proof.
  intros ->. exists key. split; [done|]. split; [done|]. intros _. cbn [sp_start sp_end].
  destruct (below_prefix_end key []) as [H|H]; rewrite ?app_nil_r in H; auto.
Qed.

(** What a filter says of a document with equalities on the leading fields. *)
Lemma leading_key definition e okey eqs :
  comparable d e -> satisfies e d -> usesCompoundIndexCodec definition = true -> indexDocumentKey definition d = Ok okey ->
  leading_equalities e (indexDefinitionFields definition) = Some eqs ->
  forall next, indexDefinitionFields definition !! length eqs = Some next ->
  Forall indexable eqs /\
  (eqs <> [] -> exists rest, okey = Some (tuple_key (take (length eqs) (indexDefinitionFields definition)) eqs ++ rest)) /\
  (forall v, lookupInternal d (Path next) = Some v -> indexable v /\ directed next /\
     exists rest, okey = Some (tuple_key (take (length eqs) (indexDefinitionFields definition)) eqs ++
                               component next (scalar_key v) ++ rest)).
Proof using Hvalues.
  intros Hc Hs Hcodec Hkey Heqs next Hnext. set (fields := indexDefinitionFields definition) in *.
  destruct (leading_values d fields) as [vs complete] eqn:El.
  destruct (leading_values_spec _ _ _ El) as (H2 & Hlen & Hcomplete).
  destruct (decide (vs = [])) as [->|Hne].
  { destruct (leading_equalities_ok e fields eqs [] complete Hc Hs Heqs El ltac:(constructor)) as (Hi & vs1 & vs2 & Happ & Hk).
    symmetry in Happ. apply app_eq_nil in Happ as [-> ->]. apply symmetry, fmap_nil_inv in Hk as ->.
    split; [constructor|]. split; [done|]. intros v Hv. exfalso. destruct complete.
    - cbn in Hcomplete. by destruct fields.
    - destruct Hcomplete as (f & Hf & Hnone). cbn in Hf, Hnext. congruence. }
  destruct (compound_document_key definition okey vs complete Hcodec Hkey El Hne) as (Hi & Hd & tail & -> & _).
  destruct (leading_equalities_ok e fields eqs vs complete Hc Hs Heqs El Hi) as (Hieqs & vs1 & vs2 & -> & Hk).
  assert (Hl : length vs1 = length eqs) by (apply (f_equal length) in Hk; by rewrite !length_fmap in Hk).
  fold fields in Hd |- *. rewrite (key_after_prefix fields vs1 vs2 eqs tail Hk).
  split; [done|]. split; [intros _; by eexists|]. intros v Hv.
  assert (Hlt : (length eqs < length (vs1 ++ vs2))%nat).
  { destruct (decide (length (vs1 ++ vs2) = length eqs)) as [E|]; [|rewrite length_app in *; lia]. exfalso.
    destruct complete; [apply lookup_lt_Some in Hnext; lia|]. destruct Hcomplete as (f & Hf & Hnone). rewrite E in Hf. congruence. }
  rewrite length_app in Hlt. destruct vs2 as [|v2 vs2]; [cbn in Hlt; lia|].
  assert (Hv2 : v2 = v /\ next :: drop (S (length eqs)) (take (length (vs1 ++ v2 :: vs2)) fields) =
    drop (length eqs) (take (length (vs1 ++ v2 :: vs2)) fields)).
  { assert (Hn : take (length (vs1 ++ v2 :: vs2)) fields !! length eqs = Some next).
    { rewrite lookup_take_lt; [done|]. rewrite length_app. cbn. lia. }
    split; [|by rewrite <- (drop_S _ next)].
    apply Forall2_lookup with (i := length eqs) in H2. rewrite Hn in H2.
    rewrite <- Hl, lookup_middle in H2. inversion H2; subst. congruence. }
  destruct Hv2 as [-> Hdrop]. split; [|split].
  - apply Forall_app in Hi as [_ Hi]. by apply Forall_cons in Hi as [Hi _].
  - rewrite Forall_lookup in Hd. apply (Hd (length eqs)). rewrite lookup_take_lt; [done|]. rewrite length_app. cbn. lia.
  - rewrite <- Hdrop. unfold tuple_key. cbn [components fmap list_fmap]. rewrite <- app_assoc. by eexists.
Qed.

(** Equalities on all fields determine the key. *)
Lemma all_equalities_key definition e okey eqs key :
  comparable d e -> satisfies e d -> usesCompoundIndexCodec definition = true -> indexDocumentKey definition d = Ok okey ->
  leading_equalities e (indexDefinitionFields definition) = Some eqs ->
  zlen eqs = zlen (indexDefinitionFields definition) ->
  encodeCompoundIndexKey eqs (indexDefinitionFields definition) = Ok key -> okey = Some key.
Proof using Hvalues.
  intros Hc Hs Hcodec Hkey Heqs Hall Hk. set (fields := indexDefinitionFields definition) in *.
  assert (Hlen : length eqs = length fields) by (unfold zlen in Hall; lia).
  destruct (leading_values d fields) as [vs complete] eqn:El.
  destruct (leading_values_spec _ _ _ El) as (_ & Hle & Hcomplete).
  assert (Hne : eqs <> []) by (intros ->; by vm_compute in Hk).
  destruct (decide (vs = [])) as [->|Hvs].
  { destruct (leading_equalities_ok e fields eqs [] complete Hc Hs Heqs El ltac:(constructor)) as (_ & vs1 & vs2 & Happ & E).
    symmetry in Happ. apply app_eq_nil in Happ as [-> _]. by apply symmetry, fmap_nil_inv in E. }
  destruct (compound_document_key definition okey vs complete Hcodec Hkey El Hvs) as (Hi & _ & tail & -> & Htail).
  destruct (leading_equalities_ok e fields eqs vs complete Hc Hs Heqs El Hi) as (Hieqs & vs1 & vs2 & -> & E).
  assert (Hl : length vs1 = length eqs) by (apply (f_equal length) in E; by rewrite !length_fmap in E).
  rewrite length_app in Hle, Hcomplete. destruct vs2; [|cbn in Hle; lia]. rewrite app_nil_r in *. cbn [length] in Hcomplete.
  destruct complete; [|destruct Hcomplete as (f & Hf & _); apply lookup_lt_Some in Hf; lia].
  rewrite Htail, app_nil_r by done. fold fields. rewrite take_ge by lia.
  destruct (encodeCompoundIndexKey_spec fields eqs key) as (_ & _ & _ & -> & _); [|done|].
  - eapply Forall_impl; [exact Hieqs|]. by intros x (? & _).
  - unfold tuple_key. by rewrite E.
Qed.

(** The bounds of a range in the order of keys: swapped for a descending field. *)
Lemma physical_bounds next v lower upper :
  lookupInternal d (Path next) = Some v -> indexable v -> directed next ->
  (forall b, lower = Some b -> bound_ok d (Path next) above b) -> (forall b, upper = Some b -> bound_ok d (Path next) below b) ->
  (forall b, (if Order next =? -1 then upper else lower) = Some b -> indexable (ib_value b) /\
     ((if Order next =? 1 then scalar_order (ib_value b) v else scalar_order v (ib_value b)) = Lt \/
      (ib_inclusive b = true /\ (if Order next =? 1 then scalar_order (ib_value b) v else scalar_order v (ib_value b)) = Eq))) /\
  (forall b, (if Order next =? -1 then lower else upper) = Some b -> indexable (ib_value b) /\
     ((if Order next =? 1 then scalar_order v (ib_value b) else scalar_order (ib_value b) v) = Lt \/
      (ib_inclusive b = true /\ (if Order next =? 1 then scalar_order v (ib_value b) else scalar_order (ib_value b) v) = Eq))).
Proof.
  intros Hv Hi Hd Hl Hu.
  assert (Ha : forall b, lower = Some b -> indexable (ib_value b) /\
    (scalar_order (ib_value b) v = Lt \/ (ib_inclusive b = true /\ scalar_order (ib_value b) v = Eq))).
  { intros b Hb. split; [by apply Hl|]. by apply (above_order d (Path next)), Hl. }
  assert (Hb : forall b, upper = Some b -> indexable (ib_value b) /\
    (scalar_order v (ib_value b) = Lt \/ (ib_inclusive b = true /\ scalar_order v (ib_value b) = Eq))).
  { intros b Hb. split; [by apply Hu|]. by apply (below_order d (Path next)), Hu. }
  destruct Hd as [-> | ->]; cbn [Z.eqb Pos.eqb]; auto.
Qed.

Lemma compound_bounds definition e start fin exact okey :
  comparable d e -> satisfies e d -> indexDocumentKey definition d = Ok okey ->
  compoundIndexQueryBounds definition e = Some (start, fin, exact) ->
  (start = [] /\ fin = [] /\ exact = false) \/ key_located okey (mk_span start fin exact).
Proof using Hvalues.
  intros Hc Hs Hkey. unfold compoundIndexQueryBounds. set (fields := indexDefinitionFields definition).
  destruct (usesCompoundIndexCodec definition) eqn:Hcodec; [|done]. cbn [negb orb]. rewrite zlen_is_nil.
  destruct fields as [|f0 fs] eqn:Ef; [done|]. rewrite <- Ef in *. clear f0 fs Ef.
  destruct (leading_equalities e fields) as [eqs|] eqn:Eeqs; [|done]. cbn [obind].
  pose proof (leading_equalities_length _ _ _ Eeqs) as Hlen.
  destruct (Z.eqb_spec (zlen eqs) (zlen fields)) as [Hall|Hnot].
  - destruct (encodeCompoundIndexKey eqs fields) as [key|] eqn:Ek; [|done]. intros [= <- <- <-]. right.
    apply exact_located. by apply (all_equalities_key definition e okey eqs key).
  - assert (Hlt : (length eqs < length fields)%nat) by (unfold zlen in Hnot; lia).
    destruct (lookup_lt_is_Some_2 fields (length eqs) Hlt) as [next Hnext].
    destruct (leading_key definition e okey eqs Hc Hs Hcodec Hkey Eeqs next Hnext) as (Hieqs & Hpre & Hval).
    fold fields in Hpre, Hval.
    destruct (if 0 <? zlen eqs then _ else _) as [prefix|] eqn:Eprefix; [|done]. cbn [obind]. rewrite Hnext. cbn [obind].
    assert (Hprefix : prefix = tuple_key (take (length eqs) fields) eqs).
    { destruct (Z.ltb_spec 0 (zlen eqs)).
      - unfold encodeCompoundIndexPrefix in Eprefix. destruct (_ || _); [done|].
        destruct (encodeCompoundIndexKey eqs _) as [p|] eqn:Ep; [|done]. injection Eprefix as <-.
        destruct (encodeCompoundIndexKey_spec (take (length eqs) fields) eqs p) as (_ & _ & _ & -> & _); [|done..].
        eapply Forall_impl; [exact Hieqs|]. by intros x (? & _).
      - injection Eprefix as <-. destruct eqs; [done|]. rewrite zlen_cons in *. pose proof (zlen_nonneg eqs). lia. }
    rewrite <- Hprefix in Hpre, Hval.
    destruct (rangeCandidate e (Path next)) as [[lower upper]|] eqn:Erange.
    + destruct (range_candidate d e (Path next) lower upper Hc Hs Erange) as ((v & Hv) & Hlow & Hup).
      destruct (Hval v Hv) as (Hiv & Hdir & rest & Hokey).
      destruct (physical_bounds next v lower upper Hv Hiv Hdir Hlow Hup) as [Hpl Hpu].
      replace (if Order next =? -1 then (upper, lower) else (lower, upper))
        with (if Order next =? -1 then upper else lower, if Order next =? -1 then lower else upper)
        by (by destruct (Order next =? -1)).
      set (pl := if Order next =? -1 then upper else lower) in *. set (pu := if Order next =? -1 then lower else upper) in *.
      destruct (component_bound prefix next pl _ negb) as [s|] eqn:Estart; [|done]. cbn [obind].
      destruct (component_start prefix next pl v rest s Hiv Hdir Hpl Estart) as [Hne Hstart].
      rewrite zlen_is_nil. destruct s as [|s0 s'] eqn:Es; [done|]. rewrite <- Es in *. clear Hne. rewrite andb_false_r.
      destruct (component_bound prefix next pu _ id) as [f|] eqn:Efin; [|done]. cbn [obind].
      pose proof (component_end prefix next pu v rest f Hiv Hdir Hpu Efin) as Hfin.
      rewrite (nonempty_interval _ _ _ Hstart Hfin). intros [= <- <- <-]. right. eexists. split; [exact Hokey|].
      split; [by split|done].
    + destruct (Z.eqb_spec (zlen prefix) 0) as [|Hne]; [done|]. intros [= <- <- <-]. right.
      destruct Hpre as [rest Hokey]; [by intros ->; apply Hne; rewrite Hprefix; destruct fields|].
      by apply (prefix_located _ _ rest).
Qed.

(** ** Candidate values *)

Lemma value_spans_ok fields values spans v f rest okey :
  fields !! 0%nat = Some f -> Forall machine_ok values -> value_spans fields values = Some spans ->
  okey = Some (component f (scalar_key v) ++ rest) -> (exists w, w ∈ values /\ scalar_key v = scalar_key w) ->
  Forall span_ok spans /\ exists key, okey = Some key /\ Exists (in_span key) spans.
Proof.
  intros Hf Hm Hspans -> Hw.
  enough (Forall span_ok spans /\ ((exists w, w ∈ values /\ scalar_key v = scalar_key w) ->
    Exists (in_span (component f (scalar_key v) ++ rest)) spans)) as [H1 H2] by eauto.
  clear Hw. revert spans Hspans; induction Hm as [|w values Hw Hm IH]; intros spans; cbn [value_spans].
  - intros [= <-]. split; [constructor|]. intros (w & Hw & _). by apply not_elem_of_nil in Hw.
  - destruct (encodeCompoundIndexPrefix [w] fields) as [prefix|] eqn:Ep; [|done].
    destruct (beqb _ []); [done|]. destruct (value_spans fields values) as [more|] eqn:Em; [|done]. cbn [obind]. intros [= <-].
    destruct (IH more eq_refl) as [H1 H2]. split; [by constructor|]. intros (x & Hx & Hk).
    apply elem_of_cons in Hx as [->|Hx]; [left|right; apply H2; by exists x].
    assert (Hp : prefix = component f (scalar_key w)).
    { unfold encodeCompoundIndexPrefix in Ep. destruct (_ || _); [done|].
      assert (Hms : Forall machine_ok [w]) by (by constructor).
      destruct (encodeCompoundIndexKey_spec _ _ _ Hms Ep) as (_ & _ & _ & -> & _).
      destruct fields as [|g fields]; [done|]. injection Hf as ->. cbn [length take]. rewrite firstn_O.
      unfold tuple_key. cbn [components fmap list_fmap]. by rewrite app_nil_r. }
    rewrite Hp, Hk. destruct (prefix_located (Some (component f (scalar_key w) ++ rest)) (component f (scalar_key w)) rest eq_refl)
      as (key & [= <-] & H & _). exact H.
Qed.

Lemma compound_values definition e spans okey :
  comparable d e -> satisfies e d -> indexDocumentKey definition d = Ok okey ->
  compoundIndexValueSpans definition e = Some spans ->
  Forall span_ok spans /\ exists key, okey = Some key /\ Exists (in_span key) spans.
Proof using Hvalues.
  intros Hc Hs Hkey. unfold compoundIndexValueSpans.
  destruct (indexDefinitionFields definition) as [|f fields] eqn:Ef; [done|].
  destruct (usesCompoundIndexCodec definition) eqn:Hcodec; [|done]. cbn [negb].
  destruct (indexValuesCandidate e (Path f)) as [values|] eqn:Ev; [|done]. cbn [obind]. intros Hspans.
  destruct (index_candidate d e (Path f) values Hc Hs Ev) as (Hi & v & Hv & Hin).
  destruct (leading_values d (f :: fields)) as [vs complete] eqn:El. cbn [leading_values] in El. rewrite Hv in El.
  destruct (leading_values d fields) as [vs' c'] eqn:El'. injection El as <- <-.
  destruct (compound_document_key definition okey (v :: vs') c' Hcodec Hkey) as (Hiv & _ & tail & Hokey & _); [|done|].
  { rewrite Ef. cbn [leading_values]. by rewrite Hv, El'. }
  rewrite Ef in Hokey. unfold tuple_key in Hokey. cbn [length take components fmap list_fmap] in Hokey.
  rewrite <- app_assoc in Hokey. apply Forall_cons in Hiv as [Hiv _].
  eapply value_spans_ok; [|..|exact Hspans|exact Hokey|by apply Hin]; [done|].
  eapply Forall_impl; [exact Hi|]. by intros x (? & _).
Qed.

(** ** Indexes of one ascending field *)

Lemma exact_spans_ok cs spans :
  exact_spans cs = Some spans ->
  Forall span_ok spans /\ forall c, c ∈ cs -> Exists (in_span (ec_key c)) spans.
Proof.
  revert spans; induction cs as [|c cs IH]; intros spans; cbn [exact_spans].
  - intros [= <-]. split; [constructor|]. intros c Hc. by apply not_elem_of_nil in Hc.
  - destruct (beqb _ []); [done|]. destruct (exact_spans cs) as [rest|]; [|done]. cbn [obind]. intros [= <-].
    destruct (IH rest eq_refl) as [H1 H2]. destruct (exact_located (Some (ec_key c)) (ec_key c) eq_refl) as (key & [= <-] & H & Hok).
    split; [by constructor|]. intros x Hx. apply elem_of_cons in Hx as [->|Hx]; [by left|right; auto].
Qed.

Lemma single_values definition e f cs spans okey :
  comparable d e -> satisfies e d -> usesCompoundIndexCodec definition = false ->
  indexDefinitionFields definition = [f] -> indexDocumentKey definition d = Ok okey ->
  encodedIndexValuesCandidate e (Path f) = Some cs -> exact_spans cs = Some spans ->
  exists key, okey = Some key /\ Exists (in_span key) spans.
Proof using Hvalues.
  intros Hc Hs Hcodec Hf Hkey Hcs Hspans. destruct (encoded_candidates d e (Path f) cs Hc Hs Hcs) as (_ & v & Hv & Hin).
  destruct (single_document_key definition okey f v Hcodec Hf Hkey Hv) as [Hi ->].
  destruct (Hin Hi) as (c & Hcin & ->). eexists. split; [done|]. by apply (exact_spans_ok cs).
Qed.

Lemma single_range definition e f lower upper okey r :
  comparable d e -> satisfies e d -> usesCompoundIndexCodec definition = false ->
  indexDefinitionFields definition = [f] -> indexDocumentKey definition d = Ok okey ->
  rangeCandidate e (Path f) = Some (lower, upper) -> storageIndexBounds lower upper = Ok r ->
  exists start fin key, r = Some (start, fin) /\ okey = Some key /\ in_span key (mk_span start fin false).
Proof using Hvalues.
  intros Hc Hs Hcodec Hf Hkey Hrange Hbounds.
  destruct (range_candidate d e (Path f) lower upper Hc Hs Hrange) as ((v & Hv) & Hlow & Hup).
  destruct (single_document_key definition okey f v Hcodec Hf Hkey Hv) as [Hi ->].
  destruct (storage_bounds d (Path f) v lower upper r Hv Hi Hlow Hup Hbounds) as (start & fin & -> & Hin).
  exists start, fin, (scalar_key v). auto.
Qed.
End Document.
