(* ===== verification/PlanSoundness.v ===== *)
(** * Access plans cover the matches of a query

    Whatever plan [selectQueryAccessPlan] settles on, a document that satisfies
    the filter is among its primary ids, or has a key in one of the intervals of
    one of its indexes. *)
From S2P Require Import Prelude Bytes Strings Entries Float64 Values Documents IndexKey CompoundKey Query Orders IndexDefinitions QueryPlan PlanIntervals.

(** ** Definitions as plans carry them *)

Definition normal (definition : IndexDefinition) : Prop := cloneIndexDefinition definition = definition.

Lemma clone_fields definition : indexDefinitionFields (cloneIndexDefinition definition) = indexDefinitionFields definition.
Proof.
  unfold cloneIndexDefinition. destruct (indexDefinitionFields definition) as [|f fields] eqn:E.
  - unfold indexDefinitionFields in *. cbn [def_Fields def_Field def_Order]. change (0 <? zlen (@nil IndexField)) with false.
    cbn [negb]. destruct (0 <? zlen (def_Fields definition)) eqn:Ez; [by rewrite E in Ez|].
    exact E.
  - unfold indexDefinitionFields. cbn [def_Fields]. rewrite zlen_cons. pose proof (zlen_nonneg fields).
    replace (0 <? 1 + zlen fields) with true by (symmetry; apply Z.ltb_lt; lia). done.
Qed.

Lemma clone_eq definition : cloneIndexDefinition definition =
  match indexDefinitionFields definition with
  | [] => mk_definition (def_Name definition) (def_Field definition) (def_Order definition) (def_Unique definition) []
  | f :: fields => mk_definition (def_Name definition) (Path f) (Order f) (def_Unique definition) (f :: fields)
  end.
Proof. unfold cloneIndexDefinition. by destruct (indexDefinitionFields definition). Qed.

Lemma clone_normal definition : normal (cloneIndexDefinition definition).
Proof.
  unfold normal. rewrite (clone_eq (cloneIndexDefinition definition)), clone_fields.
  rewrite !(clone_eq definition). by destruct (indexDefinitionFields definition).
Qed.

Lemma clone_name definition : def_Name (cloneIndexDefinition definition) = def_Name definition.
Proof. rewrite clone_eq. by destruct (indexDefinitionFields definition). Qed.

Lemma clone_codec definition : usesCompoundIndexCodec (cloneIndexDefinition definition) = usesCompoundIndexCodec definition.
Proof. unfold usesCompoundIndexCodec. by rewrite clone_fields. Qed.

Lemma clone_key definition d : indexDocumentKey (cloneIndexDefinition definition) d = indexDocumentKey definition d.
Proof. unfold indexDocumentKey. by rewrite clone_codec, clone_fields. Qed.

Lemma normal_field definition f : normal definition -> indexDefinitionFields definition = [f] -> def_Field definition = Path f.
Proof. unfold normal. intros H Hf. rewrite <- H, clone_eq, Hf. done. Qed.

(** ** What a plan covers *)

(** The document is among the ids of a primary source, or its key is in an
    interval of an index. *)
Definition source_covers (d : document) (source : queryPlanSource) : Prop :=
  if ps_primary source then exists id, Document_ID d = Some id /\ id ∈ ps_ids source
  else exists key, indexDocumentKey (ps_definition source) d = Ok (Some key) /\ Exists (in_span key) (ps_spans source).

Definition plan_covers (d : document) (plan : queryAccessPlan) : Prop := Exists (source_covers d) (ap_sources plan).

Section Plans.
Context (definitions : list IndexDefinition) (q : QuerySpec).

Definition source_ok (source : queryPlanSource) : Prop :=
  (ps_primary source = true \/ ps_definition source ∈ definitions) /\ Forall span_ok (ps_spans source).
Definition source_empty (source : queryPlanSource) : Prop := ps_ids source = [] /\ ps_spans source = [].

Record plan_ok (plan : queryAccessPlan) : Prop := {
  plan_sources : Forall source_ok (ap_sources plan);
  plan_empty : ap_empty plan = true -> Forall source_empty (ap_sources plan) }.

Lemma no_plan_ok : plan_ok no_plan.
Proof. split; [constructor|done]. Qed.

Lemma better_either a b : betterQueryAccessPlan a b = a \/ betterQueryAccessPlan a b = b.
Proof.
  unfold betterQueryAccessPlan. cbv zeta.
  repeat match goal with |- context [if ?c then _ else _] => destruct c end; auto.
Qed.

Lemma better_ind (P : queryAccessPlan -> Prop) a b : P a -> P b -> P (betterQueryAccessPlan a b).
Proof. intros Ha Hb. by destruct (better_either a b) as [-> | ->]. Qed.

Lemma single_source_ok source score : source_ok source -> plan_ok (normalizedSingleSourcePlan source score q).
Proof.
  intros Hs. split; [by constructor|]. unfold normalizedSingleSourcePlan. cbn [ap_empty ap_sources plan_of].
  rewrite andb_true_iff, !zlen_is_nil. intros [H1 H2]. constructor; [|done]. split; [by destruct (ps_ids source)|by destruct (ps_spans source)].
Qed.

Lemma exact_span_ok key : span_ok (mk_span key (indexKeyPrefixEnd key) true).
Proof. by destruct (exact_located (Some key) key eq_refl) as (k & _ & _ & H). Qed.

Lemma value_spans_nonexact fields values spans : value_spans fields values = Some spans -> Forall span_ok spans.
Proof.
  revert spans; induction values as [|v values IH]; intros spans; cbn [value_spans]; [intros [= <-]; constructor|].
  destruct (encodeCompoundIndexPrefix [v] fields); [|done]. destruct (beqb _ []); [done|].
  destruct (value_spans fields values) as [rest|]; [|done]. cbn [obind]. intros [= <-]. constructor; [done|auto].
Qed.

Lemma compound_bounds_span definition e start fin exact :
  compoundIndexQueryBounds definition e = Some (start, fin, exact) -> span_ok (mk_span start fin exact).
Proof.
  unfold compoundIndexQueryBounds. destruct (negb _ || _); [done|].
  destruct (leading_equalities _ _) as [eqs|]; [|done]. cbn [obind].
  destruct (zlen eqs =? _).
  - destruct (encodeCompoundIndexKey _ _) as [key|]; [|done]. intros [= <- <- <-]. apply exact_span_ok.
  - destruct (if 0 <? zlen eqs then _ else _) as [prefix|]; [|done]. cbn [obind].
    destruct (_ !! _) as [next|]; [|done]. cbn [obind]. destruct (rangeCandidate _ _) as [[lower upper]|].
    + destruct (if Order next =? -1 then _ else _) as [pl pu].
      destruct (component_bound _ _ pl _ _) as [s|]; [|done]. cbn [obind].
      destruct (_ && _); [by intros [= <- <- <-]|]. destruct (component_bound _ _ pu _ _) as [f|]; [|done]. cbn [obind].
      destruct (_ && _); by intros [= <- <- <-].
    + destruct (_ =? _); [done|]. by intros [= <- <- <-].
Qed.

Lemma compound_plan_ok e definition : definition ∈ definitions -> plan_ok (compoundQueryAccessPlan e definition q).
Proof.
  intros Hin. unfold compoundQueryAccessPlan. destruct (compoundIndexQueryBounds definition e) as [[[start fin] exact]|] eqn:E.
  - destruct (_ && _); [apply no_plan_ok|]. apply single_source_ok. split; [by right|].
    constructor; [|done]. by apply compound_bounds_span in E.
  - destruct (compoundIndexValueSpans definition e) as [spans|] eqn:Es; [|apply no_plan_ok].
    apply single_source_ok. split; [by right|]. cbn [ps_spans]. unfold compoundIndexValueSpans in Es.
    destruct (indexDefinitionFields definition) as [|f fields]; [done|]. destruct (negb _); [done|].
    destruct (indexValuesCandidate _ _) as [values|]; [|done]. by apply value_spans_nonexact in Es.
Qed.

Lemma range_plan_ok e definition : definition ∈ definitions -> plan_ok (rangeQueryAccessPlan e definition q).
Proof.
  intros Hin. unfold rangeQueryAccessPlan. destruct (rangeCandidate e _) as [[lower upper]|]; [|apply no_plan_ok].
  destruct (storageIndexBounds lower upper) as [[[start fin]|]|]; [| |apply no_plan_ok].
  - apply single_source_ok. split; [by right|]. by repeat constructor.
  - split; cbn [ap_sources plan_of normalizedSingleSourcePlan]; [|by repeat constructor].
    constructor; [|done]. split; [by right|constructor].
Qed.

Lemma index_plan_ok e definition : definition ∈ definitions -> plan_ok (indexQueryAccessPlan e definition q).
Proof.
  intros Hin. unfold indexQueryAccessPlan. destruct (usesCompoundIndexCodec definition); [by apply compound_plan_ok|].
  destruct (encodedIndexValuesCandidate _ _) as [cs|]; [|by apply range_plan_ok].
  destruct (exact_spans cs) as [spans|] eqn:E; [|apply no_plan_ok].
  apply single_source_ok. split; [by right|]. by apply exact_spans_ok in E as [? _].
Qed.

Lemma primary_plan_ok e : plan_ok (primaryQueryAccessPlan e).
Proof.
  unfold primaryQueryAccessPlan. destruct (indexValuesCandidate e _) as [values|]; [|apply no_plan_ok].
  destruct (ids_of values) as [ids|]; [|apply no_plan_ok]. split; cbn [ap_sources plan_of ap_empty].
  - constructor; [|done]. split; [by left|constructor].
  - rewrite zlen_is_nil. intros H. constructor; [|done]. split; [by destruct ids|done].
Qed.

Lemma direct_plan_ind (P : queryAccessPlan -> Prop) e :
  P (primaryQueryAccessPlan e) -> (forall definition, definition ∈ definitions -> P (indexQueryAccessPlan e definition q)) ->
  P (directQueryAccessPlan e definitions q).
Proof.
  intros H0 H. unfold directQueryAccessPlan. revert H0. generalize (primaryQueryAccessPlan e).
  induction definitions as [|definition l IH]; intros plan H0; [done|]. cbn [fold_left]. apply IH.
  - intros x Hx. apply H. by right.
  - apply better_ind; [done|]. apply H. by left.
Qed.

Lemma direct_plan_ok e : plan_ok (directQueryAccessPlan e definitions q).
Proof. apply direct_plan_ind; [apply primary_plan_ok|apply index_plan_ok]. Qed.

(** ** Plans of one condition *)

Section Document.
Context (d : document).
Hypothesis Hvalues : forall path v, lookupInternal d path = Some v -> machine_ok v.
Hypothesis Hnormal : forall definition, definition ∈ definitions -> normal definition.
Hypothesis Hkeys : forall definition, definition ∈ definitions -> exists okey, indexDocumentKey definition d = Ok okey.
Hypothesis Hnames : forall a b, a ∈ definitions -> b ∈ definitions -> def_Name a = def_Name b -> a = b.

(** A usable plan covers the document when it satisfies the filter. *)
Definition plan_sound (e : expr) (plan : queryAccessPlan) : Prop :=
  ap_usable plan = true -> comparable d e -> satisfies e d -> plan_covers d plan.

Lemma covers_single source score : source_covers d source -> plan_covers d (normalizedSingleSourcePlan source score q).
Proof. intros H. by left. Qed.

Lemma no_plan_sound e : plan_sound e no_plan.
Proof. done. Qed.

Lemma compound_plan_sound e definition :
  definition ∈ definitions -> plan_sound e (compoundQueryAccessPlan e definition q).
Proof using Hvalues Hkeys.
  intros Hin Husable Hc Hs. destruct (Hkeys definition Hin) as [okey Hkey]. unfold compoundQueryAccessPlan in *.
  destruct (compoundIndexQueryBounds definition e) as [[[start fin] exact]|] eqn:E.
  - destruct (compound_bounds d Hvalues definition e start fin exact okey Hc Hs Hkey E) as [(-> & -> & ->)|(key & -> & Hk & _)].
    + done.
    + destruct (_ && _); [done|]. apply covers_single. unfold source_covers. cbn [ps_primary ps_definition ps_spans].
      exists key. split; [done|]. by left.
  - destruct (compoundIndexValueSpans definition e) as [spans|] eqn:Es; [|done].
    destruct (compound_values d Hvalues definition e spans okey Hc Hs Hkey Es) as (_ & key & -> & Hk).
    apply covers_single. by exists key.
Qed.

Lemma single_fields definition : usesCompoundIndexCodec definition = false -> exists f, indexDefinitionFields definition = [f].
Proof. unfold usesCompoundIndexCodec. destruct (indexDefinitionFields definition) as [|f [|]]; try done. by exists f. Qed.

Lemma index_plan_sound e definition :
  definition ∈ definitions -> plan_sound e (indexQueryAccessPlan e definition q).
Proof using Hvalues Hkeys Hnormal.
  intros Hin. unfold indexQueryAccessPlan. destruct (usesCompoundIndexCodec definition) eqn:Hcodec; [by apply compound_plan_sound|].
  intros Husable Hc Hs. destruct (Hkeys definition Hin) as [okey Hkey].
  destruct (single_fields definition Hcodec) as [f Hf]. pose proof (normal_field definition f (Hnormal _ Hin) Hf) as Hfield.
  rewrite Hfield in *. destruct (encodedIndexValuesCandidate e (Path f)) as [cs|] eqn:Ecs.
  - destruct (exact_spans cs) as [spans|] eqn:Es; [|done].
    destruct (single_values d Hvalues definition e f cs spans okey Hc Hs Hcodec Hf Hkey Ecs Es) as (key & -> & Hk).
    apply covers_single. by exists key.
  - unfold rangeQueryAccessPlan in *. rewrite Hfield in *.
    destruct (rangeCandidate e (Path f)) as [[lower upper]|] eqn:Er; [|done].
    destruct (storageIndexBounds lower upper) as [r|] eqn:Eb; [|done].
    destruct (single_range d Hvalues definition e f lower upper okey r Hc Hs Hcodec Hf Hkey Er Eb) as (start & fin & key & -> & -> & Hk).
    apply covers_single. exists key. split; [done|]. by left.
Qed.

Lemma ids_of_spec values ids id : ids_of values = Some ids -> VID id ∈ values -> id ∈ ids.
Proof.
  revert ids; induction values as [|v values IH]; intros ids; unfold ids_of; cbn [all_some]; [by intros _ ?%not_elem_of_nil|].
  destruct v; try done. fold (ids_of values). destruct (ids_of values) as [rest|]; [|done]. cbn [obind]. intros [= <-] Hin.
  apply elem_of_cons in Hin as [[= ->]|Hin]; [left|right; by apply IH].
Qed.

Lemma primary_plan_sound e : (exists id, Document_ID d = Some id) -> plan_sound e (primaryQueryAccessPlan e).
Proof using Hvalues.
  intros [id Hid] Husable Hc Hs. unfold primaryQueryAccessPlan in *.
  destruct (indexValuesCandidate e id_field) as [values|] eqn:Ev; [|done].
  destruct (ids_of values) as [ids|] eqn:Ei; [|done]. left. unfold source_covers. cbn [ps_primary ps_ids].
  exists id. split; [done|]. destruct (index_candidate d e id_field values Hc Hs Ev) as (Hi & v & Hv & Hin).
  assert (Hvid : v = VID id).
  { unfold Document_ID in Hid. unfold lookupInternal, id_field in Hv. change (split_dot (bs "_id")) with [bs "_id"] in Hv.
    cbn [lookup_parts] in Hv. destruct (field d (bs "_id")) as [w|]; [|done]. injection Hv as ->. destruct v; try done. by injection Hid as ->. }
  subst v. assert (Hiv : indexable (VID id)) by (split; [by apply (Hvalues id_field)|done]).
  destruct (Hin Hiv) as (w & Hw & Hk). apply (ids_of_spec values ids id Ei).
  assert (Hk' : w = VID id).
  { rewrite Forall_forall in Hi. pose proof (Hi w Hw) as Hiw.
    assert (Ho : scalar_order (VID id) w = Eq) by (rewrite <- bcompare_scalar_key, Hk by done; apply bcompare_refl).
    unfold scalar_order in Ho. destruct w as [| | | | | | | | |id']; try done; try (by destruct Hiw as (_ & ? & _)).
    cbn in Ho. apply bcompare_eq in Ho. by subst. }
  by subst w.
Qed.

Lemma direct_plan_sound e : (exists id, Document_ID d = Some id) -> plan_sound e (directQueryAccessPlan e definitions q).
Proof using Hvalues Hkeys Hnormal.
  intros Hid. apply (direct_plan_ind (plan_sound e)); [by apply primary_plan_sound|]. intros. by apply index_plan_sound.
Qed.

(** ** Normal plans *)

Lemma empty_uncovered source : source_empty source -> ~ source_covers d source.
Proof.
  intros [Hi Hs]. unfold source_covers. rewrite Hi, Hs. destruct (ps_primary source).
  - intros (id & _ & Hin). by apply not_elem_of_nil in Hin.
  - intros (key & _ & H). by apply Exists_nil in H.
Qed.

Lemma empty_plan_uncovered plan : plan_ok plan -> ap_empty plan = true -> ~ plan_covers d plan.
Proof.
  intros [_ He] E. specialize (He E). unfold plan_covers. rewrite Exists_exists. intros (s & Hs & Hc).
  rewrite Forall_forall in He. by apply (empty_uncovered s (He s Hs)).
Qed.

Lemma distinct_ids_elem seen ids id : id ∈ ids -> id ∈ seen \/ id ∈ distinct_ids seen ids.
Proof.
  revert seen; induction ids as [|x ids IH]; intros seen Hin; [by apply not_elem_of_nil in Hin|]. cbn [distinct_ids].
  apply elem_of_cons in Hin as [->|Hin].
  - destruct (existsb (beqb x) seen) eqn:E; [left|right; left].
    apply existsb_exists in E as (y & Hy & E). apply beqb_eq in E as ->. by apply list_elem_of_In.
  - destruct (existsb (beqb x) seen); [by apply IH|]. destruct (IH (x :: seen) Hin) as [H|H]; [|right; by right].
    apply elem_of_cons in H as [->|H]; [right; left|by left].
Qed.

Definition group_ok (entry : bytes * queryPlanSource) : Prop :=
  ps_primary entry.2 = false /\ ps_definition entry.2 ∈ definitions /\ def_Name (ps_definition entry.2) = entry.1 /\
  Forall span_ok (ps_spans entry.2).

Lemma Forall_entries {A} (P : bytes * A -> Prop) k v l : P (k, v) -> Forall P l -> Forall P (ins k v l).
Proof. intros Hk Hl. rewrite Forall_forall in *. intros x [-> |Hx]%ins_incl; auto. Qed.

Lemma group_sources_ok sources acc :
  Forall source_ok sources -> Forall group_ok acc ->
  Forall group_ok (group_sources sources acc) /\
  ((exists n s, field acc n = Some s /\ source_covers d s) \/ Exists (fun s => ps_primary s = false /\ source_covers d s) sources ->
   exists n s, field (group_sources sources acc) n = Some s /\ source_covers d s).
Proof using Hnormal Hnames.
  intros Hs. revert acc; induction Hs as [|source sources [Hdef Hspans] Hs IH]; intros acc Hacc; cbn [group_sources].
  { split; [done|]. intros [H|H]; [done|by apply Exists_nil in H]. }
  destruct (ps_primary source) eqn:Ep.
  { destruct (IH acc Hacc) as [H1 H2]. split; [done|]. intros [H|H]; [auto|].
    apply Exists_cons in H as [[? _]|H]; [congruence|auto]. }
  destruct Hdef as [|Hdef]; [done|]. set (name := def_Name (ps_definition source)).
  set (existing := match field acc name with Some existing => existing
                   | None => mk_source false (cloneIndexDefinition (ps_definition source)) [] [] [] end).
  assert (Hex : ps_definition existing = ps_definition source /\ Forall span_ok (ps_spans existing)).
  { unfold existing. destruct (field acc name) as [x|] eqn:E; [|split; [by apply Hnormal|constructor]].
    apply field_Some in E. rewrite Forall_forall in Hacc. destruct (Hacc _ E) as (_ & Hx & Hn & Hsx). split; [|done].
    apply Hnames; done. }
  destruct Hex as [Hexd Hexs]. set (merged := mk_source false _ _ _ _).
  assert (Hmerged : group_ok (name, merged)).
  { split; [done|]. cbn [snd fst merged ps_definition ps_spans]. rewrite Hexd. split; [done|]. split; [done|]. by apply Forall_app. }
  destruct (IH (ins name merged acc) (Forall_entries _ _ _ _ Hmerged Hacc)) as [H1 H2]. split; [done|]. intros Hcov. apply H2.
  destruct Hcov as [(n & s & Hn & Hc)|H].
  - left. destruct (decide (n = name)) as [->|Hne].
    + exists name, merged. rewrite field_ins, beqb_refl. split; [done|]. unfold existing in merged. unfold source_covers in *.
      cbn [merged ps_primary ps_definition ps_spans]. rewrite Hn in *. apply field_Some in Hn. rewrite Forall_forall in Hacc.
      destruct (Hacc _ Hn) as (Hp & _). cbn [snd] in Hp. rewrite Hp in Hc. destruct Hc as (key & Hk & Hin).
      exists key. split; [done|]. apply Exists_app. by left.
    + exists n, s. rewrite field_ins. split; [|done]. destruct (beqb n name) eqn:E; [by apply beqb_eq in E|done].
  - apply Exists_cons in H as [[_ Hc]|H]; [left|by right]. exists name, merged. rewrite field_ins, beqb_refl. split; [done|].
    unfold source_covers in *. rewrite Ep in Hc. cbn [merged ps_primary ps_definition ps_spans]. rewrite Hexd.
    destruct Hc as (key & Hk & Hin). exists key. split; [done|]. apply Exists_app. by right.
Qed.

Lemma normalized_source_covers source : Forall span_ok (ps_spans source) -> source_covers d source -> source_covers d (normalized_source source).
Proof.
  intros Hs. unfold source_covers. cbn [normalized_source ps_primary ps_ids ps_definition ps_spans].
  destruct (ps_primary source); [done|]. intros (key & Hk & Hin). exists key. split; [done|]. by apply normalizeIndexScanSpans_sound.
Qed.

Lemma normalize_ok plan :
  Forall source_ok (ap_sources plan) -> ap_empty plan = false ->
  plan_ok (normalizeQueryAccessPlan plan q) /\
  (ap_usable plan = true -> plan_covers d plan -> plan_covers d (normalizeQueryAccessPlan plan q)).
Proof using Hnormal Hnames.
  intros Hsources Hempty. unfold normalizeQueryAccessPlan. destruct (ap_usable plan); cbn [negb]; [|split; [apply no_plan_ok|done]].
  destruct (group_sources_ok (ap_sources plan) [] Hsources ltac:(constructor)) as [Hgroups Hcovered].
  set (groups := group_sources (ap_sources plan) []) in *. set (primaries := List.filter ps_primary (ap_sources plan)).
  set (primary := mk_source true id_definition _ _ _). set (secondary := normalized_source <$> groups.*2).
  set (sources := match primaries with [] => secondary | _ => primary :: secondary end).
  assert (Hok : Forall source_ok sources).
  { assert (Hsec : Forall source_ok secondary).
    { unfold secondary. rewrite !Forall_fmap. eapply Forall_impl; [exact Hgroups|]. intros [n s] (Hp & Hd & _ & Hs).
      split; [by right|]. by apply normalizeIndexScanSpans_ok. }
    unfold sources. destruct primaries; [done|]. constructor; [|done]. split; [by left|constructor]. }
  split.
  - split; cbn [ap_sources ap_empty]; [exact Hok|]. rewrite Hempty. cbn [orb]. unfold queryPlanHasNoCandidates. cbn [ap_sources].
    rewrite forallb_forall, Forall_forall. intros H s Hs. apply list_elem_of_In in Hs. specialize (H s Hs).
    rewrite andb_true_iff, !zlen_is_nil in H. destruct H as [H1 H2]. split; [by destruct (ps_ids s)|by destruct (ps_spans s)].
  - intros _ Hc. unfold plan_covers in *. cbn [ap_sources]. rewrite Exists_exists in Hc. destruct Hc as (s & Hs & Hc).
    destruct (ps_primary s) eqn:Ep.
    + assert (Hin : s ∈ primaries) by (apply list_elem_of_In, filter_In; split; [by apply list_elem_of_In|done]).
      assert (Hp : source_covers d primary).
      { unfold source_covers in *. rewrite Ep in Hc. destruct Hc as (id & Hid & Hids). exists id. split; [done|].
        cbn [primary ps_ids]. destruct (distinct_ids_elem [] (flat_map ps_ids primaries) id) as [H|H]; [|by apply not_elem_of_nil in H|done].
        apply list_elem_of_In, in_flat_map. exists s. split; by apply list_elem_of_In. }
      unfold sources. destruct primaries; [by apply not_elem_of_nil in Hin|]. by left.
    + destruct Hcovered as (n & x & Hx & Hcx); [right; apply Exists_exists; by exists s|].
      apply field_Some in Hx. rewrite Forall_forall in Hgroups. destruct (Hgroups _ Hx) as (_ & _ & _ & Hsx).
      assert (Hin : normalized_source x ∈ secondary).
      { unfold secondary. apply list_elem_of_fmap_2. apply list_elem_of_fmap. by exists (n, x). }
      assert (He : Exists (source_covers d) secondary) by (apply Exists_exists; eexists; split; [exact Hin|by apply normalized_source_covers]).
      unfold sources. destruct primaries; [done|by right].
Qed.

Lemma union_of_all_spec f children score sources score' sources' :
  union_of_all f children score sources = Some (score', sources') ->
  (forall child, child ∈ children -> plan_ok (f child)) -> Forall source_ok sources ->
  Forall source_ok sources' /\ sources ⊆ sources' /\
  forall child, child ∈ children -> ap_usable (f child) = true /\ (plan_covers d (f child) -> Exists (source_covers d) sources').
Proof.
  revert score sources; induction children as [|child children IH]; intros score sources; cbn [union_of_all].
  - intros [= <- <-] _ Hs. split; [done|]. split; [done|]. intros c Hc. by apply not_elem_of_nil in Hc.
  - destruct (ap_usable (f child)) eqn:Eu; cbn [negb]; [|done]. destruct (ap_empty (f child)) eqn:Ee; intros H Hok Hs.
    + destruct (IH _ _ H) as (H1 & H2 & H3); [intros; apply Hok; by right|done|]. split; [done|]. split; [done|].
      intros c [->|Hc]%elem_of_cons; [|by apply H3]. split; [done|]. intros Hcov.
      by destruct (empty_plan_uncovered (f child) (Hok child ltac:(left)) Ee).
    + destruct (IH _ _ H) as (H1 & H2 & H3); [intros; apply Hok; by right| |].
      { apply Forall_app. split; [done|]. apply (Hok child). left. }
      split; [done|]. split; [intros x Hx; apply H2, elem_of_app; by left|].
      intros c [->|Hc]%elem_of_cons; [|by apply H3]. split; [done|]. intros Hcov.
      eapply Exists_subset; [|exact Hcov]. intros x Hx. apply H2, elem_of_app. by right.
Qed.

Lemma union_plan_ok f children :
  (forall child, child ∈ children -> plan_ok (f child)) ->
  plan_ok (union_plan (union_of_all f children emptyAccessScore []) q) /\
  forall child, child ∈ children -> ap_usable (union_plan (union_of_all f children emptyAccessScore []) q) = true ->
    ap_usable (f child) = true /\
    (plan_covers d (f child) -> plan_covers d (union_plan (union_of_all f children emptyAccessScore []) q)).
Proof using Hnormal Hnames.
  intros Hok. destruct (union_of_all f children emptyAccessScore []) as [[score sources]|] eqn:E; [|split; [apply no_plan_ok|done]].
  destruct (union_of_all_spec f children _ _ _ _ E Hok ltac:(constructor)) as (Hs & _ & Hc). cbn [union_plan].
  destruct sources as [|s0 sources].
  - split; [split; [constructor|constructor]|]. intros child Hin _. destruct (Hc child Hin) as [Hu Hcov]. split; [done|].
    intros H. by apply Hcov, Exists_nil in H.
  - destruct (normalize_ok (plan_of true false score false (s0 :: sources)) Hs eq_refl) as [H1 H2]. split; [done|].
    intros child Hin _. destruct (Hc child Hin) as [Hu Hcov]. split; [done|]. intros H. apply H2; [done|]. by apply Hcov.
Qed.

(** ** The plan of a filter *)

Lemma best_of_all_ind (P : queryAccessPlan -> Prop) f children best :
  (forall child, child ∈ children -> P (f child)) -> P best -> P (best_of_all f children best).
Proof.
  revert best; induction children as [|child children IH]; intros best Hf Hb; cbn [best_of_all]; [done|].
  destruct (_ && _); [apply Hf; left|]. apply IH; [intros; apply Hf; by right|]. apply better_ind; [done|]. apply Hf. left.
Qed.

Lemma best_plan_ok e : plan_ok (bestQueryAccessPlan definitions q e).
Proof using d Hnormal Hnames.
  pose proof (direct_plan_ok e) as Hdok.
  induction e as [| |op args IH| | | | | | | |] using expr_nested_ind; cbn [bestQueryAccessPlan]; try done.
  assert (Hargs : forall child, child ∈ args -> plan_ok (bestQueryAccessPlan definitions q child)).
  { rewrite Forall_forall in IH. intros child Hin. apply IH; [done|apply direct_plan_ok]. }
  destruct (beqb op op_and); [by apply best_of_all_ind|]. destruct (beqb op op_or); [|done].
  destruct (directPlanFullyCoversOr _ _); [done|]. cbv zeta.
  destruct (union_plan_ok (bestQueryAccessPlan definitions q) args Hargs) as [H1 _].
  destruct (ap_usable _); [|done]. by apply better_ind.
Qed.

Lemma bestQueryAccessPlan_ok e :
  (exists id, Document_ID d = Some id) ->
  plan_ok (bestQueryAccessPlan definitions q e) /\ plan_sound e (bestQueryAccessPlan definitions q e).
Proof using Hvalues Hkeys Hnormal Hnames.
  intros Hid. pose proof (direct_plan_ok e) as Hdok. pose proof (direct_plan_sound e Hid) as Hds.
  induction e as [| |op args IH| | | | | | | |] using expr_nested_ind; cbn [bestQueryAccessPlan]; try (by split).
  assert (Hargs : forall child, child ∈ args ->
    plan_ok (bestQueryAccessPlan definitions q child) /\ plan_sound child (bestQueryAccessPlan definitions q child)).
  { rewrite Forall_forall in IH. intros child Hin. apply IH; [done|apply direct_plan_ok|by apply direct_plan_sound]. }
  destruct (beqb op op_and) eqn:Eand; [|destruct (beqb op op_or) eqn:Eor; [|by split]].
  - apply beqb_eq in Eand. apply (best_of_all_ind (fun plan => plan_ok plan /\ plan_sound (logicalExpr op args) plan)); [|by split].
    intros child Hin. destruct (Hargs child Hin) as [H1 H2]. split; [done|]. intros Hu Hc Hs. apply H2; [done| |].
    + pose proof (comparable_args _ _ _ Hc) as H. rewrite Forall_forall in H. auto.
    + pose proof (satisfies_all d op args Eand Hs) as H. rewrite Forall_forall in H. auto.
  - apply beqb_eq in Eor. destruct (directPlanFullyCoversOr _ _); [by split|]. cbv zeta.
    destruct (union_plan_ok (bestQueryAccessPlan definitions q) args) as [H1 H2]; [intros; by apply Hargs|].
    set (union := union_plan _ _) in *. destruct (ap_usable union) eqn:Eu; [|by split].
    apply (better_ind (fun plan => plan_ok plan /\ plan_sound (logicalExpr op args) plan)); [by split|]. split; [done|].
    intros _ Hc Hs. pose proof (comparable_args _ _ _ Hc) as Hcs. rewrite Forall_forall in Hcs.
    assert (Hne : op <> bs "and") by (by rewrite Eor).
    pose proof (satisfies_any d op args Hne Hs) as Hany. rewrite Exists_exists in Hany. destruct Hany as (child & Hin & Hsc).
    destruct (H2 child Hin eq_refl) as [Huc Hcov]. apply Hcov. apply Hargs; auto.
Qed.
End Document.
End Plans.

(** ** The plan of a query *)

Lemma machine_lookup d path v : machine_ok (VObject false d) -> lookupInternal d path = Some v -> machine_ok v.
Proof.
  unfold lookupInternal. generalize (split_dot path) as parts. intros parts. revert d.
  induction parts as [|part parts IH]; intros d Hm; cbn [lookup_parts]; [done|].
  destruct (field d part) as [w|] eqn:Ef; [|done].
  assert (Hw : machine_ok w).
  { rewrite machine_ok_object in Hm. destruct Hm as [_ Hm]. rewrite Forall_forall in Hm. apply field_Some in Ef. by apply (Hm _ Ef). }
  destruct parts as [|p parts]; [by intros [= <-]|]. destruct w as [| | | | | | | |isNil d'|]; try done. by apply IH.
Qed.

(** What a plan needs of the indexes a collection has: their names are their
    own, and the document has a key in each, or none. *)
Record indexed_by (definitions : list IndexDefinition) (d : document) : Prop := {
  indexed_machine : machine_ok (VObject false d);
  indexed_id : exists id, Document_ID d = Some id;
  indexed_keys : forall definition, definition ∈ definitions -> exists okey, indexDocumentKey definition d = Ok okey;
  indexed_names : forall a b, a ∈ definitions -> b ∈ definitions -> def_Name a = def_Name b -> a = b }.

Lemma elem_of_cloned definitions c :
  c ∈ sort_stable definition_before (cloneIndexDefinition <$> definitions) ->
  exists definition, definition ∈ definitions /\ c = cloneIndexDefinition definition.
Proof.
  rewrite sort_stable_Permutation. intros (definition & -> & Hin)%list_elem_of_fmap. by exists definition.
Qed.

Lemma selected_usable e definitions q :
  ap_usable (selectQueryAccessPlan e definitions q) = true ->
  selectQueryAccessPlan e definitions q =
  bestQueryAccessPlan (sort_stable definition_before (cloneIndexDefinition <$> definitions)) q e.
Proof.
  unfold selectQueryAccessPlan. cbv zeta. destruct (ap_usable (bestQueryAccessPlan _ _ _)) eqn:E; [done|].
  destruct (classifyQueryPlanFallback _ _ _) as [reason paths]. done.
Qed.

(** The definitions a plan is made from. *)
Definition planned_definitions (definitions : list IndexDefinition) : list IndexDefinition :=
  sort_stable definition_before (cloneIndexDefinition <$> definitions).

Lemma selected_sources_ok e definitions q :
  (forall a b, a ∈ definitions -> b ∈ definitions -> def_Name a = def_Name b -> a = b) ->
  let plan := selectQueryAccessPlan e definitions q in
  ap_usable plan = true -> plan_ok (planned_definitions definitions) plan.
Proof.
  intros Hnames plan Hu. unfold plan in *. pose proof (selected_usable _ _ _ Hu) as Hselected. rewrite Hselected. unfold planned_definitions.
  apply (best_plan_ok _ q []).
  - intros c (definition & _ & ->)%elem_of_cloned. apply clone_normal.
  - intros a b (x & Hx & ->)%elem_of_cloned (y & Hy & ->)%elem_of_cloned. rewrite !clone_name. intros E.
    by rewrite (Hnames x y Hx Hy E).
Qed.

Lemma selected_plan_ok definitions q d :
  indexed_by definitions d -> comparable d (q_where q) ->
  let plan := selectQueryAccessPlan (q_where q) definitions q in
  ap_usable plan = true ->
  plan_ok (planned_definitions definitions) plan /\ (satisfies (q_where q) d -> plan_covers d plan).
Proof.
  intros [Hm Hid Hkeys Hnames] Hc plan Hu. unfold plan in *. pose proof (selected_usable _ _ _ Hu) as Hselected. rewrite Hselected in Hu |- *.
  unfold planned_definitions. set (cloned := sort_stable _ _) in *.
  destruct (bestQueryAccessPlan_ok cloned q d) with (e := q_where q) as [Hok Hsound]; [..|done|].
  - intros path v. by apply machine_lookup.
  - intros c (definition & _ & ->)%elem_of_cloned. apply clone_normal.
  - intros c (definition & Hin & ->)%elem_of_cloned. rewrite clone_key. by apply Hkeys.
  - intros a b (x & Hx & ->)%elem_of_cloned (y & Hy & ->)%elem_of_cloned. rewrite !clone_name. intros E.
    by rewrite (Hnames x y Hx Hy E).
  - split; [done|]. by apply Hsound.
Qed.

(** C28: a usable access plan reads only indexes of the collection, reports an
    empty result only when it has nothing to read, and covers every document that
    satisfies the filter: its id is among the primary ids, or its key in one of
    the indexes is in one of the intervals. The ranges of the filter compare the
    numbers of the document exactly, as index keys do. *)
Theorem plan_covers_matches definitions q d :
  indexed_by definitions d -> comparable d (q_where q) ->
  let plan := selectQueryAccessPlan (q_where q) definitions q in
  ap_usable plan = true ->
  Forall (fun s => ps_primary s = true \/
    exists definition, definition ∈ definitions /\ ps_definition s = cloneIndexDefinition definition) (ap_sources plan) /\
  (ap_empty plan = true -> Forall source_empty (ap_sources plan)) /\
  (satisfies (q_where q) d -> plan_covers d plan).
Proof.
  intros Hd Hc plan Hu. destruct (selected_plan_ok definitions q d Hd Hc Hu) as [[Hs He] Hsound].
  split; [|done]. eapply Forall_impl; [exact Hs|]. intros s [[H|H] _]; [by left|right]. by apply elem_of_cloned in H.
Qed.

(** Two indexes, and a filter with a branch for each: the plan is the union of
    an interval of the first and single keys of the second. *)
Definition example_definitions : list IndexDefinition :=
  [mk_definition (bs "by_team") (bs "team") 1 false [new_field (bs "team") 1; new_field (bs "score") (-1)];
   mk_definition (bs "by_age") (bs "age") 1 false [new_field (bs "age") 1]].

Definition example_plan_query : QuerySpec :=
  mk_query (logicalExpr (bs "or")
    [logicalExpr (bs "and") [compareExpr (bs "eq") (bs "team") (VString (bs "a")); compareExpr (bs "gt") (bs "score") (VInt 3)];
     membershipExpr (bs "in") (bs "age") [VInt 30; VInt 40]]) [] 0 None false.

Definition example_member : document :=
  [(bs "_id", VID (be_enc 16 7)); (bs "team", VString (bs "a")); (bs "score", VInt 9); (bs "age", VInt 20)].

Lemma example_indexed : indexed_by example_definitions example_member.
Proof.
  split.
  - rewrite machine_ok_object. split; [apply (bool_decide_unpack _); vm_compute; exact I|].
    repeat constructor; vm_compute; intuition discriminate.
  - by eexists.
  - intros definition [->|[->|[]%not_elem_of_nil]%elem_of_cons]%elem_of_cons; eexists; vm_compute; reflexivity.
  - intros a b [->|[->|[]%not_elem_of_nil]%elem_of_cons]%elem_of_cons [->|[->|[]%not_elem_of_nil]%elem_of_cons]%elem_of_cons;
      done.
Qed.

Lemma example_comparable : comparable example_member (q_where example_plan_query).
Proof.
  split.
  - repeat constructor; vm_compute; intuition discriminate.
  - apply Forall_singleton. intros v Hv. vm_compute in Hv. by injection Hv as <-.
Qed.

Lemma plan_covers_matches_witness :
  let plan := selectQueryAccessPlan (q_where example_plan_query) example_definitions example_plan_query in
  ap_usable plan = true /\ satisfies (q_where example_plan_query) example_member /\ plan_covers example_member plan.
Proof.
  intros plan. assert (Hu : ap_usable plan = true) by (vm_compute; reflexivity).
  assert (Hs : satisfies (q_where example_plan_query) example_member).
  { apply (proj1 (matchWithBudget_correct example_plan_query example_member ltac:(vm_compute; reflexivity))).
    vm_compute; reflexivity. }
  split; [exact Hu|]. split; [exact Hs|].
  destruct (plan_covers_matches example_definitions example_plan_query example_member example_indexed example_comparable Hu)
    as (_ & _ & H).
  exact (H Hs).
Defined.
