(* ===== verification/MemoryIndexes.v ===== *)
(** * Collections in memory and their indexes

    [collectionData] of [internal/database/database.go] with the index
    operations of [indexes.go], over the trees of [IndexTree]. Go's maps are
    association lists; where the code ranges over a map in Go's random order,
    the model takes the order of the list, and no theorem depends on it. A tree
    operation that would panic in Go is [ErrPanic]. The lemmas show that the trees
    of a collection hold the keys of its documents, and what the uniqueness and
    presence checks decide. *)
From S2P Require Import Prelude Bytes Strings Entries Float64 Values IndexKey CompoundKey Documents IndexTree.
From S2P Require Import IndexTreeShape IndexTreeMap DocumentCodec Update Query IndexDefinitions.

(** ** State *)

(** [tree] is nil for an index of a durable database, whose entries are in
    storage. *)
Record indexState := mk_index { is_definition : IndexDefinition; is_tree : option Tree }.

Record collectionData := mk_data {
  cd_documents : list (bytes * document); cd_order : list bytes;
  cd_positions : list (bytes * Z); cd_indexes : list (bytes * indexState) }.

Definition newCollectionData : collectionData := mk_data [] [] [] [].

Definition set_indexes (d : collectionData) (indexes : list (bytes * indexState)) : collectionData :=
  mk_data (cd_documents d) (cd_order d) (cd_positions d) indexes.

Fixpoint positions_from (order : list bytes) (position : Z) (positions : list (bytes * Z)) : list (bytes * Z) :=
  match order with
  | [] => positions
  | id :: order => positions_from order (position + 1) (ins id position positions)
  end.

Definition rebuildPositions (d : collectionData) : collectionData :=
  mk_data (cd_documents d) (cd_order d) (positions_from (cd_order d) 0 []) (cd_indexes d).

(** ** Building an index *)

Record indexBuildBudget := mk_build_budget {
  bb_limits : ResourceLimits; bb_entries : Z; bb_bytes : Z; bb_rejected : bool }.

Definition build_add (key : bytes) (budget : indexBuildBudget) : result indexBuildBudget :=
  let entryBytes := to_u64 (zlen key + 24) in
  if MaxIndexBuildEntries (bb_limits budget) <=? bb_entries budget then Err ErrResourceLimit
  else if (MaxIndexBuildBytes (bb_limits budget) <? bb_bytes budget)
          || (MaxIndexBuildBytes (bb_limits budget) - bb_bytes budget <? entryBytes) then Err ErrResourceLimit
  else Ok (mk_build_budget (bb_limits budget) (bb_entries budget + 1) (bb_bytes budget + entryBytes) (bb_rejected budget)).

(** [budget] may be nil. *)
Definition charge_build (key : bytes) (budget : option indexBuildBudget) : result (option indexBuildBudget) :=
  match budget with
  | None => Ok None
  | Some budget => let* budget := build_add key budget in Ok (Some budget)
  end.

Definition tree_get (t : Tree) (key : bytes) : result (list bytes) := of_option ErrPanic (Get t key).
Definition tree_insert (t : Tree) (key value : bytes) : result Tree :=
  let* (t, _) := of_option ErrPanic (Insert t key value) in Ok t.
Definition tree_delete (t : Tree) (key value : bytes) : result Tree :=
  let* (t, _) := of_option ErrPanic (Delete t key value) in Ok t.

Definition is_nil {A} (l : list A) : bool := match l with [] => true | _ => false end.

(** The loop over the documents of the collection. *)
Fixpoint build_loop (definition : IndexDefinition) (documents : list (bytes * document)) (order : list bytes)
    (budget : option indexBuildBudget) (t : Tree) : result (Tree * option indexBuildBudget) :=
  match order with
  | [] => Ok (t, budget)
  | id :: order =>
      match field documents id with
      | None => Err ErrCorrupt
      | Some document =>
          let* found := indexDocumentKey definition document in
          match found with
          | None => build_loop definition documents order budget t
          | Some key =>
              let* budget := charge_build key budget in
              let* owners := tree_get t key in
              if def_Unique definition && negb (is_nil owners) then Err ErrDuplicateKey
              else
                let* t := tree_insert t key id in
                build_loop definition documents order budget t
          end
      end
  end.

Definition buildIndex (definition : IndexDefinition) (data : collectionData) (budget : option indexBuildBudget)
    : result (indexState * option indexBuildBudget) :=
  let* (t, budget) := build_loop definition (cd_documents data) (cd_order data) budget New in
  Ok (mk_index definition (Some t), budget).

(** ** Checks before a change *)

(** A loop over the indexes that have a tree. *)
Fixpoint check_indexes (check : IndexDefinition -> Tree -> result unit) (indexes : list (bytes * indexState)) : result unit :=
  match indexes with
  | [] => Ok tt
  | (_, state) :: indexes =>
      let* _ := match is_tree state with None => Ok tt | Some t => check (is_definition state) t end in
      check_indexes check indexes
  end.

Definition validateIndexInsert (d : collectionData) (id : bytes) (document : document) : result unit :=
  check_indexes (fun definition t =>
    let* found := indexDocumentKey definition document in
    match found with
    | None => Ok tt
    | Some key =>
        if def_Unique definition then
          let* values := tree_get t key in
          match values with
          | first :: _ => if negb (beqb first id) then Err ErrDuplicateKey else Ok tt
          | [] => Ok tt
          end
        else Ok tt
    end) (cd_indexes d).

Fixpoint batch_loop (definition : IndexDefinition) (t : Tree) (batch : list (bytes * document))
    (batchOwners : list (bytes * bytes)) : result unit :=
  match batch with
  | [] => Ok tt
  | (id, document) :: batch =>
      let* found := indexDocumentKey definition document in
      match found with
      | None => batch_loop definition t batch batchOwners
      | Some key =>
          if negb (def_Unique definition) then batch_loop definition t batch batchOwners
          else
            let* owners := tree_get t key in
            if negb (is_nil owners) then Err ErrDuplicateKey
            else
              match field batchOwners key with
              | Some owner =>
                  if negb (beqb owner id) then Err ErrDuplicateKey
                  else batch_loop definition t batch (ins key id batchOwners)
              | None => batch_loop definition t batch (ins key id batchOwners)
              end
      end
  end.

(** The batch is the two slices of Go, of one length, side by side. *)
Definition validateIndexBatchInsert (d : collectionData) (batch : list (bytes * document)) : result unit :=
  check_indexes (fun definition t => batch_loop definition t batch []) (cd_indexes d).

Definition has_key (definition : IndexDefinition) (document : document) : result (option bytes) :=
  match indexDocumentKey definition document with Err _ => Err ErrInvalidIndex | Ok found => Ok found end.

(** Owners of the key of a changed document: all are changing themselves. *)
Fixpoint owners_moving (changedIDs owners : list bytes) : result unit :=
  match owners with
  | [] => Ok tt
  | rawOwner :: owners =>
      if negb (zlen rawOwner =? 16) then Err ErrDuplicateKey
      else if negb (existsb (beqb rawOwner) changedIDs) then Err ErrDuplicateKey
      else owners_moving changedIDs owners
  end.

Fixpoint updates_loop (definition : IndexDefinition) (t : Tree) (changedIDs : list bytes) (changes : list pendingUpdate)
    (afterOwners : list (bytes * bytes)) : result unit :=
  match changes with
  | [] => Ok tt
  | change :: changes =>
      let* found := has_key definition (pu_after change) in
      match found with
      | None => updates_loop definition t changedIDs changes afterOwners
      | Some key =>
          let* owners := tree_get t key in
          let* _ := owners_moving changedIDs owners in
          match field afterOwners key with
          | Some owner =>
              if negb (beqb owner (pu_id change)) then Err ErrDuplicateKey
              else updates_loop definition t changedIDs changes (ins key (pu_id change) afterOwners)
          | None => updates_loop definition t changedIDs changes (ins key (pu_id change) afterOwners)
          end
      end
  end.

Fixpoint keys_exist (definition : IndexDefinition) (documents : list document) : result unit :=
  match documents with
  | [] => Ok tt
  | document :: documents => let* _ := has_key definition document in keys_exist definition documents
  end.

Definition validateIndexUpdates (d : collectionData) (changes : list pendingUpdate) : result unit :=
  check_indexes (fun definition t =>
    if negb (def_Unique definition)
    then keys_exist definition (flat_map (fun change => [pu_before change; pu_after change]) changes)
    else
      let* _ := keys_exist definition (pu_before <$> changes) in
      updates_loop definition t (pu_id <$> changes) changes []) (cd_indexes d).

(** ** Maintaining the indexes *)

(** A change to every index that has a tree. *)
Fixpoint change_indexes (change : IndexDefinition -> Tree -> result Tree) (indexes : list (bytes * indexState))
    : result (list (bytes * indexState)) :=
  match indexes with
  | [] => Ok []
  | (name, state) :: indexes =>
      let* state := match is_tree state with
                    | None => Ok state
                    | Some t => let* t := change (is_definition state) t in Ok (mk_index (is_definition state) (Some t))
                    end in
      let* rest := change_indexes change indexes in
      Ok ((name, state) :: rest)
  end.

Definition insertIndexes (d : collectionData) (id : bytes) (document : document) : result collectionData :=
  let* indexes := change_indexes (fun definition t =>
    match indexDocumentKey definition document with
    | Ok (Some key) => tree_insert t key id
    | _ => Ok t
    end) (cd_indexes d) in
  Ok (set_indexes d indexes).

Definition deleteIndexes (d : collectionData) (id : bytes) (document : document) : result collectionData :=
  let* indexes := change_indexes (fun definition t =>
    match indexDocumentKey definition document with
    | Ok (Some key) => tree_delete t key id
    | _ => Ok t
    end) (cd_indexes d) in
  Ok (set_indexes d indexes).

Definition same_key (before after : option bytes) : bool :=
  match before, after with Some b, Some a => beqb b a | _, _ => false end.

Definition updateIndexes (d : collectionData) (id : bytes) (before after : document) : result collectionData :=
  let* indexes := change_indexes (fun definition t =>
    match indexDocumentKey definition before, indexDocumentKey definition after with
    | Ok beforeKey, Ok afterKey =>
        if same_key beforeKey afterKey then Ok t
        else
          let* t := match beforeKey with Some key => tree_delete t key id | None => Ok t end in
          match afterKey with Some key => tree_insert t key id | None => Ok t end
    | _, _ => Ok t
    end) (cd_indexes d) in
  Ok (set_indexes d indexes).

(** ** What the indexes of a collection hold

    The index trees hold exactly the keys of the documents, the checks before a
    change accept exactly the changes that keep every index well defined, and
    the updates of the trees follow the documents. *)
(** ** Trees as sets of pairs *)

(** What the package of index trees promises to a collection: a tree holds a set
    of pairs of a key and a value. *)
Definition indexed (t : Tree) (R : bytes -> bytes -> Prop) : Prop :=
  exists es, holds t es /\ forall key v, v ∈ values_of es key <-> R key v.

Lemma indexed_iff t (R R' : bytes -> bytes -> Prop) : (forall key v, R key v <-> R' key v) -> indexed t R -> indexed t R'.
Proof. intros HR (es & Hh & H). exists es. split; [done|]. intros key v. by rewrite H. Qed.

Lemma indexed_new : indexed New (fun _ _ => False).
Proof. exists []. split; [apply New_holds|]. intros key v. cbn. split; [apply not_elem_of_nil|done]. Qed.

Lemma indexed_get t R key : indexed t R ->
  exists vs, tree_get t key = Ok vs /\ forall v, v ∈ vs <-> R key v.
Proof. intros (es & Hh & H). exists (values_of es key). unfold tree_get. by rewrite (Get_spec t es). Qed.

Lemma values_of_add key v es key' :
  values_of (multi_add key v es) key' = if beqb key' key then value_add v (values_of es key) else values_of es key'.
Proof. unfold multi_add, values_of at 1. rewrite field_ins. by destruct (beqb key' key). Qed.

Lemma values_of_remove key v es key' : sorted_keys es ->
  values_of (multi_remove key v es) key' = if beqb key' key then value_remove v (values_of es key) else values_of es key'.
Proof.
  intros Hs. unfold multi_remove. destruct (value_remove v (values_of es key)) as [|w ws] eqn:E; unfold values_of at 1.
  - rewrite field_del by done. by destruct (beqb key' key).
  - rewrite field_ins. by destruct (beqb key' key).
Qed.

Lemma holds_sorted_sets t es : holds t es -> sorted_keys es /\ Forall value_set es.*2.
Proof.
  intros Ht. destruct Ht as (h & [Hm Hs Hw [Hok Hsort] Hlk Hsz] & He). rewrite He in *. split; [done|].
  rewrite <- He. by apply leaves_ok_values.
Qed.

Lemma indexed_insert t R key v : indexed t R -> key <> [] ->
  exists t', tree_insert t key v = Ok t' /\ indexed t' (fun key' v' => (key' = key /\ v' = v) \/ R key' v').
Proof.
  intros (es & Hh & H) Hk. destruct (Insert_spec t es key v Hh Hk) as (t' & Hi & Hh').
  exists t'. unfold tree_insert. rewrite Hi. split; [done|]. eexists. split; [exact Hh'|]. intros key' v'.
  destruct (multi_has key v es) eqn:Em.
  - apply bool_decide_eq_true in Em. rewrite H. split; [by right|]. intros [[-> ->]|HR]; [by apply H|done].
  - rewrite values_of_add. destruct (beqb key' key) eqn:E.
    + apply beqb_eq in E as ->. rewrite elem_of_value_add, H. tauto.
    + rewrite H. apply beqb_neq in E. tauto.
Qed.

Lemma indexed_delete t R key v : indexed t R -> key <> [] ->
  exists t', tree_delete t key v = Ok t' /\ indexed t' (fun key' v' => R key' v' /\ ~ (key' = key /\ v' = v)).
Proof.
  intros (es & Hh & H) Hk. destruct (Delete_spec t es key v Hh Hk) as (t' & Hi & Hh').
  destruct (holds_sorted_sets t es Hh) as [Hs Hsets].
  exists t'. unfold tree_delete. rewrite Hi. split; [done|]. eexists. split; [exact Hh'|]. intros key' v'.
  destruct (multi_has key v es) eqn:Em.
  - rewrite values_of_remove by done. destruct (beqb key' key) eqn:E.
    + apply beqb_eq in E as ->. rewrite elem_of_value_remove by (by apply values_of_sorted). rewrite H. tauto.
    + rewrite H. apply beqb_neq in E. tauto.
  - apply bool_decide_eq_false in Em. rewrite H in *. split; [|tauto]. intros HR. split; [done|]. intros [-> ->]. done.
Qed.

Lemma indexed_scan t R start fin : indexed t R ->
  exists pairs, Scan t start fin false = Some pairs /\
    forall key v, mk_pair key v ∈ pairs <-> R key v /\ in_range start fin false key = true.
Proof.
  intros (es & Hh & H). exists (pairs_in start fin false es). split; [by apply Scan_spec|]. intros key v.
  destruct (holds_sorted_sets t es Hh) as [Hs _].
  unfold pairs_in. rewrite list_elem_of_In, in_flat_map. setoid_rewrite filter_In. split.
  - intros ([k vs] & [Hin Hr] & Hp). apply list_elem_of_In, list_elem_of_fmap in Hp as (w & [= -> ->] & Hw).
    cbn [fst snd] in *. split; [|done]. apply H. unfold values_of. apply list_elem_of_In in Hin.
    by rewrite (field_NoDup es k vs (sorted_keys_NoDup es Hs) Hin).
  - intros [HR Hr]. apply H in HR. unfold values_of in HR. destruct (field es key) as [vs|] eqn:E; [|by apply not_elem_of_nil in HR].
    exists (key, vs). split; [split; [by apply list_elem_of_In, field_Some|done]|].
    apply list_elem_of_In. unfold pairs_of. cbn [fst snd]. by apply list_elem_of_fmap_2.
Qed.

(** ** Keys of documents *)

Lemma app_cons_nonempty (l : bytes) x y : l ++ x :: y <> [].
Proof. by destruct l. Qed.

Lemma encodeIndexKey_nonempty v key : encodeIndexKey v = Ok key -> key <> [].
Proof.
  assert (Hnum : forall w, appendNumericIndexKey [] w = Ok key -> key <> []).
  { intros w. unfold appendNumericIndexKey. destruct (numericParts w) as [[[neg m] sh]|]; [|done]. cbn [rbind].
    destruct (m =? 0); [by intros [= <-]|]. destruct (writeShiftedIndexMagnitude _ m sh) as [body fits].
    destruct fits; cbn [negb]; [|done]. destruct neg; by intros [= <-]. }
  unfold encodeIndexKey. destruct v; cbn [appendIndexKey]; try done; try apply Hnum; by intros [= <-].
Qed.

Lemma encodeCompoundIndexKey_nonempty vs fields key : encodeCompoundIndexKey vs fields = Ok key -> key <> [].
Proof.
  unfold encodeCompoundIndexKey. destruct (Z.eqb_spec (zlen vs) 0) as [|Hv]; [done|].
  destruct (Z.eqb_spec (zlen vs) (zlen fields)) as [Hl|]; [|done]. cbn [negb orb].
  destruct (maxCompoundIndexFields <? zlen fields); [done|]. intros He. inv_ok.
  destruct (_ <? _); [done|]. injection He as <-. rewrite appendComponents_spec. cbn [app].
  destruct fields as [|f fields]; [by rewrite zlen_nil in Hl|]. destruct vs as [|v vs]; [done|].
  cbn [encodeScalars] in Hok. destruct (_ && _); [done|]. inv_ok. subst a. cbn [components].
  unfold component. destruct (Order f =? 1); rewrite <- app_assoc; apply app_cons_nonempty.
Qed.

Lemma index_key_nonempty definition d key : indexDocumentKey definition d = Ok (Some key) -> key <> [].
Proof.
  unfold indexDocumentKey. destruct (zlen _ =? 0); [done|].
  destruct (leading_values d _) as [values complete]. destruct complete; cbn [negb].
  - destruct (usesCompoundIndexCodec definition).
    + destruct (encodeCompoundIndexKey _ _) eqn:E; [|done]. intros [= <-]. by apply encodeCompoundIndexKey_nonempty in E.
    + destruct values as [|v values]; [done|]. destruct (encodeIndexKey v) eqn:E; [|done]. intros [= <-].
      by apply encodeIndexKey_nonempty in E.
  - destruct (_ || _); [done|]. destruct (Document_ID d) as [id|]; [|done]. destruct (all_zero id); [done|].
    unfold encodeCompoundPartialIndexKey. destruct (_ || all_zero id); [done|].
    destruct (encodeCompoundIndexKey _ _); [|done]. cbn [rbind]. destruct (_ <? _); [done|]. intros [= <-]. apply app_cons_nonempty.
Qed.

(** An error of a key is always that of an invalid index. *)
Lemma index_key_error definition d e : indexDocumentKey definition d = Err e -> e = ErrInvalidIndex.
Proof.
  unfold indexDocumentKey. destruct (zlen _ =? 0); [by intros [= <-]|].
  destruct (leading_values d _) as [values complete]. destruct complete; cbn [negb].
  - destruct (if usesCompoundIndexCodec definition then _ else _); [done|]. by intros [= <-].
  - destruct (_ || _); [done|]. destruct (Document_ID d) as [id|]; [|by intros [= <-]].
    destruct (all_zero id); [by intros [= <-]|]. destruct (encodeCompoundPartialIndexKey _ _ _); [done|]. by intros [= <-].
Qed.

(** ** The pairs an index should hold *)

Abbreviation members := (list (bytes * document)).

Definition index_pairs (definition : IndexDefinition) (docs : members) (key id : bytes) : Prop :=
  exists d, (id, d) ∈ docs /\ indexDocumentKey definition d = Ok (Some key).

(** Every document has a key or none; a unique index has one document per key. *)
Definition keyed (definition : IndexDefinition) (d : document) : Prop := exists okey, indexDocumentKey definition d = Ok okey.
Definition conflict (definition : IndexDefinition) (docs : members) : Prop :=
  exists key id id', index_pairs definition docs key id /\ index_pairs definition docs key id' /\ id <> id'.
Definition admitted (definition : IndexDefinition) (docs : members) : Prop :=
  Forall (fun m => keyed definition m.2) docs /\ (def_Unique definition = true -> ~ conflict definition docs).

Lemma index_pairs_subset definition docs docs' key id : docs ⊆ docs' -> index_pairs definition docs key id -> index_pairs definition docs' key id.
Proof. intros Hs (d & Hin & Hk). exists d. auto. Qed.

Lemma conflict_subset definition docs docs' : docs ⊆ docs' -> conflict definition docs -> conflict definition docs'.
Proof.
  intros Hs (key & id & id' & H1 & H2 & Hne). exists key, id, id'. split; [|split]; [|by eapply index_pairs_subset|done].
  by apply (index_pairs_subset definition docs).
Qed.

Lemma admitted_subset definition docs docs' : docs ⊆ docs' -> admitted definition docs' -> admitted definition docs.
Proof.
  intros Hs [Hk Hc]. split.
  - rewrite Forall_forall in *. auto.
  - intros Hu Hconf. apply (Hc Hu). by apply (conflict_subset definition docs).
Qed.

Lemma index_pairs_app definition docs docs' key id :
  index_pairs definition (docs ++ docs') key id <-> index_pairs definition docs key id \/ index_pairs definition docs' key id.
Proof.
  split.
  - intros (d & [Hin|Hin]%elem_of_app & Hk); [left|right]; by exists d.
  - intros [(d & Hin & Hk)|(d & Hin & Hk)]; exists d; (split; [apply elem_of_app; auto|done]).
Qed.

Lemma index_pairs_single definition id d key id' :
  index_pairs definition [(id, d)] key id' <-> id' = id /\ indexDocumentKey definition d = Ok (Some key).
Proof.
  split.
  - intros (x & Hin & Hk). apply list_elem_of_singleton in Hin. by simplify_eq.
  - intros [-> Hk]. exists d. split; [by apply list_elem_of_singleton|done].
Qed.

(** ** Checks *)

(** A check answers whether [P] holds, and reports which rule fails. *)
Definition verdict (r : result unit) (P : Prop) : Prop :=
  match r with Ok _ => P | Err e => (e = ErrInvalidIndex \/ e = ErrDuplicateKey) /\ ~ P end.

Lemma verdict_iff r (P Q : Prop) : (P <-> Q) -> verdict r P -> verdict r Q.
Proof. intros H. unfold verdict. destruct r; rewrite H; done. Qed.

Lemma verdict_bind r k (P Q : Prop) : verdict r P -> (Q -> P) -> (P -> verdict (k tt) Q) -> verdict (let* _ := r in k tt) Q.
Proof.
  unfold verdict. intros Hr HQ Hk. destruct r as [[]|e]; cbn [rbind]; [by apply Hk|]. destruct Hr as [He Hn]. split; [done|]. auto.
Qed.

Lemma check_indexes_verdict check indexes (P : IndexDefinition -> Prop) :
  Forall (fun ns => exists t, is_tree ns.2 = Some t /\ verdict (check (is_definition ns.2) t) (P (is_definition ns.2))) indexes ->
  verdict (check_indexes check indexes) (Forall (fun ns => P (is_definition ns.2)) indexes).
Proof.
  induction 1 as [|[name st] indexes (t & Ht & Hc) Hi IH]; cbn [check_indexes fst snd] in *; [by constructor|].
  rewrite Ht. apply (verdict_bind _ (fun _ => check_indexes check indexes) _ _ Hc).
  - by intros [H _]%Forall_cons.
  - intros HP. eapply verdict_iff; [|exact IH]. rewrite Forall_cons. tauto.
Qed.

Definition owners_ok (definition : IndexDefinition) (docs : members) (owners : list (bytes * bytes)) : Prop :=
  forall key id, field owners key = Some id <-> index_pairs definition docs key id.

Lemma index_pairs_nil definition key id : ~ index_pairs definition [] key id.
Proof. intros (d & Hin & _). by apply not_elem_of_nil in Hin. Qed.

Lemma owners_ok_nil definition : owners_ok definition [] [].
Proof. intros key id. split; [done|]. by intros H%index_pairs_nil. Qed.

Lemma admitted_nil definition : admitted definition [].
Proof. split; [constructor|]. by intros _ (key & i & j & H%index_pairs_nil & _). Qed.

(** Adding a document to those the owners are of. *)
Lemma owners_ok_none definition docs owners id d :
  indexDocumentKey definition d = Ok None -> owners_ok definition docs owners -> owners_ok definition (docs ++ [(id, d)]) owners.
Proof.
  intros Hk Ho key v. rewrite index_pairs_app, index_pairs_single, Hk, (Ho key v). split; [auto|]. by intros [H|[_ ?]].
Qed.

Lemma owners_ok_some definition docs owners id d key :
  indexDocumentKey definition d = Ok (Some key) -> owners_ok definition docs owners ->
  (field owners key = None \/ field owners key = Some id) ->
  owners_ok definition (docs ++ [(id, d)]) (ins key id owners).
Proof.
  intros Hk Ho Hf key' v. rewrite index_pairs_app, index_pairs_single, Hk, field_ins. destruct (beqb key' key) eqn:E.
  - apply beqb_eq in E as ->. split.
    + intros [= <-]. by right.
    + intros [H|[-> _]]; [|done]. apply Ho in H. destruct Hf as [Hf|Hf]; rewrite Hf in H; [done|by simplify_eq].
  - apply beqb_neq in E. rewrite (Ho key' v). split; [auto|]. intros [H|[_ [= ->]]]; done.
Qed.

Lemma conflict_pair definition docs key id id' :
  index_pairs definition docs key id -> index_pairs definition docs key id' -> id <> id' -> conflict definition docs.
Proof. intros. by exists key, id, id'. Qed.

(** One more document. *)
Lemma admitted_snoc definition docs id d okey :
  indexDocumentKey definition d = Ok okey -> admitted definition docs ->
  (forall key v, def_Unique definition = true -> okey = Some key -> index_pairs definition docs key v -> v = id) ->
  admitted definition (docs ++ [(id, d)]).
Proof.
  intros Hk [Hkeyed Hc] Hown. split.
  - apply Forall_app. split; [done|]. apply Forall_singleton. by exists okey.
  - intros Hu (key & i & j & Hi & Hj & Hne). rewrite index_pairs_app, index_pairs_single, Hk in Hi, Hj.
    destruct Hi as [Hi|[-> [= Ei]]], Hj as [Hj|[-> [= Ej]]].
    + apply (Hc Hu). by exists key, i, j.
    + apply Hne. by apply (Hown key i).
    + apply Hne. symmetry. by apply (Hown key j).
    + done.
Qed.

Lemma conflict_refused definition docs docs' key id v :
  def_Unique definition = true -> docs ⊆ docs' -> index_pairs definition docs' key id -> index_pairs definition docs key v -> v <> id ->
  ~ admitted definition docs'.
Proof.
  intros Hu Hs Hi Hv Hne [_ Hc]. apply (Hc Hu). exists key, v, id. split; [by apply (index_pairs_subset definition docs)|done].
Qed.

Lemma unkeyed_refused definition docs id d e :
  indexDocumentKey definition d = Err e -> (id, d) ∈ docs -> ~ admitted definition docs.
Proof. intros He Hin [Hk _]. rewrite Forall_forall in Hk. destruct (Hk _ Hin) as [okey H]. cbn in H. congruence. Qed.

Lemma batch_loop_verdict definition t docs prev batch owners :
  indexed t (index_pairs definition docs) -> admitted definition (docs ++ prev) ->
  (def_Unique definition = true -> owners_ok definition prev owners) ->
  Forall (fun m => m.1 ∉ docs.*1) batch ->
  verdict (batch_loop definition t batch owners) (admitted definition ((docs ++ prev) ++ batch)).
Proof.
  intros Ht. revert prev owners; induction batch as [|[id d] batch IH]; intros prev owners Ha Ho Hb; cbn [batch_loop].
  { by rewrite app_nil_r. }
  apply Forall_cons in Hb as [Hid Hb]. cbn [fst] in Hid.
  assert (Hin : (id, d) ∈ (docs ++ prev) ++ (id, d) :: batch) by (rewrite elem_of_app; right; left).
  assert (Hsub : docs ++ prev ⊆ (docs ++ prev) ++ (id, d) :: batch) by (intros x Hx; apply elem_of_app; by left).
  destruct (indexDocumentKey definition d) as [okey|e] eqn:Ek; cbn [rbind].
  2: { split; [left; by apply index_key_error in Ek|]. by apply (unkeyed_refused definition _ id d e). }
  (* the rest of the batch, with this document among those seen *)
  assert (Hrest : forall owners', admitted definition ((docs ++ prev) ++ [(id, d)]) ->
    (def_Unique definition = true -> owners_ok definition (prev ++ [(id, d)]) owners') ->
    verdict (batch_loop definition t batch owners') (admitted definition ((docs ++ prev) ++ (id, d) :: batch))).
  { intros owners' Ha' Ho'. replace ((docs ++ prev) ++ (id, d) :: batch) with ((docs ++ prev ++ [(id, d)]) ++ batch) by
      (by rewrite <- !app_assoc). apply IH; [by rewrite app_assoc|done..]. }
  destruct okey as [key|].
  2: { apply Hrest; [by apply (admitted_snoc _ _ _ _ None)|]. intros Hu. apply owners_ok_none; auto. }
  assert (Hmine : index_pairs definition ((docs ++ prev) ++ (id, d) :: batch) key id) by (by exists d).
  destruct (def_Unique definition) eqn:Eu; cbn [negb].
  2: { apply Hrest; [|done]. apply (admitted_snoc _ _ _ _ (Some key)); [done..|]. congruence. }
  destruct (indexed_get t _ key Ht) as (vs & Hget & Hvs). rewrite Hget. cbn [rbind]. specialize (Ho eq_refl).
  destruct vs as [|v vs]; cbn [is_nil negb].
  - assert (Hnone : forall v, index_pairs definition (docs ++ prev) key v -> field owners key = Some v).
    { intros v [Hv|Hv]%index_pairs_app; [apply Hvs in Hv; by apply not_elem_of_nil in Hv|by apply Ho]. }
    assert (Hok : field owners key = None \/ field owners key = Some id ->
      verdict (batch_loop definition t batch (ins key id owners)) (admitted definition ((docs ++ prev) ++ (id, d) :: batch))).
    { intros Hf. apply Hrest; [|intros _; by apply owners_ok_some].
      apply (admitted_snoc _ _ _ _ (Some key)); [done..|]. intros k v _ [= <-] Hv%Hnone. rewrite Hv in Hf. by destruct Hf as [|[= ->]]. }
    destruct (field owners key) as [owner|] eqn:Ef; [|apply Hok; by left].
    destruct (beqb owner id) eqn:Eo; cbn [negb]; [apply beqb_eq in Eo as ->; apply Hok; by right|]. apply beqb_neq in Eo.
    split; [by right|]. apply (conflict_refused definition (docs ++ prev) _ key id owner); [done..| |done].
    apply index_pairs_app. right. by apply Ho.
  - split; [by right|]. assert (Hv : index_pairs definition docs key v) by (apply Hvs; left).
    apply (conflict_refused definition (docs ++ prev) _ key id v); [done..| |]; [apply index_pairs_app; by left|].
    intros ->. destruct Hv as (x & Hx & _). apply Hid. by apply (list_elem_of_fmap_2 fst) in Hx.
Qed.

(** ** Updates *)

Definition after_members (changes : list pendingUpdate) : members := (fun c => (pu_id c, pu_after c)) <$> changes.

(** The documents once the changes are applied, in the same order. *)
Definition replace_members (changes : list pendingUpdate) (docs : members) : members :=
  (fun m => match field (after_members changes) m.1 with Some d => (m.1, d) | None => m end) <$> docs.

Record updates_of (docs : members) (changes : list pendingUpdate) : Prop := {
  updates_docs : NoDup docs.*1;
  updates_ids : NoDup (pu_id <$> changes);
  updates_before : Forall (fun c => (pu_id c, pu_before c) ∈ docs) changes;
  updates_width : Forall (fun id => zlen id = 16) docs.*1 }.

Lemma after_ids changes : (after_members changes).*1 = pu_id <$> changes.
Proof. unfold after_members. by rewrite <- list_fmap_compose. Qed.

Lemma replace_ids changes docs : (replace_members changes docs).*1 = docs.*1.
Proof.
  unfold replace_members. rewrite <- list_fmap_compose. apply list_fmap_ext. intros i [id d] _. cbn. by destruct (field _ id).
Qed.

Lemma index_pairs_replace definition docs changes key id : updates_of docs changes ->
  index_pairs definition (replace_members changes docs) key id <->
  ((id ∉ pu_id <$> changes) /\ index_pairs definition docs key id) \/ index_pairs definition (after_members changes) key id.
Proof.
  intros [Hd Hids Hb _]. unfold index_pairs, replace_members.
  assert (Hfield : forall x, field (after_members changes) id = Some x <-> (id, x) ∈ after_members changes).
  { intros x. split; [apply field_Some|]. apply field_NoDup. by rewrite after_ids. }
  split.
  - intros (d & ([i x] & E & Hin)%list_elem_of_fmap & Hk). cbn in E. destruct (field (after_members changes) i) as [y|] eqn:Ef.
    + injection E as -> ->. right. exists y. split; [by apply Hfield|done].
    + injection E as -> ->. left. split; [|by exists x]. apply field_None in Ef. by rewrite after_ids in Ef.
  - intros [[Hn (d & Hin & Hk)]|(d & Hin & Hk)]; exists d; (split; [|done]); apply list_elem_of_fmap.
    + exists (id, d). split; [|done]. cbn. rewrite <- after_ids in Hn. apply field_None in Hn. by rewrite Hn.
    + assert (Hid : id ∈ pu_id <$> changes) by (rewrite <- after_ids; by apply (list_elem_of_fmap_2 fst) in Hin).
      apply list_elem_of_fmap in Hid as (c & -> & Hc). rewrite Forall_forall in Hb.
      exists (pu_id c, pu_before c). split; [|by apply Hb]. cbn. apply Hfield in Hin. by rewrite Hin.
Qed.

Definition stays (definition : IndexDefinition) (docs : members) (changed : list bytes) (m : bytes * document) : Prop :=
  forall key owner, indexDocumentKey definition m.2 = Ok (Some key) -> index_pairs definition docs key owner -> owner ∈ changed.

(** The final state of an index: what changes is well keyed, and nothing that
    stays has a key that a change takes. *)
Lemma admitted_replace definition docs changes : updates_of docs changes -> admitted definition docs ->
  admitted definition (replace_members changes docs) <->
  admitted definition (after_members changes) /\
  (def_Unique definition = true -> Forall (stays definition docs (pu_id <$> changes)) (after_members changes)).
Proof.
  intros Hu [Hkeyed Hnone]. pose proof (index_pairs_replace definition docs changes) as Hpairs. split.
  - intros [Hk Hc]. split; [split|].
    + rewrite Forall_forall in *. intros [id x] Hin. destruct Hu as [Hd Hids Hb _].
      assert (Hid : id ∈ pu_id <$> changes) by (rewrite <- after_ids; by apply (list_elem_of_fmap_2 fst) in Hin).
      apply list_elem_of_fmap in Hid as (c & -> & Hcin). rewrite Forall_forall in Hb.
      apply (Hk (pu_id c, x)). apply list_elem_of_fmap. exists (pu_id c, pu_before c). split; [|by apply Hb]. cbn.
      by rewrite (field_NoDup (after_members changes) (pu_id c) x) by (by rewrite ?after_ids).
    + intros Hq (key & i & j & Hi & Hj & Hne). apply (Hc Hq). exists key, i, j. rewrite !Hpairs by done. auto.
    + intros Hq. rewrite Forall_forall. intros [id x] Hin key owner Hkx Ho. cbn [snd] in Hkx.
      destruct (decide (owner ∈ pu_id <$> changes)) as [|Hn]; [done|exfalso]. apply (Hc Hq). exists key, owner, id.
      rewrite !Hpairs by done. split; [by left|]. split; [right; by exists x|]. intros ->. apply Hn. rewrite <- after_ids.
      by apply (list_elem_of_fmap_2 fst) in Hin.
  - intros [[Hka Hca] Hstay]. split.
    + unfold replace_members. rewrite Forall_fmap, Forall_forall. intros [id x] Hin. cbn.
      destruct (field (after_members changes) id) as [y|] eqn:Ef; rewrite Forall_forall in Hka, Hkeyed.
      * apply field_Some in Ef. by apply (Hka (id, y)).
      * by apply (Hkeyed (id, x)).
    + intros Hq (key & i & j & Hi & Hj & Hne). specialize (Hstay Hq). rewrite Forall_forall in Hstay.
      apply Hpairs in Hi as [[Hni Hi]|Hi]; [..|done]; apply Hpairs in Hj as [[Hnj Hj]|Hj]; try done.
      * apply (Hnone Hq). by exists key, i, j.
      * destruct Hj as (x & Hx & Hk). by apply Hni, (Hstay (j, x) Hx key i).
      * destruct Hi as (x & Hx & Hk). by apply Hnj, (Hstay (i, x) Hx key j).
      * apply (Hca Hq). by exists key, i, j.
Qed.

Lemma owners_moving_verdict changed vs : Forall (fun id => zlen id = 16) vs ->
  verdict (owners_moving changed vs) (forall owner, owner ∈ vs -> owner ∈ changed).
Proof.
  induction 1 as [|v vs Hv Hvs IH]; cbn [owners_moving]; [intros o Ho; by apply not_elem_of_nil in Ho|].
  rewrite Hv. cbn [Z.eqb Pos.eqb negb]. destruct (existsb (beqb v) changed) eqn:E; cbn [negb].
  - apply existsb_exists in E as (x & Hx & E). apply beqb_eq in E as <-. apply list_elem_of_In in Hx.
    eapply verdict_iff; [|exact IH]. split; [|intros H o Ho; apply H; by right].
    intros H o [->|Ho]%elem_of_cons; auto.
  - split; [by right|]. intros H. assert (Hx : v ∈ changed) by (apply H; left).
    assert (existsb (beqb v) changed = true); [|congruence]. apply existsb_exists. exists v. split; [by apply list_elem_of_In|apply beqb_refl].
Qed.

Lemma updates_loop_verdict definition t docs changed prev changes owners :
  indexed t (index_pairs definition docs) -> Forall (fun id => zlen id = 16) docs.*1 -> def_Unique definition = true ->
  admitted definition prev -> owners_ok definition prev owners ->
  verdict (updates_loop definition t changed changes owners)
    (admitted definition (prev ++ after_members changes) /\ Forall (stays definition docs changed) (after_members changes)).
Proof.
  intros Ht Hw Hu. revert prev owners; induction changes as [|c changes IH]; intros prev owners Ha Ho; cbn [updates_loop].
  { rewrite app_nil_r. split; [done|constructor]. }
  unfold has_key. set (m := (pu_id c, pu_after c)).
  change (after_members (c :: changes)) with (m :: after_members changes).
  assert (Hin : m ∈ prev ++ m :: after_members changes) by (rewrite elem_of_app; right; left).
  assert (Hsub : prev ⊆ prev ++ m :: after_members changes) by (intros x Hx; apply elem_of_app; by left).
  destruct (indexDocumentKey definition (pu_after c)) as [okey|e] eqn:Ek; cbn [rbind].
  2: { split; [by left|]. intros [Hadm _]. by apply (unkeyed_refused definition _ (pu_id c) (pu_after c) e) in Hadm. }
  assert (Hrest : forall owners', stays definition docs changed m -> admitted definition (prev ++ [m]) ->
    owners_ok definition (prev ++ [m]) owners' ->
    verdict (updates_loop definition t changed changes owners')
      (admitted definition (prev ++ m :: after_members changes) /\ Forall (stays definition docs changed) (m :: after_members changes))).
  { intros owners' Hs Ha' Ho'. eapply verdict_iff; [|apply (IH (prev ++ [m]) owners' Ha' Ho')].
    rewrite <- app_assoc, Forall_cons. cbn [app]. tauto. }
  destruct okey as [key|].
  2: { apply Hrest; [intros k o Hk; cbn in Hk; congruence|by apply (admitted_snoc _ _ _ _ None)|by apply owners_ok_none]. }
  destruct (indexed_get t _ key Ht) as (vs & Hget & Hvs). rewrite Hget. cbn [rbind].
  assert (Hwidth : Forall (fun id => zlen id = 16) vs).
  { rewrite Forall_forall in Hw |- *. intros v Hv. apply Hvs in Hv as (x & Hx & _). apply Hw. by apply (list_elem_of_fmap_2 fst) in Hx. }
  pose proof (owners_moving_verdict changed vs Hwidth) as Hmove.
  apply (verdict_bind _ (fun _ => _) _ _ Hmove).
  { intros [_ Hs]. apply Forall_cons in Hs as [Hs _]. intros o Hov. apply Hvs in Hov. by apply (Hs key o). }
  intros Hmoving. assert (Hs : stays definition docs changed m).
  { intros k o Hk Hov. cbn in Hk. rewrite Ek in Hk. injection Hk as <-. by apply Hmoving, Hvs. }
  assert (Hok : field owners key = None \/ field owners key = Some (pu_id c) ->
    verdict (updates_loop definition t changed changes (ins key (pu_id c) owners))
      (admitted definition (prev ++ m :: after_members changes) /\ Forall (stays definition docs changed) (m :: after_members changes))).
  { intros Hf. apply Hrest; [done| |by apply owners_ok_some].
    apply (admitted_snoc _ _ _ _ (Some key)); [done..|]. intros k v _ [= <-] Hv%Ho. rewrite Hv in Hf. by destruct Hf as [|[= ->]]. }
  destruct (field owners key) as [owner|] eqn:Ef; [|apply Hok; by left].
  destruct (beqb owner (pu_id c)) eqn:Eo; cbn [negb]; [apply beqb_eq in Eo as ->; apply Hok; by right|]. apply beqb_neq in Eo.
  split; [by right|]. intros [Hadm _]. revert Hadm.
  apply (conflict_refused definition prev _ key (pu_id c) owner); [done..|by exists (pu_after c)|by apply Ho|done].
Qed.

Lemma keys_exist_verdict definition ds : verdict (keys_exist definition ds) (Forall (keyed definition) ds).
Proof.
  induction ds as [|d ds IH]; cbn [keys_exist]; [constructor|]. unfold has_key.
  destruct (indexDocumentKey definition d) as [okey|e] eqn:Ek; cbn [rbind].
  - eapply verdict_iff; [|exact IH]. rewrite Forall_cons. split; [|tauto]. intros H. split; [by exists okey|done].
  - split; [by left|]. intros [(okey & H) _]%Forall_cons. congruence.
Qed.

(** ** The indexes of a collection *)

(** Every index has a tree of the keys of the documents. *)
Definition trees_hold (docs : members) (indexes : list (bytes * indexState)) : Prop :=
  Forall (fun ns => exists t, is_tree ns.2 = Some t /\ indexed t (index_pairs (is_definition ns.2) docs)) indexes.

Definition all_admitted (docs : members) (indexes : list (bytes * indexState)) : Prop :=
  Forall (fun ns => admitted (is_definition ns.2) docs) indexes.

Lemma validateIndexBatchInsert_verdict docs data batch :
  trees_hold docs (cd_indexes data) -> all_admitted docs (cd_indexes data) -> Forall (fun m => m.1 ∉ docs.*1) batch ->
  verdict (validateIndexBatchInsert data batch) (all_admitted (docs ++ batch) (cd_indexes data)).
Proof.
  intros Ht Ha Hb. apply (check_indexes_verdict _ _ (fun definition => admitted definition (docs ++ batch))).
  unfold trees_hold, all_admitted in *. rewrite Forall_forall in *. intros ns Hin. destruct (Ht ns Hin) as (t & Htree & Hi).
  exists t. split; [done|]. pose proof (batch_loop_verdict (is_definition ns.2) t docs [] batch []) as H. rewrite app_nil_r in H.
  apply H; [done|by apply Ha|intros _; apply owners_ok_nil|done].
Qed.

Lemma validateIndexUpdates_verdict docs data changes :
  trees_hold docs (cd_indexes data) -> all_admitted docs (cd_indexes data) -> updates_of docs changes ->
  verdict (validateIndexUpdates data changes) (all_admitted (replace_members changes docs) (cd_indexes data)).
Proof.
  intros Ht Ha Hu. apply (check_indexes_verdict _ _ (fun definition => admitted definition (replace_members changes docs))).
  unfold trees_hold, all_admitted in *. rewrite Forall_forall in *. intros ns Hin. destruct (Ht ns Hin) as (t & Htree & Hi).
  specialize (Ha ns Hin). exists t. split; [done|]. set (definition := is_definition ns.2) in *.
  eapply verdict_iff; [symmetry; by apply admitted_replace|].
  assert (Hbefore : Forall (keyed definition) (pu_before <$> changes)).
  { destruct Ha as [Hk _], Hu as [_ _ Hb _]. rewrite Forall_forall in Hk. rewrite Forall_fmap. eapply Forall_impl; [exact Hb|].
    intros c Hc. by apply (Hk _ Hc). }
  destruct (def_Unique definition) eqn:Eu; cbn [negb].
  - pose proof (keys_exist_verdict definition (pu_before <$> changes)) as Hk.
    apply (verdict_bind _ (fun _ => updates_loop definition t (pu_id <$> changes) changes []) _ _ Hk); [done|]. intros _.
    eapply verdict_iff; [|apply (updates_loop_verdict definition t docs (pu_id <$> changes) [] changes []);
      [done|apply Hu|done|apply admitted_nil|apply owners_ok_nil]].
    cbn [app]. tauto.
  - eapply verdict_iff; [|apply keys_exist_verdict]. unfold admitted. rewrite Eu.
    assert (H : Forall (keyed definition) (flat_map (fun c => [pu_before c; pu_after c]) changes) <->
                Forall (fun m => keyed definition m.2) (after_members changes)).
    { unfold after_members. rewrite Forall_fmap in Hbefore. rewrite Forall_fmap. clear -Hbefore. induction Hbefore as [|c l Hc Hl IH]; [by split; constructor|].
      cbn [flat_map app]. rewrite !Forall_cons, IH. cbn. tauto. }
    rewrite H. split; [|tauto]. intros Hk. split; [split; [done|discriminate]|discriminate].
Qed.

(** ** Maintaining the trees *)

(** The names and definitions of the indexes stay; their trees follow. *)
Definition index_names (indexes : list (bytes * indexState)) : list (bytes * IndexDefinition) :=
  (fun ns => (ns.1, is_definition ns.2)) <$> indexes.

Lemma all_admitted_names docs indexes indexes' :
  index_names indexes' = index_names indexes -> all_admitted docs indexes -> all_admitted docs indexes'.
Proof.
  unfold all_admitted. intros E H. rewrite <- (Forall_fmap (fun ns : bytes * indexState => (ns.1, is_definition ns.2))
    (fun nd => admitted nd.2 docs)) in H |- *. unfold index_names in E. by rewrite E.
Qed.

Lemma change_indexes_spec change docs docs' indexes :
  trees_hold docs indexes ->
  (forall ns t, ns ∈ indexes -> indexed t (index_pairs (is_definition ns.2) docs) ->
     exists t', change (is_definition ns.2) t = Ok t' /\ indexed t' (index_pairs (is_definition ns.2) docs')) ->
  exists indexes', change_indexes change indexes = Ok indexes' /\ index_names indexes' = index_names indexes /\
    trees_hold docs' indexes'.
Proof.
  intros Ht. induction Ht as [|[name st] indexes (t & Htree & Hi) Ht IH]; intros Hc; cbn [change_indexes].
  { exists []. by repeat constructor. }
  cbn [snd] in *. rewrite Htree. destruct (Hc (name, st) t ltac:(left) Hi) as (t' & Ht' & Hi'). cbn [snd] in Ht'. rewrite Ht'.
  destruct IH as (rest & Hr & Hn & Hh); [intros; apply Hc; [by right|done]|]. cbn [rbind]. rewrite Hr. cbn [rbind].
  eexists. split; [done|]. split.
  - unfold index_names in *. cbn [fmap list_fmap]. by f_equal.
  - constructor; [|done]. exists t'. done.
Qed.

Lemma insertIndexes_spec docs data id d :
  trees_hold docs (cd_indexes data) -> Forall (fun ns => keyed (is_definition ns.2) d) (cd_indexes data) ->
  exists indexes', insertIndexes data id d = Ok (set_indexes data indexes') /\
    index_names indexes' = index_names (cd_indexes data) /\ trees_hold (docs ++ [(id, d)]) indexes'.
Proof.
  intros Ht Hk. unfold insertIndexes.
  match goal with |- context [change_indexes ?c _] =>
    destruct (change_indexes_spec c docs (docs ++ [(id, d)]) (cd_indexes data) Ht) as (rest & Hr & Hn & Hh) end.
  - intros ns t Hin Hi. rewrite Forall_forall in Hk. destruct (Hk ns Hin) as (okey & Ek). rewrite Ek.
    assert (Hpairs : forall key v, index_pairs (is_definition ns.2) (docs ++ [(id, d)]) key v <->
      (okey = Some key /\ v = id) \/ index_pairs (is_definition ns.2) docs key v).
    { intros key v. rewrite index_pairs_app, index_pairs_single, Ek. split; [intros [?|[? [= ?]]]|intros [[-> ->]|?]]; auto. }
    destruct okey as [key|].
    + destruct (indexed_insert t _ key id Hi (index_key_nonempty _ _ _ Ek)) as (t' & Ht' & Hi'). exists t'. split; [done|].
      eapply indexed_iff; [|exact Hi']. intros key' v. rewrite Hpairs. split; [intros [[-> ->]|?]|intros [[[= ->] ->]|?]]; auto.
    + exists t. split; [done|]. eapply indexed_iff; [|exact Hi]. intros key' v. rewrite Hpairs. split; [auto|]. by intros [[? _]|?].
  - rewrite Hr. cbn [rbind]. by exists rest.
Qed.

Definition without (ids : list bytes) (docs : members) : members :=
  List.filter (fun m => negb (existsb (beqb m.1) ids)) docs.

Lemma elem_of_without ids docs m : m ∈ without ids docs <-> m ∈ docs /\ m.1 ∉ ids.
Proof.
  unfold without. rewrite list_elem_of_In, filter_In, <- list_elem_of_In, negb_true_iff.
  assert (H : existsb (beqb m.1) ids = true <-> m.1 ∈ ids).
  { rewrite existsb_exists. split; [intros (x & Hx & E); apply beqb_eq in E as <-; by apply list_elem_of_In|].
    intros Hin. exists m.1. split; [by apply list_elem_of_In|apply beqb_refl]. }
  by rewrite <- H, not_true_iff_false.
Qed.

Lemma deleteIndexes_spec docs data id d :
  NoDup docs.*1 -> (id, d) ∈ docs -> trees_hold docs (cd_indexes data) ->
  Forall (fun ns => keyed (is_definition ns.2) d) (cd_indexes data) ->
  exists indexes', deleteIndexes data id d = Ok (set_indexes data indexes') /\
    index_names indexes' = index_names (cd_indexes data) /\ trees_hold (without [id] docs) indexes'.
Proof.
  intros Hd Hid Ht Hk. unfold deleteIndexes.
  match goal with |- context [change_indexes ?c _] =>
    destruct (change_indexes_spec c docs (without [id] docs) (cd_indexes data) Ht) as (rest & Hr & Hn & Hh) end.
  - intros ns t Hin Hi. rewrite Forall_forall in Hk. destruct (Hk ns Hin) as (okey & Ek). rewrite Ek.
    assert (Hpairs : forall key v, index_pairs (is_definition ns.2) (without [id] docs) key v <->
      index_pairs (is_definition ns.2) docs key v /\ ~ (okey = Some key /\ v = id)).
    { intros key v. split.
      - intros (x & [Hx Hne]%elem_of_without & Hkx). split; [by exists x|]. intros [_ ->]. by apply Hne, list_elem_of_singleton.
      - intros [(x & Hx & Hkx) Hn]. exists x. split; [|done]. apply elem_of_without. split; [done|].
        intros E%list_elem_of_singleton. cbn in E. subst v. apply Hn. split; [|done].
        assert (x = d) as ->; [|congruence].
        pose proof (field_NoDup docs id x Hd Hx). pose proof (field_NoDup docs id d Hd Hid). congruence. }
    destruct okey as [key|].
    + destruct (indexed_delete t _ key id Hi (index_key_nonempty _ _ _ Ek)) as (t' & Ht' & Hi'). exists t'. split; [done|].
      eapply indexed_iff; [|exact Hi']. intros key' v. rewrite Hpairs. split; intros [H1 H2]; (split; [done|]).
      * intros [[= ->] ->]. by apply H2.
      * intros [-> ->]. by apply H2.
    + exists t. split; [done|]. eapply indexed_iff; [|exact Hi]. intros key' v. rewrite Hpairs.
      split; [intros H; split; [done|]; by intros [? _]|by intros [? _]].
  - rewrite Hr. cbn [rbind]. by exists rest.
Qed.

(** One change applied: the document replaced where it is. *)
Lemma updateIndexes_spec docs data c :
  updates_of docs [c] -> trees_hold docs (cd_indexes data) ->
  Forall (fun ns => keyed (is_definition ns.2) (pu_before c) /\ keyed (is_definition ns.2) (pu_after c)) (cd_indexes data) ->
  exists indexes', updateIndexes data (pu_id c) (pu_before c) (pu_after c) = Ok (set_indexes data indexes') /\
    index_names indexes' = index_names (cd_indexes data) /\ trees_hold (replace_members [c] docs) indexes'.
Proof.
  intros Hu Ht Hk. unfold updateIndexes.
  match goal with |- context [change_indexes ?f _] =>
    destruct (change_indexes_spec f docs (replace_members [c] docs) (cd_indexes data) Ht) as (rest & Hr & Hn & Hh) end.
  - intros ns t Hin Hi. rewrite Forall_forall in Hk. destruct (Hk ns Hin) as ((bkey & Eb) & (akey & Ea)). rewrite Eb, Ea.
    pose proof (updates_docs _ _ Hu) as Hd. pose proof (updates_before _ _ Hu) as Hb. rewrite Forall_singleton in Hb.
    assert (Hpairs : forall key v, index_pairs (is_definition ns.2) (replace_members [c] docs) key v <->
      (index_pairs (is_definition ns.2) docs key v /\ v <> pu_id c) \/ (akey = Some key /\ v = pu_id c)).
    { intros key v. rewrite (index_pairs_replace _ _ _ _ _ Hu). cbn [fmap list_fmap].
      change (after_members [c]) with [(pu_id c, pu_after c)]. rewrite index_pairs_single, Ea, list_elem_of_singleton.
      split; (intros [[? ?]|[? ?]]; [left; by split|right]); split; congruence. }
    assert (Hmine : forall key, index_pairs (is_definition ns.2) docs key (pu_id c) <-> bkey = Some key).
    { intros key. split.
      - intros (x & Hx & Hkx). pose proof (field_NoDup docs _ x Hd Hx). pose proof (field_NoDup docs _ _ Hd Hb). congruence.
      - intros ->. by exists (pu_before c). }
    destruct (same_key bkey akey) eqn:Es.
    { exists t. split; [done|]. eapply indexed_iff; [|exact Hi]. intros key v. rewrite Hpairs.
      destruct bkey as [b|], akey as [a|]; try done. apply beqb_eq in Es as ->.
      destruct (decide (v = pu_id c)) as [->|]; [rewrite Hmine|]; tauto. }
    assert (Hdel : exists t1, (match bkey with Some key => tree_delete t key (pu_id c) | None => Ok t end) = Ok t1 /\
      indexed t1 (fun key v => index_pairs (is_definition ns.2) docs key v /\ v <> pu_id c)).
    { destruct bkey as [b|].
      - destruct (indexed_delete t _ b (pu_id c) Hi (index_key_nonempty _ _ _ Eb)) as (t1 & Ht1 & Hi1). exists t1. split; [done|].
        eapply indexed_iff; [|exact Hi1]. intros key v. destruct (decide (v = pu_id c)) as [->|]; [|tauto].
        rewrite Hmine. split; intros [H1 H2]; [|done]. destruct H2. split; congruence.
      - exists t. split; [done|]. eapply indexed_iff; [|exact Hi]. intros key v.
        destruct (decide (v = pu_id c)) as [->|]; [|tauto]. rewrite Hmine. split; [done|tauto]. }
    destruct Hdel as (t1 & -> & Hi1). cbn [rbind]. destruct akey as [a|].
    + destruct (indexed_insert t1 _ a (pu_id c) Hi1 (index_key_nonempty _ _ _ Ea)) as (t2 & Ht2 & Hi2). exists t2. split; [done|].
      eapply indexed_iff; [|exact Hi2]. intros key v. rewrite Hpairs. split; (intros [H|H]; [try (right; destruct H; split; congruence); try (by left)|try (left; destruct H; split; congruence); try (by right)]); try tauto.
    + exists t1. split; [done|]. eapply indexed_iff; [|exact Hi1]. intros key v. rewrite Hpairs. split; [auto|]. by intros [?|[? _]].
  - rewrite Hr. cbn [rbind]. by exists rest.
Qed.
