(* ===== verification/MemoryDatabase.v ===== *)
(** * A database in memory

    The mutations of [internal/database/database.go], [update.go],
    [mutation_selection.go], [indexes.go] and [resource_limits.go] for a database
    without a durable store, where [appendCommit] has nothing to write and no
    coordinator groups requests. A call runs under the lock of the database and
    its context is not cancelled. Identifiers for documents that come without one
    are an argument, since the code draws them at random. Queries have passed
    [query.Validate], which the calls repeat, so a failure of it is not a case
    here. *)
From S2P Require Import Prelude Bytes Strings Entries Records Float64 Values Documents DocumentCodec IndexKey CompoundKey.
From S2P Require Import IndexTree Update Query IndexDefinitions MemoryIndexes.

(** ** Limits *)

Definition or_default (limit default : Z) : Z := if limit =? 0 then default else limit.

Definition normalizeResourceLimits (limits : ResourceLimits) : option ResourceLimits :=
  let limits := mk_resource_limits
    (or_default (MaxDocumentBytes limits) (Z.shiftl 16 20)) (or_default (MaxTransactionBytes limits) (Z.shiftl 64 20))
    (or_default (MaxTransactionChanges limits) 10000) (or_default (MaxIndexBuildEntries limits) 1000000)
    (or_default (MaxIndexBuildBytes limits) (Z.shiftl 256 20)) (or_default (MaxReactiveViewDocuments limits) 10000)
    (or_default (MaxReactiveViewBytes limits) (Z.shiftl 64 20)) (or_default (MaxQueryDocumentsExamined limits) 100000)
    (or_default (MaxQueryKeysExamined limits) 100000) (or_default (MaxQueryCandidates limits) 100000)
    (or_default (MaxQuerySortBytes limits) (Z.shiftl 64 20)) (or_default (MaxQuerySkip limits) 100000)
    (or_default (MaxQueryPredicateSteps limits) 10000000) in
  if maxStoredDocumentBody <? MaxDocumentBytes limits then None
  else if MaxTransactionBytes limits <? MaxDocumentBytes limits then None
  else if 2 ^ 32 - 1 <? MaxTransactionChanges limits then None
  else if 2 ^ 32 - 1 <? MaxIndexBuildEntries limits then None
  else Some limits.

(** ** State *)

Inductive Operation := InsertOperation | UpdateOperation | DeleteOperation | CreateCollectionOperation
  | CreateIndexOperation | ReplaceIndexOperation.

(** The sizes a change carries for its delivery are not kept. *)
Record Change := mk_change {
  ch_Collection : bytes; ch_Operation : Operation; ch_DocumentID : bytes; ch_Before : option document;
  ch_After : option document; ch_Index : option IndexDefinition; ch_ChangedPaths : list bytes }.

(** [db_history]: the tokens of the batches that can be resumed from.
    [db_published]: the batches handed to the dispatcher, in order. *)
Record DB := mk_db {
  db_closed : bool; db_fatalErr : option gerror; db_collections : list (bytes * collectionData); db_token : Z;
  db_history : list Z; db_historyLimit : Z; db_limits : ResourceLimits; db_published : list (Z * list Change) }.

Definition New (limits : ResourceLimits) : option DB :=
  let? limits := normalizeResourceLimits limits in Some (mk_db false None [] 0 [] 1024 limits []).

(** [c.db.closed] and [c.db.fatalErr]. *)
Definition open_db (db : DB) : result unit :=
  if db_closed db then Err ErrClosed else match db_fatalErr db with Some e => Err e | None => Ok tt end.

Definition set_collection (db : DB) (name : bytes) (data : collectionData) : DB :=
  mk_db (db_closed db) (db_fatalErr db) (ins name data (db_collections db)) (db_token db) (db_history db)
    (db_historyLimit db) (db_limits db) (db_published db).

Definition recordCommittedBatch (db : DB) (token : Z) (changes : list Change) : list Z :=
  if (db_historyLimit db <=? 0) || (zlen changes =? 0) then db_history db
  else
    let history := db_history db ++ [token] in
    drop (Z.to_nat (zlen history - db_historyLimit db)) history.

(** The token and the history; [publish]ing is the caller's. *)
Definition committed (db : DB) (token : Z) (changes : list Change) : DB :=
  mk_db (db_closed db) (db_fatalErr db) (db_collections db) token (recordCommittedBatch db token changes)
    (db_historyLimit db) (db_limits db) (db_published db).

Definition publish (db : DB) (token : Z) (changes : list Change) : DB :=
  if zlen changes =? 0 then db
  else mk_db (db_closed db) (db_fatalErr db) (db_collections db) (db_token db) (db_history db)
         (db_historyLimit db) (db_limits db) (db_published db ++ [(token, changes)]).

Definition CanResumeFrom (db : DB) (token : Z) : bool :=
  if db_closed db || (db_token db <? token) then false
  else if token =? db_token db then true
  else
    match db_history db with
    | [] => false
    | first :: _ => if token =? 2 ^ 64 - 1 then false else first <=? token + 1
    end.

Definition next_token (db : DB) : Z := to_u64 (db_token db + 1).

(** ** Limits of a transaction *)

Definition validateDocumentResource (limits : ResourceLimits) (d : document) : result Z :=
  let* size := canonicalDocumentSize d in
  if MaxDocumentBytes limits <? size then Err ErrResourceLimit else Ok size.

Fixpoint transaction_bytes (limits : ResourceLimits) (documents : list document) (total : Z) : result Z :=
  match documents with
  | [] => Ok total
  | d :: documents =>
      let* size := validateDocumentResource limits d in
      if (MaxTransactionBytes limits <? total) || (MaxTransactionBytes limits - total <? size) then Err ErrResourceLimit
      else transaction_bytes limits documents (total + size)
  end.

Definition change_documents (change : Change) : list document :=
  match ch_Before change with Some d => [d] | None => [] end ++ match ch_After change with Some d => [d] | None => [] end.

Definition validateTransactionResource (limits : ResourceLimits) (changes : list Change) : result unit :=
  if MaxTransactionChanges limits <? zlen changes then Err ErrResourceLimit
  else
    let* _ := transaction_bytes limits (flat_map change_documents changes) 0 in
    Ok tt.

Definition boundedMutationSelection (limits : ResourceLimits) (maxAffected : Z) (one : bool) : Z * bool :=
  if one then (maxAffected, false)
  else
    let maxInt := 2 ^ 63 - 2 in
    let limit := if maxInt <? MaxTransactionChanges limits then maxInt else MaxTransactionChanges limits in
    if (0 <? maxAffected) && (maxAffected <=? limit) then (maxAffected, false) else (limit, true).

(** ** Insertion *)

(** The loop of [InsertMany] that copies the documents and settles their ids. *)
Fixpoint prepareInserts (documents : list document) (fresh : list bytes) (seenIDs : list bytes) : result (list (bytes * document)) :=
  match documents with
  | [] => Ok []
  | d :: documents =>
      if negb (Validate d) then Err ErrInvalidDocument
      else
        match field d (bs "_id"), Document_ID d with
        | Some _, None => Err ErrInvalidDocument
        | _, Some id =>
            if all_zero id then Err ErrInvalidDocument
            else if existsb (beqb id) seenIDs then Err ErrDuplicateID
            else
              let* rest := prepareInserts documents fresh (id :: seenIDs) in
              Ok ((id, d) :: rest)
        | None, None =>
            match fresh with
            | [] => Err ErrIO
            | id :: fresh =>
                if all_zero id then Err ErrInvalidDocument
                else if existsb (beqb id) seenIDs then Err ErrDuplicateID
                else
                  let* rest := prepareInserts documents fresh (id :: seenIDs) in
                  Ok ((id, doc_set d (bs "_id") (VID id)) :: rest)
            end
        end
  end.

Definition insert_change (collection : bytes) (m : bytes * document) : Change :=
  mk_change collection InsertOperation m.1 None (Some m.2) None [].

(** The loop over the copies: document, position, order, indexes. *)
Fixpoint insert_documents (batch : list (bytes * document)) (data : collectionData) : result collectionData :=
  match batch with
  | [] => Ok data
  | (id, d) :: batch =>
      let data := mk_data (ins id d (cd_documents data)) (cd_order data ++ [id])
                    (ins id (zlen (cd_order data)) (cd_positions data)) (cd_indexes data) in
      let* data := insertIndexes data id d in
      insert_documents batch data
  end.

Definition has_document (data : collectionData) (id : bytes) : bool :=
  match field (cd_documents data) id with Some _ => true | None => false end.

Definition commitInsertManyLocked (db : DB) (name : bytes) (batch : list (bytes * document)) : result DB :=
  if zlen batch =? 0 then Err ErrCorrupt
  else
    let* _ := open_db db in
    let changes := insert_change name <$> batch in
    let* _ := match field (db_collections db) name with
              | None => Ok tt
              | Some data =>
                  if existsb (has_document data) batch.*1 then Err ErrDuplicateID
                  else validateIndexBatchInsert data batch
              end in
    let token := next_token db in
    let data := match field (db_collections db) name with Some data => data | None => newCollectionData end in
    let* data := insert_documents batch data in
    Ok (publish (committed (set_collection db name data) token changes) token changes).

(** The ids and the database. *)
Definition InsertMany (db : DB) (name : bytes) (documents : list document) (fresh : list bytes) : result (DB * list bytes) :=
  if negb (validCollectionName name) then Err ErrInvalidCollection
  else if zlen documents =? 0 then Err ErrInvalidDocument
  else if MaxTransactionChanges (db_limits db) <? zlen documents then Err ErrResourceLimit
  else
    let* batch := prepareInserts documents fresh [] in
    let* _ := validateTransactionResource (db_limits db) (insert_change name <$> batch) in
    let* db := commitInsertManyLocked db name batch in
    Ok (db, batch.*1).

(** ** Selection *)

(** A charge of a budget; the counters of a rejected budget are not kept. *)
Definition charge (step : queryBudget -> queryBudget * option gerror) (b : queryBudget) : result queryBudget :=
  match step b with (b, None) => Ok b | (_, Some e) => Err e end.

Definition match_document (q : QuerySpec) (d : document) (b : queryBudget) : result (bool * queryBudget) :=
  match matchWithBudget q d (Some b) with
  | ((_, Some e), _) => Err e
  | ((matched, None), Some b) => Ok (matched, b)
  | ((_, None), None) => Err ErrPanic
  end.

Definition start_budget (limits : ResourceLimits) (q : QuerySpec) : result queryBudget :=
  match newQueryBudget limits q with (b, None) => Ok b | (_, Some e) => Err e end.

Fixpoint select_loop (q : QuerySpec) (one : bool) (maxAffected : Z) (documents : list (bytes * document)) (order : list bytes)
    (b : queryBudget) (selected : list document) : result (list document) :=
  match order with
  | [] => Ok selected
  | id :: order =>
      match field documents id with
      | None => select_loop q one maxAffected documents order b selected
      | Some d =>
          let* b := charge charge_document b in
          let* (matched, b) := match_document q d b in
          if negb matched then select_loop q one maxAffected documents order b selected
          else
            let* b := charge (charge_candidate d) b in
            let selected := selected ++ [d] in
            if (0 <? maxAffected) && (maxAffected <? zlen selected) then Err ErrMutationLimit
            else if one then Ok selected
            else select_loop q one maxAffected documents order b selected
      end
  end.

Definition selectMutationDocumentsLocked (db : DB) (name : bytes) (q : QuerySpec) (one : bool) (maxAffected : Z) : result (list document) :=
  match field (db_collections db) name with
  | None => Ok []
  | Some data =>
      let* b := start_budget (db_limits db) q in
      select_loop q one maxAffected (cd_documents data) (cd_order data) b []
  end.

(** The selection of a mutation, whose own limit reads as a resource limit. *)
Definition bounded_selection (db : DB) (name : bytes) (q : QuerySpec) (one : bool) (maxAffected : Z) : result (list document) :=
  let '(limit, resourceBounded) := boundedMutationSelection (db_limits db) maxAffected one in
  match selectMutationDocumentsLocked db name q one limit with
  | Err ErrMutationLimit => Err (if resourceBounded then ErrResourceLimit else ErrMutationLimit)
  | r => r
  end.

(** ** Deletion *)

Fixpoint delete_changes (name : bytes) (selected : list document) : result (list Change) :=
  match selected with
  | [] => Ok []
  | d :: selected =>
      match Document_ID d with
      | None => Err ErrCorrupt
      | Some id =>
          if all_zero id then Err ErrCorrupt
          else
            let* rest := delete_changes name selected in
            Ok (mk_change name DeleteOperation id (Some d) None None [] :: rest)
      end
  end.

Fixpoint delete_documents (changes : list Change) (data : collectionData) : result collectionData :=
  match changes with
  | [] => Ok data
  | change :: changes =>
      match ch_Before change with
      | None => Err ErrPanic
      | Some before =>
          let* data := deleteIndexes data (ch_DocumentID change) before in
          delete_documents changes
            (mk_data (del (ch_DocumentID change) (cd_documents data)) (cd_order data) (cd_positions data) (cd_indexes data))
      end
  end.

Definition deleteQueryLocked (db : DB) (name : bytes) (q : QuerySpec) (one : bool) (maxAffected : Z) : result (DB * Z) :=
  let* _ := open_db db in
  let* selected := bounded_selection db name q one maxAffected in
  match field (db_collections db) name with
  | None => match selected with [] => Ok (db, 0) | _ => Err ErrCorrupt end
  | Some data =>
      let* changes := delete_changes name selected in
      let* _ := validateTransactionResource (db_limits db) changes in
      match changes with
      | [] => Ok (db, 0)
      | _ =>
          let token := next_token db in
          let deleted := ch_DocumentID <$> changes in
          let* data := delete_documents changes data in
          let kept := List.filter (fun id => negb (existsb (beqb id) deleted)) (cd_order data) in
          let data := rebuildPositions (mk_data (cd_documents data) kept (cd_positions data) (cd_indexes data)) in
          Ok (publish (committed (set_collection db name data) token changes) token changes, zlen changes)
      end
  end.

Definition deleteQuery (db : DB) (name : bytes) (q : QuerySpec) (one : bool) (maxAffected : Z) : result (DB * Z) :=
  if negb (validCollectionName name) then Err ErrInvalidCollection
  else if HasModifiers q then Err ErrInvalidFilter
  else deleteQueryLocked db name q one maxAffected.

(** ** Updates *)

Definition update_change (name : bytes) (paths : list bytes) (change : pendingUpdate) : Change :=
  mk_change name UpdateOperation (pu_id change) (Some (pu_before change)) (Some (pu_after change)) None paths.

Fixpoint update_documents (changes : list pendingUpdate) (data : collectionData) : result collectionData :=
  match changes with
  | [] => Ok data
  | change :: changes =>
      let data := mk_data (ins (pu_id change) (pu_after change) (cd_documents data)) (cd_order data) (cd_positions data) (cd_indexes data) in
      let* data := updateIndexes data (pu_id change) (pu_before change) (pu_after change) in
      update_documents changes data
  end.

(** The database and [ModifiedCount]; [MatchedCount] is the number of documents
    selected. *)
Definition updateQueryLocked (db : DB) (name : bytes) (q : QuerySpec) (mutation : MutationSpec) (one : bool) (maxAffected : Z)
    : result (DB * (Z * Z)) :=
  let* _ := open_db db in
  let* selected := bounded_selection db name q one maxAffected in
  match field (db_collections db) name with
  | None => match selected with [] => Err ErrPanic | _ => Err ErrCorrupt end
  | Some data =>
      let* (changes, modified) := prepareDocumentUpdates selected mutation in
      let events := update_change name (Paths mutation) <$> changes in
      let* _ := validateTransactionResource (db_limits db) events in
      let* _ := validateIndexUpdates data changes in
      match events with
      | [] => Ok (db, (zlen selected, modified))
      | _ =>
          let token := next_token db in
          let* data := update_documents changes data in
          Ok (publish (committed (set_collection db name data) token events) token events, (zlen selected, modified))
      end
  end.

Definition updateQuery (db : DB) (name : bytes) (q : QuerySpec) (mutation : MutationSpec) (one : bool) (maxAffected : Z)
    : result (DB * (Z * Z)) :=
  if negb (validCollectionName name) then Err ErrInvalidCollection
  else if zlen mutation =? 0 then Err ErrInvalidUpdate
  else if HasModifiers q then Err ErrInvalidFilter
  else updateQueryLocked db name q mutation one maxAffected.

(** ** The calls on a collection *)

Definition InsertOne (db : DB) (name : bytes) (d : document) (fresh : list bytes) : result (DB * bytes) :=
  let* (db, ids) := InsertMany db name [d] fresh in
  match ids with id :: _ => Ok (db, id) | [] => Err ErrPanic end.

Definition DeleteOneQuery db name q := deleteQuery db name q true 1.
Definition DeleteManyQuery db name q := deleteQuery db name q false 0.
Definition DeleteManyQueryLimited (db : DB) (name : bytes) (q : QuerySpec) (maxAffected : Z) : result (DB * Z) :=
  if maxAffected <=? 0 then Err ErrMutationLimit else deleteQuery db name q false maxAffected.

Definition UpdateOneQuery db name q mutation := updateQuery db name q mutation true 1.
Definition UpdateManyQuery db name q mutation := updateQuery db name q mutation false 0.
Definition UpdateManyQueryLimited (db : DB) (name : bytes) (q : QuerySpec) (mutation : MutationSpec) (maxAffected : Z)
    : result (DB * (Z * Z)) :=
  if maxAffected <=? 0 then Err ErrMutationLimit else updateQuery db name q mutation false maxAffected.

(** ** Indexes *)

Definition createLockedIndex (db : DB) (name : bytes) (definition : IndexDefinition) (budget : option indexBuildBudget) : result DB :=
  let* _ := open_db db in
  let data := match field (db_collections db) name with Some data => data | None => newCollectionData end in
  match field (cd_indexes data) (def_Name definition) with
  | Some _ => Err ErrInvalidIndex
  | None =>
      let* (state, _) := buildIndex definition data budget in
      let token := next_token db in
      let changes := [mk_change name CreateIndexOperation [] None None (Some (cloneIndexDefinition definition)) []] in
      let data := set_indexes data (ins (def_Name definition) state (cd_indexes data)) in
      Ok (committed (set_collection db name data) token changes)
  end.

(** The loop over the fields; the names of indexes and of collections have one
    syntax. *)
Fixpoint index_fields_ok (fields : list IndexField) (seen : list bytes) : bool :=
  match fields with
  | [] => true
  | f :: fields =>
      if (negb (Order f =? 1) && negb (Order f =? -1)) || negb (validatePath (Path f)) then false
      else if existsb (beqb (Path f)) seen then false
      else index_fields_ok fields (Path f :: seen)
  end.

Definition validateIndexDefinition (name : bytes) (fields : list IndexField) (unique : bool) : result IndexDefinition :=
  if negb (validCollectionName name) || (zlen fields =? 0) || (maxCompoundIndexFields <? zlen fields) then Err ErrInvalidIndex
  else if negb (index_fields_ok fields []) then Err ErrInvalidIndex
  else of_option ErrPanic (newIndexDefinition name fields unique).

Definition CreateIndex (db : DB) (name indexName : bytes) (fields : list IndexField) (unique : bool) : result DB :=
  if negb (validCollectionName name) then Err ErrInvalidCollection
  else
    let* definition := validateIndexDefinition indexName fields unique in
    createLockedIndex db name definition (Some (mk_build_budget (db_limits db) 0 0 false)).
