(* ===== verification/MemoryMutations.v ===== *)
(** * Mutations of a database in memory

    The invariant of a collection - order, positions, documents and index trees
    say the same thing - and what insertions, deletions, updates and new indexes
    do to the documents a collection has, in insertion order. *)
From S2P Require Import Prelude Bytes Strings Entries Records Float64 Values Documents DocumentCodec IndexKey CompoundKey.
From S2P Require Import IndexTree IndexTreeShape IndexTreeMap Update Query IndexDefinitions MemoryIndexes MemoryDatabase.

(** ** What a collection has *)

(** The documents in insertion order. *)
Definition documents_of (documents : list (bytes * document)) (order : list bytes) : members :=
  flat_map (fun id => match field documents id with Some d => [(id, d)] | None => [] end) order.

Definition contents (data : collectionData) : members := documents_of (cd_documents data) (cd_order data).

Record collection_ok (data : collectionData) : Prop := {
  ok_sorted : sorted_keys (cd_documents data);
  ok_order : NoDup (cd_order data);
  ok_documents : forall id, field (cd_documents data) id <> None <-> id ∈ cd_order data;
  ok_positions : forall id p, field (cd_positions data) id = Some p <->
    exists i, cd_order data !! i = Some id /\ p = Z.of_nat i;
  ok_ids : Forall (fun m => Document_ID m.2 = Some m.1 /\ zlen m.1 = 16 /\ all_zero m.1 = false) (contents data);
  ok_trees : trees_hold (contents data) (cd_indexes data);
  ok_admitted : all_admitted (contents data) (cd_indexes data);
  ok_names : NoDup (cd_indexes data).*1;
  ok_own_names : Forall (fun ns => def_Name (is_definition ns.2) = ns.1) (cd_indexes data) }.

Lemma elem_of_documents documents order m :
  m ∈ documents_of documents order <-> m.1 ∈ order /\ field documents m.1 = Some m.2.
Proof.
  unfold documents_of. rewrite list_elem_of_In, in_flat_map. destruct m as [id d]. cbn [fst snd]. split.
  - intros (i & Hi & Hin). destruct (field documents i) as [x|] eqn:E; [|done]. destruct Hin as [[= -> ->]|[]].
    split; [by apply list_elem_of_In|done].
  - intros [Hi E]. exists id. split; [by apply list_elem_of_In|]. rewrite E. by left.
Qed.

Lemma documents_ids documents order : (forall id, id ∈ order -> field documents id <> None) -> (documents_of documents order).*1 = order.
Proof.
  unfold documents_of. induction order as [|id order IH]; intros H; [done|]. cbn [flat_map]. rewrite fmap_app, IH.
  - destruct (field documents id) eqn:E; [done|]. destruct (H id ltac:(left) E).
  - intros i Hi. apply H. by right.
Qed.

Lemma contents_ids data : collection_ok data -> (contents data).*1 = cd_order data.
Proof. intros H. apply documents_ids. intros id Hid. by apply (ok_documents _ H). Qed.

Lemma contents_NoDup data : collection_ok data -> NoDup (contents data).*1.
Proof. intros H. rewrite contents_ids by done. apply H. Qed.

Lemma field_contents data id d : collection_ok data -> field (cd_documents data) id = Some d <-> (id, d) ∈ contents data.
Proof.
  intros H. unfold contents. rewrite elem_of_documents. cbn [fst snd]. split; [|by intros [_ E]].
  intros E. split; [|done]. apply (ok_documents _ H). congruence.
Qed.

Lemma new_collection_ok : collection_ok newCollectionData.
Proof.
  split; try constructor; try done.
  - intros H. by apply not_elem_of_nil in H.
  - intros (i & Hi & _). by destruct i.
Qed.

Lemma documents_of_ext documents documents' order :
  (forall id, id ∈ order -> field documents' id = field documents id) -> documents_of documents' order = documents_of documents order.
Proof.
  unfold documents_of. induction order as [|i order IH]; intros H; [done|]. cbn [flat_map].
  rewrite (H i ltac:(left)), IH; [done|]. intros j Hj. apply H. by right.
Qed.

Lemma documents_of_ins id d documents order : (id ∉ order) -> documents_of (ins id d documents) order = documents_of documents order.
Proof.
  intros Hn. apply documents_of_ext. intros i Hi. rewrite field_ins. destruct (beqb i id) eqn:E; [|done].
  apply beqb_eq in E as ->. done.
Qed.

Lemma documents_of_snoc documents order id :
  documents_of documents (order ++ [id]) =
  documents_of documents order ++ match field documents id with Some d => [(id, d)] | None => [] end.
Proof. unfold documents_of. rewrite flat_map_app. cbn [flat_map]. by rewrite app_nil_r. Qed.

Lemma names_keys indexes indexes' : index_names indexes' = index_names indexes -> indexes'.*1 = indexes.*1.
Proof.
  unfold index_names. intros E. apply (f_equal (fmap fst)) in E. rewrite <- !list_fmap_compose in E. exact E.
Qed.

Lemma own_names indexes indexes' : index_names indexes' = index_names indexes ->
  Forall (fun ns => def_Name (is_definition ns.2) = ns.1) indexes -> Forall (fun ns => def_Name (is_definition ns.2) = ns.1) indexes'.
Proof.
  intros E H. rewrite <- (Forall_fmap (fun ns : bytes * indexState => (ns.1, is_definition ns.2)) (fun nd => def_Name nd.2 = nd.1)) in H |- *.
  unfold index_names in E. by rewrite E.
Qed.

(** ** Insertion *)

Lemma member_keyed docs indexes id d : all_admitted docs indexes -> (id, d) ∈ docs ->
  Forall (fun ns => keyed (is_definition ns.2) d) indexes.
Proof.
  intros Ha Hin. eapply Forall_impl; [exact Ha|]. intros ns [Hk _]. rewrite Forall_forall in Hk. by apply (Hk _ Hin).
Qed.

Lemma all_admitted_subset docs docs' indexes : docs ⊆ docs' -> all_admitted docs' indexes -> all_admitted docs indexes.
Proof. intros Hs Ha. eapply Forall_impl; [exact Ha|]. intros ns. by apply admitted_subset. Qed.

Lemma insert_documents_spec batch data :
  collection_ok data -> NoDup batch.*1 -> Forall (fun m => m.1 ∉ cd_order data) batch ->
  Forall (fun m => Document_ID m.2 = Some m.1 /\ zlen m.1 = 16 /\ all_zero m.1 = false) batch ->
  all_admitted (contents data ++ batch) (cd_indexes data) ->
  exists data', insert_documents batch data = Ok data' /\ collection_ok data' /\ contents data' = contents data ++ batch /\
    index_names (cd_indexes data') = index_names (cd_indexes data).
Proof.
  revert data; induction batch as [|[id d] batch IH]; intros data Hok Hnd Hnew Hids Ha; cbn [insert_documents].
  { exists data. by rewrite app_nil_r. }
  apply NoDup_cons in Hnd as [Hni Hnd]. apply Forall_cons in Hnew as [Hn Hnew]. apply Forall_cons in Hids as [Hid Hids]. cbn [fst snd] in *.
  set (data1 := mk_data _ _ _ _).
  assert (Hc1 : contents data1 = contents data ++ [(id, d)]).
  { unfold contents, data1. cbn [cd_documents cd_order]. rewrite documents_of_snoc, field_ins, beqb_refl.
    by rewrite documents_of_ins. }
  assert (Hall : contents data ++ (id, d) :: batch = (contents data ++ [(id, d)]) ++ batch) by (by rewrite <- app_assoc).
  rewrite Hall in Ha |- *.
  assert (Ha1 : all_admitted (contents data ++ [(id, d)]) (cd_indexes data)).
  { eapply all_admitted_subset; [|exact Ha]. intros x Hx. apply elem_of_app. by left. }
  destruct (insertIndexes_spec (contents data) data1 id d (ok_trees _ Hok)) as (indexes' & Hi & Hnames & Hh).
  { apply (member_keyed _ _ id d Ha1). apply elem_of_app. right. by apply list_elem_of_singleton. }
  rewrite Hi. cbn [rbind]. change (cd_indexes data1) with (cd_indexes data) in Hnames.
  set (data2 := set_indexes data1 indexes').
  assert (Hc2 : contents data2 = contents data ++ [(id, d)]) by (by rewrite <- Hc1).
  assert (Hok2 : collection_ok data2).
  { split.
    - cbn. apply sorted_ins, Hok.
    - cbn. apply NoDup_app. split; [apply Hok|]. split; [|apply NoDup_singleton]. intros x Hx Hx'%list_elem_of_singleton. congruence.
    - intros i. cbn. rewrite field_ins, elem_of_app, list_elem_of_singleton, <- (ok_documents _ Hok). destruct (beqb i id) eqn:E.
      + apply beqb_eq in E as ->. split; [by right|done].
      + apply beqb_neq in E. tauto.
    - intros i p. cbn. rewrite field_ins. destruct (beqb i id) eqn:E.
      + apply beqb_eq in E as ->. split.
        * intros [= <-]. exists (length (cd_order data)). by rewrite lookup_middle.
        * intros (k & Hk & ->). f_equal. unfold zlen. f_equal. apply lookup_snoc_Some in Hk as [[_ Hk]|[-> _]]; [|done].
          by apply list_elem_of_lookup_2 in Hk.
      + apply beqb_neq in E. rewrite (ok_positions _ Hok i p). split; intros (k & Hk & ->); exists k; (split; [|done]).
        * by apply lookup_app_l_Some.
        * apply lookup_snoc_Some in Hk as [[_ Hk]|[_ Hk]]; [done|congruence].
    - rewrite Hc2. apply Forall_app. split; [apply Hok|]. by apply Forall_singleton.
    - by rewrite Hc2.
    - rewrite Hc2. by apply (all_admitted_names _ _ _ Hnames).
    - cbn. rewrite (names_keys _ _ Hnames). apply Hok.
    - apply (own_names _ _ Hnames), Hok. }
  destruct (IH data2 Hok2 Hnd) as (data' & Hr & Hok' & Hc' & Hn').
  - rewrite Forall_forall in Hnew |- *. intros x Hx. cbn. rewrite elem_of_app, list_elem_of_singleton.
    intros [H|H]; [by apply (Hnew x)|]. apply Hni. rewrite <- H. by apply list_elem_of_fmap_2.
  - done.
  - rewrite Hc2. by apply (all_admitted_names _ _ _ Hnames).
  - exists data'. split; [done|]. split; [done|]. rewrite Hc', Hc2. split; [done|]. rewrite Hn'. exact Hnames.
Qed.

(** ** Positions *)

Lemma positions_from_spec order base positions id p :
  NoDup order -> field (positions_from order base positions) id = Some p <->
  (exists i, order !! i = Some id /\ p = base + Z.of_nat i) \/ ((id ∉ order) /\ field positions id = Some p).
Proof.
  revert base positions; induction order as [|x order IH]; intros base positions Hnd; cbn [positions_from].
  { split; [intros H; right; split; [apply not_elem_of_nil|done]|]. intros [(i & Hi & _)|[_ H]]; [by destruct i|done]. }
  apply NoDup_cons in Hnd as [Hx Hnd]. rewrite IH by done. rewrite field_ins, not_elem_of_cons. split.
  - intros [(i & Hi & ->)|[Hn Hf]].
    + left. exists (S i). split; [done|lia].
    + destruct (beqb id x) eqn:E; [|apply beqb_neq in E; auto]. apply beqb_eq in E as ->. injection Hf as <-.
      left. exists 0%nat. split; [done|lia].
  - intros [([|i] & Hi & ->)|[[Hne Hn] Hf]].
    + injection Hi as ->. right. rewrite beqb_refl. split; [done|]. f_equal. lia.
    + left. exists i. split; [done|lia].
    + right. split; [done|]. by apply beqb_neq in Hne as ->.
Qed.

Lemma rebuilt_positions order id p : NoDup order ->
  field (positions_from order 0 []) id = Some p <-> exists i, order !! i = Some id /\ p = Z.of_nat i.
Proof.
  intros Hnd. rewrite positions_from_spec by done. split; [intros [H|[_ H]]; [exact H|done]|intros H; by left].
Qed.

(** ** Deletion *)

Lemma without_nil docs : without [] docs = docs.
Proof. unfold without. induction docs as [|m docs IH]; [done|]. cbn [List.filter existsb negb]. by f_equal. Qed.

Lemma without_cons id ids docs : without (id :: ids) docs = without ids (without [id] docs).
Proof.
  unfold without. induction docs as [|m docs IH]; [done|]. cbn [List.filter].
  assert (E : existsb (beqb m.1) (id :: ids) = existsb (beqb m.1) [id] || existsb (beqb m.1) ids) by (cbn; by rewrite orb_false_r).
  rewrite E. destruct (existsb (beqb m.1) [id]); cbn [orb negb]; [done|]. cbn [List.filter]. by rewrite IH.
Qed.

Lemma without_ids ids docs : (without ids docs).*1 = List.filter (fun id => negb (existsb (beqb id) ids)) docs.*1.
Proof.
  unfold without. induction docs as [|m docs IH]; [done|]. cbn [List.filter fmap list_fmap].
  destruct (existsb _ ids); cbn [negb fmap list_fmap]; by rewrite IH.
Qed.

Lemma without_subset ids docs : without ids docs ⊆ docs.
Proof. intros m Hm. by apply elem_of_without in Hm as [? _]. Qed.

Lemma NoDup_without ids docs : NoDup docs.*1 -> NoDup (without ids docs).*1.
Proof. rewrite without_ids. intros H. apply NoDup_ListNoDup, List.NoDup_filter, NoDup_ListNoDup, H. Qed.

Lemma documents_of_filter documents keep order :
  documents_of documents (List.filter keep order) = List.filter (fun m => keep m.1) (documents_of documents order).
Proof.
  unfold documents_of. induction order as [|id order IH]; [done|]. cbn [List.filter flat_map]. rewrite List.filter_app, <- IH.
  destruct (keep id) eqn:E; cbn [flat_map]; destruct (field documents id); cbn [List.filter fst app]; by rewrite ?E.
Qed.

Definition deletes (changes : list Change) (docs : members) : Prop :=
  NoDup (ch_DocumentID <$> changes) /\
  Forall (fun c => exists d, ch_Before c = Some d /\ (ch_DocumentID c, d) ∈ docs) changes.

Lemma delete_documents_spec changes data docs :
  NoDup docs.*1 -> sorted_keys (cd_documents data) -> trees_hold docs (cd_indexes data) -> all_admitted docs (cd_indexes data) ->
  deletes changes docs ->
  exists data', delete_documents changes data = Ok data' /\ cd_order data' = cd_order data /\
    sorted_keys (cd_documents data') /\
    (forall id, field (cd_documents data') id = if existsb (beqb id) (ch_DocumentID <$> changes) then None else field (cd_documents data) id) /\
    index_names (cd_indexes data') = index_names (cd_indexes data) /\
    trees_hold (without (ch_DocumentID <$> changes) docs) (cd_indexes data').
Proof.
  revert data docs; induction changes as [|c changes IH]; intros data docs Hnd Hs Ht Ha [Hids Hb]; cbn [delete_documents].
  { exists data. rewrite without_nil. done. }
  apply Forall_cons in Hb as [(d & Hd & Hin) Hb]. rewrite fmap_cons in Hids |- *. apply NoDup_cons in Hids as [Hni Hids]. rewrite Hd.
  destruct (deleteIndexes_spec docs data (ch_DocumentID c) d Hnd Hin Ht (member_keyed _ _ _ _ Ha Hin)) as (indexes' & Hr & Hn & Hh).
  rewrite Hr. cbn [rbind]. set (data1 := mk_data _ _ _ _).
  destruct (IH data1 (without [ch_DocumentID c] docs)) as (data' & Hd' & Ho & Hs' & Hf & Hn' & Hh').
  - by apply NoDup_without.
  - by apply sorted_del.
  - done.
  - apply (all_admitted_names _ _ _ Hn). eapply all_admitted_subset; [apply without_subset|exact Ha].
  - split; [done|]. rewrite Forall_forall in Hb |- *. intros c' Hc'. destruct (Hb c' Hc') as (d' & E & Hd'). exists d'. split; [done|].
    apply elem_of_without. split; [done|]. cbn [fst]. intros E'%list_elem_of_singleton. apply Hni. rewrite <- E'. by apply list_elem_of_fmap_2.
  - exists data'. split; [done|]. split; [done|]. split; [done|]. rewrite without_cons. split; [|split; [|done]].
    + intros i. rewrite Hf. cbn [existsb data1 cd_documents]. rewrite field_del by done. destruct (beqb i _); cbn [orb]; [by destruct (existsb _ _)|done].
    + rewrite Hn'. exact Hn.
Qed.

Lemma deleted_collection changes data :
  collection_ok data -> deletes changes (contents data) ->
  let ids := ch_DocumentID <$> changes in
  exists data', delete_documents changes data = Ok data' /\
    let data'' := rebuildPositions (mk_data (cd_documents data') (List.filter (fun id => negb (existsb (beqb id) ids)) (cd_order data'))
                    (cd_positions data') (cd_indexes data')) in
    collection_ok data'' /\ contents data'' = without ids (contents data) /\
    index_names (cd_indexes data'') = index_names (cd_indexes data).
Proof.
  intros Hok Hdel ids.
  destruct (delete_documents_spec changes data (contents data) (contents_NoDup _ Hok) (ok_sorted _ Hok) (ok_trees _ Hok) (ok_admitted _ Hok) Hdel)
    as (data' & Hr & Ho & Hs & Hf & Hn & Hh).
  exists data'. split; [done|]. intros data''. fold ids in Hf, Hh.
  assert (Hkeep : forall i, i ∈ List.filter (fun id => negb (existsb (beqb id) ids)) (cd_order data) <->
    i ∈ cd_order data /\ existsb (beqb i) ids = false).
  { intros i. by rewrite list_elem_of_In, filter_In, <- list_elem_of_In, negb_true_iff. }
  assert (Hc : contents data'' = without ids (contents data)).
  { unfold contents, data''. cbn [rebuildPositions cd_documents cd_order]. rewrite Ho.
    rewrite (documents_of_ext (cd_documents data)).
    - rewrite documents_of_filter. done.
    - intros i [_ Hi]%Hkeep. by rewrite Hf, Hi. }
  split; [|done]. split.
  - done.
  - cbn. rewrite Ho. apply NoDup_ListNoDup, List.NoDup_filter, NoDup_ListNoDup, Hok.
  - intros i. cbn. rewrite Ho, Hf, Hkeep, <- (ok_documents _ Hok). destruct (existsb _ ids); [|tauto]. split; [done|by intros [_ ?]].
  - intros i p. cbn. rewrite Ho. apply rebuilt_positions. apply NoDup_ListNoDup, List.NoDup_filter, NoDup_ListNoDup, Hok.
  - rewrite Hc. pose proof (ok_ids _ Hok) as H. rewrite Forall_forall in H |- *. intros m Hm. apply H. by apply elem_of_without in Hm as [? _].
  - by rewrite Hc.
  - rewrite Hc. apply (all_admitted_names _ _ _ Hn). eapply all_admitted_subset; [apply without_subset|apply Hok].
  - cbn. rewrite (names_keys _ _ Hn). apply Hok.
  - apply (own_names _ _ Hn), Hok.
Qed.

(** ** Updates *)

Lemma replace_members_cons c changes docs : pu_id c ∉ pu_id <$> changes ->
  replace_members (c :: changes) docs = replace_members changes (replace_members [c] docs).
Proof.
  intros Hn. unfold replace_members. rewrite <- list_fmap_compose. apply list_fmap_ext. intros i [id d] _.
  cbn [compose after_members fmap list_fmap field fst snd]. destruct (beqb id (pu_id c)) eqn:E; cbn [fst].
  - apply beqb_eq in E as ->. rewrite <- after_ids in Hn. by apply field_None in Hn as ->.
  - done.
Qed.

Lemma documents_of_replace documents order c : field documents (pu_id c) <> None ->
  documents_of (ins (pu_id c) (pu_after c) documents) order = replace_members [c] (documents_of documents order).
Proof.
  intros Hf. unfold documents_of, replace_members. induction order as [|id order IH]; [done|]. cbn [flat_map]. rewrite fmap_app, <- IH.
  f_equal. rewrite field_ins. destruct (beqb id (pu_id c)) eqn:E.
  - apply beqb_eq in E as ->. destruct (field documents (pu_id c)); [|done]. cbn. by rewrite beqb_refl.
  - destruct (field documents id); [|done]. cbn. by rewrite E.
Qed.

Lemma updates_of_head c changes docs : updates_of docs (c :: changes) -> updates_of docs [c].
Proof.
  intros [Hd Hids Hb Hw]. apply Forall_cons in Hb as [Hb _]. split; [done| |by constructor|done].
  apply NoDup_singleton.
Qed.

Lemma updates_of_tail c changes docs : updates_of docs (c :: changes) -> updates_of (replace_members [c] docs) changes.
Proof.
  intros [Hd Hids Hb Hw]. rewrite fmap_cons in Hids. apply NoDup_cons in Hids as [Hni Hids]. apply Forall_cons in Hb as [_ Hb].
  split; rewrite ?replace_ids; [done..| |done]. rewrite Forall_forall in Hb |- *. intros c' Hc'.
  apply list_elem_of_fmap. exists (pu_id c', pu_before c'). split; [|by apply Hb]. cbn.
  destruct (beqb (pu_id c') (pu_id c)) eqn:E; [|done]. apply beqb_eq in E. destruct Hni. rewrite <- E. by apply list_elem_of_fmap_2.
Qed.

Definition pending_keyed (indexes : list (bytes * indexState)) (c : pendingUpdate) : Prop :=
  Forall (fun ns => keyed (is_definition ns.2) (pu_before c) /\ keyed (is_definition ns.2) (pu_after c)) indexes.

Lemma pending_keyed_names indexes indexes' c :
  index_names indexes' = index_names indexes -> pending_keyed indexes c -> pending_keyed indexes' c.
Proof.
  unfold pending_keyed. intros E H. rewrite <- (Forall_fmap (fun ns : bytes * indexState => (ns.1, is_definition ns.2))
    (fun nd => keyed nd.2 (pu_before c) /\ keyed nd.2 (pu_after c))) in H |- *. unfold index_names in E. by rewrite E.
Qed.

Lemma update_documents_loop changes data :
  sorted_keys (cd_documents data) -> (forall id, field (cd_documents data) id <> None <-> id ∈ cd_order data) ->
  updates_of (contents data) changes -> trees_hold (contents data) (cd_indexes data) ->
  Forall (pending_keyed (cd_indexes data)) changes ->
  exists data', update_documents changes data = Ok data' /\ cd_order data' = cd_order data /\ cd_positions data' = cd_positions data /\
    sorted_keys (cd_documents data') /\ (forall id, field (cd_documents data') id <> None <-> id ∈ cd_order data) /\
    contents data' = replace_members changes (contents data) /\
    index_names (cd_indexes data') = index_names (cd_indexes data) /\
    trees_hold (contents data') (cd_indexes data').
Proof.
  revert data; induction changes as [|c changes IH]; intros data Hs Hf Hu Ht Hk; cbn [update_documents].
  { exists data. assert (E : replace_members [] (contents data) = contents data) by apply list_fmap_id. rewrite E. auto 10. }
  pose proof (updates_ids _ _ Hu) as Hni. rewrite fmap_cons in Hni. apply NoDup_cons in Hni as [Hni _].
  assert (Hfield : field (cd_documents data) (pu_id c) <> None).
  { pose proof (updates_before _ _ Hu) as Hb. apply Forall_cons in Hb as [Hb _]. apply elem_of_documents in Hb as [_ Hb]. cbn in Hb. congruence. }
  apply Forall_cons in Hk as [Hkc Hk]. set (data1 := mk_data _ _ _ _).
  destruct (updateIndexes_spec (contents data) data1 c (updates_of_head _ _ _ Hu) Ht Hkc) as (indexes' & Hr & Hn & Hh).
  rewrite Hr. cbn [rbind]. set (data2 := set_indexes data1 indexes').
  change (cd_indexes data1) with (cd_indexes data) in Hn.
  assert (Hc : contents data2 = replace_members [c] (contents data)) by (apply documents_of_replace, Hfield).
  destruct (IH data2) as (data' & Hd & Ho & Hp & Hs' & Hf' & Hc' & Hn' & Hh').
  - by apply sorted_ins.
  - intros i. cbn. rewrite field_ins. destruct (beqb i (pu_id c)) eqn:E; [|apply Hf]. apply beqb_eq in E as ->.
    rewrite <- Hf. done.
  - rewrite Hc. by apply updates_of_tail.
  - by rewrite Hc.
  - eapply Forall_impl; [exact Hk|]. intros c'. by apply pending_keyed_names.
  - exists data'. rewrite replace_members_cons, <- Hc by done. repeat (split; [done|]). split; [|done].
    rewrite Hn'. exact Hn.
Qed.

Lemma replaced_in changes docs m : m ∈ replace_members changes docs -> m ∈ docs \/ m ∈ after_members changes.
Proof.
  intros ([id d] & -> & Hin)%list_elem_of_fmap. cbn. destruct (field (after_members changes) id) as [x|] eqn:E; [|by left].
  right. by apply field_Some.
Qed.

Lemma updated_collection changes data :
  collection_ok data -> updates_of (contents data) changes ->
  Forall (fun c => Document_ID (pu_after c) = Some (pu_id c)) changes ->
  all_admitted (replace_members changes (contents data)) (cd_indexes data) ->
  exists data', update_documents changes data = Ok data' /\ collection_ok data' /\
    contents data' = replace_members changes (contents data) /\ index_names (cd_indexes data') = index_names (cd_indexes data).
Proof.
  intros Hok Hu Hids Ha.
  assert (Hk : Forall (pending_keyed (cd_indexes data)) changes).
  { apply Forall_forall. intros c Hc. apply Forall_forall. intros ns Hns.
    pose proof (updates_before _ _ Hu) as Hb. rewrite Forall_forall in Hb. specialize (Hb c Hc). split.
    - pose proof (member_keyed _ _ _ _ (ok_admitted _ Hok) Hb) as H. rewrite Forall_forall in H. by apply H.
    - assert (Hin : (pu_id c, pu_after c) ∈ replace_members changes (contents data)).
      { apply list_elem_of_fmap. exists (pu_id c, pu_before c). split; [|done]. cbn.
        rewrite (field_NoDup (after_members changes) (pu_id c) (pu_after c)); [done|rewrite after_ids; apply Hu|].
        apply list_elem_of_fmap. by exists c. }
      pose proof (member_keyed _ _ _ _ Ha Hin) as H. rewrite Forall_forall in H. by apply H. }
  destruct (update_documents_loop changes data (ok_sorted _ Hok) (ok_documents _ Hok) Hu (ok_trees _ Hok) Hk)
    as (data' & Hd & Ho & Hp & Hs & Hf & Hc & Hn & Hh).
  exists data'. split; [done|]. split; [|done]. split; rewrite ?Ho, ?Hp; [done|apply Hok|done|apply Hok| |done| | |].
  - rewrite Hc. pose proof (ok_ids _ Hok) as Hi. rewrite Forall_forall in Hi |- *. intros m Hm. pose proof Hm as Hm'.
    apply (list_elem_of_fmap_2 fst) in Hm'. rewrite replace_ids in Hm'. apply list_elem_of_fmap in Hm' as (m' & E & Hm').
    destruct (Hi m' Hm') as (_ & Hw & Hz). rewrite E. split; [|done].
    apply replaced_in in Hm as [Hm|(c & -> & Hc')%list_elem_of_fmap]; [rewrite <- E; by apply Hi|].
    rewrite Forall_forall in Hids. rewrite <- E. by apply Hids.
  - rewrite Hc. by apply (all_admitted_names _ _ _ Hn).
  - rewrite (names_keys _ _ Hn). apply Hok.
  - apply (own_names _ _ Hn), Hok.
Qed.

(** ** New indexes *)

Lemma index_pairs_snoc definition docs id d okey key v : indexDocumentKey definition d = Ok okey ->
  index_pairs definition (docs ++ [(id, d)]) key v <-> (okey = Some key /\ v = id) \/ index_pairs definition docs key v.
Proof.
  intros Hk. rewrite index_pairs_app, index_pairs_single, Hk. split; [intros [?|[? [= ?]]]|intros [[-> ->]|?]]; auto.
Qed.

(** The keys a build has to hold, in the order of the documents. *)
Definition index_keys (definition : IndexDefinition) (docs : members) : list bytes :=
  flat_map (fun m => match indexDocumentKey definition m.2 with Ok (Some key) => [key] | _ => [] end) docs.

Definition build_bytes (keys : list bytes) : Z := foldr (fun key n => to_u64 (zlen key + 24) + n) 0 keys.

(** A build that has spent [b] ends at one of these keys: it is one entry too
    many, or its bytes are. *)
Definition build_runs_over (b : indexBuildBudget) (keys : list bytes) : Prop :=
  exists l key l', keys = l ++ key :: l' /\
    (MaxIndexBuildEntries (bb_limits b) <= bb_entries b + zlen l \/
     MaxIndexBuildBytes (bb_limits b) < bb_bytes b + build_bytes l + to_u64 (zlen key + 24)).

Lemma build_add_spec key keys b :
  match build_add key b with
  | Ok b' => build_runs_over b' keys -> build_runs_over b (key :: keys)
  | Err e => e = ErrResourceLimit /\ build_runs_over b (key :: keys)
  end.
Proof.
  pose proof (to_u64_range (zlen key + 24)) as [Hu _]. unfold build_add. cbv zeta.
  destruct (Z.leb_spec (MaxIndexBuildEntries (bb_limits b)) (bb_entries b)).
  { split; [done|]. exists [], key, keys. split; [done|]. left. change (zlen []) with 0. lia. }
  destruct (_ || _) eqn:E.
  { split; [done|]. exists [], key, keys. split; [done|]. right. cbn [build_bytes foldr].
    apply orb_true_iff in E as [E|E]; apply Z.ltb_lt in E; lia. }
  intros (l & k & l' & -> & Hover). cbn [bb_limits bb_entries bb_bytes] in Hover. exists (key :: l), k, l'. split; [done|].
  rewrite zlen_cons. cbn [build_bytes foldr]. fold (build_bytes l). destruct Hover; [left|right]; lia.
Qed.

(** An index can be built when every document has a key or none and, for a
    unique index, no two have one; otherwise the rule that fails is reported,
    or the limits of the build. *)
Lemma build_loop_spec definition documents order budget t prev :
  NoDup (prev.*1 ++ order) -> (forall id, id ∈ order -> field documents id <> None) ->
  indexed t (index_pairs definition prev) -> admitted definition prev ->
  let docs := prev ++ documents_of documents order in
  match build_loop definition documents order budget t with
  | Ok (t', _) => admitted definition docs /\ indexed t' (index_pairs definition docs)
  | Err e => (e = ErrResourceLimit /\ exists b, budget = Some b /\ build_runs_over b (index_keys definition (documents_of documents order))) \/
      ((e = ErrInvalidIndex \/ e = ErrDuplicateKey) /\ ~ admitted definition docs)
  end.
Proof.
  revert budget t prev; induction order as [|id order IH]; intros budget t prev Hnd Hf Ht Ha; cbn [build_loop].
  { cbn. by rewrite app_nil_r. }
  destruct (field documents id) as [d|] eqn:Ed; [|destruct (Hf id ltac:(left) Ed)].
  assert (Hdocs : documents_of documents (id :: order) = (id, d) :: documents_of documents order) by (unfold documents_of; cbn [flat_map]; by rewrite Ed).
  rewrite Hdocs. cbv zeta. set (rest := documents_of documents order) in *.
  assert (Hin : (id, d) ∈ prev ++ (id, d) :: rest) by (rewrite elem_of_app; right; left).
  destruct (indexDocumentKey definition d) as [okey|e] eqn:Ek; cbn [rbind].
  2: { right. split; [left; by apply index_key_error in Ek|]. by apply (unkeyed_refused definition _ id d e). }
  assert (Hnext : forall budget' t', indexed t' (index_pairs definition (prev ++ [(id, d)])) -> admitted definition (prev ++ [(id, d)]) ->
    match build_loop definition documents order budget' t' with
    | Ok (t', _) => admitted definition (prev ++ (id, d) :: rest) /\ indexed t' (index_pairs definition (prev ++ (id, d) :: rest))
    | Err e => (e = ErrResourceLimit /\ exists b, budget' = Some b /\ build_runs_over b (index_keys definition rest)) \/
        ((e = ErrInvalidIndex \/ e = ErrDuplicateKey) /\ ~ admitted definition (prev ++ (id, d) :: rest))
    end).
  { intros budget' t' Ht' Ha'. pose proof (IH budget' t' (prev ++ [(id, d)])) as H. cbv zeta in H.
    rewrite <- app_assoc in H. apply H; [|intros i Hi; apply Hf; by right|done..].
    by rewrite fmap_app, <- app_assoc. }
  unfold index_keys at 1. cbn [flat_map snd]. rewrite Ek. fold (index_keys definition rest). cbn [app].
  destruct okey as [key|].
  2: { apply Hnext.
       - eapply indexed_iff; [|exact Ht]. intros k v. rewrite index_pairs_snoc by exact Ek. split; [by right|by intros [[? _]|?]].
       - by apply (admitted_snoc _ _ _ _ _ Ek Ha). }
  assert (Hbud : match charge_build key budget with
    | Ok budget' => forall b', budget' = Some b' -> build_runs_over b' (index_keys definition rest) ->
        exists b, budget = Some b /\ build_runs_over b (key :: index_keys definition rest)
    | Err e => e = ErrResourceLimit /\ exists b, budget = Some b /\ build_runs_over b (key :: index_keys definition rest)
    end).
  { destruct budget as [b|]; [|done]. cbn [charge_build]. pose proof (build_add_spec key (index_keys definition rest) b) as H.
    destruct (build_add key b) as [b1|e]; cbn [rbind]; [|destruct H; eauto]. intros b' [= <-] Hr. eauto. }
  destruct (charge_build key budget) as [budget'|e]; cbn [rbind]; [|by left].
  destruct (indexed_get t _ key Ht) as (vs & Hget & Hvs). rewrite Hget. cbn [rbind].
  destruct (def_Unique definition && negb (is_nil vs)) eqn:Eu.
  - apply andb_true_iff in Eu as [Eu Env]. right. split; [by right|]. destruct vs as [|v vs]; [done|].
    assert (Hp : index_pairs definition prev key v) by (apply Hvs; left).
    apply (conflict_refused definition prev _ key id v Eu).
    + intros x Hx. apply elem_of_app. by left.
    + by exists d.
    + done.
    + intros ->. destruct Hp as (x & Hx & _). apply (list_elem_of_fmap_2 fst) in Hx. cbn in Hx.
      apply NoDup_app in Hnd as (_ & Hd & _). apply (Hd id Hx). left.
  - destruct (indexed_insert t _ key id Ht (index_key_nonempty _ _ _ Ek)) as (t' & Hi & Ht'). rewrite Hi. cbn [rbind].
    assert (Ht1 : indexed t' (index_pairs definition (prev ++ [(id, d)]))).
    { eapply indexed_iff; [|exact Ht']. intros k v. rewrite index_pairs_snoc by exact Ek.
      split; (intros [[H ->]|H]; [left; split; congruence|by right]). }
    assert (Ha1 : admitted definition (prev ++ [(id, d)])).
    { apply (admitted_snoc _ _ _ _ _ Ek Ha). intros k v Hu [= <-] Hp%Hvs. rewrite Hu in Eu. by destruct vs; [apply not_elem_of_nil in Hp|]. }
    specialize (Hnext budget' t' Ht1 Ha1). destruct (build_loop definition documents order budget' t') as [[t'' b'']|e]; [done|].
    destruct Hnext as [[-> (b' & Eb & Hb)]|H]; [left; split; [done|by eapply Hbud]|by right].
Qed.
