(* ===== verification/MemoryEffects.v ===== *)
(** * What mutations do to a database in memory

    The documents of every collection after an insertion, a deletion, an update
    or a new index, which errors they return and when, and what is published. *)
From S2P Require Import Prelude Bytes Strings Entries Records Float64 Values Documents DocumentCodec IndexKey CompoundKey Any.
From S2P Require Import IndexTree IndexTreeShape IndexTreeMap Update Query IndexDefinitions MemoryIndexes MemoryDatabase MemoryMutations.

(** ** Budgeted scans *)

Lemma costs_unique m n n' : costs m n -> costs m n' -> n = n'.
Proof.
  intros (H0 & _ & H) (H0' & _ & H'). set (limits := mk_resource_limits 0 0 0 0 0 0 0 0 0 0 0 0 (n + n')).
  set (b := mk_budget false (mk_query nilExpr [] 0 None false) limits 0 0 0 0 0 false []).
  assert (Hb : steps_left b = n + n') by (unfold steps_left; cbn; lia).
  specialize (H b ltac:(lia)). specialize (H' b ltac:(lia)). rewrite Hb in H, H'.
  destruct (Z.leb_spec n (n + n')); [|lia]. destruct (Z.leb_spec n' (n + n')); [|lia].
  rewrite H in H'. injection H' as E. lia.
Qed.

Lemma match_document_at q d k b : expr_ok (q_where q) = true -> costs (matchWithBudget q d) k -> 0 <= steps_left b ->
  match_document q d b = if k <=? steps_left b then Ok (Match q d, spend k b) else Err ErrQueryBudget.
Proof.
  intros Hok (Hk & _ & Hc) Hb. pose proof (decides_expression (q_where q) d Hok) as (o & Ho & _).
  assert (Hm : matchExpression (q_where q) d = matchWithBudget q d) by (unfold matchWithBudget; by destruct (q_where q)).
  specialize (Hc b Hb). unfold match_document, Match. rewrite Hm in Ho. rewrite Ho in Hc |- *.
  destruct (k <=? steps_left b); [by rewrite Hc|]. by destruct Hc as (o' & ->).
Qed.

(** The predicate steps that matching these documents takes. *)
Inductive scan_cost (q : QuerySpec) : members -> Z -> Prop :=
| scan_nothing : scan_cost q [] 0
| scan_next docs m n k : scan_cost q docs n -> costs (matchWithBudget q m.2) k -> scan_cost q (docs ++ [m]) (n + k).

Lemma scan_cost_unique q docs n n' : scan_cost q docs n -> scan_cost q docs n' -> n = n'.
Proof.
  intros H. revert n'. induction H as [|docs m n k H IH Hk]; intros n' H'; inversion H' as [E|docs0 m0 n0 k0 Hs Hc E]; subst; try done;
    try match goal with E : [] = ?l ++ _ |- _ => by destruct l | E : ?l ++ _ = [] |- _ => by destruct l end.
  apply app_inj_tail in E as [-> ->]. f_equal; [by apply IH|by eapply costs_unique].
Qed.

(** The documents a mutation selects, in insertion order. *)
Definition matches (q : QuerySpec) (docs : members) : members := List.filter (fun m => Match q m.2) docs.
Definition selection (q : QuerySpec) (one : bool) (docs : members) : members :=
  if one then take 1 (matches q docs) else matches q docs.

Lemma matches_cons q m l : matches q (m :: l) = (if Match q m.2 then [m] else []) ++ matches q l.
Proof. unfold matches. cbn [List.filter]. by destruct (Match q m.2). Qed.
Lemma matches_snoc q l m : matches q (l ++ [m]) = matches q l ++ if Match q m.2 then [m] else [].
Proof. unfold matches. rewrite List.filter_app. cbn [List.filter]. by destruct (Match q m.2). Qed.

(** The documents a scan examines that stops at its [stop]th match, or at none
    if [stop] is not positive. *)
Fixpoint examined (q : QuerySpec) (stop : Z) (docs : members) : members :=
  match docs with
  | [] => []
  | m :: docs =>
      m :: (if Match q m.2 then if stop =? 1 then [] else examined q (stop - 1) docs else examined q stop docs)
  end.

(** The budget of a query ends at the document [m], the ones [before] it
    examined: it is one document too many, its match takes too many steps, or it
    is one candidate too many. *)
Definition budget_ends (limits : ResourceLimits) (q : QuerySpec) (before : members) (m : bytes * document) : Prop :=
  MaxQueryDocumentsExamined limits <= zlen before \/
  (exists n k, scan_cost q before n /\ costs (matchWithBudget q m.2) k /\ MaxQueryPredicateSteps limits < n + k) \/
  Match q m.2 = true /\ MaxQueryCandidates limits <= zlen (matches q before).

Definition budget_runs_out (limits : ResourceLimits) (q : QuerySpec) (before docs : members) : Prop :=
  exists l m l', docs = l ++ m :: l' /\ budget_ends limits q (before ++ l) m.

Lemma runs_out_nil limits q before : ~ budget_runs_out limits q before [].
Proof. intros (l & m & l' & E & _). by destruct l. Qed.

Lemma runs_out_cons limits q before m docs :
  budget_runs_out limits q before (m :: docs) <->
  budget_ends limits q before m \/ budget_runs_out limits q (before ++ [m]) docs.
Proof.
  split.
  - intros (l & x & l' & E & He). destruct l as [|y l]; injection E as -> ->; [left; by rewrite app_nil_r in He|].
    right. exists l, x, l'. split; [done|]. by rewrite <- app_assoc.
  - intros [He|(l & x & l' & -> & He)]; [exists [], m, docs; by rewrite app_nil_r|].
    exists (m :: l), x, l'. split; [done|]. by rewrite <- app_assoc in He.
Qed.

(** A budget that the documents [before] have been charged to. *)
Record charged_for (limits : ResourceLimits) (q : QuerySpec) (before : members) (b : queryBudget) : Prop := {
  cf_sort : q_sort (b_query b) = [];
  cf_limits : b_limits b = limits;
  cf_documents : b_documents b = zlen before;
  cf_candidates : b_candidates b = zlen (matches q before);
  cf_steps : scan_cost q before (b_predicateSteps b);
  cf_left : 0 <= steps_left b }.

Lemma charged_fresh limits q : q_sort q = [] -> 0 <= MaxQueryPredicateSteps limits ->
  charged_for limits q [] (mk_budget true q limits 0 0 0 0 0 false []).
Proof. intros Hs H0. split; try done; [apply scan_nothing|unfold steps_left; cbn; lia]. Qed.

(** What one document does to a budget. *)
Definition examine (q : QuerySpec) (d : document) (b : queryBudget) : result (bool * queryBudget) :=
  let* b := charge charge_document b in
  let* (matched, b) := match_document q d b in
  let* b := if matched then charge (charge_candidate d) b else Ok b in
  Ok (matched, b).

Lemma examine_charges limits q before m b :
  expr_ok (q_where q) = true -> charged_for limits q before b ->
  match examine q m.2 b with
  | Ok (matched, b') => matched = Match q m.2 /\ charged_for limits q (before ++ [m]) b' /\ ~ budget_ends limits q before m
  | Err e => e = ErrQueryBudget /\ budget_ends limits q before m
  end.
Proof.
  intros Hok [Hs <- Hd Hc Hn H0]. set (limits := b_limits b). destruct (metered_match q m.2) as [k Hk].
  unfold examine, charge, charge_document. rewrite Hd. fold limits.
  destruct (Z.leb_spec (MaxQueryDocumentsExamined limits) (zlen before)) as [|Hdoc]; cbn [rbind]; [split; [done|by left]|].
  rewrite (match_document_at q m.2 k _ Hok Hk) by exact H0. unfold steps_left in *. cbn [b_limits b_predicateSteps]. fold limits in H0 |- *.
  destruct (Z.leb_spec k (MaxQueryPredicateSteps limits - b_predicateSteps b)) as [Hle|Hgt]; cbn [rbind].
  2: { split; [done|]. right; left. exists (b_predicateSteps b), k. split; [done|]. split; [done|lia]. }
  assert (Hsteps : ~ exists n k, scan_cost q before n /\ costs (matchWithBudget q m.2) k /\ MaxQueryPredicateSteps limits < n + k).
  { intros (n & k' & Hn' & Hk' & Hlt). rewrite <- (scan_cost_unique q before _ _ Hn Hn'), <- (costs_unique _ _ _ Hk Hk') in Hlt. lia. }
  assert (Hcost : scan_cost q (before ++ [m]) (b_predicateSteps b + k)) by by constructor.
  assert (Hone : zlen (before ++ [m]) = zlen before + 1) by (rewrite zlen_app, zlen_cons, zlen_nil; lia).
  unfold budget_ends. destruct (Match q m.2) eqn:Em; cbn [rbind].
  - unfold charge_candidate. cbn [spend b_candidates b_limits b_query]. fold limits. rewrite Hc.
    destruct (Z.leb_spec (MaxQueryCandidates limits) (zlen (matches q before))) as [|Hcand]; cbn [rbind]; [split; [done|]; by do 2 right|].
    change (q_sort (b_query (set_candidates _ _ _))) with (q_sort (b_query b)). rewrite Hs. cbn [zlen length Z.of_nat Z.eqb rbind].
    split; [done|]. split; [|intros [?|[?|[_ ?]]]; [lia|done|lia]].
    split; unfold steps_left; cbn; fold limits; try done; try lia.
    rewrite matches_snoc, Em, zlen_app. change (zlen [_]) with 1. lia.
  - split; [done|]. split; [|intros [?|[?|[? _]]]; [lia|done|done]]. split; unfold steps_left; cbn; fold limits; try done; try lia.
    rewrite matches_snoc, Em, app_nil_r. lia.
Qed.

Lemma select_loop_step q one maxAffected documents id order d b selected : field documents id = Some d ->
  select_loop q one maxAffected documents (id :: order) b selected =
    let* (matched, b) := examine q d b in
    if negb matched then select_loop q one maxAffected documents order b selected
    else if (0 <? maxAffected) && (maxAffected <? zlen (selected ++ [d])) then Err ErrMutationLimit
    else if one then Ok (selected ++ [d])
    else select_loop q one maxAffected documents order b (selected ++ [d]).
Proof.
  intros Hf. cbn [select_loop]. rewrite Hf. unfold examine. destruct (charge charge_document b) as [b1|e]; cbn [rbind]; [|done].
  destruct (match_document q d b1) as [[[] b2]|e]; cbn [rbind negb]; [|done..]. by destruct (charge (charge_candidate d) b2).
Qed.

(** ** Selection *)

(** The match that ends a selection after [n] others. *)
Definition stop_at (one : bool) (maxAffected n : Z) : Z :=
  if one then 1 else if 0 <? maxAffected then maxAffected + 1 - n else - n.

Lemma select_loop_spec limits q one maxAffected documents order before b :
  expr_ok (q_where q) = true -> charged_for limits q before b ->
  (one = true -> matches q before = []) -> (one = false -> 0 < maxAffected -> zlen (matches q before) <= maxAffected) ->
  let docs := documents_of documents order in
  let all := matches q before ++ matches q docs in
  let scanned := examined q (stop_at one maxAffected (zlen (matches q before))) docs in
  match select_loop q one maxAffected documents order b (matches q before).*2 with
  | Ok r => r = (if one then take 1 all else all).*2 /\ (one = false -> 0 < maxAffected -> zlen all <= maxAffected) /\
      ~ budget_runs_out limits q before scanned
  | Err e => e = ErrQueryBudget /\ budget_runs_out limits q before scanned \/
      e = ErrMutationLimit /\ one = false /\ 0 < maxAffected < zlen all
  end.
Proof.
  intros Hok. revert before b; induction order as [|id order IH]; intros before b Hb Hone Hmax.
  { cbn. rewrite app_nil_r. split; [|split; [done|apply runs_out_nil]]. destruct one; [by rewrite Hone|done]. }
  change (documents_of documents (id :: order)) with
    ((match field documents id with Some d => [(id, d)] | None => [] end) ++ documents_of documents order).
  destruct (field documents id) as [d|] eqn:Ed.
  2: { cbn [select_loop app]. rewrite Ed. by apply IH. }
  rewrite (select_loop_step _ _ _ _ _ _ _ _ _ Ed). cbn [app]. cbv zeta. cbn [examined snd].
  match goal with |- context [budget_runs_out limits q before (_ :: ?r)] => pose proof (runs_out_cons limits q before (id, d) r) as Hcons end.
  pose proof (examine_charges limits q before (id, d) b Hok Hb) as He. cbn [snd] in He.
  destruct (examine q d b) as [[matched b']|e]; cbn [rbind]; [|left; split; [apply He|apply Hcons; left; apply He]].
  destruct He as (-> & Hb' & Hends).
  pose proof (matches_snoc q before (id, d)) as Hsnoc. cbn [snd] in Hsnoc. rewrite matches_cons. cbn [snd] in Hcons |- *.
  specialize (IH (before ++ [(id, d)]) b' Hb'). cbv zeta in IH. set (tail := matches q (documents_of documents order)) in *.
  destruct (Match q d) eqn:Em; cbn [negb app].
  2: { rewrite app_nil_r in Hsnoc. rewrite Hsnoc in IH. specialize (IH Hone Hmax).
       destruct (select_loop _ _ _ _ _ _ _) as [r|e]; [|tauto]. destruct IH as (-> & ? & ?). split; [done|]. split; [done|tauto]. }
  assert (Hall : matches q before ++ (id, d) :: tail = matches q (before ++ [(id, d)]) ++ tail) by (by rewrite Hsnoc, <- app_assoc).
  assert (Hsel : (matches q before).*2 ++ [d] = (matches q (before ++ [(id, d)])).*2) by (by rewrite Hsnoc, fmap_app).
  rewrite Hall, Hsel. assert (Hlen : zlen (matches q (before ++ [(id, d)])) = zlen (matches q before) + 1).
  { rewrite Hsnoc, zlen_app, zlen_cons, zlen_nil. lia. }
  assert (Hfst : zlen (matches q (before ++ [(id, d)])).*2 = zlen (matches q (before ++ [(id, d)]))) by (unfold zlen; by rewrite length_fmap).
  rewrite Hfst. pose proof (zlen_nonneg tail) as Htl. pose proof (zlen_nonneg (matches q before)) as Hml.
  destruct one.
  - specialize (Hone eq_refl). rewrite Hone in Hlen. change (zlen []) with 0 in Hlen.
    destruct (Z.ltb_spec 0 maxAffected); destruct (Z.ltb_spec maxAffected (zlen (matches q (before ++ [(id, d)])))); cbn [andb]; try lia.
    all: split; [|split; [done|]]; [rewrite <- Hall, Hone; by rewrite Hsnoc, Hone|].
    all: intros [?|Hr]%Hcons; [done|]; by apply runs_out_nil in Hr.
  - clear Hone. specialize (Hmax eq_refl). cbn [stop_at] in IH, Hcons |- *.
    destruct ((0 <? maxAffected) && (maxAffected <? zlen (matches q (before ++ [(id, d)])))) eqn:Elim.
    + apply andb_true_iff in Elim as [H1%Z.ltb_lt H2%Z.ltb_lt]. right. split; [done|]. split; [done|]. rewrite zlen_app. lia.
    + assert (Hmax' : 0 < maxAffected -> zlen (matches q (before ++ [(id, d)])) <= maxAffected).
      { intros Hp. apply andb_false_iff in Elim as [E|E]; apply Z.ltb_ge in E; lia. }
      specialize (IH ltac:(done) ltac:(done)). set (stop := if 0 <? maxAffected then _ else _) in IH.
      assert (Hstop : (if (if 0 <? maxAffected then maxAffected + 1 - zlen (matches q before) else - zlen (matches q before)) =? 1 then []
        else examined q ((if 0 <? maxAffected then maxAffected + 1 - zlen (matches q before) else - zlen (matches q before)) - 1)
          (documents_of documents order)) = examined q stop (documents_of documents order)).
      { unfold stop. rewrite Hlen in *. destruct (Z.ltb_spec 0 maxAffected) as [Hp|Hp].
        - specialize (Hmax' Hp). destruct (Z.eqb_spec (maxAffected + 1 - zlen (matches q before)) 1) as [|_]; [lia|]. f_equal. lia.
        - destruct (Z.eqb_spec (- zlen (matches q before)) 1) as [|_]; [lia|]. f_equal. lia. }
      rewrite Hstop in Hcons |- *. destruct (select_loop _ _ _ _ _ _ _) as [r|e]; [|tauto]. destruct IH as (-> & ? & ?).
      split; [done|]. split; [done|tauto].
Qed.

(** ** The state of a database *)

Definition members_of (db : DB) (name : bytes) : members :=
  match field (db_collections db) name with Some data => contents data | None => [] end.

Definition indexes_of (db : DB) (name : bytes) : list (bytes * IndexDefinition) :=
  match field (db_collections db) name with Some data => index_names (cd_indexes data) | None => [] end.

(** The history ends at the last token and has no gap. *)
Definition history_ok (db : DB) : Prop :=
  0 < db_historyLimit db /\ zlen (db_history db) <= db_historyLimit db /\ (zlen (db_history db) <= db_token db < 2 ^ 64) /\
  forall i t, db_history db !! i = Some t -> t = db_token db + 1 - zlen (db_history db) + Z.of_nat i.

Record db_ok (db : DB) : Prop := {
  db_collections_ok : Forall (fun c => collection_ok c.2) (db_collections db);
  db_history_ok : history_ok db;
  db_limits_ok : 0 <= MaxQueryPredicateSteps (db_limits db) }.

(** The database after a commit: the documents and the indexes of one
    collection, the next token, and what is handed to the dispatcher. *)
Record effect (db db' : DB) (name : bytes) (docs : members) (indexes : list (bytes * IndexDefinition)) (published : list (list Change)) : Prop := {
  effect_ok : db_ok db';
  effect_members : forall n, members_of db' n = if beqb n name then docs else members_of db n;
  effect_indexes : forall n, indexes_of db' n = if beqb n name then indexes else indexes_of db n;
  effect_token : db_token db' = db_token db + 1;
  effect_published : db_published db' = db_published db ++ ((fun changes => (db_token db', changes)) <$> published);
  effect_limits : db_limits db' = db_limits db /\ db_historyLimit db' = db_historyLimit db;
  effect_open : open_db db' = open_db db }.

Lemma collection_of db name data : db_ok db -> field (db_collections db) name = Some data -> collection_ok data.
Proof. intros Hok Hf%field_Some. pose proof (db_collections_ok _ Hok) as H. rewrite Forall_forall in H. by apply (H _ Hf). Qed.

Lemma members_ok db name : db_ok db -> NoDup (members_of db name).*1 /\
  Forall (fun m => Document_ID m.2 = Some m.1 /\ zlen m.1 = 16 /\ all_zero m.1 = false) (members_of db name).
Proof.
  intros Hok. unfold members_of. destruct (field (db_collections db) name) as [data|] eqn:E; [|by repeat constructor].
  apply (collection_of db) in E; [|done]. split; [by apply contents_NoDup|apply E].
Qed.

Lemma recorded_history db name data changes : history_ok db -> db_token db < 2 ^ 64 - 1 -> changes <> [] ->
  history_ok (committed (set_collection db name data) (next_token db) changes).
Proof.
  intros (Hl & Hlen & [Htok Hmax] & Hat) Hw Hne. unfold next_token, to_u64. pose proof (zlen_nonneg (db_history db)).
  rewrite Z.mod_small by lia. unfold history_ok. cbn [committed db_historyLimit set_collection db_history db_token].
  unfold recordCommittedBatch. cbn [db_historyLimit db_history set_collection].
  destruct (Z.leb_spec (db_historyLimit db) 0); [lia|]. destruct (Z.eqb_spec (zlen changes) 0) as [E|_].
  { destruct changes; [done|]. rewrite zlen_cons in E. pose proof (zlen_nonneg changes). lia. }
  cbn [orb]. cbv zeta. set (history := db_history db ++ [db_token db + 1]).
  assert (Hh : zlen history = zlen (db_history db) + 1) by (unfold history; by rewrite zlen_app).
  set (n := Z.to_nat (zlen history - db_historyLimit db)).
  assert (Hd : zlen (drop n history) = zlen history - Z.of_nat n).
  { unfold zlen in *. rewrite length_drop. lia. }
  split; [done|]. split; [lia|]. split; [lia|]. intros i t Hi. rewrite lookup_drop in Hi.
  apply lookup_snoc_Some in Hi as [[Hi Hin]|[Hi <-]].
  - apply Hat in Hin. lia.
  - unfold zlen in *. lia.
Qed.

Lemma field_ins_collections (f : collectionData -> members) db name data n :
  match field (ins name data (db_collections db)) n with Some data => f data | None => [] end =
  if beqb n name then f data else match field (db_collections db) n with Some data => f data | None => [] end.
Proof. rewrite field_ins. by destruct (beqb n name). Qed.

(** A commit that replaces one collection; [published] says whether the caller
    publishes. *)
Lemma commit_effect db name data changes published :
  db_ok db -> db_token db < 2 ^ 64 - 1 -> changes <> [] -> collection_ok data ->
  let db' := committed (set_collection db name data) (next_token db) changes in
  effect db (if published : bool then publish db' (next_token db) changes else db') name (contents data) (index_names (cd_indexes data))
    (if published then [changes] else []).
Proof.
  intros Hok Hw Hne Hdata db'.
  pose proof (recorded_history db name data changes (db_history_ok _ Hok) Hw Hne) as Hh. fold db' in Hh.
  assert (Hz : (zlen changes =? 0) = false).
  { destruct changes; [done|]. rewrite zlen_cons. pose proof (zlen_nonneg changes). apply Z.eqb_neq. lia. }
  assert (Htok : next_token db = db_token db + 1).
  { unfold next_token, to_u64. destruct (db_history_ok _ Hok) as (_ & _ & Ht & _). pose proof (zlen_nonneg (db_history db)).
    apply Z.mod_small. lia. }
  assert (Hc : Forall (fun c => collection_ok c.2) (ins name data (db_collections db))).
  { apply Forall_forall. intros c [->|Hin]%ins_incl; [done|]. pose proof (db_collections_ok _ Hok) as H. rewrite Forall_forall in H. by apply H. }
  assert (Hok' : db_ok db') by (split; [done|done|apply Hok]).
  destruct published; unfold publish; rewrite ?Hz; split; try done.
  - destruct Hok' as [H1 H2 H3]. by split.
  - intros n. apply (field_ins_collections contents).
  - intros n. unfold indexes_of. cbn. rewrite field_ins. by destruct (beqb n name).
  - intros n. apply (field_ins_collections contents).
  - intros n. unfold indexes_of. cbn. rewrite field_ins. by destruct (beqb n name).
  - by rewrite app_nil_r.
Qed.

(** A database that can be resumed from a token has every later token in its
    history. *)
Lemma resume_exact db token : history_ok db -> 0 <= token ->
  CanResumeFrom db token = true <->
  db_closed db = false /\ token <= db_token db /\ forall t, token < t <= db_token db -> t ∈ db_history db.
Proof.
  intros (Hl & Hlen & [Htok Hmax] & Hat) H0. unfold CanResumeFrom. pose proof (zlen_nonneg (db_history db)) as Hn.
  destruct (db_closed db); cbn [orb]; [split; [done|by intros (? & _)]|].
  destruct (Z.ltb_spec (db_token db) token); [split; [done|lia]|].
  destruct (Z.eqb_spec token (db_token db)) as [->|Hne]; [split; [intros _; split; [done|]; split; [lia|intros; lia]|done]|].
  destruct (db_history db) as [|first history] eqn:E.
  { split; [done|]. intros (_ & _ & Hin). specialize (Hin (db_token db) ltac:(lia)). by apply not_elem_of_nil in Hin. }
  destruct (Z.eqb_spec token (2 ^ 64 - 1)); [lia|]. rewrite <- E in *.
  assert (Hfirst : first = db_token db + 1 - zlen (db_history db)) by (rewrite (Hat 0%nat first) by (by rewrite E); lia).
  rewrite Z.leb_le. split.
  - intros Hle. split; [done|]. split; [lia|]. intros t Ht.
    destruct (lookup_lt_is_Some_2 (db_history db) (Z.to_nat (t - first))) as [t' Hi]; [unfold zlen in *; lia|].
    pose proof (Hat _ _ Hi). replace t with t' by lia. by eapply list_elem_of_lookup_2.
  - intros (_ & _ & Hin). specialize (Hin (token + 1) ltac:(lia)). apply list_elem_of_lookup in Hin as (i & Hi). apply Hat in Hi. lia.
Qed.

(** ** Deletion *)

Definition delete_change (name : bytes) (m : bytes * document) : Change :=
  mk_change name DeleteOperation m.1 (Some m.2) None None [].

Lemma matches_in q docs m : m ∈ matches q docs -> m ∈ docs.
Proof. unfold matches. rewrite list_elem_of_In, filter_In, <- list_elem_of_In. by intros [? _]. Qed.

Lemma selection_in q one docs m : m ∈ selection q one docs -> m ∈ docs.
Proof.
  unfold selection. destruct one; [|by apply matches_in]. intros Hm. apply (matches_in q). by eapply subseteq_take.
Qed.

Lemma NoDup_matches q docs : NoDup docs.*1 -> NoDup (matches q docs).*1.
Proof.
  induction docs as [|m docs IH]; [done|]. cbn [fmap list_fmap]. intros [Hn Hd]%NoDup_cons. unfold matches. cbn [List.filter].
  fold (matches q docs). destruct (Match q m.2); [|by apply IH]. cbn [fmap list_fmap]. apply NoDup_cons. split; [|by apply IH].
  intros (x & E & Hx)%list_elem_of_fmap. apply Hn. rewrite E. apply list_elem_of_fmap_2. by apply (matches_in q).
Qed.

Lemma NoDup_selection q one docs : NoDup docs.*1 -> NoDup (selection q one docs).*1.
Proof.
  intros H. unfold selection. destruct one; [|by apply NoDup_matches]. rewrite fmap_take.
  eapply sublist_NoDup; [by apply NoDup_matches|apply sublist_take].
Qed.

(** The documents one transaction may select. *)
Definition selection_bound (limits : ResourceLimits) : Z := Z.min (2 ^ 63 - 2) (MaxTransactionChanges limits).

(** The budget of the query does not last for the documents the selection
    examines: all of them, or those up to the match that settles it. *)
Definition out_of_budget (db : DB) (name : bytes) (q : QuerySpec) (one : bool) (maxAffected : Z) : Prop :=
  MaxQuerySkip (db_limits db) < to_u64 (q_skip q) \/
  budget_runs_out (db_limits db) q []
    (examined q (stop_at one (boundedMutationSelection (db_limits db) maxAffected one).1 0) (members_of db name)).

(** Why a selection is refused: for the budget, for more matches than the caller
    allows, or for more than one transaction may change. *)
Inductive selection_refused (db : DB) (name : bytes) (q : QuerySpec) (one : bool) (maxAffected : Z) : gerror -> Prop :=
| selection_budget : out_of_budget db name q one maxAffected -> selection_refused db name q one maxAffected ErrQueryBudget
| selection_affected : one = false -> 0 < maxAffected <= selection_bound (db_limits db) ->
    maxAffected < zlen (selection q one (members_of db name)) -> selection_refused db name q one maxAffected ErrMutationLimit
| selection_count : one = false -> ~ 0 < maxAffected <= selection_bound (db_limits db) ->
    0 < selection_bound (db_limits db) < zlen (selection q one (members_of db name)) ->
    selection_refused db name q one maxAffected ErrResourceLimit.

Lemma boundedMutationSelection_spec limits maxAffected :
  boundedMutationSelection limits maxAffected false =
    if decide (0 < maxAffected <= selection_bound limits) then (maxAffected, false) else (selection_bound limits, true).
Proof.
  unfold boundedMutationSelection, selection_bound. cbv zeta.
  assert (Hb : (if 2 ^ 63 - 2 <? MaxTransactionChanges limits then 2 ^ 63 - 2 else MaxTransactionChanges limits) =
    Z.min (2 ^ 63 - 2) (MaxTransactionChanges limits)) by (destruct (Z.ltb_spec (2 ^ 63 - 2) (MaxTransactionChanges limits)); lia).
  rewrite Hb. destruct (decide _) as [[H1 H2]|Hn].
  - apply Z.ltb_lt in H1. apply Z.leb_le in H2. by rewrite H1, H2.
  - destruct ((0 <? maxAffected) && _) eqn:E; [|done]. apply andb_true_iff in E as [E1%Z.ltb_lt E2%Z.leb_le]. by destruct Hn.
Qed.

Lemma bounded_selection_spec db name q one maxAffected :
  db_ok db -> expr_ok (q_where q) = true -> q_sort q = [] ->
  match bounded_selection db name q one maxAffected with
  | Ok r => r = (selection q one (members_of db name)).*2 /\
      (field (db_collections db) name <> None -> forall e, ~ selection_refused db name q one maxAffected e)
  | Err e => selection_refused db name q one maxAffected e
  end.
Proof.
  intros Hok Hq Hs. unfold bounded_selection, selectMutationDocumentsLocked.
  destruct (boundedMutationSelection (db_limits db) maxAffected one) as [limit resourceBounded] eqn:Eb.
  assert (Hlimit : (boundedMutationSelection (db_limits db) maxAffected one).1 = limit) by (by rewrite Eb).
  destruct (field (db_collections db) name) as [data|] eqn:Ed.
  2: { unfold selection, members_of. rewrite Ed. by destruct one. }
  assert (Hmem : members_of db name = documents_of (cd_documents data) (cd_order data)) by (unfold members_of; by rewrite Ed).
  unfold start_budget, newQueryBudget.
  destruct (Z.ltb_spec (MaxQuerySkip (db_limits db)) (to_u64 (q_skip q))) as [Hskip|Hskip]; cbn [rbind]; [by constructor; left|].
  pose proof (select_loop_spec (db_limits db) q one limit (cd_documents data) (cd_order data) []
    (mk_budget true q (db_limits db) 0 0 0 0 0 false []) Hq) as H.
  cbv zeta in H. change (matches q []) with (@nil (bytes * document)) in H. cbn [app fmap list_fmap] in H. change (zlen []) with 0 in H.
  assert (Hsel : selection q one (members_of db name) =
    if one then take 1 (matches q (documents_of (cd_documents data) (cd_order data))) else matches q (documents_of (cd_documents data) (cd_order data))).
  { unfold selection. by rewrite Hmem. }
  rewrite <- Hsel in H.
  assert (Hrun : out_of_budget db name q one maxAffected <->
    budget_runs_out (db_limits db) q [] (examined q (stop_at one limit 0) (documents_of (cd_documents data) (cd_order data)))).
  { unfold out_of_budget. rewrite Hlimit, Hmem. split; [intros [?|?]; [lia|done]|by right]. }
  destruct (select_loop _ _ _ _ _ _ _) as [r|e].
  - destruct H as (-> & Hmax & Hb); [apply charged_fresh; [done|apply (db_limits_ok _ Hok)]|done|intros; lia|]. split; [done|].
    intros _ e [Hout|Hone Ha Hl|Hone Ha Hl]; [by apply Hb, Hrun|subst one..].
    all: rewrite boundedMutationSelection_spec in Hlimit; cbn in Hsel; rewrite <- Hsel in Hmax; specialize (Hmax eq_refl).
    + destruct (decide _); [|done]. cbn in Hlimit, Hl. lia.
    + destruct (decide _); [done|]. cbn in Hlimit, Hl. lia.
  - destruct H as [[-> Hb]|(-> & -> & Hl)]; [apply charged_fresh; [done|apply (db_limits_ok _ Hok)]|done|intros; lia| |].
    + constructor. by apply Hrun.
    + cbn in Hsel. rewrite <- Hsel in Hl. rewrite boundedMutationSelection_spec in Eb.
      destruct (decide _) as [Ha|Ha]; injection Eb as <- <-; [apply selection_affected|apply selection_count]; done || (cbn; lia).
Qed.

Lemma delete_changes_spec name sel :
  Forall (fun m => Document_ID m.2 = Some m.1 /\ zlen m.1 = 16 /\ all_zero m.1 = false) sel ->
  delete_changes name sel.*2 = Ok (delete_change name <$> sel).
Proof.
  induction 1 as [|[id d] sel (Hid & _ & Hz) Hsel IH]; [done|]. cbn [snd fst] in *.
  rewrite !fmap_cons. cbn [delete_changes snd]. rewrite Hid, Hz. by rewrite IH.
Qed.

Lemma deletes_selection name docs sel :
  NoDup sel.*1 -> (forall m, m ∈ sel -> m ∈ docs) -> deletes (delete_change name <$> sel) docs.
Proof.
  intros Hnd Hin. split; [by rewrite <- list_fmap_compose|]. rewrite Forall_fmap. apply Forall_forall. intros m Hm. exists m.2.
  split; [done|]. apply Hin. by destruct m.
Qed.

Lemma deleteQuery_spec db name q one maxAffected :
  db_ok db -> db_token db < 2 ^ 64 - 1 -> open_db db = Ok tt -> validCollectionName name = true ->
  expr_ok (q_where q) = true -> HasModifiers q = false ->
  let sel := selection q one (members_of db name) in
  let changes := delete_change name <$> sel in
  match deleteQuery db name q one maxAffected with
  | Ok (db', n) =>
      n = zlen sel /\
      if is_nil sel then db' = db
      else validateTransactionResource (db_limits db) changes = Ok tt /\
        effect db db' name (without sel.*1 (members_of db name)) (indexes_of db name) [changes]
  | Err e => selection_refused db name q one maxAffected e \/ validateTransactionResource (db_limits db) changes = Err e
  end.
Proof.
  intros Hok Hw Hopen Hname Hq Hmod sel changes. unfold deleteQuery. rewrite Hname, Hmod. cbn [negb].
  assert (Hs : q_sort q = []).
  { unfold HasModifiers in Hmod. apply orb_false_iff in Hmod as [[Hmod _]%orb_false_iff _]. destruct (q_sort q) as [|f l]; [done|].
    rewrite zlen_cons in Hmod. pose proof (zlen_nonneg l). apply Z.ltb_ge in Hmod. lia. }
  unfold deleteQueryLocked. rewrite Hopen. cbn [rbind].
  pose proof (bounded_selection_spec db name q one maxAffected Hok Hq Hs) as Hsel. fold sel in Hsel.
  destruct (bounded_selection _ _ _ _ _) as [r|e]; cbn [rbind]; [destruct Hsel as [-> _]|by left].
  destruct (members_ok db name Hok) as [Hnd Hids].
  assert (Hin : forall m, m ∈ sel -> m ∈ members_of db name) by (intros m; apply selection_in).
  assert (Hdel : delete_changes name sel.*2 = Ok changes).
  { apply delete_changes_spec. rewrite Forall_forall in Hids |- *. auto. }
  destruct (field (db_collections db) name) as [data|] eqn:Ed.
  2: { assert (Hnil : sel = []) by (unfold sel, selection, members_of; rewrite Ed; by destruct one).
       by rewrite Hnil. }
  assert (Hmem : members_of db name = contents data) by (unfold members_of; by rewrite Ed).
  rewrite Hdel. cbn [rbind]. destruct (validateTransactionResource (db_limits db) changes) as [[]|e] eqn:Ev; cbn [rbind]; [|auto].
  assert (Hlen : zlen changes = zlen sel) by (unfold changes, zlen; by rewrite length_fmap).
  assert (Hids' : ch_DocumentID <$> changes = sel.*1) by (unfold changes; by rewrite <- list_fmap_compose).
  assert (Hdels : deletes changes (contents data)) by (rewrite <- Hmem; apply deletes_selection; [by apply NoDup_selection|done]).
  assert (Hne : is_nil sel = false -> changes <> []) by (unfold changes; by destruct sel).
  assert (Hnil : is_nil sel = true -> changes = []) by (unfold changes; by destruct sel). clearbody changes.
  destruct (deleted_collection changes data (collection_of db name data Hok Ed) Hdels) as (data' & Hr & Hdata' & Hc & Hn).
  destruct (is_nil sel) eqn:En; [rewrite Hnil by done; by destruct sel|].
  destruct changes as [|c rest] eqn:Ech; [by destruct Hne|]. rewrite <- Ech in *. rewrite Hr. cbn [rbind].
  split; [done|]. split; [done|]. rewrite Hids' in *.
  assert (Hidx : indexes_of db name = index_names (cd_indexes data)) by (unfold indexes_of; by rewrite Ed).
  rewrite Hmem, Hidx, <- Hc, <- Hn. apply (commit_effect db name _ changes true); [done|done|congruence|done].
Qed.

(** ** Insertion *)

(** A document as it is stored: with the id it came with or a fresh one. *)
Definition prepared (d : document) (m : bytes * document) : Prop :=
  Validate d = true /\ m.2 = match Document_ID d with Some _ => d | None => doc_set d (bs "_id") (VID m.1) end /\
  Document_ID m.2 = Some m.1 /\ zlen m.1 = 16 /\ all_zero m.1 = false.

(** What makes a document unfit for insertion. *)
Definition unfit (d : document) : Prop :=
  Validate d = false \/ (field d (bs "_id") <> None /\ forall id, Document_ID d = Some id -> all_zero id = true).

Lemma Document_ID_set d id : Document_ID (doc_set d (bs "_id") (VID id)) = Some id.
Proof. unfold Document_ID. rewrite field_doc_set. by rewrite beqb_refl. Qed.

Lemma Document_ID_width d id : machine_ok (VObject false d) -> Document_ID d = Some id -> zlen id = 16.
Proof.
  intros [_ Hm]%machine_ok_object. unfold Document_ID. destruct (field d (bs "_id")) as [v|] eqn:E; [|done].
  apply field_Some in E. rewrite Forall_forall in Hm. specialize (Hm _ E). cbn in Hm. destruct v; [done..|]. by intros [= <-].
Qed.

Lemma prepareInserts_step d documents id m fresh seen rest :
  prepared d (id, m) -> (id ∉ seen) ->
  match rest with
  | Ok batch => Forall2 prepared documents batch /\ NoDup batch.*1 /\ Forall (fun i => i ∉ id :: seen) batch.*1
  | Err e => (e = ErrInvalidDocument /\ (Exists unfit documents \/ Exists (fun id => all_zero id = true) fresh)) \/
      e = ErrDuplicateID \/ (e = ErrIO /\ zlen fresh < zlen documents)
  end ->
  match (let* rest := rest in Ok ((id, m) :: rest)) with
  | Ok batch => Forall2 prepared (d :: documents) batch /\ NoDup batch.*1 /\ Forall (fun i => i ∉ seen) batch.*1
  | Err e => (e = ErrInvalidDocument /\ (Exists unfit (d :: documents) \/ Exists (fun id => all_zero id = true) fresh)) \/
      e = ErrDuplicateID \/ (e = ErrIO /\ zlen fresh < zlen documents)
  end.
Proof.
  intros Hp Hs. destruct rest as [batch|e]; cbn [rbind].
  - intros (H2 & Hnd & Hb). rewrite fmap_cons. split; [by constructor|]. split.
    + apply NoDup_cons. split; [|done]. rewrite Forall_forall in Hb. intros Hin. by destruct (Hb _ Hin ltac:(left)).
    + constructor; [done|]. eapply Forall_impl; [exact Hb|]. intros i Hi Hin. apply Hi. by right.
  - intros [[-> [H|H]]|H]; [left; split; [done|left; by right]|left; split; [done|by right]|by right].
Qed.

Lemma prepareInserts_spec documents fresh seen :
  Forall (fun d => machine_ok (VObject false d)) documents -> Forall (fun id => zlen id = 16) fresh ->
  match prepareInserts documents fresh seen with
  | Ok batch => Forall2 prepared documents batch /\ NoDup batch.*1 /\ Forall (fun i => i ∉ seen) batch.*1
  | Err e => (e = ErrInvalidDocument /\ (Exists unfit documents \/ Exists (fun id => all_zero id = true) fresh)) \/
      e = ErrDuplicateID \/ (e = ErrIO /\ zlen fresh < zlen documents)
  end.
Proof.
  intros Hd. revert fresh seen; induction Hd as [|d documents Hd Hds IH]; intros fresh seen Hf; cbn [prepareInserts].
  { split; [constructor|]. split; constructor. }
  destruct (Validate d) eqn:Hv; cbn [negb].
  2: { left. split; [done|]. left. left. by left. }
  assert (Hseen : forall id, existsb (beqb id) seen = false -> (id ∉ seen)).
  { intros id E Hin. assert (existsb (beqb id) seen = true); [|congruence]. apply existsb_exists. exists id.
    split; [by apply list_elem_of_In|apply beqb_refl]. }
  destruct (Document_ID d) as [id|] eqn:Hid.
  - destruct (all_zero id) eqn:Hz.
    { destruct (field d (bs "_id")) eqn:Ef; (left; split; [done|]; left; left; right; split; [by rewrite Ef|intros i; congruence]) ||
        (unfold Document_ID in Hid; by rewrite Ef in Hid). }
    destruct (existsb (beqb id) seen) eqn:Es; [destruct (field d (bs "_id")); by right; left|].
    assert (Hp : prepared d (id, d)).
    { split; [done|]. cbn [fst snd]. rewrite Hid. split; [done|]. split; [done|]. split; [by apply (Document_ID_width d)|done]. }
    pose proof (prepareInserts_step d documents id d fresh seen _ Hp (Hseen _ Es) (IH fresh (id :: seen) Hf)) as H.
    destruct (field d (bs "_id")); (destruct (let* rest := _ in _) as [batch|e]; [done|]; rewrite zlen_cons;
      destruct H as [H|[H|[-> H]]]; [by left|by right; left|right; right; split; [done|lia]]).
  - destruct (field d (bs "_id")) eqn:Ef.
    { left. split; [done|]. left. left. right. split; [by rewrite Ef|intros i; congruence]. }
    destruct fresh as [|id fresh].
    { right. right. split; [done|]. rewrite zlen_nil, zlen_cons. pose proof (zlen_nonneg documents). lia. }
    apply Forall_cons in Hf as [Hw Hf]. destruct (all_zero id) eqn:Hz.
    { left. split; [done|]. right. by left. }
    destruct (existsb (beqb id) seen) eqn:Es; [by right; left|].
    assert (Hp : prepared d (id, doc_set d (bs "_id") (VID id))).
    { split; [done|]. cbn [fst snd]. rewrite Hid, Document_ID_set. done. }
    pose proof (prepareInserts_step d documents id _ fresh seen _ Hp (Hseen _ Es) (IH fresh (id :: seen) Hf)) as H.
    destruct (let* rest := _ in _) as [batch|e]; [done|]. rewrite !zlen_cons.
    destruct H as [[-> [H|H]]|[H|[-> H]]]; [left; split; [done|by left]|left; split; [done|right; by right]|by right; left|right; right; split; [done|lia]].
Qed.

(** Every index of a collection can hold these documents. *)
Definition admits (db : DB) (name : bytes) (docs : members) : Prop := Forall (fun nd => admitted nd.2 docs) (indexes_of db name).

Lemma admits_data db name data docs : field (db_collections db) name = Some data -> admits db name docs <-> all_admitted docs (cd_indexes data).
Proof. intros E. unfold admits, indexes_of, all_admitted, index_names. rewrite E. apply Forall_fmap. Qed.

Lemma prepared_members documents batch : Forall2 prepared documents batch ->
  Forall (fun m => Document_ID m.2 = Some m.1 /\ zlen m.1 = 16 /\ all_zero m.1 = false) batch.
Proof. induction 1 as [|d m ds ms (_ & _ & H) Hp IH]; by constructor. Qed.

Lemma stored_twice data (batch : members) : collection_ok data -> existsb (has_document data) batch.*1 = true <-> exists id, id ∈ batch.*1 /\ id ∈ (contents data).*1.
Proof.
  intros Hok. rewrite existsb_exists. rewrite contents_ids by done. unfold has_document.
  split; intros (id & Hin & H); exists id; (split; [by apply list_elem_of_In|]).
  - apply (ok_documents _ Hok). by destruct (field _ id).
  - apply (ok_documents _ Hok) in H. by destruct (field _ id).
Qed.

Lemma commitInsertManyLocked_spec db name batch documents :
  db_ok db -> db_token db < 2 ^ 64 - 1 -> open_db db = Ok tt -> batch <> [] ->
  Forall2 prepared documents batch -> NoDup batch.*1 ->
  match commitInsertManyLocked db name batch with
  | Ok db' => effect db db' name (members_of db name ++ batch) (indexes_of db name) [insert_change name <$> batch]
  | Err e => (e = ErrDuplicateID /\ exists id, id ∈ batch.*1 /\ id ∈ (members_of db name).*1) \/
      ((e = ErrInvalidIndex \/ e = ErrDuplicateKey) /\ ~ admits db name (members_of db name ++ batch))
  end.
Proof.
  intros Hok Hw Hopen Hne Hp Hnd. unfold commitInsertManyLocked.
  destruct (Z.eqb_spec (zlen batch) 0) as [E|_].
  { destruct batch; [done|]. rewrite zlen_cons in E. pose proof (zlen_nonneg batch). lia. }
  rewrite Hopen. cbn [rbind]. pose proof (prepared_members _ _ Hp) as Hids.
  assert (Hchanges : insert_change name <$> batch <> []) by (by destruct batch).
  destruct (field (db_collections db) name) as [data|] eqn:Ed.
  - pose proof (collection_of db name data Hok Ed) as Hdata.
    assert (Hmem : members_of db name = contents data) by (unfold members_of; by rewrite Ed).
    assert (Hidx : indexes_of db name = index_names (cd_indexes data)) by (unfold indexes_of; by rewrite Ed).
    rewrite Hmem, Hidx. destruct (existsb (has_document data) batch.*1) eqn:Edup; cbn [rbind].
    { left. split; [done|]. by apply stored_twice. }
    assert (Hnew : Forall (fun m => m.1 ∉ cd_order data) batch).
    { apply Forall_forall. intros m Hm Hin. assert (existsb (has_document data) batch.*1 = true); [|congruence].
      apply stored_twice; [done|]. exists m.1. rewrite contents_ids by done. split; [by apply list_elem_of_fmap_2|done]. }
    pose proof (validateIndexBatchInsert_verdict (contents data) data batch (ok_trees _ Hdata) (ok_admitted _ Hdata)) as Hv.
    rewrite contents_ids in Hv by done. specialize (Hv Hnew).
    destruct (validateIndexBatchInsert data batch) as [[]|e]; cbn [rbind]; [|right; by rewrite (admits_data _ _ _ _ Ed)].
    destruct (insert_documents_spec batch data Hdata Hnd Hnew Hids Hv) as (data' & Hr & Hdata' & Hc & Hn).
    rewrite Hr. cbn [rbind]. rewrite <- Hc, <- Hn. by apply (commit_effect db name _ _ true).
  - cbn [rbind]. assert (Hmem : members_of db name = []) by (unfold members_of; by rewrite Ed).
    assert (Hidx : indexes_of db name = []) by (unfold indexes_of; by rewrite Ed).
    destruct (insert_documents_spec batch newCollectionData new_collection_ok Hnd) as (data' & Hr & Hdata' & Hc & Hn); [|done|constructor|].
    { apply Forall_forall. intros m _. apply not_elem_of_nil. }
    rewrite Hr, Hmem, Hidx. cbn [rbind]. change (index_names (cd_indexes newCollectionData)) with (@nil (bytes * IndexDefinition)) in Hn.
    change (contents newCollectionData) with (@nil (bytes * document)) in Hc.
    rewrite <- Hc, <- Hn. by apply (commit_effect db name _ _ true).
Qed.

Lemma InsertMany_spec db name documents fresh :
  db_ok db -> db_token db < 2 ^ 64 - 1 -> open_db db = Ok tt -> validCollectionName name = true -> documents <> [] ->
  zlen documents <= MaxTransactionChanges (db_limits db) ->
  Forall (fun d => machine_ok (VObject false d)) documents -> Forall (fun id => zlen id = 16) fresh ->
  match InsertMany db name documents fresh with
  | Ok (db', ids) => exists batch, ids = batch.*1 /\ Forall2 prepared documents batch /\
      effect db db' name (members_of db name ++ batch) (indexes_of db name) [insert_change name <$> batch]
  | Err e => (e = ErrInvalidDocument /\ (Exists unfit documents \/ Exists (fun id => all_zero id = true) fresh)) \/
      (e = ErrIO /\ zlen fresh < zlen documents) \/
      match prepareInserts documents fresh [] with
      | Err e' => e = e' /\ e = ErrDuplicateID
      | Ok batch => validateTransactionResource (db_limits db) (insert_change name <$> batch) = Err e \/
          (e = ErrDuplicateID /\ exists id, id ∈ batch.*1 /\ id ∈ (members_of db name).*1) \/
          ((e = ErrInvalidIndex \/ e = ErrDuplicateKey) /\ ~ admits db name (members_of db name ++ batch))
      end
  end.
Proof.
  intros Hok Hw Hopen Hname Hne Hmax Hm Hf. unfold InsertMany. rewrite Hname. cbn [negb].
  destruct (Z.eqb_spec (zlen documents) 0) as [E|_].
  { destruct documents; [done|]. rewrite zlen_cons in E. pose proof (zlen_nonneg documents). lia. }
  destruct (Z.ltb_spec (MaxTransactionChanges (db_limits db)) (zlen documents)); [lia|].
  pose proof (prepareInserts_spec documents fresh [] Hm Hf) as Hp.
  destruct (prepareInserts documents fresh []) as [batch|e]; cbn [rbind]; [|tauto]. destruct Hp as (Hp & Hnd & _).
  destruct (validateTransactionResource _ _) as [[]|e]; cbn [rbind]; [|auto].
  pose proof (commitInsertManyLocked_spec db name batch documents Hok Hw Hopen) as Hc.
  destruct (commitInsertManyLocked db name batch) as [db'|e]; cbn [rbind].
  - exists batch. split; [done|]. split; [done|]. apply Hc; [|done..]. intros ->. by apply Forall2_nil_inv_r in Hp.
  - right. right. right. apply Hc; [|done..]. intros ->. by apply Forall2_nil_inv_r in Hp.
Qed.

(** ** Updates *)

Definition pending (mutation : MutationSpec) (m : bytes * document) : list pendingUpdate :=
  match Apply mutation false m.2 with
  | Ok after => if negb (Document_Equal after m.2) then [mk_pending m.1 m.2 after] else []
  | Err _ => []
  end.

(** The documents once those selected are updated; one that an update leaves
    equal is not touched. *)
Definition updated (mutation : MutationSpec) (sel docs : members) : members :=
  (fun m => if existsb (beqb m.1) sel.*1
            then match Apply mutation false m.2 with
                 | Ok after => if negb (Document_Equal after m.2) then (m.1, after) else m
                 | Err _ => m
                 end
            else m) <$> docs.

Lemma prepareDocumentUpdates_spec sel mutation :
  Forall (fun m => Document_ID m.2 = Some m.1 /\ zlen m.1 = 16 /\ all_zero m.1 = false) sel ->
  match prepareDocumentUpdates sel.*2 mutation with
  | Ok (changes, modified) => changes = flat_map (pending mutation) sel /\ modified = zlen changes /\
      Forall (fun m => exists after, Apply mutation false m.2 = Ok after) sel
  | Err e => Exists (fun m => Apply mutation false m.2 = Err e) sel
  end.
Proof.
  induction 1 as [|[id d] sel (Hid & _) Hsel IH]; [done|]. cbn [fst snd] in *. rewrite fmap_cons. cbn [prepareDocumentUpdates snd].
  rewrite Hid. cbn [flat_map]. unfold pending at 1. cbn [fst snd].
  destruct (Apply mutation false d) as [after|e] eqn:Ea; cbn [rbind]; [|by left].
  destruct (prepareDocumentUpdates sel.*2 mutation) as [[changes modified]|e]; cbn [rbind]; [|by right].
  destruct IH as (-> & -> & Hall). destruct (negb _); cbn [app]; (split; [done|]; split; [rewrite ?zlen_cons; lia|constructor; [by exists after|done]]).
Qed.

Lemma elem_of_pending mutation sel c : c ∈ flat_map (pending mutation) sel <->
  exists m after, m ∈ sel /\ Apply mutation false m.2 = Ok after /\ Document_Equal after m.2 = false /\ c = mk_pending m.1 m.2 after.
Proof.
  rewrite list_elem_of_In, in_flat_map. unfold pending. split.
  - intros (m & Hm & Hc). apply list_elem_of_In in Hm. destruct (Apply mutation false m.2) as [after|] eqn:Ea; [|done].
    destruct (Document_Equal after m.2) eqn:Ed; cbn [negb] in Hc; [done|]. destruct Hc as [<-|[]]. by exists m, after.
  - intros (m & after & Hm & Ha & Hd & ->). exists m. split; [by apply list_elem_of_In|]. rewrite Ha, Hd. by left.
Qed.

Lemma NoDup_pending mutation sel : NoDup sel.*1 -> NoDup (pu_id <$> flat_map (pending mutation) sel).
Proof.
  induction sel as [|m sel IH]; [constructor|]. cbn [fmap list_fmap]. intros [Hn Hnd]%NoDup_cons. cbn [flat_map]. rewrite fmap_app.
  apply NoDup_app. split; [|split; [|by apply IH]].
  - unfold pending. destruct (Apply _ _); [|constructor]. destruct (negb _); [apply NoDup_singleton|constructor].
  - intros i (c & -> & Hc)%list_elem_of_fmap (c' & E & Hc')%list_elem_of_fmap. apply Hn.
    assert (Hci : pu_id c = m.1).
    { unfold pending in Hc. destruct (Apply _ _); [|by apply not_elem_of_nil in Hc]. destruct (negb _); [|by apply not_elem_of_nil in Hc].
      apply list_elem_of_singleton in Hc as ->. done. }
    apply elem_of_pending in Hc' as (m' & after & Hm' & _ & _ & ->). cbn in E. rewrite <- Hci, E. by apply list_elem_of_fmap_2.
Qed.

Lemma same_member (docs : members) m m' : NoDup docs.*1 -> m ∈ docs -> m' ∈ docs -> m.1 = m'.1 -> m = m'.
Proof.
  intros Hnd Hm Hm' E. destruct m as [id d], m' as [id' d']. cbn in E. subst id'.
  pose proof (field_NoDup docs id d Hnd Hm). pose proof (field_NoDup docs id d' Hnd Hm'). congruence.
Qed.

Lemma replace_updated mutation sel docs :
  NoDup docs.*1 -> NoDup sel.*1 -> (forall m, m ∈ sel -> m ∈ docs) ->
  replace_members (flat_map (pending mutation) sel) docs = updated mutation sel docs.
Proof.
  intros Hd Hs Hin. unfold replace_members, updated. set (changes := flat_map (pending mutation) sel).
  assert (Hnd : NoDup (after_members changes).*1) by (rewrite after_ids; by apply NoDup_pending).
  assert (Hnone : forall m, (forall after, m ∈ sel -> Apply mutation false m.2 = Ok after -> Document_Equal after m.2 = true) ->
    m ∈ docs -> field (after_members changes) m.1 = None).
  { intros m Hm Hmd. apply field_None. rewrite after_ids. intros (c & E & Hc)%list_elem_of_fmap.
    apply elem_of_pending in Hc as (m' & after & Hm' & Ha & He & ->). cbn in E.
    assert (m = m') as -> by (apply (same_member docs); auto). rewrite (Hm after) in He; done. }
  apply list_fmap_ext. intros i m Hm%list_elem_of_lookup_2. destruct (existsb (beqb m.1) sel.*1) eqn:E.
  - assert (Hsel : m ∈ sel).
    { apply existsb_exists in E as (x & Hx & E). apply beqb_eq in E as <-. apply list_elem_of_In in Hx.
      apply list_elem_of_fmap in Hx as (m' & Ex & Hm'). by rewrite (same_member docs m m' Hd Hm (Hin _ Hm') Ex). }
    destruct (Apply mutation false m.2) as [after|] eqn:Ea; [|rewrite Hnone; [done| |done]; congruence].
    destruct (Document_Equal after m.2) eqn:Ed; cbn [negb]; [rewrite Hnone; [done| |done]; congruence|].
    rewrite (field_NoDup (after_members changes) m.1 after); [done|done|].
    apply list_elem_of_fmap. exists (mk_pending m.1 m.2 after). split; [done|]. apply elem_of_pending. by exists m, after.
  - rewrite Hnone; [done| |done]. intros after Hsel. assert (existsb (beqb m.1) sel.*1 = true); [|congruence].
    apply existsb_exists. exists m.1. split; [apply list_elem_of_In; by apply list_elem_of_fmap_2|apply beqb_refl].
Qed.

Lemma updated_ids mutation update (sel : members) :
  CompileUpdate update = Ok mutation ->
  Forall (fun m => Document_ID m.2 = Some m.1 /\ zlen m.1 = 16 /\ all_zero m.1 = false) sel ->
  Forall (fun c => Document_ID (pu_after c) = Some (pu_id c)) (flat_map (pending mutation) sel).
Proof.
  intros Hc Hs. apply Forall_forall. intros c (m & after & Hm & Ha & _ & ->)%elem_of_pending. cbn.
  destruct (update_applies update mutation false m.2 Hc) as (_ & H). rewrite Ha in H. destruct H as (_ & _ & ->).
  rewrite Forall_forall in Hs. by apply Hs.
Qed.

Lemma pending_updates_of mutation sel docs :
  NoDup docs.*1 -> NoDup sel.*1 -> (forall m, m ∈ sel -> m ∈ docs) -> Forall (fun id => zlen id = 16) docs.*1 ->
  updates_of docs (flat_map (pending mutation) sel).
Proof.
  intros Hd Hs Hin Hw. split; [done|by apply NoDup_pending| |done].
  apply Forall_forall. intros c (m & after & Hm & _ & _ & ->)%elem_of_pending. cbn. apply Hin. by destruct m.
Qed.

Lemma updateQueryLocked_spec db name q update mutation one maxAffected :
  db_ok db -> db_token db < 2 ^ 64 - 1 -> open_db db = Ok tt -> expr_ok (q_where q) = true -> q_sort q = [] ->
  CompileUpdate update = Ok mutation -> field (db_collections db) name <> None ->
  let sel := selection q one (members_of db name) in
  let changes := flat_map (pending mutation) sel in
  let events := update_change name (Paths mutation) <$> changes in
  match updateQueryLocked db name q mutation one maxAffected with
  | Ok (db', (matched, modified)) =>
      matched = zlen sel /\ modified = zlen changes /\ Forall (fun m => exists after, Apply mutation false m.2 = Ok after) sel /\
      (forall e, ~ selection_refused db name q one maxAffected e) /\ validateTransactionResource (db_limits db) events = Ok tt /\
      admits db name (updated mutation sel (members_of db name)) /\
      if is_nil changes then db' = db
      else effect db db' name (updated mutation sel (members_of db name)) (indexes_of db name) [events]
  | Err e => selection_refused db name q one maxAffected e \/
      Exists (fun m => Apply mutation false m.2 = Err e) sel \/ validateTransactionResource (db_limits db) events = Err e \/
      ((e = ErrInvalidIndex \/ e = ErrDuplicateKey) /\ ~ admits db name (updated mutation sel (members_of db name)))
  end.
Proof.
  intros Hok Hw Hopen Hq Hs Hcu Hex sel changes events. unfold updateQueryLocked. rewrite Hopen. cbn [rbind].
  pose proof (bounded_selection_spec db name q one maxAffected Hok Hq Hs) as Hsel. fold sel in Hsel.
  destruct (bounded_selection _ _ _ _ _) as [r|e]; cbn [rbind]; [destruct Hsel as [-> Href]; specialize (Href Hex)|by left].
  destruct (members_ok db name Hok) as [Hnd Hids].
  assert (Hin : forall m, m ∈ sel -> m ∈ members_of db name) by (intros m; apply selection_in).
  assert (Hsids : Forall (fun m : bytes * document => Document_ID m.2 = Some m.1 /\ zlen m.1 = 16 /\ all_zero m.1 = false) sel).
  { rewrite Forall_forall in Hids |- *. auto. }
  destruct (field (db_collections db) name) as [data|] eqn:Ed; [|done].
  assert (Hlen : zlen sel.*2 = zlen sel) by (unfold zlen; by rewrite length_fmap).
  pose proof (prepareDocumentUpdates_spec sel mutation Hsids) as Hprep.
  destruct (prepareDocumentUpdates _ _) as [[changes' modified]|e]; cbn [rbind]; [|auto].
  destruct Hprep as (-> & -> & Happ). fold changes. fold events.
  destruct (validateTransactionResource (db_limits db) events) as [[]|e]; cbn [rbind]; [|auto].
  pose proof (collection_of db name data Hok Ed) as Hdata.
  assert (Hmem : members_of db name = contents data) by (unfold members_of; by rewrite Ed).
  assert (Hidx : indexes_of db name = index_names (cd_indexes data)) by (unfold indexes_of; by rewrite Ed).
  assert (Hup : replace_members changes (contents data) = updated mutation sel (members_of db name)).
  { rewrite <- Hmem. apply replace_updated; [done|by apply NoDup_selection|done]. }
  assert (Hu : updates_of (contents data) changes).
  { rewrite <- Hmem. apply pending_updates_of; [done|by apply NoDup_selection|done|]. rewrite Forall_fmap. eapply Forall_impl; [exact Hids|].
    by intros m (_ & ? & _). }
  pose proof (validateIndexUpdates_verdict (contents data) data changes (ok_trees _ Hdata) (ok_admitted _ Hdata) Hu) as Hv.
  rewrite Hup in Hv.
  destruct (validateIndexUpdates data changes) as [[]|e]; cbn [rbind].
  2: { do 3 right. destruct Hv as [He Hn]. split; [done|]. by rewrite (admits_data _ _ _ _ Ed). }
  unfold verdict in Hv. assert (Hadm : admits db name (updated mutation sel (members_of db name))) by (by apply (admits_data _ _ _ _ Ed)).
  rewrite <- Hup in Hv, Hadm |- *.
  destruct (updated_collection changes data Hdata Hu (updated_ids mutation update sel Hcu Hsids) Hv) as (data' & Hr & Hdata' & Hc & Hn).
  destruct (is_nil changes) eqn:En.
  - assert (Hnil : events = []) by (unfold events; by destruct changes). rewrite Hnil. by rewrite Hlen.
  - assert (Hne : events <> []) by (unfold events; by destruct changes). clearbody events.
    destruct events as [|c rest] eqn:Eev; [done|]. rewrite <- Eev in *. rewrite Hr. cbn [rbind]. rewrite Hlen.
    do 6 (split; [done|]). rewrite Hidx, <- Hc, <- Hn.
    by apply (commit_effect db name data' events true).
Qed.

(** ** New indexes *)

Lemma validateIndexDefinition_name name fields unique definition :
  validateIndexDefinition name fields unique = Ok definition -> def_Name definition = name.
Proof.
  unfold validateIndexDefinition. destruct (_ || _); [done|]. destruct (negb _); [done|].
  unfold newIndexDefinition. destruct fields as [|f fields]; [done|]. cbn. by intros [= <-].
Qed.

Lemma field_index_names indexes name : field (index_names indexes) name = is_definition <$> field indexes name.
Proof.
  unfold index_names. induction indexes as [|[n st] indexes IH]; [done|]. cbn [fmap list_fmap field fst snd].
  destruct (beqb name n); [done|]. exact IH.
Qed.

Lemma index_names_ins indexes name state : index_names (ins name state indexes) = ins name (is_definition state) (index_names indexes).
Proof. unfold index_names. apply (fmap_ins is_definition). Qed.

Lemma indexed_collection data name state t :
  collection_ok data -> field (cd_indexes data) name = None -> def_Name (is_definition state) = name -> is_tree state = Some t ->
  indexed t (index_pairs (is_definition state) (contents data)) -> admitted (is_definition state) (contents data) ->
  collection_ok (set_indexes data (ins name state (cd_indexes data))).
Proof.
  intros [] Hf Hn Ht Hi Ha. split; try done.
  - apply Forall_forall. intros ns [->|Hin]%ins_incl; [by exists t|]. unfold trees_hold in ok_trees. rewrite Forall_forall in ok_trees. by apply ok_trees.
  - apply Forall_forall. intros ns [->|Hin]%ins_incl; [done|]. unfold all_admitted in ok_admitted. rewrite Forall_forall in ok_admitted. by apply ok_admitted.
  - cbn. rewrite ins_Permutation by (by apply field_None). cbn. apply NoDup_cons. split; [by apply field_None|done].
  - apply Forall_forall. intros ns [->|Hin]%ins_incl; [done|]. rewrite Forall_forall in ok_own_names. by apply ok_own_names.
Qed.

Lemma buildIndex_spec definition data budget : collection_ok data ->
  match buildIndex definition data budget with
  | Ok (state, _) => is_definition state = definition /\ admitted definition (contents data) /\
      exists t, is_tree state = Some t /\ indexed t (index_pairs definition (contents data))
  | Err e => (e = ErrResourceLimit /\ exists b, budget = Some b /\ build_runs_over b (index_keys definition (contents data))) \/
      ((e = ErrInvalidIndex \/ e = ErrDuplicateKey) /\ ~ admitted definition (contents data))
  end.
Proof.
  intros Hok. unfold buildIndex. pose proof (build_loop_spec definition (cd_documents data) (cd_order data) budget IndexTree.New []) as H.
  cbv zeta in H. cbn [app fmap list_fmap] in H. fold (contents data) in H.
  destruct (build_loop _ _ _ _ _) as [[t b]|e]; cbn [rbind].
  - destruct H as [Ha Hi]; [apply Hok|intros id; apply (ok_documents _ Hok)| |apply admitted_nil|].
    + eapply indexed_iff; [|exact indexed_new]. intros key v. split; [done|apply index_pairs_nil].
    + split; [done|]. split; [done|]. by exists t.
  - apply H; [apply Hok|intros id; apply (ok_documents _ Hok)| |apply admitted_nil].
    eapply indexed_iff; [|exact indexed_new]. intros key v. split; [done|apply index_pairs_nil].
Qed.

Lemma CreateIndex_spec db name indexName fields unique :
  db_ok db -> db_token db < 2 ^ 64 - 1 -> open_db db = Ok tt -> validCollectionName name = true ->
  let docs := members_of db name in
  match CreateIndex db name indexName fields unique with
  | Ok db' => exists definition, validateIndexDefinition indexName fields unique = Ok definition /\
      field (indexes_of db name) indexName = None /\ admitted definition docs /\
      effect db db' name docs (ins indexName definition (indexes_of db name)) []
  | Err e => validateIndexDefinition indexName fields unique = Err e \/
      exists definition, validateIndexDefinition indexName fields unique = Ok definition /\
        ((e = ErrInvalidIndex /\ field (indexes_of db name) indexName <> None) \/
         (e = ErrResourceLimit /\ build_runs_over (mk_build_budget (db_limits db) 0 0 false) (index_keys definition docs)) \/
         ((e = ErrInvalidIndex \/ e = ErrDuplicateKey) /\ ~ admitted definition docs))
  end.
Proof.
  intros Hok Hw Hopen Hname docs. unfold CreateIndex. rewrite Hname. cbn [negb].
  destruct (validateIndexDefinition indexName fields unique) as [definition|e] eqn:Ev; cbn [rbind]; [|by left].
  pose proof (validateIndexDefinition_name _ _ _ _ Ev) as Hdn. unfold createLockedIndex. rewrite Hopen. cbn [rbind].
  set (data := match field (db_collections db) name with Some data => data | None => newCollectionData end).
  assert (Hdata : collection_ok data).
  { unfold data. destruct (field (db_collections db) name) as [x|] eqn:Ex; [by apply (collection_of db name)|apply new_collection_ok]. }
  assert (Hmem : docs = contents data) by (unfold docs, members_of, data; by destruct (field (db_collections db) name)).
  assert (Hidx : indexes_of db name = index_names (cd_indexes data)) by (unfold indexes_of, data; by destruct (field (db_collections db) name)).
  rewrite Hdn, Hidx, field_index_names. destruct (field (cd_indexes data) indexName) as [st|] eqn:Ef.
  { right. exists definition. split; [done|]. by left. }
  pose proof (buildIndex_spec definition data (Some (mk_build_budget (db_limits db) 0 0 false)) Hdata) as Hb.
  destruct (buildIndex definition data _) as [[state b]|e]; cbn [rbind].
  - destruct Hb as (Hdef & Ha & t & Ht & Hi). exists definition. split; [done|]. split; [done|]. rewrite Hmem. split; [done|].
    pose proof (indexed_collection data indexName state t Hdata Ef) as Hnew. rewrite Hdef in Hnew. specialize (Hnew Hdn Ht Hi Ha).
    pose proof (commit_effect db name _ [mk_change name CreateIndexOperation [] None None (Some (cloneIndexDefinition definition)) []] false Hok Hw ltac:(done) Hnew) as He.
    cbn [set_indexes cd_indexes] in He. rewrite index_names_ins, Hdef in He. exact He.
  - right. exists definition. split; [done|]. right. rewrite Hmem. destruct Hb as [[-> (b & [= <-] & Hb)]|Hb]; auto.
Qed.

(** ** Why a call is refused *)

Section Refusals.
Context (db : DB) (name : bytes).

Inductive insert_refused (documents : list document) (fresh : list bytes) : gerror -> Prop :=
| insert_name : validCollectionName name = false -> insert_refused documents fresh ErrInvalidCollection
| insert_nothing : documents = [] -> insert_refused documents fresh ErrInvalidDocument
| insert_count : MaxTransactionChanges (db_limits db) < zlen documents -> insert_refused documents fresh ErrResourceLimit
| insert_unfit : Exists unfit documents \/ Exists (fun id => all_zero id = true) fresh -> insert_refused documents fresh ErrInvalidDocument
| insert_no_id : zlen fresh < zlen documents -> insert_refused documents fresh ErrIO
| insert_repeated : prepareInserts documents fresh [] = Err ErrDuplicateID -> insert_refused documents fresh ErrDuplicateID
| insert_size batch e : prepareInserts documents fresh [] = Ok batch ->
    validateTransactionResource (db_limits db) (insert_change name <$> batch) = Err e -> insert_refused documents fresh e
| insert_stored batch id : prepareInserts documents fresh [] = Ok batch ->
    id ∈ batch.*1 -> id ∈ (members_of db name).*1 -> insert_refused documents fresh ErrDuplicateID
| insert_index batch e : prepareInserts documents fresh [] = Ok batch ->
    ~ admits db name (members_of db name ++ batch) -> e = ErrInvalidIndex \/ e = ErrDuplicateKey -> insert_refused documents fresh e.

Inductive select_refused (q : QuerySpec) (one : bool) (maxAffected : Z) : gerror -> Prop :=
| select_name : validCollectionName name = false -> select_refused q one maxAffected ErrInvalidCollection
| select_modifiers : HasModifiers q = true -> select_refused q one maxAffected ErrInvalidFilter
| select_selection e : selection_refused db name q one maxAffected e -> select_refused q one maxAffected e.

(** An update of a collection that does not exist dereferences a nil pointer. *)
Inductive update_refused (q : QuerySpec) (mutation : MutationSpec) (one : bool) (maxAffected : Z) : gerror -> Prop :=
| update_select e : select_refused q one maxAffected e -> update_refused q mutation one maxAffected e
| update_missing : field (db_collections db) name = None -> update_refused q mutation one maxAffected ErrPanic
| update_apply m e : m ∈ selection q one (members_of db name) -> Apply mutation false m.2 = Err e -> update_refused q mutation one maxAffected e
| update_size e : validateTransactionResource (db_limits db)
      (update_change name (Paths mutation) <$> flat_map (pending mutation) (selection q one (members_of db name))) = Err e ->
    update_refused q mutation one maxAffected e
| update_index e : ~ admits db name (updated mutation (selection q one (members_of db name)) (members_of db name)) ->
    e = ErrInvalidIndex \/ e = ErrDuplicateKey -> update_refused q mutation one maxAffected e.

Inductive index_refused (indexName : bytes) (fields : list IndexField) (unique : bool) : gerror -> Prop :=
| index_name : validCollectionName name = false -> index_refused indexName fields unique ErrInvalidCollection
| index_definition e : validateIndexDefinition indexName fields unique = Err e -> index_refused indexName fields unique e
| index_exists : field (indexes_of db name) indexName <> None -> index_refused indexName fields unique ErrInvalidIndex
| index_size definition : validateIndexDefinition indexName fields unique = Ok definition ->
    build_runs_over (mk_build_budget (db_limits db) 0 0 false) (index_keys definition (members_of db name)) ->
    index_refused indexName fields unique ErrResourceLimit
| index_documents definition e : validateIndexDefinition indexName fields unique = Ok definition ->
    ~ admitted definition (members_of db name) -> e = ErrInvalidIndex \/ e = ErrDuplicateKey -> index_refused indexName fields unique e.
End Refusals.

Lemma no_modifiers q : HasModifiers q = false -> q_sort q = [].
Proof.
  unfold HasModifiers. intros [[Hmod _]%orb_false_iff _]%orb_false_iff. destruct (q_sort q) as [|f l]; [done|].
  rewrite zlen_cons in Hmod. pose proof (zlen_nonneg l). apply Z.ltb_ge in Hmod. lia.
Qed.

Lemma updateQueryLocked_missing db name q mutation one maxAffected :
  open_db db = Ok tt -> field (db_collections db) name = None -> updateQueryLocked db name q mutation one maxAffected = Err ErrPanic.
Proof.
  intros Hopen Hf. unfold updateQueryLocked. rewrite Hopen. cbn [rbind]. unfold bounded_selection, selectMutationDocumentsLocked.
  rewrite Hf. by destruct (boundedMutationSelection _ _ _).
Qed.

(** ** The contract of the calls *)

(** C24: [InsertMany] appends the documents, with the ids they came with or fresh
    ones, to the documents of the collection, commits them under the next token
    and publishes one change per document - or refuses the whole batch: for its
    name or size, a document that is not valid, a zero or repeated id, an id that
    is stored already, or an index that cannot hold the documents. *)
Theorem InsertMany_correct db name documents fresh :
  db_ok db -> db_token db < 2 ^ 64 - 1 -> open_db db = Ok tt ->
  Forall (fun d => machine_ok (VObject false d)) documents -> Forall (fun id => zlen id = 16) fresh ->
  match InsertMany db name documents fresh with
  | Ok (db', ids) => exists batch, ids = batch.*1 /\ Forall2 prepared documents batch /\
      effect db db' name (members_of db name ++ batch) (indexes_of db name) [insert_change name <$> batch]
  | Err e => insert_refused db name documents fresh e
  end.
Proof.
  intros Hok Hw Hopen Hm Hf. destruct (validCollectionName name) eqn:Hname.
  2: { unfold InsertMany. rewrite Hname. by constructor. }
  destruct (decide (documents = [])) as [->|Hne].
  { unfold InsertMany. rewrite Hname. by apply insert_nothing. }
  destruct (Z.ltb_spec (MaxTransactionChanges (db_limits db)) (zlen documents)) as [Hmax|Hmax].
  { unfold InsertMany. rewrite Hname. cbn [negb]. destruct (zlen documents =? 0) eqn:E.
    - destruct documents; [done|]. rewrite zlen_cons in E. pose proof (zlen_nonneg documents). apply Z.eqb_eq in E. lia.
    - apply Z.ltb_lt in Hmax as Hb. rewrite Hb. by constructor. }
  pose proof (InsertMany_spec db name documents fresh Hok Hw Hopen Hname Hne Hmax Hm Hf) as H.
  destruct (InsertMany db name documents fresh) as [[db' ids]|e]; [done|].
  destruct H as [[-> H]|[[-> H]|H]]; [by apply insert_unfit|by constructor|].
  destruct (prepareInserts documents fresh []) as [batch|e'] eqn:Ep; [|by destruct H as [<- ->]; apply insert_repeated].
  destruct H as [H|[(-> & id & H1 & H2)|[He H]]]; [by apply (insert_size db name documents fresh batch)| |].
  - by apply (insert_stored db name documents fresh batch id).
  - by apply (insert_index db name documents fresh batch).
Qed.

(** C26: A deletion removes exactly the selected documents - all that match in
    insertion order, or the first - keeps the order of the others, and publishes
    one change per document with its last contents; when nothing matches the
    database is as it was. It is refused for a query with modifiers, for the
    budget of the query, for more matches than the caller or the limits allow,
    or for the size of the transaction. *)
Theorem deleteQuery_correct db name q one maxAffected :
  db_ok db -> db_token db < 2 ^ 64 - 1 -> open_db db = Ok tt -> expr_ok (q_where q) = true ->
  let sel := selection q one (members_of db name) in
  let changes := delete_change name <$> sel in
  match deleteQuery db name q one maxAffected with
  | Ok (db', n) => n = zlen sel /\
      if is_nil sel then db' = db
      else effect db db' name (without sel.*1 (members_of db name)) (indexes_of db name) [changes]
  | Err e => select_refused db name q one maxAffected e \/ validateTransactionResource (db_limits db) changes = Err e
  end.
Proof.
  intros Hok Hw Hopen Hq sel changes. destruct (validCollectionName name) eqn:Hname.
  2: { unfold deleteQuery. rewrite Hname. left. by constructor. }
  destruct (HasModifiers q) eqn:Hmod.
  { unfold deleteQuery. rewrite Hname, Hmod. left. by constructor. }
  pose proof (deleteQuery_spec db name q one maxAffected Hok Hw Hopen Hname Hq Hmod) as H. cbv zeta in H. fold sel in H. fold changes in H.
  destruct (deleteQuery db name q one maxAffected) as [[db' n]|e].
  - destruct H as [-> H]. split; [done|]. destruct (is_nil sel); [done|]. apply H.
  - destruct H as [H|H]; [left; by apply select_selection|by right].
Qed.

(** C25: An update replaces each selected document that the mutation changes,
    in place, by what the mutation makes of it, leaves the others and the order
    alone, reports how many matched and how many changed, and publishes one
    change per changed document; when nothing changes the database is as it was.
    It succeeds only if nothing in [update_refused] applies, and is refused only
    for an error that does: an invalid collection name, a query with modifiers, a
    query budget that ends before the selection does, more matches than the caller
    or the limits allow, a selected document the mutation cannot be applied to
    (which panics if it would assign into a nil map), the size of the transaction,
    or an index that cannot hold the outcome - only the outcome counts, even if
    the indexes could not hold a document on the way there. It panics on a
    collection that does not exist. *)
Theorem updateQuery_correct db name q update mutation one maxAffected :
  db_ok db -> db_token db < 2 ^ 64 - 1 -> open_db db = Ok tt -> expr_ok (q_where q) = true -> CompileUpdate update = Ok mutation ->
  let sel := selection q one (members_of db name) in
  let changes := flat_map (pending mutation) sel in
  match updateQuery db name q mutation one maxAffected with
  | Ok (db', (matched, modified)) =>
      (forall e, ~ update_refused db name q mutation one maxAffected e) /\
      field (db_collections db) name <> None /\ matched = zlen sel /\ modified = zlen changes /\
      Forall (fun m => exists after, Apply mutation false m.2 = Ok after) sel /\
      if is_nil changes then db' = db
      else effect db db' name (updated mutation sel (members_of db name)) (indexes_of db name) [update_change name (Paths mutation) <$> changes]
  | Err e => update_refused db name q mutation one maxAffected e
  end.
Proof.
  intros Hok Hw Hopen Hq Hcu sel changes. destruct (validCollectionName name) eqn:Hname.
  2: { unfold updateQuery. rewrite Hname. by do 2 constructor. }
  pose proof (compiled_nonempty _ _ Hcu) as Hne.
  assert (Hz : (zlen mutation =? 0) = false).
  { destruct mutation; [done|]. rewrite zlen_cons. pose proof (zlen_nonneg mutation). apply Z.eqb_neq. lia. }
  unfold updateQuery. rewrite Hname, Hz. cbn [negb]. destruct (HasModifiers q) eqn:Hmod; [by do 2 constructor|].
  destruct (field (db_collections db) name) as [data|] eqn:Ed.
  2: { rewrite updateQueryLocked_missing by done. by apply update_missing. }
  assert (Hd : field (db_collections db) name <> None) by congruence.
  pose proof (updateQueryLocked_spec db name q update mutation one maxAffected Hok Hw Hopen Hq (no_modifiers q Hmod) Hcu Hd) as H.
  cbv zeta in H. fold sel in H. fold changes in H.
  destruct (updateQueryLocked db name q mutation one maxAffected) as [[db' [matched modified]]|e].
  - destruct H as (-> & -> & Hall & Href & Hsize & Hadm & H). split; [|done].
    intros e [e' [Hn|Hm|e'' Hs]|Hn|m e' Hm Ha|e' Hv|e' Hn _]; try congruence.
    + by eapply Href.
    + rewrite Forall_forall in Hall. destruct (Hall m Hm). congruence.
    + fold sel changes in Hv. congruence.
    + by apply Hn.
  - destruct H as [H|[H|[H|[He H]]]].
    + apply update_select. by apply select_selection.
    + apply Exists_exists in H as (m & Hm & Ha). by apply (update_apply db name q mutation one maxAffected m).
    + by apply update_size.
    + by apply update_index.
Qed.

(** C27: [CreateIndex] adds an index under a new name, over the documents the
    collection has, without touching them and without publishing a change; the
    index holds every document from then on. It is refused for an invalid
    definition, a name in use, a document without a valid key, two documents
    with one key of a unique index, or the limits of a build. *)
Theorem CreateIndex_correct db name indexName fields unique :
  db_ok db -> db_token db < 2 ^ 64 - 1 -> open_db db = Ok tt ->
  let docs := members_of db name in
  match CreateIndex db name indexName fields unique with
  | Ok db' => exists definition, validateIndexDefinition indexName fields unique = Ok definition /\
      field (indexes_of db name) indexName = None /\ admitted definition docs /\
      effect db db' name docs (ins indexName definition (indexes_of db name)) []
  | Err e => index_refused db name indexName fields unique e
  end.
Proof.
  intros Hok Hw Hopen docs. destruct (validCollectionName name) eqn:Hname.
  2: { unfold CreateIndex. rewrite Hname. by constructor. }
  pose proof (CreateIndex_spec db name indexName fields unique Hok Hw Hopen Hname) as H. cbv zeta in H. fold docs in H.
  destruct (CreateIndex db name indexName fields unique) as [db'|e]; [done|].
  destruct H as [H|(definition & Hv & [[-> H]|[[-> H]|[He H]]])];
    [by apply index_definition|by apply index_exists|by apply (index_size db name indexName fields unique definition)|].
  by apply (index_documents db name indexName fields unique definition).
Qed.

(** ** Reachable databases *)

(** The calls of a program on one database. *)
Inductive memory_step (db : DB) : DB -> Prop :=
| step_insert name documents fresh db' ids :
    Forall (fun d => machine_ok (VObject false d)) documents -> Forall (fun id => zlen id = 16) fresh ->
    InsertMany db name documents fresh = Ok (db', ids) -> memory_step db db'
| step_delete name q one maxAffected db' n : expr_ok (q_where q) = true ->
    deleteQuery db name q one maxAffected = Ok (db', n) -> memory_step db db'
| step_update name q update mutation one maxAffected db' r : expr_ok (q_where q) = true -> CompileUpdate update = Ok mutation ->
    updateQuery db name q mutation one maxAffected = Ok (db', r) -> memory_step db db'
| step_index name indexName fields unique db' :
    CreateIndex db name indexName fields unique = Ok db' -> memory_step db db'.

Inductive memory_reachable (limits : ResourceLimits) : DB -> Prop :=
| reach_new db : New limits = Some db -> memory_reachable limits db
| reach_step db db' : memory_reachable limits db -> db_token db < 2 ^ 64 - 1 -> memory_step db db' -> memory_reachable limits db'.

(** The batches handed out so far: in commit order, none from the future. *)
Definition published_ok (db : DB) : Prop :=
  StronglySorted Z.lt (db_published db).*1 /\ Forall (fun t => t <= db_token db) (db_published db).*1.

Lemma New_db limits db : 0 <= MaxQueryPredicateSteps limits -> New limits = Some db ->
  db_ok db /\ open_db db = Ok tt /\ published_ok db /\ forall name, members_of db name = [].
Proof.
  intros Hl. unfold New. destruct (normalizeResourceLimits limits) as [l|] eqn:En; [|done]. cbn. intros [= <-].
  split; [|split; [done|split; [split; constructor|done]]]. split; [constructor| |].
  - split; [done|]. split; [done|]. split; [done|]. intros i t Hi. by destruct i.
  - unfold normalizeResourceLimits in En. cbv zeta in En. repeat (case_match; [done|]). injection En as <-.
    cbn. unfold or_default. destruct (_ =? _); lia.
Qed.

Lemma published_next db db' name docs indexes published :
  effect db db' name docs indexes published -> zlen published <= 1 -> published_ok db -> published_ok db'.
Proof.
  intros [_ _ _ Ht Hp _ _] Hone [Hs Hf]. unfold published_ok. rewrite Hp, Ht, fmap_app.
  assert (Hle : Forall (fun t => t <= db_token db + 1) (db_published db).*1).
  { eapply Forall_impl; [exact Hf|]. cbn. lia. }
  destruct published as [|c [|c' published]]; [by rewrite app_nil_r| |rewrite !zlen_cons in Hone; pose proof (zlen_nonneg published); lia].
  cbn [fmap list_fmap fst]. split.
  - apply StronglySorted_app_2; [|done|repeat constructor].
    intros x y Hx Hy%list_elem_of_singleton. rewrite Forall_forall in Hf. specialize (Hf x Hx). lia.
  - apply Forall_app. split; [done|]. by repeat constructor.
Qed.

(** What a commit publishes of the documents it changes. *)
Inductive commits (name : bytes) (docs : members) : members -> list (list Change) -> Prop :=
| commits_insert batch : commits name docs (docs ++ batch) [insert_change name <$> batch]
| commits_delete sel : NoDup sel.*1 -> (forall m, m ∈ sel -> m ∈ docs) ->
    commits name docs (without sel.*1 docs) [delete_change name <$> sel]
| commits_update changes paths : NoDup (pu_id <$> changes) -> Forall (fun c => (pu_id c, pu_before c) ∈ docs) changes ->
    commits name docs (replace_members changes docs) [update_change name paths <$> changes]
| commits_index : commits name docs docs [].

Lemma commits_one name docs docs' published : commits name docs docs' published -> zlen published <= 1.
Proof. intros []; unfold zlen; cbn; lia. Qed.

Lemma step_effect db db' : db_ok db -> db_token db < 2 ^ 64 - 1 -> open_db db = Ok tt -> memory_step db db' ->
  db' = db \/ exists name docs indexes published, effect db db' name docs indexes published /\
    commits name (members_of db name) docs published.
Proof.
  intros Hok Hw Hopen [name documents fresh db1 ids Hm Hf Hi|name q one maxAffected db1 n Hq Hd
    |name q update mutation one maxAffected db1 r Hq Hc Hu|name indexName fields unique db1 Hi].
  - right. destruct (validCollectionName name) eqn:Hname; [|unfold InsertMany in Hi; by rewrite Hname in Hi].
    destruct (decide (documents = [])) as [->|Hne]; [unfold InsertMany in Hi; by rewrite Hname in Hi|].
    destruct (Z.ltb_spec (MaxTransactionChanges (db_limits db)) (zlen documents)) as [Hmax|Hmax].
    { unfold InsertMany in Hi. rewrite Hname in Hi. apply Z.ltb_lt in Hmax. rewrite Hmax in Hi. cbn [negb] in Hi. by destruct (zlen documents =? 0). }
    pose proof (InsertMany_spec db name documents fresh Hok Hw Hopen Hname Hne Hmax Hm Hf) as H. rewrite Hi in H.
    destruct H as (batch & _ & _ & H). eexists _, _, _, _. split; [exact H|constructor].
  - unfold deleteQuery in Hd. destruct (validCollectionName name) eqn:Hname; [|done]. destruct (HasModifiers q) eqn:Hmod; [done|].
    pose proof (deleteQuery_spec db name q one maxAffected Hok Hw Hopen Hname Hq Hmod) as H. unfold deleteQuery in H.
    rewrite Hname, Hmod in H. cbn [negb] in *. rewrite Hd in H. destruct H as [_ H]. destruct (is_nil _); [by left|right].
    destruct H as [_ H]. eexists _, _, _, _. split; [exact H|].
    pose proof (members_ok db name Hok) as [Hnd _]. constructor; [by apply NoDup_selection|]. intros m. apply selection_in.
  - unfold updateQuery in Hu. destruct (validCollectionName name); [|done]. destruct (zlen mutation =? 0); [done|].
    destruct (HasModifiers q) eqn:Hmod; [done|]. cbn [negb] in Hu.
    destruct (field (db_collections db) name) as [data|] eqn:Ed; [|by rewrite updateQueryLocked_missing in Hu].
    assert (Hex : field (db_collections db) name <> None) by congruence.
    pose proof (updateQueryLocked_spec db name q update mutation one maxAffected Hok Hw Hopen Hq (no_modifiers q Hmod) Hc Hex) as H.
    rewrite Hu in H. destruct r as [matched modified]. destruct H as (_ & _ & _ & _ & _ & _ & H). destruct (is_nil _); [by left|right].
    eexists _, _, _, _. split; [exact H|].
    pose proof (members_ok db name Hok) as [Hnd _]. rewrite <- replace_updated; [|done|by apply NoDup_selection|intros m; apply selection_in].
    constructor; [by apply NoDup_pending, NoDup_selection|]. apply Forall_forall.
    intros c (m & after & Hm & _ & _ & ->)%elem_of_pending. destruct m. by apply selection_in in Hm.
  - right. unfold CreateIndex in Hi. destruct (validCollectionName name) eqn:Hname; [|done].
    pose proof (CreateIndex_spec db name indexName fields unique Hok Hw Hopen Hname) as H. unfold CreateIndex in H. rewrite Hname in H.
    cbn [negb] in *. rewrite Hi in H. destruct H as (definition & _ & _ & _ & H). eexists _, _, _, _. split; [exact H|constructor].
Qed.

(** C22: Whatever the calls on a new database, every collection stays consistent
    - its order, its positions, its documents and its index trees say the same -
    batches are published in the order of their tokens, and resuming from a
    token is allowed exactly when the history still has every later one. *)
Theorem memory_database_invariant limits db :
  0 <= MaxQueryPredicateSteps limits -> memory_reachable limits db ->
  (forall name data, field (db_collections db) name = Some data -> collection_ok data) /\
  published_ok db /\
  forall token, 0 <= token -> CanResumeFrom db token = true <->
    token <= db_token db /\ forall t, token < t <= db_token db -> t ∈ db_history db.
Proof.
  intros Hl Hr. assert (Hinv : db_ok db /\ open_db db = Ok tt /\ published_ok db).
  { induction Hr as [db Hn|db db' Hr [Hok [Hopen Hp]] Hw Hs]; [by destruct (New_db limits db Hl Hn) as (? & ? & ? & _)|].
    destruct (step_effect db db' Hok Hw Hopen Hs) as [->|(name & docs & indexes & published & He & Hone)]; [done|].
    split; [apply He|]. split; [by rewrite (effect_open _ _ _ _ _ _ He)|]. eapply published_next; [exact He|by eapply commits_one|done]. }
  destruct Hinv as (Hok & Hopen & Hp). split; [intros name data; by apply collection_of|]. split; [done|].
  intros token H0. rewrite resume_exact by (done || apply Hok). unfold open_db in Hopen. destruct (db_closed db); [done|]. tauto.
Qed.

(** ** A small program *)

Definition no_limits : ResourceLimits := mk_resource_limits 0 0 0 0 0 0 0 0 0 0 0 0 0.
Definition example_id (b : byte) : bytes := replicate 16 b.
Definition example_docs : list document := [[(bs "n", VInt 1)]; [(bs "n", VInt 2)]].
Definition people : bytes := bs "people".

Definition by_n_fields : list IndexField := [{| Path := bs "n"; Order := 1 |}].

(** A new database; two documents in it; and a unique index over them. *)
Definition example_db0 : DB := match New no_limits with Some db => db | None => mk_db true None [] 0 [] 0 no_limits [] end.
Definition example_db1 : DB := match InsertMany example_db0 people example_docs [example_id x01; example_id x02] with Ok (db, _) => db | Err _ => example_db0 end.
Definition example_db2 : DB := match CreateIndex example_db1 people (bs "by_n") by_n_fields true with Ok db => db | Err _ => example_db1 end.

Definition match_n (n : Z) : QuerySpec := mk_query (compareExpr (bs "gte") (bs "n") (VInt n)) [] 0 None false.

Lemma example_db0_ok : db_ok example_db0.
Proof. by apply (New_db no_limits). Qed.

Lemma example_docs_ok : Forall (fun d => machine_ok (VObject false d)) example_docs /\ Forall (fun id => zlen id = 16) [example_id x01; example_id x02].
Proof.
  split; [|by repeat constructor]. unfold example_docs. repeat constructor; try done; apply not_elem_of_nil.
Qed.

Lemma example_db1_ok : db_ok example_db1.
Proof.
  destruct example_docs_ok as [Hd Hi].
  pose proof (InsertMany_spec example_db0 people example_docs [example_id x01; example_id x02] example_db0_ok ltac:(done) ltac:(done)
    ltac:(done) ltac:(done) ltac:(done) Hd Hi) as H. unfold example_db1.
  destruct (InsertMany example_db0 _ _ _) as [[db' ids]|e]; [|exact example_db0_ok]. by destruct H as (batch & _ & _ & []).
Qed.

Lemma example_db2_ok : db_ok example_db2.
Proof.
  pose proof (CreateIndex_spec example_db1 people (bs "by_n") by_n_fields true example_db1_ok ltac:(done) ltac:(done) ltac:(done)) as H.
  cbv zeta in H. unfold example_db2. destruct (CreateIndex example_db1 _ _ _ _) as [db'|e]; [|exact example_db1_ok].
  by destruct H as (definition & _ & _ & _ & []).
Qed.

Lemma example_open : (db_token example_db1 < 2 ^ 64 - 1 /\ open_db example_db1 = Ok tt) /\ db_token example_db2 < 2 ^ 64 - 1 /\ open_db example_db2 = Ok tt.
Proof. vm_compute. done. Qed.

Lemma InsertMany_correct_witness :
  is_ok (InsertMany example_db0 people example_docs [example_id x01; example_id x02]) = true /\
  match InsertMany example_db0 people example_docs [example_id x01; example_id x02] with
  | Ok (db', ids) => exists batch, ids = batch.*1 /\ Forall2 prepared example_docs batch /\
      effect example_db0 db' people (members_of example_db0 people ++ batch) (indexes_of example_db0 people) [insert_change people <$> batch]
  | Err e => insert_refused example_db0 people example_docs [example_id x01; example_id x02] e
  end.
Proof.
  split; [by vm_compute|]. apply (InsertMany_correct example_db0 people example_docs); [exact example_db0_ok|done|done|apply example_docs_ok..].
Defined.

Lemma deleteQuery_correct_witness :
  (match deleteQuery example_db2 people (match_n 2) false 0 with
   | Ok (db', n) => n = 1 /\ (members_of db' people).*1 = [example_id x01] | Err _ => False end) /\
  match deleteQuery example_db2 people (match_n 2) false 0 with
  | Ok (db', n) => n = zlen (selection (match_n 2) false (members_of example_db2 people)) /\
      if is_nil (selection (match_n 2) false (members_of example_db2 people)) then db' = example_db2
      else effect example_db2 db' people
        (without (selection (match_n 2) false (members_of example_db2 people)).*1 (members_of example_db2 people))
        (indexes_of example_db2 people) [delete_change people <$> selection (match_n 2) false (members_of example_db2 people)]
  | Err e => select_refused example_db2 people (match_n 2) false 0 e \/
      validateTransactionResource (db_limits example_db2) (delete_change people <$> selection (match_n 2) false (members_of example_db2 people)) = Err e
  end.
Proof.
  split; [by vm_compute|]. apply (deleteQuery_correct example_db2 people (match_n 2) false 0); [exact example_db2_ok|apply example_open..|done].
Defined.

(** Adding one to each number swaps owners of the keys of the unique index. *)
Definition inc_n : MutationSpec := [mk_op (bs "inc") (bs "n") (VInt 1)].

Lemma updateQuery_correct_witness :
  (match updateQuery example_db2 people (match_n 0) inc_n false 0 with
   | Ok (db', r) => r = (2, 2) /\ (fun m : bytes * document => field m.2 (bs "n")) <$> members_of db' people = [Some (VInt 2); Some (VInt 3)]
   | Err _ => False end) /\
  exists update, CompileUpdate update = Ok inc_n /\
  let sel := selection (match_n 0) false (members_of example_db2 people) in
  match updateQuery example_db2 people (match_n 0) inc_n false 0 with
  | Ok (db', (matched, modified)) =>
      (forall e, ~ update_refused example_db2 people (match_n 0) inc_n false 0 e) /\
      field (db_collections example_db2) people <> None /\ matched = zlen sel /\ modified = zlen (flat_map (pending inc_n) sel) /\
      Forall (fun m => exists after, Apply inc_n false m.2 = Ok after) sel /\
      if is_nil (flat_map (pending inc_n) sel) then db' = example_db2
      else effect example_db2 db' people (updated inc_n sel (members_of example_db2 people)) (indexes_of example_db2 people)
        [update_change people (Paths inc_n) <$> flat_map (pending inc_n) sel]
  | Err e => update_refused example_db2 people (match_n 0) inc_n false 0 e
  end.
Proof.
  split; [by vm_compute|]. exists [(bs "$inc", AMap [(bs "n", AInt 1)])].
  assert (Hc : CompileUpdate [(bs "$inc", AMap [(bs "n", AInt 1)])] = Ok inc_n) by (vm_compute; reflexivity). split; [exact Hc|].
  apply (updateQuery_correct example_db2 people (match_n 0) [(bs "$inc", AMap [(bs "n", AInt 1)])] inc_n false 0);
    [exact example_db2_ok|apply example_open..|done|exact Hc].
Defined.

Lemma CreateIndex_correct_witness :
  is_ok (CreateIndex example_db1 people (bs "by_n") by_n_fields true) = true /\
  match CreateIndex example_db1 people (bs "by_n") by_n_fields true with
  | Ok db' => exists definition, validateIndexDefinition (bs "by_n") by_n_fields true = Ok definition /\
      field (indexes_of example_db1 people) (bs "by_n") = None /\ admitted definition (members_of example_db1 people) /\
      effect example_db1 db' people (members_of example_db1 people) (ins (bs "by_n") definition (indexes_of example_db1 people)) []
  | Err e => index_refused example_db1 people (bs "by_n") by_n_fields true e
  end.
Proof. split; [by vm_compute|]. apply (CreateIndex_correct example_db1 people); [exact example_db1_ok|apply example_open..]. Defined.

Lemma memory_database_invariant_witness :
  memory_reachable no_limits example_db2 /\ published_ok example_db2 /\
  (CanResumeFrom example_db2 0 = true <-> 0 <= db_token example_db2 /\ forall t, 0 < t <= db_token example_db2 -> t ∈ db_history example_db2).
Proof.
  assert (Hr : memory_reachable no_limits example_db2).
  { apply (reach_step no_limits example_db1); [|apply example_open|].
    - apply (reach_step no_limits example_db0); [apply reach_new; vm_compute; reflexivity|done|].
      apply (step_insert example_db0 people example_docs [example_id x01; example_id x02] example_db1 [example_id x01; example_id x02]);
        [apply example_docs_ok..|vm_compute; reflexivity].
    - apply (step_index example_db1 people (bs "by_n") by_n_fields true). vm_compute; reflexivity. }
  split; [exact Hr|]. assert (Hl : 0 <= MaxQueryPredicateSteps no_limits) by (cbn; lia).
  destruct (memory_database_invariant no_limits example_db2 Hl Hr) as (_ & Hp & Hres). split; [exact Hp|]. apply Hres. lia.
Defined.
