(* ===== verification/MemoryQueries.v ===== *)
(** * Queries over collections in memory

    [planWithBudgetAccess] of [internal/database/indexes.go] for a database
    without storage, [query_memory_access.go], the conditions for stopping early
    of [query_explain.go] and the cursor over detached results of [cursor.go].
    The work counters of an explanation are left out, and [sort.Slice] is the
    stable sort, which is the same on distinct positions. *)
From Stdlib Require Import Permutation Sorted.
From S2P Require Import Prelude Bytes Strings Entries Records Float64 Values Documents DocumentCodec IndexKey CompoundKey.
From S2P Require Import IndexTree IndexTreeShape IndexTreeMap Update Query Orders QueryResults IndexDefinitions QueryPlan PlanIntervals PlanSoundness.
From S2P Require Import MemoryIndexes MemoryDatabase MemoryMutations MemoryEffects.

(** ** Stopping early *)

(** The fields [EarlyStop...] of an explanation. *)
Record earlyStop := mk_stop { es_eligible : bool; es_stopped : bool; es_scope : bytes; es_reason : bytes }.

Definition stop_reason (reason : bytes) : earlyStop := mk_stop false false [] reason.
Definition may_stop (scope reason : bytes) : earlyStop := mk_stop true false scope reason.

Definition configureCollectionEarlyStop (q : QuerySpec) : earlyStop :=
  match q_limit q with
  | None => stop_reason (bs "limit_not_set")
  | Some limit =>
      if limit =? 0 then mk_stop true true (bs "documents") (bs "zero_limit")
      else if 0 <? zlen (q_sort q) then stop_reason (bs "sort_required")
      else may_stop (bs "documents") (bs "collection_insertion_order")
  end.

Definition accessPlanWindow (q : QuerySpec) : Z :=
  match q_limit q with
  | None => -1
  | Some limit => if maxInt - limit <? q_skip q then -1 else q_skip q + limit
  end.

Definition configureCommonAccessEarlyStop (q : QuerySpec) : option earlyStop :=
  match q_limit q with
  | None => Some (stop_reason (bs "limit_not_set"))
  | Some limit =>
      if limit =? 0 then Some (mk_stop true true (bs "keys_and_documents") (bs "zero_limit"))
      else if 0 <? zlen (q_sort q) then Some (stop_reason (bs "sort_required"))
      else if accessPlanWindow q <? 0 then Some (stop_reason (bs "window_overflow"))
      else None
  end.

(** Every span of every secondary source is exact. *)
Definition exact_sources (access : queryAccessPlan) : bool :=
  forallb (fun source => ps_primary source || forallb sp_exact (ps_spans source)) (ap_sources access).

Definition configureMemoryAccessEarlyStop (access : queryAccessPlan) (q : QuerySpec) : earlyStop :=
  match configureCommonAccessEarlyStop q with
  | Some stop => stop
  | None =>
      if exact_sources access then may_stop (bs "documents") (bs "candidate_position_order")
      else stop_reason (bs "range_scan")
  end.

Definition canOrderMemoryAccessByPosition (access : queryAccessPlan) (q : QuerySpec) : bool :=
  if negb (zlen (q_sort q) =? 0) || (match q_limit q with None => true | _ => false end) || (accessPlanWindow q <? 0) then false
  else exact_sources access.

(** ** Examining documents *)

(** The common part of the scans: charge the document, match it, and retain it
    at its position. The last result says whether it was retained or considered. *)
Definition examine (q : QuerySpec) (d : document) (position : option Z) (b : queryBudget) (c : queryCandidateCollector)
    : result (queryBudget * queryCandidateCollector * bool) :=
  let* b := charge charge_document b in
  let* (matched, b) := match_document q d b in
  if negb matched then Ok (b, c, false)
  else
    match position with
    | None => Ok (b, c, false)
    | Some position =>
        match retainQueryCandidate (mk_candidate d position) c b with
        | (c, b, None) => Ok (b, c, true)
        | (_, _, Some e) => Err e
        end
    end.

(** A scan of what [find] finds, up to the point [stop] says; and whether it
    stopped there. *)
Fixpoint scan_loop {A} (q : QuerySpec) (stop : queryCandidateCollector -> bool) (find : A -> option (document * Z))
    (items : list A) (b : queryBudget) (c : queryCandidateCollector) : result (queryBudget * queryCandidateCollector * bool) :=
  match items with
  | [] => Ok (b, c, false)
  | item :: items =>
      match find item with
      | None => scan_loop q stop find items b c
      | Some (d, position) =>
          let* (b, c, retained) := examine q d (Some position) b c in
          if retained && stop c then Ok (b, c, true) else scan_loop q stop find items b c
      end
  end.

(** ** The collection scan *)

Definition stored_at (data : collectionData) (id : bytes) : option (document * Z) :=
  match field (cd_documents data) id with
  | None => None
  | Some d => Some (d, default 0 (field (cd_positions data) id))
  end.

Definition executeCollectionScan (data : collectionData) (q : QuerySpec) (b : queryBudget)
    : result (list document * earlyStop * queryBudget) :=
  let early := configureCollectionEarlyStop q in
  match q_limit q with
  | Some 0 => Ok ([], early, b)
  | _ =>
      let stopAfter := accessPlanWindow q in
      let stop c := es_eligible early && (0 <=? stopAfter) && (stopAfter <=? zlen (c_items c)) in
      let* (b, c, stopped) := scan_loop q stop (stored_at data) (cd_order data) b (newQueryCandidateCollector q) in
      let* documents := Collector_Documents c in
      Ok (documents, mk_stop (es_eligible early) (es_stopped early || stopped) (es_scope early) (es_reason early), b)
  end.

(** ** Access plans *)

Record memoryAccessCandidate := mk_raw { mc_raw : bytes; mc_source : Z }.

Fixpoint span_candidates (t : Tree) (sourceIndex : Z) (spans : list indexScanSpan) : result (list memoryAccessCandidate) :=
  match spans with
  | [] => Ok []
  | span :: spans =>
      let* found :=
        (if sp_exact span then tree_get t (sp_start span)
         else let* pairs := of_option ErrPanic (Scan t (sp_start span) (sp_end span) false) in Ok (Pair_Value <$> pairs)) in
      let* rest := span_candidates t sourceIndex spans in
      Ok (((fun raw => mk_raw raw sourceIndex) <$> found) ++ rest)
  end.

Fixpoint gather_candidates (data : collectionData) (sources : list queryPlanSource) (sourceIndex : Z)
    : result (list memoryAccessCandidate) :=
  match sources with
  | [] => Ok []
  | source :: sources =>
      let* found :=
        (if ps_primary source then Ok ((fun id => mk_raw id sourceIndex) <$> ps_ids source)
         else
           match field (cd_indexes data) (def_Name (ps_definition source)) with
           | None => Err ErrCorrupt
           | Some state =>
               match is_tree state with
               | None => Err ErrCorrupt
               | Some t =>
                   if negb (equalIndexDefinitions (is_definition state) (ps_definition source)) then Err ErrCorrupt
                   else span_candidates t sourceIndex (ps_spans source)
               end
           end) in
      let* rest := gather_candidates data sources (sourceIndex + 1) in
      Ok (found ++ rest)
  end.

Fixpoint index_of (id : bytes) (order : list bytes) (index : Z) : option Z :=
  match order with
  | [] => None
  | candidate :: order => if beqb candidate id then Some index else index_of id order (index + 1)
  end.

Definition collectionDocumentPosition (data : collectionData) (id : bytes) : option Z :=
  match field (cd_positions data) id with Some position => Some position | None => index_of id (cd_order data) 0 end.

Record positionedID := mk_positioned { po_id : bytes; po_position : Z; po_source : Z }.

(** The first loop of [executeMemoryOrderedCandidates]. *)
Fixpoint position_candidates (data : collectionData) (rawIDs : list memoryAccessCandidate) (seen : list bytes) (b : queryBudget)
    : result (list positionedID * queryBudget) :=
  match rawIDs with
  | [] => Ok ([], b)
  | raw :: rawIDs =>
      let* b := charge charge_key b in
      let id := mc_raw raw in
      if negb (zlen id =? 16) then position_candidates data rawIDs seen b
      else if existsb (beqb id) seen then position_candidates data rawIDs seen b
      else
        match field (cd_documents data) id, collectionDocumentPosition data id with
        | Some _, Some position =>
            let* (rest, b) := position_candidates data rawIDs (id :: seen) b in
            Ok (mk_positioned id position (mc_source raw) :: rest, b)
        | _, _ => position_candidates data rawIDs (id :: seen) b
        end
  end.

Definition positioned_before (left right : positionedID) : bool :=
  if negb (po_position left =? po_position right) then po_position left <? po_position right
  else bltb (po_id left) (po_id right).

Definition positioned_document (data : collectionData) (candidate : positionedID) : option (document * Z) :=
  let? d := field (cd_documents data) (po_id candidate) in Some (d, po_position candidate).

Definition executeMemoryOrderedCandidates (data : collectionData) (rawIDs : list memoryAccessCandidate) (q : QuerySpec)
    (b : queryBudget) : result (list document * bool * queryBudget) :=
  let* (candidates, b) := position_candidates data rawIDs [] b in
  let stopAfter := accessPlanWindow q in
  let* (b, c, stopped) := scan_loop q (fun c => stopAfter <=? zlen (c_items c)) (positioned_document data)
                            (sort_stable positioned_before candidates) b (newQueryCandidateCollector q) in
  let* documents := Collector_Documents c in
  Ok (documents, stopped, b).

Fixpoint index_loop (data : collectionData) (q : QuerySpec) (rawIDs : list memoryAccessCandidate) (seen : list bytes)
    (b : queryBudget) (c : queryCandidateCollector) : result (queryBudget * queryCandidateCollector) :=
  match rawIDs with
  | [] => Ok (b, c)
  | raw :: rawIDs =>
      let* b := charge charge_key b in
      let id := mc_raw raw in
      if negb (zlen id =? 16) then index_loop data q rawIDs seen b c
      else if existsb (beqb id) seen then index_loop data q rawIDs seen b c
      else
        match field (cd_documents data) id with
        | None => index_loop data q rawIDs (id :: seen) b c
        | Some d =>
            let* (b, c, _) := examine q d (collectionDocumentPosition data id) b c in
            index_loop data q rawIDs (id :: seen) b c
        end
  end.

Definition executeMemoryIndexCandidates (data : collectionData) (rawIDs : list memoryAccessCandidate) (q : QuerySpec)
    (b : queryBudget) : result (list document * bool * queryBudget) :=
  let* (b, c) := index_loop data q rawIDs [] b (newQueryCandidateCollector q) in
  let* documents := Collector_Documents c in
  Ok (documents, false, b).

Definition executeMemoryAccessPlan (data : collectionData) (access : queryAccessPlan) (q : QuerySpec) (b : queryBudget)
    : result (list document * earlyStop * queryBudget) :=
  let early := configureMemoryAccessEarlyStop access q in
  match q_limit q with
  | Some 0 => Ok ([], early, b)
  | _ =>
      let* candidates := gather_candidates data (ap_sources access) 0 in
      let* (documents, stopped, b) :=
        (if canOrderMemoryAccessByPosition access q then executeMemoryOrderedCandidates data candidates q b
         else executeMemoryIndexCandidates data candidates q b) in
      Ok (documents, mk_stop (es_eligible early) (es_stopped early || stopped) (es_scope early) (es_reason early), b)
  end.

(** ** Queries *)

Definition collection_definitions (data : collectionData) : list IndexDefinition := (fun ns => is_definition ns.2) <$> cd_indexes data.

Definition executeMemoryQuery (data : collectionData) (q : QuerySpec) (b : queryBudget)
    : result (list document * earlyStop * queryBudget) :=
  let access := selectQueryAccessPlan (q_where q) (collection_definitions data) q in
  if ap_usable access then executeMemoryAccessPlan data access q b else executeCollectionScan data q b.

Definition planWithBudget (db : DB) (name : bytes) (q : QuerySpec) (b : queryBudget)
    : result (list document * earlyStop * queryBudget) :=
  if negb (validCollectionName name) then Err ErrInvalidCollection
  else if db_closed db then Err ErrClosed
  else
    let data := match field (db_collections db) name with Some data => data | None => newCollectionData end in
    executeMemoryQuery data q b.

Definition plan (db : DB) (name : bytes) (q : QuerySpec) : result (list document * earlyStop * queryBudget) :=
  let* b := start_budget (db_limits db) q in
  planWithBudget db name q b.

(** ** Cursors over results *)

Record Cursor := mk_cursor { cu_documents : list document; cu_position : Z; cu_closed : bool }.

Definition Cursor_Next (c : Cursor) : Cursor * option document :=
  if cu_closed c then (c, None)
  else
    match cu_documents c !! Z.to_nat (cu_position c) with
    | None => (mk_cursor (cu_documents c) (cu_position c) true, None)
    | Some d => (mk_cursor (cu_documents c) (cu_position c + 1) false, Some d)
    end.

Definition Cursor_All (c : Cursor) : Cursor * list document :=
  (mk_cursor (cu_documents c) (zlen (cu_documents c)) true, drop (Z.to_nat (cu_position c)) (cu_documents c)).

(** [finishLocked] for results that are not streamed. *)
Definition Cursor_Close (c : Cursor) : Cursor :=
  if cu_closed c then c else mk_cursor (cu_documents c) (Z.max (cu_position c) (zlen (cu_documents c))) true.

Definition FindQuery (db : DB) (name : bytes) (q : QuerySpec) : result Cursor :=
  if negb (validCollectionName name) then Err ErrInvalidCollection
  else
    let* (documents, _, _) := plan db name q in
    Ok (mk_cursor documents 0 false).

(** ** Budgets *)

(** There is room for [n] more of everything. *)
Definition room (n : Z) (b : queryBudget) : Prop :=
  n <= MaxQueryDocumentsExamined (b_limits b) - b_documents b /\ n <= MaxQueryKeysExamined (b_limits b) - b_keys b /\
  n <= MaxQueryCandidates (b_limits b) - b_candidates b /\ n <= MaxQuerySortBytes (b_limits b) - b_sortBytes b /\ n <= steps_left b.

Lemma canonicalValueSize_nonneg v depth n : canonicalValueSize v depth = Ok n -> 0 <= n.
Proof.
  revert depth n. induction v using value_nested_ind; intros depth n; cbn [canonicalValueSize]; (destruct (64 <? depth); [done|]).
  - intros [= <-]. done.
  - intros [= <-]. done.
  - intros [= <-]. done.
  - destruct (_ || _); [done|]. intros [= <-]. done.
  - destruct (_ || _); [done|]. intros Hn. injection Hn as <-. pose proof (zlen_nonneg s). lia.
  - destruct (_ <? _); [done|]. intros Hn. injection Hn as <-. pose proof (zlen_nonneg b). lia.
  - intros [= <-]. done.
  - destruct (_ <? _); [done|]. assert (Hgen : forall total, 0 <= total -> sizeElements canonicalValueSize a depth total = Ok n -> 0 <= n).
    { induction H as [|v a Hv Ha IH]; intros total Ht; cbn [sizeElements]; [by intros [= <-]|].
      destruct (canonicalValueSize v (depth + 1)) as [k|] eqn:E; [|done]. cbn [rbind]. destruct (_ <? _); [done|].
      apply IH. specialize (Hv _ _ E). lia. }
    apply Hgen. lia.
  - destruct (objectSize_with canonicalValueSize d (depth + 1)); [|done]. cbn [rbind]. intros Hn. injection Hn as <-.
    unfold to_u64. apply Z.mod_pos_bound. lia.
  - intros [= <-]. done.
Qed.

Lemma canonicalDocumentSize_nonneg d n : canonicalDocumentSize d = Ok n -> 0 <= n.
Proof.
  unfold canonicalDocumentSize, objectSize_with. destruct (_ || _); [done|].
  assert (Hgen : forall total, 0 <= total -> sizeFields canonicalValueSize d 0 total = Ok n -> 0 <= n).
  { induction d as [|[k v] d IH]; intros total Ht; cbn [sizeFields]; [by intros [= <-]|].
    destruct (negb _); [done|]. destruct (_ <? _); [done|]. destruct (canonicalValueSize v (0 + 1)) as [m|] eqn:E; [|done]. cbn [rbind].
    destruct (_ || _); [done|]. apply IH. pose proof (canonicalValueSize_nonneg _ _ _ E). pose proof (zlen_nonneg k). lia. }
  apply Hgen. lia.
Qed.

Definition size_of (d : document) : Z := match canonicalDocumentSize d with Ok n => n | Err _ => 0 end.
Definition sizes (items : list queryCandidate) : Z := foldr (fun c n => size_of (qc_document c) + n) 0 items.
Definition sized (d : document) : Prop := canonicalDocumentSize d = Ok (size_of d).

Lemma size_nonneg d : 0 <= size_of d.
Proof. unfold size_of. destruct (canonicalDocumentSize d) eqn:E; [by eapply canonicalDocumentSize_nonneg|lia]. Qed.

Lemma sizes_nonneg items : 0 <= sizes items.
Proof. unfold sizes. induction items as [|c items IH]; cbn; [lia|]. pose proof (size_nonneg (qc_document c)). lia. Qed.

Lemma sizes_cons c items : sizes (c :: items) = size_of (qc_document c) + sizes items.
Proof. done. Qed.

Lemma sizes_Permutation l l' : Permutation l l' -> sizes l = sizes l'.
Proof. unfold sizes. induction 1; cbn; lia. Qed.

(** What a budget says of the candidates that are retained. *)
Record budget_for (q : QuerySpec) (c : queryCandidateCollector) (b : queryBudget) : Prop := {
  budget_query : b_query b = q;
  budget_steps : 0 <= steps_left b;
  budget_candidates : b_candidates b = zlen (c_items c);
  budget_sorted : q_sort q <> [] -> b_sortBytes b = sizes (c_items c) /\ Forall (fun x => sized (qc_document x)) (c_items c) }.

Lemma match_document_costs q d : expr_ok (q_where q) = true ->
  exists n, 0 <= n /\ forall b, 0 <= steps_left b ->
    match_document q d b = if n <=? steps_left b then Ok (Match q d, spend n b) else Err ErrQueryBudget.
Proof.
  intros Hok. pose proof (decides_expression (q_where q) d Hok) as (o & Ho & _).
  assert (Hm : matchExpression (q_where q) d = matchWithBudget q d) by (unfold matchWithBudget; by destruct (q_where q)).
  destruct (metered_match q d) as (n & Hn & _ & Hb). exists n. split; [done|]. intros b H0. specialize (Hb b H0).
  unfold match_document, Match. rewrite Hm in Ho. rewrite Ho in Hb |- *. destruct (n <=? steps_left b); [by rewrite Hb|]. by destruct Hb as (o' & ->).
Qed.

Lemma Collector_Add_items x c :
  match Collector_Add x c with
  | (c', false, _) => c' = c
  | (c', true, None) => Permutation (c_items c') (x :: c_items c)
  | (c', true, Some r) => exists rest, c_items c = r :: rest /\ Permutation (c_items c') (x :: rest)
  end.
Proof.
  unfold Collector_Add. destruct (_ <? 0); [cbn; by rewrite Permutation_app_comm|]. destruct (_ =? 0); [done|].
  destruct (_ <? _); [cbn; apply heap_Push_Permutation|]. destruct (c_items c) as [|r rest]; [done|].
  destruct (0 <=? _); [done|]. exists rest. split; [done|]. cbn. apply heap_Fix_Permutation.
Qed.

Section Scans.
Context (q : QuerySpec) (Hq : expr_ok (q_where q) = true).

(** A document can be retained: its size is known if the query sorts. *)
Definition retainable (d : document) : Prop := q_sort q <> [] -> sized d.

Lemma charge_candidate_room d b : 0 <= steps_left b -> b_query b = q -> retainable d ->
  match charge_candidate d b with
  | (b', None) => b_query b' = q /\ b_limits b' = b_limits b /\ steps_left b' = steps_left b /\ b_documents b' = b_documents b /\
      b_keys b' = b_keys b /\ b_candidates b' = b_candidates b + 1 /\ (q_sort q <> [] -> b_sortBytes b' = b_sortBytes b + size_of d) /\
      (forall k, 0 <= k -> room (k + 1 + size_of d) b -> room k b')
  | (_, Some e) => e = ErrQueryBudget /\ ~ room (1 + size_of d) b
  end.
Proof.
  intros Hb Hbq Hd. pose proof (size_nonneg d) as Hsz. unfold charge_candidate.
  destruct (Z.leb_spec (MaxQueryCandidates (b_limits b)) (b_candidates b)) as [H1|H1].
  { split; [done|]. intros (_ & _ & H & _). lia. }
  cbv zeta. change (b_query (set_candidates b (b_candidates b + 1) (b_sortBytes b))) with (b_query b). rewrite Hbq.
  destruct (Z.eqb_spec (zlen (q_sort q)) 0) as [E|E].
  - assert (Hnil : q_sort q = []) by (destruct (q_sort q) as [|f l]; [done|]; rewrite zlen_cons in E; pose proof (zlen_nonneg l); lia).
    repeat (split; [done|]). unfold room, steps_left. cbn. split; [lia|]. lia.
  - assert (Hs : sized d) by (apply Hd; intros E'; by rewrite E' in E). rewrite Hs.
    change (b_sortBytes (set_candidates b (b_candidates b + 1) (b_sortBytes b))) with (b_sortBytes b).
    change (b_limits (set_candidates b (b_candidates b + 1) (b_sortBytes b))) with (b_limits b).
    change (b_candidates (set_candidates b (b_candidates b + 1) (b_sortBytes b))) with (b_candidates b + 1).
    destruct (Z.ltb_spec (MaxQuerySortBytes (b_limits b)) (b_sortBytes b)) as [H2|H2]; cbn [orb].
    { split; [done|]. intros (_ & _ & _ & H & _). lia. }
    destruct (Z.ltb_spec (MaxQuerySortBytes (b_limits b) - b_sortBytes b) (size_of d)) as [H3|H3].
    { split; [done|]. intros (_ & _ & _ & H & _). lia. }
    repeat (split; [done|]). unfold room, steps_left. cbn. lia.
Qed.

Lemma retain_spec c b x : budget_for q c b -> c_query c = q -> retainable (qc_document x) ->
  match retainQueryCandidate x c b with
  | (c', b', None) => c' = (Collector_Add x c).1.1 /\ budget_for q c' b' /\ b_limits b' = b_limits b /\
      (forall k, 0 <= k -> room (k + 1 + size_of (qc_document x)) b -> room k b')
  | (_, _, Some e) => e = ErrQueryBudget /\ ~ room (1 + size_of (qc_document x)) b
  end.
Proof.
  intros [Hbq Hst Hcand Hsort] Hc Hx. pose proof (Collector_Add_items x c) as Hitems. pose proof (size_nonneg (qc_document x)) as Hsz.
  unfold retainQueryCandidate. destruct (Collector_Add x c) as [[c' retained] evicted]. cbn [fst]. destruct retained.
  2: { subst c'. split; [done|]. split; [done|]. split; [done|]. intros k Hk (H1 & H2 & H3 & H4 & H5). unfold room. lia. }
  destruct evicted as [r|].
  - destruct Hitems as (rest & Hr & Hp). unfold releaseCandidate. rewrite Hr, zlen_cons in Hcand. pose proof (zlen_nonneg rest).
    destruct (Z.eqb_spec (b_candidates b) 0); [lia|]. cbv zeta.
    set (b0 := set_candidates b (b_candidates b - 1) (b_sortBytes b)). change (b_query b0) with (b_query b). rewrite Hbq.
    assert (Hrel : exists b1, (if zlen (q_sort q) =? 0 then (b0, None) else
        match canonicalDocumentSize (qc_document r) with
        | Ok size => if b_sortBytes b0 <? size then (b0, Some ErrCorrupt) else (set_candidates b0 (b_candidates b0) (b_sortBytes b0 - size), None)
        | Err e => (b0, Some e) end) = (b1, None) /\ b_query b1 = q /\ b_limits b1 = b_limits b /\ steps_left b1 = steps_left b /\
        b_candidates b1 = zlen rest /\ (q_sort q <> [] -> b_sortBytes b1 = sizes rest) /\ (forall k, room k b -> room k b1)).
    { destruct (Z.eqb_spec (zlen (q_sort q)) 0) as [E|E].
      - assert (Hnil : q_sort q = []) by (destruct (q_sort q) as [|f l]; [done|]; rewrite zlen_cons in E; pose proof (zlen_nonneg l); lia).
        exists b0. repeat (split; [done|]). split; [cbn; lia|]. split; [done|]. unfold room, steps_left. cbn. lia.
      - assert (Hne : q_sort q <> []) by (intros E'; by rewrite E' in E). destruct (Hsort Hne) as [Hsb Hall].
        rewrite Hr in Hsb, Hall. apply Forall_cons in Hall as [Hrs Hall]. red in Hrs. rewrite Hrs.
        rewrite sizes_cons in Hsb.
        pose proof (sizes_nonneg rest). pose proof (size_nonneg (qc_document r)). change (b_sortBytes b0) with (b_sortBytes b).
        destruct (Z.ltb_spec (b_sortBytes b) (size_of (qc_document r))); [lia|].
        eexists. split; [done|]. split; [done|]. split; [done|]. split; [done|]. split; [cbn; lia|]. split; [intros _; cbn; lia|].
        unfold room, steps_left. cbn. lia. }
    destruct Hrel as (b1 & -> & Hq1 & Hl1 & Hs1 & Hc1 & Hsb1 & Hroom).
    pose proof (charge_candidate_room (qc_document x) b1 ltac:(lia) Hq1 Hx) as Hch.
    destruct (charge_candidate (qc_document x) b1) as [b2 [e|]].
    { destruct Hch as [-> Hn]. split; [done|]. intros H'. by apply Hn, Hroom. }
    destruct Hch as (Hq2 & Hl2 & Hs2 & _ & _ & Hc2 & Hsb2 & Hr2). split; [done|]. split; [|split; [congruence|intros k Hk H'; by apply Hr2, Hroom]].
    split; [done|lia| |].
    + rewrite Hc2, Hc1. unfold zlen. rewrite Hp. cbn [length]. lia.
    + intros Hne. destruct (Hsort Hne) as [_ Hall]. rewrite Hr in Hall. apply Forall_cons in Hall as [_ Hall]. split.
      * rewrite Hsb2, Hsb1, (sizes_Permutation _ _ Hp), sizes_cons by done. lia.
      * rewrite Hp. constructor; [by apply Hx|done].
  - pose proof (charge_candidate_room (qc_document x) b Hst Hbq Hx) as Hch. destruct (charge_candidate (qc_document x) b) as [b2 [e|]]; [done|].
    destruct Hch as (Hq2 & Hl2 & Hs2 & _ & _ & Hc2 & Hsb2 & Hr2). split; [done|]. split; [|done].
    split; [done|lia| |].
    + rewrite Hc2, Hcand. unfold zlen. rewrite Hitems. cbn [length]. lia.
    + intros Hne. destruct (Hsort Hne) as [Hsb Hall]. split.
      * rewrite Hsb2, Hsb, (sizes_Permutation _ _ Hitems), sizes_cons by done. lia.
      * rewrite Hitems. constructor; [by apply Hx|done].
Qed.

(** What a step of a scan does, given the candidates collected before. *)
Definition hits (found : list (document * Z)) : list queryCandidate :=
  flat_map (fun dp => if Match q dp.1 then [mk_candidate dp.1 dp.2] else []) found.

Lemma spend_budget_for c b n : budget_for q c b -> n <= steps_left b -> budget_for q c (spend n b).
Proof. intros [H1 H2 H3 H4] Hn. split; [done| |done|done]. rewrite steps_left_spend. lia. Qed.

Lemma examine_spec d p : retainable d ->
  exists n, 0 <= n /\ forall b c cs, budget_for q c b -> collected q cs c -> sortable q (cs ++ hits [(d, p)]) ->
    match examine q d (Some p) b c with
    | Ok (b', c', retained) => retained = Match q d /\ collected q (cs ++ hits [(d, p)]) c' /\ budget_for q c' b' /\
        (forall k, 0 <= k -> room (k + n) b -> room k b')
    | Err e => e = ErrQueryBudget /\ ~ room n b
    end.
Proof.
  intros Hd. destruct (match_document_costs q d Hq) as (m & Hm & Hmatch). pose proof (size_nonneg d) as Hsz.
  exists (2 + m + size_of d). split; [lia|]. intros b c cs Hb Hc Hs. unfold examine, charge, charge_document.
  destruct (Z.leb_spec (MaxQueryDocumentsExamined (b_limits b)) (b_documents b)); cbn [rbind].
  { split; [done|]. intros (H1 & _). lia. }
  set (b1 := mk_budget _ _ _ _ _ _ _ _ _ _). assert (Hb1 : budget_for q c b1) by (destruct Hb; by split).
  assert (Hst : steps_left b1 = steps_left b) by done.
  rewrite Hmatch by apply Hb1. destruct (Z.leb_spec m (steps_left b1)) as [Hle|Hgt]; cbn [rbind].
  2: { split; [done|]. intros (_ & _ & _ & _ & H5). lia. }
  pose proof (spend_budget_for c b1 m Hb1 Hle) as Hb2.
  assert (Hroom2 : forall k, 0 <= k -> room (k + 1 + m) b -> room k (spend m b1)).
  { intros k Hk. unfold room. rewrite steps_left_spend, Hst. cbn. lia. }
  unfold hits in *. cbn [flat_map fst snd app] in *. destruct (Match q d) eqn:Em; cbn [negb].
  2: { rewrite app_nil_r in *. split; [done|]. split; [done|]. split; [done|]. intros k Hk Hr. apply Hroom2; [done|].
       destruct Hr as (H1 & H2 & H3 & H4 & H5). unfold room. lia. }
  assert (Hcq : c_query c = q) by apply Hc.
  pose proof (retain_spec c (spend m b1) (mk_candidate d p) Hb2 Hcq Hd) as Hret. cbn [qc_document] in Hret.
  destruct (retainQueryCandidate (mk_candidate d p) c (spend m b1)) as [[c' b'] [e|]].
  - destruct Hret as [-> Hn]. split; [done|]. intros Hr. apply Hn, Hroom2; [lia|].
    destruct Hr as (H1 & H2 & H3 & H4 & H5). unfold room. lia.
  - destruct Hret as (-> & Hb' & _ & Hr'). split; [done|]. split; [by apply collected_Add|]. split; [done|].
    intros k Hk Hr. apply Hr'; [done|]. apply Hroom2; [lia|]. destruct Hr as (H1 & H2 & H3 & H4 & H5). unfold room. lia.
Qed.

Lemma sortable_take cs cs' : sortable q (cs ++ cs') -> sortable q cs.
Proof.
  intros H. apply (sortable_sub q (cs ++ cs')); [done| |intros a Ha; apply elem_of_app; by left].
  pose proof (so_positions _ _ H) as Hnd. rewrite fmap_app in Hnd. by apply NoDup_app in Hnd as [? _].
Qed.

Lemma hits_cons dp found : hits (dp :: found) = hits [dp] ++ hits found.
Proof. unfold hits. cbn [flat_map]. by rewrite app_nil_r. Qed.

Lemma scan_loop_spec {A} stop (find : A -> option (document * Z)) items :
  Forall (fun dp => retainable dp.1) (omap find items) ->
  exists n, 0 <= n /\ forall b c cs, budget_for q c b -> collected q cs c -> sortable q (cs ++ hits (omap find items)) ->
    match scan_loop q stop find items b c with
    | Ok (_, c', stopped) => exists pre post, hits (omap find items) = pre ++ post /\ collected q (cs ++ pre) c' /\
        if stopped : bool then stop c' = true else post = []
    | Err e => e = ErrQueryBudget /\ ~ room n b
    end.
Proof.
  induction items as [|item items IH]; intros Hr; cbn [scan_loop].
  { exists 0. split; [done|]. intros b c cs Hb Hc Hs. exists [], []. split; [done|]. by rewrite app_nil_r. }
  change (omap find (item :: items)) with (match find item with Some y => y :: omap find items | None => omap find items end) in Hr |- *.
  destruct (find item) as [[d p]|]; [|by apply IH].
  apply Forall_cons in Hr as [Hd Hr]. destruct (IH Hr) as (n & Hn & Hloop), (examine_spec d p Hd) as (m & Hm & Hex).
  exists (n + m). split; [lia|]. intros b c cs Hb Hc Hs. rewrite (hits_cons (d, p) (omap find items)) in Hs |- *.
  assert (Hs1 : sortable q (cs ++ hits [(d, p)])) by (rewrite app_assoc in Hs; by apply sortable_take in Hs).
  specialize (Hex b c cs Hb Hc Hs1). destruct (examine q d (Some p) b c) as [[[b1 c1] retained]|e]; cbn [rbind].
  2: { destruct Hex as [-> Hnr]. split; [done|]. intros (H1 & H2 & H3 & H4 & H5). apply Hnr. unfold room. lia. }
  destruct Hex as (-> & Hc1 & Hb1 & Hroom). destruct (Match q d && stop c1) eqn:Est.
  { apply andb_true_iff in Est as [_ Est]. exists (hits [(d, p)]), (hits (omap find items)). done. }
  rewrite app_assoc in Hs. specialize (Hloop b1 c1 (cs ++ hits [(d, p)]) Hb1 Hc1 Hs).
  destruct (scan_loop q stop find items b1 c1) as [[[b2 c2] stopped]|e].
  - destruct Hloop as (pre & post & E & Hc2 & Hst). exists (hits [(d, p)] ++ pre), post. rewrite E, !app_assoc. done.
  - destruct Hloop as [-> Hnr]. split; [done|]. intros Hr'. by apply Hnr, Hroom.
Qed.

(** The distinct identifiers among the candidates. *)
Fixpoint distinct_raws (rawIDs : list memoryAccessCandidate) (seen : list bytes) : list bytes :=
  match rawIDs with
  | [] => []
  | raw :: rawIDs =>
      if negb (zlen (mc_raw raw) =? 16) || existsb (beqb (mc_raw raw)) seen then distinct_raws rawIDs seen
      else mc_raw raw :: distinct_raws rawIDs (mc_raw raw :: seen)
  end.

Context (data : collectionData) (Hdata : collection_ok data).

Lemma position_of id d : field (cd_documents data) id = Some d ->
  exists i, cd_order data !! i = Some id /\ field (cd_positions data) id = Some (Z.of_nat i).
Proof.
  intros Hf. assert (Hin : id ∈ cd_order data) by (apply (ok_documents _ Hdata); congruence).
  apply list_elem_of_lookup in Hin as (i & Hi). exists i. split; [done|]. apply (ok_positions _ Hdata). by exists i.
Qed.

Lemma stored_at_Some id d : field (cd_documents data) id = Some d ->
  exists p, stored_at data id = Some (d, p) /\ collectionDocumentPosition data id = Some p.
Proof.
  intros Hf. destruct (position_of id d Hf) as (i & _ & Hp). exists (Z.of_nat i). unfold stored_at, collectionDocumentPosition. by rewrite Hf, Hp.
Qed.

Lemma charge_key_room c b : budget_for q c b ->
  match charge charge_key b with
  | Ok b' => budget_for q c b' /\ forall k, 0 <= k -> room (k + 1) b -> room k b'
  | Err e => e = ErrQueryBudget /\ ~ room 1 b
  end.
Proof.
  intros [H1 H2 H3 H4]. unfold charge, charge_key. destruct (Z.leb_spec (MaxQueryKeysExamined (b_limits b)) (b_keys b)).
  - split; [done|]. intros (_ & H' & _). lia.
  - split; [by split|]. unfold room, steps_left. cbn. lia.
Qed.

Lemma omap_cons {A B} (f : A -> option B) x l :
  omap f (x :: l) = match f x with Some y => y :: omap f l | None => omap f l end.
Proof. done. Qed.

Lemma index_loop_spec rawIDs seen :
  Forall (fun dp => retainable dp.1) (omap (stored_at data) (distinct_raws rawIDs seen)) ->
  exists n, 0 <= n /\ forall b c cs, budget_for q c b -> collected q cs c ->
    sortable q (cs ++ hits (omap (stored_at data) (distinct_raws rawIDs seen))) ->
    match index_loop data q rawIDs seen b c with
    | Ok (_, c') => collected q (cs ++ hits (omap (stored_at data) (distinct_raws rawIDs seen))) c'
    | Err e => e = ErrQueryBudget /\ ~ room n b
    end.
Proof.
  revert seen; induction rawIDs as [|raw rawIDs IH]; intros seen Hr; cbn [index_loop distinct_raws] in *.
  { exists 0. split; [done|]. intros b c cs Hb Hc Hs. by rewrite app_nil_r. }
  assert (Hskip : forall seen',
    Forall (fun dp => retainable dp.1) (omap (stored_at data) (distinct_raws rawIDs seen')) ->
    exists n, 0 <= n /\ forall b c cs, budget_for q c b -> collected q cs c ->
      sortable q (cs ++ hits (omap (stored_at data) (distinct_raws rawIDs seen'))) ->
      match (let* b := charge charge_key b in index_loop data q rawIDs seen' b c) with
      | Ok (_, c') => collected q (cs ++ hits (omap (stored_at data) (distinct_raws rawIDs seen'))) c'
      | Err e => e = ErrQueryBudget /\ ~ room n b
      end).
  { intros seen' Hr'. destruct (IH seen' Hr') as (n & Hn & H). exists (n + 1). split; [lia|]. intros b c cs Hb Hc Hs.
    pose proof (charge_key_room c b Hb) as Hk. destruct (charge charge_key b) as [b1|e]; cbn [rbind].
    - destruct Hk as [Hb1 Hroom]. specialize (H b1 c cs Hb1 Hc Hs). destruct (index_loop _ _ _ _ _ _) as [[b2 c2]|e]; [done|].
      destruct H as [-> Hnr]. split; [done|]. intros Hr2. by apply Hnr, Hroom.
    - destruct Hk as [-> Hnr]. split; [done|]. intros (H1 & H2 & H3 & H4 & H5). apply Hnr. unfold room. lia. }
  destruct (negb (zlen (mc_raw raw) =? 16)); cbn [orb] in *; [by apply Hskip|].
  destruct (existsb (beqb (mc_raw raw)) seen); [by apply Hskip|].
  rewrite omap_cons in *. destruct (field (cd_documents data) (mc_raw raw)) as [d|] eqn:Ef.
  2: { assert (E : stored_at data (mc_raw raw) = None) by (unfold stored_at; by rewrite Ef). rewrite E in *. by apply Hskip. }
  destruct (stored_at_Some _ _ Ef) as (p & Hst & Hpos). rewrite Hst in *. rewrite Hpos.
  apply Forall_cons in Hr as [Hd Hr]. cbn [fst] in Hd.
  destruct (IH _ Hr) as (n & Hn & H), (examine_spec d p Hd) as (m & Hm & Hex). exists (n + m + 1). split; [lia|].
  intros b c cs Hb Hc Hs. set (rest := omap (stored_at data) (distinct_raws rawIDs (mc_raw raw :: seen))) in *.
  rewrite (hits_cons (d, p) rest) in Hs |- *. rewrite app_assoc in Hs |- *.
  pose proof (charge_key_room c b Hb) as Hk. destruct (charge charge_key b) as [b1|e]; cbn [rbind].
  2: { destruct Hk as [-> Hnr]. split; [done|]. intros (H1 & H2 & H3 & H4 & H5). apply Hnr. unfold room. lia. }
  destruct Hk as [Hb1 Hroom1]. specialize (Hex b1 c cs Hb1 Hc (sortable_take _ _ Hs)).
  destruct (examine q d (Some p) b1 c) as [[[b2 c2] retained]|e]; cbn [rbind].
  2: { destruct Hex as [-> Hnr]. split; [done|]. intros Hr'. apply Hnr, Hroom1; [lia|].
       destruct Hr' as (H1 & H2 & H3 & H4 & H5). unfold room. lia. }
  destruct Hex as (_ & Hc2 & Hb2 & Hroom2). specialize (H b2 c2 _ Hb2 Hc2 Hs).
  destruct (index_loop _ _ _ _ _ _) as [[b3 c3]|e]; [done|]. destruct H as [-> Hnr]. split; [done|]. intros Hr'.
  apply Hnr, Hroom2; [done|]. apply Hroom1; [lia|]. destruct Hr' as (H1 & H2 & H3 & H4 & H5). unfold room. lia.
Qed.

(** What [position_candidates] finds while the budget lasts. *)
Fixpoint positioned_ids (rawIDs : list memoryAccessCandidate) (seen : list bytes) : list positionedID :=
  match rawIDs with
  | [] => []
  | raw :: rawIDs =>
      let id := mc_raw raw in
      if negb (zlen id =? 16) || existsb (beqb id) seen then positioned_ids rawIDs seen
      else
        match field (cd_documents data) id, collectionDocumentPosition data id with
        | Some _, Some position => mk_positioned id position (mc_source raw) :: positioned_ids rawIDs (id :: seen)
        | _, _ => positioned_ids rawIDs (id :: seen)
        end
  end.

Lemma positioned_found rawIDs seen :
  omap (positioned_document data) (positioned_ids rawIDs seen) = omap (stored_at data) (distinct_raws rawIDs seen).
Proof.
  revert seen; induction rawIDs as [|raw rawIDs IH]; intros seen; cbn [positioned_ids distinct_raws]; [done|].
  destruct (_ || _); [done|]. rewrite omap_cons. destruct (field (cd_documents data) (mc_raw raw)) as [d|] eqn:Ef.
  - destruct (stored_at_Some _ _ Ef) as (p & Hst & Hpos). rewrite Hst, Hpos, omap_cons, IH.
    unfold positioned_document. cbn [po_id po_position]. by rewrite Ef.
  - assert (E : stored_at data (mc_raw raw) = None) by (unfold stored_at; by rewrite Ef). by rewrite E.
Qed.

Lemma position_candidates_spec c rawIDs seen :
  exists n, 0 <= n /\ forall b, budget_for q c b ->
    match position_candidates data rawIDs seen b with
    | Ok (ps, b') => ps = positioned_ids rawIDs seen /\ budget_for q c b' /\ forall k, 0 <= k -> room (k + n) b -> room k b'
    | Err e => e = ErrQueryBudget /\ ~ room n b
    end.
Proof.
  revert seen; induction rawIDs as [|raw rawIDs IH]; intros seen; cbn [position_candidates positioned_ids].
  { exists 0. split; [done|]. intros b Hb. split; [done|]. split; [done|]. intros k _. by rewrite Z.add_0_r. }
  assert (Hskip : forall seen' (f : list positionedID -> list positionedID) run,
    (forall b, run b = let* b := charge charge_key b in let* (ps, b) := position_candidates data rawIDs seen' b in Ok (f ps, b)) ->
    exists n, 0 <= n /\ forall b, budget_for q c b ->
    match run b with
    | Ok (ps, b') => ps = f (positioned_ids rawIDs seen') /\ budget_for q c b' /\ forall k, 0 <= k -> room (k + n) b -> room k b'
    | Err e => e = ErrQueryBudget /\ ~ room n b
    end).
  { intros seen' f run Hrun. destruct (IH seen') as (n & Hn & H). exists (n + 1). split; [lia|]. intros b Hb. rewrite Hrun.
    pose proof (charge_key_room c b Hb) as Hk. destruct (charge charge_key b) as [b1|e]; cbn [rbind].
    - destruct Hk as [Hb1 Hroom]. specialize (H b1 Hb1). destruct (position_candidates _ _ _ _) as [[ps b2]|e]; cbn [rbind].
      + destruct H as (-> & Hb2 & Hroom2). split; [done|]. split; [done|]. intros k Hk Hr. apply Hroom2; [done|].
        apply Hroom; [lia|]. by replace (k + n + 1) with (k + (n + 1)) by lia.
      + destruct H as [-> Hnr]. split; [done|]. intros Hr. by apply Hnr, Hroom.
    - destruct Hk as [-> Hnr]. split; [done|]. intros (H1 & H2 & H3 & H4 & H5). apply Hnr. unfold room. lia. }
  assert (Hid : forall (m : result (list positionedID * queryBudget)), m = let* (ps, b) := m in Ok (id ps, b)) by (by intros [[]|]).
  destruct (negb (zlen (mc_raw raw) =? 16)); cbn [orb].
  { apply (Hskip seen id). intros b. destruct (charge charge_key b); cbn [rbind]; [apply Hid|done]. }
  destruct (existsb (beqb (mc_raw raw)) seen).
  { apply (Hskip seen id). intros b. destruct (charge charge_key b); cbn [rbind]; [apply Hid|done]. }
  destruct (field (cd_documents data) (mc_raw raw)) as [d|].
  - destruct (collectionDocumentPosition data (mc_raw raw)) as [p|].
    + apply (Hskip (mc_raw raw :: seen) (cons (mk_positioned (mc_raw raw) p (mc_source raw)))). done.
    + apply (Hskip (mc_raw raw :: seen) id). intros b. destruct (charge charge_key b); cbn [rbind]; [apply Hid|done].
  - apply (Hskip (mc_raw raw :: seen) id). intros b. destruct (charge charge_key b); cbn [rbind]; [apply Hid|done].
Qed.
End Scans.

(** ** Candidates and matches *)

Lemma sorted_weaken {A} (R R' : A -> A -> Prop) l : (forall a b, R a b -> R' a b) -> StronglySorted R l -> StronglySorted R' l.
Proof. intros H. induction 1 as [|a l Hl IH Ha]; constructor; [done|]. eapply Forall_impl; [exact Ha|]. intros b. apply H. Qed.

Section Candidates.
Context (q : QuerySpec) (data : collectionData) (Hdata : collection_ok data).

Definition all_matches : list queryCandidate := matching_from q (contents data).*2 0.

Lemma stored_order k id : cd_order data !! k = Some id ->
  exists d, field (cd_documents data) id = Some d /\ stored_at data id = Some (d, Z.of_nat k).
Proof.
  intros Hk. destruct (field (cd_documents data) id) as [d|] eqn:E.
  - exists d. split; [done|]. unfold stored_at. rewrite E.
    assert (Hp : field (cd_positions data) id = Some (Z.of_nat k)) by (apply (ok_positions _ Hdata); by exists k). by rewrite Hp.
  - assert (Hin : id ∈ cd_order data) by (by eapply list_elem_of_lookup_2). apply (ok_documents _ Hdata) in Hin. done.
Qed.

Lemma matching_hits : hits q (omap (stored_at data) (cd_order data)) = all_matches.
Proof.
  unfold all_matches, contents. pose proof stored_order as Hs. revert Hs. generalize (cd_order data) as order.
  assert (Hgen : forall order i, (forall k id, order !! k = Some id ->
      exists d, field (cd_documents data) id = Some d /\ stored_at data id = Some (d, i + Z.of_nat k)) ->
    hits q (omap (stored_at data) order) = matching_from q (documents_of (cd_documents data) order).*2 i).
  { intros order. induction order as [|id order IH]; intros i H; [done|]. destruct (H 0%nat id eq_refl) as (d & Hf & Hst).
    rewrite omap_cons, Hst, hits_cons. replace (i + Z.of_nat 0) with i by lia.
    assert (E : documents_of (cd_documents data) (id :: order) = (id, d) :: documents_of (cd_documents data) order).
    { unfold documents_of. cbn [flat_map]. by rewrite Hf. }
    rewrite E, fmap_cons. cbn [matching_from snd]. rewrite (IH (i + 1)).
    - unfold hits at 1. cbn [flat_map fst snd]. by destruct (Match q d).
    - intros k id' Hk. destruct (H (S k) id' Hk) as (d' & Hf' & Hst'). exists d'. split; [done|]. rewrite Hst'. do 2 f_equal. lia. }
  intros order H. apply Hgen. intros k id Hk. destruct (H k id Hk) as (d & Hf & Hst). exists d. done.
Qed.

Lemma elem_of_hits ids c : c ∈ hits q (omap (stored_at data) ids) <->
  exists id p, id ∈ ids /\ stored_at data id = Some (qc_document c, p) /\ qc_position c = p /\ Match q (qc_document c) = true.
Proof.
  unfold hits. rewrite list_elem_of_In, in_flat_map. split.
  - intros ([d p] & Hin & Hc). apply list_elem_of_In, list_elem_of_omap in Hin as (id & Hid & Hst). cbn [fst snd] in Hc.
    destruct (Match q d) eqn:Em; [|done]. destruct Hc as [<-|[]]. by exists id, p.
  - intros (id & p & Hid & Hst & Hp & Hm). exists (qc_document c, p). split.
    + apply list_elem_of_In, list_elem_of_omap. by exists id.
    + cbn [fst snd]. rewrite Hm. left. destruct c. cbn in *. by subst.
Qed.

Lemma stored_position id d p : stored_at data id = Some (d, p) -> exists k, p = Z.of_nat k /\ cd_order data !! k = Some id.
Proof.
  unfold stored_at. destruct (field (cd_documents data) id) as [d'|] eqn:E; [|done]. intros [= <- <-].
  destruct (position_of data Hdata id d' E) as (i & Hi & ->). by exists i.
Qed.

Lemma NoDup_hits ids : NoDup ids -> NoDup (qc_position <$> hits q (omap (stored_at data) ids)).
Proof.
  induction 1 as [|id ids Hid Hnd IH]; [constructor|]. rewrite omap_cons. destruct (stored_at data id) as [[d p]|] eqn:Est; [|done].
  rewrite hits_cons. unfold hits at 1. cbn [flat_map fst snd]. destruct (Match q d); [|done]. cbn [app]. rewrite fmap_cons.
  apply NoDup_cons. split; [|done]. cbn. intros (c & Hp & Hc)%list_elem_of_fmap. apply elem_of_hits in Hc as (id' & p' & Hid' & Hst' & Hp' & _).
  destruct (stored_position _ _ _ Est) as (k & -> & Hk), (stored_position _ _ _ Hst') as (k' & -> & Hk').
  assert (k = k') as <- by lia. congruence.
Qed.

Lemma covered_hits ids : NoDup ids -> (forall id d, (id, d) ∈ contents data -> Match q d = true -> id ∈ ids) ->
  Permutation (hits q (omap (stored_at data) ids)) all_matches.
Proof.
  intros Hnd Hcov. rewrite <- matching_hits. apply NoDup_Permutation.
  - by apply (NoDup_fmap_1 qc_position), NoDup_hits.
  - apply (NoDup_fmap_1 qc_position), NoDup_hits, Hdata.
  - intros c. rewrite !elem_of_hits. split.
    + intros (id & p & Hid & Hst & Hp & Hm). exists id, p. split; [|done]. destruct (stored_position _ _ _ Hst) as (k & _ & Hk).
      by eapply list_elem_of_lookup_2.
    + intros (id & p & Hid & Hst & Hp & Hm). exists id, p. split; [|done]. apply (Hcov id (qc_document c)); [|done].
      apply (field_contents data id _ Hdata). unfold stored_at in Hst. destruct (field _ id); [|done]. by injection Hst as ->.
Qed.

(** ** Stopping at the window *)

Definition by_position (l : list queryCandidate) : Prop := StronglySorted (fun a b => qc_position a <= qc_position b) l.

Lemma matching_by_position documents i : 0 <= i -> by_position (matching_from q documents i).
Proof.
  unfold by_position. revert i; induction documents as [|d documents IH]; intros i Hi; cbn [matching_from]; [constructor|].
  destruct (Match q d); [|apply IH; lia]. constructor; [apply IH; lia|]. apply Forall_forall. intros c Hc.
  apply elem_of_matching in Hc as [Hc _]; [|lia]. cbn. lia.
Qed.

Lemma ranked_by_position l : sortable q l -> q_sort q = [] -> by_position l -> ranked q l = l.
Proof.
  intros Hs Hsort Ho. apply (sort_stable_sorted _ _ (candidate_before_total q l Hs)); [apply all_in|].
  apply (in_order_ext position_before); [intros a b; by apply position_before_candidates|].
  eapply sorted_weaken; [|exact Ho]. intros a b Hab. unfold position_before. by apply Z.ltb_ge.
Qed.

Lemma window_retained : 0 <= accessPlanWindow q -> c_maxRetained (newQueryCandidateCollector q) = accessPlanWindow q.
Proof.
  unfold accessPlanWindow, newQueryCandidateCollector. destruct (q_limit q); [|done]. by destruct (_ <? _).
Qed.

(** A collector that holds the window has the page, whatever comes later. *)
Lemma stopped_page pre post c :
  sortable q (pre ++ post) -> paging_ok q -> zlen (pre ++ post) + default 0 (q_limit q) <= maxInt -> q_sort q = [] ->
  by_position (pre ++ post) -> collected q pre c -> 0 <= accessPlanWindow q <= zlen (c_items c) ->
  Collector_Documents c = Ok (qc_document <$> page q (ranked q (pre ++ post))).
Proof.
  intros Hs Hp Hmax Hsort Ho Hc [H0 Hw]. assert (Hs1 := sortable_take q pre post Hs).
  assert (Ho1 : by_position pre) by (by eapply StronglySorted_app_1_l).
  rewrite (collected_page q pre c Hs1 Hp); [|rewrite zlen_app in Hmax; pose proof (zlen_nonneg post); lia|done].
  rewrite !ranked_by_position by done. do 2 f_equal.
  pose proof (window_retained H0) as Hm.
  rewrite <- (page_of_best q (pre ++ post) _ Hp Hm H0), <- (page_of_best q pre _ Hp Hm H0). f_equal.
  rewrite take_app_le; [done|]. destruct Hc as (_ & Hmc & Hc). rewrite Hmc, Hm in Hc.
  destruct (Z.ltb_spec (accessPlanWindow q) 0); [lia|]. destruct Hc as [Hperm _].
  unfold zlen in Hw. rewrite Hperm, length_take, ranked_by_position in Hw by done. lia.
Qed.
End Candidates.

(** ** Reading what a plan names *)

Lemma distinct_raws_seen rawIDs seen id : id ∈ distinct_raws rawIDs seen -> id ∉ seen.
Proof.
  revert seen; induction rawIDs as [|raw rawIDs IH]; intros seen; cbn [distinct_raws]; [by intros ?%not_elem_of_nil|].
  destruct (negb _ || existsb _ seen) eqn:E; [apply IH|]. apply orb_false_iff in E as [_ E].
  intros [->|Hin]%elem_of_cons; [|intros Hs; apply (IH _ Hin); by right].
  intros Hs. assert (existsb (beqb (mc_raw raw)) seen = true); [|congruence]. apply existsb_exists. exists (mc_raw raw).
  split; [by apply list_elem_of_In|apply beqb_refl].
Qed.

Lemma NoDup_distinct_raws rawIDs seen : NoDup (distinct_raws rawIDs seen).
Proof.
  revert seen; induction rawIDs as [|raw rawIDs IH]; intros seen; cbn [distinct_raws]; [constructor|].
  destruct (_ || _); [apply IH|]. apply NoDup_cons. split; [|apply IH]. intros Hin%distinct_raws_seen. apply Hin. left.
Qed.

Lemma elem_of_distinct_raws rawIDs seen id : zlen id = 16 -> id ∈ mc_raw <$> rawIDs -> (id ∉ seen) -> id ∈ distinct_raws rawIDs seen.
Proof.
  intros Hw. revert seen; induction rawIDs as [|raw rawIDs IH]; intros seen; cbn [distinct_raws]; [by intros ?%not_elem_of_nil|].
  rewrite fmap_cons. intros [->|Hin]%elem_of_cons Hs.
  - rewrite Hw. cbn [Z.eqb Pos.eqb negb orb]. destruct (existsb (beqb (mc_raw raw)) seen) eqn:E; [|left].
    apply existsb_exists in E as (x & Hx & E). apply beqb_eq in E as <-. by apply list_elem_of_In in Hx.
  - destruct (_ || _); [by apply IH|]. destruct (decide (id = mc_raw raw)) as [->|Hne]; [left|right]. apply IH; [done|].
    rewrite not_elem_of_cons. done.
Qed.

Lemma equal_clone definition : equalIndexDefinitions definition (cloneIndexDefinition definition) = true.
Proof.
  unfold equalIndexDefinitions. rewrite clone_fields, clone_name, beqb_refl. rewrite clone_eq.
  assert (H : forall fields, fields_equal fields fields = true).
  { induction fields as [|f fields IH]; [done|]. cbn [fields_equal]. unfold field_eqb. by rewrite beqb_refl, Z.eqb_refl. }
  destruct (indexDefinitionFields definition); cbn [def_Unique]; by rewrite eqb_reflx, H.
Qed.

Lemma in_span_range key s : sp_exact s = false -> in_span key s -> in_range (sp_start s) (sp_end s) false key = true.
Proof.
  unfold in_span, in_range. intros ->. intros [H1 H2]. apply andb_true_iff. split.
  - apply negb_true_iff. unfold bltb. rewrite bcompare_antisym. by destruct (bcompare (sp_start s) key).
  - destruct H2 as [->|H2]; [done|]. apply bltb_lt in H2. rewrite H2. by rewrite orb_true_r.
Qed.

Lemma span_candidates_spec t R i spans : indexed t R ->
  exists raws, span_candidates t i spans = Ok raws /\ forall key v, R key v -> Exists (in_span key) spans -> v ∈ mc_raw <$> raws.
Proof.
  intros Ht. induction spans as [|span spans (rest & Hrest & Hin)]; cbn [span_candidates].
  { exists []. split; [done|]. intros key v _ H. by apply Exists_nil in H. }
  assert (Hfound : exists found, (if sp_exact span then tree_get t (sp_start span)
      else let* pairs := of_option ErrPanic (Scan t (sp_start span) (sp_end span) false) in Ok (Pair_Value <$> pairs)) = Ok found /\
      forall key v, R key v -> in_span key span -> v ∈ found).
  { destruct (sp_exact span) eqn:Ee.
    - destruct (indexed_get t R (sp_start span) Ht) as (vs & -> & Hvs). exists vs. split; [done|]. intros key v HR Hs.
      apply Hvs. unfold in_span in Hs. rewrite Ee in Hs. by subst key.
    - destruct (indexed_scan t R (sp_start span) (sp_end span) Ht) as (pairs & -> & Hp). exists (Pair_Value <$> pairs). split; [done|].
      intros key v HR Hs. apply list_elem_of_fmap. exists (mk_pair key v). split; [done|]. apply Hp. split; [done|]. by apply in_span_range. }
  destruct Hfound as (found & -> & Hf). cbn [rbind]. rewrite Hrest. cbn [rbind]. eexists. split; [done|].
  intros key v HR [H|H]%Exists_cons; rewrite fmap_app; apply elem_of_app.
  - left. apply list_elem_of_fmap. exists (mk_raw v i). split; [done|]. apply list_elem_of_fmap. exists v. split; [done|]. by apply (Hf key).
  - right. by apply (Hin key).
Qed.

Section Queries.
Context (q : QuerySpec) (data : collectionData) (Hdata : collection_ok data).

Lemma planned_index definition : definition ∈ planned_definitions (collection_definitions data) ->
  exists st t, field (cd_indexes data) (def_Name definition) = Some st /\ is_tree st = Some t /\
    equalIndexDefinitions (is_definition st) definition = true /\
    indexed t (fun key id => exists d, (id, d) ∈ contents data /\ indexDocumentKey definition d = Ok (Some key)).
Proof.
  intros (x & Hx & ->)%elem_of_cloned. unfold collection_definitions in Hx. apply list_elem_of_fmap in Hx as ([name st] & -> & Hin). cbn [snd].
  pose proof (ok_own_names _ Hdata) as Hown. rewrite Forall_forall in Hown. pose proof (Hown _ Hin) as Hn. cbn in Hn.
  pose proof (ok_trees _ Hdata) as Ht. unfold trees_hold in Ht. rewrite Forall_forall in Ht. destruct (Ht _ Hin) as (t & Htree & Hi). cbn in Htree, Hi.
  exists st, t. rewrite clone_name, Hn. split; [by apply field_NoDup; [apply Hdata|]|]. split; [done|]. split; [apply equal_clone|].
  eapply indexed_iff; [|exact Hi]. intros key id. unfold index_pairs. by setoid_rewrite clone_key.
Qed.

Lemma gather_spec sources i : Forall (source_ok (planned_definitions (collection_definitions data))) sources ->
  exists raws, gather_candidates data sources i = Ok raws /\
    forall id d, (id, d) ∈ contents data -> Exists (source_covers d) sources -> id ∈ mc_raw <$> raws.
Proof.
  intros Hs. revert i. induction Hs as [|source sources [Hdef _] Hs IH]; intros i; cbn [gather_candidates].
  { exists []. split; [done|]. intros id d _ H. by apply Exists_nil in H. }
  destruct (IH (i + 1)) as (rest & Hrest & Hin).
  assert (Hfound : exists found, (if ps_primary source then Ok ((fun id => mk_raw id i) <$> ps_ids source)
      else match field (cd_indexes data) (def_Name (ps_definition source)) with
           | None => Err ErrCorrupt
           | Some state => match is_tree state with
               | None => Err ErrCorrupt
               | Some t => if negb (equalIndexDefinitions (is_definition state) (ps_definition source)) then Err ErrCorrupt
                           else span_candidates t i (ps_spans source)
               end
           end) = Ok found /\
      forall id d, (id, d) ∈ contents data -> source_covers d source -> id ∈ mc_raw <$> found).
  { unfold source_covers. destruct (ps_primary source) eqn:Ep.
    - eexists. split; [done|]. intros id d Hd (id' & Hid & Hi). rewrite <- list_fmap_compose.
      pose proof (ok_ids _ Hdata) as Hids. rewrite Forall_forall in Hids. destruct (Hids _ Hd) as [Hid' _]. cbn in Hid'.
      apply list_elem_of_fmap. exists id. split; [done|]. congruence.
    - destruct Hdef as [|Hdef]; [congruence|]. destruct (planned_index _ Hdef) as (st & t & -> & -> & -> & Ht). cbn [negb].
      destruct (span_candidates_spec t _ i (ps_spans source) Ht) as (raws & -> & Hraws). exists raws. split; [done|].
      intros id d Hd (key & Hk & Hsp). apply (Hraws key); [by exists d|done]. }
  destruct Hfound as (found & -> & Hf). cbn [rbind]. rewrite Hrest. cbn [rbind]. eexists. split; [done|].
  intros id d Hd [H|H]%Exists_cons; rewrite fmap_app; apply elem_of_app; [left; by apply (Hf id d)|right; by apply (Hin id d)].
Qed.

Lemma positioned_sorted ps : StronglySorted (fun a b => po_position a <= po_position b) (sort_stable positioned_before ps).
Proof.
  set (c := compare_lex (compare_on po_position Z.compare) (compare_on po_id bcompare)).
  assert (Hless : forall a b, positioned_before a b = is_lt (c a b)).
  { intros a b. unfold positioned_before, c, compare_lex, compare_on, bltb. rewrite Z.eqb_compare, Z.ltb_compare.
    by destruct (po_position a ?= po_position b); cbn [negb]. }
  assert (HL : Lawful c) by (unfold c; apply _).
  eapply sorted_weaken; [|exact (sort_stable_not_above c positioned_before Hless ps)].
  intros a b. unfold not_above, c, compare_lex, compare_on. destruct (Z.compare_spec (po_position a) (po_position b)); [lia..|done].
Qed.

Lemma hits_positioned ps : StronglySorted (fun a b => po_position a <= po_position b) ps ->
  by_position (hits q (omap (positioned_document data) ps)).
Proof.
  unfold by_position. induction 1 as [|a ps Hps IH Ha]; [constructor|]. rewrite omap_cons.
  unfold positioned_document at 1. destruct (field (cd_documents data) (po_id a)) as [d|]; cbn; [|done].
  destruct (Match q d); [|done]. cbn [app]. constructor; [done|]. apply Forall_forall. intros c Hc. cbn.
  unfold hits in Hc. apply list_elem_of_In, in_flat_map in Hc as ([d' p] & Hin & Hc).
  apply list_elem_of_In, list_elem_of_omap in Hin as (x & Hx & Hd). unfold positioned_document in Hd.
  destruct (field (cd_documents data) (po_id x)); [|done]. injection Hd as _ <-. cbn in Hc. destruct (Match q d'); [|done].
  destruct Hc as [<-|[]]. cbn. rewrite Forall_forall in Ha. by apply Ha.
Qed.

(** ** Executions *)

Context (Hq : expr_ok (q_where q) = true) (Hpage : paging_ok q) (Hs : sortable q (all_matches q data))
  (Hmax : zlen (contents data) + default 0 (q_limit q) <= maxInt)
  (Hsized : q_sort q <> [] -> Forall (fun m => sized m.2) (contents data)).

(** The page of the matches. *)
Definition answer : list document := qc_document <$> page q (ranked q (all_matches q data)).

Lemma Execute_answer : Execute q (contents data).*2 = Ok answer.
Proof.
  unfold Execute. apply executeMatched_page; [done|done|]. pose proof (zlen_matching q (contents data).*2 0) as H.
  unfold zlen in H, Hmax |- *. rewrite length_fmap in H. lia.
Qed.

Lemma zlen_matches : zlen (all_matches q data) + default 0 (q_limit q) <= maxInt.
Proof.
  pose proof (zlen_matching q (contents data).*2 0) as H. unfold all_matches. unfold zlen in H, Hmax |- *. rewrite length_fmap in H. lia.
Qed.

Lemma zero_answer : q_limit q = Some 0 -> answer = [].
Proof. intros E. unfold answer, page. by rewrite E. Qed.

Lemma limit_case {A} (x y : A) : q_limit q <> Some 0 -> match q_limit q with Some 0 => x | _ => y end = y.
Proof. by destruct (q_limit q) as [[]|]. Qed.

Lemma retainable_stored ids : Forall (fun dp => retainable q dp.1) (omap (stored_at data) ids).
Proof.
  apply Forall_forall. intros [d p] Hin Hne. apply list_elem_of_omap in Hin as (id & _ & Hst). cbn.
  unfold stored_at in Hst. destruct (field (cd_documents data) id) as [d'|] eqn:E; [|done]. injection Hst as <- _.
  apply (field_contents data id d' Hdata) in E. specialize (Hsized Hne). rewrite Forall_forall in Hsized. by apply (Hsized _ E).
Qed.

(** A budget nothing has been charged to. *)
Definition fresh (b : queryBudget) : Prop := budget_for q (newQueryCandidateCollector q) b.

Lemma collected_nothing : collected q [] (newQueryCandidateCollector q).
Proof. apply (collect_collected q []). by apply (sortable_take q [] (all_matches q data)). Qed.

(** The result of an execution: the answer, or a budget that is too small. *)
Definition executes (run : queryBudget -> result (list document)) : Prop :=
  exists n, 0 <= n /\ forall b, fresh b -> match run b with Ok documents => documents = answer | Err e => e = ErrQueryBudget /\ ~ room n b end.

Lemma scan_answer pre post c w (stopped : bool) :
  all_matches q data = pre ++ post -> collected q pre c ->
  (if stopped then q_sort q = [] /\ accessPlanWindow q = w /\ 0 <= w <= zlen (c_items c) else post = []) ->
  Collector_Documents c = Ok answer.
Proof.
  intros E Hc Hst. unfold answer. pose proof zlen_matches as Hz. rewrite E in Hs, Hz |- *. destruct stopped.
  - destruct Hst as (Hsort & <- & Hw). apply (stopped_page q pre post); [done|done|done|done| |done|done].
    rewrite <- E. by apply matching_by_position.
  - subst post. rewrite app_nil_r in *. by apply (collected_page q pre).
Qed.

Lemma executeCollectionScan_correct :
  executes (fun b => let* (documents, _, _) := executeCollectionScan data q b in Ok documents).
Proof.
  destruct (decide (q_limit q = Some 0)) as [E0|E0].
  { exists 0. split; [done|]. intros b _. unfold executeCollectionScan. rewrite E0. cbn. by rewrite zero_answer. }
  set (early := configureCollectionEarlyStop q).
  set (stop := fun c => es_eligible early && (0 <=? accessPlanWindow q) && (accessPlanWindow q <=? zlen (c_items c))).
  destruct (scan_loop_spec q Hq stop (stored_at data) (cd_order data) (retainable_stored _)) as (n & Hn & Hloop).
  exists n. split; [done|]. intros b Hb. unfold executeCollectionScan. rewrite limit_case by done. cbv zeta. fold early. fold stop.
  specialize (Hloop b _ [] Hb collected_nothing). cbn [app] in Hloop. rewrite matching_hits in Hloop by done. specialize (Hloop Hs).
  destruct (scan_loop _ _ _ _ _ _) as [[[b' c'] stopped]|e]; cbn [rbind]; [|done].
  destruct Hloop as (pre & post & E & Hc & Hst).
  rewrite (scan_answer pre post c' (accessPlanWindow q) stopped E Hc); [done|]. destruct stopped; [|done].
  unfold stop in Hst. apply andb_true_iff in Hst as [[He H0%Z.leb_le]%andb_true_iff Hw%Z.leb_le].
  split; [|split; [done|lia]]. unfold early, configureCollectionEarlyStop in He. destruct (q_limit q) as [limit|]; [|done].
  destruct (Z.eqb_spec limit 0) as [->|]; [done|]. destruct (Z.ltb_spec 0 (zlen (q_sort q))); [done|].
  destruct (q_sort q) as [|f l]; [done|]. rewrite zlen_cons in *. pose proof (zlen_nonneg l). lia.
Qed.

Section Covered.
Context (raws : list memoryAccessCandidate)
  (Hcov : forall id d, (id, d) ∈ contents data -> Match q d = true -> id ∈ mc_raw <$> raws).

Lemma covered_raws : Permutation (hits q (omap (stored_at data) (distinct_raws raws []))) (all_matches q data).
Proof.
  apply covered_hits; [done|apply NoDup_distinct_raws|]. intros id d Hd Hm. apply elem_of_distinct_raws; [|by apply (Hcov id d)|apply not_elem_of_nil].
  pose proof (ok_ids _ Hdata) as H. rewrite Forall_forall in H. by apply (H (id, d)).
Qed.

Lemma executeMemoryIndexCandidates_correct :
  executes (fun b => let* (documents, _, _) := executeMemoryIndexCandidates data raws q b in Ok documents).
Proof.
  destruct (index_loop_spec q Hq data Hdata raws [] (retainable_stored _)) as (n & Hn & Hloop).
  exists n. split; [done|]. intros b Hb. unfold executeMemoryIndexCandidates. specialize (Hloop b _ [] Hb collected_nothing). cbn [app] in Hloop.
  pose proof covered_raws as Hp. set (cs := hits q (omap (stored_at data) (distinct_raws raws []))) in *.
  assert (Hcs : sortable q cs) by (by apply (sortable_Permutation q (all_matches q data))). specialize (Hloop Hcs).
  destruct (index_loop _ _ _ _ _ _) as [[b' c']|e]; cbn [rbind]; [|done].
  rewrite (collected_page q cs c' Hcs Hpage); [|pose proof zlen_matches as Hz; unfold zlen in *; by rewrite Hp|done]. cbn [rbind].
  unfold answer. do 2 f_equal. apply (sort_stable_unique _ _ (candidate_before_total q cs Hcs)); [apply all_in|done].
Qed.

Lemma executeMemoryOrderedCandidates_correct : q_sort q = [] -> 0 <= accessPlanWindow q ->
  executes (fun b => let* (documents, _, _) := executeMemoryOrderedCandidates data raws q b in Ok documents).
Proof.
  intros Hsort Hwin.
  destruct (position_candidates_spec q data (newQueryCandidateCollector q) raws []) as (n & Hn & Hpos).
  set (ps := positioned_ids data raws []) in *. set (sorted := sort_stable positioned_before ps).
  assert (Hperm : Permutation (hits q (omap (positioned_document data) sorted)) (all_matches q data)).
  { rewrite <- covered_raws. rewrite <- (positioned_found data Hdata). unfold hits.
    apply Permutation_flat_map. unfold sorted. by rewrite sort_stable_Permutation. }
  assert (Ho : by_position (hits q (omap (positioned_document data) sorted))) by apply hits_positioned, positioned_sorted.
  assert (Hcs : sortable q (hits q (omap (positioned_document data) sorted))) by (by apply (sortable_Permutation q (all_matches q data))).
  assert (Hret : Forall (fun dp => retainable q dp.1) (omap (positioned_document data) sorted)).
  { apply Forall_forall. intros dp Hin. unfold sorted in Hin. rewrite sort_stable_Permutation in Hin.
    unfold ps in Hin. rewrite (positioned_found data Hdata) in Hin. pose proof (retainable_stored (distinct_raws raws [])) as H.
    rewrite Forall_forall in H. by apply H. }
  destruct (scan_loop_spec q Hq (fun c => accessPlanWindow q <=? zlen (c_items c)) (positioned_document data) sorted Hret) as (m & Hm & Hloop).
  exists (m + n). split; [lia|]. intros b Hb. unfold executeMemoryOrderedCandidates. specialize (Hpos b Hb).
  destruct (position_candidates _ _ _ _) as [[ps' b1]|e]; cbn [rbind].
  2: { destruct Hpos as [-> Hnr]. split; [done|]. intros (H1 & H2 & H3 & H4 & H5). apply Hnr. unfold room. lia. }
  destruct Hpos as (-> & Hb1 & Hroom). fold ps. fold sorted. specialize (Hloop b1 _ [] Hb1 collected_nothing Hcs).
  destruct (scan_loop _ _ _ _ _ _) as [[[b2 c2] stopped]|e]; cbn [rbind].
  2: { destruct Hloop as [-> Hnr]. split; [done|]. intros Hr. by apply Hnr, Hroom. }
  destruct Hloop as (pre & post & E & Hc & Hst). cbn [app] in Hc.
  assert (Hrank : ranked q (hits q (omap (positioned_document data) sorted)) = ranked q (all_matches q data)).
  { apply (sort_stable_unique _ _ (candidate_before_total q _ Hcs)); [apply all_in|done]. }
  pose proof zlen_matches as Hz. assert (Hz' : zlen (pre ++ post) + default 0 (q_limit q) <= maxInt).
  { rewrite <- E. unfold zlen in *. by rewrite Hperm. }
  unfold answer. rewrite <- Hrank, E. rewrite E in Hcs, Ho. destruct stopped.
  - apply Z.leb_le in Hst. rewrite (stopped_page q pre post c2); [done..|lia].
  - subst post. rewrite app_nil_r in *. by rewrite (collected_page q pre c2).
Qed.
End Covered.

Lemma definition_names a b : a ∈ collection_definitions data -> b ∈ collection_definitions data -> def_Name a = def_Name b -> a = b.
Proof.
  unfold collection_definitions. intros ([n st] & -> & Hin)%list_elem_of_fmap ([m st'] & -> & Hin')%list_elem_of_fmap. cbn [snd].
  pose proof (ok_own_names _ Hdata) as Hown. rewrite Forall_forall in Hown. pose proof (Hown _ Hin) as H1. pose proof (Hown _ Hin') as H2. cbn in H1, H2.
  rewrite H1, H2. intros ->. pose proof (field_NoDup _ _ _ (ok_names _ Hdata) Hin) as F1. pose proof (field_NoDup _ _ _ (ok_names _ Hdata) Hin') as F2.
  congruence.
Qed.

Context (Hdocs : Forall (fun m => machine_ok (VObject false m.2) /\ comparable m.2 (q_where q)) (contents data)).

Lemma members_indexed m : m ∈ contents data -> indexed_by (collection_definitions data) m.2.
Proof.
  intros Hm. rewrite Forall_forall in Hdocs. split.
  - by apply Hdocs.
  - pose proof (ok_ids _ Hdata) as H. rewrite Forall_forall in H. exists m.1. by apply H.
  - intros definition Hdef. unfold collection_definitions in Hdef. apply list_elem_of_fmap in Hdef as (ns & -> & Hns).
    pose proof (ok_admitted _ Hdata) as Ha. unfold all_admitted in Ha. rewrite Forall_forall in Ha.
    destruct (Ha ns Hns) as [Hk _]. rewrite Forall_forall in Hk. by apply Hk.
  - apply definition_names.
Qed.

Lemma executeMemoryAccessPlan_correct :
  let access := selectQueryAccessPlan (q_where q) (collection_definitions data) q in
  ap_usable access = true ->
  executes (fun b => let* (documents, _, _) := executeMemoryAccessPlan data access q b in Ok documents).
Proof.
  intros access Hu. pose proof (selected_sources_ok (q_where q) (collection_definitions data) q definition_names Hu) as [Hsrc _].
  destruct (decide (q_limit q = Some 0)) as [E0|E0].
  { exists 0. split; [done|]. intros b _. unfold executeMemoryAccessPlan. rewrite E0. cbn. by rewrite zero_answer. }
  destruct (gather_spec (ap_sources access) 0 Hsrc) as (raws & Hgather & Hin).
  assert (Hcov : forall id d, (id, d) ∈ contents data -> Match q d = true -> id ∈ mc_raw <$> raws).
  { intros id d Hd Hm. apply (Hin id d Hd). apply (Match_satisfies q d Hq) in Hm.
    pose proof (members_indexed (id, d) Hd) as Hi. pose proof Hdocs as Hdocs'. rewrite Forall_forall in Hdocs'. destruct (Hdocs' _ Hd) as [_ Hc].
    by apply (selected_plan_ok (collection_definitions data) q d Hi Hc Hu). }
  destruct (canOrderMemoryAccessByPosition access q) eqn:Eord.
  - assert (Hw : q_sort q = [] /\ 0 <= accessPlanWindow q).
    { unfold canOrderMemoryAccessByPosition in Eord. destruct (Z.eqb_spec (zlen (q_sort q)) 0) as [E|]; [|done].
      destruct (Z.ltb_spec (accessPlanWindow q) 0); [by destruct (q_limit q)|]. split; [|done].
      destruct (q_sort q) as [|f l]; [done|]. rewrite zlen_cons in E. pose proof (zlen_nonneg l). lia. }
    destruct (executeMemoryOrderedCandidates_correct raws Hcov (proj1 Hw) (proj2 Hw)) as (n & Hn & H). exists n. split; [done|].
    intros b Hb. specialize (H b Hb). unfold executeMemoryAccessPlan. rewrite limit_case, Hgather, Eord by done. cbn [rbind].
    by destruct (executeMemoryOrderedCandidates data raws q b) as [[[documents stopped] b']|e].
  - destruct (executeMemoryIndexCandidates_correct raws Hcov) as (n & Hn & H). exists n. split; [done|].
    intros b Hb. specialize (H b Hb). unfold executeMemoryAccessPlan. rewrite limit_case, Hgather, Eord by done. cbn [rbind].
    by destruct (executeMemoryIndexCandidates data raws q b) as [[[documents stopped] b']|e].
Qed.
End Queries.

(** ** Plans do not change answers *)

(** C23: A query answers with the page that ranking every document of the
    collection gives, whatever plan is chosen: a scan of the collection, a lookup
    by identifiers, a union of intervals of several indexes, with or without
    stopping at the window of an unsorted query. It can only fail for its budget,
    and for some bound on the work it does not fail when the budget has room for
    that much. The values the query sorts by and compares are ones that the
    comparison functions order exactly, as mixed numbers need not be. *)
Theorem memory_query_correct q data :
  collection_ok data -> expr_ok (q_where q) = true -> paging_ok q -> sortable q (matching_from q (contents data).*2 0) ->
  zlen (contents data) + default 0 (q_limit q) <= maxInt ->
  (q_sort q <> [] -> Forall (fun m => sized m.2) (contents data)) ->
  Forall (fun m => machine_ok (VObject false m.2) /\ comparable m.2 (q_where q)) (contents data) ->
  exists n, 0 <= n /\ forall b, fresh q b ->
    match executeMemoryQuery data q b with
    | Ok (documents, _, _) => Execute q (contents data).*2 = Ok documents
    | Err e => e = ErrQueryBudget /\ ~ room n b
    end.
Proof.
  intros Hdata Hq Hpage Hs Hmax Hsized Hdocs.
  assert (Hrun : executes q data (fun b => let* (documents, _, _) := executeMemoryQuery data q b in Ok documents)).
  { unfold executeMemoryQuery. cbv zeta. destruct (ap_usable _) eqn:Eu.
    - by apply executeMemoryAccessPlan_correct.
    - by apply executeCollectionScan_correct. }
  destruct Hrun as (n & Hn & H). exists n. split; [done|]. intros b Hb. specialize (H b Hb).
  rewrite (Execute_answer q data Hpage Hs Hmax). destruct (executeMemoryQuery data q b) as [[[documents early] b']|e]; cbn [rbind] in H; [by subst|done].
Qed.

(** The documents of the small program, looked up through their index. *)
Definition example_collection : collectionData :=
  match field (db_collections example_db2) people with Some data => data | None => newCollectionData end.
Definition example_lookup : QuerySpec := mk_query (compareExpr (bs "eq") (bs "n") (VInt 2)) [] 0 (Some 5) false.
Definition example_budget : queryBudget := mk_budget true example_lookup (db_limits example_db2) 0 0 0 0 0 false [].
Definition example_second : document := doc_set [(bs "n", VInt 2)] (bs "_id") (VID (example_id x02)).

Lemma example_contents : contents example_collection =
  [(example_id x01, doc_set [(bs "n", VInt 1)] (bs "_id") (VID (example_id x01))); (example_id x02, example_second)].
Proof. vm_compute. reflexivity. Qed.

Lemma memory_query_correct_witness :
  (match executeMemoryQuery example_collection example_lookup example_budget with
   | Ok (documents, early, _) => documents = [example_second] /\ es_reason early = bs "candidate_position_order"
   | Err _ => False end) /\
  exists n, 0 <= n /\ forall b, fresh example_lookup b ->
    match executeMemoryQuery example_collection example_lookup b with
    | Ok (documents, _, _) => Execute example_lookup (contents example_collection).*2 = Ok documents
    | Err e => e = ErrQueryBudget /\ ~ room n b
    end.
Proof.
  split; [vm_compute; done|].
  assert (Hm : matching_from example_lookup (contents example_collection).*2 0 = [mk_candidate example_second 1]).
  { rewrite example_contents. vm_compute. reflexivity. }
  apply (memory_query_correct example_lookup example_collection).
  - apply (collection_of example_db2 people); [exact example_db2_ok|vm_compute; reflexivity].
  - reflexivity.
  - split; [cbn; unfold maxInt; lia|]. intros limit [= <-]. unfold maxInt. lia.
  - rewrite Hm. split; [apply NoDup_singleton|constructor|]. intros a b f va vb _ _ Hf. by apply not_elem_of_nil in Hf.
  - rewrite example_contents. vm_compute. discriminate.
  - done.
  - rewrite example_contents.
    assert (Hd : forall m, In m [(example_id x01, doc_set [(bs "n", VInt 1)] (bs "_id") (VID (example_id x01))); (example_id x02, example_second)] ->
      machine_ok (VObject false m.2) /\ comparable m.2 (q_where example_lookup)).
    { intros m [<-|[<-|[]]]; (split; [|split; [by repeat constructor|constructor]]).
      - apply machine_ok_object. split; [by apply (bool_decide_unpack _); vm_compute|by repeat constructor].
      - apply machine_ok_object. split; [by apply (bool_decide_unpack _); vm_compute|by repeat constructor]. }
    apply Forall_forall. intros m Hin. apply Hd. by apply list_elem_of_In.
Defined.
