(* ===== verification/QueryDelta.v ===== *)
(** * Query deltas: edits between ordered query results

    [internal/database/query_delta.go]: the doubly linked list of a result, the
    construction of the edits from one result to the next, and their application
    by a subscriber. A node is found through [byID] under the identifier it
    holds, one node per identifier, so a pointer to a node is its identifier and
    the heap of the list is that map. Documents are values; [Clone] is the
    identity. *)
From stdpp Require Import gmap.
From Stdlib Require Import Permutation.
From S2P Require Import Prelude Bytes Strings Entries Float64 Values Documents DocumentCodec.
#[local] Open Scope Z_scope.

#[export] Instance byte_countable : Countable byte.
Proof.
  refine (inj_countable Byte.to_N Byte.of_N _). intros x. apply Byte.of_to_N.
Defined.

(** ** Data *)

Definition QueryDeltaRemove : bytes := bs "remove".
Definition QueryDeltaAdd : bytes := bs "add_before".
Definition QueryDeltaMove : bytes := bs "move_before".
Definition QueryDeltaChange : bytes := bs "change".

(** A zero [BeforeID] is [None]; so is a nil document. *)
Record QueryDeltaOperation := mk_op {
  op_kind : bytes; op_documentID : bytes; op_beforeID : option bytes; op_document : option document }.

Record QueryDelta := mk_delta { de_fromToken : Z; de_token : Z; de_operations : list QueryDeltaOperation }.
Record sharedQueryDelta := mk_shared { sd_token : Z; sd_operations : list QueryDeltaOperation }.
Record QuerySnapshot := mk_qsnapshot { qs_token : Z; qs_documents : list document }.

Record queryDeltaNode := mk_dnode {
  dn_document : document; dn_previous : option bytes; dn_next : option bytes }.

Record queryDeltaList := mk_dlist {
  dl_head : option bytes; dl_tail : option bytes; dl_byID : gmap bytes queryDeltaNode }.

(** ** The linked list *)

Definition set_next (next : option bytes) (n : queryDeltaNode) : queryDeltaNode :=
  mk_dnode (dn_document n) (dn_previous n) next.
Definition set_previous (previous : option bytes) (n : queryDeltaNode) : queryDeltaNode :=
  mk_dnode (dn_document n) previous (dn_next n).
Definition set_document (d : document) (n : queryDeltaNode) : queryDeltaNode :=
  mk_dnode d (dn_previous n) (dn_next n).

(** The node taken out keeps its document, which the callers hold. *)
Definition remove (id : bytes) (l : queryDeltaList) : queryDeltaList :=
  match dl_byID l !! id with
  | None => l
  | Some node =>
      let '(head, m) := match dn_previous node with
                        | None => (dn_next node, dl_byID l)
                        | Some p => (dl_head l, alter (set_next (dn_next node)) p (dl_byID l))
                        end in
      let '(tail, m) := match dn_next node with
                        | None => (dn_previous node, m)
                        | Some x => (dl_tail l, alter (set_previous (dn_previous node)) x m)
                        end in
      mk_dlist head tail (delete id m)
  end.

Definition insertBefore (id : bytes) (d : document) (anchor : option bytes) (l : queryDeltaList) : queryDeltaList :=
  match anchor with
  | None =>
      let node := mk_dnode d (dl_tail l) None in
      match dl_tail l with
      | None => mk_dlist (Some id) (Some id) (<[id := node]> (dl_byID l))
      | Some t => mk_dlist (dl_head l) (Some id) (<[id := node]> (alter (set_next (Some id)) t (dl_byID l)))
      end
  | Some a =>
      match dl_byID l !! a with
      | None => l
      | Some before =>
          let node := mk_dnode d (dn_previous before) (Some a) in
          let '(head, m) := match dn_previous before with
                            | None => (Some id, dl_byID l)
                            | Some p => (dl_head l, alter (set_next (Some id)) p (dl_byID l))
                            end in
          mk_dlist head (dl_tail l) (<[id := node]> (alter (set_previous (Some id)) a m))
      end
  end.

Definition empty_list : queryDeltaList := mk_dlist None None ∅.

(** [newQueryDeltaList]; the map of documents it returns beside the list holds
    the document of each node. *)
Fixpoint fill_list (documents : list document) (l : queryDeltaList) (byID : gmap bytes document)
    : result (queryDeltaList * gmap bytes document) :=
  match documents with
  | [] => Ok (l, byID)
  | d :: documents =>
      match Document_ID d with
      | None => Err ErrInvalidDelta
      | Some id =>
          if all_zero id then Err ErrInvalidDelta
          else match dl_byID l !! id with
               | Some _ => Err ErrInvalidDelta
               | None => fill_list documents (insertBefore id d None l) (<[id := d]> byID)
               end
      end
  end.

Definition newQueryDeltaList (documents : list document) : result (queryDeltaList * gmap bytes document) :=
  fill_list documents empty_list ∅.

(** ** Building a delta *)

(** The first loop of [buildSharedQueryDelta], over results of one length:
    [None] where the order differs. *)
Fixpoint same_order (previous next : list document) : result (option (list QueryDeltaOperation)) :=
  match previous, next with
  | p :: previous, n :: next =>
      match Document_ID p, Document_ID n with
      | Some previousID, Some nextID =>
          if all_zero previousID || all_zero nextID then Err ErrInvalidDelta
          else if negb (beqb previousID nextID) then Ok None
          else
            let* rest := same_order previous next in
            match rest with
            | None => Ok None
            | Some operations =>
                Ok (Some (if negb (Document_Equal p n)
                          then mk_op QueryDeltaChange nextID None (Some n) :: operations else operations))
            end
      | _, _ => Err ErrInvalidDelta
      end
  | _, _ => Ok (Some [])
  end.

(** The removals, in the order of the old list. The nodes of the list are fuel
    enough. *)
Fixpoint remove_missing (fuel : nat) (node : option bytes) (nextDocuments : gmap bytes document) (l : queryDeltaList)
    : result (queryDeltaList * list QueryDeltaOperation) :=
  match node, fuel with
  | None, _ => Ok (l, [])
  | Some _, O => Err ErrFuel
  | Some id, S fuel =>
      match dl_byID l !! id with
      | None => Err ErrPanic
      | Some n =>
          let following := dn_next n in
          match nextDocuments !! id with
          | Some _ => remove_missing fuel following nextDocuments l
          | None =>
              let* (l, operations) := remove_missing fuel following nextDocuments (remove id l) in
              Ok (l, mk_op QueryDeltaRemove id None None :: operations)
          end
      end
  end.

(** One step of the reverse pass, for the document [d] of the next result in
    front of [anchor]. *)
Definition place (d : document) (id : bytes) (anchor : option bytes) (oldDocuments : gmap bytes document) (l : queryDeltaList)
    : queryDeltaList * list QueryDeltaOperation :=
  match dl_byID l !! id with
  | None => (insertBefore id d anchor l, [mk_op QueryDeltaAdd id anchor (Some d)])
  | Some node =>
      let '(l, moved) :=
        if decide (dn_next node = anchor) then (l, [])
        else (insertBefore id (dn_document node) anchor (remove id l), [mk_op QueryDeltaMove id anchor None]) in
      let same := match oldDocuments !! id with Some old => Document_Equal old d | None => false end in
      (l, moved ++ (if negb same then [mk_op QueryDeltaChange id None (Some d)] else []))
  end.

(** [place_all] runs over the next result from its end; the identifiers were
    checked by [newQueryDeltaList]. *)
Fixpoint place_all (reversed : list document) (anchor : option bytes) (oldDocuments : gmap bytes document)
    (l : queryDeltaList) : list QueryDeltaOperation :=
  match reversed with
  | [] => []
  | d :: reversed =>
      let id := default (replicate 16 x00) (Document_ID d) in
      let '(l, operations) := place d id anchor oldDocuments l in
      operations ++ place_all reversed (Some id) oldDocuments l
  end.

Definition buildSharedQueryDelta (previous next : list document) (token : Z) : result sharedQueryDelta :=
  let* quick := (if zlen previous =? zlen next then same_order previous next else Ok None) in
  match quick with
  | Some operations => Ok (mk_shared token operations)
  | None =>
      let* (oldList, oldDocuments) := newQueryDeltaList previous in
      let* (_, nextDocuments) := newQueryDeltaList next in
      let* (oldList, removals) := remove_missing (length previous) (dl_head oldList) nextDocuments oldList in
      Ok (mk_shared token (removals ++ place_all (rev next) None oldDocuments oldList))
  end.

(** [cloneSharedQueryDelta]. *)
Definition cloneSharedQueryDelta (delta : sharedQueryDelta) (from : Z) : QueryDelta :=
  mk_delta from (sd_token delta) (sd_operations delta).

(** ** Applying a delta *)

Definition documentHasID (d : option document) (expected : bytes) : bool :=
  match d with
  | None => false
  | Some d =>
      match Document_ID d with
      | Some id => negb (all_zero id) && beqb id expected && Validate d
      | None => false
      end
  end.

(** The body of the loop of [ApplyQueryDelta]. *)
Definition apply_operation (o : QueryDeltaOperation) (l : queryDeltaList) : result queryDeltaList :=
  let id := op_documentID o in
  if all_zero id then Err ErrInvalidDelta
  else
    let node := dl_byID l !! id in
    let* _ := match op_beforeID o with
              | None => Ok tt
              | Some before =>
                  match dl_byID l !! before with
                  | None => Err ErrInvalidDelta
                  | Some _ => if beqb before id then Err ErrInvalidDelta else Ok tt
                  end
              end in
    let anchor := op_beforeID o in
    if beqb (op_kind o) QueryDeltaRemove then
      match node, anchor, op_document o with
      | Some _, None, None => Ok (remove id l)
      | _, _, _ => Err ErrInvalidDelta
      end
    else if beqb (op_kind o) QueryDeltaAdd then
      match node, op_document o with
      | None, Some d => if documentHasID (Some d) id then Ok (insertBefore id d anchor l) else Err ErrInvalidDelta
      | _, _ => Err ErrInvalidDelta
      end
    else if beqb (op_kind o) QueryDeltaMove then
      match node, op_document o with
      | Some n, None =>
          if decide (dn_next n = anchor) then Err ErrInvalidDelta
          else Ok (insertBefore id (dn_document n) anchor (remove id l))
      | _, _ => Err ErrInvalidDelta
      end
    else if beqb (op_kind o) QueryDeltaChange then
      match node, anchor, op_document o with
      | Some n, None, Some d =>
          if documentHasID (Some d) id
          then Ok (mk_dlist (dl_head l) (dl_tail l) (alter (set_document d) id (dl_byID l)))
          else Err ErrInvalidDelta
      | _, _, _ => Err ErrInvalidDelta
      end
    else Err ErrInvalidDelta.

Fixpoint apply_operations (operations : list QueryDeltaOperation) (l : queryDeltaList) : result queryDeltaList :=
  match operations with
  | [] => Ok l
  | o :: operations => let* l := apply_operation o l in apply_operations operations l
  end.

(** The documents in order; the nodes of the list are fuel enough. *)
Fixpoint collect_documents (fuel : nat) (node : option bytes) (l : queryDeltaList) : result (list document) :=
  match node, fuel with
  | None, _ => Ok []
  | Some _, O => Err ErrFuel
  | Some id, S fuel =>
      match dl_byID l !! id with
      | None => Err ErrPanic
      | Some n => let* rest := collect_documents fuel (dn_next n) l in Ok (dn_document n :: rest)
      end
  end.

Definition ApplyQueryDelta (snapshot : QuerySnapshot) (delta : QueryDelta) : result QuerySnapshot :=
  if negb (de_fromToken delta =? qs_token snapshot) || (de_token delta <=? de_fromToken delta)
     || (zlen (de_operations delta) =? 0)
  then Err ErrInvalidDelta
  else
    let* (l, _) := newQueryDeltaList (qs_documents snapshot) in
    let* l := apply_operations (de_operations delta) l in
    let* documents := collect_documents (size (dl_byID l)) (dl_head l) l in
    Ok (mk_qsnapshot (de_token delta) documents).

(** ** The list a heap of nodes holds *)

Definition entry : Type := bytes * document.

Definition first_id (l : list entry) (next : option bytes) : option bytes :=
  match l with [] => next | x :: _ => Some x.1 end.
Fixpoint last_id (previous : option bytes) (l : list entry) : option bytes :=
  match l with [] => previous | x :: l => last_id (Some x.1) l end.

(** The nodes of [l], linked to each other and to their neighbours. *)
Fixpoint linked (m : gmap bytes queryDeltaNode) (previous : option bytes) (l : list entry) (next : option bytes) : Prop :=
  match l with
  | [] => True
  | x :: l => m !! x.1 = Some (mk_dnode x.2 previous (first_id l next)) /\ linked m (Some x.1) l next
  end.

Record holds (L : queryDeltaList) (l : list entry) : Prop := {
  ho_distinct : NoDup l.*1;
  ho_head : dl_head L = first_id l None;
  ho_tail : dl_tail L = last_id None l;
  ho_linked : linked (dl_byID L) None l None;
  ho_only : forall id n, dl_byID L !! id = Some n -> id ∈ l.*1
}.

Lemma first_id_app l1 l2 next : first_id (l1 ++ l2) next = first_id l1 (first_id l2 next).
Proof. by destruct l1. Qed.
Lemma last_id_app previous l1 l2 : last_id previous (l1 ++ l2) = last_id (last_id previous l1) l2.
Proof. revert previous. induction l1; intros; cbn; auto. Qed.

Lemma linked_cons m previous x l next :
  linked m previous (x :: l) next <->
  m !! x.1 = Some (mk_dnode x.2 previous (first_id l next)) /\ linked m (Some x.1) l next.
Proof. done. Qed.

Lemma linked_app m previous l1 l2 next :
  linked m previous (l1 ++ l2) next <->
  linked m previous l1 (first_id l2 next) /\ linked m (last_id previous l1) l2 next.
Proof.
  revert previous. induction l1 as [|x l1 IH]; intros previous; cbn; [tauto|].
  rewrite IH, first_id_app. tauto.
Qed.

Lemma linked_frame m m' previous l next :
  (forall id, id ∈ l.*1 -> m' !! id = m !! id) -> linked m previous l next -> linked m' previous l next.
Proof.
  revert previous. induction l as [|x l IH]; intros previous Heq; cbn; [done|]. intros [Hx Hl].
  split; [rewrite Heq; [done|by left]|]. apply IH; [|done]. intros id Hid. apply Heq. by right.
Qed.

(** What both operations do to the neighbours of a node. *)
Definition link_next (o next : option bytes) (m : gmap bytes queryDeltaNode) : gmap bytes queryDeltaNode :=
  match o with None => m | Some t => alter (set_next next) t m end.
Definition link_previous (o previous : option bytes) (m : gmap bytes queryDeltaNode) : gmap bytes queryDeltaNode :=
  match o with None => m | Some t => alter (set_previous previous) t m end.

Lemma last_id_in l previous t : last_id previous l = Some t -> t ∈ l.*1 \/ l = [] /\ previous = Some t.
Proof.
  revert previous. induction l as [|x l IH]; intros previous; cbn; [auto|].
  intros [Hin|[-> [= ->]]]%IH; left; [by right|by left].
Qed.

Lemma link_next_other o next m id : o <> Some id -> link_next o next m !! id = m !! id.
Proof. destruct o; cbn; [|done]. intros Hne. rewrite lookup_alter_ne; [done|congruence]. Qed.
Lemma link_previous_other o previous m id : o <> Some id -> link_previous o previous m !! id = m !! id.
Proof. destruct o; cbn; [|done]. intros Hne. rewrite lookup_alter_ne; [done|congruence]. Qed.

Lemma linked_link_next m l next next' : NoDup l.*1 -> linked m None l next -> linked (link_next (last_id None l) next' m) None l next'.
Proof.
  destruct l as [|x l _] using rev_ind; [done|]. rewrite fmap_app, last_id_app. cbn. intros (_ & Hx & _)%NoDup_app.
  rewrite !linked_app. cbn. intros (Hl & Hm & _). split; [|split; [|done]].
  - eapply linked_frame; [|exact Hl]. intros id Hid. apply lookup_alter_ne. intros <-. apply (Hx x.1); [done|by left].
  - by rewrite lookup_alter_eq, Hm.
Qed.

Lemma linked_link_previous m l previous previous' next : NoDup l.*1 -> linked m previous l next ->
  linked (link_previous (first_id l None) previous' m) previous' l next.
Proof.
  destruct l as [|x l]; [done|]. cbn. intros [Hx _]%NoDup_cons (Hm & Hl). split.
  - by rewrite lookup_alter_eq, Hm.
  - eapply linked_frame; [|exact Hl]. intros id Hid. apply lookup_alter_ne. by intros <-.
Qed.

Lemma holds_lookup L l1 id d l2 : holds L (l1 ++ (id, d) :: l2) ->
  dl_byID L !! id = Some (mk_dnode d (last_id None l1) (first_id l2 None)).
Proof. intros [_ _ _ Hl _]. apply linked_app in Hl as [_ [Hl _]]. exact Hl. Qed.

Lemma holds_absent L l id : holds L l -> (id ∉ l.*1) -> dl_byID L !! id = None.
Proof. intros HL Hid. destruct (dl_byID L !! id) eqn:E; [|done]. exfalso. apply Hid. by apply (ho_only _ _ HL _ _ E). Qed.

Lemma lookup_alter_Some_ne {A} (f : A -> A) (m : gmap bytes A) t k n :
  alter f t m !! k = Some n -> exists n', m !! k = Some n' /\ (n = n' \/ n = f n').
Proof.
  destruct (decide (t = k)) as [->|Hne].
  - rewrite lookup_alter_eq. destruct (m !! k); cbn; [|done]. intros [= <-]. eauto.
  - rewrite lookup_alter_ne by done. eauto.
Qed.

Lemma linking_some o next m t n : link_next o next m !! t = Some n -> exists n', m !! t = Some n'.
Proof. destruct o; cbn; [|eauto]. intros (n' & Hn & _)%lookup_alter_Some_ne; eauto. Qed.
Lemma linked_some o previous m t n : link_previous o previous m !! t = Some n -> exists n', m !! t = Some n'.
Proof. destruct o; cbn; [|eauto]. intros (n' & Hn & _)%lookup_alter_Some_ne; eauto. Qed.

Lemma remove_links id l node : dl_byID l !! id = Some node ->
  remove id l = mk_dlist (match dn_previous node with None => dn_next node | Some _ => dl_head l end)
                         (match dn_next node with None => dn_previous node | Some _ => dl_tail l end)
                         (delete id (link_previous (dn_next node) (dn_previous node)
                                       (link_next (dn_previous node) (dn_next node) (dl_byID l)))).
Proof. unfold remove. intros ->. by destruct (dn_previous node), (dn_next node). Qed.

Lemma first_id_in l t : first_id l None = Some t -> t ∈ l.*1.
Proof. destruct l; [done|]. cbn. intros [= <-]. by left. Qed.

Lemma last_in l t : last_id None l = Some t -> t ∈ l.*1.
Proof. intros [H|[-> [=]]]%last_id_in. done. Qed.

Lemma nodup_parts (l1 l2 : list entry) id d : NoDup (l1 ++ (id, d) :: l2).*1 ->
  NoDup l1.*1 /\ NoDup l2.*1 /\ (id ∉ l1.*1) /\ (id ∉ l2.*1) /\ (forall t, t ∈ l1.*1 -> (t ∉ l2.*1)).
Proof.
  rewrite fmap_app. cbn. intros (H1 & H12 & [Hid H2]%NoDup_cons)%NoDup_app.
  split_and!; [done|done| |done|]; [intros Hin|intros t Hin Hin2]; apply (H12 _ Hin); [by left|by right].
Qed.

Lemma remove_holds L l1 id d l2 : holds L (l1 ++ (id, d) :: l2) -> holds (remove id L) (l1 ++ l2).
Proof.
  intros HL. pose proof (holds_lookup _ _ _ _ _ HL) as Hid. destruct HL as [Hnd Hh Ht Hl Ho].
  rewrite (remove_links _ _ _ Hid). cbn [dn_previous dn_next].
  apply nodup_parts in Hnd as (H1 & H2 & Hid1 & Hid2 & H12).
  apply linked_app in Hl as [Hl1 [_ Hl2]].
  constructor; cbn [dl_head dl_tail dl_byID].
  - rewrite fmap_app. apply NoDup_app. done.
  - rewrite Hh, !first_id_app. cbn. destruct l1 as [|x l1 _] using rev_ind; [done|].
    rewrite last_id_app. cbn. by destruct l1.
  - rewrite Ht, !last_id_app. cbn. by destruct l2.
  - rewrite linked_app. split.
    + eapply linked_frame; [|eapply (linked_link_next _ _ _ (first_id l2 None)); [done|exact Hl1]].
      intros t Hin. rewrite lookup_delete_ne; [|by intros <-]. apply link_previous_other.
      intros Hf%first_id_in. by apply (H12 t).
    + eapply linked_frame; [|eapply (linked_link_previous _ _ _ (last_id None l1)); [done|exact Hl2]].
      intros t Hin. rewrite lookup_delete_ne; [|by intros <-].
      destruct (first_id l2 None) as [f|] eqn:Ef; cbn [link_previous]; [|destruct l2; [by apply not_elem_of_nil in Hin|done]].
      assert (Hother : link_next (last_id None l1) (Some f) (dl_byID L) !! t = dl_byID L !! t).
      { apply link_next_other. intros Hlast%last_in. by apply (H12 t). }
      destruct (decide (t = f)) as [->|Hne].
      * by rewrite !lookup_alter_eq, Hother.
      * by rewrite !lookup_alter_ne by congruence.
  - intros t n Hn. rewrite lookup_delete_Some in Hn. destruct Hn as [Hne Hn].
    assert (Hin : t ∈ (l1 ++ (id, d) :: l2).*1).
    { apply linked_some in Hn as [n' Hn]. apply linking_some in Hn as [n'' Hn]. by eapply Ho. }
    rewrite fmap_app in *. cbn in Hin. rewrite elem_of_app, elem_of_cons in Hin. rewrite elem_of_app.
    destruct Hin as [Hin|[Hin|Hin]]; [by left|congruence|by right].
Qed.

Lemma insert_links id d anchor l before : dl_byID l !! anchor = Some before ->
  insertBefore id d (Some anchor) l =
  mk_dlist (match dn_previous before with None => Some id | Some _ => dl_head l end) (dl_tail l)
    (<[id := mk_dnode d (dn_previous before) (Some anchor)]>
       (link_previous (Some anchor) (Some id) (link_next (dn_previous before) (Some id) (dl_byID l)))).
Proof. cbn. intros ->. by destruct (dn_previous before). Qed.

Lemma append_links id d l :
  insertBefore id d None l =
  mk_dlist (match dl_tail l with None => Some id | Some _ => dl_head l end) (Some id)
    (<[id := mk_dnode d (dl_tail l) None]> (link_next (dl_tail l) (Some id) (dl_byID l))).
Proof. cbn. by destruct (dl_tail l). Qed.

(** Inserting before the first entry of [B], or at the end. *)
Lemma insert_holds L A B id d : holds L (A ++ B) -> (id ∉ (A ++ B).*1) ->
  holds (insertBefore id d (first_id B None) L) (A ++ (id, d) :: B).
Proof.
  intros HL Hid. pose proof HL as [Hnd Hh Ht Hl Ho].
  pose proof Hl as [HlA HlB]%linked_app.
  rewrite fmap_app in Hnd, Hid. pose proof Hnd as (HA & HAB & HB)%NoDup_app.
  assert (HidA : id ∉ A.*1) by (intros Hin; apply Hid, elem_of_app; by left).
  assert (HidB : id ∉ B.*1) by (intros Hin; apply Hid, elem_of_app; by right).
  assert (Hnew : NoDup (A ++ (id, d) :: B).*1).
  { rewrite fmap_app. cbn. rewrite NoDup_app, NoDup_cons. split_and!; try done.
    intros t Hin [->|Hin2]%elem_of_cons; [done|by apply (HAB t)]. }
  assert (Hprev : forall m', linked m' None A (Some id) ->
    linked (<[id := mk_dnode d (last_id None A) (first_id B None)]> m') None A (Some id)).
  { intros m'. apply linked_frame. intros t Hin. apply lookup_insert_ne. by intros <-. }
  destruct B as [|[a da] B].
  - cbn [first_id] in *. rewrite app_nil_r in *. rewrite append_links, Ht.
    constructor; cbn [dl_head dl_tail dl_byID].
    + exact Hnew.
    + rewrite Hh, first_id_app. destruct A as [|x A _] using rev_ind; [done|]. rewrite last_id_app. cbn. by destruct A.
    + by rewrite last_id_app.
    + rewrite linked_app. split; [by apply Hprev, linked_link_next with None|].
      cbn. split; [by rewrite lookup_insert_eq|done].
    + intros t n. rewrite fmap_app, elem_of_app. destruct (decide (t = id)) as [->|Hne]; [right; by left|].
      rewrite lookup_insert_ne by done. intros (n' & Hn)%linking_some. left. by eapply Ho.
  - cbn [first_id fst]. pose proof (holds_lookup _ _ _ _ _ HL) as Ha. rewrite (insert_links _ _ _ _ _ Ha).
    cbn [dn_previous]. pose proof HB as [HaB _]%NoDup_cons.
    assert (HaA : a ∉ A.*1) by (intros Hin; apply (HAB a Hin); by left).
    constructor; cbn [dl_head dl_tail dl_byID].
    + exact Hnew.
    + rewrite Hh, !first_id_app. destruct A as [|x A _] using rev_ind; [done|]. rewrite last_id_app. cbn. by destruct A.
    + by rewrite Ht, !last_id_app.
    + rewrite linked_app. split.
      * apply Hprev. eapply linked_frame; [|eapply (linked_link_next _ _ _ (Some id)); [done|exact HlA]].
        intros t Hin. apply link_previous_other. by intros [= <-].
      * apply linked_cons. split; [apply lookup_insert_eq|].
        eapply linked_frame; [|eapply (linked_link_previous _ _ _ (Some id)); [exact HB|exact HlB]].
        intros t Hin. rewrite lookup_insert_ne by (by intros <-). cbn [first_id fst link_previous].
        assert (Hother : link_next (last_id None A) (Some id) (dl_byID L) !! t = dl_byID L !! t).
        { apply link_next_other. intros Hlast%last_in. by apply (HAB t). }
        destruct (decide (t = a)) as [->|Hne].
        -- by rewrite !lookup_alter_eq, Hother.
        -- by rewrite !lookup_alter_ne by congruence.
    + intros t n. rewrite fmap_app, elem_of_app. destruct (decide (t = id)) as [->|Hne]; [right; by left|].
      rewrite lookup_insert_ne by done. intros (n' & Hn)%linked_some. apply linking_some in Hn as [n'' Hn].
      apply Ho in Hn. rewrite fmap_app, elem_of_app in Hn. destruct Hn; [by left|right; by right].
Qed.

Lemma change_holds L l1 id d d' l2 : holds L (l1 ++ (id, d) :: l2) ->
  holds (mk_dlist (dl_head L) (dl_tail L) (alter (set_document d') id (dl_byID L))) (l1 ++ (id, d') :: l2).
Proof.
  intros [Hnd Hh Ht Hl Ho]. pose proof Hnd as Hparts. apply nodup_parts in Hparts as (H1 & H2 & Hid1 & Hid2 & H12).
  rewrite fmap_app in Hnd, Ho. apply linked_app in Hl as [Hl1 [Hm Hl2]].
  constructor; cbn [dl_head dl_tail dl_byID].
  - by rewrite fmap_app.
  - by rewrite Hh, !first_id_app.
  - by rewrite Ht, !last_id_app.
  - rewrite linked_app, linked_cons. cbn [fst snd]. split; [|split].
    + eapply linked_frame; [|exact Hl1]. intros t Hin. apply lookup_alter_ne. by intros <-.
    + cbn in Hm. by rewrite lookup_alter_eq, Hm.
    + eapply linked_frame; [|exact Hl2]. intros t Hin. apply lookup_alter_ne. by intros <-.
  - intros t n (n' & Hn & _)%lookup_alter_Some_ne. rewrite fmap_app. by eapply Ho.
Qed.

Lemma empty_holds : holds empty_list [].
Proof. constructor; cbn; [constructor|done..|]. intros id n. by rewrite lookup_empty. Qed.

(** ** Reading a result into a list *)

Definition id_of (d : document) : bytes := default (replicate 16 x00) (Document_ID d).
Definition entries (documents : list document) : list entry := (fun d => (id_of d, d)) <$> documents.

(** The documents have identifiers, and no two the same. *)
Definition identified (d : document) : Prop := exists id, Document_ID d = Some id /\ all_zero id = false.
Definition distinct_ids (documents : list document) : Prop :=
  Forall identified documents /\ NoDup (id_of <$> documents).

Lemma entries_ids documents : (entries documents).*1 = id_of <$> documents.
Proof. unfold entries. by rewrite <- list_fmap_compose. Qed.
Lemma entries_documents documents : (entries documents).*2 = documents.
Proof. unfold entries. rewrite <- list_fmap_compose. apply list_fmap_id. Qed.

Lemma identified_id d : identified d -> Document_ID d = Some (id_of d) /\ all_zero (id_of d) = false.
Proof. intros (id & Hid & Hz). unfold id_of. by rewrite Hid. Qed.


Lemma distinct_app_cons (ids : list bytes) id rest : NoDup (ids ++ id :: rest) ->
  (id ∉ ids) /\ NoDup ((ids ++ [id]) ++ rest).
Proof.
  rewrite <- app_assoc. intros H. split; [|done]. intros Hin. apply NoDup_app in H as (_ & H & _). apply (H id Hin). by left.
Qed.

Lemma fill_list_spec documents L l m : holds L l ->
  match fill_list documents L m with
  | Ok (L', m') =>
      Forall identified documents /\ NoDup (l.*1 ++ (id_of <$> documents)) /\ holds L' (l ++ entries documents)
      /\ (forall d, d ∈ documents -> m' !! id_of d = Some d)
      /\ (forall id, (id ∉ id_of <$> documents) -> m' !! id = m !! id)
  | Err e => e = ErrInvalidDelta /\ ~ (Forall identified documents /\ NoDup (l.*1 ++ (id_of <$> documents)))
  end.
Proof.
  revert L l m. induction documents as [|d documents IH]; intros L l m HL; cbn [fill_list].
  - cbn. rewrite !app_nil_r. split_and!; [constructor|apply (ho_distinct _ _ HL)|done|by intros d ?%not_elem_of_nil|done].
  - destruct (Document_ID d) as [id|] eqn:Hid.
    2: { split; [done|]. intros [[(id & Hid' & _) _]%Forall_cons _]. congruence. }
    assert (Hof : id_of d = id) by (unfold id_of; by rewrite Hid). cbn [fmap list_fmap]. rewrite Hof.
    destruct (all_zero id) eqn:Hz.
    { split; [done|]. intros [[(id' & Hid' & Hz') _]%Forall_cons _]. congruence. }
    destruct (dl_byID L !! id) as [n|] eqn:Hn.
    { split; [done|]. intros [_ [Hnot _]%distinct_app_cons]. apply Hnot. by apply (ho_only _ _ HL _ _ Hn). }
    assert (Hnot : id ∉ l.*1).
    { intros (x & -> & (l1 & l2 & ->)%list_elem_of_split)%list_elem_of_fmap. destruct x as [i dx]. cbn [fst] in Hn.
      by rewrite (holds_lookup _ _ _ _ _ HL) in Hn. }
    assert (HL' : holds (insertBefore id d None L) (l ++ [(id, d)])).
    { apply (insert_holds L l [] id d); by rewrite app_nil_r. }
    specialize (IH _ _ (<[id:=d]> m) HL'). rewrite fmap_app, <- !app_assoc in IH. cbn [fmap list_fmap fst] in IH.
    destruct (fill_list documents _ _) as [[L' m']|e].
    + destruct IH as (Hall & Hnd & Hholds & Hin & Hout). split_and!.
      * constructor; [by exists id|done].
      * exact Hnd.
      * unfold entries in *. cbn [fmap list_fmap]. by rewrite Hof.
      * intros x [->|Hx]%elem_of_cons; [|by apply Hin]. rewrite Hof, Hout; [apply lookup_insert_eq|].
        apply NoDup_app in Hnd as (_ & _ & [Hd _]%NoDup_cons). done.
      * intros i Hi. rewrite Hout by (intros H; apply Hi; by right). apply lookup_insert_ne.
        intros <-. apply Hi. by left.
    + destruct IH as [-> IH]. split; [done|]. intros [[_ Hall]%Forall_cons Hnd]. by apply IH.
Qed.

Lemma newQueryDeltaList_spec documents :
  match newQueryDeltaList documents with
  | Ok (L, m) => distinct_ids documents /\ holds L (entries documents)
                 /\ (forall d, d ∈ documents -> m !! id_of d = Some d)
                 /\ (forall id, (id ∉ id_of <$> documents) -> m !! id = None)
  | Err e => e = ErrInvalidDelta /\ ~ distinct_ids documents
  end.
Proof.
  pose proof (fill_list_spec documents empty_list [] ∅ empty_holds) as H. unfold newQueryDeltaList.
  destruct (fill_list _ _ _) as [[L m]|e]; [|exact H]. destruct H as (Hall & Hnd & HL & Hin & Hout).
  split_and!; [done|done|done|]. intros id Hid. rewrite Hout by done. apply lookup_empty.
Qed.

(** ** What a sequence of operations does to the list *)

Definition edits (operations : list QueryDeltaOperation) (l l' : list entry) : Prop :=
  forall L, holds L l -> exists L', apply_operations operations L = Ok L' /\ holds L' l'.

Lemma edits_nil l : edits [] l l.
Proof. intros L HL. by exists L. Qed.

Lemma apply_operations_app o1 o2 L : apply_operations (o1 ++ o2) L = rbind (apply_operations o1 L) (apply_operations o2).
Proof. revert L. induction o1 as [|o o1 IH]; intros L; cbn; [done|]. destruct (apply_operation o L); cbn; auto. Qed.

Lemma edits_app o1 o2 l1 l2 l3 : edits o1 l1 l2 -> edits o2 l2 l3 -> edits (o1 ++ o2) l1 l3.
Proof.
  intros H1 H2 L HL. destruct (H1 L HL) as (L2 & E2 & HL2). destruct (H2 L2 HL2) as (L3 & E3 & HL3).
  exists L3. by rewrite apply_operations_app, E2.
Qed.

Lemma edits_one o l l' : (forall L, holds L l -> exists L', apply_operation o L = Ok L' /\ holds L' l') -> edits [o] l l'.
Proof. intros H L HL. destruct (H L HL) as (L' & E & HL'). exists L'. cbn. by rewrite E. Qed.

Lemma edits_remove l1 id d l2 : all_zero id = false ->
  edits [mk_op QueryDeltaRemove id None None] (l1 ++ (id, d) :: l2) (l1 ++ l2).
Proof.
  intros Hz. apply edits_one. intros L HL. unfold apply_operation. cbn [op_documentID op_beforeID op_kind op_document rbind].
  rewrite Hz, (holds_lookup _ _ _ _ _ HL). eexists. split; [reflexivity|]. by eapply remove_holds.
Qed.

Definition acceptable (d : document) : Prop := identified d /\ Validate d = true.

Lemma acceptable_has_id d : acceptable d -> documentHasID (Some d) (id_of d) = true.
Proof. intros [[Hid Hz]%identified_id Hv]. unfold documentHasID. by rewrite Hid, Hz, Hv, (proj2 (beqb_eq _ _) eq_refl). Qed.

Lemma edits_change l1 d d0 l2 : acceptable d ->
  edits [mk_op QueryDeltaChange (id_of d) None (Some d)] (l1 ++ (id_of d, d0) :: l2) (l1 ++ (id_of d, d) :: l2).
Proof.
  intros Hd. pose proof Hd as [[Hid Hz]%identified_id _]. apply edits_one. intros L HL. unfold apply_operation.
  cbn [op_documentID op_beforeID op_kind op_document rbind].
  rewrite Hz, (holds_lookup _ _ _ _ _ HL), acceptable_has_id by done. eexists. split; [reflexivity|]. by eapply change_holds.
Qed.

(** An anchor of the list other than the document placed passes the check. *)
Lemma anchor_passes L A B id : holds L (A ++ B) -> (id ∉ B.*1) ->
  (match first_id B None with
   | None => Ok tt
   | Some before =>
       match dl_byID L !! before with
       | None => Err ErrInvalidDelta
       | Some _ => if beqb before id then Err ErrInvalidDelta else Ok tt
       end
   end) = Ok tt.
Proof.
  intros HL Hid. destruct B as [|[b db] B]; [done|]. cbn [first_id fst]. rewrite (holds_lookup _ _ _ _ _ HL).
  destruct (beqb b id) eqn:E; [|done]. apply beqb_eq in E as ->. exfalso. apply Hid. by left.
Qed.

Lemma edits_add A B d : acceptable d -> (id_of d ∉ (A ++ B).*1) ->
  edits [mk_op QueryDeltaAdd (id_of d) (first_id B None) (Some d)] (A ++ B) (A ++ (id_of d, d) :: B).
Proof.
  intros Hd Hnot. pose proof Hd as [[Hid Hz]%identified_id _]. apply edits_one. intros L HL. unfold apply_operation.
  cbn [op_documentID op_beforeID op_kind op_document].
  rewrite Hz, (anchor_passes _ A) by (try done; rewrite fmap_app, elem_of_app in Hnot; tauto).
  cbn [rbind]. rewrite (holds_absent _ _ _ HL Hnot), acceptable_has_id by done. eexists. split; [reflexivity|].
  by apply insert_holds.
Qed.

Lemma edits_move A1 id d A2 B : A2 <> [] -> all_zero id = false ->
  edits [mk_op QueryDeltaMove id (first_id B None) None] (A1 ++ (id, d) :: A2 ++ B) ((A1 ++ A2) ++ (id, d) :: B).
Proof.
  intros HA2 Hz. apply edits_one. intros L HL. unfold apply_operation. cbn [op_documentID op_beforeID op_kind op_document].
  pose proof (ho_distinct _ _ HL) as Hnd. apply nodup_parts in Hnd as (_ & H2 & Hid1 & Hid2 & _).
  rewrite fmap_app in Hid2, H2. rewrite Hz. rewrite (anchor_passes _ (A1 ++ (id, d) :: A2)).
  2: by rewrite <- app_assoc. 2: { intros Hin. apply Hid2, elem_of_app. by right. }
  cbn [rbind]. rewrite (holds_lookup _ _ _ _ _ HL). cbn [dn_next dn_document]. destruct A2 as [|[a da] A2]; [done|]. cbn [app first_id fst].
  cbn [beqb]. destruct (decide (Some a = first_id B None)) as [Ha|_].
  { exfalso. symmetry in Ha. apply first_id_in in Ha. apply NoDup_app in H2 as (_ & H2 & _). apply (H2 a); [by left|done]. }
  eexists. split; [reflexivity|]. apply insert_holds; [rewrite <- app_assoc; by eapply remove_holds|].
  rewrite fmap_app, elem_of_app, fmap_app, elem_of_app. rewrite elem_of_app in Hid2. tauto.
Qed.

Lemma holds_inj L l l' : holds L l -> holds L l' -> l = l'.
Proof.
  intros [_ Hh _ Hl _] [_ Hh' _ Hl' _]. rewrite Hh in Hh'. clear Hh. revert Hl Hl' Hh'.
  generalize (@None bytes) at 1 3 as p. intros p. revert p l'.
  induction l as [|[i d] l IH]; intros p [|[i' d'] l']; rewrite ?linked_cons; cbn [first_id fst snd]; try done.
  intros [Hm Hl] [Hm' Hl'] [= <-]. rewrite Hm in Hm'. injection Hm' as -> Hf. f_equal. by eapply IH.
Qed.

Lemma collect_documents_spec L l1 l2 fuel : holds L (l1 ++ l2) -> (length l2 <= fuel)%nat ->
  collect_documents fuel (first_id l2 None) L = Ok l2.*2.
Proof.
  revert l1 fuel. induction l2 as [|[i d] l2 IH]; intros l1 fuel HL Hfuel; [by destruct fuel|].
  destruct fuel as [|fuel]; [cbn in Hfuel; lia|]. cbn [first_id fst collect_documents].
  rewrite (holds_lookup _ _ _ _ _ HL). cbn [dn_next dn_document].
  rewrite (IH (l1 ++ [(i, d)])); [done|by rewrite <- app_assoc|cbn in Hfuel; lia].
Qed.

Lemma holds_size L l : holds L l -> (length l <= size (dl_byID L))%nat.
Proof.
  intros HL. rewrite <- size_dom. transitivity (length l.*1); [by rewrite length_fmap|].
  rewrite <- (size_list_to_set (C:=gset bytes)) by apply (ho_distinct _ _ HL).
  apply subseteq_size. intros id (x & -> & (l1 & l2 & ->)%list_elem_of_split)%elem_of_list_to_set%list_elem_of_fmap.
  destruct x as [i d]. apply elem_of_dom. cbn [fst]. by rewrite (holds_lookup _ _ _ _ _ HL).
Qed.

Lemma collect_all L l : holds L l -> collect_documents (size (dl_byID L)) (dl_head L) L = Ok l.*2.
Proof. intros HL. rewrite (ho_head _ _ HL). apply (collect_documents_spec L []); [done|by apply holds_size]. Qed.

(** ** The operations a delta consists of *)

Definition kept (nextDocuments : gmap bytes document) (e : entry) : Prop := is_Some (nextDocuments !! e.1).

Lemma remove_missing_spec nextDocuments l1 l2 L fuel : holds L (l1 ++ l2) -> (length l2 <= fuel)%nat ->
  Forall (fun e => all_zero e.1 = false) l2 ->
  exists L' operations, remove_missing fuel (first_id l2 None) nextDocuments L = Ok (L', operations) /\
    holds L' (l1 ++ filter (kept nextDocuments) l2) /\ edits operations (l1 ++ l2) (l1 ++ filter (kept nextDocuments) l2).
Proof.
  revert l1 L fuel. induction l2 as [|[i d] l2 IH]; intros l1 L fuel HL Hfuel Hz.
  - exists L, []. split_and!; [by destruct fuel|done|apply edits_nil].
  - apply Forall_cons in Hz as [Hi Hz]. destruct fuel as [|fuel]; [cbn in Hfuel; lia|].
    cbn [first_id fst remove_missing]. rewrite (holds_lookup _ _ _ _ _ HL). cbn [dn_next].
    rewrite filter_cons. destruct (decide (kept nextDocuments (i, d))) as [[n Hn]|Hn]; cbn [kept fst] in Hn.
    + rewrite Hn. edestruct (IH (l1 ++ [(i, d)]) L fuel) as (L' & ops & E & HL' & Hops); [|cbn in Hfuel; lia|done|].
      { by rewrite <- app_assoc. }
      rewrite <- app_assoc in HL', Hops. rewrite <- app_assoc in Hops. exists L', ops. split_and!; [exact E|exact HL'|exact Hops].
    + assert (nextDocuments !! i = None) as -> by (apply eq_None_not_Some; exact Hn). apply remove_holds in HL as HL1.
      edestruct (IH l1 _ fuel HL1) as (L' & ops & E & HL' & Hops); [cbn in Hfuel; lia|done|].
      rewrite E. cbn [rbind]. do 2 eexists. split; [reflexivity|]. split; [done|].
      by apply (edits_app [_] ops _ (l1 ++ l2)); [apply edits_remove|].
Qed.

(** What a document of the new result may be for a subscriber: the new document,
    or the old one where both are equal. *)
Definition settled (old : list document) (e : entry) (d : document) : Prop :=
  e.1 = id_of d /\ id_of e.2 = id_of d /\ (e.2 = d \/ e.2 ∈ old /\ Document_Equal e.2 d = true).

Section PlaceAll.
Context (old : list document) (oldDocuments : gmap bytes document).
Hypothesis Hold : forall d, d ∈ old -> oldDocuments !! id_of d = Some d.

(** The list of the builder, and that of the subscriber, hold the same nodes in
    front of the documents already placed. *)
Definition untouched (A : list entry) : Prop := Forall (fun e => e.2 ∈ old /\ e.1 = id_of e.2) A.

Lemma same_first (B B' : list entry) : B.*1 = B'.*1 -> first_id B None = first_id B' None.
Proof. destruct B, B'; cbn; congruence. Qed.

(** The change operation that [place] adds where the old document differs. *)
Lemma edits_settle A d da B' : acceptable d -> da ∈ old -> id_of da = id_of d ->
  let same := match oldDocuments !! id_of d with Some old => Document_Equal old d | None => false end in
  exists e, e.1 = id_of d /\ settled old e d /\
    edits (if negb same then [mk_op QueryDeltaChange (id_of d) None (Some d)] else []) (A ++ (id_of d, da) :: B') (A ++ e :: B').
Proof using Hold.
  intros Hd Hin Hid. cbn zeta. assert (oldDocuments !! id_of d = Some da) as -> by (rewrite <- Hid; by apply Hold).
  destruct (Document_Equal da d) eqn:E; cbn [negb].
  - exists (id_of d, da). split_and!; [done|split; [done|split; [done|right; done]]|apply edits_nil].
  - exists (id_of d, d). split_and!; [done|split; [done|split; [done|by left]]|by apply edits_change].
Qed.

(** [place] in front of [B], and what its operations do to the list [A ++ B'] of
    the subscriber. *)
Lemma place_spec d A B B' L L' operations : acceptable d -> untouched A -> B.*1 = B'.*1 ->
  (id_of d ∉ B.*1) -> holds L (A ++ B) ->
  place d (id_of d) (first_id B None) oldDocuments L = (L', operations) ->
  exists A' db e, holds L' (A' ++ (id_of d, db) :: B) /\ edits operations (A ++ B') (A' ++ e :: B') /\
    e.1 = id_of d /\ settled old e d /\ untouched A' /\ (forall i, i ∈ A'.*1 -> i ∈ A.*1 /\ i <> id_of d).
Proof using Hold.
  intros Hd HA HB HidB HL Hplace. unfold place in Hplace. pose proof Hd as [[Hid Hz]%identified_id _].
  destruct (decide (id_of d ∈ A.*1)) as [Hin|Hout].
  - apply list_elem_of_fmap in Hin as ([i da] & Hi & (A1 & A2 & ->)%list_elem_of_split). cbn in Hi. subst i.
    rewrite <- app_assoc in HL. cbn [app] in HL. rewrite (holds_lookup _ _ _ _ _ HL) in Hplace. cbn [dn_next dn_document] in Hplace.
    apply Forall_app in HA as HA'. destruct HA' as [HA1 [[Hda Hida] HA2]%Forall_cons]. cbn [fst snd] in Hda, Hida.
    assert (Hrest : forall i, i ∈ (A1 ++ A2).*1 -> i ∈ (A1 ++ (id_of d, da) :: A2).*1 /\ i <> id_of d).
    { pose proof (ho_distinct _ _ HL) as Hnd. apply nodup_parts in Hnd as (_ & _ & Hn1 & Hn2 & _).
      rewrite fmap_app, elem_of_app in Hn2. intros i. rewrite !fmap_app, !elem_of_app. cbn. rewrite elem_of_cons.
      intros [Hi|Hi]; (split; [tauto|]); intros ->; tauto. }
    destruct A2 as [|a A2].
    + cbn [app] in *. rewrite decide_True in Hplace by done. injection Hplace as <- <-. cbn [app].
      destruct (edits_settle A1 d da B') as (e & He & Hs & Hed); [done..|].
      exists A1, da, e. rewrite app_nil_r in Hrest. rewrite <- app_assoc. split_and!; done.
    + rewrite decide_False in Hplace.
      2: { destruct B as [|b B]; [done|]. cbn. intros [= Hb]. pose proof (ho_distinct _ _ HL) as Hnd.
           apply nodup_parts in Hnd as (_ & H2 & _). rewrite fmap_app in H2. apply NoDup_app in H2 as (_ & H2 & _).
           apply (H2 b.1); [rewrite <- Hb; by left|by left]. }
      injection Hplace as <- <-.
      destruct (edits_settle (A1 ++ a :: A2) d da B') as (e & He & Hs & Hed); [done..|].
      exists (A1 ++ a :: A2), da, e. split_and!; [| |done|done|by apply Forall_app|exact Hrest].
      * apply insert_holds; [rewrite <- app_assoc; by eapply remove_holds|].
        rewrite fmap_app, elem_of_app. intros [Hc|Hc]; [|done]. by apply Hrest in Hc as [_ []].
      * apply (edits_app [_] _ _ ((A1 ++ a :: A2) ++ (id_of d, da) :: B')); [|exact Hed]. rewrite (same_first _ _ HB).
        rewrite <- (app_assoc A1). by apply edits_move.
  - rewrite (holds_absent _ _ _ HL) in Hplace by (rewrite fmap_app, elem_of_app; tauto). injection Hplace as <- <-.
    exists A, d, (id_of d, d). split_and!; [| |done|split; [done|split; [done|by left]]|done|].
    + apply insert_holds; [done|]. rewrite fmap_app, elem_of_app. tauto.
    + rewrite (same_first _ _ HB). apply edits_add; [done|]. rewrite fmap_app, elem_of_app, <- HB. tauto.
    + intros i Hi. split; [done|]. by intros ->.
Qed.

(** The whole reverse pass. *)
Lemma place_all_spec reversed A B B' L : Forall acceptable reversed -> untouched A -> B.*1 = B'.*1 ->
  NoDup (id_of <$> reversed) -> (forall i, i ∈ id_of <$> reversed -> (i ∉ B.*1)) ->
  (forall i, i ∈ A.*1 -> i ∈ id_of <$> reversed) -> holds L (A ++ B) ->
  exists T, edits (place_all reversed (first_id B None) oldDocuments L) (A ++ B') (T ++ B') /\
            Forall2 (settled old) T (rev reversed).
Proof using Hold.
  revert A B B' L. induction reversed as [|d reversed IH]; intros A B B' L Hok HA HB Hnd Hnot Hsub HL.
  - assert (A = []) as ->. { destruct A as [|a A]; [done|]. exfalso. by eapply not_elem_of_nil, (Hsub a.1); left. }
    exists []. split; [apply edits_nil|constructor].
  - apply Forall_cons in Hok as [Hd Hok]. cbn [fmap list_fmap] in Hnd, Hnot, Hsub. apply NoDup_cons in Hnd as [Hdr Hnd].
    cbn [place_all]. change (default (replicate 16 x00) (Document_ID d)) with (id_of d).
    destruct (place d (id_of d) (first_id B None) oldDocuments L) as [L' ops] eqn:Hplace.
    destruct (place_spec d A B B' L L' ops) as (A' & db & e & HL' & Hed & He & Hs & HA' & Hsub'); try done.
    { apply Hnot. by left. }
    destruct (IH A' ((id_of d, db) :: B) (e :: B') L') as (T & HT & Hsettled); [done|done| |done| | |done|].
    + cbn. by rewrite He, HB.
    + intros i Hi. cbn. rewrite elem_of_cons. intros [->|Hc]; [done|]. apply (Hnot i); [by right|done].
    + intros i [Hi Hne]%Hsub'. apply Hsub in Hi. apply elem_of_cons in Hi as [->|Hi]; done.
    + exists (T ++ [e]). split.
      * rewrite <- app_assoc. by apply (edits_app ops _ _ (A' ++ e :: B')).
      * cbn [rev]. by apply Forall2_app; [|constructor].
Qed.
End PlaceAll.

Definition unchanged (p n : document) : Prop := id_of p = id_of n /\ Document_Equal p n = true.

Lemma same_order_spec previous next : length previous = length next ->
  Forall identified previous -> Forall acceptable next ->
  match same_order previous next with
  | Ok (Some operations) =>
      id_of <$> previous = id_of <$> next /\ (operations = [] <-> Forall2 unchanged previous next) /\
      forall old A, (forall d, d ∈ previous -> d ∈ old) ->
        exists T, edits operations (A ++ entries previous) (A ++ T) /\ Forall2 (settled old) T next
  | Ok None => id_of <$> previous <> id_of <$> next
  | Err _ => False
  end.
Proof.
  revert next. induction previous as [|p previous IH]; intros [|n next]; try done.
  - intros _ _ _. cbn. split_and!; [done|split; [constructor|done]|]. intros old A _. exists []. split; [apply edits_nil|constructor].
  - intros Hlen [Hp Hprevious]%Forall_cons [Hn Hnext]%Forall_cons. cbn [same_order].
    pose proof Hp as [Hpid Hpz]%identified_id. pose proof Hn as [[Hnid Hnz]%identified_id _].
    rewrite Hpid, Hnid, Hpz, Hnz. cbn [orb].
    destruct (beqb (id_of p) (id_of n)) eqn:Eid; cbn [negb].
    2: { intros [= He _]. apply (proj2 (beqb_eq _ _)) in He. congruence. }
    apply beqb_eq in Eid. specialize (IH next ltac:(cbn in Hlen; lia) Hprevious Hnext).
    destruct (same_order previous next) as [[ops|]|e]; cbn [rbind]; [|cbn; congruence|done].
    destruct IH as (Hids & Hempty & Hedits). split_and!.
    + cbn. by rewrite Eid, Hids.
    + unfold unchanged at 1. rewrite Forall2_cons. destruct (Document_Equal p n) eqn:Eq; cbn [negb]; [tauto|].
      split; [done|]. intros [[_ [=]] _].
    + intros old A Hsub. unfold entries. cbn [fmap list_fmap]. fold (entries previous).
      assert (Hstep : exists e, settled old e n /\
        edits (if negb (Document_Equal p n) then [mk_op QueryDeltaChange (id_of n) None (Some n)] else [])
              (A ++ (id_of p, p) :: entries previous) (A ++ e :: entries previous)).
      { destruct (Document_Equal p n) eqn:Eq; cbn [negb].
        - exists (id_of p, p). split; [|apply edits_nil]. split; [done|split; [done|]]. right. split; [apply Hsub; by left|done].
        - exists (id_of n, n). split; [split; [done|split; [done|by left]]|]. rewrite Eid. by apply edits_change. }
      destruct Hstep as (e & He & Hed). destruct (Hedits old (A ++ [e])) as (T & HT & Hs); [intros d Hd; apply Hsub; by right|].
      rewrite <- !app_assoc in HT. exists (e :: T). split; [|by constructor].
      replace (if negb (Document_Equal p n) then _ else ops) with
        ((if negb (Document_Equal p n) then [mk_op QueryDeltaChange (id_of n) None (Some n)] else []) ++ ops)
        by (by destruct (Document_Equal p n)).
      by apply (edits_app _ _ _ (A ++ e :: entries previous)).
Qed.

(** ** Applying any delta *)

Definition keyed (e : entry) : Prop := e.1 = id_of e.2 /\ identified e.2.

Lemma holds_split L l id n : holds L l -> dl_byID L !! id = Some n ->
  exists l1 d l2, l = l1 ++ (id, d) :: l2 /\ n = mk_dnode d (last_id None l1) (first_id l2 None).
Proof.
  intros HL Hn. pose proof (ho_only _ _ HL _ _ Hn) as Hin.
  apply list_elem_of_fmap in Hin as ([i d] & Hi & (l1 & l2 & ->)%list_elem_of_split). cbn in Hi. subst i.
  exists l1, d, l2. split; [done|]. rewrite (holds_lookup _ _ _ _ _ HL) in Hn. congruence.
Qed.

Lemma entries_keyed documents : Forall identified documents -> Forall keyed (entries documents).
Proof. intros H. unfold entries. apply Forall_fmap. eapply Forall_impl; [exact H|]. intros d Hd. split; done. Qed.

(** A place in front of the anchor. *)
Lemma anchor_split L l anchor : holds L l ->
  (forall a, anchor = Some a -> is_Some (dl_byID L !! a)) -> exists A B, l = A ++ B /\ first_id B None = anchor.
Proof.
  intros HL Ha. destruct anchor as [a|].
  - destruct (Ha a eq_refl) as [n Hn]. destruct (holds_split _ _ _ _ HL Hn) as (l1 & d & l2 & -> & _).
    by exists l1, ((a, d) :: l2).
  - exists l, []. by rewrite app_nil_r.
Qed.

Lemma insert_somewhere L l id d anchor : holds L l -> Forall keyed l -> keyed (id, d) -> (id ∉ l.*1) ->
  (forall a, anchor = Some a -> is_Some (dl_byID L !! a)) ->
  exists l', holds (insertBefore id d anchor L) l' /\ Forall keyed l'.
Proof.
  intros HL Hl Hd Hid Ha. destruct (anchor_split _ _ _ HL Ha) as (A & B & -> & <-).
  exists (A ++ (id, d) :: B). split; [by apply insert_holds|]. apply Forall_app in Hl as [HA HB].
  apply Forall_app. split; [done|]. by constructor.
Qed.

Lemma has_id_keyed id d : documentHasID (Some d) id = true -> keyed (id, d).
Proof.
  unfold documentHasID. destruct (Document_ID d) as [i|] eqn:Ei; [|done]. rewrite !andb_true_iff, negb_true_iff.
  intros [[Hz ->%beqb_eq] _]. split; [cbn; unfold id_of; by rewrite Ei|by exists id].
Qed.

Lemma apply_operation_total o L l : holds L l -> Forall keyed l ->
  match apply_operation o L with
  | Ok L' => exists l', holds L' l' /\ Forall keyed l'
  | Err e => e = ErrInvalidDelta
  end.
Proof.
  intros HL Hl. unfold apply_operation. destruct (all_zero (op_documentID o)); [done|].
  set (id := op_documentID o) in *.
  match goal with |- context [rbind ?m _] => destruct m as [u|e] eqn:Eanchor end; cbn [rbind].
  2: { destruct (op_beforeID o) as [b|]; [|done]. destruct (dl_byID L !! b); [destruct (beqb b id)|]; congruence. }
  assert (Ha : forall a, op_beforeID o = Some a -> is_Some (dl_byID L !! a) /\ a <> id).
  { intros a Ea. rewrite Ea in Eanchor. destruct (dl_byID L !! a) eqn:En; [|done]. split; [eauto|].
    intros ->. by rewrite (proj2 (beqb_eq _ _) eq_refl) in Eanchor. }
  assert (Hpresent : forall n, dl_byID L !! id = Some n -> exists l1 d l2, l = l1 ++ (id, d) :: l2 /\ dn_document n = d /\ Forall keyed (l1 ++ l2) /\ keyed (id, d)).
  { intros n Hn. destruct (holds_split _ _ _ _ HL Hn) as (l1 & d & l2 & -> & ->). exists l1, d, l2.
    apply Forall_app in Hl as [H1 [H2 H3]%Forall_cons]. split_and!; [done|done|by apply Forall_app|done]. }
  destruct (beqb (op_kind o) QueryDeltaRemove); [|destruct (beqb (op_kind o) QueryDeltaAdd); [|
    destruct (beqb (op_kind o) QueryDeltaMove); [|destruct (beqb (op_kind o) QueryDeltaChange); [|done]]]].
  - destruct (dl_byID L !! id) as [n|] eqn:En, (op_beforeID o), (op_document o); try done.
    destruct (Hpresent n eq_refl) as (l1 & d & l2 & -> & _ & Hk & _). exists (l1 ++ l2). split; [by eapply remove_holds|done].
  - destruct (dl_byID L !! id) as [n|] eqn:En, (op_document o) as [d|]; try done.
    destruct (documentHasID (Some d) id) eqn:Ed; [|done]. apply has_id_keyed in Ed.
    apply (insert_somewhere L l); [done..| |intros a Hanchor; by apply Ha].
    intros Hin. apply list_elem_of_fmap in Hin as ([i di] & Hi & (l1 & l2 & ->)%list_elem_of_split). cbn in Hi. subst i.
    by rewrite (holds_lookup _ _ _ _ _ HL) in En.
  - destruct (dl_byID L !! id) as [n|] eqn:En, (op_document o); try done. case_decide; [done|].
    destruct (Hpresent n eq_refl) as (l1 & d & l2 & -> & -> & Hk & Hd). pose proof (remove_holds _ _ _ _ _ HL) as HL'.
    pose proof (ho_distinct _ _ HL) as (_ & _ & Hn1 & Hn2 & _)%nodup_parts.
    apply (insert_somewhere _ (l1 ++ l2)); [done..|rewrite fmap_app, elem_of_app; tauto|].
    intros a Hanchor. destruct (Ha a Hanchor) as [[na Hna] Hne]. apply (ho_only _ _ HL) in Hna.
    assert (Hin : a ∈ (l1 ++ l2).*1).
    { rewrite fmap_app, elem_of_app in Hna |- *. cbn in Hna. rewrite elem_of_cons in Hna. tauto. }
    apply list_elem_of_fmap in Hin as ([i di] & Hi & (m1 & m2 & Em)%list_elem_of_split). cbn in Hi. subst i.
    rewrite Em in HL'. rewrite (holds_lookup _ _ _ _ _ HL'). eauto.
  - destruct (dl_byID L !! id) as [n|] eqn:En, (op_beforeID o), (op_document o) as [d|]; try done.
    destruct (documentHasID (Some d) id) eqn:Ed; [|done]. apply has_id_keyed in Ed.
    destruct (Hpresent n eq_refl) as (l1 & d0 & l2 & -> & _ & Hk & _). exists (l1 ++ (id, d) :: l2).
    split; [by eapply change_holds|]. apply Forall_app in Hk as [H1 H2]. apply Forall_app. split; [done|by constructor].
Qed.

Lemma apply_operations_total operations L l : holds L l -> Forall keyed l ->
  match apply_operations operations L with
  | Ok L' => exists l', holds L' l' /\ Forall keyed l'
  | Err e => e = ErrInvalidDelta
  end.
Proof.
  revert L l. induction operations as [|o operations IH]; intros L l HL Hl; cbn; [by exists l|].
  pose proof (apply_operation_total o L l HL Hl) as Ho. destruct (apply_operation o L) as [L1|e]; [|done].
  destruct Ho as (l1 & HL1 & Hl1). by apply (IH L1 l1).
Qed.

(** C39: Whatever delta a subscriber receives, [ApplyQueryDelta] returns a result
    whose documents have valid, distinct identifiers, under the token of the
    delta, or [ErrInvalidDelta]; it neither panics on its linked list nor loops,
    and it accepts only a delta that starts at the token of the snapshot and
    moves it forward. *)
Theorem ApplyQueryDelta_safe snapshot delta :
  match ApplyQueryDelta snapshot delta with
  | Ok after => qs_token snapshot = de_fromToken delta /\ de_fromToken delta < de_token delta /\
                qs_token after = de_token delta /\ distinct_ids (qs_documents after)
  | Err e => e = ErrInvalidDelta
  end.
Proof.
  unfold ApplyQueryDelta. destruct (Z.eqb_spec (de_fromToken delta) (qs_token snapshot)) as [Hfrom|]; [|done].
  destruct (Z.leb_spec (de_token delta) (de_fromToken delta)) as [|Hto]; [done|]. cbn [negb orb].
  destruct (zlen (de_operations delta) =? 0); [done|].
  pose proof (newQueryDeltaList_spec (qs_documents snapshot)) as Hnew.
  destruct (newQueryDeltaList _) as [[L m]|e]; [|tauto]. destruct Hnew as ([Hid _] & HL & _). cbn [rbind].
  pose proof (apply_operations_total (de_operations delta) L _ HL (entries_keyed _ Hid)) as Hops.
  destruct (apply_operations _ L) as [L'|e]; [|done]. destruct Hops as (l' & HL' & Hl'). cbn [rbind].
  rewrite (collect_all _ _ HL'). cbn [rbind qs_token qs_documents]. split_and!; [done|done|done|].
  assert (Hids : id_of <$> l'.*2 = l'.*1).
  { rewrite <- list_fmap_compose. apply list_fmap_ext. intros i e Hi. symmetry. by apply (Forall_lookup_1 _ _ _ _ Hl' Hi). }
  split; [apply Forall_fmap; eapply Forall_impl; [exact Hl'|]; intros e [_ He]; exact He|rewrite Hids; apply (ho_distinct _ _ HL')].
Qed.

(** ** The edits lead from one result to the next *)

Lemma slow_delta_spec previous next token : distinct_ids previous -> distinct_ids next -> Forall acceptable next ->
  exists operations T,
    (let* (oldList, oldDocuments) := newQueryDeltaList previous in
     let* (_, nextDocuments) := newQueryDeltaList next in
     let* (oldList, removals) := remove_missing (length previous) (dl_head oldList) nextDocuments oldList in
     Ok (mk_shared token (removals ++ place_all (rev next) None oldDocuments oldList)))
      = Ok (mk_shared token operations) /\
    edits operations (entries previous) T /\ Forall2 (settled previous) T next.
Proof.
  intros Hprevious Hnext Hok. pose proof (newQueryDeltaList_spec previous) as Hp. pose proof (newQueryDeltaList_spec next) as Hn.
  destruct (newQueryDeltaList previous) as [[L old]|e]; [|tauto]. destruct (newQueryDeltaList next) as [[Ln nextDocuments]|e]; [|tauto].
  destruct Hp as (_ & HL & Hold & _). destruct Hn as (_ & _ & Hin & Hout). cbn [rbind].
  destruct (remove_missing_spec nextDocuments [] (entries previous) L (length previous)) as (L' & removals & E & HL' & Hed).
  - done.
  - unfold entries. by rewrite length_fmap.
  - apply Forall_fmap. destruct Hprevious as [Hp _]. eapply Forall_impl; [exact Hp|]. intros d [_ Hz]%identified_id. done.
  - rewrite (ho_head _ _ HL), E. cbn [rbind]. cbn [app] in HL', Hed.
    set (A := filter (kept nextDocuments) (entries previous)) in *. destruct Hnext as [Hnid Hnnd].
    destruct (place_all_spec previous old Hold (rev next) A [] [] L') as (T & HT & Hs).
    + by apply Forall_rev.
    + apply Forall_forall. intros e [_ (d & -> & Hd)%list_elem_of_fmap]%list_elem_of_filter. done.
    + done.
    + by rewrite <- (Permutation_rev next).
    + intros i _. by apply not_elem_of_nil.
    + intros i (e & -> & [[n Hn] He]%list_elem_of_filter)%list_elem_of_fmap. rewrite <- (Permutation_rev next).
      destruct (decide (e.1 ∈ id_of <$> next)) as [Hd|Hd]; [done|]. apply Hout in Hd. congruence.
    + by rewrite app_nil_r.
    + rewrite rev_involutive in Hs. rewrite !app_nil_r in HT. exists (removals ++ place_all (rev next) None old L'), T.
      split_and!; [done| |done]. by apply (edits_app removals _ _ A).
Qed.

Lemma delta_between previous next from token :
  distinct_ids previous -> distinct_ids next -> Forall (fun d => Validate d = true) next -> from < token ->
  exists operations,
    buildSharedQueryDelta previous next token = Ok (mk_shared token operations) /\
    (operations = [] <-> Forall2 unchanged previous next) /\
    (operations <> [] -> exists documents,
       ApplyQueryDelta (mk_qsnapshot from previous) (cloneSharedQueryDelta (mk_shared token operations) from)
         = Ok (mk_qsnapshot token documents) /\
       Forall2 (fun d n => id_of d = id_of n /\ (d = n \/ d ∈ previous /\ Document_Equal d n = true)) documents next).
Proof.
  intros Hprevious Hnext Hvalid Htoken.
  assert (Hok : Forall acceptable next) by (apply Forall_and; split; [apply Hnext|done]).
  assert (Hbuild : exists operations T, buildSharedQueryDelta previous next token = Ok (mk_shared token operations) /\
    edits operations (entries previous) T /\ Forall2 (settled previous) T next /\
    (operations = [] <-> Forall2 unchanged previous next)).
  { destruct (slow_delta_spec previous next token) as (ops & T & E & Hed & Hs); [done..|].
    assert (Hslow : id_of <$> previous <> id_of <$> next -> (ops = [] <-> Forall2 unchanged previous next)).
    { intros Hne. split.
      - intros ->. pose proof (newQueryDeltaList_spec previous) as Hp. destruct (newQueryDeltaList previous) as [[L m]|e]; [|tauto].
        destruct Hp as (_ & HL & _). destruct (Hed L HL) as (L' & [= <-] & HL'). pose proof (holds_inj _ _ _ HL HL') as <-.
        exfalso. apply Hne. rewrite <- entries_ids. clear -Hs. induction Hs as [|e d T next [He _] _ IH]; cbn; congruence.
      - intros Hsame. exfalso. apply Hne. clear -Hsame. induction Hsame as [|p n previous next [He _] _ IH]; cbn; congruence. }
    unfold buildSharedQueryDelta. destruct (Z.eqb_spec (zlen previous) (zlen next)) as [Hlen|Hlen]; cbn [rbind].
    - pose proof (same_order_spec previous next ltac:(unfold zlen in Hlen; lia) (proj1 Hprevious) Hok) as Hquick.
      destruct (same_order previous next) as [[quick|]|e]; cbn [rbind]; [| |done].
      + destruct Hquick as (_ & Hempty & Hedits). destruct (Hedits previous []) as (T' & HT' & Hs'); [done|].
        by exists quick, T'.
      + exists ops, T. auto.
    - exists ops, T. split_and!; [done|done|done|]. apply Hslow. intros Hids. apply Hlen. unfold zlen.
      by rewrite <- (length_fmap id_of previous), Hids, length_fmap. }
  destruct Hbuild as (ops & T & E & Hed & Hs & Hempty). exists ops. split_and!; [done|done|]. intros Hne. exists T.*2.
  split.
  - unfold ApplyQueryDelta, cloneSharedQueryDelta. cbn [de_fromToken de_token de_operations qs_token qs_documents sd_token sd_operations].
    rewrite Z.eqb_refl, (proj2 (Z.leb_gt _ _) Htoken). cbn [negb orb].
    assert ((zlen ops =? 0) = false) as -> by (destruct ops; [done|rewrite zlen_cons; apply Z.eqb_neq; pose proof (zlen_nonneg ops); lia]).
    pose proof (newQueryDeltaList_spec previous) as Hp. destruct (newQueryDeltaList previous) as [[L m]|e]; [|tauto].
    destruct Hp as (_ & HL & _). cbn [rbind]. destruct (Hed L HL) as (L' & E' & HL'). rewrite E'. cbn [rbind].
    by rewrite (collect_all _ _ HL').
  - apply Forall2_fmap_l. eapply Forall2_impl; [exact Hs|]. intros e d (_ & Hid & Hd). by split.
Qed.

(** C38: The delta built from a result to the next one is empty exactly when the
    documents are equal in order; otherwise [ApplyQueryDelta] accepts it on the
    previous result and returns, under the new token, the documents of the next
    result in their order, where a document equal to the old one may be the old
    copy. The identifiers of a result are distinct and not zero, and its
    documents valid. *)
Theorem query_deltas_lead_to_next previous next from token :
  distinct_ids previous -> distinct_ids next -> Forall (fun d => Validate d = true) next -> from < token ->
  exists operations,
    buildSharedQueryDelta previous next token = Ok (mk_shared token operations) /\
    (operations = [] <-> Forall2 unchanged previous next) /\
    (operations <> [] -> exists documents,
       ApplyQueryDelta (mk_qsnapshot from previous) (cloneSharedQueryDelta (mk_shared token operations) from)
         = Ok (mk_qsnapshot token documents) /\
       Forall2 (fun d n => id_of d = id_of n /\ (d = n \/ d ∈ previous /\ Document_Equal d n = true)) documents next).
Proof. apply delta_between. Qed.

(** ** A concrete delta *)

Definition example_doc (last : byte) (n : Z) : document :=
  [(bs "_id", VID (replicate 15 x00 ++ [last])); (bs "n", VInt n)].
Definition example_before : list document := [example_doc x01 1; example_doc x02 2; example_doc x03 3].
Definition example_after : list document := [example_doc x03 4; example_doc x02 2; example_doc x04 5].

Definition example_operations : list QueryDeltaOperation :=
    [mk_op QueryDeltaRemove (id_of (example_doc x01 1)) None None;
     mk_op QueryDeltaAdd (id_of (example_doc x04 5)) None (Some (example_doc x04 5));
     mk_op QueryDeltaMove (id_of (example_doc x02 2)) (Some (id_of (example_doc x04 5))) None;
     mk_op QueryDeltaChange (id_of (example_doc x03 4)) None (Some (example_doc x03 4))].

Example example_delta : buildSharedQueryDelta example_before example_after 8 = Ok (mk_shared 8 example_operations).
Proof. vm_compute. reflexivity. Qed.

Lemma example_identified last n : b2z last <> 0 -> identified (example_doc last n).
Proof.
  intros Hlast. exists (replicate 15 x00 ++ [last]). split; [reflexivity|]. unfold all_zero. rewrite forallb_app. cbn.
  by rewrite (proj2 (Z.eqb_neq _ _) Hlast).
Qed.

Lemma query_deltas_lead_to_next_witness :
  distinct_ids example_before /\ distinct_ids example_after /\ 7 < 8 /\
  exists operations documents, operations <> [] /\
    ApplyQueryDelta (mk_qsnapshot 7 example_before) (cloneSharedQueryDelta (mk_shared 8 operations) 7)
      = Ok (mk_qsnapshot 8 documents) /\
    Forall2 (fun d n => id_of d = id_of n /\ (d = n \/ d ∈ example_before /\ Document_Equal d n = true)) documents example_after.
Proof.
  assert (Hb : distinct_ids example_before).
  { split; [by repeat (constructor; [apply example_identified; vm_compute; congruence|])|].
    apply (bool_decide_unpack _). vm_compute. exact I. }
  assert (Ha : distinct_ids example_after).
  { split; [by repeat (constructor; [apply example_identified; vm_compute; congruence|])|].
    apply (bool_decide_unpack _). vm_compute. exact I. }
  assert (Hv : Forall (fun d => Validate d = true) example_after).
  { repeat (constructor; [vm_compute; reflexivity|]). constructor. }
  split; [exact Hb|]. split; [exact Ha|]. split; [lia|].
  destruct (query_deltas_lead_to_next example_before example_after 7 8 Hb Ha Hv ltac:(lia)) as (ops & E & _ & Happly).
  rewrite example_delta in E. injection E as <-. exists example_operations.
  assert (Hne : example_operations <> []) by discriminate. destruct (Happly Hne) as (documents & Hd & Hall).
  exists documents. split; [exact Hne|]. split; [exact Hd|exact Hall].
Defined.
