(* ===== verification/ReactiveTrees.v ===== *)
(** * The persistent trees of reactive views

    [internal/database/reactive_tree.go]: two treaps over the members of a view,
    one by identifier and one in the order of the results, which counts its
    subtrees. The code has one set of functions per tree, alike but for the
    counts; here a node carries a note - nothing, or the count - and one set of
    functions is used at both. A node is never changed once a tree is published,
    so nodes are values. The hash that gives a document its priority is a
    parameter. *)
From stdpp Require Import gmap.
From Stdlib Require Import Permutation Sorted.
From S2P Require Import Prelude Bytes Strings Entries Float64 Values Documents Query Orders QueryResults.
#[local] Open Scope Z_scope.

Record reactiveMember := mk_member { rm_document : document; rm_position : Z; rm_bytes : Z }.
Record reactiveTreeEntry := mk_tentry { te_id : bytes; te_member : reactiveMember }.

(** [reactiveIDNode] with the note [unit], [reactiveOrderNode] with its size. *)
Inductive reactiveNode (A : Type) :=
| Nil
| Node (left : reactiveNode A) (e : reactiveTreeEntry) (priority : Z) (note : A) (right : reactiveNode A).
Arguments Nil {A}.
Arguments Node {A} left e priority note right.

(** ** Comparisons *)

Definition compareDocumentIDs (left right : bytes) : Z := cmp_of (bcompare left right).

Definition higherReactivePriority (leftPriority : Z) (leftID : bytes) (rightPriority : Z) (rightID : bytes) : bool :=
  if negb (leftPriority =? rightPriority) then rightPriority <? leftPriority
  else compareDocumentIDs leftID rightID <? 0.

Definition candidate_of (e : reactiveTreeEntry) : queryCandidate :=
  mk_candidate (rm_document (te_member e)) (rm_position (te_member e)).

(** The sort fields and the position are compared as [compareCandidates] compares
    them. *)
Definition compareReactiveOrder (q : QuerySpec) (left right : reactiveTreeEntry) : Z :=
  let comparison := compare_fields (q_sort q) (candidate_of left) (candidate_of right) in
  if comparison =? 0 then compareDocumentIDs (te_id left) (te_id right) else comparison.

Definition compare_ids (left right : reactiveTreeEntry) : Z := compareDocumentIDs (te_id left) (te_id right).

(** ** Operations *)

Section Operations.
Context {A : Type} (none : A) (count : A -> A -> A).
Context (compare : reactiveTreeEntry -> reactiveTreeEntry -> Z) (priority : bytes -> Z).
Abbreviation tree := (reactiveNode A).

Definition note_of (t : tree) : A := match t with Nil => none | Node _ _ _ note _ => note end.

(** A node with the note of its children. *)
Definition make (left : tree) (e : reactiveTreeEntry) (p : Z) (right : tree) : tree :=
  Node left e p (count (note_of left) (note_of right)) right.

Definition rotate_right (left : tree) (e : reactiveTreeEntry) (p : Z) (right : tree) : tree :=
  match left with
  | Nil => make left e p right
  | Node ll le lp _ lr => make ll le lp (make lr e p right)
  end.

Definition rotate_left (left : tree) (e : reactiveTreeEntry) (p : Z) (right : tree) : tree :=
  match right with
  | Nil => make left e p right
  | Node rl re rp _ rr => make (make left e p rl) re rp rr
  end.

Definition higher_root (t : tree) (e : reactiveTreeEntry) (p : Z) : bool :=
  match t with
  | Nil => false
  | Node _ te tp _ _ => higherReactivePriority tp (te_id te) p (te_id e)
  end.

Fixpoint put (root : tree) (x : reactiveTreeEntry) : tree :=
  match root with
  | Nil => make Nil x (priority (te_id x)) Nil
  | Node l e p _ r =>
      let comparison := compare x e in
      if comparison <? 0 then
        let l := put l x in
        if higher_root l e p then rotate_right l e p r else make l e p r
      else if 0 <? comparison then
        let r := put r x in
        if higher_root r e p then rotate_left l e p r else make l e p r
      else make l (mk_tentry (te_id e) (te_member x)) p r
  end.

Fixpoint merge (left : tree) : tree -> tree :=
  match left with
  | Nil => fun right => right
  | Node ll le lp _ lr =>
      fix merge_left (right : tree) : tree :=
        match right with
        | Nil => left
        | Node rl re rp _ rr =>
            if higherReactivePriority lp (te_id le) rp (te_id re)
            then make ll le lp (merge lr right)
            else make (merge_left rl) re rp rr
        end
  end.

Fixpoint del (root : tree) (x : reactiveTreeEntry) : tree :=
  match root with
  | Nil => Nil
  | Node l e p _ r =>
      let comparison := compare x e in
      if comparison <? 0 then make (del l x) e p r
      else if 0 <? comparison then make l e p (del r x)
      else merge l r
  end.

(** *** Bulk construction

    A node on the stack has the node above it as its right child, so the stack
    holds left children and entries, and the links are made when it unwinds. *)
Definition frame : Type := tree * reactiveTreeEntry * Z.

Fixpoint pop (p : Z) (id : bytes) (stack : list frame) (left : tree) : list frame * tree :=
  match stack with
  | [] => ([], left)
  | (l, e, q) :: below =>
      if higherReactivePriority p id q (te_id e) then pop p id below (Node l e q (count none none) left)
      else (stack, left)
  end.

Definition push (stack : list frame) (x : reactiveTreeEntry) : list frame :=
  let p := priority (te_id x) in
  let '(stack, l) := pop p (te_id x) stack Nil in (l, x, p) :: stack.

Fixpoint unwind (stack : list frame) (right : tree) : tree :=
  match stack with
  | [] => right
  | (l, e, q) :: below => unwind below (Node l e q (count none none) right)
  end.

Definition bulk (entries : list reactiveTreeEntry) : tree := unwind (fold_left push entries []) Nil.

Fixpoint recompute (t : tree) : tree :=
  match t with
  | Nil => Nil
  | Node l e p _ r => make (recompute l) e p (recompute r)
  end.
End Operations.

(** ** The two trees *)

Definition reactiveIDNode : Type := reactiveNode unit.
Definition reactiveOrderNode : Type := reactiveNode Z.

Definition no_count (_ _ : unit) : unit := tt.
Definition recomputeReactiveOrderSize (left right : Z) : Z := to_u64 (1 + left + right).
Definition reactiveOrderSize (t : reactiveOrderNode) : Z := note_of 0 t.

Fixpoint reactiveIDGet (root : reactiveIDNode) (id : bytes) : option reactiveMember :=
  match root with
  | Nil => None
  | Node l e _ _ r =>
      let comparison := compareDocumentIDs id (te_id e) in
      if comparison <? 0 then reactiveIDGet l id
      else if 0 <? comparison then reactiveIDGet r id
      else Some (te_member e)
  end.

Section Trees.
Context (priority : bytes -> Z) (q : QuerySpec).

Definition reactiveIDPut (root : reactiveIDNode) (id : bytes) (member : reactiveMember) : reactiveIDNode :=
  put tt no_count compare_ids priority root (mk_tentry id member).
(** The member of the entry deleted is not looked at. *)
Definition reactiveIDDelete (root : reactiveIDNode) (id : bytes) : reactiveIDNode :=
  del tt no_count compare_ids root (mk_tentry id (mk_member [] 0 0)).
Definition reactiveOrderPut (root : reactiveOrderNode) (id : bytes) (member : reactiveMember) : reactiveOrderNode :=
  put 0 recomputeReactiveOrderSize (compareReactiveOrder q) priority root (mk_tentry id member).
Definition reactiveOrderDelete (root : reactiveOrderNode) (id : bytes) (member : reactiveMember) : reactiveOrderNode :=
  del 0 recomputeReactiveOrderSize (compareReactiveOrder q) root (mk_tentry id member).

Definition bulkReactiveIDTree (entries : list reactiveTreeEntry) : reactiveIDNode := bulk tt no_count priority entries.
Definition bulkReactiveOrderTree (entries : list reactiveTreeEntry) : reactiveOrderNode :=
  recompute 0 recomputeReactiveOrderSize (bulk 0 recomputeReactiveOrderSize priority entries).

(** [sort.Slice] with comparisons that tell all entries apart. *)
Definition buildReactiveTrees (entries : list reactiveTreeEntry) : reactiveIDNode * reactiveOrderNode :=
  if zlen entries =? 0 then (Nil, Nil)
  else (bulkReactiveIDTree (sort_stable (fun a b => compare_ids a b <? 0) entries),
        bulkReactiveOrderTree (sort_stable (fun a b => compareReactiveOrder q a b <? 0) entries)).
End Trees.

Fixpoint collectReactiveOrder (node : reactiveOrderNode) (base start end_ : Z) : list document :=
  match node with
  | Nil => []
  | Node l e _ _ r =>
      if end_ <=? start then []
      else
        let position := to_u64 (base + reactiveOrderSize l) in
        (if start <? position then collectReactiveOrder l base start end_ else [])
        ++ (if (start <=? position) && (position <? end_) then [rm_document (te_member e)] else [])
        ++ (if to_u64 (position + 1) <? end_ then collectReactiveOrder r (to_u64 (position + 1)) start end_ else [])
  end.

Definition materializeReactiveOrder (root : reactiveOrderNode) (skip : Z) (limit : option Z) : list document :=
  let total := reactiveOrderSize root in
  let start := if total <? to_u64 skip then total else to_u64 skip in
  let end_ := match limit with
              | Some limit => if to_u64 limit <? to_u64 (total - start) then to_u64 (start + to_u64 limit) else total
              | None => total
              end in
  collectReactiveOrder root 0 start end_.

(** ** The members of a tree in order *)

Fixpoint elements {A} (t : reactiveNode A) : list reactiveTreeEntry :=
  match t with Nil => [] | Node l e _ _ r => elements l ++ e :: elements r end.

(** What [put] and [del] do to a sorted list. *)
Section Lists.
Context (c : reactiveTreeEntry -> reactiveTreeEntry -> comparison) `{!Lawful c}.

Fixpoint put_list (x : reactiveTreeEntry) (l : list reactiveTreeEntry) : list reactiveTreeEntry :=
  match l with
  | [] => [x]
  | y :: l' =>
      match c x y with
      | Lt => x :: l
      | Gt => y :: put_list x l'
      | Eq => mk_tentry (te_id y) (te_member x) :: l'
      end
  end.

Fixpoint del_list (x : reactiveTreeEntry) (l : list reactiveTreeEntry) : list reactiveTreeEntry :=
  match l with
  | [] => []
  | y :: l' => match c x y with Eq => l' | _ => y :: del_list x l' end
  end.

Definition ascending (l : list reactiveTreeEntry) : Prop := StronglySorted (fun a b => c a b = Lt) l.

Lemma ascending_node l e r : ascending (l ++ e :: r) <->
  ascending l /\ ascending r /\ Forall (fun y => c y e = Lt) l /\ Forall (fun y => c e y = Lt) r.
Proof using Lawful0.
  unfold ascending. split.
  - intros H. split_and!; [by eapply StronglySorted_app_1_l| | |].
    + by apply StronglySorted_app_1_r, StronglySorted_inv in H as [H _].
    + apply Forall_forall. intros y Hy. eapply (StronglySorted_app_1_elem_of (fun a b => c a b = Lt)) in H; [exact H|done|by left].
    + by apply StronglySorted_app_1_r, StronglySorted_inv in H as [_ H].
  - intros (Hl & Hr & Hle & Her). apply StronglySorted_app_2; [|done|by constructor].
    intros y z Hy [->|Hz]%elem_of_cons; rewrite Forall_forall in Hle, Her; [by apply Hle|].
    apply (law_trans _ e); auto.
Qed.

Lemma flip_gt a b : c a b = Lt -> c b a = Gt.
Proof using Lawful0. rewrite (law_opp (c := c) a b). by intros ->. Qed.
Lemma flip_lt a b : c a b = Gt -> c b a = Lt.
Proof using Lawful0. rewrite (law_opp (c := c) a b). by intros ->. Qed.
Lemma flip_eq a b : c a b = Eq -> c b a = Eq.
Proof using Lawful0. rewrite (law_opp (c := c) a b). by intros ->. Qed.

Lemma below_all x e l : c x e <> Lt -> Forall (fun y => c y e = Lt) l -> Forall (fun y => c x y = Gt) l.
Proof using Lawful0.
  intros Hx Hl. eapply Forall_impl; [exact Hl|]. intros y Hy. destruct (c x e) eqn:E; [|done|].
  - rewrite (law_eq x e y E). by apply flip_gt.
  - apply flip_gt. apply (law_trans _ e); [done|by apply flip_lt].
Qed.

Lemma above_all x e l : c x e <> Gt -> Forall (fun y => c e y = Lt) l -> Forall (fun y => c x y = Lt) l.
Proof using Lawful0.
  intros Hx Hl. eapply Forall_impl; [exact Hl|]. intros y Hy. destruct (c x e) eqn:E; [|by apply (law_trans _ e)|done].
  by rewrite (law_eq x e y E).
Qed.

Lemma put_list_left x e l r : c x e = Lt -> put_list x (l ++ e :: r) = put_list x l ++ e :: r.
Proof. intros Hx. induction l as [|y l IH]; cbn; [by rewrite Hx|]. destruct (c x y); [done|done|by rewrite IH]. Qed.
Lemma put_list_skip x l r : Forall (fun y => c x y = Gt) l -> put_list x (l ++ r) = l ++ put_list x r.
Proof. induction 1 as [|y l Hy _ IH]; cbn; [done|]. by rewrite Hy, IH. Qed.

Lemma del_list_skip x l r : Forall (fun y => c x y <> Eq) l -> del_list x (l ++ r) = l ++ del_list x r.
Proof. induction 1 as [|y l Hy _ IH]; cbn; [done|]. destruct (c x y); [done|by rewrite IH..]. Qed.
Lemma del_list_left x l r : Forall (fun y => c x y <> Eq) r -> del_list x (l ++ r) = del_list x l ++ r.
Proof.
  intros Hr. induction l as [|y l IH]; cbn.
  - rewrite <- (app_nil_r r) at 1. rewrite del_list_skip by done. cbn. apply app_nil_r.
  - destruct (c x y); [done|by rewrite IH..].
Qed.

Lemma put_list_ids x l : (put_list x l ≡ₚ x :: l) \/ exists l1 y l2, l = l1 ++ y :: l2 /\ c x y = Eq /\
  put_list x l = l1 ++ mk_tentry (te_id y) (te_member x) :: l2.
Proof.
  induction l as [|y l IH]; cbn; [by left|]. destruct (c x y) eqn:E; [| by left|].
  - right. by exists [], y, l.
  - destruct IH as [IH|(l1 & z & l2 & -> & Hz & ->)]; [left; rewrite IH; by constructor|].
    right. by exists (y :: l1), z, l2.
Qed.

Lemma put_list_absent x l : Forall (fun y => c x y <> Eq) l -> put_list x l ≡ₚ x :: l.
Proof.
  intros H. destruct (put_list_ids x l) as [|(l1 & y & l2 & -> & Hy & _)]; [done|].
  apply Forall_app in H as [_ [H _]%Forall_cons]. done.
Qed.

Lemma put_list_ascending x l : Forall (fun y => c x y <> Eq) l -> ascending l -> ascending (put_list x l).
Proof using Lawful0.
  intros Hx Hl. unfold ascending in *. induction Hl as [|y l Hl IH Hy]; cbn; [repeat constructor|].
  apply Forall_cons in Hx as [Hxy Hx]. destruct (c x y) eqn:E; [done| |].
  - constructor; [by constructor|]. constructor; [done|]. by apply (above_all x y); [congruence|].
  - constructor; [by apply IH|]. rewrite put_list_absent by done. constructor; [by apply flip_lt|done].
Qed.

Lemma del_list_sublist x l : sublist (del_list x l) l.
Proof.
  induction l as [|y l IH]; cbn; [constructor|]. destruct (c x y); [by apply sublist_cons|by apply sublist_skip..].
Qed.

Lemma ascending_sublist l l' : sublist l l' -> ascending l' -> ascending l.
Proof.
  intros Hsub. unfold ascending. induction Hsub as [|y l l' Hsub IH|y l l' Hsub IH]; [done| |].
  - intros [Hl Hy]%StronglySorted_inv. constructor; [by apply IH|].
    rewrite Forall_forall in Hy |- *. intros z Hz. apply Hy. by eapply elem_of_sublist.
  - intros [Hl _]%StronglySorted_inv. by apply IH.
Qed.
End Lists.

(** ** What the operations do to the members *)

Section Members.
Context {A : Type} (none : A) (count : A -> A -> A).
Context (compare : reactiveTreeEntry -> reactiveTreeEntry -> Z) (priority : bytes -> Z).
Context (c : reactiveTreeEntry -> reactiveTreeEntry -> comparison) `{!Lawful c}.
Abbreviation tree := (reactiveNode A).

(** The code's comparison is [c] on the entries at hand. *)
Definition agrees (x : reactiveTreeEntry) (l : list reactiveTreeEntry) : Prop :=
  Forall (fun y => compare x y = cmp_of (c x y)) l.

Lemma elements_make l e p r : elements (make none count l e p r) = elements l ++ e :: elements r.
Proof. done. Qed.
Lemma elements_rotate_right l e p r : elements (rotate_right none count l e p r) = elements l ++ e :: elements r.
Proof. destruct l; cbn; [done|]. by rewrite <- app_assoc. Qed.
Lemma elements_rotate_left l e p r : elements (rotate_left none count l e p r) = elements l ++ e :: elements r.
Proof. destruct r; cbn; [done|]. by rewrite <- app_assoc. Qed.

Lemma elements_put t x : ascending c (elements t) -> agrees x (elements t) ->
  elements (put none count compare priority t x) = put_list c x (elements t).
Proof using Lawful0.
  induction t as [|l IHl e p n r IHr]; intros Ho Hx; [done|]. cbn [elements] in *.
  apply (ascending_node c) in Ho as (Hl & Hr & Hle & Her).
  apply Forall_app in Hx as [Hxl [Hxe Hxr]%Forall_cons]. cbn [put]. rewrite Hxe.
  destruct (c x e) eqn:E; cbn [cmp_of Z.ltb Z.compare].
  - rewrite elements_make, put_list_skip by (by apply (below_all c x e); [congruence|]). cbn. by rewrite E.
  - rewrite put_list_left, <- IHl by done.
    destruct (higher_root _ _ _); [apply elements_rotate_right|apply elements_make].
  - rewrite put_list_skip by (by apply (below_all c x e); [congruence|]). cbn [put_list]. rewrite E, <- IHr by done.
    destruct (higher_root _ _ _); [apply elements_rotate_left|apply elements_make].
Qed.

Lemma merge_nodes ll le lp ln lr rl re rp rn rr :
  merge none count (Node ll le lp ln lr) (Node rl re rp rn rr) =
  if higherReactivePriority lp (te_id le) rp (te_id re)
  then make none count ll le lp (merge none count lr (Node rl re rp rn rr))
  else make none count (merge none count (Node ll le lp ln lr) rl) re rp rr.
Proof. done. Qed.

Lemma elements_merge (t t' : tree) : elements (merge none count t t') = elements t ++ elements t'.
Proof.
  revert t'. induction t as [|ll _ le lp ln lr IHr]; intros t'; [done|].
  induction t' as [|rl IHl re rp rn rr _]; [cbn; by rewrite app_nil_r|]. rewrite merge_nodes.
  destruct (higherReactivePriority _ _ _ _).
  - rewrite elements_make, IHr. cbn. by rewrite <- !app_assoc.
  - rewrite elements_make, IHl. cbn. by rewrite <- !app_assoc.
Qed.

Lemma not_eq_of (P : comparison) (x : reactiveTreeEntry) l : P <> Eq -> Forall (fun y => c x y = P) l -> Forall (fun y => c x y <> Eq) l.
Proof. intros HP Hl. eapply Forall_impl; [exact Hl|]. intros y ->. done. Qed.

Lemma elements_del t x : ascending c (elements t) -> agrees x (elements t) ->
  elements (del none count compare t x) = del_list c x (elements t).
Proof using Lawful0.
  induction t as [|l IHl e p n r IHr]; intros Ho Hx; [done|]. cbn [elements] in *.
  apply (ascending_node c) in Ho as (Hl & Hr & Hle & Her).
  apply Forall_app in Hx as [Hxl [Hxe Hxr]%Forall_cons]. cbn [del]. rewrite Hxe.
  destruct (c x e) eqn:E; cbn [cmp_of Z.ltb Z.compare].
  - rewrite elements_merge, del_list_skip by (apply (not_eq_of Gt); [done|]; apply (below_all c x e); [congruence|done]).
    cbn. by rewrite E.
  - rewrite elements_make, IHl by done. rewrite del_list_left; [done|]. constructor; [congruence|].
    apply (not_eq_of Lt); [done|]. by apply (above_all c x e); [congruence|].
  - rewrite elements_make, IHr by done.
    rewrite del_list_skip by (apply (not_eq_of Gt); [done|]; apply (below_all c x e); [congruence|done]).
    cbn. by rewrite E.
Qed.

(** *** Notes *)

(** Every node notes what [count] makes of its children. *)
Fixpoint counted (t : tree) : Prop :=
  match t with
  | Nil => True
  | Node l _ _ note r => note = count (note_of none l) (note_of none r) /\ counted l /\ counted r
  end.

Lemma counted_make l e p r : counted l -> counted r -> counted (make none count l e p r).
Proof. done. Qed.
Lemma counted_rotate_right l e p r : counted l -> counted r -> counted (rotate_right none count l e p r).
Proof. destruct l; cbn; tauto. Qed.
Lemma counted_rotate_left l e p r : counted l -> counted r -> counted (rotate_left none count l e p r).
Proof. destruct r; cbn; tauto. Qed.

Lemma counted_put t x : counted t -> counted (put none count compare priority t x).
Proof.
  induction t as [|l IHl e p n r IHr]; [done|]. intros (Hn & Hl & Hr). cbn [put].
  destruct (compare x e <? 0); [destruct (higher_root _ _ _); [apply counted_rotate_right|apply counted_make]; auto|].
  destruct (0 <? compare x e); [destruct (higher_root _ _ _); [apply counted_rotate_left|apply counted_make]; auto|].
  by apply counted_make.
Qed.

Lemma counted_merge (t t' : tree) : counted t -> counted t' -> counted (merge none count t t').
Proof.
  revert t'. induction t as [|ll _ le lp ln lr IHr]; intros t'; [done|].
  induction t' as [|rl IHl re rp rn rr _]; [done|]. intros Ht Ht'. rewrite merge_nodes.
  destruct (higherReactivePriority _ _ _ _); apply counted_make; try apply Ht; try apply Ht'.
  - apply IHr; [apply Ht|done].
  - apply IHl; [done|apply Ht'].
Qed.

Lemma counted_del t x : counted t -> counted (del none count compare t x).
Proof.
  induction t as [|l IHl e p n r IHr]; [done|]. intros (Hn & Hl & Hr). cbn [del].
  destruct (compare x e <? 0); [apply counted_make; auto|].
  destruct (0 <? compare x e); [apply counted_make; auto|by apply counted_merge].
Qed.

Lemma counted_recompute t : counted (recompute none count t).
Proof. induction t as [|l IHl e p n r IHr]; [done|]. cbn [recompute]. by apply counted_make. Qed.
Lemma elements_recompute t : elements (recompute none count t) = elements t.
Proof. induction t as [|l IHl e p n r IHr]; [done|]. cbn [recompute]. by rewrite elements_make, IHl, IHr. Qed.

(** *** Bulk construction *)

Definition stack_elements (stack : list (frame (A:=A))) : list reactiveTreeEntry :=
  foldr (fun f rest => rest ++ elements f.1.1 ++ [f.1.2]) [] stack.

Lemma pop_elements p id stack l stack' l' : pop none count p id stack l = (stack', l') ->
  stack_elements stack' ++ elements l' = stack_elements stack ++ elements l.
Proof.
  revert l. induction stack as [|[[fl fe] fp] stack IH]; intros l; cbn [pop]; [by intros [= <- <-]|].
  destruct (higherReactivePriority _ _ _ _); [|by intros [= <- <-]].
  intros ->%IH. cbn. by rewrite <- !app_assoc.
Qed.

Lemma push_elements stack x : stack_elements (push none count priority stack x) = stack_elements stack ++ [x].
Proof.
  unfold push. destruct (pop _ _ _ _ stack Nil) as [stack' l] eqn:E. apply pop_elements in E. cbn [elements] in E.
  rewrite app_nil_r in E. rewrite <- E, <- app_assoc. done.
Qed.

Lemma unwind_elements stack l : elements (unwind none count stack l) = stack_elements stack ++ elements l.
Proof.
  revert l. induction stack as [|[[fl fe] fp] stack IH]; intros l; [done|]. cbn [unwind]. rewrite IH. cbn.
  by rewrite <- !app_assoc.
Qed.

Lemma elements_bulk entries : elements (bulk none count priority entries) = entries.
Proof.
  unfold bulk. rewrite unwind_elements. cbn. rewrite app_nil_r.
  assert (H : forall stack, stack_elements (fold_left (push none count priority) entries stack) = stack_elements stack ++ entries).
  { induction entries as [|x entries IH]; intros stack; cbn [fold_left]; [by rewrite app_nil_r|].
    by rewrite IH, push_elements, <- app_assoc. }
  apply H.
Qed.
End Members.

(** ** The shape of a tree

    A node has a higher priority than every node below it, so the members and
    their priorities determine the tree: however a view came to its members, its
    trees are the ones a bulk construction would give. *)

Section Shape.
Context {A : Type} (none : A) (count : A -> A -> A).
Context (compare : reactiveTreeEntry -> reactiveTreeEntry -> Z) (priority : bytes -> Z).
Context (c : reactiveTreeEntry -> reactiveTreeEntry -> comparison) `{!Lawful c}.
Abbreviation tree := (reactiveNode A).

Definition rank : bytes -> bytes -> comparison :=
  compare_lex (compare_opp (compare_on priority Z.compare)) bcompare.
Definition above (a b : bytes) : Prop := rank a b = Lt.
Definition above_members (id : bytes) (l : list reactiveTreeEntry) : Prop := Forall (fun y => above id (te_id y)) l.

#[local] Instance lawful_rank_ids : Lawful rank.
Proof. unfold rank. apply _. Qed.

Lemma higher_above a b : higherReactivePriority (priority a) a (priority b) b = true <-> above a b.
Proof.
  unfold higherReactivePriority, above, rank, compare_lex, compare_opp, compare_on, compareDocumentIDs.
  destruct (Z.eqb_spec (priority a) (priority b)) as [->|Hne]; cbn [negb].
  - rewrite Z.compare_refl. cbn [CompOpp]. by destruct (bcompare a b).
  - rewrite Z.ltb_lt. destruct (Z.compare_spec (priority a) (priority b)) as [|H|H]; cbn [CompOpp]; split; try done; lia.
Qed.

Lemma rank_total a b : a <> b -> above a b \/ above b a.
Proof.
  intros Hne. unfold above. rewrite (law_opp (c := rank) a b). destruct (rank a b) eqn:E; [|by left|by right].
  exfalso. apply Hne. unfold rank, compare_lex, compare_opp, compare_on in E.
  destruct (priority a ?= priority b); cbn in E; [by apply bcompare_eq|done|done].
Qed.
Lemma outranks_trans a b d : above a b -> above b d -> above a d.
Proof. apply (law_trans (c := rank)). Qed.
Lemma outranks_irrefl a : ~ above a a.
Proof. unfold above. by rewrite (law_refl rank). Qed.
Lemma outranks_asym a b : above a b -> ~ above b a.
Proof. intros H1 H2. by apply (outranks_irrefl a), (outranks_trans a b). Qed.
Lemma not_higher a b : a <> b -> higherReactivePriority (priority a) a (priority b) b = false -> above b a.
Proof. intros Hne H. destruct (rank_total a b Hne) as [Hab|]; [|done]. apply higher_above in Hab. congruence. Qed.

Fixpoint heaped (t : tree) : Prop :=
  match t with
  | Nil => True
  | Node l e p _ r => p = priority (te_id e) /\ above_members (te_id e) (elements l ++ elements r) /\ heaped l /\ heaped r
  end.

Lemma heaped_make l e r : heaped l -> heaped r -> above_members (te_id e) (elements l) -> above_members (te_id e) (elements r) ->
  heaped (make none count l e (priority (te_id e)) r).
Proof. intros Hl Hr Hal Har. cbn. split_and!; [done| |done|done]. by apply Forall_app. Qed.

Definition ids (l : list reactiveTreeEntry) : list bytes := te_id <$> l.
Lemma ids_app l l' : ids (l ++ l') = ids l ++ ids l'.
Proof. apply fmap_app. Qed.
Lemma above_members_ids id l : above_members id l <-> forall i, i ∈ ids l -> above id i.
Proof.
  unfold above_members. rewrite Forall_forall. split.
  - intros H i (y & -> & Hy)%list_elem_of_fmap. by apply H.
  - intros H y Hy. apply H. by apply list_elem_of_fmap_2.
Qed.

(** One side of [put]: [t] holds at most the identifier [x] besides those the
    parent [e] is above of, and is put under it or rotated above it. *)
Lemma rotate_or_make l e r x : heaped l -> heaped r -> NoDup (ids (elements l ++ e :: elements r)) ->
  above_members (te_id e) (elements r) -> (forall i, i ∈ ids (elements l) -> i = x \/ above (te_id e) i) ->
  heaped (if higher_root l e (priority (te_id e)) then rotate_right none count l e (priority (te_id e)) r
          else make none count l e (priority (te_id e)) r).
Proof.
  intros Hl Hr Hnd Her Hle. rewrite ids_app in Hnd. cbn in Hnd. destruct l as [|ll le lp ln lr].
  { cbn [higher_root]. apply heaped_make; try done. constructor. }
  cbn [heaped] in Hl. destruct Hl as (-> & Hal & Hll & Hlr). cbn [higher_root rotate_right].
  cbn [elements] in Hnd, Hle. rewrite ids_app in Hnd, Hle. cbn in Hnd, Hle.
  apply NoDup_app in Hnd as (Hndl & Hdis & Hnde). apply NoDup_app in Hndl as (_ & Hdisl & [Hlelr _]%NoDup_cons).
  assert (Hne : te_id le <> te_id e).
  { intros He. apply (Hdis (te_id le)); [apply elem_of_app; right; by left|rewrite He; by left]. }
  apply Forall_app in Hal as [Hall Halr].
  destruct (higherReactivePriority _ _ _ _) eqn:Eh.
  - apply higher_above in Eh. assert (te_id le = x) as Hx.
    { destruct (Hle (te_id le)) as [|Hc]; [apply elem_of_app; right; by left|done|]. by apply outranks_asym in Eh. }
    apply heaped_make; [done| |done|].
    + apply heaped_make; [done..| |done]. apply above_members_ids. intros i Hi.
      destruct (Hle i) as [->|]; [apply elem_of_app; right; by right| |done]. rewrite <- Hx in Hi. done.
    + rewrite elements_make. apply Forall_app. split; [done|]. constructor; [done|].
      eapply Forall_impl; [exact Her|]. intros y Hy. by apply (outranks_trans _ (te_id e)).
  - apply not_higher in Eh; [|done]. apply heaped_make; [|done| |done].
    + cbn. split_and!; [done|by apply Forall_app|done|done].
    + cbn [elements]. apply Forall_app. split; [|constructor; [done|]]; (eapply Forall_impl; [eassumption|]);
      intros y Hy; by apply (outranks_trans _ (te_id le)).
Qed.

Lemma rotate_or_make_left l e r x : heaped l -> heaped r -> NoDup (ids (elements l ++ e :: elements r)) ->
  above_members (te_id e) (elements l) -> (forall i, i ∈ ids (elements r) -> i = x \/ above (te_id e) i) ->
  heaped (if higher_root r e (priority (te_id e)) then rotate_left none count l e (priority (te_id e)) r
          else make none count l e (priority (te_id e)) r).
Proof.
  intros Hl Hr Hnd Hel Hre. rewrite ids_app in Hnd. cbn in Hnd. destruct r as [|rl re rp rn rr].
  { cbn [higher_root]. apply heaped_make; try done. constructor. }
  cbn [heaped] in Hr. destruct Hr as (-> & Har & Hrl & Hrr). cbn [higher_root rotate_left].
  cbn [elements] in Hnd, Hre. rewrite ids_app in Hnd, Hre. cbn in Hnd, Hre.
  apply NoDup_app in Hnd as (_ & Hdis & [Hrer Hndr]%NoDup_cons). apply NoDup_app in Hndr as (_ & Hdisr & _).
  assert (Hne : te_id re <> te_id e).
  { intros He. apply Hrer. rewrite <- He. apply elem_of_app. right. by left. }
  apply Forall_app in Har as [Harl Harr].
  destruct (higherReactivePriority _ _ _ _) eqn:Eh.
  - apply higher_above in Eh. assert (te_id re = x) as Hx.
    { destruct (Hre (te_id re)) as [|Hc]; [apply elem_of_app; right; by left|done|]. by apply outranks_asym in Eh. }
    apply heaped_make; [|done| |done].
    + apply heaped_make; [done..|]. apply above_members_ids. intros i Hi.
      destruct (Hre i) as [->|]; [apply elem_of_app; by left| |done]. exfalso. apply (Hdisr x); [done|rewrite Hx; by left].
    + rewrite elements_make. apply Forall_app. split; [|by constructor].
      eapply Forall_impl; [exact Hel|]. intros y Hy. by apply (outranks_trans _ (te_id e)).
  - apply not_higher in Eh; [|done]. apply heaped_make; [done| |done|].
    + cbn. split_and!; [done|by apply Forall_app|done|done].
    + cbn [elements]. apply Forall_app. split; [|constructor; [done|]]; (eapply Forall_impl; [eassumption|]);
      intros y Hy; by apply (outranks_trans _ (te_id re)).
Qed.

Lemma put_list_in x l i : i ∈ ids (put_list c x l) -> i = te_id x \/ i ∈ ids l.
Proof.
  unfold ids. destruct (put_list_ids c x l) as [H|(l1 & y & l2 & -> & _ & ->)].
  - rewrite H. cbn. by rewrite elem_of_cons.
  - rewrite !fmap_app. cbn. by right.
Qed.

Lemma heaped_put t x : ascending c (elements t) -> agrees compare c x (elements t) ->
  NoDup (ids (put_list c x (elements t))) -> heaped t -> heaped (put none count compare priority t x).
Proof using Lawful0.
  induction t as [|l IHl e p n r IHr]; [intros _ _ _ _; apply heaped_make; [done|done|constructor|constructor]|]. intros Ho Hx Hnd (-> & Ha & Hl & Hr).
  apply Forall_app in Ha as [Hal Har]. cbn [elements] in *. pose proof Ho as (Hol & Hor & Hle & Her)%(ascending_node c).
  pose proof Hx as [Hxl [Hxe Hxr]%Forall_cons]%Forall_app. cbn [put]. rewrite Hxe.
  assert (Hin : forall l i, above_members (te_id e) l -> i ∈ ids (put_list c x l) -> i = te_id x \/ above (te_id e) i).
  { intros l' i Hl' [->|Hi]%put_list_in; [by left|right]. by apply (proj1 (above_members_ids _ _) Hl'). }
  destruct (c x e) eqn:E; cbn [cmp_of Z.ltb Z.compare].
  - by apply (heaped_make l (mk_tentry (te_id e) (te_member x)) r).
  - rewrite put_list_left in Hnd by done. pose proof Hnd as Hnd'. rewrite ids_app in Hnd'.
    apply rotate_or_make with (te_id x); [|done| |done|].
    + apply IHl; [done|done| |done]. by apply NoDup_app in Hnd' as [H _].
    + by rewrite (elements_put _ _ _ _ c).
    + rewrite (elements_put _ _ _ _ c) by done. intros i. by apply Hin.
  - rewrite put_list_skip in Hnd by (by apply (below_all c x e); [congruence|]). cbn [put_list] in Hnd. rewrite E in Hnd.
    pose proof Hnd as Hnd'. rewrite ids_app in Hnd'. cbn in Hnd'.
    apply rotate_or_make_left with (te_id x); [done| | |done|].
    + apply IHr; [done|done| |done]. by apply NoDup_app in Hnd' as (_ & _ & [_ H]%NoDup_cons).
    + by rewrite (elements_put _ _ _ _ c).
    + rewrite (elements_put _ _ _ _ c) by done. intros i. by apply Hin.
Qed.

Lemma heaped_merge (t t' : tree) : NoDup (ids (elements t ++ elements t')) -> heaped t -> heaped t' -> heaped (merge none count t t').
Proof.
  revert t'. induction t as [|ll _ le lp ln lr IHr]; intros t'; [done|].
  induction t' as [|rl IHl re rp rn rr _]; [done|]. intros Hnd Ht Ht'. rewrite merge_nodes.
  pose proof Ht as (-> & [Hall Halr]%Forall_app & Hll & Hlr). pose proof Ht' as (-> & [Harl Harr]%Forall_app & Hrl & Hrr).
  assert (Hne : te_id le <> te_id re).
  { intros He. rewrite ids_app in Hnd. apply NoDup_app in Hnd as (_ & Hd & _). apply (Hd (te_id le)).
    - cbn [elements]. rewrite ids_app. apply elem_of_app. right. by left.
    - rewrite He. cbn [elements]. rewrite ids_app. apply elem_of_app. right. by left. }
  destruct (higherReactivePriority _ _ _ _) eqn:Eh.
  - apply higher_above in Eh. apply heaped_make; [done| |done|].
    + apply IHr; [|done|done]. cbn [elements] in Hnd. rewrite <- app_assoc in Hnd. rewrite ids_app in Hnd.
      by apply NoDup_app in Hnd as (_ & _ & [_ H]%NoDup_cons).
    + rewrite elements_merge. cbn [elements]. repeat first [apply Forall_app; split | apply Forall_cons; split]; try done;
      (eapply Forall_impl; [eassumption|]); intros y Hy; by apply (outranks_trans _ (te_id re)).
  - apply not_higher in Eh; [|done]. apply heaped_make; [|done| |done].
    + apply IHl; [|done|done]. cbn [elements] in Hnd |- *. rewrite app_assoc in Hnd. rewrite ids_app in Hnd.
      by apply NoDup_app in Hnd as [H _].
    + rewrite elements_merge. cbn [elements]. repeat first [apply Forall_app; split | apply Forall_cons; split]; try done;
      (eapply Forall_impl; [eassumption|]); intros y Hy; by apply (outranks_trans _ (te_id le)).
Qed.

Lemma ids_sublist l l' : sublist l l' -> forall i, i ∈ ids l -> i ∈ ids l'.
Proof. intros Hs i (y & -> & Hy)%list_elem_of_fmap. apply list_elem_of_fmap_2. by eapply elem_of_sublist. Qed.

Lemma heaped_del t x : ascending c (elements t) -> agrees compare c x (elements t) ->
  NoDup (ids (elements t)) -> heaped t -> heaped (del none count compare t x).
Proof using Lawful0.
  induction t as [|l IHl e p n r IHr]; [done|]. intros Ho Hx Hnd (-> & Ha & Hl & Hr).
  apply Forall_app in Ha as [Hal Har]. cbn [elements] in *. pose proof Ho as (Hol & Hor & Hle & Her)%(ascending_node c).
  pose proof Hx as [Hxl [Hxe Hxr]%Forall_cons]%Forall_app. cbn [del]. rewrite Hxe.
  rewrite ids_app in Hnd. cbn in Hnd. pose proof Hnd as (Hndl & Hd & [Hner Hndr]%NoDup_cons)%NoDup_app.
  assert (Hin : forall t, ascending c (elements t) -> agrees compare c x (elements t) -> above_members (te_id e) (elements t) ->
    above_members (te_id e) (elements (del none count compare t x))).
  { intros t Ht Hxt Hat. rewrite (elements_del _ _ _ c) by done. apply above_members_ids. intros i Hi.
    apply (proj1 (above_members_ids _ _) Hat). by apply (ids_sublist _ _ (del_list_sublist c x _)). }
  destruct (c x e) eqn:E; cbn [cmp_of Z.ltb Z.compare].
  - apply heaped_merge; [|done|done]. rewrite ids_app. apply NoDup_app. split_and!; [done| |done].
    intros i Hi Hir. apply (Hd i Hi). by right.
  - apply heaped_make; [by apply IHl|done|by apply Hin|done].
  - apply heaped_make; [done|by apply IHr|done|by apply Hin].
Qed.
End Shape.

Lemma nodup_split {B} (e : B) l r l' r' : NoDup (l ++ e :: r) -> l ++ e :: r = l' ++ e :: r' -> l = l' /\ r = r'.
Proof.
  revert l'. induction l as [|x l IH]; intros [|y l'] Hnd; cbn.
  - by intros [= ->].
  - intros [= <- ->]. apply NoDup_cons in Hnd as [Hx _]. exfalso. apply Hx, elem_of_app. right. by left.
  - intros [= -> <-]. apply NoDup_cons in Hnd as [Hx _]. exfalso. apply Hx, elem_of_app. right. by left.
  - intros [= -> H]. apply NoDup_cons in Hnd as [_ Hnd]. by destruct (IH l' Hnd H) as [-> ->].
Qed.

Section Canonical.
Context {A : Type} (none : A) (count : A -> A -> A) (priority : bytes -> Z).
Abbreviation tree := (reactiveNode A).
Abbreviation heap := (heaped (A:=A) priority).

Lemma same_id_same (l : list reactiveTreeEntry) x y : NoDup (ids l) -> x ∈ l -> y ∈ l -> te_id x = te_id y -> x = y.
Proof.
  unfold ids. induction l as [|z l IH]; [by intros _ ?%not_elem_of_nil|]. cbn. intros [Hz Hnd]%NoDup_cons.
  intros [->|Hx]%elem_of_cons [->|Hy]%elem_of_cons He; [done| | |by apply IH].
  - exfalso. apply Hz. rewrite He. by apply list_elem_of_fmap_2.
  - exfalso. apply Hz. rewrite <- He. by apply list_elem_of_fmap_2.
Qed.

Theorem shape_unique (t t' : tree) : heap t -> heap t' -> counted none count t -> counted none count t' ->
  NoDup (ids (elements t)) -> elements t = elements t' -> t = t'.
Proof.
  revert t'. induction t as [|l IHl e p n r IHr]; intros [|l' e' p' n' r']; cbn [elements]; try done.
  - by destruct (elements l').
  - by destruct (elements l).
  - intros (-> & Ha & Hl & Hr) (-> & Ha' & Hl' & Hr') (-> & Hcl & Hcr) (-> & Hcl' & Hcr') Hnd Heq.
    assert (e = e') as <-.
    { assert (He' : e' ∈ elements l ++ e :: elements r) by (rewrite Heq; apply elem_of_app; right; by left).
      assert (He : e ∈ elements l' ++ e' :: elements r') by (rewrite <- Heq; apply elem_of_app; right; by left).
      destruct (decide (te_id e = te_id e')) as [|Hne].
      { apply (same_id_same _ _ _ Hnd); [apply elem_of_app; right; by left|done|done]. }
      unfold above_members in Ha, Ha'. rewrite Forall_forall in Ha, Ha'. exfalso. apply (outranks_asym priority (te_id e) (te_id e')).
      - apply Ha. rewrite elem_of_app, elem_of_cons in He'. rewrite elem_of_app. destruct He' as [|[->|]]; tauto.
      - apply Ha'. rewrite elem_of_app, elem_of_cons in He. rewrite elem_of_app. destruct He as [|[->|]]; tauto. }
    apply nodup_split in Heq as [Hel Her]; [|by apply NoDup_fmap_1 with te_id].
    rewrite ids_app in Hnd. cbn in Hnd. apply NoDup_app in Hnd as (Hndl & _ & [_ Hndr]%NoDup_cons).
    assert (l = l') as <- by (by apply IHl). assert (r = r') as <- by (by apply IHr). done.
Qed.

(** *** Bulk construction *)

Abbreviation frames := (list (frame (A:=A))).
Definition over (l : list reactiveTreeEntry) (f : frame (A:=A)) : Prop := above_members priority (te_id f.1.2) l.

Fixpoint stack_heaped (stack : frames) : Prop :=
  match stack with
  | [] => True
  | (l, e, q) :: below =>
      q = priority (te_id e) /\ heap l /\ above_members priority (te_id e) (elements l) /\
      Forall (over (elements l ++ [e])) below /\ stack_heaped below
  end.

Lemma unwind_heaped stack t : stack_heaped stack -> heap t -> Forall (over (elements t)) stack -> heap (unwind none count stack t).
Proof.
  revert t. induction stack as [|[[l e] q] below IH]; intros t; [done|].
  intros (-> & Hl & Hel & Hbelow & Hstack) Ht [Het Hover]%Forall_cons. cbn [unwind]. apply IH; [done| |].
  - cbn. split_and!; [done| |done|done]. by apply Forall_app.
  - cbn [elements]. rewrite Forall_forall in Hbelow, Hover |- *. intros f Hf.
    specialize (Hbelow f Hf). apply Forall_app in Hbelow as [H1 [H2 _]%Forall_cons].
    apply Forall_app. split; [done|]. constructor; [done|by apply Hover].
Qed.

Lemma pop_heaped id stack t stack' t' :
  stack_heaped stack -> heap t -> Forall (over (elements t)) stack -> above_members priority id (elements t) ->
  (forall i, i ∈ ids (stack_elements stack) -> i <> id) ->
  pop none count (priority id) id stack t = (stack', t') ->
  stack_heaped stack' /\ heap t' /\ Forall (over (elements t')) stack' /\ above_members priority id (elements t') /\
  Forall (fun f => above priority (te_id f.1.2) id) stack'.
Proof.
  revert t. induction stack as [|[[l e] q] below IH]; intros t Hs Ht Hover Hid Hne; cbn [pop].
  { intros [= <- <-]. split_and!; [done..|constructor]. }
  pose proof Hs as (-> & Hl & Hel & Hbelow & Hstack).
  assert (Hei : te_id e <> id).
  { apply Hne. cbn. rewrite !ids_app. cbn. rewrite !elem_of_app. right. right. by left. }
  destruct (higherReactivePriority _ _ _ _) eqn:Eh.
  - apply higher_above in Eh. pose proof Hover as [Het Hot]%Forall_cons. apply IH; [done| | | |].
    + cbn. split_and!; [done| |done|done]. by apply Forall_app.
    + cbn [elements]. rewrite Forall_forall in Hbelow, Hot |- *. intros f Hf.
      specialize (Hbelow f Hf). apply Forall_app in Hbelow as [H1 [H2 _]%Forall_cons].
      apply Forall_app. split; [done|]. constructor; [done|by apply Hot].
    + cbn [elements]. apply Forall_app. split; [|constructor; [done|done]].
      eapply Forall_impl; [exact Hel|]. intros y Hy. by apply (outranks_trans _ _ (te_id e)).
    + intros i Hi. apply Hne. cbn. rewrite ids_app, elem_of_app. by left.
  - intros [= <- <-]. split_and!; [done..|]. apply (not_higher priority) in Eh; [|congruence]. constructor; [done|].
    eapply Forall_impl; [exact Hbelow|]. intros f [_ [Hf _]%Forall_cons]%Forall_app. by apply (outranks_trans _ _ (te_id e)).
Qed.

Lemma push_heaped stack x : stack_heaped stack -> (forall i, i ∈ ids (stack_elements stack) -> i <> te_id x) ->
  stack_heaped (push none count priority stack x).
Proof.
  intros Hs Hne. unfold push. destruct (pop _ _ _ _ stack Nil) as [stack' l] eqn:E.
  apply pop_heaped in E as (Hs' & Hl & Hover & Hx & Hbelow); [|done|done|by apply Forall_forall; intros; constructor|constructor|done].
  cbn. split_and!; [done|done|done| |done]. rewrite Forall_forall in Hover, Hbelow |- *. intros f Hf.
  apply Forall_app. split; [by apply Hover|]. constructor; [by apply Hbelow|constructor].
Qed.

Lemma bulk_heaped entries : NoDup (ids entries) -> heap (bulk none count priority entries).
Proof.
  intros Hnd. unfold bulk. apply unwind_heaped; [|done|by apply Forall_forall; intros; constructor].
  assert (H : forall stack, stack_heaped stack -> NoDup (ids (stack_elements stack ++ entries)) ->
    stack_heaped (fold_left (push none count priority) entries stack)).
  { clear Hnd. induction entries as [|x entries IH]; intros stack Hs Hnd; cbn [fold_left]; [done|]. apply IH.
    - apply push_heaped; [done|]. intros i Hi ->. rewrite ids_app in Hnd. apply NoDup_app in Hnd as (_ & Hd & _).
      apply (Hd _ Hi). by left.
    - rewrite push_elements, <- app_assoc. exact Hnd. }
  by apply H.
Qed.

Lemma heaped_recompute (t : tree) : heap t -> heap (recompute none count t).
Proof.
  induction t as [|l IHl e p n r IHr]; [done|]. intros (-> & Ha & Hl & Hr). cbn [recompute]. cbn.
  rewrite !elements_recompute. split_and!; [done|done|by apply IHl|by apply IHr].
Qed.
End Canonical.

Lemma counted_unit (t : reactiveIDNode) : counted tt no_count t.
Proof. induction t as [|l IHl e p [] r IHr]; cbn; auto. Qed.

(** ** Counts and pages *)

Lemma to_u64_id z : u64 z -> to_u64 z = z.
Proof. unfold u64, to_u64. intros H. apply Z.mod_small. lia. Qed.

Definition sizes_noted : reactiveOrderNode -> Prop := counted 0 recomputeReactiveOrderSize.

Lemma size_noted t : sizes_noted t -> zlen (elements t) < 2 ^ 64 -> reactiveOrderSize t = zlen (elements t).
Proof.
  unfold reactiveOrderSize. induction t as [|l IHl e p n r IHr]; [done|]. intros (-> & Hl & Hr). cbn [elements note_of].
  rewrite zlen_app, zlen_cons. pose proof (zlen_nonneg (elements l)). pose proof (zlen_nonneg (elements r)). intros Hlen.
  rewrite IHl, IHr by (done || lia). unfold recomputeReactiveOrderSize. rewrite to_u64_id by (unfold u64; lia). lia.
Qed.

(** The part of [l] at the positions from [start] to [end_], where the first is at
    [base]. *)
Definition slice {B} (base start end_ : Z) (l : list B) : list B :=
  drop (Z.to_nat (start - base)) (take (Z.to_nat (end_ - base)) l).

Lemma slice_node {B} base start end_ (l r : list B) e : start < end_ ->
  slice base start end_ (l ++ e :: r) =
  slice base start end_ l
  ++ (if (start <=? base + zlen l) && (base + zlen l <? end_) then [e] else [])
  ++ slice (base + zlen l + 1) start end_ r.
Proof.
  intros Hse. unfold slice, zlen. rewrite take_app, drop_app, length_take.
  replace (Z.to_nat (end_ - base) - length l)%nat with (Z.to_nat (end_ - (base + Z.of_nat (length l)))) by lia.
  f_equal. set (pos := base + Z.of_nat (length l)).
  destruct (Z.ltb_spec pos end_) as [He|He].
  - replace (Z.to_nat (end_ - pos)) with (S (Z.to_nat (end_ - (pos + 1)))) by lia. cbn [take].
    replace (Z.to_nat (start - base) - (Z.to_nat (end_ - base) `min` length l))%nat with (Z.to_nat (start - pos)) by (unfold pos in *; lia).
    destruct (Z.leb_spec start pos) as [Hs|Hs]; cbn [andb].
    + replace (Z.to_nat (start - pos)) with 0%nat by lia. replace (Z.to_nat (start - (pos + 1))) with 0%nat by lia. done.
    + replace (Z.to_nat (start - pos)) with (S (Z.to_nat (start - (pos + 1)))) by lia. done.
  - replace (Z.to_nat (end_ - pos)) with 0%nat by lia. replace (Z.to_nat (end_ - (pos + 1))) with 0%nat by lia.
    rewrite andb_false_r. cbn [take app]. by rewrite take_0, !drop_nil.
Qed.

Lemma slice_before {B} base start end_ (l : list B) : base + zlen l <= start -> slice base start end_ l = [].
Proof. intros H. unfold slice. apply drop_ge. rewrite length_take. unfold zlen in H. lia. Qed.
Lemma slice_after {B} base start end_ (l : list B) : end_ <= base -> slice base start end_ l = [].
Proof. intros H. unfold slice. replace (Z.to_nat (end_ - base)) with 0%nat by lia. cbn [take]. apply drop_nil. Qed.

Definition member_document (e : reactiveTreeEntry) : document := rm_document (te_member e).

Lemma collect_spec t base start end_ : sizes_noted t -> 0 <= base -> base + zlen (elements t) < 2 ^ 64 ->
  collectReactiveOrder t base start end_ = member_document <$> slice base start end_ (elements t).
Proof.
  revert base. induction t as [|l IHl e p n r IHr]; intros base Hn Hbase Hlen.
  { cbn. unfold slice. by rewrite take_nil, drop_nil. }
  destruct Hn as (_ & Hl & Hr). cbn [elements] in *. rewrite zlen_app, zlen_cons in Hlen.
  pose proof (zlen_nonneg (elements l)). pose proof (zlen_nonneg (elements r)). cbn [collectReactiveOrder].
  destruct (Z.leb_spec end_ start) as [Hse|Hse].
  { unfold slice. rewrite drop_ge; [done|]. rewrite length_take. lia. }
  rewrite size_noted, (to_u64_id (base + zlen (elements l))) by (done || unfold u64; lia).
  rewrite to_u64_id by (unfold u64; lia). rewrite slice_node, !fmap_app by done. f_equal; [|f_equal].
  - destruct (Z.ltb_spec start (base + zlen (elements l))); [apply IHl; [done|lia..]|].
    by rewrite slice_before by lia.
  - by destruct ((start <=? base + zlen (elements l)) && (base + zlen (elements l) <? end_)).
  - destruct (Z.ltb_spec (base + zlen (elements l) + 1) end_); [apply IHr; [done|lia..]|].
    by rewrite slice_after by lia.
Qed.

Lemma materialize_spec q t : sizes_noted t -> paging_ok q -> zlen (elements t) < 2 ^ 64 ->
  materializeReactiveOrder t (q_skip q) (q_limit q) = member_document <$> page q (elements t).
Proof.
  intros Hn [Hskip Hlim] Hlen. unfold materializeReactiveOrder. rewrite size_noted, collect_spec by (done || lia).
  unfold maxInt in *. pose proof (zlen_nonneg (elements t)). rewrite (to_u64_id (q_skip q)) by (unfold u64; lia).
  set (l := elements t) in *. set (start := if zlen l <? q_skip q then zlen l else q_skip q).
  assert (Hstart : 0 <= start <= zlen l) by (unfold start; destruct (Z.ltb_spec (zlen l) (q_skip q)); lia).
  assert (Hdrop : drop (Z.to_nat start) l = drop (Z.to_nat (q_skip q)) l).
  { unfold start. destruct (Z.ltb_spec (zlen l) (q_skip q)); [|done]. unfold zlen in *. rewrite !drop_ge by lia. done. }
  clearbody start. f_equal. unfold slice, page. rewrite !Z.sub_0_r. destruct (q_limit q) as [limit|].
  - specialize (Hlim limit eq_refl). rewrite !to_u64_id by (unfold u64; lia). rewrite <- Hdrop.
    destruct (Z.ltb_spec limit (zlen l - start)).
    + rewrite to_u64_id by (unfold u64; lia). rewrite skipn_firstn_comm. f_equal. lia.
    + rewrite (take_ge l) by (unfold zlen in *; lia). rewrite take_ge; [done|]. rewrite length_drop. unfold zlen in *. lia.
  - rewrite <- Hdrop, take_ge; [done|]. unfold zlen. lia.
Qed.

(** ** The two comparisons *)

Definition id_rank : reactiveTreeEntry -> reactiveTreeEntry -> comparison := compare_on te_id bcompare.
Definition order_rank (q : QuerySpec) : reactiveTreeEntry -> reactiveTreeEntry -> comparison :=
  compare_lex (compare_on candidate_of (rank_fields (q_sort q))) id_rank.

#[export] Instance lawful_id_rank : Lawful id_rank.
Proof. unfold id_rank. apply _. Qed.
#[export] Instance lawful_order_rank q : Lawful (order_rank q).
Proof. unfold order_rank. apply _. Qed.

Lemma id_rank_eq a b : id_rank a b = Eq <-> te_id a = te_id b.
Proof. unfold id_rank, compare_on. split; [apply bcompare_eq|intros ->; apply (law_refl bcompare)]. Qed.
Lemma order_rank_eq q a b : order_rank q a b = Eq -> te_id a = te_id b.
Proof. unfold order_rank, compare_lex. destruct (compare_on _ _ _ _); [apply id_rank_eq|done..]. Qed.
Lemma order_rank_refl q a : order_rank q a a = Eq.
Proof. apply (law_refl (order_rank q)). Qed.

(** Sort directions the validator accepts, and sort values that compare exactly. *)
Record rankable (q : QuerySpec) (l : list reactiveTreeEntry) : Prop := {
  ra_directions : Forall (fun f => sf_direction f = 1 \/ sf_direction f = -1) (q_sort q);
  ra_exact : forall a b f va vb, a ∈ l -> b ∈ l -> f ∈ q_sort q ->
    lookupInternal (member_document a) (sf_path f) = Some va ->
    lookupInternal (member_document b) (sf_path f) = Some vb -> sort_exact va vb }.

Lemma rankable_sub q l l' : rankable q l -> l' ⊆ l -> rankable q l'.
Proof. intros [H1 H2] Hsub. split; [done|]. intros a b f va vb Ha Hb. apply H2; auto. Qed.

Lemma compareReactiveOrder_rank q l a b : rankable q l -> a ∈ l -> b ∈ l -> compareReactiveOrder q a b = cmp_of (order_rank q a b).
Proof.
  intros [Hd He] Ha Hb. unfold compareReactiveOrder, order_rank, compare_lex, compare_on, compareDocumentIDs, id_rank.
  rewrite compare_fields_rank; [|done|intros f va vb Hf; by apply He].
  by destruct (rank_fields (q_sort q) (candidate_of a) (candidate_of b)).
Qed.

(** ** Trees of a set of members *)

Section Valid.
Context {A : Type} (none : A) (count : A -> A -> A) (priority : bytes -> Z).
Context (compare : reactiveTreeEntry -> reactiveTreeEntry -> Z).
Context (c : reactiveTreeEntry -> reactiveTreeEntry -> comparison) `{!Lawful c}.
Hypothesis Hc : forall a b, c a b = Eq -> te_id a = te_id b.

Record valid (t : reactiveNode A) (ms : list reactiveTreeEntry) : Prop := {
  va_heaped : heaped priority t;
  va_counted : counted none count t;
  va_ascending : ascending c (elements t);
  va_members : elements t ≡ₚ ms }.

Lemma ascending_unique l l' : ascending c l -> ascending c l' -> l ≡ₚ l' -> l = l'.
Proof using Lawful0.
  apply StronglySorted_unique. intros a b H1 H2. exfalso. rewrite (law_opp (c := c) a b), H1 in H2. done.
Qed.

Lemma ids_perm l l' : l ≡ₚ l' -> ids l ≡ₚ ids l'.
Proof. unfold ids. by intros ->. Qed.

Lemma valid_unique t t' ms : NoDup (ids ms) -> valid t ms -> valid t' ms -> t = t'.
Proof using Lawful0.
  intros Hnd [H1 H2 H3 H4] [H1' H2' H3' H4']. apply (shape_unique none count priority); [done..| |].
  - by rewrite (ids_perm _ _ H4).
  - apply ascending_unique; [done..|]. by rewrite H4, H4'.
Qed.

Lemma absent_not_eq x ms : (te_id x ∉ ids ms) -> Forall (fun y => c x y <> Eq) ms.
Proof using Hc. intros Hx. apply Forall_forall. intros y Hy E%Hc. apply Hx. rewrite E. by apply list_elem_of_fmap_2. Qed.

Lemma put_valid t ms x : NoDup (ids ms) -> (te_id x ∉ ids ms) -> agrees compare c x ms -> valid t ms ->
  valid (put none count compare priority t x) (x :: ms).
Proof using Lawful0 Hc.
  intros Hnd Hx Ha [Hheap Hcount Hasc Hms].
  assert (Ha' : agrees compare c x (elements t)) by (unfold agrees in *; by rewrite Hms).
  assert (Habs : Forall (fun y => c x y <> Eq) (elements t)) by (rewrite Hms; by apply absent_not_eq).
  assert (Hids : ids (put_list c x (elements t)) ≡ₚ ids (x :: ms)) by (apply ids_perm; rewrite put_list_absent, Hms by done; done).
  split.
  - apply (heaped_put none count compare priority c); [done..| |done]. rewrite Hids. by apply NoDup_cons.
  - by apply counted_put.
  - rewrite (elements_put none count compare priority c) by done. by apply put_list_ascending.
  - rewrite (elements_put none count compare priority c), put_list_absent by done. by rewrite Hms.
Qed.

Definition without_id (id : bytes) (ms : list reactiveTreeEntry) : list reactiveTreeEntry := filter (fun y => te_id y <> id) ms.

Lemma without_absent id ms : (id ∉ ids ms) -> without_id id ms = ms.
Proof.
  unfold without_id, ids. induction ms as [|m ms IH]; [done|]. intros Hid. rewrite filter_cons_True.
  - f_equal. apply IH. intros H. apply Hid. by right.
  - intros He. apply Hid. rewrite <- He. by left.
Qed.

Lemma del_list_without x l : NoDup (ids l) -> (forall y, y ∈ l -> te_id y = te_id x -> c x y = Eq) ->
  del_list c x l = without_id (te_id x) l.
Proof using Hc.
  induction l as [|y l IH]; [done|]. intros Hnd Hx. unfold ids in Hnd. cbn in Hnd. apply NoDup_cons in Hnd as [Hy Hnd]. cbn [del_list].
  unfold without_id. destruct (decide (te_id y <> te_id x)) as [Hne|He].
  - rewrite filter_cons_True by done. rewrite IH; [|done|intros z Hz; apply Hx; by right].
    destruct (c x y) eqn:E; [|done|done]. by apply Hc in E.
  - apply dec_stable in He. rewrite filter_cons_False by (by intros []). rewrite Hx; [|by left|done].
    symmetry. apply without_absent. by rewrite <- He.
Qed.

Lemma del_valid t ms x : NoDup (ids ms) -> (forall y, y ∈ ms -> te_id y = te_id x -> c x y = Eq) ->
  agrees compare c x ms -> valid t ms -> valid (del none count compare t x) (without_id (te_id x) ms).
Proof using Lawful0 Hc.
  intros Hnd Hx Ha [Hheap Hcount Hasc Hms].
  assert (Ha' : agrees compare c x (elements t)) by (unfold agrees in *; by rewrite Hms).
  assert (Hndt : NoDup (ids (elements t))) by (by rewrite (ids_perm _ _ Hms)).
  assert (Hel : elements (del none count compare t x) = without_id (te_id x) (elements t)).
  { rewrite (elements_del none count compare c) by done. apply del_list_without; [done|]. intros y Hy. apply Hx. by rewrite <- Hms. }
  split.
  - by apply (heaped_del none count compare priority c).
  - by apply counted_del.
  - rewrite Hel. apply (ascending_sublist c _ (elements t)); [|done]. apply sublist_filter.
  - rewrite Hel. unfold without_id. by rewrite Hms.
Qed.

(** Sorting members that the comparison tells apart. *)
Lemma sorted_members ms : NoDup (ids ms) -> (forall a b, a ∈ ms -> b ∈ ms -> compare a b = cmp_of (c a b)) ->
  ascending c (sort_stable (fun a b => compare a b <? 0) ms) /\ sort_stable (fun a b => compare a b <? 0) ms ≡ₚ ms.
Proof using Lawful0 Hc.
  intros Hnd Hcmp. set (less := fun a b => compare a b <? 0).
  assert (Hless : forall a b, a ∈ ms -> b ∈ ms -> less a b = match c a b with Lt => true | _ => false end).
  { intros a b Ha Hb. unfold less. rewrite Hcmp by done. by destruct (c a b). }
  assert (Htotal : total_on less (fun a => a ∈ ms)).
  { split.
    - intros a Ha. rewrite Hless by done. by rewrite (law_refl c).
    - intros a b d Ha Hb Hd. rewrite !Hless by done. destruct (c a b) eqn:E1; [done| |done].
      destruct (c b d) eqn:E2; [done| |done]. by rewrite (law_trans _ b _ E1 E2).
    - intros a b Ha Hb. rewrite !Hless by done. rewrite (law_opp (c := c) a b). destruct (c a b) eqn:E; [|done..].
      intros _ _. apply (same_id_same ms); [done..|by apply Hc]. }
  pose proof (sort_stable_Permutation less ms) as Hperm. split; [|done].
  assert (Hall : Forall (fun a => a ∈ ms) ms) by (by apply Forall_forall).
  pose proof (sort_stable_in_order less _ Htotal ms Hall) as Ho.
  assert (Hnd' : NoDup (ids (sort_stable less ms))) by (by rewrite (ids_perm _ _ Hperm)).
  assert (Hin : Forall (fun a => a ∈ ms) (sort_stable less ms)) by (by rewrite Hperm).
  unfold in_order in Ho. unfold ascending. clear Hperm. induction Ho as [|a l Ho IH Ha]; [constructor|].
  unfold ids in Hnd'. cbn in Hnd'. apply NoDup_cons in Hnd' as [Hal Hnd']. apply Forall_cons in Hin as [Hams Hin].
  constructor; [by apply IH|]. rewrite Forall_forall in Ha, Hin |- *. intros b Hb.
  specialize (Ha b Hb). rewrite Hless in Ha by auto. rewrite (law_opp (c := c) b a).
  destruct (c b a) eqn:E; [|done|done]. apply Hc in E. exfalso. apply Hal. rewrite <- E. by apply list_elem_of_fmap_2.
Qed.
End Valid.

Definition valid_ids (priority : bytes -> Z) : reactiveIDNode -> list reactiveTreeEntry -> Prop :=
  valid tt no_count priority id_rank.
Definition valid_order (priority : bytes -> Z) (q : QuerySpec) : reactiveOrderNode -> list reactiveTreeEntry -> Prop :=
  valid 0 recomputeReactiveOrderSize priority (order_rank q).
Definition valid_trees (priority : bytes -> Z) (q : QuerySpec) (t : reactiveIDNode * reactiveOrderNode) (ms : list reactiveTreeEntry) : Prop :=
  valid_ids priority t.1 ms /\ valid_order priority q t.2 ms.

Lemma id_rank_same a b : id_rank a b = Eq -> te_id a = te_id b.
Proof. apply id_rank_eq. Qed.

Lemma build_valid priority q ms : NoDup (ids ms) -> rankable q ms -> valid_trees priority q (buildReactiveTrees priority q ms) ms.
Proof.
  intros Hnd Hr. unfold buildReactiveTrees. destruct (Z.eqb_spec (zlen ms) 0) as [Hz|_].
  { destruct ms; [|rewrite zlen_cons in Hz; pose proof (zlen_nonneg ms); lia]. split; split; try done; constructor. }
  destruct (sorted_members compare_ids id_rank id_rank_same ms Hnd) as [Ha Hp]; [done|].
  destruct (sorted_members (compareReactiveOrder q) (order_rank q) (order_rank_eq q) ms Hnd) as [Ha' Hp'].
  { intros a b. by apply (compareReactiveOrder_rank q ms). }
  split; cbn [fst snd].
  - unfold bulkReactiveIDTree. split; rewrite ?elements_bulk; [|apply counted_unit|done|done].
    apply bulk_heaped. by rewrite (ids_perm _ _ Hp).
  - unfold bulkReactiveOrderTree. split; rewrite ?elements_recompute, ?elements_bulk; [|apply counted_recompute|done|done].
    apply heaped_recompute, bulk_heaped. by rewrite (ids_perm _ _ Hp').
Qed.

Lemma valid_trees_unique priority q t t' ms : NoDup (ids ms) -> valid_trees priority q t ms -> valid_trees priority q t' ms -> t = t'.
Proof.
  intros Hnd [H1 H2] [H1' H2']. destruct t as [i o], t' as [i' o']. cbn [fst snd] in *. f_equal.
  - by apply (valid_unique tt no_count priority id_rank i i' ms).
  - by apply (valid_unique 0 recomputeReactiveOrderSize priority (order_rank q) o o' ms).
Qed.

Lemma valid_trees_perm priority q t ms ms' : ms ≡ₚ ms' -> valid_trees priority q t ms -> valid_trees priority q t ms'.
Proof. intros Hp [[H1 H2 H3 H4] [H1' H2' H3' H4']]. split; split; try done; by rewrite <- Hp. Qed.

Lemma get_in t e : ascending id_rank (elements t) -> e ∈ elements t -> reactiveIDGet t (te_id e) = Some (te_member e).
Proof.
  induction t as [|l IHl x p n r IHr]; intros Ho He; [by apply not_elem_of_nil in He|]. cbn [elements] in *.
  apply (ascending_node id_rank) in Ho as (Hl & Hr & Hlx & Hxr). rewrite Forall_forall in Hlx, Hxr. cbn [reactiveIDGet].
  change (compareDocumentIDs (te_id e) (te_id x)) with (cmp_of (id_rank e x)).
  apply elem_of_app in He as [He|[->|He]%elem_of_cons].
  - rewrite (Hlx e He). cbn. by apply IHl.
  - by rewrite (law_refl id_rank).
  - rewrite (flip_gt id_rank x e (Hxr e He)). cbn. by apply IHr.
Qed.

Lemma get_out t id : (id ∉ ids (elements t)) -> reactiveIDGet t id = None.
Proof.
  induction t as [|l IHl x p n r IHr]; intros Hid; [done|]. cbn [elements] in Hid. rewrite ids_app, elem_of_app in Hid. cbn in Hid.
  rewrite elem_of_cons in Hid. cbn [reactiveIDGet]. unfold compareDocumentIDs.
  destruct (bcompare id (te_id x)) eqn:E; cbn.
  - apply bcompare_eq in E. tauto.
  - apply IHl. tauto.
  - apply IHr. tauto.
Qed.

Lemma valid_get priority t ms m : valid_ids priority t ms -> m ∈ ms -> reactiveIDGet t (te_id m) = Some (te_member m).
Proof. intros [_ _ Ha Hp] Hm. apply get_in; [done|]. by rewrite Hp. Qed.
Lemma valid_get_none priority t ms id : valid_ids priority t ms -> (id ∉ ids ms) -> reactiveIDGet t id = None.
Proof. intros [_ _ _ Hp] Hid. apply get_out. by rewrite (ids_perm _ _ Hp). Qed.

(** ** Steps of a view *)

Section Steps.
Context (priority : bytes -> Z) (q : QuerySpec).

Lemma put_trees t ms x : NoDup (ids ms) -> (te_id x ∉ ids ms) -> rankable q (x :: ms) -> valid_trees priority q t ms ->
  valid_trees priority q (reactiveIDPut priority t.1 (te_id x) (te_member x), reactiveOrderPut priority q t.2 (te_id x) (te_member x)) (x :: ms).
Proof.
  intros Hnd Hx Hr [H1 H2]. replace x with (mk_tentry (te_id x) (te_member x)) at 5 by (by destruct x).
  split; cbn [fst snd].
  - apply (put_valid tt no_count priority compare_ids id_rank id_rank_same); [done|done| |done]. by apply Forall_forall.
  - apply (put_valid 0 recomputeReactiveOrderSize priority (compareReactiveOrder q) (order_rank q) (order_rank_eq q)); [done|done| |done].
    apply Forall_forall. intros y Hy. apply (compareReactiveOrder_rank q (x :: ms)); [done| |by right]. destruct x. by left.
Qed.

Lemma del_trees t ms m : NoDup (ids ms) -> m ∈ ms -> rankable q ms -> valid_trees priority q t ms ->
  valid_trees priority q (reactiveIDDelete t.1 (te_id m), reactiveOrderDelete q t.2 (te_id m) (te_member m)) (without_id (te_id m) ms).
Proof.
  intros Hnd Hm Hr [H1 H2]. split; cbn [fst snd].
  - apply (del_valid tt no_count priority compare_ids id_rank id_rank_same _ _ (mk_tentry (te_id m) (mk_member [] 0 0))); [done| |by apply Forall_forall|done].
    intros y Hy He. by apply id_rank_eq.
  - destruct m as [id member]. cbn [te_id te_member].
    apply (del_valid 0 recomputeReactiveOrderSize priority (compareReactiveOrder q) (order_rank q) (order_rank_eq q) _ _ (mk_tentry id member)); [done| | |done].
    + intros y Hy He. assert (y = mk_tentry id member) as -> by (by apply (same_id_same ms)). apply order_rank_refl.
    + apply Forall_forall. intros y Hy. by apply (compareReactiveOrder_rank q ms).
Qed.
End Steps.
