(* ===== verification/ReactiveViews.v ===== *)
(** * Reactive views: query results kept up to date by changes

    The incremental part of [internal/database/reactive_shared.go]: the table of
    insertion positions a collection shares between its views, the state of a
    view, its construction from a collection, and its transition over a batch of
    committed changes, with the delta delivered to subscribers. Channels,
    goroutines and locks are not modelled: a view state is immutable and replaced
    in one step, and a batch is applied to the position table under its lock. *)
From stdpp Require Import gmap.
From Stdlib Require Import Permutation Sorted.
From S2P Require Import Prelude Bytes Strings Entries Float64 Values Documents DocumentCodec Any Query Orders QueryResults IndexDefinitions.
From S2P Require Import Update MemoryIndexes MemoryDatabase MemoryMutations MemoryEffects MemoryQueries QueryDelta ReactiveTrees.
#[local] Open Scope Z_scope.

(** ** Positions of a collection *)

Record reactiveCollectionOrder := mk_corder { co_token : Z; co_next : Z; co_positions : gmap bytes Z }.

(** The loop of [rebuild]: positions of surviving documents stay. *)
Fixpoint rebuild_loop (documents : list (bytes * document)) (old : gmap bytes Z) (ids : list bytes) (next : Z)
    (positions : gmap bytes Z) : result (Z * gmap bytes Z) :=
  match ids with
  | [] => Ok (next, positions)
  | id :: ids =>
      match field documents id with
      | None => rebuild_loop documents old ids next positions
      | Some _ =>
          match old !! id with
          | Some position => rebuild_loop documents old ids next (<[id := position]> positions)
          | None =>
              if next =? 2 ^ 64 - 1 then Err ErrCorrupt
              else rebuild_loop documents old ids (next + 1) (<[id := next + 1]> positions)
          end
      end
  end.

Definition rebuild (order : reactiveCollectionOrder) (data : option collectionData) (token : Z) : result reactiveCollectionOrder :=
  let* (next, positions) :=
    match data with
    | None => Ok (co_next order, ∅)
    | Some data => rebuild_loop (cd_documents data) (co_positions order) (cd_order data) (co_next order) ∅
    end in
  Ok (mk_corder token next positions).

(** The body of the loop of [apply]; [None] where it gives up. *)
Definition order_change (change : Change) (next : Z) (positions : gmap bytes Z) : option (Z * gmap bytes Z) :=
  let id := ch_DocumentID change in
  match ch_Operation change with
  | InsertOperation =>
      match positions !! id with
      | Some _ => None
      | None => if next =? 2 ^ 64 - 1 then None else Some (next + 1, <[id := next + 1]> positions)
      end
  | UpdateOperation => match positions !! id with Some _ => Some (next, positions) | None => None end
  | DeleteOperation => match positions !! id with Some _ => Some (next, delete id positions) | None => None end
  | CreateIndexOperation | ReplaceIndexOperation => Some (next, positions)
  | CreateCollectionOperation => None
  end.

Fixpoint order_changes (changes : list Change) (next : Z) (positions : gmap bytes Z) : bool * (Z * gmap bytes Z) :=
  match changes with
  | [] => (true, (next, positions))
  | change :: changes =>
      match order_change change next positions with
      | None => (false, (next, positions))
      | Some (next, positions) => order_changes changes next positions
      end
  end.

(** [apply]; the token moves only when every change was taken. *)
Definition order_apply (token : Z) (changes : list Change) (order : reactiveCollectionOrder) : bool * reactiveCollectionOrder :=
  if token <=? co_token order then (true, order)
  else
    let '(done, (next, positions)) := order_changes changes (co_next order) (co_positions order) in
    (done, mk_corder (if done : bool then token else co_token order) next positions).

(** ** The state of a view *)

Record reactiveViewState := mk_vstate {
  vs_token : Z; vs_memberCount : Z; vs_memberBytes : Z; vs_byID : reactiveIDNode; vs_ordered : reactiveOrderNode;
  vs_snapshot : QuerySnapshot }.

Definition reactiveMemberCanonicalBytes (member : reactiveMember) : result Z :=
  if negb (rm_bytes member =? 0) then Ok (rm_bytes member) else canonicalDocumentSize (rm_document member).

Definition admitReactiveViewMember (limits : ResourceLimits) (count size documentBytes : Z) : result (Z * Z) :=
  if MaxReactiveViewDocuments limits <=? count then Err ErrResourceLimit
  else if (MaxReactiveViewBytes limits <? size) || (MaxReactiveViewBytes limits - size <? documentBytes) then Err ErrResourceLimit
  else Ok (to_u64 (count + 1), to_u64 (size + documentBytes)).

(** The loop of [buildReactiveViewState]: the entries, their number and bytes. *)
Fixpoint view_entries (q : QuerySpec) (limits : ResourceLimits) (documents : list (bytes * document)) (positions : gmap bytes Z)
    (ids : list bytes) (count size : Z) (b : queryBudget) : result (list reactiveTreeEntry * Z * Z) :=
  match ids with
  | [] => Ok ([], count, size)
  | id :: ids =>
      match field documents id with
      | None => view_entries q limits documents positions ids count size b
      | Some d =>
          match positions !! id with
          | None => Err ErrCorrupt
          | Some position =>
              let* (matched, b) := match_document q d b in
              if matched : bool then
                let* documentBytes := canonicalDocumentSize d in
                let* (count, size) := admitReactiveViewMember limits count size documentBytes in
                let* (entries, count, size) := view_entries q limits documents positions ids count size b in
                Ok (mk_tentry id (mk_member d position documentBytes) :: entries, count, size)
              else view_entries q limits documents positions ids count size b
          end
      end
  end.

Section Views.
Context (priority : bytes -> Z) (q : QuerySpec) (limits : ResourceLimits).

Definition buildReactiveViewState (data : option collectionData) (order : reactiveCollectionOrder) (token : Z) : result reactiveViewState :=
  let* (entries, count, size) :=
    match data with
    | None => Ok ([], 0, 0)
    | Some data => view_entries q limits (cd_documents data) (co_positions order) (cd_order data) 0 0 (newPredicateBudget q limits)
    end in
  let '(byID, ordered) := buildReactiveTrees priority q entries in
  Ok (mk_vstate token count size byID ordered (mk_qsnapshot token (materializeReactiveOrder ordered (q_skip q) (q_limit q)))).

(** What [transitionReactiveViewState] carries from change to change. *)
Record transition := mk_transition {
  tr_byID : reactiveIDNode; tr_ordered : reactiveOrderNode; tr_count : Z; tr_bytes : Z; tr_budget : queryBudget; tr_mutated : bool }.

Definition with_budget (b : queryBudget) (w : transition) : transition :=
  mk_transition (tr_byID w) (tr_ordered w) (tr_count w) (tr_bytes w) b (tr_mutated w).

(** A member leaves both trees and the counts; [None] where they disagree. *)
Definition withdraw (id : bytes) (member : reactiveMember) (w : transition) : result (option transition) :=
  let* memberSize := reactiveMemberCanonicalBytes member in
  if (tr_count w =? 0) || (tr_bytes w <? memberSize) then Ok None
  else Ok (Some (mk_transition (reactiveIDDelete (tr_byID w) id) (reactiveOrderDelete q (tr_ordered w) id member)
                   (tr_count w - 1) (tr_bytes w - memberSize) (tr_budget w) (tr_mutated w))).

Definition match_change (image : option document) (b : queryBudget) : result (bool * queryBudget) :=
  match image with Some d => match_document q d b | None => Ok (false, b) end.

(** The document that comes in; the size a change may carry is the computed one. *)
Definition enter_view (id : bytes) (after : document) (position : Z) (w : transition) : result transition :=
  let* size := canonicalDocumentSize after in
  let* (count, total) := admitReactiveViewMember limits (tr_count w) (tr_bytes w) size in
  let member := mk_member after position size in
  Ok (mk_transition (reactiveIDPut priority (tr_byID w) id member) (reactiveOrderPut priority q (tr_ordered w) id member)
        count total (tr_budget w) true).

Definition transition_change (order : reactiveCollectionOrder) (change : Change) (w : transition) : result (option transition) :=
  match ch_Operation change with
  | CreateIndexOperation | ReplaceIndexOperation => Ok (Some w)
  | _ =>
      let id := ch_DocumentID change in
      let found := reactiveIDGet (tr_byID w) id in
      let* (beforeMatches, b) := match_change (ch_Before change) (tr_budget w) in
      let* (afterMatches, b) := match_change (ch_After change) b in
      let w := with_budget b w in
      if negb (Bool.eqb beforeMatches (match found with Some _ => true | None => false end)) then Ok None
      else
        match found, (afterMatches : bool), ch_After change with
        | Some member, false, _ =>
            let* w := withdraw id member w in
            Ok ((fun w => mk_transition (tr_byID w) (tr_ordered w) (tr_count w) (tr_bytes w) (tr_budget w) true) <$> w)
        | None, false, _ => Ok (Some w)
        | Some member, true, Some after =>
            let* w := withdraw id member w in
            match w with
            | None => Ok None
            | Some w => let* w := enter_view id after (rm_position member) w in Ok (Some w)
            end
        | None, true, Some after =>
            match co_positions order !! id with
            | None => Ok None
            | Some position => let* w := enter_view id after position w in Ok (Some w)
            end
        | _, true, None => Err ErrCorrupt
        end
  end.

Fixpoint transition_changes (order : reactiveCollectionOrder) (changes : list Change) (w : transition) : result (option transition) :=
  match changes with
  | [] => Ok (Some w)
  | change :: changes =>
      let* w := transition_change order change w in
      match w with None => Ok None | Some w => transition_changes order changes w end
  end.

(** [None] asks for a rebuild. *)
Definition transitionReactiveViewState (current : reactiveViewState) (order : reactiveCollectionOrder) (token : Z) (changes : list Change)
    : result (option reactiveViewState) :=
  if token <=? vs_token current then Ok (Some current)
  else
    let* w := transition_changes order changes
                (mk_transition (vs_byID current) (vs_ordered current) (vs_memberCount current) (vs_memberBytes current)
                   (newPredicateBudget q limits) false) in
    match w with
    | None => Ok None
    | Some w =>
        let documents := if tr_mutated w then materializeReactiveOrder (tr_ordered w) (q_skip q) (q_limit q)
                         else qs_documents (vs_snapshot current) in
        Ok (Some (mk_vstate token (tr_count w) (tr_bytes w) (tr_byID w) (tr_ordered w) (mk_qsnapshot token documents)))
    end.

(** ** Publication *)

Definition documentSlicesEqual (a b : list document) : bool :=
  if negb (zlen a =? zlen b) then false else forallb (fun p => Document_Equal p.1 p.2) (zip a b).

(** [publishNewerViewState] as one step: the state, whether it is new and whether
    its documents changed. *)
Definition publishNewerViewState (current : option reactiveViewState) (next : reactiveViewState)
    : option reactiveViewState * bool * bool :=
  match current with
  | None => (Some next, true, true)
  | Some current =>
      if vs_token next <=? vs_token current then (Some current, false, false)
      else (Some next, true, negb (documentSlicesEqual (qs_documents (vs_snapshot current)) (qs_documents (vs_snapshot next))))
  end.

(** [applyViewBatch]: the new state and what is delivered, or an error that fails
    the view; [None] asks for a rebuild. *)
Definition applyViewBatch (current : reactiveViewState) (order : reactiveCollectionOrder) (token : Z) (changes : list Change)
    : result (option (reactiveViewState * option (QuerySnapshot * sharedQueryDelta))) :=
  let* next := transitionReactiveViewState current order token changes in
  match next with
  | None => Ok None
  | Some next =>
      if token <=? vs_token current then Ok (Some (current, None))
      else if documentSlicesEqual (qs_documents (vs_snapshot current)) (qs_documents (vs_snapshot next)) then Ok (Some (next, None))
      else
        let* delta := buildSharedQueryDelta (qs_documents (vs_snapshot current)) (qs_documents (vs_snapshot next)) token in
        Ok (Some (next, Some (vs_snapshot next, delta)))
  end.
End Views.

(** ** Changes and positions *)

(** What one committed change says of the documents of the collection. *)
Inductive changed (change : Change) : members -> members -> Prop :=
| changed_insert c d : ch_Operation change = InsertOperation -> ch_Before change = None -> ch_After change = Some d ->
    (ch_DocumentID change ∉ c.*1) -> changed change c (c ++ [(ch_DocumentID change, d)])
| changed_update c1 c2 before after : ch_Operation change = UpdateOperation ->
    ch_Before change = Some before -> ch_After change = Some after ->
    changed change (c1 ++ (ch_DocumentID change, before) :: c2) (c1 ++ (ch_DocumentID change, after) :: c2)
| changed_delete c1 c2 before : ch_Operation change = DeleteOperation ->
    ch_Before change = Some before -> ch_After change = None ->
    changed change (c1 ++ (ch_DocumentID change, before) :: c2) (c1 ++ c2)
| changed_index c : ch_Operation change = CreateIndexOperation \/ ch_Operation change = ReplaceIndexOperation ->
    changed change c c.

Inductive changed_by : list Change -> members -> members -> Prop :=
| changed_none c : changed_by [] c c
| changed_more change changes c1 c2 c3 : changed change c1 c2 -> changed_by changes c2 c3 -> changed_by (change :: changes) c1 c3.

Lemma changed_NoDup change c c' : changed change c c' -> NoDup c.*1 -> NoDup c'.*1.
Proof.
  intros [c0 d _ _ _ Hid|c1 c2 b a _ _ _|c1 c2 b _ _ _|c0 _] Hnd.
  - rewrite fmap_app. cbn. apply NoDup_app. split_and!; [done| |apply NoDup_singleton].
    intros i Hi ->%list_elem_of_singleton. done.
  - rewrite fmap_app in *. exact Hnd.
  - rewrite fmap_app in *. cbn in Hnd. apply NoDup_app in Hnd as (H1 & H2 & [_ H3]%NoDup_cons).
    apply NoDup_app. split_and!; [done|intros i Hi Hi'; apply (H2 i Hi); by right|done].
  - done.
Qed.

Definition place_of (positions : gmap bytes Z) (id : bytes) : Z := default 0 (positions !! id).

(** The table knows the documents, and their positions follow their order. *)
Record positions_ok (next : Z) (positions : gmap bytes Z) (c : members) : Prop := {
  po_known : forall id, is_Some (positions !! id) <-> id ∈ c.*1;
  po_ordered : StronglySorted Z.lt (place_of positions <$> c.*1);
  po_bounds : forall id p, positions !! id = Some p -> 0 < p <= next;
  po_next : 0 <= next < 2 ^ 64 }.

Lemma positions_ids next positions c c' : c.*1 = c'.*1 -> positions_ok next positions c -> positions_ok next positions c'.
Proof. intros E [H1 H2 H3 H4]. split; rewrite <- ?E; done. Qed.

Definition order_ok (order : reactiveCollectionOrder) : members -> Prop := positions_ok (co_next order) (co_positions order).

Lemma place_of_app positions l l' : place_of positions <$> (l ++ l') = (place_of positions <$> l) ++ (place_of positions <$> l').
Proof. apply fmap_app. Qed.

Lemma place_of_ext positions positions' (l : list bytes) : (forall id, id ∈ l -> positions' !! id = positions !! id) ->
  place_of positions' <$> l = place_of positions <$> l.
Proof. intros H. apply list_fmap_ext. intros i id Hi. unfold place_of. rewrite H; [done|]. by eapply list_elem_of_lookup_2. Qed.

(** One change of the table: it stays in step with the documents, or the counter
    of positions is used up. *)
Lemma order_change_spec change c c' next positions : changed change c c' -> NoDup c.*1 -> positions_ok next positions c ->
  match order_change change next positions with
  | Some (next', positions') => positions_ok next' positions' c' /\
      (forall id, id <> ch_DocumentID change -> positions' !! id = positions !! id)
  | None => next = 2 ^ 64 - 1
  end.
Proof.
  intros Hch Hnd Hok. unfold order_change. set (id := ch_DocumentID change) in *.
  destruct Hch as [c d -> _ _ Hid|c1 c2 b a -> _ _|c1 c2 b -> _ _|c [-> | ->]].
  - destruct (positions !! id) as [p|] eqn:E.
    { exfalso. apply Hid, (po_known _ _ _ Hok). eauto. }
    destruct (Z.eqb_spec next (2 ^ 64 - 1)) as [|Hne]; [done|]. pose proof (po_next _ _ _ Hok) as Hn. split.
    + split.
      * intros i. rewrite fmap_app, elem_of_app. cbn. rewrite list_elem_of_singleton, <- (po_known _ _ _ Hok).
        destruct (decide (i = id)) as [->|Hi]; [rewrite lookup_insert_eq; split; eauto|].
        rewrite lookup_insert_ne by done. tauto.
      * rewrite fmap_app, place_of_app. cbn. apply StronglySorted_app_2.
        -- intros x y Hx ->%list_elem_of_singleton. unfold place_of at 1. rewrite lookup_insert_eq. cbn.
           apply list_elem_of_fmap in Hx as (i & -> & Hi). unfold place_of.
           rewrite lookup_insert_ne by (intros <-; done). apply (po_known _ _ _ Hok) in Hi as [p Hp].
           rewrite Hp. cbn. apply (po_bounds _ _ _ Hok) in Hp. lia.
        -- rewrite (place_of_ext positions); [apply Hok|]. intros i Hi. apply lookup_insert_ne. by intros <-.
        -- repeat constructor.
      * intros i p. destruct (decide (i = id)) as [->|Hi]; [rewrite lookup_insert_eq; intros [= <-]; lia|].
        rewrite lookup_insert_ne by done. intros Hp%(po_bounds _ _ _ Hok). lia.
      * lia.
    + intros i Hi. apply lookup_insert_ne. done.
  - assert (is_Some (positions !! id)) as [p ->]. { apply (po_known _ _ _ Hok). rewrite fmap_app, elem_of_app. right. by left. }
    split; [|done]. eapply positions_ids; [|exact Hok]. by rewrite !fmap_app.
  - assert (is_Some (positions !! id)) as [p ->]. { apply (po_known _ _ _ Hok). rewrite fmap_app, elem_of_app. right. by left. }
    rewrite fmap_app in Hnd. cbn in Hnd. apply NoDup_app in Hnd as (_ & Hd & [Hn2 _]%NoDup_cons).
    assert (Hid : id ∉ (c1 ++ c2).*1). { rewrite fmap_app, elem_of_app. intros [Hi|Hi]; [apply (Hd id Hi); by left|done]. }
    destruct Hok as [H1 H2 H3 H4]. split; [split; [| | |done]|].
    + intros i. destruct (decide (i = id)) as [->|Hi]; [rewrite lookup_delete_eq; split; [by intros [? [=]]|done]|].
      rewrite lookup_delete_ne, H1 by done. rewrite !fmap_app, !elem_of_app. cbn. rewrite elem_of_cons. tauto.
    + rewrite (place_of_ext positions); [|intros i Hi; apply lookup_delete_ne; by intros <-].
      rewrite fmap_app, place_of_app in H2 |- *. cbn in H2. apply StronglySorted_app_2.
      * intros x y Hx Hy. apply (StronglySorted_app_1_elem_of Z.lt _ _ _ _ H2 Hx). by right.
      * by eapply StronglySorted_app_1_l.
      * by apply StronglySorted_app_1_r, StronglySorted_inv in H2 as [H2 _].
    + intros i p'. destruct (decide (i = id)) as [->|Hi]; [by rewrite lookup_delete_eq|]. rewrite lookup_delete_ne by done. apply H3.
    + intros i Hi. by apply lookup_delete_ne.
  - done.
  - done.
Qed.

(** ** The members of a view *)

Definition entry_of (positions : gmap bytes Z) (m : bytes * document) : reactiveTreeEntry :=
  mk_tentry m.1 (mk_member m.2 (place_of positions m.1) (size_of m.2)).

Definition view_members (q : QuerySpec) (positions : gmap bytes Z) (c : members) : list reactiveTreeEntry :=
  entry_of positions <$> matches q c.

Definition total (ms : list reactiveTreeEntry) : Z := foldr (fun e n => rm_bytes (te_member e) + n) 0 ms.

Definition well_sized (e : reactiveTreeEntry) : Prop := rm_bytes (te_member e) = size_of (member_document e) /\ sized (member_document e).

Lemma total_perm ms ms' : ms ≡ₚ ms' -> total ms = total ms'.
Proof. unfold total. induction 1; cbn; lia. Qed.
Lemma total_cons e ms : total (e :: ms) = rm_bytes (te_member e) + total ms.
Proof. done. Qed.
Lemma total_members_app ms ms' : total (ms ++ ms') = total ms + total ms'.
Proof. unfold total. induction ms; cbn; lia. Qed.
Lemma total_nonneg ms : Forall well_sized ms -> 0 <= total ms.
Proof. unfold total. induction 1 as [|e ms [He _] _ IH]; cbn; [lia|]. rewrite He. pose proof (size_nonneg (member_document e)). lia. Qed.

Lemma matches_app q c c' : matches q (c ++ c') = matches q c ++ matches q c'.
Proof. unfold matches. apply List.filter_app. Qed.
Lemma view_members_app q positions c c' : view_members q positions (c ++ c') = view_members q positions c ++ view_members q positions c'.
Proof. unfold view_members. by rewrite matches_app, fmap_app. Qed.
Lemma view_members_cons q positions m c :
  view_members q positions (m :: c) = (if Match q m.2 then [entry_of positions m] else []) ++ view_members q positions c.
Proof. unfold view_members, matches. cbn [List.filter]. by destruct (Match q m.2). Qed.

Lemma view_ids q positions c : ids (view_members q positions c) = (matches q c).*1.
Proof. unfold view_members, ids. by rewrite <- list_fmap_compose. Qed.

Lemma view_ids_in q positions c id : id ∈ ids (view_members q positions c) -> id ∈ c.*1.
Proof. rewrite view_ids. intros (m & -> & Hm%matches_in)%list_elem_of_fmap. by apply list_elem_of_fmap_2. Qed.

Lemma view_members_ext q positions positions' c : (forall id, id ∈ c.*1 -> positions' !! id = positions !! id) ->
  view_members q positions' c = view_members q positions c.
Proof.
  intros H. unfold view_members. apply list_fmap_ext. intros i m Hi. unfold entry_of, place_of. rewrite H; [done|].
  apply list_elem_of_fmap_2. apply (matches_in q). by eapply list_elem_of_lookup_2.
Qed.

Section Tracking.
Context (priority : bytes -> Z) (q : QuerySpec) (limits : ResourceLimits).
Context (U : document -> Prop).
Hypothesis Hexpr : expr_ok (q_where q) = true.
Hypothesis Hpaging : paging_ok q.
(** The documents that come by have a size, and their sort values compare
    exactly. *)
Hypothesis Hdirections : Forall (fun f => sf_direction f = 1 \/ sf_direction f = -1) (q_sort q).
Hypothesis Hexact : forall d d' f v v', U d -> U d' -> f ∈ q_sort q ->
  lookupInternal d (sf_path f) = Some v -> lookupInternal d' (sf_path f) = Some v' -> sort_exact v v'.
Hypothesis Hsized : forall d, U d -> sized d.
Hypothesis Hlimits : MaxReactiveViewDocuments limits < 2 ^ 64 /\ MaxReactiveViewBytes limits < 2 ^ 64 /\ 0 <= MaxQueryPredicateSteps limits.

Definition known (c : members) : Prop := Forall (fun m => U m.2) c.

Lemma view_members_known positions c : known c -> Forall (fun e => U (member_document e) /\ well_sized e) (view_members q positions c).
Proof using Hsized.
  intros Hc. unfold view_members. apply Forall_fmap, Forall_forall. intros m Hm%matches_in.
  unfold known in Hc. rewrite Forall_forall in Hc. specialize (Hc m Hm). split; [done|]. split; [done|]. by apply Hsized.
Qed.

Lemma known_rankable ms : Forall (fun e => U (member_document e) /\ well_sized e) ms -> rankable q ms.
Proof using Hdirections Hexact.
  rewrite Forall_forall. intros H. split; [done|]. intros a b f va vb Ha Hb. apply Hexact; by apply H.
Qed.

(** What the trees and counts of a transition hold. *)
Record holds_members (ms : list reactiveTreeEntry) (w : transition) : Prop := {
  hm_ids : NoDup (ids ms);
  hm_known : Forall (fun e => U (member_document e) /\ well_sized e) ms;
  hm_trees : valid_trees priority q (tr_byID w, tr_ordered w) ms;
  hm_count : tr_count w = zlen ms;
  hm_bytes : tr_bytes w = total ms;
  hm_budget : 0 <= steps_left (tr_budget w) }.

Lemma holds_members_perm ms ms' w : ms ≡ₚ ms' -> holds_members ms w -> holds_members ms' w.
Proof using.
  intros Hp [H1 H2 H3 H4 H5 H6]. split; [by rewrite <- (ids_perm _ _ Hp)|by rewrite <- Hp| | | |done].
  - by eapply valid_trees_perm.
  - rewrite H4. unfold zlen. by rewrite Hp.
  - rewrite H5. by apply total_perm.
Qed.

Lemma withdraw_spec ms w m : holds_members ms w -> m ∈ ms ->
  exists w', withdraw q (te_id m) (te_member m) w = Ok (Some w') /\ holds_members (without_id (te_id m) ms) w' /\
    tr_budget w' = tr_budget w /\ tr_mutated w' = tr_mutated w.
Proof using Hdirections Hexact.
  intros [H1 H2 H3 H4 H5 H6] Hm. pose proof Hm as (l1 & l2 & Hms)%list_elem_of_split.
  assert (Hw : without_id (te_id m) ms = l1 ++ l2).
  { subst ms. rewrite ids_app in H1. cbn in H1. apply NoDup_app in H1 as (_ & Hd & [Hn _]%NoDup_cons).
    unfold without_id. rewrite filter_app, filter_cons_False by (by intros []).
    fold (without_id (te_id m) l1) (without_id (te_id m) l2). rewrite !without_absent; [done|done|].
    intros Hi. apply (Hd _ Hi). by left. }
  pose proof H2 as Hsz. rewrite Forall_forall in Hsz. destruct (Hsz m Hm) as [_ [Hbytes Hsz']].
  unfold withdraw, reactiveMemberCanonicalBytes.
  assert ((if negb (rm_bytes (te_member m) =? 0) then Ok (rm_bytes (te_member m)) else canonicalDocumentSize (rm_document (te_member m)))
          = Ok (rm_bytes (te_member m))) as ->.
  { destruct (Z.eqb_spec (rm_bytes (te_member m)) 0) as [Hz|]; [|done]. cbn [negb]. unfold sized, member_document in *. congruence. }
  cbn [rbind]. rewrite H4, H5.
  assert (Ht : total ms = total l1 + (rm_bytes (te_member m) + total l2)) by (by subst ms; rewrite total_members_app).
  assert (Hz : zlen ms = zlen (l1 ++ l2) + 1) by (subst ms; rewrite !zlen_app, zlen_cons; lia).
  pose proof (zlen_nonneg (l1 ++ l2)).
  assert (H2' : Forall (fun e => U (member_document e) /\ well_sized e) (l1 ++ l2)).
  { subst ms. apply Forall_app in H2 as [Ha [_ Hb]%Forall_cons]. by apply Forall_app. }
  assert (0 <= total (l1 ++ l2)) by (apply total_nonneg; eapply Forall_impl; [exact H2'|]; by intros e []).
  rewrite total_members_app in *. destruct (Z.eqb_spec (zlen ms) 0); [lia|]. destruct (Z.ltb_spec (total ms) (rm_bytes (te_member m))); [lia|]. cbn [orb].
  eexists. split; [reflexivity|]. cbn [tr_budget tr_mutated]. split; [|done]. rewrite Hw.
  split; cbn [tr_byID tr_ordered tr_count tr_bytes tr_budget]; [|done| | | |done].
  - subst ms. rewrite ids_app in *. cbn in H1. apply NoDup_app in H1 as (Ha & Hd & [_ Hb]%NoDup_cons).
    apply NoDup_app. split_and!; [done| |done]. intros i Hi Hi'. apply (Hd i Hi). by right.
  - rewrite <- Hw. by apply (del_trees priority q (tr_byID w, tr_ordered w)); [done|done|apply known_rankable|].
  - lia.
  - rewrite total_members_app. lia.
Qed.

Lemma admit_spec ms w id after position : holds_members ms w -> (id ∉ ids ms) -> U after ->
  match enter_view priority q limits id after position w with
  | Ok w' => holds_members (mk_tentry id (mk_member after position (size_of after)) :: ms) w' /\
             tr_budget w' = tr_budget w /\ tr_mutated w' = true
  | Err e => e = ErrResourceLimit
  end.
Proof using Hdirections Hexact Hsized Hlimits.
  intros [H1 H2 H3 H4 H5 H6] Hid HU. unfold enter_view. rewrite (Hsized _ HU). cbn [rbind].
  unfold admitReactiveViewMember. destruct (Z.leb_spec (MaxReactiveViewDocuments limits) (tr_count w)); [done|].
  destruct (Z.ltb_spec (MaxReactiveViewBytes limits) (tr_bytes w)); [done|].
  destruct (Z.ltb_spec (MaxReactiveViewBytes limits - tr_bytes w) (size_of after)); [done|]. cbn [orb rbind].
  pose proof (zlen_nonneg ms). assert (0 <= total ms) by (apply total_nonneg; eapply Forall_impl; [exact H2|]; by intros e []).
  pose proof (size_nonneg after). rewrite !to_u64_id by (unfold u64; lia). cbn [tr_budget tr_mutated]. split; [|done].
  assert (H2' : Forall (fun e => U (member_document e) /\ well_sized e) (mk_tentry id (mk_member after position (size_of after)) :: ms)).
  { constructor; [|done]. split; [done|]. split; [done|]. by apply Hsized. }
  split; cbn [tr_byID tr_ordered tr_count tr_bytes tr_budget]; [by apply NoDup_cons|done| | | |done].
  - apply (put_trees priority q (tr_byID w, tr_ordered w) ms (mk_tentry id (mk_member after position (size_of after)))); [done|done|by apply known_rankable|done].
  - rewrite zlen_cons. lia.
  - rewrite total_cons. cbn [te_member rm_bytes]. lia.
Qed.

Lemma document_decided d b : 0 <= steps_left b ->
  match match_document q d b with
  | Ok (m, b') => m = Match q d /\ 0 <= steps_left b'
  | Err e => e = ErrQueryBudget
  end.
Proof using Hexpr.
  intros Hb. destruct (match_document_costs q d Hexpr) as (n & Hn & Hcost). rewrite Hcost by done.
  destruct (Z.leb_spec n (steps_left b)); [|done]. split; [done|]. rewrite steps_left_spend. lia.
Qed.

Definition image_matches (image : option document) : bool := match image with Some d => Match q d | None => false end.

Lemma match_change_spec image b : 0 <= steps_left b ->
  match match_change q image b with
  | Ok (m, b') => m = image_matches image /\ 0 <= steps_left b'
  | Err e => e = ErrQueryBudget
  end.
Proof using Hexpr. intros Hb. destruct image; [by apply document_decided|done]. Qed.

Lemma holds_members_budget ms w b : holds_members ms w -> 0 <= steps_left b -> holds_members ms (with_budget b w).
Proof using. intros [H1 H2 H3 H4 H5 H6] Hb. by split. Qed.

(** The outcome of a step: the members afterwards, and a step that says it did
    not touch the trees did not. *)
Definition stepped (ms : list reactiveTreeEntry) (w : transition) (r : result (option transition)) : Prop :=
  match r with
  | Ok (Some w') => holds_members ms w' /\
      (tr_mutated w' = false -> tr_mutated w = false /\ tr_byID w' = tr_byID w /\ tr_ordered w' = tr_ordered w)
  | Ok None => False
  | Err e => e = ErrQueryBudget \/ e = ErrResourceLimit
  end.

(** A change of the document [id], given what the view holds of it before and
    what it should hold after. *)
Lemma transition_change_spec order change before after rest w :
  (ch_Operation change <> CreateIndexOperation /\ ch_Operation change <> ReplaceIndexOperation) ->
  let id := ch_DocumentID change in
  let old := if image_matches (ch_Before change) then [before] else [] in
  let new := if image_matches (ch_After change) then [after] else [] in
  holds_members (old ++ rest) w -> (id ∉ ids rest) ->
  (image_matches (ch_Before change) = true -> te_id before = id) ->
  (forall d, ch_After change = Some d -> U d /\ exists position, after = mk_tentry id (mk_member d position (size_of d)) /\
     (image_matches (ch_Before change) = true -> rm_position (te_member before) = position) /\
     (image_matches (ch_Before change) = false -> co_positions order !! id = Some position)) ->
  stepped (new ++ rest) w (transition_change priority q limits order change w).
Proof using Hexpr Hdirections Hexact Hsized Hlimits.
  intros [Hop1 Hop2] id old new Hw Hid Hbefore Hafter. unfold transition_change. fold id.
  assert (Hget : reactiveIDGet (tr_byID w) id = if image_matches (ch_Before change) then Some (te_member before) else None).
  { destruct Hw as [_ _ [Hv _] _ _ _]. cbn [fst] in Hv. unfold old in Hv. destruct (image_matches (ch_Before change)) eqn:E.
    - rewrite <- (Hbefore eq_refl). apply (valid_get priority _ _ before Hv). by left.
    - by apply (valid_get_none priority _ _ id Hv). }
  rewrite Hget.
  pose proof (match_change_spec (ch_Before change) (tr_budget w) (hm_budget _ _ Hw)) as Hb.
  destruct (match_change q (ch_Before change) (tr_budget w)) as [[bm b1]|e]; cbn [rbind].
  2: { destruct (ch_Operation change); try done; by left. }
  destruct Hb as [-> Hb1]. pose proof (match_change_spec (ch_After change) b1 Hb1) as Ha.
  destruct (match_change q (ch_After change) b1) as [[am b2]|e]; cbn [rbind].
  2: { destruct (ch_Operation change); try done; by left. }
  destruct Ha as [-> Hb2]. apply (holds_members_budget _ _ b2) in Hw; [|done]. unfold old, new in *. clear old new.
  match goal with |- stepped _ _ (match _ with CreateCollectionOperation => ?r | _ => _ end) => set (body := r) end.
  assert (Hbody : stepped ((if image_matches (ch_After change) then [after] else []) ++ rest) w body).
  2: { destruct (ch_Operation change); done. }
  unfold body. clear body. destruct (image_matches (ch_Before change)) eqn:Eb; cbn [Bool.eqb negb].
  - destruct (withdraw_spec _ _ before Hw ltac:(by left)) as (w1 & Hwd & Hw1 & Hb1' & Hm1). rewrite (Hbefore eq_refl) in Hwd, Hw1.
    assert (Hrest : without_id id ([before] ++ rest) = rest).
    { unfold without_id. rewrite filter_app, filter_cons_False by (rewrite (Hbefore eq_refl); by intros []). cbn.
      by apply without_absent. }
    rewrite Hrest in Hw1. destruct (image_matches (ch_After change)) eqn:Ea.
    + destruct (ch_After change) as [d|] eqn:Ed; [|done]. rewrite Hwd. cbn [rbind].
      destruct (Hafter d eq_refl) as (HU & position & -> & Hpos & _). rewrite (Hpos eq_refl).
      pose proof (admit_spec rest w1 id d position Hw1 Hid HU) as Had.
      destruct (enter_view priority q limits id d position w1) as [w2|e]; cbn [rbind]; [|by right].
      destruct Had as (Hw2 & _ & Hm2). split; [done|]. congruence.
    + rewrite Hwd. cbn. split; [|done]. destruct Hw1 as [H1 H2 H3 H4 H5 H6]. by split.
  - destruct (image_matches (ch_After change)) eqn:Ea.
    + destruct (ch_After change) as [d|] eqn:Ed; [|done]. destruct (Hafter d eq_refl) as (HU & position & -> & _ & Hpos).
      rewrite (Hpos eq_refl). pose proof (admit_spec rest (with_budget b2 w) id d position Hw Hid HU) as Had.
      destruct (enter_view priority q limits id d position (with_budget b2 w)) as [w2|e]; cbn [rbind]; [|by right].
      destruct Had as (Hw2 & _ & Hm2). split; [done|]. congruence.
    + cbn [stepped]. split; [done|]. by intros Hm.
Qed.

Lemma stepped_perm ms ms' w r : ms ≡ₚ ms' -> stepped ms w r -> stepped ms' w r.
Proof using.
  intros Hp. destruct r as [[w'|]|e]; cbn [stepped]; [|done..]. intros [H1 H2]. split; [|done]. by eapply holds_members_perm.
Qed.

Definition index_change (change : Change) : bool :=
  match ch_Operation change with CreateIndexOperation | ReplaceIndexOperation => true | _ => false end.

Definition changed_ids (changes : list Change) : list bytes :=
  flat_map (fun change => if index_change change then [] else [ch_DocumentID change]) changes.

Lemma view_step order change c c' next positions next' positions' w :
  changed change c c' -> NoDup c.*1 -> positions_ok next positions c ->
  order_change change next positions = Some (next', positions') ->
  (index_change change = false -> co_positions order !! ch_DocumentID change = positions' !! ch_DocumentID change) ->
  known c' -> holds_members (view_members q positions c) w ->
  stepped (view_members q positions' c') w (transition_change priority q limits order change w).
Proof using Hexpr Hdirections Hexact Hsized Hlimits.
  intros Hch Hnd Hpos Hoc Horder Hknown Hw. pose proof (order_change_spec change c c' next positions Hch Hnd Hpos) as Hspec.
  rewrite Hoc in Hspec. destruct Hspec as [Hpos' Hsame]. unfold index_change in Horder.
  destruct Hch as [c d Hop Hb Ha Hid|c1 c2 b a Hop Hb Ha|c1 c2 b Hop Hb Ha|c Hop].
  - rewrite Hop in Horder. specialize (Horder eq_refl).
    apply (stepped_perm ((if image_matches (ch_After change) then [entry_of positions' (ch_DocumentID change, d)] else []) ++ view_members q positions c)).
    { rewrite view_members_app, view_members_cons, (view_members_ext q positions positions' c), Ha.
      - cbn. by rewrite app_nil_r, Permutation_app_comm.
      - intros i Hi. apply Hsame. by intros ->. }
    apply (transition_change_spec order change (entry_of positions (ch_DocumentID change, d))).
    + by rewrite Hop.
    + by rewrite Hb.
    + by intros Hin%view_ids_in.
    + by rewrite Hb.
    + rewrite Ha, Hb. intros d' [= <-]. apply Forall_app in Hknown as [_ [HU _]%Forall_cons]. split; [done|].
      exists (place_of positions' (ch_DocumentID change)). split_and!; [done|done|]. intros _. rewrite Horder. unfold place_of.
      assert (is_Some (positions' !! ch_DocumentID change)) as [p ->]; [|done].
      apply (po_known _ _ _ Hpos'). rewrite fmap_app, elem_of_app. right. by left.
  - rewrite Hop in Horder. specialize (Horder eq_refl).
    assert (positions' = positions) as ->.
    { unfold order_change in Hoc. rewrite Hop in Hoc. destruct (positions !! ch_DocumentID change); [by injection Hoc|done]. }
    assert (Hrest : ch_DocumentID change ∉ ids (view_members q positions (c1 ++ c2))).
    { intros Hin%view_ids_in. rewrite fmap_app in Hnd, Hin. cbn in Hnd. apply NoDup_app in Hnd as (_ & Hd & [Hn _]%NoDup_cons).
      apply elem_of_app in Hin as [Hi|Hi]; [apply (Hd _ Hi); by left|done]. }
    apply (stepped_perm ((if image_matches (ch_After change) then [entry_of positions (ch_DocumentID change, a)] else []) ++ view_members q positions (c1 ++ c2))).
    { rewrite !view_members_app, view_members_cons, Ha. cbn [image_matches snd]. apply Permutation_app_swap_app. }
    apply (transition_change_spec order change (entry_of positions (ch_DocumentID change, b))).
    + by rewrite Hop.
    + eapply holds_members_perm; [|exact Hw]. rewrite !view_members_app, view_members_cons, Hb. cbn [image_matches snd].
      symmetry. apply Permutation_app_swap_app.
    + done.
    + done.
    + rewrite Ha, Hb. intros d' [= <-]. apply Forall_app in Hknown as [_ [HU _]%Forall_cons]. split; [done|].
      exists (place_of positions (ch_DocumentID change)). split_and!; [done|done|]. intros _. rewrite Horder. unfold place_of.
      assert (is_Some (positions !! ch_DocumentID change)) as [p ->]; [|done].
      apply (po_known _ _ _ Hpos'). rewrite fmap_app, elem_of_app. right. by left.
  - assert (Hrest : ch_DocumentID change ∉ (c1 ++ c2).*1).
    { rewrite fmap_app in Hnd |- *. cbn in Hnd. apply NoDup_app in Hnd as (_ & Hd & [Hn _]%NoDup_cons).
      intros [Hi|Hi]%elem_of_app; [apply (Hd _ Hi); by left|done]. }
    apply (stepped_perm ((if image_matches (ch_After change) then [entry_of positions (ch_DocumentID change, b)] else []) ++ view_members q positions (c1 ++ c2))).
    { rewrite Ha. cbn [image_matches app]. rewrite (view_members_ext q positions positions'); [done|].
      intros i Hi. apply Hsame. by intros ->. }
    apply (transition_change_spec order change (entry_of positions (ch_DocumentID change, b))).
    + by rewrite Hop.
    + eapply holds_members_perm; [|exact Hw]. rewrite !view_members_app, view_members_cons, Hb. cbn [image_matches snd].
      symmetry. apply Permutation_app_swap_app.
    + by intros Hin%view_ids_in.
    + done.
    + by rewrite Ha.
  - assert (positions' = positions) as ->.
    { unfold order_change in Hoc. destruct Hop as [Hop|Hop]; rewrite Hop in Hoc; by injection Hoc. }
    unfold transition_change. by destruct Hop as [-> | ->].
Qed.

(** The table after the rest of a batch agrees on the documents the rest does not
    touch. *)
Lemma order_changes_other changes next positions next' positions' id :
  order_changes changes next positions = (true, (next', positions')) -> (id ∉ changed_ids changes) ->
  positions' !! id = positions !! id.
Proof using.
  clear - changes. revert next positions. induction changes as [|change changes IH]; intros next positions; cbn [order_changes]; [by intros [= <- <-]|].
  destruct (order_change change next positions) as [[n p]|] eqn:E; [|done]. intros Hrest Hid.
  cbn [changed_ids flat_map] in Hid. fold (changed_ids changes) in Hid. rewrite elem_of_app in Hid.
  rewrite (IH n p) by (done || tauto). unfold index_change in Hid. unfold order_change in E.
  destruct (ch_Operation change); rewrite ?list_elem_of_singleton in Hid;
    repeat (match type of E with context [match ?x with _ => _ end] => destruct x end; try done); try done;
    injection E as <- <-; try done; [apply lookup_insert_ne|apply lookup_delete_ne]; tauto || (intros Heq; symmetry in Heq; tauto).
Qed.

Definition changes_known (changes : list Change) : Prop := Forall (fun change => forall d, ch_After change = Some d -> U d) changes.

Lemma changed_known change c c' : changed change c c' -> (forall d, ch_After change = Some d -> U d) -> known c -> known c'.
Proof using.
  unfold known. intros [c0 d _ _ Ha _|c1 c2 b a _ _ Ha|c1 c2 b _ _ _|c0 _] HU Hc; [| | |done].
  - apply Forall_app. split; [done|]. constructor; [by apply HU|constructor].
  - apply Forall_app in Hc as [H1 [_ H2]%Forall_cons]. apply Forall_app. split; [done|]. constructor; [by apply HU|done].
  - apply Forall_app in Hc as [H1 [_ H2]%Forall_cons]. by apply Forall_app.
Qed.

Lemma positions_run changes c c' next positions next' positions' :
  changed_by changes c c' -> NoDup c.*1 -> positions_ok next positions c ->
  order_changes changes next positions = (true, (next', positions')) ->
  positions_ok next' positions' c' /\ NoDup c'.*1.
Proof using.
  intros Hrun. revert next positions. induction Hrun as [c|change changes c1 c2 c3 Hch Hrun IH]; intros next positions Hnd Hpos; cbn [order_changes].
  - by intros [= <- <-].
  - pose proof (order_change_spec change c1 c2 next positions Hch Hnd Hpos) as Hspec.
    destruct (order_change change next positions) as [[n p]|]; [|done]. apply IH; [by eapply changed_NoDup|apply Hspec].
Qed.

Lemma view_run order changes c c' next positions next' w :
  changed_by changes c c' -> NoDup c.*1 -> positions_ok next positions c -> NoDup (changed_ids changes) ->
  order_changes changes next positions = (true, (next', co_positions order)) ->
  known c -> changes_known changes -> holds_members (view_members q positions c) w ->
  stepped (view_members q (co_positions order) c') w (transition_changes priority q limits order changes w).
Proof using Hexpr Hdirections Hexact Hsized Hlimits.
  intros Hrun. revert next positions w. induction Hrun as [c|change changes c1 c2 c3 Hch Hrun IH]; intros next positions w Hnd Hpos Hids Horder Hk Hck Hw.
  - cbn in Horder. by injection Horder as <- <-.
  - cbn [order_changes] in Horder. destruct (order_change change next positions) as [[n p]|] eqn:E; [|done].
    cbn [changed_ids flat_map] in Hids. fold (changed_ids changes) in Hids. apply NoDup_app in Hids as (_ & Hdis & Hids).
    apply Forall_cons in Hck as [HU Hck]. pose proof (changed_known _ _ _ Hch HU Hk) as Hk2.
    pose proof (order_change_spec change c1 c2 next positions Hch Hnd Hpos) as Hspec. rewrite E in Hspec. destruct Hspec as [Hpos2 _].
    assert (Hstep : stepped (view_members q p c2) w (transition_change priority q limits order change w)).
    { apply (view_step order change c1 c2 next positions n p); [done..| |done|done]. intros Hi.
      apply (order_changes_other _ _ _ _ _ _ Horder). apply Hdis. rewrite Hi. by left. }
    pose proof (changed_NoDup _ _ _ Hch Hnd) as Hnd2. cbn [transition_changes].
    destruct (transition_change priority q limits order change w) as [[w1|]|e]; cbn [rbind]; [|done..].
    destruct Hstep as [Hw1 Hm1]. pose proof (IH n p w1 Hnd2 Hpos2 Hids Horder Hk2 Hck Hw1) as Hs3.
    destruct (transition_changes priority q limits order changes w1) as [[w2|]|e]; [|done..].
    destruct Hs3 as [Hw2 Hm2]. split; [done|]. intros Hm. destruct (Hm2 Hm) as (Hm1' & E1 & E2). destruct (Hm1 Hm1') as (? & E3 & E4).
    split; [done|]. by rewrite E1, E2.
Qed.

(** ** A view and its query *)

Lemma steps_fresh : 0 <= steps_left (newPredicateBudget q limits).
Proof using Hlimits. unfold steps_left, newPredicateBudget. cbn. lia. Qed.

(** The state of a view over the documents [c]. *)
Record view_ok (order : reactiveCollectionOrder) (c : members) (s : reactiveViewState) : Prop := {
  vo_trees : valid_trees priority q (vs_byID s, vs_ordered s) (view_members q (co_positions order) c);
  vo_count : vs_memberCount s = zlen (view_members q (co_positions order) c);
  vo_bytes : vs_memberBytes s = total (view_members q (co_positions order) c);
  vo_snapshot : vs_snapshot s = mk_qsnapshot (vs_token s) (materializeReactiveOrder (vs_ordered s) (q_skip q) (q_limit q)) }.

Lemma view_ids_NoDup positions c : NoDup c.*1 -> NoDup (ids (view_members q positions c)).
Proof using. intros Hnd. rewrite view_ids. by apply NoDup_matches. Qed.

Lemma view_ok_unique order c s s' : NoDup c.*1 -> view_ok order c s -> view_ok order c s' -> vs_token s = vs_token s' -> s = s'.
Proof using.
  intros Hnd [H1 H2 H3 H4] [H1' H2' H3' H4'] Ht.
  pose proof (valid_trees_unique priority q _ _ _ (view_ids_NoDup _ _ Hnd) H1 H1') as E. injection E as Ei Eo.
  destruct s, s'. cbn in *. by subst.
Qed.

(** Sorting two lists in step. *)
Lemma insert_stable_Forall2 {A B} (R : A -> B -> Prop) less less' x x' l l' :
  (forall a b a' b', R a a' -> R b b' -> less a b = less' a' b') -> R x x' -> Forall2 R l l' ->
  Forall2 R (insert_stable less x l) (insert_stable less' x' l').
Proof using.
  intros Hless Hx Hl. induction Hl as [|y y' l l' Hy Hl IH]; cbn; [by constructor|].
  rewrite (Hless y x y' x') by done. destruct (less' y' x'); by repeat constructor.
Qed.

Lemma sort_stable_Forall2 {A B} (R : A -> B -> Prop) less less' l l' :
  (forall a b a' b', R a a' -> R b b' -> less a b = less' a' b') -> Forall2 R l l' ->
  Forall2 R (sort_stable less l) (sort_stable less' l').
Proof using. intros Hless. induction 1 as [|x x' l l' Hx Hl IH]; [constructor|]. cbn. by apply insert_stable_Forall2. Qed.

(** Members and candidates at the same place of the collection. *)
Inductive same_place (c : members) (positions : gmap bytes Z) (e : reactiveTreeEntry) (k : queryCandidate) : Prop :=
| same_place_intro i m : c !! i = Some m -> e = entry_of positions m -> k = mk_candidate m.2 (Z.of_nat i) -> same_place c positions e k.

Lemma view_candidates positions c c' : forall i, c' = drop i c ->
  Forall2 (same_place c positions) (view_members q positions c') (matching_from q c'.*2 (Z.of_nat i)).
Proof using.
  induction c' as [|m c' IH]; intros i Hdrop; [constructor|].
  assert (Hm : c !! i = Some m) by (rewrite <- (Nat.add_0_r i), <- lookup_drop, <- Hdrop; done).
  assert (Hrest : c' = drop (S i) c) by (rewrite (drop_S c m i Hm) in Hdrop; congruence).
  specialize (IH (S i) Hrest). rewrite view_members_cons. cbn [fmap list_fmap matching_from].
  replace (Z.of_nat i + 1) with (Z.of_nat (S i)) by lia.
  destruct (Match q m.2); [|exact IH]. cbn [app]. constructor; [|exact IH]. by econstructor.
Qed.

Lemma place_lt positions c i j m m' next : positions_ok next positions c -> c !! i = Some m -> c !! j = Some m' ->
  (place_of positions m.1 ?= place_of positions m'.1) = (Z.of_nat i ?= Z.of_nat j).
Proof using.
  intros Hok Hi Hj. pose proof (po_ordered _ _ _ Hok) as Ho.
  assert (Hlt : forall i j m m', c !! i = Some m -> c !! j = Some m' -> (i < j)%nat -> place_of positions m.1 < place_of positions m'.1).
  { clear - Ho. intros i j m m' Hi Hj Hij. rewrite <- (take_drop_middle c i m Hi), fmap_app, place_of_app in Ho. cbn in Ho.
    apply StronglySorted_app_1_r, StronglySorted_inv in Ho as [_ Ho]. rewrite Forall_forall in Ho. apply Ho.
    apply list_elem_of_fmap_2, list_elem_of_fmap_2. apply list_elem_of_lookup. exists (j - S i)%nat.
    rewrite lookup_drop. by replace (S i + (j - S i))%nat with j by lia. }
  destruct (Z.compare_spec (Z.of_nat i) (Z.of_nat j)) as [He|Hlt'|Hgt].
  - assert (i = j) as -> by lia. rewrite Hi in Hj. injection Hj as ->. apply Z.compare_refl.
  - apply Z.compare_lt_iff. apply (Hlt i j); [done|done|lia].
  - apply Z.compare_gt_iff. apply (Hlt j i); [done|done|lia].
Qed.

Lemma compare_fields_zero sort a b : compare_fields sort a b = 0 -> qc_position a = qc_position b.
Proof using.
  induction sort as [|f sort IH]; cbn [compare_fields].
  - destruct (Z.ltb_spec (qc_position a) (qc_position b)); [done|]. destruct (Z.ltb_spec (qc_position b) (qc_position a)); [done|lia].
  - destruct (lookupInternal (qc_document a) (sf_path f)), (lookupInternal (qc_document b) (sf_path f)); [| |by destruct (_ =? 1)|done].
    + cbv zeta. destruct (Z.eqb_spec (compareSortValues v v0) 0); [done|]. destruct (_ =? -1); lia.
    + by destruct (_ =? 1).
Qed.

(** Related members compare as their candidates do. *)
Lemma same_place_compare positions c e k e' k' next : positions_ok next positions c ->
  same_place c positions e k -> same_place c positions e' k' ->
  (compareReactiveOrder q e e' <? 0) = candidate_before q k k'.
Proof using.
  intros Hok [i m Hi -> ->] [j m' Hj -> ->]. unfold compareReactiveOrder, candidate_before, compareCandidates, candidate_of, entry_of.
  cbn [te_id te_member rm_document rm_position].
  assert (Hfields : forall sort, compare_fields sort (mk_candidate m.2 (place_of positions m.1)) (mk_candidate m'.2 (place_of positions m'.1)) =
                                 compare_fields sort (mk_candidate m.2 (Z.of_nat i)) (mk_candidate m'.2 (Z.of_nat j))).
  { pose proof (place_lt positions c i j m m' next Hok Hi Hj) as Hc. induction sort as [|f sort IH]; cbn [compare_fields qc_document qc_position].
    - rewrite !cmp_ltb. by rewrite Hc.
    - by rewrite IH. }
  rewrite Hfields. destruct (Z.eqb_spec (compare_fields (q_sort q) (mk_candidate m.2 (Z.of_nat i)) (mk_candidate m'.2 (Z.of_nat j))) 0) as [Hz|]; [|done].
  rewrite Hz. apply compare_fields_zero in Hz. cbn in Hz. assert (i = j) as -> by lia. rewrite Hi in Hj. injection Hj as ->.
  unfold compareDocumentIDs. by rewrite (law_refl bcompare).
Qed.

Lemma candidates_known c : known c -> forall k, k ∈ matching_from q c.*2 0 -> U (qc_document k).
Proof using.
  intros Hk k Hin. pose proof (view_candidates ∅ c c 0 eq_refl) as Hf.
  apply list_elem_of_lookup in Hin as (n & Hn). destruct (Forall2_lookup_r _ _ _ _ _ Hf Hn) as (e & _ & [i m Hi _ ->]).
  unfold known in Hk. rewrite Forall_forall in Hk. apply Hk. by eapply list_elem_of_lookup_2.
Qed.

(** The snapshot of a view is what its query returns. *)
Lemma view_shows order c s : view_ok order c s -> order_ok order c -> NoDup c.*1 -> known c ->
  zlen c + default 0 (q_limit q) <= maxInt ->
  Execute q c.*2 = Ok (qs_documents (vs_snapshot s)).
Proof using Hexpr Hpaging Hdirections Hexact Hsized.
  intros [Htrees _ _ Hsnap] Hok Hnd Hk Hlen. set (positions := co_positions order) in *.
  assert (Hsortable : sortable q (matching_from q c.*2 0)).
  { split; [by apply matching_positions|done|]. intros a b f va vb Ha Hb. apply Hexact; by apply (candidates_known c). }
  assert (Hzl : zlen (matching_from q c.*2 0) <= zlen c).
  { etransitivity; [apply zlen_matching|]. unfold zlen. by rewrite length_fmap. }
  assert (Hlimit : 0 <= default 0 (q_limit q)).
  { pose proof Hpaging as [_ Hlim]. destruct (q_limit q) as [limit|]; [by apply (Hlim limit)|done]. }
  unfold Execute. rewrite executeMatched_page by (done || lia). f_equal. rewrite Hsnap. cbn [qs_documents].
  set (ms := view_members q positions c) in *. destruct Htrees as [_ Ho]. cbn [snd] in Ho. destruct Ho as [_ Hcount Hasc Hperm].
  pose proof (view_candidates positions c c 0 eq_refl) as Hpair. change (Z.of_nat 0) with 0 in Hpair. fold ms in Hpair.
  assert (Hzms : zlen (elements (vs_ordered s)) = zlen ms) by (unfold zlen; by rewrite Hperm).
  assert (Hzm : zlen ms = zlen (matching_from q c.*2 0)) by (unfold zlen; by rewrite (Forall2_length _ _ _ Hpair)).
  rewrite materialize_spec; [|done|done|].
  2: { unfold maxInt in *. rewrite Hzms, Hzm. apply (Z.le_lt_trans _ (zlen c)); [exact Hzl|lia]. }
  assert (Helements : elements (vs_ordered s) = sort_stable (fun a b => compareReactiveOrder q a b <? 0) ms).
  { pose proof (known_rankable ms (view_members_known positions c Hk)) as Hrank.
    destruct (sorted_members (compareReactiveOrder q) (order_rank q) (order_rank_eq q) ms (view_ids_NoDup positions c Hnd)) as [Ha Hp].
    { intros a b. by apply (compareReactiveOrder_rank q ms). }
    apply (ascending_unique (order_rank q)); [done..|]. by rewrite Hperm, Hp. }
  rewrite Helements.
  assert (Hsorted : Forall2 (same_place c positions) (sort_stable (fun a b => compareReactiveOrder q a b <? 0) ms) (ranked q (matching_from q c.*2 0))).
  { apply sort_stable_Forall2; [|done]. intros a b a' b'. by apply (same_place_compare positions c _ _ _ _ (co_next order)). }
  apply list_eq_Forall2. apply Forall2_fmap. unfold page.
  assert (Hdrop : Forall2 (fun k e => qc_document k = member_document e) (drop (Z.to_nat (q_skip q)) (ranked q (matching_from q c.*2 0)))
                    (drop (Z.to_nat (q_skip q)) (sort_stable (fun a b => compareReactiveOrder q a b <? 0) ms))).
  { apply Forall2_drop, Forall2_flip. eapply Forall2_impl; [exact Hsorted|]. by intros e k [i m _ -> ->]. }
  destruct (q_limit q); [by apply Forall2_take|done].
Qed.

(** ** Building a view *)

Lemma view_entries_spec documents positions order_ids count size b : 0 <= steps_left b -> 0 <= count -> 0 <= size ->
  (forall id d, id ∈ order_ids -> field documents id = Some d -> U d /\ is_Some (positions !! id)) ->
  match view_entries q limits documents positions order_ids count size b with
  | Ok (entries, count', size') =>
      entries = view_members q positions (documents_of documents order_ids) /\
      count' = count + zlen entries /\ size' = size + total entries
  | Err e => e = ErrQueryBudget \/ e = ErrResourceLimit
  end.
Proof using Hexpr Hsized Hlimits.
  revert count size b. induction order_ids as [|id order_ids IH]; intros count size b Hb Hc Hs Hin; cbn [view_entries].
  - split_and!; [done|rewrite zlen_nil; lia|unfold total; cbn; lia].
  - assert (Hin' : forall id d, id ∈ order_ids -> field documents id = Some d -> U d /\ is_Some (positions !! id)).
    { intros i d Hi. apply Hin. by right. }
    unfold documents_of. cbn [flat_map]. fold (documents_of documents order_ids).
    destruct (field documents id) as [d|] eqn:Ed; cbn [app]; [|by apply IH].
    destruct (Hin id d ltac:(by left) Ed) as [HU [position Hp]]. rewrite Hp.
    pose proof (document_decided d b Hb) as Hm. destruct (match_document q d b) as [[m b']|e]; cbn [rbind]; [|by left].
    destruct Hm as [-> Hb']. rewrite view_members_cons. cbn [snd]. destruct (Match q d); cbn [app]; [|by apply IH].
    rewrite (Hsized d HU). cbn [rbind]. unfold admitReactiveViewMember.
    destruct (Z.leb_spec (MaxReactiveViewDocuments limits) count); cbn [rbind]; [by right|].
    destruct (Z.ltb_spec (MaxReactiveViewBytes limits) size); cbn [orb rbind]; [by right|].
    destruct (Z.ltb_spec (MaxReactiveViewBytes limits - size) (size_of d)); cbn [rbind]; [by right|].
    pose proof (size_nonneg d). rewrite !to_u64_id by (unfold u64; lia).
    specialize (IH (count + 1) (size + size_of d) b' Hb' ltac:(lia) ltac:(lia) Hin').
    destruct (view_entries _ _ _ _ _ _ _ _) as [[[entries count'] size']|e]; cbn [rbind]; [|done].
    destruct IH as (-> & -> & ->). rewrite zlen_cons, total_cons. cbn [te_member rm_bytes].
    split_and!; [|lia|lia]. unfold entry_of, place_of. cbn [fst snd]. by rewrite Hp.
Qed.

Lemma build_view_ok data order token : collection_ok data -> order_ok order (contents data) -> known (contents data) ->
  match buildReactiveViewState priority q limits (Some data) order token with
  | Ok s => view_ok order (contents data) s /\ vs_token s = token
  | Err e => e = ErrQueryBudget \/ e = ErrResourceLimit
  end.
Proof using Hexpr Hdirections Hexact Hsized Hlimits.
  intros Hdata Hok Hk. unfold buildReactiveViewState.
  assert (Hids : forall id d, id ∈ cd_order data -> field (cd_documents data) id = Some d -> U d /\ is_Some (co_positions order !! id)).
  { intros id d Hid Hd. assert (Hm : (id, d) ∈ contents data) by (apply elem_of_documents; done). split.
    - unfold known in Hk. rewrite Forall_forall in Hk. apply (Hk _ Hm).
    - apply (po_known _ _ _ Hok). by apply (list_elem_of_fmap_2 fst) in Hm. }
  pose proof (view_entries_spec (cd_documents data) (co_positions order) (cd_order data) 0 0 (newPredicateBudget q limits)
    steps_fresh ltac:(lia) ltac:(lia) Hids) as He.
  destruct (view_entries _ _ _ _ _ _ _ _) as [[[entries count] size]|e]; cbn [rbind]; [|done].
  destruct He as (-> & -> & ->). fold (contents data).
  pose proof (build_valid priority q (view_members q (co_positions order) (contents data))
    (view_ids_NoDup _ _ (contents_NoDup _ Hdata)) (known_rankable _ (view_members_known _ _ Hk))) as Hv.
  destruct (buildReactiveTrees _ _ _) as [byID ordered]. split; [|done]. by split.
Qed.

(** ** A batch of changes *)

Lemma transition_view_ok order changes c order' c' token s :
  changed_by changes c c' -> NoDup c.*1 -> NoDup (changed_ids changes) -> known c -> changes_known changes ->
  order_ok order c -> co_token order < token -> order_apply token changes order = (true, order') ->
  view_ok order c s -> vs_token s < token ->
  match transitionReactiveViewState priority q limits s order' token changes with
  | Ok (Some s') => view_ok order' c' s' /\ vs_token s' = token
  | Ok None => False
  | Err e => e = ErrQueryBudget \/ e = ErrResourceLimit
  end.
Proof using Hexpr Hdirections Hexact Hsized Hlimits.
  intros Hrun Hnd Hids Hk Hck Hok Htok Happly [H1 H2 H3 H4] Hst. unfold order_apply in Happly.
  destruct (Z.leb_spec token (co_token order)); [lia|].
  destruct (order_changes changes (co_next order) (co_positions order)) as [done' [next positions]] eqn:E. injection Happly as -> <-.
  unfold transitionReactiveViewState. destruct (Z.leb_spec token (vs_token s)); [lia|].
  set (w := mk_transition _ _ _ _ _ _).
  assert (Hw : holds_members (view_members q (co_positions order) c) w).
  { split; [by apply view_ids_NoDup|by apply view_members_known|done|done|done|apply steps_fresh]. }
  pose proof (view_run (mk_corder token next positions) changes c c' (co_next order) (co_positions order) next w Hrun Hnd Hok Hids E Hk Hck Hw) as Hs.
  destruct (transition_changes _ _ _ _ _ w) as [[w'|]|e]; cbn [rbind]; [|done..]. destruct Hs as [[G1 G2 G3 G4 G5 G6] Hm].
  split; [|done]. split; cbn [vs_byID vs_ordered vs_memberCount vs_memberBytes vs_snapshot vs_token]; [done..|].
  destruct (tr_mutated w') eqn:Em; [done|]. destruct (Hm eq_refl) as (_ & _ & ->). by rewrite H4.
Qed.
End Tracking.

(** ** What the database publishes *)

Lemma without_cons_split m sel c1 c2 : NoDup (c1 ++ m :: c2).*1 -> (m.1 ∉ sel) ->
  without (m.1 :: sel) (c1 ++ m :: c2) = without sel (c1 ++ c2).
Proof.
  intros Hnd _. unfold without. rewrite !List.filter_app. cbn [List.filter existsb]. rewrite (proj2 (beqb_eq _ _) eq_refl). cbn [orb negb].
  rewrite fmap_app in Hnd. cbn in Hnd. apply NoDup_app in Hnd as (_ & Hd & [Hn _]%NoDup_cons).
  assert (Hsame : forall c : members, (m.1 ∉ c.*1) -> List.filter (fun x => negb (existsb (beqb x.1) (m.1 :: sel))) c = List.filter (fun x => negb (existsb (beqb x.1) sel)) c).
  { intros c Hc. apply List.filter_ext_in. intros x Hx%list_elem_of_In. cbn [existsb]. destruct (beqb x.1 m.1) eqn:E; [|done].
    apply beqb_eq in E. exfalso. apply Hc. rewrite <- E. by apply list_elem_of_fmap_2. }
  cbn [existsb] in Hsame. rewrite !Hsame; [done|done|]. intros Hi. apply (Hd _ Hi). by left.
Qed.

Lemma deletes_run name sel c : NoDup c.*1 -> NoDup sel.*1 -> (forall m, m ∈ sel -> m ∈ c) ->
  changed_by (delete_change name <$> sel) c (without sel.*1 c).
Proof.
  revert c. induction sel as [|m sel IH]; intros c Hnd Hs Hin.
  - cbn. unfold without. rewrite (List.forallb_filter_id _ c) by (apply List.forallb_forall; done). constructor.
  - cbn [fmap list_fmap] in Hs |- *. apply NoDup_cons in Hs as [Hm Hs].
    destruct (list_elem_of_split c m (Hin m ltac:(by left))) as (c1 & c2 & ->). rewrite without_cons_split by done.
    apply changed_more with (c1 ++ c2).
    + pose proof (changed_delete (delete_change name m) c1 c2 m.2 eq_refl eq_refl eq_refl) as H. cbn in H. by destruct m.
    + apply IH; [|done|].
      * rewrite fmap_app in Hnd |- *. cbn in Hnd. apply NoDup_app in Hnd as (H1 & H2 & [_ H3]%NoDup_cons).
        apply NoDup_app. split_and!; [done|intros i Hi Hi'; apply (H2 i Hi); by right|done].
      * intros m' Hm'. pose proof (Hin m' ltac:(by right)) as H. rewrite elem_of_app, elem_of_cons in H. rewrite elem_of_app.
        destruct H as [|[->|]]; [by left| |by right]. exfalso. apply Hm. by apply list_elem_of_fmap_2.
Qed.

Lemma inserts_run name batch c : NoDup (c ++ batch).*1 -> changed_by (insert_change name <$> batch) c (c ++ batch).
Proof.
  revert c. induction batch as [|m batch IH]; intros c Hnd; [rewrite app_nil_r; constructor|]. cbn [fmap list_fmap].
  apply changed_more with (c ++ [m]).
  - pose proof (changed_insert (insert_change name m) c m.2 eq_refl eq_refl eq_refl) as H. cbn in H. destruct m. apply H.
    rewrite fmap_app in Hnd. cbn in Hnd. apply NoDup_app in Hnd as (_ & Hd & _). intros Hi. apply (Hd _ Hi). by left.
  - rewrite (app_assoc c [m] batch : c ++ m :: batch = (c ++ [m]) ++ batch) in Hnd |- *. by apply IH.
Qed.

Lemma replace_cons change changes c1 c2 before : NoDup (c1 ++ (pu_id change, before) :: c2).*1 -> (pu_id change ∉ pu_id <$> changes) ->
  replace_members (change :: changes) (c1 ++ (pu_id change, before) :: c2) =
  replace_members changes (c1 ++ (pu_id change, pu_after change) :: c2).
Proof.
  intros Hnd Hid. unfold replace_members. cbn [after_members fmap list_fmap]. rewrite !fmap_app. cbn [fmap list_fmap fst].
  rewrite fmap_app in Hnd. cbn in Hnd. apply NoDup_app in Hnd as (_ & Hd & [Hn _]%NoDup_cons).
  assert (Hother : forall m : bytes * document, m.1 <> pu_id change ->
    field ((pu_id change, pu_after change) :: after_members changes) m.1 = field (after_members changes) m.1).
  { intros m Hm. cbn [field]. destruct (beqb (pu_id change) m.1) eqn:E; [apply beqb_eq in E; congruence|].
    destruct (beqb m.1 (pu_id change)) eqn:E2; [apply beqb_eq in E2; congruence|done]. }
  f_equal; [|f_equal].
  - apply list_fmap_ext. intros i m Hi. unfold after_members in *. rewrite Hother; [done|]. intros He. apply (Hd m.1).
    + apply list_elem_of_fmap_2. by eapply list_elem_of_lookup_2.
    + rewrite He. by left.
  - assert (Hhead : field ((pu_id change, pu_after change) :: after_members changes) (pu_id change) = Some (pu_after change)).
    { cbn [field]. by rewrite (proj2 (beqb_eq _ _) eq_refl). }
    assert (Hnone : field (after_members changes) (pu_id change) = None).
    { destruct (field (after_members changes) (pu_id change)) as [d|] eqn:E; [|done]. exfalso. apply Hid.
      apply field_Some in E. apply (list_elem_of_fmap_2 fst) in E. by rewrite after_ids in E. }
    unfold after_members in *. by rewrite Hhead, Hnone.
  - apply list_fmap_ext. intros i m Hi. unfold after_members in *. rewrite Hother; [done|]. intros He. apply Hn. rewrite <- He.
    apply list_elem_of_fmap_2. by eapply list_elem_of_lookup_2.
Qed.

Lemma updates_run name paths changes c : NoDup c.*1 -> NoDup (pu_id <$> changes) -> Forall (fun u => (pu_id u, pu_before u) ∈ c) changes ->
  changed_by (update_change name paths <$> changes) c (replace_members changes c).
Proof.
  revert c. induction changes as [|u changes IH]; intros c Hnd Hids Hin.
  - cbn. unfold replace_members. cbn. rewrite list_fmap_id. constructor.
  - cbn [fmap list_fmap] in Hids |- *. apply NoDup_cons in Hids as [Hu Hids]. apply Forall_cons in Hin as [Huc Hin].
    destruct (list_elem_of_split c _ Huc) as (c1 & c2 & ->). rewrite replace_cons by done.
    apply changed_more with (c1 ++ (pu_id u, pu_after u) :: c2).
    + apply (changed_update (update_change name paths u) c1 c2 (pu_before u) (pu_after u)); done.
    + apply IH; [by rewrite fmap_app in *|done|]. rewrite Forall_forall in Hin |- *. intros v Hv. specialize (Hin v Hv).
      rewrite elem_of_app, elem_of_cons in Hin |- *. destruct Hin as [|[[= He _]|]]; [by left| |by right; right].
      exfalso. apply Hu. rewrite <- He. by apply list_elem_of_fmap_2.
Qed.

Lemma changed_ids_of {B} (f : B -> Change) (g : B -> bytes) l :
  (forall b, index_change (f b) = false /\ ch_DocumentID (f b) = g b) -> changed_ids (f <$> l) = g <$> l.
Proof.
  intros H. induction l as [|b l IH]; [done|]. cbn [fmap list_fmap changed_ids flat_map]. destruct (H b) as [-> ->].
  cbn [app]. f_equal. exact IH.
Qed.

(** The changes of a commit lead from the old documents to the new ones, at most
    one to a document. *)
Lemma commits_run name docs docs' published : NoDup docs.*1 -> NoDup docs'.*1 -> commits name docs docs' published ->
  (published = [] /\ docs' = docs) \/
  exists changes, published = [changes] /\ changed_by changes docs docs' /\ NoDup (changed_ids changes) /\
    Forall (fun change => forall d, ch_After change = Some d -> exists id, (id, d) ∈ docs') changes.
Proof.
  intros Hnd Hnd' Hc. destruct Hc as [batch|sel Hs Hin|changes paths Hids Hin|]; [right|right|right|by left].
  - eexists. split; [reflexivity|]. split; [by apply inserts_run|]. split.
    + rewrite (changed_ids_of _ fst) by done.
      rewrite fmap_app in Hnd'. by apply NoDup_app in Hnd' as (_ & _ & H).
    + apply Forall_fmap, Forall_forall. intros m Hm d [= <-]. exists m.1. apply elem_of_app. right. by destruct m.
  - eexists. split; [reflexivity|]. split; [by apply deletes_run|]. split.
    + by rewrite (changed_ids_of _ fst).
    + by apply Forall_fmap, Forall_forall.
  - eexists. split; [reflexivity|]. split; [by apply updates_run|]. split.
    + by rewrite (changed_ids_of _ pu_id).
    + apply Forall_fmap, Forall_forall. intros u Hu d [= <-]. exists (pu_id u). unfold replace_members.
      rewrite Forall_forall in Hin. apply list_elem_of_fmap. exists (pu_id u, pu_before u). split; [|by apply Hin]. cbn [fst].
      rewrite (field_NoDup (after_members changes) (pu_id u) (pu_after u)); [done| |].
      * by rewrite after_ids.
      * unfold after_members. by apply (list_elem_of_fmap_2 (fun c => (pu_id c, pu_after c))).
Qed.

(** ** Views follow the database *)

(** A query a view can keep, over documents [U]: valid ones of a known size,
    whose sort values compare exactly, and limits of machine width. *)
Record view_setting (q : QuerySpec) (limits : ResourceLimits) (U : document -> Prop) : Prop := {
  vw_filter : expr_ok (q_where q) = true;
  vw_paging : paging_ok q;
  vw_directions : Forall (fun f => sf_direction f = 1 \/ sf_direction f = -1) (q_sort q);
  vw_exact : forall d d' f v v', U d -> U d' -> f ∈ q_sort q ->
    lookupInternal d (sf_path f) = Some v -> lookupInternal d' (sf_path f) = Some v' -> sort_exact v v';
  vw_sized : forall d, U d -> sized d;
  vw_valid : forall d, U d -> Validate d = true;
  vw_limits : MaxReactiveViewDocuments limits < 2 ^ 64 /\ MaxReactiveViewBytes limits < 2 ^ 64 /\ 0 <= MaxQueryPredicateSteps limits }.

Lemma page_sublist {A} q (l : list A) : sublist (page q l) l.
Proof.
  unfold page. destruct (q_limit q); [|apply sublist_drop]. transitivity (drop (Z.to_nat (q_skip q)) l); [apply sublist_take|apply sublist_drop].
Qed.

Section Follow.
Context (priority : bytes -> Z) (q : QuerySpec) (limits : ResourceLimits) (U : document -> Prop).
Hypothesis Hset : view_setting q limits U.

Definition identified_members (c : members) : Prop := Forall (fun m => Document_ID m.2 = Some m.1 /\ zlen m.1 = 16 /\ all_zero m.1 = false) c.

(** The documents of a snapshot are apart and valid. *)
Lemma view_documents order c s : view_ok priority q order c s -> NoDup c.*1 -> identified_members c -> Forall (fun m => U m.2) c ->
  zlen c < 2 ^ 64 -> distinct_ids (qs_documents (vs_snapshot s)) /\ Forall (fun d => Validate d = true) (qs_documents (vs_snapshot s)).
Proof using Hset.
  intros [[_ [_ Hcount _ Hperm]] _ _ Hsnap] Hnd Hids HU Hlen. cbn [snd] in *. rewrite Hsnap. cbn [qs_documents].
  set (ms := view_members q (co_positions order) c) in *.
  assert (Hzms : zlen (elements (vs_ordered s)) = zlen ms) by (unfold zlen; by rewrite Hperm).
  assert (Hz : zlen ms <= zlen c).
  { unfold zlen, ms, view_members. rewrite length_fmap. unfold matches. apply inj_le. apply List.filter_length_le. }
  rewrite materialize_spec; [|done|apply (vw_paging _ _ _ Hset)|lia].
  pose proof (page_sublist q (elements (vs_ordered s))) as Hsub.
  assert (Hin : Forall (fun e => Document_ID (member_document e) = Some (te_id e) /\ all_zero (te_id e) = false /\ U (member_document e)) (page q (elements (vs_ordered s)))).
  { apply Forall_forall. intros e He. apply (elem_of_sublist _ _ _ He) in Hsub. rewrite Hperm in Hsub. unfold ms, view_members in Hsub.
    apply list_elem_of_fmap in Hsub as (m & -> & Hm%matches_in). unfold identified_members in Hids. rewrite Forall_forall in Hids, HU.
    destruct (Hids m Hm) as (H1 & _ & H2). split_and!; [done|done|by apply HU]. }
  split; [split|].
  - apply Forall_fmap. eapply Forall_impl; [exact Hin|]. intros e (H1 & H2 & _). by exists (te_id e).
  - assert (id_of <$> (member_document <$> page q (elements (vs_ordered s))) = ids (page q (elements (vs_ordered s)))) as ->.
    { rewrite <- list_fmap_compose. apply list_fmap_ext. intros i e He. cbn. rewrite Forall_forall in Hin.
      destruct (Hin e) as (H1 & _); [by eapply list_elem_of_lookup_2|]. unfold id_of. by rewrite H1. }
    apply (sublist_NoDup _ (ids (elements (vs_ordered s)))); [rewrite (ids_perm _ _ Hperm); by apply view_ids_NoDup|].
    unfold ids. by apply fmap_sublist.
  - apply Forall_fmap. eapply Forall_impl; [exact Hin|]. intros e (_ & _ & H). by apply (vw_valid _ _ _ Hset).
Qed.

Lemma unchanged_slices l l' : Forall2 unchanged l l' -> documentSlicesEqual l l' = true.
Proof using.
  intros H. unfold documentSlicesEqual. assert (zlen l = zlen l') as -> by (unfold zlen; by rewrite (Forall2_length _ _ _ H)).
  rewrite Z.eqb_refl. cbn [negb]. induction H as [|d d' l l' [_ Hd] _ IH]; [done|]. cbn. by rewrite Hd.
Qed.

(** What [applyViewBatch] must do: give the view of the new documents - the one a
    rebuild would give, showing what the query returns - and, where the documents
    changed, a delta that leads subscribers there. *)
Definition follows (s : reactiveViewState) (order' : reactiveCollectionOrder) (c' : members) (token : Z)
    (r : result (option (reactiveViewState * option (QuerySnapshot * sharedQueryDelta)))) : Prop :=
  match r with
  | Ok (Some (s', delivered)) =>
      view_ok priority q order' c' s' /\ vs_token s' = token /\
      Execute q c'.*2 = Ok (qs_documents (vs_snapshot s')) /\
      (forall data rebuilt, collection_ok data -> contents data = c' ->
         buildReactiveViewState priority q limits (Some data) order' token = Ok rebuilt -> rebuilt = s') /\
      match delivered with
      | None => documentSlicesEqual (qs_documents (vs_snapshot s)) (qs_documents (vs_snapshot s')) = true
      | Some (snapshot, delta) => snapshot = vs_snapshot s' /\ exists documents,
          ApplyQueryDelta (vs_snapshot s) (cloneSharedQueryDelta delta (vs_token s)) = Ok (mk_qsnapshot token documents) /\
          Forall2 (fun d n => id_of d = id_of n /\ (d = n \/ d ∈ qs_documents (vs_snapshot s) /\ Document_Equal d n = true))
            documents (qs_documents snapshot)
      end
  | Ok None => False
  | Err e => e = ErrQueryBudget \/ e = ErrResourceLimit
  end.

Lemma view_batch order changes c order' c' token s :
  changed_by changes c c' -> NoDup c.*1 -> NoDup c'.*1 -> NoDup (changed_ids changes) ->
  Forall (fun m => U m.2) c -> Forall (fun m => U m.2) c' -> changes_known U changes ->
  identified_members c -> identified_members c' -> zlen c < 2 ^ 64 -> zlen c' + default 0 (q_limit q) <= maxInt ->
  order_ok order c -> co_token order < token -> order_apply token changes order = (true, order') ->
  view_ok priority q order c s -> vs_token s < token ->
  order_ok order' c' /\ follows s order' c' token (applyViewBatch priority q limits s order' token changes).
Proof using Hset.
  intros Hrun Hnd Hnd' Hids HU HU' Hck Hid Hid' Hlen Hlen' Hok Htok Happly Hview Hst. pose proof Hset as [H1 H2 H3 H4 H5 H6 H7].
  assert (Hok' : order_ok order' c').
  { unfold order_apply in Happly. destruct (Z.leb_spec token (co_token order)); [lia|].
    destruct (order_changes changes (co_next order) (co_positions order)) as [done' [next positions]] eqn:E. injection Happly as -> <-.
    by apply (positions_run changes c c' (co_next order) (co_positions order)). }
  split; [done|]. unfold applyViewBatch.
  pose proof (transition_view_ok priority q limits U H1 H3 H4 H5 H7 order changes c order' c' token s Hrun Hnd Hids HU Hck Hok Htok Happly Hview Hst) as Ht.
  destruct (transitionReactiveViewState _ _ _ _ _ _ _) as [[s'|]|e]; cbn [rbind]; [|done..]. destruct Ht as [Hview' Htoken].
  destruct (Z.leb_spec token (vs_token s)); [lia|].
  assert (Hlimit : 0 <= default 0 (q_limit q)).
  { destruct H2 as [_ Hlim]. destruct (q_limit q) as [limit|]; [by apply (Hlim limit)|done]. }
  pose proof (view_shows priority q U H1 H2 H3 H4 H5 order' c' s' Hview' Hok' Hnd' HU' Hlen') as Hshow.
  assert (Hrebuild : forall data rebuilt, collection_ok data -> contents data = c' ->
    buildReactiveViewState priority q limits (Some data) order' token = Ok rebuilt -> rebuilt = s').
  { intros data rebuilt Hdata Hc Hb. subst c'.
    pose proof (build_view_ok priority q limits U H1 H3 H4 H5 H7 data order' token Hdata Hok' HU') as Hv. rewrite Hb in Hv.
    destruct Hv as [Hv Hvt]. apply (view_ok_unique priority q order' (contents data)); [done..|congruence]. }
  destruct (documentSlicesEqual _ _) eqn:Esame; cbn [follows]; [by split_and!|].
  destruct (view_documents order c s Hview Hnd Hid HU Hlen) as [Hd _].
  destruct (view_documents order' c' s' Hview' Hnd' Hid' HU') as [Hd' Hv']; [unfold maxInt in *; lia|].
  destruct (delta_between _ _ _ _ Hd Hd' Hv' Hst) as (ops & -> & Hempty & Hdelta). cbn [rbind follows]. split_and!; [done..|].
  destruct Hdelta as (documents & Happly' & Hall).
  { intros ->. rewrite (unchanged_slices _ _ (proj1 Hempty eq_refl)) in Esame. done. }
  exists documents. split; [|done]. pose proof (vo_snapshot _ _ _ _ _ Hview) as Hsnap. by rewrite Hsnap in Happly' |- *.
Qed.

Lemma order_changes_full changes c c' next positions : changed_by changes c c' -> NoDup c.*1 -> positions_ok next positions c ->
  (order_changes changes next positions).1 = false -> (order_changes changes next positions).2.1 = 2 ^ 64 - 1.
Proof using.
  intros Hrun. revert next positions. induction Hrun as [c|change changes c1 c2 c3 Hch Hrun IH]; intros next positions Hnd Hpos; cbn [order_changes]; [done|].
  pose proof (order_change_spec change c1 c2 next positions Hch Hnd Hpos) as Hspec.
  destruct (order_change change next positions) as [[n p]|]; [|by cbn]. destruct Hspec as [Hpos' _].
  apply IH; [by eapply changed_NoDup|done].
Qed.

Lemma apply_full order changes c c' token : changed_by changes c c' -> NoDup c.*1 -> order_ok order c ->
  match order_apply token changes order with
  | (true, _) => True
  | (false, order') => co_next order' = 2 ^ 64 - 1
  end.
Proof using.
  intros Hrun Hnd Hok. pose proof (order_changes_full changes c c' (co_next order) (co_positions order) Hrun Hnd Hok) as Hf.
  unfold order_apply. destruct (token <=? co_token order); [done|].
  destruct (order_changes _ _ _) as [[] [next positions]]; [done|]. by apply Hf.
Qed.
End Follow.

(** C40: A reactive view follows its collection. Take a view that shows its query
    over the documents of a collection, and any call that changes the database.
    Either the documents of the collection are as before, or the call publishes
    one batch of changes under the next token, and applying it - to the table of
    positions, then to the view - keeps the table in the order of the documents
    and gives the view a rebuild from the new documents would give, showing
    exactly what the query returns on them; subscribers get a delta that leads
    from the old result to the new one, or nothing when the results are equal. A
    rebuild is never asked for, unless the positions are used up; the view fails
    only for the budget of its query or the limits of a view. *)
Theorem reactive_views_follow_database priority q U db db' name order s :
  db_ok db -> db_token db < 2 ^ 64 - 1 -> open_db db = Ok tt -> memory_step db db' ->
  view_setting q (db_limits db) U ->
  Forall (fun m => U m.2) (members_of db name) -> Forall (fun m => U m.2) (members_of db' name) ->
  zlen (members_of db name) < 2 ^ 64 -> zlen (members_of db' name) + default 0 (q_limit q) <= maxInt ->
  order_ok order (members_of db name) -> co_token order <= db_token db ->
  view_ok priority q order (members_of db name) s -> vs_token s <= db_token db ->
  members_of db' name = members_of db name \/
  exists changes, db_published db' = db_published db ++ [(db_token db', changes)] /\
    match order_apply (db_token db') changes order with
    | (true, order') => order_ok order' (members_of db' name) /\
        follows priority q (db_limits db) s order' (members_of db' name) (db_token db')
          (applyViewBatch priority q (db_limits db) s order' (db_token db') changes)
    | (false, order') => co_next order' = 2 ^ 64 - 1
    end.
Proof.
  intros Hok Hw Hopen Hstep Hset HU HU' Hlen Hlen' Horder Hco Hview Hvs.
  destruct (step_effect db db' Hok Hw Hopen Hstep) as [->|(touched & docs & indexes & published & He & Hc)]; [by left|].
  pose proof (effect_members _ _ _ _ _ _ He name) as Hm. destruct (beqb name touched) eqn:En; [|by left].
  apply beqb_eq in En as <-. pose proof (members_ok db name Hok) as [Hnd Hid].
  pose proof (members_ok db' name (effect_ok _ _ _ _ _ _ He)) as [Hnd' Hid']. rewrite Hm in *.
  destruct (commits_run name _ _ _ Hnd Hnd' Hc) as [[_ ->]|(changes & -> & Hrun & Hids & Hafter)]; [by left|right].
  exists changes. split; [rewrite (effect_published _ _ _ _ _ _ He); done|].
  pose proof (effect_token _ _ _ _ _ _ He) as Ht.
  pose proof (apply_full order changes _ _ (db_token db') Hrun Hnd Horder) as Hfull.
  destruct (order_apply (db_token db') changes order) as [[] order'] eqn:Eo; [|done].
  apply (view_batch priority q (db_limits db) U Hset order changes (members_of db name)); try done; [|lia..].
  unfold changes_known. eapply Forall_impl; [exact Hafter|]. intros change Hch d Hd. destruct (Hch d Hd) as (id & Hin).
  rewrite Forall_forall in HU'. by apply (HU' (id, d)).
Qed.

(** ** Rebuilding the table of positions *)

Definition blank (ids : list bytes) : members := (fun id => (id, [])) <$> ids.
Lemma blank_ids ids : (blank ids).*1 = ids.
Proof. unfold blank. rewrite <- list_fmap_compose. apply list_fmap_id. Qed.

Lemma positions_extend next positions ids id p next' : positions_ok next positions (blank ids) -> (id ∉ ids) ->
  Forall (fun i => place_of positions i < p) ids -> 0 < p <= next' -> next <= next' < 2 ^ 64 ->
  positions_ok next' (<[id := p]> positions) (blank (ids ++ [id])).
Proof.
  intros [H1 H2 H3 H4] Hid Hp Hbound Hnext. rewrite blank_ids in *. split; rewrite ?blank_ids; [| | |lia].
  - intros i. rewrite elem_of_app, list_elem_of_singleton, <- H1.
    destruct (decide (i = id)) as [->|Hne]; [rewrite lookup_insert_eq; split; eauto|]. rewrite lookup_insert_ne by done. tauto.
  - rewrite place_of_app. cbn. apply StronglySorted_app_2.
    + intros x y Hx ->%list_elem_of_singleton. unfold place_of at 1. rewrite lookup_insert_eq. cbn.
      apply list_elem_of_fmap in Hx as (i & -> & Hi). unfold place_of. rewrite lookup_insert_ne by (intros <-; done).
      rewrite Forall_forall in Hp. by apply Hp.
    + rewrite (place_of_ext positions); [done|]. intros i Hi. apply lookup_insert_ne. by intros <-.
    + repeat constructor.
  - intros i p'. destruct (decide (i = id)) as [->|Hne]; [rewrite lookup_insert_eq; intros [= <-]; lia|].
    rewrite lookup_insert_ne by done. intros Hi%H3. lia.
Qed.

(** The documents in the order of the collection: first those the table knows, in
    the order of their positions, then new ones. *)
Lemma rebuild_loop_spec documents old l1 l2 seen next positions :
  (forall id, id ∈ l1 ++ l2 -> field documents id <> None) -> NoDup (seen ++ l1 ++ l2) ->
  positions_ok next positions (blank seen) ->
  (forall id p, old !! id = Some p -> 0 < p <= next) ->
  Forall (fun id => is_Some (old !! id)) l1 -> Forall (fun id => old !! id = None) l2 ->
  StronglySorted Z.lt ((place_of positions <$> seen) ++ (place_of old <$> l1)) ->
  match rebuild_loop documents old (l1 ++ l2) next positions with
  | Ok (next', positions') => positions_ok next' positions' (blank (seen ++ l1 ++ l2))
  | Err e => e = ErrCorrupt
  end.
Proof.
  revert seen next positions. induction l1 as [|id l1 IH]; intros seen next positions Hdocs Hnd Hpos Hold Hl1 Hl2 Hsorted.
  - cbn [app] in *. clear Hl1 Hsorted. revert seen next positions Hnd Hpos Hold.
    induction Hl2 as [|id l2 Hid Hl2 IH]; intros seen next positions Hnd Hpos Hold; cbn [rebuild_loop]; [by rewrite app_nil_r|].
    destruct (field documents id) eqn:Ed; [|by destruct (Hdocs id ltac:(by left))]. rewrite Hid.
    destruct (Z.eqb_spec next (2 ^ 64 - 1)); [done|]. pose proof (po_next _ _ _ Hpos).
    rewrite (app_assoc seen [id] l2 : seen ++ id :: l2 = _) in Hnd |- *. apply IH; [intros i Hi; apply Hdocs; by right|done| |intros i p Hi%Hold; lia].
    apply (positions_extend next); [done| | |lia..].
    + apply NoDup_app in Hnd as [Hnd _]. apply NoDup_app in Hnd as (_ & Hd & _). intros Hi. apply (Hd id Hi). by left.
    + apply Forall_forall. intros i Hi. destruct Hpos as [H1 _ H3 _]. rewrite blank_ids in H1. apply H1 in Hi as [p Hp].
      unfold place_of. rewrite Hp. cbn. apply H3 in Hp. lia.
  - apply Forall_cons in Hl1 as [[p Hp] Hl1]. cbn [app rebuild_loop].
    destruct (field documents id) eqn:Ed; [|by destruct (Hdocs id ltac:(by left))]. rewrite Hp.
    assert (Hid : id ∉ seen). { apply NoDup_app in Hnd as (_ & Hd & _). intros Hi. apply (Hd id Hi). by left. }
    assert (Hplace : place_of old id = p) by (unfold place_of; by rewrite Hp). cbn [fmap list_fmap] in Hsorted. rewrite Hplace in Hsorted.
    cbn [app] in Hnd. rewrite (app_assoc seen [id] (l1 ++ l2) : seen ++ id :: l1 ++ l2 = _) in Hnd |- *.
    apply IH; [intros i Hi; apply Hdocs; by right|done| |done|done|done|].
    + apply (positions_extend next); [done|done| |by apply (Hold id)|pose proof (po_next _ _ _ Hpos); lia].
      apply Forall_forall. intros i Hi. apply (StronglySorted_app_1_elem_of Z.lt _ _ _ _ Hsorted); [by apply list_elem_of_fmap_2|by left].
    + rewrite place_of_app. cbn [fmap list_fmap]. unfold place_of at 2. rewrite lookup_insert_eq. cbn [default from_option].
      rewrite (place_of_ext positions) by (intros i Hi; apply lookup_insert_ne; by intros <-). rewrite <- app_assoc. exact Hsorted.
Qed.

(** [rebuild] keeps the positions of the documents the table knows and gives new
    ones to the others, in the order of the collection. *)
Lemma rebuild_ok order data token l1 l2 : collection_ok data -> cd_order data = l1 ++ l2 ->
  (forall id p, co_positions order !! id = Some p -> 0 < p <= co_next order) -> 0 <= co_next order < 2 ^ 64 ->
  Forall (fun id => is_Some (co_positions order !! id)) l1 -> Forall (fun id => co_positions order !! id = None) l2 ->
  StronglySorted Z.lt (place_of (co_positions order) <$> l1) ->
  match rebuild order (Some data) token with
  | Ok order' => order_ok order' (contents data) /\ co_token order' = token
  | Err e => e = ErrCorrupt
  end.
Proof.
  intros Hdata Hids Hold Hnext Hl1 Hl2 Hsorted. unfold rebuild. rewrite Hids.
  pose proof (rebuild_loop_spec (cd_documents data) (co_positions order) l1 l2 [] (co_next order) ∅) as H. cbn [app fmap list_fmap] in H.
  assert (Hempty : positions_ok (co_next order) ∅ (blank [])).
  { split; [|constructor|by intros id p Hp; rewrite lookup_empty in Hp|done].
    intros id. rewrite lookup_empty. split; [by intros [? [=]]|by intros ?%not_elem_of_nil]. }
  specialize (H (fun id Hid => proj2 (ok_documents _ Hdata id) ltac:(by rewrite Hids)) ltac:(rewrite <- Hids; apply Hdata) Hempty Hold Hl1 Hl2 Hsorted).
  destruct (rebuild_loop _ _ _ _ _) as [[next positions]|e]; cbn [rbind]; [|done]. split; [|done].
  eapply positions_ids; [|exact H]. rewrite blank_ids, <- Hids. symmetry. by apply contents_ids.
Qed.

(** ** A view of a small program *)

Definition example_priority (id : bytes) : Z := match id with b :: _ => (b2z b * 5) mod 7 | [] => 0 end.
(** The two largest [n], from the largest. *)
Definition largest : QuerySpec := mk_query (compareExpr (bs "gte") (bs "n") (VInt 1)) [mk_sort (bs "n") (-1)] 0 (Some 2) false.

Definition example_order : reactiveCollectionOrder :=
  (order_apply 1 (insert_change people <$> members_of example_db2 people) (mk_corder 0 0 ∅)).2.
Definition example_state : reactiveViewState :=
  match field (db_collections example_db2) people with
  | Some data => match buildReactiveViewState example_priority largest (db_limits example_db2) (Some data) example_order (db_token example_db2) with
                 | Ok s => s
                 | Err _ => mk_vstate 0 0 0 Nil Nil (mk_qsnapshot 0 [])
                 end
  | None => mk_vstate 0 0 0 Nil Nil (mk_qsnapshot 0 [])
  end.
Definition example_db3 : DB :=
  match InsertMany example_db2 people [[(bs "n", VInt 3)]] [example_id x03] with Ok (db, _) => db | Err _ => example_db2 end.

Definition numbered (b : byte) (n : Z) : document := doc_set [(bs "n", VInt n)] (bs "_id") (VID (example_id b)).
Definition example_documents : list document := [numbered x01 1; numbered x02 2; numbered x03 3].
Definition in_example (d : document) : Prop := In d example_documents.

Lemma example_number d : in_example d -> exists n, lookupInternal d (bs "n") = Some (VInt n).
Proof. intros [<-|[<-|[<-|[]]]]; eexists; vm_compute; reflexivity. Qed.

Lemma example_setting : view_setting largest (db_limits example_db2) in_example.
Proof.
  split.
  - reflexivity.
  - split; [cbn; unfold maxInt; lia|]. intros limit [= <-]. unfold maxInt. lia.
  - constructor; [by right|constructor].
  - intros d d' f v v' Hd Hd' Hf. apply list_elem_of_singleton in Hf as ->.
    destruct (example_number d Hd) as [n Hn]. destruct (example_number d' Hd') as [n' Hn']. cbn [sf_path].
    rewrite Hn, Hn'. by intros [= <-] [= <-].
  - intros d [<-|[<-|[<-|[]]]]; vm_compute; reflexivity.
  - intros d [<-|[<-|[<-|[]]]]; vm_compute; reflexivity.
  - split_and!; vm_compute; done.
Qed.

Lemma example_members2 : members_of example_db2 people = [(example_id x01, numbered x01 1); (example_id x02, numbered x02 2)].
Proof. vm_compute. reflexivity. Qed.
Lemma example_members3 : members_of example_db3 people =
  [(example_id x01, numbered x01 1); (example_id x02, numbered x02 2); (example_id x03, numbered x03 3)].
Proof. vm_compute. reflexivity. Qed.

Lemma example_known2 : Forall (fun m => in_example m.2) (members_of example_db2 people).
Proof. rewrite example_members2. constructor; [by left|]. constructor; [by right; left|constructor]. Qed.
Lemma example_known3 : Forall (fun m => in_example m.2) (members_of example_db3 people).
Proof. rewrite example_members3. constructor; [by left|]. constructor; [by right; left|]. constructor; [by right; right; left|constructor]. Qed.

(** A table filled by inserting the documents. *)
Lemma fresh_order name c token : NoDup c.*1 -> 0 < token ->
  (order_apply token (insert_change name <$> c) (mk_corder 0 0 ∅)).1 = true ->
  order_ok (order_apply token (insert_change name <$> c) (mk_corder 0 0 ∅)).2 c.
Proof.
  intros Hnd Htoken. assert (Hempty : positions_ok 0 ∅ []).
  { split; [|constructor|by intros id p Hp; rewrite lookup_empty in Hp|lia].
    intros id. rewrite lookup_empty. split; [by intros [? [=]]|by intros ?%not_elem_of_nil]. }
  pose proof (inserts_run name c []) as Hrun. cbn [app] in Hrun. specialize (Hrun Hnd).
  unfold order_apply. cbn [co_token co_next co_positions]. destruct (Z.leb_spec token 0); [lia|].
  destruct (order_changes (insert_change name <$> c) 0 ∅) as [[] [next positions]] eqn:E; [intros _|done].
  by destruct (positions_run _ [] c 0 ∅ next positions Hrun ltac:(constructor) Hempty E).
Qed.

Lemma example_order_ok : order_ok example_order (members_of example_db2 people).
Proof.
  apply fresh_order; [|done|vm_compute; reflexivity]. apply (members_ok example_db2 people example_db2_ok).
Qed.

Lemma example_state_ok : view_ok example_priority largest example_order (members_of example_db2 people) example_state /\
  vs_token example_state = db_token example_db2.
Proof.
  pose proof example_order_ok as Hord. pose proof example_known2 as Hk. unfold members_of in *. unfold example_state.
  destruct (field (db_collections example_db2) people) as [data|] eqn:E; [|by vm_compute in E].
  destruct example_setting as [H1 H2 H3 H4 H5 H6 H7].
  pose proof (build_view_ok example_priority largest (db_limits example_db2) in_example H1 H3 H4 H5 H7 data example_order (db_token example_db2)
    (collection_of _ _ _ example_db2_ok E) Hord Hk) as Hb.
  destruct (buildReactiveViewState _ _ _ _ _ _) as [s|e] eqn:Es; [exact Hb|].
  exfalso. vm_compute in E. injection E as <-. vm_compute in Es. discriminate.
Qed.

Lemma example_step : memory_step example_db2 example_db3.
Proof.
  unfold example_db3. destruct (InsertMany example_db2 people [[(bs "n", VInt 3)]] [example_id x03]) as [[db ids]|e] eqn:E.
  - eapply (step_insert _ people [[(bs "n", VInt 3)]] [example_id x03]); [|by repeat constructor|exact E].
    constructor; [|constructor]. apply machine_ok_object. split; [by apply (bool_decide_unpack _); vm_compute|by repeat constructor].
  - vm_compute in E. discriminate.
Qed.

Lemma reactive_views_follow_database_witness :
  qs_documents (vs_snapshot example_state) = [numbered x02 2; numbered x01 1] /\
  (members_of example_db3 people = members_of example_db2 people \/
   exists changes, db_published example_db3 = db_published example_db2 ++ [(db_token example_db3, changes)] /\
     match order_apply (db_token example_db3) changes example_order with
     | (true, order') => order_ok order' (members_of example_db3 people) /\
         follows example_priority largest (db_limits example_db2) example_state order' (members_of example_db3 people) (db_token example_db3)
           (applyViewBatch example_priority largest (db_limits example_db2) example_state order' (db_token example_db3) changes)
     | (false, order') => co_next order' = 2 ^ 64 - 1
     end).
Proof.
  split; [vm_compute; reflexivity|].
  apply (reactive_views_follow_database example_priority largest in_example example_db2 example_db3 people example_order example_state).
  - exact example_db2_ok.
  - apply example_open.
  - apply example_open.
  - exact example_step.
  - exact example_setting.
  - exact example_known2.
  - exact example_known3.
  - rewrite example_members2. vm_compute. reflexivity.
  - rewrite example_members3. vm_compute. discriminate.
  - exact example_order_ok.
  - vm_compute. discriminate.
  - apply example_state_ok.
  - rewrite (proj2 example_state_ok). apply Z.le_refl.
Defined.

(** The view after the insertion, and what a subscriber is sent. *)
Example example_follows :
  match applyViewBatch example_priority largest (db_limits example_db2) example_state
          (order_apply 3 (insert_change people <$> [(example_id x03, numbered x03 3)]) example_order).2 3
          (insert_change people <$> [(example_id x03, numbered x03 3)]) with
  | Ok (Some (s', Some (snapshot, delta))) =>
      qs_documents snapshot = [numbered x03 3; numbered x02 2] /\
      op_kind <$> sd_operations delta = [QueryDeltaRemove; QueryDeltaAdd]
  | _ => False
  end.
Proof. vm_compute. split; reflexivity. Qed.
