(* ===== verification/StoredValues.v ===== *)
(** * Values stored inline or across overflow pages

    [storeOverflowValue] and [loadOverflowValue] of [internal/storage/system.go],
    and their copies for documents ([document_codec.go]) and commit records
    ([commitlog.go]). A short value is its own descriptor; a long one is cut into
    pages linked in order, and the descriptor names the first and holds the
    length and the SHA-256 of the whole. *)
From stdpp Require Import gmap.
From S2P Require Import Prelude Bytes Layout Hashes PageFormat Entries NodeCodec CowTree.
From S2P Require Import TreeShape TreeInvariant TreeRep TreeDelete Flush FileStore Recovery Commit Transactions.
#[local] Open Scope Z_scope.
#[local] Abbreviation put := Bytes.put.

(** ** Storing *)

Definition overflowHeader : Z := 16.
Definition chunkBytes : Z := PageSize - PageHeaderSize - overflowHeader.

Definition chunkPayload (value : bytes) (index chunks : Z) : bytes :=
  let start := index * chunkBytes in
  let end_ := start + chunkBytes in
  let end_ := if zlen value <? end_ then zlen value else end_ in
  let payload := zeros (overflowHeader + end_ - start) in
  let payload := put payload 0 (le_enc 8 (zlen value)) in
  let payload := put payload 8 (le_enc 4 index) in
  let payload := put payload 12 (le_enc 4 chunks) in
  put payload 16 (sub value start end_).

(** The link of a page: the page after it, or zero for the last. *)
Definition nextLink (pageIDs : list Z) : Z := match pageIDs with next :: _ => next | [] => 0 end.

(** The loop over the [chunks] pages, from [index] on. *)
Fixpoint storeChunks (tx : WriteTxn) (pageType : Z) (value : bytes) (chunks index : Z) (pageIDs : list Z) : result WriteTxn :=
  match pageIDs with
  | [] => Ok tx
  | id :: pageIDs =>
      let* tx := appendPageAt tx id pageType 0 1 (nextLink pageIDs) (chunkPayload value index chunks) in
      storeChunks tx pageType value chunks (index + 1) pageIDs
  end.

Definition linkedDescriptor (value : bytes) (firstPage : Z) : bytes :=
  let descriptor := zeros 49 in
  let descriptor := put descriptor 0 [z2b 1] in
  let descriptor := put descriptor 1 (le_enc 8 (zlen value)) in
  let descriptor := put descriptor 9 (le_enc 8 firstPage) in
  put descriptor 17 (Sha256.sum value).

Definition storeLinked (tx : WriteTxn) (value : bytes) (pageType : Z) : result (bytes * WriteTxn) :=
  let chunks := (zlen value + chunkBytes - 1) / chunkBytes in
  let* (pageIDs, tx) := allocatePageIDs tx (Z.to_nat chunks) in
  match pageIDs with
  | [] => Err ErrPanic
  | firstPage :: _ =>
      let* tx := storeChunks tx pageType value chunks 0 pageIDs in
      Ok (linkedDescriptor value firstPage, tx)
  end.

Definition storeOverflowValue (tx : WriteTxn) (value : bytes) (inlineLimit maximum pageType : Z) : result (bytes * WriteTxn) :=
  if (zlen value =? 0) || (maximum <? zlen value) then Err ErrCorrupt
  else if zlen value + 1 <=? inlineLimit then Ok (x00 :: value, tx)
  else storeLinked tx value pageType.

Definition inlineDocumentLimit : Z := 8 * 1024.
Definition maxDocumentBytes : Z := 64 * 1024 * 1024.
Definition inlineSystemValueLimit : Z := 8 * 1024.
Definition maxSystemValueBytes : Z := 16 * 1024 * 1024 + 64 * 1024.
Definition inlineCommitValueLimit : Z := 8 * 1024.
Definition maxCommitValueBytes : Z := 64 * 1024 * 1024.

Definition storeDocumentValue (tx : WriteTxn) (value : bytes) : result (bytes * WriteTxn) :=
  if (zlen value =? 0) || (maxDocumentBytes <? zlen value) then Err ErrCorrupt
  else if zlen value + 1 <=? inlineDocumentLimit then Ok (x00 :: value, tx)
  else storeLinked tx value PageDocumentOverflow.

Definition storeSystemValue (tx : WriteTxn) (value : bytes) : result (bytes * WriteTxn) :=
  storeOverflowValue tx value inlineSystemValueLimit maxSystemValueBytes PageSystemOverflow.

(** An empty commit value is allowed. *)
Definition storeCommitValue (tx : WriteTxn) (value : bytes) : result (bytes * WriteTxn) :=
  if maxCommitValueBytes <? zlen value then Err ErrCorrupt
  else if zlen value + 1 <=? inlineCommitValueLimit then Ok (x00 :: value, tx)
  else storeLinked tx value PageCommitOverflow.

(** ** Loading *)

Definition list_mem (id : Z) (l : list Z) : bool := existsb (Z.eqb id) l.

Fixpoint loadChunks (fuel : nat) (tx : WriteTxn) (pageType total : Z) (seen : list Z)
    (pageID index expectedChunks : Z) (loaded : bytes) : result bytes :=
  match fuel with
  | O => Err ErrFuel
  | S fuel =>
      if negb (zlen loaded <? total) then Ok loaded
      else if list_mem pageID seen then Err ErrCorrupt
      else
        let* raw := tx_readPage tx pageID in
        match DecodePage raw pageID with
        | Err _ => Err ErrCorrupt
        | Ok page =>
            let payload := page_Payload page in
            if negb (page_Type page =? pageType) || negb (page_Flags page =? 0) || negb (page_ItemCount page =? 1)
               || (zlen payload <? 16) || negb (le_dec (sub payload 0 8) =? total)
               || negb (le_dec (sub payload 8 12) =? index) then Err ErrCorrupt
            else
              let chunks := le_dec (sub payload 12 16) in
              if (chunks =? 0) || ((0 <? index) && negb (chunks =? expectedChunks)) || (chunks <=? index)
                 || (total <? zlen loaded + zlen payload - 16) then Err ErrCorrupt
              else
                let loaded := loaded ++ sub payload 16 (zlen payload) in
                if index + 1 =? chunks then
                  if negb (page_Link page =? 0) || negb (zlen loaded =? total) then Err ErrCorrupt else Ok loaded
                else if page_Link page <? 2 then Err ErrCorrupt
                else loadChunks fuel tx pageType total (pageID :: seen) (page_Link page) (index + 1) chunks loaded
        end
  end.

(** No page is read twice, so the number of pages bounds the loop. *)
Definition loadLinked (tx : WriteTxn) (stored : bytes) (inlineLimit maximum pageType : Z) : result bytes :=
  let total := le_dec (sub stored 1 9) in
  let pageID := le_dec (sub stored 9 17) in
  if (total <? inlineLimit) || (maximum <? total) || (pageID <? 2) then Err ErrCorrupt
  else
    let* loaded := loadChunks (S (Z.to_nat (tx_nextPage tx))) tx pageType total [] pageID 0 0 [] in
    if negb (beqb (sub stored 17 49) (Sha256.sum loaded)) then Err ErrCorrupt else Ok loaded.

(** The three loaders differ in the limits, the page type and whether an inline
    value may be empty. *)
Definition loadStored (emptyInline : bool) (tx : WriteTxn) (stored : bytes) (inlineLimit maximum pageType : Z) : result bytes :=
  match stored with
  | [] => Err ErrCorrupt
  | tag :: rest =>
      if b2z tag =? 0 then if negb emptyInline && (zlen rest =? 0) then Err ErrCorrupt else Ok rest
      else if negb (b2z tag =? 1) || negb (zlen stored =? 49) then Err ErrCorrupt
      else loadLinked tx stored inlineLimit maximum pageType
  end.

Definition loadOverflowValue (tx : WriteTxn) (stored : bytes) (inlineLimit maximum pageType : Z) : result bytes :=
  loadStored false tx stored inlineLimit maximum pageType.
Definition loadSystemValue (tx : WriteTxn) (stored : bytes) : result bytes :=
  loadOverflowValue tx stored inlineSystemValueLimit maxSystemValueBytes PageSystemOverflow.
Definition loadDocumentValue (tx : WriteTxn) (stored : bytes) : result bytes :=
  loadStored false tx stored inlineDocumentLimit maxDocumentBytes PageDocumentOverflow.
Definition loadCommitValue (tx : WriteTxn) (stored : bytes) : result bytes :=
  loadStored true tx stored inlineCommitValueLimit maxCommitValueBytes PageCommitOverflow.

(** ** What a descriptor stands for *)

Definition chunk_count (value : bytes) : Z := (zlen value + chunkBytes - 1) / chunkBytes.

(** The pages [ids] hold the chunks of [value] from [index] on. *)
Fixpoint chained (tx : WriteTxn) (t : Z) (value : bytes) (index : Z) (ids : list Z) : Prop :=
  match ids with
  | [] => True
  | id :: rest =>
      txn_available tx id /\
      (exists raw page, tx_readPage tx id = Ok raw /\ DecodePage raw id = Ok page /\ page_Type page = t /\
         page_Flags page = 0 /\ page_ItemCount page = 1 /\ page_Link page = nextLink rest /\
         page_Payload page = chunkPayload value index (chunk_count value)) /\
      chained tx t value (index + 1) rest
  end.

Definition holds_value (tx : WriteTxn) (t : Z) (descriptor value : bytes) : Prop :=
  descriptor = x00 :: value \/
  exists ids, NoDup ids /\ zlen ids = chunk_count value /\ chained tx t value 0 ids /\
    Forall (fun id => 2 <= id < tx_nextPage tx) ids /\
    descriptor = linkedDescriptor value (nextLink ids).

Lemma chained_extends tx tx' t value index ids :
  extends tx tx' -> chained tx t value index ids -> chained tx' t value index ids.
Proof.
  intros He. revert index; induction ids as [|id ids IH]; intros index; cbn [chained]; [done|].
  intros (Hav & (raw & page & Hr & Hp) & Hc). destruct (He id Hav) as [Hav' Hr']. split; [done|].
  split; [|by apply IH]. exists raw, page. split; [|done]. cbn in Hr'. by rewrite Hr'.
Qed.

Lemma holds_value_extends tx tx' t descriptor value :
  extends tx tx' -> tx_nextPage tx <= tx_nextPage tx' -> holds_value tx t descriptor value -> holds_value tx' t descriptor value.
Proof.
  intros He Hn [?|(ids & Hnd & Hl & Hc & Hr & Hd)]; [by left|right]. exists ids.
  split; [done|]. split; [done|]. split; [by eapply chained_extends|]. split; [|done].
  eapply Forall_impl; [exact Hr|]. cbn. lia.
Qed.

(** ** Allocating several pages *)

Lemma written_permutation limbo limbo' tx : limbo ≡ₚ limbo' -> written limbo tx -> written limbo' tx.
Proof.
  intros Hp [Hok Hpg Hnd Hby Hl Hc Hu]. constructor; try done.
  - by rewrite <- Hp.
  - intros id Hid. destruct (Hc id Hid); [left; by rewrite <- Hp|by right].
Qed.

Lemma allocate_extends tx id tx' : txn_ok tx -> allocatePageID tx = Ok (id, tx') -> extends tx tx'.
Proof. intros Hok Ha. apply allocatePageID_ok in Ha as (_ & _ & _ & _ & _ & _ & ->); [|done]. intros p Hp. by split. Qed.

Lemma allocatePageIDs_written n limbo tx ids tx' :
  written limbo tx -> NoDup limbo -> allocatePageIDs tx n = Ok (ids, tx') ->
  written (ids ++ limbo) tx' /\ NoDup (ids ++ limbo) /\ length ids = n /\ same_txn tx tx' /\ tx_pages tx' = tx_pages tx /\
  tx_requiredFeatures tx' = tx_requiredFeatures tx /\ extends tx tx' /\ Forall (fun id => 2 <= id < tx_nextPage tx') ids.
Proof.
  revert limbo tx ids; induction n as [|n IH]; intros limbo tx ids Hw Hnd; cbn [allocatePageIDs].
  { intros [= <- <-]. done. }
  intros Ha. inv_ok. destruct a as [id tx1]. inv_ok. destruct a as [rest tx2]. injection Ha as <- <-.
  pose proof (allocate_extends _ _ _ (w_ok _ _ Hw) Hok) as He.
  apply (allocate_written limbo) in Hok as (Hw1 & Hs1 & Hp1 & Hn1 & Hf1); [|done].
  apply (IH (id :: limbo)) in Hok0 as (Hw2 & Hnd2 & Hl & Hs2 & Hp2 & Hf2 & He2 & Hr); [|done|by constructor].
  assert (Hperm : rest ++ id :: limbo ≡ₚ (id :: rest) ++ limbo) by (cbn; symmetry; apply Permutation_middle).
  split; [by eapply written_permutation|]. split; [by rewrite <- Hperm|]. split; [cbn; lia|].
  split; [by etransitivity|]. split; [congruence|]. split; [congruence|]. split; [by etransitivity|].
  constructor; [|done]. pose proof (w_limbo _ _ Hw1) as Hl1. apply Forall_cons in Hl1 as [[Hid _] _].
  apply (writable_range _ _ (w_ok _ _ Hw1)) in Hid. pose proof (same_next _ _ Hs2). lia.
Qed.

Lemma allocatePageIDs_error n limbo tx e : written limbo tx -> NoDup limbo -> allocatePageIDs tx n = Err e -> e = ErrStorageLimit.
Proof.
  revert limbo tx; induction n as [|n IH]; intros limbo tx Hw Hnd; cbn [allocatePageIDs]; [done|].
  destruct (allocatePageID tx) as [[id tx1]|e1] eqn:Ea; cbn [rbind].
  2: { intros [= <-]. eapply allocatePageID_error; [apply Hw|done]. }
  apply (allocate_written limbo) in Ea as (Hw1 & _ & _ & Hn1 & _); [|done].
  destruct (allocatePageIDs tx1 n) as [[ids tx2]|e1] eqn:Er; cbn [rbind]; [done|]. intros [= <-].
  apply (IH (id :: limbo)) in Er; [done|done|by constructor].
Qed.

(** ** Staging a page at an allocated number *)

Lemma appendPageAt_written limbo tx t flags n link payload id :
  written (id :: limbo) tx -> ~ id ∈ limbo -> known_page_type t = true -> 0 <= flags < 256 -> u32 n -> u64 link ->
  zlen payload <= capacity ->
  exists tx', appendPageAt tx id t flags n link payload = Ok tx' /\ written limbo tx' /\ same_txn tx tx' /\
    tx_requiredFeatures tx' = tx_requiredFeatures tx /\ extends tx tx' /\ txn_available tx' id /\
    tx_nextPage tx' = tx_nextPage tx /\
    exists raw, tx_readPage tx' id = Ok raw /\
      DecodePage raw id = Ok (mk_Page t flags id (tx_generation tx) (tx_sequence tx) n link payload).
Proof.
  intros Hw Hnl Ht Hfl Hn Hli Hlen. pose proof (w_ok _ _ Hw) as Hok. pose proof (w_limbo _ _ Hw) as Hl.
  apply Forall_cons in Hl as [(Hwr & Hnp & Hnf) _]. pose proof (writable_range _ _ Hok Hwr) as Hid.
  set (p := mk_Page t flags id (tx_generation tx) (tx_sequence tx) n link payload).
  assert (Hv : validPage p = true). { apply validPage_spec. destruct Hok. cbn. split; [done|]. split; [lia|]. split; [lia|done]. }
  unfold appendPageAt. destruct (Z.ltb_spec id 2); [lia|].
  set (page := Bytes.put (pageFields p) 56 (le_enc 4 (pageChecksum (pageFields p)))).
  assert (He : EncodePage p = Ok page) by by apply EncodePage_valid.
  fold p. rewrite He. cbn [rbind]. eexists. split; [done|].
  assert (Hp : page_ok p).
  { unfold known_page_type, PageDatabaseRoot, PageIndexBuildCatalogLeaf in Ht. breflect.
    destruct Hok. unfold page_ok, u64, u32 in *. cbn. lia. }
  assert (Hd : decodePage page id = Ok p) by by apply decodePage_complete.
  assert (Hnst : ~ staged tx id).
  { intros [data Hs]. apply Hnp. apply list_elem_of_fmap. exists (id, data). split; [done|]. by apply (w_byID _ _ Hw). }
  split; [|split; [by constructor|split; [done|split; [|split; [left; unfold staged; cbn; rewrite lookup_insert_eq; eauto|split; [done|]]]]]].
  - apply stage_written; [done|done|by (change (is_ok (decodePage page id) = true); rewrite Hd)| |by right].
    apply txn_stage; [done|lia|done|]. destruct Hwr; [by left|by right].
  - intros q Hq. assert (q <> id) as Hne.
    { intros ->. destruct Hq as [?|[? ?]]; [done|]. destruct Hwr as [?|?]; [done|lia]. }
    split.
    + destruct Hq as [Hs|Hs]; [left|by right]. unfold staged in *. cbn. by rewrite lookup_insert_ne.
    + cbn. unfold tx_readPage. cbn. by rewrite lookup_insert_ne.
  - exists page. split; [|exact Hd]. unfold tx_readPage. cbn. by rewrite lookup_insert_eq.
Qed.

(** ** Chunks *)

Lemma chunk_bounds value index :
  0 <= index < chunk_count value ->
  0 <= index * chunkBytes < zlen value /\
  (index + 1 < chunk_count value -> index * chunkBytes + chunkBytes < zlen value) /\
  (index + 1 = chunk_count value -> zlen value <= index * chunkBytes + chunkBytes).
Proof.
  unfold chunk_count. change chunkBytes with 16304. intros H. pose proof (zlen_nonneg value).
  pose proof (Z.div_mod (zlen value + 16304 - 1) 16304 ltac:(lia)) as Hd.
  pose proof (Z.mod_pos_bound (zlen value + 16304 - 1) 16304 ltac:(lia)). nia.
Qed.

Definition chunk_end (value : bytes) (index : Z) : Z := Z.min (zlen value) (index * chunkBytes + chunkBytes).

Lemma chunkPayload_image value index chunks :
  0 <= index < chunk_count value ->
  chunkPayload value index chunks =
    le_enc 8 (zlen value) ++ le_enc 4 index ++ le_enc 4 chunks ++ sub value (index * chunkBytes) (chunk_end value index).
Proof.
  intros Hi. apply chunk_bounds in Hi as (Hs & _). unfold chunkPayload.
  assert (He : (if zlen value <? index * chunkBytes + chunkBytes then zlen value else index * chunkBytes + chunkBytes) =
    chunk_end value index). { unfold chunk_end. destruct (Z.ltb_spec (zlen value) (index * chunkBytes + chunkBytes)); lia. }
  rewrite He. assert (Hlt : index * chunkBytes <= chunk_end value index <= zlen value).
  { unfold chunk_end. change chunkBytes with 16304 in *. lia. }
  pose proof (zlen_sub value (index * chunkBytes) (chunk_end value index) ltac:(lia) ltac:(lia) ltac:(lia)) as Hz.
  unfold overflowHeader. layout. same_layout.
Qed.

Lemma zlen_chunkPayload value index chunks :
  0 <= index < chunk_count value -> 16 <= zlen (chunkPayload value index chunks) <= capacity.
Proof.
  intros Hi. rewrite chunkPayload_image by done. apply chunk_bounds in Hi as (Hs & _). zlens.
  rewrite zlen_sub by (unfold chunk_end; change chunkBytes with 16304 in *; lia).
  unfold chunk_end. change chunkBytes with 16304 in *. change capacity with 16320. lia.
Qed.

Definition overflow_type (t : Z) : Prop := t = PageDocumentOverflow \/ t = PageCommitOverflow \/ t = PageSystemOverflow.

Lemma storeChunks_correct ids limbo tx t value index :
  written (ids ++ limbo) tx -> NoDup (ids ++ limbo) -> overflow_type t ->
  0 <= index -> index + zlen ids = chunk_count value ->
  exists tx', storeChunks tx t value (chunk_count value) index ids = Ok tx' /\ written limbo tx' /\ same_txn tx tx' /\
    tx_requiredFeatures tx' = tx_requiredFeatures tx /\ extends tx tx' /\ tx_nextPage tx' = tx_nextPage tx /\
    chained tx' t value index ids.
Proof.
  intros Hw Hnd Ht. revert tx index Hw Hnd. induction ids as [|id ids IH]; intros tx index Hw Hnd Hi Hsum; cbn [storeChunks].
  { exists tx. do 6 (split; [first [done|reflexivity]|]). done. }
  rewrite zlen_cons in Hsum. pose proof (zlen_nonneg ids). cbn [app] in Hw, Hnd. apply NoDup_cons in Hnd as [Hnid Hnd].
  assert (Hlink : u64 (nextLink ids)).
  { destruct ids as [|id2 ids]; cbn [nextLink]; [unfold u64; lia|]. pose proof (w_limbo _ _ Hw) as Hl.
    apply Forall_cons in Hl as [_ Hl]. apply Forall_cons in Hl as [[Hwr _] _].
    apply (writable_range _ _ (w_ok _ _ Hw)) in Hwr. destruct (w_ok _ _ Hw). unfold u64. lia. }
  destruct (appendPageAt_written (ids ++ limbo) tx t 0 1 (nextLink ids) (chunkPayload value index (chunk_count value)) id)
    as (tx1 & -> & Hw1 & Hs1 & Hf1 & He1 & Hav & Hn1 & raw & Hraw & Hdec); [done|done| | | |done| |].
  { destruct Ht as [->|[->| ->]]; done. } { lia. } { unfold u32; lia. } { apply zlen_chunkPayload. lia. }
  cbn [rbind]. destruct (IH tx1 (index + 1)) as (tx' & -> & Hw' & Hs' & Hf' & He' & Hn' & Hc'); [done|done|lia|lia|].
  exists tx'. split; [done|]. split; [done|]. split; [by etransitivity|]. split; [congruence|]. split; [by etransitivity|].
  split; [lia|]. cbn [chained]. destruct (He' id Hav) as [Hav' Hr']. cbn in Hr'.
  split; [done|]. split; [|done]. exists raw. eexists. rewrite Hr'. split; [done|]. split; [exact Hdec|]. done.
Qed.

(** What storing a value leaves: the pages the transaction had are as before, and
    the descriptor holds the value. *)
Definition stores (limbo : list Z) (tx : WriteTxn) (t : Z) (value : bytes) (r : result (bytes * WriteTxn)) : Prop :=
  match r with
  | Ok (descriptor, tx') =>
      written limbo tx' /\ same_txn tx tx' /\ tx_requiredFeatures tx' = tx_requiredFeatures tx /\ extends tx tx' /\
      holds_value tx' t descriptor value
  | Err e => e = ErrStorageLimit
  end.

Lemma chunk_count_pos value : value <> [] -> 0 < chunk_count value.
Proof.
  intros Hv. unfold chunk_count. assert (0 < zlen value).
  { pose proof (zlen_nonneg value). destruct (Z.eq_dec (zlen value) 0) as [E|]; [by apply zlen_0 in E|lia]. }
  apply Z.div_str_pos. change chunkBytes with 16304. lia.
Qed.

Lemma storeLinked_correct limbo tx t value :
  written limbo tx -> NoDup limbo -> overflow_type t -> value <> [] -> stores limbo tx t value (storeLinked tx value t).
Proof.
  intros Hw Hnd Ht Hv. unfold storeLinked. fold (chunk_count value). pose proof (chunk_count_pos value Hv).
  destruct (allocatePageIDs tx (Z.to_nat (chunk_count value))) as [[ids tx1]|e] eqn:Ea; cbn [rbind].
  2: { by eapply allocatePageIDs_error. }
  apply (allocatePageIDs_written _ limbo) in Ea as (Hw1 & Hnd1 & Hl & Hs1 & _ & Hf1 & He1 & Hr1); [|done|done].
  destruct ids as [|first ids]; [cbn in Hl; lia|].
  destruct (storeChunks_correct (first :: ids) limbo tx1 t value 0) as (tx2 & -> & Hw2 & Hs2 & Hf2 & He2 & Hn2 & Hc2);
    [done|done|done|lia|unfold zlen; lia|].
  cbn [rbind stores]. split; [done|]. split; [by etransitivity|]. split; [congruence|]. split; [by etransitivity|].
  right. exists (first :: ids). split; [by apply NoDup_app in Hnd1 as (? & _)|]. split; [unfold zlen; lia|]. split; [done|].
  split; [by rewrite Hn2|done].
Qed.

Lemma storeDocumentValue_correct limbo tx value :
  written limbo tx -> NoDup limbo -> 0 < zlen value <= maxDocumentBytes ->
  stores limbo tx PageDocumentOverflow value (storeDocumentValue tx value).
Proof.
  intros Hw Hnd Hl. unfold storeDocumentValue. destruct (Z.eqb_spec (zlen value) 0); [lia|].
  destruct (Z.ltb_spec maxDocumentBytes (zlen value)); [lia|]. cbn [orb].
  destruct (_ <=? _); [do 4 (split; [first [done|reflexivity]|]); by left|]. apply storeLinked_correct; [done|done|by left|].
  intros ->. change (zlen (@nil byte)) with 0 in *. lia.
Qed.

Lemma storeCommitValue_correct limbo tx value :
  written limbo tx -> NoDup limbo -> zlen value <= maxCommitValueBytes ->
  stores limbo tx PageCommitOverflow value (storeCommitValue tx value).
Proof.
  intros Hw Hnd Hl. unfold storeCommitValue. destruct (Z.ltb_spec maxCommitValueBytes (zlen value)); [lia|].
  destruct (Z.leb_spec (zlen value + 1) inlineCommitValueLimit); [do 4 (split; [first [done|reflexivity]|]); by left|].
  apply storeLinked_correct; [done|done|right; by left|]. intros ->. by change (zlen (@nil byte)) with 0 in *.
Qed.

Lemma storeSystemValue_correct limbo tx value :
  written limbo tx -> NoDup limbo -> 0 < zlen value <= maxSystemValueBytes ->
  stores limbo tx PageSystemOverflow value (storeSystemValue tx value).
Proof.
  intros Hw Hnd Hl. unfold storeSystemValue, storeOverflowValue. destruct (Z.eqb_spec (zlen value) 0); [lia|].
  destruct (Z.ltb_spec maxSystemValueBytes (zlen value)); [lia|]. cbn [orb].
  destruct (_ <=? _); [do 4 (split; [first [done|reflexivity]|]); by left|]. apply storeLinked_correct; [done|done|right; by right|].
  intros ->. change (zlen (@nil byte)) with 0 in *. lia.
Qed.

(** ** Loading what was stored *)

Lemma NoDup_bounded_length (l : list Z) n : NoDup l -> Forall (fun x => 0 <= x < n) l -> (length l <= Z.to_nat n)%nat.
Proof.
  intros Hnd Hb. assert (Hs : l ⊆+ seqZ 0 n).
  { apply NoDup_submseteq; [done|]. intros x Hx. rewrite Forall_forall in Hb. apply elem_of_seqZ. specialize (Hb x Hx). lia. }
  apply submseteq_length in Hs. by rewrite length_seqZ in Hs.
Qed.

Lemma list_mem_spec id l : list_mem id l = true <-> id ∈ l.
Proof.
  unfold list_mem. rewrite existsb_exists. split.
  - intros (x & Hx & ->%Z.eqb_eq). by apply list_elem_of_In.
  - intros Hx%list_elem_of_In. exists id. split; [done|apply Z.eqb_refl].
Qed.

Lemma loadChunks_chained fuel tx t value seen ids index expected :
  (length ids <= fuel)%nat -> chained tx t value index ids -> ids <> [] -> 0 <= index ->
  index + zlen ids = chunk_count value -> zlen value < 2 ^ 32 -> NoDup (seen ++ ids) -> Forall (fun id => 2 <= id) ids ->
  (0 < index -> expected = chunk_count value) ->
  loadChunks fuel tx t (zlen value) seen (nextLink ids) index expected (sub value 0 (index * chunkBytes)) = Ok value.
Proof.
  revert fuel seen index expected; induction ids as [|id ids IH]; intros fuel seen index expected Hf Hc Hne Hi Hsum Hw Hnd H2 Hex;
    [done|]. destruct fuel as [|fuel]; [cbn in Hf; lia|]. cbn [length] in Hf. rewrite zlen_cons in Hsum. pose proof (zlen_nonneg ids).
  destruct (chunk_bounds value index ltac:(lia)) as (Hstart & Hmid & Hlast).
  assert (Hcc : chunk_count value < 2 ^ 32).
  { unfold chunk_count. change chunkBytes with 16304. apply Z.div_lt_upper_bound; lia. }
  cbn [chained] in Hc. destruct Hc as (_ & (raw & page & Hr & Hp & Ht & Hfl & Hic & Hlk & Hpl) & Hc).
  cbn [nextLink loadChunks]. assert (Hz : zlen (sub value 0 (index * chunkBytes)) = index * chunkBytes) by (rewrite zlen_sub; lia).
  rewrite Hz. destruct (Z.ltb_spec (index * chunkBytes) (zlen value)); [|lia]. cbn [negb].
  destruct (list_mem id seen) eqn:Em.
  { apply list_mem_spec in Em. apply NoDup_app in Hnd as (_ & Hd & _). destruct (Hd id Em). by left. }
  rewrite Hr. cbn [rbind]. rewrite Hp, Ht, Hfl, Hic, Hpl, Hlk, !Z.eqb_refl. cbn [negb orb].
  rewrite chunkPayload_image by lia. set (chunk := sub value (index * chunkBytes) (chunk_end value index)).
  assert (Hce : index * chunkBytes <= chunk_end value index <= zlen value).
  { unfold chunk_end. change chunkBytes with 16304 in *. lia. }
  assert (Hzc : zlen chunk = chunk_end value index - index * chunkBytes) by (unfold chunk; rewrite zlen_sub; lia).
  set (payload := le_enc 8 (zlen value) ++ le_enc 4 index ++ le_enc 4 (chunk_count value) ++ chunk).
  assert (Hzp : zlen payload = 16 + zlen chunk) by (unfold payload; zlens; lia).
  assert (Hsub : sub payload 0 8 = le_enc 8 (zlen value) /\ sub payload 8 12 = le_enc 4 index /\
    sub payload 12 16 = le_enc 4 (chunk_count value) /\ sub payload 16 (zlen payload) = chunk).
  { rewrite Hzp. pose proof (zlen_nonneg chunk). unfold payload. repeat split; slice; reflexivity. }
  destruct Hsub as (-> & -> & -> & ->). pose proof (zlen_nonneg chunk).
  rewrite le_dec_u64, !le_dec_u32 by (unfold u64, u32; lia). rewrite !Z.eqb_refl, Hzp. cbn [negb orb].
  destruct (Z.ltb_spec (16 + zlen chunk) 16); [lia|]. destruct (Z.eqb_spec (chunk_count value) 0); [lia|]. cbn [orb].
  assert ((0 <? index) && negb (chunk_count value =? expected) = false) as ->.
  { destruct (Z.ltb_spec 0 index); [|done]. by rewrite Hex, Z.eqb_refl by done. }
  destruct (Z.leb_spec (chunk_count value) index); [lia|]. cbn [orb].
  destruct (Z.ltb_spec (zlen value) (index * chunkBytes + (16 + zlen chunk) - 16)); [lia|].
  assert (Hcat : sub value 0 (index * chunkBytes) ++ chunk = sub value 0 (chunk_end value index)).
  { unfold chunk. symmetry. apply sub_split; lia. }
  rewrite Hcat. destruct (Z.eqb_spec (index + 1) (chunk_count value)) as [El|Nl].
  - destruct ids as [|? ?]; [|rewrite zlen_cons in Hsum; pose proof (zlen_nonneg ids); lia]. cbn [nextLink Z.eqb negb orb].
    assert (chunk_end value index = zlen value) as -> by (unfold chunk_end; specialize (Hlast El); lia).
    rewrite sub_all by done. by rewrite Z.eqb_refl.
  - destruct ids as [|id2 ids]; [change (zlen (@nil Z)) with 0 in *; lia|]. cbn [nextLink].
    apply Forall_cons in H2 as [_ H2]. pose proof H2 as Hid2. apply Forall_cons in Hid2 as [Hid2 _].
    destruct (Z.ltb_spec id2 2); [lia|].
    assert (chunk_end value index = (index + 1) * chunkBytes) as ->.
    { unfold chunk_end. specialize (Hmid ltac:(lia)). lia. }
    change id2 with (nextLink (id2 :: ids)). apply IH; [lia|done|done|lia|lia|done| |done|done].
    rewrite <- Permutation_middle in Hnd. exact Hnd.
Qed.

Lemma cons_app {A} (x : A) l : x :: l = [x] ++ l.
Proof. done. Qed.

Lemma linkedDescriptor_image value first :
  linkedDescriptor value first = z2b 1 :: le_enc 8 (zlen value) ++ le_enc 8 first ++ Sha256.sum value.
Proof.
  unfold linkedDescriptor. pose proof (Sha256.zlen_sum value). rewrite (cons_app (z2b 1) (le_enc 8 _ ++ _)).
  assert (zlen [z2b 1] = 1) by done. layout. same_layout.
Qed.

Lemma linkedDescriptor_fields value first :
  let d := linkedDescriptor value first in
  zlen d = 49 /\ sub d 1 9 = le_enc 8 (zlen value) /\ sub d 9 17 = le_enc 8 first /\ sub d 17 49 = Sha256.sum value.
Proof.
  cbv zeta. rewrite linkedDescriptor_image. pose proof (Sha256.zlen_sum value). rewrite (cons_app (z2b 1) (le_enc 8 _ ++ _)).
  assert (zlen [z2b 1] = 1) by done. split; [zlens; lia|]. repeat split; slice; reflexivity.
Qed.

Lemma loadStored_value emptyInline tx t inlineLimit maximum descriptor value :
  txn_ok tx -> holds_value tx t descriptor value -> (value = [] -> emptyInline = true) ->
  (descriptor <> x00 :: value -> value <> [] /\ inlineLimit <= zlen value) -> zlen value <= maximum -> maximum < 2 ^ 32 ->
  loadStored emptyInline tx descriptor inlineLimit maximum t = Ok value.
Proof.
  intros Hok Hh He Hbig Hmax Hw. destruct (decide (descriptor = x00 :: value)) as [->|Hne].
  { unfold loadStored. change (b2z x00 =? 0) with true. cbn iota. destruct (Z.eqb_spec (zlen value) 0) as [E|]; [|by rewrite andb_false_r].
    apply zlen_0 in E. by rewrite He by done. }
  destruct Hh as [?|(ids & Hnd & Hl & Hc & Hr & ->)]; [done|]. destruct (Hbig Hne) as [Hv Hin].
  pose proof (chunk_count_pos value Hv). destruct ids as [|id ids]; [change (zlen (@nil Z)) with 0 in Hl; lia|]. cbn [nextLink].
  pose proof (linkedDescriptor_fields value id) as (Hz & H1 & H2 & H3).
  assert (Hb : exists rest, linkedDescriptor value id = z2b 1 :: rest) by (rewrite linkedDescriptor_image; eauto).
  unfold loadStored. destruct Hb as [rest Hb]. rewrite Hb at 1. change (b2z (z2b 1) =? 0) with false.
  change (b2z (z2b 1) =? 1) with true. rewrite Hz. cbn [negb orb Z.eqb Pos.eqb].
  unfold loadLinked. rewrite H1, H2, H3. apply Forall_cons in Hr as [Hid Hr]. destruct Hok as [_ _ Hnw _ _ _ _ _ _].
  rewrite !le_dec_u64 by (unfold u64; pose proof (zlen_nonneg value); lia).
  destruct (Z.ltb_spec (zlen value) inlineLimit); [lia|]. destruct (Z.ltb_spec maximum (zlen value)); [lia|].
  destruct (Z.ltb_spec id 2); [lia|]. cbn [orb].
  change (@nil byte) with (sub value 0 (0 * chunkBytes)) at 1. change id with (nextLink (id :: ids)) at 1.
  rewrite loadChunks_chained; [|..].
  - cbn [rbind]. by rewrite beqb_refl.
  - etransitivity; [apply (NoDup_bounded_length _ (tx_nextPage tx)); [done|]|lia].
    constructor; [lia|]. eapply Forall_impl; [exact Hr|]. cbn. lia.
  - done.
  - done.
  - lia.
  - lia.
  - lia.
  - done.
  - constructor; [lia|]. eapply Forall_impl; [exact Hr|]. cbn. lia.
  - lia.
Qed.

(** ** Loading always ends *)

Lemma tx_readPage_bounds tx id raw : txn_ok tx -> tx_readPage tx id = Ok raw -> 2 <= id < tx_nextPage tx.
Proof.
  intros Hok. unfold tx_readPage. destruct (tx_byID tx !! id) eqn:E.
  - intros _. destruct (txn_staged _ Hok id) as [_ [Hi|Hi]]; [by eexists| |destruct Hok; lia].
    destruct Hok as [Hn _ _ _ _ Hbf _ _ _]. rewrite Forall_forall in Hbf. specialize (Hbf id Hi). lia.
  - destruct (_ || _) eqn:Eb; [done|]. breflect. destruct Hok. lia.
Qed.

Lemma tx_readPage_no_fuel tx id : tx_readPage tx id <> Err ErrFuel.
Proof.
  unfold tx_readPage, readDataPageUnlocked. destruct (tx_byID tx !! id); [done|]. destruct (_ || _); [done|].
  cbn [rbind]. unfold read_page. destruct (id <? 0); [done|]. destruct (f_file (tx_file tx) !! Z.to_nat id); [|done]. cbn [rbind of_option].
  unfold decodePageView, decodePage. by repeat (destruct (_ || _); [done|]).
Qed.

Lemma loadChunks_ends fuel tx t total seen pageID index expected loaded :
  txn_ok tx -> NoDup seen -> Forall (fun id => 0 <= id < tx_nextPage tx) seen ->
  (Z.to_nat (tx_nextPage tx) < length seen + fuel)%nat ->
  loadChunks fuel tx t total seen pageID index expected loaded <> Err ErrFuel.
Proof.
  intros Hok. revert seen pageID index expected loaded; induction fuel as [|fuel IH]; intros seen pageID index expected loaded Hnd Hb Hlen.
  { pose proof (NoDup_bounded_length seen _ Hnd Hb). lia. }
  cbn [loadChunks]. destruct (negb _); [done|]. destruct (list_mem pageID seen) eqn:Em; [done|].
  destruct (tx_readPage tx pageID) as [raw|e] eqn:Er; cbn [rbind].
  2: { intros [= ->]. by eapply tx_readPage_no_fuel. }
  destruct (DecodePage raw pageID); [|done]. destruct (_ || _); [done|]. destruct (_ || _) in |- *; [done|].
  destruct (_ =? _) in |- *; [by destruct (_ || _)|]. destruct (_ <? 2); [done|]. apply IH.
  - constructor; [|done]. intros Hin%list_mem_spec. congruence.
  - constructor; [|done]. apply tx_readPage_bounds in Er; [lia|done].
  - cbn [length]. lia.
Qed.

(** loading a stored value always ends, whatever the pages hold: pages linked
    in a circle, chunk counts and lengths that do not fit are refused. *)
Theorem stored_values_terminate tx stored :
  txn_ok tx ->
  loadDocumentValue tx stored <> Err ErrFuel /\ loadSystemValue tx stored <> Err ErrFuel /\
  loadCommitValue tx stored <> Err ErrFuel.
Proof.
  intros Hok. assert (Hl : forall empty inlineLimit maximum t, loadStored empty tx stored inlineLimit maximum t <> Err ErrFuel).
  { intros empty inlineLimit maximum t. unfold loadStored. destruct stored as [|tag rest]; [done|].
    destruct (_ =? 0); [by destruct (_ && _)|]. destruct (_ || _); [done|]. unfold loadLinked. destruct (_ || _) in |- *; [done|].
    pose proof (loadChunks_ends (S (Z.to_nat (tx_nextPage tx))) tx t (le_dec (sub (tag :: rest) 1 9)) []
      (le_dec (sub (tag :: rest) 9 17)) 0 0 [] Hok ltac:(constructor) ltac:(constructor) ltac:(cbn; lia)) as Hne.
    destruct (loadChunks _ _ _ _ _ _ _ _ _) as [v|e]; cbn [rbind]; [by destruct (negb _)|]. congruence. }
  split; [apply Hl|]. split; apply Hl.
Qed.

(** ** Storing and loading *)

Lemma loadDocumentValue_holds tx descriptor value :
  txn_ok tx -> holds_value tx PageDocumentOverflow descriptor value -> 0 < zlen value <= maxDocumentBytes ->
  (descriptor <> x00 :: value -> inlineDocumentLimit <= zlen value) -> loadDocumentValue tx descriptor = Ok value.
Proof.
  intros Hok Hh Hv Hb. assert (value <> []) by (intros ->; change (zlen (@nil byte)) with 0 in *; lia).
  apply loadStored_value; [done|done|done| |lia|done]. intros Hne. split; [done|by apply Hb].
Qed.

Lemma loadSystemValue_holds tx descriptor value :
  txn_ok tx -> holds_value tx PageSystemOverflow descriptor value -> 0 < zlen value <= maxSystemValueBytes ->
  (descriptor <> x00 :: value -> inlineSystemValueLimit <= zlen value) -> loadSystemValue tx descriptor = Ok value.
Proof.
  intros Hok Hh Hv Hb. assert (value <> []) by (intros ->; change (zlen (@nil byte)) with 0 in *; lia).
  apply loadStored_value; [done|done|done| |lia|done]. intros Hne. split; [done|by apply Hb].
Qed.

Lemma loadCommitValue_holds tx descriptor value :
  txn_ok tx -> holds_value tx PageCommitOverflow descriptor value -> zlen value <= maxCommitValueBytes ->
  (descriptor <> x00 :: value -> inlineCommitValueLimit <= zlen value) -> loadCommitValue tx descriptor = Ok value.
Proof.
  intros Hok Hh Hv Hb. apply loadStored_value; [done|done|done| |lia|done]. intros Hne. specialize (Hb Hne). split; [|done].
  intros ->. by change (zlen (@nil byte)) with 0 in Hb.
Qed.

(** Only values that do not fit in a descriptor go to pages. *)
Lemma storeLinked_descriptor tx value t d tx' :
  storeLinked tx value t = Ok (d, tx') -> exists first, d = linkedDescriptor value first.
Proof.
  unfold storeLinked. intros Hs. inv_ok. destruct a as [ids tx1]. destruct ids as [|id ids]; [done|]. inv_ok.
  injection Hs as <- <-. eauto.
Qed.

(** The value is kept: it loads in the transaction that stored it and in all that
    continue it, which the pages the transaction had survive too. *)
Definition keeps_value (load : WriteTxn -> bytes -> result bytes) (limbo : list Z) (tx : WriteTxn) (value : bytes)
    (r : result (bytes * WriteTxn)) : Prop :=
  match r with
  | Ok (descriptor, tx') =>
      written limbo tx' /\ extends tx tx' /\
      forall tx2, txn_ok tx2 -> extends tx' tx2 -> tx_nextPage tx' <= tx_nextPage tx2 -> load tx2 descriptor = Ok value
  | Err e => e = ErrStorageLimit
  end.

Lemma stores_kept limbo tx t value r load :
  stores limbo tx t value r ->
  (forall d tx' tx2, r = Ok (d, tx') -> txn_ok tx2 -> holds_value tx2 t d value -> load tx2 d = Ok value) ->
  keeps_value load limbo tx value r.
Proof.
  destruct r as [[d tx']|e]; [|done]. intros (Hw & _ & _ & He & Hh) Hload. split; [done|]. split; [done|].
  intros tx2 Hok He2 Hn. apply (Hload d tx'); [done|done|]. by eapply holds_value_extends.
Qed.

(** C7: a value within the limits is stored unless the file is full, disturbs no
    page the transaction could read, and loads as it was from its descriptor, in
    this transaction and in any that continues it; other values are refused. *)
Theorem stored_values_roundtrip limbo tx value :
  written limbo tx -> NoDup limbo ->
  (if decide (0 < zlen value <= maxDocumentBytes)
   then keeps_value loadDocumentValue limbo tx value (storeDocumentValue tx value)
   else storeDocumentValue tx value = Err ErrCorrupt) /\
  (if decide (0 < zlen value <= maxSystemValueBytes)
   then keeps_value loadSystemValue limbo tx value (storeSystemValue tx value)
   else storeSystemValue tx value = Err ErrCorrupt) /\
  (if decide (zlen value <= maxCommitValueBytes)
   then keeps_value loadCommitValue limbo tx value (storeCommitValue tx value)
   else storeCommitValue tx value = Err ErrCorrupt).
Proof.
  intros Hw Hnd. pose proof (zlen_nonneg value). split; [|split]; destruct (decide _) as [Hv|Hv].
  - eapply stores_kept; [by apply storeDocumentValue_correct|]. intros d tx' tx2 Hs Hok Hh.
    apply loadDocumentValue_holds; [done|done|done|]. intros Hd. revert Hs. unfold storeDocumentValue.
    destruct (_ || _); [done|]. destruct (Z.leb_spec (zlen value + 1) inlineDocumentLimit); [|lia]. intros [= <- <-]. done.
  - unfold storeDocumentValue. destruct (Z.eqb_spec (zlen value) 0); [done|]. by destruct (Z.ltb_spec maxDocumentBytes (zlen value)); [|lia].
  - eapply stores_kept; [by apply storeSystemValue_correct|]. intros d tx' tx2 Hs Hok Hh.
    apply loadSystemValue_holds; [done|done|done|]. intros Hd. revert Hs. unfold storeSystemValue, storeOverflowValue.
    destruct (_ || _); [done|]. destruct (Z.leb_spec (zlen value + 1) inlineSystemValueLimit); [|lia]. intros [= <- <-]. done.
  - unfold storeSystemValue, storeOverflowValue. destruct (Z.eqb_spec (zlen value) 0); [done|].
    by destruct (Z.ltb_spec maxSystemValueBytes (zlen value)); [|lia].
  - eapply stores_kept; [by apply storeCommitValue_correct|]. intros d tx' tx2 Hs Hok Hh.
    apply loadCommitValue_holds; [done|done|done|]. intros Hd. revert Hs. unfold storeCommitValue.
    destruct (_ <? _); [done|]. destruct (Z.leb_spec (zlen value + 1) inlineCommitValueLimit); [|lia]. intros [= <- <-]. done.
  - unfold storeCommitValue. by destruct (Z.ltb_spec maxCommitValueBytes (zlen value)); [|lia].
Qed.

(** ** Descriptors in trees *)

(** [d] stands for [value], and values shorter than [limit] are inline. *)
Definition describes (limit t : Z) (tx : WriteTxn) (d value : bytes) : Prop :=
  holds_value tx t d value /\ (d <> x00 :: value -> limit <= zlen value).

Abbreviation document_value := (describes inlineDocumentLimit PageDocumentOverflow).
Abbreviation system_value := (describes inlineSystemValueLimit PageSystemOverflow).
Abbreviation commit_value := (describes inlineCommitValueLimit PageCommitOverflow).

Lemma describes_carries limit t tx tx' d value : carries tx tx' -> describes limit t tx d value -> describes limit t tx' d value.
Proof. intros [He Hn] [Hh Hb]. split; [|done]. by eapply holds_value_extends. Qed.

Lemma describes_moves limit t tx tx' d value : moves tx tx' -> describes limit t tx d value -> describes limit t tx' d value.
Proof. intros Hm%moves_carries. by apply describes_carries. Qed.

(** What the three ways to store a value leave. *)
Definition stored_as (limit t : Z) (tx : WriteTxn) (value : bytes) (r : result (bytes * WriteTxn)) : Prop :=
  match r with
  | Ok (d, tx') => quiet tx tx' /\ describes limit t tx' d value /\ 1 <= zlen d <= limit
  | Err e => e = ErrStorageLimit
  end.

Lemma storeChunks_flags tx t value chunks index ids tx' :
  storeChunks tx t value chunks index ids = Ok tx' -> flags tx' = flags tx.
Proof.
  revert tx index; induction ids as [|id ids IH]; intros tx index; cbn [storeChunks]; [by intros <-%Ok_inj|].
  intros Hs. inv_ok. rewrite (IH _ _ Hs). by eapply appendPageAt_flags.
Qed.

Lemma storeLinked_flags tx value t d tx' : storeLinked tx value t = Ok (d, tx') -> flags tx' = flags tx.
Proof.
  unfold storeLinked. intros Hs. inv_ok. destruct a as [ids tx1]. destruct ids as [|id ids]; [done|]. inv_ok.
  injection Hs as <- <-. rewrite (storeChunks_flags _ _ _ _ _ _ _ Hok0). by eapply allocates_flags.
Qed.

Lemma stores_stored_as limit t tx value r :
  stores [] tx t value r -> 49 <= limit ->
  (forall d tx', r = Ok (d, tx') -> flags tx' = flags tx /\
     ((d = x00 :: value /\ zlen value + 1 <= limit) \/ (limit <= zlen value /\ zlen d = 49))) ->
  stored_as limit t tx value r.
Proof.
  destruct r as [[d tx']|e]; [|done]. intros (Hw & Hs & Hf & He & Hh) Hl Hd. destruct (Hd d tx' eq_refl) as [Hfl Hd'].
  split; [split; [by constructor|done]|]. split; [split; [done|]|].
  - intros Hne. destruct Hd' as [[-> _]|[? _]]; [done|lia].
  - pose proof (zlen_nonneg value). destruct Hd' as [[-> ?]|[_ ->]]; [rewrite zlen_cons; lia|lia].
Qed.

Lemma zlen_linkedDescriptor value first : zlen (linkedDescriptor value first) = 49.
Proof. unfold linkedDescriptor. by rewrite !zlen_put. Qed.

Lemma storeDocumentValue_spec tx value :
  written [] tx -> 0 < zlen value <= maxDocumentBytes ->
  stored_as inlineDocumentLimit PageDocumentOverflow tx value (storeDocumentValue tx value).
Proof.
  intros Hw Hv. apply stores_stored_as; [apply storeDocumentValue_correct; [done|constructor|done]|done|].
  intros d tx'. unfold storeDocumentValue. destruct (_ || _); [done|].
  destruct (Z.leb_spec (zlen value + 1) inlineDocumentLimit); [intros [= <- <-]; by split; [|left]|].
  intros Hs. split; [by eapply storeLinked_flags|]. apply storeLinked_descriptor in Hs as (first & ->).
  right. split; [lia|apply zlen_linkedDescriptor].
Qed.

Lemma storeSystemValue_spec tx value :
  written [] tx -> 0 < zlen value <= maxSystemValueBytes ->
  stored_as inlineSystemValueLimit PageSystemOverflow tx value (storeSystemValue tx value).
Proof.
  intros Hw Hv. apply stores_stored_as; [apply storeSystemValue_correct; [done|constructor|done]|done|].
  intros d tx'. unfold storeSystemValue, storeOverflowValue. destruct (_ || _); [done|].
  destruct (Z.leb_spec (zlen value + 1) inlineSystemValueLimit); [intros [= <- <-]; by split; [|left]|].
  intros Hs. split; [by eapply storeLinked_flags|]. apply storeLinked_descriptor in Hs as (first & ->).
  right. split; [lia|apply zlen_linkedDescriptor].
Qed.

Lemma storeCommitValue_spec tx value :
  written [] tx -> zlen value <= maxCommitValueBytes ->
  stored_as inlineCommitValueLimit PageCommitOverflow tx value (storeCommitValue tx value).
Proof.
  intros Hw Hv. apply stores_stored_as; [apply storeCommitValue_correct; [done|constructor|done]|done|].
  intros d tx'. unfold storeCommitValue. destruct (_ <? _); [done|].
  destruct (Z.leb_spec (zlen value + 1) inlineCommitValueLimit); [intros [= <- <-]; by split; [|left]|].
  intros Hs. split; [by eapply storeLinked_flags|]. apply storeLinked_descriptor in Hs as (first & ->).
  right. split; [lia|apply zlen_linkedDescriptor].
Qed.

(** Loading depends only on the pages. *)
Lemma loadChunks_ext fuel tx tx' t total seen id index expected loaded :
  (forall p, tx_readPage tx p = tx_readPage tx' p) ->
  loadChunks fuel tx t total seen id index expected loaded = loadChunks fuel tx' t total seen id index expected loaded.
Proof.
  intros Hr. revert seen id index expected loaded; induction fuel as [|fuel IH]; intros seen id index expected loaded; [done|].
  cbn [loadChunks]. rewrite Hr. destruct (negb _); [done|]. destruct (list_mem id seen); [done|].
  destruct (tx_readPage tx' id) as [raw|]; [|done]. cbn [rbind]. destruct (DecodePage raw id) as [page|]; [|done].
  destruct (_ || _); [done|]. destruct (_ || _); [done|]. destruct (_ =? _); [done|]. by destruct (_ <? 2).
Qed.

Lemma loadStored_ext empty tx tx' d limit maximum t :
  (forall p, tx_readPage tx p = tx_readPage tx' p) -> tx_nextPage tx = tx_nextPage tx' ->
  loadStored empty tx d limit maximum t = loadStored empty tx' d limit maximum t.
Proof.
  intros Hr Hn. unfold loadStored. destruct d; [done|]. destruct (_ =? 0); [done|]. destruct (_ || _); [done|].
  unfold loadLinked. rewrite Hn. by rewrite (loadChunks_ext _ tx tx').
Qed.
