(* ===== verification/CommitCodec.v ===== *)
(** * Changes in the commit log

    [encodeCommitChange], [decodeCommitChange] and [normalizeChangedPaths] of
    [internal/storage/commitlog.go], and the keys of the log. *)
From S2P Require Import Prelude Bytes Strings Layout Hashes PageFormat Records StoredValues.
From Stdlib Require Import Sorted.
#[local] Open Scope Z_scope.

(** ** Data *)

Definition CommitInsert : Z := 1.
Definition CommitUpdate : Z := 2.
Definition CommitDelete : Z := 3.
Definition CommitCatalog : Z := 4.

Record DocumentVersionRef := mk_DocumentVersionRef {
  ref_PrimaryRoot : Z;
  ref_DocumentID : bytes }.

(** A document identifier is sixteen bytes. *)
Record CommitChange := mk_CommitChange {
  ch_CollectionID : Z;
  ch_CollectionName : bytes;
  ch_DocumentID : bytes;
  ch_Operation : Z;
  ch_ChangedPaths : list bytes;
  ch_Before : bytes;
  ch_After : bytes;
  ch_BeforeRef : option DocumentVersionRef;
  ch_AfterRef : option DocumentVersionRef }.

(** ** Encoding *)

Definition validChangedPath (path : bytes) : bool :=
  negb ((zlen path =? 0) || (1024 <? zlen path) || negb (utf8_valid path) || contains_byte path x00).

(** The write position trails the read position; [previous] is the last string
    kept. *)
Fixpoint dropRepeats (previous : option bytes) (paths : list bytes) : list bytes :=
  match paths with
  | [] => []
  | path :: paths =>
      match previous with
      | Some kept => if beqb kept path then dropRepeats previous paths else path :: dropRepeats (Some path) paths
      | None => path :: dropRepeats (Some path) paths
      end
  end.

Definition normalizeChangedPaths (paths : list bytes) : result (list bytes) :=
  if 65535 <? zlen paths then Err ErrCorrupt
  else if negb (forallb validChangedPath paths) then Err ErrCorrupt
  else Ok (dropRepeats None (sort_strings paths)).

(** The loop that adds the paths to the size of the encoding. *)
Fixpoint addPathSizes (size : Z) (paths : list bytes) : result Z :=
  match paths with
  | [] => Ok size
  | path :: paths =>
      if maxCommitValueBytes - 2 - zlen path <? size then Err ErrCorrupt else addPathSizes (size + (2 + zlen path)) paths
  end.

Definition valid_version_ref (documentID image : bytes) (ref : option DocumentVersionRef) : bool :=
  match ref with
  | None => true
  | Some r => (zlen image =? 0) && negb (ref_PrimaryRoot r <? 2) && beqb (ref_DocumentID r) documentID
  end.

(** The checks before anything is written. *)
Definition validCommitChange (change : CommitChange) : bool :=
  negb ((ch_CollectionID change =? 0) || (ch_Operation change <? CommitInsert) || (CommitCatalog <? ch_Operation change)
        || (maxCommitValueBytes <? zlen (ch_Before change)) || (maxCommitValueBytes <? zlen (ch_After change)))
  && negb (negb (ch_Operation change =? CommitCatalog) && all_zero (ch_DocumentID change))
  && negb ((negb (ch_Operation change =? CommitCatalog) && negb (zlen (ch_CollectionName change) =? 0))
           || (negb (zlen (ch_CollectionName change) =? 0) && negb (validCollectionName (ch_CollectionName change))))
  && valid_version_ref (ch_DocumentID change) (ch_Before change) (ch_BeforeRef change)
  && valid_version_ref (ch_DocumentID change) (ch_After change) (ch_AfterRef change).

Definition flag (b : bool) (bit : Z) : Z := if b then bit else 0.
Definition is_some {A} (o : option A) : bool := match o with Some _ => true | None => false end.

Definition changeFlags (change : CommitChange) : Z :=
  Z.lor (Z.lor (Z.lor (flag (0 <? zlen (ch_Before change)) 1) (flag (0 <? zlen (ch_After change)) 2))
    (flag (is_some (ch_BeforeRef change)) 4)) (flag (is_some (ch_AfterRef change)) 8).

Definition versionRoot (ref : option DocumentVersionRef) : Z := match ref with Some r => ref_PrimaryRoot r | None => 0 end.

Fixpoint putPaths (result : bytes) (offset : Z) (paths : list bytes) : bytes * Z :=
  match paths with
  | [] => (result, offset)
  | path :: paths =>
      let result := put result offset (le_enc 2 (zlen path)) in
      let offset := offset + 2 in
      let result := put result offset path in
      putPaths result (offset + zlen path) paths
  end.

Definition encodeCommitChange (change : CommitChange) : result bytes :=
  if negb (validCommitChange change) then Err ErrCorrupt
  else
    let* paths := normalizeChangedPaths (ch_ChangedPaths change) in
    let size := 52 + zlen (ch_CollectionName change) + zlen (ch_Before change) + zlen (ch_After change) in
    let* size := addPathSizes size paths in
    if maxCommitValueBytes <? size then Err ErrCorrupt
    else
      let result := zeros size in
      let result := put result 0 (le_enc 4 (ch_CollectionID change)) in
      let result := put result 4 (le_enc 1 (ch_Operation change)) in
      let result := put result 5 (le_enc 1 (changeFlags change)) in
      let result := put result 6 (le_enc 2 (zlen paths)) in
      let result := put result 8 (ch_DocumentID change) in
      let result := put result 24 (le_enc 4 (zlen (ch_Before change))) in
      let result := put result 28 (le_enc 4 (zlen (ch_After change))) in
      let result := put result 32 (le_enc 8 (versionRoot (ch_BeforeRef change))) in
      let result := put result 40 (le_enc 8 (versionRoot (ch_AfterRef change))) in
      let result := put result 48 (le_enc 2 (zlen (ch_CollectionName change))) in
      let result := put result 52 (ch_CollectionName change) in
      let '(result, offset) := putPaths result (52 + zlen (ch_CollectionName change)) paths in
      let result := put result offset (ch_Before change) in
      Ok (put result (offset + zlen (ch_Before change)) (ch_After change)).

(** ** Decoding *)

Fixpoint decodePaths (n : nat) (encoded : bytes) (offset : Z) (previous : option bytes) : result (list bytes * Z) :=
  match n with
  | O => Ok ([], offset)
  | S n =>
      if zlen encoded <? offset + 2 then Err ErrCorrupt
      else
        let length := le_dec (sub encoded offset (offset + 2)) in
        let offset := offset + 2 in
        if (length =? 0) || (1024 <? length) || (zlen encoded <? offset + length)
           || negb (utf8_valid (sub encoded offset (offset + length))) then Err ErrCorrupt
        else
          let path := sub encoded offset (offset + length) in
          if match previous with Some p => negb (bltb p path) | None => false end then Err ErrCorrupt
          else
            let* (paths, offset) := decodePaths n encoded (offset + length) (Some path) in
            Ok (path :: paths, offset)
  end.

Definition has_flag (flags bit : Z) : bool := negb (Z.land flags bit =? 0).

(** [version_ref flags bit root id]: the reference a set flag announces. *)
Definition version_ref (flags bit root : Z) (documentID : bytes) : option DocumentVersionRef :=
  if has_flag flags bit then Some (mk_DocumentVersionRef root documentID) else None.

Definition badVersions (flags beforeLength afterLength beforeRoot afterRoot : Z) : bool :=
  negb (Bool.eqb (negb (has_flag flags 1)) (beforeLength =? 0)) || negb (Bool.eqb (negb (has_flag flags 2)) (afterLength =? 0))
  || (has_flag flags 4 && ((beforeRoot <? 2) || negb (beforeLength =? 0))) || (negb (has_flag flags 4) && negb (beforeRoot =? 0))
  || (has_flag flags 8 && ((afterRoot <? 2) || negb (afterLength =? 0))) || (negb (has_flag flags 8) && negb (afterRoot =? 0)).

Definition decodeCommitChange (encoded : bytes) : result CommitChange :=
  if (zlen encoded <? 52) || (maxCommitValueBytes <? zlen encoded)
     || negb (Z.land (le_dec (sub encoded 5 6)) 0xf0 =? 0) || negb (all_zero (sub encoded 50 52)) then Err ErrCorrupt
  else
    let collectionID := le_dec (sub encoded 0 4) in
    let operation := le_dec (sub encoded 4 5) in
    let documentID := sub encoded 8 24 in
    if (collectionID =? 0) || (operation <? CommitInsert) || (CommitCatalog <? operation) then Err ErrCorrupt
    else if negb (operation =? CommitCatalog) && all_zero documentID then Err ErrCorrupt
    else
      let flags := le_dec (sub encoded 5 6) in
      let pathCount := le_dec (sub encoded 6 8) in
      let beforeLength := le_dec (sub encoded 24 28) in
      let afterLength := le_dec (sub encoded 28 32) in
      let beforeRoot := le_dec (sub encoded 32 40) in
      let afterRoot := le_dec (sub encoded 40 48) in
      let nameLength := le_dec (sub encoded 48 50) in
      if badVersions flags beforeLength afterLength beforeRoot afterRoot then Err ErrCorrupt
      else if (128 <? nameLength) || (zlen encoded <? 52 + nameLength) then Err ErrCorrupt
      else
        let name := sub encoded 52 (52 + nameLength) in
        if (0 <? nameLength) && (negb (operation =? CommitCatalog) || negb (validCollectionName name)) then Err ErrCorrupt
        else
          let* (paths, offset) := decodePaths (Z.to_nat pathCount) encoded (52 + nameLength) None in
          if negb (beforeLength + afterLength =? zlen encoded - offset) then Err ErrCorrupt
          else Ok (mk_CommitChange collectionID name documentID operation paths
                     (sub encoded offset (offset + beforeLength)) (sub encoded (offset + beforeLength) (zlen encoded))
                     (version_ref flags 4 beforeRoot documentID) (version_ref flags 8 afterRoot documentID)).

(** [commitKey]: the sequence, then the ordinal within the batch. *)
Definition commitKey (sequence ordinal : Z) : bytes := be_enc 8 sequence ++ be_enc 4 ordinal.

(** ** Normalised paths *)

Lemma insert_string_first x l : StronglySorted blt (x :: l) -> insert_string x l = x :: l.
Proof.
  intros Hs. destruct l as [|y l]; [done|]. apply StronglySorted_inv in Hs as [_ Hx]. apply Forall_cons in Hx as [Hx _].
  cbn [insert_string]. destruct (bltb y x) eqn:E; [|done]. apply bltb_lt in E. by apply blt_asym in E.
Qed.

Lemma sort_strings_id l : StronglySorted blt l -> sort_strings l = l.
Proof.
  induction l as [|x l IH]; intros Hs; [done|]. change (sort_strings (x :: l)) with (insert_string x (sort_strings l)).
  rewrite IH by (by apply StronglySorted_inv in Hs as [? _]). by apply insert_string_first.
Qed.

(** What may follow [previous]. *)
Definition after (R : bytes -> bytes -> Prop) (previous : option bytes) (l : list bytes) : Prop :=
  match previous with Some p => Forall (R p) l | None => True end.

Lemma dropRepeats_strict previous l :
  StronglySorted (fun a b => ~ blt b a) l -> after (fun a b => ~ blt b a) previous l ->
  StronglySorted blt (dropRepeats previous l) /\ after blt previous (dropRepeats previous l) /\
  (forall x, x ∈ dropRepeats previous l -> x ∈ l).
Proof.
  revert previous; induction l as [|x l IH]; intros previous Hs Ha; cbn [dropRepeats].
  { split; [constructor|]. split; [by destruct previous; cbn|done]. }
  apply StronglySorted_inv in Hs as [Hs Hx].
  assert (Hkeep : after blt previous [x] -> StronglySorted blt (x :: dropRepeats (Some x) l) /\
    after blt previous (x :: dropRepeats (Some x) l) /\ (forall y, y ∈ x :: dropRepeats (Some x) l -> y ∈ x :: l)).
  { intros Hp. destruct (IH (Some x) Hs Hx) as (H1 & H2 & H3). cbn [after] in H2. split; [by constructor|]. split.
    - destruct previous as [p|]; [|done]. cbn in Hp |- *. apply Forall_cons in Hp as [Hp _]. constructor; [done|].
      eapply Forall_impl; [exact H2|]. intros y Hy. by etransitivity.
    - intros y [->|Hy]%elem_of_cons; [by left|right; by apply H3]. }
  destruct previous as [p|]; [|by apply Hkeep]. cbn [after] in Ha. apply Forall_cons in Ha as [Hpx Ha].
  destruct (beqb p x) eqn:E.
  - apply beqb_eq in E as ->. destruct (IH (Some x) Hs Hx) as (H1 & H2 & H3). split; [done|]. split; [done|].
    intros y Hy. right. by apply H3.
  - apply beqb_neq in E. apply Hkeep. cbn. constructor; [|constructor].
    destruct (blt_trichotomy p x) as [?|[?|?]]; [done|done|done].
Qed.

Lemma dropRepeats_id previous l : StronglySorted blt l -> after blt previous l -> dropRepeats previous l = l.
Proof.
  revert previous; induction l as [|x l IH]; intros previous Hs Ha; cbn [dropRepeats]; [done|].
  apply StronglySorted_inv in Hs as [Hs Hx]. rewrite (IH (Some x)) by done. destruct previous as [p|]; [|done].
  cbn in Ha. apply Forall_cons in Ha as [Hp _]. destruct (beqb p x) eqn:E; [|done]. apply beqb_eq in E as ->.
  by apply blt_irrefl in Hp.
Qed.

Lemma dropRepeats_elem previous l x :
  x ∈ l -> x ∈ dropRepeats previous l \/ previous = Some x.
Proof.
  revert previous; induction l as [|y l IH]; intros previous Hx; [by apply elem_of_nil in Hx|]. cbn [dropRepeats].
  assert (Hkeep : x ∈ y :: dropRepeats (Some y) l).
  { apply elem_of_cons in Hx as [->|Hx]; [by left|]. destruct (IH (Some y) Hx) as [?|[= ->]]; [by right|by left]. }
  destruct previous as [p|]; [|by left]. destruct (beqb p y) eqn:E; [|by left]. apply beqb_eq in E as ->.
  apply elem_of_cons in Hx as [->|Hx]; [by right|]. by apply IH.
Qed.

Lemma normalizeChangedPaths_spec paths l :
  normalizeChangedPaths paths = Ok l ->
  zlen l <= 65535 /\ forallb validChangedPath l = true /\ StronglySorted blt l /\ (forall x, x ∈ l <-> x ∈ paths).
Proof.
  unfold normalizeChangedPaths. destruct (Z.ltb_spec 65535 (zlen paths)); [done|]. destruct (forallb validChangedPath paths) eqn:Hv; [|done].
  cbn [negb]. intros <-%Ok_inj. destruct (dropRepeats_strict None (sort_strings paths) (sort_strings_sorted paths) I) as (Hs & _ & Hsub).
  assert (Hiff : forall x, x ∈ dropRepeats None (sort_strings paths) <-> x ∈ paths).
  { intros x. split; [intros Hx%Hsub; by rewrite sort_strings_Permutation in Hx|]. intros Hx.
    destruct (dropRepeats_elem None (sort_strings paths) x) as [?|?]; [by rewrite sort_strings_Permutation|done|done]. }
  split; [|split; [|done]].
  - assert (Hnd : NoDup (dropRepeats None (sort_strings paths))) by (by apply strictly_sorted_NoDup).
    apply (NoDup_submseteq _ paths) in Hnd; [|intros x; apply Hiff]. apply submseteq_length in Hnd. unfold zlen in *. lia.
  - apply forallb_forall. intros x Hx%list_elem_of_In%Hiff%list_elem_of_In. rewrite forallb_forall in Hv. by apply Hv.
Qed.

Lemma normalizeChangedPaths_id l :
  zlen l <= 65535 -> forallb validChangedPath l = true -> StronglySorted blt l -> normalizeChangedPaths l = Ok l.
Proof.
  intros Hl Hv Hs. unfold normalizeChangedPaths. destruct (Z.ltb_spec 65535 (zlen l)); [lia|]. rewrite Hv. cbn [negb].
  by rewrite sort_strings_id, dropRepeats_id.
Qed.

(** ** Images *)

Definition paths_image (paths : list bytes) : bytes := concat ((fun path => le_enc 2 (zlen path) ++ path) <$> paths).

Lemma paths_image_cons path paths : paths_image (path :: paths) = (le_enc 2 (zlen path) ++ path) ++ paths_image paths.
Proof. done. Qed.

Lemma addPathSizes_ok size paths s :
  addPathSizes size paths = Ok s -> s = size + zlen (paths_image paths).
Proof.
  revert size; induction paths as [|path paths IH]; intros size; cbn [addPathSizes].
  - intros <-%Ok_inj. change (zlen (paths_image [])) with 0. lia.
  - destruct (_ <? size); [done|]. intros ->%IH. rewrite paths_image_cons. zlens. lia.
Qed.

Lemma addPathSizes_fits size paths :
  size + zlen (paths_image paths) <= maxCommitValueBytes -> addPathSizes size paths = Ok (size + zlen (paths_image paths)).
Proof.
  revert size; induction paths as [|path paths IH]; intros size; cbn [addPathSizes].
  - change (zlen (paths_image [])) with 0. intros _. f_equal. lia.
  - rewrite paths_image_cons. zlens. intros H. pose proof (zlen_nonneg (paths_image paths)). pose proof (zlen_nonneg path).
    destruct (Z.ltb_spec (maxCommitValueBytes - 2 - zlen path) size); [lia|]. rewrite IH by lia. f_equal. lia.
Qed.

Lemma putPaths_image pre n paths :
  zlen (paths_image paths) <= n ->
  putPaths (pre ++ zeros n) (zlen pre) paths =
    ((pre ++ paths_image paths) ++ zeros (n - zlen (paths_image paths)), zlen (pre ++ paths_image paths)).
Proof.
  revert pre n; induction paths as [|path paths IH]; intros pre n Hn; cbn [putPaths].
  { change (paths_image []) with (@nil byte). change (zlen (@nil byte)) with 0. by rewrite !app_nil_r, Z.sub_0_r. }
  rewrite paths_image_cons in *. rewrite !zlen_app, !zlen_le_enc in Hn. pose proof (zlen_nonneg (paths_image paths)).
  pose proof (zlen_nonneg path).
  assert (Hput : put (put (pre ++ zeros n) (zlen pre) (le_enc 2 (zlen path))) (zlen pre + 2) path =
    (pre ++ le_enc 2 (zlen path) ++ path) ++ zeros (n - 2 - zlen path)).
  { rewrite put_app_r by lia. rewrite put_zeros_here by (rewrite ?zlen_le_enc; lia).
    rewrite put_app_r by lia. rewrite put_app_r by (rewrite ?zlen_le_enc; lia).
    rewrite put_zeros_here by (rewrite ?zlen_le_enc; lia). rewrite zlen_le_enc, <- !app_assoc. do 4 f_equal; lia. }
  rewrite Hput. replace (zlen pre + 2 + zlen path) with (zlen (pre ++ le_enc 2 (zlen path) ++ path)) by (zlens; lia).
  rewrite IH by lia. rewrite !zlen_app, zlen_le_enc, <- !app_assoc. f_equal; [|lia]. do 5 f_equal. lia.
Qed.

Definition change_image (change : CommitChange) (paths : list bytes) : bytes :=
  le_enc 4 (ch_CollectionID change) ++ le_enc 1 (ch_Operation change) ++ le_enc 1 (changeFlags change)
  ++ le_enc 2 (zlen paths) ++ ch_DocumentID change ++ le_enc 4 (zlen (ch_Before change)) ++ le_enc 4 (zlen (ch_After change))
  ++ le_enc 8 (versionRoot (ch_BeforeRef change)) ++ le_enc 8 (versionRoot (ch_AfterRef change))
  ++ le_enc 2 (zlen (ch_CollectionName change)) ++ zeros 2 ++ ch_CollectionName change ++ paths_image paths
  ++ ch_Before change ++ ch_After change.

Lemma zlen_change_image change paths :
  zlen (ch_DocumentID change) = 16 ->
  zlen (change_image change paths) = 52 + zlen (ch_CollectionName change) + zlen (paths_image paths) + zlen (ch_Before change) + zlen (ch_After change).
Proof. intros Hid. unfold change_image. zlens. rewrite zlen_zeros by lia. lia. Qed.

Lemma encodeCommitChange_image change encoded :
  zlen (ch_DocumentID change) = 16 ->
  encodeCommitChange change = Ok encoded <->
  validCommitChange change = true /\ exists paths, normalizeChangedPaths (ch_ChangedPaths change) = Ok paths /\
    zlen (change_image change paths) <= maxCommitValueBytes /\ encoded = change_image change paths.
Proof.
  intros Hid. unfold encodeCommitChange. destruct (validCommitChange change); cbn [negb]; [|split; [done|by intros []]].
  destruct (normalizeChangedPaths _) as [paths|e]; cbn [rbind].
  2: { split; [done|]. by intros (_ & paths & ? & _). }
  assert (Hbody : forall size, size = zlen (change_image change paths) ->
    (let result := zeros size in
     let result := put result 0 (le_enc 4 (ch_CollectionID change)) in
     let result := put result 4 (le_enc 1 (ch_Operation change)) in
     let result := put result 5 (le_enc 1 (changeFlags change)) in
     let result := put result 6 (le_enc 2 (zlen paths)) in
     let result := put result 8 (ch_DocumentID change) in
     let result := put result 24 (le_enc 4 (zlen (ch_Before change))) in
     let result := put result 28 (le_enc 4 (zlen (ch_After change))) in
     let result := put result 32 (le_enc 8 (versionRoot (ch_BeforeRef change))) in
     let result := put result 40 (le_enc 8 (versionRoot (ch_AfterRef change))) in
     let result := put result 48 (le_enc 2 (zlen (ch_CollectionName change))) in
     let result := put result 52 (ch_CollectionName change) in
     let '(result, offset) := putPaths result (52 + zlen (ch_CollectionName change)) paths in
     let result := put result offset (ch_Before change) in
     Ok (put result (offset + zlen (ch_Before change)) (ch_After change))) = Ok (change_image change paths)).
  { intros size ->. rewrite zlen_change_image by done. cbv zeta.
    pose proof (zlen_nonneg (ch_CollectionName change)). pose proof (zlen_nonneg (ch_Before change)).
    pose proof (zlen_nonneg (ch_After change)). pose proof (zlen_nonneg (paths_image paths)).
    set (head := le_enc 4 (ch_CollectionID change) ++ le_enc 1 (ch_Operation change) ++ le_enc 1 (changeFlags change)
      ++ le_enc 2 (zlen paths) ++ ch_DocumentID change ++ le_enc 4 (zlen (ch_Before change)) ++ le_enc 4 (zlen (ch_After change))
      ++ le_enc 8 (versionRoot (ch_BeforeRef change)) ++ le_enc 8 (versionRoot (ch_AfterRef change))
      ++ le_enc 2 (zlen (ch_CollectionName change)) ++ zeros 2 ++ ch_CollectionName change).
    match goal with |- (let '(_, _) := putPaths ?p _ _ in _) = _ =>
      assert (p = head ++ zeros (zlen (paths_image paths) + zlen (ch_Before change) + zlen (ch_After change))) as -> end.
    { unfold head. layout. same_layout. }
    assert (Hh : 52 + zlen (ch_CollectionName change) = zlen head).
    { unfold head. zlens. rewrite zlen_zeros by lia. lia. }
    rewrite Hh, putPaths_image by lia. rewrite put_app_r by lia. rewrite put_zeros_here by lia.
    rewrite put_app_r by lia. rewrite put_app_r by lia. rewrite put_zeros_here by lia. f_equal.
    unfold head, change_image. rewrite <- !app_assoc. same_layout. }
  split.
  - intros He. inv_ok. apply addPathSizes_ok in Hok. destruct (Z.ltb_spec maxCommitValueBytes a); [done|].
    assert (Ha : a = zlen (change_image change paths)) by (rewrite zlen_change_image by done; lia).
    rewrite Hbody in He by done. injection He as <-. split; [done|]. exists paths. split; [done|]. split; [lia|done].
  - intros (_ & p & [= <-] & Hfit & ->). rewrite zlen_change_image in Hfit by done.
    rewrite addPathSizes_fits by lia. cbn [rbind]. destruct (Z.ltb_spec maxCommitValueBytes
      (52 + zlen (ch_CollectionName change) + zlen (ch_Before change) + zlen (ch_After change) + zlen (paths_image paths))); [lia|].
    apply Hbody. rewrite zlen_change_image by done. lia.
Qed.

(** ** Reading an image back *)

(** What decoding asks of paths; unlike encoding it lets a zero byte pass. *)
Definition path_shape (path : bytes) : bool := negb ((zlen path =? 0) || (1024 <? zlen path) || negb (utf8_valid path)).

Definition paths_ok (paths : list bytes) : Prop :=
  zlen paths <= 65535 /\ Forall (fun p => path_shape p = true) paths /\ StronglySorted blt paths.

Lemma decodePaths_image paths pre suf previous :
  Forall (fun p => path_shape p = true) paths -> StronglySorted blt paths -> after blt previous paths ->
  decodePaths (length paths) (pre ++ paths_image paths ++ suf) (zlen pre) previous =
    Ok (paths, zlen pre + zlen (paths_image paths)).
Proof.
  revert pre previous; induction paths as [|path paths IH]; intros pre previous Hp Hs Ha; cbn [length decodePaths].
  { change (zlen (paths_image [])) with 0. do 2 f_equal. lia. }
  apply Forall_cons in Hp as [Hpath Hp]. apply StronglySorted_inv in Hs as [Hs Hx]. unfold path_shape in Hpath. breflect.
  pose proof (zlen_nonneg path). pose proof (zlen_nonneg suf). pose proof (zlen_nonneg (paths_image paths)).
  rewrite paths_image_cons, <- !app_assoc. set (tail := path ++ paths_image paths ++ suf).
  assert (Ht : zlen tail = zlen path + zlen (paths_image paths) + zlen suf) by (unfold tail; zlens; lia).
  destruct (Z.ltb_spec (zlen (pre ++ le_enc 2 (zlen path) ++ tail)) (zlen pre + 2)) as [Hl|_]; [zlens; lia|].
  rewrite (sub_mid pre) by (rewrite ?zlen_le_enc; lia). rewrite le_dec_u16 by (unfold u16; lia).
  destruct (Z.eqb_spec (zlen path) 0); [done|]. destruct (Z.ltb_spec 1024 (zlen path)); [lia|].
  destruct (Z.ltb_spec (zlen (pre ++ le_enc 2 (zlen path) ++ tail)) (zlen pre + 2 + zlen path)) as [Hl|_]; [zlens; lia|].
  assert (Hsub : sub (pre ++ le_enc 2 (zlen path) ++ tail) (zlen pre + 2) (zlen pre + 2 + zlen path) = path).
  { unfold tail. rewrite (app_assoc pre). apply sub_mid; rewrite ?zlen_app, ?zlen_le_enc; lia. }
  rewrite Hsub. match goal with H : utf8_valid path = true |- _ => rewrite H end. cbn [negb orb].
  assert (match previous with Some p => negb (bltb p path) | None => false end = false) as ->.
  { destruct previous as [p|]; [|done]. cbn in Ha. apply Forall_cons in Ha as [Hlt _]. apply bltb_lt in Hlt. by rewrite Hlt. }
  replace (pre ++ le_enc 2 (zlen path) ++ tail) with ((pre ++ le_enc 2 (zlen path) ++ path) ++ paths_image paths ++ suf)
    by (unfold tail; by rewrite <- !app_assoc).
  replace (zlen pre + 2 + zlen path) with (zlen (pre ++ le_enc 2 (zlen path) ++ path)) by (zlens; lia).
  rewrite IH by done. cbn [rbind]. do 2 f_equal. zlens. lia.
Qed.

Lemma decodePaths_sound n encoded offset previous paths offset' :
  0 <= offset <= zlen encoded -> decodePaths n encoded offset previous = Ok (paths, offset') ->
  length paths = n /\ Forall (fun p => path_shape p = true) paths /\ StronglySorted blt paths /\ after blt previous paths /\
  offset' = offset + zlen (paths_image paths) /\ offset' <= zlen encoded /\ sub encoded offset offset' = paths_image paths.
Proof.
  revert offset previous paths; induction n as [|n IH]; intros offset previous paths Ho; cbn [decodePaths].
  { intros [= <- <-]. change (zlen (paths_image [])) with 0. split; [done|]. split; [constructor|]. split; [constructor|].
    split; [by destruct previous; cbn|]. split; [lia|]. split; [lia|].
    unfold sub. rewrite Z.sub_diag. by rewrite take_0. }
  destruct (Z.ltb_spec (zlen encoded) (offset + 2)); [done|]. set (len := le_dec (sub encoded offset (offset + 2))).
  destruct (_ || _) eqn:E; [done|]. breflect. set (path := sub encoded (offset + 2) (offset + 2 + len)) in *.
  destruct (match previous with Some p => negb (bltb p path) | None => false end) eqn:Ep; [done|].
  intros Hd. inv_ok. destruct a as [rest off2]. injection Hd as <- <-.
  assert (Hr : u16 len) by (apply field_u16; lia). unfold u16 in Hr.
  assert (Hz : zlen path = len) by (unfold path; rewrite zlen_sub; lia).
  apply IH in Hok as (Hn & Hps & Hss & Haf & -> & Hle & Hsub); [|lia]. cbn [after] in Haf.
  split; [cbn; by rewrite Hn|]. split; [constructor; [|done]|split; [by constructor|split; [|split; [|split; [done|]]]]].
  - unfold path_shape. rewrite Hz. bgoal; [done|done|]. by match goal with H : utf8_valid _ = true |- _ => rewrite H end.
  - destruct previous as [p|]; [|done]. cbn. apply negb_false_iff, bltb_lt in Ep. constructor; [done|].
    eapply Forall_impl; [exact Haf|]. intros y Hy. by etransitivity.
  - rewrite paths_image_cons. zlens. lia.
  - pose proof (zlen_nonneg (paths_image rest)).
    set (hi := offset + 2 + len + zlen (paths_image rest)) in *. rewrite paths_image_cons, <- Hsub.
    rewrite (sub_split encoded offset (offset + 2 + len)) by lia. f_equal.
    rewrite (sub_split encoded offset (offset + 2)) by lia. rewrite Hz. f_equal. apply le_field_eq; [lia|lia|lia|done].
Qed.

(** ** Flags *)

Lemma flags_split z :
  0 <= z < 256 -> Z.land z 0xf0 = 0 ->
  z = Z.lor (Z.lor (Z.lor (flag (has_flag z 1) 1) (flag (has_flag z 2) 2)) (flag (has_flag z 4) 4)) (flag (has_flag z 8) 8).
Proof.
  intros Hz Hl.
  assert (Hall : forallb (fun n => let z := Z.of_nat n in negb (Z.land z 0xf0 =? 0) ||
    (z =? Z.lor (Z.lor (Z.lor (flag (has_flag z 1) 1) (flag (has_flag z 2) 2)) (flag (has_flag z 4) 4)) (flag (has_flag z 8) 8)))
    (seq 0 256) = true) by (vm_compute; reflexivity).
  rewrite forallb_forall in Hall. specialize (Hall (Z.to_nat z)). cbv zeta in Hall. rewrite Z2Nat.id in Hall by lia.
  rewrite Hl in Hall. cbn [Z.eqb negb orb] in Hall. apply Z.eqb_eq, Hall, in_seq. lia.
Qed.

Lemma changeFlags_bits change :
  0 <= changeFlags change < 16 /\ has_flag (changeFlags change) 1 = (0 <? zlen (ch_Before change)) /\
  has_flag (changeFlags change) 2 = (0 <? zlen (ch_After change)) /\
  has_flag (changeFlags change) 4 = is_some (ch_BeforeRef change) /\ has_flag (changeFlags change) 8 = is_some (ch_AfterRef change).
Proof.
  unfold changeFlags. destruct (0 <? zlen (ch_Before change)), (0 <? zlen (ch_After change)), (ch_BeforeRef change), (ch_AfterRef change);
    vm_compute; repeat split; done.
Qed.

(** ** The codec *)

(** The widths of the Go fields. *)
Definition change_ok (c : CommitChange) : Prop :=
  u32 (ch_CollectionID c) /\ zlen (ch_DocumentID c) = 16 /\ u64 (versionRoot (ch_BeforeRef c)) /\ u64 (versionRoot (ch_AfterRef c)).

Lemma change_image_fields c paths :
  zlen (ch_DocumentID c) = 16 ->
  let e := change_image c paths in
  sub e 0 4 = le_enc 4 (ch_CollectionID c) /\ sub e 4 5 = le_enc 1 (ch_Operation c) /\ sub e 5 6 = le_enc 1 (changeFlags c) /\
  sub e 6 8 = le_enc 2 (zlen paths) /\ sub e 8 24 = ch_DocumentID c /\ sub e 24 28 = le_enc 4 (zlen (ch_Before c)) /\
  sub e 28 32 = le_enc 4 (zlen (ch_After c)) /\ sub e 32 40 = le_enc 8 (versionRoot (ch_BeforeRef c)) /\
  sub e 40 48 = le_enc 8 (versionRoot (ch_AfterRef c)) /\ sub e 48 50 = le_enc 2 (zlen (ch_CollectionName c)) /\
  sub e 50 52 = zeros 2 /\ sub e 52 (52 + zlen (ch_CollectionName c)) = ch_CollectionName c.
Proof.
  intros Hid. pose proof (zlen_nonneg (ch_CollectionName c)). unfold change_image. cbv zeta.
  repeat split; slice; reflexivity.
Qed.

Lemma validCommitChange_spec c :
  validCommitChange c = true <->
  ch_CollectionID c <> 0 /\ 1 <= ch_Operation c <= 4 /\ zlen (ch_Before c) <= maxCommitValueBytes /\
  zlen (ch_After c) <= maxCommitValueBytes /\ (ch_Operation c <> 4 -> all_zero (ch_DocumentID c) = false /\ ch_CollectionName c = []) /\
  (ch_CollectionName c <> [] -> validCollectionName (ch_CollectionName c) = true) /\
  valid_version_ref (ch_DocumentID c) (ch_Before c) (ch_BeforeRef c) = true /\
  valid_version_ref (ch_DocumentID c) (ch_After c) (ch_AfterRef c) = true.
Proof.
  unfold validCommitChange, CommitCatalog, CommitInsert. rewrite !andb_true_iff, !negb_true_iff, !orb_false_iff, !andb_false_iff, !negb_false_iff.
  rewrite !Z.ltb_ge, !Z.eqb_neq, !Z.eqb_eq, !zlen_0.
  assert (Hd : all_zero (ch_DocumentID c) = false \/ ~ all_zero (ch_DocumentID c) = false) by (destruct (all_zero _); auto).
  split.
  - intros (((( [[[[? ?] ?] ?] ?] & Hc) & [Hn Hm]) & Hr1) & Hr2). split; [done|]. split; [lia|]. do 2 (split; [done|]).
    split; [|split; [|by split]].
    + intros Hne. split; [by destruct Hc|by destruct Hn].
    + intros Hne. by destruct Hm.
  - intros (? & ? & ? & ? & Hc & Hm & ? & ?). repeat split; try done; try lia.
    + destruct (Z.eq_dec (ch_Operation c) 4) as [|Hne]; [by left|right; by apply Hc].
    + destruct (Z.eq_dec (ch_Operation c) 4) as [|Hne]; [by left|right; by apply Hc].
    + destruct (ch_CollectionName c); [by left|right; by apply Hm].
Qed.

Lemma badVersions_valid c :
  valid_version_ref (ch_DocumentID c) (ch_Before c) (ch_BeforeRef c) = true ->
  valid_version_ref (ch_DocumentID c) (ch_After c) (ch_AfterRef c) = true ->
  badVersions (changeFlags c) (zlen (ch_Before c)) (zlen (ch_After c)) (versionRoot (ch_BeforeRef c)) (versionRoot (ch_AfterRef c)) = false.
Proof.
  intros Hb Ha. destruct (changeFlags_bits c) as (_ & H1 & H2 & H4 & H8). unfold badVersions. rewrite H1, H2, H4, H8.
  assert (Hz : forall l : bytes, Bool.eqb (negb (0 <? zlen l)) (zlen l =? 0) = true).
  { intros l. pose proof (zlen_nonneg l). destruct (Z.ltb_spec 0 (zlen l)), (Z.eqb_spec (zlen l) 0); try lia; done. }
  rewrite !Hz. cbn [negb orb]. unfold valid_version_ref in Hb, Ha.
  destruct (ch_BeforeRef c) as [b|], (ch_AfterRef c) as [a|]; cbn [is_some versionRoot negb andb orb Z.eqb]; breflect;
    repeat match goal with H : zlen _ = 0 |- _ => rewrite H end;
    repeat match goal with |- context [?r <? 2] => destruct (Z.ltb_spec r 2); [lia|] end; done.
Qed.

Lemma version_ref_valid (c : CommitChange) (documentID image : bytes) ref bit :
  valid_version_ref documentID image ref = true -> has_flag (changeFlags c) bit = is_some ref ->
  version_ref (changeFlags c) bit (versionRoot ref) documentID = ref.
Proof.
  intros Hv Hf. unfold version_ref. rewrite Hf. destruct ref as [[root id]|]; [|done]. cbn in Hv |- *. breflect.
  match goal with H : beqb _ _ = true |- _ => by apply beqb_eq in H as -> end.
Qed.

(** Decoding an image. *)
Lemma decodeCommitChange_image c :
  change_ok c -> validCommitChange c = true -> paths_ok (ch_ChangedPaths c) ->
  zlen (change_image c (ch_ChangedPaths c)) <= maxCommitValueBytes ->
  decodeCommitChange (change_image c (ch_ChangedPaths c)) = Ok c.
Proof.
  intros (Hu & Hid & Hr1 & Hr2) Hv (Hpl & Hps & Hpo) Hfit. pose proof (zlen_change_image c (ch_ChangedPaths c) Hid) as Hz.
  destruct (change_image_fields c (ch_ChangedPaths c) Hid) as (E0 & E4 & E5 & E6 & E8 & E24 & E28 & E32 & E40 & E48 & E50 & E52).
  pose proof Hv as (Hc0 & Hop & Hmb & Hma & Hdoc & Hname & Hbr & Har)%validCommitChange_spec.
  pose proof (zlen_nonneg (ch_CollectionName c)). pose proof (zlen_nonneg (ch_Before c)). pose proof (zlen_nonneg (ch_After c)).
  pose proof (zlen_nonneg (paths_image (ch_ChangedPaths c))). pose proof (zlen_nonneg (ch_ChangedPaths c)).
  pose proof (changeFlags_bits c) as (Hfl & _ & _ & Hf4 & Hf8). change maxCommitValueBytes with 67108864 in *.
  assert (Hnl : zlen (ch_CollectionName c) <= 128).
  { destruct (ch_CollectionName c) as [|x l] eqn:En; [change (zlen (@nil byte)) with 0; lia|].
    assert (Hn : validCollectionName (x :: l) = true) by by apply Hname. unfold validCollectionName in Hn. breflect. lia. }
  unfold decodeCommitChange. rewrite E0, E4, E5, E6, E8, E24, E28, E32, E40, E48, E50.
  rewrite !le_dec_u32 by (first [done|unfold u32; lia]). rewrite !le_dec_u64 by done. rewrite !le_dec_u16 by (unfold u16; lia).
  rewrite !(le_dec_enc 1) by lia. rewrite E52. change (all_zero (zeros 2)) with true. cbn [negb orb].
  assert (Hland : Z.land (changeFlags c) 0xf0 = 0).
  { assert (Hall : forallb (fun n => Z.land (Z.of_nat n) 0xf0 =? 0) (seq 0 16) = true) by (vm_compute; reflexivity).
    rewrite forallb_forall in Hall. specialize (Hall (Z.to_nat (changeFlags c))). rewrite Z2Nat.id in Hall by lia.
    apply Z.eqb_eq, Hall, in_seq. lia. }
  rewrite Hland. change maxCommitValueBytes with 67108864. destruct (Z.ltb_spec (zlen (change_image c (ch_ChangedPaths c))) 52); [lia|].
  destruct (Z.ltb_spec 67108864 (zlen (change_image c (ch_ChangedPaths c)))); [lia|]. cbn [negb orb Z.eqb].
  destruct (Z.eqb_spec (ch_CollectionID c) 0); [done|]. unfold CommitInsert, CommitCatalog.
  destruct (Z.ltb_spec (ch_Operation c) 1); [lia|]. destruct (Z.ltb_spec 4 (ch_Operation c)); [lia|]. cbn [orb].
  assert (negb (ch_Operation c =? 4) && all_zero (ch_DocumentID c) = false) as ->.
  { destruct (Z.eqb_spec (ch_Operation c) 4); [done|]. by destruct Hdoc as [-> _]. }
  rewrite badVersions_valid by done. destruct (Z.ltb_spec 128 (zlen (ch_CollectionName c))); [lia|].
  destruct (Z.ltb_spec (zlen (change_image c (ch_ChangedPaths c))) (52 + zlen (ch_CollectionName c))); [lia|]. cbn [orb].
  assert ((0 <? zlen (ch_CollectionName c)) && (negb (ch_Operation c =? 4) || negb (validCollectionName (ch_CollectionName c))) = false) as ->.
  { destruct (Z.ltb_spec 0 (zlen (ch_CollectionName c))) as [Hlt|]; [|done]. cbn [andb].
    assert (Hne : ch_CollectionName c <> []) by (intros E; rewrite E in Hlt; change (zlen (@nil byte)) with 0 in Hlt; lia).
    rewrite Hname by done. destruct (Z.eqb_spec (ch_Operation c) 4) as [|Ho]; [done|]. by destruct Hdoc as [_ Hn]. }
  set (head := le_enc 4 (ch_CollectionID c) ++ le_enc 1 (ch_Operation c) ++ le_enc 1 (changeFlags c)
      ++ le_enc 2 (zlen (ch_ChangedPaths c)) ++ ch_DocumentID c ++ le_enc 4 (zlen (ch_Before c)) ++ le_enc 4 (zlen (ch_After c))
      ++ le_enc 8 (versionRoot (ch_BeforeRef c)) ++ le_enc 8 (versionRoot (ch_AfterRef c))
      ++ le_enc 2 (zlen (ch_CollectionName c)) ++ zeros 2 ++ ch_CollectionName c).
  assert (Hcut : change_image c (ch_ChangedPaths c) = head ++ paths_image (ch_ChangedPaths c) ++ ch_Before c ++ ch_After c)
    by (unfold head, change_image; by rewrite <- !app_assoc).
  assert (Hh : 52 + zlen (ch_CollectionName c) = zlen head) by (unfold head; zlens; rewrite zlen_zeros by lia; lia).
  rewrite Hh, Hcut. replace (Z.to_nat (zlen (ch_ChangedPaths c))) with (length (ch_ChangedPaths c)) by (unfold zlen; lia).
  rewrite decodePaths_image by done. cbn [rbind]. rewrite <- Hcut, Hz.
  set (offset := zlen head + zlen (paths_image (ch_ChangedPaths c))).
  destruct (Z.eqb_spec (zlen (ch_Before c) + zlen (ch_After c)) (52 + zlen (ch_CollectionName c) + zlen (paths_image (ch_ChangedPaths c)) + zlen (ch_Before c) + zlen (ch_After c) - offset)); [|unfold offset in *; lia].
  cbn [negb]. rewrite (version_ref_valid c _ (ch_Before c)), (version_ref_valid c _ (ch_After c)) by done.
  assert (Hsb : sub (change_image c (ch_ChangedPaths c)) offset (offset + zlen (ch_Before c)) = ch_Before c).
  { rewrite Hcut, (app_assoc head). apply sub_mid; unfold offset; rewrite ?zlen_app; lia. }
  assert (Hsa : sub (change_image c (ch_ChangedPaths c)) (offset + zlen (ch_Before c))
    (52 + zlen (ch_CollectionName c) + zlen (paths_image (ch_ChangedPaths c)) + zlen (ch_Before c) + zlen (ch_After c)) = ch_After c).
  { rewrite Hcut, (app_assoc head), (app_assoc (head ++ _)), <- (app_nil_r (ch_After c)) at 1.
    apply sub_mid; unfold offset; rewrite ?zlen_app; lia. }
  rewrite Hsb, Hsa. by destruct c.
Qed.

Lemma has_flag_length flags bit (l : bytes) :
  Bool.eqb (negb (has_flag flags bit)) (zlen l =? 0) = true -> has_flag flags bit = (0 <? zlen l).
Proof.
  pose proof (zlen_nonneg l). intros Hb%eqb_prop. destruct (Z.eqb_spec (zlen l) 0), (Z.ltb_spec 0 (zlen l)); try lia;
    destruct (has_flag flags bit); done.
Qed.

Lemma version_ref_sound flags bit root id (l : bytes) :
  (has_flag flags bit && ((root <? 2) || negb (zlen l =? 0))) = false -> negb (has_flag flags bit) && negb (root =? 0) = false ->
  valid_version_ref id l (version_ref flags bit root id) = true /\ versionRoot (version_ref flags bit root id) = root /\
  is_some (version_ref flags bit root id) = has_flag flags bit.
Proof.
  unfold version_ref. destruct (has_flag flags bit); cbn [andb negb valid_version_ref versionRoot is_some]; intros H1 H2.
  - split; [|done]. breflect. cbn [ref_PrimaryRoot ref_DocumentID]. rewrite beqb_refl. bgoal; [done|lia|done].
  - split; [done|]. split; [|done]. apply negb_false_iff, Z.eqb_eq in H2. by symmetry.
Qed.

Lemma decodeCommitChange_sound e c :
  decodeCommitChange e = Ok c ->
  change_ok c /\ validCommitChange c = true /\ paths_ok (ch_ChangedPaths c) /\
  zlen e <= maxCommitValueBytes /\ e = change_image c (ch_ChangedPaths c).
Proof.
  unfold decodeCommitChange. destruct (_ || _) eqn:E1; [done|]. destruct (_ || _) eqn:E2 in |- *; [done|].
  destruct (_ && _) eqn:E3 in |- *; [done|]. set (flags := le_dec (sub e 5 6)) in *. set (bl := le_dec (sub e 24 28)).
  set (al := le_dec (sub e 28 32)). set (r1 := le_dec (sub e 32 40)). set (r2 := le_dec (sub e 40 48)).
  set (nl := le_dec (sub e 48 50)). destruct (badVersions flags bl al r1 r2) eqn:E4; [done|].
  destruct (_ || _) eqn:E5 in |- *; [done|]. destruct (_ && _) eqn:E6 in |- *; [done|]. intros Hd. inv_ok.
  destruct a as [paths offset]. destruct (negb _) eqn:E7 in Hd; [done|]. apply Ok_inj in Hd. breflect.
  change maxCommitValueBytes with 67108864 in *.
  assert (Hnl : u16 nl) by (apply field_u16; lia). assert (Hbl : u32 bl) by (apply field_u32; lia). assert (Hal : u32 al) by (apply field_u32; lia).
  assert (Hr1 : u64 r1) by (apply field_u64; lia). assert (Hr2 : u64 r2) by (apply field_u64; lia).
  assert (Hpc : u16 (le_dec (sub e 6 8))) by (apply field_u16; lia). unfold u16, u32 in *.
  apply decodePaths_sound in Hok as (Hpl & Hps & Hpo & _ & Hoff & Hle & Himg); [|lia].
  pose proof (zlen_nonneg (paths_image paths)).
  assert (Hzid : zlen (sub e 8 24) = 16) by (rewrite zlen_sub; lia).
  assert (Hzb : zlen (sub e offset (offset + bl)) = bl) by (rewrite zlen_sub; lia).
  assert (Hza : zlen (sub e (offset + bl) (zlen e)) = al) by (rewrite zlen_sub; lia).
  assert (Hzn : zlen (sub e 52 (52 + nl)) = nl) by (rewrite zlen_sub; lia).
  assert (Hfl : 0 <= flags < 256) by (apply field_u8; lia).
  unfold badVersions in E4. rewrite <- Hzb, <- Hza in E4. repeat rewrite orb_false_iff in E4.
  destruct E4 as [[[[[F1 F2] F3] F4] F5] F6]. apply negb_false_iff, has_flag_length in F1, F2.
  destruct (version_ref_sound flags 4 r1 (sub e 8 24) _ F3 F4) as (V1 & R1 & S1).
  destruct (version_ref_sound flags 8 r2 (sub e 8 24) _ F5 F6) as (V2 & R2 & S2).
  assert (Hc : changeFlags c = flags).
  { rewrite <- Hd. unfold changeFlags. cbn [ch_Before ch_After ch_BeforeRef ch_AfterRef]. rewrite <- F1, <- F2, S1, S2. symmetry. by apply flags_split. }
  assert (Hop : 0 <= le_dec (sub e 4 5) < 256) by (apply field_u8; lia).
  assert (Hpz : zlen paths = le_dec (sub e 6 8)) by (unfold zlen; lia).
  split; [|split; [|split; [|split; [done|]]]].
  - rewrite <- Hd. split; [apply field_u32; lia|]. split; [done|]. cbn [ch_BeforeRef ch_AfterRef]. by rewrite R1, R2.
  - apply validCommitChange_spec. rewrite <- Hd. cbn [ch_CollectionID ch_Operation ch_Before ch_After ch_DocumentID ch_CollectionName ch_BeforeRef ch_AfterRef].
    unfold CommitInsert, CommitCatalog in *. change maxCommitValueBytes with 67108864. rewrite Hzb, Hza.
    do 4 (split; [first [done|lia]|]). split; [|split; [|done]].
    + intros Hne. apply Z.eqb_neq in Hne. rewrite Hne in E3, E6. split; [by destruct (all_zero _)|]. apply zlen_0. rewrite Hzn.
      destruct (Z.ltb_spec 0 nl); [done|lia].
    + intros Hne. destruct (Z.ltb_spec 0 nl) as [|Hn0]; [|destruct Hne; apply zlen_0; lia]. cbn [andb] in E6.
      apply orb_false_iff in E6 as [_ E6]. by apply negb_false_iff in E6.
  - rewrite <- Hd. split; [cbn [ch_ChangedPaths]; lia|done].
  - unfold change_image. rewrite Hc, <- Hd. cbn [ch_CollectionID ch_Operation ch_Before ch_After ch_DocumentID ch_CollectionName ch_BeforeRef ch_AfterRef ch_ChangedPaths].
    rewrite R1, R2, Hzb, Hza, Hzn, Hpz. unfold flags, bl, al, r1, r2, nl in *. rewrite !le_field_id by lia.
    change (zeros 2) with (zeros (52 - 50)). rewrite <- Himg, <- (all_zero_sub e 50 52) by (lia || done).
    assert (Hcut : cuts_reach 0 [4; 5; 6; 8; 24; 28; 32; 40; 48; 50; 52; 52 + le_dec (sub e 48 50); offset; offset + le_dec (sub e 24 28); zlen e] (zlen e))
      by (cbn; lia).
    rewrite (pieces_all e _ Hcut) at 1. cbn [pieces]. by rewrite app_nil_r.
Qed.

(** The change as its encoding holds it: its paths sorted, without repeats. *)
Definition normal_change (c : CommitChange) (paths : list bytes) : CommitChange :=
  mk_CommitChange (ch_CollectionID c) (ch_CollectionName c) (ch_DocumentID c) (ch_Operation c) paths (ch_Before c) (ch_After c)
    (ch_BeforeRef c) (ch_AfterRef c).

Lemma encode_decode_change c e :
  change_ok c -> encodeCommitChange c = Ok e ->
  exists paths, normalizeChangedPaths (ch_ChangedPaths c) = Ok paths /\ decodeCommitChange e = Ok (normal_change c paths).
Proof.
  intros Hok (Hv & paths & Hp & Hfit & ->)%encodeCommitChange_image; [|apply Hok]. exists paths. split; [done|].
  apply normalizeChangedPaths_spec in Hp as (Hl & Hps & Hs & Hin).
  set (c' := normal_change c paths). change (change_image c paths) with (change_image c' (ch_ChangedPaths c')).
  apply decodeCommitChange_image; [exact Hok|exact Hv| |exact Hfit]. split; [done|]. split; [|done].
  apply Forall_forall. intros p Hi%list_elem_of_In. rewrite forallb_forall in Hps. specialize (Hps p Hi).
  unfold validChangedPath in Hps. unfold path_shape. apply negb_true_iff. apply negb_true_iff, orb_false_iff in Hps. apply Hps.
Qed.

(** The size of an encoding that decodes. *)
Lemma zlen_decoded_change c e :
  decodeCommitChange e = Ok c ->
  zlen e = 52 + zlen (ch_CollectionName c) + zlen (paths_image (ch_ChangedPaths c)) + zlen (ch_Before c) + zlen (ch_After c) /\
  zlen e <= maxCommitValueBytes.
Proof.
  intros (Hok & _ & _ & Hfit & ->)%decodeCommitChange_sound. split; [apply zlen_change_image, Hok|exact Hfit].
Qed.

(** the changes read from the commit log are exactly the well-formed ones
    whose encoding was stored: what is encoded decodes to the change with its
    paths sorted and distinct, and what decodes, its paths free of zero bytes, is
    the encoding of what it decodes to. *)
Theorem commit_change_roundtrip :
  (forall change encoded paths, change_ok change -> encodeCommitChange change = Ok encoded ->
     normalizeChangedPaths (ch_ChangedPaths change) = Ok paths ->
     decodeCommitChange encoded = Ok (mk_CommitChange (ch_CollectionID change) (ch_CollectionName change) (ch_DocumentID change)
       (ch_Operation change) paths (ch_Before change) (ch_After change) (ch_BeforeRef change) (ch_AfterRef change)) /\
     StronglySorted blt paths /\ (forall path, path ∈ paths <-> path ∈ ch_ChangedPaths change)) /\
  (forall change encoded, decodeCommitChange encoded = Ok change ->
     forallb (fun path => negb (contains_byte path x00)) (ch_ChangedPaths change) = true ->
     change_ok change /\ encodeCommitChange change = Ok encoded).
Proof.
  split.
  - intros c e paths Hok He Hp'. destruct (encode_decode_change c e Hok He) as (paths' & Hp & Hd).
    assert (paths' = paths) as -> by congruence. split; [exact Hd|].
    by apply normalizeChangedPaths_spec in Hp as (_ & _ & ?).
  - intros c e (Hok & Hv & (Hl & Hps & Hs) & Hfit & ->)%decodeCommitChange_sound Hz. split; [done|].
    apply encodeCommitChange_image; [apply Hok|]. split; [done|]. exists (ch_ChangedPaths c). split; [|done].
    apply normalizeChangedPaths_id; [done| |done]. apply forallb_forall. intros p Hi. rewrite forallb_forall in Hz. specialize (Hz p Hi).
    rewrite Forall_forall in Hps. apply list_elem_of_In in Hi. specialize (Hps p Hi). unfold path_shape in Hps. unfold validChangedPath.
    apply negb_true_iff in Hps. apply negb_true_iff in Hz. by rewrite Hps, Hz.
Qed.
