(* ===== verification/IndexRecords.v ===== *)
(** * Records and keys of secondary indexes

    Index definitions ([internal/storage/index_codec.go]) and the keys of index
    trees ([indexes.go]). *)
From S2P Require Import Prelude Bytes Strings Layout Hashes PageFormat Records.
#[local] Open Scope Z_scope.

(** ** Data *)

(** [IndexField]; the direction is an [int8]. *)
Record IndexField := mk_IndexField {
  fld_Path : bytes;
  fld_Direction : Z }.

#[export] Instance IndexField_eq_dec : EqDecision IndexField.
Proof. solve_decision. Defined.

Record IndexMeta := mk_IndexMeta {
  idx_Name : bytes;
  idx_FieldPath : bytes;
  idx_Fields : list IndexField;
  idx_Unique : bool;
  idx_Root : Z;
  idx_EntryCount : Z;
  idx_CreatedSequence : Z;
  idx_UpdatedSequence : Z;
  idx_KeyCodecVersion : Z }.

Definition indexMetaHeaderBytes : Z := 64.
Definition indexKeyCodec : Z := 2.
Definition indexKeyCodecV3 : Z := 3.
Definition maxIndexFields : Z := 4.
Definition maxIndexFieldBytes : Z := 1024.
Definition MaxSecondaryScalarKeyBytes : Z := 4096 - 24.
Definition indexMetaMagic : bytes := bs "MELDIDX2".

(** ** Definitions of indexes *)

Definition validIndexName (name : bytes) : bool := validCollectionName name.

Definition validIndexFieldPath (path : bytes) : bool :=
  negb ((zlen path =? 0) || (maxIndexFieldBytes <? zlen path) || negb (utf8_valid path)) && negb (contains_byte path x00).

(** The loop over the fields, with the paths seen so far. *)
Fixpoint validIndexFields (seen : list bytes) (fields : list IndexField) : bool :=
  match fields with
  | [] => true
  | field :: fields =>
      validIndexFieldPath (fld_Path field) && ((fld_Direction field =? 1) || (fld_Direction field =? -1))
      && negb (existsb (beqb (fld_Path field)) seen) && validIndexFields (fld_Path field :: seen) fields
  end.

Definition normalizeIndexFields (fieldPath : bytes) (fields : list IndexField) : option (list IndexField) :=
  match fields with
  | [] => if validIndexFieldPath fieldPath then Some [mk_IndexField fieldPath 1] else None
  | first :: _ =>
      if (maxIndexFields <? zlen fields) || (negb (zlen fieldPath =? 0) && negb (beqb fieldPath (fld_Path first))) then None
      else if validIndexFields [] fields then Some fields else None
  end.

Definition compoundIndexFields (fields : list IndexField) : bool :=
  match fields with
  | [field] => negb (fld_Direction field =? 1)
  | _ => true
  end.

Definition validateIndexMetaFeatures (required : Z) (meta : IndexMeta) : result unit :=
  if (idx_KeyCodecVersion meta =? indexKeyCodecV3) && (Z.land required RequiredFeatureCompoundIndexes =? 0)
  then Err ErrCorrupt else Ok tt.

(** Every field is its direction, the length of its path and the path. *)
Fixpoint fieldsPayload (fields : list IndexField) : bytes :=
  match fields with
  | [] => []
  | field :: fields => z2b (fld_Direction field) :: le_enc 2 (zlen (fld_Path field)) ++ fld_Path field ++ fieldsPayload fields
  end.

Definition firstPath (fields : list IndexField) : bytes := match fields with f :: _ => fld_Path f | [] => [] end.

Definition indexCodec (meta : IndexMeta) (fields : list IndexField) : Z :=
  if idx_KeyCodecVersion meta =? 0 then if compoundIndexFields fields then indexKeyCodecV3 else indexKeyCodec
  else idx_KeyCodecVersion meta.

Definition encodeIndexMeta (meta : IndexMeta) : result bytes :=
  match normalizeIndexFields (idx_FieldPath meta) (idx_Fields meta) with
  | None => Err ErrCorrupt
  | Some fields =>
      if negb (validIndexName (idx_Name meta)) || (idx_Root meta <? 2) || (idx_CreatedSequence meta =? 0)
         || (idx_UpdatedSequence meta <? idx_CreatedSequence meta) then Err ErrCorrupt
      else
        let codec := indexCodec meta fields in
        if ((codec =? indexKeyCodec) && compoundIndexFields fields)
           || (negb (codec =? indexKeyCodec) && negb (codec =? indexKeyCodecV3)) then Err ErrCorrupt
        else
          let payload := if codec =? indexKeyCodec then firstPath fields else fieldsPayload fields in
          if (zlen payload =? 0) || (65535 <? zlen payload) then Err ErrCorrupt
          else
            let encoded := zeros (indexMetaHeaderBytes + zlen payload) in
            let encoded := put encoded 0 indexMetaMagic in
            let encoded := put encoded 8 (le_enc 2 FormatVersion) in
            let encoded := put encoded 10 (le_enc 2 indexMetaHeaderBytes) in
            let encoded := if idx_Unique meta then put encoded 12 (le_enc 1 1) else encoded in
            let encoded := put encoded 16 (le_enc 8 (idx_Root meta)) in
            let encoded := put encoded 24 (le_enc 8 (idx_EntryCount meta)) in
            let encoded := put encoded 32 (le_enc 8 (idx_CreatedSequence meta)) in
            let encoded := put encoded 40 (le_enc 8 (idx_UpdatedSequence meta)) in
            let encoded := put encoded 48 (le_enc 2 (zlen payload)) in
            let encoded := put encoded 50 (le_enc 2 codec) in
            let encoded := if codec =? indexKeyCodecV3 then put encoded 52 (le_enc 2 (zlen fields)) else encoded in
            Ok (put encoded indexMetaHeaderBytes payload)
  end.

(** An [int8] from its byte. *)
Definition to_i8 (z : Z) : Z := if z <? 128 then z else z - 256.

(** The loop over the payload; every turn consumes at least four bytes. *)
Fixpoint payloadFields (fuel : nat) (payload : bytes) (offset : Z) : result (list IndexField) :=
  match fuel with
  | O => Err ErrFuel
  | S fuel =>
      if negb (offset <? zlen payload) then Ok []
      else if zlen payload - offset <? 3 then Err ErrCorrupt
      else
        let direction := to_i8 (le_dec (sub payload offset (offset + 1))) in
        let length := le_dec (sub payload (offset + 1) (offset + 3)) in
        let offset := offset + 3 in
        if (length =? 0) || (maxIndexFieldBytes <? length) || (zlen payload <? offset + length) then Err ErrCorrupt
        else
          let* fields := payloadFields fuel payload (offset + length) in
          Ok (mk_IndexField (sub payload offset (offset + length)) direction :: fields)
  end.

(** The switch on the codec. *)
Definition decodedFields (encoded : bytes) : result (list IndexField) :=
  let codec := le_dec (sub encoded 50 52) in
  let payloadLength := le_dec (sub encoded 48 50) in
  let payload := sub encoded indexMetaHeaderBytes (zlen encoded) in
  if codec =? indexKeyCodec then
    if negb (all_zero (sub encoded 52 64)) || (maxIndexFieldBytes <? payloadLength) then Err ErrCorrupt
    else Ok [mk_IndexField payload 1]
  else if codec =? indexKeyCodecV3 then
    let fieldCount := le_dec (sub encoded 52 54) in
    if (fieldCount =? 0) || (maxIndexFields <? fieldCount) || negb (all_zero (sub encoded 54 64)) then Err ErrCorrupt
    else
      let* fields := payloadFields (S (length payload)) payload 0 in
      if negb (zlen fields =? fieldCount) then Err ErrCorrupt else Ok fields
  else Err ErrCorrupt.

Definition decodeIndexMeta (name encoded : bytes) : result IndexMeta :=
  if negb (validIndexName name) || (zlen encoded <? indexMetaHeaderBytes) || negb (beqb (sub encoded 0 8) indexMetaMagic)
     || negb (le_dec (sub encoded 8 10) =? FormatVersion) || negb (le_dec (sub encoded 10 12) =? indexMetaHeaderBytes)
     || (1 <? le_dec (sub encoded 12 13)) || negb (all_zero (sub encoded 13 16)) then Err ErrCorrupt
  else
    let payloadLength := le_dec (sub encoded 48 50) in
    let codec := le_dec (sub encoded 50 52) in
    if (payloadLength =? 0) || negb (zlen encoded =? indexMetaHeaderBytes + payloadLength) then Err ErrCorrupt
    else
      let* fields := decodedFields encoded in
      let meta := mk_IndexMeta name (firstPath fields) fields (le_dec (sub encoded 12 13) =? 1) (le_dec (sub encoded 16 24))
                    (le_dec (sub encoded 24 32)) (le_dec (sub encoded 32 40)) (le_dec (sub encoded 40 48)) codec in
      match normalizeIndexFields (idx_FieldPath meta) (idx_Fields meta) with
      | None => Err ErrCorrupt
      | Some fields =>
          if ((codec =? indexKeyCodec) && compoundIndexFields fields) || (idx_Root meta <? 2) || (idx_CreatedSequence meta =? 0)
             || (idx_UpdatedSequence meta <? idx_CreatedSequence meta) then Err ErrCorrupt
          else Ok meta
      end.

(** ** Keys of index entries *)

Definition secondaryKey (key : bytes) (position : Z) (documentID : bytes) : result bytes :=
  if MaxSecondaryScalarKeyBytes <? zlen key then Err ErrIndexKeyTooLarge
  else if (zlen key =? 0) || (position =? 0) || all_zero documentID then Err ErrCorrupt
  else
    let result := zeros (zlen key + 8 + zlen documentID) in
    let result := put result 0 key in
    let result := put result (zlen key) (be_enc 8 position) in
    Ok (put result (zlen key + 8) documentID).

(** The value, the position and the document of an entry. *)
Definition secondaryKeyParts (encoded : bytes) : result (bytes * Z * bytes) :=
  if (zlen encoded <=? 24) || (4096 <? zlen encoded) then Err ErrCorrupt
  else
    let documentID := sub encoded (zlen encoded - 16) (zlen encoded) in
    let positionOffset := zlen encoded - 16 - 8 in
    let position := be_dec (sub encoded positionOffset (positionOffset + 8)) in
    if (position =? 0) || all_zero documentID then Err ErrCorrupt
    else Ok (sub encoded 0 positionOffset, position, documentID).

(** From the last byte on, the first that can be incremented ends the bound. *)
Fixpoint prefixEndLoop (reversed : bytes) : option bytes :=
  match reversed with
  | [] => None
  | b :: reversed => if b2z b =? 0xff then prefixEndLoop reversed else Some (rev (z2b (b2z b + 1) :: reversed))
  end.

(** [nil] when no bound exists. *)
Definition lexicographicPrefixEnd (prefix : bytes) : bytes := default [] (prefixEndLoop (rev prefix)).

(** ** Fields in a payload *)

Definition field_lengths (f : IndexField) : Prop := 1 <= zlen (fld_Path f) <= 1024 /\ -128 <= fld_Direction f < 128.

Lemma to_i8_byte d : -128 <= d < 128 -> to_i8 (b2z (z2b d)) = d.
Proof.
  intros Hd. unfold to_i8. rewrite b2z_z2b. destruct (Z.ltb_spec (d mod 256) 128) as [Hlt|Hge].
  - destruct (Z_lt_le_dec d 0); [|by apply Z.mod_small; lia].
    rewrite <- (Z.mod_unique d 256 (-1) (d + 256)) in Hlt by lia. lia.
  - destruct (Z_lt_le_dec d 0); [|rewrite Z.mod_small in Hge by lia; lia].
    rewrite <- (Z.mod_unique d 256 (-1) (d + 256)) by lia. lia.
Qed.

Lemma byte_to_i8 b : z2b (to_i8 (b2z b)) = b /\ -128 <= to_i8 (b2z b) < 128.
Proof.
  pose proof (b2z_range b). unfold to_i8. destruct (Z.ltb_spec (b2z b) 128); [by split; [apply z2b_b2z|lia]|].
  split; [|lia]. rewrite <- z2b_mod. replace ((b2z b - 256) mod 256) with (b2z b); [apply z2b_b2z|].
  apply (Z.mod_unique _ _ (-1)); lia.
Qed.

Lemma zlen_fieldsPayload_cons f fields :
  zlen (fieldsPayload (f :: fields)) = 3 + zlen (fld_Path f) + zlen (fieldsPayload fields).
Proof. cbn [fieldsPayload]. rewrite zlen_cons. zlens. lia. Qed.

Lemma payloadFields_image fields fuel pre :
  Forall field_lengths fields -> (length fields < fuel)%nat ->
  payloadFields fuel (pre ++ fieldsPayload fields) (zlen pre) = Ok fields.
Proof.
  revert fuel pre; induction fields as [|[path d] fields IH]; intros fuel pre Hf Hfuel; destruct fuel as [|fuel]; try (cbn in Hfuel; lia);
    cbn [payloadFields].
  { change (fieldsPayload []) with (@nil byte). rewrite app_nil_r. by destruct (Z.ltb_spec (zlen pre) (zlen pre)); [lia|]. }
  apply Forall_cons in Hf as [[Hl Hd] Hf]. cbn [fld_Path fld_Direction length] in *.
  assert (Hz : zlen (pre ++ fieldsPayload (mk_IndexField path d :: fields)) = zlen pre + 3 + zlen path + zlen (fieldsPayload fields)).
  { rewrite zlen_app, zlen_fieldsPayload_cons. cbn [fld_Path]. lia. }
  pose proof (zlen_nonneg (fieldsPayload fields)).
  rewrite Hz. destruct (Z.ltb_spec (zlen pre) (zlen pre + 3 + zlen path + zlen (fieldsPayload fields))); [|lia]. cbn [negb].
  destruct (Z.ltb_spec (zlen pre + 3 + zlen path + zlen (fieldsPayload fields) - zlen pre) 3); [lia|].
  set (all := pre ++ fieldsPayload (mk_IndexField path d :: fields)) in *.
  assert (Hall : all = pre ++ [z2b d] ++ le_enc 2 (zlen path) ++ path ++ fieldsPayload fields) by done.
  assert (Hone : zlen [z2b d] = 1) by done.
  assert (Hs1 : sub all (zlen pre) (zlen pre + 1) = [z2b d]) by (rewrite Hall; apply sub_mid; lia).
  assert (Hs2 : sub all (zlen pre + 1) (zlen pre + 3) = le_enc 2 (zlen path)).
  { rewrite Hall, (app_assoc pre). apply sub_mid; rewrite ?zlen_app, ?zlen_le_enc; lia. }
  assert (Hs3 : sub all (zlen pre + 3) (zlen pre + 3 + zlen path) = path).
  { rewrite Hall, (app_assoc pre), (app_assoc (pre ++ _)). apply sub_mid; rewrite ?zlen_app, ?zlen_le_enc; lia. }
  rewrite Hs1, Hs2, le_dec_u16 by (unfold u16; lia). rewrite Hs3.
  destruct (Z.eqb_spec (zlen path) 0); [lia|]. change maxIndexFieldBytes with 1024. destruct (Z.ltb_spec 1024 (zlen path)); [lia|].
  destruct (Z.ltb_spec (zlen pre + 3 + zlen path + zlen (fieldsPayload fields)) (zlen pre + 3 + zlen path)); [lia|]. cbn [orb].
  replace all with ((pre ++ [z2b d] ++ le_enc 2 (zlen path) ++ path) ++ fieldsPayload fields) by (by rewrite Hall, <- !app_assoc).
  replace (zlen pre + 3 + zlen path) with (zlen (pre ++ [z2b d] ++ le_enc 2 (zlen path) ++ path)) by (rewrite !zlen_app, zlen_le_enc; lia).
  rewrite IH by (done || lia). cbn [rbind]. do 3 f_equal. change (le_dec [z2b d]) with (b2z (z2b d) + 256 * 0).
  rewrite Z.mul_0_r, Z.add_0_r. by apply to_i8_byte.
Qed.

Lemma payloadFields_sound fuel payload offset fields :
  0 <= offset <= zlen payload -> payloadFields fuel payload offset = Ok fields ->
  Forall field_lengths fields /\ sub payload offset (zlen payload) = fieldsPayload fields.
Proof.
  revert offset fields; induction fuel as [|fuel IH]; intros offset fields Ho; cbn [payloadFields]; [done|].
  destruct (Z.ltb_spec offset (zlen payload)) as [Hlt|Hge]; cbn [negb].
  2: { intros <-%Ok_inj. split; [constructor|]. assert (offset = zlen payload) as -> by lia. unfold sub. by rewrite Z.sub_diag, take_0. }
  destruct (Z.ltb_spec (zlen payload - offset) 3); [done|]. set (len := le_dec (sub payload (offset + 1) (offset + 3))).
  destruct (_ || _) eqn:E; [done|]. breflect. intros Hd. inv_ok. subst fields. change maxIndexFieldBytes with 1024 in *.
  assert (Hlen : u16 len) by (apply field_u16; lia). unfold u16 in Hlen.
  apply IH in Hok as [Hf Hsub]; [|lia]. set (path := sub payload (offset + 3) (offset + 3 + len)) in *.
  assert (Hp : zlen path = len) by (unfold path; rewrite zlen_sub; lia).
  destruct (sub payload offset (offset + 1)) as [|b [|b2 rest]] eqn:Eb;
    [assert (Hz : zlen (sub payload offset (offset + 1)) = 1) by (rewrite zlen_sub; lia); rewrite Eb in Hz; done| |
     assert (Hz : zlen (sub payload offset (offset + 1)) = 1) by (rewrite zlen_sub; lia); rewrite Eb, !zlen_cons in Hz;
     pose proof (zlen_nonneg rest); lia].
  assert (Hb : le_dec [b] = b2z b) by (cbn [le_dec]; lia). destruct (byte_to_i8 b) as [Hi8 Hr8]. split.
  - constructor; [|done]. unfold field_lengths. cbn [fld_Path fld_Direction]. rewrite Hb, Hp. split; [lia|done].
  - cbn [fieldsPayload fld_Path fld_Direction]. rewrite Hb, Hi8, Hp, <- Hsub.
    rewrite (sub_split payload offset (offset + 1)), Eb by lia. cbn [app]. f_equal.
    rewrite (sub_split payload (offset + 1) (offset + 3)) by lia. f_equal; [apply le_field_eq; [lia|lia|lia|done]|].
    unfold path. rewrite <- sub_split by lia. done.
Qed.

Lemma payloadFields_ends fuel payload offset :
  0 <= offset <= zlen payload -> zlen payload - offset < 4 * Z.of_nat fuel -> payloadFields fuel payload offset <> Err ErrFuel.
Proof.
  revert offset; induction fuel as [|fuel IH]; intros offset Ho Hf; cbn [payloadFields]; [lia|].
  destruct (Z.ltb_spec offset (zlen payload)); cbn [negb]; [|done]. destruct (_ <? 3) eqn:E3; [done|]. destruct (_ || _) eqn:E; [done|].
  breflect. set (len := le_dec (sub payload (offset + 1) (offset + 3))) in *.
  assert (Hl : u16 len) by (apply field_u16; lia). unfold u16 in Hl. intros He.
  destruct (payloadFields fuel payload (offset + 3 + len)) eqn:Er; cbn [rbind] in He; [done|]. injection He as ->.
  apply (IH (offset + 3 + len)); [lia|lia|done].
Qed.

(** ** The codec of definitions *)

(** The widths of the Go fields. *)
Definition index_ok (m : IndexMeta) : Prop :=
  u64 (idx_Root m) /\ u64 (idx_EntryCount m) /\ u64 (idx_CreatedSequence m) /\ u64 (idx_UpdatedSequence m).

(** What the database stores for a definition. *)
Definition storedIndexMeta (m : IndexMeta) (fields : list IndexField) : IndexMeta :=
  mk_IndexMeta (idx_Name m) (firstPath fields) fields (idx_Unique m) (idx_Root m) (idx_EntryCount m) (idx_CreatedSequence m)
    (idx_UpdatedSequence m) (indexCodec m fields).

Definition index_payload (m : IndexMeta) : bytes :=
  if idx_KeyCodecVersion m =? indexKeyCodec then firstPath (idx_Fields m) else fieldsPayload (idx_Fields m).

Definition index_image (m : IndexMeta) : bytes :=
  indexMetaMagic ++ le_enc 2 FormatVersion ++ le_enc 2 indexMetaHeaderBytes ++ le_enc 1 (if idx_Unique m then 1 else 0)
  ++ zeros 3 ++ le_enc 8 (idx_Root m) ++ le_enc 8 (idx_EntryCount m) ++ le_enc 8 (idx_CreatedSequence m)
  ++ le_enc 8 (idx_UpdatedSequence m) ++ le_enc 2 (zlen (index_payload m)) ++ le_enc 2 (idx_KeyCodecVersion m)
  ++ le_enc 2 (if idx_KeyCodecVersion m =? indexKeyCodecV3 then zlen (idx_Fields m) else 0) ++ zeros 10 ++ index_payload m.

(** A definition in the form in which it is stored. *)
Record stored_index (m : IndexMeta) : Prop := {
  si_fields : normalizeIndexFields (idx_FieldPath m) (idx_Fields m) = Some (idx_Fields m);
  si_path : idx_FieldPath m = firstPath (idx_Fields m);
  si_name : validIndexName (idx_Name m) = true;
  si_root : 2 <= idx_Root m;
  si_sequences : idx_CreatedSequence m <> 0 /\ idx_CreatedSequence m <= idx_UpdatedSequence m;
  si_codec : (idx_KeyCodecVersion m = indexKeyCodec /\ compoundIndexFields (idx_Fields m) = false) \/
             idx_KeyCodecVersion m = indexKeyCodecV3 }.

Lemma validIndexFields_lengths seen fields :
  validIndexFields seen fields = true -> Forall (fun f => field_lengths f /\ (fld_Direction f = 1 \/ fld_Direction f = -1)) fields.
Proof.
  revert seen; induction fields as [|f fields IH]; intros seen; cbn [validIndexFields]; [by constructor|].
  rewrite !andb_true_iff, orb_true_iff, !Z.eqb_eq. intros (((Hp & Hd) & _) & Hr). constructor; [|by eapply IH].
  unfold validIndexFieldPath, maxIndexFieldBytes in Hp. breflect. split; [|done]. split; [pose proof (zlen_nonneg (fld_Path f)); lia|lia].
Qed.

Lemma normalizeIndexFields_spec path fields out :
  normalizeIndexFields path fields = Some out ->
  out <> [] /\ zlen out <= 4 /\ Forall (fun f => field_lengths f /\ (fld_Direction f = 1 \/ fld_Direction f = -1)) out /\
  normalizeIndexFields (firstPath out) out = Some out.
Proof.
  unfold normalizeIndexFields. destruct fields as [|f fields].
  - destruct (validIndexFieldPath path) eqn:E; [|done]. intros [= <-]. split; [done|]. split; [by vm_compute|].
    assert (Hv : validIndexFields [] [mk_IndexField path 1] = true) by (cbn; by rewrite E).
    split; [by eapply validIndexFields_lengths|]. cbn [firstPath fld_Path]. rewrite beqb_refl, andb_false_r, Hv. done.
  - destruct (_ || _) eqn:E; [done|]. destruct (validIndexFields [] (f :: fields)) eqn:Ev; [|done]. intros [= <-].
    apply orb_false_iff in E as [E1 E2]. split; [done|]. split; [unfold maxIndexFields in E1; breflect; lia|].
    split; [by eapply validIndexFields_lengths|]. cbn [firstPath]. by rewrite E1, beqb_refl, andb_false_r, Ev.
Qed.

Lemma fieldsPayload_bounds fields :
  Forall field_lengths fields -> 4 * zlen fields <= zlen (fieldsPayload fields) <= 1027 * zlen fields.
Proof.
  induction 1 as [|f fields [Hl _] Hf IH]; [by vm_compute|]. rewrite zlen_fieldsPayload_cons, zlen_cons. lia.
Qed.

Lemma index_payload_bounds m : stored_index m -> 1 <= zlen (index_payload m) <= 4108 /\
  (idx_KeyCodecVersion m = indexKeyCodec -> zlen (index_payload m) <= 1024).
Proof.
  intros [Hf _ _ _ _ Hc]. apply normalizeIndexFields_spec in Hf as (Hne & Hl & Hfs & _).
  assert (Hfl : Forall field_lengths (idx_Fields m)) by (eapply Forall_impl; [exact Hfs|]; by intros f [? _]).
  pose proof (fieldsPayload_bounds _ Hfl). unfold index_payload.
  destruct (idx_Fields m) as [|f fields]; [done|]. apply Forall_cons in Hfl as [[Hf _] _]. rewrite zlen_cons in *. pose proof (zlen_nonneg fields).
  cbn [firstPath]. destruct (Z.eqb_spec (idx_KeyCodecVersion m) indexKeyCodec); split; [lia|intros _; lia|lia|done].
Qed.

Lemma encodeIndexMeta_image m encoded :
  encodeIndexMeta m = Ok encoded <->
  exists fields, normalizeIndexFields (idx_FieldPath m) (idx_Fields m) = Some fields /\
    stored_index (storedIndexMeta m fields) /\ encoded = index_image (storedIndexMeta m fields).
Proof.
  unfold encodeIndexMeta. destruct (normalizeIndexFields _ _) as [fields|] eqn:En.
  2: { split; [done|]. by intros (? & ? & _). }
  pose proof (normalizeIndexFields_spec _ _ _ En) as (_ & _ & _ & Hn).
  assert (Hst : stored_index (storedIndexMeta m fields) <->
    (negb (validIndexName (idx_Name m)) || (idx_Root m <? 2) || (idx_CreatedSequence m =? 0) || (idx_UpdatedSequence m <? idx_CreatedSequence m)) = false /\
    (((indexCodec m fields =? indexKeyCodec) && compoundIndexFields fields)
     || (negb (indexCodec m fields =? indexKeyCodec) && negb (indexCodec m fields =? indexKeyCodecV3))) = false).
  { split.
    - intros [_ _ H3 H4 H5 H6]. cbn [storedIndexMeta idx_Name idx_Root idx_CreatedSequence idx_UpdatedSequence idx_KeyCodecVersion idx_Fields] in *.
      rewrite H3. split; [bgoal; [done|lia|lia|lia]|]. destruct H6 as [[-> ->]| ->]; done.
    - intros [H1 H2]. breflect. constructor; cbn [storedIndexMeta idx_Name idx_Root idx_CreatedSequence idx_UpdatedSequence idx_KeyCodecVersion idx_Fields idx_FieldPath];
        [done|done|done|lia|lia|].
      destruct (Z.eqb_spec (indexCodec m fields) indexKeyCodec); [left; split; [done|]|right].
      + by destruct (compoundIndexFields fields).
      + by destruct (Z.eqb_spec (indexCodec m fields) indexKeyCodecV3). }
  destruct (_ || _ || _ || _) eqn:E1.
  { split; [done|]. intros (f & [= <-] & Hs & _). apply Hst in Hs as [? _]. congruence. }
  destruct (_ || _) eqn:E2 in |- *.
  { split; [done|]. intros (f & [= <-] & Hs & _). apply Hst in Hs as [_ ?]. congruence. }
  assert (Hs : stored_index (storedIndexMeta m fields)) by by apply Hst.
  pose proof (index_payload_bounds _ Hs) as [Hb _]. unfold index_payload in Hb at 1 2. cbn [storedIndexMeta idx_KeyCodecVersion idx_Fields] in Hb.
  set (payload := if indexCodec m fields =? indexKeyCodec then firstPath fields else fieldsPayload fields) in *.
  destruct (Z.eqb_spec (zlen payload) 0); [lia|]. destruct (Z.ltb_spec 65535 (zlen payload)); [lia|]. cbn [orb].
  assert (Himg : forall e, Ok e = Ok encoded -> e = index_image (storedIndexMeta m fields) ->
    (exists f, Some fields = Some f /\ stored_index (storedIndexMeta m f) /\ encoded = index_image (storedIndexMeta m f))).
  { intros e [= <-] ->. exists fields. done. }
  match goal with |- Ok ?e = _ <-> _ => assert (He : e = index_image (storedIndexMeta m fields)) end.
  2: { rewrite He. split; [intros Hok; by eapply Himg|]. by intros (f & [= <-] & _ & ->). }
  unfold index_image, index_payload. cbn [storedIndexMeta idx_KeyCodecVersion idx_Fields idx_Unique idx_Root idx_EntryCount idx_CreatedSequence idx_UpdatedSequence].
  fold payload. assert (Hm : zlen indexMetaMagic = 8) by done. unfold FormatVersion. change indexMetaHeaderBytes with 64.
  destruct (idx_Unique m), (Z.eqb_spec (indexCodec m fields) indexKeyCodecV3);
    repeat match goal with
    | |- context [le_enc 1 0 ++ zeros 3 ++ ?rest] => change (le_enc 1 0 ++ zeros 3 ++ rest) with (zeros 4 ++ rest)
    | |- context [le_enc 2 0 ++ zeros 10 ++ ?rest] => change (le_enc 2 0 ++ zeros 10 ++ rest) with (zeros 12 ++ rest)
    end; layout; same_layout.
Qed.

Lemma index_image_fields m :
  let e := index_image m in
  zlen e = 64 + zlen (index_payload m) /\ sub e 0 8 = indexMetaMagic /\ sub e 8 10 = le_enc 2 FormatVersion /\
  sub e 10 12 = le_enc 2 indexMetaHeaderBytes /\ sub e 12 13 = le_enc 1 (if idx_Unique m then 1 else 0) /\ sub e 13 16 = zeros 3 /\
  sub e 16 24 = le_enc 8 (idx_Root m) /\ sub e 24 32 = le_enc 8 (idx_EntryCount m) /\ sub e 32 40 = le_enc 8 (idx_CreatedSequence m) /\
  sub e 40 48 = le_enc 8 (idx_UpdatedSequence m) /\ sub e 48 50 = le_enc 2 (zlen (index_payload m)) /\
  sub e 50 52 = le_enc 2 (idx_KeyCodecVersion m) /\
  sub e 52 54 = le_enc 2 (if idx_KeyCodecVersion m =? indexKeyCodecV3 then zlen (idx_Fields m) else 0) /\
  sub e 54 64 = zeros 10 /\ sub e 64 (zlen e) = index_payload m.
Proof.
  assert (Hm : zlen indexMetaMagic = 8) by done. pose proof (zlen_nonneg (index_payload m)). cbv zeta.
  assert (Hz : zlen (index_image m) = 64 + zlen (index_payload m)).
  { unfold index_image. zlens. rewrite !zlen_zeros by lia. lia. }
  rewrite Hz. split; [done|]. unfold index_image. repeat split; slice; reflexivity.
Qed.

Lemma index_codec_cases m : stored_index m -> idx_KeyCodecVersion m = 2 \/ idx_KeyCodecVersion m = 3.
Proof. intros [_ _ _ _ _ [[-> _]| ->]]; auto. Qed.

Lemma decodedFields_image m : stored_index m -> decodedFields (index_image m) = Ok (idx_Fields m).
Proof.
  intros Hs. pose proof (index_payload_bounds m Hs) as [Hb Hb2].
  destruct (index_image_fields m) as (Hz & _ & _ & _ & _ & _ & _ & _ & _ & _ & E48 & E50 & E52 & E54 & E64).
  pose proof (si_fields _ Hs) as Hf. apply normalizeIndexFields_spec in Hf as (Hne & Hl & Hfs & _).
  assert (Hfl : Forall field_lengths (idx_Fields m)) by (eapply Forall_impl; [exact Hfs|]; by intros f [? _]).
  unfold decodedFields. change indexMetaHeaderBytes with 64. rewrite E48, E50, E52, E54, E64. rewrite !le_dec_u16;
    [|unfold u16; destruct (_ =? _); [pose proof (zlen_nonneg (idx_Fields m)); lia|lia]|unfold u16; lia|
      unfold u16; destruct (index_codec_cases m Hs) as [->| ->]; lia].
  destruct (si_codec _ Hs) as [[Hc Hcomp]|Hc]; rewrite Hc in *.
  - change (indexKeyCodec =? indexKeyCodec) with true. cbn iota.
    assert (Hzero : all_zero (sub (index_image m) 52 64) = true).
    { rewrite (sub_split _ 52 54), E52, E54 by lia. done. }
    rewrite Hzero. change maxIndexFieldBytes with 1024. specialize (Hb2 eq_refl). destruct (Z.ltb_spec 1024 (zlen (index_payload m))); [lia|].
    cbn [negb orb]. unfold index_payload. rewrite Hc. change (indexKeyCodec =? indexKeyCodec) with true. cbn iota.
    destruct (idx_Fields m) as [|[p d] [|? ?]]; [done| |done]. cbn in Hcomp |- *. by destruct (Z.eqb_spec d 1) as [->|].
  - change (indexKeyCodecV3 =? indexKeyCodec) with false. change (indexKeyCodecV3 =? indexKeyCodecV3) with true. cbn iota.
    assert (Hpay : index_payload m = fieldsPayload (idx_Fields m)) by (unfold index_payload; by rewrite Hc). rewrite Hpay in *.
    pose proof (fieldsPayload_bounds _ Hfl). destruct (Z.eqb_spec (zlen (idx_Fields m)) 0) as [E|_]; [by apply zlen_0 in E|].
    change maxIndexFields with 4. destruct (Z.ltb_spec 4 (zlen (idx_Fields m))); [lia|]. change (all_zero (zeros 10)) with true. cbn [negb orb].
    pose proof (payloadFields_image (idx_Fields m) (S (length (fieldsPayload (idx_Fields m)))) [] Hfl) as Hp. cbn [app] in Hp.
    change (zlen (@nil byte)) with 0 in Hp. rewrite Hp by (unfold zlen in *; lia). cbn [rbind]. by rewrite Z.eqb_refl.
Qed.

Lemma decodeIndexMeta_image m : index_ok m -> stored_index m -> decodeIndexMeta (idx_Name m) (index_image m) = Ok m.
Proof.
  intros (H1 & H2 & H3 & H4) Hs. pose proof (decodedFields_image m Hs) as Hd. pose proof (index_payload_bounds m Hs) as [Hb _].
  destruct (index_image_fields m) as (Hz & E0 & E8 & E10 & E12 & E13 & E16 & E24 & E32 & E40 & E48 & E50 & _).
  unfold decodeIndexMeta. cbv zeta. rewrite Hd, Hz, E0, E8, E10, E12, E13, E16, E24, E32, E40, E48, E50, beqb_refl.
  rewrite (si_name _ Hs). change indexMetaHeaderBytes with 64. destruct (Z.ltb_spec (64 + zlen (index_payload m)) 64); [lia|].
  change (le_dec (le_enc 2 FormatVersion) =? FormatVersion) with true. change (le_dec (le_enc 2 64) =? 64) with true.
  change (all_zero (zeros 3)) with true. rewrite !le_dec_u64 by done.
  assert (Hu : le_dec (le_enc 1 (if idx_Unique m then 1 else 0)) = if idx_Unique m then 1 else 0) by (by destruct (idx_Unique m)).
  rewrite Hu. rewrite !le_dec_u16; [|unfold u16; destruct (index_codec_cases m Hs) as [->| ->]; lia|unfold u16; lia].
  assert ((1 <? (if idx_Unique m then 1 else 0)) = false) as -> by (by destruct (idx_Unique m)). cbn [negb orb].
  destruct (Z.eqb_spec (zlen (index_payload m)) 0); [lia|]. rewrite Z.eqb_refl. cbn [negb orb rbind idx_FieldPath idx_Fields idx_Root idx_CreatedSequence idx_UpdatedSequence].
  rewrite <- (si_path _ Hs), (si_fields _ Hs). destruct (si_sequences _ Hs) as [Hs1 Hs2]. pose proof (si_root _ Hs).
  assert ((idx_KeyCodecVersion m =? indexKeyCodec) && compoundIndexFields (idx_Fields m) = false) as ->.
  { destruct (si_codec _ Hs) as [[_ ->]| ->]; [apply andb_false_r|done]. }
  destruct (Z.ltb_spec (idx_Root m) 2); [lia|]. destruct (Z.eqb_spec (idx_CreatedSequence m) 0); [done|].
  destruct (Z.ltb_spec (idx_UpdatedSequence m) (idx_CreatedSequence m)); [lia|]. cbn [orb].
  f_equal. destruct m as [? ? ? [] ? ? ? ? ?]; done.
Qed.

Lemma decodedFields_sound e fields :
  64 <= zlen e -> le_dec (sub e 48 50) <> 0 -> zlen e = 64 + le_dec (sub e 48 50) -> decodedFields e = Ok fields ->
  let codec := le_dec (sub e 50 52) in
  (codec = indexKeyCodec \/ codec = indexKeyCodecV3) /\
  sub e 64 (zlen e) = (if codec =? indexKeyCodec then firstPath fields else fieldsPayload fields) /\
  sub e 52 54 = le_enc 2 (if codec =? indexKeyCodecV3 then zlen fields else 0) /\ sub e 54 64 = zeros 10 /\ fields <> [].
Proof.
  intros H64 H0 Hz. unfold decodedFields. change indexMetaHeaderBytes with 64. cbv zeta. set (codec := le_dec (sub e 50 52)).
  assert (Hn : u16 (le_dec (sub e 48 50))) by (apply field_u16; lia). unfold u16 in Hn.
  destruct (Z.eqb_spec codec indexKeyCodec) as [->|Hne].
  - destruct (_ || _) eqn:E; [done|]. breflect. intros <-%Ok_inj. split; [by left|]. split; [done|].
    assert (Hzero : sub e 52 64 = zeros 12) by (change 12 with (64 - 52); apply all_zero_sub; [lia|lia|lia|done]).
    change (indexKeyCodec =? indexKeyCodecV3) with false. cbn iota.
    assert (Hz1 : sub e 52 54 = sub (sub e 52 64) 0 2) by (rewrite sub_sub by lia; f_equal; lia).
    assert (Hz2 : sub e 54 64 = sub (sub e 52 64) 2 12) by (rewrite sub_sub by lia; f_equal; lia).
    rewrite Hz1, Hz2, Hzero. done.
  - destruct (Z.eqb_spec codec indexKeyCodecV3) as [->|]; [|done]. destruct (_ || _) eqn:E; [done|]. breflect. intros Hd. inv_ok.
    destruct (Z.eqb_spec (zlen a) (le_dec (sub e 52 54))) as [Ha|]; [|done]. cbn [negb] in Hd. apply Ok_inj in Hd. subst a.
    apply payloadFields_sound in Hok as [_ Hp]; [|pose proof (zlen_nonneg (sub e 64 (zlen e))); lia].
    rewrite sub_all in Hp by done. split; [by right|]. split; [done|]. split; [|split].
    + apply le_field_eq; [lia|lia|lia|done].
    + change 10 with (64 - 54). apply all_zero_sub; [lia|lia|lia|done].
    + intros ->. change (zlen (@nil IndexField)) with 0 in *. lia.
Qed.

Lemma decodeIndexMeta_sound name e m :
  decodeIndexMeta name e = Ok m -> index_ok m /\ stored_index m /\ idx_Name m = name /\ e = index_image m.
Proof.
  unfold decodeIndexMeta. destruct (_ || _) eqn:E1; [done|]. destruct (_ || _) eqn:E2 in |- *; [done|].
  change indexMetaHeaderBytes with 64 in *. intros Hd. inv_ok. rename a into fields. reflect_checks.
  apply decodedFields_sound in Hok as (Hc & Hp & H52 & H54 & Hne); [|done|done|done]. cbv zeta in *.
  set (codec := le_dec (sub e 50 52)) in *. cbn [idx_FieldPath idx_Fields idx_Root idx_CreatedSequence idx_UpdatedSequence] in Hd.
  destruct (normalizeIndexFields (firstPath fields) fields) as [out|] eqn:En; [|done].
  assert (out = fields) as ->.
  { unfold normalizeIndexFields in En. destruct fields; [done|]. destruct (_ || _) in En; [done|]. destruct (validIndexFields _ _); [|done]. by injection En. }
  destruct (_ || _) eqn:E3 in Hd; [done|]. apply Ok_inj in Hd. breflect.
  assert (Hlen : u16 (le_dec (sub e 48 50))) by (apply field_u16; lia). unfold u16 in Hlen.
  assert (Hu : le_dec (sub e 12 13) = if le_dec (sub e 12 13) =? 1 then 1 else 0).
  { assert (0 <= le_dec (sub e 12 13) < 256) by (apply field_u8; lia). destruct (Z.eqb_spec (le_dec (sub e 12 13)) 1); lia. }
  assert (Hpl : zlen (sub e 64 (zlen e)) = le_dec (sub e 48 50)) by (rewrite zlen_sub; lia).
  split; [rewrite <- Hd; repeat split; apply field_u64; lia|]. split; [|split; [by rewrite <- Hd|]].
  - rewrite <- Hd. constructor; cbn [idx_FieldPath idx_Fields idx_Name idx_Root idx_CreatedSequence idx_UpdatedSequence idx_KeyCodecVersion];
      [done|done|done|done|done|]. destruct Hc as [Hc|Hc]; [left|by right]. split; [done|].
    match goal with H : (codec =? indexKeyCodec) && _ = false |- _ => by rewrite Hc in H end.
  - subst m. unfold index_image, index_payload.
    cbn [idx_FieldPath idx_Fields idx_Name idx_Unique idx_EntryCount idx_Root idx_CreatedSequence idx_UpdatedSequence idx_KeyCodecVersion].
    rewrite <- Hp, Hpl, <- H52, <- H54, <- Hu. unfold codec. rewrite !le_field_id by lia.
    rewrite <- (le_field_eq e 8 10 2 FormatVersion), <- (le_field_eq e 10 12 2 indexMetaHeaderBytes) by (done || lia).
    change (zeros 3) with (zeros (16 - 13)). rewrite <- (all_zero_sub e 13 16) by (lia || done).
    assert (Hcut : cuts_reach 0 [8; 10; 12; 13; 16; 24; 32; 40; 48; 50; 52; 54; 64; zlen e] (zlen e)) by (cbn; lia).
    rewrite (pieces_all e _ Hcut) at 1. cbn [pieces]. rewrite app_nil_r. congruence.
Qed.

Lemma encode_stored_index m : stored_index m -> encodeIndexMeta m = Ok (index_image m).
Proof.
  intros Hs. apply encodeIndexMeta_image. exists (idx_Fields m). split; [apply (si_fields _ Hs)|].
  assert (storedIndexMeta m (idx_Fields m) = m) as ->; [|done].
  unfold storedIndexMeta, indexCodec. rewrite <- (si_path _ Hs). destruct (index_codec_cases m Hs) as [E|E]; rewrite E; cbn [Z.eqb];
    destruct m; cbn in *; by subst.
Qed.

(** an index definition read from the catalog is exactly what was stored: the
    encoding of a definition decodes to it, its fields normalised and its codec
    chosen, and whatever decodes is the encoding of what it decodes to. *)
Theorem index_definition_roundtrip :
  (forall m encoded, index_ok m -> encodeIndexMeta m = Ok encoded ->
     exists fields, normalizeIndexFields (idx_FieldPath m) (idx_Fields m) = Some fields /\
       decodeIndexMeta (idx_Name m) encoded = Ok (storedIndexMeta m fields)) /\
  (forall name m encoded, decodeIndexMeta name encoded = Ok m ->
     idx_Name m = name /\ index_ok m /\ encodeIndexMeta m = Ok encoded) /\
  (forall name encoded, decodeIndexMeta name encoded <> Err ErrFuel).
Proof.
  split; [|split].
  - intros m e (H1 & H2 & H3 & H4) (fields & Hn & Hs & ->)%encodeIndexMeta_image. exists fields. split; [done|].
    change (idx_Name m) with (idx_Name (storedIndexMeta m fields)). by apply decodeIndexMeta_image.
  - intros name m e (Hok & Hs & Hn & ->)%decodeIndexMeta_sound. split; [done|]. split; [done|].
    by apply encode_stored_index.
  - intros name e. unfold decodeIndexMeta. destruct (_ || _); [done|]. destruct (_ || _) in |- *; [done|].
    assert (Hf : decodedFields e <> Err ErrFuel).
    { unfold decodedFields. destruct (_ =? _); [by destruct (_ || _)|]. destruct (_ =? _); [|done]. destruct (_ || _); [done|].
      set (payload := sub e indexMetaHeaderBytes (zlen e)).
      pose proof (payloadFields_ends (S (length payload)) payload 0) as Hne. pose proof (zlen_nonneg payload).
      destruct (payloadFields _ payload 0) as [fs|err]; cbn [rbind]; [by destruct (negb _)|].
      intros [= ->]. apply Hne; [lia|unfold zlen; lia|done]. }
    destruct (decodedFields e) as [fields|err]; cbn [rbind]; [|congruence].
    destruct (normalizeIndexFields _ _); [|done]. by destruct (_ || _).
Qed.
