(* ===== verification/IndexBuilds.v ===== *)
(** * Records of index builds

    The record of a running index build and its encoding
    ([internal/storage/index_builds.go]). The commit log keeps the commits that a
    build has still to apply. *)
From S2P Require Import Prelude Bytes Strings Layout Hashes PageFormat Records IndexRecords.
#[local] Open Scope Z_scope.

(** ** Data *)

Definition MaxConcurrentIndexBuilds : Z := 64.
Definition indexBuildMetaHeaderBytes : Z := 160.
Definition indexBuildMetaMagic : bytes := bs "MELDIBLD".

Definition IndexBuildScan : Z := 1.
Definition IndexBuildCatchUp : Z := 2.
Definition IndexBuildReady : Z := 3.
Definition IndexBuildFailed : Z := 4.

Definition IndexBuildFailureNone : Z := 0.
Definition IndexBuildFailureInvalidIndex : Z := 5.

(** Times are nanoseconds since 1970. *)
Record IndexBuildMeta := mk_IndexBuildMeta {
  bld_BuildID : bytes;
  bld_CollectionID : Z;
  bld_Collection : bytes;
  bld_Name : bytes;
  bld_FieldPath : bytes;
  bld_Fields : list IndexField;
  bld_Unique : bool;
  bld_ReplaceExisting : bool;
  bld_Phase : Z;
  bld_Failure : Z;
  bld_SourceSequence : Z;
  bld_SourceCatalogRoot : Z;
  bld_AppliedCatalogRoot : Z;
  bld_ShadowRoot : Z;
  bld_ScanAfter : bytes;
  bld_AppliedSequence : Z;
  bld_EntryCount : Z;
  bld_CanonicalBytes : Z;
  bld_CreatedAt : Z;
  bld_UpdatedAt : Z }.

(** [time.Time]'s zero value, the start of year 1. *)
Definition zeroTime : Z := -62135596800 * 10 ^ 9.
Definition unixMilli (time : Z) : Z := time / 10 ^ 6.
Definition fromUnixMilli (ms : Z) : Z := ms * 10 ^ 6.

Definition boolByte (value : bool) : Z := if value then 1 else 0.

(** ** Validity *)

Definition validIndexBuildMeta (meta : IndexBuildMeta) : bool :=
  if all_zero (bld_BuildID meta) || (bld_CollectionID meta =? 0) || negb (validCollectionName (bld_Collection meta))
     || negb (validIndexName (bld_Name meta))
     || match normalizeIndexFields (bld_FieldPath meta) (bld_Fields meta) with Some _ => false | None => true end
     || (bld_SourceSequence meta =? 0) || (bld_SourceCatalogRoot meta <? 2)
     || (negb (bld_AppliedCatalogRoot meta =? 0) && (bld_AppliedCatalogRoot meta <? 2)) || (bld_ShadowRoot meta <? 2)
     || (bld_AppliedSequence meta <? bld_SourceSequence meta) || (bld_CreatedAt meta =? zeroTime)
     || (bld_UpdatedAt meta <? bld_CreatedAt meta) || negb (utf8_valid (bld_Collection meta))
     || negb (utf8_valid (bld_Name meta)) || negb (utf8_valid (bld_FieldPath meta)) then false
  else if (bld_Phase meta <? IndexBuildScan) || (IndexBuildFailed <? bld_Phase meta)
     || (IndexBuildFailureInvalidIndex <? bld_Failure meta) then false
  else if (bld_Phase meta =? IndexBuildScan)
     && (negb (bld_AppliedSequence meta =? bld_SourceSequence meta) || negb (bld_AppliedCatalogRoot meta =? 0)) then false
  else Bool.eqb (bld_Phase meta =? IndexBuildFailed) (negb (bld_Failure meta =? IndexBuildFailureNone)).

Definition validateIndexBuildMetaFeatures (required : Z) (meta : IndexBuildMeta) : result unit :=
  if negb (bld_AppliedCatalogRoot meta =? 0) && (Z.land required RequiredFeatureIndexBuildAppliedRoot =? 0)
  then Err ErrCorrupt else Ok tt.

Definition effectiveAppliedCatalogRoot (meta : IndexBuildMeta) : Z * bool :=
  if bld_AppliedSequence meta =? bld_SourceSequence meta then (bld_SourceCatalogRoot meta, true)
  else (bld_AppliedCatalogRoot meta, 2 <=? bld_AppliedCatalogRoot meta).

(** ** Encoding *)

Definition buildFlags (meta : IndexBuildMeta) : Z :=
  Z.lor (if bld_AppliedCatalogRoot meta =? 0 then 0 else 1) (if bld_ReplaceExisting meta then 2 else 0).

Definition encodeIndexBuildMeta (meta : IndexBuildMeta) : result bytes :=
  if negb (validIndexBuildMeta meta) then Err ErrCorrupt
  else
    match normalizeIndexFields (bld_FieldPath meta) (bld_Fields meta) with
    | None => Err ErrPanic
    | Some fields =>
        let codec := if compoundIndexFields fields then indexKeyCodecV3 else 0 in
        let payload := if compoundIndexFields fields then fieldsPayload fields else firstPath fields in
        if (65535 <? zlen (bld_Collection meta)) || (65535 <? zlen (bld_Name meta)) || (65535 <? zlen payload) then Err ErrCorrupt
        else
          let encoded := zeros (indexBuildMetaHeaderBytes + zlen (bld_Collection meta) + zlen (bld_Name meta) + zlen payload) in
          let encoded := put encoded 0 indexBuildMetaMagic in
          let encoded := put encoded 8 (le_enc 2 FormatVersion) in
          let encoded := put encoded 10 (le_enc 2 indexBuildMetaHeaderBytes) in
          let encoded := put encoded 12 (le_enc 1 (bld_Phase meta)) in
          let encoded := put encoded 13 (le_enc 1 (boolByte (bld_Unique meta))) in
          let encoded := put encoded 14 (le_enc 1 (bld_Failure meta)) in
          let encoded := put encoded 15 (le_enc 1 (buildFlags meta)) in
          let encoded := put encoded 16 (le_enc 8 (bld_SourceSequence meta)) in
          let encoded := put encoded 24 (le_enc 8 (bld_SourceCatalogRoot meta)) in
          let encoded := put encoded 32 (le_enc 8 (bld_ShadowRoot meta)) in
          let encoded := put encoded 40 (le_enc 8 (bld_AppliedSequence meta)) in
          let encoded := put encoded 48 (le_enc 8 (bld_EntryCount meta)) in
          let encoded := put encoded 56 (le_enc 8 (bld_CanonicalBytes meta)) in
          let encoded := put encoded 64 (le_enc 8 (unixMilli (bld_CreatedAt meta))) in
          let encoded := put encoded 72 (le_enc 8 (unixMilli (bld_UpdatedAt meta))) in
          let encoded := put encoded 80 (le_enc 4 (bld_CollectionID meta)) in
          let encoded := put encoded 84 (le_enc 2 (zlen (bld_Collection meta))) in
          let encoded := put encoded 86 (le_enc 2 (zlen (bld_Name meta))) in
          let encoded := put encoded 88 (le_enc 2 (zlen payload)) in
          let encoded := put encoded 90 (le_enc 2 codec) in
          let encoded := if codec =? indexKeyCodecV3 then put encoded 92 (le_enc 2 (zlen fields)) else encoded in
          let encoded := put encoded 96 (bld_ScanAfter meta) in
          let encoded := put encoded 112 (le_enc 8 (bld_AppliedCatalogRoot meta)) in
          let encoded := put encoded 160 (bld_Collection meta) in
          let encoded := put encoded (160 + zlen (bld_Collection meta)) (bld_Name meta) in
          Ok (put encoded (160 + zlen (bld_Collection meta) + zlen (bld_Name meta)) payload)
    end.

(** ** Decoding *)

(** The switch on the codec: the field path and the fields. *)
Definition buildFields (codec fieldCount fieldLength : Z) (payload : bytes) : result (bytes * list IndexField) :=
  if codec =? 0 then
    if negb (fieldCount =? 0) || (maxIndexFieldBytes <? fieldLength) then Err ErrCorrupt else Ok (payload, [])
  else if codec =? indexKeyCodecV3 then
    if (fieldCount =? 0) || (maxIndexFields <? fieldCount) then Err ErrCorrupt
    else
      let* fields := payloadFields (S (length payload)) payload 0 in
      if negb (zlen fields =? fieldCount) then Err ErrCorrupt else Ok (firstPath fields, fields)
  else Err ErrCorrupt.

Definition decodeIndexBuildMeta (key encoded : bytes) : result IndexBuildMeta :=
  if negb (zlen key =? 16) || all_zero key || (zlen encoded <? indexBuildMetaHeaderBytes)
     || negb (beqb (sub encoded 0 8) indexBuildMetaMagic) || negb (le_dec (sub encoded 8 10) =? FormatVersion)
     || negb (le_dec (sub encoded 10 12) =? indexBuildMetaHeaderBytes) || (1 <? le_dec (sub encoded 13 14))
     || negb (Z.ldiff (le_dec (sub encoded 15 16)) 3 =? 0) || negb (all_zero (sub encoded 94 96))
     || negb (all_zero (sub encoded 120 160)) then Err ErrCorrupt
  else
    let collectionLength := le_dec (sub encoded 84 86) in
    let nameLength := le_dec (sub encoded 86 88) in
    let fieldLength := le_dec (sub encoded 88 90) in
    let codec := le_dec (sub encoded 90 92) in
    let fieldCount := le_dec (sub encoded 92 94) in
    if (collectionLength =? 0) || (nameLength =? 0) || (fieldLength =? 0)
       || negb (zlen encoded =? indexBuildMetaHeaderBytes + collectionLength + nameLength + fieldLength) then Err ErrCorrupt
    else
      let flags := le_dec (sub encoded 15 16) in
      let appliedRoot := le_dec (sub encoded 112 120) in
      if negb (Bool.eqb (Z.land flags 1 =? 0) (appliedRoot =? 0)) then Err ErrCorrupt
      else
        let* (fieldPath, fields) := buildFields codec fieldCount fieldLength (sub encoded (160 + collectionLength + nameLength) (zlen encoded)) in
        let meta := mk_IndexBuildMeta key (le_dec (sub encoded 80 84)) (sub encoded 160 (160 + collectionLength))
          (sub encoded (160 + collectionLength) (160 + collectionLength + nameLength)) fieldPath fields
          (le_dec (sub encoded 13 14) =? 1) (negb (Z.land flags 2 =? 0)) (le_dec (sub encoded 12 13)) (le_dec (sub encoded 14 15))
          (le_dec (sub encoded 16 24)) (le_dec (sub encoded 24 32)) appliedRoot (le_dec (sub encoded 32 40))
          (sub encoded 96 112) (le_dec (sub encoded 40 48)) (le_dec (sub encoded 48 56)) (le_dec (sub encoded 56 64))
          (fromUnixMilli (to_i64 (le_dec (sub encoded 64 72)))) (fromUnixMilli (to_i64 (le_dec (sub encoded 72 80)))) in
        if negb (validIndexBuildMeta meta) then Err ErrCorrupt else Ok meta.

Lemma decoded_build_applied key encoded build : decodeIndexBuildMeta key encoded = Ok build -> 0 <= bld_AppliedSequence build.
Proof.
  unfold decodeIndexBuildMeta. destruct (_ || _); [done|]. destruct (_ || _); [done|]. destruct (negb _); [done|]. intros Hd. inv_ok.
  destruct a as [path fields]. destruct (negb _) in Hd; [done|]. inv_ok. subst. cbn. apply le_dec_range.
Qed.
