(* ===== verification/SystemRecords.v ===== *)
(** * Private system records

    [internal/storage/system.go]: a tree of private records, found through a
    directory entry of the collection catalog, whose records change by compare
    and swap; and the checkpoints of durable consumers kept in one of its records
    ([durable_consumer.go]). *)
From stdpp Require Import gmap.
From S2P Require Import Prelude Bytes Strings Layout Hashes PageFormat Entries NodeCodec CowTree.
From S2P Require Import TreeShape TreeInvariant TreeRep TreeDelete TreeScan Tree Flush FileStore Recovery Commit.
From S2P Require Import Atomicity TreeRead Records StoredValues.
#[local] Open Scope Z_scope.
#[local] Abbreviation put := Bytes.put.

(** ** The directory *)

Record systemDirectory := mk_systemDirectory {
  dir_Root : Z;
  dir_Count : Z }.

Definition maxSystemKeyBytes : Z := 256.
Definition systemDirectoryBytes : Z := 32.
Definition systemCatalogKey : bytes := x00 :: bs "meldbase.system".
Definition systemDirectoryMagic : bytes := bs "MELDSYS3".

Definition encodeSystemDirectory (directory : systemDirectory) : result bytes :=
  if dir_Root directory <? 2 then Err ErrCorrupt
  else
    let encoded := zeros systemDirectoryBytes in
    let encoded := put encoded 0 systemDirectoryMagic in
    let encoded := put encoded 8 (le_enc 2 FormatVersion) in
    let encoded := put encoded 10 (le_enc 2 systemDirectoryBytes) in
    let encoded := put encoded 16 (le_enc 8 (dir_Root directory)) in
    Ok (put encoded 24 (le_enc 8 (dir_Count directory))).

Definition decodeSystemDirectory (encoded : bytes) : result systemDirectory :=
  if negb (zlen encoded =? systemDirectoryBytes) || negb (beqb (sub encoded 0 8) systemDirectoryMagic)
     || negb (le_dec (sub encoded 8 10) =? FormatVersion) || negb (le_dec (sub encoded 10 12) =? systemDirectoryBytes)
     || negb (all_zero (sub encoded 12 16)) then Err ErrCorrupt
  else
    let directory := mk_systemDirectory (le_dec (sub encoded 16 24)) (le_dec (sub encoded 24 32)) in
    if dir_Root directory <? 2 then Err ErrCorrupt else Ok directory.

(** ** Changing a record *)

(** A hash is thirty-two bytes. *)
Record SystemRecordMutation := mk_SystemRecordMutation {
  sm_Key : bytes;
  sm_ExpectedExists : bool;
  sm_ExpectedHash : bytes;
  sm_NewValue : bytes;
  sm_Delete : bool;
  sm_Unconditional : bool }.

Definition validSystemRecordMutation (m : SystemRecordMutation) : bool :=
  (0 <? zlen (sm_Key m)) && (zlen (sm_Key m) <=? maxSystemKeyBytes)
  && (negb (sm_Unconditional m) || (negb (sm_ExpectedExists m) && all_zero (sm_ExpectedHash m)))
  && (sm_ExpectedExists m || all_zero (sm_ExpectedHash m))
  && (negb (sm_Unconditional m) || negb (sm_Delete m))
  && (negb (sm_Delete m) || (zlen (sm_NewValue m) =? 0))
  && (sm_Delete m || ((0 <? zlen (sm_NewValue m)) && (zlen (sm_NewValue m) <=? maxSystemValueBytes))).

Definition to_corrupt {A} (r : result A) : result A := match r with Ok a => Ok a | Err _ => Err ErrCorrupt end.

Section Mutation.
(** Bounds the depth of the trees. *)
Variable fuel : nat.

(** The directory of a catalog; an absent one is the empty tree's. *)
Definition catalogDirectory (tx : WriteTxn) (catalog : nodeRef) : result systemDirectory :=
  let* encoded := Get tx TreeCatalog fuel catalog systemCatalogKey in
  match encoded with
  | Some encoded => decodeSystemDirectory encoded
  | None => Ok (mk_systemDirectory 0 0)
  end.

Definition matches_expected (m : SystemRecordMutation) (current : option bytes) : bool :=
  sm_Unconditional m
  || match current with
     | Some value => sm_ExpectedExists m && beqb (Sha256.sum value) (sm_ExpectedHash m)
     | None => negb (sm_ExpectedExists m)
     end.

(** The tree and the count after the change. *)
Definition changeRecord (tx : WriteTxn) (tree : nodeRef) (count : Z) (m : SystemRecordMutation) (exists_ : bool)
    : result (nodeRef * Z * WriteTxn) :=
  if sm_Delete m then
    if negb exists_ then Err ErrCorrupt
    else
      let* (removed, tree, _) := to_corrupt (Delete tx TreeSystem fuel tree (sm_Key m)) in
      if negb removed || (count =? 0) then Err ErrCorrupt else Ok (tree, count - 1, tx)
  else
    let* (descriptor, tx) := storeSystemValue tx (sm_NewValue m) in
    let* (tree, _) := Put tx TreeSystem fuel tree (sm_Key m) descriptor in
    if exists_ then Ok (tree, count, tx)
    else if count =? 2 ^ 64 - 1 then Err ErrCorrupt
    else Ok (tree, count + 1, tx).

(** What staging one change yields: the value found when it did not match, or the
    catalog and the transaction after it. *)
Inductive mutationOutcome :=
| Mismatched (current : option bytes)
| Applied (catalog : nodeRef) (tx : WriteTxn).

Definition applySystemRecordMutation (tx : WriteTxn) (catalog : nodeRef) (m : SystemRecordMutation) : result mutationOutcome :=
  if negb (validSystemRecordMutation m) then Err ErrCorrupt
  else
    let* directory := catalogDirectory tx catalog in
    let* tree := to_corrupt (OpenTree tx TreeSystem (dir_Root directory)) in
    if negb (ref_count tree =? dir_Count directory) then Err ErrCorrupt
    else
      let* stored := Get tx TreeSystem fuel tree (sm_Key m) in
      let* current :=
        match stored with
        | Some stored => let* value := loadSystemValue tx stored in Ok (Some value)
        | None => Ok None
        end in
      if negb (matches_expected m current) then Ok (Mismatched current)
      else
        let* (tree, count, tx) := changeRecord tx tree (dir_Count directory) m (match current with Some _ => true | None => false end) in
        let* (root, tx) := to_corrupt (flush TreeSystem tx tree) in
        if negb (ref_count root =? count) then Err ErrCorrupt
        else
          let* encoded := encodeSystemDirectory (mk_systemDirectory (ref_pageID root) count) in
          let* (catalog, _) := Put tx TreeCatalog fuel catalog systemCatalogKey encoded in
          Ok (Applied catalog tx).

(** ** Reading a record *)

(** The transaction reads are made with: it has staged nothing. *)
Definition readerTxn (f : File) : WriteTxn :=
  mk_WriteTxn f (root_zero 0) (Generation (f_meta f)) (CommitSequence (f_meta f)) (f_nextPage f) [] [] [] ∅
    false false false 0 false false 0.

Definition getSystemRecordUnlocked (f : File) (catalogRoot : Z) (key : bytes) : result (option bytes) :=
  let* encoded := treeGetUnlocked f TreeCatalog fuel catalogRoot systemCatalogKey in
  match encoded with
  | None => Ok None
  | Some encoded =>
      let* directory := decodeSystemDirectory encoded in
      let* stored := treeGetUnlocked f TreeSystem fuel (dir_Root directory) key in
      match stored with
      | None => Ok None
      | Some stored => let* value := loadSystemValue (readerTxn f) stored in Ok (Some value)
      end
  end.

Definition GetSystemRecord (f : File) (key : bytes) : result (option bytes) :=
  if (zlen key =? 0) || (maxSystemKeyBytes <? zlen key) then Err ErrCorrupt
  else getSystemRecordUnlocked f (root_CatalogRoot (f_root f)) key.
End Mutation.

(** ** Checkpoints of durable consumers *)

Record durableConsumerCheckpoint := mk_checkpoint {
  cp_name : bytes;
  cp_ack : Z }.

Definition maxDurableCommitConsumers : Z := 64.
Definition maxDurableConsumerName : Z := 64.
Definition durableConsumerHeaderSize : Z := 16.
Definition durableConsumerKey : bytes := x00 :: bs "meldbase.consumers".
Definition durableConsumerMagic : bytes := bs "MELDCON1".

Definition validDurableConsumerName (name : bytes) : bool :=
  negb ((zlen name =? 0) || (maxDurableConsumerName <? zlen name))
  && forallb (fun b => ascii_letter b || in_range b 0x30 0x39 || (b2z b =? 0x5f) || (b2z b =? 0x2d)) name.

(** [sort.Slice] by name; the names that pass the next loop are distinct, so the
    order of equal ones does not matter. *)
Fixpoint insert_checkpoint (c : durableConsumerCheckpoint) (l : list durableConsumerCheckpoint) : list durableConsumerCheckpoint :=
  match l with
  | [] => [c]
  | d :: l => if bltb (cp_name d) (cp_name c) then d :: insert_checkpoint c l else c :: d :: l
  end.
Definition sort_checkpoints (l : list durableConsumerCheckpoint) : list durableConsumerCheckpoint := foldr insert_checkpoint [] l.

(** The checks of the loop; [previous] is the name before. *)
Fixpoint validCheckpoints (previous : option bytes) (l : list durableConsumerCheckpoint) : bool :=
  match l with
  | [] => true
  | c :: l =>
      validDurableConsumerName (cp_name c)
      && negb (match previous with Some p => beqb p (cp_name c) | None => false end)
      && validCheckpoints (Some (cp_name c)) l
  end.

Fixpoint putCheckpoints (result : bytes) (offset : Z) (l : list durableConsumerCheckpoint) : bytes :=
  match l with
  | [] => result
  | c :: l =>
      let result := put result offset (le_enc 1 (zlen (cp_name c))) in
      let offset := offset + 1 in
      let result := put result offset (cp_name c) in
      let offset := offset + zlen (cp_name c) in
      let result := put result offset (le_enc 8 (cp_ack c)) in
      putCheckpoints result (offset + 8) l
  end.

Fixpoint checkpointsSize (l : list durableConsumerCheckpoint) : Z :=
  match l with [] => 0 | c :: l => 1 + zlen (cp_name c) + 8 + checkpointsSize l end.

Definition encodeDurableConsumerCheckpoints (checkpoints : list durableConsumerCheckpoint) : result bytes :=
  if maxDurableCommitConsumers <? zlen checkpoints then Err ErrCorrupt
  else
    let ordered := sort_checkpoints checkpoints in
    if negb (validCheckpoints None ordered) then Err ErrCorrupt
    else
      let result := zeros (durableConsumerHeaderSize + checkpointsSize ordered) in
      let result := put result 0 durableConsumerMagic in
      let result := put result 8 (le_enc 2 FormatVersion) in
      let result := put result 10 (le_enc 2 (zlen ordered)) in
      Ok (putCheckpoints result durableConsumerHeaderSize ordered).

Fixpoint decodeCheckpoints (n : nat) (encoded : bytes) (offset : Z) (previous : option bytes) : result (list durableConsumerCheckpoint * Z) :=
  match n with
  | O => Ok ([], offset)
  | S n =>
      if zlen encoded <=? offset then Err ErrCorrupt
      else
        let nameLength := le_dec (sub encoded offset (offset + 1)) in
        let offset := offset + 1 in
        if (nameLength =? 0) || (maxDurableConsumerName <? nameLength) || (zlen encoded - nameLength - 8 <? offset) then Err ErrCorrupt
        else
          let name := sub encoded offset (offset + nameLength) in
          let offset := offset + nameLength in
          if negb (validDurableConsumerName name)
             || match previous with Some p => negb (bltb p name) | None => false end then Err ErrCorrupt
          else
            let* (rest, end_) := decodeCheckpoints n encoded (offset + 8) (Some name) in
            Ok (mk_checkpoint name (le_dec (sub encoded offset (offset + 8))) :: rest, end_)
  end.

Definition decodeDurableConsumerCheckpoints (encoded : bytes) : result (list durableConsumerCheckpoint) :=
  if (zlen encoded <? durableConsumerHeaderSize) || negb (beqb (sub encoded 0 8) durableConsumerMagic)
     || negb (le_dec (sub encoded 8 10) =? FormatVersion) || negb (le_dec (sub encoded 12 14) =? 0)
     || negb (le_dec (sub encoded 14 16) =? 0) then Err ErrCorrupt
  else
    let count := le_dec (sub encoded 10 12) in
    if maxDurableCommitConsumers <? count then Err ErrCorrupt
    else
      let* (checkpoints, offset) := decodeCheckpoints (Z.to_nat count) encoded durableConsumerHeaderSize None in
      if negb (offset =? zlen encoded) then Err ErrCorrupt else Ok checkpoints.

Definition durableConsumerCheckpointsUnlocked (fuel : nat) (f : File) (catalogRoot : Z) : result (list durableConsumerCheckpoint) :=
  let* value := getSystemRecordUnlocked fuel f catalogRoot durableConsumerKey in
  match value with
  | None => Ok []
  | Some value => decodeDurableConsumerCheckpoints value
  end.

(** The loop over the checkpoints, with the lowest position so far. *)
Fixpoint consumerFloor (oldest latest floor : Z) (checkpoints : list durableConsumerCheckpoint) : result Z :=
  match checkpoints with
  | [] => Ok floor
  | c :: checkpoints =>
      if latest <=? cp_ack c then Err ErrCorrupt
      else
        let protected := to_u64 (cp_ack c + 1) in
        if (protected =? 0) || (protected <? oldest) then Err ErrCorrupt
        else consumerFloor oldest latest (if protected <? floor then protected else floor) checkpoints
  end.

(** Zero when no consumer is registered. *)
Definition durableConsumerRetentionFloor (fuel : nat) (tx : WriteTxn) (catalogRoot oldest latest : Z) : result Z :=
  if (oldest =? 0) || (latest <? oldest) then Err ErrCorrupt
  else
    let* checkpoints := durableConsumerCheckpointsUnlocked fuel (tx_file tx) catalogRoot in
    match checkpoints with
    | [] => Ok 0
    | _ => consumerFloor oldest latest latest checkpoints
    end.

(** ** Decoded checkpoints *)

Lemma decodeCheckpoints_acks n encoded offset previous cs end_ :
  decodeCheckpoints n encoded offset previous = Ok (cs, end_) -> Forall (fun c => 0 <= cp_ack c) cs.
Proof.
  revert offset previous cs end_; induction n as [|n IH]; intros offset previous cs end_; cbn [decodeCheckpoints].
  { intros [= <- _]. constructor. }
  destruct (_ <=? _); [done|]. destruct (_ || _); [done|]. destruct (_ || _); [done|]. intros Hd. inv_ok.
  destruct a as [rest e]. injection Hd as Hcs _. subst cs. constructor; [|by eapply IH]. cbn. apply le_dec_range.
Qed.

Lemma checkpoints_acks fuel f catalogRoot cs :
  durableConsumerCheckpointsUnlocked fuel f catalogRoot = Ok cs -> Forall (fun c => 0 <= cp_ack c) cs.
Proof.
  unfold durableConsumerCheckpointsUnlocked. intros Hd. inv_ok. destruct a as [value|]; [|inv_ok; subst; constructor].
  unfold decodeDurableConsumerCheckpoints in Hd. destruct (_ || _) in Hd; [done|]. destruct (_ <? _) in Hd; [done|]. inv_ok.
  destruct a as [l e]. destruct (negb _) in Hd; [done|]. inv_ok. subst. by eapply decodeCheckpoints_acks.
Qed.
