(* ===== verification/SystemStore.v ===== *)
(** * The map of private records

    What [SystemRecords] does, as operations of a map: reading, and compare and
    swap inside a transaction. *)
From stdpp Require Import gmap.
From S2P Require Import Prelude Bytes Strings Layout Hashes PageFormat Entries NodeCodec CowTree.
From S2P Require Import TreeShape TreeInvariant TreeRep TreeDelete TreeScan Tree Flush FileStore Recovery Commit.
From S2P Require Import Atomicity TreeRead Snapshots Transactions Records StoredValues SystemRecords.
#[local] Open Scope Z_scope.
#[local] Abbreviation put := Bytes.put.

(** ** The directory *)

Definition directory_image (d : systemDirectory) : bytes :=
  systemDirectoryMagic ++ le_enc 2 FormatVersion ++ le_enc 2 systemDirectoryBytes ++ zeros 4 ++ le_enc 8 (dir_Root d) ++ le_enc 8 (dir_Count d).

Lemma encodeSystemDirectory_image d e : encodeSystemDirectory d = Ok e <-> 2 <= dir_Root d /\ e = directory_image d.
Proof.
  unfold encodeSystemDirectory. destruct (Z.ltb_spec (dir_Root d) 2); [split; [done|lia]|].
  assert (Hm : zlen systemDirectoryMagic = 8) by done. unfold FormatVersion, systemDirectoryBytes.
  match goal with |- Ok ?p = _ <-> _ => assert (p = directory_image d) as -> end.
  { unfold directory_image, FormatVersion, systemDirectoryBytes. layout. same_layout. }
  split; [by intros <-%Ok_inj|by intros [_ ->]].
Qed.

Lemma zlen_directory_image d : zlen (directory_image d) = 32.
Proof. unfold directory_image. rewrite !zlen_app, !zlen_le_enc, zlen_zeros; done. Qed.

Lemma directory_image_fields d :
  let p := directory_image d in
  sub p 0 8 = systemDirectoryMagic /\ sub p 8 10 = le_enc 2 FormatVersion /\ sub p 10 12 = le_enc 2 systemDirectoryBytes /\
  sub p 12 16 = zeros 4 /\ sub p 16 24 = le_enc 8 (dir_Root d) /\ sub p 24 32 = le_enc 8 (dir_Count d).
Proof. assert (Hm : zlen systemDirectoryMagic = 8) by done. unfold directory_image. cbv zeta. repeat split; slice; reflexivity. Qed.

(** The directory records accepted are exactly the encodings of directories. *)
Lemma decodeSystemDirectory_exact e d :
  decodeSystemDirectory e = Ok d <-> u64 (dir_Root d) /\ u64 (dir_Count d) /\ encodeSystemDirectory d = Ok e.
Proof.
  rewrite encodeSystemDirectory_image. unfold decodeSystemDirectory, systemDirectoryBytes, FormatVersion. split.
  - destruct (_ || _) eqn:E; [done|]. reflect_checks.
    match goal with |- (if dir_Root ?x <? 2 then _ else _) = _ -> _ => set (c := x) end.
    destruct (Z.ltb_spec (dir_Root c) 2) as [|Hr]; [done|]. intros <-%Ok_inj. assert (Hl : zlen e = 32) by done.
    split; [apply field_u64; lia|]. split; [apply field_u64; lia|]. split; [done|].
    unfold directory_image, c, systemDirectoryBytes, FormatVersion. cbn [dir_Root dir_Count]. rewrite !le_field_id by lia.
    rewrite <- (le_field_eq e 8 10 2 3), <- (le_field_eq e 10 12 2 32) by (done || lia).
    change (zeros 4) with (zeros (16 - 12)). rewrite <- (all_zero_sub e 12 16) by (done || lia).
    rewrite (pieces_all e [8; 10; 12; 16; 24; 32]) at 1 by (cbn; lia). cbn [pieces]. rewrite app_nil_r. congruence.
  - intros (H1 & H2 & Hr & ->). rewrite zlen_directory_image. destruct (directory_image_fields d) as (-> & -> & -> & -> & -> & ->).
    rewrite beqb_refl, !le_dec_u64 by done. destruct d as [root count]. cbn [dir_Root dir_Count] in *.
    cbn -[Z.ltb]. destruct (Z.ltb_spec root 2); [lia|done].
Qed.

(** ** The map of records *)

(** [d] describes the value [v] of a record. *)
Definition record_value (tx : WriteTxn) (d v : bytes) : Prop :=
  system_value tx d v /\ 0 < zlen v <= maxSystemValueBytes /\ 1 <= zlen d <= inlineSystemValueLimit.

(** The tree at a page holds the records. *)
Definition system_tree (tx : WriteTxn) (h : nat) (root : Z) (recs : list KeyValue) : Prop :=
  exists ds, held tx TreeSystem h root ds /\ linked (record_value tx) ds recs.

(** The directory entry of a catalog, if there is one, leads to the records. *)
Definition system_at (tx : WriteTxn) (h : nat) (entry : option bytes) (recs : list KeyValue) : Prop :=
  match entry with
  | None => recs = []
  | Some encoded => exists root, encodeSystemDirectory (mk_systemDirectory root (zlen recs)) = Ok encoded /\ u64 root /\
      u64 (zlen recs) /\ system_tree tx h root recs
  end.

(** The map after a change. *)
Definition changed (m : SystemRecordMutation) (recs : list KeyValue) : list KeyValue :=
  if sm_Delete m then del (sm_Key m) recs else ins (sm_Key m) (sm_NewValue m) recs.

Lemma record_value_carries tx tx' d v : carries tx tx' -> record_value tx d v -> record_value tx' d v.
Proof. intros Hc (Hd & ? & ?). split; [by eapply describes_carries|done]. Qed.

Lemma system_tree_carries tx tx' h root recs : carries tx tx' -> system_tree tx h root recs -> system_tree tx' h root recs.
Proof.
  intros Hc (ds & Hk & Hl). exists ds. split; [by eapply held_carries|]. eapply linked_impl; [|exact Hl].
  intros d v. by apply record_value_carries.
Qed.

Lemma system_at_carries tx tx' h entry recs : carries tx tx' -> system_at tx h entry recs -> system_at tx' h entry recs.
Proof.
  intros Hc. destruct entry as [encoded|]; [|done]. intros (root & He & Hr & Hz & Ht). exists root.
  do 3 (split; [done|]). by eapply system_tree_carries.
Qed.

Lemma system_tree_mono tx h1 h2 root recs : (h1 <= h2)%nat -> system_tree tx h1 root recs -> system_tree tx h2 root recs.
Proof. intros Hh (ds & Hk & Hl). exists ds. split; [by eapply held_mono|done]. Qed.

Lemma system_at_mono tx h1 h2 entry recs : (h1 <= h2)%nat -> system_at tx h1 entry recs -> system_at tx h2 entry recs.
Proof.
  intros Hh. destruct entry as [encoded|]; [|done]. intros (root & He & Hr & Hz & Ht). exists root.
  do 3 (split; [done|]). by eapply system_tree_mono.
Qed.

Lemma system_tree_sorted tx h root recs : system_tree tx h root recs -> sorted_keys recs.
Proof. intros (ds & Hk & Hl). eapply linked_sorted; [exact Hl|]. by eapply held_sorted. Qed.

Lemma system_at_sorted tx h entry recs : system_at tx h entry recs -> sorted_keys recs.
Proof. destruct entry; [intros (? & _ & _ & _ & Ht); by eapply system_tree_sorted|intros ->; apply sorted_keys_nil]. Qed.

Lemma load_record tx d v : txn_ok tx -> record_value tx d v -> loadSystemValue tx d = Ok v.
Proof. intros Hok ([Hh Hb] & Hv & _). by apply loadSystemValue_holds. Qed.

(** ** Compare and swap in a transaction *)

Definition present {A} (o : option A) : bool := match o with Some _ => true | None => false end.

Lemma catalogDirectory_spec fuel tx catalog lc hc h recs :
  live tx TreeCatalog hc catalog lc -> (hc < fuel)%nat -> system_at tx h (field lc systemCatalogKey) recs ->
  exists root, catalogDirectory fuel tx catalog = Ok (mk_systemDirectory root (zlen recs)) /\ u64 root /\ system_tree tx h root recs.
Proof.
  intros Hl Hf Hs. unfold catalogDirectory. rewrite (get_live tx hc catalog lc _ fuel Hl Hf). cbn [rbind].
  destruct (field lc systemCatalogKey) as [encoded|].
  - destruct Hs as (root & He & Hr & Hz & Ht). exists root. split; [|done]. by apply decodeSystemDirectory_exact.
  - cbn in Hs. subst recs. exists 0. split; [done|]. split; [done|]. exists []. split; [exists O; split; [lia|by left]|constructor].
Qed.

Lemma validSystemRecordMutation_spec m :
  validSystemRecordMutation m = true ->
  0 < zlen (sm_Key m) <= maxSystemKeyBytes /\ (sm_Delete m = false -> 0 < zlen (sm_NewValue m) <= maxSystemValueBytes).
Proof.
  unfold validSystemRecordMutation. intros H. apply andb_true_iff in H as [H Hv]. breflect. split; [done|].
  intros Hd. rewrite Hd in Hv. cbn [orb] in Hv. breflect. done.
Qed.

Lemma changeRecord_spec fuel tx tree ds recs h m :
  written [] tx -> live tx TreeSystem h tree ds -> linked (record_value tx) ds recs -> zlen recs + 1 < 2 ^ 64 -> (S h < fuel)%nat ->
  validSystemRecordMutation m = true ->
  let r := changeRecord fuel tx tree (zlen recs) m (present (field recs (sm_Key m))) in
  if sm_Delete m && negb (present (field recs (sm_Key m))) then r = Err ErrCorrupt
  else match r with
  | Ok (tree', count, tx') => quiet tx tx' /\ count = zlen (changed m recs) /\
      exists ds', live tx' TreeSystem (S h) tree' ds' /\ linked (record_value tx') ds' (changed m recs)
  | Err e => e = ErrStorageLimit \/ e = ErrNodeFull
  end.
Proof.
  intros Hw Hl Hk Hmax Hf (Hkey & Hval)%validSystemRecordMutation_spec. unfold maxSystemKeyBytes in Hkey.
  pose proof (live_sorted _ _ _ _ Hl) as Hs. pose proof (linked_sorted _ _ _ Hk Hs) as Hsr. pose proof (linked_zlen _ _ _ Hk) as Hz.
  assert (Hne : sm_Key m <> []) by (intros E; rewrite E in Hkey; change (zlen (@nil byte)) with 0 in Hkey; lia).
  pose proof (linked_field _ _ _ (sm_Key m) Hk) as Hfield. unfold changeRecord, changed. destruct (sm_Delete m); cbn [andb].
  - destruct (field recs (sm_Key m)) as [v|] eqn:Ev; cbn [present negb]; [|done].
    destruct (field ds (sm_Key m)) as [d|] eqn:Ed; [|done].
    destruct (delete_live tx h tree ds (sm_Key m) fuel Hl ltac:(lia) Hf Hne) as (tree' & counts & -> & Hl').
    cbn [to_corrupt rbind]. unfold found. rewrite Ed. cbn [negb orb].
    assert (Hpos : 0 < zlen recs) by (destruct recs; [done|rewrite zlen_cons; pose proof (zlen_nonneg recs); lia]).
    destruct (Z.eqb_spec (zlen recs) 0); [lia|]. split; [by apply quiet_refl|]. split; [rewrite length_del, Ev; lia|].
    exists (del (sm_Key m) ds). split; [done|by apply linked_del].
  - pose proof (storeSystemValue_spec tx (sm_NewValue m) Hw (Hval eq_refl)) as Hst.
    destruct (storeSystemValue tx (sm_NewValue m)) as [[d tx1]|e]; cbn [rbind]; [|by left]. destruct Hst as (Hq & Hd & Hdz).
    pose proof (live_moves _ _ _ _ _ (proj1 Hq) Hl) as Hl1.
    pose proof (put_live tx1 h tree ds (sm_Key m) d fuel Hl1 ltac:(lia) ltac:(lia)) as HP.
    destruct (Put tx1 TreeSystem fuel tree (sm_Key m) d) as [[tree' s]|e]; cbn [rbind].
    2: { right. apply HP. split; [lia|change maxKey with 4096; lia]. }
    assert (Hkok : key_ok (sm_Key m)) by (split; [lia|change maxKey with 4096; lia]). specialize (HP Hkok).
    assert (Hlk : linked (record_value tx1) (ins (sm_Key m) d ds) (ins (sm_Key m) (sm_NewValue m) recs)).
    { apply linked_ins; [|split; [done|split; [by apply Hval|done]]]. eapply linked_impl; [|exact Hk].
      intros d0 v0. apply record_value_carries, moves_carries, Hq. }
    rewrite length_ins by done. destruct (field recs (sm_Key m)); cbn [present].
    + split; [done|]. split; [lia|]. eauto.
    + destruct (Z.eqb_spec (zlen recs) (2 ^ 64 - 1)); [lia|]. split; [done|]. split; [lia|]. eauto.
Qed.

Definition no_small_room (lc : list KeyValue) (e : gerror) : Prop := e = ErrNodeFull /\ ~ Forall small_entry lc.

(** What changing a record leaves, by cases on the request and on the record. *)
Definition mutated (tx : WriteTxn) (hc h : nat) (lc recs : list KeyValue) (m : SystemRecordMutation) (r : result mutationOutcome) : Prop :=
  let current := field recs (sm_Key m) in
  if negb (validSystemRecordMutation m) then r = Err ErrCorrupt
  else if negb (matches_expected m current) then r = Ok (Mismatched current)
  else if sm_Delete m && negb (present current) then r = Err ErrCorrupt
  else match r with
  | Ok (Mismatched _) => False
  | Ok (Applied catalog' tx') => quiet tx tx' /\ exists encoded, zlen encoded = systemDirectoryBytes /\
      live tx' TreeCatalog (S hc) catalog' (ins systemCatalogKey encoded lc) /\ system_at tx' (S h) (Some encoded) (changed m recs)
  | Err e => e = ErrStorageLimit \/ e = ErrNodeFull \/ e = ErrCorrupt
  end.

Lemma systemCatalogKey_ok : key_ok systemCatalogKey.
Proof. split; [done|by vm_compute]. Qed.

Lemma zlen_changed m recs :
  sorted_keys recs -> zlen (changed m recs) <= zlen recs + 1.
Proof.
  intros Hs. unfold changed. destruct (sm_Delete m); [rewrite length_del|rewrite length_ins by done]; destruct (field recs (sm_Key m)); lia.
Qed.

Lemma applySystemRecordMutation_spec fuel tx catalog lc hc h recs m :
  written [] tx -> live tx TreeCatalog hc catalog lc -> system_at tx h (field lc systemCatalogKey) recs ->
  zlen lc + 1 < 2 ^ 64 -> zlen recs + 1 < 2 ^ 64 -> (hc < fuel)%nat -> (S h < fuel)%nat ->
  mutated tx hc h lc recs m (applySystemRecordMutation fuel tx catalog m).
Proof.
  intros Hw Hl Hs Hmc Hmr Hfc Hf. unfold mutated, applySystemRecordMutation.
  destruct (validSystemRecordMutation m) eqn:Ev; cbn [negb]; [|done].
  destruct (catalogDirectory_spec fuel tx catalog lc hc h recs Hl Hfc Hs) as (root & -> & Hr & ds & Hk & Hlk). cbn [rbind dir_Root dir_Count].
  destruct (open_live tx h root ds Hw Hk) as (tree & -> & Ht). cbn [to_corrupt rbind]. pose proof (linked_zlen _ _ _ Hlk) as Hz.
  rewrite (live_count _ _ _ _ Ht), Hz, Z.eqb_refl. cbn [negb].
  rewrite (get_live tx h tree ds (sm_Key m) fuel Ht) by lia. cbn [rbind].
  match goal with |- context [rbind (match field ds (sm_Key m) with _ => _ end) _] =>
    assert (Hcur : (match field ds (sm_Key m) with
      | Some stored => let* value := loadSystemValue tx stored in Ok (Some value) | None => Ok None end) = Ok (field recs (sm_Key m))) end.
  { pose proof (linked_field _ _ _ (sm_Key m) Hlk) as HF. destruct (field ds (sm_Key m)) as [d|], (field recs (sm_Key m)) as [v|]; try done.
    by rewrite (load_record tx d v (w_ok _ _ Hw) HF). }
  rewrite Hcur. cbn [rbind]. destruct (matches_expected m (field recs (sm_Key m))); cbn [negb]; [|done].
  pose proof (changeRecord_spec fuel tx tree ds recs h m Hw Ht Hlk Hmr Hf Ev) as Hc. cbv zeta in Hc. unfold present in Hc at 2 |- *.
  destruct (sm_Delete m && _) eqn:Ed; [by rewrite Hc|].
  destruct (changeRecord _ _ _ _ _ _) as [[[tree1 count] tx1]|e]; cbn [rbind]; [|by destruct Hc as [->| ->]; auto].
  destruct Hc as (Hq1 & -> & ds1 & Ht1 & Hlk1). pose proof (proj1 Hq1) as Hm1. pose proof (linked_zlen _ _ _ Hlk1) as Hz1.
  pose proof (zlen_changed m recs (linked_sorted _ _ _ Hlk (live_sorted _ _ _ _ Ht))) as Hch.
  pose proof (flush_ref_live tx1 (S h) tree1 ds1 (mv_written _ _ Hm1) Ht1 ltac:(lia)) as Hfl.
  destruct (flush TreeSystem tx1 tree1) as [[ref tx2]|e]; cbn [to_corrupt rbind]; [|by auto].
  destruct Hfl as (Hq2 & Hp & Hcount & _ & Hk2). pose proof (proj1 Hq2) as Hm2. rewrite Hcount, Hz1, Z.eqb_refl. cbn [negb].
  destruct (encodeSystemDirectory (mk_systemDirectory (ref_pageID ref) (zlen (changed m recs)))) as [encoded|e] eqn:Ee; cbn [rbind].
  2: { exfalso. unfold encodeSystemDirectory in Ee. cbn [dir_Root] in Ee. destruct (Z.ltb_spec (ref_pageID ref) 2); [lia|done]. }
  pose proof (moves_trans _ _ _ Hm1 Hm2) as Hm12. pose proof (live_moves _ _ _ _ _ Hm12 Hl) as Hl2.
  pose proof (put_live tx2 hc catalog lc systemCatalogKey encoded fuel Hl2 ltac:(lia) Hfc systemCatalogKey_ok) as HP.
  destruct (Put tx2 TreeCatalog fuel catalog systemCatalogKey encoded) as [[catalog' s]|e]; cbn [rbind]; [|destruct HP; auto].
  split; [by eapply quiet_trans|]. exists encoded.
  apply encodeSystemDirectory_image in Ee as Him. destruct Him as [_ Him].
  split; [rewrite Him; apply zlen_directory_image|]. split; [done|]. exists (ref_pageID ref). split; [done|].
  destruct (w_ok _ _ (mv_written _ _ Hm2)). split; [unfold u64; lia|]. pose proof (zlen_nonneg (changed m recs)). split; [unfold u64; lia|].
  exists ds1. split; [done|]. eapply linked_impl; [|exact Hlk1]. intros d v. by apply record_value_carries, moves_carries.
Qed.
