(* ===== verification/DocumentRecords.v ===== *)
(** * Stored document records

    The descriptor of a stored document with its insertion position, and the keys
    of the insertion order ([document_codec.go] and [documents.go] of
    [internal/storage]). *)
From stdpp Require Import gmap.
From S2P Require Import Prelude Bytes Layout Hashes PageFormat Entries NodeCodec CowTree TreeRep FileStore Commit Atomicity Transactions StoredValues.
#[local] Open Scope Z_scope.
#[local] Abbreviation put := Bytes.put.

Definition documentRecordMagic : bytes := bs "MELDREC2".
Definition documentRecordHeaderBytes : Z := 24.

Definition storeDocumentRecord (tx : WriteTxn) (position : Z) (value : bytes) : result (bytes * WriteTxn) :=
  if position =? 0 then Err ErrCorrupt
  else
    let* (descriptor, tx) := storeDocumentValue tx value in
    let stored := zeros (documentRecordHeaderBytes + zlen descriptor) in
    let stored := put stored 0 documentRecordMagic in
    let stored := put stored 8 (le_enc 2 FormatVersion) in
    let stored := put stored 10 (le_enc 2 documentRecordHeaderBytes) in
    let stored := put stored 16 (le_enc 8 position) in
    Ok (put stored documentRecordHeaderBytes descriptor, tx).

Definition decodeDocumentRecordDescriptor (stored : bytes) : result (Z * bytes) :=
  if (zlen stored <=? documentRecordHeaderBytes) || negb (beqb (sub stored 0 8) documentRecordMagic)
     || negb (le_dec (sub stored 8 10) =? FormatVersion) || negb (le_dec (sub stored 10 12) =? documentRecordHeaderBytes)
     || negb (all_zero (sub stored 12 16))
  then Err ErrCorrupt
  else
    let position := le_dec (sub stored 16 24) in
    if position =? 0 then Err ErrCorrupt else Ok (position, sub stored documentRecordHeaderBytes (zlen stored)).

Definition loadDocumentRecord (tx : WriteTxn) (stored : bytes) : result (Z * bytes) :=
  let* (position, descriptor) := decodeDocumentRecordDescriptor stored in
  let* value := loadDocumentValue tx descriptor in
  Ok (position, value).

Definition insertionPositionKey (position : Z) : bytes := be_enc 8 position.

(** ** Images *)

Definition record_image (position : Z) (descriptor : bytes) : bytes :=
  documentRecordMagic ++ le_enc 2 FormatVersion ++ le_enc 2 documentRecordHeaderBytes ++ zeros 4 ++ le_enc 8 position ++ descriptor.

Lemma zlen_record_image position descriptor : zlen (record_image position descriptor) = 24 + zlen descriptor.
Proof. unfold record_image. rewrite !zlen_app, !zlen_le_enc, zlen_zeros by lia. change (zlen documentRecordMagic) with 8. lia. Qed.

Lemma decode_record_image position descriptor :
  0 < position < 2 ^ 64 -> 0 < zlen descriptor -> decodeDocumentRecordDescriptor (record_image position descriptor) = Ok (position, descriptor).
Proof.
  intros Hp Hd. unfold decodeDocumentRecordDescriptor, documentRecordHeaderBytes. rewrite zlen_record_image.
  assert (Hm : zlen documentRecordMagic = 8) by done. pose proof (zlen_nonneg descriptor).
  assert (Hf : let p := record_image position descriptor in sub p 0 8 = documentRecordMagic /\ sub p 8 10 = le_enc 2 FormatVersion /\
    sub p 10 12 = le_enc 2 documentRecordHeaderBytes /\ sub p 12 16 = zeros 4 /\ sub p 16 24 = le_enc 8 position /\
    sub p 24 (24 + zlen descriptor) = descriptor).
  { unfold record_image. cbv zeta. repeat split; slice; reflexivity. }
  cbv zeta in Hf. destruct Hf as (-> & -> & -> & -> & -> & ->). rewrite beqb_refl, !le_dec_u64 by (unfold u64; lia).
  destruct (Z.leb_spec (24 + zlen descriptor) 24); [lia|]. cbn -[Z.eqb]. destruct (Z.eqb_spec position 0); [lia|done].
Qed.

Lemma storeDocumentRecord_image tx position value :
  storeDocumentRecord tx position value =
    if position =? 0 then Err ErrCorrupt
    else let* (descriptor, tx) := storeDocumentValue tx value in Ok (record_image position descriptor, tx).
Proof.
  unfold storeDocumentRecord. destruct (position =? 0); [done|]. destruct (storeDocumentValue tx value) as [[d tx']|]; [|done]. cbn [rbind].
  assert (Hm : zlen documentRecordMagic = 8) by done. pose proof (zlen_nonneg d). unfold documentRecordHeaderBytes, FormatVersion.
  match goal with |- Ok (?p, _) = _ => assert (p = record_image position d) as -> end; [|done].
  unfold record_image, FormatVersion, documentRecordHeaderBytes. layout. same_layout.
Qed.

(** ** A stored document *)

(** [stored] is the record of a document at a position. *)
Definition document_record (tx : WriteTxn) (stored : bytes) (r : Z * bytes) : Prop :=
  exists descriptor, stored = record_image r.1 descriptor /\ 0 < r.1 < 2 ^ 64 /\ document_value tx descriptor r.2 /\
    0 < zlen r.2 <= maxDocumentBytes /\ 1 <= zlen descriptor <= inlineDocumentLimit.

Lemma document_record_carries tx tx' stored r : carries tx tx' -> document_record tx stored r -> document_record tx' stored r.
Proof. intros Hc (d & ? & ? & Hd & ?). exists d. do 2 (split; [done|]). split; [by eapply describes_carries|done]. Qed.

Lemma load_document_record tx stored r :
  txn_ok tx -> document_record tx stored r -> (exists d, decodeDocumentRecordDescriptor stored = Ok (r.1, d)) /\
    loadDocumentRecord tx stored = Ok r.
Proof.
  intros Hok (d & -> & Hp & [Hd Hl] & Hv & Hz).
  pose proof (decode_record_image r.1 d Hp ltac:(lia)) as Hdec. unfold loadDocumentRecord. rewrite Hdec. cbn [rbind].
  rewrite (loadDocumentValue_holds tx d r.2 Hok); try done. split; [by exists d|by destruct r].
Qed.

Lemma store_document_record tx position value :
  written [] tx -> 0 < position < 2 ^ 64 -> 0 < zlen value <= maxDocumentBytes ->
  match storeDocumentRecord tx position value with
  | Ok (stored, tx') => quiet tx tx' /\ document_record tx' stored (position, value)
  | Err e => e = ErrStorageLimit
  end.
Proof.
  intros Hw Hp Hv. rewrite storeDocumentRecord_image. destruct (Z.eqb_spec position 0); [lia|].
  pose proof (storeDocumentValue_spec tx value Hw Hv) as Hs. destruct (storeDocumentValue tx value) as [[d tx']|]; cbn [rbind]; [|done].
  destruct Hs as (Hq & Hd & Hz). split; [done|]. exists d. done.
Qed.

(** ** Positions *)

Lemma position_key_ok position : key_ok (insertionPositionKey position).
Proof. unfold key_ok, insertionPositionKey. rewrite zlen_be_enc. unfold maxKey. lia. Qed.

Lemma insertion_key_nonempty position : insertionPositionKey position <> [].
Proof. done. Qed.

Lemma position_key_inj p q : 0 <= p < 2 ^ 64 -> 0 <= q < 2 ^ 64 -> insertionPositionKey p = insertionPositionKey q -> p = q.
Proof.
  unfold insertionPositionKey. intros Hp Hq E. rewrite <- (be_dec_enc 8 p) by done. rewrite <- (be_dec_enc 8 q) by done. by rewrite E.
Qed.

(** The order of the keys is the order of the positions. *)
Lemma position_key_lt p q : 0 <= p < 2 ^ 64 -> 0 <= q < 2 ^ 64 -> blt (insertionPositionKey p) (insertionPositionKey q) <-> p < q.
Proof.
  intros Hp Hq. unfold blt, insertionPositionKey. rewrite bcompare_be_enc by done. by rewrite Z.compare_lt_iff.
Qed.
