(* ===== verification/IndexWrite.v ===== *)
(** * Writing index entries

    The indexes of a collection in a write transaction: [loadCollectionIndexes],
    [prepareIndexMutations], the two passes of [applyIndexMutations] on one index,
    and [uniqueIndexConflict] of [internal/storage/indexes.go]. *)
From stdpp Require Import gmap.
From S2P Require Import Prelude Bytes Strings Layout Hashes PageFormat Entries NodeCodec CowTree.
From S2P Require Import TreeShape TreeInvariant TreeRep TreeDelete TreeScan Tree Flush FileStore Recovery Commit.
From S2P Require Import Atomicity TreeRead Snapshots Transactions Records IndexRecords.
#[local] Open Scope Z_scope.
#[local] Abbreviation put := Bytes.put.

Record IndexMutation := mk_IndexMutation {
  im_Name : bytes;
  im_BeforeKey : bytes;
  im_AfterKey : bytes }.

Record indexWriteState := mk_indexWriteState {
  iw_meta : IndexMeta;
  iw_tree : nodeRef;
  iw_changed : bool }.

(** The Go struct points to the state of the index; here it names it. *)
Record pendingIndexMutation := mk_pendingIndex {
  pi_collection : bytes;
  pi_index : bytes;
  pi_documentID : bytes;
  pi_position : Z;
  pi_beforeKey : bytes;
  pi_afterKey : bytes }.

(** The operations a document mutation can have. *)
Definition DocumentInsert : Z := 1.
Definition DocumentUpdate : Z := 2.
Definition DocumentDelete : Z := 3.

Definition set_entries (meta : IndexMeta) (root entryCount updatedSequence : Z) : IndexMeta :=
  mk_IndexMeta (idx_Name meta) (idx_FieldPath meta) (idx_Fields meta) (idx_Unique meta) root entryCount
    (idx_CreatedSequence meta) updatedSequence (idx_KeyCodecVersion meta).

(** ** Loading *)

(** The states of the definitions of the index catalog, in the order of names. *)
Fixpoint loadIndexes (tx : WriteTxn) (entries : list KeyValue) : result (list (bytes * indexWriteState)) :=
  match entries with
  | [] => Ok []
  | (name, value) :: entries =>
      let* meta := decodeIndexMeta name value in
      let* _ := validateIndexMetaFeatures (tx_requiredFeatures tx) meta in
      let* tree := OpenTree tx TreeSecondary (idx_Root meta) in
      let* rest := loadIndexes tx entries in
      Ok ((name, mk_indexWriteState meta tree false) :: rest)
  end.

Definition loadCollectionIndexes (fuel : nat) (tx : WriteTxn) (indexCatalogRoot : Z) : result (nodeRef * list (bytes * indexWriteState)) :=
  let* indexCatalog := OpenTree tx TreeIndexCatalog indexCatalogRoot in
  let* entries := Scan tx TreeIndexCatalog fuel indexCatalog [] [] 0 in
  let* indexes := loadIndexes tx entries in
  Ok (indexCatalog, indexes).

(** ** Preparing *)

Fixpoint providedIndexes (operation : Z) (provided : list (bytes * IndexMutation)) (items : list IndexMutation)
    : result (list (bytes * IndexMutation)) :=
  match items with
  | [] => Ok provided
  | item :: items =>
      if negb (validIndexName (im_Name item)) then Err ErrCorrupt
      else if (MaxSecondaryScalarKeyBytes <? zlen (im_BeforeKey item)) || (MaxSecondaryScalarKeyBytes <? zlen (im_AfterKey item))
      then Err ErrIndexKeyTooLarge
      else match field provided (im_Name item) with
      | Some _ => Err ErrCorrupt
      | None =>
          if (operation =? DocumentInsert) && negb (zlen (im_BeforeKey item) =? 0) then Err ErrCorrupt
          else if (operation =? DocumentDelete) && negb (zlen (im_AfterKey item) =? 0) then Err ErrCorrupt
          else providedIndexes operation (provided ++ [(im_Name item, item)]) items
      end
  end.

(** One pending mutation for each index, in the order of names. *)
Fixpoint pendingIndexes (collection documentID : bytes) (position : Z) (provided : list (bytes * IndexMutation)) (names : list bytes)
    : result (list pendingIndexMutation) :=
  match names with
  | [] => Ok []
  | name :: names =>
      match field provided name with
      | None => Err ErrCorrupt
      | Some item =>
          let* rest := pendingIndexes collection documentID position provided names in
          Ok (mk_pendingIndex collection name documentID position (im_BeforeKey item) (im_AfterKey item) :: rest)
      end
  end.

(** [names] are those of the indexes of the collection. *)
Definition prepareIndexMutations (collection : bytes) (names : list bytes) (operation : Z) (documentID : bytes)
    (items : list IndexMutation) (position : Z) : result (list pendingIndexMutation) :=
  if (position =? 0) || negb (zlen items =? zlen names) then Err ErrCorrupt
  else
    let* provided := providedIndexes operation [] items in
    pendingIndexes collection documentID position provided names.

(** ** Applying *)

(** The first pass, for one mutation: the old entry goes. *)
Definition removeIndexKey (fuel : nat) (tx : WriteTxn) (state : indexWriteState) (m : pendingIndexMutation) : result indexWriteState :=
  if beqb (pi_beforeKey m) (pi_afterKey m) then
    if zlen (pi_beforeKey m) =? 0 then Ok state
    else
      let* key := secondaryKey (pi_beforeKey m) (pi_position m) (pi_documentID m) in
      let* found := Get tx TreeSecondary fuel (iw_tree state) key in
      match found with
      | None => Err ErrCorrupt
      | Some _ => Ok state
      end
  else if zlen (pi_beforeKey m) =? 0 then Ok state
  else
    let* key := secondaryKey (pi_beforeKey m) (pi_position m) (pi_documentID m) in
    match Delete tx TreeSecondary fuel (iw_tree state) key with
    | Err _ => Err ErrCorrupt
    | Ok (removed, tree, _) =>
        let count := idx_EntryCount (iw_meta state) in
        if negb removed || (count =? 0) then Err ErrCorrupt
        else
          let meta := iw_meta state in
          Ok (mk_indexWriteState (set_entries meta (idx_Root meta) (count - 1) (idx_UpdatedSequence meta)) tree true)
    end.

Definition uniqueIndexConflict (fuel : nat) (tx : WriteTxn) (tree : nodeRef) (scalarKey : bytes) : result bool :=
  let* entries := Scan tx TreeSecondary fuel tree (scalarKey ++ zeros 24) (lexicographicPrefixEnd scalarKey) 1 in
  match entries with
  | [] => Ok false
  | (encoded, _) :: _ =>
      let* (key, _, _) := secondaryKeyParts encoded in
      Ok (beqb key scalarKey)
  end.

(** The second pass: the new entry comes. *)
Definition insertIndexKey (fuel : nat) (tx : WriteTxn) (state : indexWriteState) (m : pendingIndexMutation) : result indexWriteState :=
  if beqb (pi_beforeKey m) (pi_afterKey m) then Ok state
  else if zlen (pi_afterKey m) =? 0 then Ok state
  else
    let* key := secondaryKey (pi_afterKey m) (pi_position m) (pi_documentID m) in
    let* found := Get tx TreeSecondary fuel (iw_tree state) key in
    match found with
    | Some _ => Err ErrDuplicateEntry
    | None =>
        let meta := iw_meta state in
        let* conflict := if idx_Unique meta then uniqueIndexConflict fuel tx (iw_tree state) (pi_afterKey m) else Ok false in
        if conflict then Err ErrUniqueConflict
        else
          let* (tree, _) := Put tx TreeSecondary fuel (iw_tree state) key [x00] in
          Ok (mk_indexWriteState (set_entries meta (idx_Root meta) (to_u64 (idx_EntryCount meta + 1)) (idx_UpdatedSequence meta)) tree true)
    end.

(** ** Ranges of a prefix *)

Lemma prefixEndLoop_shape r :
  (Forall (fun b => b = xff) r /\ prefixEndLoop r = None) \/
  exists n b p, r = replicate n xff ++ b :: p /\ b2z b < 255 /\ prefixEndLoop r = Some (rev (z2b (b2z b + 1) :: p)).
Proof.
  induction r as [|b r IH]; cbn [prefixEndLoop]; [by left|]. destruct (Z.eqb_spec (b2z b) 255) as [E|E].
  - assert (b = xff) as -> by (apply b2z_inj; by rewrite E). destruct IH as [[Hr ->]|(n & c & p & -> & Hc & ->)].
    + left. split; [by constructor|done].
    + right. exists (S n), c, p. done.
  - right. exists O, b, r. split; [done|]. split; [|done]. pose proof (b2z_range b). lia.
Qed.

Lemma above_ones ones x : Forall (fun b => b = xff) ones -> ~ blt x ones -> ones `prefix_of` x.
Proof.
  intros Ho. revert x; induction Ho as [|b ones -> Ho IH]; intros x Hx; [apply prefix_nil|].
  destruct x as [|c x]; [by destruct Hx|]. unfold blt in Hx. cbn in Hx. pose proof (b2z_range c) as Hc. change (b2z xff) with 255 in Hx.
  destruct (Z.compare_spec (b2z c) 255) as [E|E|E]; [|done|lia]. assert (c = xff) as -> by (apply b2z_inj; by rewrite E).
  apply prefix_cons, IH, Hx.
Qed.

Lemma prefix_range k x :
  ~ blt x k -> lexicographicPrefixEnd k = [] \/ blt x (lexicographicPrefixEnd k) -> k `prefix_of` x.
Proof.
  unfold lexicographicPrefixEnd. intros Hlo Hhi.
  destruct (prefixEndLoop_shape (rev k)) as [[Hk _]|(n & b & p & Hk & Hb & E)].
  - apply above_ones; [|done]. rewrite <- (rev_involutive k). by apply Forall_rev.
  - rewrite E in Hhi. cbn [default from_option id] in Hhi. assert (k = rev p ++ b :: replicate n xff) as ->.
    { rewrite <- (rev_involutive k), Hk, rev_app_distr. cbn [rev]. rewrite <- app_assoc. cbn [app]. do 2 f_equal.
      clear. induction n as [|n IH]; [done|]. cbn. rewrite IH. clear. by induction n as [|n IH]; [|cbn; rewrite IH]. }
    destruct Hhi as [Hhi|Hhi]; [by destruct (rev p) eqn:Ep; cbn in Hhi; rewrite Ep in Hhi|]. cbn [rev] in Hhi.
    revert x Hlo Hhi. generalize (rev p) as q. clear p Hk E. intros q; induction q as [|c q IH]; intros x Hlo Hhi; cbn [app] in *.
    + destruct x as [|d x]; [by destruct Hlo|]. unfold blt in Hlo, Hhi. cbn in Hlo, Hhi.
      assert (Hz : b2z (z2b (b2z b + 1)) = b2z b + 1) by (rewrite b2z_z2b; apply Z.mod_small; pose proof (b2z_range b); lia). rewrite Hz in Hhi.
      assert (b2z d = b2z b) as Hd%b2z_inj.
      { destruct (Z.compare_spec (b2z d) (b2z b)); try done. destruct (Z.compare_spec (b2z d) (b2z b + 1)); try done; [by destruct x|lia]. }
      subst d. rewrite Z.compare_refl in Hlo. apply prefix_cons. apply above_ones; [|exact Hlo]. apply Forall_replicate. done.
    + destruct x as [|d x]; [by destruct Hlo|]. unfold blt in Hlo, Hhi. cbn in Hlo, Hhi.
      destruct (Z.compare_spec (b2z d) (b2z c)) as [Hd|Hd|Hd]; try done. apply b2z_inj in Hd as ->. by apply prefix_cons, IH.
Qed.

Lemma prefix_below_end k x : k `prefix_of` x -> lexicographicPrefixEnd k = [] \/ blt x (lexicographicPrefixEnd k).
Proof.
  unfold lexicographicPrefixEnd. intros [t ->].
  destruct (prefixEndLoop_shape (rev k)) as [[Hk ->]|(n & b & p & Hk & Hb & ->)]; [by left|right]. cbn [default from_option id rev].
  rewrite <- (rev_involutive k), Hk, rev_app_distr. cbn [rev]. rewrite <- !app_assoc. unfold blt. rewrite bcompare_app_same. cbn.
  assert (Hz : b2z (z2b (b2z b + 1)) = b2z b + 1) by (rewrite b2z_z2b; apply Z.mod_small; pose proof (b2z_range b); lia). rewrite Hz.
  destruct (Z.compare_spec (b2z b) (b2z b + 1)); [lia|done|lia].
Qed.

(** ** Entries *)

(** A value, the insertion position and the identifier of a document that has it. *)
Record posting := mk_posting {
  po_key : bytes;
  po_position : Z;
  po_document : bytes }.

Definition identity_ok (position : Z) (documentID : bytes) : Prop :=
  0 < position < 2 ^ 64 /\ zlen documentID = 16 /\ all_zero documentID = false.

Definition key_fits (key : bytes) : Prop := 0 < zlen key <= MaxSecondaryScalarKeyBytes.

Definition entry_key (key : bytes) (position : Z) (documentID : bytes) : bytes := key ++ be_enc 8 position ++ documentID.

Definition posting_ok (p : posting) : Prop := key_fits (po_key p) /\ identity_ok (po_position p) (po_document p).

Definition posting_entry (p : posting) : KeyValue := (entry_key (po_key p) (po_position p) (po_document p), [x00]).

Lemma secondaryKey_entry key position documentID :
  key_fits key -> identity_ok position documentID -> secondaryKey key position documentID = Ok (entry_key key position documentID).
Proof.
  intros Hk (Hp & Hd & Hz). unfold secondaryKey, key_fits in *. destruct (Z.ltb_spec MaxSecondaryScalarKeyBytes (zlen key)); [lia|].
  destruct (Z.eqb_spec (zlen key) 0); [lia|]. destruct (Z.eqb_spec position 0); [lia|]. rewrite Hz. cbn [orb].
  match goal with |- Ok ?p = _ => assert (p = entry_key key position documentID) as -> end; [|done].
  unfold entry_key. pose proof (zlen_nonneg key). layout. same_layout.
Qed.

Lemma zlen_entry_key key position documentID : zlen (entry_key key position documentID) = zlen key + 8 + zlen documentID.
Proof. unfold entry_key. rewrite !zlen_app, zlen_be_enc. lia. Qed.

Lemma secondaryKeyParts_entry key position documentID :
  key_fits key -> identity_ok position documentID ->
  secondaryKeyParts (entry_key key position documentID) = Ok (key, position, documentID).
Proof.
  intros Hk (Hp & Hd & Hz). unfold secondaryKeyParts, key_fits, MaxSecondaryScalarKeyBytes in *. rewrite zlen_entry_key, Hd.
  destruct (Z.leb_spec (zlen key + 8 + 16) 24); [lia|]. destruct (Z.ltb_spec 4096 (zlen key + 8 + 16)); [lia|]. cbn [orb].
  assert (Hf : let e := entry_key key position documentID in let n := zlen key in
    sub e (n + 8 + 16 - 16) (n + 8 + 16) = documentID /\ sub e (n + 8 + 16 - 16 - 8) (n + 8 + 16 - 16 - 8 + 8) = be_enc 8 position /\
    sub e 0 (n + 8 + 16 - 16 - 8) = key).
  { unfold entry_key. cbv zeta. repeat split; slice; reflexivity. }
  cbv zeta in Hf. destruct Hf as (-> & -> & ->). rewrite be_dec_enc by (change (256 ^ Z.of_nat 8) with (2 ^ 64); lia). destruct (Z.eqb_spec position 0); [lia|]. by rewrite Hz.
Qed.

(** The entries of an index whose values all are keys of [K]. *)
Definition index_entries (K : bytes -> Prop) (l : list KeyValue) : Prop :=
  Forall (fun e => exists p, posting_ok p /\ K (po_key p) /\ e = posting_entry p) l.

Definition prefix_free (K : bytes -> Prop) : Prop := forall a b, K a -> K b -> a `prefix_of` b -> a = b.

Lemma entry_key_ok key position documentID : key_fits key -> identity_ok position documentID -> key_ok (entry_key key position documentID).
Proof. intros Hk (_ & Hd & _). unfold key_ok, maxKey. rewrite zlen_entry_key, Hd. unfold key_fits, MaxSecondaryScalarKeyBytes in *. lia. Qed.

Lemma entry_small key position documentID : key_fits key -> identity_ok position documentID -> small_entry (entry_key key position documentID, [x00]).
Proof.
  intros Hk (_ & Hd & _). unfold small_entry. cbn [fst snd]. rewrite zlen_entry_key, Hd. change half_capacity with 8144.
  change (zlen [x00]) with 1. unfold key_fits, MaxSecondaryScalarKeyBytes in *. lia.
Qed.

Lemma index_entries_small K l : index_entries K l -> Forall small_entry l.
Proof. intros Hl. eapply Forall_impl; [exact Hl|]. intros e (p & [? ?] & _ & ->). by apply entry_small. Qed.

(** The entry of a posting in a list of entries. *)
Definition has_value (key : bytes) (e : KeyValue) : bool :=
  match secondaryKeyParts e.1 with
  | Ok (k, _, _) => beqb k key
  | Err _ => false
  end.

Lemma has_value_entry key p : posting_ok p -> has_value key (posting_entry p) = beqb (po_key p) key.
Proof. intros [Hk Hi]. unfold has_value, posting_entry. cbn [fst]. by rewrite secondaryKeyParts_entry. Qed.

(** In range of the scan for a value: exactly the entries with the value. *)
Lemma value_range K key e :
  prefix_free K -> K key -> (exists p, posting_ok p /\ K (po_key p) /\ e = posting_entry p) ->
  in_bounds (key ++ zeros 24) (lexicographicPrefixEnd key) e = has_value key e.
Proof.
  intros HK Hkey (p & Hp & HKp & ->). rewrite has_value_entry by done. destruct Hp as [Hk (Hpos & Hd & Hz)].
  unfold in_bounds, posting_entry. cbn [fst]. destruct (beqb (po_key p) key) eqn:E.
  - apply beqb_eq in E as ->. apply andb_true_iff. split.
    + apply orb_true_iff. right. apply negb_true_iff, bltb_ge. unfold blt, entry_key. rewrite bcompare_app_same.
      assert (Hlen : length (be_enc 8 (po_position p) ++ po_document p) = length (zeros 24)).
      { pose proof (zlen_app (be_enc 8 (po_position p)) (po_document p)) as Hl. rewrite zlen_be_enc, Hd in Hl. unfold zlen in Hl.
        unfold zeros. rewrite length_replicate. lia. }
      rewrite bcompare_be_dec by done. rewrite be_dec_zeros. pose proof (be_dec_range (be_enc 8 (po_position p) ++ po_document p)).
      intros Hc. rewrite Z.compare_lt_iff in Hc. lia.
    + apply orb_true_iff.
      destruct (prefix_below_end key (entry_key key (po_position p) (po_document p))) as [->|Hb];
        [by exists (be_enc 8 (po_position p) ++ po_document p)|by left|right; by apply bltb_lt].
  - apply beqb_neq in E. apply andb_false_iff. destruct (bltb (entry_key (po_key p) (po_position p) (po_document p)) (key ++ zeros 24)) eqn:El.
    { left. destruct (beqb (key ++ zeros 24) []) eqn:E0; [|done]. apply beqb_eq in E0. by destruct key. }
    right. apply bltb_ge in El. destruct (_ || _) eqn:Hup; [|done]. exfalso. apply E. symmetry.
    assert (Hpre : key `prefix_of` entry_key (po_key p) (po_position p) (po_document p)).
    { apply prefix_range.
      - intros Hlt. apply El. eapply blt_le_trans; [exact Hlt|]. unfold blt.
        rewrite <- (app_nil_r key) at 2. by rewrite bcompare_app_same.
      - apply orb_true_iff in Hup as [Hup|Hup]; [left; by apply beqb_eq|right; by apply bltb_lt]. }
    destruct (prefix_weak_total key (po_key p) _ Hpre ltac:(by exists (be_enc 8 (po_position p) ++ po_document p)));
      [by apply HK|symmetry; by apply HK].
Qed.

(** ** What the two passes do to one index *)

Definition old_entry (m : pendingIndexMutation) : bytes := entry_key (pi_beforeKey m) (pi_position m) (pi_documentID m).
Definition new_entry (m : pendingIndexMutation) : bytes := entry_key (pi_afterKey m) (pi_position m) (pi_documentID m).

Definition remove_posting (l : list KeyValue) (m : pendingIndexMutation) : option (list KeyValue) :=
  if zlen (pi_beforeKey m) =? 0 then Some l
  else if negb (found l (old_entry m)) then None
  else if beqb (pi_beforeKey m) (pi_afterKey m) then Some l
  else Some (del (old_entry m) l).

Definition add_posting (unique : bool) (l : list KeyValue) (m : pendingIndexMutation) : result (list KeyValue) :=
  if beqb (pi_beforeKey m) (pi_afterKey m) || (zlen (pi_afterKey m) =? 0) then Ok l
  else if found l (new_entry m) then Err ErrDuplicateEntry
  else if unique && existsb (has_value (pi_afterKey m)) l then Err ErrUniqueConflict
  else Ok (ins (new_entry m) [x00] l).

Record pending_ok (K : bytes -> Prop) (m : pendingIndexMutation) : Prop := {
  po_identity : identity_ok (pi_position m) (pi_documentID m);
  po_before : pi_beforeKey m = [] \/ key_fits (pi_beforeKey m) /\ K (pi_beforeKey m);
  po_after : pi_afterKey m = [] \/ key_fits (pi_afterKey m) /\ K (pi_afterKey m) }.

(** The tree of the state holds the entries. *)
Definition index_state (tx : WriteTxn) (h : nat) (st : indexWriteState) (l : list KeyValue) : Prop :=
  live tx TreeSecondary h (iw_tree st) l /\ idx_EntryCount (iw_meta st) = zlen l.

(** Only the entries and their number change, and a change is noted. *)
Definition evolves (st : indexWriteState) (l : list KeyValue) (st' : indexWriteState) (l' : list KeyValue) : Prop :=
  iw_meta st' = set_entries (iw_meta st) (idx_Root (iw_meta st)) (idx_EntryCount (iw_meta st')) (idx_UpdatedSequence (iw_meta st)) /\
  (iw_changed st' = true \/ st' = st /\ l' = l).

Lemma set_entries_same m : set_entries m (idx_Root m) (idx_EntryCount m) (idx_UpdatedSequence m) = m.
Proof. by destruct m. Qed.

Lemma evolves_refl st l : evolves st l st l.
Proof. split; [by rewrite set_entries_same|by right]. Qed.

Lemma evolves_trans a la b lb c lc : evolves a la b lb -> evolves b lb c lc -> evolves a la c lc.
Proof.
  intros [H1 H2] [H3 H4]. split.
  - rewrite H3 at 1. rewrite H1. done.
  - destruct H4 as [?|[-> ->]]; [by left|exact H2].
Qed.

Section Passes.
Variables (K : bytes -> Prop) (fuel : nat) (tx : WriteTxn) (h : nat) (st : indexWriteState) (l : list KeyValue) (m : pendingIndexMutation).
Hypothesis Hst : index_state tx h st l.
Hypothesis Hl : index_entries K l.
Hypothesis Hm : pending_ok K m.
Hypothesis Hmax : zlen l + 1 < 2 ^ 64.
Hypothesis Hfuel : (S h < fuel)%nat.

Lemma index_state_up st' l' : index_state tx h st' l' -> index_state tx (S h) st' l'.
Proof. intros [Hlive Hc]. split; [|done]. eapply live_mono; [|exact Hlive]. lia. Qed.

Lemma removeIndexKey_spec :
  match remove_posting l m with
  | Some l' => exists st', removeIndexKey fuel tx st m = Ok st' /\ index_state tx (S h) st' l' /\ evolves st l st' l' /\
      index_entries K l' /\ zlen l' <= zlen l
  | None => removeIndexKey fuel tx st m = Err ErrCorrupt
  end.
Proof.
  pose proof Hst as [Hlive Hc]. destruct Hm as [Hid Hb _]. unfold remove_posting, removeIndexKey, old_entry.
  assert (Hkeep : exists st', Ok st = Ok st' /\ index_state tx (S h) st' l /\ evolves st l st' l /\ index_entries K l /\ zlen l <= zlen l).
  { exists st. split; [done|]. split; [by apply index_state_up|]. split; [apply evolves_refl|]. split; [done|lia]. }
  destruct (Z.eqb_spec (zlen (pi_beforeKey m)) 0) as [Hz|Hz]; [by destruct (beqb _ _)|].
  destruct Hb as [Hb|[Hk HK]]; [by rewrite Hb in Hz|]. rewrite (secondaryKey_entry _ _ _ Hk Hid). cbn [rbind].
  set (key := entry_key _ _ _). destruct (beqb (pi_beforeKey m) (pi_afterKey m)).
  - rewrite (get_live tx h (iw_tree st) l key fuel Hlive) by lia. unfold found. cbn [rbind]. by destruct (field l key).
  - assert (Hne : key <> []) by (intros E; pose proof (f_equal zlen E) as Ez; unfold key in Ez; rewrite zlen_entry_key in Ez; change (zlen []) with 0 in Ez; pose proof (zlen_nonneg (pi_documentID m)); pose proof (zlen_nonneg (pi_beforeKey m)); lia).
    destruct (delete_live tx h (iw_tree st) l key fuel Hlive ltac:(lia) ltac:(lia) Hne) as (tree' & counts & -> & Hlive').
    unfold found in *. destruct (field l key) as [v|] eqn:Ef; cbn [negb orb]; [|done].
    assert (Hpos : zlen l = zlen (del key l) + 1).
    { rewrite (length_del key l), Ef. lia. }
    rewrite Hc. destruct (Z.eqb_spec (zlen l) 0); [pose proof (zlen_nonneg (del key l)); lia|].
    eexists. split; [done|]. split; [split; [exact Hlive'|cbn; lia]|]. split; [split; [done|by left]|]. split; [|lia].
    unfold index_entries in *. rewrite Forall_forall in *. intros e He. apply Hl. by eapply del_incl.
Qed.

Lemma uniqueIndexConflict_spec :
  prefix_free K -> K (pi_afterKey m) -> pi_afterKey m <> [] ->
  uniqueIndexConflict fuel tx (iw_tree st) (pi_afterKey m) = Ok (existsb (has_value (pi_afterKey m)) l).
Proof.
  intros HK Hkey Hne. unfold uniqueIndexConflict. destruct Hst as [(h' & Hh & Hr & _) _]. rewrite (Scan_rep tx TreeSecondary h' _ l) by (done || lia).
  set (key := pi_afterKey m) in *. set (end_ := lexicographicPrefixEnd key).
  assert (Hord : negb (beqb (key ++ zeros 24) []) && negb (beqb end_ []) && bltb end_ (key ++ zeros 24) = false).
  { destruct (beqb end_ []) eqn:E; [by rewrite andb_false_r|]. rewrite andb_true_r. apply andb_false_iff. right. apply bltb_ge.
    apply blt_asym. destruct (prefix_below_end key (key ++ zeros 24)) as [E'|?]; [by eexists| |done].
    fold end_ in E'. rewrite E' in E. done. }
  rewrite Hord. cbn [rbind]. unfold scan_result.
  assert (Hfil : List.filter (in_bounds (key ++ zeros 24) end_) l = List.filter (has_value key) l).
  { clear -Hl HK Hkey. induction Hl as [|e l' He Hl' IH]; [done|]. cbn [List.filter]. unfold end_. rewrite (value_range K key e HK Hkey He).
    fold end_. by rewrite IH. }
  rewrite Hfil. unfold grab. cbn [Z.ltb Z.compare app]. change (Z.to_nat (1 - zlen (@nil KeyValue))) with 1%nat.
  clear -Hl. induction Hl as [|e l' (p & Hp & HK & ->) Hl' IH]; [done|]. cbn [List.filter existsb].
  destruct (has_value key (posting_entry p)) eqn:E; cbn [orb take]; [|exact (IH Hl')].
  unfold has_value in E. destruct (posting_entry p) as [k v]. cbn [fst] in E. destruct (secondaryKeyParts k) as [[[k' p'] d']|]; [|done].
  cbn [rbind]. by rewrite E.
Qed.

Lemma insertIndexKey_spec :
  prefix_free K ->
  match add_posting (idx_Unique (iw_meta st)) l m with
  | Ok l' => exists st', insertIndexKey fuel tx st m = Ok st' /\ index_state tx (S h) st' l' /\ evolves st l st' l' /\
      index_entries K l' /\ zlen l' <= zlen l + 1
  | Err e => insertIndexKey fuel tx st m = Err e
  end.
Proof.
  intros HK. pose proof Hst as [Hlive Hc]. destruct Hm as [Hid _ Ha]. unfold add_posting, insertIndexKey, new_entry.
  assert (Hkeep : exists st', Ok st = Ok st' /\ index_state tx (S h) st' l /\ evolves st l st' l /\ index_entries K l /\ zlen l <= zlen l + 1).
  { exists st. split; [done|]. split; [by apply index_state_up|]. split; [apply evolves_refl|]. split; [done|lia]. }
  destruct (beqb (pi_beforeKey m) (pi_afterKey m)); [done|]. cbn [orb].
  destruct (Z.eqb_spec (zlen (pi_afterKey m)) 0) as [Hz|Hz]; [done|].
  destruct Ha as [Ha|[Hk HKa]]; [by rewrite Ha in Hz|]. rewrite (secondaryKey_entry _ _ _ Hk Hid). cbn [rbind].
  set (key := entry_key _ _ _). rewrite (get_live tx h (iw_tree st) l key fuel Hlive) by lia. unfold found. cbn [rbind].
  destruct (field l key) as [v|] eqn:Ef; [done|].
  assert (Hu : (if idx_Unique (iw_meta st) then uniqueIndexConflict fuel tx (iw_tree st) (pi_afterKey m) else Ok false) =
    Ok (idx_Unique (iw_meta st) && existsb (has_value (pi_afterKey m)) l)).
  { destruct (idx_Unique _); [|done]. apply uniqueIndexConflict_spec; [done|done|]. intros E. rewrite E in Hz. done. }
  rewrite Hu. cbn [rbind]. destruct (idx_Unique _ && _); [done|].
  pose proof (put_live tx h (iw_tree st) l key [x00] fuel Hlive Hmax ltac:(lia) (entry_key_ok _ _ _ Hk Hid)) as Hput.
  destruct (Put tx TreeSecondary fuel (iw_tree st) key [x00]) as [[tree' s]|]; cbn [rbind].
  2: { exfalso. destruct Hput as [_ Hn]. apply Hn. constructor; [by apply entry_small|by eapply index_entries_small]. }
  assert (Hz' : zlen (ins key [x00] l) = zlen l + 1).
  { rewrite length_ins by (by eapply live_sorted). rewrite Ef. lia. }
  eexists. split; [done|]. split; [split; [exact Hput|cbn]|].
  { rewrite Hc, Hz'. apply Z.mod_small. pose proof (zlen_nonneg l). lia. }
  split; [split; [done|by left]|]. split; [|lia]. unfold index_entries in *. rewrite Forall_forall in *. intros e He.
  apply ins_incl in He as [->|He]; [|by apply Hl]. exists (mk_posting (pi_afterKey m) (pi_position m) (pi_documentID m)). done.
Qed.
End Passes.
