(* ===== verification/CommitLog.v ===== *)
(** * The commit log

    [internal/storage/commitlog.go]: a tree that holds, for every retained commit,
    a header and its changes. Commits are appended with the next sequence; the
    oldest ones are removed within the limits of the file, never past a position
    that a replay, an index build or a durable consumer still needs. *)
From stdpp Require Import gmap.
From Stdlib Require Import Sorted.
From S2P Require Import Prelude Bytes Strings Layout Hashes PageFormat Entries NodeCodec CowTree.
From S2P Require Import TreeShape TreeInvariant TreeRep TreeDelete TreeScan Tree Flush FileStore Recovery Commit.
From S2P Require Import Atomicity TreeRead Snapshots Records StoredValues CommitCodec IndexRecords IndexBuilds SystemRecords.
#[local] Open Scope Z_scope.
#[local] Abbreviation put := Bytes.put.

(** ** Data *)

Definition commitHeaderBytes : Z := 96.
Definition commitMagic : bytes := bs "MELDCMT2".

(** The time is in nanoseconds since 1970. *)
Record CommitBatch := mk_CommitBatch {
  bt_Sequence : Z;
  bt_TransactionID : bytes;
  bt_CommittedAt : Z;
  bt_CatalogRoot : Z;
  bt_Changes : list CommitChange }.

(** ** Appending *)

Fixpoint encodeChanges (logicalBytes : Z) (changes : list CommitChange) : result (list bytes * Z) :=
  match changes with
  | [] => Ok ([], logicalBytes)
  | change :: changes =>
      let* encoded := encodeCommitChange change in
      if maxUint64 - logicalBytes <? zlen encoded then Err ErrCorrupt
      else
        let* (rest, logicalBytes) := encodeChanges (logicalBytes + zlen encoded) changes in
        Ok (encoded :: rest, logicalBytes)
  end.

(** What the hash of a batch covers: every change after its length. *)
Definition changesHash (encodedChanges : list bytes) : bytes :=
  Sha256.sum (concat ((fun encoded => le_enc 4 (zlen encoded) ++ encoded) <$> encodedChanges)).

Definition commitHeader (batch : CommitBatch) (encodedChanges : list bytes) : bytes :=
  let header := zeros commitHeaderBytes in
  let header := put header 0 commitMagic in
  let header := put header 8 (le_enc 2 FormatVersion) in
  let header := put header 16 (le_enc 8 (bt_Sequence batch)) in
  let header := put header 24 (bt_TransactionID batch) in
  let header := put header 40 (le_enc 8 (bt_CommittedAt batch)) in
  let header := put header 48 (le_enc 4 (zlen (bt_Changes batch))) in
  let header := put header 56 (le_enc 8 (bt_CatalogRoot batch)) in
  put header 64 (changesHash encodedChanges).

(** [commitBatchLogicalBytes]: the sizes of the encodings, computed from a
    decoded batch. *)
Fixpoint pathBytes (size : Z) (paths : list bytes) : result Z :=
  match paths with
  | [] => Ok size
  | path :: paths => if maxUint64 - size <? 2 + zlen path then Err ErrCorrupt else pathBytes (size + (2 + zlen path)) paths
  end.

Fixpoint changesBytes (total : Z) (changes : list CommitChange) : result Z :=
  match changes with
  | [] => Ok total
  | change :: changes =>
      let* size := pathBytes (52 + zlen (ch_CollectionName change) + zlen (ch_Before change) + zlen (ch_After change)) (ch_ChangedPaths change) in
      if (maxCommitValueBytes <? size) || (maxUint64 - total <? size) then Err ErrCorrupt else changesBytes (total + size) changes
  end.

Definition commitBatchLogicalBytes (batch : CommitBatch) : result Z := changesBytes commitHeaderBytes (bt_Changes batch).

Definition storedCommitLogicalBytes (stored : bytes) : result Z :=
  match stored with
  | [] => Err ErrCorrupt
  | tag :: rest =>
      if b2z tag =? 0 then Ok (zlen rest)
      else if negb (b2z tag =? 1) || negb (zlen stored =? 49) then Err ErrCorrupt
      else
        let total := le_dec (sub stored 1 9) in
        if (total <? inlineCommitValueLimit) || (maxCommitValueBytes <? total) || (le_dec (sub stored 9 17) <? 2) then Err ErrCorrupt
        else Ok total
  end.

Section CommitLog.
(** Bounds the depth of the trees. *)
Variable fuel : nat.

(** The loop that stores the encoded changes, from an ordinal on. *)
Fixpoint putChanges (tx : WriteTxn) (tree : nodeRef) (sequence ordinal : Z) (encodedChanges : list bytes) : result (nodeRef * WriteTxn) :=
  match encodedChanges with
  | [] => Ok (tree, tx)
  | encoded :: encodedChanges =>
      let* (stored, tx) := storeCommitValue tx encoded in
      let* (tree, _) := Put tx TreeCommitLog fuel tree (commitKey sequence ordinal) stored in
      putChanges tx tree sequence (ordinal + 1) encodedChanges
  end.

(** The logical size of the batch, the tree and the transaction after it. *)
Definition appendCommitToTree (tx : WriteTxn) (tree : nodeRef) (batch : CommitBatch) : result (Z * nodeRef * WriteTxn) :=
  if negb (bt_Sequence batch =? tx_sequence tx) || (bt_Sequence batch =? 0) || all_zero (bt_TransactionID batch)
     || (zlen (bt_Changes batch) =? 0) || (2 ^ 32 - 1 - 1 <? zlen (bt_Changes batch)) then Err ErrCorrupt
  else
    let* (encodedChanges, logicalBytes) := encodeChanges commitHeaderBytes (bt_Changes batch) in
    if negb (bt_CatalogRoot batch =? 0) && (bt_CatalogRoot batch <? 2) then Err ErrCorrupt
    else
      let* _ := if negb (bt_CatalogRoot batch =? 0) then let* _ := OpenTree tx TreeCatalog (bt_CatalogRoot batch) in Ok tt else Ok tt in
      let* (storedHeader, tx) := storeCommitValue tx (commitHeader batch encodedChanges) in
      let* (tree, _) := Put tx TreeCommitLog fuel tree (commitKey (bt_Sequence batch) 0) storedHeader in
      let* (tree, tx) := putChanges tx tree (bt_Sequence batch) 1 encodedChanges in
      Ok (logicalBytes, tree, tx).

Definition AppendCommit (tx : WriteTxn) (rootPage : Z) (batch : CommitBatch) : result (Z * WriteTxn) :=
  let* tree := OpenTree tx TreeCommitLog rootPage in
  let* (logicalBytes, tree, tx) := appendCommitToTree tx tree batch in
  if maxUint64 - tx_retainedCommitBytes tx <? logicalBytes then Err ErrCorrupt
  else Flush TreeCommitLog (set_retention tx true (tx_retainedCommitBytes tx + logicalBytes)) tree.

(** ** Reading *)

(** The loop over the changes: decoded and encoded. *)
Fixpoint readChanges (tx : WriteTxn) (get : bytes -> result (option bytes)) (sequence ordinal : Z) (n : nat)
    : result (list CommitChange * list bytes) :=
  match n with
  | O => Ok ([], [])
  | S n =>
      match get (commitKey sequence ordinal) with
      | Ok (Some stored) =>
          let* encoded := loadCommitValue tx stored in
          let* change := decodeCommitChange encoded in
          let* (changes, all) := readChanges tx get sequence (ordinal + 1) n in
          Ok (change :: changes, encoded :: all)
      | _ => Err ErrCorrupt
      end
  end.

Definition validCommitHeader (header : bytes) (sequence : Z) : bool :=
  (zlen header =? commitHeaderBytes) && beqb (sub header 0 8) commitMagic && (le_dec (sub header 8 10) =? FormatVersion)
  && all_zero (sub header 10 16) && (le_dec (sub header 16 24) =? sequence) && all_zero (sub header 52 56).

Definition readCommitUsing (tx : WriteTxn) (sequence : Z) (get : bytes -> result (option bytes)) : result CommitBatch :=
  if sequence =? 0 then Err ErrCorrupt
  else
    let* storedHeader := get (commitKey sequence 0) in
    match storedHeader with
    | None => Err ErrCorrupt
    | Some storedHeader =>
        match loadCommitValue tx storedHeader with
        | Err _ => Err ErrCorrupt
        | Ok header =>
            if negb (validCommitHeader header sequence) then Err ErrCorrupt
            else
              let count := le_dec (sub header 48 52) in
              if count =? 0 then Err ErrCorrupt
              else
                let catalogRoot := le_dec (sub header 56 64) in
                if negb (catalogRoot =? 0) && (catalogRoot <? 2) then Err ErrCorrupt
                else if all_zero (sub header 24 40) then Err ErrCorrupt
                else
                  let* (changes, encoded) := readChanges tx get sequence 1 (Z.to_nat count) in
                  if negb (beqb (sub header 64 96) (changesHash encoded)) then Err ErrCorrupt
                  else Ok (mk_CommitBatch sequence (sub header 24 40) (to_i64 (le_dec (sub header 40 48))) catalogRoot changes)
        end
    end.

Definition readCommitFromTree (tx : WriteTxn) (tree : nodeRef) (sequence : Z) : result CommitBatch :=
  if sequence =? 0 then Err ErrCorrupt else readCommitUsing tx sequence (Get tx TreeCommitLog fuel tree).

Definition readCommitUnlocked (f : File) (rootPage sequence : Z) : result CommitBatch :=
  let* batch := readCommitUsing (readerTxn f) sequence (treeGetUnlocked f TreeCommitLog fuel rootPage) in
  let* _ := validateTreeRootUnlocked f TreeCatalog (bt_CatalogRoot batch) in
  Ok batch.

Definition ReadCommit (f : File) (rootPage sequence : Z) : result CommitBatch :=
  if sequence =? 0 then Err ErrCorrupt else readCommitUnlocked f rootPage sequence.

(** ** Retention *)

(** The earliest position the replay pins allow to remove up to. *)
Definition pinFloor (limit : Z) (pins : list readerPin) : Z :=
  fold_left (fun limit pin =>
    if negb (pin_replay pin) then limit
    else
      let protected := to_u64 (pin_sequence pin + 1) in
      let protected := if protected =? 0 then pin_sequence pin else protected in
      if protected <? limit then protected else limit) pins limit.

(** The same for the index builds in the catalog of builds. *)
Fixpoint buildFloor (oldest latest limit : Z) (items : list KeyValue) : result Z :=
  match items with
  | [] => Ok limit
  | (key, value) :: items =>
      let* build := decodeIndexBuildMeta key value in
      if (bld_Phase build =? IndexBuildFailed) || (latest <=? bld_AppliedSequence build) then buildFloor oldest latest limit items
      else
        let protected := to_u64 (bld_AppliedSequence build + 1) in
        if (protected =? 0) || (protected <? oldest) then Err ErrCorrupt
        else buildFloor oldest latest (if protected <? limit then protected else limit) items
  end.

Definition indexBuildFloor (tx : WriteTxn) (oldest latest limit : Z) : result Z :=
  let catalog := root_IndexBuildCatalogRoot (tx_baseRoot tx) in
  if catalog =? 0 then Ok limit
  else
    let* builds := OpenTree tx TreeIndexBuildCatalog catalog in
    match Scan tx TreeIndexBuildCatalog fuel builds [] [] (MaxConcurrentIndexBuilds + 1) with
    | Err _ => Err ErrCorrupt
    | Ok items => if MaxConcurrentIndexBuilds <? zlen items then Err ErrCorrupt else buildFloor oldest latest limit items
    end.

(** What removal may not go past: [pinnedLimit] of [pruneCommitTree]. *)
Definition pruneLimit (tx : WriteTxn) (oldest latest : Z) : result Z :=
  let limit := pinFloor latest (map_to_list (f_readers (tx_file tx))).*2 in
  let* limit := indexBuildFloor tx oldest latest limit in
  let* durableFloor := durableConsumerRetentionFloor fuel tx (root_CatalogRoot (tx_baseRoot tx)) oldest latest in
  let limit := if negb (durableFloor =? 0) && (durableFloor <? limit) then durableFloor else limit in
  Ok (if limit <? oldest then oldest else limit).

(** The first sequence that the window of retained commits holds. *)
Definition windowStart (f : File) (latest : Z) : Z :=
  let window := if f_commitRetentionMax f =? 0 then DefaultCommitRetentionMaxCommits else f_commitRetentionMax f in
  if window <=? latest then latest - window + 1 else 1.

Definition retentionMaxBytes (f : File) : Z :=
  if f_commitRetentionMaxBytes f =? 0 then DefaultCommitRetentionMaxBytes else f_commitRetentionMaxBytes f.

(** The loop over the ordinals of a commit. *)
Fixpoint deleteOrdinals (tx : WriteTxn) (tree : nodeRef) (sequence ordinal : Z) (n : nat) : result nodeRef :=
  match n with
  | O => Ok tree
  | S n =>
      match Delete tx TreeCommitLog fuel tree (commitKey sequence ordinal) with
      | Ok (true, tree, _) => deleteOrdinals tx tree sequence (ordinal + 1) n
      | _ => Err ErrCorrupt
      end
  end.

(** One turn of the loop: the tree without the commit and the bytes left. *)
Definition removeCommit (tx : WriteTxn) (tree : nodeRef) (keepFrom retained : Z) : result (nodeRef * Z) :=
  let* stored := readCommitFromTree tx tree keepFrom in
  match commitBatchLogicalBytes stored with
  | Err _ => Err ErrCorrupt
  | Ok removedBytes =>
      if retained <? removedBytes then Err ErrCorrupt
      else
        let* tree := deleteOrdinals tx tree keepFrom 0 (S (length (bt_Changes stored))) in
        Ok (tree, retained - removedBytes)
  end.

(** The loop, at most [turns] times: the tree, the first sequence kept and the
    bytes left. *)
Fixpoint pruneLoop (turns : nat) (tx : WriteTxn) (tree : nodeRef) (latest limit desired maxBytes keepFrom retained : Z)
    : result (nodeRef * Z * Z) :=
  if (keepFrom <? latest) && (keepFrom <? limit) && ((keepFrom <? desired) || (maxBytes <? retained)) then
    match turns with
    | O => Err ErrFuel
    | S turns =>
        let* (tree, retained) := removeCommit tx tree keepFrom retained in
        pruneLoop turns tx tree latest limit desired maxBytes (keepFrom + 1) retained
    end
  else Ok (tree, keepFrom, retained).

(** Every turn advances towards [latest]. *)
Definition pruneCommitTree (tx : WriteTxn) (tree : nodeRef) (oldest latest : Z) : result (nodeRef * Z * WriteTxn) :=
  if (oldest =? 0) || (latest <? oldest) then Err ErrCorrupt
  else
    let* limit := pruneLimit tx oldest latest in
    let* (tree, keepFrom, retained) :=
      pruneLoop (Z.to_nat (latest - oldest)) tx tree latest limit (windowStart (tx_file tx) latest)
        (retentionMaxBytes (tx_file tx)) oldest (tx_retainedCommitBytes tx) in
    Ok (tree, keepFrom, set_retention tx true retained).

(** The root of the log and the oldest sequence it holds. *)
Definition AppendCommitRetained (tx : WriteTxn) (rootPage oldest : Z) (batch : CommitBatch) : result (Z * Z * WriteTxn) :=
  let* tree := OpenTree tx TreeCommitLog rootPage in
  let* (logicalBytes, tree, tx) := appendCommitToTree tx tree batch in
  if maxUint64 - tx_retainedCommitBytes tx <? logicalBytes then Err ErrCorrupt
  else
    let tx := set_retention tx (tx_retentionEvaluated tx) (tx_retainedCommitBytes tx + logicalBytes) in
    let oldest := if oldest =? 0 then bt_Sequence batch else oldest in
    if bt_Sequence batch <? oldest then Err ErrCorrupt
    else
      let* (tree, keepFrom, tx) := pruneCommitTree tx tree oldest (bt_Sequence batch) in
      let* (root, tx) := Flush TreeCommitLog tx tree in
      Ok (root, keepFrom, tx).
End CommitLog.
