(* ===== verification/DocumentWrite.v ===== *)
(** * Document transactions

    [applyDocumentSystemTransactionInWriteTxn] of [internal/storage/documents.go]
    with what it calls in [document_preconditions.go], [indexes.go] and
    [system.go]: one logical commit of document mutations, their index entries,
    private records and the matching batch of the commit log. The maps of the code
    from names are lists sorted by name; nothing else depends on the order of a Go
    map. *)
From stdpp Require Import gmap.
From S2P Require Import Prelude Bytes Strings Layout Hashes PageFormat Entries NodeCodec CowTree.
From S2P Require Import TreeShape TreeInvariant TreeRep TreeDelete TreeScan Tree Flush FileStore Recovery Commit.
From S2P Require Import Atomicity TreeRead Snapshots Transactions Records StoredValues SystemRecords.
From S2P Require Import CommitCodec IndexRecords IndexBuilds CommitLog DocumentRecords IndexWrite.
#[local] Open Scope Z_scope.

(** ** Requests *)

Record DocumentMutation := mk_DocumentMutation {
  dm_Collection : bytes;
  dm_DocumentID : bytes;
  dm_Operation : Z;
  dm_Document : bytes;
  dm_ChangedPaths : list bytes;
  dm_Indexes : list IndexMutation }.

(** A hash is thirty-two bytes. *)
Record DocumentPrecondition := mk_DocumentPrecondition {
  dp_Collection : bytes;
  dp_DocumentID : bytes;
  dp_ExpectedExists : bool;
  dp_ExpectedHash : bytes }.

Record CollectionPrecondition := mk_CollectionPrecondition {
  kp_Collection : bytes;
  kp_ExpectedExists : bool;
  kp_ExpectedID : Z;
  kp_ExpectedUpdatedSequence : Z }.

Record DocumentTransaction := mk_DocumentTransaction {
  dt_TransactionID : bytes;
  dt_CommittedAt : Z;
  dt_Preconditions : list DocumentPrecondition;
  dt_CollectionPreconditions : list CollectionPrecondition;
  dt_Mutations : list DocumentMutation }.

(** ** State *)

Record collectionWriteState := mk_collectionWriteState {
  cw_meta : CollectionMeta;
  cw_originalRoot : Z;
  cw_tree : nodeRef;
  cw_order : nodeRef;
  cw_indexCatalog : nodeRef;
  cw_indexes : list (bytes * indexWriteState);
  cw_created : bool }.

(** The Go struct points to the state of the collection; here it names it. *)
Record pendingDocumentChange := mk_pendingChange {
  pd_change : CommitChange;
  pd_collection : bytes }.

(** The local variables of the loop over the mutations. *)
Record writeState := mk_writeState {
  ws_tx : WriteTxn;
  ws_states : list (bytes * collectionWriteState);
  ws_seen : list bytes;
  ws_pending : list pendingDocumentChange;
  ws_pendingIndexes : list pendingIndexMutation;
  ws_newCollections : Z;
  ws_documentDelta : Z }.

Definition documentIdentity (collection documentID : bytes) : bytes := collection ++ x00 :: documentID.

Definition maxUint32 : Z := 2 ^ 32 - 1.

(** ** Preconditions *)

Section Write.
Variable fuel : nat.

Fixpoint validateCollectionPreconditions (tx : WriteTxn) (catalog : nodeRef) (seen : list bytes) (preconditions : list CollectionPrecondition)
    : result unit :=
  match preconditions with
  | [] => Ok tt
  | p :: preconditions =>
      if negb (validCollectionName (kp_Collection p))
         || (kp_ExpectedExists p && ((kp_ExpectedID p =? 0) || (kp_ExpectedUpdatedSequence p =? 0)))
         || (negb (kp_ExpectedExists p) && (negb (kp_ExpectedID p =? 0) || negb (kp_ExpectedUpdatedSequence p =? 0)))
      then Err ErrCorrupt
      else if existsb (beqb (kp_Collection p)) seen then Err ErrCorrupt
      else
        let* encoded := Get tx TreeCatalog fuel catalog (kp_Collection p) in
        let rest := validateCollectionPreconditions tx catalog (kp_Collection p :: seen) preconditions in
        match encoded with
        | None => if kp_ExpectedExists p then Err ErrDocumentConflict else rest
        | Some encoded =>
            if negb (kp_ExpectedExists p) then Err ErrDocumentConflict
            else
              let* meta := decodeCollectionMeta encoded in
              if negb (coll_ID meta =? kp_ExpectedID p) || negb (coll_UpdatedSequence meta =? kp_ExpectedUpdatedSequence p)
              then Err ErrDocumentConflict
              else rest
        end
  end.

(** The primary tree of a collection, opened once; [None] without the collection. *)
Definition preconditionTree (tx : WriteTxn) (catalog : nodeRef) (primary : list (bytes * nodeRef)) (collection : bytes) : result (option nodeRef) :=
  match field primary collection with
  | Some tree => Ok (Some tree)
  | None =>
      let* encoded := Get tx TreeCatalog fuel catalog collection in
      match encoded with
      | None => Ok None
      | Some encoded =>
          let* meta := decodeCollectionMeta encoded in
          let* tree := OpenTree tx TreePrimary (coll_PrimaryRoot meta) in
          Ok (Some tree)
      end
  end.

Fixpoint validateDocumentPreconditions (tx : WriteTxn) (catalog : nodeRef) (seen : list bytes) (primary : list (bytes * nodeRef))
    (preconditions : list DocumentPrecondition) : result unit :=
  match preconditions with
  | [] => Ok tt
  | p :: preconditions =>
      if negb (validCollectionName (dp_Collection p)) || all_zero (dp_DocumentID p)
         || (negb (dp_ExpectedExists p) && negb (all_zero (dp_ExpectedHash p)))
      then Err ErrCorrupt
      else
        let identity := documentIdentity (dp_Collection p) (dp_DocumentID p) in
        if existsb (beqb identity) seen then Err ErrCorrupt
        else
          let* tree := preconditionTree tx catalog primary (dp_Collection p) in
          match tree with
          | None =>
              if dp_ExpectedExists p then Err ErrDocumentConflict
              else validateDocumentPreconditions tx catalog (identity :: seen) primary preconditions
          | Some tree =>
              let rest := validateDocumentPreconditions tx catalog (identity :: seen) (ins (dp_Collection p) tree primary) preconditions in
              let* stored := Get tx TreePrimary fuel tree (dp_DocumentID p) in
              match stored with
              | None => if dp_ExpectedExists p then Err ErrDocumentConflict else rest
              | Some stored =>
                  if negb (dp_ExpectedExists p) then Err ErrDocumentConflict
                  else
                    let* (_, document) := loadDocumentRecord tx stored in
                    if negb (beqb (Sha256.sum document) (dp_ExpectedHash p)) then Err ErrDocumentConflict else rest
              end
          end
  end.

(** ** One mutation *)

Definition validDocumentMutation (m : DocumentMutation) : bool :=
  negb (negb (validCollectionName (dm_Collection m)) || all_zero (dm_DocumentID m) || (dm_Operation m <? DocumentInsert)
        || (DocumentDelete <? dm_Operation m) || (maxDocumentBytes <? zlen (dm_Document m)))
  && (if dm_Operation m =? DocumentDelete then zlen (dm_Document m) =? 0 else negb (zlen (dm_Document m) =? 0)).

(** The state of a collection the transaction has not touched before, and the
    number of collections it creates. *)
Definition openCollection (base : DatabaseRoot) (tx : WriteTxn) (catalog : nodeRef) (newCollections : Z) (name : bytes)
    : result (collectionWriteState * Z) :=
  let* encoded := Get tx TreeCatalog fuel catalog name in
  let* (meta, created, newCollections) :=
    match encoded with
    | Some encoded => let* meta := decodeCollectionMeta encoded in Ok (meta, false, newCollections)
    | None =>
        let newCollections := newCollections + 1 in
        let id := to_u64 (root_CollectionCount base + newCollections) in
        if maxUint32 <? id then Err ErrCorrupt
        else Ok (mk_CollectionMeta id 0 0 0 (tx_sequence tx) 0 0 0, true, newCollections)
    end in
  let* tree := OpenTree tx TreePrimary (coll_PrimaryRoot meta) in
  let* order := OpenTree tx TreeOrder (coll_OrderRoot meta) in
  if negb (ref_count tree =? coll_DocumentCount meta) || negb (ref_count order =? coll_DocumentCount meta) then Err ErrCorrupt
  else
    let* (indexCatalog, indexes) := loadCollectionIndexes fuel tx (coll_IndexCatalogRoot meta) in
    Ok (mk_collectionWriteState meta (coll_PrimaryRoot meta) tree order indexCatalog indexes created, newCollections).

Definition set_counts (meta : CollectionMeta) (documentCount nextPosition : Z) : CollectionMeta :=
  mk_CollectionMeta (coll_ID meta) (coll_PrimaryRoot meta) (coll_IndexCatalogRoot meta) documentCount (coll_CreatedSequence meta)
    (coll_UpdatedSequence meta) nextPosition (coll_OrderRoot meta).

Definition set_documents (state : collectionWriteState) (documentCount nextPosition : Z) (tree order : nodeRef) : collectionWriteState :=
  mk_collectionWriteState (set_counts (cw_meta state) documentCount nextPosition) (cw_originalRoot state) tree order
    (cw_indexCatalog state) (cw_indexes state) (cw_created state).

(** The position of a document that is there, checked against the order. *)
Definition documentPosition (tx : WriteTxn) (state : collectionWriteState) (documentID stored : bytes) : result Z :=
  let* (position, _) := loadDocumentRecord tx stored in
  match Get tx TreeOrder fuel (cw_order state) (insertionPositionKey position) with
  | Ok (Some owner) => if beqb owner documentID then Ok position else Err ErrCorrupt
  | _ => Err ErrCorrupt
  end.

Definition deleteDocument (tx : WriteTxn) (state : collectionWriteState) (documentID : bytes) (position : Z) : result collectionWriteState :=
  match Delete tx TreePrimary fuel (cw_tree state) documentID with
  | Ok (true, tree, _) =>
      match Delete tx TreeOrder fuel (cw_order state) (insertionPositionKey position) with
      | Ok (true, order, _) =>
          Ok (set_documents state (to_u64 (coll_DocumentCount (cw_meta state) - 1)) (coll_NextDocumentPosition (cw_meta state)) tree order)
      | _ => Err ErrCorrupt
      end
  | _ => Err ErrCorrupt
  end.

(** The position joins the order. *)
Definition insertPosition (tx : WriteTxn) (state : collectionWriteState) (documentID : bytes) (position : Z) : result collectionWriteState :=
  let next := to_u64 (coll_NextDocumentPosition (cw_meta state) + 1) in
  if negb (position =? next) then Err ErrCorrupt
  else
    let key := insertionPositionKey position in
    let* duplicate := Get tx TreeOrder fuel (cw_order state) key in
    match duplicate with
    | Some _ => Err ErrCorrupt
    | None =>
        let* (order, _) := Put tx TreeOrder fuel (cw_order state) key documentID in
        Ok (set_documents state (coll_DocumentCount (cw_meta state)) next (cw_tree state) order)
    end.

Definition storeDocument (tx : WriteTxn) (state : collectionWriteState) (documentID document : bytes) (position grows : Z)
    : result (collectionWriteState * WriteTxn) :=
  let* (descriptor, tx) := storeDocumentRecord tx position document in
  let* (tree, _) := Put tx TreePrimary fuel (cw_tree state) documentID descriptor in
  Ok (set_documents state (to_u64 (coll_DocumentCount (cw_meta state) + grows)) (coll_NextDocumentPosition (cw_meta state)) tree (cw_order state), tx).

(** The change of the documents, with the difference it makes to their number. *)
Definition changeDocument (tx : WriteTxn) (state : collectionWriteState) (m : DocumentMutation) (position : Z)
    : result (collectionWriteState * WriteTxn * Z) :=
  if dm_Operation m =? DocumentDelete then
    let* state := deleteDocument tx state (dm_DocumentID m) position in Ok (state, tx, -1)
  else
    let* state := if dm_Operation m =? DocumentInsert then insertPosition tx state (dm_DocumentID m) position else Ok state in
    let grows := if dm_Operation m =? DocumentInsert then 1 else 0 in
    let* (state, tx) := storeDocument tx state (dm_DocumentID m) (dm_Document m) position grows in
    Ok (state, tx, grows).

Definition mutationChange (state : collectionWriteState) (m : DocumentMutation) : CommitChange :=
  mk_CommitChange (coll_ID (cw_meta state)) [] (dm_DocumentID m) (dm_Operation m) (dm_ChangedPaths m) [] []
    (if dm_Operation m =? DocumentInsert then None else Some (mk_DocumentVersionRef (cw_originalRoot state) (dm_DocumentID m))) None.

(** The position a mutation works at. *)
Definition mutationPosition (tx : WriteTxn) (state : collectionWriteState) (m : DocumentMutation) (stored : option bytes) : result Z :=
  match stored with
  | Some stored =>
      if dm_Operation m =? DocumentInsert then Err ErrDocumentExists
      else documentPosition tx state (dm_DocumentID m) stored
  | None =>
      if negb (dm_Operation m =? DocumentInsert) then Err ErrDocumentConflict
      else if coll_NextDocumentPosition (cw_meta state) =? maxUint64 then Err ErrCorrupt
      else Ok (coll_NextDocumentPosition (cw_meta state) + 1)
  end.

Definition applyMutation (base : DatabaseRoot) (catalog : nodeRef) (ws : writeState) (m : DocumentMutation) : result writeState :=
  if negb (validDocumentMutation m) then Err ErrCorrupt
  else
    let name := dm_Collection m in
    let identity := documentIdentity name (dm_DocumentID m) in
    if existsb (beqb identity) (ws_seen ws) then Err ErrDuplicateMutation
    else
      let tx := ws_tx ws in
      let* (state, newCollections) :=
        match field (ws_states ws) name with
        | Some state => Ok (state, ws_newCollections ws)
        | None => openCollection base tx catalog (ws_newCollections ws) name
        end in
      let* stored := Get tx TreePrimary fuel (cw_tree state) (dm_DocumentID m) in
      let* position := mutationPosition tx state m stored in
      let* indexChanges := prepareIndexMutations name (cw_indexes state).*1 (dm_Operation m) (dm_DocumentID m) (dm_Indexes m) position in
      let change := mutationChange state m in
      let* (state, tx, delta) := changeDocument tx state m position in
      Ok (mk_writeState tx (ins name state (ws_states ws)) (identity :: ws_seen ws) (ws_pending ws ++ [mk_pendingChange change name])
            (ws_pendingIndexes ws ++ indexChanges) newCollections (ws_documentDelta ws + delta)).

Fixpoint applyMutations (base : DatabaseRoot) (catalog : nodeRef) (ws : writeState) (mutations : list DocumentMutation) : result writeState :=
  match mutations with
  | [] => Ok ws
  | m :: mutations => let* ws := applyMutation base catalog ws m in applyMutations base catalog ws mutations
  end.

(** ** The index entries *)

Definition set_indexes (state : collectionWriteState) (indexes : list (bytes * indexWriteState)) : collectionWriteState :=
  mk_collectionWriteState (cw_meta state) (cw_originalRoot state) (cw_tree state) (cw_order state) (cw_indexCatalog state) indexes (cw_created state).

(** A step on the index a pending mutation points to. *)
Definition stepIndex (step : indexWriteState -> result indexWriteState) (states : list (bytes * collectionWriteState)) (m : pendingIndexMutation)
    : result (list (bytes * collectionWriteState)) :=
  match field states (pi_collection m) with
  | None => Err ErrPanic
  | Some state =>
      match field (cw_indexes state) (pi_index m) with
      | None => Err ErrPanic
      | Some index =>
          let* index := step index in
          Ok (ins (pi_collection m) (set_indexes state (ins (pi_index m) index (cw_indexes state))) states)
      end
  end.

Fixpoint stepIndexes (step : indexWriteState -> pendingIndexMutation -> result indexWriteState)
    (states : list (bytes * collectionWriteState)) (pending : list pendingIndexMutation) : result (list (bytes * collectionWriteState)) :=
  match pending with
  | [] => Ok states
  | m :: pending =>
      let* states := stepIndex (fun index => step index m) states m in stepIndexes step states pending
  end.

(** Every old entry goes before any new one comes. *)
Definition applyIndexMutations (tx : WriteTxn) (states : list (bytes * collectionWriteState)) (pending : list pendingIndexMutation)
    : result (list (bytes * collectionWriteState)) :=
  let* states := stepIndexes (removeIndexKey fuel tx) states pending in
  stepIndexes (insertIndexKey fuel tx) states pending.

(** ** Publishing the collections *)

(** The tree of a changed index goes to its pages, its definition to the catalog. *)
Definition flushIndex (tx : WriteTxn) (indexCatalog : nodeRef) (name : bytes) (index : indexWriteState) : result (nodeRef * WriteTxn) :=
  let* (root, tx) := Flush TreeSecondary tx (iw_tree index) in
  let meta := set_entries (iw_meta index) root (idx_EntryCount (iw_meta index)) (tx_sequence tx) in
  let* encoded := encodeIndexMeta meta in
  let* (indexCatalog, _) := Put tx TreeIndexCatalog fuel indexCatalog name encoded in
  Ok (indexCatalog, tx).

(** The changed indexes, in the order of names, and whether there was one. *)
Fixpoint flushIndexes (tx : WriteTxn) (indexCatalog : nodeRef) (indexes : list (bytes * indexWriteState)) (any : bool)
    : result (nodeRef * bool * WriteTxn) :=
  match indexes with
  | [] => Ok (indexCatalog, any, tx)
  | (name, index) :: indexes =>
      if negb (iw_changed index) then flushIndexes tx indexCatalog indexes any
      else
        let* (indexCatalog, tx) := flushIndex tx indexCatalog name index in
        flushIndexes tx indexCatalog indexes true
  end.

Definition set_roots (meta : CollectionMeta) (primary order indexCatalog updated : Z) : CollectionMeta :=
  mk_CollectionMeta (coll_ID meta) primary indexCatalog (coll_DocumentCount meta) (coll_CreatedSequence meta) updated
    (coll_NextDocumentPosition meta) order.

(** The metadata of the collection once its trees are flushed. *)
Definition flushCollection (tx : WriteTxn) (state : collectionWriteState) : result (CollectionMeta * WriteTxn) :=
  let* (indexCatalog, any, tx) := flushIndexes tx (cw_indexCatalog state) (cw_indexes state) false in
  let* (indexCatalogRoot, tx) := if any then Flush TreeIndexCatalog tx indexCatalog else Ok (coll_IndexCatalogRoot (cw_meta state), tx) in
  let* (primary, tx) := flush TreePrimary tx (cw_tree state) in
  let* (order, tx) := flush TreeOrder tx (cw_order state) in
  let count := coll_DocumentCount (cw_meta state) in
  if negb (ref_count primary =? count) || negb (ref_count order =? count) then Err ErrCorrupt
  else Ok (set_roots (cw_meta state) (ref_pageID primary) (ref_pageID order) indexCatalogRoot (tx_sequence tx), tx).

Definition catalogChange (id : Z) (name encoded : bytes) : CommitChange :=
  mk_CommitChange id name (zeros 16) CommitCatalog [bs "_catalog"] [] encoded None None.

(** The catalog, the changes of the created collections and the primary roots
    after the collections are published. *)
Fixpoint publishCollections (tx : WriteTxn) (catalog : nodeRef) (states : list (bytes * collectionWriteState))
    : result (nodeRef * list CommitChange * list (bytes * Z) * WriteTxn) :=
  match states with
  | [] => Ok (catalog, [], [], tx)
  | (name, state) :: states =>
      let* (meta, tx) := flushCollection tx state in
      let* encoded := encodeCollectionMeta meta in
      let* (catalog, _) := Put tx TreeCatalog fuel catalog name encoded in
      let* (catalog, changes, roots, tx) := publishCollections tx catalog states in
      Ok (catalog, (if cw_created state then [catalogChange (coll_ID meta) name encoded] else []) ++ changes,
          (name, coll_PrimaryRoot meta) :: roots, tx)
  end.

(** ** The batch *)

Definition finalChange (roots : list (bytes * Z)) (item : pendingDocumentChange) : CommitChange :=
  let change := pd_change item in
  if ch_Operation change =? DocumentDelete then change
  else
    mk_CommitChange (ch_CollectionID change) (ch_CollectionName change) (ch_DocumentID change) (ch_Operation change) (ch_ChangedPaths change)
      (ch_Before change) (ch_After change) (ch_BeforeRef change)
      (Some (mk_DocumentVersionRef (default 0 (field roots (pd_collection item))) (ch_DocumentID change))).

(** The private records change in order, until one does not match. *)
Fixpoint applySystemRecords (tx : WriteTxn) (catalog : nodeRef) (records : list SystemRecordMutation) : result mutationOutcome :=
  match records with
  | [] => Ok (Applied catalog tx)
  | m :: records =>
      let* outcome := applySystemRecordMutation fuel tx catalog m in
      match outcome with
      | Mismatched current => Ok (Mismatched current)
      | Applied catalog tx => applySystemRecords tx catalog records
      end
  end.

(** What the transaction builds, or the record that did not match. *)
Inductive transactionOutcome :=
| Refused (current : option bytes)
| Built (root : DatabaseRoot) (tx : WriteTxn).

(** The number of documents after a difference. *)
Definition movedCount (count delta : Z) : result Z :=
  if (delta <? 0) && (count <? - delta) then Err ErrCorrupt else Ok (to_u64 (count + delta)).

(** The part of [applyDocumentSystemTransactionInWriteTxn] before the private
    records: the catalog, the changes of the batch, and what the transaction adds to
    the numbers of collections and documents. *)
Definition stageDocuments (tx : WriteTxn) (base : DatabaseRoot) (transaction : DocumentTransaction)
    : result (nodeRef * list CommitChange * Z * Z * WriteTxn) :=
  let* catalog := OpenTree tx TreeCatalog (root_CatalogRoot base) in
  let* _ := validateCollectionPreconditions tx catalog [] (dt_CollectionPreconditions transaction) in
  let* _ := validateDocumentPreconditions tx catalog [] [] (dt_Preconditions transaction) in
  let* ws := applyMutations base catalog (mk_writeState tx [] [] [] [] 0 0) (dt_Mutations transaction) in
  let* states := applyIndexMutations (ws_tx ws) (ws_states ws) (ws_pendingIndexes ws) in
  let* (catalog, catalogChanges, roots, tx) := publishCollections (ws_tx ws) catalog states in
  Ok (catalog, catalogChanges ++ (finalChange roots <$> ws_pending ws), ws_newCollections ws, ws_documentDelta ws, tx).

Definition applyDocumentSystemTransactionInWriteTxn (tx : WriteTxn) (base : DatabaseRoot) (transaction : DocumentTransaction)
    (systemRecords : list SystemRecordMutation) : result transactionOutcome :=
  let* (catalog, changes, newCollections, documentDelta, tx) := stageDocuments tx base transaction in
  let* outcome := applySystemRecords tx catalog systemRecords in
  match outcome with
  | Mismatched current => Ok (Refused current)
  | Applied catalog tx =>
      let* (catalogRoot, tx) := Flush TreeCatalog tx catalog in
      let* (commitLogRoot, oldest, tx) :=
        AppendCommitRetained fuel tx (root_CommitLogRoot base) (root_OldestRetainedSequence base)
          (mk_CommitBatch (tx_sequence tx) (dt_TransactionID transaction) (dt_CommittedAt transaction) catalogRoot changes) in
      let* documentCount := movedCount (root_DocumentCount base) documentDelta in
      Ok (Built {| root_CommitSequence := tx_sequence tx; root_CatalogRoot := catalogRoot; root_CommitLogRoot := commitLogRoot;
                   root_FreeSpaceRoot := 0; root_OldestRetainedSequence := oldest;
                   root_CatalogGeneration := to_u64 (root_CatalogGeneration base + newCollections); root_DocumentCount := documentCount;
                   root_CollectionCount := to_u64 (root_CollectionCount base + newCollections); root_IndexBuildCatalogRoot := 0 |} tx)
  end.

(** ** The operations of the file *)

(** The callback: a record that does not match fails the update. *)
Definition documentTransaction (transaction : DocumentTransaction) (systemRecords : list SystemRecordMutation) : builder := fun tx =>
  let* outcome := applyDocumentSystemTransactionInWriteTxn tx (tx_baseRoot tx) transaction systemRecords in
  match outcome with
  | Refused _ => Err ErrCASMismatch
  | Built root tx => Ok (root, tx)
  end.

(** The current value of a record that did not match, or the sequence of the commit. *)
Inductive SystemRecordResult :=
| NotApplied (current : option bytes)
| AppliedAt (sequence : Z).

(** The caller gives the time; a zero time is replaced by the clock's. The result
    the callback leaves behind when it refuses is read off the same run. *)
Definition applyDocumentSystemTransaction (io : nat -> bool) (f : File) (transaction : DocumentTransaction)
    (systemRecords : list SystemRecordMutation) : result SystemRecordResult * File * list event :=
  if all_zero (dt_TransactionID transaction) || (zlen (dt_Mutations transaction) =? 0) then (Err ErrCorrupt, f, [])
  else
    let '(outcome, f', trace) := updateUnlockedAdvance io f 1 (documentTransaction transaction systemRecords) in
    match outcome with
    | None => (Ok (AppliedAt (CommitSequence (f_meta f'))), f', trace)
    | Some e =>
        match beginUpdate f 1 with
        | Ok tx =>
            match applyDocumentSystemTransactionInWriteTxn tx (tx_baseRoot tx) transaction systemRecords with
            | Ok (Refused current) => (Ok (NotApplied current), f', trace)
            | _ => (Err e, f', trace)
            end
        | Err _ => (Err e, f', trace)
        end
    end.

Definition ApplyDocumentTransaction (io : nat -> bool) (f : File) (transaction : DocumentTransaction) : result SystemRecordResult * File * list event :=
  applyDocumentSystemTransaction io f transaction [].

(** Every request is legal and no key is named twice. *)
Fixpoint validSystemRecords (seen : list bytes) (records : list SystemRecordMutation) : bool :=
  match records with
  | [] => true
  | m :: records =>
      validSystemRecordMutation m && negb (existsb (beqb (sm_Key m)) seen) && validSystemRecords (sm_Key m :: seen) records
  end.

Definition ApplyDocumentSystemTransaction (io : nat -> bool) (f : File) (transaction : DocumentTransaction)
    (systemRecords : list SystemRecordMutation) : result SystemRecordResult * File * list event :=
  if (zlen systemRecords =? 0) || (256 <? zlen systemRecords) || negb (validSystemRecords [] systemRecords) then (Err ErrCorrupt, f, [])
  else applyDocumentSystemTransaction io f transaction systemRecords.

(** ** Groups of transactions *)

(** Every identifier is set and none is used twice, and every member does something. *)
Fixpoint validGroup (seen : list bytes) (transactions : list DocumentTransaction) : bool :=
  match transactions with
  | [] => true
  | t :: transactions =>
      negb (all_zero (dt_TransactionID t) || (zlen (dt_Mutations t) =? 0)) && negb (existsb (beqb (dt_TransactionID t)) seen)
      && validGroup (dt_TransactionID t :: seen) transactions
  end.

(** The callback of the group: each member builds on the root of the one before. *)
Fixpoint groupMembers (base : DatabaseRoot) (transactions : list DocumentTransaction) (tx : WriteTxn) : result (DatabaseRoot * WriteTxn) :=
  match transactions with
  | [] => Ok (base, tx)
  | t :: transactions =>
      if root_CommitSequence base =? maxUint64 then Err ErrCorrupt
      else
        let* outcome := applyDocumentSystemTransactionInWriteTxn (set_sequence tx (root_CommitSequence base + 1)) base t [] in
        match outcome with
        | Refused _ => Err ErrCASMismatch
        | Built next tx =>
            if negb (root_CommitSequence next =? tx_sequence tx) then Err ErrCorrupt else groupMembers next transactions tx
        end
  end.

(** The error, if any; the sequences of the members follow that of the old version. *)
Definition ApplyDocumentTransactionGroup (io : nat -> bool) (f : File) (transactions : list DocumentTransaction) : option gerror * File * list event :=
  if (zlen transactions <? 2) || (256 <? zlen transactions) || negb (validGroup [] transactions) then (Some ErrCorrupt, f, [])
  else match f_fatalErr f with
  | Some e => (Some e, f, [])
  | None =>
      if maxUint64 - CommitSequence (f_meta f) <? zlen transactions then (Some ErrCorrupt, f, [])
      else updateUnlockedAdvance io f (zlen transactions) (fun tx => groupMembers (tx_baseRoot tx) transactions tx)
  end.
End Write.
