(* ===== verification/Collections.v ===== *)
(** * Databases as maps

    What the trees behind a catalog stand for: collections of documents with
    their insertion positions, the entries of their indexes, and private records;
    and a document transaction as a function of that database, without pages,
    trees or roots. *)
From stdpp Require Import gmap.
From S2P Require Import Prelude Bytes Strings Layout Entries Hashes PageFormat Records NodeCodec CowTree TreeShape.
From S2P Require Import TreeInvariant TreeRep TreeDelete TreeScan Tree Flush FileStore Recovery Commit Atomicity.
From S2P Require Import TreeRead Snapshots Transactions StoredValues CommitCodec IndexRecords SystemRecords SystemStore.
From S2P Require Import DocumentRecords IndexWrite DocumentWrite.
#[local] Open Scope Z_scope.

(** ** The database *)

(** An index: its definition, with no root, count or sequence of change, and its
    entries. *)
Record index := mk_index {
  ix_definition : IndexMeta;
  ix_entries : list KeyValue }.

(** A collection: documents by identifier with their insertion positions. *)
Record collection := mk_collection {
  co_ID : Z;
  co_created : Z;
  co_updated : Z;
  co_next : Z;
  co_documents : list (bytes * (Z * bytes));
  co_indexes : list (bytes * index) }.

Record database := mk_database {
  db_collections : list (bytes * collection);
  db_records : list KeyValue }.

(** ** What stored trees stand for *)

Section At.
Variable K : bytes -> Prop.

(** A later state of the same file: every page is still there. *)
Definition continues (tx tx' : WriteTxn) : Prop :=
  carries tx tx' /\ tx_requiredFeatures tx' = tx_requiredFeatures tx /\ tx_sequence tx <= tx_sequence tx'.

(** The definition, whatever the root, the count and the last change. *)
Definition definition_of (meta : IndexMeta) : IndexMeta := set_entries meta 0 0 0.

Definition index_at (tx : WriteTxn) (h : nat) (encoded : bytes) (ix : index) : Prop :=
  exists meta, decodeIndexMeta (idx_Name (ix_definition ix)) encoded = Ok meta /\ definition_of meta = ix_definition ix /\
    validateIndexMetaFeatures (tx_requiredFeatures tx) meta = Ok tt /\
    held tx TreeSecondary h (idx_Root meta) (ix_entries ix) /\ idx_EntryCount meta = zlen (ix_entries ix) /\
    index_entries K (ix_entries ix) /\ idx_UpdatedSequence meta <= tx_sequence tx.

(** The order names the document at every position. *)
Definition ordered (documents : list (bytes * (Z * bytes))) (order : list KeyValue) : Prop :=
  zlen order = zlen documents /\
  forall key id, field order key = Some id <-> exists position document, key = insertionPositionKey position /\ field documents id = Some (position, document).

Definition names_ok (indexes : list (bytes * index)) : Prop := Forall (fun e => e.1 = idx_Name (ix_definition e.2)) indexes.

(** Legal identifiers, and positions no greater than the last one given out. *)
Definition documents_ok (next : Z) (documents : list (bytes * (Z * bytes))) : Prop :=
  Forall (fun e => zlen e.1 = 16 /\ all_zero e.1 = false /\ 0 < e.2.1 <= next) documents.

Record describes_collection (meta : CollectionMeta) (c : collection) : Prop := {
  dc_ID : coll_ID meta = co_ID c;
  dc_created : coll_CreatedSequence meta = co_created c;
  dc_updated : coll_UpdatedSequence meta = co_updated c;
  dc_next : coll_NextDocumentPosition meta = co_next c;
  dc_count : coll_DocumentCount meta = zlen (co_documents c) }.

Record collection_wf (c : collection) : Prop := {
  ck_documents : documents_ok (co_next c) (co_documents c);
  ck_next : u64 (co_next c);
  ck_count : zlen (co_documents c) <= co_next c;
  ck_names : names_ok (co_indexes c) }.

Definition collection_at (tx : WriteTxn) (h : nat) (encoded : bytes) (c : collection) : Prop :=
  collection_wf c /\ co_updated c <= tx_sequence tx /\ exists meta, decodeCollectionMeta encoded = Ok meta /\ describes_collection meta c /\
    (exists ds, held tx TreePrimary h (coll_PrimaryRoot meta) ds /\ linked (document_record tx) ds (co_documents c)) /\
    (exists order, held tx TreeOrder h (coll_OrderRoot meta) order /\ ordered (co_documents c) order) /\
    (exists ms, held tx TreeIndexCatalog h (coll_IndexCatalogRoot meta) ms /\ linked (index_at tx h) ms (co_indexes c)).

(** The catalog of the version: the collections, and the directory of the private
    records under its own name. *)
Definition catalog_at (tx : WriteTxn) (h : nat) (l : list KeyValue) (db : database) : Prop :=
  linked (collection_at tx h) (del systemCatalogKey l) (db_collections db) /\
  system_at tx h (field l systemCatalogKey) (db_records db) /\
  Forall (fun e => validCollectionName e.1 = true) (db_collections db).

Definition documents_in (_ : bytes) (c : collection) : Z := zlen (co_documents c).

Definition total_documents (db : database) : Z := tally documents_in (db_collections db).

Definition database_at (tx : WriteTxn) (h : nat) (root : DatabaseRoot) (db : database) : Prop :=
  exists l, held tx TreeCatalog h (root_CatalogRoot root) l /\ catalog_at tx h l db /\
    root_CollectionCount root = zlen (db_collections db) /\ zlen (db_collections db) <= maxUint32 /\
    root_DocumentCount root = total_documents db.

(** *** The relations carry over to later versions *)

Lemma continues_moves tx tx' : moves tx tx' -> continues tx tx'.
Proof. intros Hm. split; [by apply moves_carries|]. destruct Hm as [_ Hs Hf _]. split; [done|]. by rewrite (same_sequence _ _ Hs). Qed.

Lemma index_at_continues tx tx' h encoded ix : continues tx tx' -> index_at tx h encoded ix -> index_at tx' h encoded ix.
Proof.
  intros (Hc & Hf & Hs) (meta & Hd & Hdef & Hv & Hk & Hn & He & Hu). exists meta. rewrite Hf. do 3 (split; [done|]).
  split; [by eapply held_carries|]. do 2 (split; [done|]). lia.
Qed.

Lemma index_at_mono tx h1 h2 encoded ix : (h1 <= h2)%nat -> index_at tx h1 encoded ix -> index_at tx h2 encoded ix.
Proof. intros Hh (meta & Hd & Hdef & Hv & Hk & Hn). exists meta. do 3 (split; [done|]). split; [by eapply held_mono|done]. Qed.

Lemma collection_at_continues tx tx' h encoded c : continues tx tx' -> collection_at tx h encoded c -> collection_at tx' h encoded c.
Proof.
  intros Hcont (Hok & Hu & meta & Hd & Hdc & (ds & Hk1 & Hl1) & (order & Hk2 & Ho) & (ms & Hk3 & Hl3)).
  pose proof Hcont as (Hc & _ & Hs). split; [done|]. split; [lia|]. exists meta. do 2 (split; [done|]). split; [|split].
  - exists ds. split; [by eapply held_carries|]. eapply linked_impl; [|exact Hl1]. intros d r. by apply document_record_carries.
  - exists order. split; [by eapply held_carries|done].
  - exists ms. split; [by eapply held_carries|]. eapply linked_impl; [|exact Hl3]. intros d r. by apply index_at_continues.
Qed.

Lemma collection_at_mono tx h1 h2 encoded c : (h1 <= h2)%nat -> collection_at tx h1 encoded c -> collection_at tx h2 encoded c.
Proof.
  intros Hh (Hok & Hu & meta & Hd & Hdc & (ds & Hk1 & Hl1) & (order & Hk2 & Ho) & (ms & Hk3 & Hl3)). do 2 (split; [done|]). exists meta.
  do 2 (split; [done|]). split; [|split].
  - exists ds. split; [by eapply held_mono|done].
  - exists order. split; [by eapply held_mono|done].
  - exists ms. split; [by eapply held_mono|]. eapply linked_impl; [|exact Hl3]. intros d r. by apply index_at_mono.
Qed.

Lemma catalog_at_continues tx tx' h l db : continues tx tx' -> catalog_at tx h l db -> catalog_at tx' h l db.
Proof.
  intros Hc (Hl & Hs & Hn). split; [|split; [eapply system_at_carries; [apply Hc|done]|done]].
  eapply linked_impl; [|exact Hl]. intros d c. by apply collection_at_continues.
Qed.

Lemma catalog_at_mono tx h1 h2 l db : (h1 <= h2)%nat -> catalog_at tx h1 l db -> catalog_at tx h2 l db.
Proof.
  intros Hh (Hl & Hs & Hn). split; [|split; [by eapply system_at_mono|done]].
  eapply linked_impl; [|exact Hl]. intros d c. by apply collection_at_mono.
Qed.

Lemma database_at_mono tx h1 h2 root db : (h1 <= h2)%nat -> database_at tx h1 root db -> database_at tx h2 root db.
Proof. intros Hh (l & Hk & Hl & Hn). exists l. split; [by eapply held_mono|]. split; [by eapply catalog_at_mono|done]. Qed.

Lemma database_at_continues tx tx' h root db : continues tx tx' -> database_at tx h root db -> database_at tx' h root db.
Proof. intros Hc (l & Hk & Hl & Hn). exists l. split; [eapply held_carries; [apply Hc|done]|]. split; [by eapply catalog_at_continues|done]. Qed.
End At.

(** ** Transactions of the map *)

(** The work of a transaction so far: the collections it has touched, the
    documents it has changed, the index entries to replace, and the numbers of
    collections and documents it adds. *)
Record work := mk_work {
  wk_open : list (bytes * collection);
  wk_seen : list bytes;
  wk_pending : list pendingIndexMutation;
  wk_new : Z;
  wk_delta : Z }.

Fixpoint check_collections (db : database) (seen : list bytes) (preconditions : list CollectionPrecondition) : result unit :=
  match preconditions with
  | [] => Ok tt
  | p :: preconditions =>
      if negb (validCollectionName (kp_Collection p))
         || (kp_ExpectedExists p && ((kp_ExpectedID p =? 0) || (kp_ExpectedUpdatedSequence p =? 0)))
         || (negb (kp_ExpectedExists p) && (negb (kp_ExpectedID p =? 0) || negb (kp_ExpectedUpdatedSequence p =? 0)))
      then Err ErrCorrupt
      else if existsb (beqb (kp_Collection p)) seen then Err ErrCorrupt
      else
        let holds :=
          match field (db_collections db) (kp_Collection p) with
          | None => negb (kp_ExpectedExists p)
          | Some c => kp_ExpectedExists p && (co_ID c =? kp_ExpectedID p) && (co_updated c =? kp_ExpectedUpdatedSequence p)
          end in
        if holds then check_collections db (kp_Collection p :: seen) preconditions else Err ErrDocumentConflict
  end.

(** The document a collection holds. *)
Definition document_of (db : database) (name documentID : bytes) : option bytes :=
  match field (db_collections db) name with
  | Some c => snd <$> field (co_documents c) documentID
  | None => None
  end.

Fixpoint check_documents (db : database) (seen : list bytes) (preconditions : list DocumentPrecondition) : result unit :=
  match preconditions with
  | [] => Ok tt
  | p :: preconditions =>
      if negb (validCollectionName (dp_Collection p)) || all_zero (dp_DocumentID p)
         || (negb (dp_ExpectedExists p) && negb (all_zero (dp_ExpectedHash p)))
      then Err ErrCorrupt
      else
        let identity := documentIdentity (dp_Collection p) (dp_DocumentID p) in
        if existsb (beqb identity) seen then Err ErrCorrupt
        else
          let holds :=
            match document_of db (dp_Collection p) (dp_DocumentID p) with
            | None => negb (dp_ExpectedExists p)
            | Some document => dp_ExpectedExists p && beqb (Sha256.sum document) (dp_ExpectedHash p)
            end in
          if holds then check_documents db (identity :: seen) preconditions else Err ErrDocumentConflict
  end.

(** The collection a mutation works on; one that is not there is created with the
    next number. *)
Definition open_collection (db : database) (sequence : Z) (w : work) (name : bytes) : result (collection * Z) :=
  match field (wk_open w) name with
  | Some c => Ok (c, wk_new w)
  | None =>
      match field (db_collections db) name with
      | Some c => Ok (c, wk_new w)
      | None =>
          let id := zlen (db_collections db) + (wk_new w + 1) in
          if maxUint32 <? id then Err ErrCorrupt else Ok (mk_collection id sequence 0 0 [] [], wk_new w + 1)
      end
  end.

(** A new document takes the next position, which no document had before. *)
Definition position_of (c : collection) (m : DocumentMutation) : result Z :=
  match field (co_documents c) (dm_DocumentID m) with
  | Some (position, _) => if dm_Operation m =? DocumentInsert then Err ErrDocumentExists else Ok position
  | None =>
      if negb (dm_Operation m =? DocumentInsert) then Err ErrDocumentConflict
      else if co_next c =? maxUint64 then Err ErrCorrupt
      else Ok (co_next c + 1)
  end.

Definition change_documents (c : collection) (m : DocumentMutation) (position : Z) : collection :=
  mk_collection (co_ID c) (co_created c) (co_updated c) (if dm_Operation m =? DocumentInsert then position else co_next c)
    (if dm_Operation m =? DocumentDelete then del (dm_DocumentID m) (co_documents c)
     else ins (dm_DocumentID m) (position, dm_Document m) (co_documents c)) (co_indexes c).

Definition growth (m : DocumentMutation) : Z :=
  if dm_Operation m =? DocumentDelete then -1 else if dm_Operation m =? DocumentInsert then 1 else 0.

Definition mutate (db : database) (sequence : Z) (w : work) (m : DocumentMutation) : result work :=
  if negb (validDocumentMutation m) then Err ErrCorrupt
  else
    let identity := documentIdentity (dm_Collection m) (dm_DocumentID m) in
    if existsb (beqb identity) (wk_seen w) then Err ErrDuplicateMutation
    else
      let* (c, new) := open_collection db sequence w (dm_Collection m) in
      let* position := position_of c m in
      let* changes := prepareIndexMutations (dm_Collection m) (co_indexes c).*1 (dm_Operation m) (dm_DocumentID m) (dm_Indexes m) position in
      Ok (mk_work (ins (dm_Collection m) (change_documents c m position) (wk_open w)) (identity :: wk_seen w) (wk_pending w ++ changes)
            new (wk_delta w + growth m)).

Fixpoint mutate_all (db : database) (sequence : Z) (w : work) (mutations : list DocumentMutation) : result work :=
  match mutations with
  | [] => Ok w
  | m :: mutations => let* w := mutate db sequence w m in mutate_all db sequence w mutations
  end.

(** *** Index entries *)

Definition set_entries_of (c : collection) (name : bytes) (ix : index) (l : list KeyValue) : collection :=
  mk_collection (co_ID c) (co_created c) (co_updated c) (co_next c) (co_documents c) (ins name (mk_index (ix_definition ix) l) (co_indexes c)).

Definition replace_entries (change : index -> pendingIndexMutation -> result (list KeyValue)) (open : list (bytes * collection))
    (m : pendingIndexMutation) : result (list (bytes * collection)) :=
  match field open (pi_collection m) with
  | None => Err ErrPanic
  | Some c =>
      match field (co_indexes c) (pi_index m) with
      | None => Err ErrPanic
      | Some ix => let* l := change ix m in Ok (ins (pi_collection m) (set_entries_of c (pi_index m) ix l) open)
      end
  end.

Fixpoint replace_all (change : index -> pendingIndexMutation -> result (list KeyValue)) (open : list (bytes * collection))
    (pending : list pendingIndexMutation) : result (list (bytes * collection)) :=
  match pending with
  | [] => Ok open
  | m :: pending => let* open := replace_entries change open m in replace_all change open pending
  end.

Definition remove_change (ix : index) (m : pendingIndexMutation) : result (list KeyValue) :=
  match remove_posting (ix_entries ix) m with
  | Some l => Ok l
  | None => Err ErrCorrupt
  end.

Definition add_change (ix : index) (m : pendingIndexMutation) : result (list KeyValue) :=
  add_posting (idx_Unique (ix_definition ix)) (ix_entries ix) m.

Definition replace_index_entries (open : list (bytes * collection)) (pending : list pendingIndexMutation) : result (list (bytes * collection)) :=
  let* open := replace_all remove_change open pending in replace_all add_change open pending.

(** *** The whole transaction *)

Definition touch (sequence : Z) (c : collection) : collection :=
  mk_collection (co_ID c) (co_created c) sequence (co_next c) (co_documents c) (co_indexes c).

Definition publish_all (sequence : Z) (open : list (bytes * collection)) (collections : list (bytes * collection)) : list (bytes * collection) :=
  fold_left (fun cs e => ins e.1 (touch sequence e.2) cs) open collections.

(** The collections after the transaction. *)
Definition change_collections (db : database) (sequence : Z) (transaction : DocumentTransaction) : result (list (bytes * collection)) :=
  let* _ := check_collections db [] (dt_CollectionPreconditions transaction) in
  let* _ := check_documents db [] (dt_Preconditions transaction) in
  let* w := mutate_all db sequence (mk_work [] [] [] 0 0) (dt_Mutations transaction) in
  let* open := replace_index_entries (wk_open w) (wk_pending w) in
  Ok (publish_all sequence open (db_collections db)).

(** The records after the changes, or the value of the first that does not match. *)
Fixpoint change_records (records : list KeyValue) (changes : list SystemRecordMutation) : result (option bytes + list KeyValue) :=
  match changes with
  | [] => Ok (inr records)
  | m :: changes =>
      let current := field records (sm_Key m) in
      if negb (validSystemRecordMutation m) then Err ErrCorrupt
      else if negb (matches_expected m current) then Ok (inl current)
      else if sm_Delete m && negb (present current) then Err ErrCorrupt
      else change_records (changed m records) changes
  end.

(** What the transaction makes of the database at a sequence: an error, the
    current value of a record that does not match, or the new database. *)
Definition transact (db : database) (sequence : Z) (transaction : DocumentTransaction) (systemRecords : list SystemRecordMutation)
    : result (option bytes + database) :=
  let* collections := change_collections db sequence transaction in
  let* records := change_records (db_records db) systemRecords in
  match records with
  | inl current => Ok (inl current)
  | inr records => Ok (inr (mk_database collections records))
  end.

(** ** Counts of a database

    The numbers of collections and of documents of [Collections], and how a
    transaction changes them: what the root of the new version records. *)
(** ** Publishing *)

Section Publish.
Variables (sequence : Z) (f : bytes -> collection -> Z).
Hypothesis Htouch : forall name c, f name (touch sequence c) = f name c.
Implicit Types (open cs : list (bytes * collection)).

Definition was cs name : Z := from_option (f name) 0 (field cs name).

Lemma publish_all_sorted open cs : sorted_keys cs -> sorted_keys (publish_all sequence open cs).
Proof. revert cs; induction open as [|e open IH]; intros cs Hs; [done|]. cbn. apply IH. by apply sorted_ins. Qed.

Lemma tally_publish open cs :
  sorted_keys open -> sorted_keys cs -> tally f (publish_all sequence open cs) = tally f cs + tally (fun name c => f name c - was cs name) open.
Proof using Htouch.
  revert cs; induction open as [|[name c] open IH]; intros cs; cbn [publish_all fold_left]; [cbn; lia|].
  rewrite sorted_keys_cons. intros [Hs Hf] Hcs. cbn [fst snd]. fold (publish_all sequence open (ins name (touch sequence c) cs)).
  rewrite IH by (done || by apply sorted_ins). rewrite tally_ins by done. rewrite Htouch.
  cbn [tally foldr fst snd]. unfold was at 1. fold (tally (fun name c => f name c - was cs name) open).
  rewrite (tally_ext (fun name0 c0 => f name0 c0 - was (ins name (touch sequence c) cs) name0) (fun name0 c0 => f name0 c0 - was cs name0)).
  - unfold was. lia.
  - apply Forall_forall. intros [n d] Hin. cbn. unfold was. rewrite field_ins. destruct (beqb n name) eqn:E; [|done]. apply beqb_eq in E as ->.
    rewrite Forall_forall in Hf. apply (list_elem_of_fmap_2 fst) in Hin. apply Hf in Hin. by apply blt_irrefl in Hin.
Qed.
End Publish.

Lemma publish_all_names sequence (P : bytes -> Prop) open cs :
  Forall (fun e => P e.1) open -> Forall (fun e => P e.1) cs -> Forall (fun e => P e.1) (publish_all sequence open cs).
Proof.
  revert cs; induction open as [|e open IH]; intros cs Ho Hc; [done|]. apply Forall_cons in Ho as [He Ho]. cbn. apply IH; [done|].
  apply Forall_forall. intros x [->|Hx]%ins_incl; [done|]. rewrite Forall_forall in Hc. by apply Hc.
Qed.

(** ** What a transaction adds *)

Definition one_each (_ : bytes) (_ : collection) : Z := 1.

(** What the work so far adds to a sum over the collections. *)
Definition gain (f : bytes -> collection -> Z) (db : database) (open : list (bytes * collection)) : Z :=
  tally (fun name c => f name c - was f (db_collections db) name) open.

Definition sorted_documents (cs : list (bytes * collection)) : Prop := Forall (fun e => sorted_keys (co_documents e.2)) cs.

Record tallied (db : database) (w : work) : Prop := {
  ta_sorted : sorted_keys (wk_open w);
  ta_documents : sorted_documents (wk_open w);
  ta_new : gain one_each db (wk_open w) = wk_new w;
  ta_delta : gain documents_in db (wk_open w) = wk_delta w }.

Lemma sorted_documents_field cs name c : sorted_documents cs -> field cs name = Some c -> sorted_keys (co_documents c).
Proof. intros Hs Hf%field_Some. unfold sorted_documents in Hs. rewrite Forall_forall in Hs. apply (Hs _ Hf). Qed.

Lemma sorted_documents_ins cs name c : sorted_documents cs -> sorted_keys (co_documents c) -> sorted_documents (ins name c cs).
Proof. unfold sorted_documents. rewrite !Forall_forall. intros Hs Hc e [->|He]%ins_incl; [done|by apply Hs]. Qed.

Lemma gain_ins f db open name c :
  sorted_keys open ->
  gain f db (ins name c open) = gain f db open + f name c - from_option (f name) (was f (db_collections db) name) (field open name).
Proof. intros Hs. unfold gain. rewrite tally_ins by done. destruct (field open name); cbn [from_option]; lia. Qed.

Lemma change_documents_sorted c m p : sorted_keys (co_documents c) -> sorted_keys (co_documents (change_documents c m p)).
Proof. intros Hs. cbn. destruct (_ =? _); [by apply sorted_del|by apply sorted_ins]. Qed.

Lemma change_documents_grows c m p :
  sorted_keys (co_documents c) -> position_of c m = Ok p -> documents_in [] (change_documents c m p) = documents_in [] c + growth m.
Proof.
  unfold documents_in, position_of, growth. intros Hs. cbn [change_documents co_documents].
  destruct (field (co_documents c) (dm_DocumentID m)) as [[q d]|] eqn:Ef; intros Hp.
  - destruct (Z.eqb_spec (dm_Operation m) DocumentInsert) as [|Hi]; [done|].
    destruct (_ =? DocumentDelete); [rewrite length_del, Ef|rewrite length_ins, Ef by done]; lia.
  - destruct (Z.eqb_spec (dm_Operation m) DocumentInsert) as [Hi|]; [|done]. rewrite Hi. cbn [DocumentInsert DocumentDelete Z.eqb Pos.eqb].
    rewrite length_ins, Ef by done. lia.
Qed.

Lemma mutate_tallied db sequence w m w' :
  sorted_documents (db_collections db) -> tallied db w -> mutate db sequence w m = Ok w' -> tallied db w'.
Proof.
  intros Hdb [Hs Hd Hn Hg]. unfold mutate. destruct (negb _); [done|]. destruct (existsb _ _); [done|]. intros Hm. inv_ok.
  destruct a as [c new]. inv_ok. subst w'. rename a into p, Hok0 into Hp.
  assert (Hopen : sorted_keys (co_documents c) /\
    from_option (documents_in (dm_Collection m)) (was documents_in (db_collections db) (dm_Collection m)) (field (wk_open w) (dm_Collection m)) = documents_in [] c /\
    new = wk_new w + (1 - from_option (one_each (dm_Collection m)) (was one_each (db_collections db) (dm_Collection m)) (field (wk_open w) (dm_Collection m)))).
  { unfold open_collection in Hok. destruct (field (wk_open w) (dm_Collection m)) as [c0|] eqn:E1; cbn [from_option].
    - injection Hok as <- <-. split; [exact (sorted_documents_field _ _ _ Hd E1)|]. split; [done|]. unfold one_each. lia.
    - unfold was. destruct (field (db_collections db) (dm_Collection m)) as [c0|] eqn:E2; cbn [from_option].
      + injection Hok as <- <-. split; [exact (sorted_documents_field _ _ _ Hdb E2)|]. split; [done|]. unfold one_each. lia.
      + destruct (_ <? _); [done|]. injection Hok as <- <-. split; [apply sorted_keys_nil|]. split; [done|lia]. }
  destruct Hopen as (Hsc & Ho & Hnew). constructor; cbn [wk_open wk_new wk_delta].
  - by apply sorted_ins.
  - apply sorted_documents_ins; [done|by apply change_documents_sorted].
  - rewrite gain_ins by done. unfold one_each at 2. lia.
  - rewrite gain_ins, Ho by done. pose proof (change_documents_grows c m p Hsc Hp) as Hc. unfold documents_in in *. lia.
Qed.

Lemma mutate_all_tallied db sequence ms w w' :
  sorted_documents (db_collections db) -> tallied db w -> mutate_all db sequence w ms = Ok w' -> tallied db w'.
Proof.
  intros Hdb. revert w; induction ms as [|m ms IH]; intros w Ht; cbn [mutate_all]; [by intros <-%Ok_inj|]. intros Hm. inv_ok.
  eapply IH; [|exact Hm]. by eapply mutate_tallied.
Qed.

(** *** Index entries do not count *)

Definition same_gains (db : database) (open open' : list (bytes * collection)) : Prop :=
  sorted_keys open' /\ zlen open' = zlen open /\ gain one_each db open' = gain one_each db open /\ gain documents_in db open' = gain documents_in db open.

Lemma replace_entries_gains db change open m open' :
  sorted_keys open -> replace_entries change open m = Ok open' -> same_gains db open open'.
Proof.
  intros Hs. unfold replace_entries. destruct (field open _) as [c|] eqn:Ec; [|done]. destruct (field _ (pi_index m)) as [ix|]; [|done].
  intros Hr. inv_ok. subst open'. split; [by apply sorted_ins|]. rewrite length_ins, !gain_ins, Ec by done. cbn [from_option]. unfold one_each, documents_in. cbn. lia.
Qed.

Lemma replace_all_gains db change pending open open' :
  sorted_keys open -> replace_all change open pending = Ok open' -> same_gains db open open'.
Proof.
  revert open; induction pending as [|m pending IH]; intros open Hs; cbn [replace_all]; [intros <-%Ok_inj; by split|]. intros Hr. inv_ok.
  destruct (replace_entries_gains db _ _ _ _ Hs Hok) as (H1 & Hz & H2 & H3). destruct (IH _ H1 Hr) as (H4 & Hz' & H5 & H6). split; [done|]. split; [lia|split; congruence].
Qed.

Lemma replace_index_gains db pending open open' :
  sorted_keys open -> replace_index_entries open pending = Ok open' -> same_gains db open open'.
Proof.
  intros Hs. unfold replace_index_entries. intros Hr. inv_ok. destruct (replace_all_gains db _ _ _ _ Hs Hok) as (H1 & Hz & H2 & H3).
  destruct (replace_all_gains db _ _ _ _ H1 Hr) as (H4 & Hz' & H5 & H6). split; [done|]. split; [lia|split; congruence].
Qed.

Lemma tallied_empty db : tallied db (mk_work [] [] [] 0 0).
Proof. constructor; [apply sorted_keys_nil|constructor|done|done]. Qed.

(** A mutation opens no more than one collection. *)
Lemma mutate_all_opens db sequence ms w w' : mutate_all db sequence w ms = Ok w' -> zlen (wk_open w') <= zlen (wk_open w) + zlen ms.
Proof.
  revert w; induction ms as [|m ms IH]; intros w; cbn [mutate_all]; [intros <-%Ok_inj; rewrite zlen_nil; lia|]. intros Hm. inv_ok. rename a into w1.
  specialize (IH _ Hm). rewrite zlen_cons. enough (zlen (wk_open w1) <= zlen (wk_open w) + 1) by lia. clear -Hok. revert Hok. unfold mutate.
  destruct (negb _); [done|]. destruct (existsb _ _); [done|]. intros Hm. inv_ok. destruct a as [c new]. inv_ok. subst w1. cbn. apply zlen_ins_at_most.
Qed.

Lemma mutate_all_delta db sequence ms w w' : mutate_all db sequence w ms = Ok w' -> wk_delta w' <= wk_delta w + zlen ms.
Proof.
  revert w; induction ms as [|m ms IH]; intros w; cbn [mutate_all]; [intros <-%Ok_inj; rewrite zlen_nil; lia|]. intros Hm. inv_ok. rename a into w1.
  specialize (IH _ Hm). rewrite zlen_cons. enough (wk_delta w1 <= wk_delta w + 1) by lia. clear -Hok. revert Hok. unfold mutate.
  destruct (negb _); [done|]. destruct (existsb _ _); [done|]. intros Hm. inv_ok. destruct a as [c new]. inv_ok. subst w1. cbn. unfold growth.
  destruct (_ =? _); [lia|]. destruct (_ =? _); lia.
Qed.

Lemma documents_nonneg cs : 0 <= tally documents_in cs.
Proof. induction cs as [|e cs IH]; [done|]. cbn. unfold documents_in at 1. pose proof (zlen_nonneg (co_documents e.2)). unfold tally in IH. lia. Qed.

(** The counts of the new database. *)
Lemma published_counts db sequence w open ms :
  sorted_keys (db_collections db) -> sorted_documents (db_collections db) ->
  mutate_all db sequence (mk_work [] [] [] 0 0) ms = Ok w -> replace_index_entries (wk_open w) (wk_pending w) = Ok open ->
  sorted_keys open /\ zlen open <= zlen ms /\ zlen (publish_all sequence open (db_collections db)) = zlen (db_collections db) + wk_new w /\
  tally documents_in (publish_all sequence open (db_collections db)) = total_documents db + wk_delta w.
Proof.
  intros Hs Hd Hm Hr. pose proof (mutate_all_tallied db sequence ms _ _ Hd (tallied_empty db) Hm) as [T1 T2 T3 T4].
  destruct (replace_index_gains db _ _ _ T1 Hr) as (H1 & Hz & H2 & H3). split; [done|].
  split; [rewrite Hz; pose proof (mutate_all_opens db sequence ms _ w Hm) as Hopen; cbn [wk_open] in Hopen; change (zlen []) with 0 in Hopen; lia|]. rewrite <- !tally_one.
  rewrite (tally_publish sequence one_each), (tally_publish sequence documents_in) by done. unfold gain in *. rewrite H2, H3, T3, T4. done.
Qed.
