(* ===== verification/DocumentSteps.v ===== *)
(** * The steps of a document transaction

    Each step of [DocumentWrite] does to the trees what the step of the same name
    of [Collections] does to the maps. *)
From stdpp Require Import gmap.
From S2P Require Import Prelude Bytes Strings Layout Hashes PageFormat Entries NodeCodec CowTree.
From S2P Require Import TreeShape TreeInvariant TreeRep TreeDelete TreeScan Tree Flush FileStore Recovery Commit.
From S2P Require Import Atomicity TreeRead Snapshots Transactions Records StoredValues SystemRecords SystemStore.
From S2P Require Import CommitCodec IndexRecords DocumentRecords IndexWrite DocumentWrite Collections.
#[local] Open Scope Z_scope.

(** A full file or node, which no map has. *)
Definition resource (e : gerror) : Prop := e = ErrStorageLimit \/ e = ErrNodeFull.

(** The concrete result stands for the abstract one. *)
Definition simulates {A B} (R : A -> B -> Prop) (r : result A) (r' : result B) : Prop :=
  match r with
  | Ok a => exists b, r' = Ok b /\ R a b
  | Err e => r' = Err e \/ resource e
  end.

Lemma simulates_bind {A B A' B'} (R : A -> A' -> Prop) (S : B -> B' -> Prop) r r' k k' :
  simulates R r r' -> (forall a a', r = Ok a -> r' = Ok a' -> R a a' -> simulates S (k a) (k' a')) -> simulates S (rbind r k) (rbind r' k').
Proof.
  intros Hr Hk. destruct r as [a|e]; cbn in *.
  - destruct Hr as (a' & -> & HR). cbn. by apply Hk.
  - destruct Hr as [->|?]; cbn; [by left|by right].
Qed.

Lemma simulates_impl {A B} (R S : A -> B -> Prop) r r' : (forall a b, R a b -> S a b) -> simulates R r r' -> simulates S r r'.
Proof. intros HRS. destruct r; cbn; [|done]. intros (b & ? & ?). exists b. auto. Qed.

(** ** The order of the documents *)

Section Order.
Implicit Types (docs : list (bytes * (Z * bytes))) (order : list KeyValue).

Lemma documents_range next docs id p d : documents_ok next docs -> field docs id = Some (p, d) -> 0 < p <= next.
Proof.
  intros Hd Hf%field_Some. unfold documents_ok in Hd. rewrite Forall_forall in Hd. by destruct (Hd _ Hf) as (_ & _ & ?).
Qed.

Lemma ordered_entry docs order id p d : ordered docs order -> field docs id = Some (p, d) -> field order (insertionPositionKey p) = Some id.
Proof. intros [_ Ho] Hf. apply Ho. by exists p, d. Qed.

Lemma ordered_absent next docs order p :
  ordered docs order -> documents_ok next docs -> 0 <= next < p -> p < 2 ^ 64 -> field order (insertionPositionKey p) = None.
Proof.
  intros [_ Ho] Hd Hn Hp. destruct (field order (insertionPositionKey p)) as [id|] eqn:E; [|done].
  apply Ho in E as (q & d & Hq & Hf). pose proof (documents_range _ _ _ _ _ Hd Hf). apply position_key_inj in Hq; lia.
Qed.

Lemma ordered_delete next docs order id p d :
  sorted_keys docs -> sorted_keys order -> u64 next -> documents_ok next docs -> ordered docs order -> field docs id = Some (p, d) ->
  ordered (del id docs) (del (insertionPositionKey p) order).
Proof.
  intros Hsd Hso Hnext Hok Hord Hf. pose proof (ordered_entry _ _ _ _ _ Hord Hf) as Hfo. destruct Hord as [Hz Ho]. split.
  - rewrite !length_del, Hf, Hfo. lia.
  - intros key i. rewrite field_del by done. unfold u64 in *. pose proof (documents_range _ _ _ _ _ Hok Hf). split.
    + destruct (beqb key (insertionPositionKey p)) eqn:E; [done|]. apply beqb_neq in E. intros (q & d' & -> & Hfi)%Ho.
      exists q, d'. split; [done|]. rewrite field_del by done. destruct (beqb i id) eqn:Ei; [|done]. apply beqb_eq in Ei as ->. congruence.
    + intros (q & d' & -> & Hfi). rewrite field_del in Hfi by done. destruct (beqb i id) eqn:Ei; [done|]. apply beqb_neq in Ei.
      assert (Hi : field order (insertionPositionKey q) = Some i) by (apply Ho; by exists q, d').
      destruct (beqb (insertionPositionKey q) (insertionPositionKey p)) eqn:E; [|done]. apply beqb_eq in E. rewrite E in Hi. congruence.
Qed.

Lemma ordered_insert docs order id p d :
  sorted_keys docs -> sorted_keys order -> ordered docs order -> field docs id = None -> field order (insertionPositionKey p) = None ->
  ordered (ins id (p, d) docs) (ins (insertionPositionKey p) id order).
Proof.
  intros Hsd Hso [Hz Ho] Hf Hfo. split.
  - rewrite !length_ins, Hf, Hfo by done. lia.
  - intros key i. rewrite field_ins. split.
    + destruct (beqb key (insertionPositionKey p)) eqn:E.
      * apply beqb_eq in E as ->. intros [= <-]. exists p, d. split; [done|]. by rewrite field_ins, beqb_refl.
      * intros (q & d' & -> & Hfi)%Ho. exists q, d'. split; [done|]. rewrite field_ins. destruct (beqb i id) eqn:Ei; [|done].
        apply beqb_eq in Ei as ->. congruence.
    + intros (q & d' & -> & Hfi). rewrite field_ins in Hfi. destruct (beqb i id) eqn:Ei.
      * injection Hfi as <- <-. rewrite beqb_refl. apply beqb_eq in Ei as ->. done.
      * assert (Hi : field order (insertionPositionKey q) = Some i) by (apply Ho; by exists q, d').
        destruct (beqb (insertionPositionKey q) _) eqn:E; [|done]. apply beqb_eq in E. rewrite E in Hi. congruence.
Qed.

Lemma ordered_update docs order id p d d' :
  sorted_keys docs -> ordered docs order -> field docs id = Some (p, d) -> ordered (ins id (p, d') docs) order.
Proof.
  intros Hsd [Hz Ho] Hf. split; [rewrite length_ins, Hf by done; lia|]. intros key i. rewrite Ho. split.
  - intros (q & e & -> & Hfi). rewrite field_ins. destruct (beqb i id) eqn:Ei; [|by exists q, e].
    apply beqb_eq in Ei as ->. rewrite Hf in Hfi. injection Hfi as <- <-. by exists p, d'.
  - intros (q & e & -> & Hfi). rewrite field_ins in Hfi. destruct (beqb i id) eqn:Ei; [|by exists q, e].
    apply beqb_eq in Ei as ->. injection Hfi as <- <-. by exists p, d.
Qed.

Lemma documents_ok_del next docs id : documents_ok next docs -> documents_ok next (del id docs).
Proof. unfold documents_ok. rewrite !Forall_forall. intros Hd e He. apply Hd. by eapply del_incl. Qed.

Lemma documents_ok_ins next next' docs id p d :
  documents_ok next docs -> next <= next' -> zlen id = 16 -> all_zero id = false -> 0 < p <= next' -> documents_ok next' (ins id (p, d) docs).
Proof.
  unfold documents_ok. rewrite !Forall_forall. intros Hd Hn Hi Hz Hp e [->|He]%ins_incl; [done|]. destruct (Hd _ He) as (? & ? & ?). split; [done|]. split; [done|]. lia.
Qed.
End Order.

Section Steps.
Variable K : bytes -> Prop.
(** No collection has more indexes than this. *)
Variable W : nat.
Implicit Types (tx : WriteTxn) (c : collection) (st : collectionWriteState).

(** ** States of indexes and collections *)

Definition index_live tx h (s : indexWriteState) (ix : index) : Prop :=
  index_state tx h s (ix_entries ix) /\ definition_of (iw_meta s) = ix_definition ix /\
  validateIndexMetaFeatures (tx_requiredFeatures tx) (iw_meta s) = Ok tt /\ index_entries K (ix_entries ix) /\
  stored_index (iw_meta s) /\ index_ok (iw_meta s) /\ idx_UpdatedSequence (iw_meta s) <= tx_sequence tx.

(** The catalog of indexes still holds every index that did not change. *)
Record catalogued tx (h : nat) (indexCatalog : nodeRef) (root : Z) (ss : list (bytes * indexWriteState)) (xs : list (bytes * index)) : Prop := {
  cg_entries : exists ms, live tx TreeIndexCatalog h indexCatalog ms /\ held tx TreeIndexCatalog h root ms /\ ms.*1 = xs.*1 /\
    forall name s e ix, field ss name = Some s -> iw_changed s = false -> field ms name = Some e -> field xs name = Some ix -> index_at K tx h e ix }.

Record state_at tx (h : nat) st c : Prop := {
  sa_wf : collection_wf c;
  sa_meta : describes_collection (cw_meta st) c;
  sa_widths : Records.collection_ok (cw_meta st);
  sa_identity : co_ID c <> 0 /\ co_created c <> 0 /\ co_created c <= tx_sequence tx /\ co_updated c <= tx_sequence tx;
  sa_documents : exists ds, live tx TreePrimary h (cw_tree st) ds /\ linked (document_record tx) ds (co_documents c);
  sa_order : exists order, live tx TreeOrder h (cw_order st) order /\ ordered (co_documents c) order;
  sa_indexes : linked (index_live tx h) (cw_indexes st) (co_indexes c);
  sa_catalog : catalogued tx h (cw_indexCatalog st) (coll_IndexCatalogRoot (cw_meta st)) (cw_indexes st) (co_indexes c);
  sa_original : u64 (cw_originalRoot st) }.

(** ** Moving on *)

Lemma index_live_moves tx tx' h s ix : moves tx tx' -> index_live tx h s ix -> index_live tx' h s ix.
Proof.
  intros Hm ([Hl Hc] & Hd & Hv & He & Hs & Ho & Hu). pose proof (continues_moves _ _ Hm) as (_ & Hf & Hq).
  split; [split; [by eapply live_moves|done]|]. rewrite Hf. do 5 (split; [done|]). lia.
Qed.

Lemma index_live_mono tx h1 h2 s ix : (h1 <= h2)%nat -> index_live tx h1 s ix -> index_live tx h2 s ix.
Proof. intros Hh ([Hl Hc] & ?). split; [split; [by eapply live_mono|done]|done]. Qed.

Lemma catalogued_moves tx tx' h ic root ss xs : moves tx tx' -> catalogued tx h ic root ss xs -> catalogued tx' h ic root ss xs.
Proof.
  intros Hm [(ms & Hl & Hk & Hn & Hall)]. constructor. exists ms. split; [by eapply live_moves|]. split; [by eapply held_moves|]. split; [done|].
  intros name s e ix H1 H2 H3 H4. eapply index_at_continues; [by apply continues_moves|]. by eapply Hall.
Qed.

Lemma catalogued_mono tx h1 h2 ic root ss xs : (h1 <= h2)%nat -> catalogued tx h1 ic root ss xs -> catalogued tx h2 ic root ss xs.
Proof.
  intros Hh [(ms & Hl & Hk & Hn & Hall)]. constructor. exists ms. split; [by eapply live_mono|]. split; [by eapply held_mono|]. split; [done|].
  intros name s e ix H1 H2 H3 H4. eapply index_at_mono; [exact Hh|]. by eapply Hall.
Qed.

Lemma state_at_moves tx tx' h st c : moves tx tx' -> state_at tx h st c -> state_at tx' h st c.
Proof.
  intros Hm [H1 H2 H3 H4 (ds & Hd & Hl) (o & Ho & Hord) H7 H8 H9]. pose proof (continues_moves _ _ Hm) as (Hc & _ & Hs). constructor; try done.
  - lia.
  - exists ds. split; [by eapply live_moves|]. eapply linked_impl; [|exact Hl]. intros d r. by apply document_record_carries.
  - exists o. split; [by eapply live_moves|done].
  - eapply linked_impl; [|exact H7]. intros s ix. by apply index_live_moves.
  - by eapply catalogued_moves.
Qed.

Lemma state_at_mono tx h1 h2 st c : (h1 <= h2)%nat -> state_at tx h1 st c -> state_at tx h2 st c.
Proof.
  intros Hh [H1 H2 H3 H4 (ds & Hd & Hl) (o & Ho & Hord) H7 H8 H9]. constructor; try done.
  - exists ds. split; [by eapply live_mono|done].
  - exists o. split; [by eapply live_mono|done].
  - eapply linked_impl; [|exact H7]. intros s ix. by apply index_live_mono.
  - by eapply catalogued_mono.
Qed.

(** ** Opening a collection *)

Lemma loadIndexes_spec tx h ms xs :
  written [] tx -> linked (index_at K tx h) ms xs -> names_ok xs ->
  exists ss, loadIndexes tx ms = Ok ss /\ linked (index_live tx h) ss xs /\ Forall (fun s => iw_changed s.2 = false) ss.
Proof.
  intros Hw Hl. induction Hl as [|[name e] [name' ix] ms xs [En (meta & Hd & Hdef & Hv & Hk & Hn & He & Hu)] Hl IH]; intros Hnames.
  - exists []. split; [done|]. split; constructor.
  - cbn in En. subst name'. apply Forall_cons in Hnames as [Hname Hnames]. cbn in Hname. destruct (IH Hnames) as (ss & Hss & Hlive & Hch).
    cbn [loadIndexes]. cbn [fst snd] in *. rewrite <- Hname in Hd. rewrite Hd. cbn [rbind]. rewrite Hv. cbn [rbind].
    destruct (open_live tx h _ _ Hw Hk) as (tree & -> & Hlt). cbn [rbind]. rewrite Hss. cbn [rbind].
    eexists. split; [done|]. apply decodeIndexMeta_sound in Hd as (Hok & Hst & _ & _).
    by split; constructor.
Qed.

Lemma field_keys {A B} (l : list (bytes * A)) (m : list (bytes * B)) k a : l.*1 = m.*1 -> field l k = Some a -> exists b, field m k = Some b.
Proof.
  intros E Hk. destruct (field m k) as [b|] eqn:Em; [by exists b|]. apply field_None in Em. rewrite <- E in Em. apply field_None in Em. congruence.
Qed.

Lemma loadCollectionIndexes_spec fuel tx h root ms xs :
  written [] tx -> held tx TreeIndexCatalog h root ms -> linked (index_at K tx h) ms xs -> names_ok xs -> (h < fuel)%nat ->
  exists ic ss, loadCollectionIndexes fuel tx root = Ok (ic, ss) /\ linked (index_live tx h) ss xs /\ catalogued tx h ic root ss xs.
Proof.
  intros Hw Hk Hl Hn Hf. unfold loadCollectionIndexes. destruct (open_live tx h _ _ Hw Hk) as (ic & -> & Hlive). cbn [rbind].
  rewrite (scan_live tx h ic ms fuel 0 Hlive Hf). cbn [rbind].
  assert (scan_result [] [] 0 ms = ms) as ->.
  { unfold scan_result, grab. cbn. clear. induction ms as [|e ms IH]; [done|]. cbn. by rewrite IH. }
  destruct (loadIndexes_spec tx h ms xs Hw Hl Hn) as (ss & -> & Hss & Hch). cbn [rbind]. exists ic, ss. split; [done|]. split; [done|].
  constructor. exists ms. do 2 (split; [done|]). split; [by eapply linked_keys|]. intros name s e ix _ _ He Hx.
  pose proof (linked_field _ _ _ name Hl) as Hlf. by rewrite He, Hx in Hlf.
Qed.

Lemma ordered_nil : ordered [] [].
Proof. split; [done|]. intros key id. split; [done|]. intros (p & d & _ & ?). done. Qed.

Lemma system_key_not_name name : validCollectionName name = true -> name <> systemCatalogKey.
Proof. intros Hv ->. vm_compute in Hv. discriminate Hv. Qed.

Lemma catalog_field tx h l db name :
  catalog_at K tx h l db -> sorted_keys l -> validCollectionName name = true ->
  match field l name, field (db_collections db) name with
  | Some e, Some c => collection_at K tx h e c
  | None, None => True
  | _, _ => False
  end.
Proof.
  intros (Hl & _ & _) Hs Hv. pose proof (linked_field _ _ _ name Hl) as Hf. rewrite field_del in Hf by done.
  destruct (beqb name systemCatalogKey) eqn:E; [apply beqb_eq in E; by apply system_key_not_name in E|]. exact Hf.
Qed.

Lemma ordered_keys docs o : ordered docs o -> zlen o = zlen docs.
Proof. by intros []. Qed.

Lemma held_empty tx kind h : held tx kind h 0 [].
Proof. exists O. split; [lia|by left]. Qed.

Lemma collection_state fuel tx h e c :
  written [] tx -> collection_at K tx h e c -> (h < fuel)%nat ->
  exists meta tree order ic ss, decodeCollectionMeta e = Ok meta /\ OpenTree tx TreePrimary (coll_PrimaryRoot meta) = Ok tree /\
    OpenTree tx TreeOrder (coll_OrderRoot meta) = Ok order /\ ref_count tree = coll_DocumentCount meta /\ ref_count order = coll_DocumentCount meta /\
    loadCollectionIndexes fuel tx (coll_IndexCatalogRoot meta) = Ok (ic, ss) /\
    state_at tx h (mk_collectionWriteState meta (coll_PrimaryRoot meta) tree order ic ss false) c.
Proof.
  intros Hw (Hwf & Hu & meta & Hd & Hdc & (ds & Hk1 & Hl1) & (o & Hk2 & Ho) & (ms & Hk3 & Hl3)) Hf. exists meta.
  destruct (open_live tx h _ _ Hw Hk1) as (tree & Ht & Hlt). destruct (open_live tx h _ _ Hw Hk2) as (order & Hor & Hlo).
  destruct (loadCollectionIndexes_spec fuel tx h _ ms _ Hw Hk3 Hl3 (ck_names _ Hwf) Hf) as (ic & ss & Hload & Hss & Hcat).
  exists tree, order, ic, ss. do 3 (split; [done|]).
  split; [by rewrite (live_count _ _ _ _ Hlt), (linked_zlen _ _ _ Hl1), (dc_count _ _ Hdc)|].
  split; [by rewrite (live_count _ _ _ _ Hlo), (ordered_keys _ _ Ho), (dc_count _ _ Hdc)|]. split; [done|].
  apply decodeCollectionMeta_exact in Hd as [Hwd He]. apply encodeCollectionMeta_image in He as [Hv _].
  unfold validCollectionMeta in Hv. breflect. destruct Hdc as [E1 E2 E3 E4 E5]. constructor; cbn; try done.
  - lia.
  - by exists ds.
  - by exists o.
  - apply Hwd.
Qed.

Lemma new_state fuel tx h id sequence :
  written [] tx -> 0 < id <= maxUint32 -> 0 < sequence <= tx_sequence tx -> (h < fuel)%nat ->
  exists tree order ic ss, OpenTree tx TreePrimary 0 = Ok tree /\ OpenTree tx TreeOrder 0 = Ok order /\ ref_count tree = 0 /\ ref_count order = 0 /\
    loadCollectionIndexes fuel tx 0 = Ok (ic, ss) /\
    state_at tx h (mk_collectionWriteState (mk_CollectionMeta id 0 0 0 sequence 0 0 0) 0 tree order ic ss true) (mk_collection id sequence 0 0 [] []).
Proof.
  intros Hw Hid Hs Hf. destruct (open_live tx h 0 [] Hw (held_empty tx TreePrimary h)) as (tree & Ht & Hlt).
  destruct (open_live tx h 0 [] Hw (held_empty tx TreeOrder h)) as (order & Hor & Hlo).
  destruct (loadCollectionIndexes_spec fuel tx h 0 [] [] Hw (held_empty tx TreeIndexCatalog h) ltac:(constructor) ltac:(constructor) Hf) as (ic & ss & Hload & Hss & Hcat).
  exists tree, order, ic, ss. do 2 (split; [done|]). split; [apply (live_count _ _ _ _ Hlt)|]. split; [apply (live_count _ _ _ _ Hlo)|]. split; [done|].
  pose proof (w_ok _ _ Hw) as Hok. destruct Hok as [_ _ _ _ Hsq _ _ _ _]. unfold maxUint32 in Hid. constructor; cbn; try done.
  - constructor; cbn; [constructor|done|done|constructor].
  - unfold Records.collection_ok, u32, u64. cbn. lia.
  - lia.
  - exists []. split; [done|constructor].
  - exists []. split; [done|apply ordered_nil].
Qed.

(** ** Changing a document *)

Section Document.
Variables (fuel : nat) (tx : WriteTxn) (h : nat) (st : collectionWriteState) (c : collection) (m : DocumentMutation).
Hypothesis Hw : written [] tx.
Hypothesis Hst : state_at tx h st c.
Hypothesis Hvalid : validDocumentMutation m = true.
Hypothesis Hid : zlen (dm_DocumentID m) = 16.
Hypothesis Hroom : zlen (co_documents c) + 1 < 2 ^ 64.
Hypothesis Hfuel : (S h < fuel)%nat.

Lemma valid_mutation :
  validCollectionName (dm_Collection m) = true /\ all_zero (dm_DocumentID m) = false /\ 1 <= dm_Operation m <= 3 /\
  (dm_Operation m <> DocumentDelete -> 0 < zlen (dm_Document m) <= maxDocumentBytes).
Proof using Hvalid.
  clear -Hvalid. unfold validDocumentMutation, DocumentInsert, DocumentDelete in *. breflect.
  split; [done|]. split; [done|]. split; [lia|]. intros Hd. destruct (Z.eqb_spec (dm_Operation m) 3); [done|].
  breflect. pose proof (zlen_nonneg (dm_Document m)). lia.
Qed.

Lemma id_key_ok : key_ok (dm_DocumentID m).
Proof using Hid. clear -Hid. unfold key_ok, maxKey. lia. Qed.

(** Where the mutation takes place. *)
Definition positioned (p : Z) : Prop :=
  0 < p < 2 ^ 64 /\ if dm_Operation m =? DocumentInsert then p = co_next c + 1 /\ field (co_documents c) (dm_DocumentID m) = None
                   else exists d, field (co_documents c) (dm_DocumentID m) = Some (p, d).

Lemma mutationPosition_simulates :
  simulates (fun p p' => p = p' /\ positioned p)
    (let* stored := Get tx TreePrimary fuel (cw_tree st) (dm_DocumentID m) in mutationPosition fuel tx st m stored) (position_of c m).
Proof using Hw Hst Hfuel.
  destruct Hst as [Hwf Hmeta _ _ (ds & Hd & Hl) (o & Ho & Hord) _ _ _]. rewrite (get_live tx h (cw_tree st) ds _ fuel Hd) by lia. cbn [rbind].
  unfold mutationPosition, position_of, positioned. pose proof (linked_field _ _ _ (dm_DocumentID m) Hl) as Hf.
  pose proof (ck_next _ Hwf) as Hn. unfold u64, maxUint64 in *.
  destruct (field ds (dm_DocumentID m)) as [stored|], (field (co_documents c) (dm_DocumentID m)) as [[p d]|] eqn:Ef; try done.
  - destruct (dm_Operation m =? DocumentInsert); [by left|]. unfold documentPosition.
    destruct (load_document_record tx stored (p, d) (w_ok _ _ Hw) Hf) as [_ ->]. cbn [rbind].
    rewrite (get_live tx h (cw_order st) o _ fuel Ho) by lia. rewrite (ordered_entry _ _ _ _ _ Hord Ef), beqb_refl. cbn [simulates].
    exists p. split; [done|]. split; [done|]. pose proof (documents_range _ _ _ _ _ (ck_documents _ Hwf) Ef). split; [lia|by exists d].
  - destruct (Z.eqb_spec (dm_Operation m) DocumentInsert) as [E|E]; cbn [negb]; [|by left]. rewrite (dc_next _ _ Hmeta).
    destruct (Z.eqb_spec (co_next c) (2 ^ 64 - 1)); [by left|]. cbn [simulates]. eexists. split; [done|]. split; [done|]. split; [lia|done].
Qed.

(** The metadata follows the counts. *)
Lemma described documents next count tree order :
  count = zlen documents -> zlen documents < 2 ^ 64 -> u64 next ->
  let c' := mk_collection (co_ID c) (co_created c) (co_updated c) next documents (co_indexes c) in
  let st' := set_documents st count next tree order in
  collection_wf c' -> (exists ds, live tx TreePrimary (S h) tree ds /\ linked (document_record tx) ds documents) ->
  (exists o, live tx TreeOrder (S h) order o /\ ordered documents o) -> state_at tx (S h) st' c'.
Proof using Hst.
  clear Hfuel Hroom Hid Hvalid Hw m fuel.
  intros -> Hz Hn c' st' Hwf Hds Ho. destruct (state_at_mono tx h (S h) st c ltac:(lia) Hst) as [_ [E1 E2 E3 E4 E5] Hwd Hi _ _ Hix Hcat Horig].
  pose proof (zlen_nonneg documents). constructor; try done.
  unfold Records.collection_ok, u32, u64 in *. cbn. lia.
Qed.

Lemma deleteDocument_spec p :
  positioned p -> dm_Operation m = DocumentDelete ->
  exists st', deleteDocument fuel tx st (dm_DocumentID m) p = Ok st' /\ state_at tx (S h) st' (change_documents c m p).
Proof using Hst Hid Hroom Hfuel.
  intros [Hp Hpos] Hop. rewrite Hop in Hpos. cbn in Hpos. destruct Hpos as [d Hf]. pose proof Hst as [Hwf Hmeta _ _ (ds & Hd & Hl) (o & Ho & Hord) _ _ _].
  unfold deleteDocument, change_documents. rewrite Hop. cbn [Z.eqb Pos.eqb DocumentDelete DocumentInsert].
  assert (Hne : dm_DocumentID m <> []) by (intros E; rewrite E in Hid; done).
  destruct (delete_live tx h (cw_tree st) ds (dm_DocumentID m) fuel Hd) as (tree & counts & -> & Hlt);
    [rewrite (linked_zlen _ _ _ Hl); lia|lia|done|].
  pose proof (linked_field _ _ _ (dm_DocumentID m) Hl) as Hfd. rewrite Hf in Hfd. unfold found. destruct (field ds (dm_DocumentID m)) eqn:Efd; [|done].
  destruct (delete_live tx h (cw_order st) o (insertionPositionKey p) fuel Ho) as (order & counts' & -> & Hlo);
    [rewrite (ordered_keys _ _ Hord); lia|lia|by apply insertion_key_nonempty|].
  unfold found. rewrite (ordered_entry _ _ _ _ _ Hord Hf). eexists. split; [done|].
  pose proof (live_sorted _ _ _ _ Hd) as Hsd. pose proof (live_sorted _ _ _ _ Ho) as Hso. pose proof (linked_sorted _ _ _ Hl Hsd) as Hsdocs.
  assert (Hz : zlen (del (dm_DocumentID m) (co_documents c)) = zlen (co_documents c) - 1) by (by rewrite length_del, Hf).
  pose proof (zlen_nonneg (del (dm_DocumentID m) (co_documents c))).
  rewrite (dc_next _ _ Hmeta), (dc_count _ _ Hmeta). apply described; try done.
  - rewrite Hz. apply Z.mod_small. lia.
  - lia.
  - apply Hwf.
  - destruct Hwf as [H1 H2 H3 H4]. constructor; cbn; [by apply documents_ok_del|done|lia|done].
  - exists (del (dm_DocumentID m) ds). split; [done|by apply linked_del].
  - exists (del (insertionPositionKey p) o). split; [done|]. eapply ordered_delete; try done; apply Hwf.
Qed.
End Document.

Section Changing.
Variables (fuel : nat) (tx : WriteTxn) (h : nat) (st : collectionWriteState) (c : collection) (m : DocumentMutation) (p : Z).
Hypothesis Hw : written [] tx.
Hypothesis Hst : state_at tx h st c.
Hypothesis Hvalid : validDocumentMutation m = true.
Hypothesis Hid : zlen (dm_DocumentID m) = 16.
Hypothesis Hroom : zlen (co_documents c) + 1 < 2 ^ 64.
Hypothesis Hfuel : (S h < fuel)%nat.
Hypothesis Hpos : positioned c m p.

Lemma storeDocument_spec next order o grows :
  dm_Operation m <> DocumentDelete -> let docs := ins (dm_DocumentID m) (p, dm_Document m) (co_documents c) in
  grows = zlen docs - zlen (co_documents c) -> co_next c <= next -> p <= next -> u64 next -> zlen docs <= next ->
  live tx TreeOrder (S h) order o -> ordered docs o ->
  match storeDocument fuel tx (set_documents st (coll_DocumentCount (cw_meta st)) next (cw_tree st) order) (dm_DocumentID m) (dm_Document m) p grows with
  | Ok (st', tx') => quiet tx tx' /\
      state_at tx' (S h) st' (mk_collection (co_ID c) (co_created c) (co_updated c) next docs (co_indexes c))
  | Err e => resource e
  end.
Proof.
  intros Hop docs Hgrows Hn Hpn Hun Hzn Hlo Hord. destruct (valid_mutation m Hvalid) as (_ & Hz & _ & Hdoc). specialize (Hdoc Hop).
  destruct Hpos as [Hp _]. unfold storeDocument. pose proof (store_document_record tx p (dm_Document m) Hw Hp Hdoc) as Hs.
  destruct (storeDocumentRecord tx p (dm_Document m)) as [[stored tx']|]; cbn [rbind]; [|by left]. destruct Hs as [Hq Hrec].
  pose proof (state_at_moves _ _ _ _ _ (proj1 Hq) Hst) as Hst'. pose proof Hst' as [Hwf Hmeta _ _ (ds & Hd & Hl) _ _ _ _].
  pose proof (put_live tx' h (cw_tree st) ds (dm_DocumentID m) stored fuel Hd) as Hput. cbn [set_documents cw_tree].
  specialize (Hput ltac:(rewrite (linked_zlen _ _ _ Hl); lia) ltac:(lia) (id_key_ok m Hid)).
  destruct (Put tx' TreePrimary fuel (cw_tree st) (dm_DocumentID m) stored) as [[tree s]|e]; cbn [rbind]; [|right; apply Hput].
  split; [done|]. pose proof (live_sorted _ _ _ _ Hd) as Hsd. pose proof (linked_sorted _ _ _ Hl Hsd) as Hsdocs.
  pose proof (zlen_nonneg docs). assert (Hz2 : zlen docs < 2 ^ 64) by (unfold u64 in *; lia).
  eapply (described tx' h st c Hst'); try done.
  - cbn. rewrite (dc_count _ _ Hmeta). rewrite Hgrows. rewrite Z.add_comm, Z.sub_add. by apply Z.mod_small.
  - constructor; cbn; [|done|done|apply Hwf]. unfold docs. eapply documents_ok_ins; [apply Hwf|lia|done|done|lia].
  - exists (ins (dm_DocumentID m) stored ds). split; [exact Hput|]. by apply linked_ins.
  - exists o. split; [eapply live_moves; [apply Hq|exact Hlo]|done].
Qed.

Lemma changeDocument_spec :
  match changeDocument fuel tx st m p with
  | Ok (st', tx', delta) => quiet tx tx' /\ state_at tx' (S h) st' (change_documents c m p) /\ delta = growth m
  | Err e => resource e
  end.
Proof.
  unfold changeDocument, growth. pose proof Hst as [Hwf Hmeta _ _ (ds & Hd & Hl) (o & Ho & Hord) _ _ _].
  destruct (Z.eqb_spec (dm_Operation m) DocumentDelete) as [Hop|Hop].
  { destruct (deleteDocument_spec fuel tx h st c m Hst Hid Hroom Hfuel p Hpos Hop) as (st' & -> & Hst'). cbn [rbind].
    split; [by apply quiet_refl|done]. }
  pose proof Hpos as [Hp Hcase]. pose proof (live_sorted _ _ _ _ Hd) as Hsd. pose proof (linked_sorted _ _ _ Hl Hsd) as Hsdocs.
  pose proof (live_sorted _ _ _ _ Ho) as Hso. pose proof (ck_next _ Hwf) as Hun. unfold u64 in Hun. pose proof (ck_count _ Hwf) as Hcn.
  destruct (Z.eqb_spec (dm_Operation m) DocumentInsert) as [Hins|Hins].
  - destruct Hcase as [Hpn Hf]. unfold insertPosition. rewrite (dc_next _ _ Hmeta).
    assert (to_u64 (co_next c + 1) = p) as -> by (rewrite <- Hpn; apply Z.mod_small; lia). rewrite Z.eqb_refl. cbn [negb].
    rewrite (get_live tx h (cw_order st) o _ fuel Ho) by lia.
    assert (Habs : field o (insertionPositionKey p) = None) by (eapply ordered_absent; [done|apply Hwf|lia|lia]). rewrite Habs. cbn [rbind].
    pose proof (put_live tx h (cw_order st) o (insertionPositionKey p) (dm_DocumentID m) fuel Ho) as Hput.
    specialize (Hput ltac:(rewrite (ordered_keys _ _ Hord); lia) ltac:(lia) (position_key_ok p)).
    destruct (Put tx TreeOrder fuel (cw_order st) _ _) as [[order s]|e]; cbn [rbind]; [|right; apply Hput].
    assert (Hz : zlen (ins (dm_DocumentID m) (p, dm_Document m) (co_documents c)) = zlen (co_documents c) + 1) by (rewrite length_ins, Hf by done; lia).
    pose proof (storeDocument_spec p order (ins (insertionPositionKey p) (dm_DocumentID m) o) 1 Hop ltac:(lia) ltac:(lia) ltac:(lia) ltac:(unfold u64; lia) ltac:(lia)
      Hput ltac:(by apply ordered_insert)) as Hs.
    destruct (storeDocument _ _ _ _ _ _ _) as [[st' tx']|]; cbn [rbind]; [|done]. destruct Hs as [Hq Hs]. split; [done|]. split; [|done].
    unfold change_documents. rewrite (proj2 (Z.eqb_neq _ _) Hop), (proj2 (Z.eqb_eq _ _) Hins). done.
  - destruct Hcase as [d Hf]. cbn [rbind].
    assert (Hz : zlen (ins (dm_DocumentID m) (p, dm_Document m) (co_documents c)) = zlen (co_documents c)) by (rewrite length_ins, Hf by done; lia).
    pose proof (documents_range _ _ _ _ _ (ck_documents _ Hwf) Hf).
    pose proof (storeDocument_spec (co_next c) (cw_order st) o 0 Hop ltac:(lia) ltac:(lia) ltac:(lia) (ck_next _ Hwf) ltac:(lia)
      ltac:(eapply live_mono; [|exact Ho]; lia) ltac:(by eapply ordered_update)) as Hs.
    assert (Hsame : set_documents st (coll_DocumentCount (cw_meta st)) (co_next c) (cw_tree st) (cw_order st) = st).
    { rewrite <- (dc_next _ _ Hmeta). destruct st as [meta orig tree order ic ixs cr]. unfold set_documents. cbn. by destruct meta. }
    rewrite Hsame in Hs. destruct (storeDocument _ _ _ _ _ _ _) as [[st' tx']|]; cbn [rbind]; [|done]. destruct Hs as [Hq Hs]. split; [done|].
    split; [|done]. unfold change_documents. rewrite (proj2 (Z.eqb_neq _ _) Hop), (proj2 (Z.eqb_neq _ _) Hins). done.
Qed.
End Changing.

(** ** Pending index entries *)

Definition keys_in (items : list IndexMutation) : Prop :=
  Forall (fun im => (im_BeforeKey im = [] \/ K (im_BeforeKey im)) /\ (im_AfterKey im = [] \/ K (im_AfterKey im))) items.

Lemma providedIndexes_spec op provided items out :
  providedIndexes op provided items = Ok out -> keys_in items ->
  let good im := (im_BeforeKey im = [] \/ key_fits (im_BeforeKey im) /\ K (im_BeforeKey im)) /\
                 (im_AfterKey im = [] \/ key_fits (im_AfterKey im) /\ K (im_AfterKey im)) in
  Forall (fun e => good e.2) provided -> Forall (fun e => good e.2) out.
Proof.
  intros Hp Hk good. revert provided Hp; induction Hk as [|im items [Hb Ha] Hk IH]; intros provided; cbn [providedIndexes]; [by intros <-%Ok_inj|].
  destruct (negb _); [done|]. destruct (_ || _) eqn:El; [done|]. destruct (field provided (im_Name im)); [done|].
  destruct (_ && _); [done|]. destruct (_ && _); [done|]. intros Hp Hprov. apply (IH _ Hp). apply Forall_app. split; [done|].
  constructor; [|constructor]. cbn. breflect.
  assert (Hfit : forall key, zlen key <= MaxSecondaryScalarKeyBytes -> key = [] \/ K key -> key = [] \/ key_fits key /\ K key).
  { intros key Hz [->|?]; [by left|]. destruct key as [|b key]; [by left|right]. split; [|done].
    split; [rewrite zlen_cons; pose proof (zlen_nonneg key); lia|done]. }
  split; by apply Hfit.
Qed.

Lemma prepare_ok collection names op id items p changes :
  prepareIndexMutations collection names op id items p = Ok changes -> keys_in items -> identity_ok p id ->
  Forall (pending_ok K) changes /\ length changes = length items.
Proof.
  unfold prepareIndexMutations. intros Hp Hk Hid. destruct (_ || _) eqn:E; [done|]. inv_ok. rename a into provided, Hok into Hprov. breflect.
  pose proof (providedIndexes_spec op [] items provided Hprov Hk ltac:(constructor)) as Hgood.
  assert (Hall : Forall (pending_ok K) changes /\ length changes = length names).
  { clear -Hp Hgood Hid. revert changes Hp; induction names as [|name names IH]; intros changes; cbn [pendingIndexes]; [intros <-%Ok_inj; by split|].
    destruct (field provided name) as [item|] eqn:Ef; [|done]. intros Hp. inv_ok. destruct (IH _ Hok) as [Hall Hlen]. subst changes.
    split; [|cbn; by rewrite Hlen]. constructor; [|done]. apply field_Some in Ef. rewrite Forall_forall in Hgood. destruct (Hgood _ Ef) as [Hb Ha].
    constructor; cbn; done. }
  destruct Hall as [Hall Hlen]. split; [done|]. unfold zlen in *. lia.
Qed.

(** ** Room to grow *)

Definition room (n : Z) c : Prop :=
  zlen (co_documents c) + n < 2 ^ 64 /\ (length (co_indexes c) <= W)%nat /\ Forall (fun e => zlen (ix_entries e.2) + n < 2 ^ 64) (co_indexes c).

Lemma room_mono n n' c : n' <= n -> room n c -> room n' c.
Proof. intros Hn (H1 & H2 & H3). split; [lia|]. split; [done|]. eapply Forall_impl; [exact H3|]. intros e He. cbn in *. lia. Qed.

Definition rooms (n : Z) (cs : list (bytes * collection)) : Prop := Forall (fun e => room n e.2) cs.

Lemma rooms_mono n n' cs : n' <= n -> rooms n cs -> rooms n' cs.
Proof. intros Hn Hr. eapply Forall_impl; [exact Hr|]. intros e. by apply room_mono. Qed.

Lemma rooms_field n cs name c : rooms n cs -> field cs name = Some c -> room n c.
Proof. intros Hr Hf%field_Some. unfold rooms in Hr. rewrite Forall_forall in Hr. apply (Hr _ Hf). Qed.

Lemma rooms_ins n cs name c : rooms n cs -> room n c -> rooms n (ins name c cs).
Proof. unfold rooms. rewrite !Forall_forall. intros Hr Hc e [->|He]%ins_incl; [done|by apply Hr]. Qed.

Lemma change_documents_room n c m p : room (n + 1) c -> room n (change_documents c m p).
Proof.
  intros (H1 & Hi & H2). split; [|split; [done|eapply Forall_impl; [exact H2|]; intros e He; cbn in *; lia]]. cbn.
  assert (Hins : zlen (ins (dm_DocumentID m) (p, dm_Document m) (co_documents c)) <= zlen (co_documents c) + 1) by apply zlen_ins_at_most.
  assert (Hdel : zlen (del (dm_DocumentID m) (co_documents c)) <= zlen (co_documents c)) by (rewrite length_del; destruct (field _ _); lia).
  destruct (_ =? _); lia.
Qed.

(** What the local variables stand for. *)
Record writing (tx0 : WriteTxn) (db : database) (h : nat) (ws : writeState) (w : work) : Prop := {
  wr_moves : quiet tx0 (ws_tx ws);
  wr_states : linked (state_at (ws_tx ws) h) (ws_states ws) (wk_open w);
  wr_seen : ws_seen ws = wk_seen w;
  wr_pending : ws_pendingIndexes ws = wk_pending w;
  wr_changes : Forall (fun p => change_ok (pd_change p)) (ws_pending ws);
  wr_new : ws_newCollections ws = wk_new w;
  wr_delta : ws_documentDelta ws = wk_delta w;
  wr_count : 0 <= wk_new w /\ zlen (db_collections db) + wk_new w <= maxUint32;
  wr_names : Forall (fun e => validCollectionName e.1 = true) (wk_open w) }.

Section Mutations.
Variables (fuel : nat) (tx0 : WriteTxn) (base : DatabaseRoot) (catalog : nodeRef) (h : nat) (l : list KeyValue) (db : database).
Hypothesis Hw0 : written [] tx0.
Hypothesis Hcatalog : live tx0 TreeCatalog h catalog l.
Hypothesis Hat : catalog_at K tx0 h l db.
Hypothesis Hcount : root_CollectionCount base = zlen (db_collections db).
Hypothesis Hsequence : 0 < tx_sequence tx0.
Hypothesis Hfuel : (h < fuel)%nat.

Lemma openCollection_simulates tx n h' w name :
  quiet tx0 tx -> (h <= h')%nat -> (h' < fuel)%nat -> validCollectionName name = true -> n = wk_new w -> field (wk_open w) name = None ->
  0 <= wk_new w -> zlen (db_collections db) + wk_new w <= maxUint32 ->
  simulates (fun '(st, k) '(c, k') => k = k' /\ state_at tx h' st c /\ 0 <= k /\ zlen (db_collections db) + k <= maxUint32)
    (openCollection fuel base tx catalog n name) (open_collection db (tx_sequence tx0) w name).
Proof.
  intros [Hm Hq] Hh Hf Hv -> Hopen H0 Hle. pose proof (mv_written _ _ Hm) as Hw. unfold openCollection, open_collection. rewrite Hopen.
  rewrite (get_live tx h catalog l name fuel) by (done || by eapply live_moves). cbn [rbind].
  pose proof (catalog_field tx h l db name (catalog_at_continues _ _ _ _ _ _ (continues_moves _ _ Hm) Hat) (live_sorted _ _ _ _ Hcatalog) Hv) as Hc.
  destruct (field l name) as [e|], (field (db_collections db) name) as [c|]; try done.
  - destruct (collection_state fuel tx h e c Hw Hc Hfuel) as (meta & tree & order & ic & ss & -> & Ht & Ho & Hn1 & Hn2 & Hload & Hst).
    cbn [rbind]. rewrite Ht. cbn [rbind]. rewrite Ho. cbn [rbind]. rewrite Hn1, Hn2, Z.eqb_refl. cbn [negb orb]. rewrite Hload. cbn [rbind simulates].
    eexists. split; [done|]. split; [done|]. split; [by eapply state_at_mono|done].
  - rewrite Hcount. set (id := zlen (db_collections db) + (wk_new w + 1)). pose proof (zlen_nonneg (db_collections db)).
    assert (to_u64 id = id) as -> by (apply Z.mod_small; unfold maxUint32 in *; lia).
    destruct (Z.ltb_spec maxUint32 id); [by left|]. cbn [rbind coll_PrimaryRoot coll_OrderRoot coll_IndexCatalogRoot coll_DocumentCount].
    rewrite (same_sequence _ _ (mv_same _ _ Hm)).
    destruct (new_state fuel tx h' id (tx_sequence tx0) Hw ltac:(lia) ltac:(rewrite (same_sequence _ _ (mv_same _ _ Hm)); lia) Hf)
      as (tree & order & ic & ss & Ht & Ho & Hn1 & Hn2 & Hload & Hst).
    rewrite Ht. cbn [rbind]. rewrite Ho. cbn [rbind]. rewrite Hn1, Hn2, Z.eqb_refl. cbn [negb orb]. rewrite Hload. cbn [rbind simulates]. eexists. split; [done|]. split; [done|]. split; [done|]. lia.
Qed.
(** *** One mutation, and all of them *)

Definition legal_mutation (m : DocumentMutation) : Prop := zlen (dm_DocumentID m) = 16 /\ keys_in (dm_Indexes m).

Lemma writing_tx ws w h' : writing tx0 db h' ws w -> written [] (ws_tx ws).
Proof. intros Hr. apply (wr_moves _ _ _ _ _ Hr). Qed.

Lemma state_of_simulates ws w h' name :
  writing tx0 db h' ws w -> (h <= h')%nat -> (h' < fuel)%nat -> validCollectionName name = true ->
  simulates (fun '(st, k) '(c, k') => k = k' /\ state_at (ws_tx ws) h' st c /\ 0 <= k /\ zlen (db_collections db) + k <= maxUint32)
    (match field (ws_states ws) name with
     | Some state => Ok (state, ws_newCollections ws)
     | None => openCollection fuel base (ws_tx ws) catalog (ws_newCollections ws) name
     end) (open_collection db (tx_sequence tx0) w name).
Proof.
  intros [Hq Hst Hseen Hpend Hchg Hnew Hdelta [H0 Hle] Hnames] Hh Hf Hv. pose proof (linked_field _ _ _ name Hst) as Hfd.
  destruct (field (ws_states ws) name) as [st|].
  - destruct (field (wk_open w) name) as [c|] eqn:Eo; [|done]. unfold open_collection. rewrite Eo. cbn [simulates].
    eexists. split; [done|]. rewrite Hnew. done.
  - destruct (field (wk_open w) name) eqn:Eo; [done|]. by apply openCollection_simulates.
Qed.

Lemma open_room w name c k n :
  open_collection db (tx_sequence tx0) w name = Ok (c, k) -> rooms n (wk_open w) -> rooms n (db_collections db) -> n < 2 ^ 64 -> room n c.
Proof.
  unfold open_collection. intros Ho Hr Hdb Hn. destruct (field (wk_open w) name) as [c0|] eqn:E1; [injection Ho as <- <-; by apply (rooms_field _ _ _ _ Hr E1)|].
  destruct (field (db_collections db) name) as [c0|] eqn:E2; [injection Ho as <- <-; by apply (rooms_field _ _ _ _ Hdb E2)|].
  destruct (_ <? _); [done|]. injection Ho as <- <-. split; [|split; [cbn; lia|constructor]]. cbn [co_documents]. change (zlen []) with 0. lia.
Qed.

Definition growing (n : Z) (w : work) : Prop := rooms n (wk_open w) /\ Forall (pending_ok K) (wk_pending w).

Lemma applyMutation_simulates ws w h' m n :
  writing tx0 db h' ws w -> growing (n + 1) w -> rooms (n + 1) (db_collections db) -> 0 <= n -> n + 1 < 2 ^ 64 ->
  (h <= h')%nat -> (S h' < fuel)%nat -> legal_mutation m ->
  simulates (fun ws' w' => writing tx0 db (S h') ws' w' /\ growing n w' /\
      length (wk_pending w') = (length (wk_pending w) + length (dm_Indexes m))%nat)
    (applyMutation fuel base catalog ws m) (mutate db (tx_sequence tx0) w m).
Proof.
  intros Hwr [Hr Hp] Hdb H0n Hn Hh Hf [Hid Hkeys]. unfold applyMutation, mutate.
  destruct (validDocumentMutation m) eqn:Hv; cbn [negb]; [|by left]. destruct (valid_mutation m Hv) as (Hname & Hz & Hop & Hdoc).
  rewrite (wr_seen _ _ _ _ _ Hwr). destruct (existsb _ _); [by left|].
  eapply simulates_bind; [apply (state_of_simulates ws w h' (dm_Collection m) Hwr Hh ltac:(lia) Hname)|].
  intros [st k] [c k'] _ Ho (<- & Hst & Hk0 & Hkle). cbn beta iota zeta.
  pose proof (open_room _ _ _ _ _ Ho Hr Hdb Hn) as Hroom. pose proof (writing_tx _ _ _ Hwr) as Hw.
  pose proof (mutationPosition_simulates fuel (ws_tx ws) h' st c m Hw Hst Hf) as Hpos.
  destruct (Get (ws_tx ws) TreePrimary fuel (cw_tree st) (dm_DocumentID m)) as [stored|e] eqn:Eg; cbn [rbind] in *.
  2: { destruct Hpos as [->|?]; [by left|by right]. }
  eapply simulates_bind; [exact Hpos|]. intros p p' _ _ [<- Hposn].
  rewrite (linked_keys _ _ _ (sa_indexes _ _ _ _ Hst)).
  destruct (prepareIndexMutations (dm_Collection m) (co_indexes c).*1 (dm_Operation m) (dm_DocumentID m) (dm_Indexes m) p) as [changes|e] eqn:Epr;
    cbn [rbind]; [|by left].
  destruct (prepare_ok _ _ _ _ _ _ _ Epr Hkeys) as [Hchanges Hlen]; [split; [apply Hposn|done]|].
  pose proof (changeDocument_spec fuel (ws_tx ws) h' st c m p Hw Hst Hv Hid ltac:(destruct Hroom; lia) Hf Hposn) as Hch.
  destruct (changeDocument fuel (ws_tx ws) st m p) as [[[st' tx'] delta]|e]; cbn [rbind simulates]; [|by right].
  destruct Hch as (Hq & Hst' & ->). eexists. split; [done|]. destruct Hwr as [Hq0 Hst0 Hseen Hpend Hchg Hnew Hdelta Hcnt Hnames]. split; [|split; [split|]].
  - constructor; cbn; try done.
    + by eapply quiet_trans.
    + apply linked_ins; [|done]. eapply linked_impl; [|exact Hst0]. intros s d Hsd. eapply state_at_mono; [|eapply state_at_moves; [apply Hq|done]]. lia.
    + by rewrite Hpend.
    + apply Forall_app. split; [done|]. constructor; [|constructor]. pose proof (sa_widths _ _ _ _ Hst) as (Hid32 & _). pose proof (sa_original _ _ _ _ Hst).
      split; [done|]. split; [done|]. split; [|done]. cbn. destruct (_ =? _); done.
    + by rewrite Hdelta.
    + apply Forall_forall. intros e [->|He]%ins_incl; [done|]. rewrite Forall_forall in Hnames. by apply Hnames.
  - cbn. apply rooms_ins; [|by apply change_documents_room]. eapply rooms_mono; [|exact Hr]. lia.
  - cbn. by apply Forall_app.
  - cbn. rewrite length_app. lia.
Qed.

Lemma applyMutations_simulates ms ws w h' n :
  writing tx0 db h' ws w -> growing (n + zlen ms) w -> rooms (n + zlen ms) (db_collections db) -> 0 <= n -> n + zlen ms < 2 ^ 64 ->
  (h <= h')%nat -> (h' + length ms < fuel)%nat -> Forall legal_mutation ms ->
  simulates (fun ws' w' => writing tx0 db (h' + length ms) ws' w' /\ growing n w' /\
      length (wk_pending w') = (length (wk_pending w) + sum_list_with (fun m => length (dm_Indexes m)) ms)%nat)
    (applyMutations fuel base catalog ws ms) (mutate_all db (tx_sequence tx0) w ms).
Proof.
  revert ws w h'; induction ms as [|m ms IH]; intros ws w h' Hwr Hg Hdb H0n Hn Hh Hf Hms; cbn [applyMutations mutate_all].
  - change (zlen []) with 0 in *. exists w. split; [done|]. rewrite !Nat.add_0_r, Z.add_0_r in *. done.
  - rewrite zlen_cons in *. apply Forall_cons in Hms as [Hm Hms]. pose proof (zlen_nonneg ms). cbn [length sum_list_with] in *.
    eapply simulates_bind.
    + apply (applyMutation_simulates ws w h' m (n + zlen ms) Hwr); try lia; [|  |done].
      * by replace (n + zlen ms + 1) with (n + (1 + zlen ms)) by lia.
      * by replace (n + zlen ms + 1) with (n + (1 + zlen ms)) by lia.
    + intros ws' w' _ _ (Hwr' & Hg' & Hlen). replace (h' + S (length ms))%nat with (S h' + length ms)%nat by lia.
      eapply simulates_impl; [|apply (IH ws' w' (S h') Hwr' Hg'); try lia; [|done]].
      * intros a b (H1 & H2 & H3). split; [done|]. split; [done|]. lia.
      * eapply rooms_mono; [|exact Hdb]. lia.
Qed.
End Mutations.
(** ** The passes over the index entries *)

Lemma keys_ins_present {A} k (v : A) l : sorted_keys l -> field l k <> None -> (ins k v l).*1 = l.*1.
Proof.
  induction l as [|[k' v'] l IH]; cbn [field ins]; [done|]. rewrite sorted_keys_cons. intros [Hs Hf] Hk.
  destruct (bcompare k k') eqn:E.
  - apply bcompare_eq in E as ->. done.
  - destruct (beqb k k') eqn:E'; [apply beqb_eq in E' as ->; by rewrite bcompare_refl in E|]. exfalso. apply Hk. apply field_None. intros Hin.
    rewrite Forall_forall in Hf. apply Hf in Hin. by apply (blt_asym k k').
  - destruct (beqb k k') eqn:E'; [apply beqb_eq in E' as ->; by rewrite bcompare_refl in E|]. cbn. by rewrite IH.
Qed.

Lemma definition_set_entries m root count updated : definition_of (set_entries m root count updated) = definition_of m.
Proof. done. Qed.

Definition names_valid (open : list (bytes * collection)) : Prop := Forall (fun e => validCollectionName e.1 = true) open.

Section Passes.
Variables (fuel : nat) (tx : WriteTxn).

(** A step on an index does what the change does to its entries. *)
Definition step_ok (step : indexWriteState -> pendingIndexMutation -> result indexWriteState) (change : index -> pendingIndexMutation -> result (list KeyValue)) : Prop :=
  forall h s ix m, index_live tx h s ix -> pending_ok K m -> zlen (ix_entries ix) + 1 < 2 ^ 64 -> (S h < fuel)%nat ->
    match change ix m with
    | Ok l' => exists s', step s m = Ok s' /\ index_live tx (S h) s' (mk_index (ix_definition ix) l') /\
        (iw_changed s' = true \/ s' = s /\ l' = ix_entries ix) /\ zlen l' <= zlen (ix_entries ix) + 1
    | Err e => step s m = Err e
    end.

Lemma index_live_evolves h s ix s' l' :
  index_live tx h s ix -> index_state tx (S h) s' l' -> evolves s (ix_entries ix) s' l' -> index_entries K l' -> zlen l' < 2 ^ 64 ->
  index_live tx (S h) s' (mk_index (ix_definition ix) l').
Proof.
  intros (_ & Hd & Hv & _ & Hs & Ho & Hu) Hst [Hm _] He Hz. assert (Hc : idx_EntryCount (iw_meta s') = zlen l') by apply Hst.
  rewrite Hc in Hm. split; [exact Hst|]. cbn [ix_definition ix_entries]. rewrite Hm. split; [by rewrite definition_set_entries|]. split; [exact Hv|].
  split; [done|]. split; [by destruct Hs|]. split; [|exact Hu]. destruct Ho as (? & ? & ? & ?). unfold index_ok, u64 in *. cbn.
  pose proof (zlen_nonneg l'). lia.
Qed.

Lemma remove_step_ok : step_ok (removeIndexKey fuel tx) remove_change.
Proof.
  intros h s ix m Hlive Hm Hmax Hf. pose proof Hlive as (Hst & _ & _ & He & _).
  pose proof (removeIndexKey_spec K fuel tx h s (ix_entries ix) m Hst He Hm Hmax Hf) as Hspec. unfold remove_change.
  destruct (remove_posting (ix_entries ix) m) as [l'|]; [|done]. destruct Hspec as (s' & Hs' & Hst' & Hev & He' & Hz). exists s'.
  split; [done|]. split; [eapply index_live_evolves; try done; lia|]. split; [apply Hev|lia].
Qed.

Lemma insert_step_ok : prefix_free K -> step_ok (insertIndexKey fuel tx) add_change.
Proof.
  intros HK h s ix m Hlive Hm Hmax Hf. pose proof Hlive as (Hst & Hd & _ & He & _).
  pose proof (insertIndexKey_spec K fuel tx h s (ix_entries ix) m Hst He Hm Hmax Hf HK) as Hspec. unfold add_change.
  assert (idx_Unique (ix_definition ix) = idx_Unique (iw_meta s)) as -> by (by rewrite <- Hd).
  destruct (add_posting (idx_Unique (iw_meta s)) (ix_entries ix) m) as [l'|]; [|done]. destruct Hspec as (s' & Hs' & Hst' & Hev & He' & Hz). exists s'.
  split; [done|]. split; [eapply index_live_evolves; try done; lia|]. split; [apply Hev|lia].
Qed.

Lemma linked_names h ss xs : linked (index_live tx h) ss xs -> ss.*1 = xs.*1.
Proof. apply linked_keys. Qed.

Lemma state_at_indexes_sorted h st c : state_at tx h st c -> sorted_keys (co_indexes c).
Proof.
  intros Hst. destruct (sa_catalog _ _ _ _ Hst) as [(ms & Hl & _ & Hn & _)]. pose proof (live_sorted _ _ _ _ Hl) as Hs. unfold sorted_keys in *. by rewrite <- Hn.
Qed.

Lemma set_index_state h st c name s ix s' l' :
  state_at tx h st c -> field (cw_indexes st) name = Some s -> field (co_indexes c) name = Some ix ->
  index_live tx (S h) s' (mk_index (ix_definition ix) l') -> (iw_changed s' = true \/ s' = s /\ l' = ix_entries ix) ->
  state_at tx (S h) (set_indexes st (ins name s' (cw_indexes st))) (set_entries_of c name ix l').
Proof.
  intros Hst Hs Hix Hlive Hch. pose proof (state_at_indexes_sorted h st c Hst) as Hsort.
  destruct (state_at_mono tx h (S h) st c ltac:(lia) Hst) as [[W1 W2 W3 W4] H2 H3 H4 H5 H6 H7 [(ms & Hl & Hk & Hn & Hall)] H9].
  pose proof (field_Some _ _ _ Hix) as Hin. assert (Hname : name = idx_Name (ix_definition ix)).
  { unfold names_ok in W4. rewrite Forall_forall in W4. apply (W4 _ Hin). }
  constructor; cbn; try done.
  - constructor; cbn; try done. apply Forall_forall. intros e [->|He]%ins_incl; [done|]. unfold names_ok in W4. rewrite Forall_forall in W4. by apply W4.
  - by destruct H2.
  - by apply linked_ins.
  - constructor. exists ms. split; [done|]. split; [done|]. split; [rewrite keys_ins_present; [done|done|congruence]|].
    intros k s2 e x. rewrite !field_ins. destruct (beqb k name) eqn:E; [|by apply Hall].
    apply beqb_eq in E as ->. intros [= <-] Hun He [= <-]. destruct Hch as [Hc|[-> ->]]; [congruence|].
    destruct ix as [d es]. by apply (Hall name s e).
Qed.

Lemma stepIndex_simulates step change h n states open m :
  step_ok step change -> linked (state_at tx h) states open -> rooms (n + 1) open -> names_valid open -> 0 <= n -> pending_ok K m -> (S h < fuel)%nat ->
  simulates (fun states' open' => linked (state_at tx (S h)) states' open' /\ rooms n open' /\ names_valid open')
    (stepIndex (fun s => step s m) states m) (replace_entries change open m).
Proof.
  intros Hstep Hl Hr Hnv Hn Hm Hf. unfold stepIndex, replace_entries. pose proof (linked_field _ _ _ (pi_collection m) Hl) as Hfd.
  destruct (field states (pi_collection m)) as [st|] eqn:Es, (field open (pi_collection m)) as [c|] eqn:Eo; try done; [|by left].
  pose proof (linked_field _ _ _ (pi_index m) (sa_indexes _ _ _ _ Hfd)) as Hfi.
  destruct (field (cw_indexes st) (pi_index m)) as [s|] eqn:Ei, (field (co_indexes c) (pi_index m)) as [ix|] eqn:Ex; try done; [|by left].
  pose proof (rooms_field _ _ _ _ Hr Eo) as (Hrd & Hrn & Hri). pose proof (field_Some _ _ _ Ex) as Hin.
  assert (Hrix : zlen (ix_entries ix) + (n + 1) < 2 ^ 64) by (rewrite Forall_forall in Hri; apply (Hri _ Hin)).
  pose proof (Hstep h s ix m Hfi Hm ltac:(lia) Hf) as Hs. destruct (change ix m) as [l'|e]; [|rewrite Hs; by left].
  destruct Hs as (s' & -> & Hlive & Hch & Hz). cbn [rbind simulates]. eexists. split; [done|].
  assert (Hup : linked (state_at tx (S h)) states open) by (eapply linked_impl; [|exact Hl]; intros a b; apply state_at_mono; lia).
  split; [|split].
  - apply linked_ins; [done|]. by eapply set_index_state.
  - apply rooms_ins; [eapply rooms_mono; [|exact Hr]; lia|]. split; [cbn; lia|]. cbn.
    split; [pose proof (length_ins (pi_index m) (mk_index (ix_definition ix) l') _ (state_at_indexes_sorted h st c Hfd)) as Hli;
      rewrite Ex in Hli; unfold zlen in Hli; lia|]. rewrite Forall_forall in *. intros e [->|He]%ins_incl; cbn; [lia|].
    specialize (Hri _ He). lia.
  - unfold names_valid in *. rewrite Forall_forall in *. intros e [->|He]%ins_incl; [|by apply Hnv]. apply field_Some in Eo. by apply (Hnv _ Eo).
Qed.

Lemma stepIndexes_simulates step change pending h n states open :
  step_ok step change -> linked (state_at tx h) states open -> rooms (n + zlen pending) open -> names_valid open -> 0 <= n ->
  Forall (pending_ok K) pending -> (h + length pending < fuel)%nat ->
  simulates (fun states' open' => linked (state_at tx (h + length pending)) states' open' /\ rooms n open' /\ names_valid open')
    (stepIndexes step states pending) (replace_all change open pending).
Proof.
  intros Hstep. revert h states open; induction pending as [|m pending IH]; intros h states open Hl Hr Hnv Hn Hp Hf; cbn [stepIndexes replace_all].
  - change (zlen []) with 0 in Hr. rewrite Z.add_0_r in Hr. cbn [length]. rewrite Nat.add_0_r. by exists open.
  - apply Forall_cons in Hp as [Hm Hp]. rewrite zlen_cons in Hr. cbn [length] in *. pose proof (zlen_nonneg pending).
    eapply simulates_bind; [apply (stepIndex_simulates step change h (n + zlen pending) states open m Hstep Hl); try done; try lia|].
    { eapply rooms_mono; [|exact Hr]. lia. }
    intros states' open' _ _ (Hl' & Hr' & Hnv'). replace (h + S (length pending))%nat with (S h + length pending)%nat by lia.
    apply IH; try done; lia.
Qed.

Lemma applyIndexMutations_simulates h n states open pending :
  prefix_free K -> linked (state_at tx h) states open -> rooms (n + 2 * zlen pending) open -> names_valid open -> 0 <= n ->
  Forall (pending_ok K) pending -> (h + 2 * length pending < fuel)%nat ->
  simulates (fun states' open' => linked (state_at tx (h + 2 * length pending)) states' open' /\ rooms n open' /\ names_valid open')
    (applyIndexMutations fuel tx states pending) (replace_index_entries open pending).
Proof.
  intros HK Hl Hr Hnv Hn Hp Hf. unfold applyIndexMutations, replace_index_entries. pose proof (zlen_nonneg pending).
  eapply simulates_bind; [apply (stepIndexes_simulates _ _ pending h (n + zlen pending) states open remove_step_ok Hl); try done; try lia|].
  { eapply rooms_mono; [|exact Hr]. lia. }
  intros states' open' _ _ (Hl' & Hr' & Hnv'). replace (h + 2 * length pending)%nat with (h + length pending + length pending)%nat by lia.
  apply stepIndexes_simulates; try done; [by apply insert_step_ok|lia].
Qed.
End Passes.

End Steps.
