(* ===== verification/DocumentPublish.v ===== *)
(** * Publishing the collections of a document transaction

    The flushes at the end of a document transaction: what [flushIndexes],
    [flushCollection] and [publishCollections] of [DocumentWrite] leave in the
    catalog stands for the collections of [Collections.publish_all]. *)
From stdpp Require Import gmap.
From S2P Require Import Prelude Bytes Strings Layout Hashes PageFormat Entries NodeCodec CowTree.
From S2P Require Import TreeShape TreeInvariant TreeRep TreeDelete TreeScan Tree Flush FileStore Recovery Commit.
From S2P Require Import Atomicity TreeRead Snapshots Transactions Records StoredValues SystemRecords SystemStore.
From S2P Require Import CommitCodec IndexRecords DocumentRecords IndexWrite DocumentWrite Collections DocumentSteps.
#[local] Open Scope Z_scope.

Lemma linked_pointwise {A B} (R : A -> B -> Prop) (l : list (bytes * A)) (m : list (bytes * B)) :
  sorted_keys l -> l.*1 = m.*1 -> (forall k a b, field l k = Some a -> field m k = Some b -> R a b) -> linked R l m.
Proof.
  revert m; induction l as [|[k a] l IH]; intros [|[k' b] m] Hs Hk HR; try done; [constructor|]. injection Hk as <- Hk.
  pose proof Hs as Hsk. apply sorted_keys_cons in Hs as [Hs Hf]. constructor.
  - split; [done|]. apply (HR k); cbn; by rewrite beqb_refl.
  - apply IH; [done|done|]. intros x a' b' Ha Hb. assert (Hx : beqb x k = false).
    { apply beqb_neq. intros ->. rewrite Forall_forall in Hf. apply field_Some, (list_elem_of_fmap_2 fst), Hf in Ha. by apply blt_irrefl in Ha. }
    apply (HR x); cbn; by rewrite Hx.
Qed.

Lemma held_root tx kind h page l : txn_ok tx -> held tx kind h page l -> page = 0 \/ 2 <= page.
Proof.
  intros Hok (h' & _ & [(-> & _)|Hs]); [by left|right]. apply stored_available in Hs. apply (available_range _ _ Hok) in Hs. lia.
Qed.

Lemma name_key_ok name : validCollectionName name = true -> key_ok name.
Proof.
  destruct name as [|b name]; [done|]. unfold validCollectionName. intros Hv. apply andb_true_iff in Hv as [Hv _]. breflect.
  unfold key_ok, maxKey. rewrite zlen_cons in *. pose proof (zlen_nonneg name). split; [lia|]. lia.
Qed.

Section Publish.
Variable K : bytes -> Prop.
Variables fuel W : nat.
Hypothesis HW : Z.of_nat W + 1 < 2 ^ 64.
Implicit Types (tx : WriteTxn) (c : collection) (st : collectionWriteState).

(** ** Indexes *)

(** The definition of a flushed index. *)
Lemma flushed_index tx h s ix root :
  index_live K tx h s ix -> 2 <= root -> u64 root -> 0 < tx_sequence tx < 2 ^ 64 -> held tx TreeSecondary h root (ix_entries ix) ->
  idx_Name (ix_definition ix) = idx_Name (iw_meta s) ->
  exists encoded, encodeIndexMeta (set_entries (iw_meta s) root (idx_EntryCount (iw_meta s)) (tx_sequence tx)) = Ok encoded /\ index_at K tx h encoded ix.
Proof.
  intros ([_ Hc] & Hd & Hv & He & Hs & Ho & Hu) Hr Hur Hsq Hk Hname. set (m := set_entries _ _ _ _).
  assert (Hst : stored_index m).
  { destruct Hs as [H1 H2 H3 H4 [H5 H6] H7]. constructor; cbn; try done. split; [done|lia]. }
  exists (index_image m). split; [by apply encode_stored_index|]. exists m. split; [|split; [|split; [|split; [|split; [|split]]]]].
  - rewrite Hname. apply (decodeIndexMeta_image m); [|done]. destruct Ho as (? & ? & ? & ?). unfold index_ok, u64 in *. cbn. lia.
  - by rewrite <- Hd.
  - exact Hv.
  - exact Hk.
  - exact Hc.
  - done.
  - cbn. lia.
Qed.

(** Every entry of the catalog is that of its index, those still to come aside. *)
Definition catalog_done tx h (rest : list (bytes * indexWriteState)) (ms : list KeyValue) (xs : list (bytes * index)) : Prop :=
  ms.*1 = xs.*1 /\
  forall name e ix, field ms name = Some e -> field xs name = Some ix -> (forall s, field rest name = Some s -> iw_changed s = false) -> index_at K tx h e ix.

Lemma catalog_done_moves tx tx' h rest ms xs : moves tx tx' -> catalog_done tx h rest ms xs -> catalog_done tx' h rest ms xs.
Proof.
  intros Hm [Hn Hall]. split; [done|]. intros name e ix H1 H2 H3. eapply index_at_continues; [by apply continues_moves|]. by eapply Hall.
Qed.

Lemma flushIndex_spec tx h hc ic ms xs name s rest ix :
  written [] tx -> 0 < tx_sequence tx -> index_live K tx h s ix -> zlen (ix_entries ix) < 2 ^ 64 -> field xs name = Some ix -> names_ok xs ->
  zlen xs + 1 < 2 ^ 64 -> live tx TreeIndexCatalog hc ic ms -> catalog_done tx h ((name, s) :: rest) ms xs -> (hc < fuel)%nat ->
  match flushIndex fuel tx ic name s with
  | Ok (ic', tx') => quiet tx tx' /\ exists ms', live tx' TreeIndexCatalog (S hc) ic' ms' /\ catalog_done tx' h rest ms' xs
  | Err e => resource e
  end.
Proof.
  intros Hw Hseq Hlive Hz Hx Hnames Hzx Hc Hdone Hf. unfold flushIndex. pose proof Hlive as ([Hlt1 _] & Hdef & _ & _ & Hst & _).
  pose proof (flush_live (kind := TreeSecondary) tx h (iw_tree s) (ix_entries ix) Hw Hlt1 Hz) as Hfl.
  destruct (Flush TreeSecondary tx (iw_tree s)) as [[root tx1]|e]; cbn [rbind]; [|left; exact Hfl].
  destruct Hfl as (Hq1 & Hr & _ & Hk). pose proof (proj1 Hq1) as Hm1. pose proof (mv_written _ _ Hm1) as Hw1.
  pose proof (same_sequence _ _ (mv_same _ _ Hm1)) as Hsq1. destruct (w_ok _ _ Hw1) as [_ _ Hnp _ Hsq _ _ _ _].
  assert (Hname : idx_Name (ix_definition ix) = idx_Name (iw_meta s)) by by rewrite <- Hdef.
  destruct (flushed_index tx1 h s ix root (index_live_moves K _ _ _ _ _ Hm1 Hlive) ltac:(lia) ltac:(unfold u64 in *; lia) ltac:(lia) Hk Hname)
    as (encoded & -> & Hat). cbn [rbind].
  pose proof (live_moves _ _ _ _ _ Hm1 Hc) as Hc1. destruct (catalog_done_moves _ _ _ _ _ _ Hm1 Hdone) as [Hkeys Hall].
  assert (Hzms : zlen ms = zlen xs) by (unfold zlen; by rewrite <- (length_fmap fst ms), Hkeys, length_fmap).
  assert (Hkey : key_ok name).
  { pose proof (field_Some _ _ _ Hx) as Hi. unfold names_ok in Hnames. rewrite Forall_forall in Hnames. specialize (Hnames _ Hi). cbn in Hnames.
    rewrite Hnames, Hname. apply name_key_ok, (si_name _ Hst). }
  pose proof (put_live tx1 hc ic ms name encoded fuel Hc1 ltac:(lia) Hf Hkey) as Hput.
  destruct (Put tx1 TreeIndexCatalog fuel ic name encoded) as [[ic1 sp]|e]; cbn [rbind]; [|right; apply Hput].
  assert (Hpres : field ms name <> None) by (destruct (field_keys xs ms name ix (eq_sym Hkeys) Hx) as [e ->]; done).
  split; [done|]. exists (ins name encoded ms). split; [done|].
  split; [by rewrite keys_ins_present by (done || by eapply live_sorted)|]. intros n e x. rewrite field_ins.
  destruct (beqb n name) eqn:E; [apply beqb_eq in E as ->; intros [= <-] Hx'; rewrite Hx in Hx'; by injection Hx' as <-|].
  intros H1 H2 H3. apply (Hall n e x H1 H2). intros s0. cbn [field]. rewrite E. apply H3.
Qed.

Lemma flushIndexes_spec rest : forall xrest tx h hc ic ms xs any,
  written [] tx -> linked (index_live K tx h) rest xrest -> sorted_keys rest ->
  Forall (fun e => field xs e.1 = Some e.2) xrest -> names_ok xs -> zlen xs + 1 < 2 ^ 64 ->
  Forall (fun e => zlen (ix_entries e.2) < 2 ^ 64) xrest -> 0 < tx_sequence tx ->
  live tx TreeIndexCatalog hc ic ms -> catalog_done tx h rest ms xs -> (hc + length rest < fuel)%nat ->
  match flushIndexes fuel tx ic rest any with
  | Ok (ic', any', tx') => quiet tx tx' /\ exists ms', live tx' TreeIndexCatalog (hc + length rest) ic' ms' /\ catalog_done tx' h [] ms' xs /\
      (any = true -> any' = true) /\ (any' = false -> ms' = ms)
  | Err e => resource e
  end.
Proof.
  induction rest as [|[name s] rest IH]; intros xrest tx h hc ic ms xs any Hw Hl Hs Hin Hnames Hzx Hzs Hseq Hc Hdone Hf; cbn [flushIndexes].
  { split; [by apply quiet_refl|]. exists ms. cbn [length]. rewrite Nat.add_0_r. done. }
  apply Forall2_cons_inv_l in Hl as ([name' ix] & xrest' & [En Hlive] & Hl & ->). cbn [fst snd] in *. subst name'.
  apply Forall_cons in Hin as [Hx Hin]. apply Forall_cons in Hzs as [Hz Hzs]. cbn [fst snd length] in *.
  apply sorted_keys_cons in Hs as [Hs Hlt]. destruct (iw_changed s) eqn:Ech; cbn [negb].
  - pose proof (flushIndex_spec tx h hc ic ms xs name s rest ix Hw Hseq Hlive Hz Hx Hnames Hzx Hc Hdone ltac:(lia)) as Hstep.
    destruct (flushIndex fuel tx ic name s) as [[ic1 tx1]|e]; cbn [rbind]; [|done]. destruct Hstep as (Hq1 & ms1 & Hl1 & Hd1).
    pose proof (proj1 Hq1) as Hm1.
    specialize (IH xrest' tx1 h (S hc) ic1 ms1 xs true (mv_written _ _ Hm1)
      (linked_impl _ _ _ _ (fun a b => index_live_moves K _ _ _ _ _ Hm1) Hl) Hs Hin Hnames Hzx Hzs
      ltac:(by rewrite (same_sequence _ _ (mv_same _ _ Hm1))) Hl1 Hd1 ltac:(lia)).
    destruct (flushIndexes fuel tx1 ic1 rest true) as [[[ic' any'] tx']|e]; [|done]. destruct IH as (Hq' & ms' & Hl' & Hd' & Hany & _).
    split; [by eapply quiet_trans|]. exists ms'. replace (hc + S (length rest))%nat with (S hc + length rest)%nat by lia.
    rewrite (Hany eq_refl). done.
  - specialize (IH xrest' tx h hc ic ms xs any Hw Hl Hs Hin Hnames Hzx Hzs Hseq Hc).
    destruct (flushIndexes fuel tx ic rest any) as [[[ic' any'] tx']|e]; destruct IH as [Hq (ms' & Hl' & Hd' & Hany)] || apply IH; try lia; try done.
    all: try (destruct Hdone as [Hk Hall]; split; [done|]; intros n e0 x H1 H2 H3; apply (Hall n e0 x H1 H2); intros s0; cbn [field];
      destruct (beqb n name); [by intros [= <-]|apply H3]).
    split; [done|]. exists ms'. split; [eapply live_mono; [|exact Hl']; lia|done].
Qed.

(** ** Collections *)

(** The root of the catalog of indexes after the changed indexes are flushed. *)
Lemma flush_catalog_spec tx h st c :
  written [] tx -> state_at K tx h st c -> room W 0 c -> 0 < tx_sequence tx -> (h + W < fuel)%nat ->
  match (let* (indexCatalog, any, tx) := flushIndexes fuel tx (cw_indexCatalog st) (cw_indexes st) false in
         if any then Flush TreeIndexCatalog tx indexCatalog else Ok (coll_IndexCatalogRoot (cw_meta st), tx)) with
  | Ok (root, tx') => quiet tx tx' /\ (root = coll_IndexCatalogRoot (cw_meta st) \/ 2 <= root < tx_nextPage tx') /\
      exists ms, held tx' TreeIndexCatalog (h + length (co_indexes c)) root ms /\ linked (index_at K tx' h) ms (co_indexes c)
  | Err e => resource e
  end.
Proof.
  intros Hw Hst (_ & Hlx & Hzs) Hseq Hf. assert (Hzx : zlen (co_indexes c) + 1 < 2 ^ 64) by (unfold zlen; lia). pose proof (state_at_indexes_sorted K tx h st c Hst) as Hsx.
  destruct Hst as [Hwf _ _ _ _ _ Hix [(ms & Hl & Hk & Hn & Hall)] _].
  pose proof (linked_keys _ _ _ Hix) as Hkeys. assert (Hlen : length (cw_indexes st) = length (co_indexes c)).
  { by rewrite <- (length_fmap fst), Hkeys, length_fmap. }
  assert (Hss : sorted_keys (cw_indexes st)) by (unfold sorted_keys; rewrite Hkeys; exact Hsx).
  pose proof (flushIndexes_spec (cw_indexes st) (co_indexes c) tx h h (cw_indexCatalog st) ms (co_indexes c) false Hw Hix Hss) as Hfl.
  rewrite Hlen in Hfl. specialize (Hfl ltac:(by apply Forall_forall; intros [k x] Hin; cbn; apply field_NoDup; [by apply sorted_keys_NoDup|done]) (ck_names _ Hwf) Hzx
    ltac:(eapply Forall_impl; [exact Hzs|]; intros e He; cbn in He; lia) Hseq Hl
    ltac:(split; [by rewrite Hn|]; intros name e ix He Hx Hch; destruct (field (cw_indexes st) name) as [s|] eqn:Es;
      [by apply (Hall name s e ix); [|apply Hch| |]|pose proof (linked_field_None _ _ _ name Hix) as HN; apply HN in Es; congruence]) ltac:(lia)).
  destruct (flushIndexes fuel tx _ _ false) as [[[ic' any] tx1]|e]; cbn [rbind]; [|done].
  destruct Hfl as (Hq & ms' & Hl' & [Hn' Hat] & _ & Hany). pose proof (proj1 Hq) as Hm.
  assert (Hlk : forall tx2, moves tx1 tx2 -> linked (index_at K tx2 h) ms' (co_indexes c)).
  { intros tx2 Hm2. apply linked_pointwise; [by eapply live_sorted|done|]. intros k e x H1 H2.
    eapply index_at_continues; [by apply continues_moves|]. by apply (Hat k). }
  destruct any.
  - assert (Hz : zlen ms' < 2 ^ 64) by (unfold zlen in *; rewrite <- (length_fmap fst ms'), Hn', length_fmap; lia).
    pose proof (flush_live (kind := TreeIndexCatalog) tx1 _ ic' ms' (mv_written _ _ Hm) Hl' Hz) as Hfl.
    destruct (Flush TreeIndexCatalog tx1 ic') as [[root tx2]|e]; [|left; exact Hfl]. destruct Hfl as (Hq2 & Hr & _ & Hk2).
    split; [by eapply quiet_trans|]. split; [by right|]. exists ms'. split; [done|]. apply Hlk, Hq2.
  - split; [done|]. split; [by left|]. rewrite (Hany eq_refl) in *. exists ms. split.
    + eapply held_mono; [|eapply held_moves; [exact Hm|exact Hk]]. lia.
    + apply Hlk, moves_refl, Hm.
Qed.

Lemma flushCollection_spec tx h H st c :
  written [] tx -> state_at K tx h st c -> room W 0 c -> 0 < tx_sequence tx -> (h + W <= H)%nat -> (H < fuel)%nat ->
  match flushCollection fuel tx st with
  | Ok (meta, tx') => quiet tx tx' /\ coll_ID meta = co_ID c /\ u64 (coll_PrimaryRoot meta) /\
      exists encoded, encodeCollectionMeta meta = Ok encoded /\ collection_at K tx' H encoded (touch (tx_sequence tx) c)
  | Err e => resource e
  end.
Proof.
  intros Hw Hst Hroom Hseq HH Hf. unfold flushCollection.
  pose proof (flush_catalog_spec tx h st c Hw Hst Hroom Hseq ltac:(lia)) as Hcat.
  destruct (flushIndexes fuel tx (cw_indexCatalog st) (cw_indexes st) false) as [[[ic any] tx0]|e]; cbn [rbind] in *; [|done].
  destruct (if any then Flush TreeIndexCatalog tx0 ic else Ok (coll_IndexCatalogRoot (cw_meta st), tx0)) as [[root tx1]|e]; cbn [rbind]; [|done].
  destruct Hcat as (Hq1 & Hroot & ms & Hkm & Hlm). pose proof (proj1 Hq1) as Hm1.
  pose proof (state_at_moves K _ _ _ _ _ Hm1 Hst) as [Hwf [D1 D2 D3 D4 D5] Hwd (I1 & I2 & I3 & I4) (ds & Hd & Hld) (o & Ho & Hord) _ _ _].
  destruct Hroom as (Hzd & Hlx & _). pose proof (linked_zlen _ _ _ Hld) as Hz1. pose proof (ordered_keys _ _ Hord) as Hz2.
  pose proof (flush_ref_live (kind := TreePrimary) tx1 h (cw_tree st) ds (mv_written _ _ Hm1) Hd ltac:(lia)) as Hf1.
  destruct (flush TreePrimary tx1 (cw_tree st)) as [[primary tx2]|e]; cbn [rbind]; [|left; exact Hf1].
  destruct Hf1 as (Hq2 & Hr2 & Hc2 & _ & Hk2). pose proof (proj1 Hq2) as Hm2.
  pose proof (flush_ref_live (kind := TreeOrder) tx2 h (cw_order st) o (mv_written _ _ Hm2) (live_moves _ _ _ _ _ Hm2 Ho) ltac:(lia)) as Hf2.
  destruct (flush TreeOrder tx2 (cw_order st)) as [[order tx3]|e]; cbn [rbind]; [|left; exact Hf2].
  destruct Hf2 as (Hq3 & Hr3 & Hc3 & _ & Hk3). pose proof (proj1 Hq3) as Hm3. cbv zeta.
  rewrite Hc2, Hc3, Hz1, Hz2, D5, Z.eqb_refl. cbn [negb orb].
  assert (Hq : quiet tx tx3) by (eapply quiet_trans; [exact Hq1|]; by eapply quiet_trans).
  pose proof (proj1 Hq) as Hm. pose proof (same_sequence _ _ (mv_same _ _ Hm)) as Hsq. rewrite Hsq.
  pose proof (w_ok _ _ (mv_written _ _ Hm)) as [_ _ Hnp _ Hu _ _ _ _]. pose proof (same_next _ _ (mv_same _ _ Hm2)) as N2.
  pose proof (same_next _ _ (mv_same _ _ Hm3)) as N3. pose proof (same_sequence _ _ (mv_same _ _ Hm1)) as Hsq1. unfold u64 in Hnp.
  set (meta := set_roots _ _ _ _ _). split; [done|]. split; [done|]. split; [unfold u64; cbn; lia|].
  assert (Hmeta : Records.collection_ok meta).
  { destruct Hwd as (W1 & W2 & W3 & W4 & W5 & W6 & W7 & W8). unfold Records.collection_ok, u32, u64 in *. cbn. lia. }
  assert (Hroot2 : root = 0 \/ 2 <= root).
  { destruct Hroot as [->|?]; [|lia]. destruct Hst as [_ _ _ _ _ _ _ [(ms0 & _ & Hk0 & _)] _].
    destruct (held_root tx TreeIndexCatalog h _ ms0 (w_ok _ _ Hw) Hk0); lia. }
  assert (Hv : validCollectionMeta meta = true).
  { unfold validCollectionMeta, meta. cbn. pose proof (ck_count _ Hwf). bgoal; lia. }
  exists (collection_image meta). split; [by apply encodeCollectionMeta_image|]. split; [|split].
  - destruct Hwf as [H1 H2 H3 H4]. by constructor.
  - cbn. lia.
  - exists meta. split; [apply decodeCollectionMeta_exact; split; [done|by apply encodeCollectionMeta_image]|].
    pose proof (moves_trans _ _ _ Hm2 Hm3) as Hm23. split; [by constructor|]. split; [|split].
    + exists ds. cbn. split; [eapply held_mono; [|eapply held_moves; [exact Hm3|exact Hk2]]; lia|].
      eapply linked_impl; [|exact Hld]. intros d r. by apply document_record_carries, moves_carries.
    + exists o. cbn. split; [eapply held_mono; [|exact Hk3]; lia|done].
    + exists ms. cbn. split; [eapply held_mono; [|eapply held_moves; [exact Hm23|exact Hkm]]; lia|].
      eapply linked_impl; [|exact Hlm]. intros d r Hi. eapply index_at_mono; [|eapply index_at_continues; [apply continues_moves, Hm23|exact Hi]]. lia.
Qed.
(** ** The catalog *)

Lemma catalog_insert tx H l db name encoded c :
  catalog_at K tx H l db -> sorted_keys l -> validCollectionName name = true -> collection_at K tx H encoded c ->
  catalog_at K tx H (ins name encoded l) (mk_database (ins name c (db_collections db)) (db_records db)).
Proof.
  intros (Hl & Hs & Hn) Hsort Hv Hc. pose proof (system_key_not_name name Hv) as Hne.
  assert (Hcomm : del systemCatalogKey (ins name encoded l) = ins name encoded (del systemCatalogKey l)).
  { apply sorted_ext; [by apply sorted_del, sorted_ins|by apply sorted_ins, sorted_del|]. intros k.
    rewrite field_del, !field_ins, field_del by (done || by apply sorted_ins). destruct (beqb k systemCatalogKey) eqn:E1; [|done].
    apply beqb_eq in E1 as ->. apply not_eq_sym, beqb_neq in Hne. by rewrite Hne. }
  split; [|split]; cbn.
  - rewrite Hcomm. by apply linked_ins.
  - rewrite field_ins. apply not_eq_sym, beqb_neq in Hne. by rewrite Hne.
  - apply Forall_forall. intros e [->|He]%ins_incl; [done|]. rewrite Forall_forall in Hn. by apply Hn.
Qed.

(** The change of a created collection. *)
Definition created_change (c : CommitChange) : Prop := change_ok c /\ ch_Operation c = CommitCatalog.

Lemma catalogChange_ok id name encoded : u32 id -> created_change (catalogChange id name encoded).
Proof. intros Hid. split; [|done]. split; [done|]. split; [reflexivity|]. split; unfold u64; cbn; lia. Qed.

Lemma publishCollections_spec states : forall open tx catalog hc l cs recs h H,
  written [] tx -> linked (state_at K tx h) states open -> rooms W 0 open -> names_valid open ->
  (h + W <= H)%nat -> (H < fuel)%nat -> (hc + length open < fuel)%nat -> 0 < tx_sequence tx ->
  live tx TreeCatalog hc catalog l -> catalog_at K tx H l (mk_database cs recs) -> zlen l + zlen open < 2 ^ 64 ->
  match publishCollections fuel tx catalog states with
  | Ok (catalog', changes, roots, tx') => quiet tx tx' /\ Forall created_change changes /\ zlen changes <= zlen open /\ Forall (fun e => u64 e.2) roots /\
      exists l', live tx' TreeCatalog (hc + length open) catalog' l' /\ zlen l' <= zlen l + zlen open /\
        catalog_at K tx' H l' (mk_database (publish_all (tx_sequence tx) open cs) recs)
  | Err e => resource e
  end.
Proof.
  induction states as [|[name st] states IH]; intros open tx catalog hc l cs recs h H Hw Hl Hr Hnv Hh HH Hfc Hseq Hc Hat Hz; cbn [publishCollections].
  { apply Forall2_nil_inv_l in Hl as ->. split; [by apply quiet_refl|]. split; [constructor|]. split; [done|]. split; [constructor|]. exists l.
    cbn [length]. rewrite Nat.add_0_r. change (zlen []) with 0. split; [done|]. split; [lia|done]. }
  apply Forall2_cons_inv_l in Hl as ([name' c] & open' & [En Hst] & Hl & ->). cbn [fst snd] in *. subst name'.
  apply Forall_cons in Hr as [Hroom Hr]. apply Forall_cons in Hnv as [Hname Hnv]. cbn [fst snd length] in *.
  rewrite zlen_cons in Hz. pose proof (zlen_nonneg open').
  pose proof (flushCollection_spec tx h H st c Hw Hst Hroom Hseq Hh HH) as Hfl.
  destruct (flushCollection fuel tx st) as [[meta tx1]|e]; cbn [rbind]; [|done]. destruct Hfl as (Hq1 & Hid & Hroot & encoded & -> & Hcol). cbn [rbind].
  pose proof (proj1 Hq1) as Hm1. pose proof (live_moves _ _ _ _ _ Hm1 Hc) as Hc1.
  pose proof (put_live tx1 hc catalog l name encoded fuel Hc1 ltac:(lia) ltac:(lia) (name_key_ok name Hname)) as Hput.
  destruct (Put tx1 TreeCatalog fuel catalog name encoded) as [[catalog1 sp]|e]; cbn [rbind]; [|right; apply Hput].
  pose proof (same_sequence _ _ (mv_same _ _ Hm1)) as Hsq1.
  assert (Hat1 : catalog_at K tx1 H (ins name encoded l) (mk_database (ins name (touch (tx_sequence tx) c) cs) recs)).
  { apply (catalog_insert tx1 H l (mk_database cs recs)); [|by eapply live_sorted|done|done]. eapply catalog_at_continues; [by apply continues_moves|done]. }
  pose proof (zlen_ins_at_most name encoded l) as Hzi.
  specialize (IH open' tx1 catalog1 (S hc) (ins name encoded l) (ins name (touch (tx_sequence tx) c) cs) recs h H (mv_written _ _ Hm1)
    (linked_impl _ _ _ _ (fun a b => state_at_moves K _ _ _ _ _ Hm1) Hl) Hr Hnv Hh HH ltac:(lia) ltac:(lia) Hput Hat1 ltac:(lia)).
  destruct (publishCollections fuel tx1 catalog1 states) as [[[[catalog' changes] roots] tx']|e]; cbn [rbind]; [|done].
  destruct IH as (Hq' & Hch & Hzc & Hroots & l' & Hl' & Hzl & Hat'). split; [by eapply quiet_trans|].
  assert (Hone : Forall created_change (if cw_created st then [catalogChange (coll_ID meta) name encoded] else [])).
  { destruct (cw_created st); constructor; [|constructor]. apply catalogChange_ok. rewrite Hid. rewrite <- (dc_ID _ _ (sa_meta _ _ _ _ _ Hst)).
    apply (sa_widths _ _ _ _ _ Hst). }
  split; [by apply Forall_app|]. split; [rewrite zlen_app, zlen_cons; destruct (cw_created st); change (zlen [_]) with 1; change (zlen []) with 0; lia|].
  split; [by constructor|]. exists l'. replace (hc + S (length open'))%nat with (S hc + length open')%nat by lia. rewrite Hsq1 in Hat'.
  split; [done|]. split; [rewrite zlen_cons; lia|]. exact Hat'.
Qed.
End Publish.
