(* ===== verification/CommitHistory.v ===== *)
(** * Histories

    What the commit log of [CommitLog] holds: a run of batches with consecutive
    sequences. Appending adds a batch, reading returns it as it was written, and
    removal drops a prefix that nothing needs any more. *)
From stdpp Require Import gmap.
From Stdlib Require Import Sorted.
From S2P Require Import Prelude Bytes Strings Layout Hashes PageFormat Entries NodeCodec CowTree.
From S2P Require Import TreeShape TreeInvariant TreeRep TreeDelete TreeScan Tree Flush FileStore Recovery Commit.
From S2P Require Import Atomicity TreeRead Snapshots Transactions Records StoredValues CommitCodec IndexRecords IndexBuilds SystemRecords CommitLog.
#[local] Open Scope Z_scope.
#[local] Abbreviation put := Bytes.put.

(** ** Keys *)

Lemma zlen_commitKey s o : zlen (commitKey s o) = 12.
Proof. unfold commitKey. by rewrite zlen_app, !zlen_be_enc. Qed.

Lemma commitKey_ok s o : key_ok (commitKey s o).
Proof.
  unfold key_ok, maxKey. rewrite zlen_commitKey. lia.
Qed.

Lemma blt_commitKey s o s' o' :
  u64 s -> u32 o -> u64 s' -> u32 o' -> blt (commitKey s o) (commitKey s' o') <-> s < s' \/ (s = s' /\ o < o').
Proof.
  unfold u64, u32, blt, commitKey. intros Hs Ho Hs' Ho'. rewrite bcompare_app_len by (by rewrite !length_be_enc).
  rewrite !bcompare_be_enc by (cbn; lia). destruct (Z.compare_spec s s') as [->|?|?].
  - rewrite Z.compare_lt_iff. lia.
  - split; [lia|done].
  - split; [done|lia].
Qed.

Lemma commitKey_inj s o s' o' : u64 s -> u32 o -> u64 s' -> u32 o' -> commitKey s o = commitKey s' o' -> s = s' /\ o = o'.
Proof.
  unfold u64, u32. intros Hs Ho Hs' Ho' [E1 E2]%(app_inj_1 (be_enc 8 s) (be_enc 8 s')); [|by rewrite !length_be_enc].
  apply (f_equal be_dec) in E1, E2. rewrite !be_dec_enc in E1, E2 by (cbn; lia). done.
Qed.

(** ** Batches *)

(** A batch as the log holds it, with the encodings of its changes. *)
Record batch_ok (b : CommitBatch) (encoded : list bytes) : Prop := {
  bo_sequence : 0 < bt_Sequence b < 2 ^ 64;
  bo_id : zlen (bt_TransactionID b) = 16 /\ all_zero (bt_TransactionID b) = false;
  bo_time : -2 ^ 63 <= bt_CommittedAt b < 2 ^ 63;
  bo_root : u64 (bt_CatalogRoot b) /\ bt_CatalogRoot b <> 1;
  bo_count : 1 <= zlen encoded <= 2 ^ 32 - 2;
  bo_changes : Forall2 (fun c e => decodeCommitChange e = Ok c) (bt_Changes b) encoded }.

Fixpoint total_bytes (encoded : list bytes) : Z :=
  match encoded with [] => 0 | e :: encoded => zlen e + total_bytes encoded end.
Definition batch_bytes (encoded : list bytes) : Z := commitHeaderBytes + total_bytes encoded.

Lemma total_bytes_nonneg encoded : 0 <= total_bytes encoded.
Proof. induction encoded as [|e l IH]; cbn [total_bytes]; [lia|]. pose proof (zlen_nonneg e). lia. Qed.

Lemma batch_count b encoded : batch_ok b encoded -> zlen (bt_Changes b) = zlen encoded.
Proof. intros [_ _ _ _ _ Hc]. unfold zlen. by rewrite (Forall2_length _ _ _ Hc). Qed.

(** The fields of a header. *)
Lemma commitHeader_fields b encoded :
  zlen (bt_TransactionID b) = 16 ->
  let h := commitHeader b encoded in
  zlen h = 96 /\ sub h 0 8 = commitMagic /\ sub h 8 10 = le_enc 2 FormatVersion /\ sub h 10 16 = zeros 6 /\
  sub h 16 24 = le_enc 8 (bt_Sequence b) /\ sub h 24 40 = bt_TransactionID b /\ sub h 40 48 = le_enc 8 (bt_CommittedAt b) /\
  sub h 48 52 = le_enc 4 (zlen (bt_Changes b)) /\ sub h 52 56 = zeros 4 /\ sub h 56 64 = le_enc 8 (bt_CatalogRoot b) /\
  sub h 64 96 = changesHash encoded.
Proof.
  intros Hid. cbv zeta. assert (Hm : zlen commitMagic = 8) by done.
  assert (Hh : zlen (changesHash encoded) = 32) by apply Sha256.zlen_sum.
  assert (Himg : commitHeader b encoded = commitMagic ++ le_enc 2 FormatVersion ++ zeros 6 ++ le_enc 8 (bt_Sequence b)
    ++ bt_TransactionID b ++ le_enc 8 (bt_CommittedAt b) ++ le_enc 4 (zlen (bt_Changes b)) ++ zeros 4
    ++ le_enc 8 (bt_CatalogRoot b) ++ changesHash encoded).
  { unfold commitHeader, commitHeaderBytes. layout. same_layout. }
  rewrite Himg. repeat split; try (slice; reflexivity). zlens. rewrite !zlen_zeros by lia. lia.
Qed.

Lemma le_dec_enc_i64 z : -2 ^ 63 <= z < 2 ^ 63 -> to_i64 (le_dec (le_enc 8 z)) = z.
Proof.
  intros Hz. rewrite le_dec_enc_mod. change (256 ^ Z.of_nat 8) with (2 ^ 64). unfold to_i64.
  destruct (Z_lt_le_dec z 0).
  - rewrite <- (Z.mod_unique z (2 ^ 64) (-1) (z + 2 ^ 64)) by lia. destruct (Z.ltb_spec (z + 2 ^ 64) (2 ^ 63)); lia.
  - rewrite Z.mod_small by lia. destruct (Z.ltb_spec z (2 ^ 63)); lia.
Qed.

(** ** Entries *)

Fixpoint change_entries (sequence ordinal : Z) (ds : list bytes) : list KeyValue :=
  match ds with [] => [] | d :: ds => (commitKey sequence ordinal, d) :: change_entries sequence (ordinal + 1) ds end.

(** The entries of one batch: its header, then its changes in order. *)
Definition batch_entries (tx : WriteTxn) (b : CommitBatch) (encoded : list bytes) (es : list KeyValue) : Prop :=
  exists hd ds, es = (commitKey (bt_Sequence b) 0, hd) :: change_entries (bt_Sequence b) 1 ds /\
    commit_value tx hd (commitHeader b encoded) /\ Forall2 (commit_value tx) ds encoded.

(** [l] holds the batches, the first of which has the sequence [first]. *)
Fixpoint history (tx : WriteTxn) (first : Z) (bs : list (CommitBatch * list bytes)) (l : list KeyValue) : Prop :=
  match bs with
  | [] => l = []
  | (b, encoded) :: bs =>
      exists es l', l = es ++ l' /\ bt_Sequence b = first /\ batch_ok b encoded /\ batch_entries tx b encoded es /\
        history tx (first + 1) bs l'
  end.

Definition history_bytes (bs : list (CommitBatch * list bytes)) : Z := foldr (fun b n => batch_bytes b.2 + n) 0 bs.

Lemma commit_values_carries tx tx' ds encoded : carries tx tx' -> Forall2 (commit_value tx) ds encoded -> Forall2 (commit_value tx') ds encoded.
Proof. intros Hm HF. eapply Forall2_impl; [exact HF|]. intros d v. by apply describes_carries. Qed.

Lemma batch_entries_carries tx tx' b encoded es : carries tx tx' -> batch_entries tx b encoded es -> batch_entries tx' b encoded es.
Proof.
  intros Hm (hd & ds & -> & Hh & Hd). exists hd, ds. split; [done|]. split; [by eapply describes_carries|by eapply commit_values_carries].
Qed.

Lemma history_carries tx tx' first bs l : carries tx tx' -> history tx first bs l -> history tx' first bs l.
Proof.
  intros Hm. revert first l; induction bs as [|[b encoded] bs IH]; intros first l; cbn [history]; [done|].
  intros (es & l' & -> & Hs & Hb & He & Hr). exists es, l'. do 3 (split; [done|]). split; [by eapply batch_entries_carries|by apply IH].
Qed.

Lemma history_moves tx tx' first bs l : moves tx tx' -> history tx first bs l -> history tx' first bs l.
Proof. intros Hm%moves_carries. by apply history_carries. Qed.

Lemma history_snoc tx first bs l b encoded es :
  history tx first bs l -> bt_Sequence b = first + zlen bs -> batch_ok b encoded -> batch_entries tx b encoded es ->
  history tx first (bs ++ [(b, encoded)]) (l ++ es).
Proof.
  revert first l; induction bs as [|[b0 e0] bs IH]; intros first l; cbn [history app].
  - intros -> Hs Hb He. rewrite zlen_nil in Hs. exists es, []. rewrite app_nil_r. do 4 (split; [done || lia|]). done.
  - intros (es0 & l' & -> & Hs0 & Hb0 & He0 & Hr) Hs Hb He. rewrite zlen_cons in Hs. exists es0, (l' ++ es).
    split; [by rewrite app_assoc|]. do 3 (split; [done|]). apply IH; [done|lia|done|done].
Qed.

Lemma change_entries_keys sequence ordinal ds k :
  k ∈ (change_entries sequence ordinal ds).*1 -> exists o, k = commitKey sequence o /\ ordinal <= o < ordinal + zlen ds.
Proof.
  revert ordinal; induction ds as [|d ds IH]; intros ordinal; cbn [change_entries fmap list_fmap fst]; [by intros ?%not_elem_of_nil|].
  rewrite zlen_cons. pose proof (zlen_nonneg ds). intros [->|(o & -> & ?)%IH]%elem_of_cons; [exists ordinal; split; [done|lia]|].
  exists o. split; [done|lia].
Qed.

Lemma batch_entries_keys tx b encoded es k :
  batch_ok b encoded -> batch_entries tx b encoded es -> k ∈ es.*1 ->
  exists o, k = commitKey (bt_Sequence b) o /\ u32 o.
Proof.
  intros Hb (hd & ds & -> & _ & Hd). apply Forall2_length in Hd. destruct (bo_count _ _ Hb) as [? ?]. unfold zlen in *.
  cbn [fmap list_fmap fst]. intros [->|(o & -> & ?)%change_entries_keys]%elem_of_cons; [exists 0; split; [done|unfold u32; lia]|].
  exists o. split; [done|]. unfold u32, zlen in *. lia.
Qed.

Lemma history_keys tx first bs l k :
  history tx first bs l -> k ∈ l.*1 -> exists s o, k = commitKey s o /\ first <= s < first + zlen bs /\ u64 s /\ u32 o.
Proof.
  revert first l; induction bs as [|[b encoded] bs IH]; intros first l; cbn [history]; [by intros -> ?%not_elem_of_nil|].
  intros (es & l' & -> & Hs & Hb & He & Hr) Hk. rewrite zlen_cons. pose proof (zlen_nonneg bs).
  rewrite fmap_app in Hk. apply elem_of_app in Hk as [Hk|Hk].
  - destruct (batch_entries_keys _ _ _ _ _ Hb He Hk) as (o & -> & ?). exists (bt_Sequence b), o.
    pose proof (bo_sequence _ _ Hb). split; [done|]. split; [lia|]. split; [unfold u64; lia|done].
  - destruct (IH _ _ Hr Hk) as (s & o & -> & ? & ?). exists s, o. split; [done|]. split; [lia|done].
Qed.

(** Every key of a history comes before those of later sequences. *)
Lemma history_before tx first bs l s o :
  history tx first bs l -> first + zlen bs <= s -> u64 s -> u32 o -> Forall (fun k => blt k (commitKey s o)) l.*1.
Proof.
  intros Hh Hs Hu Ho. apply Forall_forall. intros k (s' & o' & -> & ? & ? & ?)%(history_keys _ _ _ _ _ Hh).
  apply blt_commitKey; [done|done|done|done|]. left. lia.
Qed.

Lemma history_sequences tx first bs l b encoded :
  history tx first bs l -> (b, encoded) ∈ bs -> batch_ok b encoded /\ first <= bt_Sequence b < first + zlen bs /\
  exists es, batch_entries tx b encoded es /\ (forall e, e ∈ es -> e ∈ l).
Proof.
  revert first l; induction bs as [|[b0 e0] bs IH]; intros first l; cbn [history]; [by intros _ ?%not_elem_of_nil|].
  intros (es & l' & -> & Hs & Hb & He & Hr). rewrite zlen_cons. pose proof (zlen_nonneg bs).
  intros [[= -> ->]|Hin]%elem_of_cons.
  - split; [done|]. split; [lia|]. exists es. split; [done|]. intros e ?. apply elem_of_app. by left.
  - destruct (IH _ _ Hr Hin) as (? & ? & es' & ? & Hes). split; [done|]. split; [lia|]. exists es'. split; [done|].
    intros e ?. apply elem_of_app. right. by apply Hes.
Qed.

(** ** Reading *)

Lemma readChanges_spec tx get s o ds encoded changes :
  txn_ok tx -> (forall k v, (k, v) ∈ change_entries s o ds -> get k = Ok (Some v)) ->
  Forall2 (commit_value tx) ds encoded -> Forall2 (fun c e => decodeCommitChange e = Ok c) changes encoded ->
  readChanges tx get s o (length encoded) = Ok (changes, encoded).
Proof.
  intros Hok Hget Hd. revert o changes Hget; induction Hd as [|d e ds encoded [Hv Hi] Hd IH]; intros o changes Hget Hc.
  { inversion Hc; subst. done. }
  inversion Hc as [|c ? changes' ? Hdec Hc']; subst. cbn [length readChanges change_entries] in *.
  rewrite (Hget _ d) by (apply elem_of_cons; by left). apply zlen_decoded_change in Hdec as Hz.
  rewrite (loadCommitValue_holds tx d e) by (done || apply Hz). cbn [rbind]. rewrite Hdec. cbn [rbind].
  rewrite (IH (o + 1) changes'); [done| |done]. intros k v Hin. apply Hget. apply elem_of_cons. by right.
Qed.

Lemma readCommitUsing_spec tx get b encoded es :
  txn_ok tx -> batch_ok b encoded -> batch_entries tx b encoded es -> (forall k v, (k, v) ∈ es -> get k = Ok (Some v)) ->
  readCommitUsing tx (bt_Sequence b) get = Ok b.
Proof.
  intros Hok Hb (hd & ds & -> & [Hv Hi] & Hd) Hget. pose proof (batch_count _ _ Hb) as Hcount.
  destruct Hb as [Hs [Hid Hidz] Ht [Hr Hr1] Hn Hc].
  destruct (commitHeader_fields b encoded Hid) as (Hz & E0 & E8 & E10 & E16 & E24 & E40 & E48 & E52 & E56 & E64).
  unfold readCommitUsing. destruct (Z.eqb_spec (bt_Sequence b) 0); [lia|].
  rewrite (Hget _ hd) by (apply elem_of_cons; by left). cbn [rbind].
  rewrite (loadCommitValue_holds tx hd (commitHeader b encoded)) by (done || (rewrite Hz; by vm_compute)).
  unfold validCommitHeader. rewrite Hz, E0, E8, E10, E16, E24, E40, E48, E52, E56, E64, beqb_refl, !le_dec_u64 by (unfold u64; done || lia).
  rewrite Z.eqb_refl. change (le_dec (le_enc 2 FormatVersion) =? FormatVersion) with true. change (all_zero (zeros 6)) with true.
  change (all_zero (zeros 4)) with true. change (96 =? commitHeaderBytes) with true. cbn [andb negb].
  rewrite le_dec_u32 by (unfold u32; lia). rewrite Hcount, Hidz. destruct (Z.eqb_spec (zlen encoded) 0); [lia|].
  assert (negb (bt_CatalogRoot b =? 0) && (bt_CatalogRoot b <? 2) = false) as ->.
  { destruct (Z.eqb_spec (bt_CatalogRoot b) 0); [done|]. destruct (Z.ltb_spec (bt_CatalogRoot b) 2); [|done]. unfold u64 in Hr. lia. }
  replace (Z.to_nat (zlen encoded)) with (length encoded) by (unfold zlen; lia).
  rewrite (readChanges_spec tx get (bt_Sequence b) 1 ds encoded (bt_Changes b) Hok); [|intros k v ?; apply Hget; apply elem_of_cons; by right|done|done].
  cbn [rbind]. rewrite beqb_refl, Z.eqb_refl, le_dec_enc_i64 by exact Ht. cbn [negb andb]. by destruct b.
Qed.

(** A batch of the history is read back as it is. *)
Lemma history_read tx get first bs l b encoded :
  txn_ok tx -> history tx first bs l -> sorted_keys l -> (forall k, k <> [] -> get k = Ok (field l k)) -> (b, encoded) ∈ bs ->
  readCommitUsing tx (bt_Sequence b) get = Ok b.
Proof.
  intros Hok Hh Hs Hget Hin. destruct (history_sequences _ _ _ _ _ _ Hh Hin) as (Hb & _ & es & He & Hes).
  apply (readCommitUsing_spec tx get b encoded es Hok Hb He). intros k v Hkv.
  assert (Hk : k <> []).
  { destruct (batch_entries_keys tx b encoded es k Hb He) as (o & -> & _).
    - apply list_elem_of_fmap. by exists (k, v).
    - intros E. pose proof (zlen_commitKey (bt_Sequence b) o) as Hz. by rewrite E in Hz. }
  rewrite (Hget k Hk). f_equal. apply field_NoDup; [by apply sorted_keys_NoDup|by apply Hes].
Qed.

(** ** Appending *)

Lemma encodeChanges_spec n changes encoded n' :
  encodeChanges n changes = Ok (encoded, n') ->
  Forall2 (fun c e => encodeCommitChange c = Ok e) changes encoded /\ n' = n + total_bytes encoded.
Proof.
  revert n encoded n'; induction changes as [|c changes IH]; intros n encoded n'; cbn [encodeChanges].
  { intros [= <- <-]. split; [constructor|]. cbn. lia. }
  intros He. inv_ok. destruct (_ <? _) in He; [done|]. inv_ok. destruct a0 as [rest m]. injection He as <- <-.
  apply IH in Hok0 as [HF ->]. split; [by constructor|]. cbn [total_bytes]. lia.
Qed.

(** The changes as the log holds them. *)
Definition normal_changes (changes changes' : list CommitChange) : Prop :=
  Forall2 (fun c c' => exists paths, normalizeChangedPaths (ch_ChangedPaths c) = Ok paths /\ c' = normal_change c paths) changes changes'.

Lemma encoded_changes_decode changes encoded :
  Forall change_ok changes -> Forall2 (fun c e => encodeCommitChange c = Ok e) changes encoded ->
  exists changes', normal_changes changes changes' /\ Forall2 (fun c e => decodeCommitChange e = Ok c) changes' encoded.
Proof.
  intros Hok HF. induction HF as [|c e changes encoded He HF IH]; [by exists []; split; constructor|].
  apply Forall_cons in Hok as [Hc Hok]. destruct (IH Hok) as (changes' & Hn & Hd).
  destruct (encode_decode_change c e Hc He) as (paths & Hp & Hdec).
  exists (normal_change c paths :: changes'). split; constructor; eauto.
Qed.

(** The batch as the log holds it. *)
Definition normal_batch (b : CommitBatch) (changes : list CommitChange) : CommitBatch :=
  mk_CommitBatch (bt_Sequence b) (bt_TransactionID b) (bt_CommittedAt b) (bt_CatalogRoot b) changes.

Lemma putChanges_spec fuel s encoded tx tree o l h :
  written [] tx -> live tx TreeCommitLog h tree l -> Forall (fun e => zlen e <= maxCommitValueBytes) encoded ->
  (h + length encoded < fuel)%nat -> zlen l + zlen encoded < 2 ^ 64 -> u64 s -> 0 <= o -> o + zlen encoded < 2 ^ 32 ->
  Forall (fun k => blt k (commitKey s o)) l.*1 ->
  match putChanges fuel tx tree s o encoded with
  | Ok (tree', tx') => quiet tx tx' /\ exists ds, live tx' TreeCommitLog (h + length encoded) tree' (l ++ change_entries s o ds) /\
      Forall2 (commit_value tx') ds encoded
  | Err e => e = ErrStorageLimit
  end.
Proof.
  intros Hw Hl Hz. revert tx tree o l h Hw Hl.
  induction Hz as [|e encoded He Hz IH]; intros tx tree o l h Hw Hl Hf Hmax Hs Ho Hob Hlast; cbn [putChanges].
  { split; [by apply quiet_refl|]. exists []. cbn [change_entries length]. rewrite app_nil_r, Nat.add_0_r. split; [done|constructor]. }
  cbn [length] in *. rewrite zlen_cons in *. pose proof (zlen_nonneg encoded).
  pose proof (storeCommitValue_spec tx e Hw He) as Hst.
  destruct (storeCommitValue tx e) as [[d tx1]|err]; cbn [rbind]; [|exact Hst]. destruct Hst as (Hq1 & Hd & Hdz). pose proof (proj1 Hq1) as Hm1.
  pose proof (live_moves _ _ _ _ _ Hm1 Hl) as Hl1.
  destruct (put_live_last tx1 h tree l (commitKey s o) d fuel Hl1) as (tree1 & sp & -> & Hl2);
    [lia|lia|apply commitKey_ok|done|rewrite zlen_commitKey; unfold inlineCommitValueLimit in Hdz; change capacity with 16320; lia|].
  cbn [rbind]. specialize (IH tx1 tree1 (o + 1) (l ++ [(commitKey s o, d)]) (S h) (mv_written _ _ Hm1) Hl2).
  assert (Hlen : zlen (l ++ [(commitKey s o, d)]) = zlen l + 1) by (rewrite zlen_app; done).
  assert (Hlast' : Forall (fun k => blt k (commitKey s (o + 1))) (l ++ [(commitKey s o, d)]).*1).
  { assert (Hstep : blt (commitKey s o) (commitKey s (o + 1))) by (apply blt_commitKey; unfold u32 in *; done || lia).
    rewrite fmap_app, Forall_app. split; [|by repeat constructor]. eapply Forall_impl; [exact Hlast|]. intros k Hk. cbn in Hk. by etransitivity. }
  rewrite Hlen in IH. specialize (IH ltac:(lia) ltac:(lia) Hs ltac:(lia) ltac:(lia) Hlast').
  destruct (putChanges fuel tx1 tree1 s (o + 1) encoded) as [[tree2 tx2]|]; [|done]. destruct IH as (Hq2 & ds & Hl3 & Hds). pose proof (proj1 Hq2) as Hm2.
  split; [by eapply quiet_trans|]. exists (d :: ds). cbn [change_entries].
  rewrite <- app_assoc in Hl3. cbn [app] in Hl3. replace (h + S (length encoded))%nat with (S h + length encoded)%nat by lia.
  split; [done|]. constructor; [|done]. by eapply describes_moves.
Qed.

(** The batch is one a transaction may append. *)
Record appendable (tx : WriteTxn) (b : CommitBatch) : Prop := {
  ap_sequence : bt_Sequence b = tx_sequence tx;
  ap_id : zlen (bt_TransactionID b) = 16;
  ap_time : -2 ^ 63 <= bt_CommittedAt b < 2 ^ 63;
  ap_root : u64 (bt_CatalogRoot b);
  ap_changes : Forall change_ok (bt_Changes b) }.

Lemma decoded_sizes changes encoded :
  Forall2 (fun c e => decodeCommitChange e = Ok c) changes encoded -> Forall (fun e => zlen e <= maxCommitValueBytes) encoded.
Proof.
  induction 1 as [|c e changes encoded Hd HF IH]; constructor; [|done]. by apply zlen_decoded_change in Hd as [_ ?].
Qed.

(** The log takes the batch. *)
Definition loggable (tx : WriteTxn) (b : CommitBatch) : Prop :=
  bt_Sequence b <> 0 /\ all_zero (bt_TransactionID b) = false /\ 0 < zlen (bt_Changes b) <= 2 ^ 32 - 2 /\
  is_ok (encodeChanges commitHeaderBytes (bt_Changes b)) = true /\
  (bt_CatalogRoot b = 0 \/ 2 <= bt_CatalogRoot b /\ is_ok (OpenTree tx TreeCatalog (bt_CatalogRoot b)) = true).

(** What appending a batch leaves. *)
Definition appends (tx : WriteTxn) (h : nat) (first : Z) (bs : list (CommitBatch * list bytes)) (b : CommitBatch)
    (r : result (Z * nodeRef * WriteTxn)) : Prop :=
  match r with
  | Ok (logicalBytes, tree', tx') =>
      quiet tx tx' /\ exists changes encoded l', normal_changes (bt_Changes b) changes /\
        live tx' TreeCommitLog (h + S (length (bt_Changes b))) tree' l' /\
        history tx' first (bs ++ [(normal_batch b changes, encoded)]) l' /\ logicalBytes = batch_bytes encoded
  | Err e => e = ErrStorageLimit \/ ~ loggable tx b
  end.

Lemma batch_normal_ok tx b changes encoded :
  appendable tx b -> bt_Sequence b <> 0 -> tx_sequence tx < 2 ^ 64 -> 0 <= tx_sequence tx -> all_zero (bt_TransactionID b) = false ->
  1 <= zlen (bt_Changes b) <= 2 ^ 32 - 2 -> bt_CatalogRoot b <> 1 -> normal_changes (bt_Changes b) changes ->
  Forall2 (fun c e => decodeCommitChange e = Ok c) changes encoded -> batch_ok (normal_batch b changes) encoded.
Proof.
  intros [Hs Hid Ht Hr Hc] H0 Hseq Hseq0 Hz Hn Hr1 Hnorm Hd. apply Forall2_length in Hnorm. apply Forall2_length in Hd as Hl.
  constructor; cbn [normal_batch bt_Sequence bt_TransactionID bt_CommittedAt bt_CatalogRoot bt_Changes]; try done; [lia|].
  unfold zlen in *. lia.
Qed.

Lemma sorted_app_keys (l : list KeyValue) e : sorted_keys l -> Forall (fun k => blt k e.1) l.*1 -> sorted_keys (l ++ [e]).
Proof.
  intros Hs Hl. apply sorted_keys_app. split; [done|]. split; [repeat constructor|].
  eapply Forall_impl; [exact Hl|]. intros k Hk. by repeat constructor.
Qed.

(** Appending a batch to the tree of a history, after its last sequence. *)
Lemma appendCommitToTree_spec fuel tx tree b l h first bs :
  written [] tx -> live tx TreeCommitLog h tree l -> history tx first bs l -> appendable tx b ->
  first + zlen bs = tx_sequence tx -> zlen l + zlen (bt_Changes b) + 1 < 2 ^ 64 ->
  (h + S (length (bt_Changes b)) < fuel)%nat ->
  appends tx h first bs b (appendCommitToTree fuel tx tree b).
Proof.
  intros Hw Hl Hh Hap Hseq Hmax Hf. pose proof (w_ok _ _ Hw) as Hok. pose proof (ap_sequence _ _ Hap) as Hs.
  assert (Hu : 0 <= tx_sequence tx < 2 ^ 64) by (destruct Hok; lia).
  unfold appendCommitToTree. destruct (_ || _) eqn:E1.
  { right. intros (H1 & H2 & H3 & _). repeat (apply orb_true_iff in E1 as [E1|E1]); breflect; lia || congruence. }
  breflect. destruct (encodeChanges commitHeaderBytes (bt_Changes b)) as [[encoded logical]|] eqn:Ee; cbn [rbind].
  2: { right. intros (_ & _ & _ & H4 & _). by rewrite Ee in H4. }
  apply encodeChanges_spec in Ee as [HF ->]. destruct (_ && _) eqn:E2; [right; intros (_ & _ & _ & _ & H5); breflect; lia|].
  destruct (encoded_changes_decode _ _ (ap_changes _ _ Hap) HF) as (changes & Hnorm & Hdec).
  apply Forall2_length in HF as Hlen. pose proof (zlen_nonneg (bt_Changes b)).
  assert (Hn : zlen encoded = zlen (bt_Changes b)) by (unfold zlen; lia).
  match goal with |- context [rbind ?o _] => assert (Ho : is_ok o = true \/ ~ loggable tx b); [|destruct o; cbn [rbind]] end.
  { destruct (Z.eqb_spec (bt_CatalogRoot b) 0); cbn [negb]; [by left|].
    destruct (OpenTree tx TreeCatalog (bt_CatalogRoot b)) eqn:Eo; [by left|]. right. intros (_ & _ & _ & _ & [?|[_ H5]]); [done|]. by rewrite Eo in H5. }
  2: { right. by destruct Ho. }
  clear Ho.
  pose proof (storeCommitValue_spec tx (commitHeader b encoded) Hw) as Hst.
  destruct (commitHeader_fields b encoded (ap_id _ _ Hap)) as (Hz & _). rewrite Hz in Hst. specialize (Hst ltac:(by vm_compute)).
  destruct (storeCommitValue tx (commitHeader b encoded)) as [[d tx1]|]; cbn [rbind]; [|by left]. destruct Hst as (Hq1 & Hd & Hdz).
  pose proof (live_moves _ _ _ _ _ (proj1 Hq1) Hl) as Hl1. assert (u32 0) by (unfold u32; lia). assert (u32 1) by (unfold u32; lia).
  assert (Hus : u64 (bt_Sequence b)) by (unfold u64; lia).
  pose proof (history_before tx first bs l (bt_Sequence b) 0 Hh ltac:(lia) Hus ltac:(done)) as Hlast.
  destruct (put_live_last tx1 h tree l (commitKey (bt_Sequence b) 0) d fuel Hl1) as (tree1 & sp & -> & Hl2);
    [lia|lia|apply commitKey_ok|done|rewrite zlen_commitKey; unfold inlineCommitValueLimit in Hdz; change capacity with 16320; lia|].
  cbn [rbind].
  pose proof (putChanges_spec fuel (bt_Sequence b) encoded tx1 tree1 1 _ (S h) (mv_written _ _ (proj1 Hq1)) Hl2 (decoded_sizes _ _ Hdec)) as Hp.
  rewrite zlen_app in Hp. change (zlen [_]) with 1 in Hp. specialize (Hp ltac:(lia) ltac:(lia) Hus ltac:(lia) ltac:(lia)).
  assert (Hlast' : Forall (fun k => blt k (commitKey (bt_Sequence b) 1)) (l ++ [(commitKey (bt_Sequence b) 0, d)]).*1).
  { assert (Hstep : blt (commitKey (bt_Sequence b) 0) (commitKey (bt_Sequence b) 1)) by (apply blt_commitKey; done || lia).
    rewrite fmap_app, Forall_app. split; [|by repeat constructor]. eapply Forall_impl; [exact Hlast|]. intros k Hk. cbn in Hk. by etransitivity. }
  specialize (Hp Hlast'). destruct (putChanges fuel tx1 tree1 (bt_Sequence b) 1 encoded) as [[tree2 tx2]|]; cbn [rbind]; [|by left].
  destruct Hp as (Hq2 & ds & Hl3 & Hds). cbn [appends]. split; [by eapply quiet_trans|].
  exists changes, encoded, ((l ++ [(commitKey (bt_Sequence b) 0, d)]) ++ change_entries (bt_Sequence b) 1 ds).
  split; [done|]. split; [replace (h + S (length (bt_Changes b)))%nat with (S h + length encoded)%nat by lia; done|]. split; [|done].
  rewrite <- app_assoc. assert (Hb : batch_ok (normal_batch b changes) encoded).
  { eapply (batch_normal_ok tx b); try done; [lia|lia|lia|].
    intros Hr. rewrite Hr in E2. by cbn in E2. }
  apply history_snoc; [eapply history_moves; [|exact Hh]; by eapply moves_trans; [apply Hq1|apply Hq2]|cbn; lia|done|].
  exists d, ds. cbn [app normal_batch bt_Sequence]. split; [done|]. split; [|done].
  replace (commitHeader (normal_batch b changes) encoded) with (commitHeader b encoded); [by eapply describes_moves; [apply Hq2|]|].
  unfold commitHeader, normal_batch. cbn. apply Forall2_length in Hnorm. unfold zlen. by rewrite Hnorm.
Qed.

(** ** Removing *)

Lemma del_head k v (l : list KeyValue) : sorted_keys ((k, v) :: l) -> del k ((k, v) :: l) = l.
Proof. intros _. cbn [del]. by rewrite beqb_refl. Qed.

Lemma found_head k v (l : list KeyValue) : found ((k, v) :: l) k = true.
Proof. unfold found. cbn [field]. by rewrite beqb_refl. Qed.

Lemma deleteOrdinals_spec fuel tx tree s o ds l h :
  live tx TreeCommitLog h tree (change_entries s o ds ++ l) -> zlen (change_entries s o ds ++ l) < 2 ^ 64 ->
  (S (h + length ds) < fuel)%nat ->
  exists tree', deleteOrdinals fuel tx tree s o (length ds) = Ok tree' /\ live tx TreeCommitLog (h + length ds) tree' l.
Proof.
  revert tree o h; induction ds as [|d ds IH]; intros tree o h Hl Hmax Hf; cbn [change_entries app length deleteOrdinals] in *.
  { exists tree. rewrite Nat.add_0_r. done. }
  destruct (delete_live tx h tree _ (commitKey s o) fuel Hl Hmax ltac:(lia)) as (tree1 & counts & -> & Hl1).
  { intros E. pose proof (zlen_commitKey s o) as Hz. by rewrite E in Hz. }
  rewrite found_head. cbn [del] in Hl1. rewrite beqb_refl in Hl1.
  destruct (IH tree1 (o + 1) (S h) Hl1) as (tree' & Hd & Hl'); [rewrite zlen_cons in Hmax; lia|lia|].
  exists tree'. split; [done|]. by replace (h + S (length ds))%nat with (S h + length ds)%nat by lia.
Qed.

Lemma pathBytes_spec size paths :
  0 <= size -> size + zlen (paths_image paths) < 2 ^ 64 -> pathBytes size paths = Ok (size + zlen (paths_image paths)).
Proof.
  revert size; induction paths as [|p paths IH]; intros size H0 Hb; cbn [pathBytes].
  { change (zlen (paths_image [])) with 0. f_equal. lia. }
  rewrite paths_image_cons in *. rewrite !zlen_app, zlen_le_enc in *. pose proof (zlen_nonneg p). pose proof (zlen_nonneg (paths_image paths)).
  unfold maxUint64. destruct (Z.ltb_spec (2 ^ 64 - 1 - size) (2 + zlen p)); [lia|]. rewrite IH by lia. f_equal. lia.
Qed.

Lemma changesBytes_spec total changes encoded :
  Forall2 (fun c e => decodeCommitChange e = Ok c) changes encoded -> 0 <= total -> total + total_bytes encoded < 2 ^ 64 ->
  changesBytes total changes = Ok (total + total_bytes encoded).
Proof.
  intros HF. revert total; induction HF as [|c e changes encoded Hd HF IH]; intros total H0 Hb; cbn [changesBytes total_bytes] in *.
  { f_equal. lia. }
  apply zlen_decoded_change in Hd as [Hz Hm]. pose proof (total_bytes_nonneg encoded).
  pose proof (zlen_nonneg (ch_CollectionName c)). pose proof (zlen_nonneg (ch_Before c)). pose proof (zlen_nonneg (ch_After c)).
  pose proof (zlen_nonneg (paths_image (ch_ChangedPaths c))). unfold maxCommitValueBytes in *.
  rewrite pathBytes_spec by lia. cbn [rbind].
  replace (52 + zlen (ch_CollectionName c) + zlen (ch_Before c) + zlen (ch_After c) + zlen (paths_image (ch_ChangedPaths c))) with (zlen e) by lia.
  unfold maxUint64. destruct (Z.ltb_spec (64 * 1024 * 1024) (zlen e)); [lia|]. destruct (Z.ltb_spec (2 ^ 64 - 1 - total) (zlen e)); [lia|].
  cbn [orb]. rewrite IH by lia. f_equal. lia.
Qed.

(** The computed size of a stored batch is the size of its encodings. *)
Lemma commitBatchLogicalBytes_spec b encoded :
  batch_ok b encoded -> batch_bytes encoded < 2 ^ 64 -> commitBatchLogicalBytes b = Ok (batch_bytes encoded).
Proof. intros Hb Hz. apply changesBytes_spec; [apply Hb|unfold commitHeaderBytes; lia|done]. Qed.

Lemma length_change_entries s o ds : length (change_entries s o ds) = length ds.
Proof. revert o; induction ds as [|d ds IH]; intros o; cbn; [done|]. by rewrite IH. Qed.

Lemma removeCommit_spec fuel tx tree l h first b encoded bs retained :
  written [] tx -> live tx TreeCommitLog h tree l -> history tx first ((b, encoded) :: bs) l ->
  zlen l < 2 ^ 64 -> (h + S (S (length encoded)) < fuel)%nat -> batch_bytes encoded <= retained < 2 ^ 64 ->
  exists tree' l', removeCommit fuel tx tree first retained = Ok (tree', retained - batch_bytes encoded) /\
    live tx TreeCommitLog (h + S (length encoded)) tree' l' /\ history tx (first + 1) bs l' /\ length l = (S (length encoded) + length l')%nat.
Proof.
  intros Hw Hl Hh Hmax Hf Hr. pose proof Hh as (es & l' & -> & Hs & Hb & He & Hrest).
  unfold removeCommit, readCommitFromTree. pose proof (bo_sequence _ _ Hb). destruct (Z.eqb_spec first 0); [lia|]. replace (readCommitUsing tx first) with (readCommitUsing tx (bt_Sequence b)) by (by rewrite Hs).
  rewrite (history_read tx (Get tx TreeCommitLog fuel tree) first ((b, encoded) :: bs) (es ++ l') b encoded);
    [|apply Hw|done|by eapply live_sorted|intros k Hk; eapply get_live; [done|lia]|apply elem_of_cons; by left].
  cbn [rbind]. rewrite (commitBatchLogicalBytes_spec b encoded) by (done || lia).
  destruct (Z.ltb_spec retained (batch_bytes encoded)); [lia|]. pose proof (batch_count _ _ Hb) as Hcount.
  destruct He as (hd & ds & -> & Hhd & Hds). apply Forall2_length in Hds.
  assert (Hlen : length (bt_Changes b) = length ds) by (unfold zlen in Hcount; lia).
  pose proof (deleteOrdinals_spec fuel tx tree first 0 (hd :: ds) l' h) as Hd. rewrite Hs in *. cbn [change_entries length] in Hd.
  destruct (Hd Hl Hmax ltac:(lia)) as (tree' & Hd' & Hl'). rewrite Hlen, Hd'. cbn [rbind]. exists tree', l'. split; [done|].
  split; [by rewrite <- Hds|]. split; [done|]. rewrite length_app. cbn [length]. rewrite length_change_entries. lia.
Qed.

Lemma history_bytes_nonneg bs : 0 <= history_bytes bs.
Proof.
  induction bs as [|b bs IH]; cbn; [lia|]. fold (history_bytes bs). unfold batch_bytes, commitHeaderBytes. pose proof (total_bytes_nonneg b.2). lia.
Qed.

Lemma history_bytes_cons b bs : history_bytes (b :: bs) = batch_bytes b.2 + history_bytes bs.
Proof. done. Qed.

Lemma batch_bytes_pos encoded : 0 < batch_bytes encoded.
Proof. unfold batch_bytes, commitHeaderBytes. pose proof (total_bytes_nonneg encoded). lia. Qed.

(** The choice of removal: at [k], with [rest] still there. *)
Definition removable (latest limit desired maxBytes k : Z) (rest : list (CommitBatch * list bytes)) : Prop :=
  k < latest /\ k < limit /\ (k < desired \/ maxBytes < history_bytes rest).

(** What the loop removes from a history: a prefix, every batch of which could
    go, up to the first that has to stay. *)
Definition pruned (latest limit desired maxBytes first : Z) (bs removed rest : list (CommitBatch * list bytes)) : Prop :=
  bs = removed ++ rest /\ ~ removable latest limit desired maxBytes (first + zlen removed) rest /\
  forall r1 x r2, removed = r1 ++ x :: r2 -> removable latest limit desired maxBytes (first + zlen r1) (x :: r2 ++ rest).

Lemma pruned_step latest limit desired maxBytes first x bs removed rest :
  removable latest limit desired maxBytes first (x :: bs) -> pruned latest limit desired maxBytes (first + 1) bs removed rest ->
  pruned latest limit desired maxBytes first (x :: bs) (x :: removed) rest.
Proof.
  intros Hx (-> & Hstop & Hall). split; [done|]. split.
  - rewrite zlen_cons. by replace (first + (1 + zlen removed)) with (first + 1 + zlen removed) by lia.
  - intros r1 y r2. destruct r1 as [|z r1]; cbn [app]; intros [= -> E]; [subst; by rewrite zlen_nil, Z.add_0_r|].
    rewrite zlen_cons. replace (first + (1 + zlen r1)) with (first + 1 + zlen r1) by lia. by apply Hall.
Qed.

Lemma pruneLoop_spec turns fuel tx tree l h first bs latest limit desired maxBytes :
  written [] tx -> live tx TreeCommitLog h tree l -> history tx first bs l -> first + zlen bs = latest + 1 ->
  history_bytes bs < 2 ^ 64 -> zlen l < 2 ^ 64 -> latest - first <= Z.of_nat turns -> (h + length l + 1 < fuel)%nat ->
  exists tree' removed rest l',
    pruneLoop fuel turns tx tree latest limit desired maxBytes first (history_bytes bs) =
      Ok (tree', first + zlen removed, history_bytes rest) /\
    pruned latest limit desired maxBytes first bs removed rest /\
    live tx TreeCommitLog (h + length l) tree' l' /\ history tx (first + zlen removed) rest l' /\ (length l' <= length l)%nat.
Proof.
  intros Hw. revert tree l h first bs; induction turns as [|turns IH]; intros tree l h first bs Hl Hh Hsum Hb Hmax Ht Hf; cbn [pruneLoop].
  all: destruct ((first <? latest) && (first <? limit) && ((first <? desired) || (maxBytes <? history_bytes bs))) eqn:E.
  2, 4: exists tree, [], bs, l; rewrite zlen_nil, Z.add_0_r; split; [done|]; split;
    [split; [done|]; rewrite zlen_nil, Z.add_0_r; split; [|by intros [|? ?] ? ?]; unfold removable; intros (H1 & H2 & H3);
       apply Z.ltb_lt in H1, H2; rewrite H1, H2 in E; cbn [andb] in E; apply orb_false_iff in E as [E3 E4];
       apply Z.ltb_ge in E3, E4; lia
    |split; [eapply live_mono; [|exact Hl]; lia|done]].
  { breflect. lia. }
  assert (Hrem : removable latest limit desired maxBytes first bs).
  { apply andb_true_iff in E as [E E3]. apply andb_true_iff in E as [E1 E2]. apply orb_true_iff in E3. rewrite !Z.ltb_lt in *. done. }
  destruct bs as [|[b encoded] bs]; [destruct Hrem; rewrite zlen_nil in Hsum; lia|]. rewrite zlen_cons in Hsum.
  pose proof (history_bytes_nonneg bs). pose proof (batch_bytes_pos encoded). rewrite history_bytes_cons in Hb |- *. cbn [snd] in *.
  assert (Hlen : (S (length encoded) <= length l)%nat).
  { destruct Hh as (es & l1 & -> & _ & _ & (hd & ds & -> & _ & Hds) & _). apply Forall2_length in Hds.
    rewrite length_app. cbn [length]. rewrite length_change_entries. lia. }
  destruct (removeCommit_spec fuel tx tree l h first b encoded bs (batch_bytes encoded + history_bytes bs) Hw Hl Hh Hmax)
    as (tree1 & l1 & -> & Hl1 & Hh1 & Hlen1); [lia|lia|]. cbn [rbind].
  replace (batch_bytes encoded + history_bytes bs - batch_bytes encoded) with (history_bytes bs) by lia.
  destruct (IH tree1 l1 _ (first + 1) bs Hl1 Hh1) as (tree' & removed & rest & l' & -> & Hp & Hl' & Hh' & Hle);
    [lia|lia|unfold zlen in *; lia|lia|lia|].
  exists tree', ((b, encoded) :: removed), rest, l'. rewrite zlen_cons.
  replace (first + (1 + zlen removed)) with (first + 1 + zlen removed) by lia. split; [done|].
  split; [by apply pruned_step|]. split; [|split; [done|lia]]. eapply live_mono; [|exact Hl']. lia.
Qed.

(** ** What removal may not pass *)

(** The positions after which history is needed: those of replay pins, of index
    builds that have not failed, and of durable consumers. *)
Inductive needed (fuel : nat) (tx : WriteTxn) : Z -> Prop :=
| needed_replay n pin :
    f_readers (tx_file tx) !! n = Some pin -> pin_replay pin = true -> needed fuel tx (pin_sequence pin)
| needed_build h items key value build :
    held tx TreeIndexBuildCatalog h (root_IndexBuildCatalogRoot (tx_baseRoot tx)) items -> (h < fuel)%nat ->
    (key, value) ∈ items -> decodeIndexBuildMeta key value = Ok build -> bld_Phase build <> IndexBuildFailed ->
    needed fuel tx (bld_AppliedSequence build)
| needed_consumer checkpoints c :
    durableConsumerCheckpointsUnlocked fuel (tx_file tx) (root_CatalogRoot (tx_baseRoot tx)) = Ok checkpoints ->
    c ∈ checkpoints -> needed fuel tx (cp_ack c).

Lemma pinFloor_le limit pins : pinFloor limit pins <= limit.
Proof.
  unfold pinFloor. revert limit; induction pins as [|p pins IH]; intros limit; cbn [fold_left]; [lia|].
  destruct (negb (pin_replay p)); [apply IH|]. etransitivity; [apply IH|]. destruct (Z.ltb_spec (if to_u64 (pin_sequence p + 1) =? 0 then pin_sequence p else to_u64 (pin_sequence p + 1)) limit); lia.
Qed.

Lemma pinFloor_spec limit pins pin :
  pin ∈ pins -> pin_replay pin = true -> 0 <= pin_sequence pin < 2 ^ 64 - 1 -> pinFloor limit pins <= pin_sequence pin + 1.
Proof.
  revert limit; induction pins as [|p pins IH]; intros limit; [by intros ?%not_elem_of_nil|]. intros [->|Hin]%elem_of_cons Hr Hs.
  - unfold pinFloor. cbn [fold_left]. rewrite Hr. cbn [negb]. unfold to_u64. rewrite Z.mod_small by lia.
    destruct (Z.eqb_spec (pin_sequence p + 1) 0); [lia|]. etransitivity; [apply pinFloor_le|].
    destruct (Z.ltb_spec (pin_sequence p + 1) limit); lia.
  - by apply IH.
Qed.

Lemma buildFloor_spec oldest latest limit items r :
  buildFloor oldest latest limit items = Ok r -> latest < 2 ^ 64 ->
  r <= limit /\ forall key value, (key, value) ∈ items -> exists build, decodeIndexBuildMeta key value = Ok build /\
    (bld_Phase build <> IndexBuildFailed -> 0 <= bld_AppliedSequence build < latest -> r <= bld_AppliedSequence build + 1).
Proof.
  intros Hb Hl. revert limit Hb; induction items as [|[k v] items IH]; intros limit; cbn [buildFloor].
  { intros <-%Ok_inj. split; [lia|]. by intros ? ? ?%not_elem_of_nil. }
  intros Hb. inv_ok. rename a into build, Hok into Hd. destruct (_ || _) eqn:E in Hb.
  - destruct (IH _ Hb) as [Hr Hall]. split; [done|]. intros key value [[= -> ->]|Hin]%elem_of_cons; [|by apply Hall].
    exists build. split; [done|]. intros Hp Ha. apply orb_true_iff in E as [?%Z.eqb_eq|?%Z.leb_le]; [done|lia].
  - destruct (_ || _) in Hb; [done|]. destruct (IH _ Hb) as [Hr Hall]. clear IH.
    set (p := to_u64 (bld_AppliedSequence build + 1)) in *. split; [destruct (Z.ltb_spec p limit); lia|].
    intros key value [[= -> ->]|Hin]%elem_of_cons; [|by apply Hall]. exists build. split; [done|]. intros _ Ha.
    assert (p = bld_AppliedSequence build + 1) by (apply Z.mod_small; lia). destruct (Z.ltb_spec p limit); lia.
Qed.

Lemma consumerFloor_spec oldest latest floor cs r :
  consumerFloor oldest latest floor cs = Ok r -> latest < 2 ^ 64 -> Forall (fun c => 0 <= cp_ack c) cs ->
  r <= floor /\ Forall (fun c => r <= cp_ack c + 1 /\ cp_ack c < latest) cs /\ (oldest <= floor -> oldest <= r).
Proof.
  intros Hc Hl Ha. revert floor Hc; induction Ha as [|c cs Hc0 Ha IH]; intros floor; cbn [consumerFloor].
  { intros <-%Ok_inj. split; [lia|]. split; [constructor|lia]. }
  destruct (Z.leb_spec latest (cp_ack c)); [done|]. set (p := to_u64 (cp_ack c + 1)).
  assert (Hp : p = cp_ack c + 1) by (apply Z.mod_small; lia). destruct (_ || _) eqn:E in |- *; [done|]. breflect. intros Hc.
  destruct (IH _ Hc) as (Hr & Hall & Ho). split; [destruct (Z.ltb_spec p floor); lia|]. split.
  - constructor; [|done]. destruct (Z.ltb_spec p floor); lia.
  - intros Hof. apply Ho. destruct (Z.ltb_spec p floor); lia.
Qed.

Lemma scan_all (l : list KeyValue) limit : 0 < limit -> zlen (scan_result [] [] limit l) < limit -> scan_result [] [] limit l = l.
Proof.
  intros H0. unfold scan_result, grab.
  assert (Hall : List.filter (in_bounds [] []) l = l).
  { induction l as [|e l IH]; cbn; [done|]. by rewrite IH. }
  rewrite Hall. destruct (Z.ltb_spec 0 limit); [|lia]. cbn [app]. change (zlen (@nil KeyValue)) with 0. intros Hz. apply take_ge. unfold zlen in Hz. rewrite length_take in Hz. lia.
Qed.

Lemma pruneLimit_spec fuel tx oldest latest limit :
  written [] tx -> pruneLimit fuel tx oldest latest = Ok limit -> 0 <= oldest <= latest -> latest < 2 ^ 64 ->
  oldest <= limit <= latest /\
  forall pos, needed fuel tx pos -> 0 <= pos < latest -> limit <= Z.max oldest (pos + 1).
Proof.
  intros Hw. unfold pruneLimit. intros Hp Hol Hu. inv_ok. rename a into l1, a0 into floor.
  set (l0 := pinFloor latest (map_to_list (f_readers (tx_file tx))).*2) in *.
  pose proof (pinFloor_le latest (map_to_list (f_readers (tx_file tx))).*2) as Hl0. fold l0 in Hl0.
  assert (Hbuild : l1 <= l0 /\ forall h items key value build,
    held tx TreeIndexBuildCatalog h (root_IndexBuildCatalogRoot (tx_baseRoot tx)) items -> (h < fuel)%nat ->
    (key, value) ∈ items -> decodeIndexBuildMeta key value = Ok build -> bld_Phase build <> IndexBuildFailed ->
    0 <= bld_AppliedSequence build < latest -> l1 <= bld_AppliedSequence build + 1).
  { unfold indexBuildFloor in Hok. destruct (Z.eqb_spec (root_IndexBuildCatalogRoot (tx_baseRoot tx)) 0) as [E|E].
    - inv_ok. subst l1. split; [lia|]. intros h items key value build (h' & _ & [(_ & -> & _)|Hst]) _ Hin; [by apply not_elem_of_nil in Hin|].
      apply stored_available, (available_range _ _ (w_ok _ _ Hw)) in Hst. lia.
    - inv_ok. rename a into builds, Hok1 into Hopen.
      destruct (Scan tx TreeIndexBuildCatalog fuel builds [] [] (MaxConcurrentIndexBuilds + 1)) as [items|] eqn:Es; [|done].
      destruct (Z.ltb_spec MaxConcurrentIndexBuilds (zlen items)); [done|].
      destruct (buildFloor_spec _ _ _ _ _ Hok) as [Hle Hall]; [lia|]. split; [done|].
      intros h items' key value build Hk Hh Hin Hd Hph Ha. destruct (open_live tx h _ items' Hw Hk) as (builds' & Ho' & Hl).
      rewrite Hopen in Ho'. injection Ho' as <-. rewrite (scan_live tx h builds items' fuel _ Hl Hh) in Es. apply Ok_inj in Es.
      rewrite scan_all in Es; [|by vm_compute|rewrite Es; unfold MaxConcurrentIndexBuilds in *; lia]. subst items'.
      destruct (Hall key value Hin) as (build' & Hd' & Hn). rewrite Hd in Hd'. injection Hd' as <-. by apply Hn. }
  destruct Hbuild as [Hl1 Hbuild].
  set (l2 := if negb (floor =? 0) && (floor <? l1) then floor else l1) in *. assert (Hl2 : l2 <= l1).
  { unfold l2. destruct (negb (floor =? 0)); cbn [andb]; [|lia]. destruct (Z.ltb_spec floor l1); lia. }
  split; [subst limit; destruct (Z.ltb_spec l2 oldest); lia|]. intros pos Hn Hpos.
  assert (Hgoal : l2 <= Z.max oldest (pos + 1)); [|subst limit; destruct (Z.ltb_spec l2 oldest); lia].
  destruct Hn as [n pin Hpin Hr|h items key value build Hk Hh Hin Hd Hph|checkpoints c Hcs Hin].
  - assert (l0 <= pin_sequence pin + 1); [|lia]. apply pinFloor_spec; [|done|lia].
    apply list_elem_of_fmap. exists (n, pin). split; [done|]. by apply elem_of_map_to_list.
  - pose proof (Hbuild h items key value build Hk Hh Hin Hd Hph Hpos). lia.
  - unfold durableConsumerRetentionFloor in Hok0. destruct (_ || _) eqn:Eo in Hok0; [done|]. rewrite Hcs in Hok0. cbn [rbind] in Hok0.
    destruct checkpoints as [|c0 cs]; [by apply not_elem_of_nil in Hin|].
    destruct (consumerFloor_spec _ _ _ _ _ Hok0) as (_ & Hall & Ho); [lia|by eapply checkpoints_acks|].
    rewrite Forall_forall in Hall. destruct (Hall c Hin) as [Hc _]. breflect. unfold l2.
    destruct (Z.eqb_spec floor 0); [lia|]. cbn [negb andb]. destruct (Z.ltb_spec floor l1); lia.
Qed.

(** ** The limit is no stricter than needed *)

Lemma pinFloor_cons limit p pins :
  pinFloor limit (p :: pins) = pinFloor (if negb (pin_replay p) then limit else
    let x := if to_u64 (pin_sequence p + 1) =? 0 then pin_sequence p else to_u64 (pin_sequence p + 1) in if x <? limit then x else limit) pins.
Proof. done. Qed.

Definition pins_ok (pins : list readerPin) : Prop := Forall (fun pin => u64 (pin_sequence pin)) pins.

Lemma pinFloor_exact limit pins :
  limit < 2 ^ 64 -> pins_ok pins ->
  pinFloor limit pins = limit \/ exists pin, pin ∈ pins /\ pin_replay pin = true /\ pinFloor limit pins = pin_sequence pin + 1.
Proof.
  intros Hl Hp. revert limit Hl; induction Hp as [|p pins Hu Hp IH]; intros limit Hl; [by left|].
  rewrite pinFloor_cons. destruct (pin_replay p) eqn:Er; cbn [negb].
  2: { destruct (IH limit Hl) as [?|(pin & ? & ?)]; [by left|right]. exists pin. split; [by right|done]. }
  unfold to_u64. cbv zeta. set (x := if (pin_sequence p + 1) mod 2 ^ 64 =? 0 then pin_sequence p else (pin_sequence p + 1) mod 2 ^ 64).
  destruct (Z.ltb_spec x limit) as [Hx|Hx].
  - assert (Hex : x = pin_sequence p + 1).
    { unfold x in *. unfold u64 in Hu. destruct (Z.eq_dec (pin_sequence p) (2 ^ 64 - 1)) as [E|E].
      - rewrite E in *. change ((2 ^ 64 - 1 + 1) mod 2 ^ 64 =? 0) with true in *. cbn iota in Hx. lia.
      - rewrite Z.mod_small in * by lia. destruct (Z.eqb_spec (pin_sequence p + 1) 0); lia. }
    destruct (IH x ltac:(lia)) as [E|(pin & ? & ?)]; right; [exists p|exists pin; split; [by right|done]].
    split; [by left|]. split; [done|]. by rewrite E.
  - destruct (IH limit Hl) as [?|(pin & ? & ?)]; [by left|right]. exists pin. split; [by right|done].
Qed.

Lemma buildFloor_exact oldest latest limit items r :
  buildFloor oldest latest limit items = Ok r -> latest < 2 ^ 64 ->
  r = limit \/ exists key value build, (key, value) ∈ items /\ decodeIndexBuildMeta key value = Ok build /\
    bld_Phase build <> IndexBuildFailed /\ bld_AppliedSequence build < latest /\ r = bld_AppliedSequence build + 1.
Proof.
  intros Hb Hl. revert limit Hb; induction items as [|[k v] items IH]; intros limit; cbn [buildFloor]; [intros <-%Ok_inj; by left|].
  intros Hb. inv_ok. rename a into build, Hok into Hd. pose proof (decoded_build_applied _ _ _ Hd).
  assert (Hrest : forall limit', buildFloor oldest latest limit' items = Ok r -> r = limit' \/ exists key value build,
    (key, value) ∈ (k, v) :: items /\ decodeIndexBuildMeta key value = Ok build /\
    bld_Phase build <> IndexBuildFailed /\ bld_AppliedSequence build < latest /\ r = bld_AppliedSequence build + 1).
  { intros limit' Hb'. destruct (IH _ Hb') as [?|(k' & v' & b' & ? & ?)]; [by left|right]. exists k', v', b'. split; [by right|done]. }
  destruct (_ || _) eqn:E in Hb; [by apply Hrest|]. apply orb_false_iff in E as [E1%Z.eqb_neq E2%Z.leb_gt].
  destruct (_ || _) in Hb; [done|]. destruct (Hrest _ Hb) as [Hr|?]; [|by right].
  assert (Hp : to_u64 (bld_AppliedSequence build + 1) = bld_AppliedSequence build + 1) by (apply Z.mod_small; lia).
  rewrite Hp in Hr. destruct (Z.ltb_spec (bld_AppliedSequence build + 1) limit); [|by left].
  right. exists k, v, build. split; [by left|done].
Qed.

Lemma consumerFloor_exact oldest latest floor cs r :
  consumerFloor oldest latest floor cs = Ok r -> latest < 2 ^ 64 -> Forall (fun c => 0 <= cp_ack c) cs ->
  r = floor \/ exists c, c ∈ cs /\ cp_ack c < latest /\ r = cp_ack c + 1.
Proof.
  intros Hc Hl Ha. revert floor Hc; induction Ha as [|c cs Hc0 Ha IH]; intros floor; cbn [consumerFloor]; [intros <-%Ok_inj; by left|].
  destruct (Z.leb_spec latest (cp_ack c)); [done|]. destruct (_ || _); [done|].
  assert (Hp : to_u64 (cp_ack c + 1) = cp_ack c + 1) by (apply Z.mod_small; lia). rewrite Hp. intros Hc.
  destruct (IH _ Hc) as [Hr|(c' & ? & ?)]; [|right; exists c'; split; [by right|done]].
  destruct (Z.ltb_spec (cp_ack c + 1) floor); [right|by left]. exists c. split; [by left|done].
Qed.

Lemma pruneLimit_exact fuel tx oldest latest limit hb builds :
  written [] tx -> pruneLimit fuel tx oldest latest = Ok limit -> 0 <= oldest <= latest -> latest < 2 ^ 64 ->
  pins_ok (map_to_list (f_readers (tx_file tx))).*2 ->
  held tx TreeIndexBuildCatalog hb (root_IndexBuildCatalogRoot (tx_baseRoot tx)) builds -> (hb < fuel)%nat ->
  limit = latest \/ exists pos, needed fuel tx pos /\ 0 <= pos < latest /\ limit = Z.max oldest (pos + 1).
Proof.
  intros Hw Hp Hol Hu Hpins Hk Hhb. unfold pruneLimit in Hp. inv_ok. rename a into l1, a0 into floor.
  set (l0 := pinFloor latest (map_to_list (f_readers (tx_file tx))).*2) in *.
  assert (Hl0 : l0 <= latest) by apply pinFloor_le.
  assert (Hcase : forall l, (l = latest \/ exists pos, needed fuel tx pos /\ 0 <= pos /\ l = pos + 1) -> l <= latest ->
    (if l <? oldest then oldest else l) = latest \/
    exists pos, needed fuel tx pos /\ 0 <= pos < latest /\ (if l <? oldest then oldest else l) = Z.max oldest (pos + 1)).
  { intros l [->|(pos & Hn & H0 & ->)] Hle; [left; destruct (Z.ltb_spec latest oldest); lia|right]. exists pos. split; [done|].
    split; [lia|]. destruct (Z.ltb_spec (pos + 1) oldest); lia. }
  assert (Hc0 : l0 = latest \/ exists pos, needed fuel tx pos /\ 0 <= pos /\ l0 = pos + 1).
  { destruct (pinFloor_exact latest _ Hu Hpins) as [E|(pin & Hin & Hr & E)]; [by left|right]. exists (pin_sequence pin).
    apply list_elem_of_fmap in Hin as ([n pin'] & -> & Hin). apply elem_of_map_to_list in Hin. split; [by eapply needed_replay|].
    split; [|done]. unfold pins_ok in Hpins. rewrite Forall_forall in Hpins. destruct (Hpins pin') as [? _]; [|done].
    apply list_elem_of_fmap. exists (n, pin'). split; [done|]. by apply elem_of_map_to_list. }
  assert (Hc1 : l1 <= latest /\ (l1 = latest \/ exists pos, needed fuel tx pos /\ 0 <= pos /\ l1 = pos + 1)).
  { unfold indexBuildFloor in Hok. destruct (_ =? 0); [inv_ok; subst l1; by split|]. inv_ok. rename a into tree, Hok1 into Hopen.
    destruct (Scan tx TreeIndexBuildCatalog fuel tree [] [] (MaxConcurrentIndexBuilds + 1)) as [items|] eqn:Es; [|done].
    destruct (Z.ltb_spec MaxConcurrentIndexBuilds (zlen items)); [done|].
    destruct (open_live tx hb _ builds Hw Hk) as (tree' & Ho' & Hl).
    rewrite Hopen in Ho'. injection Ho' as <-. rewrite (scan_live tx hb tree builds fuel _ Hl Hhb) in Es. apply Ok_inj in Es.
    rewrite scan_all in Es; [|by vm_compute|rewrite Es; unfold MaxConcurrentIndexBuilds in *; lia]. subst items.
    destruct (buildFloor_spec _ _ _ _ _ Hok Hu) as [Hle _]. split; [lia|].
    destruct (buildFloor_exact _ _ _ _ _ Hok Hu) as [->|(k & v & build & Hin & Hd & Hph & Ha & ->)]; [done|right].
    exists (bld_AppliedSequence build). split; [by eapply needed_build|]. split; [by eapply decoded_build_applied|done]. }
  destruct Hc1 as [Hl1 Hc1]. subst limit. apply Hcase.
  - destruct (negb (floor =? 0) && (floor <? l1)) eqn:E; [|exact Hc1]. apply andb_true_iff in E as [E1 _].
    unfold durableConsumerRetentionFloor in Hok0. destruct (_ || _) in Hok0; [done|]. inv_ok. rename a into cs.
    destruct cs as [|c0 cs]; [inv_ok; by subst floor|].
    pose proof (checkpoints_acks _ _ _ _ Hok1) as Hacks.
    destruct (consumerFloor_exact _ _ _ _ _ Hok0 Hu Hacks) as [->|(c & Hin & Hc & ->)]; [by left|right].
    exists (cp_ack c). split; [by eapply needed_consumer|]. split; [|done]. rewrite Forall_forall in Hacks. by apply Hacks.
  - destruct (negb (floor =? 0)); cbn [andb]; [|done]. destruct (Z.ltb_spec floor l1); lia.
Qed.

(** ** Appending and removing together *)

(** The bytes of the log exceed what a counter of 64 bits holds. *)
Definition too_long (tx : WriteTxn) (bs : list (CommitBatch * list bytes)) (b : CommitBatch) : Prop :=
  exists changes encoded, normal_changes (bt_Changes b) changes /\ 2 ^ 64 <= history_bytes (bs ++ [(normal_batch b changes, encoded)]).

(** What a commit with retention leaves of a history. *)
Definition retains (fuel : nat) (tx : WriteTxn) (h : nat) (first : Z) (bs : list (CommitBatch * list bytes)) (l : list KeyValue)
    (b : CommitBatch) (r : result (Z * Z * WriteTxn)) : Prop :=
  match r with
  | Ok (root, keepFrom, tx') =>
      moves tx tx' /\ tx_retentionEvaluated tx' = true /\ tx_indexBuildCatalogChanged tx' = tx_indexBuildCatalogChanged tx /\ 2 <= root < tx_nextPage tx' /\
      exists changes encoded removed rest limit l',
        normal_changes (bt_Changes b) changes /\
        pruned (bt_Sequence b) limit (windowStart (tx_file tx) (bt_Sequence b)) (retentionMaxBytes (tx_file tx)) first
          (bs ++ [(normal_batch b changes, encoded)]) removed rest /\
        keepFrom = first + zlen removed /\ keepFrom <= bt_Sequence b /\
        held tx' TreeCommitLog h root l' /\ history tx' keepFrom rest l' /\
        tx_retainedCommitBytes tx' = history_bytes rest /\ first <= limit /\
        (forall pos, needed fuel tx pos -> 0 <= pos < bt_Sequence b -> limit <= Z.max first (pos + 1)) /\
        (limit = bt_Sequence b \/ exists pos, needed fuel tx pos /\ 0 <= pos < bt_Sequence b /\ limit = Z.max first (pos + 1)) /\
        (length l' <= length l + S (length (bt_Changes b)))%nat
  | Err e => e = ErrStorageLimit \/ ~ loggable tx b \/ too_long tx bs b \/ is_ok (pruneLimit fuel tx first (bt_Sequence b)) = false
  end.

Lemma needed_moves fuel tx tx' pos : moves tx tx' -> needed fuel tx pos -> needed fuel tx' pos.
Proof.
  intros Hm Hn. pose proof (mv_same _ _ Hm) as [Hf Hb _ _ _]. destruct Hn as [n pin Hp Hr|h items key value build Hk Hh Hin Hd Hph|cs c Hcs Hin].
  - eapply needed_replay; [by rewrite Hf|done].
  - eapply needed_build; [rewrite Hb; by eapply held_moves|done..].
  - eapply needed_consumer; [by rewrite Hf, Hb|done].
Qed.

(** A step does not change who needs history, as long as the catalog of builds is
    a tree. *)
Lemma needed_back fuel tx tx' hb builds pos :
  moves tx tx' -> held tx TreeIndexBuildCatalog hb (root_IndexBuildCatalogRoot (tx_baseRoot tx)) builds -> (hb < fuel)%nat ->
  needed fuel tx' pos -> needed fuel tx pos.
Proof.
  intros Hm Hkb Hhb Hn. pose proof (mv_same _ _ Hm) as [Hf Hb _ _ _]. destruct Hn as [n pin Hp Hr|h items key value build Hk Hh Hin Hd Hph|cs c Hcs Hin].
  - eapply needed_replay; [by rewrite <- Hf|done].
  - rewrite Hb in Hk. pose proof (held_moves _ _ _ _ _ Hm Hkb) as Hkb'.
    destruct (open_live tx' h _ items (mv_written _ _ Hm) Hk) as (t1 & Ho1 & Hl1).
    destruct (open_live tx' hb _ builds (mv_written _ _ Hm) Hkb') as (t2 & Ho2 & Hl2). rewrite Ho1 in Ho2. injection Ho2 as <-.
    assert (items = builds) as ->.
    { apply sorted_ext; [by eapply live_sorted|by eapply live_sorted|]. intros k.
      pose proof (get_live tx' h t1 items k (S (Nat.max h hb)) Hl1 ltac:(lia)) as E1.
      pose proof (get_live tx' hb t1 builds k (S (Nat.max h hb)) Hl2 ltac:(lia)) as E2. congruence. }
    by eapply needed_build.
  - eapply needed_consumer; [by rewrite <- Hf, <- Hb|done].
Qed.

Lemma pruneLimit_moves fuel tx tx' oldest latest hb builds :
  written [] tx -> moves tx tx' -> held tx TreeIndexBuildCatalog hb (root_IndexBuildCatalogRoot (tx_baseRoot tx)) builds ->
  (hb < fuel)%nat -> pruneLimit fuel tx' oldest latest = pruneLimit fuel tx oldest latest.
Proof.
  intros Hwr Hm Hkb Hhb. pose proof (mv_same _ _ Hm) as [Hf Hb _ _ _]. pose proof (held_moves _ _ _ _ _ Hm Hkb) as Hkb'.
  unfold pruneLimit, indexBuildFloor, durableConsumerRetentionFloor. rewrite Hf, Hb. destruct (_ =? 0); [done|].
  assert (Hw : forall t, written [] t -> held t TreeIndexBuildCatalog hb (root_IndexBuildCatalogRoot (tx_baseRoot tx)) builds ->
    exists tree, OpenTree t TreeIndexBuildCatalog (root_IndexBuildCatalogRoot (tx_baseRoot tx)) = Ok tree /\
      Scan t TreeIndexBuildCatalog fuel tree [] [] (MaxConcurrentIndexBuilds + 1) = Ok (scan_result [] [] (MaxConcurrentIndexBuilds + 1) builds)).
  { intros t Hw Hk. destruct (open_live t hb _ builds Hw Hk) as (tree & Ho & Hl). exists tree. split; [done|].
    by apply (scan_live t hb). }
  destruct (Hw tx' (mv_written _ _ Hm) Hkb') as (t1 & -> & E1).
  destruct (Hw tx Hwr Hkb) as (t2 & -> & E2). cbn [rbind]. by rewrite E1, E2.
Qed.

Lemma history_bytes_app bs1 bs2 : history_bytes (bs1 ++ bs2) = history_bytes bs1 + history_bytes bs2.
Proof. induction bs1 as [|b bs1 IH]; cbn [app]; [done|]. rewrite !history_bytes_cons, IH. lia. Qed.

Lemma pruned_bounds latest limit desired maxBytes first bs removed rest :
  pruned latest limit desired maxBytes first bs removed rest -> first <= latest ->
  first + zlen removed <= latest /\ (removed = [] \/ first + zlen removed <= limit).
Proof.
  intros (_ & _ & Hall) Hf. destruct removed as [|x removed _] using rev_ind; [rewrite zlen_nil; split; [lia|by left]|].
  destruct (Hall removed x [] eq_refl) as (H1 & H2 & _). rewrite zlen_app. change (zlen [x]) with 1. split; [lia|]. right. lia.
Qed.

Lemma live_bound tx h tree l : live tx TreeCommitLog h tree l -> 0 <= zlen l.
Proof. intros _. apply zlen_nonneg. Qed.

Lemma AppendCommitRetained_spec fuel tx root oldest b l h first bs hb builds :
  written [] tx -> held tx TreeCommitLog h root l -> history tx first bs l -> appendable tx b ->
  first + zlen bs = tx_sequence tx -> 0 < first -> oldest = (if decide (bs = []) then 0 else first) ->
  tx_retainedCommitBytes tx = history_bytes bs -> zlen l + zlen (bt_Changes b) + 1 < 2 ^ 64 ->
  (h + length l + 2 * length (bt_Changes b) + 4 < fuel)%nat ->
  held tx TreeIndexBuildCatalog hb (root_IndexBuildCatalogRoot (tx_baseRoot tx)) builds -> (hb < fuel)%nat ->
  pins_ok (map_to_list (f_readers (tx_file tx))).*2 ->
  retains fuel tx (h + length l + 2 * length (bt_Changes b) + 2) first bs l b (AppendCommitRetained fuel tx root oldest b).
Proof.
  intros Hw Hk Hh Hap Hsum H0 Hold Hret Hmax Hf Hkb Hhb Hpins. unfold AppendCommitRetained.
  destruct (open_live tx h root l Hw Hk) as (tree & -> & Hl). cbn [rbind].
  pose proof (appendCommitToTree_spec fuel tx tree b l h first bs Hw Hl Hh Hap Hsum Hmax ltac:(lia)) as Ha.
  destruct (appendCommitToTree fuel tx tree b) as [[[logical tree1] tx1]|]; cbn [rbind]; [|by destruct Ha; [left|right; left]].
  destruct Ha as ([Hm1 Hfl1] & changes & encoded & l1 & Hnorm & Hl1 & Hh1 & ->). set (bs1 := bs ++ [(normal_batch b changes, encoded)]) in *.
  injection Hfl1 as Hev1 Hret1 Hib1. rewrite Hret1, Hret. unfold maxUint64.
  assert (Hb1 : history_bytes bs1 = history_bytes bs + batch_bytes encoded).
  { unfold bs1. rewrite history_bytes_app, history_bytes_cons. change (history_bytes []) with 0. cbn [snd]. lia. }
  destruct (Z.ltb_spec (2 ^ 64 - 1 - history_bytes bs) (batch_bytes encoded)).
  { right. right. left. exists changes, encoded. fold bs1. split; [done|lia]. }
  set (tx2 := set_retention tx1 (tx_retentionEvaluated tx1) (history_bytes bs + batch_bytes encoded)).
  assert (Hm2 : moves tx tx2) by (eapply moves_trans; [exact Hm1|apply moves_retention, Hm1]).
  assert (Hm12 : moves tx1 tx2) by apply moves_retention, Hm1. pose proof (ap_sequence _ _ Hap) as Hseq.
  assert (Hol : (if oldest =? 0 then bt_Sequence b else oldest) = first).
  { rewrite Hold. destruct (decide (bs = [])) as [->|_]; [rewrite zlen_nil in Hsum; cbn; lia|]. destruct (Z.eqb_spec first 0); lia. }
  rewrite Hol. pose proof (zlen_nonneg bs). destruct (Z.ltb_spec (bt_Sequence b) first); [lia|].
  assert (Hu : bt_Sequence b < 2 ^ 64) by (destruct (w_ok _ _ Hw); lia).
  unfold pruneCommitTree. destruct (Z.eqb_spec first 0); [lia|]. destruct (Z.ltb_spec (bt_Sequence b) first); [lia|]. cbn [orb].
  pose proof (pruneLimit_moves fuel tx tx2 first (bt_Sequence b) hb builds Hw Hm2 Hkb Hhb) as Hsame.
  destruct (pruneLimit fuel tx2 first (bt_Sequence b)) as [limit|] eqn:Elim; cbn [rbind]; [|right; right; right; by rewrite <- Hsame].
  destruct (pruneLimit_spec fuel tx2 first (bt_Sequence b) limit (mv_written _ _ Hm2) Elim ltac:(lia) ltac:(lia)) as [Hlim Hneed].
  assert (Hlen1 : length l1 = (length l + S (length (bt_Changes b)))%nat).
  { clear -Hh1 Hh Hnorm. assert (Hlen : forall first bs l tx', history tx' first bs l ->
      length l = foldr (fun b n => S (length b.2) + n)%nat O bs).
    { clear. intros first bs; revert first; induction bs as [|[b e] bs IH]; intros first l tx'; cbn [history foldr]; [by intros ->|].
      intros (es & l' & -> & _ & _ & (hd & ds & -> & _ & Hds) & Hr). apply Forall2_length in Hds.
      rewrite length_app, (IH _ _ _ Hr). cbn [length snd]. by rewrite length_change_entries, Hds. }
    rewrite (Hlen _ _ _ _ Hh1), (Hlen _ _ _ _ Hh). unfold bs1. rewrite foldr_app. cbn [foldr snd].
    assert (Henc : length encoded = length (bt_Changes b)).
    { destruct (history_sequences tx1 first bs1 l1 (normal_batch b changes) encoded Hh1) as ([_ _ _ _ _ Hc] & _).
      - unfold bs1. apply elem_of_app. right. by apply list_elem_of_singleton.
      - apply Forall2_length in Hc, Hnorm. cbn in Hc. lia. }
    rewrite Henc. clear. induction bs as [|b0 bs IH]; cbn [foldr]; lia. }
  assert (Hsum1 : first + zlen bs1 = bt_Sequence b + 1) by (unfold bs1; rewrite zlen_app; change (zlen [_]) with 1; lia).
  assert (Hr2 : tx_retainedCommitBytes tx2 = history_bytes bs1) by (rewrite Hb1; done). rewrite Hr2.
  destruct (pruneLoop_spec (Z.to_nat (bt_Sequence b - first)) fuel tx2 tree1 l1 (h + S (length (bt_Changes b))) first bs1
    (bt_Sequence b) limit (windowStart (tx_file tx2) (bt_Sequence b)) (retentionMaxBytes (tx_file tx2)))
    as (tree2 & removed & rest & l2 & -> & Hp & Hl2 & Hh2 & Hle);
    [apply Hm2|by eapply live_moves|by eapply history_moves|done|lia|unfold zlen in *; lia|lia|lia|].
  cbn [rbind]. set (tx3 := set_retention tx2 true (history_bytes rest)).
  assert (Hm23 : moves tx2 tx3) by apply moves_retention, Hm2.
  pose proof (flush_live tx3 _ tree2 l2 (mv_written _ _ Hm23) (live_moves _ _ _ _ _ Hm23 Hl2)) as Hfl.
  destruct (Flush TreeCommitLog tx3 tree2) as [[root' tx4]|]; cbn [rbind]; [|left; apply Hfl; unfold zlen in *; lia].
  destruct Hfl as ([Hm34 Hfl4] & Hroot & _ & Hkept); [unfold zlen in *; lia|]. injection Hfl4 as Hev4 Hret4 Hib4. cbn [retains].
  pose proof (same_file _ _ (mv_same _ _ Hm2)) as Hfile. rewrite Hfile in Hp.
  destruct (pruned_bounds _ _ _ _ _ _ _ _ Hp ltac:(lia)) as [Hkeep _].
  split; [eapply moves_trans; [exact Hm2|]; by eapply moves_trans|]. split; [done|]. split; [cbn in Hib4; congruence|]. split; [done|].
  exists changes, encoded, removed, rest, limit, l2. split; [done|]. split; [exact Hp|]. split; [done|]. split; [exact Hkeep|].
  split; [eapply held_mono; [|exact Hkept]; lia|].
  split; [eapply history_moves; [|exact Hh2]; by eapply moves_trans|]. split; [done|]. split; [lia|].
  split; [intros pos Hn Hpos; apply Hneed; [|done]; by apply (needed_moves fuel tx)|]. split; [|lia].
  destruct (pruneLimit_exact fuel tx2 first (bt_Sequence b) limit hb builds (mv_written _ _ Hm2) Elim ltac:(lia) ltac:(lia))
    as [->|(pos & Hn & Hpos & ->)]; [by rewrite Hfile| |done|by left|].
  { rewrite (same_base _ _ (mv_same _ _ Hm2)). by apply (held_moves tx). }
  right. exists pos. split; [|done]. by apply (needed_back fuel tx tx2 hb builds).
Qed.

(** C4: a transaction that appends its batch to the commit log and applies the
    retention policy leaves a log that ends with its batch and reads back every
    batch it still holds; it removes only the oldest batches, none that a replay,
    an index build or a durable consumer still needs and only while the window of
    commits or the limit of bytes is exceeded; when neither limit holds
    afterwards, somebody needs the oldest batch kept or it is the new one. It fails
    only when the file is full, the batch is not a legal one, the counter of bytes
    overflows, or a stored build or consumer is malformed or ahead of the log. *)
Theorem commit_log_retention fuel tx root oldest b l h first bs hb builds :
  written [] tx -> held tx TreeCommitLog h root l -> history tx first bs l -> appendable tx b ->
  first + zlen bs = tx_sequence tx -> 0 < first -> oldest = (if decide (bs = []) then 0 else first) ->
  tx_retainedCommitBytes tx = history_bytes bs -> zlen l + zlen (bt_Changes b) + 1 < 2 ^ 64 ->
  (h + length l + 2 * length (bt_Changes b) + 4 < fuel)%nat ->
  held tx TreeIndexBuildCatalog hb (root_IndexBuildCatalogRoot (tx_baseRoot tx)) builds -> (hb < fuel)%nat ->
  pins_ok (map_to_list (f_readers (tx_file tx))).*2 ->
  match AppendCommitRetained fuel tx root oldest b with
  | Err e => e = ErrStorageLimit \/ ~ loggable tx b \/ too_long tx bs b \/ is_ok (pruneLimit fuel tx first (bt_Sequence b)) = false
  | Ok (root', keepFrom, tx') =>
      exists changes encoded removed rest, normal_changes (bt_Changes b) changes /\
        bs ++ [(normal_batch b changes, encoded)] = removed ++ rest /\ keepFrom = first + zlen removed /\ keepFrom <= bt_Sequence b /\
        (exists log, OpenTree tx' TreeCommitLog root' = Ok log /\
           forall b' e, (b', e) ∈ rest -> readCommitFromTree fuel tx' log (bt_Sequence b') = Ok b') /\
        tx_retainedCommitBytes tx' = history_bytes rest /\
        (forall pos, needed fuel tx pos -> 0 <= pos < bt_Sequence b -> keepFrom <= Z.max first (pos + 1)) /\
        (forall r1 x r2, removed = r1 ++ x :: r2 ->
           first + zlen r1 < windowStart (tx_file tx) (bt_Sequence b) \/ retentionMaxBytes (tx_file tx) < history_bytes (x :: r2 ++ rest)) /\
        ((windowStart (tx_file tx) (bt_Sequence b) <= keepFrom /\ history_bytes rest <= retentionMaxBytes (tx_file tx)) \/
         keepFrom = bt_Sequence b \/ exists pos, needed fuel tx pos /\ 0 <= pos < bt_Sequence b /\ keepFrom = Z.max first (pos + 1))
  end.
Proof.
  intros Hw Hk Hh Hap Hsum H0 Hold Hret Hmax Hf Hkb Hhb Hpins.
  pose proof (AppendCommitRetained_spec fuel tx root oldest b l h first bs hb builds Hw Hk Hh Hap Hsum H0 Hold Hret Hmax Hf Hkb Hhb Hpins) as Hr.
  destruct (AppendCommitRetained fuel tx root oldest b) as [[[root' keepFrom] tx']|]; [|done].
  destruct Hr as (Hm & _ & _ & Hroot & changes & encoded & removed & rest & limit & l' & Hnorm & Hp & -> & Hle & Hk' & Hh' & Hb' & Hlim & Hneed & Hex & Hlen).
  pose proof (pruned_bounds _ _ _ _ _ _ _ _ Hp ltac:(pose proof (zlen_nonneg bs); rewrite (ap_sequence _ _ Hap); lia)) as [_ Hlim2].
  pose proof Hp as (Happ & Hstop & Hall). exists changes, encoded, removed, rest. split; [done|]. split; [exact Happ|]. split; [done|]. split; [done|]. split.
  { destruct (open_live tx' _ root' l' (mv_written _ _ Hm) Hk') as (log & Ho & Hl). exists log. split; [done|]. intros b' e Hin.
    destruct (history_sequences _ _ _ _ _ _ Hh' Hin) as (Hbk & _). pose proof (bo_sequence _ _ Hbk).
    unfold readCommitFromTree. destruct (Z.eqb_spec (bt_Sequence b') 0); [lia|].
    apply (history_read tx' _ (first + zlen removed) rest l' b' e); [apply Hm|done|by eapply live_sorted| |done].
    intros k _. eapply get_live; [done|lia]. }
  split; [done|]. split.
  { intros pos Hn Hpos. specialize (Hneed pos Hn Hpos). destruct Hlim2 as [->|?]; [rewrite zlen_nil; lia|lia]. }
  split; [intros r1 x r2 E; by destruct (Hall r1 x r2 E) as (_ & _ & ?)|].
  destruct (decide (first + zlen removed = bt_Sequence b)) as [E|E]; [by right; left|].
  destruct (Z_lt_le_dec (first + zlen removed) limit) as [Hlt|Hge].
  - left. unfold removable in Hstop. lia.
  - right. right. destruct Hex as [->|(pos & Hn & Hpos & ->)]; [lia|]. exists pos. split; [done|]. split; [done|].
    destruct Hlim2 as [->|?]; [rewrite zlen_nil in *; lia|lia].
Qed.
