(* ===== verification/SnapshotReads.v ===== *)
(** * Reading the committed version

    The view of the current version satisfies the invariant of a transaction, and
    the reads by root page that the file offers agree with it: trees
    ([treeGetUnlocked]), system records and checkpoints, commits of the log. *)
From stdpp Require Import gmap.
From S2P Require Import Prelude Bytes Strings Layout Entries Hashes PageFormat Records NodeCodec NodeView CowTree.
From S2P Require Import TreeShape TreeInvariant TreeRep TreeDelete TreeScan Tree Flush FileStore Recovery Commit.
From S2P Require Import Atomicity TreeRead Snapshots Transactions StoredValues CommitCodec IndexBuilds SystemRecords.
From S2P Require Import SystemStore CommitLog CommitHistory.
#[local] Open Scope Z_scope.

Lemma snapshot_written f : file_ok f -> written [] (snapshot f).
Proof.
  intros [Ho Hn Hw _ Hfr Hnd _ _ Hmax]. destruct (opens_meta _ _ _ _ Ho) as ((_ & Hg & Hc & _) & _ & Hv). unfold u64 in *.
  assert (Generation (f_meta f) <> 0).
  { intros E. unfold validMeta in Hv. rewrite E in Hv. destruct (_ || _) eqn:E2 in Hv; [done|]. breflect. done. }
  constructor; cbn [snapshot tx_pages tx_byID tx_freePages tx_nextPage tx_file].
  - constructor; cbn [snapshot tx_file tx_nextPage tx_generation tx_sequence tx_freePages tx_reusedPages]; try done; [lia|lia|by rewrite app_nil_r|].
    intros id [data Hs]. cbn in Hs. by rewrite lookup_empty in Hs.
  - constructor.
  - constructor.
  - intros id data. by rewrite lookup_empty.
  - constructor.
  - lia.
  - by intros id ?%not_elem_of_nil.
Qed.

Lemma readerTxn_reads f p : tx_readPage (readerTxn f) p = tx_readPage (snapshot f) p.
Proof. done. Qed.

Section Reads.
Variables (f : File) (fuel : nat).
Hypothesis Hf : file_ok f.

Lemma get_at kind h page l key :
  held (snapshot f) kind h page l -> (h < fuel)%nat -> key <> [] -> treeGetUnlocked f kind fuel page key = Ok (field l key).
Proof.
  intros (h' & Hh & Ht) Hfu Hk. rewrite (treeGetUnlocked_correct f kind h' page l key fuel); [|destruct Ht as [(-> & -> & _)|?]; [by left|by right]|done|lia].
  by rewrite (proj2 (beqb_neq key []) Hk).
Qed.

Lemma load_record_at d v : record_value (snapshot f) d v -> loadSystemValue (readerTxn f) d = Ok v.
Proof.
  intros Hr. unfold loadSystemValue, loadOverflowValue.
  rewrite (loadStored_ext false (readerTxn f) (snapshot f)) by done.
  apply (load_record (snapshot f) d v); [|done]. apply (w_ok _ _ (snapshot_written f Hf)).
Qed.

Lemma getSystemRecord_at hc h catalogRoot lc recs key :
  held (snapshot f) TreeCatalog hc catalogRoot lc -> system_at (snapshot f) h (field lc systemCatalogKey) recs ->
  (hc < fuel)%nat -> (h < fuel)%nat -> key <> [] -> getSystemRecordUnlocked fuel f catalogRoot key = Ok (field recs key).
Proof.
  intros Hk Hs Hfc Hfu Hkey. unfold getSystemRecordUnlocked. rewrite (get_at TreeCatalog hc catalogRoot lc) by done. cbn [rbind].
  destruct (field lc systemCatalogKey) as [encoded|]; [|cbn in Hs; by subst recs].
  destruct Hs as (root & He & Hr & Hz & ds & Hd & Hl). 
  rewrite (proj2 (decodeSystemDirectory_exact encoded (mk_systemDirectory root (zlen recs)))) by done. cbn [rbind dir_Root].
  rewrite (get_at TreeSystem h root ds) by done. cbn [rbind]. pose proof (linked_field _ _ _ key Hl) as HF.
  destruct (field ds key) as [d|], (field recs key) as [v|]; try done. by rewrite (load_record_at d v).
Qed.

(** ** Commits *)

Lemma readChanges_ext tx tx' get sequence ordinal n :
  (forall p, tx_readPage tx p = tx_readPage tx' p) -> tx_nextPage tx = tx_nextPage tx' ->
  readChanges tx get sequence ordinal n = readChanges tx' get sequence ordinal n.
Proof.
  intros Hr Hn. revert ordinal; induction n as [|n IH]; intros ordinal; cbn [readChanges]; [done|].
  destruct (get (commitKey sequence ordinal)) as [[stored|]|]; [|done|done].
  unfold loadCommitValue. rewrite (loadStored_ext true tx tx') by done. by rewrite IH.
Qed.

Lemma readCommitUsing_ext tx tx' sequence get :
  (forall p, tx_readPage tx p = tx_readPage tx' p) -> tx_nextPage tx = tx_nextPage tx' ->
  readCommitUsing tx sequence get = readCommitUsing tx' sequence get.
Proof.
  intros Hr Hn. unfold readCommitUsing. destruct (sequence =? 0); [done|].
  destruct (get (commitKey sequence 0)) as [[stored|]|]; cbn [rbind]; [|done|done].
  unfold loadCommitValue at 1. rewrite (loadStored_ext true tx tx') by done. fold (loadCommitValue tx' stored).
  destruct (loadCommitValue tx' stored) as [header|]; [|done]. by rewrite (readChanges_ext tx tx').
Qed.

(** The catalog of a commit is empty or the root of a tree. *)
Definition catalog_kept (tx : WriteTxn) (root : Z) : Prop := exists h l, held tx TreeCatalog h root l.

Lemma catalog_kept_carries tx tx' root : carries tx tx' -> catalog_kept tx root -> catalog_kept tx' root.
Proof. intros Hc (h & l & Hk). exists h, l. by eapply held_carries. Qed.

Lemma validateTreeRoot_at root : catalog_kept (snapshot f) root -> validateTreeRootUnlocked f TreeCatalog root = Ok tt.
Proof.
  intros (h & l & h' & _ & Ht). unfold validateTreeRootUnlocked. destruct (Z.eqb_spec root 0) as [|Hr]; [done|].
  destruct Ht as [(? & _)|Hst]; [done|]. pose proof (stored_available _ _ _ _ _ Hst) as Hav.
  pose proof (available_range _ _ (w_ok _ _ (snapshot_written f Hf)) Hav) as [[H2 _] _]. destruct (Z.ltb_spec root 2); [lia|].
  destruct Hst as [Hrep _]. apply rep_holds in Hrep as (node & Hload & _ & (_ & _ & Hkeys & _) & _).
  apply load_page in Hload as Href. by destruct (reference_view f TreeCatalog root node Href Hkeys) as (view & -> & _).
Qed.

Lemma readCommit_at h rootPage first bs l b encoded :
  held (snapshot f) TreeCommitLog h rootPage l -> history (snapshot f) first bs l -> (h < fuel)%nat -> (b, encoded) ∈ bs ->
  catalog_kept (snapshot f) (bt_CatalogRoot b) -> readCommitUnlocked fuel f rootPage (bt_Sequence b) = Ok b.
Proof.
  intros Hk Hh Hfu Hin Hc. unfold readCommitUnlocked. rewrite (readCommitUsing_ext (readerTxn f) (snapshot f)) by done.
  rewrite (history_read (snapshot f) _ first bs l b encoded); [|apply (w_ok _ _ (snapshot_written f Hf))|done|by eapply held_sorted| |done].
  - cbn [rbind]. by rewrite validateTreeRoot_at.
  - intros k Hkey. by apply (get_at TreeCommitLog h).
Qed.
End Reads.

(** ** Committed versions and their log

    The invariant that ties the current version of a file to the batches its
    commit log holds, and that the two kinds of updates preserve it: those that
    append one batch through [AppendCommitRetained], and those that leave the log
    alone. *)
(** [bs] are the batches in the log of the current version, the first of sequence
    [first]; [h] and [hb] bound the heights of the log and of the catalog of index
    builds. *)
Record logged (f : File) (h hb : nat) (first : Z) (bs : list (CommitBatch * list bytes)) : Prop := {
  lg_file : file_ok f;
  lg_first : 0 < first;
  lg_oldest : root_OldestRetainedSequence (f_root f) = (if decide (bs = []) then 0 else first);
  lg_sequence : CommitSequence (f_meta f) + 1 = first + zlen bs;
  lg_log : exists l, held (snapshot f) TreeCommitLog h (root_CommitLogRoot (f_root f)) l /\ history (snapshot f) first bs l;
  lg_bytes : f_retainedCommitBytes f = history_bytes bs;
  lg_catalogs : Forall (fun b => catalog_kept (snapshot f) (bt_CatalogRoot b.1)) bs;
  lg_builds : exists builds, held (snapshot f) TreeIndexBuildCatalog hb (root_IndexBuildCatalogRoot (f_root f)) builds;
  lg_pins : pins_ok (map_to_list (f_readers f)).*2 }.

(** The number of entries of the log. *)
Definition log_entries (bs : list (CommitBatch * list bytes)) : nat := foldr (fun b n => S (length b.2) + n)%nat O bs.

Lemma history_entries tx first bs l : history tx first bs l -> length l = log_entries bs.
Proof.
  revert first l; induction bs as [|[b e] bs IH]; intros first l; cbn [history log_entries foldr]; [by intros ->|].
  intros (es & l' & -> & _ & _ & (hd & ds & -> & _ & Hds) & Hr). apply Forall2_length in Hds. fold (log_entries bs).
  rewrite length_app, (IH _ _ Hr). cbn [length snd]. by rewrite length_change_entries, Hds.
Qed.

(** The fuel an append needs, and the height of the log after it. *)
Definition log_height (h : nat) (bs : list (CommitBatch * list bytes)) (b : CommitBatch) : nat :=
  (h + log_entries bs + 2 * length (bt_Changes b) + 2)%nat.

(** ** Appending updates *)

(** What a callback that appends one batch, as its last step, leaves. *)
Definition logs (fuel h : nat) (bs : list (CommitBatch * list bytes)) (b : CommitBatch)
    (tx : WriteTxn) (root : DatabaseRoot) (tx' : WriteTxn) : Prop :=
  exists tx0, quiet tx tx0 /\ appendable tx0 b /\ catalog_kept tx0 (bt_CatalogRoot b) /\
    (log_height h bs b + 2 < fuel)%nat /\ Z.of_nat (log_entries bs) + zlen (bt_Changes b) + 1 < 2 ^ 64 /\
    AppendCommitRetained fuel tx0 (root_CommitLogRoot (tx_baseRoot tx)) (root_OldestRetainedSequence (tx_baseRoot tx)) b =
      Ok (root_CommitLogRoot root, root_OldestRetainedSequence root, tx').

(** What may not be removed: the log positions replays, builds and consumers of
    the version still need. *)
Definition needs (fuel : nat) (f : File) (pos : Z) : Prop := needed fuel (snapshot f) pos.

Lemma begin_fields f advance tx :
  beginUpdate f advance = Ok tx -> tx_retainedCommitBytes tx = f_retainedCommitBytes f /\ tx_indexBuildCatalogChanged tx = false /\
    tx_retentionEvaluated tx = false.
Proof.
  unfold beginUpdate. destruct (f_fatalErr f); [done|]. destruct (_ <? advance); [done|]. destruct (_ || _); [done|]. by intros <-%Ok_inj.
Qed.

Lemma needed_carries fuel tx tx' pos :
  tx_file tx' = tx_file tx -> tx_baseRoot tx' = tx_baseRoot tx -> carries tx tx' -> needed fuel tx pos -> needed fuel tx' pos.
Proof.
  intros Hf Hb Hc [n pin Hp Hr|h items key value build Hk Hh Hin Hd Hph|cs c Hcs Hin].
  - eapply needed_replay; [by rewrite Hf|done].
  - eapply needed_build; [rewrite Hb; by eapply held_carries|done..].
  - eapply needed_consumer; [by rewrite Hf, Hb|done].
Qed.

(** A commit appends its batch to the log, and removes a prefix that nobody needs. *)
Definition log_advances (fuel : nat) (f f' : File) (h hb : nat) (first : Z) (bs : list (CommitBatch * list bytes)) (b : CommitBatch) : Prop :=
  exists changes encoded removed rest, normal_changes (bt_Changes b) changes /\
    bs ++ [(normal_batch b changes, encoded)] = removed ++ rest /\ bt_Sequence b = CommitSequence (f_meta f) + 1 /\
    first + zlen removed <= bt_Sequence b /\ logged f' (log_height h bs b) hb (first + zlen removed) rest /\
    forall pos, needs fuel f pos -> 0 <= pos < bt_Sequence b -> first + zlen removed <= Z.max first (pos + 1).

Lemma logged_append f f' h hb first bs b fuel build :
  logged f h hb first bs -> (hb < fuel)%nat -> committed f 1 build (logs fuel h bs b) f' ->
  log_advances fuel f f' h hb first bs b.
Proof.
  intros [Hf H0 Hold Hseq (l & Hk & Hh) Hby Hcat (builds & Hkb) Hpins] Hhb.
  intros (Hf' & _ & Hsr & Hseq' & tx & root & tx' & Hbegin & Hbuild & Hm & (tx0 & [Hm0 Hfl0] & Hap & Hcr & Hfu & Hmax & Happ) & Hc1 & Hc2 & Hsv & Hrs & Hib & Hret & _).
  destruct (begin_written f 1 tx Hf ltac:(lia) Hbegin) as (Hw & Hfile & Hbase & _ & Hts & _).
  destruct (begin_fields f 1 tx Hbegin) as (Hrb & Hicc & Hre). injection Hfl0 as Hev0 Hret0 Hib0.
  pose proof (mv_same _ _ Hm0) as [Hsf Hsb _ _ _]. pose proof (moves_carries _ _ Hm0) as Hc0.
  assert (Hc01 : carries (snapshot f) tx0) by by eapply carries_trans.
  pose proof (ap_sequence _ _ Hap) as Hbs. assert (Hts0 : tx_sequence tx0 = tx_sequence tx) by apply (mv_same _ _ Hm0).
  pose proof (history_entries _ _ _ _ Hh) as Hlen. unfold log_height in Hfu.
  pose proof (AppendCommitRetained_spec fuel tx0 (root_CommitLogRoot (tx_baseRoot tx)) (root_OldestRetainedSequence (tx_baseRoot tx)) b l h first bs hb builds
    (mv_written _ _ Hm0)) as Hspec. rewrite Happ, Hsb, Hbase, Hsf, Hfile in Hspec.
  specialize (Hspec (held_carries _ _ _ _ _ Hc01 Hk) (history_carries _ _ _ _ _ Hc01 Hh) Hap ltac:(lia) H0 Hold ltac:(congruence)).
  unfold zlen at 1 in Hspec. rewrite Hlen in Hspec.
  specialize (Hspec ltac:(lia) ltac:(lia) (held_carries _ _ _ _ _ Hc01 Hkb) Hhb Hpins).
  destruct Hspec as (Hm1 & Hev1 & Hib1 & Hroot & changes & encoded & removed & rest & limit & l' & Hnorm & Hp & Hkeep & Hle & Hk' & Hh' & Hb' & Hlim & Hneed & _ & Hlen').
  assert (Hp2 : removed = [] \/ first + zlen removed <= limit) by (eapply pruned_bounds; [exact Hp|pose proof (zlen_nonneg bs); lia]).
  destruct Hp as (Hsplit & _ & _). exists changes, encoded, removed, rest. split; [done|]. split; [done|]. split; [lia|]. split; [lia|].
  destruct Hsv as (_ & Hv1 & Hv2 & Hv3 & _). rewrite <- Hkeep.
  assert (Hz : zlen bs + 1 = zlen removed + zlen rest).
  { pose proof (f_equal zlen Hsplit) as Hz. rewrite !zlen_app in Hz. change (zlen [_]) with 1 in Hz. lia. }
  pose proof (zlen_nonneg removed). split; [constructor|].
  - done.
  - lia.
  - rewrite Hv3. destruct (decide (rest = [])) as [->|]; [|done]. change (zlen []) with 0 in Hz. lia.
  - lia.
  - exists l'. rewrite Hv2. split; [|by eapply history_carries].
    eapply held_mono; [|by eapply held_carries]. unfold log_height. lia.
  - by rewrite Hret, Hev1.
  - apply Forall_forall. intros x Hx.
    assert (Hin : x ∈ bs ++ [(normal_batch b changes, encoded)]) by (rewrite Hsplit; apply elem_of_app; by right).
    apply elem_of_app in Hin as [Hin|Hin%list_elem_of_singleton].
    + rewrite Forall_forall in Hcat. eapply catalog_kept_carries; [|by apply Hcat]. eapply carries_trans; [exact Hc1|].
      eapply carries_trans; [exact (moves_carries _ _ Hm)|done].
    + subst x. cbn [fst normal_batch bt_CatalogRoot]. eapply catalog_kept_carries; [|exact Hcr].
      eapply carries_trans; [exact (moves_carries _ _ Hm1)|done].
  - exists builds. rewrite Hib, Hib1, Hib0, Hicc. eapply held_carries; [exact Hc2|]. eapply held_carries; [exact (moves_carries _ _ Hm)|].
    by eapply held_carries.
  - destruct Hsr as (-> & _). done.
  - intros pos Hn Hpos. rewrite Hkeep.
    assert (Hl : limit <= Z.max first (pos + 1)).
    { apply Hneed; [|lia]. eapply needed_carries; [| |exact Hc01|exact Hn]; cbn; congruence. }
    destruct Hp2 as [->|?]; [rewrite zlen_nil; lia|lia].
Qed.

(** ** Updates that leave the log alone *)

Definition leaves_log (tx : WriteTxn) (root : DatabaseRoot) (tx' : WriteTxn) : Prop :=
  root_CommitLogRoot root = root_CommitLogRoot (tx_baseRoot tx) /\
  root_OldestRetainedSequence root = root_OldestRetainedSequence (tx_baseRoot tx) /\ flags tx' = flags tx.

(** Every fact of the log carries over to a version with the same roots. *)
Lemma logged_carries f f' h hb first bs :
  logged f h hb first bs -> file_ok f' -> carries (snapshot f) (snapshot f') ->
  CommitSequence (f_meta f') = CommitSequence (f_meta f) -> root_CommitLogRoot (f_root f') = root_CommitLogRoot (f_root f) ->
  root_OldestRetainedSequence (f_root f') = root_OldestRetainedSequence (f_root f) ->
  root_IndexBuildCatalogRoot (f_root f') = root_IndexBuildCatalogRoot (f_root f) ->
  f_retainedCommitBytes f' = f_retainedCommitBytes f -> pins_ok (map_to_list (f_readers f')).*2 -> logged f' h hb first bs.
Proof.
  intros [Hf H0 Hold Hseq (l & Hk & Hh) Hby Hcat (builds & Hkb) Hpins] Hf' Hc Es El Eo Ei Er Hp. constructor; try done; try congruence.
  - exists l. rewrite El. split; [by eapply held_carries|by eapply history_carries].
  - eapply Forall_impl; [exact Hcat|]. intros b. by apply catalog_kept_carries.
  - exists builds. rewrite Ei. by eapply held_carries.
Qed.

Lemma logged_keep f f' h hb first bs build :
  logged f h hb first bs -> committed f 0 build leaves_log f' -> logged f' h hb first bs.
Proof.
  intros Hl Hc. pose proof (committed_carries _ _ _ _ _ Hc) as Hcar. pose proof (lg_file _ _ _ _ _ Hl) as Hf.
  destruct Hc as (Hf' & _ & Hsr & Hseq' & tx & root & tx' & Hbegin & _ & _ & (Hl1 & Hl2 & Hfl) & _ & _ & Hsv & _ & Hib & Hret & _).
  destruct (begin_written f 0 tx Hf ltac:(lia) Hbegin) as (_ & _ & Hbase & _).
  destruct (begin_fields f 0 tx Hbegin) as (Hrb & Hicc & Hre). injection Hfl as Hev Hrt Hic.
  destruct Hsv as (_ & _ & Hv2 & Hv3 & _). apply (logged_carries f); try done.
  - lia.
  - by rewrite Hv2, Hl1, Hbase.
  - by rewrite Hv3, Hl2, Hbase.
  - by rewrite Hib, Hic, Hicc.
  - by rewrite Hret, Hev, Hre.
  - destruct Hsr as (-> & _). apply Hl.
Qed.

(** ** Reading the log *)

Lemma logged_lookup f h hb first bs s b encoded :
  logged f h hb first bs -> first <= s -> bs !! Z.to_nat (s - first) = Some (b, encoded) -> bt_Sequence b = s.
Proof.
  intros [_ _ _ _ (l & _ & Hh) _ _ _ _]. revert first l Hh; induction bs as [|[b0 e0] bs IH]; intros first l; cbn [history]; [done|].
  intros (es & l' & _ & Hs0 & _ & _ & Hr) Hs Hb. destruct (Z.to_nat (s - first)) as [|n] eqn:En; cbn in Hb.
  - injection Hb as <- <-. lia.
  - apply (IH (first + 1) l' Hr); [lia|]. by replace (Z.to_nat (s - (first + 1))) with n by lia.
Qed.

(** Every sequence the log holds is read back. *)
Lemma logged_read f h hb first bs s fuel :
  logged f h hb first bs -> (h < fuel)%nat -> first <= s <= CommitSequence (f_meta f) ->
  exists b encoded, bs !! Z.to_nat (s - first) = Some (b, encoded) /\
    readCommitUnlocked fuel f (root_CommitLogRoot (f_root f)) s = Ok b.
Proof.
  intros Hl Hfu Hs. pose proof (lg_sequence _ _ _ _ _ Hl) as Hseq.
  destruct (bs !! Z.to_nat (s - first)) as [[b encoded]|] eqn:Eb.
  2: { apply lookup_ge_None in Eb. unfold zlen in Hseq. lia. }
  exists b, encoded. split; [done|]. pose proof (logged_lookup f h hb first bs s b encoded Hl ltac:(lia) Eb) as <-.
  apply list_elem_of_lookup_2 in Eb as Hin. destruct Hl as [Hf _ _ _ (l & Hk & Hh) _ Hcat _ _].
  apply (readCommit_at f fuel Hf h _ first bs l b encoded Hk Hh Hfu Hin). rewrite Forall_forall in Hcat. apply (Hcat _ Hin).
Qed.

Lemma root_sequence f : file_ok f -> root_CommitSequence (f_root f) = CommitSequence (f_meta f).
Proof.
  intros [Ho _ _ _ _ _ _ _ _]. pose proof (oa_root _ _ _ _ Ho) as Hr. unfold readDatabaseRoot in Hr.
  destruct (RootPage (f_meta f) =? 0); [by injection Hr as <-|].
  inv_ok. destruct a0 as [r p]. destruct (negb _) eqn:E in Hr; [done|]. breflect. by injection Hr as <-.
Qed.

(** A file that was just created has an empty log. *)
Lemma logged_empty f :
  file_ok f -> f_root f = root_zero 0 -> CommitSequence (f_meta f) = 0 -> f_retainedCommitBytes f = 0 -> f_readers f = ∅ ->
  logged f 0 0 1 [].
Proof.
  intros Hf Hr Hs Hb Hp. constructor; rewrite ?Hr; cbn; try done; try lia.
  - by rewrite Hs.
  - exists []. split; [exists O; split; [lia|by left]|done].
  - exists []. exists O. split; [lia|by left].
  - rewrite Hp, map_to_list_empty. constructor.
Qed.
