(* ===== verification/CommitStreams.v ===== *)
(** * Cursors and streams over the commit log

    [internal/storage/cursor.go], and the pins, snapshots and live streams of
    [live.go]. The locks of the code make every operation one step; a stream
    without anything to deliver waits for the next publication, which here is a
    result of its own. *)
From stdpp Require Import gmap.
From S2P Require Import Prelude Bytes Strings Layout Hashes PageFormat Entries NodeCodec CowTree.
From S2P Require Import TreeShape TreeInvariant TreeRep TreeDelete TreeScan Tree Flush FileStore Recovery Commit.
From S2P Require Import Atomicity TreeRead Snapshots Transactions Records StoredValues SystemRecords.
From S2P Require Import CommitCodec IndexBuilds CommitLog CommitHistory SnapshotReads.
#[local] Open Scope Z_scope.

(** ** Pins *)

Definition set_pins (f : File) (readers : gmap Z readerPin) (nextPin : Z) : File :=
  mk_File (f_file f) (f_meta f) (f_root f) (f_metaSlot f) (f_metas f) (f_metaOK f) (f_nextPage f) (f_fatalErr f)
    (f_freePages f) (f_freeSpaceTracked f) (f_freeSpaceNeedsRebuild f) (f_maxPhysicalPages f) readers
    (f_commitRetentionMax f) (f_commitRetentionMaxBytes f) (f_retainedCommitBytes f) nextPin.

(** The identifier of the pin, and the file with it. *)
Definition addReaderPinUnlocked (f : File) (sequence rootPage : Z) (replay : bool) : result Z * File :=
  let nextPin := to_u64 (f_nextPin f + 1) in
  if nextPin =? 0 then (Err ErrCorrupt, set_pins f (f_readers f) nextPin)
  else (Ok nextPin, set_pins f (<[nextPin := mk_readerPin (Generation (f_meta f)) sequence rootPage replay]> (f_readers f)) nextPin).

Definition removePin (f : File) (pinID : Z) : File := set_pins f (base.delete pinID (f_readers f)) (f_nextPin f).

(** Whether history after a sequence is retained. *)
Definition historyAfter (root : DatabaseRoot) (after : Z) : result unit :=
  if root_CommitSequence root <? after then Err ErrCorrupt
  else if (after <? root_CommitSequence root) && ((after =? maxUint64) || (to_u64 (after + 1) <? root_OldestRetainedSequence root))
  then Err ErrHistoryLost
  else Ok tt.

(** ** Finite cursors *)

Record CommitCursor := mk_CommitCursor {
  cc_pinID : Z;
  cc_rootPage : Z;
  cc_after : Z;
  cc_through : Z;
  cc_closed : bool }.

Definition OpenCommitCursor (f : File) (after : Z) : result CommitCursor * File :=
  let root := f_root f in
  match historyAfter root after with
  | Err e => (Err e, f)
  | Ok _ =>
      match addReaderPinUnlocked f (root_CommitSequence root) (RootPage (f_meta f)) false with
      | (Err e, f) => (Err e, f)
      | (Ok pinID, f) => (Ok (mk_CommitCursor pinID (root_CommitLogRoot root) after (root_CommitSequence root) false), f)
      end
  end.

(** The batch, or [None] at the end. *)
Definition CommitCursor_Next (fuel : nat) (f : File) (cursor : CommitCursor) : result (option CommitBatch) * CommitCursor :=
  if cc_closed cursor then (Err ErrCursorClosed, cursor)
  else if cc_through cursor <=? cc_after cursor then (Ok None, cursor)
  else
    let sequence := to_u64 (cc_after cursor + 1) in
    match readCommitUnlocked fuel f (cc_rootPage cursor) sequence with
    | Err e => (Err e, cursor)
    | Ok batch => (Ok (Some batch), mk_CommitCursor (cc_pinID cursor) (cc_rootPage cursor) sequence (cc_through cursor) false)
    end.

Definition CommitCursor_Close (f : File) (cursor : CommitCursor) : File * CommitCursor :=
  if cc_closed cursor then (f, cursor)
  else (removePin f (cc_pinID cursor), mk_CommitCursor (cc_pinID cursor) (cc_rootPage cursor) (cc_after cursor) (cc_through cursor) true).

(** ** Snapshots and live streams *)

Record ReadSnapshot := mk_ReadSnapshot {
  rs_pinID : Z;
  rs_root : DatabaseRoot;
  rs_closed : bool }.

Record LiveCommitStream := mk_LiveCommitStream {
  ls_pinID : Z;
  ls_after : Z;
  ls_deliveredSequence : Z;
  ls_closed : bool }.

Definition OpenSnapshot (f : File) : result ReadSnapshot * File :=
  match addReaderPinUnlocked f (root_CommitSequence (f_root f)) (RootPage (f_meta f)) false with
  | (Err e, f) => (Err e, f)
  | (Ok pinID, f) => (Ok (mk_ReadSnapshot pinID (f_root f) false), f)
  end.

Definition OpenLiveCommitStream (f : File) (after : Z) : result LiveCommitStream * File :=
  match historyAfter (f_root f) after with
  | Err e => (Err e, f)
  | Ok _ =>
      match addReaderPinUnlocked f after (RootPage (f_meta f)) true with
      | (Err e, f) => (Err e, f)
      | (Ok pinID, f) => (Ok (mk_LiveCommitStream pinID after 0 false), f)
      end
  end.

(** The two pins of a snapshot and of the stream that starts after it. *)
Definition pinSnapshotAndStream (f : File) (root : DatabaseRoot) (sequence : Z) : result (ReadSnapshot * LiveCommitStream) * File :=
  match addReaderPinUnlocked f sequence (RootPage (f_meta f)) false with
  | (Err e, f) => (Err e, f)
  | (Ok snapshotPin, f) =>
      match addReaderPinUnlocked f sequence (RootPage (f_meta f)) true with
      | (Err e, f) => (Err e, removePin f snapshotPin)
      | (Ok streamPin, f) => (Ok (mk_ReadSnapshot snapshotPin root false, mk_LiveCommitStream streamPin sequence 0 false), f)
      end
  end.

Definition OpenSnapshotAndStream (f : File) : result (ReadSnapshot * LiveCommitStream) * File :=
  pinSnapshotAndStream f (f_root f) (root_CommitSequence (f_root f)).

Definition set_sequences (root : DatabaseRoot) (sequence catalogRoot oldest : Z) : DatabaseRoot :=
  {| root_CommitSequence := sequence; root_CatalogRoot := catalogRoot; root_CommitLogRoot := 0; root_FreeSpaceRoot := 0;
     root_OldestRetainedSequence := oldest; root_CatalogGeneration := 0; root_DocumentCount := 0; root_CollectionCount := 0;
     root_IndexBuildCatalogRoot := 0 |}.

Definition historicalRootUnlocked (fuel : nat) (f : File) (current : DatabaseRoot) (sequence : Z) : result DatabaseRoot :=
  if root_CommitSequence current <? sequence then Err ErrCorrupt
  else if sequence =? root_CommitSequence current then Ok current
  else if sequence =? 0 then
    if 1 <? root_OldestRetainedSequence current then Err ErrHistoryLost else Ok (set_sequences current 0 0 0)
  else if (root_OldestRetainedSequence current =? 0) || (sequence <? root_OldestRetainedSequence current) then Err ErrHistoryLost
  else
    let* batch := readCommitUnlocked fuel f (root_CommitLogRoot current) sequence in
    Ok (set_sequences current sequence (bt_CatalogRoot batch) (root_OldestRetainedSequence current)).

Definition OpenSnapshotAndStreamAt (fuel : nat) (f : File) (sequence : Z) : result (ReadSnapshot * LiveCommitStream) * File :=
  match historicalRootUnlocked fuel f (f_root f) sequence with
  | Err e => (Err e, f)
  | Ok historical => pinSnapshotAndStream f historical sequence
  end.

(** What one pass of the loop of [Next] comes to. *)
Inductive delivery :=
| Delivered (batch : CommitBatch)
| Waiting
| Failed (e : gerror).

Definition LiveCommitStream_Next (fuel : nat) (f : File) (stream : LiveCommitStream) : delivery * File * LiveCommitStream :=
  if ls_closed stream then (Failed ErrCursorClosed, f, stream)
  else
    let root := f_root f in
    let after := ls_after stream in
    if (after <? root_CommitSequence root) && ((after =? maxUint64) || (to_u64 (after + 1) <? root_OldestRetainedSequence root))
    then (Failed ErrHistoryLost, f, stream)
    else if after <? root_CommitSequence root then
      let sequence := to_u64 (after + 1) in
      match readCommitUnlocked fuel f (root_CommitLogRoot root) sequence with
      | Err e => (Failed e, f, stream)
      | Ok batch =>
          let stream := mk_LiveCommitStream (ls_pinID stream) sequence sequence false in
          match f_readers f !! ls_pinID stream with
          | None => (Failed ErrCorrupt, f, stream)
          | Some pin =>
              let pin := mk_readerPin (Generation (f_meta f)) sequence (RootPage (f_meta f)) (pin_replay pin) in
              (Delivered batch, set_pins f (<[ls_pinID stream := pin]> (f_readers f)) (f_nextPin f), stream)
          end
      end
    else (Waiting, f, stream).

Definition LiveCommitStream_Close (f : File) (stream : LiveCommitStream) : File * LiveCommitStream :=
  if ls_closed stream then (f, stream)
  else (removePin f (ls_pinID stream), mk_LiveCommitStream (ls_pinID stream) (ls_after stream) (ls_deliveredSequence stream) true).

(** A commit of the log through a snapshot. *)
Definition ReadSnapshot_ReadCommit (fuel : nat) (f : File) (snapshot : ReadSnapshot) (sequence : Z) : result CommitBatch :=
  if sequence =? 0 then Err ErrCorrupt
  else if rs_closed snapshot then Err ErrCursorClosed
  else if (root_CommitSequence (rs_root snapshot) <? sequence) || (sequence <? root_OldestRetainedSequence (rs_root snapshot))
  then Err ErrHistoryLost
  else readCommitUnlocked fuel f (root_CommitLogRoot (rs_root snapshot)) sequence.

Definition ReadSnapshot_Close (f : File) (snapshot : ReadSnapshot) : File * ReadSnapshot :=
  if rs_closed snapshot then (f, snapshot)
  else (removePin f (rs_pinID snapshot), mk_ReadSnapshot (rs_pinID snapshot) (rs_root snapshot) true).

(** ** Removing history on request *)

(** The loop over the commits before [keepFrom]. *)
Fixpoint removeCommits (turns : nat) (fuel : nat) (tx : WriteTxn) (tree : nodeRef) (retained retainedBytes : Z) : result (nodeRef * Z) :=
  match turns with
  | O => Ok (tree, retainedBytes)
  | S turns =>
      let* (tree, retainedBytes) := removeCommit fuel tx tree retained retainedBytes in
      removeCommits turns fuel tx tree (retained + 1) retainedBytes
  end.

(** The callback of [RetainCommitsFrom]. *)
Definition retainCommitsFrom (fuel : nat) (keepFrom : Z) (transactionID : bytes) (committedAt : Z) : builder := fun tx =>
  let base := tx_baseRoot tx in
  if (root_CommitSequence base =? 0) || (root_OldestRetainedSequence base =? 0) || (keepFrom <? root_OldestRetainedSequence base)
     || (to_u64 (root_CommitSequence base + 1) <? keepFrom) then Err ErrCorrupt
  else if existsb (fun pin => pin_replay pin && (pin_sequence pin <? keepFrom) && (1 <? keepFrom - pin_sequence pin))
            (map_to_list (f_readers (tx_file tx))).*2 then Err ErrHistoryPinned
  else
    let* tree := OpenTree tx TreeCommitLog (root_CommitLogRoot base) in
    let* (tree, retainedBytes) := removeCommits (Z.to_nat (keepFrom - root_OldestRetainedSequence base)) fuel tx tree
                                    (root_OldestRetainedSequence base) (tx_retainedCommitBytes tx) in
    let tx := set_retention tx (tx_retentionEvaluated tx) retainedBytes in
    let batch := mk_CommitBatch (tx_sequence tx) transactionID committedAt (root_CatalogRoot base)
                   [mk_CommitChange (2 ^ 32 - 1) [] (zeros 16) CommitCatalog [bs "_system.retention"] [] (le_enc 8 keepFrom) None None] in
    let* (addedBytes, tree, tx) := appendCommitToTree fuel tx tree batch in
    if maxUint64 - tx_retainedCommitBytes tx <? addedBytes then Err ErrCorrupt
    else
      let tx := set_retention tx (tx_retentionEvaluated tx) (tx_retainedCommitBytes tx + addedBytes) in
      let* (tree, keepFrom, tx) := pruneCommitTree fuel tx tree keepFrom (tx_sequence tx) in
      let* (commitLogRoot, tx) := Flush TreeCommitLog tx tree in
      Ok ({| root_CommitSequence := tx_sequence tx; root_CatalogRoot := root_CatalogRoot base; root_CommitLogRoot := commitLogRoot;
             root_FreeSpaceRoot := root_FreeSpaceRoot base; root_OldestRetainedSequence := keepFrom;
             root_CatalogGeneration := root_CatalogGeneration base; root_DocumentCount := root_DocumentCount base;
             root_CollectionCount := root_CollectionCount base; root_IndexBuildCatalogRoot := 0 |}, tx).

Definition RetainCommitsFrom (io : nat -> bool) (fuel : nat) (f : File) (keepFrom : Z) (transactionID : bytes) (committedAt : Z)
    : option gerror * File * list event :=
  if all_zero transactionID then (Some ErrCorrupt, f, [])
  else updateUnlockedAdvance io f 1 (retainCommitsFrom fuel keepFrom transactionID committedAt).
