(* ===== verification/Replication.v ===== *)
(** * Replicated commits without public changes

    [ApplyReplicationNoop] of [internal/storage/replication.go]: the shortest
    update that appends a batch to the commit log. *)
From stdpp Require Import gmap.
From S2P Require Import Prelude Bytes Strings Layout Hashes PageFormat Entries NodeCodec CowTree.
From S2P Require Import TreeShape TreeInvariant TreeRep TreeDelete TreeScan Tree Flush FileStore Recovery Commit.
From S2P Require Import Atomicity TreeRead Snapshots Transactions Records StoredValues SystemRecords.
From S2P Require Import CommitCodec IndexBuilds CommitLog CommitHistory SnapshotReads.
#[local] Open Scope Z_scope.

(** The root of a commit that only appends to the log. *)
Definition advanced_root (base : DatabaseRoot) (sequence commitLogRoot oldest : Z) : DatabaseRoot :=
  {| root_CommitSequence := sequence; root_CatalogRoot := root_CatalogRoot base; root_CommitLogRoot := commitLogRoot;
     root_FreeSpaceRoot := root_FreeSpaceRoot base; root_OldestRetainedSequence := oldest;
     root_CatalogGeneration := root_CatalogGeneration base; root_DocumentCount := root_DocumentCount base;
     root_CollectionCount := root_CollectionCount base; root_IndexBuildCatalogRoot := root_IndexBuildCatalogRoot base |}.

Definition noopChange : CommitChange :=
  mk_CommitChange (2 ^ 32 - 1) [] (zeros 16) CommitCatalog [bs "_replication.noop"] [] [] None None.

Definition noopBatch (sequence catalogRoot : Z) (transactionID : bytes) (committedAt : Z) : CommitBatch :=
  mk_CommitBatch sequence transactionID committedAt catalogRoot [noopChange].

Definition replicationNoop (fuel : nat) (transactionID : bytes) (committedAt : Z) : builder := fun tx =>
  let base := tx_baseRoot tx in
  if root_CommitSequence base =? maxUint64 then Err ErrCorrupt
  else
    let* (commitLogRoot, oldest, tx') :=
      AppendCommitRetained fuel tx (root_CommitLogRoot base) (root_OldestRetainedSequence base)
        (noopBatch (tx_sequence tx) (root_CatalogRoot base) transactionID committedAt) in
    Ok (advanced_root base (tx_sequence tx) commitLogRoot oldest, tx').

(** The error or the sequence of the commit, and the file. The caller gives the
    time; a zero time is replaced by the clock's. *)
Definition ApplyReplicationNoop (io : nat -> bool) (fuel : nat) (f : File) (transactionID : bytes) (committedAt : Z)
    : result Z * File * list event :=
  if all_zero transactionID then (Err ErrCorrupt, f, [])
  else
    let '(outcome, f', trace) := updateUnlockedAdvance io f 1 (replicationNoop fuel transactionID committedAt) in
    match outcome with
    | Some e => (Err e, f', trace)
    | None => (Ok (CommitSequence (f_meta f')), f', trace)
    end.

(** ** Updates that end with an append *)

Section Append.
Variables (f : File) (h hb : nat) (first : Z) (bs : list (CommitBatch * list bytes)) (fuel : nat) (b : CommitBatch).
Hypothesis Hlogged : logged f h hb first bs.
Hypothesis Hbuilds : (hb < fuel)%nat.
Hypothesis Hfuel : (log_height h bs b + 2 < fuel)%nat.
Hypothesis Hentries : Z.of_nat (log_entries bs) + zlen (bt_Changes b) + 1 < 2 ^ 64.

(** The append of a transaction that did anything else before. *)
Lemma append_retained tx tx0 :
  beginUpdate f 1 = Ok tx -> quiet tx tx0 -> appendable tx0 b ->
  exists l, retains fuel tx0 (log_height h bs b) first bs l b
    (AppendCommitRetained fuel tx0 (root_CommitLogRoot (tx_baseRoot tx)) (root_OldestRetainedSequence (tx_baseRoot tx)) b).
Proof.
  intros Hbegin [Hm0 Hfl0] Hap. destruct Hlogged as [Hf H0 Hold Hseq (l & Hk & Hh) Hby Hcat (builds & Hkb) Hpins].
  destruct (begin_written f 1 tx Hf ltac:(lia) Hbegin) as (Hw & Hfile & Hbase & _ & Hts & _).
  destruct (begin_fields f 1 tx Hbegin) as (Hrb & Hicc & Hre). injection Hfl0 as Hev0 Hret0 Hib0.
  pose proof (mv_same _ _ Hm0) as [Hsf Hsb _ Hsq _]. pose proof (moves_carries _ _ Hm0) as Hc0.
  assert (Hc01 : carries (snapshot f) tx0) by (eapply carries_trans; [split; [by eapply begin_extends|]|exact Hc0];
    destruct (begin_written f 1 tx Hf ltac:(lia) Hbegin) as (_ & _ & _ & _ & _ & _ & ->); done).
  pose proof (history_entries _ _ _ _ Hh) as Hlen. unfold log_height in *. exists l.
  replace (h + log_entries bs)%nat with (h + length l)%nat by lia.
  apply (AppendCommitRetained_spec fuel tx0 _ _ b l h first bs hb builds); rewrite ?Hsb, ?Hsf, ?Hbase, ?Hfile; try done.
  - apply Hm0.
  - by eapply held_carries.
  - by eapply history_carries.
  - lia.
  - congruence.
  - unfold zlen at 1. lia.
  - lia.
  - by eapply held_carries.
Qed.

Lemma append_moves tx tx0 root keep tx' :
  beginUpdate f 1 = Ok tx -> quiet tx tx0 -> appendable tx0 b ->
  AppendCommitRetained fuel tx0 (root_CommitLogRoot (tx_baseRoot tx)) (root_OldestRetainedSequence (tx_baseRoot tx)) b = Ok (root, keep, tx') ->
  moves tx tx' /\ 2 <= root < tx_nextPage tx' /\ 0 < keep < 2 ^ 64.
Proof.
  intros Hbegin Hq Hap Ha. destruct (append_retained tx tx0 Hbegin Hq Hap) as [l Hr]. rewrite Ha in Hr.
  destruct Hr as (Hm & _ & _ & Hroot & changes & encoded & removed & rest & limit & l' & _ & _ & Hkeep & Hle & _).
  destruct Hq as [Hm0 _]. split; [by eapply moves_trans|]. split; [done|]. pose proof (lg_first _ _ _ _ _ Hlogged).
  pose proof (zlen_nonneg removed). pose proof (ap_sequence _ _ Hap). destruct (w_ok _ _ (mv_written _ _ Hm0)) as [_ _ _ _ Hsq _ _ _ _]. unfold u64 in *. lia.
Qed.

Lemma advanced_root_ok tx root keep tx' :
  beginUpdate f 1 = Ok tx -> moves tx tx' -> 2 <= root < tx_nextPage tx' -> 0 < keep < 2 ^ 64 ->
  let r := advanced_root (tx_baseRoot tx) (tx_sequence tx) root keep in
  root_ok r /\ Forall (fun p => reference_ok (tx_nextPage tx') p = true) (root_references r).
Proof.
  clear Hbuilds Hfuel Hentries. intros Hbegin Hm Hroot Hkeep. pose proof (lg_file _ _ _ _ _ Hlogged) as Hf.
  destruct (begin_written f 1 tx Hf ltac:(lia) Hbegin) as (Hw & _ & Hbase & _ & _ & _ & Hnext). cbn zeta. rewrite Hbase.
  pose proof (w_ok _ _ (mv_written _ _ Hm)) as Hok. pose proof (mv_same _ _ Hm) as Hs. split.
  - destruct (current_root f Hf) as (_ & H1 & H2 & H3 & H4 & H5 & H6 & H7 & H8).
    destruct Hok as [_ _ Hwd _ Hsq _ _ _ _]. rewrite (same_sequence _ _ Hs) in Hsq. unfold root_ok, u64 in *. cbn. lia.
  - assert (Hin : forall p, p ∈ root_references (f_root f) -> reference_ok (tx_nextPage tx') p = true).
    { intros p Hin. eapply reference_mono; [|by apply base_references]. rewrite <- Hnext. apply Hs. }
    unfold root_references in *. cbn. repeat constructor.
    + apply Hin. by left.
    + unfold reference_ok. apply orb_true_iff. right. bgoal; lia.
    + apply Hin. do 2 right. by left.
    + apply Hin. do 3 right. by left.
Qed.
End Append.

Lemma noopChange_ok : change_ok noopChange.
Proof. split; [unfold u32; cbn; lia|]. split; [reflexivity|]. split; unfold u64; cbn; lia. Qed.

(** The update appends its batch to any log. *)
Lemma replicationNoop_built f h hb first bs fuel transactionID committedAt :
  logged f h hb first bs -> (hb < fuel)%nat -> (h + log_entries bs + 6 < fuel)%nat -> Z.of_nat (log_entries bs) + 2 < 2 ^ 64 ->
  zlen transactionID = 16 -> -2 ^ 63 <= committedAt < 2 ^ 63 -> catalog_kept (snapshot f) (root_CatalogRoot (f_root f)) ->
  built f 1 (replicationNoop fuel transactionID committedAt)
    (logs fuel h bs (noopBatch (CommitSequence (f_meta f) + 1) (root_CatalogRoot (f_root f)) transactionID committedAt)).
Proof.
  intros Hl Hhb Hfu Hen Hid Hat Hck tx Hbegin. unfold replicationNoop. pose proof (lg_file _ _ _ _ _ Hl) as Hf.
  destruct (begin_written f 1 tx Hf ltac:(lia) Hbegin) as (Hw & Hfile & Hbase & _ & Hts & _ & Hnext).
  destruct (_ =? _); [done|]. rewrite Hbase, Hts. set (b := noopBatch _ _ _ _).
  assert (Hlh : (log_height h bs b + 2 < fuel)%nat) by (unfold log_height; cbn; lia).
  assert (Hle : Z.of_nat (log_entries bs) + zlen (bt_Changes b) + 1 < 2 ^ 64) by (change (zlen (bt_Changes b)) with 1; lia).
  assert (Hap : appendable tx b).
  { constructor; cbn; try done. apply (current_root f Hf). constructor; [apply noopChange_ok|constructor]. }
  rewrite <- Hbase. destruct (AppendCommitRetained fuel tx _ _ b) as [[[root keep] tx']|] eqn:Ha; [|done]. cbn [rbind].
    destruct (append_moves f h hb first bs fuel b Hl Hhb Hlh Hle tx tx root keep tx' Hbegin (quiet_refl tx Hw) Hap Ha) as (Hm & Hr & Hk).
  destruct (advanced_root_ok f h hb first bs Hl tx root keep tx' Hbegin Hm Hr Hk) as [H1 H2]. rewrite <- Hts.
  split; [done|]. split; [done|]. split; [done|]. exists tx. split; [by apply quiet_refl|]. split; [done|].
  split; [|by split]. eapply catalog_kept_carries; [|exact Hck]. split; [by eapply begin_extends|by rewrite Hnext].
Qed.
