(* ===== verification/DocumentTransactions.v ===== *)
(** * Document transactions refine transactions of the map

    The whole of [applyDocumentSystemTransactionInWriteTxn] against
    [Collections.transact]: preconditions, private records, the batch of the
    commit log, and the root of the new version. *)
From stdpp Require Import gmap.
From S2P Require Import Prelude Bytes Strings Layout Hashes PageFormat Entries NodeCodec CowTree.
From S2P Require Import TreeShape TreeInvariant TreeRep TreeDelete TreeScan Tree Flush FileStore Recovery Commit.
From S2P Require Import Atomicity TreeRead Snapshots Transactions Records StoredValues SystemRecords SystemStore.
From S2P Require Import CommitCodec IndexRecords DocumentRecords IndexWrite IndexBuilds CommitLog DocumentWrite Collections.
From S2P Require Import DocumentSteps DocumentPublish CommitHistory SnapshotReads Replication.
#[local] Open Scope Z_scope.

Section Preconditions.
Variables (K : bytes -> Prop) (fuel : nat) (tx : WriteTxn) (h hc : nat) (catalog : nodeRef) (l : list KeyValue) (db : database).
Hypothesis Hw : written [] tx.
Hypothesis Hc : live tx TreeCatalog hc catalog l.
Hypothesis Hat : catalog_at K tx h l db.
Hypothesis Hfuel : (hc < fuel)%nat.
Hypothesis Hh : (h < fuel)%nat.

Lemma validateCollectionPreconditions_exact ps : forall seen,
  validateCollectionPreconditions fuel tx catalog seen ps = check_collections db seen ps.
Proof using Hc Hat Hfuel.
  induction ps as [|p ps IH]; intros seen; cbn [validateCollectionPreconditions check_collections]; [done|].
  destruct (negb (validCollectionName (kp_Collection p)) || _ || _) eqn:E; [done|]. destruct (existsb _ _); [done|].
  assert (Hv : validCollectionName (kp_Collection p) = true) by (clear -E; breflect; done).
  rewrite (get_live tx hc catalog l _ fuel Hc Hfuel). cbn [rbind]. rewrite IH.
  pose proof (catalog_field K tx h l db (kp_Collection p) Hat (live_sorted _ _ _ _ Hc) Hv) as Hf.
  destruct (field l (kp_Collection p)) as [e|], (field (db_collections db) (kp_Collection p)) as [c|]; try done.
  - destruct (kp_ExpectedExists p); cbn [negb andb]; [|done]. destruct Hf as (_ & _ & meta & -> & [D1 _ D3 _ _] & _). cbn [rbind].
    rewrite D1, D3. by destruct (co_ID c =? _), (co_updated c =? _).
  - by destruct (kp_ExpectedExists p).
Qed.

(** The trees kept from one precondition to the next. *)
Definition opened_trees (primary : list (bytes * nodeRef)) : Prop :=
  forall name tree, field primary name = Some tree ->
    exists c ds, field (db_collections db) name = Some c /\ live tx TreePrimary h tree ds /\ linked (document_record tx) ds (co_documents c).

Lemma preconditionTree_spec primary name :
  opened_trees primary -> validCollectionName name = true ->
  match preconditionTree fuel tx catalog primary name with
  | Ok (Some tree) => exists c ds, field (db_collections db) name = Some c /\ live tx TreePrimary h tree ds /\ linked (document_record tx) ds (co_documents c)
  | Ok None => field (db_collections db) name = None
  | Err _ => False
  end.
Proof using Hw Hc Hat Hfuel.
  intros Hp Hv. unfold preconditionTree. destruct (field primary name) as [tree|] eqn:Ep; [by apply Hp|].
  rewrite (get_live tx hc catalog l _ fuel Hc Hfuel). cbn [rbind].
  pose proof (catalog_field K tx h l db name Hat (live_sorted _ _ _ _ Hc) Hv) as Hf.
  destruct (field l name) as [e|], (field (db_collections db) name) as [c|]; try done.
  destruct Hf as (_ & _ & meta & -> & _ & (ds & Hk & Hl) & _). cbn [rbind]. destruct (open_live tx h _ ds Hw Hk) as (tree & -> & Ht). cbn [rbind]. eauto.
Qed.

Lemma validateDocumentPreconditions_exact ps : forall seen primary,
  opened_trees primary -> validateDocumentPreconditions fuel tx catalog seen primary ps = check_documents db seen ps.
Proof using Hw Hc Hat Hfuel Hh.
  induction ps as [|p ps IH]; intros seen primary Hp; cbn [validateDocumentPreconditions check_documents]; [done|].
  destruct (negb (validCollectionName (dp_Collection p)) || _ || _) eqn:E; [done|]. destruct (existsb _ _); [done|].
  assert (Hv : validCollectionName (dp_Collection p) = true) by (clear -E; breflect; done).
  pose proof (preconditionTree_spec primary (dp_Collection p) Hp Hv) as Ht. unfold document_of.
  destruct (preconditionTree fuel tx catalog primary (dp_Collection p)) as [[tree|]|]; cbn [rbind]; [| |done].
  - destruct Ht as (c & ds & Hf & Hl & Hd). rewrite Hf.
    assert (Hp' : opened_trees (ins (dp_Collection p) tree primary)).
    { intros n t. rewrite field_ins. destruct (beqb n (dp_Collection p)) eqn:En; [apply beqb_eq in En as ->; intros [= <-]; eauto|apply Hp]. }
    rewrite (IH _ _ Hp'). rewrite (get_live tx h tree ds _ fuel Hl Hh). cbn [rbind].
    pose proof (linked_field _ _ _ (dp_DocumentID p) Hd) as Hfd.
    destruct (field ds (dp_DocumentID p)) as [stored|], (field (co_documents c) (dp_DocumentID p)) as [[q d]|]; try done; cbn [fmap option_fmap option_map snd].
    + destruct (dp_ExpectedExists p); cbn [negb andb]; [|done]. destruct (load_document_record tx stored (q, d) (w_ok _ _ Hw) Hfd) as [_ ->]. cbn [rbind].
      by destruct (beqb _ _).
    + by destruct (dp_ExpectedExists p).
  - rewrite Ht, (IH _ _ Hp). by destruct (dp_ExpectedExists p).
Qed.
End Preconditions.

(** ** Private records *)

Lemma applySystemRecords_spec K fuel ms : forall tx catalog hc h l cs recs,
  written [] tx -> live tx TreeCatalog hc catalog l -> catalog_at K tx h l (mk_database cs recs) ->
  zlen l + zlen ms < 2 ^ 64 -> zlen recs + zlen ms < 2 ^ 64 -> (hc + length ms < fuel)%nat -> (h + length ms < fuel)%nat ->
  match applySystemRecords fuel tx catalog ms with
  | Ok (Applied catalog' tx') => exists recs', change_records recs ms = Ok (inr recs') /\ quiet tx tx' /\
      exists l', live tx' TreeCatalog (hc + length ms) catalog' l' /\ zlen l' <= zlen l + zlen ms /\
        catalog_at K tx' (h + length ms) l' (mk_database cs recs')
  | Ok (Mismatched current) => change_records recs ms = Ok (inl current)
  | Err e => change_records recs ms = Err e \/ resource e \/ e = ErrCorrupt /\ ms <> []
  end.
Proof.
  induction ms as [|m ms IH]; intros tx catalog hc h l cs recs Hw Hc Hat Hzl Hzr Hfc Hf; cbn [applySystemRecords change_records].
  { exists recs. split; [done|]. split; [by apply quiet_refl|]. exists l. cbn [length]. rewrite !Nat.add_0_r. change (zlen []) with 0 in *.
    split; [done|]. split; [lia|done]. }
  rewrite zlen_cons in *. cbn [length] in *. pose proof (zlen_nonneg ms). pose proof Hat as (Hl & Hs & Hn). cbn [db_records db_collections] in *.
  pose proof (applySystemRecordMutation_spec fuel tx catalog l hc h recs m Hw Hc Hs ltac:(lia) ltac:(lia) ltac:(lia) ltac:(lia)) as Hm.
  unfold mutated in Hm. destruct (negb (validSystemRecordMutation m)); [rewrite Hm; by left|].
  destruct (negb (matches_expected m _)); [rewrite Hm; done|]. destruct (sm_Delete m && _); [rewrite Hm; by left|].
  destruct (applySystemRecordMutation fuel tx catalog m) as [[current|catalog1 tx1]|e]; cbn [rbind]; [done| |].
  2: { right. unfold resource. destruct Hm as [-> |[-> | ->]]; [auto|auto|by right]. }
  destruct Hm as (Hq & encoded & _ & Hc1 & Hs1). pose proof (live_sorted _ _ _ _ Hc) as Hsl. pose proof (system_at_sorted _ _ _ _ Hs) as Hsr.
  pose proof (zlen_ins_at_most systemCatalogKey encoded l) as Hzi. pose proof (zlen_changed m recs Hsr) as Hzc.
  assert (Hat1 : catalog_at K tx1 (S h) (ins systemCatalogKey encoded l) (mk_database cs (changed m recs))).
  { split; [|split; [by rewrite field_ins, beqb_refl|done]]. cbn [db_collections].
    assert (del systemCatalogKey (ins systemCatalogKey encoded l) = del systemCatalogKey l) as ->.
    { apply sorted_ext; [by apply sorted_del, sorted_ins|by apply sorted_del|]. intros k.
      rewrite !field_del, field_ins by (done || by apply sorted_ins). by destruct (beqb k systemCatalogKey). }
    eapply linked_impl; [|exact Hl]. intros e c Hec. eapply collection_at_mono; [|eapply collection_at_continues; [apply continues_moves, Hq|exact Hec]]. lia. }
  specialize (IH tx1 catalog1 (S hc) (S h) _ cs _ (mv_written _ _ (proj1 Hq)) Hc1 Hat1 ltac:(lia) ltac:(lia) ltac:(lia) ltac:(lia)).
  destruct (applySystemRecords fuel tx1 catalog1 ms) as [[current|catalog' tx']|e]; [done| |].
  - destruct IH as (recs' & Hr & Hq' & l' & Hl' & Hz' & Hat'). exists recs'. split; [done|]. split; [by eapply quiet_trans|]. exists l'.
    replace (hc + S (length ms))%nat with (S hc + length ms)%nat by lia. replace (h + S (length ms))%nat with (S h + length ms)%nat by lia.
    split; [done|]. split; [lia|done].
  - destruct IH as [?|[?|[? _]]]; [by left|by right; left|by right; right].
Qed.

(** ** The collections *)

(** The index entries a transaction replaces, and the steps that may make trees
    grow. *)
Definition index_work (t : DocumentTransaction) : nat := sum_list_with (fun m => length (dm_Indexes m)) (dt_Mutations t).
Definition growth_steps (t : DocumentTransaction) : nat := (length (dt_Mutations t) + 2 * index_work t)%nat.

Lemma finalChange_ok roots p : Forall (fun e => u64 e.2) roots -> change_ok (pd_change p) -> change_ok (finalChange roots p).
Proof.
  intros Hr (H1 & H2 & H3 & H4). unfold finalChange. destruct (_ =? _); [by split_and!|]. do 3 (split; [done|]). cbn.
  destruct (field roots (pd_collection p)) as [root|] eqn:E; [|done]. apply field_Some in E. rewrite Forall_forall in Hr. apply (Hr _ E).
Qed.

(** The document, the operation and the paths of a change, and of a mutation. *)
Definition change_summary (c : CommitChange) : bytes * Z * list bytes := (ch_DocumentID c, ch_Operation c, ch_ChangedPaths c).
Definition mutation_summary (m : DocumentMutation) : bytes * Z * list bytes := (dm_DocumentID m, dm_Operation m, dm_ChangedPaths m).

Lemma finalChange_summary roots p : change_summary (finalChange roots p) = change_summary (pd_change p).
Proof. unfold finalChange. by destruct (_ =? _). Qed.

Lemma applyMutation_pending fuel base catalog ws m ws' :
  applyMutation fuel base catalog ws m = Ok ws' -> exists p, ws_pending ws' = ws_pending ws ++ [p] /\ change_summary (pd_change p) = mutation_summary m.
Proof.
  unfold applyMutation. destruct (negb _); [done|]. destruct (existsb _ _); [done|]. intros Hm. inv_ok. destruct a as [st new]. inv_ok.
  destruct a2 as [[st' tx'] delta]. inv_ok. subst ws'. cbn. eauto.
Qed.

Lemma applyMutations_pending fuel base catalog ms ws ws' :
  applyMutations fuel base catalog ws ms = Ok ws' ->
  (fun p => change_summary (pd_change p)) <$> ws_pending ws' = ((fun p => change_summary (pd_change p)) <$> ws_pending ws) ++ (mutation_summary <$> ms).
Proof.
  revert ws; induction ms as [|m ms IH]; intros ws; cbn [applyMutations]; [intros <-%Ok_inj; by rewrite app_nil_r|]. intros Hm. inv_ok. rename a into ws1.
  destruct (applyMutation_pending _ _ _ _ _ _ Hok) as (p & Hp & Hs). rewrite (IH _ Hm), Hp, fmap_app, <- app_assoc. cbn. by rewrite Hs.
Qed.

(** The changes of a batch: the created collections, then the mutations. *)
Definition changes_of (t : DocumentTransaction) (changes : list CommitChange) : Prop :=
  exists created changed, changes = created ++ changed /\ Forall (fun c => ch_Operation c = CommitCatalog) created /\
    change_summary <$> changed = mutation_summary <$> dt_Mutations t.

Section Stage.
Variables (K : bytes -> Prop) (W fuel : nat) (tx : WriteTxn) (h : nat) (base : DatabaseRoot) (db : database) (t : DocumentTransaction).
Hypothesis Hw : written [] tx.
Hypothesis Hbase : database_at K tx h base db.
Hypothesis HK : prefix_free K.
Hypothesis Hlegal : Forall (legal_mutation K) (dt_Mutations t).
Hypothesis Hrooms : rooms W (Z.of_nat (growth_steps t)) (db_collections db).
Hypothesis Hsteps : Z.of_nat (growth_steps t) < 2 ^ 63.
Hypothesis HW : Z.of_nat W + 1 < 2 ^ 64.
Hypothesis Hsequence : 0 < tx_sequence tx.
Hypothesis Hfuel : (h + growth_steps t + W < fuel)%nat.

(** What the first part of the transaction leaves. *)
Definition staged_documents (r : nodeRef * list CommitChange * Z * Z * WriteTxn) (cs : list (bytes * collection)) : Prop :=
  let '(catalog, changes, new, delta, tx') := r in
  quiet tx tx' /\ Forall change_ok changes /\ changes_of t changes /\ zlen changes <= 2 * zlen (dt_Mutations t) /\
  zlen cs = zlen (db_collections db) + new /\ zlen cs <= maxUint32 /\ tally documents_in cs = total_documents db + delta /\ delta <= zlen (dt_Mutations t) /\
  exists l, live tx' TreeCatalog (h + length (dt_Mutations t)) catalog l /\ zlen l <= maxUint32 + 1 + zlen (dt_Mutations t) /\
    catalog_at K tx' (h + growth_steps t + W) l (mk_database cs (db_records db)).

Lemma catalog_sorted l cs h' : catalog_at K tx h' l cs -> sorted_keys l -> sorted_keys (db_collections cs) /\ zlen l <= zlen (db_collections cs) + 1.
Proof.
  intros (Hl & _) Hs. split; [eapply linked_sorted; [exact Hl|by apply sorted_del]|]. rewrite <- (linked_zlen _ _ _ Hl), length_del.
  destruct (field _ _); lia.
Qed.

Lemma catalog_documents l h' : catalog_at K tx h' l db -> sorted_documents (db_collections db).
Proof.
  intros (Hl & _). clear -Hl. induction Hl as [|[k e] [k' c] l' cs [_ Hc] _ IH]; [constructor|]. constructor; [|exact IH]. cbn in *.
  destruct Hc as (_ & _ & meta & _ & _ & (ds & Hk & Hld) & _). eapply linked_sorted; [exact Hld|]. by eapply held_sorted.
Qed.

Lemma start_writing l : catalog_at K tx h l db -> zlen (db_collections db) <= maxUint32 ->
  writing K tx db h (mk_writeState tx [] [] [] [] 0 0) (mk_work [] [] [] 0 0).
Proof using Hw. intros Hat Hz. clear -Hw Hz. constructor; cbn; first [done|lia|by apply quiet_refl|by constructor]. Qed.

Lemma stageDocuments_simulates :
  simulates staged_documents (stageDocuments fuel tx base t) (change_collections db (tx_sequence tx) t).
Proof.
  destruct Hbase as (l & Hk & Hat & Hcount & Hmax & Htotal). unfold stageDocuments, change_collections.
  destruct (open_live tx h _ l Hw Hk) as (catalog & -> & Hc). cbn [rbind]. unfold growth_steps in *.
  rewrite (validateCollectionPreconditions_exact K fuel tx h h catalog l db Hc Hat ltac:(lia)).
  destruct (check_collections _ _ _) as [[]|e]; cbn [rbind]; [|by left].
  rewrite (validateDocumentPreconditions_exact K fuel tx h h catalog l db Hw Hc Hat ltac:(lia) ltac:(lia)) by done.
  destruct (check_documents _ _ _) as [[]|e]; cbn [rbind]; [|by left].
  pose proof (live_sorted _ _ _ _ Hc) as Hsl. destruct (catalog_sorted l db h Hat Hsl) as [Hscs Hzl]. pose proof (zlen_nonneg (dt_Mutations t)).
  assert (Hzm : Z.of_nat (length (dt_Mutations t)) = zlen (dt_Mutations t)) by done.
  pose proof (applyMutations_simulates K W fuel tx base catalog h l db Hc Hat Hcount Hsequence ltac:(lia) (dt_Mutations t) _ _ h (2 * Z.of_nat (index_work t))
    (start_writing l Hat Hmax)) as Hmut.
  eapply simulates_bind; [apply Hmut; try lia; try done|].
  { split; [constructor|constructor]. }
  { eapply rooms_mono; [|exact Hrooms]. lia. }
  intros ws w Hws Hwk (Hwr & [Hr Hp] & Hlen). cbn [wk_pending length] in Hlen. change (0 + ?x)%nat with x in Hlen. fold (index_work t) in Hlen.
  destruct Hwr as [Hq Hst Hseen Hpend Hchg Hnew Hdelta Hcnt Hnames]. rewrite Hpend.
  pose proof (applyIndexMutations_simulates K W fuel (ws_tx ws) _ 0 _ _ (wk_pending w) HK Hst) as Hidx.
  eapply simulates_bind; [apply Hidx; try done; unfold zlen; rewrite ?Hlen; try lia|]; [by rewrite Z.add_0_l|].
  intros states open Hstates Hopen (Hl2 & Hr2 & Hnv2).
  destruct (published_counts db (tx_sequence tx) w open (dt_Mutations t) Hscs (catalog_documents l h Hat) Hwk Hopen) as (Hso & Hzo & Hzc & Htc).
  pose proof (proj1 Hq) as Hm. pose proof (same_sequence _ _ (mv_same _ _ Hm)) as Hsq.
  pose proof (publishCollections_spec K fuel W HW states open (ws_tx ws) catalog h l (db_collections db) (db_records db) _
    (h + (length (dt_Mutations t) + 2 * index_work t) + W) (mv_written _ _ Hm) Hl2 Hr2 Hnv2) as Hpub.
  rewrite Hlen in Hpub. unfold zlen in Hzo. unfold maxUint32 in *.
  specialize (Hpub ltac:(lia) ltac:(lia) ltac:(lia) ltac:(lia) (live_moves _ _ _ _ _ Hm Hc)).
  assert (Heta : mk_database (db_collections db) (db_records db) = db) by by destruct db. rewrite Heta in Hpub.
  pose proof (catalog_at_mono K (ws_tx ws) h (h + (length (dt_Mutations t) + 2 * index_work t) + W) l db ltac:(lia)
    (catalog_at_continues K _ _ _ _ _ (continues_moves _ _ Hm) Hat)) as Hat1. specialize (Hpub Hat1 ltac:(unfold zlen in *; lia)).
  destruct (publishCollections fuel (ws_tx ws) catalog states) as [[[[catalog' changes] roots] tx']|e]; cbn [rbind simulates]; [|by right].
  destruct Hpub as (Hq' & Hch & Hzch & Hroots & l' & Hl' & Hzl' & Hat'). eexists. split; [done|]. rewrite Hsq in Hat'.
  pose proof (applyMutations_pending _ _ _ _ _ _ Hws) as Hpn. cbn [ws_pending fmap list_fmap app] in Hpn.
  split; [by eapply quiet_trans|]. split; [|split; [|split; [|split; [|split; [|split; [|split]]]]]].
  - apply Forall_app. split; [by eapply Forall_impl; [exact Hch|]; intros c []|]. apply Forall_fmap. eapply Forall_impl; [exact Hchg|].
    intros p. by apply finalChange_ok.
  - exists changes, (finalChange roots <$> ws_pending ws). split; [done|]. split; [eapply Forall_impl; [exact Hch|]; by intros c []|].
    rewrite <- Hpn, <- list_fmap_compose. apply list_fmap_ext. intros i p _. apply finalChange_summary.
  - apply (f_equal length) in Hpn. rewrite !length_fmap in Hpn. rewrite zlen_app. unfold zlen at 2. rewrite length_fmap, Hpn. unfold zlen in *. lia.
  - by rewrite Hnew.
  - unfold maxUint32. lia.
  - by rewrite Hdelta.
  - rewrite Hdelta. apply (mutate_all_delta _ _ _ _ _ Hwk).
  - exists l'. split; [eapply live_mono; [|exact Hl']; lia|]. split; [unfold zlen, maxUint32 in *; lia|done].
Qed.
End Stage.

(** ** The transaction in an update *)

Record fits (K : bytes -> Prop) (W fuel : nat) (f : File) (h hl hb : nat) (bs : list (CommitBatch * list bytes)) (db : database)
    (t : DocumentTransaction) (recs : list SystemRecordMutation) : Prop := {
  ft_keys : prefix_free K;
  ft_legal : Forall (legal_mutation K) (dt_Mutations t);
  ft_id : zlen (dt_TransactionID t) = 16;
  ft_time : -2 ^ 63 <= dt_CommittedAt t < 2 ^ 63;
  ft_rooms : rooms W (Z.of_nat (growth_steps t)) (db_collections db);
  ft_steps : Z.of_nat (growth_steps t) + zlen recs < 2 ^ 62;
  ft_indexes : Z.of_nat W + 1 < 2 ^ 64;
  ft_records : zlen (db_records db) + zlen recs < 2 ^ 64;
  ft_documents : total_documents db + zlen (dt_Mutations t) < 2 ^ 64;
  ft_log : Z.of_nat (log_entries bs) + 2 * zlen (dt_Mutations t) + 1 < 2 ^ 64;
  ft_fuel : (h + growth_steps t + W + length recs < fuel)%nat;
  ft_log_fuel : (hl + log_entries bs + 4 * length (dt_Mutations t) + 4 < fuel)%nat;
  ft_builds : (hb < fuel)%nat }.

(** The height of the trees after the transaction. *)
Definition grown (W h : nat) (t : DocumentTransaction) (recs : list SystemRecordMutation) : nat := (h + growth_steps t + W + length recs)%nat.

(** The batch of the transaction. *)
Record batch_of (t : DocumentTransaction) (sequence : Z) (b : CommitBatch) : Prop := {
  bo_sequence : bt_Sequence b = sequence;
  bo_id : bt_TransactionID b = dt_TransactionID t;
  bo_time : bt_CommittedAt b = dt_CommittedAt t;
  bo_changes : changes_of t (bt_Changes b) }.

(** The log refuses the batch: it cannot be stored, its bytes cannot be counted, or
    the oldest batch still needed cannot be told. *)
Definition log_refuses (fuel : nat) (tx : WriteTxn) (first : Z) (bs : list (CommitBatch * list bytes)) (t : DocumentTransaction) : Prop :=
  exists tx0 b, quiet tx tx0 /\ batch_of t (tx_sequence tx) b /\
    (~ loggable tx0 b \/ too_long tx0 bs b \/ is_ok (pruneLimit fuel tx0 first (bt_Sequence b)) = false).

Section Transaction.
Variables (K : bytes -> Prop) (W fuel : nat) (f : File) (h hl hb : nat) (first : Z) (bs : list (CommitBatch * list bytes)).
Variables (db : database) (t : DocumentTransaction) (recs : list SystemRecordMutation).
Hypothesis Hlogged : logged f hl hb first bs.
Hypothesis Hdb : database_at K (snapshot f) h (f_root f) db.
Hypothesis Hfits : fits K W fuel f h hl hb bs db t recs.

Lemma begin_database tx :
  beginUpdate f 1 = Ok tx -> written [] tx /\ carries (snapshot f) tx /\ tx_sequence tx = CommitSequence (f_meta f) + 1 /\
    tx_baseRoot tx = f_root f /\ database_at K tx h (tx_baseRoot tx) db.
Proof using Hlogged Hdb.
  clear Hfits. intros Hbegin. pose proof (lg_file _ _ _ _ _ Hlogged) as Hf.
  destruct (begin_written f 1 tx Hf ltac:(lia) Hbegin) as (Hw & Hfile & Hbase & _ & Hts & _ & Hnext).
  assert (Hc : carries (snapshot f) tx) by (split; [by eapply begin_extends|by rewrite Hnext]).
  do 2 (split; [done|]). split; [done|]. split; [done|]. rewrite Hbase. eapply database_at_continues; [|exact Hdb].
  split; [done|]. rewrite (begin_features f 1 tx Hbegin), Hts. split; [done|]. cbn. lia.
Qed.

(** Before the batch is appended: the catalog of the new version is on its pages. *)
Definition filled (tx : WriteTxn) (db' : database) (catalogRoot : Z) (changes : list CommitChange) (new delta : Z) (tx0 : WriteTxn) : Prop :=
  transact db (tx_sequence tx) t recs = Ok (inr db') /\ quiet tx tx0 /\ 2 <= catalogRoot < tx_nextPage tx0 /\
  Forall change_ok changes /\ changes_of t changes /\ zlen changes <= 2 * zlen (dt_Mutations t) /\
  zlen (db_collections db') = zlen (db_collections db) + new /\ zlen (db_collections db') <= maxUint32 /\
  total_documents db' = total_documents db + delta /\ delta <= zlen (dt_Mutations t) /\
  exists l, held tx0 TreeCatalog (grown W h t recs) catalogRoot l /\ catalog_at K tx0 (grown W h t recs) l db'.

Lemma fill_catalog tx :
  beginUpdate f 1 = Ok tx ->
  match (let* (catalog, changes, new, delta, tx0) := stageDocuments fuel tx (tx_baseRoot tx) t in
         let* outcome := applySystemRecords fuel tx0 catalog recs in
         match outcome with
         | Mismatched current => Ok (inl current)
         | Applied catalog tx0 => let* (root, tx0) := Flush TreeCatalog tx0 catalog in Ok (inr (root, changes, new, delta, tx0))
         end) with
  | Ok (inr (catalogRoot, changes, new, delta, tx0)) => exists db', filled tx db' catalogRoot changes new delta tx0
  | Ok (inl current) => transact db (tx_sequence tx) t recs = Ok (inl current)
  | Err e => transact db (tx_sequence tx) t recs = Err e \/ resource e \/ e = ErrCorrupt /\ recs <> []
  end.
Proof.
  intros Hbegin. destruct (begin_database tx Hbegin) as (Hw & _ & Hts & _ & Hat). destruct Hfits. unfold transact.
  pose proof (stageDocuments_simulates K W fuel tx h (tx_baseRoot tx) db t Hw Hat ft_keys0 ft_legal0 ft_rooms0 ltac:(pose proof (zlen_nonneg recs); lia) ft_indexes0) as Hs.
  specialize (Hs ltac:(destruct (opens_meta _ _ _ _ (fo_opens _ (lg_file _ _ _ _ _ Hlogged))) as ((_ & _ & ? & _) & _); unfold u64 in *; lia) ltac:(lia)).
  destruct (stageDocuments fuel tx (tx_baseRoot tx) t) as [[[[[catalog changes] new] delta] tx1]|e]; cbn [rbind simulates] in *.
  2: { destruct Hs as [-> |?]; [by left|by right; left]. }
  destruct Hs as (cs & Ecs & Hq & Hch & Hof & Hz & Hzc & Hmax & Htot & Hdz & l & Hc & Hzl & Hcat). rewrite Ecs. cbn [rbind].
  assert (Hzm : zlen (dt_Mutations t) = Z.of_nat (length (dt_Mutations t))) by done. unfold growth_steps, maxUint32 in *.
  pose proof (applySystemRecords_spec K fuel recs tx1 catalog _ _ l cs (db_records db) (mv_written _ _ (proj1 Hq)) Hc Hcat ltac:(lia) ltac:(lia) ltac:(lia) ltac:(lia)) as Hr.
  destruct (applySystemRecords fuel tx1 catalog recs) as [[current|catalog' tx2]|e]; cbn [rbind].
  - by rewrite Hr.
  - destruct Hr as (recs' & Er & Hq2 & l' & Hl' & Hzl' & Hcat'). cbn [rbind].
    pose proof (flush_live (kind := TreeCatalog) tx2 _ catalog' l' (mv_written _ _ (proj1 Hq2)) Hl' ltac:(lia)) as Hfl.
    destruct (Flush TreeCatalog tx2 catalog') as [[root tx3]|e]; cbn [rbind]; [|right; left; by left]. destruct Hfl as (Hq3 & Hroot & _ & Hk).
    exists (mk_database cs recs'). split; [unfold transact; rewrite Ecs; cbn [rbind]; by rewrite Er|].
    split; [eapply quiet_trans; [exact Hq|]; by eapply quiet_trans|]. split; [done|]. do 3 (split; [done|]). cbn [db_collections].
    do 4 (split; [done|]). exists l'. unfold grown, growth_steps. split; [eapply held_mono; [|exact Hk]; lia|].
    eapply catalog_at_mono; [|eapply catalog_at_continues; [apply continues_moves, Hq3|exact Hcat']]. lia.
  - destruct Hr as [-> |?]; [by left|by right].
Qed.
(** What the callback promises of the new root. *)
Definition transacted (tx : WriteTxn) (root : DatabaseRoot) (tx' : WriteTxn) : Prop :=
  exists db' b, transact db (tx_sequence tx) t recs = Ok (inr db') /\ database_at K tx' (grown W h t recs) root db' /\
    batch_of t (tx_sequence tx) b /\ advances tx root tx' /\ logs fuel hl bs b tx root tx'.

Definition failure (tx : WriteTxn) (e : gerror) : Prop :=
  transact db (tx_sequence tx) t recs = Err e \/ resource e \/ e = ErrCorrupt /\ recs <> [] \/ log_refuses fuel tx first bs t.

(** Appending the batch of a filled catalog. *)
Lemma append_batch tx db' catalogRoot changes new delta tx0 :
  beginUpdate f 1 = Ok tx -> filled tx db' catalogRoot changes new delta tx0 ->
  let b := mk_CommitBatch (tx_sequence tx0) (dt_TransactionID t) (dt_CommittedAt t) catalogRoot changes in
  batch_of t (tx_sequence tx) b /\ appendable tx0 b /\ catalog_kept tx0 catalogRoot /\
  (log_height hl bs b + 2 < fuel)%nat /\
  Z.of_nat (log_entries bs) + zlen (bt_Changes b) + 1 < 2 ^ 64 /\
  match AppendCommitRetained fuel tx0 (root_CommitLogRoot (tx_baseRoot tx)) (root_OldestRetainedSequence (tx_baseRoot tx)) b with
  | Ok (root, keep, tx') => moves tx0 tx' /\ moves tx tx' /\ 2 <= root < tx_nextPage tx' /\ 0 < keep < 2 ^ 64 /\
      keep <= tx_sequence tx /\ tx_indexBuildCatalogChanged tx' = false
  | Err e => resource e \/ log_refuses fuel tx first bs t
  end.
Proof.
  intros Hbegin (Htr & Hq & Hroot & Hch & Hof & Hz & _ & _ & _ & _ & l & Hk & _) b. destruct Hfits.
  pose proof (proj1 Hq) as Hm. pose proof (same_sequence _ _ (mv_same _ _ Hm)) as Hsq.
  assert (Hb : batch_of t (tx_sequence tx) b) by (constructor; cbn; congruence || done).
  assert (Hzn : (length changes <= 2 * length (dt_Mutations t))%nat) by (unfold zlen in Hz; lia).
  assert (Hap : appendable tx0 b).
  { constructor; cbn; try done. destruct (w_ok _ _ (mv_written _ _ Hm)) as [_ _ Hnp _ _ _ _ _ _]. unfold u64 in *. lia. }
  assert (Hlh : (log_height hl bs b + 2 < fuel)%nat) by (unfold log_height; cbn; lia).
  assert (Hle : Z.of_nat (log_entries bs) + zlen (bt_Changes b) + 1 < 2 ^ 64) by (cbn; lia).
  split; [done|]. split; [done|]. split; [by exists (grown W h t recs), l|]. do 2 (split; [done|]).
  destruct (append_retained f hl hb first bs fuel b Hlogged ft_builds0 Hlh Hle tx tx0 Hbegin Hq Hap) as [l0 Hret].
  destruct (AppendCommitRetained fuel tx0 _ _ b) as [[[root keep] tx']|e] eqn:Ea.
  - destruct (append_moves f hl hb first bs fuel b Hlogged ft_builds0 Hlh Hle tx tx0 root keep tx' Hbegin Hq Hap Ea) as (? & ? & ?).
    destruct Hret as (Hm1 & _ & Hib & _ & ? & ? & ? & ? & ? & ? & _ & _ & _ & Hle2 & _). do 4 (split; [done|]).
    split; [cbn in Hle2; lia|]. destruct (begin_fields f 1 tx Hbegin) as (_ & Hib0 & _). destruct Hq as [_ Hfl]. injection Hfl as _ _ Hib1. congruence.
  - destruct Hret as [->|Hret]; [by left; left|]. right. exists tx0, b. by split.
Qed.

Lemma new_root_ok tx tx' catalogRoot logRoot keep generation documents collections :
  beginUpdate f 1 = Ok tx -> moves tx tx' -> 2 <= catalogRoot < tx_nextPage tx' -> 2 <= logRoot < tx_nextPage tx' -> 0 < keep < 2 ^ 64 ->
  u64 generation -> u64 documents -> u64 collections ->
  let root := {| root_CommitSequence := tx_sequence tx'; root_CatalogRoot := catalogRoot; root_CommitLogRoot := logRoot; root_FreeSpaceRoot := 0;
                 root_OldestRetainedSequence := keep; root_CatalogGeneration := generation; root_DocumentCount := documents;
                 root_CollectionCount := collections; root_IndexBuildCatalogRoot := 0 |} in
  root_ok root /\ Forall (fun p => reference_ok (tx_nextPage tx') p = true) (root_references root).
Proof.
  clear. intros _ Hm Hc Hl Hk Hg Hd Hn root. destruct (w_ok _ _ (mv_written _ _ Hm)) as [_ _ Hnp _ Hsq _ _ _ _]. unfold u64 in *. split.
  - unfold root_ok, u64. cbn. lia.
  - unfold root_references, reference_ok. cbn. repeat constructor; apply orb_true_iff; (right; bgoal; lia) || by left.
Qed.

Lemma transaction_in_txn tx :
  beginUpdate f 1 = Ok tx ->
  match applyDocumentSystemTransactionInWriteTxn fuel tx (tx_baseRoot tx) t recs with
  | Ok (Built root tx') =>
      moves tx tx' /\ root_ok root /\ Forall (fun p => reference_ok (tx_nextPage tx') p = true) (root_references root) /\ transacted tx root tx'
  | Ok (Refused current) => transact db (tx_sequence tx) t recs = Ok (inl current)
  | Err e => failure tx e
  end.
Proof.
  intros Hbegin. unfold applyDocumentSystemTransactionInWriteTxn. pose proof (fill_catalog tx Hbegin) as Hfill. unfold failure.
  destruct (begin_database tx Hbegin) as (_ & _ & _ & _ & l0 & _ & _ & Hcount & Hmax & Htotal).
  destruct (stageDocuments fuel tx (tx_baseRoot tx) t) as [[[[[catalog changes] new] delta] tx1]|e]; cbn [rbind] in *.
  2: { destruct Hfill as [?|[?|?]]; auto. }
  destruct (applySystemRecords fuel tx1 catalog recs) as [[current|catalog' tx2]|e]; cbn [rbind] in *; [done| |].
  2: { destruct Hfill as [?|[?|?]]; auto. }
  destruct (Flush TreeCatalog tx2 catalog') as [[catalogRoot tx0]|e]; cbn [rbind] in *.
  2: { destruct Hfill as [?|[?|?]]; auto. }
  destruct Hfill as [db' Hfilled]. destruct (append_batch tx db' catalogRoot changes new delta tx0 Hbegin Hfilled) as (Hb & Hap & Hck & Hlf & Hle & Ha).
  destruct Hfilled as (Htr & Hq & Hroot & Hch & Hof & Hz & Hzc & Hmc & Htot & Hdz & l & Hk & Hcat).
  destruct (AppendCommitRetained fuel tx0 _ _ _) as [[[logRoot keep] tx']|e] eqn:Ea; cbn [rbind]; [|by destruct Ha; auto].
  destruct Ha as (Hm0 & Hm & Hlr & Hkp & Hkl & Hib). pose proof (documents_nonneg (db_collections db)). pose proof (documents_nonneg (db_collections db')).
  unfold total_documents in *. pose proof (ft_documents _ _ _ _ _ _ _ _ _ _ _ Hfits) as Hdoc. unfold total_documents in Hdoc.
  unfold movedCount. rewrite Htotal. destruct (_ && _) eqn:E; [breflect; lia|]. cbn [rbind].
  assert (to_u64 (tally documents_in (db_collections db) + delta) = tally documents_in (db_collections db')) as Hd by (rewrite Htot; apply Z.mod_small; lia).
  assert (to_u64 (root_CollectionCount (tx_baseRoot tx) + new) = zlen (db_collections db')) as Hn.
  { rewrite Hcount, Hzc. apply Z.mod_small. pose proof (zlen_nonneg (db_collections db')). unfold maxUint32 in *. lia. }
  rewrite Hd, Hn. split; [done|].
  destruct (new_root_ok tx tx' catalogRoot logRoot keep (to_u64 (root_CatalogGeneration (tx_baseRoot tx) + new)) (tally documents_in (db_collections db'))
    (zlen (db_collections db')) Hbegin Hm ltac:(pose proof (same_next _ _ (mv_same _ _ Hm0)); lia) Hlr Hkp ltac:(apply to_u64_range)
    ltac:(unfold u64; lia) ltac:(unfold u64, maxUint32 in *; pose proof (zlen_nonneg (db_collections db')); lia)) as [H1 H2].
  split; [exact H1|]. split; [exact H2|]. exists db', (mk_CommitBatch (tx_sequence tx0) (dt_TransactionID t) (dt_CommittedAt t) catalogRoot changes).
  split; [done|]. split.
  { exists l. split; [exact (held_moves _ _ _ _ _ Hm0 Hk)|]. split; [exact (catalog_at_continues K _ _ _ _ _ (continues_moves _ _ Hm0) Hcat)|]. done. }
  split; [done|]. split; [|exists tx0; do 5 (split; [done|]); exact Ea].
  destruct (begin_database tx Hbegin) as (_ & _ & Hts & _). destruct (opens_meta _ _ _ _ (fo_opens _ (lg_file _ _ _ _ _ Hlogged))) as ((_ & _ & Hu & _) & _).
  unfold u64 in Hu. split; [exact (same_sequence _ _ (mv_same _ _ Hm))|]. split; [lia|]. split; [exact Hkl|exact Hib].
Qed.
End Transaction.
