(* ===== verification/DocumentCommits.v ===== *)
(** * Committed document transactions

    [ApplyDocumentTransaction] and its variants of [internal/storage/documents.go]
    and [system.go]: a commit applies one transaction of the map and appends its
    batch to the log; anything else leaves the version alone, for a reason. *)
From stdpp Require Import gmap.
From S2P Require Import Prelude Bytes Strings Layout Hashes PageFormat Entries NodeCodec CowTree.
From S2P Require Import TreeShape TreeInvariant TreeRep TreeDelete TreeScan Tree Flush FileStore Recovery Commit.
From S2P Require Import Atomicity TreeRead Snapshots Transactions Created Records StoredValues SystemRecords SystemStore.
From S2P Require Import CommitCodec IndexRecords DocumentRecords IndexWrite IndexBuilds CommitLog DocumentWrite Collections.
From S2P Require Import DocumentSteps DocumentPublish CommitHistory SnapshotReads Replication DocumentTransactions.
#[local] Open Scope Z_scope.

(** The version is the one before; the file is usable, or refuses all updates. *)
Definition unchanged (f f' : File) : Prop :=
  f_meta f' = f_meta f /\ f_root f' = f_root f /\ (file_ok f' \/ f_fatalErr f' <> None).

Section Commit.
Variables (K : bytes -> Prop) (W fuel : nat) (f : File) (h hl hb : nat) (first : Z) (bs : list (CommitBatch * list bytes)).
Variables (db : database) (t : DocumentTransaction) (recs : list SystemRecordMutation).
Hypothesis Hlogged : logged f hl hb first bs.
Hypothesis Hdb : database_at K (snapshot f) h (f_root f) db.
Hypothesis Hfits : fits K W fuel f h hl hb bs db t recs.

Lemma documentTransaction_built : built f 1 (documentTransaction fuel t recs) (transacted K W fuel h hl bs db t recs).
Proof.
  intros tx Hbegin. unfold documentTransaction.
  pose proof (transaction_in_txn K W fuel f h hl hb first bs db t recs Hlogged Hdb Hfits tx Hbegin) as Ht.
  by destruct (applyDocumentSystemTransactionInWriteTxn fuel tx (tx_baseRoot tx) t recs) as [[|]|].
Qed.

Lemma database_at_root tx h0 root root' d : same_version root root' -> database_at K tx h0 root d -> database_at K tx h0 root' d.
Proof. intros (_ & E1 & _ & _ & _ & E2 & E3). unfold database_at. by rewrite E1, E2, E3. Qed.

(** Why a transaction is not applied. *)
Definition transaction_error (io : nat -> bool) (e : gerror) : Prop :=
  e = ErrCorrupt /\ (all_zero (dt_TransactionID t) = true \/ dt_Mutations t = []) \/
  beginUpdate f 1 = Err e \/
  (exists tx, beginUpdate f 1 = Ok tx /\ failure fuel first bs db t recs tx e) \/
  e = ErrStorageLimit \/ e = ErrIO /\ exists n, io n = false.

Lemma transaction_commits io :
  let s := CommitSequence (f_meta f) + 1 in
  match applyDocumentSystemTransaction fuel io f t recs with
  | (Ok (AppliedAt sequence), f', _) => sequence = s /\
      exists db' b, transact db s t recs = Ok (inr db') /\ database_at K (snapshot f') (grown W h t recs) (f_root f') db' /\
        batch_of t s b /\ log_advances fuel f f' hl hb first bs b
  | (Ok (NotApplied current), f', _) => transact db s t recs = Ok (inl current) /\ unchanged f f'
  | (Err e, f', _) => unchanged f f' /\ transaction_error io e
  end.
Proof.
  intros s. pose proof (lg_file _ _ _ _ _ Hlogged) as Hf. unfold applyDocumentSystemTransaction.
  destruct (all_zero (dt_TransactionID t) || _) eqn:Eg.
  { split; [split; [done|split; [done|by left]]|]. left. split; [done|]. apply orb_true_iff in Eg as [?|E]; [by left|right].
    apply Z.eqb_eq in E. destruct (dt_Mutations t); [done|]. rewrite zlen_cons in E. pose proof (zlen_nonneg l). lia. }
  pose proof (commit_built io f 1 _ _ Hf ltac:(lia) documentTransaction_built) as Hc.
  pose proof (update_failures io f 1 _ _ Hf ltac:(lia) documentTransaction_built) as Hu.
  specialize (Hu ltac:(by intros tx root tx' _ _ (_ & _ & _ & _ & _ & ? & _))).
  destruct (updateUnlockedAdvance io f 1 (documentTransaction fuel t recs)) as [[[e|] f'] trace].
  - destruct Hc as (Hm & Hr & _ & Hok). assert (Hun : unchanged f f') by done. unfold update_error in Hu.
    destruct (beginUpdate f 1) as [tx|e0] eqn:Hbegin.
    2: { split; [done|]. right. destruct Hu as [?|[(? & ? & _)|[?|?]]]; [left; congruence|done|by right; right; left|by right; right; right]. }
    pose proof (transaction_in_txn K W fuel f h hl hb first bs db t recs Hlogged Hdb Hfits tx Hbegin) as Ht.
    destruct (begin_database K f h hl hb first bs db Hlogged Hdb tx Hbegin) as (_ & _ & Hts & _). rewrite Hts in Ht.
    assert (Hb : documentTransaction fuel t recs tx = match applyDocumentSystemTransactionInWriteTxn fuel tx (tx_baseRoot tx) t recs with
      | Ok (Built root tx') => Ok (root, tx') | Ok (Refused _) => Err ErrCASMismatch | Err e => Err e end).
    { unfold documentTransaction. by destruct (applyDocumentSystemTransactionInWriteTxn _ _ _ _ _) as [[|]|]. }
    destruct (applyDocumentSystemTransactionInWriteTxn fuel tx (tx_baseRoot tx) t recs) as [[current|root tx']|e1].
    + done.
    + split; [done|]. right. destruct Hu as [?|[(tx1 & Ht1 & Hb1)|[?|?]]]; [done| |by right; right; left|by right; right; right]. injection Ht1 as <-. congruence.
    + split; [done|]. right. destruct Hu as [?|[(tx1 & Ht1 & Hb1)|[?|?]]]; [done| |by right; right; left|by right; right; right]. injection Ht1 as <-.
      right. left. exists tx. split; [done|]. congruence.
  - pose proof Hc as (Hf' & _ & _ & Hseq & tx & root & tx' & Hbegin & Hbuild & Hm & Hpost & Hc1 & Hc2 & Hsv & Hrs & Hib & Hret & Hfe).
    split; [exact Hseq|]. destruct Hpost as (db' & b & Htr & Hat & Hb & Hadv & Hlogs).
    destruct (begin_database K f h hl hb first bs db Hlogged Hdb tx Hbegin) as (_ & _ & Hts & _). rewrite Hts in *. exists db', b.
    split; [done|]. split; [|split; [done|]].
    + eapply database_at_root; [exact Hsv|]. eapply database_at_continues; [|exact Hat]. split; [done|]. split; [exact Hfe|].
      cbn. rewrite (same_sequence _ _ (mv_same _ _ Hm)), Hts, Hseq. done.
    + eapply (logged_append f f' hl hb first bs b fuel (documentTransaction fuel t recs)); [done|apply Hfits|].
      destruct Hc as (? & ? & ? & ? & _). do 4 (split; [done|]). exists tx, root, tx'. split_and!; done || congruence.
Qed.

(** What the operations return, and the version they leave. *)
Definition transaction_outcome (io : nat -> bool) (r : result SystemRecordResult * File * list event) : Prop :=
  let s := CommitSequence (f_meta f) + 1 in
  match r with
  | (Ok (AppliedAt sequence), f', _) => sequence = s /\
      exists db' b, transact db s t recs = Ok (inr db') /\ database_at K (snapshot f') (grown W h t recs) (f_root f') db' /\
        batch_of t s b /\ log_advances fuel f f' hl hb first bs b
  | (Ok (NotApplied current), f', _) => transact db s t recs = Ok (inl current) /\ unchanged f f'
  | (Err e, f', _) => unchanged f f' /\ transaction_error io e
  end.
End Commit.

(** C5: a document transaction is atomic and does what the transaction of the map
    does. From a version that stands for a database, whose log holds some batches,
    [ApplyDocumentSystemTransaction] and [ApplyDocumentTransaction] either commit the
    next sequence, and then the new version stands for the database that [transact]
    computes (documents, insertion positions, index entries, counts and private
    records), and the log for the old batches and the batch of the transaction less
    a prefix that nobody needs; or report the current value of a private record that
    does not match; or fail, for a reason [transact] gives, a full file or node, a
    batch the log refuses, or input and output that fail, with the version as it
    was. A request that is not legal is refused without looking at the file. *)
Theorem document_transactions_commit K W fuel f h hl hb first bs db t recs io :
  logged f hl hb first bs -> database_at K (snapshot f) h (f_root f) db -> fits K W fuel f h hl hb bs db t recs ->
  (if 0 <? zlen recs then
     if (256 <? zlen recs) || negb (validSystemRecords [] recs)
     then ApplyDocumentSystemTransaction fuel io f t recs = (Err ErrCorrupt, f, [])
     else transaction_outcome K W fuel f h hl hb first bs db t recs io (ApplyDocumentSystemTransaction fuel io f t recs)
   else
     ApplyDocumentSystemTransaction fuel io f t recs = (Err ErrCorrupt, f, []) /\
     transaction_outcome K W fuel f h hl hb first bs db t recs io (ApplyDocumentTransaction fuel io f t)).
Proof.
  intros Hl Hd Hf. pose proof (transaction_commits K W fuel f h hl hb first bs db t recs Hl Hd Hf io) as Hc.
  unfold ApplyDocumentSystemTransaction, ApplyDocumentTransaction. destruct (Z.ltb_spec 0 (zlen recs)).
  - destruct (Z.eqb_spec (zlen recs) 0); [lia|]. cbn [orb]. destruct (_ || _); [done|exact Hc].
  - assert (recs = []) as ->. { destruct recs; [done|]. rewrite zlen_cons in *. pose proof (zlen_nonneg recs). lia. }
    split; [done|exact Hc].
Qed.

(** ** An example *)

Definition example_keys (key : bytes) : Prop := zlen key = 9.
Definition example_document_id : bytes := replicate 15 x00 ++ [x07].

Definition example_transaction : DocumentTransaction :=
  mk_DocumentTransaction (replicate 16 x05) 1700000000000 [mk_DocumentPrecondition (bs "users") example_document_id false (zeros 32)]
    [mk_CollectionPrecondition (bs "users") false 0 0]
    [mk_DocumentMutation (bs "users") example_document_id DocumentInsert (bs "a document") [bs "name"] []].

Definition example_record : SystemRecordMutation := mk_SystemRecordMutation (bs "policy") false (zeros 32) (bs "v1") false false.

(** A file that was just created stands for the empty database. *)
Lemma empty_database K f : f_root f = root_zero 0 -> database_at K (snapshot f) 0 (f_root f) (mk_database [] []).
Proof.
  intros Hr. rewrite Hr. exists []. split; [exists O; split; [lia|by left]|]. split; [|done].
  split; [constructor|]. split; [done|constructor].
Qed.

Lemma example_fits f : fits example_keys 0 20 f 0 0 0 [] (mk_database [] []) example_transaction [example_record].
Proof.
  constructor; try done; try (cbn; lia).
  - intros a b Ha Hb Hp. unfold example_keys in *. destruct Hp as [k ->]. rewrite zlen_app in Hb. destruct k; [by rewrite app_nil_r|].
    rewrite zlen_cons in Hb. pose proof (zlen_nonneg k). lia.
  - constructor; [|constructor]. split; [done|constructor].
  - constructor.
Qed.

Lemma example_applied : (ApplyDocumentSystemTransaction 20 always example_created example_transaction [example_record]).1.1 = Ok (AppliedAt 1).
Proof. vm_compute. reflexivity. Qed.

(** The database after the example. *)
Definition example_database : database :=
  mk_database [(bs "users", mk_collection 1 1 1 1 [(example_document_id, (1, bs "a document"))] [])] [(bs "policy", bs "v1")].

Lemma example_transact : transact (mk_database [] []) 1 example_transaction [example_record] = Ok (inr example_database).
Proof. vm_compute. reflexivity. Qed.

Lemma document_transactions_commit_witness :
  exists f' trace, ApplyDocumentSystemTransaction 20 always example_created example_transaction [example_record] = (Ok (AppliedAt 1), f', trace) /\
    database_at example_keys (snapshot f') 2 (f_root f') example_database.
Proof.
  destruct example_ok as [Hf Hr].
  pose proof (document_transactions_commit example_keys 0 20 example_created 0 0 0 1 [] (mk_database [] []) example_transaction [example_record] always
    (logged_empty _ Hf Hr eq_refl eq_refl eq_refl) (empty_database _ _ Hr) (example_fits _)) as H.
  cbn [zlen length Z.of_nat] in H. change (0 <? 1) with true in H.
  pose proof example_applied as Ho.
  destruct (ApplyDocumentSystemTransaction 20 always example_created example_transaction [example_record]) as [[r f'] trace].
  cbn [fst] in Ho. subst r. exists f', trace. split; [reflexivity|].
  assert (Hg : (256 <? zlen [example_record]) || negb (validSystemRecords [] [example_record]) = false) by (vm_compute; reflexivity).
  change (0 <? zlen [example_record]) with true in H. cbv iota in H. rewrite Hg in H. destruct H as (_ & db' & b & Htr & Hat & _).
  assert (Hs : CommitSequence (f_meta example_created) + 1 = 1) by (vm_compute; reflexivity). rewrite Hs, example_transact in Htr.
  injection Htr as <-. exact Hat.
Defined.
