(* ===== verification/StreamDelivery.v ===== *)
(** * Delivery through live streams

    Commits, streams and other pins of one file, interleaved in any order. Every
    stream hands its subscriber each batch committed after the sequence it was
    opened at, once and in order, however the log is pruned meanwhile. *)
From stdpp Require Import gmap.
From S2P Require Import Prelude Bytes Strings Layout Hashes PageFormat Entries NodeCodec CowTree.
From S2P Require Import TreeShape TreeInvariant TreeRep TreeDelete TreeScan Tree Flush FileStore Recovery Commit.
From S2P Require Import Atomicity TreeRead Snapshots Transactions Records StoredValues SystemRecords Created.
From S2P Require Import CommitCodec IndexBuilds CommitLog CommitHistory SnapshotReads CommitStreams Replication.
#[local] Open Scope Z_scope.

(** A subscriber: its stream, the sequence it was opened at, and what it has been
    handed. *)
Record session := mk_session {
  se_stream : LiveCommitStream;
  se_from : Z;
  se_received : list CommitBatch }.

(** The file, its subscribers, and every batch committed since the world began. *)
Record world := mk_world {
  w_file : File;
  w_sessions : list session;
  w_ledger : list CommitBatch }.

Definition handed (d : delivery) : list CommitBatch :=
  match d with
  | Delivered b => [b]
  | _ => []
  end.

(** Draining a stream: at most [n] calls of [Next]. *)
Fixpoint drain (n fuel : nat) (f : File) (stream : LiveCommitStream) : list CommitBatch * File * LiveCommitStream :=
  match n with
  | O => ([], f, stream)
  | S n =>
      let '(d, f, stream) := LiveCommitStream_Next fuel f stream in
      match d with
      | Delivered b => let '(bs, f, stream) := drain n fuel f stream in (b :: bs, f, stream)
      | _ => ([], f, stream)
      end
  end.

(** No open stream owns the pin. *)
Definition unowned (id : Z) (ss : list session) : Prop :=
  Forall (fun s => ls_closed (se_stream s) = true \/ ls_pinID (se_stream s) <> id) ss.

Definition opened (stream : LiveCommitStream) : session := mk_session stream (ls_after stream) [].

Definition advance_session (s : session) (d : delivery) (stream : LiveCommitStream) : session :=
  mk_session stream (se_from s) (se_received s ++ handed d).

(** A failed update leaves the file as it was or makes it refuse every update, so
    only the successful ones are steps. A publication takes the reader pins of the
    version it started from: a pin that changes while the pages are written is the
    same as one that changes before or after. *)
Inductive step : world -> world -> Prop :=
| step_append io f f' trace ss ledger h hb first bs fuel build b changes :
    logged f h hb first bs -> (hb < fuel)%nat -> built f 1 build (logs fuel h bs b) ->
    updateUnlockedAdvance io f 1 build = (None, f', trace) -> normal_changes (bt_Changes b) changes ->
    step (mk_world f ss ledger) (mk_world f' ss (ledger ++ [normal_batch b changes]))
| step_keep io f f' trace ss ledger build :
    built f 0 build leaves_log -> updateUnlockedAdvance io f 0 build = (None, f', trace) ->
    step (mk_world f ss ledger) (mk_world f' ss ledger)
| step_open f f' ss ledger after stream :
    0 <= after -> OpenLiveCommitStream f after = (Ok stream, f') ->
    step (mk_world f ss ledger) (mk_world f' (ss ++ [opened stream]) ledger)
| step_open_with_snapshot fuel f f' ss ledger sequence snapshot stream :
    0 <= sequence -> OpenSnapshotAndStreamAt fuel f sequence = (Ok (snapshot, stream), f') ->
    step (mk_world f ss ledger) (mk_world f' (ss ++ [opened stream]) ledger)
| step_next f f' ss ledger i s h hb first bs fuel d stream :
    ss !! i = Some s -> logged f h hb first bs -> (h < fuel)%nat ->
    LiveCommitStream_Next fuel f (se_stream s) = (d, f', stream) ->
    step (mk_world f ss ledger) (mk_world f' (<[i := advance_session s d stream]> ss) ledger)
| step_close f f' ss ledger i s stream :
    ss !! i = Some s -> LiveCommitStream_Close f (se_stream s) = (f', stream) ->
    step (mk_world f ss ledger) (mk_world f' (<[i := mk_session stream (se_from s) (se_received s)]> ss) ledger)
| step_pin f f' ss ledger sequence rootPage id :
    u64 sequence -> addReaderPinUnlocked f sequence rootPage false = (Ok id, f') -> step (mk_world f ss ledger) (mk_world f' ss ledger)
| step_unpin f ss ledger id :
    unowned id ss -> step (mk_world f ss ledger) (mk_world (removePin f id) ss ledger).

(** A world begins with a file in order that nobody reads yet; its log is empty
    only when nothing was ever committed. *)
Definition begins (w : world) (base : Z) : Prop :=
  exists h hb bs, logged (w_file w) h hb (base + 1) bs /\ f_readers (w_file w) = ∅ /\ u64 (f_nextPin (w_file w)) /\
    w_sessions w = [] /\ w_ledger w = bs.*1 /\ 0 <= base /\ (bs = [] -> base = 0).

(** The batches of the ledger after a sequence. *)
Definition after_sequence (base : Z) (ledger : list CommitBatch) (s : Z) : list CommitBatch := drop (Z.to_nat (s - base)) ledger.

(** ** The invariant *)

(** An open stream holds a replay pin at its sequence, which the log still covers,
    and has been handed what lies between. *)
Record following (base : Z) (f : File) (ledger : list CommitBatch) (first : Z) (s : session) : Prop := {
  fw_pin : exists pin, f_readers f !! ls_pinID (se_stream s) = Some pin /\ pin_replay pin = true /\
    pin_sequence pin = ls_after (se_stream s);
  fw_from : base <= se_from s <= ls_after (se_stream s);
  fw_after : first <= ls_after (se_stream s) + 1 <= CommitSequence (f_meta f) + 1;
  fw_received : se_received s = take (Z.to_nat (ls_after (se_stream s) - se_from s)) (after_sequence base ledger (se_from s)) }.

(** The identifiers of the open streams. *)
Definition owned (ss : list session) : list Z :=
  omap (fun s => if ls_closed (se_stream s) then None else Some (ls_pinID (se_stream s))) ss.

Record running (base : Z) (w : world) (h hb : nat) (first : Z) (bs : list (CommitBatch * list bytes)) : Prop := {
  rn_logged : logged (w_file w) h hb first bs;
  rn_base : base + 1 <= first;
  rn_some : 0 <= base /\ (bs = [] -> CommitSequence (f_meta (w_file w)) = 0);
  rn_ledger : CommitSequence (f_meta (w_file w)) = base + zlen (w_ledger w);
  rn_log : bs.*1 = after_sequence base (w_ledger w) (first - 1);
  rn_sequences : forall k b, w_ledger w !! k = Some b -> bt_Sequence b = base + 1 + Z.of_nat k;
  rn_next : u64 (f_nextPin (w_file w));
  rn_pins : forall id pin, f_readers (w_file w) !! id = Some pin -> id <= f_nextPin (w_file w);
  rn_owned : NoDup (owned (w_sessions w));
  rn_streams : Forall (fun s => ls_closed (se_stream s) = false -> following base (w_file w) (w_ledger w) first s) (w_sessions w) }.

(** ** The log of a version is determined by its file *)

Lemma logged_first f h hb first bs : logged f h hb first bs -> bs <> [] -> root_OldestRetainedSequence (f_root f) = first.
Proof. intros Hl Hne. rewrite (lg_oldest _ _ _ _ _ Hl). by destruct (decide (bs = [])). Qed.

Lemma logged_unique f h hb first bs h' hb' first' bs' :
  logged f h hb first bs -> logged f h' hb' first' bs' -> first = first' /\ bs.*1 = bs'.*1.
Proof.
  intros Hl Hl'. pose proof (lg_oldest _ _ _ _ _ Hl) as Ho. pose proof (lg_oldest _ _ _ _ _ Hl') as Ho'.
  pose proof (lg_first _ _ _ _ _ Hl). pose proof (lg_first _ _ _ _ _ Hl'). pose proof (lg_sequence _ _ _ _ _ Hl) as Hs.
  pose proof (lg_sequence _ _ _ _ _ Hl') as Hs'.
  assert (first = first') as <-.
  { destruct (decide (bs = [])) as [->|], (decide (bs' = [])) as [->|]; change (zlen []) with 0 in *; lia. }
  split; [done|]. apply list_eq. intros i. rewrite !list_lookup_fmap.
  destruct (decide (i < length bs)%nat) as [Hi|Hi].
  - assert (Hi' : (i < length bs')%nat) by (unfold zlen in *; lia). set (s := first + Z.of_nat i).
    assert (Hr : first <= s <= CommitSequence (f_meta f)) by (unfold s, zlen in *; lia).
    destruct (logged_read f h hb first bs s (S (h + h')) Hl ltac:(lia) Hr) as (b & e & Hb & Hread).
    destruct (logged_read f h' hb' first bs' s (S (h + h')) Hl' ltac:(lia) Hr) as (b' & e' & Hb' & Hread').
    replace (Z.to_nat (s - first)) with i in Hb, Hb' by (unfold s; lia). rewrite Hb, Hb'. rewrite Hread in Hread'. by injection Hread' as <-.
  - rewrite !lookup_ge_None_2; [done|unfold zlen in *; lia..].
Qed.

(** ** Pins leave the version alone *)

Lemma pins_ok_map (m : gmap Z readerPin) : pins_ok (map_to_list m).*2 <-> map_Forall (fun _ pin => u64 (pin_sequence pin)) m.
Proof.
  unfold pins_ok. rewrite map_Forall_to_list, Forall_fmap. split; intros H; eapply Forall_impl; try exact H; by intros [].
Qed.

Lemma logged_pins f h hb first bs readers nextPin :
  logged f h hb first bs -> map_Forall (fun _ pin => u64 (pin_sequence pin)) readers -> logged (set_pins f readers nextPin) h hb first bs.
Proof.
  intros Hl Hp. pose proof (lg_file _ _ _ _ _ Hl) as [H1 H2 H3 H4 H5 H6 H7 H8 H9].
  apply (logged_carries f); try done. by apply pins_ok_map.
Qed.

Lemma logged_map f h hb first bs : logged f h hb first bs -> map_Forall (fun _ pin => u64 (pin_sequence pin)) (f_readers f).
Proof. intros Hl. apply pins_ok_map, Hl. Qed.

(** ** Following *)

Lemma take_after base ledger ledger' s n :
  ledger `prefix_of` ledger' -> (Z.to_nat (s - base) + n <= length ledger)%nat ->
  take n (after_sequence base ledger' s) = take n (after_sequence base ledger s).
Proof.
  intros [tail ->] Hn. unfold after_sequence. rewrite drop_app_le by lia. rewrite take_app_le; [done|]. rewrite length_drop. lia.
Qed.

Lemma following_change base f ledger first s f' ledger' first' :
  following base f ledger first s -> f_readers f' !! ls_pinID (se_stream s) = f_readers f !! ls_pinID (se_stream s) ->
  CommitSequence (f_meta f) <= CommitSequence (f_meta f') -> first' <= ls_after (se_stream s) + 1 ->
  CommitSequence (f_meta f) = base + zlen ledger -> ledger `prefix_of` ledger' -> following base f' ledger' first' s.
Proof.
  intros [(pin & Hpin & Hrep & Hseq) Hfrom Hafter Hrec] Hr Hs Hf Hled Hpre. constructor; [|done|lia|].
  - exists pin. by rewrite Hr.
  - rewrite Hrec. symmetry. apply take_after; [done|]. unfold zlen in *. lia.
Qed.

(** What one call of [Next] does for a stream that follows. *)
Lemma next_following base f ledger h hb first bs s fuel :
  logged f h hb first bs -> base + 1 <= first -> CommitSequence (f_meta f) = base + zlen ledger ->
  bs.*1 = after_sequence base ledger (first - 1) -> following base f ledger first s -> ls_closed (se_stream s) = false ->
  (h < fuel)%nat ->
  let after := ls_after (se_stream s) in
  (after = CommitSequence (f_meta f) /\ LiveCommitStream_Next fuel f (se_stream s) = (Waiting, f, se_stream s)) \/
  (after < CommitSequence (f_meta f) /\ exists b, ledger !! Z.to_nat (after - base) = Some b /\
    LiveCommitStream_Next fuel f (se_stream s) =
      (Delivered b,
       set_pins f (<[ls_pinID (se_stream s) := mk_readerPin (Generation (f_meta f)) (after + 1) (RootPage (f_meta f)) true]> (f_readers f)) (f_nextPin f),
       mk_LiveCommitStream (ls_pinID (se_stream s)) (after + 1) (after + 1) false)).
Proof.
  intros Hl Hbase Hled Hlog [(pin & Hpin & Hrep & Hseq) Hfrom Hafter _] Hopen Hfu. cbn zeta. set (after := ls_after (se_stream s)) in *.
  pose proof (lg_file _ _ _ _ _ Hl) as Hf. pose proof (root_sequence f Hf) as Hrs.
  assert (Hu : CommitSequence (f_meta f) < 2 ^ 64) by (destruct (opens_meta _ _ _ _ (fo_opens _ Hf)) as ((_ & _ & [_ ?] & _) & _); done).
  unfold LiveCommitStream_Next. rewrite Hopen, Hrs. fold after. destruct (Z.ltb_spec after (CommitSequence (f_meta f))) as [Hlt|]; cbn [andb].
  2: { left. split; [lia|done]. }
  right. split; [done|]. unfold maxUint64. destruct (Z.eqb_spec after (2 ^ 64 - 1)); [lia|]. cbn [orb].
  assert (to_u64 (after + 1) = after + 1) as -> by (apply Z.mod_small; pose proof (lg_first _ _ _ _ _ Hl); lia).
  assert (Hne : bs <> []) by (intros ->; pose proof (lg_sequence _ _ _ _ _ Hl) as E; change (zlen []) with 0 in E; lia).
  rewrite (logged_first _ _ _ _ _ Hl Hne). destruct (Z.ltb_spec (after + 1) first); [lia|].
  destruct (logged_read f h hb first bs (after + 1) fuel Hl Hfu ltac:(lia)) as (b & e & Hb & ->). exists b. split.
  - assert (Hb1 : bs.*1 !! Z.to_nat (after + 1 - first) = Some b) by (by rewrite list_lookup_fmap, Hb).
    rewrite Hlog in Hb1. unfold after_sequence in Hb1. rewrite lookup_drop in Hb1. rewrite <- Hb1. f_equal. lia.
  - cbn [ls_pinID]. by rewrite Hpin, Hrep.
Qed.

(** ** Every step keeps the invariant *)

Lemma owned_cons s ss :
  owned (s :: ss) = (if ls_closed (se_stream s) then [] else [ls_pinID (se_stream s)]) ++ owned ss.
Proof. unfold owned. cbn. by destruct (ls_closed (se_stream s)). Qed.

Lemma owned_app ss ss' : owned (ss ++ ss') = owned ss ++ owned ss'.
Proof. apply omap_app. Qed.

Lemma owned_elem s ss : s ∈ ss -> ls_closed (se_stream s) = false -> ls_pinID (se_stream s) ∈ owned ss.
Proof. intros Hin Ho. apply list_elem_of_omap. exists s. by rewrite Ho. Qed.

Lemma unowned_elem id ss s : unowned id ss -> s ∈ ss -> ls_closed (se_stream s) = false -> ls_pinID (se_stream s) <> id.
Proof. intros Hu Hin Ho. unfold unowned in Hu. rewrite Forall_forall in Hu. destruct (Hu s Hin) as [Hc|Hn]; [congruence|done]. Qed.

Lemma owned_other l1 l2 s t :
  NoDup (owned (l1 ++ s :: l2)) -> ls_closed (se_stream s) = false -> ls_closed (se_stream t) = false -> t ∈ l1 ++ l2 ->
  ls_pinID (se_stream t) <> ls_pinID (se_stream s).
Proof.
  intros Hnd Hs Ht Hin E. rewrite owned_app, owned_cons, Hs in Hnd. cbn [app] in Hnd. apply NoDup_app in Hnd as (_ & Hd & Hnd).
  apply NoDup_cons in Hnd as [Hn _]. apply elem_of_app in Hin as [Hin|Hin]; apply owned_elem in Hin; try done; rewrite E in Hin.
  - apply (Hd _ Hin). by left.
  - done.
Qed.

Lemma split_at {A} (l : list A) i x :
  l !! i = Some x -> exists l1 l2, l = l1 ++ x :: l2 /\ forall y, <[i := y]> l = l1 ++ y :: l2.
Proof.
  intros Hi. exists (take i l), (drop (S i) l). split; [symmetry; by apply take_drop_middle|].
  intros y. apply insert_take_drop. by apply lookup_lt_Some in Hi.
Qed.

Section Preservation.
Variables (base : Z) (f : File) (ss : list session) (ledger : list CommitBatch) (h hb : nat) (first : Z) (bs : list (CommitBatch * list bytes)).
Hypothesis Hrun : running base (mk_world f ss ledger) h hb first bs.

Lemma running_pins readers nextPin :
  map_Forall (fun _ pin => u64 (pin_sequence pin)) readers -> u64 nextPin ->
  (forall id pin, readers !! id = Some pin -> id <= nextPin) ->
  (forall s, s ∈ ss -> ls_closed (se_stream s) = false -> readers !! ls_pinID (se_stream s) = f_readers f !! ls_pinID (se_stream s)) ->
  running base (mk_world (set_pins f readers nextPin) ss ledger) h hb first bs.
Proof.
  intros Hu Hn Hid Hsame. destruct Hrun as [Hl Hb Hsome Hled Hlog Hsq _ _ Hown Hst]. constructor; try done; cbn in *; [by apply logged_pins|].
  rewrite Forall_forall in *. intros s Hin Ho. eapply following_change; [by apply Hst|by apply Hsame|done| |done|done].
  apply (Hst s Hin Ho).
Qed.

Lemma added_pin sequence rootPage replay id f' :
  u64 sequence -> addReaderPinUnlocked f sequence rootPage replay = (Ok id, f') ->
  id = f_nextPin f + 1 /\ u64 id /\ f_readers f !! id = None /\
  f' = set_pins f (<[id := mk_readerPin (Generation (f_meta f)) sequence rootPage replay]> (f_readers f)) id /\
  running base (mk_world f' ss ledger) h hb first bs.
Proof.
  intros Hs Ha. pose proof (rn_next _ _ _ _ _ _ Hrun) as Hn. pose proof (rn_pins _ _ _ _ _ _ Hrun) as Hp. cbn in Hn, Hp.
  unfold addReaderPinUnlocked in Ha. destruct (Z.eqb_spec (to_u64 (f_nextPin f + 1)) 0) as [|Hne]; [done|]. injection Ha as Hid <-.
  assert (E : id = f_nextPin f + 1).
  { rewrite <- Hid. unfold to_u64, u64 in *. destruct (Z.eq_dec (f_nextPin f + 1) (2 ^ 64)) as [E|]; [rewrite E in Hne; by rewrite Z.mod_same in Hne|].
    apply Z.mod_small. lia. }
  assert (Hu : u64 id) by (rewrite <- Hid; apply to_u64_range). rewrite Hid.
  assert (Hnone : f_readers f !! id = None) by (destruct (f_readers f !! id) eqn:El; [apply Hp in El; lia|done]).
  do 4 (split; [done|]). apply running_pins; [|done| |].
  - apply map_Forall_insert_2; [done|]. apply (logged_map f h hb first bs), Hrun.
  - intros id' pin [[<- _]|[_ Hl]]%lookup_insert_Some; [lia|]. apply Hp in Hl. lia.
  - intros s Hin Ho. apply lookup_insert_ne. intros E'. pose proof (rn_streams _ _ _ _ _ _ Hrun) as Hst. rewrite Forall_forall in Hst.
    destruct (Hst s Hin Ho) as [(pin & Hpin & _) _ _ _]. cbn in Hpin. rewrite <- E' in Hpin. congruence.
Qed.

(** A new stream over retained history. *)
Lemma running_open after f' id :
  base <= after -> first <= after + 1 <= CommitSequence (f_meta f) + 1 ->
  addReaderPinUnlocked f after (RootPage (f_meta f)) true = (Ok id, f') ->
  running base (mk_world f' (ss ++ [opened (mk_LiveCommitStream id after 0 false)]) ledger) h hb first bs.
Proof.
  intros Hb Hcov Ha. pose proof (lg_file _ _ _ _ _ (rn_logged _ _ _ _ _ _ Hrun)) as Hf. cbn in Hf.
  assert (Hu : u64 after).
  { destruct (opens_meta _ _ _ _ (fo_opens _ Hf)) as ((_ & _ & [_ ?] & _) & _). destruct (rn_some _ _ _ _ _ _ Hrun). unfold u64. lia. }
  destruct (added_pin after _ true id f' Hu Ha) as (Hid & Hu' & Hnone & Hf' & Hrun'). destruct Hrun' as [Hl' Hb' Hs' Hled' Hlog' Hsq' Hn' Hp' Hown' Hst'].
  constructor; try done; cbn in *.
  - rewrite owned_app. apply NoDup_app. split; [done|]. split; [|apply NoDup_singleton].
    intros x Hx Hx'. apply list_elem_of_singleton in Hx' as ->. apply list_elem_of_omap in Hx as (s & Hin & Ho).
    destruct (ls_closed (se_stream s)) eqn:Ec; [done|]. injection Ho as Hpid. pose proof (rn_streams _ _ _ _ _ _ Hrun) as Hst. cbn in Hst.
    rewrite Forall_forall in Hst. destruct (Hst s Hin Ec) as [(pin & Hpin & _) _ _ _]. congruence.
  - apply Forall_app. split; [done|]. constructor; [|constructor]. intros _. subst f'. constructor; cbn.
    + eexists. rewrite lookup_insert_eq. by split.
    + lia.
    + lia.
    + by rewrite Z.sub_diag.
Qed.
End Preservation.

Definition in_order (base : Z) (w : world) : Prop := exists h hb first bs, running base w h hb first bs.

Lemma running_sequence base f ss ledger h hb first bs : running base (mk_world f ss ledger) h hb first bs -> first <= CommitSequence (f_meta f) + 1.
Proof. intros Hr. pose proof (lg_sequence _ _ _ _ _ (rn_logged _ _ _ _ _ _ Hr)) as Hs. pose proof (zlen_nonneg bs). cbn in Hs. lia. Qed.

(** An append keeps the log of every stream. *)
Lemma append_in_order base f f' ss ledger h hb first bs fuel b changes :
  running base (mk_world f ss ledger) h hb first bs -> logged f h hb first bs -> same_readers f f' ->
  CommitSequence (f_meta f') = CommitSequence (f_meta f) + 1 -> log_advances fuel f f' h hb first bs b ->
  normal_changes (bt_Changes b) changes -> in_order base (mk_world f' ss (ledger ++ [normal_batch b changes])).
Proof.
  intros [_ Hb [H0 Hsome] Hled Hlog Hsq Hn Hp Hown Hst] Hl Hsr Hseq (changes' & encoded & removed & rest & Hnorm & Happ & Hbs & Hkeep & Hl' & Hneed) Hnorm2.
  assert (changes' = changes) as ->.
  { clear -Hnorm Hnorm2. revert changes' Hnorm; induction Hnorm2 as [|c c2 cs cs2 (p & E & ->) HF IH]; intros changes' Hn; inversion Hn as [|? c1 ? cs1 (p1 & E1 & ->) HF1]; subst; [done|].
    rewrite E in E1. injection E1 as <-. by rewrite (IH _ HF1). }
  exists (log_height h bs b), hb, (first + zlen removed), rest. pose proof (zlen_nonneg removed). cbn in *.
  destruct Hsr as (Hr & _ & _ & _ & Hnp). assert (Hz : zlen bs = zlen ledger - (first - 1 - base)).
  { pose proof (f_equal length Hlog) as Hlen. rewrite length_fmap in Hlen. unfold after_sequence in Hlen. rewrite length_drop in Hlen.
    pose proof (lg_sequence _ _ _ _ _ Hl). unfold zlen in *. lia. }
  constructor; cbn; rewrite ?Hr, ?Hnp; try done; try lia.
  - split; [done|]. intros ->. rewrite app_nil_r in Happ. pose proof (f_equal zlen Happ) as E. rewrite zlen_app in E. change (zlen [_]) with 1 in E.
    pose proof (lg_sequence _ _ _ _ _ Hl). lia.
  - rewrite zlen_app. change (zlen [_]) with 1. lia.
  - pose proof (f_equal (fmap fst) Happ) as E. rewrite !fmap_app, Hlog in E. cbn in E. unfold after_sequence in *.
    rewrite <- drop_app_le in E by (unfold zlen in *; lia).
    replace (Z.to_nat (first + zlen removed - 1 - base)) with (Z.to_nat (first - 1 - base) + length removed)%nat by (unfold zlen; lia).
    rewrite <- drop_drop, E. rewrite drop_app_length'; [done|]. by rewrite length_fmap.
  - intros k b' [Hk|[Hk Hb']]%lookup_app_Some; [by apply Hsq|]. destruct (k - length ledger)%nat eqn:Ek; [|done].
    injection Hb' as <-. cbn. unfold zlen in *. lia.
  - rewrite Forall_forall in *. intros s Hin Ho. pose proof (Hst s Hin Ho) as Hfw. pose proof Hfw as [(pin & Hpin & Hrep & Hps) Hfrom Haft _].
    eapply following_change; [exact Hfw|by rewrite Hr|lia| |done|by apply prefix_app_r].
    specialize (Hneed (pin_sequence pin)). rewrite Hps in Hneed. assert (Hnd : needs fuel f (ls_after (se_stream s))).
    { rewrite <- Hps. eapply needed_replay; done. }
    specialize (Hneed Hnd). lia.
Qed.

(** Where a stream over history may begin. *)
Lemma history_covers base f ss ledger h hb first bs after :
  running base (mk_world f ss ledger) h hb first bs -> 0 <= after ->
  historyAfter (f_root f) after = Ok tt -> base <= after /\ first <= after + 1 <= CommitSequence (f_meta f) + 1.
Proof.
  intros Hrun Ha Hh. pose proof (running_sequence _ _ _ _ _ _ _ _ Hrun) as Hfs. destruct Hrun as [Hl Hb [H0 Hsome] Hled _ _ _ _ _ _]. cbn in *.
  pose proof (lg_file _ _ _ _ _ Hl) as Hf. unfold historyAfter in Hh. rewrite (root_sequence f Hf) in Hh.
  destruct (Z.ltb_spec (CommitSequence (f_meta f)) after); [done|]. destruct (Z.ltb_spec after (CommitSequence (f_meta f))) as [Hlt|]; [|lia].
  assert (Hne : bs <> []) by (intros ->; specialize (Hsome eq_refl); lia). rewrite (logged_first _ _ _ _ _ Hl Hne) in Hh. cbn [andb] in Hh.
  assert (Hu : CommitSequence (f_meta f) < 2 ^ 64) by (destruct (opens_meta _ _ _ _ (fo_opens _ Hf)) as ((_ & _ & [_ ?] & _) & _); done).
  assert (to_u64 (after + 1) = after + 1) as E by (apply Z.mod_small; lia). rewrite E in Hh.
  destruct (Z.eqb_spec after maxUint64); [done|]. destruct (Z.ltb_spec (after + 1) first); [done|]. lia.
Qed.

Lemma historical_covers base f ss ledger h hb first bs sequence fuel root :
  running base (mk_world f ss ledger) h hb first bs -> 0 <= sequence ->
  historicalRootUnlocked fuel f (f_root f) sequence = Ok root -> base <= sequence /\ first <= sequence + 1 <= CommitSequence (f_meta f) + 1.
Proof.
  intros Hrun Hs Hh. pose proof (running_sequence _ _ _ _ _ _ _ _ Hrun) as Hfs. destruct Hrun as [Hl Hb [H0 Hsome] Hled _ _ _ _ _ _]. cbn in *.
  pose proof (lg_file _ _ _ _ _ Hl) as Hf. pose proof (lg_oldest _ _ _ _ _ Hl) as Hold. pose proof (lg_first _ _ _ _ _ Hl).
  unfold historicalRootUnlocked in Hh. rewrite (root_sequence f Hf) in Hh.
  destruct (Z.ltb_spec (CommitSequence (f_meta f)) sequence); [done|]. destruct (Z.eqb_spec sequence (CommitSequence (f_meta f))); [lia|].
  assert (Hne : bs <> []) by (intros ->; specialize (Hsome eq_refl); lia). destruct (decide (bs = [])); [done|]. rewrite Hold in Hh.
  destruct (Z.eqb_spec sequence 0); [destruct (Z.ltb_spec 1 first); [done|lia]|].
  destruct (Z.eqb_spec first 0); [done|]. destruct (Z.ltb_spec sequence first); [done|]. lia.
Qed.

Lemma pair_in_order base f f' ss ledger h hb first bs after root snapshot stream :
  running base (mk_world f ss ledger) h hb first bs -> base <= after -> first <= after + 1 <= CommitSequence (f_meta f) + 1 ->
  pinSnapshotAndStream f root after = (Ok (snapshot, stream), f') ->
  running base (mk_world f' (ss ++ [opened stream]) ledger) h hb first bs.
Proof.
  intros Hrun Hb Hcov Hp. unfold pinSnapshotAndStream in Hp. pose proof (lg_file _ _ _ _ _ (rn_logged _ _ _ _ _ _ Hrun)) as Hf. cbn in Hf.
  destruct (addReaderPinUnlocked f after (RootPage (f_meta f)) false) as [[id1|] f1] eqn:E1; [|done].
  destruct (addReaderPinUnlocked f1 after (RootPage (f_meta f1)) true) as [[id2|] f2] eqn:E2; [|done]. injection Hp as <- <- <-.
  assert (Hu : u64 after).
  { destruct (opens_meta _ _ _ _ (fo_opens _ Hf)) as ((_ & _ & [_ ?] & _) & _). destruct (rn_some _ _ _ _ _ _ Hrun). unfold u64. lia. }
  destruct (added_pin base f ss ledger h hb first bs Hrun after _ false id1 f1 Hu E1) as (_ & _ & _ & Hf1 & Hrun1).
  apply (running_open base f1 ss ledger h hb first bs Hrun1 after f2 id2 Hb); [|done]. by subst f1.
Qed.

(** The stream of one subscriber moves on, and its pin with it. *)
Lemma next_in_order base f f' l1 l2 ledger h hb first bs s fuel d stream :
  running base (mk_world f (l1 ++ s :: l2) ledger) h hb first bs -> (h < fuel)%nat ->
  LiveCommitStream_Next fuel f (se_stream s) = (d, f', stream) ->
  running base (mk_world f' (l1 ++ advance_session s d stream :: l2) ledger) h hb first bs.
Proof.
  intros Hrun Hfu Hnext. pose proof Hrun as [Hl Hb Hsome Hled Hlog Hsq Hn Hp Hown Hst]. cbn in *.
  assert (Hid : forall d, handed d = [] -> advance_session s d (se_stream s) = s).
  { intros d' Hd. unfold advance_session. rewrite Hd, app_nil_r. by destruct s. }
  destruct (ls_closed (se_stream s)) eqn:Hc.
  { unfold LiveCommitStream_Next in Hnext. rewrite Hc in Hnext. injection Hnext as <- <- <-. by rewrite Hid. }
  assert (Hfw : following base f ledger first s) by (rewrite Forall_forall in Hst; apply Hst; [apply elem_of_app; right; by left|done]).
  pose proof Hfw as [(pin & Hpin & Hrep & Hps) Hfrom Haft Hrec].
  destruct (next_following base f ledger h hb first bs s fuel Hl Hb Hled Hlog Hfw Hc Hfu) as [[_ E]|(Hlt & b & Hbk & E)];
    rewrite E in Hnext; injection Hnext as <- <- <-; [by rewrite Hid|].
  set (after := ls_after (se_stream s)) in *. set (id := ls_pinID (se_stream s)) in *.
  assert (Hu : u64 (after + 1)).
  { pose proof (lg_file _ _ _ _ _ Hl) as Hf. destruct (opens_meta _ _ _ _ (fo_opens _ Hf)) as ((_ & _ & [_ ?] & _) & _). unfold u64. lia. }
  constructor; cbn; try done.
  - apply logged_pins; [done|]. apply map_Forall_insert_2; [done|]. by eapply logged_map.
  - intros id' pin' [[<- _]|[_ Hl']]%lookup_insert_Some; [by eapply Hp|by eapply Hp].
  - rewrite owned_app, owned_cons in *. cbn. by rewrite Hc in Hown.
  - apply Forall_app in Hst as [Hst1 Hst2]. apply Forall_cons in Hst2 as [_ Hst2].
    assert (Hother : forall t, t ∈ l1 ++ l2 -> ls_closed (se_stream t) = false -> following base f ledger first t ->
      following base (set_pins f (<[id:=mk_readerPin (Generation (f_meta f)) (after + 1) (RootPage (f_meta f)) true]> (f_readers f)) (f_nextPin f)) ledger first t).
    { intros t Hin Ht Hft. eapply following_change; [exact Hft| |done|apply Hft|done|done]. cbn. apply lookup_insert_ne.
      intros E'. apply (owned_other l1 l2 s t Hown Hc Ht Hin). by rewrite <- E'. }
    rewrite Forall_forall in Hst1, Hst2. apply Forall_app. split; [|constructor].
    + apply Forall_forall. intros t Hin Ht. apply Hother; [apply elem_of_app; by left|done|by apply Hst1].
    + intros _. constructor; cbn.
      * eexists. rewrite lookup_insert_eq. by split.
      * lia.
      * lia.
      * rewrite Hrec. unfold after_sequence. replace (Z.to_nat (after + 1 - se_from s)) with (S (Z.to_nat (after - se_from s))) by lia.
        erewrite take_S_r; [done|]. rewrite lookup_drop, <- Hbk. f_equal. lia.
    + apply Forall_forall. intros t Hin Ht. apply Hother; [apply elem_of_app; by right|done|by apply Hst2].
Qed.

Lemma close_in_order base f f' l1 l2 ledger h hb first bs s stream :
  running base (mk_world f (l1 ++ s :: l2) ledger) h hb first bs -> LiveCommitStream_Close f (se_stream s) = (f', stream) ->
  running base (mk_world f' (l1 ++ mk_session stream (se_from s) (se_received s) :: l2) ledger) h hb first bs.
Proof.
  intros Hrun Hcl. pose proof Hrun as [Hl Hb Hsome Hled Hlog Hsq Hn Hp Hown Hst]. cbn in *. unfold LiveCommitStream_Close in Hcl.
  destruct (ls_closed (se_stream s)) eqn:Hc; injection Hcl as <- <-; [by destruct s|].
  apply Forall_app in Hst as [Hst1 Hst2]. apply Forall_cons in Hst2 as [_ Hst2]. rewrite Forall_forall in Hst1, Hst2.
  assert (Hother : forall t, t ∈ l1 ++ l2 -> ls_closed (se_stream t) = false -> following base f ledger first t ->
    following base (removePin f (ls_pinID (se_stream s))) ledger first t).
  { intros t Hin Ht Hft. eapply following_change; [exact Hft| |done|apply Hft|done|done]. cbn. apply lookup_delete_ne.
    intros E'. apply (owned_other l1 l2 s t Hown Hc Ht Hin). by rewrite <- E'. }
  constructor; cbn; try done.
  - apply logged_pins; [done|]. apply map_Forall_delete. by eapply logged_map.
  - intros id pin [_ Hl']%lookup_delete_Some. by eapply Hp.
  - rewrite owned_app, owned_cons in *. cbn. rewrite Hc in Hown. cbn in Hown. apply NoDup_app in Hown as (H1 & H2 & H3).
    apply NoDup_cons in H3 as [_ H3]. apply NoDup_app. split; [done|]. split; [|done]. intros x Hx Hx'. apply (H2 x Hx). by right.
  - apply Forall_app. split; [|constructor; [done|]]; apply Forall_forall; intros t Hin Ht; apply Hother; try done.
    + apply elem_of_app. by left.
    + by apply Hst1.
    + apply elem_of_app. by right.
    + by apply Hst2.
Qed.

(** Any description of the log will do. *)
Lemma relog base f ss ledger h hb first bs h' hb' first' bs' :
  running base (mk_world f ss ledger) h hb first bs -> logged f h' hb' first' bs' ->
  first = first' /\ running base (mk_world f ss ledger) h' hb' first bs'.
Proof.
  intros [Hl1 Hb Hs Hled Hlog Hsq Hn Hp Ho Hst] Hl. destruct (logged_unique _ _ _ _ _ _ _ _ _ Hl1 Hl) as [<- Hbs]. split; [done|].
  constructor; cbn in *; try done; [|by rewrite <- Hbs].
  destruct Hs as [? Hs]. split; [done|]. intros ->. apply Hs. by apply fmap_nil_inv in Hbs.
Qed.

Lemma step_in_order base w w' : step w w' -> in_order base w -> in_order base w'.
Proof.
  intros Hstep (h & hb & first & bs & Hrun). destruct Hstep.
  - destruct (relog _ _ _ _ _ _ _ _ _ _ _ _ Hrun H) as [<- Hrun'].
    pose proof (commit_built io f 1 build _ (lg_file _ _ _ _ _ H) ltac:(lia) H1) as Hc. rewrite H2 in Hc.
    pose proof (logged_append _ _ _ _ _ _ _ _ _ H H0 Hc) as Ha. destruct Hc as (_ & _ & Hsr & Hseq & _).
    by eapply append_in_order.
  - pose proof (commit_built io f 0 build _ (lg_file _ _ _ _ _ (rn_logged _ _ _ _ _ _ Hrun)) ltac:(lia) H) as Hc. rewrite H0 in Hc.
    pose proof (logged_keep _ _ _ _ _ _ _ (rn_logged _ _ _ _ _ _ Hrun) Hc) as Hl'. destruct Hc as (_ & _ & (Hr & _ & _ & _ & Hnp) & Hseq & _).
    destruct Hrun as [Hl1 Hb Hs Hled Hlog Hsq Hn Hp Ho Hst]. cbn in *. exists h, hb, first, bs.
    constructor; cbn; rewrite ?Hr, ?Hnp; try done; try lia; [destruct Hs as [? Hs]; split; [done|]; intros E; specialize (Hs E); lia|].
    rewrite Forall_forall in *. intros s Hin Hc. eapply following_change; [by apply Hst|by rewrite Hr|lia| |done|done].
    apply (Hst s Hin Hc).
  - unfold OpenLiveCommitStream in H0. destruct (historyAfter (f_root f) after) as [[]|] eqn:Eh; [|done].
    destruct (history_covers _ _ _ _ _ _ _ _ _ Hrun H Eh) as [Hb Hcov].
    destruct (addReaderPinUnlocked f after (RootPage (f_meta f)) true) as [[id|] f1] eqn:Ea; [|done]. injection H0 as <- <-.
    exists h, hb, first, bs. by eapply running_open.
  - unfold OpenSnapshotAndStreamAt in H0. destruct (historicalRootUnlocked fuel f (f_root f) sequence) as [root|] eqn:Eh; [|done].
    destruct (historical_covers _ _ _ _ _ _ _ _ _ _ _ Hrun H Eh) as [Hb Hcov]. exists h, hb, first, bs. by eapply pair_in_order.
  - destruct (relog _ _ _ _ _ _ _ _ _ _ _ _ Hrun H0) as [<- Hrun'].
    destruct (split_at _ _ _ H) as (l1 & l2 & -> & ->). exists h0, hb0, first, bs0. by eapply next_in_order.
  - destruct (split_at _ _ _ H) as (l1 & l2 & -> & ->). exists h, hb, first, bs. by eapply close_in_order.
  - exists h, hb, first, bs. by destruct (added_pin _ _ _ _ _ _ _ _ Hrun _ _ _ _ _ H H0) as (_ & _ & _ & _ & Hr).
  - exists h, hb, first, bs. apply running_pins; [done| |apply Hrun| |].
    + apply map_Forall_delete. apply (logged_map _ _ _ _ _ (rn_logged _ _ _ _ _ _ Hrun)).
    + intros id' pin [_ Hl']%lookup_delete_Some. by eapply (rn_pins _ _ _ _ _ _ Hrun).
    + intros s Hin Hc. apply lookup_delete_ne. intros E. by apply (unowned_elem id ss s H Hin Hc).
Qed.

Lemma begins_in_order base w : begins w base -> in_order base w.
Proof.
  intros (h & hb & bs & Hl & Hr & Hn & Hs & Hled & H0 & Hbs). destruct w as [f ss ledger]; cbn in *. subst ss ledger.
  pose proof (lg_sequence _ _ _ _ _ Hl) as Hseq. assert (Hz : zlen bs.*1 = zlen bs) by (unfold zlen; by rewrite length_fmap).
  exists h, hb, (base + 1), bs. constructor; cbn; try done; try lia.
  - split; [done|]. intros E. rewrite (Hbs E) in Hseq. rewrite E in Hseq. change (zlen []) with 0 in Hseq. lia.
  - unfold after_sequence. by replace (base + 1 - 1 - base) with 0 by lia.
  - intros k b Hk. rewrite list_lookup_fmap in Hk. destruct (bs !! k) as [[b' e]|] eqn:Ek; [|done]. injection Hk as <-.
    rewrite (logged_lookup f h hb (base + 1) bs (base + 1 + Z.of_nat k) b' e Hl); [done|lia|].
    by replace (Z.to_nat (base + 1 + Z.of_nat k - (base + 1))) with k by lia.
  - intros id pin. rewrite Hr. by rewrite lookup_empty.
  - constructor.
Qed.

Lemma steps_in_order base w w' : rtc step w w' -> in_order base w -> in_order base w'.
Proof. induction 1 as [|w1 w2 w3 Hs _ IH]; [done|]. intros Hw. apply IH. by eapply step_in_order. Qed.

(** Draining reaches the end of the ledger. *)
Lemma drain_running base l1 l2 ledger h hb first bs fuel n f s :
  running base (mk_world f (l1 ++ s :: l2) ledger) h hb first bs -> (h < fuel)%nat -> ls_closed (se_stream s) = false ->
  CommitSequence (f_meta f) <= ls_after (se_stream s) + Z.of_nat n ->
  let '(rest, f', stream') := drain n fuel f (se_stream s) in
  se_received s ++ rest = after_sequence base ledger (se_from s) /\ ls_after stream' = CommitSequence (f_meta f') /\
  f_meta f' = f_meta f /\ (LiveCommitStream_Next fuel f' stream').1.1 = Waiting.
Proof.
  revert f s; induction n as [|n IH]; intros f s Hrun Hfu Hc Hn; pose proof Hrun as [Hl Hb Hsome Hled Hlog Hsq Hnp Hp Hown Hst]; cbn in *.
  all: assert (Hfw : following base f ledger first s) by (rewrite Forall_forall in Hst; apply Hst; [apply elem_of_app; right; by left|done]).
  all: pose proof Hfw as [_ Hfrom Haft Hrec].
  all: assert (Hend : ls_after (se_stream s) = CommitSequence (f_meta f) -> se_received s = after_sequence base ledger (se_from s)) by
    (intros E; rewrite Hrec; apply take_ge; unfold after_sequence; rewrite length_drop; unfold zlen in *; lia).
  all: destruct (next_following base f ledger h hb first bs s fuel Hl Hb Hled Hlog Hfw Hc Hfu) as [[E En]|(Hlt & b & Hbk & En)].
  - rewrite app_nil_r, En. by auto.
  - lia.
  - rewrite En, app_nil_r, En. by auto.
  - pose proof (next_in_order base f _ l1 l2 ledger h hb first bs s fuel _ _ Hrun Hfu En) as Hrun'. rewrite En.
    set (f1 := set_pins _ _ _) in *. set (stream1 := mk_LiveCommitStream _ _ _ _) in *.
    specialize (IH f1 (advance_session s (Delivered b) stream1) Hrun' Hfu eq_refl). cbn [advance_session se_stream se_received se_from handed] in IH.
    destruct (drain n fuel f1 stream1) as [[rest f'] stream'] eqn:Ed. destruct IH as (H1 & H2 & H3 & H4).
    { change (CommitSequence (f_meta f) <= ls_after (se_stream s) + 1 + Z.of_nat n). lia. }
    rewrite <- app_assoc in H1. split; [exact H1|]. split; [exact H2|]. split; [exact H3|exact H4].
Qed.

(** C6: commits, live streams, snapshots, cursors and other readers of one file,
    interleaved in any order: what a stream has handed its subscriber, followed by
    what it hands out when drained, is exactly the sequence of batches committed
    after the sequence it was opened at, each once, in order and without a gap,
    whatever retention has removed from the log; then it waits at the newest
    commit, without an error. *)
Theorem live_streams_deliver base w w' i s :
  begins w base -> rtc step w w' -> w_sessions w' !! i = Some s -> ls_closed (se_stream s) = false ->
  exists n, forall fuel, (n < fuel)%nat ->
    let '(rest, f', stream') := drain (length (w_ledger w')) fuel (w_file w') (se_stream s) in
    se_received s ++ rest = after_sequence base (w_ledger w') (se_from s) /\
    (forall k b, (se_received s ++ rest) !! k = Some b -> bt_Sequence b = se_from s + 1 + Z.of_nat k) /\
    ls_after stream' = CommitSequence (f_meta (w_file w')) /\ (LiveCommitStream_Next fuel f' stream').1.1 = Waiting.
Proof.
  intros Hbegin Hsteps Hi Hc. destruct (steps_in_order base w w' Hsteps (begins_in_order base w Hbegin)) as (h & hb & first & bs & Hrun).
  destruct w' as [f ss ledger]; cbn in *. destruct (split_at _ _ _ Hi) as (l1 & l2 & -> & _). exists h. intros fuel Hfu.
  pose proof Hrun as [Hl Hb Hsome Hled Hlog Hsq _ _ _ Hst]. cbn in *.
  assert (Hfw : following base f ledger first s) by (rewrite Forall_forall in Hst; apply Hst; [apply elem_of_app; right; by left|done]).
  pose proof Hfw as [_ Hfrom Haft _].
  pose proof (drain_running base l1 l2 ledger h hb first bs fuel (length ledger) f s Hrun Hfu Hc ltac:(unfold zlen in *; lia)) as Hd.
  destruct (drain (length ledger) fuel f (se_stream s)) as [[rest f'] stream']. destruct Hd as (H1 & H2 & H3 & H4).
  split; [done|]. split; [|split; [by rewrite <- H3|done]].
  intros k b Hk. rewrite H1 in Hk. unfold after_sequence in Hk. rewrite lookup_drop in Hk. rewrite (Hsq _ _ Hk). lia.
Qed.
