(* ===== verification/StorageExamples.v ===== *)
(** * Concrete runs of the storage theorems

    The theorems on stored values, the commit log and the records of indexes,
    applied in the first transaction of a new database file. *)
From stdpp Require Import gmap.
From S2P Require Import Prelude Bytes Strings Layout Entries Hashes PageFormat Records NodeCodec CowTree TreeShape.
From S2P Require Import TreeInvariant TreeRep TreeDelete TreeScan Tree Flush FileStore Recovery Commit Atomicity.
From S2P Require Import TreeRead Snapshots Transactions Created StoredValues CommitCodec IndexRecords IndexBuilds.
From S2P Require Import SystemRecords CommitLog CommitHistory SnapshotReads CommitStreams Replication StreamDelivery.
#[local] Open Scope Z_scope.

(** The first transaction of the new file. *)
Lemma example_written : exists tx, beginUpdate example_created 1 = Ok tx /\ written [] tx.
Proof.
  destruct example_ok as [Hf Hr]. destruct example_begins as [tx Hb]. exists tx. split; [exact Hb|].
  by destruct (begin_written example_created 1 tx Hf ltac:(lia) Hb).
Qed.

Lemma stored_values_roundtrip_witness :
  exists tx, beginUpdate example_created 1 = Ok tx /\ keeps_value loadDocumentValue [] tx (bs "value") (storeDocumentValue tx (bs "value")) /\
    keeps_value loadSystemValue [] tx (bs "value") (storeSystemValue tx (bs "value")) /\
    keeps_value loadCommitValue [] tx [] (storeCommitValue tx []).
Proof.
  destruct example_written as (tx & Hb & Hw). exists tx. split; [exact Hb|].
  destruct (stored_values_roundtrip [] tx (bs "value") Hw ltac:(constructor)) as (H1 & H2 & _).
  destruct (stored_values_roundtrip [] tx [] Hw ltac:(constructor)) as (_ & _ & H3).
  split; [|split]; [exact H1|exact H2|exact H3].
Defined.

Lemma stored_values_terminate_witness :
  exists tx, beginUpdate example_created 1 = Ok tx /\ loadDocumentValue tx (replicate 49 x01) <> Err ErrFuel.
Proof.
  destruct example_written as (tx & Hb & Hw). exists tx. split; [exact Hb|].
  apply (stored_values_terminate tx (replicate 49 x01)). apply (w_ok _ _ Hw).
Defined.

Definition example_change : CommitChange := mk_CommitChange 7 [] example_id 1 [bs "name"; bs "age"] [] (bs "document") None None.

Lemma example_change_ok : change_ok example_change.
Proof. split; [unfold u32; cbn; lia|]. split; [reflexivity|]. split; unfold u64; cbn; lia. Qed.

Lemma commit_change_roundtrip_witness :
  exists encoded, encodeCommitChange example_change = Ok encoded /\
    decodeCommitChange encoded = Ok (mk_CommitChange 7 [] example_id 1 [bs "age"; bs "name"] [] (bs "document") None None) /\
    encodeCommitChange (mk_CommitChange 7 [] example_id 1 [bs "age"; bs "name"] [] (bs "document") None None) = Ok encoded.
Proof.
  destruct commit_change_roundtrip as [H1 H2].
  destruct (encodeCommitChange example_change) as [encoded|e] eqn:E; [|vm_compute in E; discriminate E].
  assert (Hd : decodeCommitChange encoded = Ok (mk_CommitChange 7 [] example_id 1 [bs "age"; bs "name"] [] (bs "document") None None)).
  { apply (H1 example_change encoded [bs "age"; bs "name"] example_change_ok E). vm_compute. reflexivity. }
  exists encoded. split; [reflexivity|]. split; [exact Hd|]. apply (H2 _ _ Hd). vm_compute. reflexivity.
Defined.

Definition example_index : IndexMeta :=
  mk_IndexMeta (bs "by_name_age") [] [mk_IndexField (bs "name") 1; mk_IndexField (bs "age") (-1)] true 12 5 3 9 0.

Lemma index_definition_roundtrip_witness :
  exists encoded, encodeIndexMeta example_index = Ok encoded /\
    decodeIndexMeta (bs "by_name_age") encoded = Ok (storedIndexMeta example_index (idx_Fields example_index)).
Proof.
  destruct index_definition_roundtrip as [H1 _].
  destruct (encodeIndexMeta example_index) as [encoded|e] eqn:E; [|vm_compute in E; discriminate E].
  exists encoded. split; [reflexivity|]. assert (Hok : index_ok example_index) by (unfold index_ok, u64; cbn; lia).
  destruct (H1 example_index encoded Hok E) as (fields & Hn & Hd). vm_compute in Hn. injection Hn as <-. exact Hd.
Defined.

(** ** The first commit of the log *)

Definition example_batch : CommitBatch := mk_CommitBatch 1 (replicate 16 x07) 1700000000000 0 [example_change].
Definition example_stored_batch : CommitBatch :=
  mk_CommitBatch 1 (replicate 16 x07) 1700000000000 0
    [mk_CommitChange 7 [] example_id 1 [bs "age"; bs "name"] [] (bs "document") None None].

Lemma example_append :
  match beginUpdate example_created 1 with
  | Ok tx => is_ok (AppendCommitRetained 20 tx 0 0 example_batch)
  | Err _ => false
  end = true.
Proof. vm_compute. reflexivity. Qed.

Lemma example_first : match beginUpdate example_created 1 with
  | Ok tx => tx_sequence tx = 1 /\ tx_retainedCommitBytes tx = 0 /\ root_IndexBuildCatalogRoot (tx_baseRoot tx) = 0 /\ f_readers (tx_file tx) = ∅
  | Err _ => False end.
Proof. vm_compute. done. Qed.

Lemma held_nothing tx kind h : held tx kind h 0 [].
Proof. exists O. split; [lia|by left]. Qed.

Lemma commit_log_retention_witness :
  exists tx, beginUpdate example_created 1 = Ok tx /\
  match AppendCommitRetained 20 tx 0 0 example_batch with
  | Err _ => False
  | Ok (root, keepFrom, tx') => keepFrom = 1 /\
      exists log, OpenTree tx' TreeCommitLog root = Ok log /\ readCommitFromTree 20 tx' log 1 = Ok example_stored_batch
  end.
Proof.
  destruct example_written as (tx & Hb & Hw). exists tx. split; [exact Hb|].
  pose proof example_append as Hap. pose proof example_first as Hfirst. rewrite Hb in Hap, Hfirst. destruct Hfirst as (Hs & Hret & Hib & Hrd).
  assert (Happ : appendable tx example_batch).
  { constructor; cbn [example_batch bt_Sequence bt_TransactionID bt_CommittedAt bt_CatalogRoot bt_Changes];
      [by rewrite Hs|reflexivity|lia|unfold u64; lia|]. constructor; [apply example_change_ok|constructor]. }
  pose proof (commit_log_retention 20 tx 0 0 example_batch [] 0 1 [] 0 [] Hw (held_nothing _ _ _) eq_refl Happ) as Hr.
  rewrite Hs, Hret, Hib, Hrd in Hr. specialize (Hr eq_refl ltac:(lia) eq_refl eq_refl eq_refl ltac:(change (length (bt_Changes example_batch)) with 1%nat; change (length (@nil KeyValue)) with O; lia)
    (held_nothing _ _ _) ltac:(lia) ltac:(constructor)).
  destruct (AppendCommitRetained 20 tx 0 0 example_batch) as [[[root keepFrom] tx']|]; [|discriminate Hap].
  destruct Hr as (changes & encoded & removed & rest & Hnorm & Happs & -> & Hle & (log & Ho & Hread) & _).
  assert (removed = []) as ->.
  { destruct removed as [|x removed]; [reflexivity|]. exfalso. rewrite zlen_cons in Hle. pose proof (zlen_nonneg removed).
    change (bt_Sequence example_batch) with 1 in Hle. lia. }
  split; [reflexivity|]. exists log. split; [exact Ho|].
  assert (Hst : normal_batch example_batch changes = example_stored_batch).
  { inversion Hnorm as [|? ? ? ? (paths & Hp & ->) Hnil]; subst. inversion Hnil; subst. vm_compute in Hp. injection Hp as <-. reflexivity. }
  rewrite <- Hst. change 1 with (bt_Sequence (normal_batch example_batch changes)). apply (Hread _ encoded). cbn [app] in Happs. rewrite <- Happs. by left.
Defined.

(** ** A run of commits and streams

    A stream opened on a file that was just created, a commit, and the delivery
    theorem at that world. *)
Lemma created_logged : logged example_created 0 0 1 [].
Proof. destruct example_ok as [Hf Hr]. apply logged_empty; [exact Hf|exact Hr|reflexivity|reflexivity|reflexivity]. Qed.

(** The file with a stream that starts at the beginning. *)
Definition example_opened : result LiveCommitStream * File := OpenLiveCommitStream example_created 0.
Definition example_stream : LiveCommitStream := mk_LiveCommitStream 1 0 0 false.
Definition example_noop : CommitBatch := noopBatch 1 0 (replicate 16 x07) 1700000000000.

Lemma example_opens : example_opened.1 = Ok example_stream.
Proof. vm_compute. reflexivity. Qed.

Lemma opened_logged : logged example_opened.2 0 0 1 [].
Proof.
  unfold example_opened, OpenLiveCommitStream.
  destruct (historyAfter (f_root example_created) 0) as [[]|] eqn:Eh; [|vm_compute in Eh; discriminate Eh].
  unfold addReaderPinUnlocked. destruct (to_u64 (f_nextPin example_created + 1) =? 0); cbn [snd]; apply logged_pins; try exact created_logged.
  - by eapply logged_map, created_logged.
  - apply map_Forall_insert_2; [unfold u64; cbn; lia|]. by eapply logged_map, created_logged.
Qed.

Lemma example_appends : (updateUnlockedAdvance always example_opened.2 1 (replicationNoop 20 (replicate 16 x07) 1700000000000)).1.1 = None.
Proof. vm_compute. reflexivity. Qed.

Lemma opened_built :
  built example_opened.2 1 (replicationNoop 20 (replicate 16 x07) 1700000000000) (logs 20 0 [] example_noop).
Proof.
  pose proof (replicationNoop_built example_opened.2 0 0 1 [] 20 (replicate 16 x07) 1700000000000 opened_logged) as H.
  assert (Hs : CommitSequence (f_meta example_opened.2) = 0) by (vm_compute; reflexivity).
  assert (Hr : root_CatalogRoot (f_root example_opened.2) = 0) by (vm_compute; reflexivity). rewrite Hs, Hr in H.
  apply H; [lia|cbn; lia|cbn; lia|reflexivity|lia|]. exists O, []. apply held_nothing.
Qed.

Lemma live_streams_deliver_witness :
  exists f', let w' := mk_world f' [opened example_stream] [example_noop] in
    rtc step (mk_world example_created [] []) w' /\
    exists n, forall fuel, (n < fuel)%nat -> (drain 1 fuel f' example_stream).1.1 = [example_noop].
Proof.
  pose proof example_appends as Ho.
  destruct (updateUnlockedAdvance always example_opened.2 1 (replicationNoop 20 (replicate 16 x07) 1700000000000)) as [[outcome f'] trace] eqn:Hup.
  cbn in Ho. subst outcome. exists f'. cbn zeta.
  assert (Hsteps : rtc step (mk_world example_created [] []) (mk_world f' [opened example_stream] [example_noop])).
  { eapply rtc_l; [|eapply rtc_l; [|apply rtc_refl]].
    - eapply (step_open _ example_opened.2 [] [] 0 example_stream); [lia|].
      rewrite <- example_opens. unfold example_opened. by destruct (OpenLiveCommitStream example_created 0).
    - apply (step_append always example_opened.2 f' trace [opened example_stream] [] 0 0 1 [] 20 _ example_noop [noopChange]
        opened_logged ltac:(lia) opened_built Hup).
      constructor; [|constructor]. exists [bs "_replication.noop"]. split; [vm_compute; reflexivity|reflexivity]. }
  split; [exact Hsteps|].
  destruct (live_streams_deliver 0 (mk_world example_created [] []) (mk_world f' [opened example_stream] [example_noop]) 0 (opened example_stream)) as (n & Hn).
  - exists 0%nat, 0%nat, []. split; [exact created_logged|]. split; [reflexivity|]. split; [unfold u64; cbn; lia|].
    split; [reflexivity|]. split; [reflexivity|]. split; [lia|reflexivity].
  - exact Hsteps.
  - reflexivity.
  - reflexivity.
  - exists n. intros fuel Hfu. specialize (Hn fuel Hfu). cbn [w_ledger w_file length opened se_stream] in Hn.
    destruct (drain 1 fuel f' example_stream) as [[rest f''] stream']. destruct Hn as (Hn & _). exact Hn.
Defined.
